(* ===== verification/_CoqProject ===== *)
-Q . S2P
Prelude.v
ArrayUtil.v
BitUtil.v
Utf8.v
DataOutput.v
DataInput.v
Streams.v
GroupVInt.v
ByteBuffersDataInput.v
FixedBitSet.v
StringHelper.v
ByteBlockPool.v
BytesRefHash.v
BytesRefHashProofs.v
BytesRefDictionary.v
ByteSlices.v
ByteSliceProofs.v
TermsHash.v
TermsHashProofs.v
TermStreams.v
IndexFileNames.v
SegmentInfos.v
DeletionPolicy.v
FileDeleter.v
IndexFileDeleter.v
IndexFileDeleterProofs.v
IndexFileDeleterOpening.v
Heap.v
PriorityQueue.v
LongHeap.v
Disi.v
FreqProx.v
FreqProxProofs.v
Postings.v
PostingsEnums.v
Conjunction.v
Disjunction.v
Sorter.v
SorterProofs.v
HeapSort.v
IntroSorter.v
ArraySorts.v
RadixSorter.v
RadixProofs.v
RadixSorts.v
IntroSelector.v
