(* ===== verification/Prelude.v ===== *)
(** * A verification library for the core of RLucene

    RLucene is a search library in Rust; its own logic lives under src/src/core. This library
    models a bottom-up slice of it, translated function by function, and proves what makes
    each part correct. The file names below are relative to src/src/core.

    ** The parts of the program and how they interact

    - Byte streams. [DataOutput] and [DataInput] (store/data_output.rs, data_input.rs) are traits with
      a few required methods; everything the index writes goes through their default methods:
      variable-length integers, strings, maps, groups of integers ([GroupVIntUtil],
      util/group_vint_util.rs). Implementations write to arrays and read from arrays, backwards
      (for transducers), or from a row of blocks ([ByteBuffersDataInput]).
    - Sets and iterators of documents. [FixedBitSet] (util/fixed_bit_set.rs); the trait
      [DocIdSetIterator] (search/) with its implementations; conjunctions and disjunctions of
      iterators, the latter over a priority queue of wrappers.
    - Heaps and sorters: [PriorityQueue], [LongHeap], the [Sorter] trait with merge, heap, insertion
      and intro sort, [IntroSelector], and the radix sort of byte strings ([MSBRadixSorter]), which
      falls back on intro sort.
    - The dictionary of the in-memory index: a pool of byte blocks ([ByteBlockPool]), terms in it
      ([BytesRefBlockPool]), and an open-addressing table over them ([BytesRefHash]).
    - The in-memory postings: every term of a field has a row of byte streams, kept as chains of
      slices in the byte pool with their write addresses in a pool of integers ([ByteSlicePool],
      [ByteSliceReader], [TermsHashPerField] in index/); on top of them the writer of documents,
      frequencies, positions, offsets and payloads and its enumerators
      (index/freq_prox_terms_writer_per_field.rs, freq_prox_fields.rs).
    - The life cycle of index files: names and generations ([IndexFileNames], [SegmentInfos]),
      reference counts ([FileDeleter]), commits and deletion policies, and the deleter of the index
      writer ([IndexFileDeleter]), which composes them.

    ** Files

    - Prelude: outcomes ([result]), the state monad [ST] of [&mut self] methods, in which the state
      survives an error as it does in Rust, triples with an exceptional postcondition ([ends]), loops
      with a measure, machine integers as [Z] with their wrap-around, indexed vectors, bit-level
      automation.
    - ArrayUtil, BitUtil, Utf8: over-allocation and range checks; zig-zag, interleaving and the
      fixed-width accessors; the encoding of strings.
    - DataOutput, DataInput, Streams, GroupVInt, ByteBuffersDataInput: the streams. The traits are
      classes, [DataOutputSpec] and [DataInputSpec] their contracts; Streams proves every client
      against the contracts only.
    - FixedBitSet; Disi (the class [DocIdSetIterator] and its laws [DisiSpec]), Conjunction,
      Disjunction.
    - Heap (heaps as pure functions), PriorityQueue, LongHeap.
    - Sorter (model), SorterProofs, HeapSort, IntroSorter, ArraySorts, IntroSelector; RadixSorter
      (model), RadixProofs (buckets, keys, the sort against the class [RadixSpec] of what its delegate
      promises), RadixSorts (the trait's default methods keep the promise).
    - StringHelper (comparison, mismatch, hashing), ByteBlockPool, BytesRefHash (model),
      BytesRefHashProofs, BytesRefDictionary.
    - ByteSlices (model of slices and their reader), ByteSliceProofs; TermsHash (model),
      TermsHashProofs, TermStreams; FreqProx (model of the writer and the enumerators),
      FreqProxProofs (the columns, the codes and one token), Postings (the field as a list of postings
      per term), PostingsEnums (the enumerators).
    - IndexFileNames, SegmentInfos (with [inflate_gens]), DeletionPolicy, FileDeleter,
      IndexFileDeleter (model), IndexFileDeleterProofs, IndexFileDeleterOpening.

    ** What the theorems show

    - Streams: what any conforming output writes, any conforming input reads back, to the byte;
      short input is an end-of-file error; the fast paths (blocks, groups, vectors) agree with the
      byte-at-a-time definitions; values out of range are the documented errors.
    - Sets: every operation of the bit set is the set operation on the indices of its one bits and
      keeps the bits past its length clear, the union and the symmetric difference exactly when the
      other set has no bit past that length; searches find the nearest bit.
    - Iterators: a conjunction lists the intersection and a disjunction the union of its parts, in
      ascending order, and every move returns, on the first match. With two-phase scorers
      [DisjunctionScorer::prepare] puts a two-phase iterator over the union of the approximations;
      which of these documents it confirms is not modelled.
    - Heaps and sorters: heap order, permutation, least element; sorted and, where promised, stable
      results, for comparators that may fail; selection; the radix sort sorts by keys as byte strings
      and looks at no more bytes than the longest key has.
    - Dictionary: appended bytes are read back across blocks; the hash refines a list of distinct
      terms on every branch, rehashing and overflow included.
    - Postings streams: a write appends to the one stream it is meant for, whatever slices it takes
      from the shared pools, and overflows only near two gigabytes; a reader gives back every byte.
    - Postings: a field refines a list of terms with their documents, frequencies and occurrences,
      which every token extends at one place; the two enumerators give that list back, documents,
      positions, offsets and payloads, and may skip positions. One field has the pools to itself;
      terms of it share them.
    - Index files: a file with a reference left is never deleted, along every sequence of calls and
      whatever deletions fail; commits and snapshots behave as their policies promise; opening an
      index loses nothing and, where it has a commit, leaves no garbage; names are read back; new
      generations are fresh. These hold for an info stream whose messages never fail
      ([QuietInfoStream]); a message that fails can cost a commit its files
      ([message_failure_loses_file]).

    ** Modelling choices

    - Debug assertions and overflow checks are on, as in a test build: a failed assertion or an
      unchecked overflow is [Panic], where the modelled values can reach it ([exact_u], [exact_s]: the
      sums of positions and offsets on [usize] in random-access reads, the sums of costs on [i64]);
      the wrapping operations of the source wrap.
    - A loop of the source without a bound of its own runs as [loop k], at most 2^k turns; k is 32 or
      33 where the counter is an i32 and its sum, so that the bound is never met, and the theorems
      that state an [Ok] exclude [OutOfFuel]. Recursions on a range take the length of the range as
      fuel, the radix sort a bound of the keys.
    - Parameters, with what is documented of them as named hypotheses: comparators, the random source
      of shuffles, the iteration order of hash sets, the swizzle and the lane comparison of the wide
      crate, the hash seed of the process, [BigInt::to_str_radix], Unicode lower case, the directory,
      the debug stream, the reader of segments files.
    - Shared mutable objects are explicit: the marks of commits are a store keyed by the identity of
      the commit, the debug stream is a state of its own, counters shared through [Arc] are fields.

    ** Not modelled

    RAM accounting, texts of messages and suppressed errors; locks and threads (the modelled types are
    used under the lock of their owner); the Windows branch of file deletion; file-system directories;
    the codecs, which are clients of the streams; scoring, vectors and geometry, which compute with
    floats; automata and transducers; persistent snapshots, which are I/O; analysis and the modules
    beside core.

    ** Plan

    Next: the sort of the dictionary over the radix sorter, the Tim sorter (which completes the
    constructors of conjunctions), packed integers, the other document sets, two-phase
    iterators; the sorted terms of a field and the flush of its postings, term vectors. *)

From Stdlib Require Import ZArith Lia Bool.
From stdpp Require Import base tactics numbers list.

Local Open Scope Z_scope.

(** * Outcomes of Rust code *)

(** The kinds of [LuceneErrorKind]; the payloads (messages, suppressed
    errors) play no part in control flow and are left out. *)
Inductive LuceneErrorKind : Type :=
| AlreadyClosed | ArrayIndexOutOfBounds | BufferAllocation | CollectionTerminated
| ConcurrentModification | CorruptIndex | Eof | Fmt | FromUtf8Error | FuzzyTerms
| IllegalArgument | IllegalState | IndexFormatTooNew | IndexFormatTooOld
| IndexNotFound | Io | IoWithPath | LockAlreadyHeld | LockHeldByOther
| LockObtainFailed | LockReleaseFailed | MaxBytesLengthExceeded | Merge
| MergeAborted | NeedImplemented | NoMoreTerms | NoSuchElement | NoSuchFile
| NotImplemented | NumberFormat | NumberOverflow | ParseIntError | TimeExceeded
| TooComplexToDeterminize | TooManyClauses | TooManyNestedClauses | Tragedy
| UncheckedIO | Unreachable | UnsupportedOperation | Utf8Error | VersionError.

#[export] Instance LuceneErrorKind_eq_dec : EqDecision LuceneErrorKind.
Proof. solve_decision. Defined.

(** [Ok] and [Err] are Rust's [Result]; [Panic] is an out-of-range slice index
    (or another Rust panic); [OutOfFuel] is no outcome of the program: it is what
    a loop of the model returns when its bound was too small, and every theorem
    that states an [Ok] excludes it. *)
Inductive result (A : Type) : Type :=
| Ok (a : A)
| Err (e : LuceneErrorKind)
| Panic
| OutOfFuel.
Arguments Ok {A} a.
Arguments Err {A} e.
Arguments Panic {A}.
Arguments OutOfFuel {A}.

Definition rbind {A B : Type} (m : result A) (k : A -> result B) : result B :=
  match m with
  | Ok a => k a
  | Err e => Err e
  | Panic => Panic
  | OutOfFuel => OutOfFuel
  end.

(** A [&mut self] method: the state survives an error, as it does in Rust. *)
Definition ST (S A : Type) : Type := S -> result A * S.

Definition sret {S A : Type} (a : A) : ST S A := fun s => (Ok a, s).
Definition sbind {S A B : Type} (m : ST S A) (k : A -> ST S B) : ST S B :=
  fun s =>
    match m s with
    | (Ok a, s') => k a s'
    | (Err e, s') => (Err e, s')
    | (Panic, s') => (Panic, s')
    | (OutOfFuel, s') => (OutOfFuel, s')
    end.
Definition sget {S : Type} : ST S S := fun s => (Ok s, s).
Definition sput {S : Type} (s : S) : ST S unit := fun _ => (Ok tt, s).
Definition slift {S A : Type} (r : result A) : ST S A := fun s => (r, s).

Declare Scope rust_scope.
Delimit Scope rust_scope with rust.

Notation "'let?' x ':=' m 'in' k" := (rbind m (fun x => k))
  (at level 10, x pattern, m at level 100, k at level 200,
   format "'[v' 'let?'  x  ':='  m  'in' '/' k ']'") : rust_scope.
Notation "'let*' x ':=' m 'in' k" := (sbind m (fun x => k))
  (at level 10, x pattern, m at level 100, k at level 200,
   format "'[v' 'let*'  x  ':='  m  'in' '/' k ']'") : rust_scope.
Open Scope rust_scope.

Lemma rbind_ok {A B} (m : result A) (k : A -> result B) b :
  rbind m k = Ok b -> exists a, m = Ok a /\ k a = Ok b.
Proof. destruct m; simpl; try discriminate; eauto. Qed.

Lemma sbind_ok {S A B} (m : ST S A) (k : A -> ST S B) s a s' :
  m s = (Ok a, s') -> sbind m k s = k a s'.
Proof. unfold sbind. by intros ->. Qed.

Lemma sbind_inv {S A B} (m : ST S A) (k : A -> ST S B) s b s'' :
  sbind m k s = (Ok b, s'') ->
  exists a s', m s = (Ok a, s') /\ k a s' = (Ok b, s'').
Proof. unfold sbind. destruct (m s) as [[] ?]; try discriminate; eauto. Qed.

Lemma slift_sbind {S A B} (r : result A) (k : A -> ST S B) s :
  sbind (slift r) k s
  = match r with Ok a => k a s | Err e => (Err e, s) | Panic => (Panic, s) | OutOfFuel => (OutOfFuel, s) end.
Proof. by destruct r. Qed.

Lemma sget_sbind {S A} (k : S -> ST S A) s : sbind sget k s = k s s.
Proof. done. Qed.
Lemma sput_sbind {S A} x (k : unit -> ST S A) s : sbind (sput x) k s = k tt x.
Proof. done. Qed.
Lemma sbind_assoc {S A B C} (m : ST S A) (k : A -> ST S B) (h : B -> ST S C) s :
  sbind (sbind m k) h s = sbind m (fun a => sbind (k a) h) s.
Proof. unfold sbind. by destruct (m s) as [[]]. Qed.
Lemma sret_sbind {S A B} (a : A) (k : A -> ST S B) s : sbind (sret a) k s = k a s.
Proof. done. Qed.

Lemma sbind_cases {S A B} (m : ST S A) (k : A -> ST S B) s r s' : sbind m k s = (r, s') ->
  (exists a s1, m s = (Ok a, s1) /\ k a s1 = (r, s')) \/ (exists r1, m s = (r1, s') /\ forall b, r <> Ok b).
Proof.
  unfold sbind. destruct (m s) as [[a|e| |] s1]; [eauto|intros [= <- <-]; right; eauto..].
Qed.

Lemma sbind_same {S A B} (m m' : ST S A) (k : A -> ST S B) s s' : m s = m' s' -> sbind m k s = sbind m' k s'.
Proof. unfold sbind. by intros ->. Qed.

(** * Outcomes of a program: what holds after a success, what holds after a failure *)

Definition ends {S A} (N : A -> S -> Prop) (E : S -> Prop) (m : ST S A) (s : S) : Prop :=
  match m s with
  | (Ok a, s') => N a s'
  | (_, s') => E s'
  end.

Section Ends.
Context {S A B : Type}.
Implicit Types (m : ST S A) (k : A -> ST S B).

Lemma ends_bind (N1 : A -> S -> Prop) (N : B -> S -> Prop) (E : S -> Prop) m k s :
  ends N1 E m s -> (forall a s1, N1 a s1 -> ends N E (k a) s1) -> ends N E (sbind m k) s.
Proof. unfold ends, sbind. intros H1 H2. destruct (m s) as [[a|e| |] s1]; [by apply H2|done..]. Qed.

Lemma ends_ret (N : A -> S -> Prop) E a s : N a s -> ends N E (sret a) s.
Proof. done. Qed.

Lemma ends_lift (N : A -> S -> Prop) (E : S -> Prop) r s : E s -> (forall a, r = Ok a -> N a s) -> ends N E (slift r) s.
Proof. intros HE HN. unfold ends, slift. destruct r; auto. Qed.

Lemma ends_weaken (N N' : A -> S -> Prop) (E E' : S -> Prop) m s : ends N E m s ->
  (forall a s', N a s' -> N' a s') -> (forall s', E s' -> E' s') -> ends N' E' m s.
Proof. unfold ends. intros H HN HE. destruct (m s) as [[]]; auto. Qed.

Lemma ends_run (N : A -> S -> Prop) E m s : (forall r s', m s = (r, s') -> match r with Ok a => N a s' | _ => E s' end) -> ends N E m s.
Proof. unfold ends. intros H. destruct (m s) as [[] s'] eqn:Em; apply (H _ _ eq_refl). Qed.
End Ends.

Lemma ends_get {S B} (N : B -> S -> Prop) E (k : S -> ST S B) s : ends N E (k s) s -> ends N E (sbind sget k) s.
Proof. done. Qed.

(** [debug_assert!(b)]: the assertion is checked, as in a debug build. *)
Definition debug_assert (b : bool) : result unit := if b then Ok tt else Panic.

Lemma debug_assert_true {A} b (k : unit -> result A) :
  b = true -> rbind (debug_assert b) k = k tt.
Proof. by intros ->. Qed.

(** * Loops with no bound of their own *)

(** At most [2^k] turns of [step], stopping as soon as it answers [inr]. *)
Fixpoint turns {S X A : Type} (k : nat) (step : X -> ST S (X + A)) (x : X) : ST S (X + A) :=
  match k with
  | O => step x
  | S k =>
      let* r := turns k step x in
      match r with
      | inl x' => turns k step x'
      | inr a => sret (inr a)
      end
  end.

Definition loop {S X A : Type} (k : nat) (step : X -> ST S (X + A)) (x : X) : ST S A :=
  let* r := turns k step x in
  match r with
  | inl _ => slift OutOfFuel
  | inr a => sret a
  end.

Section Loops.
Context {S X A : Type} (step : X -> ST S (X + A)).
Context (Inv : X -> S -> Prop) (Post : A -> S -> Prop) (measure : X -> S -> Z).
Hypothesis measure_pos : forall x s, Inv x s -> 0 <= measure x s.
Hypothesis step_ok : forall x s, Inv x s -> exists r s', step x s = (Ok r, s') /\
  match r with
  | inl x' => Inv x' s' /\ measure x' s' < measure x s
  | inr a => Post a s'
  end.

Lemma turns_ok k : forall x s, Inv x s -> exists r s', turns k step x s = (Ok r, s') /\
  match r with
  | inl x' => Inv x' s' /\ measure x' s' + 2 ^ Z.of_nat k <= measure x s
  | inr a => Post a s'
  end.
Proof.
  induction k as [|k IH]; intros x s Hx; cbn [turns].
  - destruct (step_ok x s Hx) as (r & s' & Hs & Hr). exists r, s'. split; [done|].
    destruct r; [|done]. change (2 ^ Z.of_nat 0) with 1. split; [apply Hr|lia].
  - destruct (IH x s Hx) as (r & s' & Hs & Hr). erewrite sbind_ok by exact Hs.
    destruct r as [x'|a]; [|by exists (inr a), s'].
    destruct Hr as [Hx' Hm]. destruct (IH x' s' Hx') as (r & s'' & Hs' & Hr). exists r, s''.
    split; [done|]. destruct r; [|done]. rewrite Nat2Z.inj_succ, Z.pow_succ_r by lia.
    split; [apply Hr|lia].
Qed.

(** A loop whose measure falls at every turn ends with its postcondition. *)
Lemma loop_ok k x s : Inv x s -> measure x s < 2 ^ Z.of_nat k ->
  exists a s', loop k step x s = (Ok a, s') /\ Post a s'.
Proof.
  intros Hx Hk. destruct (turns_ok k x s Hx) as (r & s' & Hs & Hr).
  unfold loop. erewrite sbind_ok by exact Hs. destruct r as [x'|a]; [|by exists a, s'].
  destruct Hr as [Hx' Hm]. pose proof (measure_pos _ _ Hx'). lia.
Qed.
End Loops.

(** * Machine integers *)

(** A [w]-bit unsigned integer is a [Z] in [0, 2^w); a [w]-bit signed one is a
    [Z] in [-2^(w-1), 2^(w-1)), on which [Z.land], [Z.lor], [Z.lxor], [Z.lnot]
    and [Z.shiftr] are the two's complement operations. *)
Definition wrap_u (w x : Z) : Z := x mod 2 ^ w.
Definition wrap_s (w x : Z) : Z := (x + 2 ^ (w - 1)) mod 2 ^ w - 2 ^ (w - 1).

Abbreviation as_u8 := (wrap_u 8).
Abbreviation as_u16 := (wrap_u 16).
Abbreviation as_u32 := (wrap_u 32).
Abbreviation as_u64 := (wrap_u 64).
Abbreviation as_i16 := (wrap_s 16).
Abbreviation as_i32 := (wrap_s 32).
Abbreviation as_i64 := (wrap_s 64).

Definition in_u (w x : Z) : Prop := 0 <= x < 2 ^ w.
Definition in_s (w x : Z) : Prop := - 2 ^ (w - 1) <= x < 2 ^ (w - 1).

#[export] Instance in_u_dec w x : Decision (in_u w x).
Proof. unfold in_u. apply _. Defined.
#[export] Instance in_s_dec w x : Decision (in_s w x).
Proof. unfold in_s. apply _. Defined.

Definition i32_MAX : Z := 2147483647.
Definition i64_MAX : Z := 9223372036854775807.

(** Checked arithmetic: the value, or a panic where it leaves the type. *)
Definition exact_u (w x : Z) : result Z := if decide (in_u w x) then Ok x else Panic.
Definition exact_s (w x : Z) : result Z := if decide (in_s w x) then Ok x else Panic.

Lemma exact_u_ok w x : in_u w x -> exact_u w x = Ok x.
Proof. intros. unfold exact_u. by rewrite decide_True. Qed.

Lemma exact_s_ok w x : in_s w x -> exact_s w x = Ok x.
Proof. intros. unfold exact_s. by rewrite decide_True. Qed.

(** * Vectors indexed by a machine integer: an index out of range panics. *)
Definition vget {A} (v : list A) (i : Z) : result A :=
  if i <? 0 then Panic else
  match v !! Z.to_nat i with Some x => Ok x | None => Panic end.

Definition vset {A} (v : list A) (i : Z) (x : A) : result (list A) :=
  if (0 <=? i) && (i <? Z.of_nat (length v)) then Ok (<[Z.to_nat i := x]> v)
  else Panic.

(** [&v[from..to]] *)
Definition vslice {A} (v : list A) (from to : Z) : result (list A) :=
  if (0 <=? from) && (from <=? to) && (to <=? Z.of_nat (length v)) then
    Ok (take (Z.to_nat (to - from)) (drop (Z.to_nat from) v))
  else Panic.

(** [v[pos..pos + b.len()].copy_from_slice(b)] *)
Definition vcopy {A} (v : list A) (pos : Z) (b : list A) : result (list A) :=
  if (0 <=? pos) && (pos + Z.of_nat (length b) <=? Z.of_nat (length v)) then
    Ok (take (Z.to_nat pos) v ++ b ++ drop (Z.to_nat pos + length b) v)
  else Panic.

(** * Bit-level reasoning *)

(** [zbits] rewrites a [Z.testbit] of a compound expression into the bits of its
    parts; side conditions are linear. *)
Create HintDb zbits discriminated.
#[export] Hint Rewrite Z.land_spec Z.lor_spec Z.lxor_spec Z.bits_0 : zbits.
#[export] Hint Rewrite Z.lnot_spec Z.shiftr_spec Z.shiftl_spec Z.bits_m1
  Z.testbit_neg_r using lia : zbits.

Lemma in_s_testbit w x i :
  1 <= w -> in_s w x -> w - 1 <= i -> Z.testbit x i = (x <? 0).
Proof.
  unfold in_s. intros Hw Hx Hi.
  assert (2 ^ (w - 1) <= 2 ^ i) by (apply Z.pow_le_mono_r; lia).
  destruct (Z.ltb_spec x 0).
  - rewrite <- (Z.lnot_involutive x), Z.lnot_spec by lia.
    unfold Z.lnot at 1. apply negb_true_iff. rewrite Z.testbit_false by lia.
    by rewrite Z.div_small by lia.
  - rewrite Z.testbit_false by lia. by rewrite Z.div_small by lia.
Qed.

Lemma in_u_testbit w x i : in_u w x -> w <= i -> Z.testbit x i = false.
Proof.
  unfold in_u. intros Hx Hi.
  destruct (decide (0 <= i)); [|rewrite Z.testbit_neg_r by lia; done].
  assert (2 ^ w <= 2 ^ i) by (apply Z.pow_le_mono_r; lia).
  rewrite Z.testbit_false by lia. by rewrite Z.div_small by lia.
Qed.

Lemma wrap_u_in w x : 0 <= w -> in_u w (wrap_u w x).
Proof. intros. unfold in_u, wrap_u. apply Z.mod_pos_bound. lia. Qed.

Lemma wrap_s_in w x : 1 <= w -> in_s w (wrap_s w x).
Proof.
  intros. unfold in_s, wrap_s.
  assert (2 ^ w = 2 * 2 ^ (w - 1)) by (rewrite <- Z.pow_succ_r by lia; f_equal; lia).
  pose proof (Z.mod_pos_bound (x + 2 ^ (w - 1)) (2 ^ w) ltac:(lia)). lia.
Qed.

Lemma wrap_u_id w x : in_u w x -> wrap_u w x = x.
Proof. unfold in_u, wrap_u. intros. by apply Z.mod_small. Qed.

Lemma wrap_s_id w x : 1 <= w -> in_s w x -> wrap_s w x = x.
Proof.
  unfold in_s, wrap_s. intros.
  assert (2 ^ w = 2 * 2 ^ (w - 1)) by (rewrite <- Z.pow_succ_r by lia; f_equal; lia).
  rewrite Z.mod_small; lia.
Qed.

Lemma wrap_u_testbit w x i :
  0 <= w -> Z.testbit (wrap_u w x) i = (i <? w) && Z.testbit x i.
Proof.
  intros. unfold wrap_u. destruct (Z.ltb_spec i w); simpl.
  - apply Z.mod_pow2_bits_low; lia.
  - apply Z.mod_pow2_bits_high; lia.
Qed.

Lemma wrap_s_mod w x : 1 <= w -> wrap_s w x mod 2 ^ w = x mod 2 ^ w.
Proof.
  intros. unfold wrap_s. rewrite Zminus_mod_idemp_l. f_equal. lia.
Qed.

Lemma wrap_s_testbit w x i :
  1 <= w -> Z.testbit (wrap_s w x) i = Z.testbit x (Z.min i (w - 1)).
Proof.
  intros Hw.
  assert (Hlow : forall j, j < w -> Z.testbit (wrap_s w x) j = Z.testbit x j).
  { intros j Hj. rewrite <- (Z.mod_pow2_bits_low (wrap_s w x) w j) by lia.
    rewrite wrap_s_mod by lia. apply Z.mod_pow2_bits_low; lia. }
  destruct (decide (i < w)) as [Hi|Hi].
  - rewrite Hlow by lia. f_equal. lia.
  - pose proof (wrap_s_in w x Hw).
    rewrite Z.min_r by lia. rewrite <- Hlow by lia.
    by rewrite !(in_s_testbit w) by (auto; lia).
Qed.

Lemma in_u_intro w x :
  0 <= w -> (forall i, w <= i -> Z.testbit x i = false) -> in_u w x.
Proof.
  intros Hw H. assert (x = wrap_u w x) as ->; [|by apply wrap_u_in].
  apply Z.bits_inj'. intros i Hi. rewrite wrap_u_testbit by lia.
  destruct (Z.ltb_spec i w); simpl; auto.
Qed.

Lemma in_s_intro w x :
  1 <= w -> (forall i, w <= i -> Z.testbit x i = Z.testbit x (w - 1)) -> in_s w x.
Proof.
  intros Hw H. assert (x = wrap_s w x) as ->; [|by apply wrap_s_in].
  apply Z.bits_inj'. intros i Hi. rewrite wrap_s_testbit by lia.
  destruct (decide (i < w)).
  - f_equal; lia.
  - rewrite Z.min_r by lia. apply H; lia.
Qed.

Lemma wrap_s_wrap_u w x : 1 <= w -> wrap_s w (wrap_u w x) = wrap_s w x.
Proof.
  intros. apply Z.bits_inj'. intros i Hi.
  rewrite !wrap_s_testbit, wrap_u_testbit by lia.
  by destruct (Z.ltb_spec (Z.min i (w - 1)) w); [|lia].
Qed.

Lemma wrap_u_wrap_s w x : 1 <= w -> wrap_u w (wrap_s w x) = wrap_u w x.
Proof. intros. unfold wrap_u. by apply wrap_s_mod. Qed.

#[export] Hint Rewrite wrap_u_testbit wrap_s_testbit using lia : zbits.

(** [same_bits] proves an equation between integers bit by bit. *)
Ltac same_bits i :=
  apply Z.bits_inj'; intros i ?; autorewrite with zbits.

Lemma wrap_s_lnot w x : 1 <= w -> Z.lnot (wrap_s w x) = wrap_s w (Z.lnot x).
Proof.
  intros. same_bits i. destruct (decide (0 <= Z.min i (w - 1))); [|lia].
  by autorewrite with zbits.
Qed.

(** Signed words are closed under the bitwise operations. *)
Lemma in_s_land w x y : 1 <= w -> in_s w x -> in_s w y -> in_s w (Z.land x y).
Proof.
  intros Hw Hx Hy. apply in_s_intro; [done|]. intros i Hi.
  by rewrite !Z.land_spec, !(in_s_testbit w x), !(in_s_testbit w y) by (auto; lia).
Qed.

Lemma in_s_lor w x y : 1 <= w -> in_s w x -> in_s w y -> in_s w (Z.lor x y).
Proof.
  intros Hw Hx Hy. apply in_s_intro; [done|]. intros i Hi.
  by rewrite !Z.lor_spec, !(in_s_testbit w x), !(in_s_testbit w y) by (auto; lia).
Qed.

Lemma in_s_lxor w x y : 1 <= w -> in_s w x -> in_s w y -> in_s w (Z.lxor x y).
Proof.
  intros Hw Hx Hy. apply in_s_intro; [done|]. intros i Hi.
  by rewrite !Z.lxor_spec, !(in_s_testbit w x), !(in_s_testbit w y) by (auto; lia).
Qed.

Lemma in_s_lnot w x : in_s w x -> in_s w (Z.lnot x).
Proof. unfold in_s, Z.lnot. lia. Qed.

Lemma in_s_shiftr w x k : 1 <= w -> 0 <= k -> in_s w x -> in_s w (Z.shiftr x k).
Proof.
  intros Hw Hk Hx. apply in_s_intro; [done|]. intros i Hi.
  by rewrite !Z.shiftr_spec, !(in_s_testbit w x) by (auto; lia).
Qed.

Create HintDb words discriminated.
#[export] Hint Resolve in_s_land in_s_lor in_s_lxor in_s_lnot in_s_shiftr
  wrap_s_in wrap_u_in : words.
#[export] Hint Extern 1 (_ <= _)%Z => lia : words.

(** [zcase] decides the boolean comparisons of a goal by cases. *)
Ltac zcase :=
  repeat match goal with
  | |- context [?a <=? ?b] => destruct (Z.leb_spec a b)
  | |- context [?a <? ?b] => destruct (Z.ltb_spec a b)
  | |- context [?a =? ?b] => destruct (Z.eqb_spec a b)
  end; cbn [andb orb negb]; try done; try lia.

(** * Vectors *)

Lemma vget_ok {A} (v : list A) i x :
  0 <= i -> vget v i = Ok x <-> v !! Z.to_nat i = Some x.
Proof.
  intros. unfold vget. destruct (Z.ltb_spec i 0); [lia|].
  destruct (v !! Z.to_nat i); split; congruence.
Qed.

Lemma vget_in {A} (v : list A) i :
  0 <= i < Z.of_nat (length v) -> exists x, v !! Z.to_nat i = Some x /\ vget v i = Ok x.
Proof.
  intros. destruct (lookup_lt_is_Some_2 v (Z.to_nat i)) as [x Hx]; [lia|].
  exists x. split; [done|]. apply vget_ok; [lia|done].
Qed.

Lemma vset_ok {A} (v : list A) i x :
  0 <= i < Z.of_nat (length v) -> vset v i x = Ok (<[Z.to_nat i := x]> v).
Proof.
  intros. unfold vset.
  destruct (Z.leb_spec 0 i), (Z.ltb_spec i (Z.of_nat (length v))); (done || lia).
Qed.

Lemma vslice_ok {A} (v : list A) from to :
  0 <= from <= to -> to <= Z.of_nat (length v) ->
  vslice v from to = Ok (take (Z.to_nat (to - from)) (drop (Z.to_nat from) v)).
Proof.
  intros. unfold vslice.
  destruct (Z.leb_spec 0 from), (Z.leb_spec from to),
    (Z.leb_spec to (Z.of_nat (length v))); (done || lia).
Qed.

Lemma vcopy_def {A} (v : list A) p b :
  0 <= p -> p + Z.of_nat (length b) <= Z.of_nat (length v) ->
  vcopy v p b = Ok (take (Z.to_nat p) v ++ b ++ drop (Z.to_nat p + length b) v).
Proof.
  intros. unfold vcopy.
  replace ((0 <=? p) && (p + Z.of_nat (length b) <=? Z.of_nat (length v))) with true by lia.
  done.
Qed.

Lemma vcopy_spec {A} (v : list A) pos (b : list A) :
  0 <= pos -> pos + Z.of_nat (length b) <= Z.of_nat (length v) ->
  exists v', vcopy v pos b = Ok v' /\
    vslice v' pos (pos + Z.of_nat (length b)) = Ok b /\
    length v' = length v /\
    forall j, Z.of_nat j < pos \/ pos + Z.of_nat (length b) <= Z.of_nat j ->
      v' !! j = v !! j.
Proof.
  intros Hp Hl. unfold vcopy.
  replace ((0 <=? pos) && (pos + Z.of_nat (length b) <=? Z.of_nat (length v)))
    with true by lia.
  eexists; split; [done|].
  assert (Ht : length (take (Z.to_nat pos) v) = Z.to_nat pos)
    by (rewrite length_take; lia).
  assert (Hlen : length (take (Z.to_nat pos) v ++ b ++ drop (Z.to_nat pos + length b) v)
    = length v) by (rewrite !length_app, Ht, length_drop; lia).
  split_and!; [|done|].
  - rewrite vslice_ok by lia. rewrite drop_app_length' by lia.
    rewrite take_app_length' by lia. done.
  - intros j [Hj|Hj].
    + rewrite lookup_app_l by lia. by rewrite lookup_take_lt by lia.
    + rewrite lookup_app_r by lia. rewrite lookup_app_r by lia.
      rewrite lookup_drop. f_equal. lia.
Qed.

Lemma vcopy_take {A} (v : list A) pos (b : list A) (k : nat) :
  0 <= pos -> pos + Z.of_nat (length b) <= Z.of_nat (length v) -> (k <= length b)%nat ->
  exists v', vcopy v pos b = Ok v' /\ length v' = length v /\
    take (Z.to_nat pos + k) v' = take (Z.to_nat pos) v ++ take k b /\
    forall P : A -> Prop, Forall P v -> Forall P b -> Forall P v'.
Proof.
  intros Hp Hl Hk. unfold vcopy.
  replace ((0 <=? pos) && (pos + Z.of_nat (length b) <=? Z.of_nat (length v)))
    with true by lia.
  assert (Ht : length (take (Z.to_nat pos) v) = Z.to_nat pos) by (rewrite length_take; lia).
  eexists; split_and!; [done| | |].
  - rewrite !length_app, Ht, length_drop. lia.
  - rewrite take_app_ge, Ht by (rewrite Ht; lia). f_equal.
    rewrite take_app_le by lia. f_equal. lia.
  - intros P Hv Hb. rewrite !Forall_app. split_and!; auto using Forall_take, Forall_drop.
Qed.

Lemma vcopy_length {A} (v : list A) o x v' : vcopy v o x = Ok v' -> length v' = length v.
Proof.
  unfold vcopy. destruct (_ && _) eqn:E; [|done]. intros [= <-].
  rewrite !length_app, length_take, length_drop. lia.
Qed.

(** Two copies in a row are one copy of both pieces. *)
Lemma vcopy_vcopy {A} (v v' : list A) o x y :
  vcopy v o x = Ok v' -> o + Z.of_nat (length x) + Z.of_nat (length y) <= Z.of_nat (length v) ->
  vcopy v' (o + Z.of_nat (length x)) y = vcopy v o (x ++ y).
Proof.
  intros Hv Hl. pose proof (vcopy_length _ _ _ _ Hv) as Hlen. unfold vcopy in Hv.
  destruct (_ && _) eqn:E; [|done]. injection Hv as <-.
  assert (0 <= o) by lia.
  rewrite !vcopy_def by (rewrite ?Hlen, ?length_app; lia). f_equal.
  assert (Ht : length (take (Z.to_nat o) v) = Z.to_nat o) by (rewrite length_take; lia).
  rewrite (take_app_ge (take _ v)), Ht by lia. rewrite <- !app_assoc. f_equal.
  rewrite take_app_length' by lia. do 2 f_equal.
  rewrite (drop_app_ge (take _ v)), Ht by lia. rewrite (drop_app_ge x) by lia.
  rewrite drop_drop. f_equal. rewrite length_app. lia.
Qed.

Lemma vset_middle {A} (l r : list A) x y i :
  i = Z.of_nat (length l) -> vset (l ++ x :: r) i y = Ok (l ++ y :: r).
Proof.
  intros ->. rewrite vset_ok by (rewrite length_app; simpl; lia).
  by rewrite Nat2Z.id, insert_app_r_alt, Nat.sub_diag by lia.
Qed.

Lemma vget_middle {A} (l r : list A) x i :
  i = Z.of_nat (length l) -> vget (l ++ x :: r) i = Ok x.
Proof.
  intros ->. apply vget_ok; [lia|]. by rewrite Nat2Z.id, list_lookup_middle.
Qed.
