(* ===== verification/ArrayUtil.v ===== *)
(** Model of the growth policy of [ArrayUtil] (src/core/util/array_util.rs) and of
    the range checks of [CoreHelper] (src/core/util/core_helper.rs). *)

From Stdlib Require Import ZArith Lia Bool.
From stdpp Require Import base tactics numbers list.
From S2P Require Import Prelude.

Local Open Scope Z_scope.

Module ArrayUtil.

Definition MAX_ARRAY_LENGTH : Z := i32_MAX.
Definition isize_MAX : Z := 9223372036854775807.
Definition usize_MAX : Z := 18446744073709551615.

(** The cap [oversize] computes: a zero element size puts no further limit. *)
Definition max_array_length (bytes_per_element : Z) : Z :=
  if bytes_per_element =? 0 then MAX_ARRAY_LENGTH
  else Z.min MAX_ARRAY_LENGTH (isize_MAX / bytes_per_element).

Definition oversize (min_target_size bytes_per_element : Z) : result Z :=
  if min_target_size =? 0 then Ok 0
  else
    let max_array_length := max_array_length bytes_per_element in
    if max_array_length <? min_target_size then Err IllegalArgument
    else
      let extra := Z.shiftr min_target_size 3 in
      let extra := if extra <? 3 then 3 else extra in
      let sum := min_target_size + extra in
      Ok (Z.min (if usize_MAX <? sum then max_array_length else sum) max_array_length).

Definition grow_exact {A} (vec : list A) (new_length : Z) (init : A) : result (list A) :=
  let current_length := Z.of_nat (length vec) in
  if current_length <? new_length then
    Ok (vec ++ replicate (Z.to_nat (new_length - current_length)) init)
  else if current_length =? new_length then Ok vec
  else Err ArrayIndexOutOfBounds.

(** The capacity of a [Vec] is not modelled: reserving is its size check. *)
Definition grow_capacity {A} (size_of : Z) (vec : list A) (min_size : Z) : result (list A) :=
  let? _ := oversize min_size size_of in
  Ok vec.

Definition grow_with {A} (size_of : Z) (vec : list A) (min_size : Z) (init : A) :
    result (list A) :=
  if Z.of_nat (length vec) <? min_size then
    let? vec := grow_capacity size_of vec min_size in
    Ok (vec ++ replicate (Z.to_nat (min_size - Z.of_nat (length vec))) init)
  else Ok vec.

(** Scratch growth: [capacity] decides whether the old elements survive. *)
Definition grow_no_copy {A} (size_of capacity : Z) (vec : list A) (min_size : Z) (init : A) :
    result (list A) :=
  if Z.of_nat (length vec) <? min_size then
    let? _ := oversize min_size size_of in
    if min_size <=? capacity then
      Ok (vec ++ replicate (Z.to_nat (min_size - Z.of_nat (length vec))) init)
    else Ok (replicate (Z.to_nat min_size) init)
  else Ok vec.

(** [CoreHelper::check_from_index_size] *)
Definition check_from_index_size (from_index size length : Z) : result Z :=
  if (length <? from_index) || (length - from_index <? size) then Err ArrayIndexOutOfBounds
  else Ok from_index.

Lemma max_array_length_le n : max_array_length n <= MAX_ARRAY_LENGTH.
Proof. unfold max_array_length. destruct (n =? 0); lia. Qed.

(** C33: Within the limits (the element count an [i32] and the allocation an [isize])
    [oversize] answers with at least the requested size, never above the limit, and
    leaves slack of at least one eighth and three elements unless the limit cuts it;
    beyond the limit it is an illegal-argument error. *)
Theorem oversize_bounds n sz :
  0 < n -> 0 <= sz ->
  (n <= max_array_length sz ->
   exists r, oversize n sz = Ok r /\ n <= r <= max_array_length sz /\
     (r = max_array_length sz \/ (n + 3 <= r /\ n + n / 8 <= r <= n + n / 8 + 3))) /\
  (max_array_length sz < n -> oversize n sz = Err IllegalArgument).
Proof.
  intros Hn Hs. pose proof (max_array_length_le sz) as Hm. unfold oversize.
  destruct (Z.eqb_spec n 0); [lia|].
  destruct (Z.ltb_spec (max_array_length sz) n) as [Hlt|Hge]; split; intros H; try lia; [done|].
  eexists. split; [done|].
  rewrite Z.shiftr_div_pow2 by lia. change (2 ^ 3) with 8.
  assert (0 <= n / 8 <= n) by (split; [apply Z.div_pos|apply Z.div_le_upper_bound]; lia).
  assert (MAX_ARRAY_LENGTH = 2147483647) by done.
  assert (usize_MAX = 18446744073709551615) by done.
  destruct (Z.ltb_spec (n / 8) 3);
    match goal with |- context [usize_MAX <? ?x] => destruct (Z.ltb_spec usize_MAX x) end; lia.
Qed.

Lemma oversize_bounds_witness :
  (100 <= max_array_length 8 ->
   exists r, oversize 100 8 = Ok r /\ 100 <= r <= max_array_length 8 /\
     (r = max_array_length 8 \/ (100 + 3 <= r /\ 100 + 100 / 8 <= r <= 100 + 100 / 8 + 3))) /\
  (max_array_length 8 < 100 -> oversize 100 8 = Err IllegalArgument).
Proof. apply (oversize_bounds 100 8); lia. Defined.

Lemma oversize_ok n sz :
  0 <= n -> n <= max_array_length sz -> exists r, oversize n sz = Ok r /\ n <= r.
Proof.
  intros Hn Hm. unfold oversize. destruct (Z.eqb_spec n 0); [exists 0; split; [done|lia]|].
  destruct (Z.ltb_spec (max_array_length sz) n); [lia|].
  eexists. split; [done|]. destruct (Z.shiftr n 3 <? 3);
    match goal with |- context [usize_MAX <? ?x] => destruct (Z.ltb_spec usize_MAX x) end;
    try lia; assert (0 <= Z.shiftr n 3) by (apply Z.shiftr_nonneg; lia); lia.
Qed.

Lemma grow_with_ok {A} sz (vec : list A) n init :
  n <= max_array_length sz ->
  exists k, grow_with sz vec n init = Ok (vec ++ replicate k init) /\
    n <= Z.of_nat (length vec + k) /\ Z.of_nat (length vec + k) = Z.max n (Z.of_nat (length vec)).
Proof.
  intros Hm. unfold grow_with, grow_capacity.
  destruct (Z.ltb_spec (Z.of_nat (length vec)) n).
  - destruct (oversize_ok n sz) as (r & -> & _); [lia..|]. simpl.
    eexists. split; [done|]. lia.
  - exists 0%nat. simpl. rewrite app_nil_r. split; [done|]. lia.
Qed.

End ArrayUtil.
