(* ===== verification/BitUtil.v ===== *)
(** Model of [BitUtil] (src/core/util/bit_util.rs): zig-zag coding, bit
    interleaving, power-of-two rounding and the fixed-width little- and
    big-endian accessors on byte slices. Bytes are [Z]s in [0, 256). An access
    outside the slice, which the code guards by an assertion or by slice
    indexing, is [Panic]. *)

From Stdlib Require Import ZArith Lia Bool.
From stdpp Require Import base tactics numbers list.
From S2P Require Import Prelude.

Local Open Scope Z_scope.

Module BitUtil.

Definition BYTE_BYTES : Z := 1.
Definition SHORT_BYTES : Z := 2.
Definition INT_BYTES : Z := 4.
Definition LONG_BYTES : Z := 8.

(** ** Zig-zag coding *)

Definition zig_zag_decode_i32 (i : Z) : Z :=
  Z.lxor (as_i32 (Z.shiftr i 1)) (- as_i32 (Z.land i 1)).

Definition zig_zag_encode_i32 (i : Z) : Z :=
  Z.lxor (Z.shiftr i 31) (as_i32 (Z.shiftl i 1)).

Definition zig_zag_decode_i64 (l : Z) : Z :=
  Z.lxor (as_i64 (Z.shiftr l 1)) (- as_i64 (Z.land l 1)).

Definition zig_zag_encode_i64 (l : Z) : Z :=
  Z.lxor (Z.shiftr l 63) (as_i64 (Z.shiftl l 1)).

(** ** Powers of two *)

(** [v |= v >> k] *)
Definition smear (v k : Z) : Z := Z.lor v (Z.shiftr v k).

Definition next_highest_power_of_two_with_i32 (v : Z) : result Z :=
  let? v := exact_s 32 (v - 1) in
  let v := smear v 1 in
  let v := smear v 2 in
  let v := smear v 4 in
  let v := smear v 8 in
  let v := smear v 16 in
  exact_s 32 (v + 1).

Definition next_highest_power_of_two_with_i64 (v : Z) : result Z :=
  let? v := exact_s 64 (v - 1) in
  let v := smear v 1 in
  let v := smear v 2 in
  let v := smear v 4 in
  let v := smear v 8 in
  let v := smear v 16 in
  let v := smear v 32 in
  exact_s 64 (v + 1).

Definition is_zero_or_power_of_two (x : Z) : bool :=
  Z.land x (as_i32 (x - 1)) =? 0.

(** ** Interleaving *)

Definition MAGIC0 : Z := 0x5555555555555555.
Definition MAGIC1 : Z := 0x3333333333333333.
Definition MAGIC2 : Z := 0x0F0F0F0F0F0F0F0F.
Definition MAGIC3 : Z := 0x00FF00FF00FF00FF.
Definition MAGIC4 : Z := 0x0000FFFF0000FFFF.
Definition MAGIC5 : Z := 0x00000000FFFFFFFF.
Definition MAGIC6 : Z := 0xAAAAAAAAAAAAAAAA.

Definition SHIFT0 : Z := 1.
Definition SHIFT1 : Z := 2.
Definition SHIFT2 : Z := 4.
Definition SHIFT3 : Z := 8.
Definition SHIFT4 : Z := 16.

(** [v = (v | (v << shift)) & magic], on [u64] *)
Definition spread (shift magic v : Z) : Z :=
  Z.land (Z.lor v (as_u64 (Z.shiftl v shift))) magic.

Definition spread_all (x : Z) : Z :=
  let v := Z.land MAGIC5 (as_u64 (as_u32 x)) in
  let v := spread SHIFT4 MAGIC4 v in
  let v := spread SHIFT3 MAGIC3 v in
  let v := spread SHIFT2 MAGIC2 v in
  let v := spread SHIFT1 MAGIC1 v in
  spread SHIFT0 MAGIC0 v.

Definition interleave (even odd : Z) : Z :=
  as_i64 (Z.lor (as_u64 (Z.shiftl (spread_all odd) 1)) (spread_all even)).

Definition flip_flop (b : Z) : Z :=
  let b := as_u64 b in
  as_i64 (Z.lor (Z.shiftr (Z.land b MAGIC6) 1)
                (as_u64 (Z.shiftl (Z.land b MAGIC0) 1))).

(** ** Fixed-width accessors *)

(** [x.to_le_bytes()] of an [n]-byte integer. *)
Fixpoint to_le_bytes (n : nat) (x : Z) : list Z :=
  match n with
  | O => []
  | S n => as_u8 x :: to_le_bytes n (Z.shiftr x 8)
  end.

(** The unsigned value of little-endian bytes. *)
Fixpoint le_value (bs : list Z) : Z :=
  match bs with
  | [] => 0
  | b :: bs => Z.lor b (Z.shiftl (le_value bs) 8)
  end.

Definition from_le_bytes (bs : list Z) : Z :=
  wrap_s (8 * Z.of_nat (length bs)) (le_value bs).
Definition to_be_bytes (n : nat) (x : Z) : list Z := rev (to_le_bytes n x).
Definition from_be_bytes (bs : list Z) : Z := from_le_bytes (rev bs).

(** [get_i16_le], [get_i32_le] and [get_i64_le] differ in the width only, and so
    do the setters, which copy the first [len] bytes of the value. *)
Definition get_le (n : Z) (bytes : list Z) (pos : Z) : result Z :=
  let? v := vslice bytes pos (pos + n) in
  Ok (from_le_bytes v).
Definition get_be (n : Z) (bytes : list Z) (pos : Z) : result Z :=
  let? v := vslice bytes pos (pos + n) in
  Ok (from_be_bytes v).
Definition set_le_with_len (n : Z) (bytes : list Z) (pos value len : Z) :
    result (list Z) :=
  if (0 <=? len) && (len <=? n) then
    vcopy bytes pos (take (Z.to_nat len) (to_le_bytes (Z.to_nat n) value))
  else Panic.
Definition set_be_with_len (n : Z) (bytes : list Z) (pos value len : Z) :
    result (list Z) :=
  if (0 <=? len) && (len <=? n) then
    vcopy bytes pos (take (Z.to_nat len) (to_be_bytes (Z.to_nat n) value))
  else Panic.

Definition get_i16_be : list Z -> Z -> result Z := get_be SHORT_BYTES.
Definition set_i16_be_with_len := set_be_with_len SHORT_BYTES.
Definition set_i16_be (bytes : list Z) (pos value : Z) : result (list Z) :=
  set_i16_be_with_len bytes pos value SHORT_BYTES.
Definition get_i16_le : list Z -> Z -> result Z := get_le SHORT_BYTES.
Definition set_i16_le_with_len := set_le_with_len SHORT_BYTES.
Definition set_i16_le (bytes : list Z) (pos value : Z) : result (list Z) :=
  set_i16_le_with_len bytes pos value SHORT_BYTES.
Definition get_i32_be : list Z -> Z -> result Z := get_be INT_BYTES.
Definition set_i32_be_with_len := set_be_with_len INT_BYTES.
Definition set_i32_be (bytes : list Z) (pos value : Z) : result (list Z) :=
  set_i32_be_with_len bytes pos value INT_BYTES.
Definition get_i32_le : list Z -> Z -> result Z := get_le INT_BYTES.
Definition set_i32_le_with_len := set_le_with_len INT_BYTES.
Definition set_i32_le (bytes : list Z) (pos value : Z) : result (list Z) :=
  set_i32_le_with_len bytes pos value INT_BYTES.
Definition get_i64_be : list Z -> Z -> result Z := get_be LONG_BYTES.
Definition set_i64_be_with_len := set_be_with_len LONG_BYTES.
Definition set_i64_be (bytes : list Z) (pos value : Z) : result (list Z) :=
  set_i64_be_with_len bytes pos value LONG_BYTES.
Definition get_i64_le : list Z -> Z -> result Z := get_le LONG_BYTES.
Definition set_i64_le_with_len := set_le_with_len LONG_BYTES.
Definition set_i64_le (bytes : list Z) (pos value : Z) : result (list Z) :=
  set_i64_le_with_len bytes pos value LONG_BYTES.

(** * Properties *)

(** ** Zig-zag *)

(** Both widths at once: the arithmetic reading of the codes. *)
Lemma zig_zag_encode_arith w x :
  1 < w -> in_s w x ->
  Z.lxor (Z.shiftr x (w - 1)) (wrap_s w (Z.shiftl x 1))
  = wrap_s w (if 0 <=? x then 2 * x else - 2 * x - 1).
Proof.
  intros Hw Hx.
  assert (Hs : Z.shiftr x (w - 1) = if 0 <=? x then 0 else -1).
  { same_bits i. rewrite (in_s_testbit w) by (auto; lia).
    destruct (Z.leb_spec 0 x), (Z.ltb_spec x 0); try lia; autorewrite with zbits; done. }
  rewrite Hs. destruct (Z.leb_spec 0 x).
  - by rewrite Z.lxor_0_l.
  - rewrite Z.lxor_comm, Z.lxor_m1_r, wrap_s_lnot by lia.
    f_equal. unfold Z.lnot. rewrite Z.shiftl_mul_pow2 by lia. lia.
Qed.

Lemma zig_zag_decode_arith w u :
  1 < w -> in_u w u ->
  Z.lxor (wrap_s w (Z.shiftr u 1)) (- wrap_s w (Z.land u 1))
  = if Z.even u then u / 2 else - (u / 2) - 1.
Proof.
  intros Hw Hu.
  assert (Hp : 2 ^ w = 2 * 2 ^ (w - 1)) by (rewrite <- Z.pow_succ_r by lia; f_equal; lia).
  assert (Hp2 : 2 ^ (w - 1) = 2 * 2 ^ (w - 2)) by (rewrite <- Z.pow_succ_r by lia; f_equal; lia).
  change 1 with (Z.ones 1) at 2. rewrite Z.land_ones by lia.
  rewrite Z.shiftr_div_pow2 by lia. change (2 ^ 1) with 2.
  assert (0 < 2 ^ (w - 2)) by lia.
  pose proof (Z.div_mod u 2 ltac:(lia)). pose proof (Z.mod_pos_bound u 2 ltac:(lia)).
  unfold in_u in Hu.
  rewrite !wrap_s_id by (unfold in_s; lia).
  rewrite Zmod_even. destruct (Z.even u).
  - apply Z.lxor_0_r.
  - change (- (1)) with (-1). rewrite Z.lxor_m1_r. unfold Z.lnot. lia.
Qed.

Lemma zig_zag_roundtrip w x :
  1 < w -> in_s w x ->
  let u := wrap_u w (Z.lxor (Z.shiftr x (w - 1)) (wrap_s w (Z.shiftl x 1))) in
  Z.lxor (wrap_s w (Z.shiftr u 1)) (- wrap_s w (Z.land u 1)) = x.
Proof.
  intros Hw Hx u. subst u.
  assert (Hp : 2 ^ w = 2 * 2 ^ (w - 1)) by (rewrite <- Z.pow_succ_r by lia; f_equal; lia).
  rewrite zig_zag_decode_arith by (auto; apply wrap_u_in; lia).
  rewrite zig_zag_encode_arith by auto. rewrite wrap_u_wrap_s by lia.
  unfold in_s in Hx.
  rewrite wrap_u_id by (unfold in_u; destruct (Z.leb_spec 0 x); lia).
  destruct (Z.leb_spec 0 x).
  - rewrite Z.even_mul. simpl orb. rewrite Z.mul_comm, Z.div_mul; lia.
  - replace (-2 * x - 1) with (1 + 2 * (- x - 1)) by lia.
    rewrite Z.even_add_mul_2, (Z.mul_comm 2), Z.div_add by lia.
    simpl Z.even. cbv iota. change (1 / 2) with 0. lia.
Qed.

Lemma zig_zag_roundtrip_inv w u :
  1 < w -> in_u w u ->
  let x := Z.lxor (wrap_s w (Z.shiftr u 1)) (- wrap_s w (Z.land u 1)) in
  in_s w x /\
  wrap_u w (Z.lxor (Z.shiftr x (w - 1)) (wrap_s w (Z.shiftl x 1))) = u.
Proof.
  intros Hw Hu x. subst x.
  assert (Hp : 2 ^ w = 2 * 2 ^ (w - 1)) by (rewrite <- Z.pow_succ_r by lia; f_equal; lia).
  rewrite zig_zag_decode_arith by auto. unfold in_u in Hu.
  pose proof (Z.div_mod u 2 ltac:(lia)) as Hdm. rewrite Zmod_even in Hdm.
  assert (in_s w (if Z.even u then u / 2 else - (u / 2) - 1)) as Hin
    by (unfold in_s; destruct (Z.even u); lia).
  split; [done|]. rewrite zig_zag_encode_arith by auto.
  rewrite wrap_u_wrap_s by lia.
  rewrite wrap_u_id; destruct (Z.even u), (Z.leb_spec 0 (u / 2)); try lia;
    destruct (Z.leb_spec 0 (- (u / 2) - 1)); unfold in_u; lia.
Qed.

Lemma zig_zag_encode_code w x :
  1 < w -> in_s w x ->
  wrap_u w (Z.lxor (Z.shiftr x (w - 1)) (wrap_s w (Z.shiftl x 1)))
  = if 0 <=? x then 2 * x else - 2 * x - 1.
Proof.
  intros Hw Hx. rewrite zig_zag_encode_arith, wrap_u_wrap_s by (auto; lia).
  assert (Hp : 2 ^ w = 2 * 2 ^ (w - 1)) by (rewrite <- Z.pow_succ_r by lia; f_equal; lia).
  apply wrap_u_id. unfold in_s, in_u in *. destruct (Z.leb_spec 0 x); lia.
Qed.

(** ** Little-endian bytes *)

Lemma to_le_bytes_length n x : length (to_le_bytes n x) = n.
Proof. revert x. induction n; intros; simpl; auto. Qed.

Lemma to_le_bytes_in_u n x : Forall (in_u 8) (to_le_bytes n x).
Proof.
  revert x. induction n; intros; simpl; constructor; auto.
  by apply wrap_u_in.
Qed.

Lemma le_value_to_le_bytes n x :
  le_value (to_le_bytes n x) = wrap_u (8 * Z.of_nat n) x.
Proof.
  revert x. induction n as [|n IH]; intros x; simpl to_le_bytes; simpl le_value.
  - unfold wrap_u. by rewrite Z.mod_1_r.
  - rewrite IH. same_bits i.
    destruct (Z.ltb_spec i 8), (Z.ltb_spec (i - 8) (8 * Z.of_nat n)),
      (Z.ltb_spec i (8 * Z.of_nat (S n))); try lia; simpl;
      rewrite ?andb_false_r, ?orb_false_r; try done.
    + rewrite (Z.testbit_neg_r _ (i - 8)) by lia. simpl. by rewrite ?orb_false_r.
    + rewrite Z.shiftr_spec by lia. f_equal. lia.
Qed.

Lemma from_to_le_bytes n x :
  (0 < n)%nat -> from_le_bytes (to_le_bytes n x) = wrap_s (8 * Z.of_nat n) x.
Proof.
  intros. unfold from_le_bytes. rewrite to_le_bytes_length, le_value_to_le_bytes.
  apply wrap_s_wrap_u. lia.
Qed.

Lemma to_le_bytes_le_value bs :
  Forall (in_u 8) bs -> to_le_bytes (length bs) (le_value bs) = bs.
Proof.
  induction 1 as [|b bs Hb Hbs IH]; simpl; [done|]. f_equal.
  - same_bits i. destruct (Z.ltb_spec i 8); simpl.
    + rewrite (Z.testbit_neg_r _ (i - 8)) by lia. by rewrite orb_false_r.
    + by rewrite (in_u_testbit 8 b) by (auto; lia).
  - etransitivity; [|exact IH]. f_equal. same_bits i.
    rewrite (in_u_testbit 8 b) by (auto; lia). simpl. f_equal. lia.
Qed.

Lemma le_value_app a b :
  le_value (a ++ b) = Z.lor (le_value a) (Z.shiftl (le_value b) (8 * Z.of_nat (length a))).
Proof.
  induction a as [|x a IH]; cbn [app le_value length].
  - change (8 * Z.of_nat 0) with 0. by rewrite Z.shiftl_0_r.
  - rewrite IH, Z.shiftl_lor, Z.lor_assoc. f_equal.
    rewrite Z.shiftl_shiftl by lia. f_equal. lia.
Qed.

Lemma le_value_in_u bs :
  Forall (in_u 8) bs -> in_u (8 * Z.of_nat (length bs)) (le_value bs).
Proof.
  intros H. rewrite <- (to_le_bytes_le_value bs H) at 2.
  rewrite le_value_to_le_bytes. apply wrap_u_in. lia.
Qed.

Lemma to_le_bytes_wrap_s n x : (0 < n)%nat ->
  to_le_bytes n (wrap_s (8 * Z.of_nat n) x) = to_le_bytes n x.
Proof.
  intros Hn. rewrite <- (to_le_bytes_le_value (to_le_bytes n (wrap_s _ x)))
    by apply to_le_bytes_in_u.
  rewrite to_le_bytes_length, le_value_to_le_bytes, wrap_u_wrap_s by lia.
  rewrite <- le_value_to_le_bytes.
  rewrite <- (to_le_bytes_length n x) at 1.
  apply to_le_bytes_le_value, to_le_bytes_in_u.
Qed.

Lemma to_from_le_bytes bs : bs <> [] ->
  Forall (in_u 8) bs -> to_le_bytes (length bs) (from_le_bytes bs) = bs.
Proof.
  intros Hne Hbs. unfold from_le_bytes.
  rewrite to_le_bytes_wrap_s by (destruct bs; [done|simpl; lia]).
  by apply to_le_bytes_le_value.
Qed.

(** Writing an integer and reading it back, with the bytes around it kept. *)
Lemma set_get_le_frame n bytes pos v :
  0 < n -> 0 <= pos -> pos + n <= Z.of_nat (length bytes) ->
  exists bytes',
    set_le_with_len n bytes pos v n = Ok bytes' /\
    get_le n bytes' pos = Ok (wrap_s (8 * n) v) /\
    length bytes' = length bytes /\
    forall j, Z.of_nat j < pos \/ pos + n <= Z.of_nat j -> bytes' !! j = bytes !! j.
Proof.
  intros Hn Hp Hl. unfold set_le_with_len, get_le.
  replace ((0 <=? n) && (n <=? n)) with true by lia.
  rewrite take_ge by (rewrite to_le_bytes_length; lia).
  destruct (vcopy_spec bytes pos (to_le_bytes (Z.to_nat n) v)) as (b' & H1 & H2 & H3 & H4);
    rewrite ?to_le_bytes_length in *; [lia..|].
  exists b'. rewrite Z2Nat.id in * by lia. rewrite H2. simpl. split_and!; auto.
  rewrite from_to_le_bytes by lia. by rewrite Z2Nat.id by lia.
Qed.

Lemma set_get_be_frame n bytes pos v :
  0 < n -> 0 <= pos -> pos + n <= Z.of_nat (length bytes) ->
  exists bytes',
    set_be_with_len n bytes pos v n = Ok bytes' /\
    get_be n bytes' pos = Ok (wrap_s (8 * n) v) /\
    length bytes' = length bytes /\
    forall j, Z.of_nat j < pos \/ pos + n <= Z.of_nat j -> bytes' !! j = bytes !! j.
Proof.
  intros Hn Hp Hl. unfold set_be_with_len, get_be, to_be_bytes, from_be_bytes.
  replace ((0 <=? n) && (n <=? n)) with true by lia.
  rewrite take_ge by (rewrite length_rev, to_le_bytes_length; lia).
  destruct (vcopy_spec bytes pos (rev (to_le_bytes (Z.to_nat n) v)))
    as (b' & H1 & H2 & H3 & H4); rewrite ?length_rev, ?to_le_bytes_length in *; [lia..|].
  exists b'. rewrite Z2Nat.id in * by lia. rewrite H2. simpl. split_and!; auto.
  rewrite rev_involutive, from_to_le_bytes by lia. by rewrite Z2Nat.id by lia.
Qed.

(** ** Interleaving *)

(** A symbolic value: for each of the 64 bit positions, the bits of the input
    whose disjunction it is. [sym_spread] follows [spread], so that the bits of
    [spread_all] are computed rather than derived one by one. *)
Definition sym_bit (f : list (list Z)) (i : Z) : list Z :=
  if i <? 0 then [] else default [] (f !! Z.to_nat i).
Definition sym_sound (x v : Z) (f : list (list Z)) : Prop :=
  forall i, i < 64 -> Z.testbit v i = existsb (Z.testbit x) (sym_bit f i).
Definition sym_spread (shift magic : Z) (f : list (list Z)) : list (list Z) :=
  (fun i => if Z.testbit magic i then sym_bit f i ++ sym_bit f (i - shift) else [])
    <$> seqZ 0 64.

Lemma sym_spread_sound x shift magic v f :
  0 <= shift -> sym_sound x v f ->
  sym_sound x (spread shift magic v) (sym_spread shift magic f).
Proof.
  intros Hs Hf i Hi. unfold spread. unfold sym_bit at 1.
  destruct (Z.ltb_spec i 0); [by rewrite Z.testbit_neg_r by lia|].
  unfold sym_spread. rewrite list_lookup_fmap, lookup_seqZ_lt by lia. cbn [fmap option_fmap option_map default].
  autorewrite with zbits. rewrite Z2Nat.id, Z.add_0_l by lia. replace (i <? 64) with true by lia.
  destruct (Z.testbit magic i); simpl; rewrite ?andb_false_r, ?andb_true_r; [|done].
  by rewrite existsb_app, !Hf by lia.
Qed.

Lemma spread_all_sound x :
  sym_sound x (spread_all x)
    ((fun i => if Z.even i then [i / 2] else []) <$> seqZ 0 64).
Proof.
  unfold spread_all.
  match goal with |- sym_sound _ _ ?f => replace f with
    (sym_spread SHIFT0 MAGIC0 (sym_spread SHIFT1 MAGIC1 (sym_spread SHIFT2 MAGIC2
      (sym_spread SHIFT3 MAGIC3 (sym_spread SHIFT4 MAGIC4
        ((fun i => [i]) <$> seqZ 0 32)))))) by (vm_compute; reflexivity) end.
  do 5 (apply sym_spread_sound; [vm_compute; discriminate|]).
  intros i Hi. unfold sym_bit.
  destruct (Z.ltb_spec i 0); [by rewrite Z.testbit_neg_r by lia|].
  change MAGIC5 with (Z.ones 32). autorewrite with zbits.
  rewrite list_lookup_fmap. destruct (decide (i < 32)).
  - rewrite lookup_seqZ_lt by lia. simpl. rewrite Z2Nat.id, ?Z.add_0_l by lia.
    rewrite Z.ones_spec_low by lia.
    replace (i <? 64) with true by lia. replace (i <? 32) with true by lia.
    by rewrite orb_false_r.
  - rewrite lookup_seqZ_ge by lia. simpl. by rewrite Z.ones_spec_high by lia.
Qed.

Lemma spread_all_testbit x i :
  i < 64 -> Z.testbit (spread_all x) i = Z.even i && Z.testbit x (i / 2).
Proof.
  intros Hi. rewrite spread_all_sound by lia. unfold sym_bit.
  destruct (Z.ltb_spec i 0) as [Hn|Hn].
  - rewrite (Z.testbit_neg_r x) by (apply Z.div_lt_upper_bound; lia).
    by rewrite andb_false_r.
  - rewrite list_lookup_fmap, lookup_seqZ_lt by lia. simpl. rewrite Z2Nat.id, ?Z.add_0_l by lia.
    destruct (Z.even i); simpl; by rewrite ?orb_false_r.
Qed.

Lemma interleave_testbit even odd k :
  0 <= k < 32 ->
  Z.testbit (interleave even odd) (2 * k) = Z.testbit even k /\
  Z.testbit (interleave even odd) (2 * k + 1) = Z.testbit odd k.
Proof.
  intros Hk. unfold interleave. split; autorewrite with zbits.
  - rewrite Z.min_l by lia. rewrite !spread_all_testbit by lia.
    rewrite Z.even_sub, Z.even_mul. simpl. rewrite andb_false_r. simpl.
    by rewrite Z.mul_comm, Z.div_mul by lia.
  - rewrite Z.min_l by lia. rewrite !spread_all_testbit by lia.
    replace (2 * k + 1 - 1) with (2 * k) by lia.
    rewrite Z.even_add, Z.even_mul. simpl. rewrite orb_false_r.
    replace (2 * k + 1 <? 64) with true by lia. simpl.
    by rewrite Z.mul_comm, Z.div_mul by lia.
Qed.

(** [flip_flop] exchanges the two halves of an interleaved value. *)
Lemma flip_flop_testbit b i :
  0 <= i < 64 ->
  Z.testbit (flip_flop b) i = Z.testbit b (if Z.even i then i + 1 else i - 1).
Proof.
  intros Hi. unfold flip_flop. autorewrite with zbits.
  rewrite Z.min_l by lia.
  assert (HM : forall j, 0 <= j < 64 ->
    Z.testbit MAGIC6 j = negb (Z.even j) /\ Z.testbit MAGIC0 j = Z.even j).
  { intros j Hj. assert (Forall (fun j => Z.testbit MAGIC6 j = negb (Z.even j) /\
      Z.testbit MAGIC0 j = Z.even j) (seqZ 0 64)) as HF
      by (vm_compute; repeat constructor).
    rewrite Forall_forall in HF. apply HF, elem_of_seqZ. lia. }
  replace (i <? 64) with true by lia.
  destruct (Z.even i) eqn:Ei.
  - assert (i <> 63) by (intros ->; discriminate).
    rewrite (proj1 (HM (i + 1) ltac:(lia))), Z.even_add, Ei. simpl.
    replace (i + 1 <? 64) with true by lia.
    destruct (decide (i = 0)) as [->|]; [by rewrite !andb_true_r, orb_false_r|].
    rewrite (proj2 (HM (i - 1) ltac:(lia))), Z.even_sub, Ei. simpl.
    by rewrite !andb_true_r, andb_false_r, orb_false_r.
  - assert (i <> 0) by (intros ->; discriminate).
    rewrite (proj2 (HM (i - 1) ltac:(lia))), Z.even_sub, Ei. simpl.
    replace (i - 1 <? 64) with true by lia. rewrite andb_true_r. simpl.
    destruct (decide (i = 63)) as [->|]; [by simpl|].
    rewrite (proj1 (HM (i + 1) ltac:(lia))), Z.even_add, Ei. simpl.
    by rewrite andb_false_r.
Qed.

Lemma interleave_in_s even odd : in_s 64 (interleave even odd).
Proof. apply wrap_s_in. lia. Qed.

Lemma eq_bits64 x y : in_s 64 x -> in_s 64 y ->
  (forall i, 0 <= i < 64 -> Z.testbit x i = Z.testbit y i) -> x = y.
Proof.
  intros Hx Hy H. rewrite <- (wrap_s_id 64 x), <- (wrap_s_id 64 y) by (auto; lia).
  apply Z.bits_inj'. intros i Hi. rewrite !wrap_s_testbit by lia. apply H. lia.
Qed.

Lemma flip_flop_interleave even odd b :
  in_s 64 b ->
  flip_flop (flip_flop b) = b /\
  flip_flop (interleave even odd) = interleave odd even.
Proof.
  intros Hb. split; apply eq_bits64; auto using interleave_in_s;
    try (apply wrap_s_in; lia); intros i Hi; pose proof (Z.div_mod i 2 ltac:(lia)) as Hdm;
    rewrite Zmod_even in Hdm; destruct (Z.even i) eqn:Ei;
    rewrite flip_flop_testbit, Ei by lia.
  - assert (i <> 63) by (intros ->; discriminate).
    rewrite flip_flop_testbit, Z.even_add, Ei by lia. simpl. f_equal. lia.
  - assert (i <> 0) by (intros ->; discriminate).
    rewrite flip_flop_testbit, Z.even_sub, Ei by lia. simpl. f_equal. lia.
  - replace i with (2 * (i / 2)) by lia.
    rewrite (proj2 (interleave_testbit even odd (i / 2) ltac:(lia))).
    by rewrite (proj1 (interleave_testbit odd even (i / 2) ltac:(lia))).
  - replace (i - 1) with (2 * (i / 2)) by lia.
    rewrite (proj1 (interleave_testbit even odd (i / 2) ltac:(lia))).
    replace i with (2 * (i / 2) + 1) at 2 by lia.
    by rewrite (proj2 (interleave_testbit odd even (i / 2) ltac:(lia))).
Qed.

(** [interleave] puts bit [k] of [even] at position [2k] and bit [k] of [odd]
    at position [2k + 1] of the result, for each of the 32 bits; [flip_flop]
    exchanges the two components, and is an involution on 64-bit values. *)
Theorem interleave_correct even odd k b :
  0 <= k < 32 -> in_s 64 b ->
  Z.testbit (interleave even odd) (2 * k) = Z.testbit even k /\
  Z.testbit (interleave even odd) (2 * k + 1) = Z.testbit odd k /\
  flip_flop (interleave even odd) = interleave odd even /\
  flip_flop (flip_flop b) = b.
Proof.
  intros Hk Hb. destruct (interleave_testbit even odd k Hk).
  destruct (flip_flop_interleave even odd b Hb). auto.
Qed.

Lemma interleave_correct_witness :
  Z.testbit (interleave 5 (-1)) (2 * 2) = Z.testbit 5 2 /\
  Z.testbit (interleave 5 (-1)) (2 * 2 + 1) = Z.testbit (-1) 2 /\
  flip_flop (interleave 5 (-1)) = interleave (-1) 5 /\
  flip_flop (flip_flop (-77)) = -77.
Proof. apply (interleave_correct 5 (-1) 2 (-77)); [lia|vm_compute; intuition congruence]. Defined.

(** ** Rounding up to a power of two *)

(** [v] holds, at each position, the disjunction of [k] bits of [v0] upwards. *)
Definition smeared (v0 v k : Z) : Prop :=
  forall i, 0 <= i ->
    Z.testbit v i = true <-> exists j, i <= j < i + k /\ Z.testbit v0 j = true.

Lemma smear_smeared v0 v k :
  0 < k -> smeared v0 v k -> smeared v0 (smear v k) (2 * k).
Proof.
  intros Hk Hv i Hi. unfold smear. autorewrite with zbits.
  rewrite orb_true_iff, (Hv i), (Hv (i + k)) by lia. split.
  - intros [(j & Hj & Hb)|(j & Hj & Hb)]; exists j; split; auto; lia.
  - intros (j & Hj & Hb). destruct (decide (j < i + k)); [left|right]; exists j; split; auto; lia.
Qed.

Lemma smeared_self v : smeared v v 1.
Proof.
  intros i Hi. split; [intros; exists i; split; auto; lia|].
  intros (j & Hj & Hb). by replace i with j by lia.
Qed.

Lemma smeared_ones v0 v k :
  0 < v0 -> Z.log2 v0 < k -> 0 <= v -> smeared v0 v k ->
  v = 2 ^ (Z.log2 v0 + 1) - 1.
Proof.
  intros Hv0 Hk Hv Hs. rewrite <- Z.sub_1_r, <- Z.ones_equiv || rewrite Z.sub_1_r, <- Z.ones_equiv.
  pose proof (Z.log2_nonneg v0).
  apply Z.bits_inj'. intros i Hi. destruct (decide (i < Z.log2 v0 + 1)).
  - rewrite Z.ones_spec_low by lia. apply Hs; [lia|].
    exists (Z.log2 v0). split; [lia|]. by apply Z.bit_log2.
  - rewrite Z.ones_spec_high by lia. apply not_true_iff_false. intros Hb.
    apply Hs in Hb as (j & Hj & Hb); [|lia].
    rewrite Z.bits_above_log2 in Hb by lia. done.
Qed.

Lemma smear_nonneg v k : 0 <= v -> 0 <= smear v k.
Proof.
  intros. unfold smear. apply Z.lor_nonneg. split; [done|]. by apply Z.shiftr_nonneg.
Qed.

Lemma pow2_above v :
  1 <= v ->
  exists k, 0 <= k /\ v <= 2 ^ k < 2 * v /\
    2 ^ k = (if v =? 1 then 1 else 2 ^ (Z.log2 (v - 1) + 1)).
Proof.
  intros Hv. destruct (Z.eqb_spec v 1) as [->|]; [exists 0; lia|].
  pose proof (Z.log2_spec (v - 1) ltac:(lia)) as Hl. pose proof (Z.log2_nonneg (v - 1)).
  exists (Z.log2 (v - 1) + 1). rewrite Z.pow_succ_r, Z.add_1_r, Z.pow_succ_r in * by lia.
  split_and!; lia.
Qed.

(** The smearing shared by both widths: [n] halvings cover [2^n] bits. *)
Lemma next_pow2_core v sm m :
  1 <= v -> 0 <= Z.log2 (v - 1) < m ->
  0 <= sm -> smeared (v - 1) sm m ->
  exists k, 0 <= k /\ sm + 1 = 2 ^ k /\ v <= 2 ^ k < 2 * v.
Proof.
  intros Hv Hlog Hsm Hs. destruct (pow2_above v Hv) as (k & Hk & Hb & Heq).
  exists k. split_and!; [lia| |lia..].
  destruct (Z.eqb_spec v 1) as [->|].
  - rewrite Heq. enough (sm = 0) by lia. apply Z.bits_inj'. intros i Hi.
    rewrite Z.bits_0. apply not_true_iff_false. intros Hb'.
    apply Hs in Hb' as (j & ? & Hj); [|lia]. by rewrite Z.bits_0 in Hj.
  - rewrite (smeared_ones (v - 1) sm m) by (auto; lia). lia.
Qed.

Ltac smear_chain :=
  repeat match goal with
    | |- smeared _ (smear _ ?k) ?m => apply (smear_smeared _ _ k); [lia|]
    end; apply smeared_self.

(** For every positive [v] there is a least power of two that is at least [v] (it is below
    [2 v]); the rounding returns it, or panics when it does not fit the type. Both keep
    zero. *)
Theorem next_highest_power_of_two_correct v w :
  1 <= v <= i64_MAX -> 1 <= w <= i32_MAX ->
  (exists k, 0 <= k /\ v <= 2 ^ k < 2 * v /\
     next_highest_power_of_two_with_i64 v = if v <=? 2 ^ 62 then Ok (2 ^ k) else Panic) /\
  (exists k, 0 <= k /\ w <= 2 ^ k < 2 * w /\
     next_highest_power_of_two_with_i32 w = if w <=? 2 ^ 30 then Ok (2 ^ k) else Panic) /\
  next_highest_power_of_two_with_i64 0 = Ok 0 /\ next_highest_power_of_two_with_i32 0 = Ok 0.
Proof.
  unfold i64_MAX, i32_MAX. intros Hv Hw.
  assert (Hfit : forall b x k, 2 <= b -> 0 <= k -> x <= 2 ^ k < 2 * x ->
    exact_s b (2 ^ k) = if x <=? 2 ^ (b - 2) then Ok (2 ^ k) else Panic).
  { intros b x k Hb Hk Hx. assert (Hp : 2 ^ (b - 1) = 2 * 2 ^ (b - 2)) by (rewrite <- Z.pow_succ_r by lia; f_equal; lia).
    unfold exact_s, in_s. destruct (Z.leb_spec x (2 ^ (b - 2))) as [Hle|Hgt]; [rewrite decide_True; [done|lia]|].
    rewrite decide_False; [done|]. intros [_ Hlt]. apply Z.pow_lt_mono_r_iff in Hlt; [|lia..].
    pose proof (Z.pow_le_mono_r 2 k (b - 2)). lia. }
  split_and!; [| |reflexivity|reflexivity].
  - unfold next_highest_power_of_two_with_i64. rewrite exact_s_ok by (unfold in_s; lia). cbn [rbind].
    match goal with |- context [?s + 1] =>
      destruct (next_pow2_core v s 64) as (k & Hk & Hs & Hb) end;
      [lia|idtac|repeat apply smear_nonneg; lia|change 64 with (2 * 32); smear_chain|].
    + split; [apply Z.log2_nonneg|].
      destruct (decide (v = 1)) as [->|]; [vm_compute; done|apply Z.log2_lt_pow2; lia].
    + exists k. rewrite Hs, (Hfit 64 v k) by lia. auto.
  - unfold next_highest_power_of_two_with_i32. rewrite exact_s_ok by (unfold in_s; lia). cbn [rbind].
    match goal with |- context [?s + 1] =>
      destruct (next_pow2_core w s 32) as (k & Hk & Hs & Hb) end;
      [lia|idtac|repeat apply smear_nonneg; lia|change 32 with (2 * 16); smear_chain|].
    + split; [apply Z.log2_nonneg|].
      destruct (decide (w = 1)) as [->|]; [vm_compute; done|apply Z.log2_lt_pow2; lia].
    + exists k. rewrite Hs, (Hfit 32 w k) by lia. auto.
Qed.

Lemma next_highest_power_of_two_correct_witness :
  exists k, 0 <= k /\ 100 <= 2 ^ k < 2 * 100 /\ next_highest_power_of_two_with_i64 100 = Ok (2 ^ k).
Proof. apply (next_highest_power_of_two_correct 100 64); unfold i64_MAX, i32_MAX; lia. Defined.

(** Zig-zag coding is a bijection between signed and unsigned integers of the
    same width: decoding the encoded bit pattern gives the integer back, every
    unsigned pattern is the code of the integer it decodes to, and the code of a
    small magnitude is small ([2 x] or [-2 x - 1]); for 32 and for 64 bits. *)
Theorem zig_zag_bijection x u l m :
  in_s 32 x -> in_u 32 u -> in_s 64 l -> in_u 64 m ->
  zig_zag_decode_i32 (as_u32 (zig_zag_encode_i32 x)) = x /\
  as_u32 (zig_zag_encode_i32 (zig_zag_decode_i32 u)) = u /\
  as_u32 (zig_zag_encode_i32 x) = (if 0 <=? x then 2 * x else - 2 * x - 1) /\
  zig_zag_decode_i64 (as_u64 (zig_zag_encode_i64 l)) = l /\
  as_u64 (zig_zag_encode_i64 (zig_zag_decode_i64 m)) = m /\
  as_u64 (zig_zag_encode_i64 l) = (if 0 <=? l then 2 * l else - 2 * l - 1).
Proof.
  intros Hx Hu Hl Hm. split_and!.
  - exact (zig_zag_roundtrip 32 x ltac:(lia) Hx).
  - exact (proj2 (zig_zag_roundtrip_inv 32 u ltac:(lia) Hu)).
  - exact (zig_zag_encode_code 32 x ltac:(lia) Hx).
  - exact (zig_zag_roundtrip 64 l ltac:(lia) Hl).
  - exact (proj2 (zig_zag_roundtrip_inv 64 m ltac:(lia) Hm)).
  - exact (zig_zag_encode_code 64 l ltac:(lia) Hl).
Qed.

Lemma zig_zag_bijection_witness :
  zig_zag_decode_i32 (as_u32 (zig_zag_encode_i32 (-3))) = -3 /\
  as_u32 (zig_zag_encode_i32 (zig_zag_decode_i32 7)) = 7 /\
  as_u32 (zig_zag_encode_i32 (-3)) = (if 0 <=? -3 then 2 * -3 else - 2 * -3 - 1) /\
  zig_zag_decode_i64 (as_u64 (zig_zag_encode_i64 9)) = 9 /\
  as_u64 (zig_zag_encode_i64 (zig_zag_decode_i64 8)) = 8 /\
  as_u64 (zig_zag_encode_i64 9) = (if 0 <=? 9 then 2 * 9 else - 2 * 9 - 1).
Proof. apply (zig_zag_bijection (-3) 7 9 8); unfold in_s, in_u; lia. Defined.

(** Each fixed-width setter, little- or big-endian, of width 2, 4 or 8, succeeds
    on every slice that has room at [pos]; the getter of the same width and byte
    order then returns the value written, the slice keeps its length and no byte
    outside the written range changes. *)
Theorem fixed_width_accessors n bytes pos v :
  n = SHORT_BYTES \/ n = INT_BYTES \/ n = LONG_BYTES ->
  in_s (8 * n) v -> 0 <= pos -> pos + n <= Z.of_nat (length bytes) ->
  (exists bs, set_le_with_len n bytes pos v n = Ok bs /\ get_le n bs pos = Ok v /\
     length bs = length bytes /\
     forall j, Z.of_nat j < pos \/ pos + n <= Z.of_nat j -> bs !! j = bytes !! j) /\
  (exists bs, set_be_with_len n bytes pos v n = Ok bs /\ get_be n bs pos = Ok v /\
     length bs = length bytes /\
     forall j, Z.of_nat j < pos \/ pos + n <= Z.of_nat j -> bs !! j = bytes !! j).
Proof.
  intros Hn Hv Hp Hl.
  assert (0 < n) by (unfold SHORT_BYTES, INT_BYTES, LONG_BYTES in Hn; lia).
  rewrite <- (wrap_s_id (8 * n) v) by (auto; lia).
  split; [destruct (set_get_le_frame n bytes pos (wrap_s (8 * n) v)) as (b & H1 & H2 & H3 & H4)
         |destruct (set_get_be_frame n bytes pos (wrap_s (8 * n) v)) as (b & H1 & H2 & H3 & H4)];
    try lia; exists b; split_and!; auto; rewrite H2; f_equal;
    rewrite wrap_s_id; auto with words.
Qed.

Lemma fixed_width_accessors_witness :
  (exists bs, set_le_with_len 4 [9;9;9;9;9;9] 1 (-2) 4 = Ok bs /\ get_le 4 bs 1 = Ok (-2) /\
     length bs = 6%nat /\
     forall j, Z.of_nat j < 1 \/ 1 + 4 <= Z.of_nat j -> bs !! j = [9;9;9;9;9;9] !! j) /\
  (exists bs, set_be_with_len 4 [9;9;9;9;9;9] 1 (-2) 4 = Ok bs /\ get_be 4 bs 1 = Ok (-2) /\
     length bs = 6%nat /\
     forall j, Z.of_nat j < 1 \/ 1 + 4 <= Z.of_nat j -> bs !! j = [9;9;9;9;9;9] !! j).
Proof.
  apply (fixed_width_accessors 4 [9;9;9;9;9;9] 1 (-2));
    [right; left; reflexivity|unfold in_s; lia|lia|simpl; lia].
Defined.

End BitUtil.
