(* ===== verification/Utf8.v ===== *)
(** UTF-8 validation and lossy decoding as the standard library performs them
    ([std::str::from_utf8], [String::from_utf8_lossy]); [DataInput::read_string] in
    src/core/store/data_input.rs uses both. Text is its UTF-8 bytes. *)

From Stdlib Require Import ZArith Lia Bool.
From stdpp Require Import base tactics numbers list.
From S2P Require Import Prelude.

Local Open Scope Z_scope.

Module Utf8.

Definition between (lo hi b : Z) : bool := (lo <=? b) && (b <=? hi).

(** The byte at [i], zero past the end (zero is no continuation byte). *)
Definition at_ (bs : list Z) (i : nat) : Z := default 0 (bs !! i).

(** The second byte of a three- or four-byte sequence, by its first byte. *)
Definition second3 (b0 b1 : Z) : bool :=
  if b0 =? 0xE0 then between 0xA0 0xBF b1
  else if b0 =? 0xED then between 0x80 0x9F b1
  else between 0x80 0xBF b1.
Definition second4 (b0 b1 : Z) : bool :=
  if b0 =? 0xF0 then between 0x90 0xBF b1
  else if b0 =? 0xF4 then between 0x80 0x8F b1
  else between 0x80 0xBF b1.

(** How many bytes the sequence at the head takes, and whether it is a character;
    an ill-formed sequence takes its maximal well-formed prefix. *)
Definition head_len (bs : list Z) : nat * bool :=
  let b0 := at_ bs 0 in let b1 := at_ bs 1 in let b2 := at_ bs 2 in let b3 := at_ bs 3 in
  let cont := between 0x80 0xBF in
  if b0 <? 0x80 then (1%nat, true)
  else if between 0xC2 0xDF b0 then
    if cont b1 then (2%nat, true) else (1%nat, false)
  else if between 0xE0 0xEF b0 then
    if negb (second3 b0 b1) then (1%nat, false)
    else if negb (cont b2) then (2%nat, false) else (3%nat, true)
  else if between 0xF0 0xF4 b0 then
    if negb (second4 b0 b1) then (1%nat, false)
    else if negb (cont b2) then (2%nat, false)
    else if negb (cont b3) then (3%nat, false) else (4%nat, true)
  else (1%nat, false).

(** U+FFFD *)
Definition replacement : list Z := [0xEF; 0xBF; 0xBD].

Fixpoint scan (fuel : nat) (bs : list Z) : list Z * bool :=
  match fuel with
  | O => ([], true)
  | S fuel =>
      match bs with
      | [] => ([], true)
      | _ :: _ =>
          let (n, good) := head_len bs in
          let (rest, all_good) := scan fuel (drop n bs) in
          ((if good then take n bs else replacement) ++ rest, good && all_good)
      end
  end.

Definition from_utf8 (bs : list Z) : option (list Z) :=
  if (scan (length bs) bs).2 then Some bs else None.
Definition from_utf8_lossy (bs : list Z) : list Z := (scan (length bs) bs).1.
Definition valid (bs : list Z) : bool := (scan (length bs) bs).2.

Lemma head_len_pos bs : (1 <= (head_len bs).1)%nat.
Proof. unfold head_len. repeat case_match; simpl; lia. Qed.

(** Lossy decoding changes nothing in valid text. *)
Lemma scan_valid fuel bs :
  (length bs <= fuel)%nat -> (scan fuel bs).2 = true -> (scan fuel bs).1 = bs.
Proof.
  revert bs. induction fuel as [|fuel IH]; intros [|b bs] Hl; simpl in *; try done; try lia.
  pose proof (head_len_pos (b :: bs)) as Hp.
  destruct (head_len (b :: bs)) as [n good]. simpl in Hp.
  specialize (IH (drop n (b :: bs))). rewrite length_drop in IH. simpl length in IH.
  specialize (IH ltac:(lia)).
  destruct (scan fuel (drop n (b :: bs))) as [rest all_good]. simpl in *.
  intros [-> ->]%andb_true_iff. rewrite IH by done. apply take_drop.
Qed.

Lemma valid_lossy bs : valid bs = true -> from_utf8_lossy bs = bs.
Proof. intros H. by apply scan_valid. Qed.

Example lossy_truncated : from_utf8_lossy [97; 0xE2; 0x82] = [97; 0xEF; 0xBF; 0xBD].
Proof. reflexivity. Qed.

End Utf8.
