(* ===== verification/DataOutput.v ===== *)
(** Model of the [DataOutput] trait (src/core/store/data_output.rs): the primitive
    writes as a class, the default methods as functions over it, the contract every
    implementation keeps ([DataOutputSpec]: a write appends its code), and two
    implementations, [ByteArrayDataOutput] (src/core/store), which overrides the
    fixed-width writes, and [GrowableByteArrayDataOutput] (src/core/util/fst_impl),
    which does not. *)

From Stdlib Require Import ZArith Lia Bool.
From stdpp Require Import base tactics numbers list.
From S2P Require Import Prelude ArrayUtil BitUtil.
Import BitUtil.

Local Open Scope Z_scope.

(** * The trait *)

(** [write_byte] and [write_bytes_range] are the required methods; the others are
    the default methods that implementations override. *)
Class DataOutput (S : Type) := {
  write_byte : Z -> ST S unit;
  write_bytes_range : list Z -> Z -> Z -> ST S unit;
  write_int : Z -> ST S unit;
  write_short : Z -> ST S unit;
  write_long : Z -> ST S unit;
}.

Section Defaults.
Context {S : Type} (wbyte wint : Z -> ST S unit).

Definition default_write_int (i : Z) : ST S unit :=
  let* _ := wbyte (as_u8 i) in
  let* _ := wbyte (as_u8 (Z.shiftr i 8)) in
  let* _ := wbyte (as_u8 (Z.shiftr i 16)) in
  wbyte (as_u8 (Z.shiftr i 24)).

Definition default_write_short (i : Z) : ST S unit :=
  let* _ := wbyte (as_u8 i) in
  wbyte (as_u8 (Z.shiftr i 8)).

Definition default_write_long (i : Z) : ST S unit :=
  let* _ := wint (as_i32 i) in
  wint (as_i32 (Z.shiftr i 32)).
End Defaults.

Section Methods.
Context {S : Type} {DO : DataOutput S}.

Definition write_bytes_with_len (b : list Z) (len : Z) : ST S unit :=
  write_bytes_range b 0 len.

Fixpoint write_ints (values : list Z) : ST S unit :=
  match values with
  | [] => sret tt
  | value :: values => let* _ := write_int value in write_ints values
  end.

(** The loop of [write_vint] ([w = 32]) and [write_signed_vlong] ([w = 64]). *)
Fixpoint write_v (w : Z) (fuel : nat) (i : Z) : ST S unit :=
  match fuel with
  | O => slift OutOfFuel
  | Datatypes.S fuel =>
      if Z.land i (wrap_u w (Z.lnot 0x7F)) =? 0 then write_byte (as_u8 i)
      else
        let* _ := write_byte (as_u8 (Z.lor (Z.land i 0x7F) 0x80)) in
        write_v w fuel (Z.shiftr i 7)
  end.

Definition write_vint (i : Z) : ST S unit := write_v 32 5 (as_u32 i).

Definition write_zint (i : Z) : ST S unit := write_vint (zig_zag_encode_i32 i).

Definition write_signed_vlong (i : Z) : ST S unit := write_v 64 10 (as_u64 i).

Definition write_vlong (i : Z) : ST S unit :=
  if i <? 0 then slift (Err IllegalArgument) else write_signed_vlong i.

Definition write_zlong (i : Z) : ST S unit := write_signed_vlong (zig_zag_encode_i64 i).

(** A [&str] is its UTF-8 bytes. *)
Definition write_string (s : list Z) : ST S unit :=
  let* _ := write_vint (as_i32 (Z.of_nat (length s))) in
  write_bytes_range s 0 (Z.of_nat (length s)).

(** [entries] are the pairs in the order in which the hash map yields them. *)
Fixpoint write_entries (entries : list (list Z * list Z)) : ST S unit :=
  match entries with
  | [] => sret tt
  | (key, value) :: entries =>
      let* _ := write_string key in
      let* _ := write_string value in
      write_entries entries
  end.

Definition write_map_of_strings (entries : list (list Z * list Z)) : ST S unit :=
  let* _ := write_vint (as_i32 (Z.of_nat (length entries))) in
  write_entries entries.

Fixpoint write_strings (set : list (list Z)) : ST S unit :=
  match set with
  | [] => sret tt
  | value :: set => let* _ := write_string value in write_strings set
  end.

Definition write_set_of_strings (set : list (list Z)) : ST S unit :=
  let* _ := write_vint (as_i32 (Z.of_nat (length set))) in
  write_strings set.
End Methods.

(** * The contract *)

(** [out] is what the output holds, [room] how many bytes it still takes without an
    error, [out_inv] the representation invariant. *)
Class DataOutputSpec (S : Type) {DO : DataOutput S} := {
  out : S -> list Z;
  room : S -> Z;
  out_inv : S -> Prop;
  appends (m : ST S unit) (s : S) (bs : list Z) : Prop :=
    exists s', m s = (Ok tt, s') /\ out_inv s' /\ out s' = out s ++ bs /\
      room s' = room s - Z.of_nat (length bs);
  write_byte_spec s b :
    out_inv s -> in_u 8 b -> 1 <= room s -> appends (write_byte b) s [b];
  write_bytes_range_spec s b off len :
    out_inv s -> Forall (in_u 8) b -> 0 <= off -> 0 <= len ->
    off + len <= Z.of_nat (length b) -> len <= room s ->
    appends (write_bytes_range b off len) s (take (Z.to_nat len) (drop (Z.to_nat off) b));
  write_short_spec s i :
    out_inv s -> 2 <= room s -> appends (write_short i) s (to_le_bytes 2 i);
  write_int_spec s i :
    out_inv s -> 4 <= room s -> appends (write_int i) s (to_le_bytes 4 i);
  write_long_spec s i :
    out_inv s -> 8 <= room s -> appends (write_long i) s (to_le_bytes 8 i);
}.

(** A write that appends [bs1], followed by one that appends [bs2]. *)
Lemma appends_seq {S} {DO : DataOutput S} {O : DataOutputSpec S}
    (m : ST S unit) (k : unit -> ST S unit) s bs1 bs2 :
  appends m s bs1 ->
  (forall s', out_inv s' -> room s' = room s - Z.of_nat (length bs1) -> appends (k tt) s' bs2) ->
  appends (sbind m k) s (bs1 ++ bs2).
Proof.
  intros (s1 & Hm & Hi1 & Ho1 & Hr1) Hk.
  destruct (Hk s1 Hi1 Hr1) as (s2 & Hm2 & Hi2 & Ho2 & Hr2).
  exists s2. rewrite (sbind_ok _ _ _ _ _ Hm), Hm2. split_and!; auto.
  - by rewrite Ho2, Ho1, app_assoc.
  - rewrite length_app. lia.
Qed.

Lemma appends_nil {S} {DO : DataOutput S} {O : DataOutputSpec S} s :
  out_inv s -> appends (sret tt) s [].
Proof. intros. exists s. rewrite app_nil_r. simpl. split_and!; auto; lia. Qed.

(** The same combinator over a bare [write_byte], used to build instances. *)
Section DefaultSpecs.
Context {S : Type} (outf : S -> list Z) (roomf : S -> Z) (inv : S -> Prop).
Let app_to (m : ST S unit) (s : S) (bs : list Z) : Prop :=
  exists s', m s = (Ok tt, s') /\ inv s' /\ outf s' = outf s ++ bs /\
    roomf s' = roomf s - Z.of_nat (length bs).
Context (wbyte wint : Z -> ST S unit).
Hypothesis wbyte_spec : forall s b,
  inv s -> in_u 8 b -> 1 <= roomf s -> app_to (wbyte b) s [b].
Hypothesis wint_spec : forall s i,
  inv s -> 4 <= roomf s -> app_to (wint i) s (to_le_bytes 4 i).

Lemma app_to_seq (m : ST S unit) k s bs1 bs2 :
  app_to m s bs1 ->
  (forall s', inv s' -> roomf s' = roomf s - Z.of_nat (length bs1) -> app_to (k tt) s' bs2) ->
  app_to (sbind m k) s (bs1 ++ bs2).
Proof.
  intros (s1 & Hm & Hi1 & Ho1 & Hr1) Hk.
  destruct (Hk s1 Hi1 Hr1) as (s2 & Hm2 & Hi2 & Ho2 & Hr2).
  exists s2. rewrite (sbind_ok _ _ _ _ _ Hm), Hm2. split_and!; auto.
  - by rewrite Ho2, Ho1, app_assoc.
  - rewrite length_app. lia.
Qed.

Lemma app_to_byte b k s bs :
  inv s -> in_u 8 b -> 1 <= roomf s ->
  (forall s', inv s' -> roomf s' = roomf s - 1 -> app_to (k tt) s' bs) ->
  app_to (sbind (wbyte b) k) s (b :: bs).
Proof. intros. apply (app_to_seq _ _ _ [b] bs); auto. Qed.

Lemma default_write_short_spec s i :
  inv s -> 2 <= roomf s -> app_to (default_write_short wbyte i) s (to_le_bytes 2 i).
Proof.
  intros Hi Hr. apply app_to_byte; auto with words.
Qed.

Lemma default_write_int_spec s i :
  inv s -> 4 <= roomf s -> app_to (default_write_int wbyte i) s (to_le_bytes 4 i).
Proof.
  intros Hi Hr. unfold default_write_int. simpl to_le_bytes.
  rewrite !Z.shiftr_shiftr by lia.
  do 3 (apply app_to_byte; [auto with words..|]; intros).
  apply wbyte_spec; auto with words.
Qed.

Lemma default_write_long_spec s i :
  inv s -> 8 <= roomf s -> app_to (default_write_long wint i) s (to_le_bytes 8 i).
Proof.
  intros Hi Hr. unfold default_write_long.
  assert (Hb : to_le_bytes 8 i
    = to_le_bytes 4 (as_i32 i) ++ to_le_bytes 4 (as_i32 (Z.shiftr i 32))).
  { change 32 with (8 * Z.of_nat 4) at 1 3. rewrite !to_le_bytes_wrap_s by lia.
    simpl. by rewrite !Z.shiftr_shiftr by lia. }
  rewrite Hb. apply app_to_seq; [by apply wint_spec; auto with words|].
  intros s' Hi' Hr'. rewrite to_le_bytes_length in Hr'. apply wint_spec; auto; lia.
Qed.
End DefaultSpecs.

(** * The codes *)

(** The variable-length code of an unsigned integer: seven bits per byte, the
    eighth saying that more follow. *)
Fixpoint vcode (fuel : nat) (u : Z) : list Z :=
  match fuel with
  | O => []
  | S fuel =>
      if u <? 128 then [u]
      else Z.lor (Z.land u 0x7F) 0x80 :: vcode fuel (Z.shiftr u 7)
  end.

Definition vint_code (i : Z) : list Z := vcode 5 (as_u32 i).
Definition vlong_code (i : Z) : list Z := vcode 10 (as_u64 i).
Definition string_code (s : list Z) : list Z := vint_code (Z.of_nat (length s)) ++ s.
Definition entries_code (entries : list (list Z * list Z)) : list Z :=
  concat ((fun e => string_code e.1 ++ string_code e.2) <$> entries).
Definition strings_code (set : list (list Z)) : list Z := concat (string_code <$> set).

Lemma entries_code_cons k v es :
  entries_code ((k, v) :: es) = string_code k ++ string_code v ++ entries_code es.
Proof. unfold entries_code. simpl. by rewrite app_assoc. Qed.

Lemma strings_code_cons v vs :
  strings_code (v :: vs) = string_code v ++ strings_code vs.
Proof. done. Qed.

(** The strings the format can hold: bytes, with a length that is an [i32]. *)
Definition str_ok (s : list Z) : Prop :=
  Forall (in_u 8) s /\ Z.of_nat (length s) <= i32_MAX.

Lemma low7_in_u8 u : in_u 8 (Z.lor (Z.land u 0x7F) 0x80).
Proof.
  apply in_u_intro; [lia|]. intros i Hi. autorewrite with zbits.
  rewrite (in_u_testbit 7 0x7F), (in_u_testbit 8 0x80) by (try lia; unfold in_u; lia).
  by rewrite andb_false_r.
Qed.

Lemma vcode_length fuel u : (length (vcode fuel u) <= fuel)%nat.
Proof.
  revert u. induction fuel as [|fuel IH]; intros u; simpl; [lia|].
  destruct (u <? 128); simpl; [lia|]. specialize (IH (Z.shiftr u 7)). lia.
Qed.

Lemma vcode_nonempty fuel u : (0 < fuel)%nat -> (1 <= length (vcode fuel u))%nat.
Proof. destruct fuel; simpl; [lia|]. intros _. destruct (u <? 128); simpl; lia. Qed.

Lemma high_bits_zero w u :
  7 <= w -> in_u w u -> (Z.land u (wrap_u w (Z.lnot 0x7F)) =? 0) = (u <? 128).
Proof.
  intros Hw Hu.
  assert (Z.land u (wrap_u w (Z.lnot 0x7F)) = Z.shiftl (Z.shiftr u 7) 7) as ->.
  { same_bits i. destruct (decide (i < 7)).
    - rewrite (Z.testbit_neg_r _ (i - 7)) by lia.
      change 0x7F with (Z.ones 7). rewrite Z.ones_spec_low by lia.
      by rewrite !andb_false_r.
    - rewrite Z.shiftr_spec by lia. replace (i - 7 + 7) with i by lia.
      change 0x7F with (Z.ones 7). rewrite Z.ones_spec_high by lia.
      destruct (Z.ltb_spec i w); simpl; [by rewrite andb_true_r|].
      by rewrite (in_u_testbit w u) by auto. }
  unfold in_u in Hu.
  rewrite Z.shiftl_mul_pow2, Z.shiftr_div_pow2 by lia. change (2 ^ 7) with 128.
  pose proof (Z.div_mod u 128 ltac:(lia)). pose proof (Z.mod_pos_bound u 128 ltac:(lia)).
  destruct (Z.ltb_spec u 128), (Z.eqb_spec (u / 128 * 128) 0); try done; lia.
Qed.

Lemma in_u_shiftr w u k : 0 <= w -> 0 <= k -> in_u w u -> in_u w (Z.shiftr u k).
Proof.
  intros. apply in_u_intro; [done|]. intros i Hi.
  rewrite Z.shiftr_spec by lia. apply (in_u_testbit w); auto; lia.
Qed.

Lemma shiftr_7_lt u (fuel : nat) :
  0 <= u -> u < 2 ^ (7 * Z.of_nat (S fuel)) -> Z.shiftr u 7 < 2 ^ (7 * Z.of_nat fuel).
Proof.
  intros Hu H. rewrite Z.shiftr_div_pow2 by lia. apply Z.div_lt_upper_bound; [lia|].
  rewrite <- Z.pow_add_r by lia. replace (7 + 7 * Z.of_nat fuel) with (7 * Z.of_nat (S fuel)) by lia.
  done.
Qed.

Section MethodSpecs.
Context {S : Type} {DO : DataOutput S} {O : DataOutputSpec S}.

Lemma write_v_spec w fuel u s :
  7 <= w -> in_u w u -> u < 2 ^ (7 * Z.of_nat fuel) -> (0 < fuel)%nat \/ 0 < u ->
  out_inv s -> Z.of_nat (length (vcode fuel u)) <= room s ->
  appends (write_v w fuel u) s (vcode fuel u).
Proof.
  intros Hw. revert u s. induction fuel as [|fuel IH]; intros u s Hu Hb Hp Hi Hr.
  - change (2 ^ (7 * Z.of_nat 0)) with 1 in Hb. lia.
  - simpl. simpl in Hr. rewrite high_bits_zero by auto.
    destruct (Z.ltb_spec u 128).
    + simpl in Hr. unfold in_u in Hu. rewrite wrap_u_id by (unfold in_u; lia).
      apply write_byte_spec; [done|unfold in_u; lia|lia].
    + simpl in Hr. rewrite wrap_u_id by apply low7_in_u8.
      apply (appends_seq _ _ _ [_]).
      * apply write_byte_spec; [done|apply low7_in_u8|lia].
      * intros s' Hi' Hr'. simpl in Hr'. apply IH; auto; [|unfold in_u in Hu..|lia].
        -- apply in_u_shiftr; auto; lia.
        -- apply shiftr_7_lt; lia || auto.
        -- right. rewrite Z.shiftr_div_pow2 by lia. apply Z.div_str_pos. lia.
Qed.

Lemma write_vint_spec i s :
  out_inv s -> Z.of_nat (length (vint_code i)) <= room s ->
  appends (write_vint i) s (vint_code i).
Proof.
  intros. apply write_v_spec; auto with lia; [apply wrap_u_in; lia|].
  pose proof (wrap_u_in 32 i ltac:(lia)) as Hu. unfold in_u in Hu.
  change (7 * Z.of_nat 5) with 35. lia.
Qed.

Lemma write_signed_vlong_spec i s :
  out_inv s -> Z.of_nat (length (vlong_code i)) <= room s ->
  appends (write_signed_vlong i) s (vlong_code i).
Proof.
  intros. apply write_v_spec; auto with lia; [apply wrap_u_in; lia|].
  pose proof (wrap_u_in 64 i ltac:(lia)) as Hu. unfold in_u in Hu.
  change (7 * Z.of_nat 10) with 70. lia.
Qed.

Lemma write_string_spec str s :
  out_inv s -> str_ok str -> Z.of_nat (length (string_code str)) <= room s ->
  appends (write_string str) s (string_code str).
Proof.
  intros Hi [Hb Hl] Hr. unfold string_code in *. rewrite length_app in Hr.
  unfold i32_MAX in Hl.
  unfold write_string. rewrite wrap_s_id by (unfold in_s; lia).
  apply appends_seq; [apply write_vint_spec; auto; lia|].
  intros s' Hi' Hr'.
  pose proof (write_bytes_range_spec s' str 0 (Z.of_nat (length str))) as H.
  rewrite Nat2Z.id, drop_0, take_ge in H by lia. apply H; auto; lia.
Qed.

Lemma write_entries_spec entries s :
  out_inv s -> Forall (fun e => str_ok e.1 /\ str_ok e.2) entries ->
  Z.of_nat (length (entries_code entries)) <= room s ->
  appends (write_entries entries) s (entries_code entries).
Proof.
  intros Hi He. revert s Hi. induction He as [|[k v] es [Hk Hv] Hes IH]; intros s Hi Hr.
  - by apply appends_nil.
  - rewrite entries_code_cons in *. rewrite !length_app in Hr.
    apply appends_seq; [apply write_string_spec; auto; lia|].
    intros s1 Hi1 Hr1. apply appends_seq; [apply write_string_spec; auto; lia|].
    intros s2 Hi2 Hr2. apply IH; auto; lia.
Qed.

Lemma write_map_of_strings_spec entries s :
  out_inv s -> Forall (fun e => str_ok e.1 /\ str_ok e.2) entries ->
  Z.of_nat (length entries) <= i32_MAX ->
  Z.of_nat (length (vint_code (Z.of_nat (length entries)) ++ entries_code entries)) <= room s ->
  appends (write_map_of_strings entries) s
    (vint_code (Z.of_nat (length entries)) ++ entries_code entries).
Proof.
  intros Hi He Hl Hr. rewrite length_app in Hr. unfold write_map_of_strings.
  unfold i32_MAX in Hl. rewrite wrap_s_id by (unfold in_s; lia).
  apply appends_seq; [apply write_vint_spec; auto; lia|].
  intros s' Hi' Hr'. apply write_entries_spec; auto; lia.
Qed.

Lemma write_set_of_strings_spec set s :
  out_inv s -> Forall str_ok set -> Z.of_nat (length set) <= i32_MAX ->
  Z.of_nat (length (vint_code (Z.of_nat (length set)) ++ strings_code set)) <= room s ->
  appends (write_set_of_strings set) s
    (vint_code (Z.of_nat (length set)) ++ strings_code set).
Proof.
  intros Hi He Hl Hr. rewrite length_app in Hr. unfold write_set_of_strings.
  unfold i32_MAX in Hl. rewrite wrap_s_id by (unfold in_s; lia).
  apply appends_seq; [apply write_vint_spec; auto; lia|].
  intros s' Hi' Hr'.
  assert (Hr2 : Z.of_nat (length (strings_code set)) <= room s') by lia.
  clear Hr Hr' Hi Hl s. revert s' Hi' Hr2.
  induction He as [|v vs Hv Hvs IH]; intros s Hi Hr; [by apply appends_nil|].
  rewrite strings_code_cons in *. rewrite length_app in Hr.
  apply appends_seq; [apply write_string_spec; auto; lia|].
  intros s1 Hi1 Hr1. apply IH; auto; lia.
Qed.
End MethodSpecs.

(** * ByteArrayDataOutput *)

Module ByteArrayDataOutput.

Record t := mk { bytes : list Z; pos : Z; limit : Z }.

Definition with_range (bytes : list Z) (offset length : Z) : t :=
  mk bytes offset (offset + length).
Definition with_bytes (bytes : list Z) : t :=
  with_range bytes 0 (Z.of_nat (length bytes)).
Definition reset_with_range (offset length : Z) : ST t unit := fun s =>
  (Ok tt, mk (bytes s) offset (offset + length)).
Definition reset : ST t unit := fun s =>
  reset_with_range 0 (Z.of_nat (length (bytes s))) s.
Definition get_position (s : t) : Z := pos s.

(** Replace the bytes and move [pos] by [n], or keep the state and panic. *)
Definition store (r : result (list Z)) (n : Z) : ST t unit := fun s =>
  match r with
  | Ok bs => (Ok tt, mk bs (pos s + n) (limit s))
  | Err e => (Err e, s)
  | Panic => (Panic, s)
  | OutOfFuel => (OutOfFuel, s)
  end.

Definition write_byte (b : Z) : ST t unit := fun s =>
  store (let? _ := debug_assert (pos s <? limit s) in vset (bytes s) (pos s) b) 1 s.

Definition write_bytes_range (b : list Z) (offset length : Z) : ST t unit := fun s =>
  store (let? _ := debug_assert (pos s + length <=? limit s) in
         let? src := vslice b offset (offset + length) in
         vcopy (bytes s) (pos s) src) length s.

Definition write_int (i : Z) : ST t unit := fun s =>
  store (let? _ := debug_assert (pos s + INT_BYTES <=? limit s) in
         set_i32_le (bytes s) (pos s) i) INT_BYTES s.

Definition write_short (i : Z) : ST t unit := fun s =>
  store (let? _ := debug_assert (pos s + SHORT_BYTES <=? limit s) in
         set_i16_le (bytes s) (pos s) i) SHORT_BYTES s.

Definition write_long (i : Z) : ST t unit := fun s =>
  store (let? _ := debug_assert (pos s + LONG_BYTES <=? limit s) in
         set_i64_le (bytes s) (pos s) i) LONG_BYTES s.

#[global] Instance data_output : DataOutput t := {
  write_byte := write_byte;
  write_bytes_range := write_bytes_range;
  write_int := write_int;
  write_short := write_short;
  write_long := write_long;
}.

Definition inv (s : t) : Prop := 0 <= pos s /\ limit s <= Z.of_nat (length (bytes s)).
Definition written (s : t) : list Z := take (Z.to_nat (pos s)) (bytes s).
Definition space (s : t) : Z := limit s - pos s.

Lemma store_appends s bs v' n :
  inv s -> 0 <= n -> n = Z.of_nat (length bs) -> n <= space s ->
  v' = take (Z.to_nat (pos s)) (bytes s) ++ bs ++ drop (Z.to_nat (pos s) + length bs) (bytes s) ->
  exists s', store (Ok v') n s = (Ok tt, s') /\ inv s' /\ written s' = written s ++ bs /\
    space s' = space s - Z.of_nat (length bs).
Proof.
  unfold inv, space. intros [Hp Hl] Hn Heq Hsp ->.
  assert (Ht : length (take (Z.to_nat (pos s)) (bytes s)) = Z.to_nat (pos s))
    by (rewrite length_take; lia).
  eexists. split; [reflexivity|]. simpl. unfold written. simpl. split_and!; try lia.
  - rewrite !length_app, Ht, length_drop. lia.
  - rewrite app_assoc. rewrite take_app_length'; [done|]. rewrite length_app, Ht. lia.
Qed.

Lemma set_le_def n bs p v :
  0 <= n -> 0 <= p -> p + n <= Z.of_nat (length bs) ->
  set_le_with_len n bs p v n = Ok (take (Z.to_nat p) bs ++ to_le_bytes (Z.to_nat n) v ++
    drop (Z.to_nat p + length (to_le_bytes (Z.to_nat n) v)) bs).
Proof.
  intros. unfold set_le_with_len. replace ((0 <=? n) && (n <=? n)) with true by lia.
  rewrite take_ge by (rewrite to_le_bytes_length; lia).
  apply vcopy_def; [done|]. rewrite to_le_bytes_length. lia.
Qed.

Lemma write_le_appends n s i :
  inv s -> 0 <= n <= space s ->
  exists s', store (let? _ := debug_assert (pos s + n <=? limit s) in
                    set_le_with_len n (bytes s) (pos s) i n) n s = (Ok tt, s') /\
    inv s' /\ written s' = written s ++ to_le_bytes (Z.to_nat n) i /\
    space s' = space s - Z.of_nat (length (to_le_bytes (Z.to_nat n) i)).
Proof.
  intros Hi Hn. unfold space in Hn. rewrite debug_assert_true by lia.
  destruct Hi as [Hp Hl]. rewrite set_le_def by lia.
  apply store_appends; try done; rewrite ?to_le_bytes_length; unfold space; lia.
Qed.

#[global] Instance spec : DataOutputSpec t.
Proof.
  refine {| out := written; room := space; out_inv := inv |}.
  - intros s b Hi Hb Hr. cbn. unfold write_byte.
    unfold space in Hr. rewrite debug_assert_true by lia.
    destruct Hi as [Hp Hl]. rewrite vset_ok by lia.
    apply store_appends; try done; unfold space; simpl; try lia.
    rewrite insert_take_drop by lia. by rewrite Nat.add_1_r.
  - intros s b off len Hi Hb Ho Hl0 Hle Hr. unfold space in Hr. cbn. unfold write_bytes_range. rewrite debug_assert_true by lia.
    rewrite vslice_ok by lia. replace (off + len - off) with len by lia.
    assert (Hlen : length (take (Z.to_nat len) (drop (Z.to_nat off) b)) = Z.to_nat len)
      by (rewrite length_take, length_drop; lia).
    cbn [rbind]. destruct Hi as [Hp Hl]. rewrite vcopy_def by lia.
    apply store_appends; try done; unfold space; lia.
  - intros s i Hi Hr. by apply (write_le_appends 2).
  - intros s i Hi Hr. by apply (write_le_appends 4).
  - intros s i Hi Hr. by apply (write_le_appends 8).
Defined.

(** The state after overwriting [bs] at the position. *)
Definition poke (bs : list Z) (s : t) : t :=
  mk (take (Z.to_nat (pos s)) (bytes s) ++ bs ++ drop (Z.to_nat (pos s) + length bs) (bytes s))
     (pos s + Z.of_nat (length bs)) (limit s).

Lemma poke_poke bs1 bs2 s :
  inv s -> Z.of_nat (length bs1) <= space s -> poke bs2 (poke bs1 s) = poke (bs1 ++ bs2) s.
Proof.
  intros [Hp Hl] Hs. unfold space in Hs. unfold poke. simpl.
  assert (Ht : length (take (Z.to_nat (pos s)) (bytes s)) = Z.to_nat (pos s))
    by (rewrite length_take; lia).
  f_equal; [|rewrite length_app; lia].
  rewrite (app_assoc (take _ (bytes s)) bs1).
  rewrite take_app_length' by (rewrite length_app, Ht; lia).
  rewrite drop_app_ge by (rewrite length_app, Ht; lia).
  rewrite drop_drop, !length_app, Ht, <- !app_assoc. do 4 f_equal. lia.
Qed.

Lemma write_byte_poke b s :
  inv s -> 1 <= space s -> write_byte b s = (Ok tt, poke [b] s).
Proof.
  intros [Hp Hl] Hr. unfold space in Hr. unfold write_byte.
  rewrite debug_assert_true, vset_ok by lia. unfold store, poke. simpl.
  rewrite insert_take_drop by lia. by rewrite Nat.add_1_r.
Qed.

Lemma poke_inv bs s :
  inv s -> Z.of_nat (length bs) <= space s ->
  inv (poke bs s) /\ space (poke bs s) = space s - Z.of_nat (length bs).
Proof.
  intros [Hp Hl] Hs. unfold inv, space, poke in *. simpl.
  rewrite !length_app, length_take, length_drop. lia.
Qed.

Lemma write_le_poke n s i :
  inv s -> 0 <= n <= space s ->
  store (let? _ := debug_assert (pos s + n <=? limit s) in
         set_le_with_len n (bytes s) (pos s) i n) n s
  = (Ok tt, poke (to_le_bytes (Z.to_nat n) i) s).
Proof.
  intros [Hp Hl] Hn. unfold space in Hn. rewrite debug_assert_true, set_le_def by lia.
  unfold store, poke. rewrite to_le_bytes_length, Z2Nat.id by lia. done.
Qed.

Lemma poke_byte_seq b k s bs :
  inv s -> 1 + Z.of_nat (length bs) <= space s ->
  (forall s', inv s' -> space s' = space s - 1 -> k tt s' = (Ok tt, poke bs s')) ->
  sbind (write_byte b) k s = (Ok tt, poke (b :: bs) s).
Proof.
  intros Hi Hs Hk. rewrite (sbind_ok _ _ _ _ _ (write_byte_poke b s Hi ltac:(lia))).
  destruct (poke_inv [b] s Hi) as [Hi' Hs']; [simpl; lia|].
  rewrite Hk by auto. by rewrite (poke_poke [b] bs) by (auto; simpl; lia).
Qed.

Lemma default_write_int_poke i s :
  inv s -> 4 <= space s ->
  default_write_int write_byte i s = (Ok tt, poke (to_le_bytes 4 i) s).
Proof.
  intros Hi Hs. unfold default_write_int. simpl to_le_bytes.
  rewrite !Z.shiftr_shiftr by lia.
  do 3 (apply poke_byte_seq; [done|simpl; lia|]; clear Hi; intros ? Hi ?).
  apply write_byte_poke; auto; lia.
Qed.

(** The fixed-width writes that [ByteArrayDataOutput] overrides with a single
    store are indistinguishable from the byte-by-byte default methods of the trait:
    with enough room both succeed and leave the same array, position and limit. *)
Theorem overrides_agree i s :
  inv s -> 8 <= space s ->
  write_short i s = default_write_short write_byte i s /\
  write_int i s = default_write_int write_byte i s /\
  write_long i s = default_write_long write_int i s.
Proof.
  intros Hi Hs. split_and!.
  - etransitivity; [apply (write_le_poke 2); auto; lia|]. symmetry.
    apply poke_byte_seq; [done|simpl; lia|].
    intros s' Hi' Hs'. apply write_byte_poke; auto; lia.
  - rewrite default_write_int_poke by (auto; lia). apply (write_le_poke 4); auto; lia.
  - unfold default_write_long.
    assert (Hw : forall x s', inv s' -> 4 <= space s' ->
      write_int x s' = (Ok tt, poke (to_le_bytes 4 x) s'))
      by (intros; apply (write_le_poke 4); auto; lia).
    rewrite (sbind_ok _ _ _ _ _ (Hw _ s Hi ltac:(lia))).
    destruct (poke_inv (to_le_bytes 4 (as_i32 i)) s Hi) as [Hi' Hs'];
      rewrite to_le_bytes_length in *; [lia|].
    rewrite Hw, poke_poke by (auto; rewrite ?to_le_bytes_length; lia).
    etransitivity; [apply (write_le_poke 8); auto; lia|]. do 2 f_equal.
    change 32 with (8 * Z.of_nat 4) at 1 3. rewrite !to_le_bytes_wrap_s by lia.
    simpl. by rewrite !Z.shiftr_shiftr by lia.
Qed.

Lemma overrides_agree_witness :
  write_short (-2) (with_bytes (replicate 8 0)) = default_write_short write_byte (-2) (with_bytes (replicate 8 0)) /\
  write_int (-2) (with_bytes (replicate 8 0)) = default_write_int write_byte (-2) (with_bytes (replicate 8 0)) /\
  write_long (-2) (with_bytes (replicate 8 0)) = default_write_long write_int (-2) (with_bytes (replicate 8 0)).
Proof.
  apply (overrides_agree (-2) (with_bytes (replicate 8 0)));
    [split; simpl; lia|vm_compute; congruence].
Defined.

End ByteArrayDataOutput.

(** * GrowableByteArrayDataOutput *)

Module GrowableByteArrayDataOutput.

Record t := mk { bytes : list Z; next_write : Z }.

Definition INITIAL_SIZE : Z := 256.
Definition new : t := mk (replicate (Z.to_nat INITIAL_SIZE) 0) 0.
Definition get_position (s : t) : Z := next_write s.

(** The reserved capacity of the vector is not part of the state. *)
Definition ensure_capacity (capacity_to_write : Z) : ST t unit := fun s =>
  let required := next_write s + capacity_to_write in
  if Z.of_nat (length (bytes s)) <? required then
    match ArrayUtil.oversize required BYTE_BYTES with
    | Ok _ => (Ok tt, mk (bytes s ++ replicate (Z.to_nat (required - Z.of_nat (length (bytes s)))) 0)
                         (next_write s))
    | Err e => (Err e, s)
    | Panic => (Panic, s)
    | OutOfFuel => (OutOfFuel, s)
    end
  else (Ok tt, s).

Definition set_position (new_len : Z) : ST t unit := fun s =>
  sbind (if next_write s <? new_len then ensure_capacity (new_len - next_write s) else sret tt)
    (fun _ s => (Ok tt, mk (bytes s) new_len)) s.

Definition write_byte (b : Z) : ST t unit := fun s =>
  sbind (if next_write s =? Z.of_nat (length (bytes s)) then ensure_capacity 1 else sret tt)
    (fun _ s =>
       match vset (bytes s) (next_write s) b with
       | Ok bs => (Ok tt, mk bs (next_write s + 1))
       | _ => (Panic, s)
       end) s.

Definition write_bytes_range (b : list Z) (offset length : Z) : ST t unit := fun s =>
  if length =? 0 then (Ok tt, s)
  else
    sbind (if Z.of_nat (List.length (bytes s)) <? next_write s + length
           then ensure_capacity length else sret tt)
      (fun _ s =>
         match (let? src := vslice b offset (offset + length) in
                vcopy (bytes s) (next_write s) src) with
         | Ok bs => (Ok tt, mk bs (next_write s + length))
         | _ => (Panic, s)
         end) s.

(** [write_to_data_output] *)
Definition write_to_data_output {S} {DO : DataOutput S} (s : t) : ST S unit :=
  DataOutput.write_bytes_range (bytes s) 0 (next_write s).

#[global] Instance data_output : DataOutput t := {
  write_byte := write_byte;
  write_bytes_range := write_bytes_range;
  write_int := default_write_int write_byte;
  write_short := default_write_short write_byte;
  write_long := default_write_long (default_write_int write_byte);
}.

Definition inv (s : t) : Prop := 0 <= next_write s <= Z.of_nat (length (bytes s)).
Definition written (s : t) : list Z := take (Z.to_nat (next_write s)) (bytes s).
Definition space (s : t) : Z := ArrayUtil.MAX_ARRAY_LENGTH - next_write s.

Lemma max_array_length_byte :
  ArrayUtil.max_array_length BYTE_BYTES = ArrayUtil.MAX_ARRAY_LENGTH.
Proof. vm_compute. reflexivity. Qed.

Lemma growth_ok n s :
  inv s -> 0 <= n <= space s ->
  exists s', ensure_capacity n s = (Ok tt, s') /\ inv s' /\ next_write s' = next_write s /\
    written s' = written s /\ next_write s + n <= Z.of_nat (length (bytes s')).
Proof.
  unfold inv, space, ensure_capacity, written. intros Hi Hn.
  destruct (Z.ltb_spec (Z.of_nat (length (bytes s))) (next_write s + n)).
  - destruct (ArrayUtil.oversize_ok (next_write s + n) BYTE_BYTES) as (r & -> & _);
      [lia|rewrite max_array_length_byte; lia|].
    eexists; split; [reflexivity|]. simpl. rewrite length_app, length_replicate.
    split_and!; try lia. by rewrite take_app_le by lia.
  - exists s. split_and!; auto; lia.
Qed.

Lemma copy_appends s bs :
  inv s -> next_write s + Z.of_nat (length bs) <= Z.of_nat (length (bytes s)) ->
  let s' := mk (take (Z.to_nat (next_write s)) (bytes s) ++ bs ++
                drop (Z.to_nat (next_write s) + length bs) (bytes s))
               (next_write s + Z.of_nat (length bs)) in
  inv s' /\ written s' = written s ++ bs /\ space s' = space s - Z.of_nat (length bs).
Proof.
  unfold inv, written, space. intros Hi Hl. simpl.
  assert (Ht : length (take (Z.to_nat (next_write s)) (bytes s)) = Z.to_nat (next_write s))
    by (rewrite length_take; lia).
  rewrite !length_app, Ht, length_drop. split_and!; try lia.
  rewrite app_assoc. apply take_app_length'. rewrite length_app, Ht. lia.
Qed.

Lemma write_byte_ok s b :
  inv s -> in_u 8 b -> 1 <= space s ->
  exists s', write_byte b s = (Ok tt, s') /\ inv s' /\ written s' = written s ++ [b] /\
    space s' = space s - Z.of_nat (length [b]).
Proof.
  intros Hi Hb Hs. unfold write_byte.
  assert (exists s1, (if next_write s =? Z.of_nat (length (bytes s)) then ensure_capacity 1 else sret tt) s
    = (Ok tt, s1) /\ inv s1 /\ next_write s1 = next_write s /\ written s1 = written s /\
      next_write s + 1 <= Z.of_nat (length (bytes s1))) as (s1 & Hm & Hi1 & Hn1 & Hw1 & Hl1).
  { destruct (Z.eqb_spec (next_write s) (Z.of_nat (length (bytes s)))).
    - apply growth_ok; auto; lia.
    - exists s. unfold inv in Hi. split_and!; auto; lia. }
  rewrite (sbind_ok _ _ _ _ _ Hm). unfold inv in Hi. rewrite vset_ok by lia.
  eexists; split; [reflexivity|].
  pose proof (copy_appends s1 [b] Hi1 ltac:(simpl; lia)) as H. simpl length in H.
  rewrite insert_take_drop by lia. rewrite Nat.add_1_r in H. cbv zeta in H.
  rewrite Hw1 in H. unfold space in *. simpl in *. rewrite Hn1 in *. exact H.
Qed.

#[global] Instance spec : DataOutputSpec t.
Proof.
  refine {| out := written; room := space; out_inv := inv |}.
  - intros. by apply write_byte_ok.
  - intros s b off len Hi Hb Ho Hl0 Hle Hr. cbn. unfold write_bytes_range.
    assert (Hlen : length (take (Z.to_nat len) (drop (Z.to_nat off) b)) = Z.to_nat len)
      by (rewrite length_take, length_drop; lia).
    destruct (Z.eqb_spec len 0) as [->|].
    { exists s. simpl. rewrite app_nil_r. split_and!; auto; lia. }
    assert (exists s1, (if Z.of_nat (length (bytes s)) <? next_write s + len
      then ensure_capacity len else sret tt) s = (Ok tt, s1) /\ inv s1 /\
      next_write s1 = next_write s /\ written s1 = written s /\
      next_write s + len <= Z.of_nat (length (bytes s1))) as (s1 & Hm & Hi1 & Hn1 & Hw1 & Hl1).
    { destruct (Z.ltb_spec (Z.of_nat (length (bytes s))) (next_write s + len)).
      - apply growth_ok; auto; lia.
      - exists s. split_and!; auto; lia. }
    rewrite (sbind_ok _ _ _ _ _ Hm). rewrite vslice_ok by lia.
    replace (off + len - off) with len by lia. cbn [rbind].
    unfold inv in Hi. rewrite vcopy_def by lia.
    eexists; split; [reflexivity|].
    pose proof (copy_appends s1 (take (Z.to_nat len) (drop (Z.to_nat off) b)) Hi1 ltac:(lia)) as H.
    rewrite Hlen, Z2Nat.id in H by lia. rewrite Hlen, Z2Nat.id by lia. cbv zeta in H.
    rewrite Hw1 in H. unfold space in *. simpl in *. rewrite Hn1 in *. exact H.
  - intros s i. by apply (default_write_short_spec written space inv write_byte write_byte_ok).
  - intros s i. by apply (default_write_int_spec written space inv write_byte write_byte_ok).
  - intros s i. apply (default_write_long_spec written space inv). intros.
    by apply (default_write_int_spec written space inv write_byte write_byte_ok).
Defined.

End GrowableByteArrayDataOutput.
