(* ===== verification/DataInput.v ===== *)
(** Model of the [DataInput] trait (src/core/store/data_input.rs): the primitive
    reads as a class, the default methods over it, the contract [DataInputSpec] (a
    read consumes a prefix of what is available), and two implementations,
    [ByteArrayDataInput] (src/core/store) and [ReverseBytesReader]
    (src/core/util/fst_impl), which reads a buffer backwards. *)

From Stdlib Require Import ZArith Lia Bool.
From stdpp Require Import base tactics numbers list gmap.
From S2P Require Import Prelude ArrayUtil BitUtil Utf8 DataOutput.
Import BitUtil.

Local Open Scope Z_scope.

(** * The trait *)

(** [read_bytes b offset len] returns the updated buffer. *)
Class DataInput (S : Type) := {
  read_byte : ST S Z;
  get_bytes : Z -> ST S (list Z);
  read_bytes : list Z -> Z -> Z -> ST S (list Z);
  read_short : ST S Z;
  read_int : ST S Z;
  read_long : ST S Z;
  skip_bytes : Z -> ST S unit;
}.

Section Defaults.
Context {S : Type} (rbyte rint : ST S Z).

Definition default_read_short : ST S Z :=
  let* b1 := rbyte in
  let* b2 := rbyte in
  sret (from_le_bytes [b1; b2]).

Definition default_read_int : ST S Z :=
  let* b1 := rbyte in
  let* b2 := rbyte in
  let* b3 := rbyte in
  let* b4 := rbyte in
  sret (from_le_bytes [b1; b2; b3; b4]).

Definition default_read_long : ST S Z :=
  let* i1 := rint in
  let b1 := Z.land (as_u64 i1) 0xFFFFFFFF in
  let* i2 := rint in
  let b2 := as_u64 (Z.shiftl (as_u64 i2) 32) in
  sret (as_i64 (Z.lor b2 b1)).
End Defaults.

(** [i32 -> usize] and [i64 -> usize] of [TryIntoInt::try_convert]. *)
Definition try_convert_usize (x : Z) : result Z :=
  if x <? 0 then Err IllegalState else Ok x.

Definition MAX_INITIAL_STRING_COLLECTION_CAPACITY : Z := 1024.

Section Methods.
(** [fuel] bounds the bytes of one variable-length integer; ten are enough for
    every code a [DataOutput] writes. *)
Context {S : Type} {DI : DataInput S} (fuel : nat).

(** The loop of [read_vint] ([w = 32]) and [read_vlong] ([w = 64]): [wrapping_shl]
    takes the shift modulo the width. *)
Fixpoint read_v_loop (w : Z) (fuel : nat) (b i shift : Z) : ST S Z :=
  if Z.land b 0x80 =? 0 then sret i
  else
    match fuel with
    | O => slift OutOfFuel
    | Datatypes.S fuel =>
        let* b := read_byte in
        read_v_loop w fuel b
          (Z.lor i (wrap_s w (Z.shiftl (Z.land b 0x7F) (shift mod w)))) (shift + 7)
    end.

Definition read_v (w : Z) : ST S Z :=
  let* b := read_byte in
  read_v_loop w fuel b (Z.land b 0x7F) 7.

Definition read_vint : ST S Z := read_v 32.

Definition read_zint : ST S Z :=
  let* i := read_vint in sret (zig_zag_decode_i32 (as_u32 i)).

Definition read_vlong : ST S Z := read_v 64.

Definition read_zlong : ST S Z :=
  let* l := read_vlong in sret (zig_zag_decode_i64 (as_u64 l)).

(** Both arms of the [match] (a borrowed and an owned buffer) validate the bytes
    and fall back to lossy decoding. *)
Definition read_string : ST S (list Z) :=
  let* i := read_vint in
  let* length := slift (try_convert_usize i) in
  let* bytes := get_bytes length in
  sret (match Utf8.from_utf8 bytes with
        | Some value => value
        | None => Utf8.from_utf8_lossy bytes
        end).

(** [n] reads into consecutive slots of [dst] from [i + offset] on; the three
    bulk reads differ in the element read. *)
Fixpoint read_into (rd : ST S Z) (n : nat) (i offset : Z) (dst : list Z) :
    ST S (list Z) :=
  match n with
  | O => sret dst
  | Datatypes.S n =>
      let* x := rd in
      let* dst := slift (vset dst (i + offset) x) in
      read_into rd n (i + 1) offset dst
  end.

Definition read_longs (dst : list Z) (offset len : Z) : ST S (list Z) :=
  let* _ := slift (debug_assert (Z.of_nat (length dst) <=? i32_MAX)) in
  let* _ := slift (ArrayUtil.check_from_index_size offset len (Z.of_nat (length dst))) in
  read_into read_long (Z.to_nat len) 0 offset dst.

Definition read_ints (dst : list Z) (offset len : Z) : ST S (list Z) :=
  let* _ := slift (ArrayUtil.check_from_index_size offset len (Z.of_nat (length dst))) in
  read_into read_int (Z.to_nat len) 0 offset dst.

(** A float is its bit pattern. *)
Definition read_floats (dst : list Z) (offset len : Z) : ST S (list Z) :=
  let* _ := slift (ArrayUtil.check_from_index_size offset len (Z.of_nat (length dst))) in
  read_into (let* i := read_int in sret (as_u32 i)) (Z.to_nat len) 0 offset dst.

Fixpoint read_map_loop (n : nat) (map : gmap (list Z) (list Z)) :
    ST S (gmap (list Z) (list Z)) :=
  match n with
  | O => sret map
  | Datatypes.S n =>
      let* key := read_string in
      let* value := read_string in
      read_map_loop n (<[key := value]> map)
  end.

(** The reservation after the fourth entry changes the capacity only. *)
Definition read_medium_string_map (count : Z) : ST S (gmap (list Z) (list Z)) :=
  let* map := read_map_loop 4 ∅ in
  read_map_loop (Z.to_nat (count - 4)) map.

Definition read_map_of_strings : ST S (gmap (list Z) (list Z)) :=
  let* count := read_vint in
  if (8 <=? count) && (count <=? MAX_INITIAL_STRING_COLLECTION_CAPACITY) then
    read_medium_string_map count
  else if count =? 0 then sret ∅
  else if count =? 1 then
    let* key := read_string in
    let* value := read_string in
    sret (<[key := value]> ∅)
  else read_map_loop (Z.to_nat count) ∅.

Fixpoint read_set_loop (n : nat) (set : gset (list Z)) : ST S (gset (list Z)) :=
  match n with
  | O => sret set
  | Datatypes.S n =>
      let* value := read_string in
      read_set_loop n ({[value]} ∪ set)
  end.

Definition read_medium_string_set (count : Z) : ST S (gset (list Z)) :=
  let* set := read_set_loop 4 ∅ in
  read_set_loop (Z.to_nat (count - 4)) set.

Definition read_set_of_strings : ST S (gset (list Z)) :=
  let* count := read_vint in
  if (8 <=? count) && (count <=? MAX_INITIAL_STRING_COLLECTION_CAPACITY) then
    read_medium_string_set count
  else if count =? 0 then sret ∅
  else if count =? 1 then
    let* value := read_string in sret {[value]}
  else read_set_loop (Z.to_nat count) ∅.
End Methods.

(** * The contract *)

Class DataInputSpec (S : Type) {DI : DataInput S} := {
  avail : S -> list Z;
  in_inv : S -> Prop;
  consumes {A} (m : ST S A) (s : S) (bs : list Z) (a : A) : Prop :=
    forall rest, in_inv s -> avail s = bs ++ rest ->
      exists s', m s = (Ok a, s') /\ in_inv s' /\ avail s' = rest;
  avail_in_u s : in_inv s -> Forall (in_u 8) (avail s);
  read_byte_spec s b : consumes read_byte s [b] b;
  get_bytes_spec s bs : consumes (get_bytes (Z.of_nat (length bs))) s bs bs;
  read_short_spec s bs : length bs = 2%nat -> consumes read_short s bs (from_le_bytes bs);
  read_int_spec s bs : length bs = 4%nat -> consumes read_int s bs (from_le_bytes bs);
  read_long_spec s bs : length bs = 8%nat -> consumes read_long s bs (from_le_bytes bs);
  skip_bytes_spec s bs : consumes (skip_bytes (Z.of_nat (length bs))) s bs tt;
}.

(** [consumes_from] is the shape of [consumes] without the class. *)
Section Consuming.
Context {S : Type} (availf : S -> list Z) (inv : S -> Prop).
Definition consumes_from {A} (m : ST S A) (s : S) (bs : list Z) (a : A) : Prop :=
  forall rest, inv s -> availf s = bs ++ rest ->
    exists s', m s = (Ok a, s') /\ inv s' /\ availf s' = rest.

Lemma consumes_seq {A B} (m : ST S A) (k : A -> ST S B) s bs1 bs2 a b :
  consumes_from m s bs1 a -> (forall s', consumes_from (k a) s' bs2 b) ->
  consumes_from (sbind m k) s (bs1 ++ bs2) b.
Proof.
  intros Hm Hk rest Hi Ha. rewrite <- app_assoc in Ha.
  destruct (Hm _ Hi Ha) as (s1 & H1 & Hi1 & Ha1).
  destruct (Hk s1 _ Hi1 Ha1) as (s2 & H2 & Hi2 & Ha2).
  exists s2. by rewrite (sbind_ok _ _ _ _ _ H1).
Qed.

Lemma consumes_ret {A} (a : A) s : consumes_from (sret a) s [] a.
Proof. intros rest Hi Ha. by exists s. Qed.

Lemma consumes_map {A B} (m : ST S A) (f : A -> B) s bs a :
  consumes_from m s bs a -> consumes_from (sbind m (fun x => sret (f x))) s bs (f a).
Proof.
  intros Hm. rewrite <- (app_nil_r bs). apply consumes_seq with (a := a); [done|].
  intros. apply consumes_ret.
Qed.

Context (rbyte rint : ST S Z).
Hypothesis rbyte_spec : forall s b, consumes_from rbyte s [b] b.
Hypothesis rint_spec : forall s bs,
  length bs = 4%nat -> consumes_from rint s bs (from_le_bytes bs).
Hypothesis bytes_in_u : forall s, inv s -> Forall (in_u 8) (availf s).

Lemma default_read_short_spec s bs :
  length bs = 2%nat -> consumes_from (default_read_short rbyte) s bs (from_le_bytes bs).
Proof.
  destruct bs as [|b1 [|b2 []]]; try discriminate. intros _.
  apply (consumes_seq _ _ _ [b1] [b2] b1); [done|]. intros s1.
  by apply (consumes_map rbyte (fun b2 => from_le_bytes [b1; b2])).
Qed.

Lemma default_read_int_spec s bs :
  length bs = 4%nat -> consumes_from (default_read_int rbyte) s bs (from_le_bytes bs).
Proof.
  destruct bs as [|b1 [|b2 [|b3 [|b4 []]]]]; try discriminate. intros _.
  apply (consumes_seq _ _ _ [b1] [b2; b3; b4] b1); [done|]. intros s1.
  apply (consumes_seq _ _ _ [b2] [b3; b4] b2); [done|]. intros s2.
  apply (consumes_seq _ _ _ [b3] [b4] b3); [done|]. intros s3.
  by apply (consumes_map rbyte (fun b4 => from_le_bytes [b1; b2; b3; b4])).
Qed.

Lemma default_read_long_spec s bs :
  length bs = 8%nat -> consumes_from (default_read_long rint) s bs (from_le_bytes bs).
Proof.
  intros Hl rest Hi Ha.
  assert (Hu : Forall (in_u 8) bs).
  { pose proof (bytes_in_u s Hi) as H. rewrite Ha in H. by apply Forall_app in H as [? _]. }
  revert rest Hi Ha. rewrite <- (take_drop 4 bs).
  set (lo := take 4 bs). set (hi := drop 4 bs).
  assert (Hlo : length lo = 4%nat) by (unfold lo; rewrite length_take; lia).
  assert (Hhi : length hi = 4%nat) by (unfold hi; rewrite length_drop; lia).
  assert (Heq : from_le_bytes (lo ++ hi) =
    as_i64 (Z.lor (as_u64 (Z.shiftl (as_u64 (from_le_bytes hi)) 32))
                  (Z.land (as_u64 (from_le_bytes lo)) 0xFFFFFFFF))).
  { unfold from_le_bytes. rewrite length_app, Hlo, Hhi.
    rewrite le_value_app, Hlo. change (8 * Z.of_nat (4 + 4)) with 64.
    change (8 * Z.of_nat 4) with 32. change 0xFFFFFFFF with (Z.ones 32).
    assert (in_u 32 (le_value lo)) as Hvl.
    { change 32 with (8 * Z.of_nat 4). rewrite <- Hlo.
      apply le_value_in_u. by apply Forall_take. }
    same_bits i. set (j := Z.min i (64 - 1)).
    replace (j <? 64) with true by lia. replace (j - 32 <? 64) with true by lia.
    rewrite !andb_true_l. destruct (decide (j < 32)).
    - rewrite !(Z.testbit_neg_r _ (j - 32)), Z.ones_spec_low by lia.
      rewrite (Z.testbit_neg_r _ (Z.min (j - 32) (32 - 1))) by lia.
      rewrite Z.min_l by lia. by rewrite orb_false_r, andb_true_r.
    - rewrite Z.ones_spec_high, andb_false_r, orb_false_r by lia.
      rewrite (in_u_testbit 32) by (auto; lia). rewrite orb_false_l. f_equal. lia. }
  rewrite Heq.
  apply (consumes_seq _ _ _ lo hi (from_le_bytes lo)); [auto|]. intros s1.
  by apply (consumes_map rint (fun i2 =>
    as_i64 (Z.lor (as_u64 (Z.shiftl (as_u64 i2) 32))
                  (Z.land (as_u64 (from_le_bytes lo)) 0xFFFFFFFF)))), rint_spec.
Qed.
End Consuming.

(** * The codes are read back *)

Section ReadSpecs.
Context {S : Type} {DI : DataInput S} {I : DataInputSpec S}.

Lemma read_seq {A B} (m : ST S A) (k : A -> ST S B) s bs1 bs2 a b :
  consumes m s bs1 a -> (forall s', consumes (k a) s' bs2 b) ->
  consumes (sbind m k) s (bs1 ++ bs2) b.
Proof. apply (consumes_seq avail in_inv). Qed.

Lemma read_ret {A} (a : A) s : consumes (sret a) s [] a.
Proof. apply (consumes_ret avail in_inv). Qed.

Lemma read_map {A B} (m : ST S A) (f : A -> B) s bs a :
  consumes m s bs a -> consumes (sbind m (fun x => sret (f x))) s bs (f a).
Proof. apply (consumes_map avail in_inv). Qed.

Lemma low7_back u : Z.land (Z.lor (Z.land u 0x7F) 0x80) 0x7F = Z.land u 0x7F.
Proof.
  same_bits i. destruct (Z.testbit u i), (Z.testbit 0x7F i) eqn:E; simpl;
    rewrite ?andb_false_r, ?andb_true_r; try done.
  destruct (decide (i < 7)).
  - assert (Forall (fun i => Z.testbit 0x80 i = false) (seqZ 0 7)) as HF
      by (vm_compute; repeat constructor).
    rewrite Forall_forall in HF. apply HF, elem_of_seqZ. lia.
  - change 0x7F with (Z.ones 7) in E. by rewrite Z.ones_spec_high in E by lia.
Qed.

Lemma more_bit u : Z.land (Z.lor (Z.land u 0x7F) 0x80) 0x80 = 0x80.
Proof.
  same_bits i. destruct (Z.testbit 0x80 i); by rewrite ?orb_true_r, ?andb_false_r.
Qed.

Lemma last_byte u : 0 <= u < 128 -> Z.land u 0x80 = 0 /\ Z.land u 0x7F = u.
Proof.
  intros Hu. assert (Forall (fun u => Z.land u 0x80 = 0 /\ Z.land u 0x7F = u) (seqZ 0 128))
    as HF by (vm_compute; repeat constructor).
  rewrite Forall_forall in HF. apply HF, elem_of_seqZ. lia.
Qed.

Lemma wrap_s_split7 w u shift :
  1 <= w -> 0 <= shift ->
  Z.lor (wrap_s w (Z.shiftl (Z.land u 0x7F) shift))
        (wrap_s w (Z.shiftl (Z.shiftr u 7) (shift + 7)))
  = wrap_s w (Z.shiftl u shift).
Proof.
  intros Hw Hs. change 0x7F with (Z.ones 7). same_bits i.
  set (j := Z.min i (w - 1)). assert (0 <= j) by lia.
  destruct (decide (j < shift)); [by rewrite !Z.testbit_neg_r by lia|].
  destruct (decide (j - shift < 7)).
  - rewrite Z.ones_spec_low by lia. rewrite (Z.testbit_neg_r _ (j - (shift + 7))) by lia.
    by rewrite andb_true_r, orb_false_r.
  - rewrite Z.ones_spec_high, andb_false_r by lia. autorewrite with zbits.
    simpl. f_equal. lia.
Qed.

Lemma read_v_loop_spec w f : forall u acc shift b tail fuel s,
  8 < w -> vcode f u = b :: tail -> 0 <= u -> 0 <= shift < w ->
  u * 2 ^ shift < 2 ^ w -> u < 2 ^ (7 * Z.of_nat f) -> (length tail <= fuel)%nat ->
  consumes (read_v_loop w fuel b
    (Z.lor acc (wrap_s w (Z.shiftl (Z.land b 0x7F) (shift mod w)))) (shift + 7)) s tail
    (Z.lor acc (wrap_s w (Z.shiftl u shift))).
Proof.
  induction f as [|f IH]; intros u acc shift b tail fuel s Hw Hc Hu Hs Hb Hf Hl;
    [done|]. simpl in Hc. rewrite Z.mod_small by lia.
  destruct (Z.ltb_spec u 128).
  - injection Hc as <- <-. destruct (last_byte u) as [H0 H7]; [lia|].
    destruct fuel; simpl; rewrite H0, H7; apply read_ret.
  - injection Hc as <- <-. rewrite low7_back.
    assert (H7 : 1 <= Z.shiftr u 7)
      by (rewrite Z.shiftr_div_pow2 by lia; apply Z.div_le_lower_bound; lia).
    destruct (vcode f (Z.shiftr u 7)) as [|b' tail'] eqn:Et.
    { destruct f; [|simpl in Et; by destruct (_ <? _)].
      change (7 * Z.of_nat 1) with 7 in Hf. lia. }
    simpl in Hl. destruct fuel as [|fuel]; [lia|]. simpl. rewrite more_bit. simpl.
    rewrite <- (wrap_s_split7 w u shift), Z.lor_assoc by lia.
    apply (read_seq _ _ _ [b'] tail' b'); [apply read_byte_spec|].
    intros s'.
    assert (Hsh : Z.shiftr u 7 * 2 ^ (shift + 7) <= u * 2 ^ shift).
    { rewrite Z.shiftr_div_pow2, Z.pow_add_r by lia.
      pose proof (Z.mul_div_le u (2 ^ 7) ltac:(lia)). nia. }
    assert (shift + 7 < w).
    { apply (Z.pow_lt_mono_r_iff 2); try lia.
      apply Z.le_lt_trans with (Z.shiftr u 7 * 2 ^ (shift + 7)); nia. }
    apply (IH (Z.shiftr u 7)); auto; try lia.
    by apply shiftr_7_lt.
Qed.

Lemma read_v_spec w f u fuel s :
  8 < w -> in_u w u -> (0 < f <= fuel)%nat -> u < 2 ^ (7 * Z.of_nat f) ->
  consumes (read_v fuel w) s (vcode f u) (wrap_s w u).
Proof.
  intros Hw Hu Hf Hb. unfold in_u in Hu.
  pose proof (vcode_length f u) as Hlen. pose proof (vcode_nonempty f u) as Hne.
  destruct (vcode f u) as [|b tail] eqn:Ec; [simpl in Hne; lia|].
  apply (read_seq _ _ _ [b] tail b); [apply read_byte_spec|].
  intros s'. simpl in Hlen.
  pose proof (read_v_loop_spec w f u 0 0 b tail fuel s' Hw Ec ltac:(lia) ltac:(lia)
    ltac:(lia) Hb ltac:(lia)) as H.
  rewrite !Z.lor_0_l, Z.mod_0_l, !Z.shiftl_0_r in H by lia.
  rewrite (wrap_s_id w (Z.land b 0x7F)) in H; [exact H|lia|].
  change 0x7F with (Z.ones 7). rewrite Z.land_ones by lia.
  pose proof (Z.mod_pos_bound b (2 ^ 7) ltac:(lia)).
  assert (2 ^ 8 <= 2 ^ (w - 1)) by (apply Z.pow_le_mono_r; lia). unfold in_s. lia.
Qed.

Lemma read_vint_spec fuel i s :
  (5 <= fuel)%nat -> in_s 32 i -> consumes (read_vint fuel) s (vint_code i) i.
Proof.
  intros Hf Hi. rewrite <- (wrap_s_id 32 i) at 2 by (auto; lia).
  rewrite <- (wrap_s_wrap_u 32) by lia. pose proof (wrap_u_in 32 i ltac:(lia)) as Hu.
  apply read_v_spec; auto; try lia. unfold in_u in Hu. change (7 * Z.of_nat 5) with 35. lia.
Qed.

Lemma read_vlong_spec fuel i s :
  (10 <= fuel)%nat -> in_s 64 i -> consumes (read_vlong fuel) s (vlong_code i) i.
Proof.
  intros Hf Hi. rewrite <- (wrap_s_id 64 i) at 2 by (auto; lia).
  rewrite <- (wrap_s_wrap_u 64) by lia. pose proof (wrap_u_in 64 i ltac:(lia)) as Hu.
  apply read_v_spec; auto; try lia. unfold in_u in Hu. change (7 * Z.of_nat 10) with 70. lia.
Qed.

Lemma read_string_spec fuel str s :
  (5 <= fuel)%nat -> str_ok str -> Utf8.valid str = true ->
  consumes (read_string fuel) s (string_code str) str.
Proof.
  intros Hf [Hb Hl] Hv. unfold string_code.
  apply (read_seq _ _ _ _ _ (Z.of_nat (length str)));
    [apply read_vint_spec; [done|]; unfold in_s, i32_MAX in *; lia|].
  intros s1. unfold try_convert_usize. replace (Z.of_nat (length str) <? 0) with false by lia.
  apply (read_seq _ _ _ [] str (Z.of_nat (length str))).
  { intros rest Hi Ha. by exists s1. }
  intros s2. rewrite <- (app_nil_r str) at 2.
  apply (read_seq _ _ _ _ _ str); [apply get_bytes_spec|].
  intros s3. unfold Utf8.from_utf8. fold (Utf8.valid str). rewrite Hv. apply read_ret.
Qed.
End ReadSpecs.

Section ReadCollections.
Context {S : Type} {DI : DataInput S} {I : DataInputSpec S}.

Definition text_ok (s : list Z) : Prop := str_ok s /\ Utf8.valid s = true.

Lemma read_map_loop_spec fuel es m s :
  (5 <= fuel)%nat -> Forall (fun e => text_ok e.1 /\ text_ok e.2) es ->
  consumes (read_map_loop fuel (length es) m) s (entries_code es)
    (foldl (fun m e => <[e.1 := e.2]> m) m es).
Proof.
  intros Hf He. revert m s. induction He as [|[k v] es [[Hk Hk'] [Hv Hv']] Hes IH]; intros m s.
  - apply read_ret.
  - rewrite entries_code_cons. simpl.
    eapply read_seq; [by apply read_string_spec|]. intros s1.
    eapply read_seq; [by apply read_string_spec|]. intros s2. apply IH.
Qed.

Lemma foldl_insert_union (es : list (list Z * list Z)) (m : gmap (list Z) (list Z)) :
  NoDup es.*1 -> foldl (fun m e => <[e.1 := e.2]> m) m es = list_to_map es ∪ m.
Proof.
  revert m. induction es as [|[k v] es IH]; intros m Hnd; simpl.
  - by rewrite map_empty_union.
  - apply NoDup_cons in Hnd as [Hk Hnd]. rewrite IH by done.
    rewrite <- insert_union_r; [by rewrite insert_union_l|].
    by apply not_elem_of_list_to_map_1.
Qed.

Lemma read_map_loop_app fuel a b m s :
  read_map_loop fuel (a + b) m s
  = sbind (read_map_loop fuel a m) (read_map_loop fuel b) s.
Proof.
  revert m s. induction a as [|a IH]; intros m s; simpl; [done|].
  unfold sbind in *.
  destruct (read_string fuel s) as [[] s1]; try done.
  destruct (read_string fuel s1) as [[] s2]; try done; apply IH.
Qed.

Lemma read_medium_string_map_eq fuel count s :
  4 <= count ->
  read_medium_string_map fuel count s = read_map_loop fuel (Z.to_nat count) ∅ s.
Proof.
  intros Hc. unfold read_medium_string_map. rewrite <- read_map_loop_app.
  f_equal. lia.
Qed.

Lemma read_map_of_strings_spec fuel es s :
  (5 <= fuel)%nat -> Forall (fun e => text_ok e.1 /\ text_ok e.2) es ->
  Z.of_nat (length es) <= i32_MAX -> NoDup es.*1 ->
  consumes (read_map_of_strings fuel) s
    (vint_code (Z.of_nat (length es)) ++ entries_code es) (list_to_map es).
Proof.
  intros Hf He Hl Hnd.
  assert (Hloop : forall s', consumes (read_map_loop fuel (length es) ∅) s'
    (entries_code es) (list_to_map es)).
  { intros s'. rewrite <- (map_union_empty (list_to_map es)), <- foldl_insert_union by done.
    by apply read_map_loop_spec. }
  eapply read_seq; [apply read_vint_spec; [done|unfold in_s, i32_MAX in *; lia]|].
  intros s1. cbv beta.
  destruct ((8 <=? Z.of_nat (length es)) && _) eqn:Em.
  { intros rest Hi Ha. rewrite read_medium_string_map_eq, Nat2Z.id by lia. by apply Hloop. }
  destruct (Z.eqb_spec (Z.of_nat (length es)) 0).
  { destruct es; [|simpl in *; lia]. apply (Hloop s1). }
  destruct (Z.eqb_spec (Z.of_nat (length es)) 1).
  { destruct es as [|kv []]; simpl in *; [lia| |lia]. apply (Hloop s1). }
  rewrite Nat2Z.id. apply Hloop.
Qed.

Lemma read_set_loop_spec fuel vs m s :
  (5 <= fuel)%nat -> Forall text_ok vs ->
  consumes (read_set_loop fuel (length vs) m) s (strings_code vs) (list_to_set vs ∪ m).
Proof.
  intros Hf Hv. revert m s. induction Hv as [|v vs [Hv Hv'] Hvs IH]; intros m s.
  - simpl. rewrite union_empty_l_L. apply read_ret.
  - rewrite strings_code_cons. simpl.
    eapply read_seq; [by apply read_string_spec|]. intros s1.
    replace ({[v]} ∪ list_to_set vs ∪ m) with (list_to_set vs ∪ ({[v]} ∪ m)) by set_solver.
    apply IH.
Qed.

Lemma read_set_loop_app fuel a b m s :
  read_set_loop fuel (a + b) m s
  = sbind (read_set_loop fuel a m) (read_set_loop fuel b) s.
Proof.
  revert m s. induction a as [|a IH]; intros m s; simpl; [done|].
  unfold sbind in *.
  destruct (read_string fuel s) as [[] s1]; try done; apply IH.
Qed.

Lemma read_set_of_strings_spec fuel vs s :
  (5 <= fuel)%nat -> Forall text_ok vs -> Z.of_nat (length vs) <= i32_MAX ->
  consumes (read_set_of_strings fuel) s
    (vint_code (Z.of_nat (length vs)) ++ strings_code vs) (list_to_set vs).
Proof.
  intros Hf Hv Hl.
  assert (Hloop : forall s', consumes (read_set_loop fuel (length vs) ∅) s'
    (strings_code vs) (list_to_set vs)).
  { intros s'. rewrite <- (union_empty_r_L (list_to_set vs)). by apply read_set_loop_spec. }
  eapply read_seq; [apply read_vint_spec; [done|unfold in_s, i32_MAX in *; lia]|].
  intros s1. cbv beta.
  destruct ((8 <=? Z.of_nat (length vs)) && _) eqn:Em.
  { unfold read_medium_string_set. intros rest Hi Ha. rewrite <- read_set_loop_app.
    replace (4 + Z.to_nat (Z.of_nat (length vs) - 4))%nat with (length vs) by lia.
    by apply Hloop. }
  destruct (Z.eqb_spec (Z.of_nat (length vs)) 0).
  { destruct vs; [|simpl in *; lia]. apply (Hloop s1). }
  destruct (Z.eqb_spec (Z.of_nat (length vs)) 1).
  { destruct vs as [|v []]; simpl in *; [lia| |lia].
    apply Forall_cons in Hv as [[Hv Hv'] _]. rewrite (union_empty_r_L {[v]}).
    unfold strings_code. simpl. rewrite app_nil_r.
    by apply (read_map (read_string fuel) (fun value => {[value]})), read_string_spec. }
  rewrite Nat2Z.id. apply Hloop.
Qed.
End ReadCollections.

(** * ByteArrayDataInput *)

Module ByteArrayDataInput.

Record t := mk { bytes : list Z; pos : Z; limit : Z }.

Definition with_range (bytes : list Z) (offset length : Z) : t :=
  mk bytes offset (offset + length).
Definition with_bytes (bytes : list Z) : t :=
  with_range bytes 0 (Z.of_nat (length bytes)).
Definition reset_meta (offset length : Z) (s : t) : t :=
  mk (bytes s) offset (offset + length).
Definition reset_with_range (bytes : list Z) (offset length : Z) (_ : t) : t :=
  mk bytes offset (offset + length).
Definition rewind (s : t) : t := mk (bytes s) 0 (limit s).
Definition get_position (s : t) : Z := pos s.
Definition set_position (p : Z) (s : t) : t := mk (bytes s) p (limit s).
Definition length (s : t) : Z := limit s.
Definition eof (s : t) : bool := pos s =? limit s.

Definition move (n : Z) (s : t) : t := mk (bytes s) (pos s + n) (limit s).

(** The position moves first; an out-of-range index then panics. *)
Definition read_byte : ST t Z := fun s => (vget (bytes s) (pos s), move 1 s).

Definition get_bytes (len : Z) : ST t (list Z) := fun s =>
  match vslice (bytes s) (pos s) (pos s + len) with
  | Ok bs => (Ok bs, move len s)
  | r => (r, s)
  end.

Definition read_bytes (b : list Z) (offset len : Z) : ST t (list Z) := fun s =>
  match (let? src := vslice (bytes s) (pos s) (pos s + len) in vcopy b offset src) with
  | Ok b => (Ok b, move len s)
  | r => (r, s)
  end.

Definition read_short : ST t Z := fun s => (get_i16_le (bytes s) (pos s), move SHORT_BYTES s).
Definition read_int : ST t Z := fun s => (get_i32_le (bytes s) (pos s), move INT_BYTES s).
Definition read_long : ST t Z := fun s => (get_i64_le (bytes s) (pos s), move LONG_BYTES s).

Definition skip_bytes (num_bytes : Z) : ST t unit := fun s =>
  match try_convert_usize num_bytes with
  | Ok n => (Ok tt, move n s)
  | Err e => (Err e, s)
  | _ => (Panic, s)
  end.

#[global] Instance data_input : DataInput t := {
  read_byte := read_byte;
  get_bytes := get_bytes;
  read_bytes := read_bytes;
  read_short := read_short;
  read_int := read_int;
  read_long := read_long;
  skip_bytes := skip_bytes;
}.

Definition inv (s : t) : Prop :=
  0 <= pos s <= Z.of_nat (List.length (bytes s)) /\ Forall (in_u 8) (bytes s).
Definition remaining (s : t) : list Z := drop (Z.to_nat (pos s)) (bytes s).

(** What the position move leaves, when [bs] is at the position. *)
Lemma move_remaining s bs rest :
  inv s -> remaining s = bs ++ rest ->
  inv (move (Z.of_nat (List.length bs)) s) /\
  remaining (move (Z.of_nat (List.length bs)) s) = rest /\
  vslice (bytes s) (pos s) (pos s + Z.of_nat (List.length bs)) = Ok bs.
Proof.
  unfold inv, remaining, move. intros [Hp Hb] Hr.
  pose proof (f_equal List.length Hr) as Hlen. rewrite length_drop, length_app in Hlen.
  simpl. split_and!; [lia|lia|done| |].
  - rewrite Z2Nat.inj_add, Nat2Z.id, <- drop_drop, Hr by lia. by rewrite drop_app_length.
  - rewrite vslice_ok by lia. rewrite Hr. by rewrite take_app_length' by lia.
Qed.

Lemma fixed_read n s bs :
  Z.of_nat (List.length bs) = n ->
  consumes_from remaining inv (fun s => (get_le n (bytes s) (pos s), move n s)) s bs
    (from_le_bytes bs).
Proof.
  intros <- rest Hi Hr. destruct (move_remaining s bs rest Hi Hr) as (H1 & H2 & H3).
  eexists; split; [|by split]. unfold get_le. by rewrite H3.
Qed.

#[global] Instance spec : DataInputSpec t.
Proof.
  refine {| avail := remaining; in_inv := inv |}.
  - intros s [_ Hb]. by apply Forall_drop.
  - intros s b rest Hi Hr. destruct (move_remaining s [b] rest Hi Hr) as (H1 & H2 & _).
    exists (move 1 s). split; [|done]. cbn. unfold read_byte. f_equal.
    apply vget_ok; [apply Hi|]. rewrite <- (Nat.add_0_r (Z.to_nat _)), <- lookup_drop.
    fold (remaining s). by rewrite Hr.
  - intros s bs rest Hi Hr. destruct (move_remaining s bs rest Hi Hr) as (H1 & H2 & H3).
    eexists; split; [|by split]. cbn. unfold get_bytes. by rewrite H3.
  - intros s bs Hl. apply (fixed_read 2). lia.
  - intros s bs Hl. apply (fixed_read 4). lia.
  - intros s bs Hl. apply (fixed_read 8). lia.
  - intros s bs rest Hi Hr. destruct (move_remaining s bs rest Hi Hr) as (H1 & H2 & _).
    eexists; split; [|by split].
    assert (Hn : (Z.of_nat (List.length bs) <? 0) = false) by (apply Z.ltb_ge; apply Nat2Z.is_nonneg).
    cbv [DataInput.skip_bytes data_input skip_bytes try_convert_usize]. by rewrite Hn.
Defined.

End ByteArrayDataInput.

(** * ReverseBytesReader *)

Module ReverseBytesReader.

Record t := mk { bytes : list Z; pos : Z }.

Definition new (bytes : list Z) : t := mk bytes 0.
Definition get_position (s : t) : result Z :=
  let? _ := debug_assert (0 <=? pos s) in Ok (pos s).
Definition set_position (p : Z) (s : t) : t := mk (bytes s) p.

Definition read_byte : ST t Z := fun s =>
  match (let? _ := debug_assert (0 <=? pos s) in vget (bytes s) (pos s)) with
  | Ok b => (Ok b, mk (bytes s) (pos s - 1))
  | r => (r, s)
  end.

Fixpoint read_bytes_loop (n : nat) (i : Z) (b : list Z) (offset : Z) : ST t (list Z) :=
  match n with
  | O => sret b
  | S n =>
      let* x := read_byte in
      let* b := slift (vset b (offset + i) x) in
      read_bytes_loop n (i + 1) b offset
  end.

Definition read_bytes (b : list Z) (offset len : Z) : ST t (list Z) :=
  read_bytes_loop (Z.to_nat len) 0 b offset.

(** A complete multi-byte result is copied in reverse; any other request takes the
    per-byte path. *)
Definition get_bytes (len : Z) : ST t (list Z) := fun s =>
  if (1 <? len) && (0 <=? pos s) && (pos s <? Z.of_nat (length (bytes s)))
     && (len <=? pos s + 1) then
    (Ok (rev (take (Z.to_nat len) (drop (Z.to_nat (pos s + 1 - len)) (bytes s)))),
     mk (bytes s) (pos s - len))
  else read_bytes (replicate (Z.to_nat len) 0) 0 len s.

Definition skip_bytes (num_bytes : Z) : ST t unit := fun s =>
  (Ok tt, mk (bytes s) (pos s - num_bytes)).

#[global] Instance data_input : DataInput t := {
  read_byte := read_byte;
  get_bytes := get_bytes;
  read_bytes := read_bytes;
  read_short := default_read_short read_byte;
  read_int := default_read_int read_byte;
  read_long := default_read_long (default_read_int read_byte);
  skip_bytes := skip_bytes;
}.

Definition inv (s : t) : Prop :=
  -1 <= pos s < Z.of_nat (length (bytes s)) /\ Forall (in_u 8) (bytes s).
(** The bytes from the position down to the first. *)
Definition remaining (s : t) : list Z := rev (take (Z.to_nat (pos s + 1)) (bytes s)).

Lemma remaining_back s bs rest :
  inv s -> remaining s = bs ++ rest ->
  let s' := mk (bytes s) (pos s - Z.of_nat (length bs)) in
  inv s' /\ remaining s' = rest /\ Z.of_nat (length bs) <= pos s + 1.
Proof.
  unfold inv, remaining. intros [Hp Hb] Hr. simpl.
  pose proof (f_equal length Hr) as Hlen.
  rewrite length_rev, length_take, length_app in Hlen.
  split_and!; [lia|lia|done| |lia].
  apply (f_equal (@rev Z)) in Hr. rewrite rev_involutive, rev_app_distr in Hr.
  replace (Z.to_nat (pos s - Z.of_nat (length bs) + 1))
    with (Nat.min (length rest) (Z.to_nat (pos s + 1))) by lia.
  rewrite <- take_take, Hr.
  rewrite take_app_length' by (by rewrite length_rev). apply rev_involutive.
Qed.

Lemma reverse_read_byte_ok s b : consumes_from remaining inv read_byte s [b] b.
Proof.
  intros rest Hi Hr. destruct (remaining_back s [b] rest Hi Hr) as (H1 & H2 & H3).
  simpl in H3. eexists; split; [|by split]. unfold read_byte.
  rewrite debug_assert_true by lia.
  assert (vget (bytes s) (pos s) = Ok b) as ->; [|done].
  apply vget_ok; [lia|].
  assert (Hl : (remaining s) !! 0%nat = Some b) by (by rewrite Hr).
  unfold remaining in Hl. destruct Hi as [Hp _].
  destruct (lookup_lt_is_Some_2 (bytes s) (Z.to_nat (pos s))) as [x Hx]; [lia|].
  replace (Z.to_nat (pos s + 1)) with (S (Z.to_nat (pos s))) in Hl by lia.
  rewrite (take_S_r _ _ x Hx), rev_app_distr in Hl. simpl in Hl. congruence.
Qed.

Lemma read_bytes_loop_ok bs : forall i b offset s,
  0 <= i + offset -> i + offset + Z.of_nat (length bs) <= Z.of_nat (length b) ->
  consumes_from remaining inv (read_bytes_loop (length bs) i b offset) s bs
    (take (Z.to_nat (i + offset)) b ++ bs ++ drop (Z.to_nat (i + offset) + length bs) b).
Proof.
  induction bs as [|x bs IH]; intros i b offset s Ho Hl; simpl in *.
  - rewrite Nat.add_0_r, take_drop. apply consumes_ret.
  - eapply (consumes_seq _ _ _ _ _ [x] bs x); [apply reverse_read_byte_ok|]. intros s1.
    rewrite <- (app_nil_l bs) at 1.
    eapply (consumes_seq _ _ _ _ _ [] bs (<[Z.to_nat (offset + i) := x]> b)).
    { intros rest Hi Hr. exists s1. unfold slift. by rewrite vset_ok by lia. }
    intros s2. specialize (IH (i + 1) (<[Z.to_nat (offset + i):=x]> b) offset s2).
    rewrite length_insert in IH. specialize (IH ltac:(lia) ltac:(lia)).
    replace (Z.to_nat (i + 1 + offset)) with (S (Z.to_nat (offset + i))) in IH by lia.
    rewrite (take_S_r _ _ x) in IH by (apply list_lookup_insert_eq; lia).
    rewrite take_insert_ge, drop_insert_lt in IH by lia.
    rewrite <- app_assoc in IH. simpl in IH.
    replace (Z.to_nat (i + offset)) with (Z.to_nat (offset + i)) by lia.
    by replace (Z.to_nat (offset + i) + S (length bs))%nat
      with (S (Z.to_nat (offset + i) + length bs)) by lia.
Qed.

#[global] Instance spec : DataInputSpec t.
Proof.
  refine {| avail := remaining; in_inv := inv |}.
  - intros s [_ Hb]. unfold remaining. apply List.Forall_rev. by apply Forall_take.
  - intros s b. apply reverse_read_byte_ok.
  - intros s bs rest Hi Hr. destruct (remaining_back s bs rest Hi Hr) as (H1 & H2 & H3).
    cbn. unfold get_bytes. destruct Hi as [Hp Hb].
    destruct (_ && _) eqn:Ec.
    + eexists; split; [|by split]. f_equal. f_equal. unfold remaining in Hr.
      rewrite Nat2Z.id. apply (f_equal (@rev Z)) in Hr.
      rewrite rev_involutive, rev_app_distr in Hr.
      assert (take (length bs) (drop (Z.to_nat (pos s + 1 - Z.of_nat (length bs))) (bytes s))
        = rev bs) as ->; [|apply rev_involutive].
      pose proof (f_equal length Hr) as Hlen.
      rewrite length_take, length_app, !length_rev in Hlen.
      rewrite <- (take_drop (Z.to_nat (pos s + 1)) (bytes s)), Hr, <- app_assoc.
      rewrite drop_app_length' by (rewrite length_rev; lia).
      by rewrite take_app_length' by (by rewrite length_rev).
    + unfold read_bytes. rewrite !Nat2Z.id.
      destruct (read_bytes_loop_ok bs 0 (replicate (length bs) 0) 0 s
        ltac:(lia) ltac:(rewrite length_replicate; lia) rest) as (s' & Hm & Hx); [by split|done|].
      exists s'. rewrite Hm. simpl. rewrite drop_ge by (rewrite length_replicate; lia).
      by rewrite app_nil_r.
  - intros s bs. apply (default_read_short_spec remaining inv), reverse_read_byte_ok.
  - intros s bs. apply (default_read_int_spec remaining inv), reverse_read_byte_ok.
  - intros s bs. apply (default_read_long_spec remaining inv).
    + intros s' bs'. apply (default_read_int_spec remaining inv), reverse_read_byte_ok.
    + intros ? [_ Hb]. unfold remaining. apply List.Forall_rev. by apply Forall_take.
  - intros s bs rest Hi Hr. destruct (remaining_back s bs rest Hi Hr) as (H1 & H2 & H3).
    eexists; split; [|by split]. done.
Defined.

End ReverseBytesReader.
