(* ===== verification/Streams.v ===== *)
(** What the two traits promise together: a sequence of typed values written through
    any [DataOutput] is read back unchanged by any [DataInput]
    (src/core/store/data_output.rs, src/core/store/data_input.rs); the sizes of the
    variable-length codes; string collections; and [copy_bytes_impl]. *)

From Stdlib Require Import ZArith Lia Bool.
From stdpp Require Import base tactics numbers list gmap.
From S2P Require Import Prelude ArrayUtil BitUtil Utf8 DataOutput DataInput.
Import BitUtil.

Local Open Scope Z_scope.

(** * Typed sequences *)

Inductive kind : Type :=
| KByte | KShort | KInt | KLong | KVInt | KVLong | KZInt | KZLong | KString.

Inductive value : Type :=
| VByte (b : Z) | VShort (i : Z) | VInt (i : Z) | VLong (i : Z)
| VVInt (i : Z) | VVLong (i : Z) | VZInt (i : Z) | VZLong (i : Z) | VString (s : list Z).

Definition kind_of (v : value) : kind :=
  match v with
  | VByte _ => KByte | VShort _ => KShort | VInt _ => KInt | VLong _ => KLong
  | VVInt _ => KVInt | VVLong _ => KVLong | VZInt _ => KZInt | VZLong _ => KZLong
  | VString _ => KString
  end.

(** The values of the Rust types; a [vlong] must not be negative. *)
Definition value_ok (v : value) : Prop :=
  match v with
  | VByte b => in_u 8 b
  | VShort i => in_s 16 i
  | VInt i | VVInt i | VZInt i => in_s 32 i
  | VLong i | VZLong i => in_s 64 i
  | VVLong i => in_s 64 i /\ 0 <= i
  | VString s => text_ok s
  end.

Definition code (v : value) : list Z :=
  match v with
  | VByte b => [b]
  | VShort i => to_le_bytes 2 i
  | VInt i => to_le_bytes 4 i
  | VLong i => to_le_bytes 8 i
  | VVInt i => vint_code i
  | VVLong i => vlong_code i
  | VZInt i => vint_code (zig_zag_encode_i32 i)
  | VZLong i => vlong_code (zig_zag_encode_i64 i)
  | VString s => string_code s
  end.

Definition codes (vs : list value) : list Z := concat (code <$> vs).

Lemma codes_cons v vs : codes (v :: vs) = code v ++ codes vs.
Proof. done. Qed.

Section Sequences.
Context {S : Type}.

Definition write_value {DO : DataOutput S} (v : value) : ST S unit :=
  match v with
  | VByte b => write_byte b
  | VShort i => write_short i
  | VInt i => write_int i
  | VLong i => write_long i
  | VVInt i => write_vint i
  | VVLong i => write_vlong i
  | VZInt i => write_zint i
  | VZLong i => write_zlong i
  | VString s => write_string s
  end.

Fixpoint write_values {DO : DataOutput S} (vs : list value) : ST S unit :=
  match vs with
  | [] => sret tt
  | v :: vs => let* _ := write_value v in write_values vs
  end.

Definition smap {A B} (f : A -> B) (m : ST S A) : ST S B :=
  let* x := m in sret (f x).

Definition read_value {DI : DataInput S} (fuel : nat) (k : kind) : ST S value :=
  match k with
  | KByte => smap VByte read_byte
  | KShort => smap VShort read_short
  | KInt => smap VInt read_int
  | KLong => smap VLong read_long
  | KVInt => smap VVInt (read_vint fuel)
  | KVLong => smap VVLong (read_vlong fuel)
  | KZInt => smap VZInt (read_zint fuel)
  | KZLong => smap VZLong (read_zlong fuel)
  | KString => smap VString (read_string fuel)
  end.

Fixpoint read_values {DI : DataInput S} (fuel : nat) (ks : list kind) : ST S (list value) :=
  match ks with
  | [] => sret []
  | k :: ks =>
      let* v := read_value fuel k in
      let* vs := read_values fuel ks in
      sret (v :: vs)
  end.
End Sequences.

Section WriteSeq.
Context {S : Type} {DO : DataOutput S} {O : DataOutputSpec S}.

Lemma write_value_spec v s :
  value_ok v -> out_inv s -> Z.of_nat (length (code v)) <= room s ->
  appends (write_value v) s (code v).
Proof.
  intros Hv Hi Hr. destruct v; cbn [value_ok write_value code] in *.
  - by apply write_byte_spec.
  - by apply write_short_spec.
  - by apply write_int_spec.
  - by apply write_long_spec.
  - by apply write_vint_spec.
  - destruct Hv as [_ Hp]. unfold write_vlong.
    replace (i <? 0) with false by lia. by apply write_signed_vlong_spec.
  - by apply (write_vint_spec (zig_zag_encode_i32 i)).
  - by apply (write_signed_vlong_spec (zig_zag_encode_i64 i)).
  - destruct Hv. by apply write_string_spec.
Qed.

Lemma write_values_spec vs s :
  Forall value_ok vs -> out_inv s -> Z.of_nat (length (codes vs)) <= room s ->
  appends (write_values vs) s (codes vs).
Proof.
  intros Hv. revert s. induction Hv as [|v vs Hv Hvs IH]; intros s Hi Hr.
  - by apply appends_nil.
  - rewrite codes_cons in *. rewrite length_app in Hr.
    apply appends_seq; [apply write_value_spec; auto; lia|].
    intros s' Hi' Hr'. apply IH; auto; lia.
Qed.
End WriteSeq.

Section ReadSeq.
Context {S : Type} {DI : DataInput S} {I : DataInputSpec S}.

Lemma fixed_back (n : nat) (m : ST S Z) (i : Z) s :
  (forall bs, length bs = n -> consumes m s bs (from_le_bytes bs)) ->
  (0 < n)%nat -> in_s (8 * Z.of_nat n) i -> consumes m s (to_le_bytes n i) i.
Proof.
  intros Hm Hn Hi. rewrite <- (wrap_s_id (8 * Z.of_nat n) i) at 2 by (auto; lia).
  rewrite <- from_to_le_bytes by done. apply Hm, to_le_bytes_length.
Qed.

Lemma zint_back fuel i s :
  (5 <= fuel)%nat -> in_s 32 i ->
  consumes (read_zint fuel) s (vint_code (zig_zag_encode_i32 i)) i.
Proof.
  intros Hf Hi.
  assert (Hz : zig_zag_decode_i32 (as_u32 (zig_zag_encode_i32 i)) = i)
    by exact (zig_zag_roundtrip 32 i ltac:(lia) Hi).
  rewrite <- Hz at 2. apply (read_map (read_vint fuel) (fun x => zig_zag_decode_i32 (as_u32 x))).
  apply read_vint_spec; [done|]. unfold zig_zag_encode_i32. auto with words.
Qed.

Lemma zlong_back fuel i s :
  (10 <= fuel)%nat -> in_s 64 i ->
  consumes (read_zlong fuel) s (vlong_code (zig_zag_encode_i64 i)) i.
Proof.
  intros Hf Hi.
  assert (Hz : zig_zag_decode_i64 (as_u64 (zig_zag_encode_i64 i)) = i)
    by exact (zig_zag_roundtrip 64 i ltac:(lia) Hi).
  rewrite <- Hz at 2. apply (read_map (read_vlong fuel) (fun x => zig_zag_decode_i64 (as_u64 x))).
  apply read_vlong_spec; [done|]. unfold zig_zag_encode_i64. auto with words.
Qed.

Lemma read_value_spec fuel v s :
  (10 <= fuel)%nat -> value_ok v -> consumes (read_value fuel (kind_of v)) s (code v) v.
Proof.
  intros Hf Hv. destruct v; cbn [value_ok read_value kind_of code] in *; apply read_map.
  - apply read_byte_spec.
  - apply fixed_back; [intros; by apply read_short_spec|lia|done].
  - apply fixed_back; [intros; by apply read_int_spec|lia|done].
  - apply fixed_back; [intros; by apply read_long_spec|lia|done].
  - apply read_vint_spec; [lia|done].
  - apply read_vlong_spec; [lia|apply Hv].
  - apply zint_back; [lia|done].
  - apply zlong_back; [lia|done].
  - destruct Hv. apply read_string_spec; [lia|done..].
Qed.

Lemma read_values_spec fuel vs s :
  (10 <= fuel)%nat -> Forall value_ok vs ->
  consumes (read_values fuel (kind_of <$> vs)) s (codes vs) vs.
Proof.
  intros Hf Hv. revert s. induction Hv as [|v vs Hv Hvs IH]; intros s.
  - apply read_ret.
  - rewrite codes_cons. simpl. eapply read_seq; [by apply read_value_spec|]. intros s'.
    by apply (read_map (read_values fuel (kind_of <$> vs)) (fun vs => v :: vs)).
Qed.
End ReadSeq.

(** C2: Any sequence of bytes, fixed-width, variable-length and zig-zag integers and
    strings that fits the room of a data output is written without an error, appends
    a determined byte string, and is read back value by value by every data input
    that holds those bytes, which ends just behind them. *)
Theorem stream_roundtrip {SO SI} {DO : DataOutput SO} {O : DataOutputSpec SO}
    {DI : DataInput SI} {I : DataInputSpec SI} vs (s : SO) fuel :
  Forall value_ok vs -> out_inv s -> Z.of_nat (length (codes vs)) <= room s ->
  (10 <= fuel)%nat ->
  exists s', write_values vs s = (Ok tt, s') /\ out s' = out s ++ codes vs /\
    forall (r : SI) rest, in_inv r -> avail r = codes vs ++ rest ->
      exists r', read_values fuel (kind_of <$> vs) r = (Ok vs, r') /\ avail r' = rest.
Proof.
  intros Hv Hi Hr Hf. destruct (write_values_spec vs s Hv Hi Hr) as (s' & Hw & _ & Ho & _).
  exists s'. split_and!; [done..|]. intros r rest Hir Har.
  destruct (read_values_spec fuel vs r Hf Hv rest Hir Har) as (r' & Hm & _ & Ha). eauto.
Qed.

Definition sample : list value :=
  [VVInt 300; VZLong (-5); VString [104; 105]; VInt (-1); VVLong 1000000; VShort 7].

Lemma stream_roundtrip_witness :
  exists s', write_values sample GrowableByteArrayDataOutput.new = (Ok tt, s') /\
    out s' = out GrowableByteArrayDataOutput.new ++ codes sample /\
    forall (r : ByteArrayDataInput.t) rest, in_inv r -> avail r = codes sample ++ rest ->
      exists r', read_values 10 (kind_of <$> sample) r = (Ok sample, r') /\ avail r' = rest.
Proof.
  apply (stream_roundtrip (SI := ByteArrayDataInput.t) sample GrowableByteArrayDataOutput.new 10).
  - repeat constructor; simpl; unfold in_s, in_u, i32_MAX; try lia.
  - vm_compute. split; congruence.
  - vm_compute. congruence.
  - lia.
Defined.

(** * Sizes of the variable-length codes *)

(** A code takes at most [k] bytes exactly when the value has at most [7 k] bits. *)
Lemma vcode_size f u (k : nat) :
  0 <= u -> (1 <= k <= f)%nat ->
  ((length (vcode f u) <= k)%nat <-> u < 2 ^ (7 * Z.of_nat k)) \/ (k = f /\ 2 ^ (7 * Z.of_nat f) <= u).
Proof.
  revert u k. induction f as [|f IH]; intros u k Hu Hk; [lia|]. simpl vcode.
  destruct (Z.ltb_spec u 128) as [H|H].
  - left. simpl. assert (2 ^ 7 <= 2 ^ (7 * Z.of_nat k)) by (apply Z.pow_le_mono_r; lia). lia.
  - assert (Hsh : Z.shiftr u 7 = u / 128) by (by rewrite Z.shiftr_div_pow2 by lia).
    assert (Hdiv : forall j, 0 <= j -> (u / 128 < 2 ^ j <-> u < 2 ^ (j + 7))).
    { intros j Hj. rewrite Z.pow_add_r by lia. change (2 ^ 7) with 128.
      split; intros; [|apply Z.div_lt_upper_bound; lia].
      pose proof (Z.mul_succ_div_gt u 128 ltac:(lia)). nia. }
    simpl length. destruct (decide (k = 1%nat)) as [->|Hk1].
    + destruct f as [|f].
      * right. simpl in *. split; [done|]. change (2 ^ (7 * Z.of_nat 1)) with 128. lia.
      * left. pose proof (vcode_nonempty (S f) (Z.shiftr u 7) ltac:(lia)).
        change (7 * Z.of_nat 1) with 7. change (2 ^ 7) with 128. lia.
    + destruct (IH (Z.shiftr u 7) (k - 1)%nat) as [IH'|[Hkf Hge]];
        [rewrite Hsh; apply Z.div_pos; lia|lia| |].
      * left. rewrite Hsh in *. specialize (Hdiv (7 * Z.of_nat (k - 1)) ltac:(lia)).
        replace (7 * Z.of_nat (k - 1) + 7) with (7 * Z.of_nat k) in Hdiv by lia. lia.
      * right. rewrite Hsh in Hge. split; [lia|].
        specialize (Hdiv (7 * Z.of_nat f) ltac:(lia)).
        replace (7 * Z.of_nat f + 7) with (7 * Z.of_nat (S f)) in Hdiv by lia. lia.
Qed.

(** The advertised sizes hold on every data output with enough room: a [vint]
    takes one to five bytes, at most [k] of them exactly when its unsigned pattern
    has at most [7 k] bits, and five when negative; a [vlong] of a non-negative value
    takes one to nine, and a negative one is refused with an illegal-argument error
    that leaves the output as it was. *)
Theorem variable_length_sizes {S} {DO : DataOutput S} {O : DataOutputSpec S} (s : S) i l (k : nat) :
  out_inv s -> 10 <= room s -> in_s 32 i -> in_s 64 l -> (1 <= k <= 5)%nat ->
  (exists s' n, write_vint i s = (Ok tt, s') /\ room s' = room s - Z.of_nat n /\
     (1 <= n <= 5)%nat /\ ((n <= k)%nat <-> as_u32 i < 2 ^ (7 * Z.of_nat k)) /\
     (i < 0 -> n = 5%nat)) /\
  (0 <= l -> exists s' n, write_vlong l s = (Ok tt, s') /\ room s' = room s - Z.of_nat n /\
     (1 <= n <= 9)%nat) /\
  (l < 0 -> write_vlong l s = (Err IllegalArgument, s)).
Proof.
  intros Hinv Hroom Hi Hl Hk. split_and!.
  - pose proof (vcode_length 5 (as_u32 i)) as Hlen.
    pose proof (vcode_nonempty 5 (as_u32 i) ltac:(lia)) as Hne.
    destruct (write_vint_spec i s) as (s' & Hw & _ & _ & Hr'); [done|unfold vint_code; lia|].
    exists s', (length (vint_code i)). unfold vint_code in *.
    pose proof (wrap_u_in 32 i ltac:(lia)) as Hu. unfold in_u in Hu.
    split_and!; try done; try lia.
    + destruct (vcode_size 5 (as_u32 i) k) as [H|[-> H]]; [lia..|done|].
      change (7 * Z.of_nat 5) with 35 in H. lia.
    + intros Hneg. destruct (vcode_size 5 (as_u32 i) 4) as [H|[? _]]; [lia..| |lia].
      change (7 * Z.of_nat 4) with 28 in H.
      assert (as_u32 i = i + 2 ^ 32) as Heq; [|unfold in_s in Hi; lia].
      unfold wrap_u. rewrite <- (Z_mod_plus_full i 1). unfold in_s in Hi.
      apply Z.mod_small. lia.
  - intros Hpos. unfold write_vlong. replace (l <? 0) with false by lia.
    pose proof (vcode_length 10 (as_u64 l)) as Hlen.
    pose proof (vcode_nonempty 10 (as_u64 l) ltac:(lia)) as Hne.
    destruct (write_signed_vlong_spec l s) as (s' & Hw & _ & _ & Hr');
      [done|unfold vlong_code; lia|].
    exists s', (length (vlong_code l)). unfold vlong_code in *. split_and!; try done; try lia.
    unfold in_s in Hl. rewrite (wrap_u_id 64 l) in * by (unfold in_u; lia).
    destruct (vcode_size 10 l 9) as [H|[? _]]; [lia..| |lia].
    change (7 * Z.of_nat 9) with 63 in H. apply H. lia.
  - intros Hneg. unfold write_vlong. by replace (l <? 0) with true by lia.
Qed.

Lemma variable_length_sizes_witness :
  (exists s' n, write_vint 300 GrowableByteArrayDataOutput.new = (Ok tt, s') /\
     room s' = room GrowableByteArrayDataOutput.new - Z.of_nat n /\
     (1 <= n <= 5)%nat /\ ((n <= 2)%nat <-> as_u32 300 < 2 ^ (7 * Z.of_nat 2)) /\
     (300 < 0 -> n = 5%nat)) /\
  (0 <= -1 -> exists s' n, write_vlong (-1) GrowableByteArrayDataOutput.new = (Ok tt, s') /\
     room s' = room GrowableByteArrayDataOutput.new - Z.of_nat n /\ (1 <= n <= 9)%nat) /\
  (-1 < 0 -> write_vlong (-1) GrowableByteArrayDataOutput.new
             = (Err IllegalArgument, GrowableByteArrayDataOutput.new)).
Proof.
  apply (variable_length_sizes GrowableByteArrayDataOutput.new 300 (-1) 2);
    [vm_compute; split; congruence|vm_compute; congruence|unfold in_s; lia..|lia].
Defined.

(** * Collections of strings *)

(** C26: A hash map of strings, written in whatever order its iterator yields the
    entries, is read back as the same map, whichever of the reader's size classes
    (empty, one entry, medium, other) its count selects; and likewise a hash set. *)
Theorem string_collections_roundtrip {SO SI} {DO : DataOutput SO} {O : DataOutputSpec SO}
    {DI : DataInput SI} {I : DataInputSpec SI}
    (m : gmap (list Z) (list Z)) (entries : list (list Z * list Z))
    (x : gset (list Z)) (members : list (list Z)) (s1 s2 : SO) (fuel : nat) :
  entries ≡ₚ map_to_list m -> members ≡ₚ elements x ->
  Forall (fun e => text_ok e.1 /\ text_ok e.2) entries -> Forall text_ok members ->
  Z.of_nat (length entries) <= i32_MAX -> Z.of_nat (length members) <= i32_MAX ->
  out_inv s1 -> Z.of_nat (5 + length (entries_code entries)) <= room s1 ->
  out_inv s2 -> Z.of_nat (5 + length (strings_code members)) <= room s2 ->
  (5 <= fuel)%nat ->
  (exists s' bs, write_map_of_strings entries s1 = (Ok tt, s') /\ out s' = out s1 ++ bs /\
     forall (r : SI) rest, in_inv r -> avail r = bs ++ rest ->
       exists r', read_map_of_strings fuel r = (Ok m, r') /\ avail r' = rest) /\
  (exists s' bs, write_set_of_strings members s2 = (Ok tt, s') /\ out s' = out s2 ++ bs /\
     forall (r : SI) rest, in_inv r -> avail r = bs ++ rest ->
       exists r', read_set_of_strings fuel r = (Ok x, r') /\ avail r' = rest).
Proof.
  intros Hpm Hpx He Hx Hle Hlx Hi1 Hr1 Hi2 Hr2 Hf. split.
  - assert (Hnd : NoDup entries.*1).
    { rewrite Hpm. apply NoDup_fst_map_to_list. }
    assert (Hm : list_to_map entries = m).
    { rewrite <- (list_to_map_to_list m). by apply list_to_map_proper. }
    pose proof (vcode_length 5 (as_u32 (Z.of_nat (length entries)))) as Hv.
    destruct (write_map_of_strings_spec entries s1) as (s' & Hw & _ & Ho & _); auto.
    { eapply Forall_impl; [exact He|]. intros e [[] []]. done. }
    { rewrite length_app. unfold vint_code. lia. }
    do 2 eexists. split_and!; [done..|]. intros r rest Hir Har. rewrite <- Hm.
    destruct (read_map_of_strings_spec fuel entries r Hf He Hle Hnd rest Hir Har)
      as (r' & ? & _ & ?). eauto.
  - assert (Hm : list_to_set members = x).
    { rewrite <- (list_to_set_elements_L x). by apply list_to_set_perm_L. }
    pose proof (vcode_length 5 (as_u32 (Z.of_nat (length members)))) as Hv.
    destruct (write_set_of_strings_spec members s2) as (s' & Hw & _ & Ho & _); auto.
    { eapply Forall_impl; [exact Hx|]. intros e []. done. }
    { rewrite length_app. unfold vint_code. lia. }
    do 2 eexists. split_and!; [done..|]. intros r rest Hir Har. rewrite <- Hm.
    destruct (read_set_of_strings_spec fuel members r Hf Hx Hlx rest Hir Har)
      as (r' & ? & _ & ?). eauto.
Qed.

Lemma string_collections_roundtrip_witness :
  (exists s' bs, write_map_of_strings [([97], [98; 99])] GrowableByteArrayDataOutput.new = (Ok tt, s') /\
     out s' = out GrowableByteArrayDataOutput.new ++ bs /\
     forall (r : ReverseBytesReader.t) rest, in_inv r -> avail r = bs ++ rest ->
       exists r', read_map_of_strings 5 r = (Ok {[ [97] := [98; 99] ]}, r') /\ avail r' = rest) /\
  (exists s' bs, write_set_of_strings [[97]] GrowableByteArrayDataOutput.new = (Ok tt, s') /\
     out s' = out GrowableByteArrayDataOutput.new ++ bs /\
     forall (r : ReverseBytesReader.t) rest, in_inv r -> avail r = bs ++ rest ->
       exists r', read_set_of_strings 5 r = (Ok {[ [97] ]}, r') /\ avail r' = rest).
Proof.
  apply (string_collections_roundtrip (SI := ReverseBytesReader.t)
    {[ [97] := [98; 99] ]} [([97], [98; 99])] {[ [97] ]} [[97]]
    GrowableByteArrayDataOutput.new GrowableByteArrayDataOutput.new 5).
  - by rewrite map_to_list_singleton.
  - by rewrite elements_singleton.
  - repeat constructor; simpl; unfold in_u, i32_MAX; lia.
  - repeat constructor; simpl; unfold in_u, i32_MAX; lia.
  - vm_compute. congruence.
  - vm_compute. congruence.
  - vm_compute. split; congruence.
  - vm_compute. congruence.
  - vm_compute. split; congruence.
  - vm_compute. congruence.
  - lia.
Defined.

(** * Copying between streams *)

Definition COPY_BUFFER_SIZE : Z := 16384.

Section Copy.
Context {SO SI : Type} {DO : DataOutput SO} {DI : DataInput SI}.

Definition on_out {A} (m : ST SO A) : ST (SO * SI) A := fun s =>
  let (r, o) := m s.1 in (r, (o, s.2)).
Definition on_in {A} (m : ST SI A) : ST (SO * SI) A := fun s =>
  let (r, i) := m s.2 in (r, (s.1, i)).

(** The [while left > 0] loop; each round but the last copies a full buffer. *)
Fixpoint copy_loop (fuel : nat) (left : Z) : ST (SO * SI) unit :=
  if 0 <? left then
    match fuel with
    | O => slift OutOfFuel
    | S fuel =>
        let to_copy := Z.min left COPY_BUFFER_SIZE in
        let* bytes := on_in (get_bytes to_copy) in
        let* _ := on_out (write_bytes_with_len bytes to_copy) in
        copy_loop fuel (left - to_copy)
    end
  else sret tt.

Definition copy_bytes_impl (num_bytes : Z) : ST (SO * SI) unit :=
  copy_loop (Z.to_nat (num_bytes / COPY_BUFFER_SIZE + 1)) num_bytes.

Context {O : DataOutputSpec SO} {I : DataInputSpec SI}.

Lemma copy_loop_spec fuel : forall bs o i rest,
  Z.of_nat (length bs) <= COPY_BUFFER_SIZE * Z.of_nat fuel ->
  out_inv o -> in_inv i -> avail i = bs ++ rest -> Z.of_nat (length bs) <= room o ->
  exists o' i', copy_loop fuel (Z.of_nat (length bs)) (o, i) = (Ok tt, (o', i')) /\
    out_inv o' /\ in_inv i' /\ out o' = out o ++ bs /\ avail i' = rest.
Proof.
  unfold COPY_BUFFER_SIZE.
  induction fuel as [|fuel IH]; intros bs o i rest Hb Ho Hi Ha Hr.
  - destruct bs; [|simpl in *; lia]. exists o, i. simpl. rewrite app_nil_r. by rewrite Ha.
  - simpl copy_loop. destruct (Z.ltb_spec 0 (Z.of_nat (length bs))) as [Hpos|Hz].
    2: { destruct bs; [|simpl in *; lia]. exists o, i. simpl. rewrite app_nil_r. by rewrite Ha. }
    unfold COPY_BUFFER_SIZE. set (n := Z.min (Z.of_nat (length bs)) 16384).
    pose proof (avail_in_u i Hi) as Hu. rewrite Ha in Hu. apply Forall_app in Hu as [Hu _].
    rewrite <- (take_drop (Z.to_nat n) bs), <- app_assoc in Ha.
    assert (Hlt : length (take (Z.to_nat n) bs) = Z.to_nat n) by (rewrite length_take; lia).
    destruct (get_bytes_spec i (take (Z.to_nat n) bs) _ Hi Ha) as (i1 & Hg & Hi1 & Ha1).
    rewrite Hlt, Z2Nat.id in Hg by lia.
    destruct (write_bytes_range_spec o (take (Z.to_nat n) bs) 0 n) as (o1 & Hw & Ho1 & Hout & Hr1);
      auto; try lia; [by apply Forall_take|].
    rewrite drop_0, take_take, Nat.min_id in *. rewrite Hlt in Hr1.
    destruct (IH (drop (Z.to_nat n) bs) o1 i1 rest) as (o2 & i2 & Hc & Ho2 & Hi2 & Hout2 & Ha2);
      auto; rewrite ?length_drop; try lia.
    exists o2, i2. split_and!; auto.
    + unfold sbind, on_in, on_out, write_bytes_with_len. cbn [fst snd]. rewrite Hg. cbn [fst snd]. rewrite Hw.
      rewrite <- Hc, length_drop. do 2 f_equal. lia.
    + rewrite Hout2, Hout, <- app_assoc. by rewrite take_drop.
Qed.
End Copy.

(** [copy_bytes_impl] moves exactly [num_bytes] bytes, however many buffers that
    takes: with so many available in the input and room for them in the output it
    succeeds, appends them in order and leaves the input just behind them. *)
Theorem copy_bytes_exact {SO SI} {DO : DataOutput SO} {O : DataOutputSpec SO}
    {DI : DataInput SI} {I : DataInputSpec SI} (o : SO) (i : SI) bs rest :
  out_inv o -> in_inv i -> avail i = bs ++ rest -> Z.of_nat (length bs) <= room o ->
  exists o' i', copy_bytes_impl (Z.of_nat (length bs)) (o, i) = (Ok tt, (o', i')) /\
    out o' = out o ++ bs /\ avail i' = rest.
Proof.
  intros Ho Hi Ha Hr. unfold copy_bytes_impl.
  pose proof (Z.mul_succ_div_gt (Z.of_nat (length bs)) COPY_BUFFER_SIZE ltac:(done)).
  assert (0 <= Z.of_nat (length bs) / COPY_BUFFER_SIZE) by (apply Z.div_pos; [lia|done]).
  destruct (copy_loop_spec (Z.to_nat (Z.of_nat (length bs) / COPY_BUFFER_SIZE + 1))
    bs o i rest) as (o' & i' & H1 & _ & _ & H2 & H3); auto; [|eauto].
  rewrite Z2Nat.id by lia. lia.
Qed.

Lemma copy_bytes_exact_witness :
  exists o' i', copy_bytes_impl 3
      (GrowableByteArrayDataOutput.new, ByteArrayDataInput.with_bytes [1;2;3;4]) = (Ok tt, (o', i')) /\
    out o' = out GrowableByteArrayDataOutput.new ++ [1;2;3] /\ avail i' = [4].
Proof.
  apply (copy_bytes_exact GrowableByteArrayDataOutput.new
           (ByteArrayDataInput.with_bytes [1;2;3;4]) [1;2;3] [4]).
  - vm_compute. split; congruence.
  - split; [vm_compute; split; congruence|repeat constructor; unfold in_u; lia].
  - reflexivity.
  - vm_compute. congruence.
Defined.
