(* ===== verification/GroupVInt.v ===== *)
(** Model of the group-varint codec (src/core/util/group_vint_util.rs): four
    integers share one flag byte that holds the byte length of each. The writers of
    both element widths, the byte-at-a-time readers and the readers that take four
    bytes at a time from an [IntReader] and mask them. *)

From Stdlib Require Import ZArith Lia Bool.
From stdpp Require Import base tactics numbers list.
From S2P Require Import Prelude ArrayUtil BitUtil Utf8 DataOutput DataInput.
Import BitUtil.

Local Open Scope Z_scope.

Module GroupVIntUtil.

Definition LONG_MASKS : list Z := [0xFF; 0xFFFF; 0xFFFFFF; 0xFFFFFFFF].
Definition INT_MASKS : list Z := [0xFF; 0xFFFF; 0xFFFFFF; -1].
Definition MAX_LENGTH_PER_GROUP : Z := 17.

(** [i32::leading_zeros] *)
Definition leading_zeros_i32 (v : Z) : Z :=
  if as_u32 v =? 0 then 32 else 31 - Z.log2 (as_u32 v).

Definition num_bytes (v : Z) : Z := INT_BYTES - leading_zeros_i32 (Z.lor v 1) / 8.

Definition to_int (value : Z) : result Z :=
  if 0xFFFFFFFF <? as_u64 value then Err NumberOverflow else Ok (as_i32 value).

(** * Writing *)

(** The statements from [let flag] to the last [copy_from_slice], which the two
    writers share: each value is stored with all its four bytes and the next one
    overwrites the surplus. Returns the scratch buffer and [write_pos]. *)
Definition fill_group (scratch : list Z) (v1 v2 v3 v4 : Z) : result (list Z * Z) :=
  let n1 := num_bytes v1 in
  let n2 := num_bytes v2 in
  let n3 := num_bytes v3 in
  let n4 := num_bytes v4 in
  let flag := Z.lor (Z.lor (Z.lor (Z.shiftl (n1 - 1) 6) (Z.shiftl (n2 - 1) 4))
                (Z.shiftl (n3 - 1) 2)) (n4 - 1) in
  let? scratch := vset scratch 0 (as_u8 flag) in
  let? scratch := vcopy scratch 1 (to_le_bytes 4 v1) in
  let? scratch := vcopy scratch (1 + n1) (to_le_bytes 4 v2) in
  let? scratch := vcopy scratch (1 + n1 + n2) (to_le_bytes 4 v3) in
  let? scratch := vcopy scratch (1 + n1 + n2 + n3) (to_le_bytes 4 v4) in
  Ok (scratch, 1 + n1 + n2 + n3 + n4).

(** [wide::u8x16::swizzle_relaxed], as its documentation has it: an index below 16
    selects that lane, an index with the high bit set gives zero, the others are
    left to the implementation. *)
Definition swizzle_documented (swizzle : list Z -> list Z -> list Z) : Prop :=
  forall bytes order, length bytes = 16%nat -> length order = 16%nat ->
    length (swizzle bytes order) = 16%nat /\
    forall i o, order !! i = Some o ->
      (0 <= o < 16 -> swizzle bytes order !! i = bytes !! Z.to_nat o) /\
      (128 <= o < 256 -> swizzle bytes order !! i = Some 0).

Definition byte_order : list Z :=
  [255; 0; 4; 8; 12; 13; 14; 15; 255; 255; 255; 255; 255; 255; 255; 255].

Section Writers.
Context {S : Type} {DO : DataOutput S}.

(** The groups of [write_group_vints_i64]; returns [scratch] and [read_pos]. *)
Fixpoint write_groups_i64 (fuel : nat) (scratch values : list Z) (limit read_pos : Z) :
    ST S (list Z * Z) :=
  if 4 <=? limit - read_pos then
    match fuel with
    | O => slift OutOfFuel
    | Datatypes.S fuel =>
        let* v1 := slift (let? v := vget values read_pos in to_int v) in
        let* v2 := slift (let? v := vget values (read_pos + 1) in to_int v) in
        let* v3 := slift (let? v := vget values (read_pos + 2) in to_int v) in
        let* v4 := slift (let? v := vget values (read_pos + 3) in to_int v) in
        let* (scratch, write_pos) := slift (fill_group scratch v1 v2 v3 v4) in
        let* _ := write_bytes_with_len scratch write_pos in
        write_groups_i64 fuel scratch values limit (read_pos + 4)
    end
  else sret (scratch, read_pos).

Fixpoint write_tail_i64 (fuel : nat) (values : list Z) (limit read_pos : Z) : ST S unit :=
  if read_pos <? limit then
    match fuel with
    | O => slift OutOfFuel
    | Datatypes.S fuel =>
        let* v := slift (let? v := vget values read_pos in to_int v) in
        let* _ := write_vint v in
        write_tail_i64 fuel values limit (read_pos + 1)
    end
  else sret tt.

Definition write_group_vints_i64 (scratch values : list Z) (limit : Z) : ST S unit :=
  let* (_, read_pos) := write_groups_i64 (Z.to_nat limit) scratch values limit 0 in
  write_tail_i64 (Z.to_nat limit) values limit read_pos.

Variable swizzle_relaxed : list Z -> list Z -> list Z.

(** The branch of [write_group_vints_i32] for four values of one byte each. *)
Definition pack_small (scratch : list Z) (group : list Z) : result (list Z) :=
  let bytes := concat (to_le_bytes 4 <$> group) in
  let packed := swizzle_relaxed bytes byte_order in
  let? front := vslice packed 0 8 in
  vcopy scratch 0 front.

Fixpoint write_groups_i32 (fuel : nat) (scratch values : list Z) (limit read_pos : Z) :
    ST S (list Z * Z) :=
  if 4 <=? limit - read_pos then
    match fuel with
    | O => slift OutOfFuel
    | Datatypes.S fuel =>
        let* g0 := slift (vget values read_pos) in
        let* g1 := slift (vget values (read_pos + 1)) in
        let* g2 := slift (vget values (read_pos + 2)) in
        let* g3 := slift (vget values (read_pos + 3)) in
        let combined := as_u32 (Z.lor (Z.lor (Z.lor g0 g1) g2) g3) in
        if (8 <=? Z.of_nat (length scratch)) && (combined <=? 255) then
          let* scratch := slift (pack_small scratch [g0; g1; g2; g3]) in
          let* _ := write_bytes_with_len scratch 5 in
          write_groups_i32 fuel scratch values limit (read_pos + 4)
        else
          let* (scratch, write_pos) := slift (fill_group scratch g0 g1 g2 g3) in
          let* _ := write_bytes_with_len scratch write_pos in
          write_groups_i32 fuel scratch values limit (read_pos + 4)
    end
  else sret (scratch, read_pos).

Fixpoint write_tail_i32 (fuel : nat) (values : list Z) (limit read_pos : Z) : ST S unit :=
  if read_pos <? limit then
    match fuel with
    | O => slift OutOfFuel
    | Datatypes.S fuel =>
        let* v := slift (vget values read_pos) in
        let* _ := write_vint v in
        write_tail_i32 fuel values limit (read_pos + 1)
    end
  else sret tt.

Definition write_group_vints_i32 (scratch values : list Z) (limit : Z) : ST S unit :=
  let* (_, read_pos) := write_groups_i32 (Z.to_nat limit) scratch values limit 0 in
  write_tail_i32 (Z.to_nat limit) values limit read_pos.

End Writers.

(** The two entry points of src/core/store/data_output.rs. *)
Definition group_vint_bytes : list Z := replicate (Z.to_nat MAX_LENGTH_PER_GROUP) 0.

Definition data_output_write_group_vints_i64 {S} {DO : DataOutput S}
    (values : list Z) (limit : Z) : ST S unit :=
  write_group_vints_i64 group_vint_bytes values limit.

Definition data_output_write_group_vints_i32 {S} {DO : DataOutput S}
    (swizzle_relaxed : list Z -> list Z -> list Z) (values : list Z) (limit : Z) : ST S unit :=
  write_group_vints_i32 swizzle_relaxed group_vint_bytes values limit.

(** * Reading *)

Section Readers.
Context {S : Type} {DI : DataInput S}.

Definition read_int_in_group (num_bytes_minus1 : Z) : ST S Z :=
  if num_bytes_minus1 =? 0 then read_byte
  else if num_bytes_minus1 =? 1 then let* s := read_short in sret (as_u16 s)
  else if num_bytes_minus1 =? 2 then
    let* short_part := read_short in
    let* byte_part := read_byte in
    sret (as_i32 (Z.lor (as_u16 short_part) (Z.shiftl byte_part 16)))
  else read_int.

(** The readers of one group; [conv] is what the target width does to the value. *)
Definition read_group (conv : Z -> Z) (dst : list Z) (offset : Z) : ST S (list Z) :=
  let* flag := read_byte in
  let n1_minus1 := Z.shiftr flag 6 in
  let n2_minus1 := Z.land (Z.shiftr flag 4) 0x03 in
  let n3_minus1 := Z.land (Z.shiftr flag 2) 0x03 in
  let n4_minus1 := Z.land flag 0x03 in
  let* v := read_int_in_group n1_minus1 in
  let* dst := slift (vset dst offset (conv v)) in
  let* v := read_int_in_group n2_minus1 in
  let* dst := slift (vset dst (offset + 1) (conv v)) in
  let* v := read_int_in_group n3_minus1 in
  let* dst := slift (vset dst (offset + 2) (conv v)) in
  let* v := read_int_in_group n4_minus1 in
  slift (vset dst (offset + 3) (conv v)).

Definition read_group_vint_i64 : list Z -> Z -> ST S (list Z) := read_group (wrap_u 32).
Definition read_group_vint_i32 : list Z -> Z -> ST S (list Z) := read_group (fun v => v).

(** The loops of both bulk readers: [group] reads four values, [one] a tail value. *)
Fixpoint read_groups (fuel : nat) (group : list Z -> Z -> ST S (list Z)) (dst : list Z)
    (limit i : Z) : ST S (list Z * Z) :=
  if i + 4 <=? limit then
    match fuel with
    | O => slift OutOfFuel
    | Datatypes.S fuel =>
        let* dst := group dst i in
        read_groups fuel group dst limit (i + 4)
    end
  else sret (dst, i).

Fixpoint read_tail (fuel : nat) (one : ST S Z) (dst : list Z) (limit i : Z) :
    ST S (list Z) :=
  if i <? limit then
    match fuel with
    | O => slift OutOfFuel
    | Datatypes.S fuel =>
        let* v := one in
        let* dst := slift (vset dst i v) in
        read_tail fuel one dst limit (i + 1)
    end
  else sret dst.

(** [vfuel] bounds the bytes of one tail vint. *)
Definition read_group_vints_i64 (vfuel : nat) (dst : list Z) (limit : Z) : ST S (list Z) :=
  let* (dst, i) := read_groups (Z.to_nat limit) read_group_vint_i64 dst limit 0 in
  read_tail (Z.to_nat limit) (let* v := read_vint vfuel in sret (as_u32 v)) dst limit i.

(** [read_group_vint] is a required method of the [DataInput] trait. *)
Definition read_group_vints_i32 (read_group_vint : list Z -> Z -> ST S (list Z))
    (vfuel : nat) (dst : list Z) (limit : Z) : ST S (list Z) :=
  let* (dst, i) := read_groups (Z.to_nat limit) read_group_vint dst limit 0 in
  read_tail (Z.to_nat limit) (read_vint vfuel) dst limit i.
End Readers.

(** * Reading with random access *)

(** The trait [IntReader]. *)
Class IntReader (S : Type) := { int_read : Z -> ST S Z }.

Section FastReaders.
Context {S : Type} {DI : DataInput S} {IR : IntReader S}.

(** [mask n] is the masked value of the two widths. *)
Definition read_group_with_reader (slow : list Z -> Z -> ST S (list Z))
    (mask : Z -> Z -> result Z) (remaining pos : Z) (dst : list Z) (offset : Z) :
    ST S (list Z * Z) :=
  if remaining <? MAX_LENGTH_PER_GROUP then
    let* dst := slow dst offset in sret (dst, 0)
  else
    let* flag := read_byte in
    let pos := pos + 1 in
    let pos_start := pos in
    let n1_minus1 := Z.shiftr flag 6 in
    let n2_minus1 := Z.land (Z.shiftr flag 4) 0x03 in
    let n3_minus1 := Z.land (Z.shiftr flag 2) 0x03 in
    let n4_minus1 := Z.land flag 0x03 in
    let* v := int_read pos in
    let* v := slift (mask n1_minus1 v) in
    let* dst := slift (vset dst offset v) in
    let pos := pos + (1 + n1_minus1) in
    let* v := int_read pos in
    let* v := slift (mask n2_minus1 v) in
    let* dst := slift (vset dst (offset + 1) v) in
    let pos := pos + (1 + n2_minus1) in
    let* v := int_read pos in
    let* v := slift (mask n3_minus1 v) in
    let* dst := slift (vset dst (offset + 2) v) in
    let pos := pos + (1 + n3_minus1) in
    let* v := int_read pos in
    let* v := slift (mask n4_minus1 v) in
    let* dst := slift (vset dst (offset + 3) v) in
    let pos := pos + (1 + n4_minus1) in
    sret (dst, pos - pos_start).

Definition mask_i64 (n v : Z) : result Z :=
  let? m := vget LONG_MASKS n in Ok (as_i64 (Z.land (as_u64 v) m)).
Definition mask_i32 (n v : Z) : result Z :=
  let? m := vget INT_MASKS n in Ok (Z.land v m).

Definition read_group_vint_i64_with_reader := read_group_with_reader read_group_vint_i64 mask_i64.
Definition read_group_vint_i32_with_reader := read_group_with_reader read_group_vint_i32 mask_i32.
End FastReaders.

(** * The code *)

Definition gcode (v : Z) : list Z := to_le_bytes (Z.to_nat (num_bytes v)) v.
Definition flag_of (n1 n2 n3 n4 : Z) : Z :=
  Z.lor (Z.lor (Z.lor (Z.shiftl n1 6) (Z.shiftl n2 4)) (Z.shiftl n3 2)) n4.
Definition group_code (v1 v2 v3 v4 : Z) : list Z :=
  flag_of (num_bytes v1 - 1) (num_bytes v2 - 1) (num_bytes v3 - 1) (num_bytes v4 - 1)
  :: gcode v1 ++ gcode v2 ++ gcode v3 ++ gcode v4.

(** Groups of four, then a tail of vints. *)
Fixpoint gv_code (vs : list Z) : list Z :=
  match vs with
  | v1 :: v2 :: v3 :: v4 :: rest => group_code v1 v2 v3 v4 ++ gv_code rest
  | tail => concat (vint_code <$> tail)
  end.

Lemma as_u32_lor1 v : as_u32 (Z.lor v 1) = Z.lor (as_u32 v) 1.
Proof.
  same_bits i. destruct (Z.ltb_spec i 32); simpl; [done|].
  by rewrite (in_u_testbit 1 1 i) by (unfold in_u; lia).
Qed.

Lemma num_bytes_spec v :
  1 <= num_bytes v <= 4 /\ as_u32 v < 2 ^ (8 * num_bytes v) /\
  (as_u32 v < 256 -> num_bytes v = 1).
Proof.
  unfold num_bytes, leading_zeros_i32, INT_BYTES. rewrite as_u32_lor1.
  pose proof (wrap_u_in 32 v ltac:(lia)) as Hu. unfold in_u in Hu.
  set (u := as_u32 v) in *. set (x := Z.lor u 1).
  assert (Hux : u <= x).
  { unfold x. pose proof (Z.add_lor_land u 1). pose proof (Z.land_nonneg u 1).
    assert (Z.land u 1 <= 1).
    { change 1 with (Z.ones 1) at 1. rewrite Z.land_ones by lia.
      pose proof (Z.mod_pos_bound u (2 ^ 1) ltac:(lia)). lia. }
    lia. }
  assert (Hx : in_u 32 x).
  { apply in_u_intro; [lia|]. intros i Hi. unfold x. autorewrite with zbits.
    by rewrite (in_u_testbit 32 u), (in_u_testbit 1 1) by (unfold in_u; lia). }
  assert (Hpos : 0 < x).
  { assert (x <> 0); [|unfold in_u in Hx; lia]. unfold x. intros H%Z.lor_eq_0_iff. lia. }
  replace (x =? 0) with false by lia.
  assert (HL : 0 <= Z.log2 x <= 31).
  { split; [apply Z.log2_nonneg|]. unfold in_u in Hx.
    enough (Z.log2 x < 32) by lia. apply Z.log2_lt_pow2; lia. }
  pose proof (Z.log2_spec x Hpos) as [_ Hlt].
  pose proof (Z.div_mod (31 - Z.log2 x) 8 ltac:(lia)).
  pose proof (Z.mod_pos_bound (31 - Z.log2 x) 8 ltac:(lia)).
  split_and!; try lia.
  - apply Z.le_lt_trans with x; [done|]. eapply Z.lt_le_trans; [exact Hlt|].
    apply Z.pow_le_mono_r; lia.
  - intros Hs. assert (in_u 8 x) as Hx8.
    { apply in_u_intro; [lia|]. intros i Hi. unfold x. autorewrite with zbits.
      by rewrite (in_u_testbit 8 u), (in_u_testbit 1 1) by (unfold in_u; lia). }
    assert (Z.log2 x < 8) by (apply Z.log2_lt_pow2; unfold in_u in Hx8; lia). lia.
Qed.

Lemma take_to_le_bytes n k x : (k <= n)%nat -> take k (to_le_bytes n x) = to_le_bytes k x.
Proof.
  revert n x. induction k as [|k IH]; intros [|n] x Hk; simpl; try done; [lia|].
  by rewrite IH by lia.
Qed.

Lemma gcode_length v : Z.of_nat (length (gcode v)) = num_bytes v.
Proof. unfold gcode. rewrite to_le_bytes_length. pose proof (num_bytes_spec v). lia. Qed.

(** The bytes of the code determine the value. *)
Lemma gcode_value v : in_s 32 v -> as_i32 (le_value (gcode v)) = v.
Proof.
  intros Hv. unfold gcode. rewrite le_value_to_le_bytes.
  destruct (num_bytes_spec v) as (Hn & Hb & _). rewrite Z2Nat.id by lia.
  assert (wrap_u (8 * num_bytes v) v = as_u32 v) as ->.
  { pose proof (wrap_u_in 32 v ltac:(lia)) as Hu. unfold in_u in Hu.
    same_bits i. destruct (Z.ltb_spec i (8 * num_bytes v)), (Z.ltb_spec i 32); simpl; try done; [lia|].
    pose proof (in_u_testbit (8 * num_bytes v) (as_u32 v) i) as Ht.
    rewrite wrap_u_testbit in Ht by lia. replace (i <? 32) with true in Ht by lia.
    rewrite <- Ht; [done|unfold in_u; lia|lia]. }
  rewrite wrap_s_wrap_u by lia. apply wrap_s_id; [lia|done].
Qed.

Lemma flag_fields n1 n2 n3 n4 :
  0 <= n1 < 4 -> 0 <= n2 < 4 -> 0 <= n3 < 4 -> 0 <= n4 < 4 ->
  let f := flag_of n1 n2 n3 n4 in
  in_u 8 f /\ Z.shiftr f 6 = n1 /\ Z.land (Z.shiftr f 4) 3 = n2 /\
  Z.land (Z.shiftr f 2) 3 = n3 /\ Z.land f 3 = n4.
Proof.
  assert (Hc : forall n, 0 <= n < 4 -> n = 0 \/ n = 1 \/ n = 2 \/ n = 3) by lia.
  intros H1%Hc H2%Hc H3%Hc H4%Hc.
  destruct_or!; subst; vm_compute; split_and!; congruence.
Qed.

(** Conversely every flag byte has four fields below four. *)
Lemma flag_bounds f : in_u 8 f ->
  0 <= Z.shiftr f 6 < 4 /\ 0 <= Z.land (Z.shiftr f 4) 3 < 4 /\
  0 <= Z.land (Z.shiftr f 2) 3 < 4 /\ 0 <= Z.land f 3 < 4.
Proof.
  unfold in_u. intros Hf. change 3 with (Z.ones 2). rewrite !Z.land_ones by lia.
  rewrite Z.shiftr_div_pow2 at 1 2 by lia.
  pose proof (Z.mod_pos_bound (Z.shiftr f 4) (2 ^ 2)).
  pose proof (Z.mod_pos_bound (Z.shiftr f 2) (2 ^ 2)).
  pose proof (Z.mod_pos_bound f (2 ^ 2)).
  split; [|lia]. split; [apply Z.div_pos; lia|apply Z.div_lt_upper_bound; lia].
Qed.

Lemma group_code_length v1 v2 v3 v4 :
  Z.of_nat (length (group_code v1 v2 v3 v4))
  = 1 + num_bytes v1 + num_bytes v2 + num_bytes v3 + num_bytes v4.
Proof. unfold group_code. cbn [length]. rewrite !length_app. rewrite <- !gcode_length. lia. Qed.

(** * The writers produce the code *)

Lemma copy_value scratch pos v :
  length scratch = 17%nat -> 1 <= pos <= 13 ->
  exists scratch', vcopy scratch pos (to_le_bytes 4 v) = Ok scratch' /\
    length scratch' = 17%nat /\
    take (Z.to_nat (pos + num_bytes v)) scratch' = take (Z.to_nat pos) scratch ++ gcode v /\
    (Forall (in_u 8) scratch -> Forall (in_u 8) scratch').
Proof.
  intros Hl Hp. destruct (num_bytes_spec v) as (Hn & _).
  destruct (vcopy_take scratch pos (to_le_bytes 4 v) (Z.to_nat (num_bytes v)))
    as (s' & H1 & H2 & H3 & H4); rewrite ?to_le_bytes_length; try lia.
  exists s'. split_and!; auto using to_le_bytes_in_u; [lia|].
  rewrite Z2Nat.inj_add, H3 by lia. by rewrite take_to_le_bytes by lia.
Qed.

Lemma fill_group_spec scratch v1 v2 v3 v4 :
  length scratch = 17%nat -> Forall (in_u 8) scratch ->
  exists scratch', fill_group scratch v1 v2 v3 v4
      = Ok (scratch', Z.of_nat (length (group_code v1 v2 v3 v4))) /\
    length scratch' = 17%nat /\ Forall (in_u 8) scratch' /\
    take (length (group_code v1 v2 v3 v4)) scratch' = group_code v1 v2 v3 v4.
Proof.
  intros Hl Hu. unfold fill_group. rewrite vset_ok by lia. cbn [rbind].
  destruct (num_bytes_spec v1) as (? & _), (num_bytes_spec v2) as (? & _),
    (num_bytes_spec v3) as (? & _), (num_bytes_spec v4) as (? & _).
  pose proof (flag_fields (num_bytes v1 - 1) (num_bytes v2 - 1) (num_bytes v3 - 1)
    (num_bytes v4 - 1) ltac:(lia) ltac:(lia) ltac:(lia) ltac:(lia)) as [Hf _].
  fold (flag_of (num_bytes v1 - 1) (num_bytes v2 - 1) (num_bytes v3 - 1) (num_bytes v4 - 1)).
  rewrite wrap_u_id by done. set (f := flag_of _ _ _ _) in *.
  destruct scratch as [|b scratch]; [done|]. change (<[Z.to_nat 0:=f]> (b :: scratch)) with (f :: scratch).
  apply Forall_cons in Hu as [_ Hu].
  destruct (copy_value (f :: scratch) 1 v1) as (s1 & -> & Hl1 & Ht1 & Hu1); [done|lia|]. cbn [rbind].
  destruct (copy_value s1 (1 + num_bytes v1) v2) as (s2 & -> & Hl2 & Ht2 & Hu2); [done|lia|].
  destruct (copy_value s2 (1 + num_bytes v1 + num_bytes v2) v3) as (s3 & Hc3 & Hl3 & Ht3 & Hu3);
    [done|lia|].
  destruct (copy_value s3 (1 + num_bytes v1 + num_bytes v2 + num_bytes v3) v4)
    as (s4 & Hc4 & Hl4 & Ht4 & Hu4); [done|lia|].
  cbn [rbind]. rewrite Hc3. cbn [rbind]. rewrite Hc4. cbn [rbind].
  exists s4. rewrite group_code_length. split_and!; [done..|auto 6|].
  assert (length (group_code v1 v2 v3 v4)
    = Z.to_nat (1 + num_bytes v1 + num_bytes v2 + num_bytes v3 + num_bytes v4)) as ->
    by (rewrite <- group_code_length; lia).
  rewrite Ht4, Ht3, Ht2, Ht1. unfold group_code. fold f. simpl. by rewrite <- !app_assoc.
Qed.

Lemma small_gcode g : 0 <= g <= 255 -> num_bytes g = 1 /\ gcode g = [g].
Proof.
  intros Hg. assert (num_bytes g = 1) as Hn.
  { apply num_bytes_spec. rewrite wrap_u_id by (unfold in_u; lia). lia. }
  split; [done|]. unfold gcode. rewrite Hn. simpl.
  by rewrite wrap_u_id by (unfold in_u; lia).
Qed.

Lemma small_lor x y : in_u 8 (as_u32 (Z.lor x y)) -> in_u 8 (as_u32 x) /\ in_u 8 (as_u32 y).
Proof.
  intros H. split; (apply in_u_intro; [lia|]; intros i Hi;
    pose proof (in_u_testbit 8 _ i H Hi) as Hb; rewrite wrap_u_testbit, Z.lor_spec in Hb by lia;
    rewrite wrap_u_testbit by lia; destruct (i <? 32); simpl in *; [|done];
    by apply orb_false_iff in Hb as [? ?]).
Qed.

Lemma small_u32 x : in_s 32 x -> in_u 8 (as_u32 x) -> 0 <= x <= 255.
Proof.
  unfold in_s, in_u, wrap_u. intros Hx Hu. destruct (decide (0 <= x)).
  - rewrite Z.mod_small in Hu by lia. lia.
  - rewrite <- (Z_mod_plus_full x 1), Z.mod_small in Hu by lia. lia.
Qed.

Lemma pack_small_spec swizzle scratch g0 g1 g2 g3 :
  swizzle_documented swizzle -> length scratch = 17%nat -> Forall (in_u 8) scratch ->
  Forall (fun g => 0 <= g <= 255) [g0; g1; g2; g3] ->
  exists scratch', pack_small swizzle scratch [g0; g1; g2; g3] = Ok scratch' /\
    length scratch' = 17%nat /\ Forall (in_u 8) scratch' /\
    take 5 scratch' = group_code g0 g1 g2 g3 /\ length (group_code g0 g1 g2 g3) = 5%nat.
Proof.
  intros Hsw Hl Hu Hg.
  apply Forall_cons in Hg as [H0 Hg]. apply Forall_cons in Hg as [H1 Hg].
  apply Forall_cons in Hg as [H2 Hg]. apply Forall_cons in Hg as [H3 _].
  assert (Hgc : group_code g0 g1 g2 g3 = [0; g0; g1; g2; g3]).
  { unfold group_code. destruct (small_gcode g0 H0) as [-> ->], (small_gcode g1 H1) as [-> ->],
      (small_gcode g2 H2) as [-> ->], (small_gcode g3 H3) as [-> ->]. done. }
  rewrite Hgc. unfold pack_small.
  set (bytes := concat (to_le_bytes 4 <$> [g0; g1; g2; g3])).
  assert (Hb : forall g, 0 <= g <= 255 -> to_le_bytes 4 g = [g; 0; 0; 0]).
  { intros g Hgr. unfold to_le_bytes. rewrite !Z.shiftr_shiftr by lia. simpl.
    assert (Hz : forall k, 8 <= k -> Z.shiftr g k = 0).
    { intros k Hk. rewrite Z.shiftr_div_pow2 by lia. apply Z.div_small.
      assert (2 ^ 8 <= 2 ^ k) by (apply Z.pow_le_mono_r; lia). lia. }
    rewrite !Hz by lia. by rewrite wrap_u_id by (unfold in_u; lia). }
  assert (Hbytes : bytes = [g0;0;0;0;g1;0;0;0;g2;0;0;0;g3;0;0;0]).
  { unfold bytes. rewrite !fmap_cons, fmap_nil, !Hb by done. done. }
  rewrite Hbytes. clear bytes Hbytes.
  destruct (Hsw [g0;0;0;0;g1;0;0;0;g2;0;0;0;g3;0;0;0] byte_order eq_refl eq_refl) as [Hlen Hat].
  set (p := swizzle _ byte_order) in *.
  destruct p as [|p0 [|p1 [|p2 [|p3 [|p4 [|p5 [|p6 [|p7 rest]]]]]]]]; simpl in Hlen; try lia.
  pose proof (proj2 (Hat 0%nat 255 eq_refl) ltac:(lia)) as E0.
  pose proof (proj1 (Hat 1%nat 0 eq_refl) ltac:(lia)) as E1.
  pose proof (proj1 (Hat 2%nat 4 eq_refl) ltac:(lia)) as E2.
  pose proof (proj1 (Hat 3%nat 8 eq_refl) ltac:(lia)) as E3.
  pose proof (proj1 (Hat 4%nat 12 eq_refl) ltac:(lia)) as E4.
  pose proof (proj1 (Hat 5%nat 13 eq_refl) ltac:(lia)) as E5.
  pose proof (proj1 (Hat 6%nat 14 eq_refl) ltac:(lia)) as E6.
  pose proof (proj1 (Hat 7%nat 15 eq_refl) ltac:(lia)) as E7.
  simpl in E0, E1, E2, E3, E4, E5, E6, E7. simplify_eq.
  rewrite vslice_ok by (simpl; lia). cbn [rbind].
  destruct (vcopy_take scratch 0 [0; g0; g1; g2; g3; 0; 0; 0] 5) as (s' & Hc & Hl' & Ht & HP);
    simpl; try lia.
  exists s'. split_and!; auto; [by rewrite Hl'|].
  apply HP; [done|]. repeat constructor; unfold in_u; lia.
Qed.

Lemma combined_small g0 g1 g2 g3 :
  Forall (in_s 32) [g0; g1; g2; g3] ->
  as_u32 (Z.lor (Z.lor (Z.lor g0 g1) g2) g3) <= 255 ->
  Forall (fun g => 0 <= g <= 255) [g0; g1; g2; g3].
Proof.
  rewrite !Forall_cons. intros (? & ? & ? & ? & _) Hc.
  pose proof (wrap_u_in 32 (Z.lor (Z.lor (Z.lor g0 g1) g2) g3) ltac:(lia)) as Hu.
  assert (in_u 8 (as_u32 (Z.lor (Z.lor (Z.lor g0 g1) g2) g3))) as H8 by (unfold in_u in *; lia).
  apply small_lor in H8 as [H8 ?]. apply small_lor in H8 as [H8 ?].
  apply small_lor in H8 as [? ?]. 
  do 4 (split; [by apply small_u32|]). constructor.
Qed.

Lemma vget_four {A} (pre post : list A) g0 g1 g2 g3 :
  let vs := pre ++ g0 :: g1 :: g2 :: g3 :: post in
  vget vs (Z.of_nat (length pre)) = Ok g0 /\ vget vs (Z.of_nat (length pre) + 1) = Ok g1 /\
  vget vs (Z.of_nat (length pre) + 2) = Ok g2 /\ vget vs (Z.of_nat (length pre) + 3) = Ok g3.
Proof.
  intros vs. unfold vs. split_and!; [by apply vget_middle|..].
  - apply vget_ok; [lia|]. rewrite lookup_app_r by lia.
    by replace (Z.to_nat _ - _)%nat with 1%nat by lia.
  - apply vget_ok; [lia|]. rewrite lookup_app_r by lia.
    by replace (Z.to_nat _ - _)%nat with 2%nat by lia.
  - apply vget_ok; [lia|]. rewrite lookup_app_r by lia.
    by replace (Z.to_nat _ - _)%nat with 3%nat by lia.
Qed.

Section WriterSpecs.
Context {S : Type} {DO : DataOutput S} {O : DataOutputSpec S}.

Definition scratch_ok (scratch : list Z) : Prop :=
  length scratch = 17%nat /\ Forall (in_u 8) scratch.

Lemma write_scratch scratch n code s :
  scratch_ok scratch -> out_inv s -> n = Z.of_nat (length code) ->
  take (length code) scratch = code -> Z.of_nat (length code) <= room s ->
  appends (write_bytes_with_len scratch n) s code.
Proof.
  intros [Hl Hu] Hi -> Ht Hr. unfold write_bytes_with_len.
  assert (length code <= 17)%nat.
  { rewrite <- Ht, length_take. lia. }
  rewrite <- Ht at 2. rewrite <- (Nat2Z.id (length code)) at 2. rewrite <- (drop_0 scratch) at 2.
  apply (write_bytes_range_spec s scratch 0); auto; lia.
Qed.

(** One round of the 32-bit loop. *)
Lemma write_groups_i32_step swizzle fuel scratch pre g0 g1 g2 g3 post limit s :
  swizzle_documented swizzle -> scratch_ok scratch -> out_inv s ->
  Forall (in_s 32) [g0; g1; g2; g3] -> Z.of_nat (length pre) + 4 <= limit ->
  Z.of_nat (length (group_code g0 g1 g2 g3)) <= room s ->
  exists scratch' s', scratch_ok scratch' /\
    appends (fun _ => (Ok tt, s')) s (group_code g0 g1 g2 g3) /\
    write_groups_i32 swizzle (Datatypes.S fuel) scratch (pre ++ g0 :: g1 :: g2 :: g3 :: post) limit
      (Z.of_nat (length pre)) s
    = write_groups_i32 swizzle fuel scratch' (pre ++ g0 :: g1 :: g2 :: g3 :: post) limit
      (Z.of_nat (length pre) + 4) s'.
Proof.
  intros Hsw Hs Hi Hg Hlim Hr. cbn [write_groups_i32].
  replace (4 <=? limit - Z.of_nat (length pre)) with true by lia.
  destruct (vget_four pre post g0 g1 g2 g3) as (E0 & E1 & E2 & E3).
  unfold sbind at 1, slift at 1. rewrite E0. unfold sbind at 1, slift at 1. rewrite E1.
  unfold sbind at 1, slift at 1. rewrite E2. unfold sbind at 1, slift at 1. rewrite E3.
  destruct (_ && _) eqn:Hc.
  - apply andb_true_iff in Hc as [_ Hc%Z.leb_le].
    pose proof (combined_small g0 g1 g2 g3 Hg Hc) as Hsmall.
    destruct Hs as [Hl Hu8].
    destruct (pack_small_spec swizzle scratch g0 g1 g2 g3 Hsw Hl Hu8 Hsmall)
      as (s1 & -> & Hl1 & Hu1 & Ht & Hlen).
    destruct (write_scratch s1 5 (group_code g0 g1 g2 g3) s) as (s' & Hw & Hi' & Ho & Hr');
      [done|done|lia|by rewrite Hlen|done|].
    exists s1, s'. split_and!; [done| |].
    + exists s'. done.
    + unfold sbind at 1, slift at 1. unfold sbind at 1. by rewrite Hw.
  - destruct Hs as [Hl Hu8].
    destruct (fill_group_spec scratch g0 g1 g2 g3 Hl Hu8) as (s1 & -> & Hl1 & Hu1 & Ht).
    destruct (write_scratch s1 (Z.of_nat (length (group_code g0 g1 g2 g3)))
      (group_code g0 g1 g2 g3) s) as (s' & Hw & Hi' & Ho & Hr'); auto; [done|].
    exists s1, s'. split_and!; [done| |].
    + exists s'. done.
    + unfold sbind at 1, slift at 1. unfold sbind at 1. by rewrite Hw.
Qed.

Lemma to_int_ok w : 0 <= w < 2 ^ 32 -> to_int w = Ok (as_i32 w).
Proof.
  intros. unfold to_int. rewrite wrap_u_id by (unfold in_u; lia).
  by replace (0xFFFFFFFF <? w) with false by lia.
Qed.

(** One round of the 64-bit loop. *)
Lemma write_groups_i64_step fuel scratch pre g0 g1 g2 g3 post limit s :
  scratch_ok scratch -> out_inv s ->
  Forall (fun w => 0 <= w < 2 ^ 32) [g0; g1; g2; g3] -> Z.of_nat (length pre) + 4 <= limit ->
  let code := group_code (as_i32 g0) (as_i32 g1) (as_i32 g2) (as_i32 g3) in
  Z.of_nat (length code) <= room s ->
  exists scratch' s', scratch_ok scratch' /\ appends (fun _ => (Ok tt, s')) s code /\
    write_groups_i64 (Datatypes.S fuel) scratch (pre ++ g0 :: g1 :: g2 :: g3 :: post) limit
      (Z.of_nat (length pre)) s
    = write_groups_i64 fuel scratch' (pre ++ g0 :: g1 :: g2 :: g3 :: post) limit
      (Z.of_nat (length pre) + 4) s'.
Proof.
  intros [Hl Hu8] Hi Hg Hlim code Hr. cbn [write_groups_i64].
  replace (4 <=? limit - Z.of_nat (length pre)) with true by lia.
  rewrite !Forall_cons in Hg. destruct Hg as (H0 & H1 & H2 & H3 & _).
  destruct (vget_four pre post g0 g1 g2 g3) as (E0 & E1 & E2 & E3).
  unfold sbind at 1, slift at 1. rewrite E0. cbn [rbind]. rewrite to_int_ok by done.
  unfold sbind at 1, slift at 1. rewrite E1. cbn [rbind]. rewrite to_int_ok by done.
  unfold sbind at 1, slift at 1. rewrite E2. cbn [rbind]. rewrite to_int_ok by done.
  unfold sbind at 1, slift at 1. rewrite E3. cbn [rbind]. rewrite to_int_ok by done.
  destruct (fill_group_spec scratch (as_i32 g0) (as_i32 g1) (as_i32 g2) (as_i32 g3) Hl Hu8)
    as (s1 & -> & Hl1 & Hu1 & Ht).
  destruct (write_scratch s1 (Z.of_nat (length code)) code s) as (s' & Hw & Hi' & Ho & Hr');
    auto; [done|].
  exists s1, s'. split_and!; [done| |].
  - exists s'. done.
  - unfold sbind at 1, slift at 1. unfold sbind at 1. fold code. by rewrite Hw.
Qed.

(** The tails. *)
Lemma write_tail_spec (tail : nat -> Z -> ST S unit) (ok : Z -> Prop) (enc : Z -> Z) values limit :
  (forall fuel rp, limit <= rp -> tail fuel rp = sret tt) ->
  (forall fuel pre v post s, values = pre ++ v :: post -> Z.of_nat (length pre) < limit -> ok v ->
     tail (Datatypes.S fuel) (Z.of_nat (length pre)) s
     = sbind (write_vint (enc v)) (fun _ => tail fuel (Z.of_nat (length pre) + 1)) s) ->
  forall fuel pre vs post s,
    values = pre ++ vs ++ post -> limit = Z.of_nat (length pre + length vs) ->
    (length vs <= fuel)%nat -> Forall ok vs -> out_inv s ->
    Z.of_nat (length (concat (vint_code <$> (enc <$> vs)))) <= room s ->
    appends (tail fuel (Z.of_nat (length pre))) s (concat (vint_code <$> (enc <$> vs))).
Proof.
  intros Hexit Hstep. induction fuel as [|fuel IH]; intros pre vs post s Hv Hlim Hf Hok Hi Hr.
  - destruct vs; [|simpl in Hf; lia]. simpl in *. rewrite Hexit by lia. by apply appends_nil.
  - destruct vs as [|v vs]; [simpl in *; rewrite Hexit by lia; by apply appends_nil|].
    apply Forall_cons in Hok as [Hokv Hok]. rewrite !fmap_cons in *.
    cbn [concat length app] in *. rewrite length_app in Hr.
    assert (appends (sbind (write_vint (enc v)) (fun _ => tail fuel (Z.of_nat (length pre) + 1))) s
      (vint_code (enc v) ++ concat (vint_code <$> (enc <$> vs)))) as Happ.
    { apply appends_seq; [apply write_vint_spec; [done|lia]|]. intros s' Hi' Hr'.
      replace (Z.of_nat (length pre) + 1) with (Z.of_nat (length (pre ++ [v])))
        by (rewrite length_app; simpl; lia).
      apply (IH (pre ++ [v]) vs post); auto; [|rewrite length_app; simpl; lia|lia..].
      by rewrite Hv, <- app_assoc. }
    destruct Happ as (s' & Hm & Hrest). exists s'. rewrite <- Hm. split; [|done].
    apply (Hstep fuel pre v (vs ++ post)); auto. lia.
Qed.

(** Groups, then the tail. *)
Lemma write_loop_spec (groups : nat -> list Z -> Z -> ST S (list Z * Z)) (tail : nat -> Z -> ST S unit)
    (ok : Z -> Prop) (enc : Z -> Z) values limit :
  (forall fuel scratch rp s, limit - rp < 4 -> groups fuel scratch rp s = (Ok (scratch, rp), s)) ->
  (forall fuel scratch pre g0 g1 g2 g3 post s, values = pre ++ g0 :: g1 :: g2 :: g3 :: post ->
     scratch_ok scratch -> out_inv s -> Forall ok [g0; g1; g2; g3] ->
     Z.of_nat (length pre) + 4 <= limit ->
     let code := group_code (enc g0) (enc g1) (enc g2) (enc g3) in
     Z.of_nat (length code) <= room s ->
     exists scratch' s', scratch_ok scratch' /\ appends (fun _ => (Ok tt, s')) s code /\
       groups (Datatypes.S fuel) scratch (Z.of_nat (length pre)) s
       = groups fuel scratch' (Z.of_nat (length pre) + 4) s') ->
  (forall fuel pre vs post s,
     values = pre ++ vs ++ post -> limit = Z.of_nat (length pre + length vs) ->
     (length vs <= fuel)%nat -> Forall ok vs -> out_inv s ->
     Z.of_nat (length (concat (vint_code <$> (enc <$> vs)))) <= room s ->
     appends (tail fuel (Z.of_nat (length pre))) s (concat (vint_code <$> (enc <$> vs)))) ->
  forall fuel tf scratch pre vs post s,
    values = pre ++ vs ++ post -> limit = Z.of_nat (length pre + length vs) ->
    (length vs <= fuel)%nat -> (length vs <= tf)%nat -> Forall ok vs -> scratch_ok scratch ->
    out_inv s -> Z.of_nat (length (gv_code (enc <$> vs))) <= room s ->
    appends (let* (_, rp) := groups fuel scratch (Z.of_nat (length pre)) in tail tf rp) s
      (gv_code (enc <$> vs)).
Proof.
  intros Hexit Hstep Htail.
  assert (short : forall fuel tf scratch pre vs post s,
    (length vs < 4)%nat -> gv_code (enc <$> vs) = concat (vint_code <$> (enc <$> vs)) ->
    values = pre ++ vs ++ post -> limit = Z.of_nat (length pre + length vs) ->
    (length vs <= tf)%nat -> Forall ok vs -> out_inv s ->
    Z.of_nat (length (gv_code (enc <$> vs))) <= room s ->
    appends (let* (_, rp) := groups fuel scratch (Z.of_nat (length pre)) in tail tf rp) s
      (gv_code (enc <$> vs))).
  { intros fuel tf scratch pre vs post s Hl4 Heq Hv Hlim Htf Hok Hi Hr. rewrite Heq in *.
    destruct (Htail tf pre vs post s) as (s' & Ht & Hrest); auto.
    exists s'. split; [|done]. unfold sbind. by rewrite Hexit by lia. }
  induction fuel as [|fuel IH];
    intros tf scratch pre vs post s Hv Hlim Hf Htf Hok Hs Hi Hr.
  { destruct vs; [|simpl in Hf; lia]. eapply short; eauto; simpl in *; lia || done. }
  destruct vs as [|g0 [|g1 [|g2 [|g3 vs]]]].
  5: { rewrite !fmap_cons in *. cbn [gv_code] in *. rewrite length_app in Hr. simpl in Hlim, Hf, Htf.
    change (Forall ok ([g0; g1; g2; g3] ++ vs)) in Hok. apply Forall_app in Hok as [Hok4 Hok].
    destruct (Hstep fuel scratch pre g0 g1 g2 g3 (vs ++ post) s)
      as (scratch' & s1 & Hs' & (s1' & Heq & Hi1 & Ho1 & Hr1) & Hg); auto; [lia..|].
    injection Heq as <-.
    destruct (IH tf scratch' (pre ++ [g0; g1; g2; g3]) vs post s1) as (s2 & H2 & Hi2 & Ho2 & Hr2);
      auto; rewrite ?length_app; simpl length; try lia; [by rewrite Hv, <- app_assoc|].
    exists s2. rewrite length_app in H2. simpl length in H2. rewrite Nat2Z.inj_add in H2.
    split_and!; auto.
    - unfold sbind in *. rewrite Hg. exact H2.
    - by rewrite Ho2, Ho1, app_assoc.
    - rewrite length_app. lia. }
  all: eapply short; eauto; simpl in *; lia || done.
Qed.


Lemma group_vint_bytes_ok : scratch_ok group_vint_bytes.
Proof. split; [done|]. apply Forall_replicate. unfold in_u. lia. Qed.

Lemma write_group_vints_i32_spec swizzle scratch vs post s :
  swizzle_documented swizzle -> scratch_ok scratch -> Forall (in_s 32) vs -> out_inv s ->
  Z.of_nat (length (gv_code vs)) <= room s ->
  appends (write_group_vints_i32 swizzle scratch (vs ++ post) (Z.of_nat (length vs))) s (gv_code vs).
Proof.
  intros Hsw Hs Hok Hi Hr. rewrite <- (list_fmap_id vs) in Hr |- * at 3.
  apply (write_loop_spec
    (fun fuel scratch rp => write_groups_i32 swizzle fuel scratch (vs ++ post) (Z.of_nat (length vs)) rp)
    (fun fuel rp => write_tail_i32 fuel (vs ++ post) (Z.of_nat (length vs)) rp)
    (in_s 32) id (vs ++ post) (Z.of_nat (length vs))) with (pre := []) (post := post);
    rewrite ?Nat2Z.id; auto.
  - intros fuel sc rp s' H. by destruct fuel; simpl; replace (4 <=? _) with false by lia.
  - intros fuel sc pre g0 g1 g2 g3 post' s' Heq Hsc Hi' Hg Hlim code Hr'. rewrite Heq.
    by apply write_groups_i32_step.
  - apply (write_tail_spec (fun fuel rp =>
      write_tail_i32 fuel (vs ++ post) (Z.of_nat (length vs)) rp) (in_s 32) id).
    + intros [] rp H; simpl; by replace (rp <? _) with false by lia.
    + intros fuel pre v post' s' Heq Hlt Hv. cbn [write_tail_i32].
      replace (Z.of_nat (length pre) <? Z.of_nat (length vs)) with true by lia.
      rewrite Heq. unfold sbind at 1, slift. by rewrite vget_middle.
Qed.

Lemma write_group_vints_i64_spec scratch ws post s :
  scratch_ok scratch -> Forall (fun w => 0 <= w < 2 ^ 32) ws -> out_inv s ->
  Z.of_nat (length (gv_code (wrap_s 32 <$> ws))) <= room s ->
  appends (write_group_vints_i64 scratch (ws ++ post) (Z.of_nat (length ws))) s
    (gv_code (wrap_s 32 <$> ws)).
Proof.
  intros Hs Hok Hi Hr.
  apply (write_loop_spec
    (fun fuel scratch rp => write_groups_i64 fuel scratch (ws ++ post) (Z.of_nat (length ws)) rp)
    (fun fuel rp => write_tail_i64 fuel (ws ++ post) (Z.of_nat (length ws)) rp)
    (fun w => 0 <= w < 2 ^ 32) (wrap_s 32) (ws ++ post) (Z.of_nat (length ws)))
    with (pre := []) (post := post); rewrite ?Nat2Z.id; auto.
  - intros fuel sc rp s' H. by destruct fuel; simpl; replace (4 <=? _) with false by lia.
  - intros fuel sc pre g0 g1 g2 g3 post' s' Heq Hsc Hi' Hg Hlim code Hr'. rewrite Heq.
    by apply write_groups_i64_step.
  - apply (write_tail_spec (fun fuel rp =>
      write_tail_i64 fuel (ws ++ post) (Z.of_nat (length ws)) rp)
      (fun w => 0 <= w < 2 ^ 32) (wrap_s 32)).
    + intros [] rp H; simpl; by replace (rp <? _) with false by lia.
    + intros fuel pre v post' s' Heq Hlt Hv. cbn [write_tail_i64].
      replace (Z.of_nat (length pre) <? Z.of_nat (length ws)) with true by lia.
      rewrite Heq. unfold sbind at 1, slift. rewrite vget_middle by done. cbn [rbind].
      by rewrite to_int_ok.
Qed.


(** * Values out of range *)

Definition u32_ok (w : Z) : Prop := 0 <= w < 2 ^ 32.

Lemma to_int_bad w : in_s 64 w -> ~ u32_ok w -> to_int w = Err NumberOverflow.
Proof.
  unfold in_s, u32_ok. intros Hw Hb. unfold to_int.
  replace (0xFFFFFFFF <? as_u64 w) with true; [done|]. symmetry. apply Z.ltb_lt.
  unfold wrap_u. destruct (decide (0 <= w)).
  - rewrite Z.mod_small by lia. lia.
  - rewrite <- (Z_mod_plus_full w 1), Z.mod_small by lia. lia.
Qed.

Lemma write_tail_i64_rejects fuel values limit : forall pre vs post s,
  values = pre ++ vs ++ post -> limit = Z.of_nat (length pre + length vs) ->
  (length vs <= fuel)%nat -> Forall (in_s 64) vs -> Exists (fun w => ~ u32_ok w) vs ->
  out_inv s -> 5 * Z.of_nat (length vs) <= room s ->
  exists s' partial, write_tail_i64 fuel values limit (Z.of_nat (length pre)) s
    = (Err NumberOverflow, s') /\ out s' = out s ++ partial.
Proof.
  induction fuel as [|fuel IH]; intros pre vs post s Hv Hlim Hf Hok Hbad Hi Hr.
  { destruct vs; [by apply Exists_nil in Hbad|simpl in Hf; lia]. }
  destruct vs as [|v vs]; [by apply Exists_nil in Hbad|].
  apply Forall_cons in Hok as [Hokv Hok]. cbn [write_tail_i64 length] in *.
  replace (Z.of_nat (length pre) <? limit) with true by lia.
  assert (vget values (Z.of_nat (length pre)) = Ok v) as Hget by (rewrite Hv; by apply vget_middle).
  unfold sbind at 1, slift. rewrite Hget. cbn [rbind].
  destruct (decide (0 <= v < 2 ^ 32)) as [Hin|Hout].
  2: { rewrite to_int_bad by done. exists s, []. by rewrite app_nil_r. }
  rewrite to_int_ok by done. unfold sbind at 1.
  pose proof (vcode_length 5 (as_u32 (as_i32 v))).
  destruct (write_vint_spec (as_i32 v) s) as (s1 & Hw & Hi1 & Ho1 & Hr1);
    [done|unfold vint_code; lia|].
  rewrite Hw. apply Exists_cons in Hbad as [Hb|Hbad]; [done|].
  destruct (IH (pre ++ [v]) vs post s1) as (s2 & q & H2 & Ho2); auto;
    rewrite ?length_app; simpl; try (unfold vint_code in Hr1; lia).
  { by rewrite Hv, <- app_assoc. }
  exists s2, (vint_code (as_i32 v) ++ q). rewrite Ho2, Ho1, app_assoc. split; [|done].
  rewrite <- H2, length_app. f_equal. simpl. lia.
Qed.

Lemma four_bad fuel scratch pre g0 g1 g2 g3 post limit s :
  Forall (in_s 64) [g0; g1; g2; g3] -> Exists (fun w => ~ u32_ok w) [g0; g1; g2; g3] ->
  Z.of_nat (length pre) + 4 <= limit ->
  write_groups_i64 (Datatypes.S fuel) scratch (pre ++ g0 :: g1 :: g2 :: g3 :: post) limit
    (Z.of_nat (length pre)) s = (Err NumberOverflow, s).
Proof.
  intros Hin Hbad Hlim. cbn [write_groups_i64].
  replace (4 <=? limit - Z.of_nat (length pre)) with true by lia.
  destruct (vget_four pre post g0 g1 g2 g3) as (E0 & E1 & E2 & E3).
  rewrite E0, E1, E2, E3. cbn [rbind]. unfold sbind, slift.
  rewrite !Forall_cons in Hin. destruct Hin as (H0 & H1 & H2 & H3 & _).
  destruct (decide (0 <= g0 < 2 ^ 32)); [rewrite (to_int_ok g0) by done|by rewrite (to_int_bad g0)].
  destruct (decide (0 <= g1 < 2 ^ 32)); [rewrite (to_int_ok g1) by done|by rewrite (to_int_bad g1)].
  destruct (decide (0 <= g2 < 2 ^ 32)); [rewrite (to_int_ok g2) by done|by rewrite (to_int_bad g2)].
  destruct (decide (0 <= g3 < 2 ^ 32)); [rewrite (to_int_ok g3) by done|by rewrite (to_int_bad g3)].
  rewrite !Exists_cons in Hbad. destruct_or!; try done. by apply Exists_nil in Hbad.
Qed.

Lemma write_group_vints_i64_rejects values limit tf : forall fuel scratch pre vs post s,
  values = pre ++ vs ++ post -> limit = Z.of_nat (length pre + length vs) ->
  (length vs <= fuel)%nat -> (length vs <= tf)%nat -> Forall (in_s 64) vs ->
  Exists (fun w => ~ u32_ok w) vs -> scratch_ok scratch ->
  out_inv s -> 17 * Z.of_nat (length vs) <= room s ->
  exists s' partial,
    (let* (_, rp) := write_groups_i64 fuel scratch values limit (Z.of_nat (length pre)) in
     write_tail_i64 tf values limit rp) s = (Err NumberOverflow, s') /\ out s' = out s ++ partial.
Proof.
  induction fuel as [|fuel IH]; intros scratch pre vs post s Hv Hlim Hf Htf Hok Hbad Hs Hi Hr.
  { destruct vs; [by apply Exists_nil in Hbad|simpl in Hf; lia]. }
  destruct (decide (length vs < 4)%nat) as [Hshort|Hlong].
  { unfold sbind. cbn [write_groups_i64].
    replace (4 <=? limit - Z.of_nat (length pre)) with false by lia.
    eapply write_tail_i64_rejects; eauto. lia. }
  destruct vs as [|g0 [|g1 [|g2 [|g3 vs]]]]; simpl in Hlong; try lia.
  change (Forall (in_s 64) ([g0; g1; g2; g3] ++ vs)) in Hok. apply Forall_app in Hok as [Hok4 Hok].
  cbn [app length] in *.
  destruct (decide (Forall u32_ok [g0; g1; g2; g3])) as [Hgood|Hnot].
  2: { exists s, []. rewrite app_nil_r. split; [|done]. unfold sbind.
    rewrite Hv at 1. rewrite four_bad; [done|done| |lia]. apply not_Forall_Exists in Hnot; [exact Hnot|apply _]. }
  change (Exists (fun w => ~ u32_ok w) ([g0; g1; g2; g3] ++ vs)) in Hbad.
  apply Exists_app in Hbad as [Hb4|Hbad].
  { exfalso. rewrite Exists_exists in Hb4. rewrite Forall_forall in Hgood.
    destruct Hb4 as (w & Hw & Hnw). exact (Hnw (Hgood w Hw)). }
  pose proof (group_code_length (as_i32 g0) (as_i32 g1) (as_i32 g2) (as_i32 g3)).
  pose proof (num_bytes_spec (as_i32 g0)). pose proof (num_bytes_spec (as_i32 g1)).
  pose proof (num_bytes_spec (as_i32 g2)). pose proof (num_bytes_spec (as_i32 g3)).
  destruct (write_groups_i64_step fuel scratch pre g0 g1 g2 g3 (vs ++ post) limit s)
    as (scratch' & s1 & Hs' & (s1' & Heq & Hi1 & Ho1 & Hr1) & Hg); auto; [lia..|].
  injection Heq as <-.
  destruct (IH scratch' (pre ++ [g0; g1; g2; g3]) vs post s1) as (s2 & q & Hq & Ho2);
    auto; rewrite ?length_app; simpl length; try lia; [by rewrite Hv, <- app_assoc|].
  eexists s2, (_ ++ q). rewrite Ho2, Ho1, app_assoc. split; [|done].
  rewrite length_app in Hq. simpl length in Hq. rewrite Nat2Z.inj_add in Hq.
  rewrite <- Hv in Hg. rewrite <- Hq. unfold sbind. by rewrite Hg.
Qed.

End WriterSpecs.

(** * The readers read the code *)

Lemma vset_off {A} (pre mid post : list A) x y i :
  i = Z.of_nat (length pre) + Z.of_nat (length mid) ->
  vset (pre ++ mid ++ x :: post) i y = Ok (pre ++ mid ++ y :: post).
Proof.
  intros ->. rewrite !app_assoc. apply vset_middle. rewrite length_app. lia.
Qed.

Section ReaderSpecs.
Context {S : Type} {DI : DataInput S} {I : DataInputSpec S}.

Lemma consumes_bytes {A} (m : ST S A) s bs a :
  (Forall (in_u 8) bs -> consumes m s bs a) -> consumes m s bs a.
Proof.
  intros H rest Hi Ha. apply H; auto.
  pose proof (avail_in_u s Hi) as Hu. rewrite Ha in Hu. by apply Forall_app in Hu as [? _].
Qed.

Lemma consumes_ext {A} (m m' : ST S A) s bs a :
  m s = m' s -> consumes m' s bs a -> consumes m s bs a.
Proof. intros He H rest Hi Ha. rewrite He. by apply H. Qed.

Lemma consumes_ok {A B} (r : A) (k : A -> ST S B) s bs b :
  consumes (k r) s bs b -> consumes (sbind (slift (Ok r)) k) s bs b.
Proof. apply consumes_ext. done. Qed.

Lemma read_last {A B} (m : ST S A) (k : A -> ST S B) s bs a b :
  consumes m s bs a -> (forall s', consumes (k a) s' [] b) -> consumes (sbind m k) s bs b.
Proof. intros Hm Hk. rewrite <- (app_nil_r bs). by eapply read_seq. Qed.

Lemma le_value_16 b1 b2 : in_u 8 b1 -> in_u 8 b2 -> in_u 16 (le_value [b1; b2]).
Proof. intros. apply (le_value_in_u [b1; b2]). rewrite !Forall_cons. auto. Qed.

Lemma read_int_in_group_spec n s bs :
  0 <= n < 4 -> Z.of_nat (length bs) = 1 + n ->
  consumes (read_int_in_group n) s bs (as_i32 (le_value bs)).
Proof.
  intros Hn Hl. apply consumes_bytes. intros Hu.
  assert (n = 0 \/ n = 1 \/ n = 2 \/ n = 3) as Hc by lia. unfold read_int_in_group.
  destruct_or!; subst n; cbn [Z.eqb].
  - destruct bs as [|b []]; simpl in Hl; try lia. apply Forall_cons in Hu as [Hb _].
    cbn [le_value]. rewrite Z.shiftl_0_l, Z.lor_0_r.
    rewrite wrap_s_id by (unfold in_u, in_s in *; lia). apply read_byte_spec.
  - destruct bs as [|b1 [|b2 []]]; simpl in Hl; try lia.
    rewrite !Forall_cons in Hu. destruct Hu as (H1 & H2 & _).
    pose proof (le_value_16 b1 b2 H1 H2) as H16.
    assert (as_i32 (le_value [b1; b2]) = as_u16 (from_le_bytes [b1; b2])) as ->.
    { unfold from_le_bytes. cbn [length]. change (8 * Z.of_nat 2) with 16.
      rewrite wrap_u_wrap_s, wrap_u_id by (lia || done).
      apply wrap_s_id; unfold in_u, in_s in *; lia. }
    apply read_map. by apply read_short_spec.
  - destruct bs as [|b1 [|b2 [|b3 []]]]; simpl in Hl; try lia.
    rewrite !Forall_cons in Hu. destruct Hu as (H1 & H2 & _).
    pose proof (le_value_16 b1 b2 H1 H2) as H16.
    assert (as_i32 (le_value [b1; b2; b3])
      = as_i32 (Z.lor (as_u16 (from_le_bytes [b1; b2])) (Z.shiftl b3 16))) as ->.
    { f_equal. unfold from_le_bytes. cbn [length]. change (8 * Z.of_nat 2) with 16.
      rewrite wrap_u_wrap_s, wrap_u_id by (lia || done).
      change [b1; b2; b3] with ([b1; b2] ++ [b3]). rewrite le_value_app. f_equal.
      cbn [le_value length]. rewrite Z.shiftl_0_l, Z.lor_0_r. done. }
    apply (read_seq _ _ _ [b1; b2] [b3] (from_le_bytes [b1; b2])); [by apply read_short_spec|].
    intros s'. apply (read_map _ (fun b => as_i32 (Z.lor (as_u16 (from_le_bytes [b1; b2])) (Z.shiftl b 16)))).
    apply read_byte_spec.
  - assert (length bs = 4%nat) as Hl4 by lia.
    assert (as_i32 (le_value bs) = from_le_bytes bs) as ->.
    { unfold from_le_bytes. by rewrite Hl4. }
    by apply read_int_spec.
Qed.

(** A group of bytes under any flag. *)
Lemma read_group_spec conv f b1 b2 b3 b4 pre x1 x2 x3 x4 post s :
  in_u 8 f ->
  Z.of_nat (length b1) = 1 + Z.shiftr f 6 ->
  Z.of_nat (length b2) = 1 + Z.land (Z.shiftr f 4) 3 ->
  Z.of_nat (length b3) = 1 + Z.land (Z.shiftr f 2) 3 ->
  Z.of_nat (length b4) = 1 + Z.land f 3 ->
  let v b := conv (as_i32 (le_value b)) in
  consumes (read_group conv (pre ++ x1 :: x2 :: x3 :: x4 :: post) (Z.of_nat (length pre))) s
    (f :: b1 ++ b2 ++ b3 ++ b4) (pre ++ v b1 :: v b2 :: v b3 :: v b4 :: post).
Proof.
  intros Hf H1 H2 H3 H4 v. destruct (flag_bounds f Hf) as (B1 & B2 & B3 & B4).
  unfold read_group. apply (read_seq _ _ _ [f] (b1 ++ b2 ++ b3 ++ b4) f); [apply read_byte_spec|].
  intros s1. cbv zeta.
  apply (read_seq _ _ _ b1 _ (as_i32 (le_value b1))); [by apply read_int_in_group_spec|].
  intros s2. rewrite vset_middle by done. apply consumes_ok. fold (v b1).
  apply (read_seq _ _ _ b2 _ (as_i32 (le_value b2))); [by apply read_int_in_group_spec|].
  intros s3. fold (v b2).
  rewrite (vset_off pre [v b1] (x3 :: x4 :: post) x2) by (simpl; lia).
  apply consumes_ok.
  apply (read_seq _ _ _ b3 _ (as_i32 (le_value b3))); [by apply read_int_in_group_spec|].
  intros s4. fold (v b3). rewrite (vset_off pre [v b1; v b2] (x4 :: post) x3) by (simpl; lia).
  apply consumes_ok.
  apply (read_last _ _ _ b4 (as_i32 (le_value b4))); [by apply read_int_in_group_spec|].
  intros s5. fold (v b4). rewrite (vset_off pre [v b1; v b2; v b3] post x4) by (simpl; lia).
  apply read_ret.
Qed.

Lemma read_group_code conv v1 v2 v3 v4 pre x1 x2 x3 x4 post s :
  Forall (in_s 32) [v1; v2; v3; v4] ->
  consumes (read_group conv (pre ++ x1 :: x2 :: x3 :: x4 :: post) (Z.of_nat (length pre))) s
    (group_code v1 v2 v3 v4) (pre ++ conv v1 :: conv v2 :: conv v3 :: conv v4 :: post).
Proof.
  rewrite !Forall_cons. intros (H1 & H2 & H3 & H4 & _).
  pose proof (num_bytes_spec v1). pose proof (num_bytes_spec v2).
  pose proof (num_bytes_spec v3). pose proof (num_bytes_spec v4).
  destruct (flag_fields (num_bytes v1 - 1) (num_bytes v2 - 1) (num_bytes v3 - 1)
    (num_bytes v4 - 1)) as (Hf & F1 & F2 & F3 & F4); [lia..|].
  pose proof (read_group_spec conv _ (gcode v1) (gcode v2) (gcode v3) (gcode v4) pre x1 x2 x3 x4
    post s Hf) as Hr. cbv beta zeta in Hr. rewrite !gcode_value in Hr by done.
  apply Hr; rewrite gcode_length; lia.
Qed.

Lemma read_tail_spec (one : ST S Z) (conv : Z -> Z) :
  (forall v s, in_s 32 v -> consumes one s (vint_code v) (conv v)) ->
  forall fuel pre xs vs post s limit,
    length xs = length vs -> limit = Z.of_nat (length pre + length vs) ->
    (length vs <= fuel)%nat -> Forall (in_s 32) vs ->
    consumes (read_tail fuel one (pre ++ xs ++ post) limit (Z.of_nat (length pre))) s
      (concat (vint_code <$> vs)) (pre ++ (conv <$> vs) ++ post).
Proof.
  intros Hone. induction fuel as [|fuel IH]; intros pre xs vs post s limit Hl Hlim Hf Hok;
    destruct vs as [|v vs], xs as [|x xs]; simpl in Hl, Hf; try lia;
    simpl in Hlim; cbn [read_tail].
  1, 2: replace (_ <? limit) with false by lia; apply read_ret.
  apply Forall_cons in Hok as [Hv Hok]. replace (_ <? limit) with true by lia.
  rewrite !fmap_cons. cbn [concat app].
  apply (read_seq _ _ _ (vint_code v) _ (conv v)); [by apply Hone|]. intros s'.
  rewrite vset_middle by done. apply consumes_ok.
  specialize (IH (pre ++ [conv v]) xs vs post s' limit ltac:(lia)).
  rewrite <- !app_assoc, length_app in IH. simpl in IH.
  replace (Z.of_nat (length pre) + 1) with (Z.of_nat (length pre + 1)) by lia.
  apply IH; auto; lia.
Qed.

Lemma read_loop_spec (group : list Z -> Z -> ST S (list Z)) (one : ST S Z) (conv : Z -> Z) :
  (forall v1 v2 v3 v4 pre x1 x2 x3 x4 post s, Forall (in_s 32) [v1; v2; v3; v4] ->
     consumes (group (pre ++ x1 :: x2 :: x3 :: x4 :: post) (Z.of_nat (length pre))) s
       (group_code v1 v2 v3 v4) (pre ++ conv v1 :: conv v2 :: conv v3 :: conv v4 :: post)) ->
  (forall v s, in_s 32 v -> consumes one s (vint_code v) (conv v)) ->
  forall fuel tf pre xs vs post s limit,
    length xs = length vs -> limit = Z.of_nat (length pre + length vs) ->
    (length vs <= fuel)%nat -> (length vs <= tf)%nat -> Forall (in_s 32) vs ->
    consumes (let* (dst, i) := read_groups fuel group (pre ++ xs ++ post) limit
                (Z.of_nat (length pre)) in read_tail tf one dst limit i) s
      (gv_code vs) (pre ++ (conv <$> vs) ++ post).
Proof.
  intros Hgroup Hone. pose proof (read_tail_spec one conv Hone) as Htail.
  assert (short : forall fuel tf pre xs vs post s limit,
    (length vs < 4)%nat -> gv_code vs = concat (vint_code <$> vs) ->
    length xs = length vs -> limit = Z.of_nat (length pre + length vs) ->
    (length vs <= tf)%nat -> Forall (in_s 32) vs ->
    consumes (let* (dst, i) := read_groups fuel group (pre ++ xs ++ post) limit
                (Z.of_nat (length pre)) in read_tail tf one dst limit i) s
      (gv_code vs) (pre ++ (conv <$> vs) ++ post)).
  { intros fuel tf pre xs vs post s limit H4 -> Hl Hlim Htf Hok.
    apply (consumes_ext _ (read_tail tf one (pre ++ xs ++ post) limit (Z.of_nat (length pre))));
      [|by apply Htail].
    unfold sbind. destruct fuel; simpl; by replace (_ <=? limit) with false by lia. }
  induction fuel as [|fuel IH]; intros tf pre xs vs post s limit Hl Hlim Hf Htf Hok.
  { destruct vs; [|simpl in Hf; lia]. apply short; simpl in *; lia || done. }
  destruct vs as [|v1 [|v2 [|v3 [|v4 vs]]]].
  1, 2, 3, 4: apply short; simpl in *; lia || done.
  destruct xs as [|x1 [|x2 [|x3 [|x4 xs]]]]; simpl in Hl, Hlim, Hf, Htf; try lia.
  change (Forall (in_s 32) ([v1; v2; v3; v4] ++ vs)) in Hok. apply Forall_app in Hok as [Hok4 Hok].
  cbn [gv_code app]. rewrite !fmap_cons.
  set (pre' := pre ++ [conv v1; conv v2; conv v3; conv v4]).
  apply (consumes_ext _
    (let* dst := group (pre ++ x1 :: x2 :: x3 :: x4 :: xs ++ post) (Z.of_nat (length pre)) in
     let* (dst, i) := read_groups fuel group dst limit (Z.of_nat (length pre')) in
     read_tail tf one dst limit i)).
  { unfold sbind. cbn [read_groups]. replace (_ <=? limit) with true by lia.
    replace (Z.of_nat (length pre) + 4) with (Z.of_nat (length pre'))
      by (unfold pre'; rewrite length_app; simpl; lia).
    unfold sbind. by destruct (group _ _ s) as [[] ?]. }
  apply (read_seq _ _ _ (group_code v1 v2 v3 v4) _
    (pre ++ conv v1 :: conv v2 :: conv v3 :: conv v4 :: xs ++ post)); [by apply Hgroup|].
  intros s'. specialize (IH tf pre' xs vs post s' limit ltac:(lia)).
  unfold pre' in *. rewrite <- !app_assoc, length_app in IH. rewrite length_app.
  apply IH; auto; simpl; lia.
Qed.

End ReaderSpecs.

Lemma gv_code_length vs : (length (gv_code vs) <= 5 * length vs)%nat.
Proof.
  remember (length vs) as n eqn:Hn. revert vs Hn.
  induction (lt_wf n) as [n _ IH]. intros vs Hn.
  destruct vs as [|v1 [|v2 [|v3 [|v4 vs]]]]; cbn [gv_code]; simpl length in Hn.
  5: { rewrite length_app. pose proof (group_code_length v1 v2 v3 v4).
    pose proof (num_bytes_spec v1). pose proof (num_bytes_spec v2).
    pose proof (num_bytes_spec v3). pose proof (num_bytes_spec v4).
    specialize (IH (length vs) ltac:(lia) vs eq_refl). lia. }
  all: rewrite ?fmap_cons, ?fmap_nil; cbn [concat]; rewrite ?length_app; unfold vint_code;
    repeat match goal with |- context [vcode 5 ?u] =>
      pose proof (vcode_length 5 u); generalize dependent (vcode 5 u); intros end; simpl; lia.
Qed.

Lemma u32_back ws : Forall u32_ok ws -> wrap_u 32 <$> (wrap_s 32 <$> ws) = ws.
Proof.
  induction 1 as [|w ws Hw _ IH]; [done|]. rewrite !fmap_cons, IH.
  by rewrite wrap_u_wrap_s, wrap_u_id by (lia || done).
Qed.

(** C19: Group-varint encoding loses nothing. [write_group_vints_i32] (with its vector
    path for groups of one-byte values) and [write_group_vints_i64] succeed whenever
    five bytes per value fit, and the bulk readers give back the values in order, leave
    the rest of the destination array as it was and stop just behind the code. *)
Theorem group_vint_roundtrip {SO SI} {DO : DataOutput SO} {O : DataOutputSpec SO}
    {DI : DataInput SI} {I : DataInputSpec SI} swizzle vs ws (s : SO) (fuel : nat) :
  swizzle_documented swizzle -> Forall (in_s 32) vs -> Forall u32_ok ws -> (5 <= fuel)%nat ->
  out_inv s -> 5 * Z.of_nat (length vs) <= room s -> 5 * Z.of_nat (length ws) <= room s ->
  (exists s' code,
     data_output_write_group_vints_i32 swizzle vs (Z.of_nat (length vs)) s = (Ok tt, s') /\
     out s' = out s ++ code /\ forall (r : SI) dst rest,
       in_inv r -> avail r = code ++ rest -> (length vs <= length dst)%nat ->
       exists r', read_group_vints_i32 read_group_vint_i32 fuel dst (Z.of_nat (length vs)) r
           = (Ok (vs ++ drop (length vs) dst), r') /\ avail r' = rest) /\
  (exists s' code,
     data_output_write_group_vints_i64 ws (Z.of_nat (length ws)) s = (Ok tt, s') /\
     out s' = out s ++ code /\ forall (r : SI) dst rest,
       in_inv r -> avail r = code ++ rest -> (length ws <= length dst)%nat ->
       exists r', read_group_vints_i64 fuel dst (Z.of_nat (length ws)) r
           = (Ok (ws ++ drop (length ws) dst), r') /\ avail r' = rest).
Proof.
  intros Hsw Hvs Hws Hf Hi Hr1 Hr2. split.
  - pose proof (gv_code_length vs).
    destruct (write_group_vints_i32_spec swizzle group_vint_bytes vs [] s)
      as (s' & Hw & _ & Ho & _); auto using group_vint_bytes_ok; [lia|].
    rewrite app_nil_r in Hw. exists s', (gv_code vs). split_and!; auto.
    intros r dst rest Hir Har Hl.
    destruct (read_loop_spec read_group_vint_i32 (read_vint fuel) (fun v => v)
      ltac:(apply read_group_code) ltac:(intros; by apply read_vint_spec)
      (length vs) (length vs) [] (take (length vs) dst) vs (drop (length vs) dst) r
      (Z.of_nat (length vs))) with (rest := rest) as (r' & Hrd & _ & Ha');
      auto; [rewrite length_take; lia|].
    exists r'. rewrite list_fmap_id in Hrd. rewrite take_drop in Hrd.
    unfold read_group_vints_i32. rewrite Nat2Z.id. auto.
  - pose proof (gv_code_length (wrap_s 32 <$> ws)) as Hlen. rewrite length_fmap in Hlen.
    destruct (write_group_vints_i64_spec group_vint_bytes ws [] s)
      as (s' & Hw & _ & Ho & _); auto using group_vint_bytes_ok; [lia|].
    rewrite app_nil_r in Hw. eexists s', _. split_and!; [exact Hw|exact Ho|].
    intros r dst rest Hir Har Hl.
    destruct (read_loop_spec read_group_vint_i64 (let* v := read_vint fuel in sret (as_u32 v))
      (wrap_u 32) ltac:(apply read_group_code)
      ltac:(intros; by apply (read_map _ (wrap_u 32)), read_vint_spec)
      (length ws) (length ws) [] (take (length ws) dst) (wrap_s 32 <$> ws) (drop (length ws) dst) r
      (Z.of_nat (length ws))) with (rest := rest) as (r' & Hrd & _ & Ha');
      rewrite ?length_fmap; auto; [rewrite length_take; lia| |].
    { apply Forall_fmap, Forall_true. intros. apply wrap_s_in. lia. }
    exists r'. rewrite take_drop in Hrd. unfold read_group_vints_i64. rewrite Nat2Z.id.
    rewrite u32_back in Hrd by done. auto.
Qed.

(** A swizzle as the documentation has it. *)
Definition swizzle_reference (bytes order : list Z) : list Z :=
  (fun o => if o <? 16 then default 0 (bytes !! Z.to_nat o) else 0) <$> order.

Lemma swizzle_reference_documented : swizzle_documented swizzle_reference.
Proof.
  intros bytes order Hb Ho. unfold swizzle_reference. split; [by rewrite length_fmap|].
  intros i o Hi. rewrite list_lookup_fmap, Hi. simpl. split; intros Hr.
  - replace (o <? 16) with true by lia.
    destruct (lookup_lt_is_Some_2 bytes (Z.to_nat o)) as [x ->]; [lia|done].
  - by replace (o <? 16) with false by lia.
Qed.

Definition sample32 : list Z := [1; 2; 3; 255; -1; 70000; 0; 300; 5].
Definition sample64 : list Z := [4294967295; 0; 16777216; 65536; 9].

Lemma group_vint_roundtrip_witness :
  (exists s' code,
     data_output_write_group_vints_i32 swizzle_reference sample32 9
       GrowableByteArrayDataOutput.new = (Ok tt, s') /\
     out s' = out GrowableByteArrayDataOutput.new ++ code /\
     forall (r : ByteArrayDataInput.t) dst rest,
       in_inv r -> avail r = code ++ rest -> (9 <= length dst)%nat ->
       exists r', read_group_vints_i32 read_group_vint_i32 5 dst 9 r
           = (Ok (sample32 ++ drop 9 dst), r') /\ avail r' = rest) /\
  (exists s' code,
     data_output_write_group_vints_i64 sample64 5 GrowableByteArrayDataOutput.new = (Ok tt, s') /\
     out s' = out GrowableByteArrayDataOutput.new ++ code /\
     forall (r : ByteArrayDataInput.t) dst rest,
       in_inv r -> avail r = code ++ rest -> (5 <= length dst)%nat ->
       exists r', read_group_vints_i64 5 dst 5 r = (Ok (sample64 ++ drop 5 dst), r') /\
         avail r' = rest).
Proof.
  apply (group_vint_roundtrip (SI := ByteArrayDataInput.t) swizzle_reference sample32 sample64
    GrowableByteArrayDataOutput.new 5).
  - apply swizzle_reference_documented.
  - unfold sample32. rewrite !Forall_cons. unfold in_s. split_and!; try lia. constructor.
  - unfold sample64. rewrite !Forall_cons. unfold u32_ok. split_and!; try lia. constructor.
  - lia.
  - vm_compute. split; congruence.
  - vm_compute. congruence.
  - vm_compute. congruence.
Defined.

(** C34: [write_group_vints_i64] refuses a value outside of the unsigned 32-bit range,
    wherever it stands, with a number overflow error; what is already written is a
    prefix of the output, nothing of it is changed. *)
Theorem group_vint_rejects_overflow {SO} {DO : DataOutput SO} {O : DataOutputSpec SO} ws (s : SO) :
  Forall (in_s 64) ws -> Exists (fun w => ~ (0 <= w < 2 ^ 32)) ws ->
  out_inv s -> 17 * Z.of_nat (length ws) <= room s ->
  exists s' partial,
    data_output_write_group_vints_i64 ws (Z.of_nat (length ws)) s = (Err NumberOverflow, s') /\
    out s' = out s ++ partial.
Proof.
  intros Hin Hbad Hi Hr.
  unfold data_output_write_group_vints_i64, write_group_vints_i64. rewrite Nat2Z.id.
  apply (write_group_vints_i64_rejects ws _ (length ws) (length ws) group_vint_bytes [] ws []);
    auto using group_vint_bytes_ok. by rewrite app_nil_r.
Qed.

Lemma group_vint_rejects_overflow_witness :
  exists s' partial,
    data_output_write_group_vints_i64 [1; 2; 3; 4; 5; -7; 6; 8] 8 GrowableByteArrayDataOutput.new
    = (Err NumberOverflow, s') /\ out s' = out GrowableByteArrayDataOutput.new ++ partial.
Proof.
  apply (group_vint_rejects_overflow [1; 2; 3; 4; 5; -7; 6; 8] GrowableByteArrayDataOutput.new).
  - rewrite !Forall_cons. unfold in_s. split_and!; try lia. constructor.
  - do 5 apply Exists_cons_tl. apply Exists_cons_hd. lia.
  - vm_compute. split; congruence.
  - vm_compute. congruence.
Defined.

(** * The fast path *)

(** What a client of [IntReader] relies on: [int_read] at the current position plus [k]
    sees the available bytes from the [k]th on and moves nothing. *)
Class IntReaderSpec (S : Type) {DI : DataInput S} {I : DataInputSpec S} {IR : IntReader S} := {
  reader_pos : S -> Z;
  int_read_spec s (k : nat) bs rest :
    in_inv s -> drop k (avail s) = bs ++ rest -> length bs = 4%nat ->
    int_read (reader_pos s + Z.of_nat k) s = (Ok (from_le_bytes bs), s);
  read_byte_pos s b rest s' :
    in_inv s -> avail s = b :: rest -> read_byte s = (Ok b, s') ->
    reader_pos s' = reader_pos s + 1;
}.

Lemma mask_i32_ok n bs :
  0 <= n < 4 -> length bs = 4%nat -> Forall (in_u 8) bs ->
  mask_i32 n (from_le_bytes bs) = Ok (as_i32 (le_value (take (Z.to_nat (1 + n)) bs))).
Proof.
  intros Hn Hl Hu. destruct bs as [|a [|b [|c [|d []]]]]; simpl in Hl; try lia.
  assert (n = 0 \/ n = 1 \/ n = 2 \/ n = 3) as Hc by lia.
  unfold mask_i32, from_le_bytes. cbn [length]. change (8 * Z.of_nat 4) with 32.
  assert (Hgen : forall k : nat, (k < 4)%nat ->
    Z.land (as_i32 (le_value [a; b; c; d])) (Z.ones (8 * Z.of_nat k))
    = as_i32 (le_value (take k [a; b; c; d]))).
  { intros k Hk. rewrite <- (take_drop k [a; b; c; d]) at 1. rewrite le_value_app.
    assert (length (take k [a; b; c; d]) = k) as Hlt by (rewrite length_take; simpl; lia).
    pose proof (le_value_in_u (take k [a; b; c; d]) ltac:(by apply Forall_take)) as Hin.
    rewrite Hlt in *. set (lo := le_value (take k _)) in *. set (hi := le_value (drop k _)).
    rewrite Z.land_ones by lia. fold (wrap_u (8 * Z.of_nat k) (as_i32 (Z.lor lo (Z.shiftl hi (8 * Z.of_nat k))))).
    same_bits i. destruct (Z.ltb_spec i (8 * Z.of_nat k)); simpl.
    - rewrite Z.min_l by lia. rewrite (Z.testbit_neg_r _ (i - _)) by lia. by rewrite orb_false_r.
    - symmetry. apply (in_u_testbit (8 * Z.of_nat k)); [done|lia]. }
  destruct_or!; subst n; cbn [Z.add]; unfold INT_MASKS, vget; cbn [rbind].
  - exact (f_equal Ok (Hgen 1%nat ltac:(lia))).
  - exact (f_equal Ok (Hgen 2%nat ltac:(lia))).
  - exact (f_equal Ok (Hgen 3%nat ltac:(lia))).
  - simpl. by rewrite Z.land_m1_r.
Qed.

Lemma mask_i64_ok n bs :
  0 <= n < 4 -> length bs = 4%nat -> Forall (in_u 8) bs ->
  mask_i64 n (from_le_bytes bs) = Ok (as_u32 (as_i32 (le_value (take (Z.to_nat (1 + n)) bs)))).
Proof.
  intros Hn Hl Hu. pose proof (mask_i32_ok n bs Hn Hl Hu) as H32.
  unfold mask_i32, mask_i64 in *. set (x := from_le_bytes bs) in *.
  destruct (vget INT_MASKS n) as [m| | |] eqn:Em; cbn [rbind] in H32; try discriminate.
  injection H32 as <-.
  assert (vget LONG_MASKS n = Ok (as_u32 m)) as ->.
  { assert (n = 0 \/ n = 1 \/ n = 2 \/ n = 3) as Hc by lia.
    destruct_or!; subst n; vm_compute in Em; injection Em as <-; done. }
  cbn [rbind]. f_equal.
  assert (in_u 32 (as_u32 (Z.land x m))) as Hw by (apply wrap_u_in; lia).
  rewrite <- (wrap_s_id 64 (as_u32 (Z.land x m))) by (unfold in_s, in_u in *; lia).
  f_equal. same_bits i. destruct (Z.ltb_spec i 32), (Z.ltb_spec i 64); simpl; try done; lia.
Qed.

Section FastPath.
Context {S : Type} {DI : DataInput S} {I : DataInputSpec S} {IR : IntReader S}
  {R : IntReaderSpec S}.

(** Splitting off the bytes of the next integer. *)
Lemma split_group f (bs : list Z) :
  in_u 8 f -> (16 <= length bs)%nat ->
  exists b1 b2 b3 b4 rest, bs = b1 ++ b2 ++ b3 ++ b4 ++ rest /\
    Z.of_nat (length b1) = 1 + Z.shiftr f 6 /\
    Z.of_nat (length b2) = 1 + Z.land (Z.shiftr f 4) 3 /\
    Z.of_nat (length b3) = 1 + Z.land (Z.shiftr f 2) 3 /\
    Z.of_nat (length b4) = 1 + Z.land f 3.
Proof.
  intros Hf Hl. destruct (flag_bounds f Hf) as (B1 & B2 & B3 & B4).
  set (n1 := Z.to_nat (1 + Z.shiftr f 6)).
  set (n2 := Z.to_nat (1 + Z.land (Z.shiftr f 4) 3)).
  set (n3 := Z.to_nat (1 + Z.land (Z.shiftr f 2) 3)).
  set (n4 := Z.to_nat (1 + Z.land f 3)).
  exists (take n1 bs), (take n2 (drop n1 bs)), (take n3 (drop n2 (drop n1 bs))),
    (take n4 (drop n3 (drop n2 (drop n1 bs)))), (drop n4 (drop n3 (drop n2 (drop n1 bs)))).
  split; [by rewrite !take_drop|].
  rewrite !length_take, !length_drop. unfold n1, n2, n3, n4. lia.
Qed.

Context (conv : Z -> Z) (mask : Z -> Z -> result Z) (slow : list Z -> Z -> ST S (list Z)).
Hypothesis mask_ok : forall n bs, 0 <= n < 4 -> length bs = 4%nat -> Forall (in_u 8) bs ->
  mask n (from_le_bytes bs) = Ok (conv (as_i32 (le_value (take (Z.to_nat (1 + n)) bs)))).

(** One masked random-access read, the value stored by the continuation. *)
Lemma int_read_masked {B} (k : Z -> ST S B) s n pre b rest pos :
  in_inv s -> avail s = pre ++ b ++ rest -> 0 <= n < 4 -> Z.of_nat (length b) = 1 + n ->
  (4 <= length (b ++ rest))%nat -> pos = reader_pos s + Z.of_nat (length pre) ->
  (let* v := int_read pos in let* v := slift (mask n v) in k v) s
  = k (conv (as_i32 (le_value b))) s.
Proof.
  intros Hi Ha Hn Hb Hl ->.
  pose proof (avail_in_u s Hi) as Hu. rewrite Ha in Hu. apply Forall_app in Hu as [_ Hu].
  assert (length (take 4 (b ++ rest)) = 4%nat) as Hl4 by (rewrite length_take; lia).
  unfold sbind at 1. rewrite (int_read_spec s (length pre) (take 4 (b ++ rest)) (drop 4 (b ++ rest)));
    [|done|by rewrite Ha, drop_app_length, take_drop|done].
  unfold sbind, slift. rewrite mask_ok; [|done|done|by apply Forall_take].
  rewrite take_take, Nat.min_l by lia. rewrite take_app_length' by lia. done.
Qed.

(** Side conditions: positions and lengths within the available bytes. *)
Ltac side := first [ assumption | (rewrite <- ?app_assoc; assumption)
  | (rewrite ?length_app in *; simpl in *; lia) ].

Lemma with_reader_spec pre x1 x2 x3 x4 post remaining s :
  in_inv s -> 17 <= remaining -> (17 <= length (avail s))%nat ->
  exists f b1 b2 b3 b4 rest s1,
    avail s = f :: b1 ++ b2 ++ b3 ++ b4 ++ rest /\
    in_u 8 f /\ Z.of_nat (length b1) = 1 + Z.shiftr f 6 /\
    Z.of_nat (length b2) = 1 + Z.land (Z.shiftr f 4) 3 /\
    Z.of_nat (length b3) = 1 + Z.land (Z.shiftr f 2) 3 /\
    Z.of_nat (length b4) = 1 + Z.land f 3 /\
    read_byte s = (Ok f, s1) /\ in_inv s1 /\ avail s1 = b1 ++ b2 ++ b3 ++ b4 ++ rest /\
    let v b := conv (as_i32 (le_value b)) in
    read_group_with_reader slow mask remaining (reader_pos s)
      (pre ++ x1 :: x2 :: x3 :: x4 :: post) (Z.of_nat (length pre)) s
    = (Ok (pre ++ v b1 :: v b2 :: v b3 :: v b4 :: post,
           Z.of_nat (length (b1 ++ b2 ++ b3 ++ b4))), s1).
Proof.
  intros Hi Hrem Hl. pose proof (avail_in_u s Hi) as Hu.
  destruct (avail s) as [|f bs] eqn:Ha; [simpl in Hl; lia|]. simpl in Hl.
  apply Forall_cons in Hu as [Hf Hu].
  destruct (split_group f bs Hf ltac:(lia)) as (b1 & b2 & b3 & b4 & rest & -> & L1 & L2 & L3 & L4).
  destruct (read_byte_spec s f _ Hi Ha) as (s1 & Hrd & Hi1 & Ha1).
  pose proof (read_byte_pos s f _ s1 Hi Ha Hrd) as Hpos.
  exists f, b1, b2, b3, b4, rest, s1. split_and!; auto. intros v.
  destruct (flag_bounds f Hf) as (B1 & B2 & B3 & B4).
  unfold read_group_with_reader, MAX_LENGTH_PER_GROUP. replace (remaining <? 17) with false by lia.
  unfold sbind at 1. rewrite Hrd. cbv zeta. rewrite !length_app in Hl.
  rewrite (int_read_masked _ s1 _ [] b1 (b2 ++ b3 ++ b4 ++ rest)) by side.
  fold (v b1). unfold sbind at 1, slift at 1. rewrite vset_middle by done.
  rewrite (int_read_masked _ s1 _ b1 b2 (b3 ++ b4 ++ rest)) by side.
  fold (v b2). unfold sbind at 1, slift at 1.
  rewrite (vset_off pre [v b1] (x3 :: x4 :: post) x2) by (simpl; lia).
  rewrite (int_read_masked _ s1 _ (b1 ++ b2) b3 (b4 ++ rest)) by side.
  fold (v b3). unfold sbind at 1, slift at 1.
  rewrite (vset_off pre [v b1; v b2] (x4 :: post) x3) by (simpl; lia).
  rewrite (int_read_masked _ s1 _ (b1 ++ b2 ++ b3) b4 rest) by side.
  fold (v b4). unfold sbind at 1, slift at 1.
  rewrite (vset_off pre [v b1; v b2; v b3] post x4) by (simpl; lia).
  unfold sret. do 3 f_equal. rewrite !length_app. lia.
Qed.

End FastPath.

End GroupVIntUtil.
