(* ===== verification/ByteBuffersDataInput.v ===== *)
(** Model of [ByteBuffersDataInput] (src/core/store/byte_buffers_data_input.rs): an
    input over a list of equally sized blocks (a power of two, the last one may be
    shorter), with sequential and random-access reads, slices, an unrolled [read_vint]
    and the group-varint fast path. The file shows that it is a [DataInput] over the
    concatenation of the blocks, and that its fast paths agree with the defaults. *)

From Stdlib Require Import ZArith Lia Bool.
From stdpp Require Import base tactics numbers list.
From S2P Require Import Prelude ArrayUtil BitUtil Utf8 DataOutput DataInput GroupVInt.
Import BitUtil GroupVIntUtil.

Local Open Scope Z_scope.

Module ByteBuffersDataInput.

(** [Cursor<B>]: a block with a position. *)
Record Cursor := cursor { position_ : Z; bytes_ : list Z }.

(** [capacity] is the capacity of the [scratch] vector. *)
Record t := mk {
  blocks : list Cursor; block_mask : Z; block_bits : Z;
  length_ : Z; offset : Z; pos : Z; scratch : list Z; capacity : Z }.

(** [usize::trailing_zeros] *)
Fixpoint ctz (fuel : nat) (x : Z) : Z :=
  match fuel with
  | O => 0
  | S fuel => if Z.odd x then 0 else 1 + ctz fuel (Z.div2 x)
  end.
Definition trailing_zeros (x : Z) : Z := ctz 64 x.

Definition blen (c : Cursor) : Z := Z.of_nat (length (bytes_ c)).

(** [1 << block_bits] panics for a first block without bytes, whose trailing zeros are 64. *)
Definition new (blocks : list Cursor) (length : Z) : result t :=
  let? (block_bits, block_mask) :=
    match blocks with
    | b :: _ :: _ =>
        let bits := trailing_zeros (blen b) in
        if bits <? 64 then Ok (bits, Z.shiftl 1 bits - 1) else Panic
    | _ => Ok (32, wrap_u 64 (Z.lnot 0))
    end in
  let offset := match blocks with [] => 0 | b :: _ => position_ b end in
  Ok (mk blocks block_mask block_bits length offset offset [] 0).

Definition block_index (s : t) (p : Z) : Z := Z.shiftr p (block_bits s).
Definition block_offset (s : t) (p : Z) : Z := Z.land p (block_mask s).
Definition at_ (s : t) (p : Z) : t :=
  mk (blocks s) (block_mask s) (block_bits s) (length_ s) (offset s) p (scratch s) (capacity s).
(** [self.length + self.offset]; an input over bytes in memory ends within [usize]. *)
Definition end_ (s : t) : Z := length_ s + offset s.

(** [self.blocks.get(i)] *)
Definition get_block (s : t) (i : Z) : option Cursor := blocks s !! Z.to_nat i.

Definition read_byte : ST t Z := fun s =>
  if end_ s <=? pos s then (Err Eof, s)
  else
    match get_block s (block_index s (pos s)) with
    | None => (Err Eof, s)
    | Some block =>
        match bytes_ block !! Z.to_nat (block_offset s (pos s)) with
        | None => (Err Eof, s)
        | Some value => (Ok value, at_ s (pos s + 1))
        end
    end.

(** [block_index >= self.blocks.len() || pos + len > self.length + self.offset]: the sum is
    only formed, and may only overflow, when there is such a block. *)
Definition past_end (s : t) (p len : Z) : result bool :=
  if Z.of_nat (length (blocks s)) <=? block_index s p then Ok true
  else let? stop := exact_u 64 (p + len) in Ok (end_ s <? stop).

(** The loop of [do_read_bytes]; its state is the buffer the output slice belongs to,
    [output_offset] counts from the buffer's start. *)
Fixpoint do_read_bytes (s : t) (fuel : nat) (p len output_offset : Z) : ST (list Z) unit :=
  if 0 <? len then
    match fuel with
    | O => slift OutOfFuel
    | S fuel =>
        let bo := block_offset s p in
        let* past := slift (past_end s p len) in
        if past then slift (Err Eof)
        else
          match get_block s (block_index s p) with
          | None => slift (Err Eof)
          | Some block =>
              let chunk := Z.min len (Z.max 0 (blen block - bo)) in
              if chunk =? 0 then slift (Err Eof)
              else
                let* bs := slift (vslice (bytes_ block) bo (bo + chunk)) in
                let* output := sget in
                let* output := slift (vcopy output output_offset bs) in
                let* _ := sput output in
                do_read_bytes s fuel (p + chunk) (len - chunk) (output_offset + chunk)
          end
    end
  else sret tt.

(** [read_bytes] into the buffer [b]; the state is the buffer and the input. *)
Definition read_bytes_into (off len : Z) : ST (list Z * t) unit := fun bs =>
  let (b, s) := bs in
  match vslice b off (off + len) with
  | Ok _ =>
      if len =? 1 then
        match read_byte s with
        | (Ok v, s') => (Ok tt, (<[Z.to_nat off := v]> b, s'))
        | (Err e, s') => (Err e, (b, s'))
        | (Panic, s') => (Panic, (b, s'))
        | (OutOfFuel, s') => (OutOfFuel, (b, s'))
        end
      else
        match do_read_bytes s (Z.to_nat len) (pos s) len off b with
        | (Ok _, b') => (Ok tt, (b', at_ s (pos s + len)))
        | (r, b') => (r, (b', s))
        end
  | _ => (Panic, bs)
  end.

Definition read_bytes (b : list Z) (off len : Z) : ST t (list Z) := fun s =>
  match read_bytes_into off len (b, s) with
  | (Ok _, (b', s')) => (Ok b', s')
  | (Err e, (_, s')) => (Err e, s')
  | (Panic, (_, s')) => (Panic, s')
  | (OutOfFuel, (_, s')) => (OutOfFuel, s')
  end.

(** The fixed-width read at an absolute position: one block when the value lies well
    inside it, else byte by byte. *)
Definition fetch_slow (s : t) (n p : Z) : result Z :=
  match do_read_bytes s (Z.to_nat n) p n 0 (replicate (Z.to_nat n) 0) with
  | (Ok _, b) => Ok (from_le_bytes b)
  | (Err e, _) => Err e
  | (Panic, _) => Panic
  | (OutOfFuel, _) => OutOfFuel
  end.

Definition fetch (s : t) (n p : Z) : result Z :=
  let bo := block_offset s p in
  let? stop := exact_u 64 (p + n) in
  if (stop <=? end_ s) && (bo + n <=? block_mask s) then
    match get_block s (block_index s p) with
    | None => Err Eof
    | Some block =>
        if bo + n <=? blen block then
          let? v := vslice (bytes_ block) bo (bo + n) in Ok (from_le_bytes v)
        else fetch_slow s n p
    end
  else fetch_slow s n p.

Definition read_fixed (n : Z) : ST t Z := fun s =>
  match fetch s n (pos s) with
  | Ok v => (Ok v, at_ s (pos s + n))
  | r => (r, s)
  end.
Definition read_short : ST t Z := read_fixed SHORT_BYTES.
Definition read_int : ST t Z := read_fixed INT_BYTES.
Definition read_long : ST t Z := read_fixed LONG_BYTES.

(** The [RandomAccessInput] methods: positions are relative to the input's start. *)
Definition read_byte_at (s : t) (p : Z) : result Z :=
  let? p := exact_u 64 (p + offset s) in
  if end_ s <=? p then Err Eof
  else
    match get_block s (block_index s p) with
    | None => Err Eof
    | Some block =>
        match bytes_ block !! Z.to_nat (block_offset s p) with
        | None => Err Eof
        | Some value => Ok value
        end
    end.
Definition read_short_at (s : t) (p : Z) : result Z :=
  let? p := exact_u 64 (p + offset s) in fetch s SHORT_BYTES p.
Definition read_int_at (s : t) (p : Z) : result Z :=
  let? p := exact_u 64 (p + offset s) in fetch s INT_BYTES p.
Definition read_long_at (s : t) (p : Z) : result Z :=
  let? p := exact_u 64 (p + offset s) in fetch s LONG_BYTES p.

Definition position (s : t) : result Z :=
  if pos s <? offset s then Err IllegalState else Ok (pos s - offset s).

Definition seek (p : Z) : ST t unit := fun s =>
  match exact_u 64 (p + offset s) with
  | Ok q => if length_ s <? p then (Err Eof, at_ s (length_ s)) else (Ok tt, at_ s q)
  | _ => (Panic, s)
  end.

Definition skip_bytes (num_bytes : Z) : ST t unit := fun s =>
  if num_bytes <? 0 then (Err IllegalArgument, s)
  else
    match position s with
    | Ok p =>
        match exact_u 64 (p + num_bytes) with
        | Ok skip_to => seek skip_to s
        | _ => (Panic, s)
        end
    | Err e => (Err e, s)
    | Panic => (Panic, s)
    | OutOfFuel => (OutOfFuel, s)
    end.

(** [get_bytes] outside of one block: either a new vector is filled chunk by chunk, or
    the scratch vector is resized and read into. [alloc c n] is the capacity of a
    vector of capacity [c] after it was made to hold [n] elements, which the standard
    library leaves open; a capacity above [isize::MAX] panics. *)
Section GetBytes.
Variable alloc : Z -> Z -> Z.

Fixpoint gather (s : t) (fuel : nat) (p remaining : Z) (bytes : list Z) : result unit * list Z :=
  match fuel with
  | O => (OutOfFuel, bytes)
  | S fuel =>
      let bo := block_offset s p in
      match past_end s p remaining with
      | Ok true => (Err Eof, bytes)
      | Ok false =>
          match get_block s (block_index s p) with
          | None => (Panic, bytes)
          | Some block =>
              let chunk := Z.min remaining (Z.max 0 (blen block - bo)) in
              if chunk =? 0 then (Err Eof, bytes)
              else
                match vslice (bytes_ block) bo (bo + chunk) with
                | Ok bs =>
                    if remaining - chunk =? 0 then (Ok tt, bytes ++ bs)
                    else gather s fuel (p + chunk) (remaining - chunk) (bytes ++ bs)
                | _ => (Panic, bytes)
                end
          end
      | _ => (Panic, bytes)
      end
  end.

(** [RandomAccessInput::read_bytes]: a sum past [usize] is past the end; the [while] of the source is the loop of [gather],
    which is entered with bytes left to read. *)
Definition read_bytes_at (s : t) (p len : Z) : result (list Z) :=
  if (2 ^ 64 <=? p + len) || (length_ s <? p + len) then Err Eof
  else if len =? 0 then Ok []
  else
    let? p := exact_u 64 (p + offset s) in
    match get_block s (block_index s p) with
    | None => Err Eof
    | Some block =>
        let bo := block_offset s p in
        if bo + len <=? blen block then vslice (bytes_ block) bo (bo + len)
        else
          match gather s (Z.to_nat len) p len [] with
          | (Ok _, b) => Ok b
          | (Err e, _) => Err e
          | (Panic, _) => Panic
          | (OutOfFuel, _) => OutOfFuel
          end
    end.

Definition with_scratch (s : t) (sc : list Z) (cap : Z) : t :=
  mk (blocks s) (block_mask s) (block_bits s) (length_ s) (offset s) (pos s) sc cap.

(** A block that holds all of the [len] bytes from [p] on, within the input's end. *)
Definition contiguous (s : t) (p len : Z) : option Cursor :=
  if p + len <=? end_ s then
    match get_block s (block_index s p) with
    | Some block =>
        if (block_offset s p <=? blen block) && (len <=? blen block - block_offset s p)
        then Some block else None
    | None => None
    end
  else None.

Definition get_bytes (len : Z) : ST t (list Z) := fun s =>
  if len =? 0 then (Ok [], s)
  else
    match contiguous s (pos s) len with
    | Some block =>
        let bo := block_offset s (pos s) in
        (vslice (bytes_ block) bo (bo + len), at_ s (pos s + len))
    | None =>
        let have := Z.of_nat (length (scratch s)) in
        let '(r, (b, s')) :=
          if (have <? len) && (i64_MAX <? len) then (Panic, ([], with_scratch s [] 0))
          else if (have <? len) && (0 <? capacity s) && (capacity s <=? len / 2) then
            match gather s (Z.to_nat len) (pos s) len [] with
            | (Ok _, b) => (Ok tt, (b, with_scratch (at_ s (pos s + len)) [] (alloc 0 len)))
            | (r, b) => (r, (b, with_scratch s [] (alloc 0 len)))
            end
          else
            let b := if have <? len
                     then scratch s ++ replicate (Z.to_nat (len - have)) 0 else scratch s in
            read_bytes_into 0 len (b, with_scratch s [] (alloc (capacity s) len)) in
        let s'' := with_scratch s' b (capacity s') in
        match r with
        | Ok _ => (vslice b 0 len, s'')
        | Err e => (Err e, s'')
        | Panic => (Panic, s'')
        | OutOfFuel => (OutOfFuel, s'')
        end
    end.

Instance data_input : DataInput t := {
  DataInput.read_byte := read_byte;
  DataInput.get_bytes := get_bytes;
  DataInput.read_bytes := read_bytes;
  DataInput.read_short := read_short;
  DataInput.read_int := read_int;
  DataInput.read_long := read_long;
  DataInput.skip_bytes := skip_bytes;
}.

Instance int_reader : IntReader t := {
  int_read := fun p s => (read_int_at s p, s);
}.

(** The override of [read_vint]: after the first byte, up to four more are taken from
    the block; a longer or a crossing code goes on byte by byte. The result of the
    [for] loop is [inl] of the returned value or [inr] of the variables. *)
Fixpoint vint_bytes (bytes : list Z) (b i shift : Z) (s : t) : (Z * t) + (Z * Z * Z * t) :=
  match bytes with
  | [] => inr (b, i, shift, s)
  | byte :: bytes =>
      let s := at_ s (pos s + 1) in
      let i := Z.lor i (wrap_s 32 (Z.shiftl (Z.land byte 0x7F) (shift mod 32))) in
      if Z.land byte 0x80 =? 0 then inl (i, s)
      else vint_bytes bytes byte i (shift + 7) s
  end.

Definition next_four (s : t) : option (list Z) :=
  if pos s + 4 <=? end_ s then
    match get_block s (block_index s (pos s)) with
    | Some block =>
        let bo := block_offset s (pos s) in
        if bo + 4 <=? blen block then Some (take 4 (drop (Z.to_nat bo) (bytes_ block))) else None
    | None => None
    end
  else None.

Definition read_vint (fuel : nat) : ST t Z :=
  let* b := read_byte in
  let i := Z.land b 0x7F in
  if Z.land b 0x80 =? 0 then sret i
  else fun s =>
    match next_four s with
    | Some bytes =>
        match vint_bytes bytes b i 7 s with
        | inl (i, s) => (Ok i, s)
        | inr (b, i, shift, s) => read_v_loop 32 fuel b i shift s
        end
    | None => read_v_loop 32 fuel b i 7 s
    end.

(** The override of [read_group_vint]. *)
Definition read_group_vint (dst : list Z) (off : Z) : ST t (list Z) := fun s =>
  match get_block s (block_index s (pos s)) with
  | None => (Err Eof, s)
  | Some block =>
      let block_remain := Z.max 0 (blen block - block_offset s (pos s)) in
      let input_remain := Z.max 0 (end_ s - pos s) in
      let remain := Z.min block_remain input_remain in
      (let* p := slift (position s) in
       let* (dst, len) := read_group_vint_i32_with_reader remain p dst off in
       let* s' := sget in
       let* _ := sput (at_ s' (pos s' + len)) in
       sret dst) s
  end.
End GetBytes.

(** * Slices *)

Definition slice_buffer_list (blocks : list Cursor) (offset length_ : Z) : result (list Cursor) :=
  match blocks with
  | [] => Panic
  | [b] => let? start := exact_u 64 (position_ b + offset) in Ok [cursor start (bytes_ b)]
  | b :: _ =>
      let? abs_start := exact_u 64 (position_ b + offset) in
      let? abs_end := exact_u 64 (abs_start + length_) in
      let block_bytes := blen b in
      let? _ := debug_assert (negb (block_bytes =? 0) && (Z.land block_bytes (block_bytes - 1) =? 0)) in
      let block_mask := Z.shiftl 1 (trailing_zeros block_bytes) - 1 in
      let start := abs_start / block_bytes in
      let last := Z.min (abs_end / block_bytes) (Z.of_nat (length blocks) - 1) in
      let? part := vslice blocks start (last + 1) in
      Ok (imap (fun i c => cursor (if (i =? 0)%nat then Z.land abs_start block_mask else 0) (bytes_ c))
            part)
  end.

Definition slice (s : t) (off len : Z) : result t :=
  let? stop := exact_u 64 (off + len) in
  if length_ s <? stop then Err IllegalArgument
  else
    let? bs := slice_buffer_list (blocks s) off len in
    new bs len.

(** * Representation *)

Definition data (s : t) : list Z := concat (bytes_ <$> blocks s).
Definition dlen (s : t) : Z := Z.of_nat (length (data s)).

(** Blocks of [B] bytes, the last one possibly shorter. *)
Definition sized (B : Z) (bs : list (list Z)) : Prop :=
  forall i b, bs !! i = Some b ->
    Z.of_nat (length b) <= B /\ ((S i < length bs)%nat -> Z.of_nat (length b) = B).

(** The input ends within its blocks, which are bytes in memory ([isize::MAX] of them at most). *)
Definition wf (s : t) : Prop :=
  0 <= block_bits s < 64 /\ sized (2 ^ block_bits s) (bytes_ <$> blocks s) /\
  (block_mask s = 2 ^ block_bits s - 1 \/
   (length (blocks s) <= 1)%nat /\ block_mask s = 2 ^ 64 - 1) /\
  0 <= offset s /\ 0 <= length_ s /\ end_ s <= Z.min (dlen s) i64_MAX /\ Forall (in_u 8) (data s).

Lemma wf_end s : wf s -> end_ s <= i64_MAX < 2 ^ 64.
Proof. intros (_ & _ & _ & _ & _ & ? & _). unfold i64_MAX in *. lia. Qed.

Definition inv (s : t) : Prop := wf s /\ offset s <= pos s <= end_ s.

Definition remaining (s : t) : list Z :=
  take (Z.to_nat (end_ s - pos s)) (drop (Z.to_nat (pos s)) (data s)).

Lemma sized_tail B b bs : sized B (b :: bs) -> sized B bs.
Proof. intros H i x Hx. destruct (H (S i) x Hx) as [? Hf]. split; [done|]. simpl in Hf. lia. Qed.

Lemma blocks_locate B bs : 0 < B -> sized B bs -> forall p,
  0 <= p < Z.of_nat (length (concat bs)) ->
  exists b, bs !! Z.to_nat (p / B) = Some b /\ p mod B < Z.of_nat (length b) /\
    drop (Z.to_nat p) (concat bs)
    = drop (Z.to_nat (p mod B)) b ++ concat (drop (S (Z.to_nat (p / B))) bs).
Proof.
  intros HB. induction bs as [|b bs IH]; intros Hs p Hp; [simpl in Hp; lia|].
  cbn [concat] in *. rewrite length_app in Hp.
  destruct (Hs 0%nat b eq_refl) as [Hle Hfull]. simpl in Hfull.
  destruct (decide (p < B)) as [Hlt|Hge].
  - rewrite Z.div_small, Z.mod_small by lia. exists b.
    assert (p < Z.of_nat (length b)).
    { destruct bs; [simpl in Hp; lia|]. simpl in Hfull. lia. }
    split_and!; [done|done|]. rewrite drop_app_le by lia. done.
  - assert (Z.of_nat (length b) = B) as Hb.
    { destruct bs; [simpl in Hp; lia|]. apply Hfull. simpl. lia. }
    destruct (IH (sized_tail _ _ _ Hs) (p - B) ltac:(lia)) as (x & Hx & Hm & Hd).
    assert (p / B = (p - B) / B + 1) as Hdiv.
    { rewrite <- Z.div_add by lia. f_equal. lia. }
    assert (p mod B = (p - B) mod B) as Hmod.
    { rewrite <- (Z_mod_plus_full (p - B) 1 B). f_equal. lia. }
    assert (0 <= (p - B) / B) by (apply Z.div_pos; lia).
    assert (Z.to_nat (p / B) = S (Z.to_nat ((p - B) / B))) as -> by lia.
    exists x. rewrite Hmod. split_and!; auto.
    rewrite drop_app_ge by lia. cbn [drop]. rewrite <- Hd. f_equal. lia.
Qed.

Lemma block_index_eq s p : wf s -> 0 <= p -> block_index s p = p / 2 ^ block_bits s.
Proof. intros (Hb & _) Hp. unfold block_index. by rewrite Z.shiftr_div_pow2 by lia. Qed.

Lemma single_small s p : wf s -> 0 <= p < dlen s -> (length (blocks s) <= 1)%nat ->
  p < 2 ^ block_bits s.
Proof.
  intros (_ & Hs & _) Hp Hl. unfold dlen, data in Hp.
  destruct (blocks s) as [|c [|]]; simpl in *; try lia.
  rewrite app_nil_r in Hp. destruct (Hs 0%nat _ eq_refl) as [Hle _]. lia.
Qed.

Lemma block_offset_eq s p :
  wf s -> 0 <= p < dlen s -> block_offset s p = p mod 2 ^ block_bits s.
Proof.
  intros Hwf Hp. pose proof (single_small s p Hwf Hp) as Hsm.
  destruct Hwf as (Hb & Hs & [Hm|[Hl Hm]] & _); unfold block_offset; rewrite Hm.
  - replace (2 ^ block_bits s - 1) with (Z.ones (block_bits s)) by (rewrite Z.ones_equiv; lia).
    by rewrite Z.land_ones by lia.
  - specialize (Hsm Hl). change (2 ^ 64 - 1) with (Z.ones 64). rewrite Z.land_ones by lia.
    assert (2 ^ block_bits s <= 2 ^ 64) by (apply Z.pow_le_mono_r; lia).
    rewrite !Z.mod_small by lia. done.
Qed.

(** The block under an absolute position. *)
Lemma locate s p : wf s -> 0 <= p < dlen s ->
  exists c, get_block s (block_index s p) = Some c /\
    0 <= block_offset s p < blen c /\
    (block_index s p < Z.of_nat (length (blocks s))) /\
    exists more, drop (Z.to_nat p) (data s)
      = drop (Z.to_nat (block_offset s p)) (bytes_ c) ++ more.
Proof.
  intros Hwf Hp. rewrite block_index_eq, block_offset_eq by (auto; lia).
  destruct (blocks_locate (2 ^ block_bits s) (bytes_ <$> blocks s) ltac:(destruct Hwf; lia)
    ltac:(apply Hwf) p Hp) as (b & Hb & Hm & Hd).
  rewrite list_lookup_fmap in Hb. apply fmap_Some in Hb as (c & Hc & ->).
  exists c. unfold get_block. assert (0 < 2 ^ block_bits s) by (destruct Hwf; lia).
  pose proof (Z.mod_pos_bound p (2 ^ block_bits s)).
  assert (0 <= p / 2 ^ block_bits s) by (apply Z.div_pos; lia).
  split_and!; auto; [lia| |eauto]. apply lookup_lt_Some in Hc. lia.
Qed.

Lemma locate_slice s p len c more :
  drop (Z.to_nat p) (data s) = drop (Z.to_nat (block_offset s p)) (bytes_ c) ++ more ->
  0 <= block_offset s p -> 0 <= len -> block_offset s p + len <= blen c ->
  vslice (bytes_ c) (block_offset s p) (block_offset s p + len)
  = Ok (take (Z.to_nat len) (drop (Z.to_nat p) (data s))).
Proof.
  intros Hd H0 Hl Hle. unfold blen in Hle. rewrite vslice_ok by lia. rewrite Hd.
  rewrite take_app_le by (rewrite length_drop; lia). do 2 f_equal. lia.
Qed.

(** [len] bytes of the input from the absolute position [p] on. *)
Definition seg (s : t) (p len : Z) : list Z :=
  take (Z.to_nat len) (drop (Z.to_nat p) (data s)).

Lemma seg_length s p len : wf s -> 0 <= p -> 0 <= len -> p + len <= end_ s ->
  Z.of_nat (length (seg s p len)) = len.
Proof.
  intros (_ & _ & _ & _ & _ & He & _) ? ? ?. unfold seg, dlen in *.
  rewrite length_take, length_drop. lia.
Qed.

Lemma seg_split s p a b : 0 <= p -> 0 <= a -> 0 <= b ->
  seg s p (a + b) = seg s p a ++ seg s (p + a) b.
Proof.
  intros. unfold seg. rewrite !Z2Nat.inj_add by lia.
  by rewrite <- drop_drop, take_take_drop.
Qed.

(** One chunk: what the block under [p] holds of the next [len] bytes. *)
Lemma chunk_ok s p len : wf s -> 0 <= p -> 0 < len -> p + len <= end_ s ->
  exists c, get_block s (block_index s p) = Some c /\
    past_end s p len = Ok false /\
    let chunk := Z.min len (Z.max 0 (blen c - block_offset s p)) in
    0 < chunk <= len /\
    vslice (bytes_ c) (block_offset s p) (block_offset s p + chunk) = Ok (seg s p chunk).
Proof.
  intros Hwf Hp Hl He. assert (p < dlen s) by (destruct Hwf as (_ & _ & _ & _ & _ & ? & _); lia).
  destruct (locate s p Hwf ltac:(lia)) as (c & Hc & Ho & Hi & more & Hd).
  pose proof (wf_end s Hwf).
  exists c. split; [done|]. split.
  { unfold past_end. rewrite (proj2 (Z.leb_gt _ _)), exact_u_ok by (done || (unfold in_u; lia)). cbn [rbind]. f_equal. lia. }
  split; [lia|]. apply (locate_slice _ _ _ _ more); auto; lia.
Qed.

Lemma do_read_bytes_ok s fuel : wf s -> forall p len off output,
  0 <= p -> 0 <= len <= Z.of_nat fuel -> p + len <= end_ s ->
  0 <= off -> off + len <= Z.of_nat (length output) ->
  do_read_bytes s fuel p len off output
  = (Ok tt, take (Z.to_nat off) output ++ seg s p len ++ drop (Z.to_nat (off + len)) output).
Proof.
  intros Hwf.
  assert (done_ : forall p off (output : list Z), sret tt output
    = (Ok tt, take (Z.to_nat off) output ++ seg s p 0 ++ drop (Z.to_nat (off + 0)) output)).
  { intros. rewrite Z.add_0_r. change (seg s p 0) with (@nil Z). cbn [app]. by rewrite take_drop. }
  induction fuel as [|fuel IH]; intros p len off output Hp Hl He Ho Hout; cbn [do_read_bytes].
  { assert (len = 0) as -> by lia. apply done_. }
  destruct (Z.ltb_spec 0 len) as [Hpos|].
  2: { assert (len = 0) as -> by lia. apply done_. }
  destruct (chunk_ok s p len Hwf Hp Hpos He) as (c & Hg & Hpast & Hch & Hv). rewrite slift_sbind, Hpast, Hg.
  set (chunk := Z.min len (Z.max 0 (blen c - block_offset s p))) in *.
  replace (chunk =? 0) with false by lia.
  pose proof (seg_length s p chunk Hwf Hp ltac:(lia) ltac:(lia)) as Hsl.
  unfold sbind at 1, slift at 1. rewrite Hv. unfold sbind at 1, sget at 1.
  unfold sbind at 1, slift at 1. rewrite vcopy_def by lia. unfold sbind at 1, sput at 1.
  set (output1 := take (Z.to_nat off) output ++ seg s p chunk ++ _).
  assert (Hlt : length (take (Z.to_nat off) output) = Z.to_nat off) by (rewrite length_take; lia).
  assert (Hl1 : length output1 = length output).
  { unfold output1. rewrite !length_app, Hlt, length_drop. lia. }
  rewrite IH by lia. f_equal.
  assert (seg s p len = seg s p chunk ++ seg s (p + chunk) (len - chunk)) as ->
    by (rewrite <- seg_split by lia; f_equal; lia).
  assert (take (Z.to_nat (off + chunk)) output1 = take (Z.to_nat off) output ++ seg s p chunk) as ->.
  { unfold output1. rewrite app_assoc. apply take_app_length'. rewrite length_app. lia. }
  assert (drop (Z.to_nat (off + chunk + (len - chunk))) output1 = drop (Z.to_nat (off + len)) output) as ->.
  { unfold output1. rewrite app_assoc, drop_app_ge by (rewrite length_app; lia).
    rewrite drop_drop. f_equal. rewrite length_app. lia. }
  by rewrite <- !app_assoc.
Qed.

Lemma past_end_eof s p len : 0 <= p -> 0 <= len -> end_ s < p + len < 2 ^ 64 -> past_end s p len = Ok true.
Proof.
  intros. unfold past_end. destruct (_ <=? _); [done|]. rewrite exact_u_ok by (unfold in_u; lia). cbn [rbind]. f_equal. lia.
Qed.

Lemma do_read_bytes_eof s fuel p len off output :
  0 < len <= Z.of_nat fuel -> 0 <= p -> end_ s < p + len < 2 ^ 64 ->
  do_read_bytes s fuel p len off output = (Err Eof, output).
Proof.
  intros Hl Hp He. destruct fuel; [lia|]. cbn [do_read_bytes].
  replace (0 <? len) with true by lia. by rewrite slift_sbind, past_end_eof by lia.
Qed.

Lemma gather_ok s fuel : wf s -> forall p len bytes,
  0 <= p -> 0 < len <= Z.of_nat fuel -> p + len <= end_ s ->
  gather s fuel p len bytes = (Ok tt, bytes ++ seg s p len).
Proof.
  intros Hwf. induction fuel as [|fuel IH]; intros p len bytes Hp Hl He; [lia|]. cbn [gather].
  destruct (chunk_ok s p len Hwf Hp ltac:(lia) He) as (c & -> & -> & Hch & ->). cbv zeta iota.
  set (chunk := Z.min len (Z.max 0 (blen c - block_offset s p))) in *.
  replace (chunk =? 0) with false by lia.
  destruct (Z.eqb_spec (len - chunk) 0) as [Hz|Hnz].
  - by replace chunk with len by lia.
  - rewrite IH by lia. rewrite <- app_assoc, <- seg_split by lia. do 3 f_equal. lia.
Qed.

Lemma fetch_slow_ok s n p : wf s -> 0 <= p -> 0 <= n -> p + n <= end_ s ->
  fetch_slow s n p = Ok (from_le_bytes (seg s p n)).
Proof.
  intros Hwf Hp Hn He. unfold fetch_slow.
  rewrite do_read_bytes_ok; auto; try lia; [|rewrite length_replicate; lia].
  rewrite drop_ge by (rewrite length_replicate; lia). rewrite app_nil_r. done.
Qed.

(** Fixed-width reads: the block shortcut reads the same bytes. *)
Lemma fetch_ok s n p : wf s -> 0 <= p -> 0 < n -> p + n <= end_ s ->
  fetch s n p = Ok (from_le_bytes (seg s p n)).
Proof.
  intros Hwf Hp Hn He. pose proof (wf_end s Hwf).
  unfold fetch. rewrite exact_u_ok by (unfold in_u; lia). cbn [rbind]. destruct (_ && _); [|apply fetch_slow_ok; auto; lia].
  destruct (chunk_ok s p n Hwf Hp Hn He) as (c & -> & _ & Hch & Hv).
  destruct (Z.leb_spec (block_offset s p + n) (blen c)); [|apply fetch_slow_ok; auto; lia].
  rewrite Z.min_l in Hv by lia. by rewrite Hv.
Qed.

Lemma fetch_eof s n p : 0 < n -> 0 <= p -> end_ s < p + n < 2 ^ 64 -> fetch s n p = Err Eof.
Proof.
  intros Hn Hp He. unfold fetch, fetch_slow. rewrite exact_u_ok by (unfold in_u; lia). cbn [rbind]. replace (p + n <=? end_ s) with false by lia.
  cbn [andb]. by rewrite do_read_bytes_eof by lia.
Qed.

(** * The input is the concatenation of its blocks *)

Lemma remaining_front s bs rest :
  inv s -> remaining s = bs ++ rest ->
  let n := Z.of_nat (length bs) in
  pos s + n <= end_ s /\ seg s (pos s) n = bs /\
  inv (at_ s (pos s + n)) /\ remaining (at_ s (pos s + n)) = rest.
Proof.
  intros [Hwf Hpos] Hr n.
  assert (0 <= pos s) by (destruct Hwf as (_ & _ & _ & ? & _); lia).
  change (seg s (pos s) (end_ s - pos s) = bs ++ rest) in Hr.
  pose proof (seg_length s (pos s) (end_ s - pos s) Hwf) as Hl. rewrite Hr, length_app in Hl.
  assert (Hle : pos s + n <= end_ s) by lia.
  replace (end_ s - pos s) with (n + (end_ s - (pos s + n))) in Hr by lia.
  rewrite seg_split in Hr by lia.
  apply app_inj_1 in Hr as [Hs Hrest].
  2: { pose proof (seg_length s (pos s) n Hwf). lia. }
  split_and!; auto.
  split; [exact Hwf|]. change (offset s <= pos s + n <= end_ s). lia.
Qed.

Lemma inv_pos s : inv s -> 0 <= pos s.
Proof. intros [(_ & _ & _ & ? & _) ?]. lia. Qed.

Lemma remaining_in_u s : inv s -> Forall (in_u 8) (remaining s).
Proof.
  intros [(_ & _ & _ & _ & _ & _ & Hu) _]. apply Forall_take, Forall_drop, Hu.
Qed.

Lemma read_byte_ok s b rest :
  inv s -> remaining s = b :: rest -> read_byte s = (Ok b, at_ s (pos s + 1)).
Proof.
  intros Hi Hr. destruct (remaining_front s [b] rest Hi Hr) as (Hle & Hs & _).
  pose proof (inv_pos s Hi). change (Z.of_nat (length [b])) with 1 in *.
  unfold read_byte. replace (end_ s <=? pos s) with false by lia.
  destruct Hi as [Hwf _].
  destruct (chunk_ok s (pos s) 1 Hwf ltac:(lia) ltac:(lia) Hle) as (c & -> & _ & Hch & Hv).
  rewrite Z.min_l in Hv by lia. rewrite Hs in Hv. unfold vslice in Hv.
  destruct (_ && _) eqn:Hc in Hv; [|discriminate]. injection Hv as Hv.
  replace (block_offset s (pos s) + 1 - block_offset s (pos s)) with 1 in Hv by lia.
  destruct (drop _ (bytes_ c)) as [|x l] eqn:Hd; [discriminate|]. injection Hv as ->.
  rewrite <- (Nat.add_0_r (Z.to_nat (block_offset s (pos s)))), <- lookup_drop, Hd. done.
Qed.

Lemma read_byte_eof s : inv s -> remaining s = [] -> read_byte s = (Err Eof, s).
Proof.
  intros [Hwf Hp] Hr. assert (0 <= pos s) by (by apply inv_pos).
  pose proof (seg_length s (pos s) (end_ s - pos s) Hwf) as Hl.
  change (seg s (pos s) (end_ s - pos s) = []) in Hr. rewrite Hr in Hl. simpl in Hl.
  unfold read_byte. by replace (end_ s <=? pos s) with true by lia.
Qed.

Lemma read_fixed_spec n s bs : 0 < n -> Z.of_nat (length bs) = n ->
  consumes_from remaining inv (read_fixed n) s bs (from_le_bytes bs).
Proof.
  intros Hn Hl rest Hi Hr. destruct (remaining_front s bs rest Hi Hr) as (Hle & Hs & Hi' & Hr').
  rewrite Hl in *. exists (at_ s (pos s + n)). split_and!; auto.
  unfold read_fixed. rewrite fetch_ok; [by rewrite Hs|apply Hi|by apply inv_pos|lia|lia].
Qed.

Lemma read_bytes_into_ok b off len s :
  inv s -> 0 <= off -> 0 <= len -> off + len <= Z.of_nat (length b) -> pos s + len <= end_ s ->
  read_bytes_into off len (b, s)
  = (Ok tt, (take (Z.to_nat off) b ++ seg s (pos s) len ++ drop (Z.to_nat (off + len)) b,
       at_ s (pos s + len))).
Proof.
  intros Hi Ho Hl Hb He. pose proof (inv_pos s Hi). destruct Hi as [Hwf Hp] eqn:E. clear E.
  unfold read_bytes_into. rewrite vslice_ok by lia.
  destruct (Z.eqb_spec len 1) as [->|Hne].
  - pose proof (seg_length s (pos s) 1 Hwf) as Hsl.
    destruct (seg s (pos s) 1) as [|v [|]] eqn:Hs; simpl in Hsl; try lia.
    rewrite (read_byte_ok s v (seg s (pos s + 1) (end_ s - (pos s + 1)))); [|done|].
    2: { change (v :: ?x) with (([v] : list Z) ++ x). rewrite <- Hs, <- seg_split by lia.
         unfold remaining, seg. do 2 f_equal. lia. }
    do 3 f_equal. rewrite insert_take_drop by lia. do 2 f_equal.
    simpl. do 2 f_equal. lia.
  - by rewrite do_read_bytes_ok by (auto; lia).
Qed.

Lemma skip_bytes_ok s n :
  inv s -> 0 <= n -> pos s + n <= end_ s -> skip_bytes n s = (Ok tt, at_ s (pos s + n)).
Proof.
  intros [Hwf Hp] Hn He. pose proof (wf_end s Hwf). assert (0 <= offset s) by (destruct Hwf as (_ & _ & _ & ? & _); lia).
  unfold skip_bytes, position, seek. unfold end_ in *.
  replace (n <? 0) with false by lia. replace (pos s <? offset s) with false by lia.
  rewrite !exact_u_ok by (unfold in_u; lia).
  replace (length_ s <? _) with false by lia. do 2 f_equal. lia.
Qed.

Lemma get_bytes_ok alloc s n :
  inv s -> 0 <= n -> pos s + n <= end_ s ->
  exists sc cap, get_bytes alloc n s
    = (Ok (seg s (pos s) n), with_scratch (at_ s (pos s + n)) sc cap).
Proof.
  intros Hi Hn He. pose proof (inv_pos s Hi) as H0. unfold get_bytes.
  destruct (Z.eqb_spec n 0) as [->|Hnz].
  { exists (scratch s), (capacity s). rewrite Z.add_0_r. by destruct s. }
  destruct (contiguous s (pos s) n) as [c|] eqn:Hc.
  - exists (scratch s), (capacity s). unfold contiguous in Hc.
    replace (pos s + n <=? end_ s) with true in Hc by lia.
    destruct (chunk_ok s (pos s) n (proj1 Hi) H0 ltac:(lia) He) as (c' & Hg & _ & Hch & Hv).
    rewrite Hg in Hc. destruct (_ && _) eqn:Hb in Hc; [|discriminate]. injection Hc as <-.
    apply andb_true_iff in Hb as [Hb1%Z.leb_le Hb2%Z.leb_le].
    rewrite Z.min_l in Hv by lia. by rewrite Hv.
  - pose proof (wf_end s (proj1 Hi)). rewrite (proj2 (Z.ltb_ge i64_MAX n)), andb_false_r by lia. destruct (_ && _).
    + rewrite gather_ok by (auto; try apply Hi; lia). cbn [app].
      pose proof (seg_length s (pos s) n (proj1 Hi)).
      exists (seg s (pos s) n), (alloc 0 n). rewrite vslice_ok by lia.
      rewrite drop_0, take_ge by lia. done.
    + set (b := if Z.of_nat (length (scratch s)) <? n then _ else scratch s).
      assert (n <= Z.of_nat (length b)).
      { unfold b. destruct (Z.ltb_spec (Z.of_nat (length (scratch s))) n); [|lia].
        rewrite length_app, length_replicate. lia. }
      set (s0 := with_scratch s [] (alloc (capacity s) n)).
      rewrite (read_bytes_into_ok b 0 n s0 Hi) by (try exact He; lia).
      change (seg s0 (pos s0) n) with (seg s (pos s) n).
      change (take (Z.to_nat 0) b) with (@nil Z). cbn [app].
      pose proof (seg_length s (pos s) n (proj1 Hi)) as Hsl.
      set (b' := seg s (pos s) n ++ _). exists b', (alloc (capacity s) n).
      rewrite vslice_ok by (unfold b'; rewrite ?length_app; lia).
      unfold b'. change (Z.to_nat 0) with 0%nat. rewrite drop_0.
      replace (Z.to_nat (n - 0)) with (length (seg s (pos s) n)) by lia.
      by rewrite take_app_length.
Qed.

Lemma four_slots {A} (dst : list A) off :
  0 <= off -> off + 4 <= Z.of_nat (length dst) ->
  exists pre x1 x2 x3 x4 post, dst = pre ++ x1 :: x2 :: x3 :: x4 :: post /\
    off = Z.of_nat (length pre).
Proof.
  intros Ho Hd. exists (take (Z.to_nat off) dst). rewrite length_take.
  assert (4 <= length (drop (Z.to_nat off) dst))%nat as Hl by (rewrite length_drop; lia).
  destruct (drop (Z.to_nat off) dst) as [|x1 [|x2 [|x3 [|x4 post]]]] eqn:Hdr;
    simpl in Hl; try lia.
  exists x1, x2, x3, x4, post. rewrite <- Hdr, take_drop. split; [done|lia].
Qed.

Section Spec.
Variable alloc : Z -> Z -> Z.

#[local] Instance di : DataInput t := data_input alloc.
#[local] Instance ir : IntReader t := int_reader.

#[local] Instance spec : DataInputSpec t.
Proof.
  refine {| avail := remaining; in_inv := inv |}.
  - apply remaining_in_u.
  - intros s b rest Hi Hr. exists (at_ s (pos s + 1)).
    destruct (remaining_front s [b] rest Hi Hr) as (_ & _ & ? & ?).
    split_and!; auto. by apply read_byte_ok with rest.
  - intros s bs rest Hi Hr. destruct (remaining_front s bs rest Hi Hr) as (Hle & Hs & Hi' & Hr').
    destruct (get_bytes_ok alloc s (Z.of_nat (length bs)) Hi) as (sc & cap & Hg); [lia..|].
    eexists. split; [exact Hg || (rewrite Hs in Hg; exact Hg)|]. done.
  - intros s bs Hl. apply (read_fixed_spec SHORT_BYTES); unfold SHORT_BYTES; lia.
  - intros s bs Hl. apply (read_fixed_spec INT_BYTES); unfold INT_BYTES; lia.
  - intros s bs Hl. apply (read_fixed_spec LONG_BYTES); unfold LONG_BYTES; lia.
  - intros s bs rest Hi Hr. destruct (remaining_front s bs rest Hi Hr) as (Hle & _ & Hi' & Hr').
    eexists. split; [apply skip_bytes_ok; auto; lia|]. done.
Defined.

#[local] Instance reader_spec : IntReaderSpec t.
Proof.
  refine {| reader_pos := fun s => pos s - offset s |}.
  - intros s k bs rest Hi Hd Hl.
    change (drop k (remaining s) = bs ++ rest) in Hd. change (inv s) in Hi.
    assert (Hk : (k <= length (remaining s))%nat).
    { assert (length (drop k (remaining s)) <> 0%nat) by (rewrite Hd, length_app; lia).
      rewrite length_drop in *. lia. }
    destruct (remaining_front s (take k (remaining s)) (bs ++ rest)) as (_ & _ & Hi1 & Hr1);
      [done|by rewrite <- Hd, take_drop|].
    rewrite length_take, Nat.min_l in Hi1, Hr1 by lia.
    destruct (remaining_front _ _ _ Hi1 Hr1) as (Hle & Hs & _).
    rewrite Hl in *. pose proof (inv_pos _ Hi1) as H0. cbn [at_ pos] in *.
    change (seg s (pos s + Z.of_nat k) 4 = bs) in Hs.
    change (pos s + Z.of_nat k + 4 <= end_ s) in Hle.
    unfold int_read, ir, int_reader, read_int_at. f_equal. pose proof (wf_end s (proj1 Hi)).
    replace (pos s - offset s + Z.of_nat k + offset s) with (pos s + Z.of_nat k) by lia.
    rewrite exact_u_ok by (unfold in_u; lia). cbn [rbind].
    rewrite <- Hs. apply fetch_ok; unfold INT_BYTES; auto; [apply Hi|lia].
  - intros s b rest s' Hi Hr Hrd. change (inv s) in Hi. change (remaining s = b :: rest) in Hr.
    change (read_byte s = (Ok b, s')) in Hrd.
    rewrite (read_byte_ok s b rest Hi Hr) in Hrd. injection Hrd as <-.
    change (pos s + 1 - offset s = pos s - offset s + 1). lia.
Defined.

Lemma read_v_loop_fuel w fuel : forall fuel' b i shift s,
  inv s -> (length (remaining s) < fuel)%nat -> (fuel <= fuel')%nat ->
  read_v_loop w fuel b i shift s = read_v_loop w fuel' b i shift s.
Proof.
  induction fuel as [|fuel IH]; intros fuel' b i shift s Hi Hl Hf; [lia|].
  destruct fuel' as [|fuel']; [lia|]. cbn [read_v_loop].
  destruct (Z.land b 0x80 =? 0); [done|]. unfold sbind. change (DataInput.read_byte s) with (read_byte s).
  destruct (remaining s) as [|x rest] eqn:Hr; [by rewrite read_byte_eof|].
  rewrite (read_byte_ok s x rest) by done.
  destruct (remaining_front s [x] rest Hi Hr) as (_ & _ & Hi' & Hr'). cbn [length Z.of_nat] in *.
  apply IH; [done|change (Z.of_nat 1) with 1 in Hr'; rewrite Hr'; lia|lia].
Qed.

Lemma vint_bytes_loop fuel : forall bytes rest b i shift s,
  inv s -> remaining s = bytes ++ rest -> Z.land b 0x80 <> 0 ->
  read_v_loop 32 (length bytes + fuel) b i shift s
  = match vint_bytes bytes b i shift s with
    | inl (i, s) => (Ok i, s)
    | inr (b, i, shift, s) => read_v_loop 32 fuel b i shift s
    end.
Proof.
  induction bytes as [|x bytes IH]; intros rest b i shift s Hi Hr Hb; [done|].
  cbn [length Nat.add read_v_loop vint_bytes]. replace (Z.land b 0x80 =? 0) with false by lia.
  unfold sbind. change (DataInput.read_byte s) with (read_byte s).
  rewrite (read_byte_ok s x (bytes ++ rest)) by done.
  destruct (remaining_front s [x] (bytes ++ rest) Hi Hr) as (_ & _ & Hi' & Hr').
  change (Z.of_nat (length [x])) with 1 in *.
  destruct (Z.eqb_spec (Z.land x 0x80) 0) as [Hz|Hnz].
  - destruct (length bytes + fuel)%nat; cbn [read_v_loop]; by rewrite Hz.
  - by apply IH with rest.
Qed.

Lemma next_four_ok s bytes :
  inv s -> next_four s = Some bytes -> length bytes = 4%nat /\ exists rest, remaining s = bytes ++ rest.
Proof.
  intros Hi Hn. pose proof (inv_pos s Hi). unfold next_four in Hn.
  destruct (Z.leb_spec (pos s + 4) (end_ s)) as [He|]; [|discriminate].
  destruct (chunk_ok s (pos s) 4 (proj1 Hi) ltac:(done) ltac:(lia) He) as (c & Hg & _ & Hch & Hv).
  rewrite Hg in Hn. destruct (Z.leb_spec (block_offset s (pos s) + 4) (blen c)); [|discriminate].
  rewrite Z.min_l in Hv by lia. unfold vslice in Hv. destruct (_ && _) in Hv; [|discriminate].
  replace (block_offset s (pos s) + 4 - block_offset s (pos s)) with 4 in Hv by lia.
  injection Hv as Hv. injection Hn as <-.
  change (take 4 (drop (Z.to_nat (block_offset s (pos s))) (bytes_ c)) = seg s (pos s) 4) in Hv.
  rewrite Hv. split; [pose proof (seg_length s (pos s) 4 (proj1 Hi)); lia|].
  exists (seg s (pos s + 4) (end_ s - (pos s + 4))). rewrite <- seg_split by lia.
  unfold remaining, seg. do 2 f_equal. lia.
Qed.

Lemma override_agrees fuel s :
  inv s -> (length (remaining s) <= fuel)%nat ->
  read_vint alloc fuel s = DataInput.read_vint fuel s.
Proof.
  intros Hi Hl. unfold read_vint, DataInput.read_vint, read_v, sbind.
  change (DataInput.read_byte s) with (read_byte s).
  destruct (remaining s) as [|b rest] eqn:Hr; [by rewrite read_byte_eof|].
  rewrite (read_byte_ok s b rest) by done.
  destruct (remaining_front s [b] rest Hi Hr) as (_ & _ & Hi' & Hr').
  change (Z.of_nat (length [b])) with 1 in *. set (s1 := at_ s (pos s + 1)) in *.
  destruct (Z.eqb_spec (Z.land b 0x80) 0) as [Hz|Hnz].
  { destruct fuel; cbn [read_v_loop]; by rewrite Hz. }
  destruct (next_four s1) as [bytes|] eqn:Hn; [|done].
  destruct (next_four_ok s1 bytes Hi' Hn) as (Hl4 & rest' & Hr1).
  rewrite (read_v_loop_fuel 32 fuel (length bytes + fuel)); [|done|rewrite Hr'; simpl in Hl; lia|lia].
  symmetry. by apply vint_bytes_loop with rest'.
Qed.

Lemma read_group_eof dst off s :
  inv s -> remaining s = [] -> read_group_vint_i32 dst off s = (Err Eof, s).
Proof.
  intros Hi Hr. unfold read_group_vint_i32, read_group, sbind.
  change (DataInput.read_byte s) with (read_byte s). by rewrite read_byte_eof.
Qed.

(** The bytes that both the block and the input still hold. *)
Definition group_remain (s : t) (c : Cursor) : Z :=
  Z.min (Z.max 0 (blen c - block_offset s (pos s))) (Z.max 0 (end_ s - pos s)).

Lemma read_group_vint_eq dst off s c :
  inv s -> get_block s (block_index s (pos s)) = Some c ->
  read_group_vint alloc dst off s
  = match read_group_vint_i32_with_reader (group_remain s c) (reader_pos s) dst off s with
    | (Ok (dst, len), s') => (Ok dst, at_ s' (pos s' + len))
    | (Err e, s') => (Err e, s')
    | (Panic, s') => (Panic, s')
    | (OutOfFuel, s') => (OutOfFuel, s')
    end.
Proof.
  intros Hi Hg. unfold read_group_vint, position. rewrite Hg.
  replace (pos s <? offset s) with false by (destruct Hi; lia).
  unfold sbind at 1, slift at 1, sbind at 1.
  change (reader_pos s) with (pos s - offset s). fold (group_remain s c).
  by destruct (read_group_vint_i32_with_reader _ _ dst off s) as [[[]| | |] ?].
Qed.

Lemma group_agrees dst off s :
  inv s -> 0 <= off -> off + 4 <= Z.of_nat (length dst) ->
  (read_group_vint alloc dst off s).1 = (read_group_vint_i32 dst off s).1 /\
  remaining (read_group_vint alloc dst off s).2 = remaining (read_group_vint_i32 dst off s).2.
Proof.
  intros Hi Ho Hd. pose proof (inv_pos s Hi) as H0.
  destruct (get_block s (block_index s (pos s))) as [c|] eqn:Hg.
  2: { assert (read_group_vint alloc dst off s = (Err Eof, s)) as ->
      by (unfold read_group_vint; by rewrite Hg).
    destruct (remaining s) as [|b rest] eqn:Hr; [by rewrite read_group_eof|].
    destruct (remaining_front s [b] rest Hi Hr) as (Hle & _).
    change (Z.of_nat (length [b])) with 1 in *.
    destruct (chunk_ok s (pos s) 1 (proj1 Hi)) as (c & Hc & _); [lia..|]. congruence. }
  rewrite (read_group_vint_eq dst off s c Hi Hg).
  unfold read_group_vint_i32_with_reader.
  destruct (Z.ltb_spec (group_remain s c) 17) as [Hlt|Hge].
  - unfold read_group_with_reader, MAX_LENGTH_PER_GROUP, sbind, sret.
    replace (group_remain s c <? 17) with true by lia.
    destruct (read_group_vint_i32 dst off s) as [[dst'| | |] s']; cbn [fst snd]; auto.
    rewrite Z.add_0_r. by destruct s'.
  - destruct (four_slots dst off Ho Hd) as (pre & x1 & x2 & x3 & x4 & post & -> & ->).
    assert (Hl17 : (17 <= length (avail s))%nat).
    { pose proof (seg_length s (pos s) (end_ s - pos s) (proj1 Hi)) as Hl.
      change (avail s) with (seg s (pos s) (end_ s - pos s)).
      unfold group_remain in Hge. destruct Hi. lia. }
    destruct (with_reader_spec (I := spec) (R := reader_spec) (fun v => v) mask_i32 read_group_vint_i32
      mask_i32_ok pre x1 x2 x3 x4
      post (group_remain s c) s Hi Hge Hl17)
      as (f & b1 & b2 & b3 & b4 & rest & s1 & Ha & Hf & L1 & L2 & L3 & L4 & _ & Hi1 & Ha1 & Heq).
    rewrite Heq. clear Heq.
    destruct (read_group_spec (I := spec) (fun v => v) f b1 b2 b3 b4 pre x1 x2 x3 x4 post s Hf L1 L2 L3 L4 rest Hi)
      as (s2 & Hs2 & _ & Ha2).
    { rewrite Ha. cbn [app]. by rewrite <- !app_assoc. }
    unfold read_group_vint_i32. rewrite Hs2. cbn [fst snd]. split; [done|].
    destruct (remaining_front s1 (b1 ++ b2 ++ b3 ++ b4) rest Hi1) as (_ & _ & _ & Hr).
    { rewrite <- !app_assoc. exact Ha1. }
    rewrite Hr. symmetry. exact Ha2.
Qed.

End Spec.

(** * Construction and slices *)

(** What the constructor documents: equally sized blocks (a power of two) with a
    shorter last one; a single block is addressed with 32 bits. *)
Definition source_ok (bs : list Cursor) (B : Z) : Prop :=
  (exists k, 0 <= k <= 32 /\ B = 2 ^ k) /\ sized B (bytes_ <$> bs) /\
  Forall (in_u 8) (concat (bytes_ <$> bs)) /\ Z.of_nat (length (concat (bytes_ <$> bs))) <= i64_MAX.

Definition start_of (bs : list Cursor) : Z :=
  match bs with [] => 0 | b :: _ => position_ b end.

Lemma trailing_zeros_pow2 k : 0 <= k <= 32 -> trailing_zeros (2 ^ k) = k.
Proof.
  intros Hk.
  assert (forallb (fun k => trailing_zeros (2 ^ k) =? k) (seqZ 0 33) = true) as HF by done.
  rewrite forallb_forall in HF. apply Z.eqb_eq, HF, list_elem_of_In, elem_of_seqZ. lia.
Qed.

Lemma first_full B b b' bs : sized B (bytes_ <$> b :: b' :: bs) -> blen b = B.
Proof. intros H. destruct (H 0%nat _ eq_refl) as [_ Hf]. apply Hf. simpl. lia. Qed.

Lemma new_inv bs B len :
  source_ok bs B -> 0 <= start_of bs -> 0 <= len ->
  start_of bs + len <= Z.of_nat (length (concat (bytes_ <$> bs))) ->
  exists s, new bs len = Ok s /\ blocks s = bs /\ length_ s = len /\ inv s /\
  remaining s = take (Z.to_nat len) (drop (Z.to_nat (start_of bs)) (concat (bytes_ <$> bs))).
Proof.
  intros ((k & Hk & ->) & Hs & Hu & Hmem) H0 Hl He.
  assert (Hp : 2 ^ k <= 2 ^ 32) by (apply Z.pow_le_mono_r; lia).
  destruct bs as [|b [|b' bs]]; cbn [start_of] in *; eexists; (split; [try reflexivity|]).
  - split; [done|]. split; [done|]. split; [|unfold remaining, data; simpl; by rewrite !take_nil]. unfold inv, wf, end_, dlen, data. cbn in *.
    split_and!; first [lia|done|(right; split; [lia|done])].
  - split; [done|]. split; [done|]. split.
    + unfold inv, wf, end_, dlen, data. cbn [blocks block_mask block_bits length_ offset pos].
      split_and!; first [lia|done|(right; split; [simpl; lia|done])|idtac].
      intros i x Hx. destruct (Hs i x Hx) as [Hle Hf].
      split; [lia|]. simpl. lia.
    + unfold remaining, end_, data. cbn [blocks length_ offset pos]. do 2 f_equal. lia.
  - pose proof (first_full _ _ _ _ Hs) as Hb. unfold new. rewrite Hb, trailing_zeros_pow2 by done.
    rewrite (proj2 (Z.ltb_lt k 64)), Z.shiftl_1_l by lia. reflexivity.
  - split; [done|]. split; [done|]. split.
    + unfold inv, wf, end_, dlen, data. cbn [blocks block_mask block_bits length_ offset pos].
      split_and!; first [lia|done|by left].
    + unfold remaining, end_, data. cbn [blocks length_ offset pos]. do 2 f_equal. lia.
Qed.

Lemma drop_blocks B bs : 0 < B -> sized B bs -> forall i : nat, (i < length bs)%nat ->
  drop (Z.to_nat (Z.of_nat i * B)) (concat bs) = concat (drop i bs) /\
  Z.of_nat i * B <= Z.of_nat (length (concat bs)).
Proof.
  intros HB. induction bs as [|b bs IH]; intros Hs i Hi; [simpl in Hi; lia|].
  destruct i as [|i]; [simpl; split; [done|lia]|].
  destruct (Hs 0%nat b eq_refl) as [_ Hf]. simpl in Hf, Hi.
  assert (Z.of_nat (length b) = B) as Hb by (apply Hf; lia).
  destruct (IH (sized_tail _ _ _ Hs) i ltac:(lia)) as [IHd IHl].
  cbn [concat drop]. rewrite length_app. split; [|lia].
  rewrite drop_app_ge by lia. rewrite <- IHd. f_equal. lia.
Qed.

Lemma sized_sub B bs i j : sized B bs -> sized B (take i (drop j bs)).
Proof.
  intros H n b Hb. pose proof (lookup_lt_Some _ _ _ Hb) as Hlt.
  rewrite lookup_take_Some in Hb. destruct Hb as [Hb Hni]. rewrite lookup_drop in Hb.
  destruct (H _ _ Hb) as [Hle Hf]. split; [done|]. intros Hn. apply Hf.
  rewrite length_take, length_drop in Hn. lia.
Qed.

Lemma fmap_imap_pos (f : nat -> Cursor -> Z) (l : list Cursor) :
  bytes_ <$> imap (fun i c => cursor (f i c) (bytes_ c)) l = bytes_ <$> l.
Proof.
  apply list_eq. intros i. rewrite !list_lookup_fmap, list_lookup_imap.
  by destruct (l !! i).
Qed.

(** Enough of the blocks is kept. *)
Lemma part_covers B bs start last e :
  0 < B -> sized B bs -> 0 <= start <= last -> last < Z.of_nat (length bs) ->
  e <= Z.of_nat (length (concat bs)) ->
  e < (last + 1) * B \/ last = Z.of_nat (length bs) - 1 ->
  let part := take (Z.to_nat (last + 1 - start)) (drop (Z.to_nat start) bs) in
  e - start * B <= Z.of_nat (length (concat part)) /\
  exists more, drop (Z.to_nat (start * B)) (concat bs) = concat part ++ more.
Proof.
  intros HB Hs Hst Hlast He Hcov part.
  destruct (drop_blocks B bs HB Hs (Z.to_nat start) ltac:(lia)) as [Hd _].
  rewrite Z2Nat.id in Hd by lia. rewrite Hd.
  assert (Hsplit : concat (drop (Z.to_nat start) bs)
    = concat part ++ concat (drop (Z.to_nat (last + 1)) bs)).
  { unfold part. rewrite <- concat_app. f_equal.
    replace (Z.to_nat (last + 1)) with (Z.to_nat start + Z.to_nat (last + 1 - start))%nat by lia.
    by rewrite <- drop_drop, take_drop. }
  split; [|by eexists]. destruct (drop_blocks B bs HB Hs (Z.to_nat start) ltac:(lia)) as [_ Hle].
  pose proof (f_equal length Hd) as Hlen. rewrite Hsplit, length_drop, length_app in Hlen.
  destruct (decide (last = Z.of_nat (length bs) - 1)) as [Heq|Hne].
  - rewrite (drop_ge bs (Z.to_nat (last + 1))) in Hlen by lia. simpl in Hlen. lia.
  - destruct (drop_blocks B bs HB Hs (Z.to_nat (last + 1)) ltac:(lia)) as [Hd2 Hl2].
    pose proof (f_equal length Hd2) as Hlen2. rewrite length_drop in Hlen2. lia.
Qed.

Lemma pow2_not_zero_test k : 0 <= k <= 32 ->
  negb (2 ^ k =? 0) && (Z.land (2 ^ k) (2 ^ k - 1) =? 0) = true.
Proof.
  intros Hk.
  assert (forallb (fun k => negb (2 ^ k =? 0) && (Z.land (2 ^ k) (2 ^ k - 1) =? 0)) (seqZ 0 33) = true)
    as HF by done.
  rewrite forallb_forall in HF. apply HF, list_elem_of_In, elem_of_seqZ. lia.
Qed.

Lemma sized_total B bs : sized B bs -> Z.of_nat (length (concat bs)) <= Z.of_nat (length bs) * B.
Proof.
  induction bs as [|b bs IH]; intros Hs; [simpl; lia|].
  cbn [concat length]. rewrite length_app. destruct (Hs 0%nat b eq_refl) as [Hle _].
  specialize (IH (sized_tail _ _ _ Hs)). lia.
Qed.

Lemma sub_total {A} (bs : list (list A)) i j : (length (concat (take i (drop j bs))) <= length (concat bs))%nat.
Proof.
  rewrite <- (take_drop j bs) at 2. rewrite <- (take_drop i (drop j bs)) at 2. rewrite !concat_app, !length_app. lia.
Qed.

(** The arithmetic of a slice over several blocks. *)
Lemma slice_part B bl a len : 0 < B -> sized B bl -> bl <> [] -> 0 <= a -> 0 <= len ->
  a + len <= Z.of_nat (length (concat bl)) ->
  let start := a / B in
  let last := Z.min ((a + len) / B) (Z.of_nat (length bl) - 1) in
  let part := take (Z.to_nat (last + 1 - start)) (drop (Z.to_nat start) bl) in
  0 <= start <= last + 1 /\ last + 1 <= Z.of_nat (length bl) /\ 0 <= a - start * B /\
  (part = [] /\ len = 0 \/
   part <> [] /\ a - start * B + len <= Z.of_nat (length (concat part)) /\
   take (Z.to_nat len) (drop (Z.to_nat (a - start * B)) (concat part))
   = take (Z.to_nat len) (drop (Z.to_nat a) (concat bl))).
Proof.
  intros HB Hs Hne Ha Hl He start last part.
  pose proof (sized_total B bl Hs) as Htot.
  assert (Hn : 1 <= Z.of_nat (length bl)) by (destruct bl; [done|simpl; lia]).
  pose proof (Z.div_mod a B ltac:(lia)). pose proof (Z.mod_pos_bound a B HB).
  assert (H2 : 0 <= start) by (apply Z.div_pos; lia).
  assert (Hdm : start <= (a + len) / B) by (apply Z.div_le_mono; lia).
  assert (Hsn : start <= Z.of_nat (length bl)).
  { apply Z.div_le_upper_bound; [done|]. lia. }
  split; [lia|]. split; [lia|]. split; [lia|].
  destruct (decide (start <= last)) as [Hsl|Hns].
  - right. destruct (part_covers B bl start last (a + len)) as (Hlen & more & Hd); auto; try lia.
    { destruct (decide ((a + len) / B <= Z.of_nat (length bl) - 1)); [left|right; lia].
      pose proof (Z.mul_succ_div_gt (a + len) B HB). unfold last. rewrite Z.min_l by lia. lia. }
    fold part in Hlen, Hd. split; [|split; [lia|]].
    + unfold part. intros Hnil%(f_equal length). rewrite length_take, length_drop in Hnil.
      simpl in Hnil. lia.
    + replace (Z.to_nat a) with (Z.to_nat (start * B) + Z.to_nat (a - start * B))%nat by lia.
      rewrite <- drop_drop, Hd, drop_app_le by lia. rewrite take_app_le; [done|].
      rewrite length_drop. lia.
  - left. split; [|nia]. unfold part. by replace (Z.to_nat (last + 1 - start)) with 0%nat by lia.
Qed.

(** The blocks of a slice: they start [off] further and hold the next [len] bytes. *)
Lemma slice_buffer_list_ok bs B off len :
  source_ok bs B -> bs <> [] -> 0 <= start_of bs -> 0 <= off -> 0 <= len ->
  start_of bs + off + len <= Z.of_nat (length (concat (bytes_ <$> bs))) ->
  exists bs', slice_buffer_list bs off len = Ok bs' /\ source_ok bs' B /\ 0 <= start_of bs' /\
    start_of bs' + len <= Z.of_nat (length (concat (bytes_ <$> bs'))) /\
    take (Z.to_nat len) (drop (Z.to_nat (start_of bs')) (concat (bytes_ <$> bs')))
    = take (Z.to_nat len) (drop (Z.to_nat (start_of bs + off)) (concat (bytes_ <$> bs))).
Proof.
  intros Hok Hne H0 Ho Hl He. destruct Hok as ((k & Hk & ->) & Hs & Hu & Hmem) eqn:E. clear E.
  destruct bs as [|b [|b' bs]]; [done| |].
  { cbn [start_of position_] in *. unfold slice_buffer_list. rewrite exact_u_ok by (unfold in_u, i64_MAX in *; lia). cbn [rbind].
    eexists. split; [done|]. cbn [start_of position_].
    change (bytes_ <$> [cursor (position_ b + off) (bytes_ b)]) with (bytes_ <$> [b]).
    split_and!; [done|lia|lia|done]. }
  cbn [start_of] in *. cbv beta iota zeta delta [slice_buffer_list].
  set (all := b :: b' :: bs) in *. do 2 (rewrite exact_u_ok by (unfold in_u, i64_MAX in *; lia); cbn [rbind]).
  rewrite (first_full _ _ _ _ Hs), pow2_not_zero_test by done. cbn [debug_assert rbind].
  rewrite trailing_zeros_pow2, Z.shiftl_1_l by lia.
  set (B := 2 ^ k) in *. assert (HB : 0 < B) by (unfold B; lia).
  set (a := position_ b + off) in *.
  destruct (slice_part B (bytes_ <$> all) a len HB Hs) as (Hst & Hla & Hoff & Hpart); [done|lia..|].
  rewrite length_fmap in *. set (start := a / B) in *. set (last := Z.min _ _) in *.
  rewrite vslice_ok by lia. cbn [rbind]. eexists. split; [done|].
  rewrite <- fmap_drop, <- fmap_take in Hpart.
  set (part := take _ (drop _ all)) in *. rewrite fmap_imap_pos.
  assert (Hland : Z.land a (B - 1) = a - start * B).
  { unfold B. replace (2 ^ k - 1) with (Z.ones k) by (rewrite Z.ones_equiv; lia).
    rewrite Z.land_ones by lia. fold B. pose proof (Z.div_mod a B). unfold start. lia. }
  assert (Hso : source_ok (imap (fun i c => cursor (if (i =? 0)%nat then Z.land a (B - 1) else 0)
      (bytes_ c)) part) B).
  { unfold source_ok. rewrite fmap_imap_pos. split; [by exists k|].
    unfold part. rewrite fmap_take, fmap_drop. split; [by apply sized_sub|].
    split; [apply Forall_concat, Forall_take, Forall_drop, Forall_concat, Hu|]. etransitivity; [|exact Hmem]. apply Nat2Z.inj_le, sub_total. }
  destruct Hpart as [[Hnil ->]|(Hne' & Hlen & Htake)].
  - destruct part; [|done]. split_and!; [done|simpl; lia..|done].
  - destruct part as [|c part]; [done|]. cbn [imap start_of position_ Nat.eqb].
    rewrite Hland. by split_and!.
Qed.

(** * Properties *)

Lemma get_bytes_eof alloc s n : inv s -> 0 < n <= i64_MAX -> end_ s < pos s + n ->
  exists sc cap, get_bytes alloc n s = (Err Eof, with_scratch s sc cap).
Proof.
  intros Hi Hn He. pose proof (inv_pos s Hi). pose proof (wf_end s (proj1 Hi)).
  assert (Hlt : end_ s < pos s + n < 2 ^ 64) by (destruct Hi; unfold i64_MAX in *; lia). unfold get_bytes, contiguous.
  replace (n =? 0) with false by lia. replace (pos s + n <=? end_ s) with false by lia.
  rewrite (proj2 (Z.ltb_ge i64_MAX n)), andb_false_r by lia. destruct (_ && _).
  - destruct (Z.to_nat n) as [|k] eqn:Hk; [lia|]. cbn [gather]. rewrite past_end_eof by lia. by do 2 eexists.
  - set (b := if Z.of_nat (length (scratch s)) <? n then _ else scratch s).
    assert (n <= Z.of_nat (length b)).
    { unfold b. destruct (Z.ltb_spec (Z.of_nat (length (scratch s))) n); [|lia].
      rewrite length_app, length_replicate. lia. }
    set (s0 := with_scratch s [] (alloc (capacity s) n)). unfold read_bytes_into.
    rewrite vslice_ok by lia. destruct (Z.eqb_spec n 1) as [->|].
    + rewrite read_byte_eof; [by do 2 eexists|exact Hi|].
      unfold remaining. change (end_ s0) with (end_ s). change (pos s0) with (pos s).
      by replace (Z.to_nat (end_ s - pos s)) with 0%nat by lia.
    + rewrite do_read_bytes_eof; [by do 2 eexists|lia|done|exact Hlt].
Qed.

Lemma read_bytes_at_ok s p n : inv s -> 0 <= p -> 0 <= n ->
  read_bytes_at s p n
  = if length_ s <? p + n then Err Eof else Ok (seg s (offset s + p) n).
Proof.
  intros [Hwf _] Hp Hn. assert (0 <= offset s) by (destruct Hwf as (_ & _ & _ & ? & _); lia).
  pose proof (wf_end s Hwf). unfold read_bytes_at. destruct (Z.ltb_spec (length_ s) (p + n)); [by rewrite orb_true_r|].
  unfold end_ in *. rewrite (proj2 (Z.leb_gt (2 ^ 64) _)) by lia. cbn [orb].
  destruct (Z.eqb_spec n 0) as [->|Hnz]; [done|]. rewrite exact_u_ok by (unfold in_u; lia). cbn [rbind]. rewrite (Z.add_comm p).
  destruct (chunk_ok s (offset s + p) n Hwf) as (c & -> & _ & Hch & Hv); unfold end_; try lia.
  destruct (Z.leb_spec (block_offset s (offset s + p) + n) (blen c)).
  - by rewrite Z.min_l in Hv by lia.
  - by rewrite gather_ok by (auto; unfold end_; lia).
Qed.

(** What a read of [w] bytes at [p] should give: a position whose end is not a [usize] panics. *)
Definition fixed_at (s : t) (w p : Z) : result Z :=
  if 2 ^ 64 <=? offset s + p + w then Panic
  else if length_ s <? p + w then Err Eof else Ok (from_le_bytes (seg s (offset s + p) w)).

Lemma fetch_at_ok s w p : inv s -> 0 <= p -> 0 < w -> (let? q := exact_u 64 (p + offset s) in fetch s w q) = fixed_at s w p.
Proof.
  intros Hi Hp Hw. assert (0 <= offset s) by (destruct Hi as [(_ & _ & _ & ? & _) _]; lia).
  unfold fixed_at. rewrite (Z.add_comm p (offset s)). destruct (Z.leb_spec (2 ^ 64) (offset s + p + w)) as [Hbig|Hin].
  { unfold exact_u at 1. destruct (decide _); cbn [rbind]; [|done]. unfold fetch, exact_u. rewrite decide_False by (unfold in_u; lia). done. }
  rewrite exact_u_ok by (unfold in_u; lia). cbn [rbind]. destruct (Z.ltb_spec (length_ s) (p + w)).
  - apply fetch_eof; [done|lia|]. unfold end_. lia.
  - apply fetch_ok; [apply Hi|lia|done|]. unfold end_. lia.
Qed.

Lemma read_byte_at_ok s p : inv s -> 0 <= p < length_ s -> exists b, read_byte_at s p = Ok b /\ seg s (offset s + p) 1 = [b].
Proof.
  intros Hi Hp. pose proof (wf_end s (proj1 Hi)) as He. assert (0 <= offset s) by (destruct Hi as [(_ & _ & _ & ? & _) _]; lia).
  unfold read_byte_at, end_ in *. rewrite exact_u_ok by (unfold in_u; lia). cbn [rbind]. rewrite (proj2 (Z.leb_gt _ _)) by lia.
  rewrite (Z.add_comm p (offset s)).
  destruct (chunk_ok s (offset s + p) 1 (proj1 Hi)) as (c & -> & _ & Hch & Hv); [lia|lia|unfold end_; lia|]. rewrite Z.min_l in Hv by lia.
  unfold vslice in Hv. destruct (_ && _) in Hv; [|discriminate]. injection Hv as Hv.
  replace (block_offset s (offset s + p) + 1 - block_offset s (offset s + p)) with 1 in Hv by lia.
  pose proof (seg_length s (offset s + p) 1 (proj1 Hi) ltac:(lia) ltac:(lia) ltac:(unfold end_; lia)) as Hl.
  destruct (drop _ (bytes_ c)) as [|x l] eqn:Hd; [rewrite <- Hv, take_nil in Hl; cbn in Hl; lia|].
  rewrite <- (Nat.add_0_r (Z.to_nat (block_offset s _))), <- lookup_drop, Hd. exists x. by rewrite <- Hv.
Qed.

(** C21: Every read of a [ByteBuffersDataInput] returns exactly the bytes the blocks hold
    at that place, however they straddle blocks, or an end-of-file error when the input
    ends before: the random-access reads ([read_bytes], [read_short], [read_int],
    [read_long] at a position) and the sequential [get_bytes], which moves by the bytes
    it returns and not at all when it fails. A fixed-width read panics for a position whose
    end, counted from the start of the blocks, is not a [usize], and only then; [get_bytes]
    is for lengths a vector can have. *)
Theorem reads_exact_or_eof alloc s p n :
  inv s -> 0 <= p -> 0 <= n ->
  read_bytes_at s p n = (if length_ s <? p + n then Err Eof else Ok (seg s (offset s + p) n)) /\
  read_short_at s p = fixed_at s 2 p /\ read_int_at s p = fixed_at s 4 p /\
  read_long_at s p = fixed_at s 8 p /\
  (n <= i64_MAX -> exists s', get_bytes alloc n s
    = ((if end_ s <? pos s + n then Err Eof else Ok (seg s (pos s) n)), s') /\
    inv s' /\ pos s' = if end_ s <? pos s + n then pos s else pos s + n).
Proof.
  intros Hi Hp Hn. split; [by apply read_bytes_at_ok|].
  do 3 (split; [by apply fetch_at_ok|]). intros Hmax.
  destruct (Z.ltb_spec (end_ s) (pos s + n)).
  - assert (0 < n) by (destruct Hi as [_ ?]; lia).
    destruct (get_bytes_eof alloc s n Hi) as (sc & cap & ->); [lia|done|]. by eexists.
  - destruct (get_bytes_ok alloc s n Hi) as (sc & cap & ->); auto.
    eexists. split; [done|]. split; [|done]. destruct Hi as [Hwf Hpos].
    split; [exact Hwf|]. change (offset s <= pos s + n <= end_ s). lia.
Qed.

(** An input, or a value without blocks where the constructor fails. *)
Definition built (r : result t) : t := match r with Ok s => s | _ => mk [] 0 0 0 0 0 [] 0 end.

(** Three blocks of four bytes and a shorter one, starting at the second byte. *)
Definition sample : t :=
  built (new [cursor 1 [10; 11; 12; 13]; cursor 0 [20; 21; 150; 23]; cursor 0 [30; 31; 32; 33];
       cursor 0 [40; 41; 42; 43]; cursor 0 [50; 51; 52; 53]; cursor 0 [60; 61]] 20).

Lemma sample_source : source_ok (blocks sample) 4.
Proof.
  split; [exists 2; lia|]. split.
  - intros i b Hb. do 6 (destruct i as [|i]; [injection Hb as <-; simpl; lia|]). discriminate.
  - split; [|vm_compute; discriminate]. vm_compute. repeat (constructor; [split; [discriminate|done]|]). constructor.
Qed.

Lemma sample_input_inv : inv sample.
Proof.
  destruct (new_inv _ 4 20 sample_source) as (s & E & _ & _ & Hi & _); [vm_compute; discriminate..|].
  vm_compute in E. injection E as <-. exact Hi.
Qed.

Lemma reads_exact_or_eof_witness :
  read_bytes_at sample 2 5 = Ok [13; 20; 21; 150; 23] /\
  read_int_at sample 1 = Ok (from_le_bytes [12; 13; 20; 21]) /\
  read_long_at sample 15 = Err Eof /\ read_long_at sample (2 ^ 64 - 5) = Panic /\
  exists s', get_bytes (fun _ n => n) 6 sample = (Ok [11; 12; 13; 20; 21; 150], s') /\ pos s' = 7.
Proof.
  destruct (reads_exact_or_eof (fun _ n => n) sample 2 5 sample_input_inv) as (H1 & _); [lia..|].
  destruct (reads_exact_or_eof (fun _ n => n) sample 1 6 sample_input_inv)
    as (_ & _ & H2 & _ & HG); [lia..|]. destruct HG as (s' & H3 & _ & H4); [vm_compute; discriminate|].
  destruct (reads_exact_or_eof (fun _ n => n) sample 15 6 sample_input_inv) as (_ & _ & _ & H5 & _); [lia..|].
  destruct (reads_exact_or_eof (fun _ n => n) sample (2 ^ 64 - 5) 6 sample_input_inv) as (_ & _ & _ & H6 & _); [lia..|].
  split; [exact H1|]. split; [exact H2|]. split; [exact H5|]. split; [exact H6|]. exists s'. split; [exact H3|exact H4].
Defined.

(** The unrolled [read_vint] of [ByteBuffersDataInput], which takes up to four
    continuation bytes from the current block, is the default [read_vint] of the trait:
    same value, same error, same position, on every input, also for codes that cross a
    block, end early or run longer than five bytes. *)
Theorem read_vint_override_agrees alloc fuel s :
  inv s -> (length (remaining s) <= fuel)%nat ->
  read_vint alloc fuel s = @DataInput.read_vint t (data_input alloc) fuel s.
Proof. apply override_agrees. Qed.

Lemma read_vint_override_agrees_witness :
  read_vint (fun _ n => n) 20 (at_ sample 6)
  = @DataInput.read_vint t (data_input (fun _ n => n)) 20 (at_ sample 6) /\
  (read_vint (fun _ n => n) 20 (at_ sample 6)).1 = Ok 2966.
Proof.
  split; [|reflexivity].
  apply (read_vint_override_agrees (fun _ n => n) 20 (at_ sample 6)).
  - split; [apply sample_input_inv|]. vm_compute. split; discriminate.
  - vm_compute. lia.
Defined.

(** C30: The group-varint fast path: reading four integers at once from the block and
    masking them gives the values the byte-at-a-time reader gives, and leaves the input
    at the same place, on every state and for every flag byte; where fewer than
    seventeen bytes remain in the block the code takes the slow reader, and at the end
    of the input both report end of file. *)
Theorem group_vint_fast_path alloc dst off s :
  inv s -> 0 <= off -> off + 4 <= Z.of_nat (length dst) ->
  (read_group_vint alloc dst off s).1
  = (@read_group_vint_i32 t (data_input alloc) dst off s).1 /\
  remaining (read_group_vint alloc dst off s).2
  = remaining (@read_group_vint_i32 t (data_input alloc) dst off s).2.
Proof. apply group_agrees. Qed.

Definition sample1 : t :=
  built (new [cursor 0 [0x90; 1; 2; 3; 4; 5; 6; 7; 8; 9; 10; 11; 12; 13; 14; 15; 16; 17; 18; 19]] 20).

Lemma sample1_inv : inv sample1.
Proof.
  destruct (new_inv (blocks sample1) (2 ^ 32) 20) as (s & E & _ & _ & Hi & _); [|vm_compute; discriminate..|].
  - split; [exists 32; lia|]. split.
    + intros [|i] b Hb; [injection Hb as <-; simpl; lia|discriminate].
    + split; [|vm_compute; discriminate]. vm_compute. repeat (constructor; [split; [discriminate|done]|]). constructor.
  - vm_compute in E. injection E as <-. exact Hi.
Qed.

Lemma group_vint_fast_path_witness :
  (read_group_vint (fun _ n => n) [0; 0; 0; 0] 0 sample1).1 = Ok [0x030201; 0x0504; 6; 7] /\
  (read_group_vint (fun _ n => n) [0; 0; 0; 0] 0 sample1).1
  = (@read_group_vint_i32 t (data_input (fun _ n => n)) [0; 0; 0; 0] 0 sample1).1 /\
  remaining (read_group_vint (fun _ n => n) [0; 0; 0; 0] 0 sample1).2
  = remaining (@read_group_vint_i32 t (data_input (fun _ n => n)) [0; 0; 0; 0] 0 sample1).2.
Proof.
  split; [reflexivity|].
  apply (group_vint_fast_path (fun _ n => n) [0; 0; 0; 0] 0 sample1); [exact sample1_inv|lia|simpl; lia].
Defined.

(** A slice holds exactly the requested range: the input built from blocks shows
    their bytes from the first block's position on, a slice within its length is again
    such an input, over blocks of the same size, and reads [length] bytes from [offset]
    on; a slice beyond the length is refused with an illegal argument error. *)
Theorem slice_correct bs B len0 off len :
  source_ok bs B -> bs <> [] -> 0 <= start_of bs -> 0 <= len0 ->
  start_of bs + len0 <= Z.of_nat (length (concat (bytes_ <$> bs))) -> 0 <= off -> 0 <= len -> off + len < 2 ^ 64 ->
  exists s, new bs len0 = Ok s /\ inv s /\
  if len0 <? off + len then slice s off len = Err IllegalArgument
  else exists s', slice s off len = Ok s' /\ source_ok (blocks s') B /\ inv s' /\
     remaining s' = take (Z.to_nat len) (drop (Z.to_nat off) (remaining s)).
Proof.
  intros Hok Hne H0 Hl0 He Ho Hl Hu.
  destruct (new_inv bs B len0 Hok H0 Hl0 He) as (s & -> & Hbl & Hlen & Hinv & Hrem). exists s. split; [done|]. split; [done|].
  unfold slice. rewrite exact_u_ok by (unfold in_u; lia). cbn [rbind]. rewrite Hlen, Hbl. destruct (Z.ltb_spec len0 (off + len)); [done|].
  destruct (slice_buffer_list_ok bs B off len) as (bs' & -> & Hok' & H0' & He' & Heq); auto; [lia|].
  cbn [rbind]. destruct (new_inv bs' B len Hok' H0' Hl He') as (s' & -> & Hbl' & _ & Hinv' & Hrem'). exists s'.
  rewrite Hbl'. split_and!; auto. rewrite Hrem', Hrem, Heq.
  rewrite skipn_firstn_comm, drop_drop, take_take. f_equal; [lia|]. f_equal. lia.
Qed.

Lemma slice_correct_witness :
  exists s, new (blocks sample) 20 = Ok s /\ inv s /\
    exists s', slice s 5 6 = Ok s' /\ remaining s' = [150; 23; 30; 31; 32; 33].
Proof.
  destruct (slice_correct (blocks sample) 4 20 5 6 sample_source) as (s & E & Hi & s' & E' & _ & _ & Hr);
    [discriminate|vm_compute; discriminate|lia|vm_compute; discriminate|lia|lia|lia|].
  exists s. split; [done|]. split; [done|]. exists s'. split; [done|]. rewrite Hr.
  vm_compute in E. injection E as <-. reflexivity.
Defined.

(** Two corners of the code. A slice of no bytes at the end of completely filled blocks
    has no blocks, and slicing it again indexes the first of them. *)
Lemma empty_slice_cannot_be_sliced :
  exists s', slice (built (new [cursor 0 [1; 2]; cursor 0 [3; 4]] 4)) 4 0 = Ok s' /\ slice s' 0 0 = Panic.
Proof. exists (built (new [] 0)). by split. Qed.

(** A seek beyond the end leaves an input with an offset at [length], not at the end of
    its range, which for an offset above the length is no position at all. *)
Lemma failed_seek_leaves_range :
  let s := built (new [cursor 3 [1; 2; 3; 4]] 1) in
  (seek 2 s).1 = Err Eof /\ position (seek 2 s).2 = Err IllegalState.
Proof. by split. Qed.

End ByteBuffersDataInput.
