(* ===== verification/FixedBitSet.v ===== *)
(** Model of [FixedBitSet] (src/core/util/fixed_bit_set.rs): a bit set of [num_bits]
    bits in 64-bit words, whose bits past [num_bits] (the ghost bits) stay clear. Single
    bits, ranges, the word-wise set operations, counts, searches in both directions and
    growth, refined to the set of the indices of its one bits; and the default
    [Bits::copy_of] (src/core/util/bits.rs). *)

From Stdlib Require Import ZArith Lia Bool.
From stdpp Require Import base tactics numbers list.
From S2P Require Import Prelude ArrayUtil.

Local Open Scope Z_scope.

Module FixedBitSet.

Definition NO_MORE_DOCS : Z := i32_MAX.

Record t := mk { bits : list Z; num_bits : Z; num_words : Z }.

Definition with_bits (s : t) (b : list Z) : t := mk b (num_bits s) (num_words s).

(** * Machine operations on a 64-bit word *)

(** How many of the [n] integers from [a] on satisfy [h]. *)
Fixpoint count (h : Z -> bool) (n : nat) (a : Z) : Z :=
  match n with
  | O => 0
  | S n => (if h a then 1 else 0) + count h n (a + 1)
  end.

Definition count_ones (w : Z) : Z := count (Z.testbit w) 64 0.

Fixpoint first_bit (n : nat) (w i : Z) : Z :=
  match n with
  | O => i
  | S n => if Z.testbit w i then i else first_bit n w (i + 1)
  end.
Definition trailing_zeros (w : Z) : Z := first_bit 64 w 0.

Fixpoint lead (n : nat) (w : Z) : Z :=
  match n with
  | O => 0
  | S n => if Z.testbit w (Z.of_nat n) then 0 else 1 + lead n w
  end.
Definition leading_zeros (w : Z) : Z := lead 64 w.

(** [1_i64 << (index % 64)], [-1_i64 << k] and [(u64::MAX >> k) as i64] *)
Definition bit_mask (index : Z) : Z := wrap_s 64 (Z.shiftl 1 (index mod 64)).
Definition start_mask_of (start_index : Z) : Z := wrap_s 64 (Z.shiftl (-1) (start_index mod 64)).
Definition end_mask_of (end_index : Z) : Z :=
  let shift := Z.land (wrap_u 64 (0 - end_index)) 63 in
  wrap_s 64 (Z.shiftr (2 ^ 64 - 1) shift).

(** * Construction *)

Definition bits2words (num_bits : Z) : Z := (num_bits + 63) / 64.

Definition verify_ghost_bits_clear (s : t) : result bool :=
  let? tail := vslice (bits s) (num_words s) (Z.of_nat (length (bits s))) in
  if negb (forallb (fun w => w =? 0) tail) then Ok false
  else if Z.land (num_bits s) 0x3f =? 0 then Ok true
  else
    let mask := wrap_s 64 (Z.shiftl (-1) (num_bits s mod 64)) in
    let? w := vget (bits s) (num_words s - 1) in
    Ok (Z.land w mask =? 0).

Definition from_validated_parts (bits : list Z) (num_bits num_words : Z) : result t :=
  let? _ := debug_assert (num_words =? bits2words num_bits) in
  let? _ := debug_assert (num_words <=? Z.of_nat (length bits)) in
  let bit_set := mk bits num_bits num_words in
  let? ok := verify_ghost_bits_clear bit_set in
  let? _ := debug_assert ok in
  Ok bit_set.

Definition new (num_bits : Z) : result t :=
  let size := bits2words num_bits in
  from_validated_parts (replicate (Z.to_nat size) 0) num_bits size.

Definition with_capacity (stored_bits : list Z) (num_bits : Z) : result t :=
  let num_words := bits2words num_bits in
  if Z.of_nat (length stored_bits) <? num_words then Err IllegalArgument
  else from_validated_parts stored_bits num_bits num_words.

(** * Single bits *)

(** [self.bits[w] = f(self.bits[w])] *)
Definition update (b : list Z) (w : Z) (f : Z -> Z) : result (list Z) :=
  let? old := vget b w in vset b w (f old).

Definition get (s : t) (index : Z) : result bool :=
  let? _ := debug_assert (index <? num_bits s) in
  let? w := vget (bits s) (Z.shiftr index 6) in
  Ok (negb (Z.land (bit_mask index) w =? 0)).

Definition set (s : t) (i : Z) : result t :=
  let? _ := debug_assert (i <? num_bits s) in
  let? b := update (bits s) (Z.shiftr i 6) (fun w => Z.lor w (bit_mask i)) in
  Ok (with_bits s b).

Definition get_and_set (s : t) (i : Z) : result (bool * t) :=
  let? _ := debug_assert (i <? num_bits s) in
  let? w := vget (bits s) (Z.shiftr i 6) in
  let val := negb (Z.land w (bit_mask i) =? 0) in
  if negb val then
    let? b := vset (bits s) (Z.shiftr i 6) (Z.lor w (bit_mask i)) in
    Ok (val, with_bits s b)
  else Ok (val, s).

Definition clear_with_index (s : t) (i : Z) : result t :=
  let? _ := debug_assert (i <? num_bits s) in
  let? b := update (bits s) (Z.shiftr i 6) (fun w => Z.land w (Z.lnot (bit_mask i))) in
  Ok (with_bits s b).

Definition get_and_clear (s : t) (index : Z) : result (bool * t) :=
  let? _ := debug_assert (index <? num_bits s) in
  let? w := vget (bits s) (Z.shiftr index 6) in
  let val := negb (Z.land w (bit_mask index) =? 0) in
  let? b := vset (bits s) (Z.shiftr index 6) (Z.land w (Z.lnot (bit_mask index))) in
  Ok (val, with_bits s b).

Definition flip (s : t) (index : Z) : result t :=
  let? _ := debug_assert (index <? num_bits s) in
  let? b := update (bits s) (Z.shiftr index 6) (fun w => Z.lxor w (bit_mask index)) in
  Ok (with_bits s b).

Definition clear (s : t) : t := with_bits s (replicate (length (bits s)) 0).

(** * Ranges *)

(** [for i in from..from + n { self.bits[i] = f(self.bits[i]) }] *)
Fixpoint update_words (n : nat) (from : Z) (f : Z -> Z) (b : list Z) : result (list Z) :=
  match n with
  | O => Ok b
  | S n => let? b := update b from f in update_words n (from + 1) f b
  end.

(** The three range operations: [both] for a range within one word, [first] and [last]
    for the words at its ends, [mid] for the words between. *)
Definition range_op (both : Z -> Z -> Z -> Z) (first : Z -> Z -> Z) (mid : Z -> Z)
    (last : Z -> Z -> Z) (s : t) (start_index end_index : Z) : result t :=
  let? _ := debug_assert (start_index <? num_bits s) in
  let? _ := debug_assert (end_index <=? num_bits s) in
  if end_index <=? start_index then Ok s
  else
    let start_word := Z.shiftr start_index 6 in
    let end_word := Z.shiftr (end_index - 1) 6 in
    let start_mask := start_mask_of start_index in
    let end_mask := end_mask_of end_index in
    if start_word =? end_word then
      let? b := update (bits s) start_word (both start_mask end_mask) in
      Ok (with_bits s b)
    else
      let? b := update (bits s) start_word (first start_mask) in
      let? b := update_words (Z.to_nat (end_word - (start_word + 1))) (start_word + 1) mid b in
      let? b := update b end_word (last end_mask) in
      Ok (with_bits s b).

Definition flip_range : t -> Z -> Z -> result t :=
  range_op (fun sm em w => Z.lxor w (Z.land sm em)) (fun m w => Z.lxor w m)
    Z.lnot (fun m w => Z.lxor w m).

Definition set_with_range : t -> Z -> Z -> result t :=
  range_op (fun sm em w => Z.lor w (Z.land sm em)) (fun m w => Z.lor w m)
    (fun _ => -1) (fun m w => Z.lor w m).

Definition clear_range : t -> Z -> Z -> result t :=
  range_op (fun sm em w => Z.land w (Z.lor (Z.lnot sm) (Z.lnot em)))
    (fun m w => Z.land w (Z.lnot m)) (fun _ => 0) (fun m w => Z.land w (Z.lnot m)).

(** * Set operations *)

(** [for i in (0..n).rev() { self.bits[i + off] = f(self.bits[i + off], other[i]) }] *)
Fixpoint combine_rev (n : nat) (off : Z) (f : Z -> Z -> Z) (other b : list Z) : result (list Z) :=
  match n with
  | O => Ok b
  | S n =>
      let? o := vget other (Z.of_nat n) in
      let? b := update b (Z.of_nat n + off) (fun w => f w o) in
      combine_rev n off f other b
  end.

(** The slice form of the same loop, which [or_impl] and [and_not_impl] take when both
    ranges exist. *)
Definition combine (pos off : Z) (f : Z -> Z -> Z) (other b : list Z) : result (list Z) :=
  if (off + pos <=? Z.of_nat (length b)) && (pos <=? Z.of_nat (length other)) then
    let p := Z.to_nat pos in
    let o := Z.to_nat off in
    Ok (take o b ++ zip_with f (take p (drop o b)) (take p other) ++ drop (o + p) b)
  else combine_rev (Z.to_nat pos) off f other b.

Definition or_impl (s : t) (other_offset_words : Z) (other_arr : list Z) (other_num_words : Z) :
    result t :=
  let? _ := debug_assert (other_num_words + other_offset_words <=? num_words s) in
  let pos := Z.min (num_words s - other_offset_words) other_num_words in
  if pos =? 0 then Ok s
  else
    let? b := combine pos other_offset_words Z.lor other_arr (bits s) in
    Ok (with_bits s b).

Definition or (s other : t) : result t := or_impl s 0 (bits other) (num_words other).
Definition or_offset (s : t) (other_offset_words : Z) (other : t) : result t :=
  or_impl s other_offset_words (bits other) (num_words other).

Definition xor_impl (s : t) (other_bits : list Z) (other_num_words : Z) : result t :=
  let? _ := debug_assert (other_num_words <=? num_words s) in
  let pos := Z.min (num_words s) other_num_words in
  let? b := combine_rev (Z.to_nat pos) 0 Z.lxor other_bits (bits s) in
  Ok (with_bits s b).
Definition xor (s other : t) : result t := xor_impl s (bits other) (num_words other).

Definition and_self (s : t) (other_arr : list Z) (other_num_words : Z) : result t :=
  let pos := Z.min (num_words s) other_num_words in
  let? b := combine_rev (Z.to_nat pos) 0 Z.land other_arr (bits s) in
  if other_num_words <? num_words s then
    let? b := update_words (Z.to_nat (num_words s - other_num_words)) other_num_words
                (fun _ => 0) b in
    Ok (with_bits s b)
  else Ok (with_bits s b).
Definition and (s other : t) : result t := and_self s (bits other) (num_words other).

Definition and_not_impl (s : t) (other_offset_words : Z) (other_arr : list Z)
    (other_num_words : Z) : result t :=
  let pos := Z.min (Z.max 0 (num_words s - other_offset_words)) other_num_words in
  if pos =? 0 then Ok s
  else
    let? b := combine pos other_offset_words (fun w o => Z.land w (Z.lnot o)) other_arr (bits s) in
    Ok (with_bits s b).
Definition and_not_fixed_bit_set (s other : t) : result t :=
  and_not_impl s 0 (bits other) (num_words other).
Definition and_not_offset (s : t) (other_offset_words : Z) (other : t) : result t :=
  and_not_impl s other_offset_words (bits other) (num_words other).

(** [scan_rest], over the reversed pairs of words: groups of four from the right, then
    the remainder. *)
Fixpoint scan_groups (l : list (Z * Z)) : bool :=
  match l with
  | p3 :: p2 :: p1 :: p0 :: rest =>
      let a (p : Z * Z) := Z.land p.1 p.2 in
      if negb (Z.lor (Z.lor (Z.lor (a p3) (a p2)) (a p1)) (a p0) =? 0) then true
      else scan_groups rest
  | tail => existsb (fun p => negb (Z.land p.1 p.2 =? 0)) tail
  end.
Definition scan_rest (a b : list Z) : bool :=
  if (length a <? 2)%nat then existsb (fun p => negb (Z.land p.1 p.2 =? 0)) (rev (zip a b))
  else scan_groups (rev (zip a b)).

Definition intersects (s other : t) : result bool :=
  let pos := Z.min (num_words s) (num_words other) in
  if pos =? 0 then Ok false
  else
    let last := pos - 1 in
    let? a := vget (bits s) last in
    let? b := vget (bits other) last in
    if negb (Z.land a b =? 0) then Ok true
    else
      let? la := vslice (bits s) 0 last in
      let? lb := vslice (bits other) 0 last in
      Ok (scan_rest la lb).

(** * Counts *)

(** [for i in from..from + n { tot += f(i).count_ones() }] *)
Fixpoint sum_words (n : nat) (from : Z) (f : Z -> result Z) (tot : Z) : result Z :=
  match n with
  | O => Ok tot
  | S n => let? w := f from in sum_words n (from + 1) f (tot + count_ones w)
  end.

Definition cardinality (s : t) : result Z :=
  sum_words (Z.to_nat (num_words s)) 0 (vget (bits s)) 0.

Definition both_words (f : Z -> Z -> Z) (a b : t) (i : Z) : result Z :=
  let? x := vget (bits a) i in let? y := vget (bits b) i in Ok (f x y).

Definition intersection_count (a b : t) : result Z :=
  let common := Z.min (num_words a) (num_words b) in
  sum_words (Z.to_nat common) 0 (both_words Z.land a b) 0.

Definition union_count (a b : t) : result Z :=
  let common := Z.min (num_words a) (num_words b) in
  let? tot := sum_words (Z.to_nat common) 0 (both_words Z.lor a b) 0 in
  let? tot := sum_words (Z.to_nat (num_words a - common)) common (vget (bits a)) tot in
  sum_words (Z.to_nat (num_words b - common)) common (vget (bits b)) tot.

Definition and_not_count (a b : t) : result Z :=
  let common := Z.min (num_words a) (num_words b) in
  let? tot := sum_words (Z.to_nat common) 0 (both_words (fun x y => Z.land x (Z.lnot y)) a b) 0 in
  sum_words (Z.to_nat (num_words a - common)) common (vget (bits a)) tot.

(** The sampling loop of [approximate_cardinality]: sixteen words of every 1024. *)
Fixpoint sample_words (fuel : nat) (s : t) (max_word pop_count : Z) : result (Z * Z) :=
  if max_word + 1024 <? num_words s then
    match fuel with
    | O => OutOfFuel
    | S fuel =>
        let? pop_count := sum_words 16 max_word (vget (bits s)) pop_count in
        sample_words fuel s (max_word + 1024) pop_count
    end
  else Ok (max_word, pop_count).

Definition approximate_cardinality (s : t) : result Z :=
  if num_words s <=? 1024 then cardinality s
  else
    let? (max_word, pop_count) := sample_words (Z.to_nat (num_words s)) s 0 0 in
    Ok (pop_count * (1024 / 16 * num_words s / max_word)).

(** * Searches *)

(** The first word of a group of the scan that is not zero. *)
Fixpoint scan_group (group : list Z) (i : Z) : option Z :=
  match group with
  | [] => None
  | word :: group =>
      if word =? 0 then scan_group group (i + 1)
      else Some (Z.shiftl i 6 + trailing_zeros word)
  end.

(** [for group in words.chunks(16)]; returns the answer or the index after the words. *)
Fixpoint scan_chunks (fuel : nat) (words : list Z) (i : Z) : Z + Z :=
  match words, fuel with
  | [], _ => inr i
  | _, O => inr i
  | _, S fuel =>
      let group := take 16 words in
      let hit :=
        if (length group <? 16)%nat || negb (fold_left Z.lor group 0 =? 0)
        then scan_group group i else None in
      match hit with
      | Some r => inl r
      | None => scan_chunks fuel (drop 16 words) (i + Z.of_nat (length group))
      end
  end.

(** The closing [while i < limit]. *)
Fixpoint scan_tail (fuel : nat) (b : list Z) (limit i : Z) : result Z :=
  if i <? limit then
    match fuel with
    | O => OutOfFuel
    | S fuel =>
        let? word := vget b i in
        if word =? 0 then scan_tail fuel b limit (i + 1)
        else Ok (Z.shiftl i 6 + trailing_zeros word)
    end
  else Ok NO_MORE_DOCS.

Definition next_set_bit_impl (s : t) (start upper_bound : Z) : result Z :=
  let? _ := debug_assert (start <? num_bits s) in
  let? _ := debug_assert (start <? upper_bound) in
  let? _ := debug_assert (upper_bound <=? num_bits s) in
  let i := Z.shiftr start 6 in
  let? w := vget (bits s) i in
  let word := Z.shiftr w (start mod 64) in
  if negb (word =? 0) then Ok (start + trailing_zeros word)
  else
    let limit := if upper_bound =? num_bits s then num_words s else bits2words upper_bound in
    let scan_from (i : Z) : result Z :=
      let scan_limit := Z.min limit (Z.of_nat (length (bits s))) in
      let? words := vslice (bits s) (Z.min i scan_limit) scan_limit in
      match scan_chunks (length words) words i with
      | inl r => Ok r
      | inr i => scan_tail (Z.to_nat (limit - i)) (bits s) limit i
      end in
    let i := i + 1 in
    if i <? limit then
      let? word := vget (bits s) i in
      if negb (word =? 0) then Ok (Z.shiftl i 6 + trailing_zeros word)
      else scan_from (i + 1)
    else scan_from i.

Definition next_set_bit_range (s : t) (start end_ : Z) : result Z :=
  let? res := next_set_bit_impl s start end_ in
  if res <? end_ then Ok res else Ok NO_MORE_DOCS.

Definition next_set_bit (s : t) (index : Z) : result Z := next_set_bit_range s index (num_bits s).

(** [for i in (0..n).rev()] *)
Fixpoint prev_words (n : nat) (b : list Z) : result (option Z) :=
  match n with
  | O => Ok None
  | S n =>
      let? word := vget b (Z.of_nat n) in
      if negb (word =? 0) then Ok (Some (Z.shiftl (Z.of_nat n) 6 + 63 - leading_zeros word))
      else prev_words n b
  end.

Definition prev_set_bit (s : t) (index : Z) : result (option Z) :=
  let? _ := debug_assert (index <? num_bits s) in
  let i := Z.shiftr index 6 in
  let sub_index := Z.land index 0x3f in
  let? w := vget (bits s) i in
  let word := wrap_s 64 (Z.shiftl w (63 - sub_index mod 64)) in
  if negb (word =? 0) then Ok (Some (Z.shiftl i 6 + sub_index - leading_zeros word))
  else prev_words (Z.to_nat i) (bits s).

(** * Growth *)

Definition ensure_capacity (s : t) (num_bits_ : Z) : result t :=
  if num_bits_ <? num_bits s then Ok s
  else
    let num_words_ := bits2words num_bits_ in
    let? b := if Z.of_nat (length (bits s)) <=? num_words_
              then ArrayUtil.grow_with 8 (bits s) (num_words_ + 1) 0 else Ok (bits s) in
    let? _ := debug_assert (Z.of_nat (length b) <=? i32_MAX) in
    let nb := Z.shiftl (Z.of_nat (length b)) 6 in
    Ok (mk b nb (bits2words nb)).

(** * [Bits::copy_of] *)

(** [for i in from..from + n { if !self.get(i)? { bit_set.clear_with_index(i)? } }] *)
Fixpoint copy_loop (n : nat) (from : Z) (get_ : Z -> result bool) (s : t) : result t :=
  match n with
  | O => Ok s
  | S n =>
      let? b := get_ from in
      let? s := if negb b then clear_with_index s from else Ok s in
      copy_loop n (from + 1) get_ s
  end.

Definition copy_of (length_ : Z) (get_ : Z -> result bool) : result t :=
  let? s := new length_ in
  let? s := set_with_range s 0 length_ in
  copy_loop (Z.to_nat length_) 0 get_ s.

(** * The set of one bits *)

(** Bit [j] of a list of words. *)
Definition bitl (b : list Z) (j : Z) : bool :=
  match b !! Z.to_nat (j / 64) with Some w => Z.testbit w (j mod 64) | None => false end.

Definition bit (s : t) (j : Z) : bool := bitl (bits s) j.

Definition inv (s : t) : Prop :=
  0 <= num_bits s /\ num_words s = bits2words (num_bits s) /\
  num_words s <= Z.of_nat (length (bits s)) /\ Forall (in_s 64) (bits s) /\
  forall j, num_bits s <= j -> bit s j = false.

(** [s'] has the size of [s] and the bits [f]. *)
Definition becomes (s s' : t) (f : Z -> bool) : Prop :=
  inv s' /\ num_bits s' = num_bits s /\ length (bits s') = length (bits s) /\
  forall j, 0 <= j -> bit s' j = f j.

(** The same without the invariant: [f] may hold at or past [num_bits]. *)
Definition fills (s s' : t) (f : Z -> bool) : Prop :=
  num_bits s' = num_bits s /\ num_words s' = num_words s /\ length (bits s') = length (bits s) /\
  Forall (in_s 64) (bits s') /\ forall j, 0 <= j -> bit s' j = f j.

Lemma div64 j : 0 <= j -> 64 * (j / 64) <= j < 64 * (j / 64) + 64 /\ 0 <= j / 64 /\
  0 <= j mod 64 < 64 /\ j = 64 * (j / 64) + j mod 64.
Proof.
  intros. pose proof (Z.div_mod j 64 ltac:(lia)). pose proof (Z.mod_pos_bound j 64 ltac:(lia)).
  pose proof (Z.div_pos j 64). lia.
Qed.

Lemma shiftr6 i : Z.shiftr i 6 = i / 64.
Proof. by rewrite Z.shiftr_div_pow2 by lia. Qed.

Lemma bits2words_spec n : 0 <= n -> 64 * bits2words n - 63 <= n + 0 <= 64 * bits2words n /\
  0 <= bits2words n /\ (n = 0 -> bits2words n = 0) /\ n <= 64 * bits2words n < n + 64.
Proof.
  intros. unfold bits2words. pose proof (Z.div_mod (n + 63) 64 ltac:(lia)).
  pose proof (Z.mod_pos_bound (n + 63) 64 ltac:(lia)). lia.
Qed.

Lemma index_word s i : inv s -> 0 <= i < num_bits s ->
  0 <= i / 64 < num_words s /\ i / 64 < Z.of_nat (length (bits s)).
Proof.
  intros (H0 & Hw & Hl & _) Hi. pose proof (bits2words_spec (num_bits s) H0).
  pose proof (div64 i ltac:(lia)). rewrite Hw in *. lia.
Qed.

(** * Masks *)

Lemma bit_mask_testbit i k : 0 <= k < 64 -> Z.testbit (bit_mask i) k = (k =? i mod 64).
Proof.
  intros Hk. unfold bit_mask. pose proof (Z.mod_pos_bound i 64 ltac:(lia)).
  rewrite wrap_s_testbit, Z.min_l by lia. rewrite Z.shiftl_spec by lia.
  destruct (Z.eqb_spec k (i mod 64)) as [->|Hne].
  - by rewrite Z.sub_diag.
  - destruct (decide (k < i mod 64)); [by rewrite Z.testbit_neg_r by lia|].
    apply (in_u_testbit 1); [unfold in_u; lia|lia].
Qed.

Lemma start_mask_testbit i k : 0 <= k < 64 -> Z.testbit (start_mask_of i) k = (i mod 64 <=? k).
Proof.
  intros Hk. unfold start_mask_of. pose proof (Z.mod_pos_bound i 64 ltac:(lia)).
  rewrite wrap_s_testbit, Z.min_l by lia. rewrite Z.shiftl_spec by lia.
  destruct (Z.leb_spec (i mod 64) k); [by rewrite Z.bits_m1 by lia|by rewrite Z.testbit_neg_r by lia].
Qed.

Lemma end_mask_testbit i k : 0 <= k < 64 -> Z.testbit (end_mask_of i) k = (k <=? (i - 1) mod 64).
Proof.
  intros Hk. unfold end_mask_of. change 63 with (Z.ones 6) at 1. rewrite Z.land_ones by lia.
  assert (wrap_u 64 (0 - i) mod 2 ^ 6 = 63 - (i - 1) mod 64) as ->.
  { unfold wrap_u. change (2 ^ 64) with (2 ^ 6 * 2 ^ 58). rewrite Z.rem_mul_r by lia.
    rewrite Z.mul_comm, Z_mod_plus_full, Z.mod_mod by lia. change (2 ^ 6) with 64.
    pose proof (Z.div_mod (i - 1) 64 ltac:(lia)). pose proof (Z.mod_pos_bound (i - 1) 64 ltac:(lia)).
    symmetry. apply (Z.mod_unique _ _ (- ((i - 1) / 64) - 1)); lia. }
  pose proof (Z.mod_pos_bound (i - 1) 64 ltac:(lia)).
  rewrite wrap_s_testbit, Z.min_l by lia. rewrite Z.shiftr_spec by lia.
  change (2 ^ 64 - 1) with (Z.ones 64). destruct (Z.leb_spec k ((i - 1) mod 64)).
  - by rewrite Z.ones_spec_low by lia.
  - by rewrite Z.ones_spec_high by lia.
Qed.

Lemma masks_in_s i : in_s 64 (bit_mask i) /\ in_s 64 (start_mask_of i) /\ in_s 64 (end_mask_of i).
Proof. split_and!; apply wrap_s_in; lia. Qed.

(** * Word updates *)

(** [f] acts on the words bit by bit. *)
Definition acts (f : Z -> Z) (g : Z -> bool -> bool) : Prop :=
  forall w, in_s 64 w -> in_s 64 (f w) /\
    forall k, 0 <= k < 64 -> Z.testbit (f w) k = g k (Z.testbit w k).

Lemma update_spec b w f g :
  acts f g -> 0 <= w < Z.of_nat (length b) -> Forall (in_s 64) b ->
  exists b', update b w f = Ok b' /\ length b' = length b /\ Forall (in_s 64) b' /\
    forall j, 0 <= j -> bitl b' j = if j / 64 =? w then g (j mod 64) (bitl b j) else bitl b j.
Proof.
  intros Hact Hw Hb. unfold update. destruct (vget_in b w Hw) as (x & Hx & ->). cbn [rbind].
  rewrite vset_ok by done. pose proof (Forall_lookup_1 _ _ _ _ Hb Hx) as Hin.
  destruct (Hact x Hin) as [Hin' Hbits].
  eexists. split; [done|]. split; [by rewrite length_insert|].
  split; [by apply Forall_insert|]. intros j Hj. unfold bitl.
  pose proof (div64 j Hj). destruct (Z.eqb_spec (j / 64) w) as [Heq|Hne].
  - rewrite Heq, list_lookup_insert_eq, Hx by lia. apply Hbits. lia.
  - by rewrite list_lookup_insert_ne by lia.
Qed.

Lemma update_words_spec f g n : acts f g -> forall from b,
  0 <= from -> from + Z.of_nat n <= Z.of_nat (length b) -> Forall (in_s 64) b ->
  exists b', update_words n from f b = Ok b' /\ length b' = length b /\ Forall (in_s 64) b' /\
    forall j, 0 <= j -> bitl b' j
      = if (from <=? j / 64) && (j / 64 <? from + Z.of_nat n)
        then g (j mod 64) (bitl b j) else bitl b j.
Proof.
  intros Hact. induction n as [|n IH]; intros from b H0 Hl Hb.
  - exists b. split_and!; auto. intros j Hj. zcase.
  - cbn [update_words].
    destruct (update_spec b from f g Hact ltac:(lia) Hb) as (b1 & -> & Hl1 & Hb1 & Hbit1).
    cbn [rbind]. destruct (IH (from + 1) b1) as (b2 & -> & Hl2 & Hb2 & Hbit2); [lia|lia|done|].
    exists b2. split_and!; auto; [lia|]. intros j Hj. rewrite Hbit2, Hbit1 by done.
    zcase.
Qed.

Lemma becomes_intro s b f :
  inv s -> length b = length (bits s) -> Forall (in_s 64) b ->
  (forall j, 0 <= j -> bitl b j = f j) -> (forall j, num_bits s <= j -> f j = false) ->
  becomes s (with_bits s b) f.
Proof.
  intros (H0 & Hw & Hl & Hin & Hg) Hlen Hb Hbits Hf. unfold becomes, inv, bit. cbn.
  split_and!; auto; [lia|]. intros j Hj. rewrite Hbits by lia. auto.
Qed.

(** What is left of the invariant are the ghost bits. *)
Lemma fills_inv s s' f : inv s -> fills s s' f -> inv s' <-> forall j, num_bits s <= j -> f j = false.
Proof.
  intros (H0 & Hw & Hl & _ & _) (Hn & Hnw & Hlen & Hin & Hb). unfold inv. rewrite Hn, Hnw, Hlen. split.
  - intros (_ & _ & _ & _ & Hg) j Hj. rewrite <- Hb by lia. auto.
  - intros Hf. split_and!; auto. intros j Hj. rewrite Hb by lia. auto.
Qed.

Lemma fills_becomes s s' f : inv s -> fills s s' f -> (forall j, num_bits s <= j -> f j = false) -> becomes s s' f.
Proof. intros Hs Hf Hg. split; [by apply (fills_inv s s' f)|]. destruct Hf as (? & ? & ? & ? & ?). auto. Qed.

Lemma fills_ext s s' f g : fills s s' f -> (forall j, 0 <= j -> f j = g j) -> fills s s' g.
Proof. intros (H1 & H2 & H3 & H4 & H5) Hfg. split_and!; auto. intros. rewrite H5 by done. auto. Qed.

Lemma fills_refl s f : inv s -> (forall j, 0 <= j -> bit s j = f j) -> fills s s f.
Proof. intros (_ & _ & _ & Hin & _) Hf. split_and!; auto. Qed.

Lemma bit_ghost s j : inv s -> num_bits s <= j -> bit s j = false.
Proof. intros (_ & _ & _ & _ & H). apply H. Qed.

Lemma same_index i j : 0 <= i -> 0 <= j ->
  (j / 64 =? i / 64) && (j mod 64 =? i mod 64) = (j =? i).
Proof. intros Hi Hj. pose proof (div64 i Hi). pose proof (div64 j Hj). zcase. Qed.

(** One bit changed by [h]. *)
Lemma one_bit_update s i f h :
  inv s -> 0 <= i < num_bits s ->
  acts f (fun k x => if k =? i mod 64 then h x else x) ->
  exists b, update (bits s) (Z.shiftr i 6) f = Ok b /\
    becomes s (with_bits s b) (fun j => if j =? i then h (bit s j) else bit s j).
Proof.
  intros Hs Hi Hact. destruct (index_word s i Hs Hi) as [Hw Hl].
  rewrite shiftr6. destruct (update_spec (bits s) (i / 64) f _ Hact ltac:(lia)) as
    (b & -> & Hlen & Hb & Hbits); [apply Hs|].
  exists b. split; [done|]. apply becomes_intro; auto.
  - intros j Hj. rewrite Hbits by done. rewrite <- (same_index i j) by lia.
    unfold bit. by destruct (j / 64 =? i / 64), (j mod 64 =? i mod 64).
  - intros j Hj. replace (j =? i) with false by lia. by apply bit_ghost.
Qed.

Lemma acts_lor_bit i : acts (fun w => Z.lor w (bit_mask i)) (fun k x => if k =? i mod 64 then true else x).
Proof.
  intros w Hw. destruct (masks_in_s i) as (Hm & _). split; [auto with words|].
  intros k Hk. rewrite Z.lor_spec, bit_mask_testbit by done.
  destruct (k =? i mod 64); [by rewrite orb_true_r|by rewrite orb_false_r].
Qed.

Lemma acts_clear_bit i :
  acts (fun w => Z.land w (Z.lnot (bit_mask i))) (fun k x => if k =? i mod 64 then false else x).
Proof.
  intros w Hw. destruct (masks_in_s i) as (Hm & _). split; [auto with words|].
  intros k Hk. rewrite Z.land_spec, Z.lnot_spec, bit_mask_testbit by lia.
  destruct (k =? i mod 64); [by rewrite andb_false_r|by rewrite andb_true_r].
Qed.

Lemma acts_flip_bit i :
  acts (fun w => Z.lxor w (bit_mask i)) (fun k x => if k =? i mod 64 then negb x else x).
Proof.
  intros w Hw. destruct (masks_in_s i) as (Hm & _). split; [auto with words|].
  intros k Hk. rewrite Z.lxor_spec, bit_mask_testbit by lia.
  by destruct (k =? i mod 64), (Z.testbit w k).
Qed.

(** [(word & (1 << i)) != 0] *)
Lemma mask_test i w : in_s 64 w -> negb (Z.land w (bit_mask i) =? 0) = Z.testbit w (i mod 64).
Proof.
  intros Hw. pose proof (Z.mod_pos_bound i 64 ltac:(lia)).
  destruct (Z.eqb_spec (Z.land w (bit_mask i)) 0) as [Hz|Hnz]; simpl.
  - pose proof (f_equal (fun x => Z.testbit x (i mod 64)) Hz) as Ht. cbv beta in Ht.
    rewrite Z.land_spec, bit_mask_testbit, Z.eqb_refl, andb_true_r, Z.bits_0 in Ht by done. done.
  - destruct (Z.testbit w (i mod 64)) eqn:Ht; [done|]. exfalso. apply Hnz.
    apply Z.bits_inj'. intros k Hk. rewrite Z.land_spec, Z.bits_0.
    destruct (decide (k < 64)) as [Hlt|Hge].
    + rewrite bit_mask_testbit by lia. destruct (Z.eqb_spec k (i mod 64)) as [->|]; [by rewrite Ht|].
      by rewrite andb_false_r.
    + rewrite (in_s_testbit 64 w), (in_s_testbit 64 (bit_mask i)) by (try apply masks_in_s; auto; lia).
      rewrite <- (in_s_testbit 64 (bit_mask i) 63) by (try apply masks_in_s; lia).
      rewrite <- (in_s_testbit 64 w 63) by (auto; lia). rewrite bit_mask_testbit by lia.
      destruct (Z.eqb_spec 63 (i mod 64)) as [->|]; [by rewrite Ht|]. by rewrite andb_false_r.
Qed.

Lemma word_at s i : inv s -> 0 <= i < num_bits s ->
  exists w, vget (bits s) (Z.shiftr i 6) = Ok w /\ in_s 64 w /\ Z.testbit w (i mod 64) = bit s i.
Proof.
  intros Hs Hi. destruct (index_word s i Hs Hi) as [Hw Hl]. rewrite shiftr6.
  destruct (vget_in (bits s) (i / 64) ltac:(lia)) as (w & Hx & ->). exists w.
  split_and!; auto; [|unfold bit, bitl; by rewrite Hx].
  destruct Hs as (_ & _ & _ & Hin & _). eapply Forall_lookup_1; eauto.
Qed.

Lemma get_ok s i : inv s -> 0 <= i < num_bits s -> get s i = Ok (bit s i).
Proof.
  intros Hs Hi. unfold get. rewrite debug_assert_true by lia.
  destruct (word_at s i Hs Hi) as (w & -> & Hw & Hb). cbn [rbind].
  by rewrite Z.land_comm, mask_test, Hb.
Qed.

Lemma set_ok s i : inv s -> 0 <= i < num_bits s ->
  exists s', set s i = Ok s' /\ becomes s s' (fun j => if j =? i then true else bit s j).
Proof.
  intros Hs Hi. unfold set. rewrite debug_assert_true by lia.
  destruct (one_bit_update s i _ (fun _ => true) Hs Hi (acts_lor_bit i)) as (b & -> & Hb).
  cbn [rbind]. eauto.
Qed.

Lemma clear_with_index_ok s i : inv s -> 0 <= i < num_bits s ->
  exists s', clear_with_index s i = Ok s' /\
    becomes s s' (fun j => if j =? i then false else bit s j).
Proof.
  intros Hs Hi. unfold clear_with_index. rewrite debug_assert_true by lia.
  destruct (one_bit_update s i _ (fun _ => false) Hs Hi (acts_clear_bit i)) as (b & -> & Hb).
  cbn [rbind]. eauto.
Qed.

Lemma flip_ok s i : inv s -> 0 <= i < num_bits s ->
  exists s', flip s i = Ok s' /\ becomes s s' (fun j => if j =? i then negb (bit s j) else bit s j).
Proof.
  intros Hs Hi. unfold flip. rewrite debug_assert_true by lia.
  destruct (one_bit_update s i _ negb Hs Hi (acts_flip_bit i)) as (b & -> & Hb).
  cbn [rbind]. eauto.
Qed.

Lemma becomes_refl s f : inv s -> (forall j, 0 <= j -> bit s j = f j) -> becomes s s f.
Proof. intros Hs Hf. by split_and!. Qed.

Lemma get_and_set_ok s i : inv s -> 0 <= i < num_bits s ->
  exists s', get_and_set s i = Ok (bit s i, s') /\
    becomes s s' (fun j => if j =? i then true else bit s j).
Proof.
  intros Hs Hi. unfold get_and_set. rewrite debug_assert_true by lia.
  destruct (one_bit_update s i _ (fun _ => true) Hs Hi (acts_lor_bit i)) as (b & Hu & Hb).
  destruct (word_at s i Hs Hi) as (w & Hw & Hin & Hbit). unfold update in Hu. rewrite Hw in *.
  cbn [rbind] in *. rewrite mask_test, Hbit by done. destruct (bit s i) eqn:E; cbn [negb].
  - exists s. split; [done|]. apply becomes_refl; [done|]. intros j Hj.
    destruct (Z.eqb_spec j i) as [->|]; done.
  - rewrite Hu. cbn [rbind]. eauto.
Qed.

Lemma get_and_clear_ok s i : inv s -> 0 <= i < num_bits s ->
  exists s', get_and_clear s i = Ok (bit s i, s') /\
    becomes s s' (fun j => if j =? i then false else bit s j).
Proof.
  intros Hs Hi. unfold get_and_clear. rewrite debug_assert_true by lia.
  destruct (one_bit_update s i _ (fun _ => false) Hs Hi (acts_clear_bit i)) as (b & Hu & Hb).
  destruct (word_at s i Hs Hi) as (w & Hw & Hin & Hbit). unfold update in Hu. rewrite Hw in *.
  cbn [rbind] in *. rewrite mask_test, Hbit by done. rewrite Hu. cbn [rbind]. eauto.
Qed.

(** * Ranges *)

Definition in_range (start_index end_index j : Z) : bool := (start_index <=? j) && (j <? end_index).

Section Range.
Variable (op : bool -> bool) (both : Z -> Z -> Z -> Z) (first : Z -> Z -> Z) (mid : Z -> Z)
  (last : Z -> Z -> Z).
Hypothesis both_acts : forall m m', in_s 64 m -> in_s 64 m' ->
  acts (both m m') (fun k x => if Z.testbit m k && Z.testbit m' k then op x else x).
Hypothesis first_acts : forall m, in_s 64 m ->
  acts (first m) (fun k x => if Z.testbit m k then op x else x).
Hypothesis mid_acts : acts mid (fun _ x => op x).
Hypothesis last_acts : forall m, in_s 64 m ->
  acts (last m) (fun k x => if Z.testbit m k then op x else x).

Lemma range_op_ok s start_index end_index :
  inv s -> 0 <= start_index < num_bits s -> 0 <= end_index <= num_bits s ->
  exists s', range_op both first mid last s start_index end_index = Ok s' /\
    becomes s s' (fun j => if in_range start_index end_index j then op (bit s j) else bit s j).
Proof.
  intros Hs Hst Hen. unfold range_op. rewrite !debug_assert_true by lia.
  assert (Hghost : forall j, num_bits s <= j ->
    (if in_range start_index end_index j then op (bit s j) else bit s j) = false).
  { intros j Hj. unfold in_range. replace (j <? end_index) with false by lia.
    rewrite andb_false_r. by apply bit_ghost. }
  destruct (Z.leb_spec end_index start_index) as [Hle|Hlt].
  { exists s. split; [done|]. apply becomes_refl; [done|]. intros j Hj. unfold in_range. zcase. }
  rewrite !shiftr6. destruct (index_word s start_index Hs Hst) as [Hw1 Hl1].
  destruct (index_word s (end_index - 1) Hs ltac:(lia)) as [Hw2 Hl2].
  pose proof (div64 start_index ltac:(lia)) as D1. pose proof (div64 (end_index - 1) ltac:(lia)) as D2.
  destruct (masks_in_s start_index) as (_ & Hsm & _). destruct (masks_in_s end_index) as (_ & _ & Hem).
  assert (Hin : Forall (in_s 64) (bits s)) by apply Hs.
  destruct (Z.eqb_spec (start_index / 64) ((end_index - 1) / 64)) as [Heq|Hne].
  - destruct (update_spec (bits s) (start_index / 64) _ _ (both_acts _ _ Hsm Hem) ltac:(lia) Hin)
      as (b & -> & Hlen & Hb & Hbits). cbn [rbind].
    exists (with_bits s b). split; [done|]. apply becomes_intro; auto. intros j Hj.
    rewrite Hbits by done. pose proof (div64 j Hj) as D.
    rewrite start_mask_testbit, end_mask_testbit by lia. unfold in_range, bit. zcase.
  - destruct (update_spec (bits s) (start_index / 64) _ _ (first_acts _ Hsm) ltac:(lia) Hin)
      as (b1 & -> & Hlen1 & Hb1 & Hbits1). cbn [rbind].
    assert (start_index / 64 <= (end_index - 1) / 64) by (apply Z.div_le_mono; lia).
    destruct (update_words_spec mid _ (Z.to_nat ((end_index - 1) / 64 - (start_index / 64 + 1)))
      mid_acts (start_index / 64 + 1) b1) as (b2 & -> & Hlen2 & Hb2 & Hbits2); [lia|lia|done|].
    cbn [rbind]. destruct (update_spec b2 ((end_index - 1) / 64) _ _ (last_acts _ Hem) ltac:(lia) Hb2)
      as (b3 & -> & Hlen3 & Hb3 & Hbits3). cbn [rbind].
    exists (with_bits s b3). split; [done|]. apply becomes_intro; auto; [lia|]. intros j Hj.
    rewrite Hbits3, Hbits2, Hbits1 by done. pose proof (div64 j Hj) as D.
    rewrite start_mask_testbit, end_mask_testbit by lia. unfold in_range, bit.
    rewrite Z2Nat.id by lia. zcase.
Qed.
End Range.

Lemma set_with_range_ok s start_index end_index :
  inv s -> 0 <= start_index < num_bits s -> 0 <= end_index <= num_bits s ->
  exists s', set_with_range s start_index end_index = Ok s' /\
    becomes s s' (fun j => if in_range start_index end_index j then true else bit s j).
Proof.
  apply (range_op_ok (fun _ => true)).
  - intros m m' Hm Hm' w Hw. split; [auto with words|]. intros k Hk.
    rewrite Z.lor_spec, Z.land_spec. by destruct (Z.testbit m k), (Z.testbit m' k), (Z.testbit w k).
  - intros m Hm w Hw. split; [auto with words|]. intros k Hk. rewrite Z.lor_spec.
    by destruct (Z.testbit m k), (Z.testbit w k).
  - intros w Hw. split; [unfold in_s; lia|]. intros k Hk. apply Z.bits_m1. lia.
  - intros m Hm w Hw. split; [auto with words|]. intros k Hk. rewrite Z.lor_spec.
    by destruct (Z.testbit m k), (Z.testbit w k).
Qed.

Lemma clear_range_ok s start_index end_index :
  inv s -> 0 <= start_index < num_bits s -> 0 <= end_index <= num_bits s ->
  exists s', clear_range s start_index end_index = Ok s' /\
    becomes s s' (fun j => if in_range start_index end_index j then false else bit s j).
Proof.
  apply (range_op_ok (fun _ => false)).
  - intros m m' Hm Hm' w Hw. split; [auto with words|]. intros k Hk.
    rewrite Z.land_spec, Z.lor_spec, !Z.lnot_spec by lia.
    by destruct (Z.testbit m k), (Z.testbit m' k), (Z.testbit w k).
  - intros m Hm w Hw. split; [auto with words|]. intros k Hk. rewrite Z.land_spec, Z.lnot_spec by lia.
    by destruct (Z.testbit m k), (Z.testbit w k).
  - intros w Hw. split; [unfold in_s; lia|]. intros k Hk. apply Z.bits_0.
  - intros m Hm w Hw. split; [auto with words|]. intros k Hk. rewrite Z.land_spec, Z.lnot_spec by lia.
    by destruct (Z.testbit m k), (Z.testbit w k).
Qed.

Lemma flip_range_ok s start_index end_index :
  inv s -> 0 <= start_index < num_bits s -> 0 <= end_index <= num_bits s ->
  exists s', flip_range s start_index end_index = Ok s' /\
    becomes s s' (fun j => if in_range start_index end_index j then negb (bit s j) else bit s j).
Proof.
  apply (range_op_ok negb).
  - intros m m' Hm Hm' w Hw. split; [auto with words|]. intros k Hk.
    rewrite Z.lxor_spec, Z.land_spec. by destruct (Z.testbit m k), (Z.testbit m' k), (Z.testbit w k).
  - intros m Hm w Hw. split; [auto with words|]. intros k Hk. rewrite Z.lxor_spec.
    by destruct (Z.testbit m k), (Z.testbit w k).
  - intros w Hw. split; [auto with words|]. intros k Hk. apply Z.lnot_spec. lia.
  - intros m Hm w Hw. split; [auto with words|]. intros k Hk. rewrite Z.lxor_spec.
    by destruct (Z.testbit m k), (Z.testbit w k).
Qed.

(** * Set operations *)

Definition spliced (p o : nat) (f : Z -> Z -> Z) (other b : list Z) : list Z :=
  take o b ++ zip_with f (take p (drop o b)) (take p other) ++ drop (o + p) b.

Lemma combine_rev_ok n off f other : 0 <= off -> (n <= length other)%nat -> forall b,
  off + Z.of_nat n <= Z.of_nat (length b) ->
  combine_rev n off f other b = Ok (spliced n (Z.to_nat off) f other b).
Proof.
  intros Ho. induction n as [|n IH]; intros Hn b Hb; cbn [combine_rev].
  - unfold spliced. simpl. by rewrite Nat.add_0_r, take_drop.
  - destruct (lookup_lt_is_Some_2 other n ltac:(lia)) as [x Hx].
    destruct (lookup_lt_is_Some_2 b (Z.to_nat off + n) ltac:(lia)) as [w Hw].
    assert (vget other (Z.of_nat n) = Ok x) as -> by (apply vget_ok; [lia|by rewrite Nat2Z.id]).
    cbn [rbind]. unfold update.
    replace (Z.of_nat n + off) with (Z.of_nat (Z.to_nat off + n)) by lia.
    assert (vget b (Z.of_nat (Z.to_nat off + n)) = Ok w) as ->
      by (apply vget_ok; [lia|by rewrite Nat2Z.id]).
    cbn [rbind]. rewrite vset_ok, Nat2Z.id by lia. cbn [rbind].
    rewrite IH by (rewrite ?length_insert; lia). f_equal. unfold spliced.
    rewrite take_insert_ge, (drop_insert_ge b (Z.to_nat off)), take_insert_ge by lia.
    rewrite (take_S_r other n x) by done.
    rewrite (take_S_r (drop (Z.to_nat off) b) n w) by (by rewrite lookup_drop).
    rewrite zip_with_app by (rewrite !length_take, length_drop; lia). cbn [zip_with].
    rewrite <- !app_assoc. do 2 f_equal.
    rewrite (drop_S (<[_:=_]> b) (f w x)) by (apply list_lookup_insert_eq; lia).
    rewrite drop_insert_lt by lia. simpl. do 2 f_equal. lia.
Qed.

Lemma combine_ok pos off f other b :
  0 <= off -> 0 <= pos <= Z.of_nat (length other) -> off + pos <= Z.of_nat (length b) ->
  combine pos off f other b = Ok (spliced (Z.to_nat pos) (Z.to_nat off) f other b).
Proof.
  intros Ho Hp Hb. unfold combine.
  by replace ((off + pos <=? Z.of_nat (length b)) && (pos <=? Z.of_nat (length other))) with true by zcase.
Qed.

Lemma spliced_lookup p o f other b k :
  (p <= length other)%nat -> (o + p <= length b)%nat ->
  spliced p o f other b !! k
  = if decide (o <= k < o + p)%nat
    then w ← b !! k; x ← other !! (k - o)%nat; Some (f w x) else b !! k.
Proof.
  intros Hp Hb. unfold spliced.
  assert (Ht : length (take o b) = o) by (rewrite length_take; lia).
  assert (Hz : length (zip_with f (take p (drop o b)) (take p other)) = p)
    by (rewrite length_zip_with, !length_take, length_drop; lia).
  destruct (decide (o <= k < o + p)%nat) as [Hin|Hout].
  - rewrite lookup_app_r by lia. rewrite lookup_app_l by lia. rewrite Ht, lookup_zip_with.
    rewrite !lookup_take_lt by lia. rewrite lookup_drop.
    replace (o + (k - o))%nat with k by lia. by destruct (b !! k), (other !! (k - o)%nat).
  - destruct (decide (k < o)%nat).
    + rewrite lookup_app_l by lia. by rewrite lookup_take_lt by lia.
    + rewrite lookup_app_r, lookup_app_r by lia. rewrite lookup_drop. f_equal. lia.
Qed.

Definition acts2 (f : Z -> Z -> Z) (g : bool -> bool -> bool) : Prop :=
  forall w x, in_s 64 w -> in_s 64 x -> in_s 64 (f w x) /\
    forall k, 0 <= k < 64 -> Z.testbit (f w x) k = g (Z.testbit w k) (Z.testbit x k).

Lemma spliced_spec p o f g other b :
  acts2 f g -> (p <= length other)%nat -> (o + p <= length b)%nat ->
  Forall (in_s 64) b -> Forall (in_s 64) other ->
  length (spliced p o f other b) = length b /\ Forall (in_s 64) (spliced p o f other b) /\
  forall j, 0 <= j -> bitl (spliced p o f other b) j
    = if (Z.of_nat o <=? j / 64) && (j / 64 <? Z.of_nat (o + p))
      then g (bitl b j) (bitl other (j - 64 * Z.of_nat o)) else bitl b j.
Proof.
  intros Hact Hp Hb Hin Hino. split_and!.
  - unfold spliced. rewrite !length_app, length_zip_with, !length_take, !length_drop. lia.
  - apply Forall_lookup. intros k w Hk. rewrite spliced_lookup in Hk by done.
    destruct (decide _); [|eapply Forall_lookup_1; [exact Hin|exact Hk]].
    destruct (b !! k) as [w1|] eqn:E1; [|discriminate].
    destruct (other !! (k - o)%nat) as [w2|] eqn:E2; [|discriminate]. simpl in Hk. injection Hk as <-.
    exact (proj1 (Hact _ _ (Forall_lookup_1 _ _ _ _ Hin E1) (Forall_lookup_1 _ _ _ _ Hino E2))).
  - intros j Hj. pose proof (div64 j Hj) as D. unfold bitl. rewrite spliced_lookup by done.
    assert ((j - 64 * Z.of_nat o) mod 64 = j mod 64) as Hmod.
    { replace (j - 64 * Z.of_nat o) with (j + (- Z.of_nat o) * 64) by lia. apply Z_mod_plus_full. }
    assert ((j - 64 * Z.of_nat o) / 64 = j / 64 - Z.of_nat o) as Hdiv.
    { replace (j - 64 * Z.of_nat o) with (j + (- Z.of_nat o) * 64) by lia.
      rewrite Z.div_add by lia. lia. }
    rewrite Hmod, Hdiv. destruct (decide _) as [Hr|Hr].
    + replace ((Z.of_nat o <=? j / 64) && (j / 64 <? Z.of_nat (o + p))) with true by zcase.
      replace (Z.to_nat (j / 64 - Z.of_nat o)) with (Z.to_nat (j / 64) - o)%nat by lia.
      destruct (lookup_lt_is_Some_2 b (Z.to_nat (j / 64))) as [w Hw]; [lia|].
      destruct (lookup_lt_is_Some_2 other (Z.to_nat (j / 64) - o)) as [x Hx]; [lia|].
      rewrite Hw, Hx. simpl.
      apply (Hact w x (Forall_lookup_1 _ _ _ _ Hin Hw) (Forall_lookup_1 _ _ _ _ Hino Hx)). lia.
    + by replace ((Z.of_nat o <=? j / 64) && (j / 64 <? Z.of_nat (o + p))) with false by zcase.
Qed.

(** Bit [j] of [other] shifted up by [off] words. *)
Definition bit_from (off : Z) (other : t) (j : Z) : bool :=
  if 64 * off <=? j then bit other (j - 64 * off) else false.

Lemma bit_from_0 other j : 0 <= j -> bit_from 0 other j = bit other j.
Proof. intros. unfold bit_from. replace (64 * 0 <=? j) with true by zcase. f_equal. lia. Qed.

Lemma bit_from_ghost off other j : inv other -> 64 * off + 64 * num_words other <= j ->
  bit_from off other j = false.
Proof.
  intros Ho Hj. unfold bit_from. destruct (Z.leb_spec (64 * off) j); [|done].
  apply bit_ghost; [done|]. destruct Ho as (H0 & Hw & _).
  pose proof (bits2words_spec (num_bits other) H0). rewrite Hw in *. lia.
Qed.

Lemma num_words_nonneg s : inv s -> 0 <= num_words s <= Z.of_nat (length (bits s)).
Proof.
  intros (H0 & Hw & Hl & _). pose proof (bits2words_spec (num_bits s) H0). lia.
Qed.

Lemma bit_word_ghost s j : inv s -> 0 <= j -> num_words s <= j / 64 -> bit s j = false.
Proof.
  intros Hs Hj Hw. apply bit_ghost; [done|]. pose proof (div64 j Hj).
  destruct Hs as (H0 & Hnw & _). pose proof (bits2words_spec (num_bits s) H0). lia.
Qed.

(** The three operations that combine a prefix of the words with another set's. *)
Lemma splice_fills s other off pos f g :
  inv s -> inv other -> acts2 f g -> 0 <= off -> 0 <= pos <= num_words other ->
  off + pos <= num_words s ->
  let b := spliced (Z.to_nat pos) (Z.to_nat off) f (bits other) (bits s) in
  fills s (with_bits s b) (fun j =>
    if (off <=? j / 64) && (j / 64 <? off + pos) then g (bit s j) (bit_from off other j) else bit s j).
Proof.
  intros Hs Ho Hact Hoff Hpos Hle b.
  pose proof (num_words_nonneg s Hs). pose proof (num_words_nonneg other Ho).
  destruct (spliced_spec (Z.to_nat pos) (Z.to_nat off) f g (bits other) (bits s) Hact)
    as (Hlen & Hin & Hbits); [lia|lia|apply Hs|apply Ho|].
  rewrite Nat2Z.inj_add, !Z2Nat.id in Hbits by lia.
  split_and!; auto. intros j Hj. unfold bit at 1. cbn [bits with_bits]. rewrite Hbits by done. pose proof (div64 j Hj).
  destruct (_ && _) eqn:E; [|done]. apply andb_true_iff in E as [E1%Z.leb_le E2%Z.ltb_lt].
  unfold bit_from. by replace (64 * off <=? j) with true by zcase.
Qed.

Lemma splice_ok s other off pos f g :
  inv s -> inv other -> acts2 f g -> 0 <= off -> 0 <= pos <= num_words other ->
  off + pos <= num_words s ->
  (forall j, num_bits s <= j -> off <= j / 64 < off + pos -> g false (bit_from off other j) = false) ->
  let b := spliced (Z.to_nat pos) (Z.to_nat off) f (bits other) (bits s) in
  becomes s (with_bits s b) (fun j =>
    if (off <=? j / 64) && (j / 64 <? off + pos) then g (bit s j) (bit_from off other j) else bit s j).
Proof.
  intros Hs Ho Hact Hoff Hpos Hle Hgh b. apply fills_becomes; [done|by apply splice_fills|].
  intros j Hj. rewrite (bit_ghost s j Hs Hj). destruct (_ && _) eqn:E; [|done].
  apply Hgh; [done|]. apply andb_true_iff in E as [E1%Z.leb_le E2%Z.ltb_lt]. lia.
Qed.

Lemma becomes_ext s s' f g : becomes s s' f -> (forall j, 0 <= j -> f j = g j) -> becomes s s' g.
Proof. intros (H1 & H2 & H3 & H4) Hfg. split_and!; auto. intros. rewrite H4 by done. auto. Qed.

Lemma acts2_lor : acts2 Z.lor orb.
Proof. intros w x Hw Hx. split; [auto with words|]. intros. apply Z.lor_spec. Qed.
Lemma acts2_lxor : acts2 Z.lxor xorb.
Proof. intros w x Hw Hx. split; [auto with words|]. intros. apply Z.lxor_spec. Qed.
Lemma acts2_land : acts2 Z.land andb.
Proof. intros w x Hw Hx. split; [auto with words|]. intros. apply Z.land_spec. Qed.
Lemma acts2_and_not : acts2 (fun w o => Z.land w (Z.lnot o)) (fun x y => x && negb y).
Proof.
  intros w x Hw Hx. split; [auto with words|]. intros. by rewrite Z.land_spec, Z.lnot_spec by lia.
Qed.

Lemma or_impl_fills s off other :
  inv s -> inv other -> 0 <= off -> num_words other + off <= num_words s ->
  exists s', or_impl s off (bits other) (num_words other) = Ok s' /\
    fills s s' (fun j => bit s j || bit_from off other j).
Proof.
  intros Hs Ho Hoff Hle. unfold or_impl. rewrite debug_assert_true by zcase.
  pose proof (num_words_nonneg s Hs). pose proof (num_words_nonneg other Ho).
  rewrite Z.min_r by lia. destruct (Z.eqb_spec (num_words other) 0) as [Hz|Hnz].
  - exists s. split; [done|]. apply fills_refl; [done|]. intros j Hj.
    destruct (decide (64 * off <= j)).
    + rewrite bit_from_ghost by (auto; lia). by rewrite orb_false_r.
    + unfold bit_from. replace (64 * off <=? j) with false by zcase. by rewrite orb_false_r.
  - rewrite combine_ok by lia. cbn [rbind]. eexists. split; [done|].
    eapply fills_ext; [apply (splice_fills s other off (num_words other) Z.lor orb);
      auto using acts2_lor; lia|].
    intros j Hj. cbv beta. pose proof (div64 j Hj). destruct (_ && _) eqn:E; [done|].
    apply andb_false_iff in E as [E%Z.leb_gt|E%Z.ltb_ge].
    + unfold bit_from. replace (64 * off <=? j) with false by zcase. by rewrite orb_false_r.
    + rewrite bit_from_ghost by (auto; lia). by rewrite orb_false_r.
Qed.

Lemma or_impl_ok s off other :
  inv s -> inv other -> 0 <= off -> num_words other + off <= num_words s ->
  (forall j, num_bits s <= j -> bit_from off other j = false) ->
  exists s', or_impl s off (bits other) (num_words other) = Ok s' /\
    becomes s s' (fun j => bit s j || bit_from off other j).
Proof.
  intros Hs Ho Hoff Hle Hgh. destruct (or_impl_fills s off other) as (s' & H1 & H2); auto.
  exists s'. split; [done|]. apply fills_becomes; auto. intros j Hj. by rewrite Hgh, (bit_ghost s j).
Qed.

Lemma xor_fills s other :
  inv s -> inv other -> num_words other <= num_words s ->
  exists s', xor s other = Ok s' /\ fills s s' (fun j => xorb (bit s j) (bit other j)).
Proof.
  intros Hs Ho Hle. unfold xor, xor_impl. rewrite debug_assert_true by zcase.
  pose proof (num_words_nonneg s Hs). pose proof (num_words_nonneg other Ho).
  rewrite Z.min_r, combine_rev_ok by lia. cbn [rbind]. eexists. split; [done|].
  eapply fills_ext; [apply (splice_fills s other 0 (num_words other) Z.lxor xorb);
    auto using acts2_lxor; lia|].
  intros j Hj. cbv beta. rewrite bit_from_0 by done. pose proof (div64 j Hj).
  destruct (_ && _) eqn:E; [done|]. rewrite (bit_word_ghost other j); [by rewrite xorb_false_r|done|done|].
  apply andb_false_iff in E as [E%Z.leb_gt|E%Z.ltb_ge]; lia.
Qed.

Lemma xor_ok s other :
  inv s -> inv other -> num_words other <= num_words s ->
  (forall j, num_bits s <= j -> bit other j = false) ->
  exists s', xor s other = Ok s' /\ becomes s s' (fun j => xorb (bit s j) (bit other j)).
Proof.
  intros Hs Ho Hle Hgh. destruct (xor_fills s other) as (s' & H1 & H2); auto.
  exists s'. split; [done|]. apply fills_becomes; auto. intros j Hj. by rewrite Hgh, (bit_ghost s j).
Qed.

(** The union, and the symmetric difference, has a bit at or past [num_bits] exactly when the
    other set has one there. *)
Lemma fills_past s s' f g : inv s -> (forall x, f false x = x) -> fills s s' (fun j => f (bit s j) (g j)) ->
  inv s' <-> forall j, num_bits s <= j -> g j = false.
Proof.
  intros Hs Hf Hfl. rewrite (fills_inv _ _ _ Hs Hfl).
  split; intros Hg j Hj; specialize (Hg j Hj); rewrite (bit_ghost s j Hs Hj), Hf in *; done.
Qed.

Lemma and_not_impl_ok s off other :
  inv s -> inv other -> 0 <= off ->
  exists s', and_not_impl s off (bits other) (num_words other) = Ok s' /\
    becomes s s' (fun j => bit s j && negb (bit_from off other j)).
Proof.
  intros Hs Ho Hoff. unfold and_not_impl.
  pose proof (num_words_nonneg s Hs). pose proof (num_words_nonneg other Ho).
  set (pos := Z.min _ _).
  assert (Hrest : forall j, 0 <= j -> (off <=? j / 64) && (j / 64 <? off + pos) = false ->
    bit s j = bit s j && negb (bit_from off other j)).
  { intros j Hj E. pose proof (div64 j Hj). apply andb_false_iff in E as [E%Z.leb_gt|E%Z.ltb_ge].
    - unfold bit_from. replace (64 * off <=? j) with false by zcase. by rewrite andb_true_r.
    - destruct (decide (num_words s <= j / 64)); [by rewrite (bit_word_ghost s j)|].
      rewrite bit_from_ghost by (auto; lia). by rewrite andb_true_r. }
  destruct (Z.eqb_spec pos 0) as [Hz|Hnz].
  - exists s. split; [done|]. apply becomes_refl; [done|]. intros j Hj. apply Hrest; [done|].
    rewrite Hz. zcase.
  - rewrite combine_ok by lia. cbn [rbind]. eexists. split; [done|].
    eapply becomes_ext; [apply (splice_ok s other off pos _ (fun x y => x && negb y));
      auto using acts2_and_not; lia|].
    intros j Hj. cbv beta. destruct ((off <=? j / 64) && _) eqn:E; [done|]. by apply Hrest.
Qed.

Lemma and_ok s other :
  inv s -> inv other ->
  exists s', and s other = Ok s' /\ becomes s s' (fun j => bit s j && bit other j).
Proof.
  intros Hs Ho. unfold and, and_self.
  pose proof (num_words_nonneg s Hs). pose proof (num_words_nonneg other Ho).
  set (pos := Z.min _ _). rewrite combine_rev_ok by lia. cbn [rbind].
  destruct (splice_ok s other 0 pos Z.land andb) as (Hi & Hn & Hl & Hb);
    auto using acts2_land; [lia..|].
  set (b := spliced _ _ _ _ _) in *.
  destruct (Z.ltb_spec (num_words other) (num_words s)).
  - destruct (update_words_spec (fun _ => 0) (fun _ _ => false)
      (Z.to_nat (num_words s - num_words other))) with (from := num_words other) (b := b)
      as (b' & -> & Hl' & Hin' & Hb').
    { intros w Hw. split; [unfold in_s; lia|]. intros. apply Z.bits_0. }
    { lia. } { cbn in Hl. lia. } { apply Hi. }
    cbn [rbind]. eexists. split; [done|]. apply becomes_intro; auto; [cbn in Hl; lia| |].
    + intros j Hj. rewrite Hb' by done. change (bitl b j) with (bit (with_bits s b) j).
      rewrite Hb, bit_from_0 by done. rewrite Z2Nat.id by lia. pose proof (div64 j Hj).
      destruct (decide (num_words other <= j / 64)).
      * rewrite (bit_word_ghost other j), andb_false_r by (auto; lia).
        destruct (decide (num_words s <= j / 64)); [rewrite (bit_word_ghost s j) by (auto; lia)|]; zcase.
      * zcase.
    + intros j Hj. by rewrite bit_ghost.
  - eexists. split; [done|]. eapply becomes_ext; [exact (conj Hi (conj Hn (conj Hl Hb)))|].
    intros j Hj. cbv beta. rewrite bit_from_0 by done. pose proof (div64 j Hj).
    destruct (_ && _) eqn:E; [done|]. rewrite (bit_word_ghost s j); [done|done|done|].
    apply andb_false_iff in E as [E%Z.leb_gt|E%Z.ltb_ge]; lia.
Qed.

(** * Searches *)

Lemma zero_word w : in_s 64 w -> (forall k, 0 <= k < 64 -> Z.testbit w k = false) -> w = 0.
Proof.
  intros Hw H. apply Z.bits_inj'. intros k Hk. rewrite Z.bits_0.
  destruct (decide (k < 64)); [auto with lia|].
  rewrite (in_s_testbit 64 w k), <- (in_s_testbit 64 w 63) by (auto; lia). apply H. lia.
Qed.

Lemma first_bit_spec n w : forall i,
  (exists r, first_bit n w i = r /\ i <= r < i + Z.of_nat n /\ Z.testbit w r = true /\
     forall k, i <= k < r -> Z.testbit w k = false) \/
  (forall k, i <= k < i + Z.of_nat n -> Z.testbit w k = false).
Proof.
  induction n as [|n IH]; intros i; [right; lia|]. cbn [first_bit].
  destruct (Z.testbit w i) eqn:E.
  - left. exists i. split_and!; auto; lia.
  - destruct (IH (i + 1)) as [(r & Hr & Hb & Ht & Hf)|Hf].
    + left. exists r. split_and!; auto; [lia..|]. intros k Hk.
      destruct (decide (k = i)) as [->|]; [done|apply Hf; lia].
    + right. intros k Hk. destruct (decide (k = i)) as [->|]; [done|apply Hf; lia].
Qed.

Lemma trailing_zeros_spec w : in_s 64 w -> w <> 0 ->
  0 <= trailing_zeros w < 64 /\ Z.testbit w (trailing_zeros w) = true /\
  forall k, 0 <= k < trailing_zeros w -> Z.testbit w k = false.
Proof.
  intros Hw Hnz. unfold trailing_zeros.
  destruct (first_bit_spec 64 w 0) as [(r & -> & Hr & Ht & Hf)|Hf]; [split_and!; auto; lia|].
  exfalso. apply Hnz, zero_word; auto.
Qed.

Lemma lead_spec n w :
  (exists l, lead n w = l /\ 0 <= l < Z.of_nat n /\ Z.testbit w (Z.of_nat n - 1 - l) = true /\
     forall k, Z.of_nat n - 1 - l < k < Z.of_nat n -> Z.testbit w k = false) \/
  (forall k, 0 <= k < Z.of_nat n -> Z.testbit w k = false).
Proof.
  induction n as [|n IH]; [right; lia|]. cbn [lead].
  destruct (Z.testbit w (Z.of_nat n)) eqn:E.
  - left. exists 0. split_and!; auto; [lia..| |lia]. rewrite <- E. f_equal. lia.
  - destruct IH as [(l & -> & Hb & Ht & Hf)|Hf].
    + left. exists (1 + l). split_and!; auto; [lia..| |].
      * rewrite <- Ht. f_equal. lia.
      * intros k Hk. destruct (decide (k = Z.of_nat n)) as [->|]; [done|apply Hf; lia].
    + right. intros k Hk. destruct (decide (k = Z.of_nat n)) as [->|]; [done|apply Hf; lia].
Qed.

Lemma leading_zeros_spec w : in_s 64 w -> w <> 0 ->
  0 <= leading_zeros w < 64 /\ Z.testbit w (63 - leading_zeros w) = true /\
  forall k, 63 - leading_zeros w < k < 64 -> Z.testbit w k = false.
Proof.
  intros Hw Hnz. unfold leading_zeros.
  destruct (lead_spec 64 w) as [(l & -> & Hr & Ht & Hf)|Hf]; [by split_and!; auto; lia|].
  exfalso. apply Hnz, zero_word; auto.
Qed.

(** The first one bit at or after [start]. *)
Definition first_from (s : t) (start j : Z) : Prop :=
  start <= j /\ bit s j = true /\ forall k, start <= k < j -> bit s k = false.

Lemma scan_group_app a c i :
  scan_group (a ++ c) i
  = match scan_group a i with Some r => Some r | None => scan_group c (i + Z.of_nat (length a)) end.
Proof.
  revert i. induction a as [|w a IH]; intros i; cbn [app scan_group length].
  - f_equal. lia.
  - destruct (w =? 0); [|done]. rewrite IH. destruct (scan_group a (i + 1)); [done|]. f_equal. lia.
Qed.

Lemma scan_group_zero group i : fold_left Z.lor group 0 = 0 -> scan_group group i = None.
Proof.
  intros H. assert (forall acc, fold_left Z.lor group acc = 0 -> acc = 0 /\ Forall (fun w => w = 0) group)
    as Hz.
  { clear H. induction group as [|w group IH]; intros acc H; [done|]. cbn [fold_left] in H.
    destruct (IH _ H) as [[-> ->]%Z.lor_eq_0_iff Hf]. by split; [|constructor]. }
  destruct (Hz 0 H) as [_ Hf]. clear -Hf. revert i.
  induction Hf as [|w group -> _ IH]; intros i; [done|]. cbn [scan_group]. apply IH.
Qed.

(** The chunked scan finds what a word-by-word scan finds. *)
Lemma scan_chunks_eq fuel : forall words i, (length words <= fuel)%nat ->
  scan_chunks fuel words i
  = match scan_group words i with Some r => inl r | None => inr (i + Z.of_nat (length words)) end.
Proof.
  induction fuel as [|fuel IH]; intros words i Hl.
  { destruct words; [|simpl in Hl; lia]. simpl. f_equal. lia. }
  destruct words as [|w words]; [simpl; f_equal; lia|].
  set (ws := w :: words) in *. change (scan_chunks (S fuel) ws i) with
    (let group := take 16 ws in
     match (if (length group <? 16)%nat || negb (fold_left Z.lor group 0 =? 0)
            then scan_group group i else None) with
     | Some r => inl r
     | None => scan_chunks fuel (drop 16 ws) (i + Z.of_nat (length group))
     end). cbv zeta.
  assert ((if (length (take 16 ws) <? 16)%nat || negb (fold_left Z.lor (take 16 ws) 0 =? 0)
           then scan_group (take 16 ws) i else None) = scan_group (take 16 ws) i) as ->.
  { destruct (Z.eqb_spec (fold_left Z.lor (take 16 ws) 0) 0) as [Hz|]; [|by rewrite orb_true_r].
    rewrite (scan_group_zero _ _ Hz). by destruct (_ || _). }
  replace (scan_group ws i) with (scan_group (take 16 ws ++ drop 16 ws) i) by (by rewrite take_drop).
  rewrite scan_group_app.
  destruct (scan_group (take 16 ws) i); [done|].
  rewrite IH by (rewrite length_drop; simpl in *; lia).
  destruct (scan_group _ _); [done|]. f_equal. rewrite length_take, length_drop. lia.
Qed.

Lemma bit_in_word s (i : nat) w k :
  bits s !! i = Some w -> 64 * Z.of_nat i <= k < 64 * Z.of_nat i + 64 ->
  bit s k = Z.testbit w (k - 64 * Z.of_nat i).
Proof.
  intros Hw Hk. unfold bit, bitl.
  assert (k / 64 = Z.of_nat i) as -> by (symmetry; apply (Z.div_unique _ _ _ (k - 64 * Z.of_nat i)); lia).
  assert (k mod 64 = k - 64 * Z.of_nat i) as ->
    by (symmetry; apply (Z.mod_unique _ _ (Z.of_nat i)); lia).
  by rewrite Nat2Z.id, Hw.
Qed.

Lemma word_first s (i : nat) w : inv s -> bits s !! i = Some w -> w <> 0 ->
  let r := 64 * Z.of_nat i + trailing_zeros w in
  first_from s (64 * Z.of_nat i) r /\ r < 64 * Z.of_nat i + 64.
Proof.
  intros Hs Hw Hnz r. assert (in_s 64 w) as Hin.
  { destruct Hs as (_ & _ & _ & Hin & _). eapply Forall_lookup_1; eauto. }
  destruct (trailing_zeros_spec w Hin Hnz) as (Hr & Ht & Hf). unfold r. split; [|lia].
  split_and!; [lia| |].
  - rewrite (bit_in_word s i w) by (auto; lia). rewrite <- Ht. f_equal. lia.
  - intros k Hk. rewrite (bit_in_word s i w) by (auto; lia). apply Hf. lia.
Qed.

Lemma first_from_step s a b r : first_from s b r -> a <= b ->
  (forall k, a <= k < b -> bit s k = false) -> first_from s a r.
Proof.
  intros (Hr & Hb & Hf) Hab Hz. split_and!; auto; [lia|]. intros k Hk.
  destruct (decide (k < b)); [apply Hz; lia|apply Hf; lia].
Qed.

Lemma shiftl6 i : Z.shiftl i 6 = 64 * i.
Proof. rewrite Z.shiftl_mul_pow2 by lia. lia. Qed.

Lemma scan_group_spec s n : inv s -> forall i : nat, (i + n <= length (bits s))%nat ->
  match scan_group (take n (drop i (bits s))) (Z.of_nat i) with
  | Some r => first_from s (64 * Z.of_nat i) r /\ r < 64 * Z.of_nat (i + n)
  | None => forall k, 64 * Z.of_nat i <= k < 64 * Z.of_nat (i + n) -> bit s k = false
  end.
Proof.
  intros Hs. induction n as [|n IH]; intros i Hi; [simpl; lia|].
  destruct (lookup_lt_is_Some_2 (bits s) i ltac:(lia)) as [w Hw].
  rewrite (drop_S _ w i Hw). cbn [take scan_group].
  destruct (Z.eqb_spec w 0) as [->|Hnz].
  - specialize (IH (S i) ltac:(lia)).
    replace (Z.of_nat (S i)) with (Z.of_nat i + 1) in IH by lia.
    assert (Hz : forall k, 64 * Z.of_nat i <= k < 64 * (Z.of_nat i + 1) -> bit s k = false).
    { intros k Hk. rewrite (bit_in_word s i 0) by (auto; lia). apply Z.bits_0. }
    destruct (scan_group _ _) as [r|].
    + destruct IH as [Hf Hlt]. split; [|lia]. eapply first_from_step; [done|lia|]. done.
    + intros k Hk. destruct (decide (k < 64 * (Z.of_nat i + 1))); [apply Hz; lia|apply IH; lia].
  - rewrite shiftl6. destruct (word_first s i w Hs Hw Hnz). split; [done|lia].
Qed.

(** The scan from word [i] on, up to the [limit]. *)
Lemma scan_from_spec s i limit : inv s -> 0 <= i -> 0 <= limit <= Z.of_nat (length (bits s)) ->
  (exists r, (let? words := vslice (bits s) (Z.min i limit) limit in
     match scan_chunks (length words) words i with
     | inl r => Ok r
     | inr i => scan_tail (Z.to_nat (limit - i)) (bits s) limit i
     end) = Ok r /\ first_from s (64 * i) r) \/
  ((let? words := vslice (bits s) (Z.min i limit) limit in
     match scan_chunks (length words) words i with
     | inl r => Ok r
     | inr i => scan_tail (Z.to_nat (limit - i)) (bits s) limit i
     end) = Ok NO_MORE_DOCS /\ forall k, 64 * i <= k < 64 * limit -> bit s k = false).
Proof.
  intros Hs Hi Hl. rewrite vslice_ok by lia. cbn [rbind].
  destruct (decide (i <= limit)) as [Hle|Hgt].
  - rewrite Z.min_l by lia. set (words := take _ _). rewrite scan_chunks_eq by done.
    pose proof (scan_group_spec s (Z.to_nat (limit - i)) Hs (Z.to_nat i) ltac:(lia)) as Hsc.
    fold words in Hsc. rewrite Z2Nat.id in Hsc by lia.
    destruct (scan_group words i) as [r|].
    + left. exists r. destruct Hsc. done.
    + right. assert (Z.of_nat (length words) = limit - i) as ->.
      { unfold words. rewrite length_take, length_drop. lia. }
      replace (i + (limit - i)) with limit by lia. rewrite Z.sub_diag. simpl.
      replace (limit <? limit) with false by zcase. split; [done|].
      intros k Hk. apply Hsc. lia.
  - rewrite Z.min_r, Z.sub_diag by lia. right. simpl.
    replace (Z.to_nat (limit - i)) with 0%nat by lia. simpl.
    replace (i <? limit) with false by zcase. split; [done|]. lia.
Qed.

(** The word that holds [start], shifted. *)
Lemma start_word_spec s start w : inv s -> 0 <= start ->
  bits s !! Z.to_nat (start / 64) = Some w ->
  let word := Z.shiftr w (start mod 64) in
  (word <> 0 -> first_from s start (start + trailing_zeros word)) /\
  (word = 0 -> forall k, start <= k < 64 * (start / 64 + 1) -> bit s k = false).
Proof.
  intros Hs H0 Hw word. pose proof (div64 start H0) as D.
  assert (in_s 64 w) as Hin.
  { destruct Hs as (_ & _ & _ & Hin & _). eapply Forall_lookup_1; eauto. }
  assert (Hbit : forall k, start <= k < 64 * (start / 64 + 1) -> bit s k = Z.testbit word (k - start)).
  { intros k Hk. rewrite (bit_in_word s (Z.to_nat (start / 64)) w) by (auto; lia). unfold word.
    rewrite Z.shiftr_spec by lia. f_equal. lia. }
  split.
  - intros Hnz. assert (in_s 64 word) as Hin' by (apply in_s_shiftr; auto; lia).
    destruct (trailing_zeros_spec word Hin' Hnz) as (Hr & Ht & Hf).
    assert (start + trailing_zeros word < 64 * (start / 64 + 1)) as Hlt.
    { destruct (decide (start + trailing_zeros word < 64 * (start / 64 + 1))); [done|]. exfalso.
      unfold word in Ht at 1. rewrite Z.shiftr_spec in Ht by lia.
      rewrite (in_s_testbit 64 w), <- (in_s_testbit 64 w 63) in Ht by (auto; lia).
      specialize (Hf (63 - start mod 64) ltac:(lia)). unfold word in Hf.
      rewrite Z.shiftr_spec in Hf by lia.
      replace (63 - start mod 64 + start mod 64) with 63 in Hf by lia. congruence. }
    split_and!; [lia| |].
    + rewrite Hbit by lia. rewrite <- Ht. f_equal. lia.
    + intros k Hk. rewrite Hbit by lia. apply Hf. lia.
  - intros Hz k Hk. rewrite Hbit by lia. rewrite Hz. apply Z.bits_0.
Qed.

Lemma next_set_bit_impl_ok s start ub : inv s -> 0 <= start < ub -> ub <= num_bits s ->
  (exists r, next_set_bit_impl s start ub = Ok r /\ first_from s start r) \/
  (next_set_bit_impl s start ub = Ok NO_MORE_DOCS /\
   forall k, start <= k < ub -> bit s k = false).
Proof.
  intros Hs Hst Hub. unfold next_set_bit_impl. rewrite !debug_assert_true by zcase.
  destruct (index_word s start Hs ltac:(lia)) as [Hw Hl]. rewrite shiftr6.
  destruct (vget_in (bits s) (start / 64) ltac:(lia)) as (w & Hx & ->). cbn [rbind].
  destruct (start_word_spec s start w Hs ltac:(lia) Hx) as [Hnzw Hzw].
  set (word := Z.shiftr w (start mod 64)) in *.
  destruct (Z.eqb_spec word 0) as [Hz|Hnz]; cbn [negb]; [|left; eauto].
  specialize (Hzw Hz). pose proof (num_words_nonneg s Hs).
  assert (Hlim : (if ub =? num_bits s then num_words s else bits2words ub) = bits2words ub).
  { destruct (Z.eqb_spec ub (num_bits s)) as [->|]; [apply Hs|done]. }
  rewrite Hlim. set (limit := bits2words ub) in *.
  pose proof (bits2words_spec ub ltac:(lia)) as Hb. fold limit in Hb.
  assert (Hle : limit <= num_words s).
  { destruct Hs as (_ & -> & _). unfold limit, bits2words. apply Z.div_le_mono; lia. }
  rewrite (Z.min_l limit) by lia.
  assert (Hgo : forall i, 0 <= i -> (forall k, start <= k < 64 * i -> bit s k = false) ->
    start <= 64 * i -> forall m, m = (let? words := vslice (bits s) (Z.min i limit) limit in
     match scan_chunks (length words) words i with
     | inl r => Ok r
     | inr i => scan_tail (Z.to_nat (limit - i)) (bits s) limit i
     end) -> (exists r, m = Ok r /\ first_from s start r) \/
    (m = Ok NO_MORE_DOCS /\ forall k, start <= k < ub -> bit s k = false)).
  { intros i Hi Hk Hsi m ->. destruct (scan_from_spec s i limit Hs Hi ltac:(lia))
      as [(r & -> & Hf)|[-> Hf]].
    - left. exists r. split; [done|]. by eapply first_from_step.
    - right. split; [done|]. intros k Hkr. destruct (decide (k < 64 * i)); [apply Hk; lia|].
      apply Hf. lia. }
  pose proof (div64 start ltac:(lia)).
  destruct (Z.ltb_spec (start / 64 + 1) limit) as [Hlt|Hge]; [|by apply (Hgo (start / 64 + 1)); try lia].
  destruct (vget_in (bits s) (start / 64 + 1) ltac:(lia)) as (w2 & Hx2 & ->). cbn [rbind].
  destruct (Z.eqb_spec w2 0) as [->|Hnz2]; cbn [negb].
  - apply (Hgo (start / 64 + 1 + 1)); [lia| |lia|done]. intros k Hk.
    destruct (decide (k < 64 * (start / 64 + 1))); [apply Hzw; lia|].
    rewrite (bit_in_word s _ 0 k Hx2) by lia. apply Z.bits_0.
  - left. rewrite shiftl6. eexists. split; [done|].
    destruct (word_first s _ w2 Hs Hx2 Hnz2) as [Hf _]. rewrite Z2Nat.id in Hf by lia.
    eapply first_from_step; [done|lia|]. intros k Hk. apply Hzw. lia.
Qed.

Lemma prev_words_ok s n : inv s -> (n <= length (bits s))%nat ->
  (exists r, prev_words n (bits s) = Ok (Some r) /\ 0 <= r < 64 * Z.of_nat n /\ bit s r = true /\
     forall k, r < k < 64 * Z.of_nat n -> bit s k = false) \/
  (prev_words n (bits s) = Ok None /\ forall k, 0 <= k < 64 * Z.of_nat n -> bit s k = false).
Proof.
  intros Hs. induction n as [|n IH]; intros Hn; [right; split; [done|lia]|]. cbn [prev_words].
  destruct (vget_in (bits s) (Z.of_nat n) ltac:(lia)) as (w & Hw & ->). cbn [rbind].
  rewrite Nat2Z.id in Hw. destruct (Z.eqb_spec w 0) as [->|Hnz]; cbn [negb].
  - assert (Hz : forall k, 64 * Z.of_nat n <= k < 64 * Z.of_nat (S n) -> bit s k = false).
    { intros k Hk. rewrite (bit_in_word s n 0) by (auto; lia). apply Z.bits_0. }
    destruct (IH ltac:(lia)) as [(r & -> & Hr & Hb & Hf)|[-> Hf]].
    + left. exists r. split_and!; auto; [lia..|]. intros k Hk.
      destruct (decide (k < 64 * Z.of_nat n)); [apply Hf; lia|apply Hz; lia].
    + right. split; [done|]. intros k Hk.
      destruct (decide (k < 64 * Z.of_nat n)); [apply Hf; lia|apply Hz; lia].
  - left. assert (in_s 64 w) as Hin.
    { destruct Hs as (_ & _ & _ & Hin & _). eapply Forall_lookup_1; eauto. }
    destruct (leading_zeros_spec w Hin Hnz) as (Hr & Ht & Hf). rewrite shiftl6.
    eexists. split; [done|]. split; [lia|]. split.
    + rewrite (bit_in_word s n w) by (auto; lia). rewrite <- Ht. f_equal. lia.
    + intros k Hk. rewrite (bit_in_word s n w) by (auto; lia). apply Hf. lia.
Qed.

Lemma prev_set_bit_ok s index : inv s -> 0 <= index < num_bits s ->
  (exists r, prev_set_bit s index = Ok (Some r) /\ 0 <= r <= index /\ bit s r = true /\
     forall k, r < k <= index -> bit s k = false) \/
  (prev_set_bit s index = Ok None /\ forall k, 0 <= k <= index -> bit s k = false).
Proof.
  intros Hs Hi. unfold prev_set_bit. rewrite debug_assert_true by zcase.
  destruct (index_word s index Hs Hi) as [Hw Hl]. rewrite shiftr6.
  destruct (vget_in (bits s) (index / 64) ltac:(lia)) as (w & Hx & ->). cbn [rbind].
  change (Z.land index 0x3f) with (Z.land index (Z.ones 6)).
  rewrite Z.land_ones by lia. change (2 ^ 6) with 64.
  pose proof (div64 index ltac:(lia)) as D. rewrite Z.mod_mod by lia.
  set (word := wrap_s 64 (Z.shiftl w (63 - index mod 64))).
  assert (in_s 64 word) as Hin by (apply wrap_s_in; lia).
  assert (Hbit : forall k, 64 * (index / 64) <= k <= index ->
    bit s k = Z.testbit word (63 - (index - k))).
  { intros k Hk. rewrite (bit_in_word s (Z.to_nat (index / 64)) w) by (auto; lia). unfold word.
    rewrite wrap_s_testbit, Z.min_l by lia. rewrite Z.shiftl_spec by lia. f_equal. lia. }
  destruct (Z.eqb_spec word 0) as [Hz|Hnz]; cbn [negb].
  - assert (Hzw : forall k, 64 * (index / 64) <= k <= index -> bit s k = false).
    { intros k Hk. rewrite Hbit by lia. rewrite Hz. apply Z.bits_0. }
    destruct (prev_words_ok s (Z.to_nat (index / 64)) Hs ltac:(lia))
      as [(r & -> & Hr & Hb & Hf)|[-> Hf]].
    + left. exists r. split; [done|]. split; [lia|]. split; [done|]. intros k Hk.
      destruct (decide (64 * (index / 64) <= k)); [apply Hzw; lia|apply Hf; lia].
    + right. split; [done|]. intros k Hk.
      destruct (decide (64 * (index / 64) <= k)); [apply Hzw; lia|apply Hf; lia].
  - left. destruct (leading_zeros_spec word Hin Hnz) as (Hr & Ht & Hf). rewrite shiftl6.
    assert (leading_zeros word <= index mod 64) as Hlz.
    { destruct (decide (leading_zeros word <= index mod 64)); [done|]. exfalso.
      unfold word in Ht at 1. rewrite wrap_s_testbit, Z.min_l in Ht by lia.
      rewrite Z.shiftl_spec, Z.testbit_neg_r in Ht by lia. discriminate. }
    eexists. split; [done|]. split; [lia|]. split.
    + rewrite Hbit by lia. rewrite <- Ht. f_equal. lia.
    + intros k Hk. rewrite Hbit by lia. apply Hf. lia.
Qed.

(** * Counts *)

Lemma count_add h n m : forall a, count h (n + m) a = count h n a + count h m (a + Z.of_nat n).
Proof.
  induction n as [|n IH]; intros a; cbn [count Nat.add].
  - by replace (a + Z.of_nat 0) with a by lia.
  - rewrite IH. replace (a + Z.of_nat (S n)) with (a + 1 + Z.of_nat n) by lia. lia.
Qed.

Lemma count_ext h g n : forall a, (forall j, a <= j < a + Z.of_nat n -> h j = g j) ->
  count h n a = count g n a.
Proof.
  induction n as [|n IH]; intros a H; [done|]. cbn [count].
  rewrite (H a) by lia. f_equal. apply IH. intros. apply H. lia.
Qed.

Lemma count_shift h c n : forall a, count h n (c + a) = count (fun k => h (c + k)) n a.
Proof.
  induction n as [|n IH]; intros a; [done|]. cbn [count]. f_equal.
  by rewrite <- IH, Z.add_assoc.
Qed.

Lemma count_false h n : forall a, (forall j, a <= j < a + Z.of_nat n -> h j = false) -> count h n a = 0.
Proof.
  induction n as [|n IH]; intros a H; [done|]. cbn [count].
  rewrite (H a) by lia. rewrite IH; [done|]. intros. apply H. lia.
Qed.

(** Words [from], ..., whose bits are those of [h]. *)
Lemma sum_words_ok h f n : forall from tot, 0 <= from ->
  (forall i, from <= i < from + Z.of_nat n -> exists w, f i = Ok w /\
     forall k, 0 <= k < 64 -> Z.testbit w k = h (64 * i + k)) ->
  sum_words n from f tot = Ok (tot + count h (64 * n) (64 * from)).
Proof.
  induction n as [|n IH]; intros from tot H0 Hf.
  - cbn [sum_words]. rewrite Nat.mul_0_r. f_equal. simpl. lia.
  - cbn [sum_words]. destruct (Hf from ltac:(lia)) as (w & -> & Hw). cbn [rbind].
    rewrite IH by (try lia; intros; apply Hf; lia). f_equal.
    replace (64 * S n)%nat with (64 + 64 * n)%nat by lia. rewrite count_add.
    replace (64 * from + Z.of_nat 64) with (64 * (from + 1)) by lia.
    unfold count_ones.
    replace (count h 64 (64 * from)) with (count (fun k => h (64 * from + k)) 64 0)
      by (rewrite <- count_shift; f_equal; lia).
    rewrite (count_ext (Z.testbit w) (fun k => h (64 * from + k))); [lia|].
    intros j Hj. apply Hw. lia.
Qed.

(** The one bits of [h] below [n]. *)
Definition size_below (h : Z -> bool) (n : Z) : Z := count h (Z.to_nat n) 0.

Lemma size_words_below h n m : 0 <= m <= 64 * n -> (forall j, m <= j -> h j = false) ->
  count h (64 * Z.to_nat n) 0 = size_below h m.
Proof.
  intros Hm Hg. unfold size_below.
  replace (64 * Z.to_nat n)%nat with (Z.to_nat m + (64 * Z.to_nat n - Z.to_nat m))%nat by lia.
  rewrite count_add, (count_false h (_ - _)); [lia|]. intros j Hj. apply Hg. lia.
Qed.

Lemma size_words s h : inv s -> (forall j, num_bits s <= j -> h j = false) ->
  count h (64 * Z.to_nat (num_words s)) 0 = size_below h (num_bits s).
Proof.
  intros (H0 & Hw & _) Hg. pose proof (bits2words_spec (num_bits s) H0).
  apply size_words_below; [lia|done].
Qed.

Lemma vget_bits s i : inv s -> 0 <= i < num_words s ->
  exists w, vget (bits s) i = Ok w /\ in_s 64 w /\ forall k, 0 <= k < 64 -> Z.testbit w k = bit s (64 * i + k).
Proof.
  intros Hs Hi. pose proof (num_words_nonneg s Hs).
  destruct (vget_in (bits s) i ltac:(lia)) as (w & Hw & ->). exists w. split; [done|].
  split; [destruct Hs as (_ & _ & _ & Hin & _); eapply Forall_lookup_1; eauto|].
  intros k Hk. rewrite (bit_in_word s (Z.to_nat i) w) by (auto; lia). f_equal. lia.
Qed.

Lemma cardinality_ok s : inv s -> cardinality s = Ok (size_below (bit s) (num_bits s)).
Proof.
  intros Hs. unfold cardinality. pose proof (num_words_nonneg s Hs).
  rewrite (sum_words_ok (bit s)); [|lia|].
  - rewrite Z.mul_0_r, size_words; auto. intros. by apply bit_ghost.
  - intros i Hi. destruct (vget_bits s i Hs ltac:(lia)) as (w & Hw & _ & Hb). eauto.
Qed.

Lemma both_words_ok f g a b i : inv a -> inv b -> acts2 f g ->
  0 <= i < Z.min (num_words a) (num_words b) ->
  exists w, both_words f a b i = Ok w /\
    forall k, 0 <= k < 64 -> Z.testbit w k = g (bit a (64 * i + k)) (bit b (64 * i + k)).
Proof.
  intros Ha Hb Hact Hi. unfold both_words.
  destruct (vget_bits a i Ha ltac:(lia)) as (x & -> & Hx & Hxb).
  destruct (vget_bits b i Hb ltac:(lia)) as (y & -> & Hy & Hyb). cbn [rbind].
  destruct (Hact x y Hx Hy) as [_ Hf]. eexists. split; [done|]. intros k Hk.
  by rewrite Hf, Hxb, Hyb.
Qed.

(** A count over the words up to [n], the common ones by [f] and the rest from [a]. *)
Lemma rest_words_ok h s from tot : inv s -> 0 <= from <= num_words s ->
  (forall j, 64 * from <= j < 64 * num_words s -> h j = bit s j) ->
  sum_words (Z.to_nat (num_words s - from)) from (vget (bits s)) tot
  = Ok (tot + count h (64 * Z.to_nat (num_words s - from)) (64 * from)).
Proof.
  intros Hs Hf Hh. apply sum_words_ok; [lia|]. intros i Hi.
  destruct (vget_bits s i Hs ltac:(lia)) as (w & Hw & _ & Hb). exists w. split; [done|].
  intros k Hk. rewrite Hb by done. symmetry. apply Hh. lia.
Qed.

Lemma count_concat h c n : 0 <= c <= n ->
  count h (64 * Z.to_nat c) 0 + count h (64 * Z.to_nat (n - c)) (64 * c)
  = count h (64 * Z.to_nat n) 0.
Proof.
  intros Hc. replace (64 * Z.to_nat n)%nat with (64 * Z.to_nat c + 64 * Z.to_nat (n - c))%nat by lia.
  rewrite count_add. do 2 f_equal. lia.
Qed.

Lemma intersection_count_ok a b : inv a -> inv b ->
  intersection_count a b = Ok (size_below (fun j => bit a j && bit b j) (num_bits a)).
Proof.
  intros Ha Hb. unfold intersection_count. set (c := Z.min _ _).
  pose proof (num_words_nonneg a Ha). pose proof (num_words_nonneg b Hb).
  set (h := fun j => bit a j && bit b j). rewrite (sum_words_ok h); [|lia|].
  2: { intros i Hi. apply (both_words_ok Z.land andb); auto using acts2_land. lia. }
  f_equal. rewrite Z.mul_0_r, <- (size_words a h); [|done|].
  2: { intros j Hj. unfold h. by rewrite bit_ghost. }
  rewrite <- (count_concat h c (num_words a)) by lia.
  rewrite (count_false h (64 * Z.to_nat (num_words a - c))); [lia|].
  intros j Hj. unfold h. rewrite (bit_word_ghost b j), andb_false_r; [done|done|lia|].
  assert (num_words b = c \/ c = num_words a) as [->| ->] by lia; [|lia].
  apply Z.div_le_lower_bound; lia.
Qed.

Lemma and_not_count_ok a b : inv a -> inv b ->
  and_not_count a b = Ok (size_below (fun j => bit a j && negb (bit b j)) (num_bits a)).
Proof.
  intros Ha Hb. unfold and_not_count. set (c := Z.min _ _).
  pose proof (num_words_nonneg a Ha). pose proof (num_words_nonneg b Hb).
  set (h := fun j => bit a j && negb (bit b j)). rewrite (sum_words_ok h); [|lia|].
  2: { intros i Hi. apply (both_words_ok _ (fun x y => x && negb y)); auto using acts2_and_not. lia. }
  cbn [rbind]. rewrite (rest_words_ok h a); [|done|lia|].
  - f_equal. rewrite Z.mul_0_r, Z.add_0_l, count_concat, size_words by (auto; try lia;
      intros; unfold h; by rewrite bit_ghost). done.
  - intros j Hj. unfold h. assert (num_words b = c) as Heq by lia.
    rewrite (bit_word_ghost b j); [by rewrite andb_true_r|done|lia|].
    rewrite Heq. apply Z.div_le_lower_bound; lia.
Qed.

Lemma union_count_ok a b : inv a -> inv b ->
  union_count a b
  = Ok (size_below (fun j => bit a j || bit b j) (Z.max (num_bits a) (num_bits b))).
Proof.
  intros Ha Hb. unfold union_count. set (c := Z.min _ _).
  pose proof (num_words_nonneg a Ha). pose proof (num_words_nonneg b Hb).
  set (h := fun j => bit a j || bit b j). rewrite (sum_words_ok h); [|lia|].
  2: { intros i Hi. apply (both_words_ok Z.lor orb); auto using acts2_lor. lia. }
  cbn [rbind]. rewrite Z.mul_0_r, Z.add_0_l.
  assert (Hrest : forall s o, inv s -> inv o -> c = Z.min (num_words s) (num_words o) ->
    (forall j, h j = bit s j || bit o j) ->
    forall j, 64 * c <= j < 64 * num_words s -> h j = bit s j).
  { intros s o Hs Ho Hc Hh j Hj. rewrite Hh, (bit_word_ghost o j), orb_false_r; [done|done| |].
    - pose proof (num_words_nonneg s Hs). pose proof (num_words_nonneg o Ho). lia.
    - assert (num_words o = c) as -> by lia. apply Z.div_le_lower_bound; lia. }
  rewrite (rest_words_ok h a); [|done|lia|apply (Hrest a b); auto]. cbn [rbind].
  rewrite (rest_words_ok h b); [|done|lia|apply (Hrest b a); auto; [lia|intros; apply orb_comm]].
  f_equal. rewrite <- (size_words_below h (Z.max (num_words a) (num_words b))).
  - destruct (decide (num_words a <= num_words b)).
    + replace (num_words a - c) with 0 by lia. rewrite Z.max_r by lia.
      rewrite <- (count_concat h c (num_words b)) by lia. simpl (count h (64 * Z.to_nat 0) _). lia.
    + replace (num_words b - c) with 0 by lia. rewrite Z.max_l by lia.
      rewrite <- (count_concat h c (num_words a)) by lia. simpl (count h (64 * Z.to_nat 0) _). lia.
  - destruct Ha as (Ha0 & Haw & _), Hb as (Hb0 & Hbw & _).
    pose proof (bits2words_spec (num_bits a) Ha0). pose proof (bits2words_spec (num_bits b) Hb0). lia.
  - intros j Hj. unfold h. by rewrite (bit_ghost a), (bit_ghost b) by (auto; lia).
Qed.

(** * Intersection test *)

Lemma land_bits x y : in_s 64 x -> in_s 64 y ->
  Z.land x y <> 0 <-> exists k, 0 <= k < 64 /\ Z.testbit x k = true /\ Z.testbit y k = true.
Proof.
  intros Hx Hy. split.
  - intros Hnz. assert (in_s 64 (Z.land x y)) as Hin by auto with words.
    destruct (trailing_zeros_spec _ Hin Hnz) as (Hr & Ht & _).
    rewrite Z.land_spec in Ht. apply andb_true_iff in Ht as [? ?]. eauto.
  - intros (k & Hk & H1 & H2) Hz. apply (f_equal (fun z => Z.testbit z k)) in Hz.
    rewrite Z.land_spec, H1, H2, Z.bits_0 in Hz. discriminate.
Qed.

Definition hits (p : Z * Z) : Prop := Z.land p.1 p.2 <> 0.

Lemma existsb_hits l : existsb (fun p => negb (Z.land p.1 p.2 =? 0)) l = true <-> Exists hits l.
Proof.
  rewrite existsb_exists, Exists_exists. unfold hits.
  split; intros (p & Hp & Hn); exists p; (split; [by apply list_elem_of_In|]).
  - apply negb_true_iff, Z.eqb_neq in Hn. done.
  - by apply negb_true_iff, Z.eqb_neq.
Qed.

Lemma scan_groups_hits l : scan_groups l = true <-> Exists hits l.
Proof.
  remember (length l) as n eqn:Hn. revert l Hn. induction (lt_wf n) as [n _ IH]. intros l ->.
  destruct l as [|p3 [|p2 [|p1 [|p0 l]]]]; try apply existsb_hits. cbn [scan_groups].
  rewrite !Exists_cons. destruct (Z.eqb_spec (Z.lor (Z.lor (Z.lor (Z.land p3.1 p3.2) (Z.land p2.1 p2.2))
    (Z.land p1.1 p1.2)) (Z.land p0.1 p0.2)) 0) as [Hz|Hnz]; cbn [negb].
  - rewrite !Z.lor_eq_0_iff in Hz. rewrite (IH (length l)) by (simpl; lia || done).
    unfold hits in *. naive_solver.
  - split; [|done]. intros _. rewrite !Z.lor_eq_0_iff in Hnz. unfold hits.
    destruct (decide (Z.land p3.1 p3.2 = 0)), (decide (Z.land p2.1 p2.2 = 0)),
      (decide (Z.land p1.1 p1.2 = 0)), (decide (Z.land p0.1 p0.2 = 0)); naive_solver.
Qed.

Lemma scan_rest_hits a b : scan_rest a b = true <-> Exists hits (zip a b).
Proof.
  unfold scan_rest. destruct (_ <? _)%nat; [rewrite existsb_hits|rewrite scan_groups_hits];
    rewrite !Exists_exists; split; intros (p & Hp & Hh); exists p; split; auto;
    apply list_elem_of_In; apply list_elem_of_In in Hp; by apply in_rev in Hp || by apply in_rev.
Qed.

(** A common bit lies in a common word. *)
Lemma common_word s o : inv s -> inv o ->
  (exists j, 0 <= j /\ bit s j = true /\ bit o j = true) <->
  exists i x y, Z.of_nat i < Z.min (num_words s) (num_words o) /\
    bits s !! i = Some x /\ bits o !! i = Some y /\ Z.land x y <> 0.
Proof.
  intros Hs Ho. set (pos := Z.min _ _).
  pose proof (num_words_nonneg s Hs). pose proof (num_words_nonneg o Ho).
  assert (Hins : Forall (in_s 64) (bits s)) by apply Hs.
  assert (Hino : Forall (in_s 64) (bits o)) by apply Ho.
  split.
  - intros (j & Hj & H1 & H2). pose proof (div64 j Hj) as D.
    destruct (decide (j / 64 < pos)) as [Hlt|Hge].
    2: { destruct (decide (num_words s <= j / 64)).
      - rewrite bit_word_ghost in H1 by auto. discriminate.
      - rewrite (bit_word_ghost o) in H2 by (auto; lia). discriminate. }
    unfold bit, bitl in H1, H2. destruct (bits s !! _) as [x|] eqn:Ex; [|discriminate].
    destruct (bits o !! _) as [y|] eqn:Ey; [|discriminate].
    exists (Z.to_nat (j / 64)), x, y. split_and!; auto; [lia|].
    apply (land_bits x y (Forall_lookup_1 _ _ _ _ Hins Ex) (Forall_lookup_1 _ _ _ _ Hino Ey)).
    exists (j mod 64). split_and!; auto; lia.
  - intros (i & x & y & Hi & Hx & Hy & Hl).
    destruct (proj1 (land_bits x y (Forall_lookup_1 _ _ _ _ Hins Hx)
      (Forall_lookup_1 _ _ _ _ Hino Hy)) Hl) as (k & Hk & H1 & H2).
    exists (64 * Z.of_nat i + k). split; [lia|].
    rewrite (bit_in_word s i x), (bit_in_word o i y) by (auto; lia).
    by replace (64 * Z.of_nat i + k - 64 * Z.of_nat i) with k by lia.
Qed.

Lemma intersects_ok s o : inv s -> inv o ->
  exists r, intersects s o = Ok r /\
    (r = true <-> exists j, 0 <= j /\ bit s j = true /\ bit o j = true).
Proof.
  intros Hs Ho. unfold intersects. set (pos := Z.min _ _).
  pose proof (num_words_nonneg s Hs). pose proof (num_words_nonneg o Ho).
  pose proof (common_word s o Hs Ho) as Hcommon. fold pos in Hcommon.
  destruct (Z.eqb_spec pos 0) as [Hz|Hnz].
  { exists false. split; [done|]. split; [done|]. rewrite Hcommon. intros (i & ? & ? & ? & _). lia. }
  destruct (vget_in (bits s) (pos - 1) ltac:(lia)) as (x & Hx & ->). cbn [rbind].
  destruct (vget_in (bits o) (pos - 1) ltac:(lia)) as (y & Hy & ->). cbn [rbind].
  destruct (Z.eqb_spec (Z.land x y) 0) as [Hl|Hl]; cbn [negb].
  2: { exists true. split; [done|]. split; [|done]. intros _. apply Hcommon.
    exists (Z.to_nat (pos - 1)), x, y. split_and!; auto. lia. }
  rewrite !vslice_ok by lia. cbn [rbind]. rewrite !Z.sub_0_r. change (Z.to_nat 0) with 0%nat.
  rewrite !drop_0. eexists. split; [done|]. rewrite scan_rest_hits, Hcommon, Exists_exists. split.
  - intros ([a b] & Hp & Hh). apply list_elem_of_lookup in Hp as (i & Hi).
    rewrite lookup_zip_with in Hi. apply bind_Some in Hi as (a' & Ha & Hi).
    apply bind_Some in Hi as (b' & Hb & Hi). injection Hi as <- <-.
    rewrite lookup_take_Some in Ha, Hb. exists i, a', b'. split_and!; try apply Ha; try apply Hb; auto. lia.
  - intros (i & a & b & Hi & Ha & Hb & Hh). exists (a, b). split; [|done].
    assert (i <> Z.to_nat (pos - 1)) by (intros ->; congruence).
    apply list_elem_of_lookup. exists i. rewrite lookup_zip_with.
    rewrite !lookup_take_lt by lia. by rewrite Ha, Hb.
Qed.

(** * Construction, growth and copies *)

Definition ghost_clear (b : list Z) (n : Z) : Prop := forall j, n <= j -> bitl b j = false.

Lemma tail_words_zero b n : 0 <= n -> ghost_clear b n ->
  Forall (in_s 64) b -> bits2words n <= Z.of_nat (length b) ->
  forallb (fun w => w =? 0) (drop (Z.to_nat (bits2words n)) b) = true.
Proof.
  intros H0 Hg Hin Hl. pose proof (bits2words_spec n H0). apply forallb_forall. intros w Hw.
  apply list_elem_of_In, list_elem_of_lookup in Hw as (i & Hi). rewrite lookup_drop in Hi.
  apply Z.eqb_eq, zero_word; [eapply Forall_lookup_1; eauto|]. intros k Hk.
  set (i' := (Z.to_nat (bits2words n) + i)%nat) in *.
  specialize (Hg (64 * Z.of_nat i' + k) ltac:(lia)).
  change (bitl b ?j) with (bit (mk b 0 0) j) in Hg.
  rewrite (bit_in_word (mk b 0 0) i' w) in Hg by (auto; lia). rewrite <- Hg. f_equal. lia.
Qed.

Lemma verify_ghost_bits_clear_ok b n : 0 <= n -> Forall (in_s 64) b ->
  bits2words n <= Z.of_nat (length b) -> ghost_clear b n ->
  verify_ghost_bits_clear (mk b n (bits2words n)) = Ok true.
Proof.
  intros H0 Hin Hl Hg. unfold verify_ghost_bits_clear. cbn [bits num_words num_bits].
  pose proof (bits2words_spec n H0). rewrite vslice_ok by lia. cbn [rbind].
  rewrite take_ge by (rewrite length_drop; lia). rewrite tail_words_zero by done. cbn [negb].
  change 0x3f with (Z.ones 6). rewrite Z.land_ones by lia. change (2 ^ 6) with 64.
  destruct (Z.eqb_spec (n mod 64) 0) as [|Hnz]; [done|].
  pose proof (div64 n H0) as D. assert (n <> 0) by (intros ->; done).
  destruct (vget_in b (bits2words n - 1) ltac:(lia)) as (w & Hw & ->). cbn [rbind]. f_equal.
  fold (start_mask_of n). apply Z.eqb_eq, zero_word.
  - destruct (masks_in_s n) as (_ & ? & _). apply in_s_land; auto; [lia|].
    eapply Forall_lookup_1; eauto.
  - intros k Hk. rewrite Z.land_spec, start_mask_testbit by done.
    destruct (Z.leb_spec (n mod 64) k); [|by rewrite andb_false_r].
    assert (n / 64 = bits2words n - 1) by lia.
    specialize (Hg (64 * (bits2words n - 1) + k) ltac:(lia)).
    change (bitl b ?j) with (bit (mk b 0 0) j) in Hg.
    rewrite (bit_in_word (mk b 0 0) (Z.to_nat (bits2words n - 1)) w) in Hg by (auto; lia).
    rewrite Z2Nat.id in Hg by lia.
    replace (64 * (bits2words n - 1) + k - 64 * (bits2words n - 1)) with k in Hg by lia.
    by rewrite Hg.
Qed.

Lemma from_validated_parts_ok b n : 0 <= n -> Forall (in_s 64) b ->
  bits2words n <= Z.of_nat (length b) -> ghost_clear b n ->
  from_validated_parts b n (bits2words n) = Ok (mk b n (bits2words n)) /\
  inv (mk b n (bits2words n)).
Proof.
  intros H0 Hin Hl Hg. unfold from_validated_parts. rewrite Z.eqb_refl. cbn [debug_assert rbind].
  rewrite debug_assert_true by zcase. rewrite verify_ghost_bits_clear_ok by done.
  split; [done|]. by split_and!.
Qed.

Lemma bitl_replicate n j : bitl (replicate n 0) j = false.
Proof.
  unfold bitl. destruct (replicate n 0 !! _) as [w|] eqn:E; [|done].
  apply lookup_replicate in E as [-> _]. apply Z.bits_0.
Qed.

Lemma in_s_zeros n : Forall (in_s 64) (replicate n 0).
Proof. apply Forall_replicate. unfold in_s. lia. Qed.

Lemma new_ok n : 0 <= n ->
  exists s, new n = Ok s /\ inv s /\ num_bits s = n /\ forall j, bit s j = false.
Proof.
  intros H0. pose proof (bits2words_spec n H0).
  destruct (from_validated_parts_ok (replicate (Z.to_nat (bits2words n)) 0) n) as [Hf Hi];
    auto using in_s_zeros.
  - rewrite length_replicate. lia.
  - intros j Hj. apply bitl_replicate.
  - eexists. split; [exact Hf|]. split; [done|]. split; [done|]. intros. apply bitl_replicate.
Qed.

Lemma ensure_capacity_ok s n :
  inv s -> 0 <= n -> bits2words n < ArrayUtil.max_array_length 8 ->
  Z.of_nat (length (bits s)) <= i32_MAX ->
  exists s', ensure_capacity s n = Ok s' /\ inv s' /\ n <= num_bits s' /\
    num_bits s <= num_bits s' /\ (num_bits s <= n -> n < num_bits s') /\
    forall j, 0 <= j -> bit s' j = bit s j.
Proof.
  intros Hs Hn Hmax Hlen. unfold ensure_capacity.
  destruct (Z.ltb_spec n (num_bits s)); [exists s; split_and!; auto; lia|].
  assert (Hs' := Hs). destruct Hs' as (H0 & Hw & Hl & Hin & Hg).
  pose proof (ArrayUtil.max_array_length_le 8). unfold ArrayUtil.MAX_ARRAY_LENGTH in *.
  pose proof (bits2words_spec n Hn). pose proof (bits2words_spec (num_bits s) H0).
  assert (Hgrow : exists k, (if Z.of_nat (length (bits s)) <=? bits2words n
      then ArrayUtil.grow_with 8 (bits s) (bits2words n + 1) 0 else Ok (bits s))
      = Ok (bits s ++ replicate k 0) /\ bits2words n < Z.of_nat (length (bits s) + k) <= i32_MAX).
  { destruct (Z.leb_spec (Z.of_nat (length (bits s))) (bits2words n)).
    - destruct (ArrayUtil.grow_with_ok 8 (bits s) (bits2words n + 1) 0) as (k & -> & Hk1 & Hk2); [lia|].
      exists k. split; [done|lia].
    - exists 0%nat. rewrite app_nil_r. split; [done|lia]. }
  destruct Hgrow as (k & -> & Hk). cbn [rbind]. rewrite length_app, length_replicate.
  rewrite debug_assert_true by zcase. rewrite shiftl6.
  set (len := Z.of_nat (length (bits s) + k)) in *.
  assert (Hbw : bits2words (64 * len) = len).
  { pose proof (bits2words_spec (64 * len) ltac:(lia)). lia. }
  assert (Hbit : forall j, 0 <= j -> bitl (bits s ++ replicate k 0) j = bit s j).
  { intros j Hj. unfold bit, bitl. destruct (decide (Z.to_nat (j / 64) < length (bits s))%nat).
    - by rewrite lookup_app_l by lia.
    - rewrite lookup_app_r, (lookup_ge_None_2 (bits s)) by lia.
      destruct (replicate k 0 !! _) eqn:E; [|done].
      apply lookup_replicate in E as [-> _]. apply Z.bits_0. }
  eexists. split; [done|]. cbn [num_bits]. split; [|split; [lia|split; [lia|split; [lia|]]]].
  - unfold inv. cbn [num_bits num_words bits]. rewrite Hbw, length_app, length_replicate. fold len.
    split_and!; auto; [lia|lia| |].
    + apply Forall_app. split; [done|apply in_s_zeros].
    + intros j Hj. unfold bit. cbn [bits]. rewrite Hbit by lia. apply Hg. lia.
  - intros j Hj. unfold bit at 1. cbn [bits]. by apply Hbit.
Qed.

Lemma copy_loop_ok get_ h n : forall from s, inv s -> 0 <= from ->
  from + Z.of_nat n <= num_bits s ->
  (forall i, from <= i < from + Z.of_nat n -> get_ i = Ok (h i)) ->
  exists s', copy_loop n from get_ s = Ok s' /\
    becomes s s' (fun j => if in_range from (from + Z.of_nat n) j then bit s j && h j else bit s j).
Proof.
  induction n as [|n IH]; intros from s Hs H0 Hn Hget; cbn [copy_loop].
  - exists s. split; [done|]. apply becomes_refl; [done|]. intros j Hj. unfold in_range. zcase.
  - rewrite (Hget from) by lia. cbn [rbind].
    assert (Hstep : exists s1, (if negb (h from) then clear_with_index s from else Ok s) = Ok s1 /\
      becomes s s1 (fun j => if j =? from then bit s j && h j else bit s j)).
    { destruct (h from) eqn:E; cbn [negb].
      - exists s. split; [done|]. apply becomes_refl; [done|]. intros j Hj.
        destruct (Z.eqb_spec j from) as [->|]; [by rewrite E, andb_true_r|done].
      - destruct (clear_with_index_ok s from Hs ltac:(lia)) as (s1 & -> & Hb). exists s1.
        split; [done|]. eapply becomes_ext; [exact Hb|]. intros j Hj. cbv beta.
        destruct (Z.eqb_spec j from) as [->|]; [by rewrite E, andb_false_r|done]. }
    destruct Hstep as (s1 & -> & Hi1 & Hn1 & Hl1 & Hb1). cbn [rbind].
    destruct (IH (from + 1) s1 Hi1) as (s2 & -> & Hi2 & Hn2 & Hl2 & Hb2); [lia|lia| |].
    { intros. apply Hget. lia. }
    exists s2. split; [done|]. split_and!; [done|congruence|congruence|].
    intros j Hj. rewrite Hb2, Hb1 by done. unfold in_range. zcase.
Qed.

Lemma copy_of_ok n get_ h : 0 < n -> (forall i, 0 <= i < n -> get_ i = Ok (h i)) ->
  exists s, copy_of n get_ = Ok s /\ inv s /\ num_bits s = n /\
    forall j, 0 <= j -> bit s j = (j <? n) && h j.
Proof.
  intros Hn Hget. unfold copy_of. destruct (new_ok n ltac:(lia)) as (s0 & -> & Hi0 & Hn0 & Hb0).
  cbn [rbind]. destruct (set_with_range_ok s0 0 n Hi0 ltac:(lia) ltac:(lia))
    as (s1 & -> & Hi1 & Hn1 & Hl1 & Hb1). cbn [rbind].
  destruct (copy_loop_ok get_ h (Z.to_nat n) 0 s1 Hi1 ltac:(lia)) as (s2 & -> & Hi2 & Hn2 & Hl2 & Hb2);
    [lia|intros; apply Hget; lia|].
  exists s2. split; [done|]. split; [done|]. split; [congruence|].
  intros j Hj. rewrite Hb2, Hb1, Hb0 by done. unfold in_range. rewrite Z2Nat.id by lia. zcase.
Qed.

Lemma sample_words_ok s fuel : inv s -> forall m p, 0 <= m -> num_words s <= m + Z.of_nat fuel ->
  exists m' p', sample_words fuel s m p = Ok (m', p') /\ m <= m'.
Proof.
  intros Hs. pose proof (num_words_nonneg s Hs).
  induction fuel as [|fuel IH]; intros m p Hm Hf; cbn [sample_words].
  - replace (m + 1024 <? num_words s) with false by zcase. by exists m, p.
  - destruct (Z.ltb_spec (m + 1024) (num_words s)) as [Hlt|]; [|by exists m, p].
    rewrite (sum_words_ok (bit s)); [|lia|].
    2: { intros i Hi. destruct (vget_bits s i Hs ltac:(lia)) as (w & Hw & _ & Hb). eauto. }
    cbn [rbind]. destruct (IH (m + 1024) (p + count (bit s) (64 * 16) (64 * m))) as (m' & p' & -> & Hle);
      [lia..|]. exists m', p'. split; [done|lia].
Qed.

Lemma approximate_cardinality_ok s : inv s ->
  exists r, approximate_cardinality s = Ok r /\
    (num_words s <= 1024 -> r = size_below (bit s) (num_bits s)).
Proof.
  intros Hs. unfold approximate_cardinality. destruct (Z.leb_spec (num_words s) 1024).
  - eexists. split; [by apply cardinality_ok|done].
  - destruct (sample_words_ok s (Z.to_nat (num_words s)) Hs 0 0) as (m & p & -> & _); [lia..|].
    cbn [rbind]. eexists. split; [done|lia].
Qed.

(** * Properties *)

Definition sample : t := mk [5; 0; 8] 140 3.

Lemma sample_inv : inv sample.
Proof.
  destruct (from_validated_parts_ok [5; 0; 8] 140) as [_ Hi]; try done.
  - rewrite !Forall_cons. unfold in_s. split_and!; try lia. constructor.
  - intros j Hj. unfold bitl. pose proof (div64 j ltac:(lia)).
    destruct (decide (j / 64 = 2)) as [Heq|].
    + rewrite Heq. change ([5; 0; 8] !! Z.to_nat 2) with (Some 8). apply (in_u_testbit 4); [unfold in_u; simpl; lia|lia].
    + rewrite lookup_ge_None_2; [done|]. simpl. lia.
Qed.

(** Single bits. On a well-formed set and an index below [num_bits] no operation
    panics; [get] reads the bit, [set], [clear] and [flip] change that bit and no other,
    [get_and_set] and [get_and_clear] also return its old value, and the result is again
    well formed (ghost bits clear), of the same size. *)
Theorem single_bit_operations s i :
  inv s -> 0 <= i < num_bits s ->
  get s i = Ok (bit s i) /\
  (exists s', set s i = Ok s' /\ becomes s s' (fun j => if j =? i then true else bit s j)) /\
  (exists s', clear_with_index s i = Ok s' /\
     becomes s s' (fun j => if j =? i then false else bit s j)) /\
  (exists s', flip s i = Ok s' /\
     becomes s s' (fun j => if j =? i then negb (bit s j) else bit s j)) /\
  (exists s', get_and_set s i = Ok (bit s i, s') /\
     becomes s s' (fun j => if j =? i then true else bit s j)) /\
  (exists s', get_and_clear s i = Ok (bit s i, s') /\
     becomes s s' (fun j => if j =? i then false else bit s j)).
Proof.
  intros Hs Hi. split_and!; auto using get_ok, set_ok, clear_with_index_ok, flip_ok,
    get_and_set_ok, get_and_clear_ok.
Qed.

Lemma single_bit_operations_witness :
  get sample 2 = Ok true /\ get sample 100 = Ok false /\
  exists s', set sample 100 = Ok s' /\
    becomes sample s' (fun j => if j =? 100 then true else bit sample j).
Proof.
  destruct (single_bit_operations sample 2 sample_inv) as (H1 & _); [simpl; lia|].
  destruct (single_bit_operations sample 100 sample_inv) as (H2 & H3 & _); [simpl; lia|].
  split; [exact H1|]. split; [exact H2|exact H3].
Defined.

(** C31: Ranges. [set_with_range], [clear_range] and [flip_range] change exactly the bits
    from [start_index] to [end_index - 1], whether the range lies in one word, spans
    several or is empty. *)
Theorem range_operations s start_index end_index :
  inv s -> 0 <= start_index < num_bits s -> 0 <= end_index <= num_bits s ->
  (exists s', set_with_range s start_index end_index = Ok s' /\
     becomes s s' (fun j => if in_range start_index end_index j then true else bit s j)) /\
  (exists s', clear_range s start_index end_index = Ok s' /\
     becomes s s' (fun j => if in_range start_index end_index j then false else bit s j)) /\
  (exists s', flip_range s start_index end_index = Ok s' /\
     becomes s s' (fun j => if in_range start_index end_index j then negb (bit s j) else bit s j)).
Proof.
  intros Hs H1 H2. split_and!; auto using set_with_range_ok, clear_range_ok, flip_range_ok.
Qed.

Lemma range_operations_witness :
  exists s', flip_range sample 1 131 = Ok s' /\
    becomes sample s' (fun j => if in_range 1 131 j then negb (bit sample j) else bit sample j).
Proof. apply (range_operations sample 1 131 sample_inv); simpl; lia. Defined.

(** C23: Set operations between well-formed sets. [and] and [and_not] (also with a word
    offset) are intersection and difference, with no condition on the sizes, and keep the
    invariant. [or] (also with a word offset) and [xor] are union and symmetric difference of
    all the bits, past [num_bits] too, when the other set, shifted by the offset, has no more
    words than this one; with more words they panic. The size is unchanged, and the
    invariant, that the ghost bits at or past [num_bits] are clear, holds of the result exactly
    when the shifted other set has no bit at or past [num_bits] either, which neither
    operation checks. *)
Theorem set_operations s other off :
  inv s -> inv other -> 0 <= off ->
  (exists s', and s other = Ok s' /\ becomes s s' (fun j => bit s j && bit other j)) /\
  (exists s', and_not_offset s off other = Ok s' /\
     becomes s s' (fun j => bit s j && negb (bit_from off other j))) /\
  (if num_words other + off <=? num_words s
   then exists s', or_offset s off other = Ok s' /\ fills s s' (fun j => bit s j || bit_from off other j) /\
     (inv s' <-> forall j, num_bits s <= j -> bit_from off other j = false)
   else or_offset s off other = Panic) /\
  (if num_words other <=? num_words s
   then exists s', xor s other = Ok s' /\ fills s s' (fun j => xorb (bit s j) (bit other j)) /\
     (inv s' <-> forall j, num_bits s <= j -> bit other j = false)
   else xor s other = Panic).
Proof.
  intros Hs Ho Hoff. split; [by apply and_ok|]. split; [by apply and_not_impl_ok|]. split.
  - destruct (Z.leb_spec (num_words other + off) (num_words s)) as [Hle|Hgt].
    + destruct (or_impl_fills s off other) as (s' & H1 & H2); auto. exists s'. split; [done|]. split; [done|].
      by apply (fills_past s s' orb).
    + unfold or_offset, or_impl. by replace (_ <=? _) with false by zcase.
  - destruct (Z.leb_spec (num_words other) (num_words s)) as [Hle|Hgt].
    + destruct (xor_fills s other) as (s' & H1 & H2); auto. exists s'. split; [done|]. split; [done|].
      by apply (fills_past s s' xorb).
    + unfold xor, xor_impl. by replace (_ <=? _) with false by zcase.
Qed.

(** 128 bits with bit 100 set, and 65 bits with bit 2 set: both have two words. *)
Definition two_words : t := mk [0; 2 ^ 36] 128 2.
Definition odd_bits : t := mk [4; 0] 65 2.

Lemma two_words_inv : inv two_words.
Proof.
  destruct (from_validated_parts_ok [0; 2 ^ 36] 128) as [_ Hi]; try done.
  - rewrite !Forall_cons. unfold in_s. split_and!; try lia. constructor.
  - intros j Hj. unfold bitl. pose proof (div64 j ltac:(lia)). rewrite lookup_ge_None_2; [done|]. simpl. lia.
Qed.
Lemma odd_bits_inv : inv odd_bits.
Proof.
  destruct (from_validated_parts_ok [4; 0] 65) as [_ Hi]; try done.
  - rewrite !Forall_cons. unfold in_s. split_and!; try lia. constructor.
  - intros j Hj. unfold bitl. pose proof (div64 j ltac:(lia)). destruct (decide (j / 64 = 1)) as [->|].
    + apply Z.testbit_0_l.
    + rewrite lookup_ge_None_2; [done|]. simpl. lia.
Qed.

Lemma set_operations_witness :
  (exists s', and sample two_words = Ok s' /\ becomes sample s' (fun j => bit sample j && bit two_words j)) /\
  (exists s', and_not_offset sample 1 two_words = Ok s' /\
     becomes sample s' (fun j => bit sample j && negb (bit_from 1 two_words j))) /\
  (exists s', or_offset sample 1 odd_bits = Ok s' /\
     fills sample s' (fun j => bit sample j || bit_from 1 odd_bits j) /\
     (inv s' <-> forall j, num_bits sample <= j -> bit_from 1 odd_bits j = false)) /\
  (exists s', xor sample two_words = Ok s' /\
     fills sample s' (fun j => xorb (bit sample j) (bit two_words j)) /\
     (inv s' <-> forall j, num_bits sample <= j -> bit two_words j = false)) /\
  xor two_words sample = Panic /\ or_offset sample 2 two_words = Panic.
Proof.
  split; [apply (set_operations sample two_words 1 sample_inv two_words_inv ltac:(lia))|].
  split; [apply (set_operations sample two_words 1 sample_inv two_words_inv ltac:(lia))|].
  split; [apply (set_operations sample odd_bits 1 sample_inv odd_bits_inv ltac:(lia))|].
  split; [apply (set_operations sample two_words 0 sample_inv two_words_inv ltac:(lia))|].
  split; [apply (set_operations two_words sample 0 two_words_inv sample_inv ltac:(lia))|].
  apply (set_operations sample two_words 2 sample_inv two_words_inv ltac:(lia)).
Defined.

(** The union of 65 bits with 128 bits passes the check of the words and leaves a bit past
    [num_bits]. *)
Example or_breaks_ghost_bits : exists s', or odd_bits two_words = Ok s' /\ ~ inv s'.
Proof.
  eexists. split; [vm_compute; reflexivity|]. intros Hi. by apply (bit_ghost _ 100) in Hi; [vm_compute in Hi|cbn; lia].
Qed.

(** C18: Searches. [next_set_bit_range] returns the first one bit of the range, or
    [NO_MORE_DOCS] when the range has none (the word scan may run past the range, the
    answer does not); [prev_set_bit] returns the last one bit at or before the index. *)
Theorem set_bit_searches s start end_ index :
  inv s -> 0 <= start < end_ -> end_ <= num_bits s -> 0 <= index < num_bits s ->
  ((exists r, next_set_bit_range s start end_ = Ok r /\ r < end_ /\ first_from s start r) \/
   (next_set_bit_range s start end_ = Ok NO_MORE_DOCS /\
    forall k, start <= k < end_ -> bit s k = false)) /\
  ((exists r, prev_set_bit s index = Ok (Some r) /\ 0 <= r <= index /\ bit s r = true /\
      forall k, r < k <= index -> bit s k = false) \/
   (prev_set_bit s index = Ok None /\ forall k, 0 <= k <= index -> bit s k = false)).
Proof.
  intros Hs Hst Hen Hi. split; [|by apply prev_set_bit_ok]. unfold next_set_bit_range.
  destruct (next_set_bit_impl_ok s start end_ Hs Hst Hen) as [(r & -> & Hf)|[-> Hf]]; cbn [rbind].
  - destruct (Z.ltb_spec r end_); [left; eauto|]. right. split; [done|].
    intros k Hk. apply Hf. lia.
  - right. split; [by destruct (_ <? _)|done].
Qed.

Lemma set_bit_searches_witness :
  next_set_bit_range sample 3 140 = Ok 131 /\ next_set_bit_range sample 3 131 = Ok NO_MORE_DOCS /\
  prev_set_bit sample 130 = Ok (Some 2) /\
  ((exists r, next_set_bit_range sample 3 140 = Ok r /\ r < 140 /\ first_from sample 3 r) \/
   (next_set_bit_range sample 3 140 = Ok NO_MORE_DOCS /\
    forall k, 3 <= k < 140 -> bit sample k = false)).
Proof.
  do 3 (split; [reflexivity|]).
  apply (set_bit_searches sample 3 140 130 sample_inv); simpl; lia.
Defined.

(** Counts. [cardinality] is the number of one bits, the three pair counts are the
    sizes of the intersection, of the union and of the difference, [intersects] tells
    whether there is a common bit, and [approximate_cardinality] never fails and is exact
    for up to 1024 words. *)
Theorem counts_are_sizes a b :
  inv a -> inv b ->
  cardinality a = Ok (size_below (bit a) (num_bits a)) /\
  intersection_count a b = Ok (size_below (fun j => bit a j && bit b j) (num_bits a)) /\
  union_count a b
  = Ok (size_below (fun j => bit a j || bit b j) (Z.max (num_bits a) (num_bits b))) /\
  and_not_count a b = Ok (size_below (fun j => bit a j && negb (bit b j)) (num_bits a)) /\
  (exists r, intersects a b = Ok r /\
     (r = true <-> exists j, 0 <= j /\ bit a j = true /\ bit b j = true)) /\
  (exists r, approximate_cardinality a = Ok r /\
     (num_words a <= 1024 -> r = size_below (bit a) (num_bits a))).
Proof.
  intros Ha Hb. split_and!; auto using cardinality_ok, intersection_count_ok, union_count_ok,
    and_not_count_ok, intersects_ok, approximate_cardinality_ok.
Qed.

Lemma counts_are_sizes_witness :
  cardinality sample = Ok 3 /\
  cardinality sample = Ok (size_below (bit sample) (num_bits sample)) /\
  exists r, intersects sample sample = Ok r /\
    (r = true <-> exists j, 0 <= j /\ bit sample j = true /\ bit sample j = true).
Proof.
  split; [reflexivity|].
  destruct (counts_are_sizes sample sample sample_inv sample_inv) as (H1 & _ & _ & _ & H5 & _).
  by split.
Defined.

(** Construction and growth. [new] gives an empty set of the requested size;
    [ensure_capacity] keeps every bit and never shrinks, growing past the requested size
    when the set was not already larger; the default [Bits::copy_of] of a non-empty
    [Bits] copies it bit by bit. *)
Theorem construction_and_growth n s m k get_ h :
  0 <= n -> inv s -> 0 <= m -> bits2words m < ArrayUtil.max_array_length 8 ->
  Z.of_nat (length (bits s)) <= i32_MAX ->
  0 < k -> (forall i, 0 <= i < k -> get_ i = Ok (h i)) ->
  (exists s0, new n = Ok s0 /\ inv s0 /\ num_bits s0 = n /\ forall j, bit s0 j = false) /\
  (exists s', ensure_capacity s m = Ok s' /\ inv s' /\ m <= num_bits s' /\
     num_bits s <= num_bits s' /\ (num_bits s <= m -> m < num_bits s') /\
     forall j, 0 <= j -> bit s' j = bit s j) /\
  (exists c, copy_of k get_ = Ok c /\ inv c /\ num_bits c = k /\
     forall j, 0 <= j -> bit c j = (j <? k) && h j).
Proof.
  intros. split; [by apply new_ok|]. split; [by apply ensure_capacity_ok|by apply copy_of_ok].
Qed.

Lemma construction_and_growth_witness :
  exists c, copy_of 100 (fun i => Ok (Z.even i)) = Ok c /\ inv c /\ num_bits c = 100 /\
    forall j, 0 <= j -> bit c j = (j <? 100) && Z.even j.
Proof.
  apply (construction_and_growth 10 sample 300 100 (fun i => Ok (Z.even i)) Z.even);
    try apply sample_inv; try (vm_compute; congruence); try lia; done.
Defined.

(** The default [copy_of] of a [Bits] of length zero trips the assertion of
    [set_with_range] that the range starts inside of the set. *)
Lemma copy_of_empty_panics get_ : copy_of 0 get_ = Panic.
Proof. done. Qed.

End FixedBitSet.
