(* ===== verification/StringHelper.v ===== *)
(** Byte slices: [BytesRef] (src/core/index/bytes_ref.rs), the vectorised mismatch
    search of [CoreHelper] (src/core/util/core_helper.rs) and [StringHelper]
    (src/core/util/string_helper.rs) with its MurmurHash3. *)

From Stdlib Require Import ZArith Lia Bool.
From stdpp Require Import base tactics numbers list.
From S2P Require Import Prelude BitUtil FixedBitSet.
Import BitUtil.

Local Open Scope Z_scope.

(** * Comparison of byte slices, Rust's [Ord] on [\[u8\]] *)

Fixpoint slice_cmp (a b : list Z) : comparison :=
  match a, b with
  | [], [] => Eq
  | [], _ :: _ => Lt
  | _ :: _, [] => Gt
  | x :: a, y :: b => match x ?= y with Eq => slice_cmp a b | c => c end
  end.

Module BytesRef.
Record t := mk { bytes : list Z; offset : Z; length_ : Z }.

Definition as_byte_slice (b : t) : result (list Z) :=
  vslice (bytes b) (offset b) (offset b + length_ b).

Definition compare_to (a b : t) : result comparison :=
  let? x := as_byte_slice a in
  let? y := as_byte_slice b in
  Ok (slice_cmp x y).

Definition from_bytes (bs : list Z) : t := mk bs 0 (Z.of_nat (length bs)).

(** A reference whose range lies inside its bytes. *)
Definition valid (b : t) : Prop :=
  0 <= offset b /\ 0 <= length_ b /\ offset b + length_ b <= Z.of_nat (length (bytes b)).

Definition contents (b : t) : list Z := take (Z.to_nat (length_ b)) (drop (Z.to_nat (offset b)) (bytes b)).

Lemma as_byte_slice_ok b : valid b -> as_byte_slice b = Ok (contents b).
Proof.
  intros (Ho & Hl & Hb). unfold as_byte_slice. rewrite vslice_ok by lia.
  unfold contents. do 3 f_equal. lia.
Qed.

Lemma contents_length b : valid b -> Z.of_nat (length (contents b)) = length_ b.
Proof. intros (Ho & Hl & Hb). unfold contents. rewrite length_take, length_drop. lia. Qed.

Lemma from_bytes_valid bs : valid (from_bytes bs) /\ contents (from_bytes bs) = bs.
Proof.
  unfold valid, contents, from_bytes; cbn. split; [lia|].
  by rewrite Nat2Z.id, firstn_all.
Qed.
End BytesRef.

(** * [CoreHelper::miss_match_u8] *)

Module Mismatch.

Section Scan.
(** [u8x32::from(x).simd_eq(u8x32::from(y)).to_bitmask()] of the [wide] crate. *)
Variable eq_mask : list Z -> list Z -> Z.

(** The loops over blocks of 32 bytes: [inr] is an early return. *)
Fixpoint simd_scan (fuel : nat) (a b : list Z) (limit i : Z) : result (Z + Z) :=
  match fuel with
  | O => OutOfFuel
  | S fuel =>
      if i + 32 <=? limit then
        let? x := vslice a i (i + 32) in
        let? y := vslice b i (i + 32) in
        let mismatch := as_u32 (Z.lnot (eq_mask x y)) in
        if negb (mismatch =? 0) then Ok (inr (as_i32 (i + FixedBitSet.first_bit 32 mismatch 0)))
        else simd_scan fuel a b limit (i + 32)
      else Ok (inl i)
  end.

(** The loop over blocks of 128 bytes: it stops in front of a differing block. *)
Fixpoint xor_scan (fuel : nat) (a b : list Z) (common_len i : Z) : result Z :=
  match fuel with
  | O => OutOfFuel
  | S fuel =>
      if i + 128 <=? common_len then
        let? x := vslice a i (i + 128) in
        let? y := vslice b i (i + 128) in
        let mismatch := foldl (fun all p => Z.lor all (Z.lxor p.1 p.2)) 0 (zip x y) in
        if negb (mismatch =? 0) then Ok i else xor_scan fuel a b common_len (i + 128)
      else Ok i
  end.

Fixpoint byte_scan (fuel : nat) (a b : list Z) (common_len i : Z) : result Z :=
  match fuel with
  | O => OutOfFuel
  | S fuel =>
      if i <? common_len then
        let? x := vget a i in
        let? y := vget b i in
        if x =? y then byte_scan fuel a b common_len (i + 1) else Ok i
      else Ok i
  end.

(** The last loop and the answer. *)
Definition finish (a b : list Z) (common_len i : Z) : result Z :=
  let? i := byte_scan (S (length a)) a b common_len i in
  if (i <? common_len) || negb (Z.of_nat (length a) =? Z.of_nat (length b)) then Ok (as_i32 i)
  else Ok (-1).

Definition miss_match_u8 (a b : list Z) : result Z :=
  let common_len := Z.min (Z.of_nat (length a)) (Z.of_nat (length b)) in
  let fuel := S (length a) in
  if 32 <=? common_len then
    let prefix_limit := Z.min common_len 128 in
    let? r := simd_scan fuel a b prefix_limit 0 in
    match r with
    | inr m => Ok m
    | inl i =>
        let? i := if 512 <=? common_len then xor_scan fuel a b common_len i else Ok i in
        let? r := simd_scan fuel a b common_len i in
        match r with
        | inr m => Ok m
        | inl i => finish a b common_len i
        end
    end
  else finish a b common_len 0.

(** The reference: how long the common prefix is. *)
Fixpoint common_prefix (a b : list Z) : nat :=
  match a, b with
  | x :: a, y :: b => if x =? y then S (common_prefix a b) else O
  | _, _ => O
  end.

Definition mismatch (a b : list Z) : Z :=
  if decide (a = b) then -1 else Z.of_nat (common_prefix a b).

(** ** Agreement on a prefix *)

Definition agree (a b : list Z) (i : Z) : Prop :=
  0 <= i <= Z.min (Z.of_nat (length a)) (Z.of_nat (length b)) /\
  take (Z.to_nat i) a = take (Z.to_nat i) b.

Lemma common_prefix_differ n a b :
  take n a = take n b -> (n <= length a)%nat -> (n <= length b)%nat -> a !! n <> b !! n ->
  common_prefix a b = n /\ a <> b.
Proof.
  revert a b. induction n as [|n IH]; intros [|x a] [|y b] Ht Ha Hb Hd; cbn in *; try lia; try done.
  - destruct (Z.eqb_spec x y); [by subst|]. split; [done|congruence].
  - injection Ht as -> Ht. rewrite Z.eqb_refl.
    destruct (IH a b Ht ltac:(lia) ltac:(lia) Hd) as [-> Hn]. split; [done|]. congruence.
Qed.

Lemma agree_differ a b i :
  agree a b i -> a !! Z.to_nat i <> b !! Z.to_nat i -> mismatch a b = i.
Proof.
  intros [Hi Ht] Hd. destruct (common_prefix_differ _ _ _ Ht) as [Hc Hn]; [lia..|done|].
  unfold mismatch. rewrite decide_False, Hc by done. lia.
Qed.

Lemma agree_extend a b i n :
  agree a b i -> 0 <= n -> i + n <= Z.min (Z.of_nat (length a)) (Z.of_nat (length b)) ->
  take (Z.to_nat n) (drop (Z.to_nat i) a) = take (Z.to_nat n) (drop (Z.to_nat i) b) ->
  agree a b (i + n).
Proof.
  intros [Hi Ht] Hn Hb He. split; [lia|].
  rewrite Z2Nat.inj_add by lia. rewrite <- !take_take_drop. congruence.
Qed.

Lemma block_lookup (a : list Z) i n (k : nat) :
  0 <= i -> (k < n)%nat -> take n (drop (Z.to_nat i) a) !! k = a !! Z.to_nat (i + Z.of_nat k).
Proof.
  intros Hi Hk. rewrite lookup_take_lt, lookup_drop by lia. f_equal. lia.
Qed.

Lemma xor_fold_zero l acc :
  foldl (fun all (p : Z * Z) => Z.lor all (Z.lxor p.1 p.2)) acc l = 0 ->
  acc = 0 /\ Forall (fun p => p.1 = p.2) l.
Proof.
  revert acc. induction l as [|p l IH]; intros acc H; [done|].
  cbn in H. apply IH in H as [H Hl]. apply Z.lor_eq_0_iff in H as [Ha Hx].
  apply Z.lxor_eq in Hx. auto.
Qed.

Lemma zip_equal (x y : list Z) :
  length x = length y -> Forall (fun p => p.1 = p.2) (zip x y) -> x = y.
Proof.
  revert y. induction x as [|a x IH]; intros [|b y] Hl H; try done.
  cbn in *. apply Forall_cons in H as [Hab H]. cbn in Hab. f_equal; auto.
Qed.

(** ** Each loop *)

Lemma byte_scan_ok fuel a b i :
  let c := Z.min (Z.of_nat (length a)) (Z.of_nat (length b)) in
  agree a b i -> c - i < Z.of_nat fuel ->
  exists j, byte_scan fuel a b c i = Ok j /\ agree a b j /\
    (j < c -> a !! Z.to_nat j <> b !! Z.to_nat j).
Proof.
  intros c. revert i. induction fuel as [|fuel IH]; intros i Ha Hf; [destruct Ha; lia|].
  cbn [byte_scan]. pose proof (proj1 Ha). destruct (Z.ltb_spec i c).
  - destruct (vget_in a i ltac:(lia)) as (x & Hx & ->), (vget_in b i ltac:(lia)) as (y & Hy & ->).
    cbn [rbind]. destruct (Z.eqb_spec x y) as [->|Hn].
    + apply IH; [|lia]. apply agree_extend; [done|lia|lia|].
      apply list_eq. intros [|k]; [|by rewrite !lookup_take_ge by lia].
      rewrite !block_lookup by lia. rewrite Z.add_0_r. congruence.
    + exists i. split_and!; try done. intros _. congruence.
  - exists i. split_and!; try done; lia.
Qed.

Lemma finish_ok a b i :
  Z.of_nat (length a) <= i32_MAX -> agree a b i ->
  finish a b (Z.min (Z.of_nat (length a)) (Z.of_nat (length b))) i = Ok (mismatch a b).
Proof.
  intros Hm Ha. unfold finish.
  destruct (byte_scan_ok (S (length a)) a b i Ha) as (j & -> & Hj & Hd); [destruct Ha; lia|].
  cbn [rbind]. pose proof Hj as [Hb Ht]. unfold i32_MAX in Hm.
  destruct (_ || _) eqn:E.
  - rewrite wrap_s_id by (unfold in_s; lia). f_equal. symmetry. apply agree_differ; [done|].
    destruct (decide (j < Z.min (Z.of_nat (length a)) (Z.of_nat (length b)))); [auto|].
    destruct (decide (j < Z.of_nat (length a))).
    + rewrite (lookup_ge_None_2 b) by lia. 
      apply not_eq_None_Some, lookup_lt_is_Some_2. lia.
    + rewrite (lookup_ge_None_2 a) by lia. apply not_eq_sym, not_eq_None_Some, lookup_lt_is_Some_2. lia.
  - f_equal. unfold mismatch. rewrite decide_True; [done|].
    rewrite !firstn_all2 in Ht by lia. done.
Qed.

Lemma xor_scan_ok fuel a b i :
  let c := Z.min (Z.of_nat (length a)) (Z.of_nat (length b)) in
  agree a b i -> c - i < Z.of_nat fuel ->
  exists j, xor_scan fuel a b c i = Ok j /\ agree a b j /\ i <= j.
Proof.
  intros c. revert i. induction fuel as [|fuel IH]; intros i Ha Hf; [destruct Ha; lia|].
  cbn [xor_scan]. pose proof (proj1 Ha). destruct (Z.leb_spec (i + 128) c); [|eauto with lia].
  rewrite !vslice_ok by lia. cbn [rbind]. replace (i + 128 - i) with 128 by lia.
  destruct (negb _) eqn:E; [by exists i; split_and!; eauto with lia|].
  apply negb_false_iff, Z.eqb_eq, xor_fold_zero in E as [_ E%zip_equal];
    [|rewrite !length_take, !length_drop; lia].
  destruct (IH (i + 128)) as (j & Hj & Hg & Hl); [by apply agree_extend; auto; lia|lia|].
  exists j. split_and!; auto; lia.
Qed.

(** What the vector library documents: bit [k] of the mask tells whether the two
    lanes [k] are equal. *)
Hypothesis eq_mask_lane : forall x y (k : nat), length x = 32%nat -> length y = 32%nat -> (k < 32)%nat ->
  Z.testbit (eq_mask x y) (Z.of_nat k) = true <-> x !! k = y !! k.

Lemma simd_scan_ok fuel a b c i :
  c <= Z.min (Z.of_nat (length a)) (Z.of_nat (length b)) <= i32_MAX ->
  agree a b i -> Z.min (Z.of_nat (length a)) (Z.of_nat (length b)) - i < Z.of_nat fuel ->
  exists r, simd_scan fuel a b c i = Ok r /\
    match r with
    | inl j => agree a b j
    | inr m => m = mismatch a b
    end.
Proof.
  intros Hc. revert i. induction fuel as [|fuel IH]; intros i Ha Hf; [destruct Ha; lia|].
  cbn [simd_scan]. pose proof (proj1 Ha) as Hi. destruct (Z.leb_spec (i + 32) c); [|by eauto].
  rewrite !vslice_ok by lia. cbn [rbind]. replace (i + 32 - i) with 32 by lia.
  set (x := take _ (drop _ a)). set (y := take _ (drop _ b)).
  assert (Hx : length x = 32%nat) by (unfold x; rewrite length_take, length_drop; lia).
  assert (Hy : length y = 32%nat) by (unfold y; rewrite length_take, length_drop; lia).
  assert (Hbit : forall k : nat, (k < 32)%nat ->
    Z.testbit (as_u32 (Z.lnot (eq_mask x y))) (Z.of_nat k) = false <-> x !! k = y !! k).
  { intros k Hk. rewrite wrap_u_testbit, Z.lnot_spec, <- (eq_mask_lane x y k) by (done || lia).
    replace (Z.of_nat k <? 32) with true by lia. apply negb_false_iff. }
  set (m := as_u32 _) in *.
  destruct (FixedBitSet.first_bit_spec 32 m 0) as [(r & Hr & Hb & Hset & Hlow)|Hnone].
  - assert (m <> 0) by (intros ->; by rewrite Z.bits_0 in Hset).
    destruct (Z.eqb_spec m 0); [done|]. cbn [negb]. rewrite Hr. eexists. split; [done|].
    assert (agree a b (i + r)).
    { apply agree_extend; [done|lia|lia|]. apply list_eq_same_length with (n := Z.to_nat r).
      1,2: rewrite length_take, length_drop; lia.
      intros k u v Hk Hu Hv. rewrite block_lookup in Hu, Hv by lia.
      assert (x !! k = y !! k) as E by (apply Hbit; [lia|apply Hlow; lia]).
      unfold x, y in E. rewrite !block_lookup in E by lia. congruence. }
    rewrite wrap_s_id by (unfold in_s, i32_MAX in *; lia). symmetry. apply agree_differ; [done|].
    intros E. assert (x !! Z.to_nat r = y !! Z.to_nat r) as E2.
    { unfold x, y. rewrite !block_lookup by lia. by rewrite Z2Nat.id by lia. }
    apply Hbit in E2; [|lia]. rewrite Z2Nat.id in E2 by lia. congruence.
  - assert (m = 0) as ->.
    { apply Z.bits_inj'. intros k Hk. rewrite Z.bits_0. destruct (decide (k < 32)).
      - apply Hnone. lia.
      - apply (in_u_testbit 32); [apply wrap_u_in; lia|lia]. }
    cbn [negb Z.eqb]. apply IH; [|lia]. apply agree_extend; [done|lia|lia|].
    apply (list_eq_same_length _ _ 32%nat); [done..|]. intros k u v Hk Hu Hv.
    assert (x !! k = y !! k) as E by (apply Hbit; [lia|apply Z.bits_0]).
    unfold x, y in E. congruence.
Qed.

(** C38: The vectorised search for the first difference of two byte slices (blocks of
    32 bytes, then of 128, then of 32, then single bytes) answers what the plain
    definition does: the length of the common prefix, or -1 when the slices are equal. *)
Theorem miss_match_u8_correct a b :
  Z.of_nat (length a) <= i32_MAX -> Z.of_nat (length b) <= i32_MAX ->
  miss_match_u8 a b = Ok (mismatch a b).
Proof.
  intros Ha Hb. unfold miss_match_u8. cbv zeta.
  set (c := Z.min (Z.of_nat (length a)) (Z.of_nat (length b))).
  assert (H0 : agree a b 0) by (split; [lia|done]).
  destruct (Z.leb_spec 32 c); [|by apply finish_ok].
  destruct (simd_scan_ok (S (length a)) a b (Z.min c 128) 0) as (r & -> & Hr); [lia|done|lia|].
  cbn [rbind]. destruct r as [i|m]; [|by subst].
  assert (exists j, (if 512 <=? c then xor_scan (S (length a)) a b c i else Ok i) = Ok j /\ agree a b j)
    as (j & -> & Hj).
  { destruct (512 <=? c); [|by eauto].
    destruct (xor_scan_ok (S (length a)) a b i Hr) as (j & ? & ? & ?); [destruct Hr; lia|eauto]. }
  cbn [rbind].
  destruct (simd_scan_ok (S (length a)) a b c j) as (r & -> & Hr2); [lia|done|destruct Hj; lia|].
  cbn [rbind]. destruct r as [k|m]; [|by subst]. by apply finish_ok.
Qed.
End Scan.

(** Lane-wise equality of two blocks, as a mask. *)
Fixpoint lane_mask (x y : list Z) : Z :=
  match x, y with
  | a :: x, b :: y => Z.lor (if a =? b then 1 else 0) (Z.shiftl (lane_mask x y) 1)
  | _, _ => 0
  end.

Lemma lane_mask_lane x y (k : nat) :
  length x = length y -> (k < length x)%nat ->
  Z.testbit (lane_mask x y) (Z.of_nat k) = true <-> x !! k = y !! k.
Proof.
  revert y k. induction x as [|a x IH]; intros [|b y] k Hl Hk; cbn in Hl, Hk; try lia.
  cbn [lane_mask]. rewrite Z.lor_spec. destruct k as [|k].
  - rewrite Z.shiftl_spec_low, orb_false_r by lia. cbn. destruct (Z.eqb_spec a b); split; naive_solver.
  - rewrite Z.shiftl_spec by lia. replace (Z.of_nat (S k) - 1) with (Z.of_nat k) by lia.
    replace (Z.testbit (if a =? b then 1 else 0) (Z.of_nat (S k))) with false.
    2: { destruct (a =? b); [|by rewrite Z.bits_0].
         symmetry. apply (in_u_testbit 1); [unfold in_u; lia|lia]. }
    cbn. apply IH; lia.
Qed.

Lemma miss_match_u8_correct_witness :
  let a := replicate 70 7 ++ [1; 2] in
  let b := replicate 70 7 ++ [1; 3] in
  miss_match_u8 lane_mask a b = Ok 71 /\ miss_match_u8 lane_mask a a = Ok (-1).
Proof.
  assert (H : forall x y (k : nat), length x = 32%nat -> length y = 32%nat -> (k < 32)%nat ->
    Z.testbit (lane_mask x y) (Z.of_nat k) = true <-> x !! k = y !! k)
    by (intros; apply lane_mask_lane; lia).
  cbv zeta. split; rewrite (miss_match_u8_correct lane_mask H); try (vm_compute; congruence); done.
Defined.
End Mismatch.

(** * [StringHelper] *)

Module StringHelper.
Import BytesRef Mismatch.

Section Terms.
Variable eq_mask : list Z -> list Z -> Z.

Definition bytes_difference (prior_term current_term : BytesRef.t) : result Z :=
  let? p := vslice (bytes prior_term) (offset prior_term) (offset prior_term + length_ prior_term) in
  let? c := vslice (bytes current_term) (offset current_term)
              (offset current_term + length_ current_term) in
  let? mismatch := miss_match_u8 eq_mask p c in
  if mismatch <? 0 then Err IllegalArgument else Ok mismatch.

Definition sort_key_length (prior_term current_term : BytesRef.t) : result Z :=
  let? difference := bytes_difference prior_term current_term in
  Ok (difference + 1).
End Terms.

Definition starts_with (ref_bytes : list Z) (ref_offset ref_length : Z)
    (prefix : list Z) (prefix_offset prefix_length : Z) : result bool :=
  if ref_length <? prefix_length then Ok false
  else
    let? ref_slice := vslice ref_bytes ref_offset (ref_offset + prefix_length) in
    let? prefix_slice := vslice prefix prefix_offset (prefix_offset + prefix_length) in
    Ok (bool_decide (ref_slice = prefix_slice)).

Definition starts_with_byte_ref (ref_bytes prefix : BytesRef.t) : result bool :=
  starts_with (bytes ref_bytes) (offset ref_bytes) (length_ ref_bytes)
    (bytes prefix) (offset prefix) (length_ prefix).

Definition starts_with_byte_array (ref_bytes : list Z) (prefix : BytesRef.t) : result bool :=
  if Z.of_nat (length ref_bytes) <? length_ prefix then Ok false
  else
    let? ref_slice := vslice ref_bytes 0 (length_ prefix) in
    let? prefix_slice := vslice (bytes prefix) (offset prefix) (offset prefix + length_ prefix) in
    Ok (bool_decide (ref_slice = prefix_slice)).

Definition ends_with (ref_bytes suffix : BytesRef.t) : result bool :=
  if length_ ref_bytes <? length_ suffix then Ok false
  else
    let start_at := length_ ref_bytes - length_ suffix in
    let? ref_slice := vslice (bytes ref_bytes) (offset ref_bytes + start_at)
                        (offset ref_bytes + start_at + length_ suffix) in
    let? suffix_slice := vslice (bytes suffix) (offset suffix) (offset suffix + length_ suffix) in
    Ok (bool_decide (ref_slice = suffix_slice)).

(** ** MurmurHash3_x86_32 *)

Definition wrapping_mul (x y : Z) : Z := as_u32 (x * y).
Definition rotate_left (x k : Z) : Z := as_u32 (Z.lor (Z.shiftl x k) (Z.shiftr x (32 - k))).

Definition mix_k1 (k1 : Z) : Z := wrapping_mul (rotate_left (wrapping_mul k1 3432918353) 15) 461845907.
Definition mix_h1 (h1 k1 : Z) : Z :=
  as_u32 (wrapping_mul (rotate_left (Z.lxor h1 (mix_k1 k1)) 13) 5 + 3864292196).

(** The blocks of four bytes of a slice; a shorter rest is left to the tail. *)
Fixpoint mix_blocks (blocks : list Z) (h1 : Z) : Z :=
  match blocks with
  | a :: b :: c :: d :: rest => mix_blocks rest (mix_h1 h1 (as_u32 (le_value [a; b; c; d])))
  | _ => h1
  end.

(** The loop taken when the blocks reach past the end of the data. *)
Fixpoint mix_loop (fuel : nat) (data : list Z) (rounded_end i h1 : Z) : result Z :=
  match fuel with
  | O => OutOfFuel
  | S fuel =>
      if i <? rounded_end then
        let? k1 := get_i32_le data i in
        mix_loop fuel data rounded_end (i + 4) (mix_h1 h1 (as_u32 k1))
      else Ok h1
  end.

Definition mix_tail (data : list Z) (rounded_end len h1 : Z) : result Z :=
  let rest := Z.land len 3 in
  if rest =? 3 then
    let? b2 := vget data (rounded_end + 2) in
    let? b1 := vget data (rounded_end + 1) in
    let? b0 := vget data rounded_end in
    Ok (Z.lxor h1 (mix_k1 (Z.lor (Z.lor (Z.shiftl b2 16) (Z.shiftl b1 8)) b0)))
  else if rest =? 2 then
    let? b1 := vget data (rounded_end + 1) in
    let? b0 := vget data rounded_end in
    Ok (Z.lxor h1 (mix_k1 (Z.lor (Z.lor 0 (Z.shiftl b1 8)) b0)))
  else if rest =? 1 then
    let? b0 := vget data rounded_end in
    Ok (Z.lxor h1 (mix_k1 (Z.lor 0 b0)))
  else Ok h1.

Definition fmix (h1 : Z) : Z :=
  let h1 := Z.lxor h1 (Z.shiftr h1 16) in
  let h1 := wrapping_mul h1 2246822507 in
  let h1 := Z.lxor h1 (Z.shiftr h1 13) in
  let h1 := wrapping_mul h1 3266489909 in
  as_i32 (Z.lxor h1 (Z.shiftr h1 16)).

Definition murmurhash3_x86_32_with_byte (data : list Z) (offset len seed : Z) : result Z :=
  let h1 := as_u32 seed in
  let rounded_end := offset + Z.land len 4294967292 in
  let? h1 := if (offset <=? rounded_end) && (rounded_end <=? Z.of_nat (length data)) then
               let? blocks := vslice data offset rounded_end in Ok (mix_blocks blocks h1)
             else mix_loop (S (length data)) data rounded_end offset h1 in
  let? h1 := mix_tail data rounded_end len h1 in
  let? _ := debug_assert (len <=? i32_MAX) in
  Ok (fmix (Z.lxor h1 (as_u32 len))).

Definition murmurhash3_x86_32 (b : BytesRef.t) (seed : Z) : result Z :=
  murmurhash3_x86_32_with_byte (bytes b) (offset b) (length_ b) seed.

(** [SINGLE_BYTE_HASHES]: the hashes of the 256 one-byte keys, under the seed of
    the process. *)
Fixpoint hash_table (seed : Z) (n : nat) (byte : Z) : result (list Z) :=
  match n with
  | O => Ok []
  | S n =>
      let? h := murmurhash3_x86_32_with_byte [as_u8 byte] 0 1 seed in
      let? rest := hash_table seed n (byte + 1) in
      Ok (h :: rest)
  end.
Definition SINGLE_BYTE_HASHES (seed : Z) : result (list Z) := hash_table seed 256 0.

Definition do_hash (seed : Z) (bytes : list Z) (offset length : Z) : result Z :=
  if length =? 1 then
    let? table := SINGLE_BYTE_HASHES seed in
    let? b := vget bytes offset in
    vget table b
  else murmurhash3_x86_32_with_byte bytes offset length seed.

(** ** Facts *)

Lemma round_down len : 0 <= len < 2 ^ 32 -> Z.land len 4294967292 = len - Z.land len 3.
Proof.
  intros Hl. change 3 with (Z.ones 2). rewrite Z.land_ones by lia.
  transitivity (Z.shiftl (Z.shiftr len 2) 2).
  - change 4294967292 with (Z.shiftl (Z.ones 30) 2). apply Z.bits_inj'. intros i Hi.
    rewrite Z.land_spec. destruct (decide (i < 2)).
    + rewrite !Z.shiftl_spec_low by lia. apply andb_false_r.
    + rewrite !Z.shiftl_spec, Z.shiftr_spec by lia. replace (i - 2 + 2) with i by lia.
      destruct (decide (i < 32)).
      * rewrite Z.ones_spec_low by lia. apply andb_true_r.
      * rewrite (in_u_testbit 32) by (auto; lia). done.
  - rewrite Z.shiftl_mul_pow2, Z.shiftr_div_pow2 by lia. pose proof (Z.div_mod len (2 ^ 2)). lia.
Qed.

(** A slice taken at an offset is the slice of the range, taken at 0. *)
Lemma vslice_inner {A} (data : list A) off len i j :
  0 <= off -> off + len <= Z.of_nat (length data) -> 0 <= i <= j -> j <= len ->
  vslice data (off + i) (off + j) = vslice (take (Z.to_nat len) (drop (Z.to_nat off) data)) i j.
Proof.
  intros Ho Hl Hi Hj. rewrite !vslice_ok by (rewrite ?length_take, ?length_drop; lia). f_equal.
  rewrite skipn_firstn_comm, firstn_firstn, drop_drop. f_equal; [lia|]. f_equal. lia.
Qed.

Lemma vget_inner {A} (data : list A) off len i :
  0 <= off -> off + len <= Z.of_nat (length data) -> 0 <= i < len ->
  vget data (off + i) = vget (take (Z.to_nat len) (drop (Z.to_nat off) data)) i.
Proof.
  intros Ho Hl Hi. destruct (vget_in data (off + i)) as (x & Hx & ->); [lia|].
  symmetry. apply vget_ok; [lia|]. rewrite lookup_take_lt, lookup_drop by lia.
  rewrite <- Hx. f_equal. lia.
Qed.

Lemma mix_tail_inner data off len r h :
  0 <= off -> off + len <= Z.of_nat (length data) -> 0 <= r -> r + Z.land len 3 = len ->
  mix_tail data (off + r) len h = mix_tail (take (Z.to_nat len) (drop (Z.to_nat off) data)) r len h /\
  exists h', mix_tail data (off + r) len h = Ok h'.
Proof.
  intros Ho Hl Hr Hlen. unfold mix_tail.
  assert (H : forall k, 0 <= r + k < len -> exists x,
    vget data (off + r + k) = Ok x /\
    vget (take (Z.to_nat len) (drop (Z.to_nat off) data)) (r + k) = Ok x).
  { intros k Hk. destruct (vget_in data (off + (r + k))) as (x & _ & Hx); [lia|].
    exists x. rewrite <- (vget_inner data off len) by lia. by rewrite <- Z.add_assoc. }
  pose proof (H 0) as H0. rewrite !Z.add_0_r in H0.
  destruct (Z.eqb_spec (Z.land len 3) 3); [|destruct (Z.eqb_spec (Z.land len 3) 2);
    [|destruct (Z.eqb_spec (Z.land len 3) 1); [|by eauto]]].
  - destruct (H 2 ltac:(lia)) as (? & -> & ->), (H 1 ltac:(lia)) as (? & -> & ->),
      (H0 ltac:(lia)) as (? & -> & ->). cbn [rbind]. eauto.
  - destruct (H 1 ltac:(lia)) as (? & -> & ->), (H0 ltac:(lia)) as (? & -> & ->). cbn [rbind]. eauto.
  - destruct (H0 ltac:(lia)) as (? & -> & ->). cbn [rbind]. eauto.
Qed.

Lemma murmur_inner data off len seed :
  0 <= off -> 0 <= len <= i32_MAX -> off + len <= Z.of_nat (length data) ->
  murmurhash3_x86_32_with_byte data off len seed =
    murmurhash3_x86_32_with_byte (take (Z.to_nat len) (drop (Z.to_nat off) data)) 0 len seed /\
  exists h, murmurhash3_x86_32_with_byte data off len seed = Ok h /\ in_s 32 h.
Proof.
  intros Ho Hlen Hd. unfold i32_MAX in Hlen. unfold murmurhash3_x86_32_with_byte.
  rewrite round_down by lia. set (r := len - Z.land len 3).
  assert (0 <= Z.land len 3 <= len).
  { split; [apply Z.land_nonneg; lia|]. change 3 with (Z.ones 2). rewrite Z.land_ones by lia.
    apply Z.mod_le; lia. }
  rewrite Z.add_0_l, length_take, length_drop.
  rewrite !(proj2 (andb_true_iff _ _)) by (split; apply Z.leb_le; lia).
  pose proof (vslice_inner data off len 0 r ltac:(lia) ltac:(lia) ltac:(lia) ltac:(lia)) as E.
  rewrite Z.add_0_r in E. rewrite E.
  rewrite vslice_ok by (rewrite ?length_take, ?length_drop; lia). cbn [rbind].
  set (h := mix_blocks _ _).
  destruct (mix_tail_inner data off len r h) as [Ht (h' & Hh)]; [lia..|].
  rewrite <- Ht, Hh. cbn [rbind].
  rewrite debug_assert_true by (unfold i32_MAX; lia). split; [done|].
  eexists. split; [done|]. apply wrap_s_in. lia.
Qed.

Lemma hash_table_lookup seed n b : exists t, hash_table seed n b = Ok t /\
  forall k : nat, (k < n)%nat -> exists h, t !! k = Some h /\
    murmurhash3_x86_32_with_byte [as_u8 (b + Z.of_nat k)] 0 1 seed = Ok h.
Proof.
  revert b. induction n as [|n IH]; intros b; [exists []; split; [done|lia]|].
  cbn [hash_table].
  destruct (murmur_inner [as_u8 b] 0 1 seed) as [_ (h & Hh & _)]; [done|unfold i32_MAX; lia|cbn; lia|].
  rewrite Hh. cbn [rbind].
  destruct (IH (b + 1)) as (t & -> & Ht). exists (h :: t). split; [done|].
  intros [|k] Hk; [exists h; by rewrite Z.add_0_r|].
  destruct (Ht k) as (h' & ? & Hm); [lia|]. exists h'. split; [done|].
  rewrite <- Hm. do 3 f_equal. lia.
Qed.

(** The cached hashes of the one-byte keys are the computed ones. *)
Lemma do_hash_murmur seed data off len :
  0 <= off -> off + len <= Z.of_nat (length data) -> Forall (in_u 8) data ->
  do_hash seed data off len = murmurhash3_x86_32_with_byte data off len seed.
Proof.
  intros Ho Hd Hb. unfold do_hash. destruct (Z.eqb_spec len 1) as [->|]; [|done].
  unfold SINGLE_BYTE_HASHES. destruct (hash_table_lookup seed 256 0) as (t & -> & Ht).
  destruct (vget_in data off) as (x & Hx & ->); [lia|]. cbn [rbind].
  pose proof (Forall_lookup_1 _ _ _ _ Hb Hx) as Hu. unfold in_u in Hu.
  destruct (Ht (Z.to_nat x)) as (h & Hl & Hm); [lia|].
  rewrite (proj2 (vget_ok t x h ltac:(lia)) Hl).
  rewrite (proj1 (murmur_inner data off 1 seed Ho ltac:(unfold i32_MAX; lia) Hd)).
  rewrite Z.add_0_l, Z2Nat.id, wrap_u_id in Hm by (unfold in_u; lia). rewrite <- Hm. f_equal.
  change (Z.to_nat 1) with 1%nat. by rewrite (drop_S _ _ _ Hx).
Qed.

Lemma do_hash_inner seed data off len :
  0 <= off -> 0 <= len <= i32_MAX -> off + len <= Z.of_nat (length data) -> Forall (in_u 8) data ->
  do_hash seed data off len = do_hash seed (take (Z.to_nat len) (drop (Z.to_nat off) data)) 0 len /\
  exists h, do_hash seed data off len = Ok h /\ in_s 32 h.
Proof.
  intros Ho Hlen Hd Hb. destruct (murmur_inner data off len seed) as [Hi Hh]; [done..|].
  rewrite (do_hash_murmur seed data off) by done.
  rewrite do_hash_murmur; [done|lia|rewrite length_take, length_drop; lia|by apply Forall_take, Forall_drop].
Qed.

(** The hash of a key is the MurmurHash3 of its bytes, wherever the bytes lie in
    their buffer: the cached hashes of the one-byte keys are the computed ones, hashing
    in place is hashing the copied slice, and no key is out of range. *)
Theorem do_hash_correct seed data off len :
  0 <= off -> 0 <= len <= i32_MAX -> off + len <= Z.of_nat (length data) ->
  Forall (in_u 8) data ->
  do_hash seed data off len = murmurhash3_x86_32_with_byte data off len seed /\
  do_hash seed data off len = do_hash seed (take (Z.to_nat len) (drop (Z.to_nat off) data)) 0 len /\
  exists h, do_hash seed data off len = Ok h /\ in_s 32 h.
Proof.
  intros Ho Hlen Hd Hb. split; [by apply do_hash_murmur|]. by apply do_hash_inner.
Qed.

Lemma do_hash_correct_witness :
  murmurhash3_x86_32_with_byte [102; 111; 111] 0 3 0 = Ok (-156908512) /\
  do_hash 7 [1; 102; 111] 1 1 = murmurhash3_x86_32_with_byte [1; 102; 111] 1 1 7.
Proof.
  split; [by vm_compute|].
  apply (do_hash_correct 7 [1; 102; 111] 1 1); [lia|unfold i32_MAX; lia|cbn; lia|].
  repeat apply Forall_cons_2; try apply Forall_nil_2; unfold in_u; lia.
Defined.

(** ** Differences of terms *)

Lemma slice_cmp_prefix p c :
  slice_cmp p c = Lt -> let n := S (common_prefix p c) in
  (n <= length c)%nat /\ slice_cmp p (take n c) = Lt /\
  forall m, (m < n)%nat -> slice_cmp p (take m c) <> Lt.
Proof.
  revert c. induction p as [|x p IH]; intros [|y c] H; cbn in H; try done; cbn [common_prefix].
  - cbn. split_and!; [lia|done|]. intros m Hm. by replace m with O by lia.
  - destruct (Z.compare_spec x y) as [->|Hlt|]; [| |done].
    + rewrite Z.eqb_refl. destruct (IH c H) as (Hl & Hc & Hm). cbn. rewrite Z.compare_refl.
      split_and!; [lia|done|]. intros [|m] Hlt; [done|]. cbn. rewrite Z.compare_refl. apply Hm. lia.
    + replace (x =? y) with false by lia. cbn. rewrite (proj2 (Z.compare_lt_iff x y)) by done.
      split_and!; [lia|done|]. intros m Hm. by replace m with O by lia.
Qed.

Lemma slice_cmp_refl a : slice_cmp a a = Eq.
Proof. induction a; cbn; [done|]. by rewrite Z.compare_refl. Qed.

(** For terms in order the sort key of the later one is as short as it can be: cut
    to [sort_key_length] bytes it still compares after the earlier term, cut shorter
    it does not. Two equal terms are an illegal-argument error. *)
Theorem sort_key_length_correct eq_mask
    (eq_mask_lane : forall x y (k : nat), length x = 32%nat -> length y = 32%nat -> (k < 32)%nat ->
      Z.testbit (eq_mask x y) (Z.of_nat k) = true <-> x !! k = y !! k) (p c : BytesRef.t) :
  valid p -> valid c -> length_ p <= i32_MAX -> length_ c <= i32_MAX ->
  (compare_to p c = Ok Lt -> exists n, sort_key_length eq_mask p c = Ok n /\ 1 <= n <= length_ c /\
     slice_cmp (contents p) (take (Z.to_nat n) (contents c)) = Lt /\
     forall m, 0 <= m < n -> slice_cmp (contents p) (take (Z.to_nat m) (contents c)) <> Lt) /\
  (contents p = contents c -> sort_key_length eq_mask p c = Err IllegalArgument).
Proof.
  intros Hp Hc Hlp Hlc. pose proof (contents_length p Hp). pose proof (contents_length c Hc).
  pose proof (as_byte_slice_ok p Hp) as Hsp. pose proof (as_byte_slice_ok c Hc) as Hsc.
  unfold compare_to, sort_key_length, bytes_difference, as_byte_slice in *.
  rewrite Hsp, Hsc. cbn [rbind].
  rewrite (miss_match_u8_correct eq_mask eq_mask_lane) by lia. cbn [rbind]. unfold mismatch.
  split.
  - intros [= Hlt]. rewrite decide_False by (intros E; rewrite E, slice_cmp_refl in Hlt; done).
    destruct (slice_cmp_prefix _ _ Hlt) as (Hl & Hcut & Hmin). exists (Z.of_nat (common_prefix (contents p) (contents c)) + 1).
    replace (Z.of_nat _ <? 0) with false by lia. cbn [rbind]. split_and!; [done|lia|lia| |].
    + rewrite <- Hcut. do 2 f_equal. lia.
    + intros m Hm. apply Hmin. lia.
  - intros E. by rewrite decide_True.
Qed.

Lemma sort_key_length_correct_witness :
  let p := BytesRef.mk [9; 1; 2; 3; 4] 1 4 in
  let c := BytesRef.mk [1; 2; 5; 6; 7; 8] 0 6 in
  sort_key_length lane_mask p c = Ok 3 /\
  exists n, sort_key_length lane_mask p c = Ok n /\
    slice_cmp (contents p) (take (Z.to_nat n) (contents c)) = Lt.
Proof.
  cbv zeta. split; [by vm_compute|].
  destruct (sort_key_length_correct lane_mask ltac:(intros; apply lane_mask_lane; lia)
    (BytesRef.mk [9; 1; 2; 3; 4] 1 4) (BytesRef.mk [1; 2; 5; 6; 7; 8] 0 6)) as [(n & Hn & _ & Hc & _) _];
    [split_and!; cbn; lia|split_and!; cbn; lia|unfold i32_MAX; cbn; lia|unfold i32_MAX; cbn; lia|by vm_compute|].
  by exists n.
Defined.

(** The prefix and suffix tests look at the bytes of the two ranges. *)
Lemma starts_with_byte_ref_correct r p : valid r -> valid p ->
  exists b, starts_with_byte_ref r p = Ok b /\ (b = true <-> contents p `prefix_of` contents r).
Proof.
  intros Hr Hp. unfold starts_with_byte_ref, starts_with.
  pose proof (contents_length r Hr). pose proof (contents_length p Hp).
  destruct Hr as (? & ? & ?), Hp as (? & ? & ?).
  destruct (Z.ltb_spec (length_ r) (length_ p)).
  - exists false. split; [done|]. split; [done|]. intros ?%prefix_length. lia.
  - rewrite !vslice_ok by lia. cbn [rbind]. eexists. split; [done|].
    rewrite bool_decide_eq_true, !Z.add_simpl_l. fold (contents p).
    assert (Ht : take (Z.to_nat (length_ p)) (drop (Z.to_nat (offset r)) (bytes r))
      = take (Z.to_nat (length_ p)) (contents r)).
    { unfold contents. rewrite firstn_firstn. f_equal. lia. }
    rewrite Ht. split.
    + intros <-. apply prefix_take.
    + intros [k ->]. rewrite take_app_length' by lia. done.
Qed.

Lemma ends_with_correct r p : valid r -> valid p ->
  exists b, ends_with r p = Ok b /\ (b = true <-> contents p `suffix_of` contents r).
Proof.
  intros Hr Hp. unfold ends_with.
  pose proof (contents_length r Hr). pose proof (contents_length p Hp).
  destruct Hr as (? & ? & ?), Hp as (? & ? & ?).
  destruct (Z.ltb_spec (length_ r) (length_ p)).
  - exists false. split; [done|]. split; [done|]. intros ?%suffix_length. lia.
  - rewrite !vslice_ok by lia. cbn [rbind]. eexists. split; [done|].
    rewrite bool_decide_eq_true, !Z.add_simpl_l. fold (contents p).
    assert (Ht : take (Z.to_nat (length_ p)) (drop (Z.to_nat (offset r + (length_ r - length_ p))) (bytes r))
      = drop (Z.to_nat (length_ r - length_ p)) (contents r)).
    { unfold contents. rewrite skipn_firstn_comm, drop_drop. f_equal; [lia|]. f_equal. lia. }
    rewrite Ht. split.
    + intros <-. apply suffix_drop.
    + intros [k E]. rewrite E in *. rewrite drop_app_length'; [done|]. rewrite length_app in *. lia.
Qed.
End StringHelper.
