(* ===== verification/ByteBlockPool.v ===== *)
(** The append-only byte pool: [ByteBlockPool] (src/core/util/byte_block_pool.rs) over the
    allocators of src/core/util/allocator_byte.rs. A pool is a row of blocks of
    [BYTE_BLOCK_SIZE] bytes; its content is the first [position] bytes of their
    concatenation, which is what the theorems speak of. *)

From Stdlib Require Import ZArith Lia Bool.
From stdpp Require Import base tactics numbers list.
From S2P Require Import Prelude ArrayUtil StringHelper.

Local Open Scope Z_scope.

Definition BYTE_BLOCK_SHIFT : Z := 15.
Definition BYTE_BLOCK_SIZE : Z := Z.shiftl 1 BYTE_BLOCK_SHIFT.
Definition BYTE_BLOCK_MASK : Z := BYTE_BLOCK_SIZE - 1.

(** * Allocators *)

Module AllocatorByte.
(** [AllocatorByteEnum]: the direct allocator, and the one that reports to a shared
    counter; [byte_used] is the value of that counter. *)
Inductive t : Type :=
| DA (block_size : Z)
| DTA (block_size byte_used : Z).

Definition new_direct : t := DA BYTE_BLOCK_SIZE.
Definition new_tracking (byte_used : Z) : t := DTA BYTE_BLOCK_SIZE byte_used.

Definition get_block_size (a : t) : Z :=
  match a with DA block_size => block_size | DTA block_size _ => block_size end.
Definition get_used (a : t) : Z :=
  match a with DA _ => 0 | DTA _ byte_used => byte_used end.

(** [add_and_get] of the counter: an atomic addition, which wraps. *)
Definition add_used (a : t) (delta : Z) : t :=
  match a with
  | DA block_size => DA block_size
  | DTA block_size byte_used => DTA block_size (as_i64 (byte_used + delta))
  end.

Definition get_byte_block (a : t) : list Z * t :=
  (replicate (Z.to_nat (get_block_size a)) 0, add_used a (get_block_size a)).

(** The tracking allocator replaces the blocks of the range by empty vectors. *)
Definition recycle_byte_blocks (a : t) (blocks : list (list Z)) (start end_ : Z) :
    result (list (list Z) * t) :=
  match a with
  | DA _ => Ok (blocks, a)
  | DTA block_size _ =>
      let delta := (end_ - start) * block_size in
      let? gone := vslice blocks start end_ in
      let? blocks := vcopy blocks start (replicate (length gone) []) in
      Ok (blocks, add_used a (- delta))
  end.
End AllocatorByte.

(** * The pool *)

Module ByteBlockPool.
Import AllocatorByte.

Record t := mk {
  buffers : list (list Z);
  buffer_upto : option Z;
  allocator : AllocatorByte.t;
  byte_offset : Z;
  byte_upto : Z }.

Definition new (a : AllocatorByte.t) : t := mk [] None a (- BYTE_BLOCK_SIZE) BYTE_BLOCK_SIZE.

Definition with_buffers (p : t) (b : list (list Z)) : t :=
  mk b (buffer_upto p) (allocator p) (byte_offset p) (byte_upto p).
Definition with_byte_upto (p : t) (u : Z) : t :=
  mk (buffers p) (buffer_upto p) (allocator p) (byte_offset p) u.

(** [for i in 0..n { buffers\[i\].fill(0) }] *)
Fixpoint zero_fill (n : nat) (i : Z) (bs : list (list Z)) : result (list (list Z)) :=
  match n with
  | O => Ok bs
  | S n =>
      let? b := vget bs i in
      let? bs := vset bs i (replicate (length b) 0) in
      zero_fill n (i + 1) bs
  end.

(** Hands the blocks from [offset] on back to the allocator and drops them. *)
Definition recycle (upto offset : Z) : ST t unit := fun p =>
  match recycle_byte_blocks (allocator p) (buffers p) offset (upto + 1) with
  | Ok (b, a) =>
      let kept := (length b - Z.to_nat (upto + 1 - offset))%nat in
      (Ok tt, mk (take kept b) (buffer_upto p) a (byte_offset p) (byte_upto p))
  | _ => (Panic, p)
  end.

(** Back to the first block, or to no block. *)
Definition rewind (reuse_first : bool) : ST t unit := fun p =>
  if reuse_first then (Ok tt, mk (buffers p) (Some 0) (allocator p) 0 0)
  else (Ok tt, mk (buffers p) None (allocator p) (- BYTE_BLOCK_SIZE) BYTE_BLOCK_SIZE).

Definition reset (zero_fill_buffers reuse_first : bool) : ST t unit := fun p =>
  match buffer_upto p with
  | None => (Ok tt, p)
  | Some upto =>
      (let* _ := (if zero_fill_buffers
                  then fun p => match zero_fill (Z.to_nat (upto + 1)) 0 (buffers p) with
                                | Ok b => (Ok tt, with_buffers p b)
                                | _ => (Panic, p)
                                end
                  else sret tt) in
       let* _ := (if (0 <? upto) || negb reuse_first then recycle upto (if reuse_first then 1 else 0)
                  else sret tt) in
       rewind reuse_first) p
  end.

Definition next_buffer : ST t Z := fun p =>
  let next_upto := match buffer_upto p with Some upto => upto + 1 | None => 0 end in
  let p := if next_upto =? Z.of_nat (length (buffers p)) then
             let '(block, a) := get_byte_block (allocator p) in
             mk (buffers p ++ [block]) (buffer_upto p) a (byte_offset p) (byte_upto p)
           else p in
  let sum := byte_offset p + BYTE_BLOCK_SIZE in
  if i32_MAX <? sum then
    (Err NumberOverflow, mk (buffers p) (Some next_upto) (allocator p) (byte_offset p) 0)
  else (Ok next_upto, mk (buffers p) (Some next_upto) (allocator p) sum 0).

(** [self.buffers\[upto\].copy_from(bytes, pos)] *)
Definition copy_into (upto : Z) (bytes : list Z) (pos : Z) : ST t unit := fun p =>
  match (let? b := vget (buffers p) upto in
         let? b := vcopy b pos bytes in
         vset (buffers p) upto b) with
  | Ok bs => (Ok tt, with_buffers p bs)
  | _ => (Panic, p)
  end.

(** [self.byte_upto += n] *)
Definition advance_upto (n : Z) : ST t unit := fun p => (Ok tt, with_byte_upto p (byte_upto p + n)).

Fixpoint append_loop (fuel : nat) (bytes : list Z) (offset bytes_left upto : Z) : ST t unit :=
  match fuel with
  | O => slift OutOfFuel
  | S fuel =>
      if 0 <? bytes_left then
        let* p := sget in
        let buffer_left := BYTE_BLOCK_SIZE - byte_upto p in
        if bytes_left <? buffer_left then
          let* src := slift (vslice bytes offset (offset + bytes_left)) in
          let* _ := copy_into upto src (byte_upto p) in
          advance_upto bytes_left
        else
          let* _ := (if 0 <? buffer_left then
                       let* src := slift (vslice bytes offset (offset + buffer_left)) in
                       copy_into upto src (byte_upto p)
                     else sret tt) in
          let* upto := next_buffer in
          append_loop fuel bytes (offset + buffer_left) (bytes_left - buffer_left) upto
      else sret tt
  end.

(** The first turn may only fetch a block; every other one but the last fills one. *)
Definition append_range (bytes : list Z) (offset length : Z) : ST t unit := fun p =>
  append_loop (S (S (Z.to_nat length))) bytes offset length (default 0 (buffer_upto p)) p.

Definition append (bytes : list Z) : ST t unit := append_range bytes 0 (Z.of_nat (length bytes)).

Definition append_bytes_ref (b : BytesRef.t) : ST t unit :=
  append_range (BytesRef.bytes b) (BytesRef.offset b) (BytesRef.length_ b).

(** [i64::try_convert] to [i32] *)
Definition try_i32 (x : Z) : result Z :=
  if decide (in_s 32 x) then Ok x else Err IllegalState.

Fixpoint read_loop (fuel : nat) (p : t) (bytes : list Z) (buffer_index pos bytes_offset bytes_left : Z) :
    result (list Z) :=
  match fuel with
  | O => OutOfFuel
  | S fuel =>
      if 0 <? bytes_left then
        let chunk := Z.min (BYTE_BLOCK_SIZE - pos) bytes_left in
        let? buffer := vget (buffers p) buffer_index in
        let? src := vslice buffer pos (pos + chunk) in
        let? bytes := vcopy bytes bytes_offset src in
        read_loop fuel p bytes (buffer_index + 1) 0 (bytes_offset + chunk) (bytes_left - chunk)
      else Ok bytes
  end.

(** Answers the target after the copy; every turn copies at least one byte. *)
Definition read_bytes (p : t) (offset : Z) (bytes : list Z) (bytes_offset bytes_length : Z) :
    result (list Z) :=
  let? buffer_index := try_i32 (Z.shiftr offset BYTE_BLOCK_SHIFT) in
  let pos := Z.land offset BYTE_BLOCK_MASK in
  read_loop (S (Z.to_nat bytes_length)) p bytes buffer_index pos bytes_offset bytes_length.

Definition read_byte (p : t) (offset : Z) : result Z :=
  let? buffer := vget (buffers p) (Z.shiftr offset BYTE_BLOCK_SHIFT) in
  vget buffer (Z.land offset BYTE_BLOCK_MASK).

(** [i32] arithmetic that is not expected to overflow. *)
Definition exact_i32 (x : Z) : result Z := if decide (in_s 32 x) then Ok x else Panic.

Definition get_position (p : t) : result Z :=
  let? _ := debug_assert (get_block_size (allocator p) <=? i32_MAX) in
  let upto := match buffer_upto p with Some upto => upto | None => -1 end in
  let? base := exact_i32 (upto * get_block_size (allocator p)) in
  exact_i32 (base + byte_upto p).

Definition upto_or_error (p : t) : result Z :=
  match buffer_upto p with Some upto => Ok upto | None => Err IllegalState end.

Definition get_bytes_used (p : t) : Z := get_used (allocator p).

(** ** Copying from another pool *)

Fixpoint single_loop (fuel : nat) (src_pool : t) (upto src_offset length : Z) : ST t unit :=
  match fuel with
  | O => slift OutOfFuel
  | S fuel =>
      if 0 <? length then
        let* src_buffer_index := slift (try_i32 (Z.shiftr src_offset BYTE_BLOCK_SHIFT)) in
        let src_pos := Z.land src_offset BYTE_BLOCK_MASK in
        let bytes_to_copy := Z.min (BYTE_BLOCK_SIZE - src_pos) length in
        let* src := slift (let? b := vget (buffers src_pool) src_buffer_index in
                           vslice b src_pos (src_pos + bytes_to_copy)) in
        let* p := sget in
        let* _ := copy_into upto src (byte_upto p) in
        let* _ := advance_upto bytes_to_copy in
        single_loop fuel src_pool upto (src_offset + bytes_to_copy) (length - bytes_to_copy)
      else sret tt
  end.

Definition append_bytes_single_buffer (src_pool : t) (src_offset length : Z) : ST t unit :=
  let* p := sget in
  let* _ := slift (debug_assert (length <=? BYTE_BLOCK_SIZE - byte_upto p)) in
  let* upto := slift (match buffer_upto p with Some upto => Ok upto | None => Panic end) in
  single_loop (S (Z.to_nat length)) src_pool upto src_offset length.

(** The conditions of the direct copy inside one source block and one target block. *)
Definition direct_source (src_pool p : t) (src_offset bytes_left : Z) : option (Z * list Z) :=
  let source_pos := Z.land src_offset BYTE_BLOCK_MASK in
  let source_index := Z.shiftr src_offset BYTE_BLOCK_SHIFT in
  if bytes_left <=? BYTE_BLOCK_SIZE - source_pos then
    match buffer_upto p with
    | None => None
    | Some upto =>
        if decide (in_s 32 source_index) then
          match (let? b := vget (buffers src_pool) source_index in
                 vslice b source_pos (source_pos + bytes_left)) with
          | Ok source =>
              match (let? b := vget (buffers p) upto in
                     vslice b (byte_upto p) (byte_upto p + bytes_left)) with
              | Ok _ => Some (upto, source)
              | _ => None
              end
          | _ => None
          end
        else None
    end
  else None.

Fixpoint append_from_loop (fuel : nat) (src_pool : t) (src_offset bytes_left : Z) : ST t unit :=
  match fuel with
  | O => slift OutOfFuel
  | S fuel =>
      if 0 <? bytes_left then
        let* p := sget in
        let buffer_left := BYTE_BLOCK_SIZE - byte_upto p in
        if bytes_left <? buffer_left then
          match direct_source src_pool p src_offset bytes_left with
          | Some (upto, source) =>
              let* _ := copy_into upto source (byte_upto p) in
              advance_upto bytes_left
          | None => append_bytes_single_buffer src_pool src_offset bytes_left
          end
        else if 0 <? buffer_left then
          let* _ := append_bytes_single_buffer src_pool src_offset buffer_left in
          let* _ := next_buffer in
          append_from_loop fuel src_pool (src_offset + buffer_left) (bytes_left - buffer_left)
        else
          let* _ := next_buffer in
          append_from_loop fuel src_pool src_offset bytes_left
      else sret tt
  end.

Definition append_from_byte_block_pool (src_pool : t) (src_offset length : Z) : ST t unit :=
  append_from_loop (S (S (Z.to_nat length))) src_pool src_offset length.

(** ** Borrowing or copying a value *)

(** The bytes of the result: a borrowed page of the pool, or an owned buffer. *)
Inductive cow : Type :=
| Borrowed (b : list Z)
| Owned (b : list Z).
Definition cow_bytes (c : cow) : list Z := match c with Borrowed b => b | Owned b => b end.

Record cow_ref := mk_ref { ref_bytes : cow; ref_offset : Z; ref_length : Z }.

(** [set_bytes_ref]: the builder keeps the owned buffer while the result borrows;
    [capacity] is the capacity of the owned buffer, on which depends only whether
    growing it keeps the old bytes. Answers the builder's buffer and the result. *)
Definition set_bytes_ref (p : t) (capacity : Z) (builder : list Z) (result_ : cow_ref)
    (offset length_ : Z) : result (list Z * cow_ref) :=
  let? _ := (if Z.of_nat (length (cow_bytes (ref_bytes result_))) <? length_ then
               let? _ := ArrayUtil.oversize length_ 1 in Ok tt
             else Ok tt) in
  let pos := Z.land offset BYTE_BLOCK_MASK in
  let? (builder, bytes) :=
    (if BYTE_BLOCK_SIZE <? pos + length_ then
       let '(builder, owned) := match ref_bytes result_ with
                                | Borrowed _ => ([], builder)
                                | Owned b => (builder, b)
                                end in
       let? owned := ArrayUtil.grow_no_copy 1 capacity owned length_ 0 in
       Ok (builder, Owned owned)
     else Ok (builder, ref_bytes result_)) in
  let? buffer_index := try_i32 (Z.shiftr offset BYTE_BLOCK_SHIFT) in
  if pos + length_ <=? BYTE_BLOCK_SIZE then
    let? block := vget (buffers p) buffer_index in
    let? _ := vslice block pos (pos + length_) in
    let builder := match bytes with Owned b => b | Borrowed _ => builder end in
    Ok (builder, mk_ref (Borrowed block) pos length_)
  else
    let? owned := read_bytes p offset (cow_bytes bytes) 0 length_ in
    Ok (builder, mk_ref (Owned owned) 0 length_).
End ByteBlockPool.

(** * Well-formed pools *)

Module PoolFacts.
Import AllocatorByte ByteBlockPool.

Lemma block_size_val : BYTE_BLOCK_SIZE = 32768.
Proof. done. Qed.

Definition full_block (b : list Z) : Prop :=
  Z.of_nat (length b) = BYTE_BLOCK_SIZE /\ Forall (in_u 8) b.

(** Full blocks of bytes, one per index up to [buffer_upto], and offsets that fit
    their [i32]s. *)
Record WF (p : t) : Prop := mkWF {
  wf_blocks : Forall full_block (buffers p);
  wf_alloc : get_block_size (allocator p) = BYTE_BLOCK_SIZE;
  wf_shape :
    match buffer_upto p with
    | None => buffers p = [] /\ byte_upto p = BYTE_BLOCK_SIZE /\ byte_offset p = - BYTE_BLOCK_SIZE
    | Some u => 0 <= u <= 65535 /\ Z.of_nat (length (buffers p)) = u + 1 /\
        byte_offset p = u * BYTE_BLOCK_SIZE /\ 0 <= byte_upto p <= BYTE_BLOCK_SIZE
    end }.

Definition position (p : t) : Z := byte_offset p + byte_upto p.
Definition memory (p : t) : list Z := concat (buffers p).
Definition content (p : t) : list Z := take (Z.to_nat (position p)) (memory p).

(** What the counter of the allocator holds beside the blocks of this pool. *)
Definition owed (p : t) : Z :=
  match allocator p with
  | DA _ => 0
  | DTA _ used => as_i64 (used - BYTE_BLOCK_SIZE * Z.of_nat (length (buffers p)))
  end.

Lemma as_i64_add x y : as_i64 (as_i64 x + y) = as_i64 (x + y).
Proof.
  unfold wrap_s. change (2 ^ (64 - 1)) with 9223372036854775808.
  replace ((x + 9223372036854775808) mod 2 ^ 64 - 9223372036854775808 + y + 9223372036854775808)
    with ((x + 9223372036854775808) mod 2 ^ 64 + y) by lia.
  rewrite Z.add_mod_idemp_l by lia. do 2 f_equal. lia.
Qed.

Lemma blocks_length (bs : list (list Z)) :
  Forall full_block bs -> Z.of_nat (length (concat bs)) = BYTE_BLOCK_SIZE * Z.of_nat (length bs).
Proof.
  induction 1 as [|b bs [Hb _] _ IH]; cbn [concat length]; [lia|]. rewrite length_app. lia.
Qed.

Lemma blocks_bytes (bs : list (list Z)) : Forall full_block bs -> Forall (in_u 8) (concat bs).
Proof. induction 1 as [|b bs [_ Hb] _ IH]; cbn; [done|]. by apply Forall_app. Qed.

Lemma wf_position p : WF p -> 0 <= position p <= BYTE_BLOCK_SIZE * Z.of_nat (length (buffers p)).
Proof.
  intros [Hb Ha Hs]. unfold position. pose proof block_size_val.
  destruct (buffer_upto p); [|destruct Hs as (-> & ? & ?); cbn]; nia.
Qed.

Lemma content_length p : WF p -> Z.of_nat (length (content p)) = position p.
Proof.
  intros H. pose proof (wf_position p H). unfold content. rewrite length_take.
  pose proof (blocks_length _ (wf_blocks p H)) as Hm. fold (memory p) in Hm. lia.
Qed.

Lemma wf_new a : get_block_size a = BYTE_BLOCK_SIZE -> WF (new a) /\ content (new a) = [].
Proof. intros Ha. split; [by constructor|done]. Qed.

(** The current block and the blocks before it. *)
Lemma wf_current p u : WF p -> buffer_upto p = Some u ->
  exists init last, buffers p = init ++ [last] /\ Z.of_nat (length init) = u /\
    Forall full_block init /\ full_block last /\ Z.of_nat (length (concat init)) = u * BYTE_BLOCK_SIZE /\
    memory p = concat init ++ last /\
    forall n, 0 <= n -> take (Z.to_nat (u * BYTE_BLOCK_SIZE + n)) (concat init ++ last)
      = concat init ++ take (Z.to_nat n) last.
Proof.
  intros H Hu. destruct H as [Hb Ha Hs]. rewrite Hu in Hs. destruct Hs as (Hr & Hl & _).
  unfold memory. destruct (buffers p) as [|last init _] using rev_ind; [cbn in Hl; lia|].
  rewrite length_app in Hl. cbn in Hl. apply Forall_app in Hb as [Hi [Hlast _]%Forall_cons].
  pose proof (blocks_length _ Hi). exists init, last. split_and!; try done; [lia|lia| |].
  - rewrite concat_app. cbn. by rewrite app_nil_r.
  - intros n Hn. rewrite take_app_ge by nia. do 2 f_equal. pose proof block_size_val. nia.
Qed.

(** ** Writing into the current block *)

Lemma copy_into_ok p u bs :
  WF p -> buffer_upto p = Some u -> byte_upto p + Z.of_nat (length bs) <= BYTE_BLOCK_SIZE ->
  Forall (in_u 8) bs ->
  exists b, copy_into u bs (byte_upto p) p = (Ok tt, with_buffers p b) /\
    length b = length (buffers p) /\ Forall full_block b /\
    take (Z.to_nat (position p + Z.of_nat (length bs))) (concat b) = content p ++ bs.
Proof.
  intros H Hu Hl Hbs. destruct (wf_current p u H Hu) as (init & last & Hb & Hi & Hfi & [Hfl Hlb] & Hc & Hm & Ht).
  pose proof (wf_shape p H) as Hs. rewrite Hu in Hs. destruct Hs as (Hur & _ & Ho & Hup).
  unfold copy_into. rewrite Hb, vget_middle by lia. cbn [rbind].
  destruct (vcopy_take last (byte_upto p) bs (length bs)) as (last' & Hv & Hlen & Htk & Hall); [lia..|].
  rewrite Hv. cbn [rbind]. rewrite vset_middle by lia.
  exists (init ++ [last']). assert (full_block last') by (split; [lia|auto]).
  split_and!; [done|by rewrite !length_app|by apply Forall_app; auto|].
  unfold content, position. rewrite Hm, Ho, Ht by lia. rewrite concat_app. cbn [concat]. rewrite app_nil_r.
  rewrite take_app_ge by nia. rewrite <- app_assoc. f_equal.
  rewrite firstn_all in Htk. rewrite <- Htk. f_equal. pose proof block_size_val. nia.
Qed.

Definition put (p : t) (b : list (list Z)) (n : Z) : t := with_byte_upto (with_buffers p b) (byte_upto p + n).

Lemma put_ok p u b bs : WF p -> buffer_upto p = Some u ->
  byte_upto p + Z.of_nat (length bs) <= BYTE_BLOCK_SIZE ->
  length b = length (buffers p) -> Forall full_block b ->
  take (Z.to_nat (position p + Z.of_nat (length bs))) (concat b) = content p ++ bs ->
  let p' := put p b (Z.of_nat (length bs)) in
  WF p' /\ content p' = content p ++ bs /\ owed p' = owed p.
Proof.
  intros [Hb Ha Hs] Hu Hl Hlen Hf Hc. cbv zeta. split_and!.
  - constructor; cbn; [done..|]. rewrite Hu in *. lia.
  - rewrite <- Hc. unfold content, position, memory. cbn. f_equal. f_equal. lia.
  - unfold owed. cbn. by rewrite Hlen.
Qed.

(** ** The next block *)

Lemma next_buffer_ok p : WF p -> byte_offset p + BYTE_BLOCK_SIZE <= i32_MAX ->
  exists p', next_buffer p = (Ok (default (-1) (buffer_upto p) + 1), p') /\ WF p' /\
    buffer_upto p' = Some (default (-1) (buffer_upto p) + 1) /\ byte_upto p' = 0 /\
    byte_offset p' = byte_offset p + BYTE_BLOCK_SIZE /\ content p' = memory p /\ owed p' = owed p.
Proof.
  intros H Ho. pose proof (blocks_length _ (wf_blocks p H)) as Hml.
  destruct H as [Hb Ha Hs]. pose proof block_size_val as HB. unfold next_buffer.
  set (u := default (-1) (buffer_upto p)).
  assert (match buffer_upto p with Some upto => upto + 1 | None => 0 end = u + 1) as ->
    by (unfold u; by destruct (buffer_upto p)).
  assert (Hu : Z.of_nat (length (buffers p)) = u + 1 /\ -1 <= u /\ byte_offset p = u * BYTE_BLOCK_SIZE).
  { unfold u. destruct (buffer_upto p); cbn; [lia|]. destruct Hs as (-> & ? & ?). cbn. lia. }
  destruct Hu as (Hl & Hu & Hoff). rewrite (proj2 (Z.eqb_eq _ _)) by lia.
  cbn [get_byte_block buffers buffer_upto allocator byte_offset byte_upto].
  destruct (Z.ltb_spec i32_MAX (byte_offset p + BYTE_BLOCK_SIZE)); [lia|].
  eexists. split; [done|]. unfold i32_MAX in *. split_and!; try done.
  - constructor; cbn [buffers buffer_upto allocator byte_offset byte_upto].
    + apply Forall_app. split; [done|]. apply Forall_cons_2; [|done]. rewrite Ha. split.
      * rewrite length_replicate. lia.
      * apply Forall_replicate. unfold in_u. lia.
    + by destruct (allocator p).
    + rewrite length_app. cbn [length]. nia.
  - unfold content, position, memory. cbn [buffers byte_offset byte_upto]. rewrite concat_app.
    rewrite take_app_le by nia. apply firstn_all2. nia.
  - unfold owed, get_byte_block in *. cbn [allocator buffers]. destruct (allocator p) as [|bs used]; [done|].
    cbn [add_used get_block_size] in *. rewrite length_app. cbn [length]. rewrite Ha.
    replace (as_i64 (used + BYTE_BLOCK_SIZE) - BYTE_BLOCK_SIZE * Z.of_nat (length (buffers p) + 1))
      with (as_i64 (used + BYTE_BLOCK_SIZE) + - (BYTE_BLOCK_SIZE * Z.of_nat (length (buffers p) + 1))) by lia.
    rewrite as_i64_add. f_equal. lia.
Qed.

Lemma next_buffer_err p : i32_MAX < byte_offset p + BYTE_BLOCK_SIZE ->
  exists p', next_buffer p = (Err NumberOverflow, p').
Proof.
  intros H. unfold next_buffer, get_byte_block. destruct (_ =? Z.of_nat _); cbn [byte_offset];
    rewrite (proj2 (Z.ltb_lt _ _)) by done; eauto.
Qed.

(** The offset written before the move is forgotten by it. *)
Lemma next_buffer_upto p n : next_buffer (with_byte_upto p n) = next_buffer p.
Proof. unfold next_buffer, with_byte_upto. cbn. by destruct (_ =? Z.of_nat _). Qed.

(** ** Appending *)

(** The bytes still to write, and whether the current block must be left first. *)
Definition todo (p : t) (left : Z) : Z := left + (if byte_upto p =? BYTE_BLOCK_SIZE then 1 else 0).

Lemma put_nothing p : put p (buffers p) 0 = p.
Proof. destruct p. unfold put, with_byte_upto, with_buffers. cbn. f_equal. lia. Qed.

(** Filling the current block and moving on, the shared step of the append loops. *)
Lemma fill_and_move p u bs : WF p -> default 0 (buffer_upto p) = u ->
  byte_upto p + Z.of_nat (length bs) = BYTE_BLOCK_SIZE -> Forall (in_u 8) bs ->
  exists b, (if 0 <? Z.of_nat (length bs) then copy_into u bs (byte_upto p) p else (Ok tt, p))
      = (Ok tt, with_buffers p b) /\
    (0 < Z.of_nat (length bs) -> buffer_upto p <> None) /\
    if decide (byte_offset p + BYTE_BLOCK_SIZE <= i32_MAX) then
      exists p', next_buffer (with_buffers p b) = (Ok (default (-1) (buffer_upto p) + 1), p') /\ WF p' /\
        buffer_upto p' = Some (default (-1) (buffer_upto p) + 1) /\ byte_upto p' = 0 /\
        byte_offset p' = byte_offset p + BYTE_BLOCK_SIZE /\ content p' = content p ++ bs /\ owed p' = owed p
    else exists p', next_buffer (with_buffers p b) = (Err NumberOverflow, p').
Proof.
  intros H Hu Hl Hbs. pose proof (wf_shape p H) as Hs. pose proof block_size_val as HB.
  assert (Hput : exists b, (if 0 <? Z.of_nat (length bs) then copy_into u bs (byte_upto p) p else (Ok tt, p))
      = (Ok tt, with_buffers p b) /\ (0 < Z.of_nat (length bs) -> buffer_upto p <> None) /\
      WF (put p b (Z.of_nat (length bs))) /\
      concat b = content p ++ bs /\ owed (put p b (Z.of_nat (length bs))) = owed p).
  { destruct (buffer_upto p) as [v|] eqn:Ep; cbn in Hu; subst.
    - destruct (copy_into_ok p u bs H Ep) as (b & Hcp & Hlb & Hfb & Ht); [lia|done|].
      destruct (put_ok p u b bs H Ep) as (Hw & Hc & Ho); [lia|done..|].
      assert (concat b = content p ++ bs).
      { rewrite <- Ht. symmetry. apply firstn_all2. pose proof (blocks_length b Hfb). unfold position. nia. }
      destruct (Z.ltb_spec 0 (Z.of_nat (length bs))); [exists b; by split_and!|].
      destruct bs; [|cbn in *; lia]. exists (buffers p). cbn [length Z.of_nat].
      rewrite put_nothing. split_and!; try done; [by destruct p|].
      rewrite app_nil_r. symmetry. apply firstn_all2.
      pose proof (blocks_length _ (wf_blocks _ H)). cbn in Hl. unfold position. nia.
    - destruct Hs as (Hb & Hup & Hoff). assert (bs = []) as -> by (destruct bs; [done|cbn in Hl; lia]).
      exists (buffers p). cbn [length Z.of_nat]. rewrite put_nothing.
      split_and!; try done; [by destruct p|]. unfold content, memory. by rewrite Hb, firstn_nil. }
  destruct Hput as (b & Hcp & Hsome & Hw & Hc & Ho). exists b. split; [done|]. split; [done|].
  rewrite <- (next_buffer_upto (with_buffers p b) (byte_upto p + Z.of_nat (length bs))).
  case_decide.
  - destruct (next_buffer_ok _ Hw) as (p' & Hn & Hw' & Hu' & Hup' & Hoff' & Hc' & Ho'); [done|].
    exists p'. cbn in *. rewrite Hc', Ho', Ho. split_and!; try done.
  - apply next_buffer_err. cbn. lia.
Qed.

Lemma append_loop_ok fuel bytes : Forall (in_u 8) bytes -> forall p off left u,
  WF p -> default 0 (buffer_upto p) = u -> 0 <= off -> 0 <= left ->
  off + left <= Z.of_nat (length bytes) -> todo p left < Z.of_nat fuel ->
  if decide (0 < left /\ i32_MAX < position p + left) then
    exists p', append_loop fuel bytes off left u p = (Err NumberOverflow, p')
  else
    exists p', append_loop fuel bytes off left u p = (Ok tt, p') /\ WF p' /\
      content p' = content p ++ take (Z.to_nat left) (drop (Z.to_nat off) bytes) /\ owed p' = owed p.
Proof.
  intros Hby. induction fuel as [|fuel IH]; intros p off left u H Hu Ho Hl Hb Hf.
  { unfold todo in Hf. destruct (byte_upto p =? _); lia. }
  pose proof block_size_val as HB. pose proof (wf_shape p H) as Hs. unfold i32_MAX in *.
  cbn [append_loop]. destruct (Z.ltb_spec 0 left) as [Hpos|].
  2: { rewrite decide_False by lia. exists p. replace left with 0 by lia. cbn. by rewrite app_nil_r. }
  unfold sget. cbn [sbind]. set (bl := BYTE_BLOCK_SIZE - byte_upto p).
  assert (Hsl : forall n, 0 <= n <= left -> vslice bytes off (off + n) = Ok (take (Z.to_nat n) (drop (Z.to_nat off) bytes)) /\
    Z.of_nat (length (take (Z.to_nat n) (drop (Z.to_nat off) bytes))) = n).
  { intros n Hn. rewrite vslice_ok by lia. split; [do 2 f_equal; lia|]. rewrite length_take, length_drop. lia. }
  destruct (Z.ltb_spec left bl) as [Hfit|Hfull].
  - destruct (buffer_upto p) as [v|] eqn:Ep; cbn in Hu; [subst|lia].
    destruct (Hsl left) as [Hv Hlen]; [lia|]. rewrite slift_sbind, Hv. cbn beta iota.
    destruct (copy_into_ok p u (take (Z.to_nat left) (drop (Z.to_nat off) bytes)) H Ep) as (b & Hcp & Hlb & Hfb & Ht);
      [lia|by apply Forall_take, Forall_drop|].
    rewrite (sbind_ok _ _ _ _ _ Hcp).
    destruct (put_ok p u b (take (Z.to_nat left) (drop (Z.to_nat off) bytes)) H Ep) as (Hw & Hc & How); [lia|done..|].
    rewrite Hlen in *. destruct (decide _).
    + unfold position in *. unfold bl in *. nia.
    + eexists. split; [done|]. done.
  - destruct (Hsl bl) as [Hv Hlen]; [unfold bl in *; destruct (buffer_upto p); lia|].
    set (bs := take (Z.to_nat bl) (drop (Z.to_nat off) bytes)) in *.
    destruct (fill_and_move p u bs H Hu) as (b & Hcp & _ & Hn); [lia|by apply Forall_take, Forall_drop|].
    rewrite Hlen in Hcp.
    assert ((if 0 <? bl then let* src := slift (vslice bytes off (off + bl)) in copy_into u src (byte_upto p)
      else sret tt) p = (Ok tt, with_buffers p b)) as Hst.
    { destruct (0 <? bl); [|exact Hcp]. by rewrite slift_sbind, Hv. }
    rewrite (sbind_ok _ _ _ _ _ Hst). unfold i32_MAX in Hn.
    assert (Hp0 : 0 <= bl) by (unfold bl; destruct (buffer_upto p); lia).
    destruct (decide (byte_offset p + BYTE_BLOCK_SIZE <= 2147483647)) as [Hok|Hno].
    + destruct Hn as (p' & Hnb & Hw' & Hu' & Hup' & Hoff' & Hc' & How').
      rewrite (sbind_ok _ _ _ _ _ Hnb).
      pose proof (IH p' (off + bl) (left - bl) (default (-1) (buffer_upto p) + 1) Hw') as Hrec.
      rewrite Hu' in Hrec. cbn [default] in Hrec.
      assert (Hpp : position p' + (left - bl) = position p + left).
      { unfold position. rewrite Hup', Hoff'. unfold bl. lia. }
      specialize (Hrec eq_refl ltac:(lia) ltac:(lia) ltac:(lia)).
      assert (Htodo : todo p' (left - bl) < Z.of_nat fuel).
      { unfold todo in *. rewrite Hup'. destruct (Z.eqb_spec 0 BYTE_BLOCK_SIZE); [lia|].
        destruct (Z.eqb_spec (byte_upto p) BYTE_BLOCK_SIZE); unfold bl in *; [lia|].
        destruct (buffer_upto p); lia. }
      specialize (Hrec Htodo). rewrite Hpp in Hrec.
      destruct (decide (0 < left - bl /\ _)), (decide (0 < left /\ _)); try done; try lia.
      * exfalso. assert (left = bl) as E by lia. unfold position, bl in *. lia.
      * destruct Hrec as (p'' & Hr & Hw'' & Hc'' & Ho''). exists p''. split_and!; try done; [|congruence].
        rewrite Hc'', Hc', <- app_assoc. f_equal. unfold bs.
        replace (Z.to_nat left) with (Z.to_nat bl + Z.to_nat (left - bl))%nat by lia.
        rewrite <- take_take_drop, drop_drop. do 3 f_equal. lia.
    + destruct Hn as (p' & Hnb). destruct (decide _) as [|Hno2].
      * exists p'. unfold sbind. by rewrite Hnb.
      * exfalso. unfold position, bl in *. lia.
Qed.

(** ** Reading *)

Lemma block_slice bs i pos n :
  Forall full_block bs -> 0 <= i < Z.of_nat (length bs) -> 0 <= pos -> 0 <= n -> pos + n <= BYTE_BLOCK_SIZE ->
  exists b, vget bs i = Ok b /\
    vslice b pos (pos + n) = Ok (take (Z.to_nat n) (drop (Z.to_nat (i * BYTE_BLOCK_SIZE + pos)) (concat bs))).
Proof.
  intros Hf Hi Hp Hn Hb. destruct (vget_in bs i Hi) as (b & Hl & Hg). exists b. split; [done|].
  pose proof (Forall_lookup_1 _ _ _ _ Hf Hl) as [Hlen _]. rewrite vslice_ok by lia. f_equal.
  assert (Hpre : Z.of_nat (length (concat (take (Z.to_nat i) bs))) = i * BYTE_BLOCK_SIZE).
  { rewrite blocks_length by by apply Forall_take. rewrite length_take. lia. }
  pose proof block_size_val.
  rewrite <- (take_drop_middle bs _ _ Hl) at 1. rewrite concat_app. cbn [concat].
  rewrite drop_app_ge by nia. replace (Z.to_nat (i * BYTE_BLOCK_SIZE + pos) - _)%nat with (Z.to_nat pos) by nia.
  rewrite drop_app_le by lia. rewrite take_app_le by (rewrite length_drop; lia). f_equal. lia.
Qed.

Lemma read_loop_ok fuel p : Forall full_block (buffers p) -> forall bytes index pos bo left,
  0 <= index -> 0 <= pos < BYTE_BLOCK_SIZE -> 0 <= bo -> 0 <= left ->
  index * BYTE_BLOCK_SIZE + pos + left <= Z.of_nat (length (memory p)) ->
  bo + left <= Z.of_nat (length bytes) -> left < Z.of_nat fuel ->
  read_loop fuel p bytes index pos bo left =
    vcopy bytes bo (take (Z.to_nat left) (drop (Z.to_nat (index * BYTE_BLOCK_SIZE + pos)) (memory p))).
Proof.
  intros Hf. pose proof block_size_val as HB. pose proof (blocks_length _ Hf) as Hm.
  fold (memory p) in Hm.
  induction fuel as [|fuel IH]; intros bytes index pos bo left Hi Hp Hbo Hl Hmem Hby Hfuel; [lia|].
  cbn [read_loop]. destruct (Z.ltb_spec 0 left).
  2: { replace left with 0 by lia. change (Z.to_nat 0) with 0%nat. rewrite take_0, vcopy_def by (cbn [length]; lia). cbn [length app].
       by rewrite Nat.add_0_r, take_drop. }
  set (chunk := Z.min (BYTE_BLOCK_SIZE - pos) left).
  destruct (block_slice (buffers p) index pos chunk Hf) as (b & -> & Hs); [nia|lia|lia|lia|].
  cbn [rbind]. rewrite Hs. cbn [rbind]. fold (memory p).
  set (src := take (Z.to_nat chunk) _).
  assert (Hlen : Z.of_nat (length src) = chunk) by (unfold src; rewrite length_take, length_drop; lia).
  rewrite (vcopy_def bytes bo src) by lia. cbn [rbind].
  destruct (decide (left = chunk)) as [E|].
  - rewrite E, Z.sub_diag. destruct fuel; [lia|]. cbn [read_loop]. fold src.
    rewrite (vcopy_def bytes bo src) by lia. done.
  - assert (chunk = BYTE_BLOCK_SIZE - pos) by lia.
    assert (Hv : vcopy bytes bo src = Ok (take (Z.to_nat bo) bytes ++ src ++ drop (Z.to_nat bo + length src) bytes))
      by (apply vcopy_def; lia).
    rewrite IH; [|lia|lia|lia|lia|nia|rewrite (vcopy_length _ _ _ _ Hv); lia|lia].
    rewrite <- Hlen at 1. rewrite (vcopy_vcopy _ _ _ _ _ Hv) by
      (rewrite ?length_take, ?length_drop; lia).
    f_equal. unfold src. replace (Z.to_nat left) with (Z.to_nat chunk + Z.to_nat (left - chunk))%nat by lia.
    rewrite <- take_take_drop, drop_drop. do 3 f_equal. nia.
Qed.

Lemma offset_parts offset : 0 <= offset -> offset <= i32_MAX * BYTE_BLOCK_SIZE ->
  try_i32 (Z.shiftr offset BYTE_BLOCK_SHIFT) = Ok (offset / BYTE_BLOCK_SIZE) /\
  Z.land offset BYTE_BLOCK_MASK = offset mod BYTE_BLOCK_SIZE /\
  0 <= offset / BYTE_BLOCK_SIZE <= i32_MAX /\ 0 <= offset mod BYTE_BLOCK_SIZE < BYTE_BLOCK_SIZE /\
  offset / BYTE_BLOCK_SIZE * BYTE_BLOCK_SIZE + offset mod BYTE_BLOCK_SIZE = offset.
Proof.
  intros Ho Hm. pose proof block_size_val as HB. unfold BYTE_BLOCK_SHIFT, i32_MAX in *.
  rewrite Z.shiftr_div_pow2 by lia. change (2 ^ 15) with BYTE_BLOCK_SIZE.
  assert (0 <= offset / BYTE_BLOCK_SIZE <= 2147483647).
  { split; [apply Z.div_pos; lia|]. apply Z.div_le_upper_bound; lia. }
  pose proof (Z.mod_pos_bound offset BYTE_BLOCK_SIZE ltac:(lia)).
  pose proof (Z.div_mod offset BYTE_BLOCK_SIZE ltac:(lia)).
  split_and!; try lia.
  - unfold try_i32. rewrite decide_True; [done|]. unfold in_s. lia.
  - change BYTE_BLOCK_MASK with (Z.ones 15). rewrite Z.land_ones by lia. done.
Qed.

Lemma read_bytes_ok p offset bytes bo len :
  WF p -> 0 <= offset -> 0 <= bo -> 0 <= len -> offset + len <= Z.of_nat (length (memory p)) ->
  bo + len <= Z.of_nat (length bytes) ->
  read_bytes p offset bytes bo len =
    vcopy bytes bo (take (Z.to_nat len) (drop (Z.to_nat offset) (memory p))).
Proof.
  intros H Ho Hbo Hl Hm Hb. pose proof block_size_val as HB.
  assert (Hmax : Z.of_nat (length (memory p)) <= 65536 * BYTE_BLOCK_SIZE).
  { unfold memory. rewrite blocks_length by apply H. destruct H as [_ _ Hs].
    destruct (buffer_upto p); [nia|]. destruct Hs as [-> _]. cbn. lia. }
  unfold read_bytes. destruct (offset_parts offset Ho) as (-> & -> & Hi & Hp & He);
    [unfold i32_MAX; lia|]. cbn [rbind].
  rewrite read_loop_ok by (try apply H; lia). by rewrite He.
Qed.

Lemma pool_read_byte_ok p offset x : WF p -> 0 <= offset -> memory p !! Z.to_nat offset = Some x ->
  read_byte p offset = Ok x.
Proof.
  intros H Ho Hx. pose proof block_size_val as HB. pose proof (lookup_lt_Some _ _ _ Hx) as Hlt.
  pose proof (blocks_length _ (wf_blocks p H)) as Hm. fold (memory p) in Hm.
  assert (Hmax : Z.of_nat (length (memory p)) <= 65536 * BYTE_BLOCK_SIZE).
  { rewrite Hm. destruct H as [_ _ Hs]. destruct (buffer_upto p); [nia|]. destruct Hs as [-> _]. cbn. lia. }
  destruct (offset_parts offset Ho) as (Ht & Hpos & Hi & Hp & He); [unfold i32_MAX; lia|].
  unfold read_byte, try_i32 in *. destruct (decide _); [|done]. injection Ht as ->. rewrite Hpos.
  destruct (block_slice (buffers p) (offset / BYTE_BLOCK_SIZE) (offset mod BYTE_BLOCK_SIZE) 1
    (wf_blocks p H)) as (b & -> & Hs); [nia|lia..|]. cbn [rbind].
  rewrite He in Hs. fold (memory p) in Hs. rewrite (drop_S _ _ _ Hx) in Hs.
  change (take (Z.to_nat 1) (x :: drop (S (Z.to_nat offset)) (memory p))) with [x] in Hs.
  apply vget_ok; [lia|]. unfold vslice in Hs. destruct (_ && _) eqn:E; [|done]. injection Hs as Hs.
  replace (Z.to_nat (offset mod BYTE_BLOCK_SIZE + 1 - _)) with 1%nat in Hs by lia.
  assert (take 1 (drop (Z.to_nat (offset mod BYTE_BLOCK_SIZE)) b) !! 0%nat = Some x) as Hl by by rewrite Hs.
  by rewrite lookup_take_lt, lookup_drop, Nat.add_0_r in Hl by lia.
Qed.

(** ** Copying from another pool *)

Lemma copy_into_eq p init last u bs o :
  buffers p = init ++ [last] -> u = Z.of_nat (length init) ->
  0 <= o -> o + Z.of_nat (length bs) <= Z.of_nat (length last) ->
  exists last', vcopy last o bs = Ok last' /\ copy_into u bs o p = (Ok tt, with_buffers p (init ++ [last'])).
Proof.
  intros Hb -> Ho Hl. rewrite (vcopy_def last o bs) by lia. eexists. split; [done|].
  unfold copy_into. rewrite Hb, vget_middle by lia. cbn [rbind].
  rewrite vcopy_def by lia. cbn [rbind]. by rewrite vset_middle.
Qed.

Section FromPool.
Context (src : t) (Hsrc : WF src).

Lemma source_slice off n : 0 <= off -> 0 < n -> off mod BYTE_BLOCK_SIZE + n <= BYTE_BLOCK_SIZE ->
  off + n <= Z.of_nat (length (memory src)) ->
  try_i32 (Z.shiftr off BYTE_BLOCK_SHIFT) = Ok (off / BYTE_BLOCK_SIZE) /\
  Z.land off BYTE_BLOCK_MASK = off mod BYTE_BLOCK_SIZE /\ 0 <= off mod BYTE_BLOCK_SIZE < BYTE_BLOCK_SIZE /\
  (let? b := vget (buffers src) (off / BYTE_BLOCK_SIZE) in
   vslice b (off mod BYTE_BLOCK_SIZE) (off mod BYTE_BLOCK_SIZE + n))
  = Ok (take (Z.to_nat n) (drop (Z.to_nat off) (memory src))).
Proof.
  intros Ho Hn Hb Hm. pose proof block_size_val as HB.
  pose proof (blocks_length _ (wf_blocks _ Hsrc)) as Hml. fold (memory src) in Hml.
  assert (Z.of_nat (length (buffers src)) <= 65536).
  { destruct Hsrc as [_ _ Hs]. destruct (buffer_upto src); [lia|]. destruct Hs as [-> _]. cbn. lia. }
  destruct (offset_parts off Ho) as (Ht & Hpos & Hi & Hp & He); [unfold i32_MAX; nia|].
  split_and!; try done; try lia.
  destruct (block_slice (buffers src) (off / BYTE_BLOCK_SIZE) (off mod BYTE_BLOCK_SIZE) n
    (wf_blocks _ Hsrc)) as (b & -> & Hs); [nia|lia..|]. cbn [rbind]. by rewrite Hs, He.
Qed.

Lemma single_loop_ok fuel : forall p u off len init last,
  buffers p = init ++ [last] -> u = Z.of_nat (length init) -> Z.of_nat (length last) = BYTE_BLOCK_SIZE ->
  0 <= byte_upto p -> 0 <= len -> byte_upto p + len <= BYTE_BLOCK_SIZE ->
  0 <= off -> off + len <= Z.of_nat (length (memory src)) -> len < Z.of_nat fuel ->
  exists last', vcopy last (byte_upto p) (take (Z.to_nat len) (drop (Z.to_nat off) (memory src))) = Ok last' /\
    single_loop fuel src u off len p = (Ok tt, put p (init ++ [last']) len).
Proof.
  pose proof block_size_val as HB.
  induction fuel as [|fuel IH]; intros p u off len init last Hb Hu Hl Hup Hlen Hfit Ho Hm Hf; [lia|].
  cbn [single_loop]. destruct (Z.ltb_spec 0 len).
  2: { replace len with 0 by lia. change (Z.to_nat 0) with 0%nat. exists last. split.
       - rewrite take_0, vcopy_def by (cbn [length]; lia). cbn [length app]. by rewrite Nat.add_0_r, take_drop.
       - rewrite <- Hb, put_nothing. done. }
  pose proof (Z.mod_pos_bound off BYTE_BLOCK_SIZE ltac:(lia)) as Hmod.
  set (c := Z.min (BYTE_BLOCK_SIZE - off mod BYTE_BLOCK_SIZE) len).
  destruct (source_slice off c) as (Ht & Hpos & _ & Hs); [lia..|].
  rewrite slift_sbind, Ht. cbn beta iota. rewrite Hpos. fold c. rewrite slift_sbind, Hs. cbn beta iota.
  set (x := take (Z.to_nat c) _). unfold sget. cbn [sbind].
  assert (Hx : Z.of_nat (length x) = c) by (unfold x; rewrite length_take, length_drop; lia).
  destruct (copy_into_eq p init last u x (byte_upto p)) as (last1 & Hv & Hc); [done|done|lia|lia|].
  rewrite (sbind_ok _ _ _ _ _ Hc).
  set (p1 := put p (init ++ [last1]) c).
  change (sbind (advance_upto c) ?k (with_buffers p (init ++ [last1]))) with (k tt p1). cbn beta.
  destruct (IH p1 u (off + c) (len - c) init last1) as (last' & Hv' & Hr);
    [done|done|by rewrite (vcopy_length _ _ _ _ Hv)|cbn; lia..|].
  exists last'. rewrite Hr. split.
  - replace (Z.to_nat len) with (Z.to_nat c + Z.to_nat (len - c))%nat by lia.
    rewrite <- take_take_drop, drop_drop. fold x. rewrite <- (vcopy_vcopy _ _ _ _ _ Hv).
    + cbn in Hv'. rewrite Hx, <- Hv'. do 4 f_equal. lia.
    + rewrite length_take, length_drop. lia.
  - f_equal. unfold p1, put, with_buffers, with_byte_upto. cbn. f_equal. lia.
Qed.

(** One block of the target is filled as by a copy of the source's range. *)
Lemma append_bytes_single_buffer_ok p u off len : WF p -> buffer_upto p = Some u ->
  0 <= len -> byte_upto p + len <= BYTE_BLOCK_SIZE -> 0 <= off -> off + len <= Z.of_nat (length (memory src)) ->
  exists b, copy_into u (take (Z.to_nat len) (drop (Z.to_nat off) (memory src))) (byte_upto p) p
      = (Ok tt, with_buffers p b) /\
    append_bytes_single_buffer src off len p = (Ok tt, put p b len).
Proof.
  intros H Hu Hlen Hfit Ho Hm.
  destruct (wf_current p u H Hu) as (init & last & Hb & Hi & _ & [Hfl _] & _).
  pose proof (wf_shape p H) as Hs. rewrite Hu in Hs.
  destruct (single_loop_ok (S (Z.to_nat len)) p u off len init last) as (last' & Hv & Hr); [done|lia..|].
  exists (init ++ [last']). split.
  - destruct (copy_into_eq p init last u (take (Z.to_nat len) (drop (Z.to_nat off) (memory src))) (byte_upto p))
      as (l2 & Hv2 & Hc); [done|lia|lia|rewrite length_take, length_drop; lia|]. congruence.
  - unfold append_bytes_single_buffer, sget. cbn [sbind]. rewrite slift_sbind.
    replace (len <=? BYTE_BLOCK_SIZE - byte_upto p) with true by lia. cbn [debug_assert].
    cbn beta iota. rewrite slift_sbind, Hu. done.
Qed.

Lemma direct_source_ok p u off len : WF p -> buffer_upto p = Some u -> 0 < len ->
  byte_upto p + len <= BYTE_BLOCK_SIZE -> 0 <= off -> off + len <= Z.of_nat (length (memory src)) ->
  direct_source src p off len = None \/
  direct_source src p off len = Some (u, take (Z.to_nat len) (drop (Z.to_nat off) (memory src))).
Proof.
  intros H Hu Hlen Hfit Ho Hm. pose proof block_size_val as HB.
  destruct (wf_current p u H Hu) as (init & last & Hb & Hi & _ & [Hfl _] & _).
  pose proof (wf_shape p H) as Hs. rewrite Hu in Hs.
  destruct (decide (len <= BYTE_BLOCK_SIZE - off mod BYTE_BLOCK_SIZE)) as [Hd|Hd].
  - destruct (source_slice off len) as (Ht & Hpos & _ & Hsl); [lia..|]. right.
    unfold direct_source. rewrite Hpos, Hu. replace (len <=? _) with true by lia.
    unfold try_i32 in Ht. destruct (decide _); [|done]. injection Ht as Ht. rewrite Ht, Hsl.
    rewrite Hb, vget_middle by lia. cbn [rbind]. by rewrite vslice_ok by lia.
  - left. unfold direct_source.
    assert (Z.land off BYTE_BLOCK_MASK = off mod BYTE_BLOCK_SIZE) as ->.
    { change BYTE_BLOCK_MASK with (Z.ones 15). by rewrite Z.land_ones by lia. }
    by replace (len <=? _) with false by lia.
Qed.

Lemma append_from_loop_eq fuel : forall p off left,
  WF p -> 0 <= off -> 0 <= left -> off + left <= Z.of_nat (length (memory src)) ->
  append_from_loop fuel src off left p
  = append_loop fuel (memory src) off left (default 0 (buffer_upto p)) p.
Proof.
  pose proof block_size_val as HB.
  induction fuel as [|fuel IH]; intros p off left H Ho Hl Hm; [done|].
  cbn [append_from_loop append_loop]. destruct (Z.ltb_spec 0 left); [|done].
  unfold sget. cbn [sbind]. set (bl := BYTE_BLOCK_SIZE - byte_upto p).
  pose proof (wf_shape p H) as Hs.
  assert (Hsl : forall n, 0 <= n <= left -> vslice (memory src) off (off + n)
    = Ok (take (Z.to_nat n) (drop (Z.to_nat off) (memory src))) /\
    Z.of_nat (length (take (Z.to_nat n) (drop (Z.to_nat off) (memory src)))) = n).
  { intros n Hn. rewrite vslice_ok by lia. split; [do 2 f_equal; lia|]. rewrite length_take, length_drop. lia. }
  destruct (Z.ltb_spec left bl) as [Hfit|Hfull].
  - destruct (buffer_upto p) as [u|] eqn:Ep; [|lia]. cbn [default].
    rewrite slift_sbind, (proj1 (Hsl left ltac:(lia))). cbn beta iota.
    destruct (direct_source_ok p u off left H Ep) as [-> | ->]; [lia..| |done].
    destruct (append_bytes_single_buffer_ok p u off left H Ep) as (b & Hc & ->); [lia..|].
    by rewrite (sbind_ok _ _ _ _ _ Hc).
  - assert (Hbl : 0 <= bl) by (unfold bl; destruct (buffer_upto p); lia).
    destruct (Hsl bl ltac:(lia)) as [Hv Hlen].
    set (bs := take (Z.to_nat bl) (drop (Z.to_nat off) (memory src))) in *.
    destruct (fill_and_move p (default 0 (buffer_upto p)) bs H eq_refl) as (b & Hcp & Hsome & Hn);
      [lia|apply Forall_take, Forall_drop, blocks_bytes; apply Hsrc|].
    rewrite Hlen in Hcp, Hsome.
    assert (Hgo : forall off' left', 0 <= off' -> 0 <= left' -> off' + left' <= Z.of_nat (length (memory src)) ->
      (let* _ := next_buffer in append_from_loop fuel src off' left') (with_buffers p b)
      = (let* upto := next_buffer in append_loop fuel (memory src) off' left' upto) (with_buffers p b)).
    { intros off' left' H1 H2 H3. unfold sbind. destruct (decide _) in Hn.
      - destruct Hn as (p' & -> & Hw' & Hu' & _). rewrite IH by done. by rewrite Hu'.
      - destruct Hn as (p' & ->). done. }
    destruct (Z.ltb_spec 0 bl).
    + destruct (buffer_upto p) as [u|] eqn:Ep; [|by destruct Hsome].
      change (default 0 (Some u)) with u in *.
      destruct (append_bytes_single_buffer_ok p u off bl H Ep) as (b' & Hc & Hr); [unfold bl in *; lia..|].
      fold bs in Hc. rewrite Hc in Hcp. injection Hcp as ->.
      rewrite (sbind_ok _ _ _ _ _ Hr).
      assert (Hst : (let* src0 := slift (vslice (memory src) off (off + bl)) in copy_into u src0 (byte_upto p)) p
        = (Ok tt, with_buffers p b)) by (rewrite slift_sbind, Hv; exact Hc).
      rewrite (sbind_ok _ _ _ _ _ Hst).
      rewrite <- Hgo by lia. unfold sbind at 1. unfold put. rewrite next_buffer_upto. done.
    + assert (bl = 0) as E by lia. unfold sret. cbn [sbind]. rewrite E, Z.add_0_r, Z.sub_0_r.
      injection Hcp as Hp. unfold sbind at 2. rewrite Hp. apply Hgo; lia.
Qed.
End FromPool.

(** ** Resetting *)

Lemma zero_fill_ok l2 : forall l1 i, i = Z.of_nat (length l1) ->
  zero_fill (length l2) i (l1 ++ l2) = Ok (l1 ++ map (fun b => replicate (length b) 0) l2).
Proof.
  induction l2 as [|b l2 IH]; intros l1 i ->; cbn [zero_fill length map]; [done|].
  rewrite vget_middle by lia. cbn [rbind]. rewrite vset_middle by lia. cbn [rbind].
  rewrite (cons_middle _ l1), app_assoc, IH by (rewrite length_app; cbn; lia).
  by rewrite <- app_assoc.
Qed.

Lemma recycle_ok a bs off n : get_block_size a = BYTE_BLOCK_SIZE -> 0 <= off <= n -> n = Z.of_nat (length bs) ->
  exists b a', recycle_byte_blocks a bs off n = Ok (b, a') /\ get_block_size a' = BYTE_BLOCK_SIZE /\
    take (length b - Z.to_nat (n - off)) b = take (Z.to_nat off) bs /\
    match a, a' with
    | DA _, DA _ => True
    | DTA _ used, DTA _ used' => used' = as_i64 (used - (n - off) * BYTE_BLOCK_SIZE)
    | _, _ => False
    end.
Proof.
  intros Ha Ho ->. destruct a as [s|s used]; cbn in Ha; subst s.
  - exists bs, (DA BYTE_BLOCK_SIZE). split_and!; try done. f_equal. lia.
  - cbn [recycle_byte_blocks]. rewrite vslice_ok by lia. cbn [rbind].
    set (k := take _ _). assert (Hk : Z.of_nat (length k) = Z.of_nat (length bs) - off)
      by (unfold k; rewrite length_take, length_drop; lia).
    assert (exists b, vcopy bs off (replicate (length k) []) = Ok b /\ length b = length bs /\
      take (Z.to_nat off) b = take (Z.to_nat off) bs) as (b & -> & Hlen & Ht).
    { destruct (vcopy_take bs off (replicate (length k) []) 0) as (b & Hv & Hl & Ht & _);
        [lia|rewrite length_replicate; lia|lia|]. exists b. by rewrite Nat.add_0_r, app_nil_r in Ht. }
    cbn [rbind]. eexists _, _. split; [done|]. cbn [add_used get_block_size]. split_and!; [done| |done].
    rewrite <- Ht. f_equal. lia.
Qed.

(** The blocks kept, and the counter, once the others are handed back. *)
Lemma recycle_rest p0 bs r u :
  WF p0 -> buffer_upto p0 = Some u -> length bs = length (buffers p0) ->
  exists a', (if (0 <? u) || negb r then recycle u (if r then 1 else 0) else sret tt) (with_buffers p0 bs)
      = (Ok tt, mk (take (if r then 1 else 0) bs) (buffer_upto p0) a' (byte_offset p0) (byte_upto p0)) /\
    get_block_size a' = BYTE_BLOCK_SIZE /\
    forall q, allocator q = a' -> length (buffers q) = (if r then 1%nat else 0%nat) -> owed q = owed p0.
Proof.
  intros H Hu Hlen. pose proof (wf_shape p0 H) as Hs. rewrite Hu in Hs. destruct Hs as (Hur & Hl & _).
  destruct ((0 <? u) || negb r) eqn:E.
  - unfold recycle. cbn [with_buffers allocator buffers buffer_upto byte_offset byte_upto].
    destruct (recycle_ok (allocator p0) bs (if r then 1 else 0) (u + 1)) as (b & a' & -> & Ha & Ht & Hused);
      [apply H|destruct r; lia|lia|].
    exists a'. cbv zeta. rewrite Ht.
    replace (Z.to_nat (if r then 1 else 0)) with (if r then 1 else 0)%nat by by destruct r.
    split_and!; try done. intros q Hq Hlq. unfold owed. rewrite Hq, Hlq.
    destruct (allocator p0), a'; try done. subst. rewrite <- Z.add_opp_r, as_i64_add. f_equal. destruct r; lia.
  - apply orb_false_iff in E as [E%Z.ltb_ge ->%negb_false_iff]. exists (allocator p0).
    unfold sret, with_buffers. rewrite firstn_all2 by lia. split_and!; try done; [apply H|].
    intros q Hq Hlq. unfold owed. rewrite Hq, Hlq. destruct (allocator p0); [done|]. do 3 f_equal. lia.
Qed.

Lemma reset_tail p0 bs z r u :
  WF p0 -> buffer_upto p0 = Some u -> Forall full_block bs -> length bs = length (buffers p0) ->
  (z = true -> Forall (Forall (eq 0)) bs) -> forall p, p = with_buffers p0 bs ->
  exists p', (let* _ := (if (0 <? u) || negb r then recycle u (if r then 1 else 0) else sret tt) in
              rewind r) p = (Ok tt, p') /\
    WF p' /\ content p' = [] /\ owed p' = owed p0 /\ length (buffers p') = (if r then 1%nat else 0%nat) /\
    (z = true -> Forall (eq 0) (memory p')).
Proof.
  intros H Hu Hf Hlen Hz p ->. pose proof (wf_shape p0 H) as Hs. rewrite Hu in Hs.
  destruct Hs as (Hur & Hl & Ho & Hup). pose proof block_size_val as HB.
  destruct (recycle_rest p0 bs r u H Hu Hlen) as (a' & Hm & Ha & How). rewrite (sbind_ok _ _ _ _ _ Hm).
  assert (Hft : Forall full_block (take (if r then 1 else 0) bs)) by by apply Forall_take.
  assert (Hlt : length (take (if r then 1 else 0)%nat bs) = if r then 1%nat else 0%nat)
    by (rewrite length_take; destruct r; lia).
  assert (Hzt : z = true -> Forall (eq 0) (concat (take (if r then 1 else 0) bs))).
  { intros Ez. apply Forall_concat, Forall_take; auto. }
  unfold rewind. destruct r; (eexists; split; [done|]; cbn [buffers] in *; split_and!;
    [constructor; cbn [buffers buffer_upto allocator byte_offset byte_upto]; [done|done|]
    |done|by apply How|done|done]).
  - lia.
  - split_and!; try done.
Qed.

Lemma reset_ok p z r : WF p ->
  exists p', reset z r p = (Ok tt, p') /\ WF p' /\ content p' = [] /\ owed p' = owed p /\
    length (buffers p') = (if r && bool_decide (is_Some (buffer_upto p)) then 1%nat else 0%nat) /\
    (z = true -> Forall (eq 0) (memory p')).
Proof.
  intros H. unfold reset. destruct (buffer_upto p) as [u|] eqn:Hu.
  2: { exists p. pose proof (wf_shape p H) as Hs. rewrite Hu in Hs. destruct Hs as (Hb & _).
       unfold content, memory. rewrite Hb, andb_false_r. split_and!; try done. by rewrite firstn_nil. }
  rewrite bool_decide_true, andb_true_r by done.
  pose proof (wf_shape p H) as Hs. rewrite Hu in Hs. destruct Hs as (Hur & Hl & _). destruct z.
  - set (bs := map (fun b => replicate (length b) 0) (buffers p)).
    assert (Hz : zero_fill (Z.to_nat (u + 1)) 0 (buffers p) = Ok bs).
    { replace (Z.to_nat (u + 1)) with (length (buffers p)) by lia. by apply (zero_fill_ok (buffers p) []). }
    assert (Hfill : (fun p => match zero_fill (Z.to_nat (u + 1)) 0 (buffers p) with
                              | Ok b => (Ok tt, with_buffers p b)
                              | _ => (Panic, p)
                              end) p = (Ok tt, with_buffers p bs)) by (cbv beta; by rewrite Hz).
    rewrite (sbind_ok _ _ _ _ _ Hfill). apply (reset_tail p bs true); try done.
    + apply Forall_map, (Forall_impl full_block); [apply H|]. intros b [Hb _]. split.
      * rewrite length_replicate. lia.
      * apply Forall_replicate. unfold in_u. lia.
    + unfold bs. apply length_map.
    + intros _. apply Forall_map, Forall_true. intros b. by apply Forall_replicate.
  - rewrite (sbind_ok (sret tt) _ p tt p eq_refl). apply (reset_tail p (buffers p) false); try done.
    + apply H.
    + by destruct p.
Qed.

(** ** Borrowed or copied values *)

Lemma oversize_in_range n : 0 <= n <= i32_MAX -> exists r, ArrayUtil.oversize n 1 = Ok r.
Proof.
  intros Hn. unfold ArrayUtil.oversize. destruct (n =? 0); [eauto|].
  replace (ArrayUtil.max_array_length 1) with i32_MAX by done.
  destruct (Z.ltb_spec i32_MAX n); [lia|]. eauto.
Qed.

Lemma grow_no_copy_ok cap v n : 0 <= n <= i32_MAX ->
  exists v', ArrayUtil.grow_no_copy 1 cap v n 0 = Ok v' /\ n <= Z.of_nat (length v').
Proof.
  intros Hn. unfold ArrayUtil.grow_no_copy. destruct (Z.ltb_spec (Z.of_nat (length v)) n); [|eauto].
  destruct (oversize_in_range n Hn) as (r & ->). cbn [rbind]. destruct (n <=? cap).
  - eexists. split; [done|]. rewrite length_app, length_replicate. lia.
  - eexists. split; [done|]. rewrite length_replicate. lia.
Qed.

Lemma set_bytes_ref_ok p cap builder r offset len :
  WF p -> 0 <= offset -> 0 <= len <= i32_MAX -> offset + len <= Z.of_nat (length (memory p)) ->
  (len = 0 -> offset < Z.of_nat (length (memory p))) ->
  exists builder' r', set_bytes_ref p cap builder r offset len = Ok (builder', r') /\ ref_length r' = len /\
    vslice (cow_bytes (ref_bytes r')) (ref_offset r') (ref_offset r' + len)
    = Ok (take (Z.to_nat len) (drop (Z.to_nat offset) (memory p))) /\
    (ref_bytes r' = Borrowed (cow_bytes (ref_bytes r')) <-> offset mod BYTE_BLOCK_SIZE + len <= BYTE_BLOCK_SIZE).
Proof.
  intros H Ho Hlen Hm Hz. pose proof block_size_val as HB.
  pose proof (blocks_length _ (wf_blocks _ H)) as Hml. fold (memory p) in Hml.
  assert (Z.of_nat (length (buffers p)) <= 65536).
  { destruct H as [_ _ Hs]. destruct (buffer_upto p); [lia|]. destruct Hs as [-> _]. cbn. lia. }
  destruct (offset_parts offset Ho) as (Ht & Hpos & Hi & Hp & He); [unfold i32_MAX; nia|].
  unfold set_bytes_ref. rewrite Hpos, Ht.
  assert ((if Z.of_nat (length (cow_bytes (ref_bytes r))) <? len then
             let? _ := ArrayUtil.oversize len 1 in Ok tt else Ok tt) = Ok tt) as ->.
  { destruct (_ <? _); [|done]. destruct (oversize_in_range len Hlen) as (? & ->). done. }
  cbn [rbind]. destruct (Z.ltb_spec BYTE_BLOCK_SIZE (offset mod BYTE_BLOCK_SIZE + len)) as [Hlt|Hge].
  - destruct (match ref_bytes r with Borrowed _ => ([], builder) | Owned b => (builder, b) end) as [bd ow].
    destruct (grow_no_copy_ok cap ow len Hlen) as (ow' & -> & Hl'). cbn [rbind].
    replace (_ <=? BYTE_BLOCK_SIZE) with false by lia. cbn [cow_bytes].
    rewrite read_bytes_ok by (done || lia).
    set (s := take _ _). assert (Hs : Z.of_nat (length s) = len) by (unfold s; rewrite length_take, length_drop; lia).
    destruct (vcopy_spec ow' 0 s) as (v & -> & Hsl & _); [lia|lia|]. cbn [rbind].
    eexists _, _. split; [done|]. cbn. split_and!; [done|by rewrite <- Hs|]. split; [done|lia].
  - cbn [rbind]. replace (_ <=? BYTE_BLOCK_SIZE) with true by lia.
    destruct (block_slice (buffers p) (offset / BYTE_BLOCK_SIZE) (offset mod BYTE_BLOCK_SIZE) len
      (wf_blocks _ H)) as (b & -> & Hs); [nia|lia..|]. cbn [rbind]. rewrite Hs. cbn [rbind].
    eexists _, _. split; [done|]. cbn. rewrite Hs, He. done.
Qed.

Lemma get_position_ok p : WF p -> position p <= i32_MAX -> get_position p = Ok (position p).
Proof.
  intros [Hb Ha Hs] Hp. pose proof block_size_val as HB. unfold get_position, position, i32_MAX in *. rewrite Ha.
  rewrite debug_assert_true by (unfold i32_MAX; lia). unfold exact_i32.
  destruct (buffer_upto p); [|destruct Hs as (_ & -> & ->)];
    (rewrite decide_True by (unfold in_s; lia); cbn [rbind]; rewrite decide_True by (unfold in_s; lia); f_equal; lia).
Qed.

(** * The pool's contract *)

(** C24: Appending a range of bytes extends the content of the pool by exactly that
    range, over as many blocks as it takes, and reading the same number of bytes from
    the old position gives them back; the pool stays well formed and the allocator's
    counter stays the size of the blocks. Past two gigabytes it is an overflow error. *)
Theorem append_then_read p bytes off len target at_ :
  WF p -> Forall (in_u 8) bytes -> 0 <= off -> 0 <= len -> off + len <= Z.of_nat (length bytes) ->
  0 <= at_ -> at_ + len <= Z.of_nat (length target) ->
  let range := take (Z.to_nat len) (drop (Z.to_nat off) bytes) in
  if decide (0 < len /\ i32_MAX < position p + len) then
    exists p', append_range bytes off len p = (Err NumberOverflow, p')
  else
    exists p', append_range bytes off len p = (Ok tt, p') /\ WF p' /\
      content p' = content p ++ range /\ position p' = position p + len /\ owed p' = owed p /\
      read_bytes p' (position p) target at_ len = vcopy target at_ range.
Proof.
  intros H Hb Ho Hl Hr Ha Ht. cbv zeta. unfold append_range.
  pose proof (append_loop_ok (S (S (Z.to_nat len))) bytes Hb p off len _ H eq_refl Ho Hl Hr) as Hap.
  assert (Htodo : todo p len < Z.of_nat (S (S (Z.to_nat len)))) by (unfold todo; destruct (_ =? _); lia).
  specialize (Hap Htodo). destruct (decide _); [done|]. destruct Hap as (p' & Hap & Hw & Hc & Hod).
  pose proof (content_length p H) as Hlp. pose proof (content_length p' Hw) as Hlp'.
  pose proof (wf_position p H) as Hpp.
  set (range := take (Z.to_nat len) (drop (Z.to_nat off) bytes)) in *.
  assert (Hrl : Z.of_nat (length range) = len) by (unfold range; rewrite length_take, length_drop; lia).
  assert (Hpos : position p' = position p + len) by (rewrite <- Hlp', Hc, length_app; lia).
  exists p'. split_and!; try done.
  pose proof (wf_position p' Hw) as Hpp'. rewrite <- (blocks_length _ (wf_blocks p' Hw)) in Hpp'.
  fold (memory p') in Hpp'. rewrite read_bytes_ok by (done || lia). f_equal.
  unfold content in Hc at 1. rewrite Hpos in Hc.
  transitivity (drop (Z.to_nat (position p)) (take (Z.to_nat (position p + len)) (memory p'))).
  - rewrite skipn_firstn_comm. f_equal. lia.
  - rewrite Hc. apply drop_app_length'. lia.
Qed.

Lemma append_then_read_witness :
  let p := new AllocatorByte.new_direct in
  exists p', append_range [9; 1; 2; 3] 1 3 p = (Ok tt, p') /\ content p' = [1; 2; 3] /\
    read_bytes p' 0 [0; 0; 0; 0; 0] 1 3 = Ok [0; 1; 2; 3; 0].
Proof.
  cbv zeta. assert (Hn : WF (new new_direct)) by (apply wf_new; done).
  pose proof (append_then_read (new new_direct) [9; 1; 2; 3] 1 3 [0; 0; 0; 0; 0] 1 Hn) as H.
  assert (Hb : Forall (in_u 8) [9; 1; 2; 3])
    by (repeat apply Forall_cons_2; try apply Forall_nil_2; unfold in_u; lia).
  specialize (H Hb ltac:(lia) ltac:(lia) ltac:(cbn; lia) ltac:(lia) ltac:(cbn; lia)).
  cbv zeta in H. rewrite decide_False in H by (vm_compute; intros [_ [=]]).
  destruct H as (p' & Ha & _ & Hc & _ & _ & Hr). exists p'. split_and!; [exact Ha|exact Hc|exact Hr].
Defined.

(** Copying a range out of another pool, block by block on both sides and with its
    direct copy inside one block, is appending that range of the source's memory: the
    same result, the same pool, the same overflow error. *)
Theorem append_from_pool_is_append src p off len :
  WF src -> WF p -> 0 <= off -> 0 <= len -> off + len <= Z.of_nat (length (memory src)) ->
  append_from_byte_block_pool src off len p = append_range (memory src) off len p.
Proof. intros Hs H Ho Hl Hm. by apply append_from_loop_eq. Qed.

Lemma append_from_pool_is_append_witness :
  let src := (append [5; 6; 7; 8] (new new_direct)).2 in
  append_from_byte_block_pool src 1 3 (new new_direct) = append_range (memory src) 1 3 (new new_direct).
Proof.
  cbv zeta. assert (Hn : WF (new new_direct)) by (apply wf_new; done).
  assert (Hw : WF (append [5; 6; 7; 8] (new new_direct)).2).
  { assert (Hb : Forall (in_u 8) [5; 6; 7; 8])
      by (repeat apply Forall_cons_2; try apply Forall_nil_2; unfold in_u; lia).
    pose proof (append_loop_ok 6 [5; 6; 7; 8] Hb (new new_direct) 0 4 0 Hn eq_refl) as H.
    specialize (H ltac:(lia) ltac:(lia) ltac:(cbn; lia) ltac:(vm_compute; done)).
    rewrite decide_False in H by (vm_compute; intros [_ [=]]). destruct H as (p' & Ha & Hw & _).
    assert (append [5; 6; 7; 8] (new new_direct) = (Ok tt, p')) as -> by exact Ha. done. }
  apply append_from_pool_is_append; [done|done|lia|lia|]. vm_compute. discriminate.
Defined.
End PoolFacts.
