(* ===== verification/BytesRefHash.v ===== *)
(** The dictionary of byte strings of the in-memory index: [BytesRefBlockPool]
    (src/core/util/bytes_ref_block_pool.rs) stores length-prefixed terms in a
    [ByteBlockPool], [BytesRefHash] (src/core/util/bytes_ref_hash.rs) finds them through
    an open-addressing table of ids. *)

From Stdlib Require Import ZArith Lia Bool.
From stdpp Require Import base tactics numbers list sorting.
From S2P Require Import Prelude BitUtil ArrayUtil StringHelper ByteBlockPool.
Import BitUtil.

Local Open Scope Z_scope.

(** * Length-prefixed terms in the pool *)

Module BytesRefBlockPool.
Import ByteBlockPool.

Record BytesRefBlockPoolPosition := mk_position { block_index : Z; pos_offset : Z; pos_length : Z }.

(** The length prefix at [pos]: one byte, or two with the top bit set; answers the
    length and where the bytes start. *)
Definition read_length (block : list Z) (pos : Z) : result (Z * Z) :=
  let? b := vget block pos in
  if Z.land b 128 =? 0 then Ok (b, pos + 1)
  else
    let? v := get_i16_be block pos in
    Ok (as_u64 (Z.land v 32767), pos + 2).

Definition fill_bytes_ref (start : Z) (pool : ByteBlockPool.t) : result BytesRefBlockPoolPosition :=
  let index := Z.shiftr start BYTE_BLOCK_SHIFT in
  let? block := vget (buffers pool) index in
  let? (length, offset) := read_length block (Z.land start BYTE_BLOCK_MASK) in
  Ok (mk_position index offset length).

(** The new block after the term is written at [upto]; and how long the entry is. *)
Definition write_entry (buffer : list Z) (upto length : Z) (bytes_slice : list Z) :
    result (list Z * Z) :=
  if length <? 128 then
    let? buffer := vset buffer upto (as_u8 length) in
    let? buffer := vcopy buffer (upto + 1) bytes_slice in
    Ok (buffer, length + 1)
  else
    let? buffer := set_i16_be buffer upto (as_i16 (Z.lor length 32768)) in
    let? buffer := vcopy buffer (upto + 2) bytes_slice in
    Ok (buffer, length + 2).

Definition add_bytes_ref (bytes : BytesRef.t) : ST ByteBlockPool.t Z :=
  let length := BytesRef.length_ bytes in
  let* len2 := slift (exact_i32 (2 + as_i32 length)) in
  let* pool := sget in
  let* sum := slift (exact_i32 (len2 + byte_upto pool)) in
  let* _ := (if BYTE_BLOCK_SIZE <? sum then
               if BYTE_BLOCK_SIZE <? len2 then slift (Err MaxBytesLengthExceeded)
               else let* _ := next_buffer in sret tt
             else sret tt) in
  let* pool := sget in
  let* text_start := slift (exact_i32 (byte_upto pool + byte_offset pool)) in
  let* index := slift (upto_or_error pool) in
  let* buffer := slift (vget (buffers pool) index) in
  let* bytes_slice := slift (BytesRef.as_byte_slice bytes) in
  let* (buffer, new_length) := slift (write_entry buffer (byte_upto pool) length bytes_slice) in
  let* bs := slift (vset (buffers pool) index buffer) in
  let* _ := sput (with_byte_upto (with_buffers pool bs) (byte_upto pool + new_length)) in
  sret text_start.

Definition hash (seed start : Z) (pool : ByteBlockPool.t) : result Z :=
  let offset := Z.land start BYTE_BLOCK_MASK in
  let? bytes := vget (buffers pool) (Z.shiftr start BYTE_BLOCK_SHIFT) in
  let? (len, pos) := read_length bytes offset in
  StringHelper.do_hash seed bytes pos len.

Definition equals (start : Z) (b : BytesRef.t) (pool : ByteBlockPool.t) : result bool :=
  let pos := Z.land start BYTE_BLOCK_MASK in
  let? bytes := vget (buffers pool) (Z.shiftr start BYTE_BLOCK_SHIFT) in
  let? (length, offset) := read_length bytes pos in
  let? stored := vslice bytes offset (offset + length) in
  let? slice := BytesRef.as_byte_slice b in
  Ok (bool_decide (stored = slice)).
End BytesRefBlockPool.

(** * Where the terms start *)

(** The trait [BytesStartArray]; the counter it shares with the hash is not part of it. *)
Class BytesStartArray (A : Type) := {
  init : ST A unit;
  grow : ST A unit;
  clear_array : A -> A;
  get_value : A -> Z -> result Z;
  set_value : Z -> Z -> ST A unit;
  array_len : A -> result Z;
  need_init : A -> bool }.

(** What the hash relies on: a ready array holds values that survive the growth and
    the writes of others, and a cleared one can be made ready again. *)
Class StartArraySpec (A : Type) `{BytesStartArray A} := {
  ready : A -> list Z -> Prop;
  idle : A -> Prop;
  need_init_ready : forall a vs, ready a vs -> need_init a = false;
  need_init_idle : forall a, idle a -> need_init a = true;
  len_ready : forall a vs, ready a vs -> array_len a = Ok (Z.of_nat (length vs));
  get_ready : forall a vs (i : nat) v, ready a vs -> vs !! i = Some v -> get_value a (Z.of_nat i) = Ok v;
  set_ready : forall a vs (i : nat) v, ready a vs -> (i < length vs)%nat ->
    exists a', set_value (Z.of_nat i) v a = (Ok tt, a') /\ ready a' (<[i := v]> vs);
  grow_ready : forall a vs, ready a vs -> Z.of_nat (length vs) < 2 ^ 31 - 1 ->
    exists a' ext, grow a = (Ok tt, a') /\ ready a' (vs ++ ext) /\ ext <> [];
  clear_ready : forall a vs, ready a vs -> idle (clear_array a);
  init_idle : forall a, idle a -> exists a' vs, init a = (Ok tt, a') /\ ready a' vs }.

Module DirectBytesStartArray.
Record t := mk { init_size : Z; bytes_start : list Z; is_init : bool }.

Definition new (init_size : Z) : t := mk init_size [] false.

Definition init_ : ST t unit := fun s =>
  match ArrayUtil.oversize (init_size s) INT_BYTES with
  | Ok n => (Ok tt, mk (init_size s) (replicate (Z.to_nat n) 0) true)
  | Err e => (Err e, s)
  | Panic => (Panic, s)
  | OutOfFuel => (OutOfFuel, s)
  end.

Definition grow_ : ST t unit := fun s =>
  match (let? _ := debug_assert (is_init s) in
         ArrayUtil.grow_with INT_BYTES (bytes_start s) (Z.of_nat (length (bytes_start s)) + 1) 0) with
  | Ok v => (Ok tt, mk (init_size s) v (is_init s))
  | Err e => (Err e, s)
  | Panic => (Panic, s)
  | OutOfFuel => (OutOfFuel, s)
  end.

Definition clear_ (s : t) : t := mk (init_size s) [] false.

Definition get_value_ (s : t) (index : Z) : result Z :=
  match vget (bytes_start s) index with Ok v => Ok v | _ => Err IllegalArgument end.

Definition set_value_ (index value : Z) : ST t unit := fun s =>
  match vset (bytes_start s) index value with
  | Ok v => (Ok tt, mk (init_size s) v (is_init s))
  | _ => (Err IllegalArgument, s)
  end.

#[global] Instance direct_array : BytesStartArray t := {
  init := init_;
  grow := grow_;
  clear_array := clear_;
  get_value := get_value_;
  set_value := set_value_;
  array_len s := Ok (Z.of_nat (length (bytes_start s)));
  need_init s := negb (is_init s) }.

#[global, refine] Instance direct_array_spec : StartArraySpec t := {
  ready s vs := is_init s = true /\ bytes_start s = vs /\ 0 <= init_size s <= 2 ^ 20;
  idle s := is_init s = false /\ 0 <= init_size s <= 2 ^ 20 }.
Proof.
  - intros a vs (Hi & _). cbn. by rewrite Hi.
  - intros a (Hi & _). cbn. by rewrite Hi.
  - intros a vs (_ & <- & _). done.
  - intros a vs i v (_ & <- & _) Hv. cbn. unfold get_value_.
    by rewrite (proj2 (vget_ok _ (Z.of_nat i) v ltac:(lia))) by by rewrite Nat2Z.id.
  - intros a vs i v (Hi & <- & Hs) Hv. cbn. unfold set_value_. rewrite vset_ok by lia.
    eexists. split; [done|]. by rewrite Nat2Z.id.
  - intros a vs (Hi & <- & Hs) Hl. cbn. unfold grow_, ArrayUtil.grow_with, ArrayUtil.grow_capacity, ArrayUtil.oversize.
    rewrite Hi. cbn [debug_assert rbind]. rewrite (proj2 (Z.ltb_lt _ _)) by lia.
    rewrite (proj2 (Z.eqb_neq _ _)) by lia.
    replace (ArrayUtil.max_array_length INT_BYTES) with 2147483647 by done.
    rewrite (proj2 (Z.ltb_ge _ _)) by lia. cbn [rbind]. eexists _, _. split; [done|]. cbn.
    split; [done|]. rewrite Z.add_simpl_l. done.
  - intros a vs (_ & _ & Hs). done.
  - intros a (Hi & Hs). cbn. unfold init_, ArrayUtil.oversize.
    replace (ArrayUtil.max_array_length INT_BYTES) with 2147483647 by done.
    destruct (init_size a =? 0); [|rewrite (proj2 (Z.ltb_ge _ _)) by lia]; eexists _, _; split; done.
Defined.
End DirectBytesStartArray.

(** * The hash *)

Module BytesRefHash.
Import BytesRefBlockPool.

Section Hash.
Context {A : Type} `{BytesStartArray A}.
(** [GOOD_FAST_HASH_SEED]: set once per process. *)
Context (seed : Z).

(** [bytes_used] is the value of the shared counter. *)
Record t := mk {
  hash_size : Z;
  hash_half_size : Z;
  hash_mask : Z;
  count : Z;
  last_count : option Z;
  ids : list Z;
  bytes_start_array : A;
  bytes_used : Z }.

(** [size_of_vec(&ids)]: a fresh vector of [i32]s has no spare capacity. *)
Definition size_of_ids (v : list Z) : Z := 4 * Z.of_nat (length v).

Definition from_bytes_start_array (capacity counter : Z) (a : A) : result t :=
  match init a with
  | (Ok _, a) =>
      let ids := replicate (Z.to_nat capacity) (-1) in
      if capacity =? 0 then Panic
      else Ok (mk capacity (Z.shiftr capacity 1) (capacity - 1) 0 None ids a
                 (as_i64 (counter + size_of_ids ids)))
  | (Err e, _) => Err e
  | (Panic, _) => Panic
  | (OutOfFuel, _) => OutOfFuel
  end.

Definition size (h : t) : Z := count h.

Definition get (h : t) (bytes_id : Z) (pool : ByteBlockPool.t) : result BytesRefBlockPoolPosition :=
  let? _ := debug_assert (negb (need_init (bytes_start_array h))) in
  let? bytes_start_len := array_len (bytes_start_array h) in
  let bytes_id := as_u64 bytes_id in
  let? _ := debug_assert (bytes_id <? bytes_start_len) in
  let? value := get_value (bytes_start_array h) bytes_id in
  fill_bytes_ref value pool.

(** Linear probing, shared by the lookups and by [rehash]: from [code] on, the first
    position of [table] whose entry satisfies [stop]. The table is never larger than
    [2^32], so [2^33] turns are enough. *)
Definition probe (table : list Z) (mask : Z) (stop : Z -> result bool) (code : Z) : result Z :=
  fst (loop 33 (fun code => slift (
    let hash_pos := Z.land (as_u64 code) mask in
    let? e := vget table hash_pos in
    let? b := stop e in
    Ok (if b then inr hash_pos else inl (as_i32 (code + 1))))) code tt).

Definition find_hash (h : t) (bytes : BytesRef.t) (pool : ByteBlockPool.t) : result Z :=
  let? _ := debug_assert (negb (need_init (bytes_start_array h))) in
  let? bytes_slice := BytesRef.as_byte_slice bytes in
  let? code := StringHelper.do_hash seed bytes_slice 0 (Z.of_nat (length bytes_slice)) in
  probe (ids h) (hash_mask h) (fun e =>
    if e =? -1 then Ok true
    else let? start := get_value (bytes_start_array h) (as_u64 e) in equals start bytes pool) code.

Definition find (h : t) (bytes : BytesRef.t) (pool : ByteBlockPool.t) : result Z :=
  let? hash_pos := find_hash h bytes pool in
  vget (ids h) hash_pos.

Definition with_array (h : t) (a : A) : t :=
  mk (hash_size h) (hash_half_size h) (hash_mask h) (count h) (last_count h) (ids h) a (bytes_used h).
Definition with_ids (h : t) (v : list Z) : t :=
  mk (hash_size h) (hash_half_size h) (hash_mask h) (count h) (last_count h) v (bytes_start_array h) (bytes_used h).
Definition with_count (h : t) (n : Z) : t :=
  mk (hash_size h) (hash_half_size h) (hash_mask h) n (last_count h) (ids h) (bytes_start_array h) (bytes_used h).

(** The hash and the pool it writes to. *)
Abbreviation state := (t * ByteBlockPool.t)%type.

Definition on_array {B} (m : ST A B) : ST state B := fun s =>
  let '(r, a) := m (bytes_start_array s.1) in (r, (with_array s.1 a, s.2)).
Definition on_pool {B} (m : ST ByteBlockPool.t B) : ST state B := fun s =>
  let '(r, p) := m s.2 in (r, (s.1, p)).
Definition modify (f : t -> t) : ST state unit := fun s => (Ok tt, (f s.1, s.2)).

(** One entry of the old table is placed in the new one. *)
Definition place (hash_on_data : bool) (a : A) (pool : ByteBlockPool.t) (new_mask : Z)
    (new_hash : list Z) (e0 : Z) : result (list Z) :=
  if e0 =? -1 then Ok new_hash
  else
    let? value := get_value a (as_u64 e0) in
    let? code := (if hash_on_data then hash seed value pool else Ok value) in
    let? hash_pos := probe new_hash new_mask (fun e => Ok (e =? -1)) code in
    vset new_hash hash_pos e0.

Fixpoint rehash_loop (hash_on_data : bool) (a : A) (pool : ByteBlockPool.t) (new_mask : Z)
    (old : list Z) (n : nat) (i : Z) (new_hash : list Z) : result (list Z) :=
  match n with
  | O => Ok new_hash
  | S n =>
      let? e0 := vget old i in
      let? new_hash := place hash_on_data a pool new_mask new_hash e0 in
      rehash_loop hash_on_data a pool new_mask old n (i + 1) new_hash
  end.

Definition rehash (new_size : Z) (hash_on_data : bool) : ST state unit :=
  let* (h, pool) := sget in
  let new_mask := new_size - 1 in
  let old_size := size_of_ids (ids h) in
  let* new_hash := slift (rehash_loop hash_on_data (bytes_start_array h) pool new_mask (ids h)
                            (Z.to_nat (hash_size h)) 0 (replicate (Z.to_nat new_size) (-1))) in
  sput (mk new_size (new_size / 2) new_mask (count h) (last_count h) new_hash (bytes_start_array h)
          (as_i64 (bytes_used h + (size_of_ids new_hash - old_size))), pool).

(** Room for one more start, before an insertion at [index]. *)
Definition ensure_start (index : Z) : ST state unit :=
  let* (h, _) := sget in
  let* length := slift (array_len (bytes_start_array h)) in
  if length <=? index then
    let* _ := on_array grow in
    let* (h, _) := sget in
    let* grown_length := slift (array_len (bytes_start_array h)) in
    slift (debug_assert (index <? grown_length + 1))
  else sret tt.

(** The entry is entered in the table; a table that is half full doubles. *)
Definition occupy (hash_pos e : Z) (hash_on_data : bool) : ST state unit :=
  let* (h, _) := sget in
  let* old := slift (vget (ids h) hash_pos) in
  let* _ := slift (debug_assert (old =? -1)) in
  let* v := slift (vset (ids h) hash_pos e) in
  let* _ := modify (fun h => with_ids h v) in
  let* (h, _) := sget in
  if count h =? hash_half_size h then rehash (2 * hash_size h) hash_on_data else sret tt.

Definition add (bytes : BytesRef.t) : ST state Z :=
  let* (h, pool) := sget in
  let* _ := slift (debug_assert (negb (need_init (bytes_start_array h)))) in
  let* hash_pos := slift (find_hash h bytes pool) in
  let* e := slift (vget (ids h) hash_pos) in
  if e =? -1 then
    let index := count h in
    let* _ := ensure_start index in
    let* v := on_pool (add_bytes_ref bytes) in
    let* _ := on_array (set_value index v) in
    let e := as_i32 index in
    let* _ := modify (fun h => with_count h (count h + 1)) in
    let* _ := occupy hash_pos e true in
    sret e
  else sret (- (e + 1)).

Definition add_by_pool_offset (offset : Z) : ST state Z :=
  let* (h, _) := sget in
  let* _ := slift (debug_assert (negb (need_init (bytes_start_array h)))) in
  let* hash_pos := slift (probe (ids h) (hash_mask h) (fun e =>
    if e =? -1 then Ok true
    else let? v := get_value (bytes_start_array h) (as_u64 e) in Ok (v =? offset)) offset) in
  let* e := slift (vget (ids h) hash_pos) in
  if e =? -1 then
    let index := count h in
    let* _ := ensure_start index in
    let e := as_i32 index in
    let* _ := modify (fun h => with_count h (count h + 1)) in
    let* _ := on_array (set_value index offset) in
    let* _ := occupy hash_pos e false in
    sret e
  else sret (- (e + 1)).

(** ** Compaction, clearing *)

(** The loop of [compact] over the positions [i ..]. *)
Fixpoint compact_loop (n : nat) (i upto : Z) (v : list Z) : result (Z * list Z) :=
  match n with
  | O => Ok (upto, v)
  | S n =>
      let? e := vget v i in
      if negb (e =? -1) then
        let? v := (if upto <? i then
                     let? v := vset v upto e in
                     vset v i (-1)
                   else Ok v) in
        compact_loop n (i + 1) (upto + 1) v
      else compact_loop n (i + 1) upto v
  end.

Definition compact (h : t) : result t :=
  let? _ := debug_assert (negb (need_init (bytes_start_array h))) in
  let? (upto, v) := compact_loop (Z.to_nat (hash_size h)) 0 0 (ids h) in
  let? _ := debug_assert (upto =? count h) in
  Ok (mk (hash_size h) (hash_half_size h) (hash_mask h) (count h) (Some (count h)) v
        (bytes_start_array h) (bytes_used h)).

Fixpoint shrunk_size (fuel : nat) (new_size target_size : Z) : Z :=
  match fuel with
  | O => new_size
  | S fuel =>
      if (8 <=? new_size) && (target_size <? new_size / 4) then shrunk_size fuel (new_size / 2) target_size
      else new_size
  end.

(** Halving a 64-bit size ends within 64 turns. *)
Definition shrink (target_size : Z) (h : t) : bool * t :=
  let new_size := shrunk_size 64 (hash_size h) target_size in
  if negb (new_size =? hash_size h) then
    let old_size := size_of_ids (ids h) in
    let v := replicate (Z.to_nat new_size) (-1) in
    (true, mk new_size (new_size / 2) (new_size - 1) (count h) (last_count h) v (bytes_start_array h)
             (as_i64 (bytes_used h + (size_of_ids v - old_size))))
  else (false, h).

Definition clear_with_reset_pool (reset_pool : bool) : ST state unit :=
  let* _ := modify (fun h => mk (hash_size h) (hash_half_size h) (hash_mask h) 0 (Some (count h))
                               (ids h) (bytes_start_array h) (bytes_used h)) in
  let* _ := (if reset_pool then on_pool (ByteBlockPool.reset false false) else sret tt) in
  let* _ := modify (fun h => with_array h (clear_array (bytes_start_array h))) in
  let* (h, pool) := sget in
  let '(shrunk, h) := match last_count h with Some n => shrink n h | None => (false, h) end in
  if shrunk then sput (h, pool)
  else sput (with_ids h (replicate (length (ids h)) (-1)), pool).

Definition clear : ST state unit := clear_with_reset_pool true.

Definition close : ST state unit :=
  let* _ := clear_with_reset_pool true in
  modify (fun h => mk (hash_size h) (hash_half_size h) (hash_mask h) (count h) (last_count h) []
                     (bytes_start_array h) (as_i64 (bytes_used h + - size_of_ids (ids h)))).

Definition reinit : ST state unit :=
  let* (h, _) := sget in
  let* _ := (if need_init (bytes_start_array h) then on_array init else sret tt) in
  let* (h, _) := sget in
  match ids h with
  | [] =>
      let v := replicate (Z.to_nat (hash_size h)) (-1) in
      modify (fun h => mk (hash_size h) (hash_half_size h) (hash_mask h) (count h) (last_count h) v
                         (bytes_start_array h) (as_i64 (bytes_used h + size_of_ids v)))
  | _ :: _ => sret tt
  end.

Definition byte_start (h : t) (bytes_id : Z) : result Z :=
  let? _ := debug_assert (negb (need_init (bytes_start_array h))) in
  let? _ := debug_assert ((0 <=? bytes_id) && (as_u64 bytes_id <? count h)) in
  get_value (bytes_start_array h) (as_u64 bytes_id).
End Hash.
End BytesRefHash.
