(* ===== verification/BytesRefHashProofs.v ===== *)
(** Correctness of the dictionary of byte strings (model in BytesRefHash.v): terms read
    back from the pool, the open-addressing table, and the refinement of a list of
    distinct terms. *)

From Stdlib Require Import ZArith Lia Bool.
From stdpp Require Import base tactics numbers list sorting.
From S2P Require Import Prelude BitUtil ArrayUtil StringHelper ByteBlockPool BytesRefHash.
Import BitUtil.

Local Open Scope Z_scope.

(** * Terms stored in the pool *)

Module TermPool.
Import ByteBlockPool PoolFacts BytesRefBlockPool.

(** The entry of a term: its length in one or two bytes, then its bytes. *)
Definition enc (t : list Z) : list Z :=
  if Z.of_nat (length t) <? 128 then Z.of_nat (length t) :: t
  else to_be_bytes 2 (Z.lor (Z.of_nat (length t)) 32768) ++ t.

Definition prefix_size (t : list Z) : Z := if Z.of_nat (length t) <? 128 then 1 else 2.

Lemma enc_length t : Z.of_nat (length (enc t)) = prefix_size t + Z.of_nat (length t).
Proof.
  unfold enc, prefix_size. destruct (_ <? 128); cbn [length]; [lia|].
  rewrite length_app. unfold to_be_bytes. rewrite length_rev, to_le_bytes_length. lia.
Qed.

Lemma vslice_split {A} (l : list A) i j s : vslice l i j = Ok s ->
  exists pre post, l = pre ++ s ++ post /\ Z.of_nat (length pre) = i /\ j = i + Z.of_nat (length s).
Proof.
  unfold vslice. destruct (_ && _) eqn:E; [|done]. intros [= <-].
  exists (take (Z.to_nat i) l), (drop (Z.to_nat (j - i)) (drop (Z.to_nat i) l)).
  rewrite !take_drop. rewrite !length_take, length_drop. split_and!; [done|lia|lia].
Qed.

Lemma vslice_at {A} (pre s post : list A) i j :
  i = Z.of_nat (length pre) -> j = i + Z.of_nat (length s) -> vslice (pre ++ s ++ post) i j = Ok s.
Proof.
  intros -> ->. rewrite vslice_ok by (rewrite ?length_app; lia).
  rewrite drop_app_length' by lia. rewrite take_app_length' by lia. done.
Qed.

Lemma short_length_bit n : 0 <= n < 128 -> Z.land n 128 = 0.
Proof.
  intros Hn. change 128 with (2 ^ 7). apply Z.bits_inj'. intros i Hi. rewrite Z.land_spec, Z.bits_0.
  rewrite Z.pow2_bits_eqb by lia. destruct (Z.eqb_spec 7 i) as [<-|]; [|apply andb_false_r].
  rewrite (in_u_testbit 7); [done|unfold in_u; lia|lia].
Qed.

Lemma long_length_bit n : Z.land (as_u8 (Z.shiftr (Z.lor n 32768) 8)) 128 <> 0.
Proof.
  intros E. assert (Z.testbit (Z.land (as_u8 (Z.shiftr (Z.lor n 32768) 8)) 128) 7 = true) as Ht.
  { change 128 with (2 ^ 7). change 32768 with (2 ^ 15).
    rewrite Z.land_spec, wrap_u_testbit, Z.shiftr_spec, Z.lor_spec, !Z.pow2_bits_eqb by lia.
    change (15 =? 7 + 8) with true. by rewrite orb_true_r. }
  by rewrite E, Z.bits_0 in Ht.
Qed.

Lemma long_length_value n : 0 <= n < 32768 -> as_u64 (Z.land (as_i16 (Z.lor n 32768)) 32767) = n.
Proof.
  intros Hn. assert (Z.land (as_i16 (Z.lor n 32768)) 32767 = n) as ->.
  { change 32767 with (Z.ones 15). change 32768 with (2 ^ 15). apply Z.bits_inj'. intros i Hi.
    rewrite Z.land_spec. destruct (decide (i < 15)).
    - rewrite Z.ones_spec_low, andb_true_r, wrap_s_testbit, Z.lor_spec, Z.pow2_bits_eqb by lia.
      rewrite Z.min_l by lia. replace (15 =? i) with false by lia. by rewrite orb_false_r.
    - rewrite Z.ones_spec_high, andb_false_r by lia. symmetry. apply (in_u_testbit 15); [unfold in_u; lia|lia]. }
  apply wrap_u_id. unfold in_u. lia.
Qed.

Lemma read_length_enc pre t post : Z.of_nat (length t) < 32768 ->
  read_length (pre ++ enc t ++ post) (Z.of_nat (length pre))
  = Ok (Z.of_nat (length t), Z.of_nat (length pre) + prefix_size t).
Proof.
  intros Ht. unfold read_length, enc, prefix_size. destruct (Z.ltb_spec (Z.of_nat (length t)) 128) as [H|H].
  - rewrite <- app_comm_cons, vget_middle by done. cbn [rbind]. by rewrite short_length_bit by lia.
  - set (v := Z.lor (Z.of_nat (length t)) 32768). unfold to_be_bytes.
    rewrite <- app_assoc. unfold get_i16_be, get_be.
    rewrite vslice_at by (rewrite ?length_rev, ?to_le_bytes_length; done). cbn [rbind].
    unfold from_be_bytes. rewrite rev_involutive, from_to_le_bytes by lia.
    change (rev (to_le_bytes 2 v)) with [as_u8 (Z.shiftr v 8); as_u8 v]. cbn [app].
    rewrite vget_middle by done. cbn [rbind]. rewrite (proj2 (Z.eqb_neq _ _)) by apply long_length_bit.
    cbn [rbind]. change (8 * Z.of_nat 2) with 16. unfold v. by rewrite long_length_value by lia.
Qed.

(** Writing an entry is copying its encoding. *)
Lemma write_entry_ok b o t : 0 <= o -> o + Z.of_nat (length (enc t)) <= Z.of_nat (length b) ->
  Z.of_nat (length t) < 32768 ->
  exists b', vcopy b o (enc t) = Ok b' /\
    write_entry b o (Z.of_nat (length t)) t = Ok (b', Z.of_nat (length (enc t))).
Proof.
  intros Ho Hl Ht. exists (take (Z.to_nat o) b ++ enc t ++ drop (Z.to_nat o + length (enc t)) b).
  assert (Hv : vcopy b o (enc t) = Ok (take (Z.to_nat o) b ++ enc t ++ drop (Z.to_nat o + length (enc t)) b))
    by (apply vcopy_def; lia).
  split; [done|]. revert Hv. pose proof (enc_length t) as He. unfold write_entry, enc, prefix_size in *.
  destruct (Z.ltb_spec (Z.of_nat (length t)) 128) as [H|H]; intros Hv.
  - rewrite wrap_u_id by (unfold in_u; lia).
    assert (Hone : vcopy b o [Z.of_nat (length t)] = vset b o (Z.of_nat (length t))).
    { rewrite vcopy_def, vset_ok by (cbn [length] in *; lia). f_equal. symmetry.
      rewrite insert_take_drop by lia. cbn [length app]. do 3 f_equal. lia. }
    destruct (vset b o (Z.of_nat (length t))) as [b1| | |] eqn:E1; try (rewrite vset_ok in E1 by lia; done).
    cbn [rbind]. change (o + 1) with (o + Z.of_nat (length [Z.of_nat (length t)])).
    rewrite (vcopy_vcopy b b1 o [Z.of_nat (length t)] t Hone) by (cbn [length] in *; lia).
    cbn [app]. rewrite Hv. cbn [rbind length]. do 2 f_equal. lia.
  - set (v := Z.lor (Z.of_nat (length t)) 32768) in *.
    assert (Hset : set_i16_be b o (as_i16 v) = vcopy b o (to_be_bytes 2 v)).
    { unfold set_i16_be, set_i16_be_with_len, set_be_with_len. cbn [SHORT_BYTES Z.leb andb].
      change (Z.to_nat SHORT_BYTES) with 2%nat. unfold to_be_bytes.
      replace (to_le_bytes 2 (as_i16 v)) with (to_le_bytes 2 v)
        by (symmetry; apply (to_le_bytes_wrap_s 2); lia).
      done. }
    rewrite Hset. assert (Hl2 : length (to_be_bytes 2 v) = 2%nat) by done.
    destruct (vcopy b o (to_be_bytes 2 v)) as [b1| | |] eqn:E1;
      try (rewrite vcopy_def in E1 by (rewrite ?Hl2; lia); done).
    cbn [rbind]. replace (o + 2) with (o + Z.of_nat (length (to_be_bytes 2 v))) by (rewrite Hl2; lia).
    rewrite (vcopy_vcopy b b1 o _ t E1) by (rewrite Hl2; lia). rewrite Hv. cbn [rbind].
    do 2 f_equal. rewrite length_app, Hl2. lia.
Qed.

(** ** A term at its start *)

Definition stored (p : ByteBlockPool.t) (start : Z) (t : list Z) : Prop :=
  0 <= start /\ Z.of_nat (length t) <= BYTE_BLOCK_SIZE - 2 /\
  start mod BYTE_BLOCK_SIZE + Z.of_nat (length (enc t)) <= BYTE_BLOCK_SIZE /\
  take (length (enc t)) (drop (Z.to_nat start) (content p)) = enc t.

Lemma enc_positive t : (1 <= length (enc t))%nat.
Proof. pose proof (enc_length t). unfold prefix_size in *. destruct (_ <? _); lia. Qed.

Lemma stored_end p start t : stored p start t ->
  start + Z.of_nat (length (enc t)) <= Z.of_nat (length (content p)).
Proof.
  intros (Hs & _ & _ & He). pose proof (enc_positive t).
  assert (Hl : length (take (length (enc t)) (drop (Z.to_nat start) (content p))) = length (enc t)) by by rewrite He.
  rewrite length_take, length_drop in Hl. lia.
Qed.

Lemma stored_mono p p' start t :
  content p `prefix_of` content p' -> stored p start t -> stored p' start t.
Proof.
  intros [ext Hx] H. pose proof (stored_end p start t H). destruct H as (Hs & Ht & Hb & He).
  split_and!; try done. rewrite Hx, drop_app_le, take_app_le by (rewrite ?length_drop; lia). done.
Qed.

Lemma content_memory p : content p `prefix_of` memory p.
Proof. apply prefix_take. Qed.

(** The block a stored term lies in. *)
Lemma stored_block p start t : WF p -> stored p start t ->
  exists pre post, vget (buffers p) (Z.shiftr start BYTE_BLOCK_SHIFT) = Ok (pre ++ enc t ++ post) /\
    Z.land start BYTE_BLOCK_MASK = Z.of_nat (length pre) /\ Forall (in_u 8) (pre ++ enc t ++ post) /\
    0 <= start <= i32_MAX.
Proof.
  intros H Hst. pose proof (stored_end p start t Hst). destruct Hst as (Hs & Ht & Hb & He).
  pose proof block_size_val as HB. pose proof (enc_positive t).
  pose proof (blocks_length _ (wf_blocks _ H)) as Hml. fold (memory p) in Hml.
  assert (Hc : (length (content p) <= length (memory p))%nat) by (apply prefix_length, content_memory).
  assert (Z.of_nat (length (buffers p)) <= 65536).
  { destruct H as [_ _ Hsh]. destruct (buffer_upto p); [lia|]. destruct Hsh as [-> _]. cbn. lia. }
  destruct (offset_parts start Hs) as (Hi & Hp & Hr & Hm & Hsum); [unfold i32_MAX; nia|].
  unfold try_i32 in Hi. destruct (decide _); [|done]. injection Hi as Hi. rewrite Hi, Hp.
  destruct (block_slice (buffers p) (start / BYTE_BLOCK_SIZE) (start mod BYTE_BLOCK_SIZE)
    (Z.of_nat (length (enc t))) (wf_blocks _ H)) as (b & Hb' & Hsl); [nia|lia..|].
  rewrite Hsum, Nat2Z.id in Hsl. fold (memory p) in Hsl.
  assert (take (length (enc t)) (drop (Z.to_nat start) (memory p)) = enc t) as E.
  { destruct (content_memory p) as [ext Hx]. rewrite Hx, drop_app_le, take_app_le by (rewrite ?length_drop; lia).
    done. }
  rewrite E in Hsl. destruct (vslice_split _ _ _ _ Hsl) as (pre & post & -> & Hpre & _).
  exists pre, post. split_and!; try done; [|unfold i32_MAX; nia].
  unfold vget in Hb'. destruct (_ <? 0); [done|]. case_match eqn:Hl; [|done]. injection Hb' as ->.
  by pose proof (Forall_lookup_1 _ _ _ _ (wf_blocks _ H) Hl) as [_ ?].
Qed.

Lemma enc_split t : exists hdr, enc t = hdr ++ t /\ Z.of_nat (length hdr) = prefix_size t.
Proof.
  unfold enc, prefix_size. destruct (_ <? 128); [by exists [Z.of_nat (length t)]|by eexists].
Qed.

Lemma vslice_term pre t post : vslice (pre ++ enc t ++ post) (Z.of_nat (length pre) + prefix_size t)
  (Z.of_nat (length pre) + prefix_size t + Z.of_nat (length t)) = Ok t.
Proof.
  destruct (enc_split t) as (hdr & -> & <-). rewrite <- app_assoc, (app_assoc pre).
  apply vslice_at; rewrite ?length_app; lia.
Qed.

Lemma fill_bytes_ref_ok p start t : WF p -> stored p start t ->
  exists pos block, fill_bytes_ref start p = Ok pos /\ vget (buffers p) (block_index pos) = Ok block /\
    pos_length pos = Z.of_nat (length t) /\
    vslice block (pos_offset pos) (pos_offset pos + pos_length pos) = Ok t.
Proof.
  intros H Hst. pose proof block_size_val. destruct (stored_block p start t H Hst) as (pre & post & Hv & Hp & _).
  destruct Hst as (_ & Ht & _). unfold fill_bytes_ref. rewrite Hv. cbn [rbind]. rewrite Hp.
  rewrite read_length_enc by lia. cbn [rbind]. eexists _, _. split_and!; [done|exact Hv|done|].
  apply vslice_term.
Qed.

Lemma equals_ok p start t b : WF p -> stored p start t -> BytesRef.valid b ->
  equals start b p = Ok (bool_decide (t = BytesRef.contents b)).
Proof.
  intros H Hst Hb. pose proof block_size_val. destruct (stored_block p start t H Hst) as (pre & post & Hv & Hp & _).
  destruct Hst as (_ & Ht & _). unfold equals. rewrite Hv. cbn [rbind]. rewrite Hp.
  rewrite read_length_enc by lia. cbn [rbind]. rewrite vslice_term. cbn [rbind].
  by rewrite BytesRef.as_byte_slice_ok.
Qed.

Lemma hash_ok seed p start t : WF p -> stored p start t ->
  hash seed start p = StringHelper.do_hash seed t 0 (Z.of_nat (length t)) /\
  exists h, hash seed start p = Ok h /\ in_s 32 h.
Proof.
  intros H Hst. pose proof block_size_val. destruct (stored_block p start t H Hst) as (pre & post & Hv & Hp & Hu & _).
  destruct Hst as (_ & Ht & _). unfold hash. rewrite Hv. cbn [rbind]. rewrite Hp.
  rewrite read_length_enc by lia. cbn [rbind].
  pose proof (vslice_term pre t post) as Hsl. unfold vslice in Hsl. destruct (_ && _) eqn:E; [|done].
  injection Hsl as Hsl. rewrite Z.add_simpl_l in Hsl.
  destruct (StringHelper.do_hash_inner seed (pre ++ enc t ++ post) (Z.of_nat (length pre) + prefix_size t)
    (Z.of_nat (length t))) as [Hd Hh]; [unfold prefix_size; destruct (_ <? _); lia|unfold i32_MAX; lia|lia|done|].
  rewrite Hsl in Hd. done.
Qed.

(** ** Adding a term *)

Lemma exact_i32_ok x : in_s 32 x -> exact_i32 x = Ok x.
Proof. intros. unfold exact_i32. by rewrite decide_True. Qed.

(** The entry goes into the current block of the pool. *)
Lemma add_here p u b : WF p -> buffer_upto p = Some u -> BytesRef.valid b ->
  Forall (in_u 8) (BytesRef.contents b) -> Z.of_nat (length (BytesRef.contents b)) <= BYTE_BLOCK_SIZE - 2 ->
  byte_upto p + Z.of_nat (length (enc (BytesRef.contents b))) <= BYTE_BLOCK_SIZE ->
  exists buf b' p', vget (buffers p) u = Ok buf /\
    write_entry buf (byte_upto p) (BytesRef.length_ b) (BytesRef.contents b)
      = Ok (b', Z.of_nat (length (enc (BytesRef.contents b)))) /\
    vset (buffers p) u b' = Ok (buffers p') /\
    p' = with_byte_upto (with_buffers p (buffers p')) (byte_upto p + Z.of_nat (length (enc (BytesRef.contents b)))) /\
    WF p' /\ content p' = content p ++ enc (BytesRef.contents b) /\ owed p' = owed p.
Proof.
  intros H Hu Hb Hby Ht Hfit. set (t := BytesRef.contents b) in *. pose proof block_size_val as HB.
  rewrite <- (BytesRef.contents_length b Hb). fold t.
  destruct (wf_current p u H Hu) as (init & last & Hbuf & Hi & _ & [Hfl _] & _).
  pose proof (wf_shape p H) as Hs. rewrite Hu in Hs.
  assert (Henc : Forall (in_u 8) (enc t)).
  { unfold enc. destruct (Z.ltb_spec (Z.of_nat (length t)) 128).
    - apply Forall_cons_2; [unfold in_u; lia|done].
    - apply Forall_app. split; [|done]. apply Forall_rev, to_le_bytes_in_u. }
  destruct (copy_into_ok p u (enc t) H Hu) as (bs & Hc & Hlb & Hfb & Htk); [lia|done|].
  destruct (put_ok p u bs (enc t) H Hu) as (Hw & Hcon & Ho); [lia|done..|].
  destruct (write_entry_ok last (byte_upto p) t) as (l' & Hv & Hwe); [lia..|].
  exists last, l', (put p bs (Z.of_nat (length (enc t)))).
  assert (vset (buffers p) u l' = Ok bs).
  { unfold copy_into in Hc. rewrite Hbuf, vget_middle in Hc by lia. cbn [rbind] in Hc. rewrite Hv in Hc.
    cbn [rbind] in Hc. rewrite Hbuf. destruct (vset _ u l'); [|done..].
    injection Hc as Hc. f_equal. done. }
  split_and!; try done. by rewrite Hbuf, vget_middle by lia.
Qed.

Lemma add_bytes_ref_ok p b :
  WF p -> BytesRef.valid b -> Forall (in_u 8) (BytesRef.contents b) ->
  Z.of_nat (length (BytesRef.contents b)) <= BYTE_BLOCK_SIZE - 2 ->
  let t := BytesRef.contents b in
  if decide (BYTE_BLOCK_SIZE < 2 + Z.of_nat (length t) + byte_upto p /\ i32_MAX < byte_offset p + BYTE_BLOCK_SIZE)
  then exists p', add_bytes_ref b p = (Err NumberOverflow, p')
  else exists start p', add_bytes_ref b p = (Ok start, p') /\ WF p' /\ stored p' start t /\
    content p `prefix_of` content p' /\ owed p' = owed p /\
    position p + Z.of_nat (length (enc t)) <= position p'.
Proof.
  intros H Hb Hby Ht. cbv zeta. set (t := BytesRef.contents b) in *.
  pose proof (BytesRef.contents_length b Hb) as Hlen. fold t in Hlen. pose proof block_size_val as HB.
  pose proof (wf_shape p H) as Hs. pose proof (enc_length t) as He.
  assert (1 <= prefix_size t <= 2) by (unfold prefix_size; destruct (_ <? _); lia).
  unfold add_bytes_ref. rewrite <- Hlen. rewrite slift_sbind.
  rewrite wrap_s_id, exact_i32_ok by (unfold in_s; lia). cbn beta iota.
  rewrite sget_sbind, slift_sbind.
  assert (0 <= byte_upto p <= BYTE_BLOCK_SIZE) by (destruct (buffer_upto p); lia).
  rewrite exact_i32_ok by (unfold in_s; lia). cbn beta iota.
  rewrite (proj2 (Z.ltb_ge BYTE_BLOCK_SIZE (2 + Z.of_nat (length t)))) by lia.
  (* the term is written at the upto of a pool [q] with room *)
  assert (Hmain : forall q u, WF q -> buffer_upto q = Some u -> content p `prefix_of` content q -> owed q = owed p ->
    byte_upto q + Z.of_nat (length (enc t)) <= BYTE_BLOCK_SIZE -> exists start p', (let* pool := sget in
      let* text_start := slift (exact_i32 (byte_upto pool + byte_offset pool)) in
      let* index := slift (upto_or_error pool) in
      let* buffer := slift (vget (buffers pool) index) in
      let* bytes_slice := slift (BytesRef.as_byte_slice b) in
      let* (buffer, new_length) := slift (write_entry buffer (byte_upto pool) (Z.of_nat (length t)) bytes_slice) in
      let* bs := slift (vset (buffers pool) index buffer) in
      let* _ := sput (with_byte_upto (with_buffers pool bs) (byte_upto pool + new_length)) in
      sret text_start) q = (Ok start, p') /\ WF p' /\ stored p' start t /\
      content p `prefix_of` content p' /\ owed p' = owed p /\
      position p + Z.of_nat (length (enc t)) <= position p').
  { intros q u Hq Hu Hpre Ho Hfit. pose proof (wf_shape q Hq) as Hsq. rewrite Hu in Hsq.
    destruct (add_here q u b Hq Hu Hb Hby Ht Hfit) as (buf & b' & p' & Hbuf & Hwe & Hvs & Hp' & Hw & Hc & Hoq).
    fold t in Hwe, Hp', Hc. pose proof (enc_positive t).
    rewrite sget_sbind, slift_sbind.
    rewrite exact_i32_ok by (unfold in_s; nia). cbn beta iota.
    rewrite slift_sbind. unfold upto_or_error. rewrite Hu. cbn beta iota.
    rewrite slift_sbind, Hbuf. cbn beta iota. rewrite slift_sbind, BytesRef.as_byte_slice_ok by done. cbn beta iota. fold t.
    rewrite slift_sbind, Hlen, Hwe. cbn beta iota. rewrite slift_sbind, Hvs. cbn beta iota.
    rewrite sput_sbind. unfold sret. rewrite <- Hp'. eexists _, p'. split; [done|].
    pose proof (content_length q Hq) as Hcq. pose proof (content_length p' Hw) as Hcp'. pose proof (content_length p H) as Hcp.
    pose proof (prefix_length _ _ Hpre). rewrite Hc, length_app in Hcp'.
    split_and!; [done| |rewrite Hc; by apply prefix_app_r|congruence|lia].
    destruct Hsq as (? & ? & Hoff & ?). split_and!; [nia|done| |].
    - rewrite Hoff, Z.mod_add by lia. rewrite Z.mod_small by lia. lia.
    - rewrite Hc, drop_app_length' by (unfold position in Hcq; lia). apply firstn_all. }
  destruct (Z.ltb_spec BYTE_BLOCK_SIZE (2 + Z.of_nat (length t) + byte_upto p)) as [Hfull|Hroom]; cbn beta iota.
  - destruct (decide (byte_offset p + BYTE_BLOCK_SIZE <= i32_MAX)) as [Hok|Hno].
    + rewrite decide_False by lia. destruct (next_buffer_ok p H Hok) as (q & Hn & Hq & Hu & Hup & Hoff & Hc & Ho).
      assert (Hst : (let* _ := next_buffer in sret tt) p = (Ok tt, q)) by (by rewrite (sbind_ok _ _ _ _ _ Hn)).
      rewrite (sbind_ok _ _ _ _ _ Hst). eapply Hmain; try done; [rewrite Hc; apply content_memory|lia].
    + rewrite decide_True by lia. destruct (next_buffer_err p) as (q & Hn); [lia|]. exists q.
      unfold sbind. by rewrite Hn.
  - rewrite decide_False by lia. destruct (buffer_upto p) as [u|] eqn:Hu; [|lia].
    rewrite (sbind_ok (sret tt) _ p tt p eq_refl). by eapply Hmain; try done; lia.
Qed.

(** A term of more than [BYTE_BLOCK_SIZE - 2] bytes is refused. *)
Lemma add_bytes_ref_too_long p b :
  WF p -> BYTE_BLOCK_SIZE - 2 < BytesRef.length_ b < 2 ^ 30 ->
  add_bytes_ref b p = (Err MaxBytesLengthExceeded, p).
Proof.
  intros H Hl. pose proof block_size_val as HB. pose proof (wf_shape p H) as Hs.
  assert (0 <= byte_upto p <= BYTE_BLOCK_SIZE) by (destruct (buffer_upto p); lia).
  unfold add_bytes_ref. rewrite slift_sbind, wrap_s_id, exact_i32_ok by (unfold in_s; lia).
  cbn beta iota. rewrite sget_sbind, slift_sbind, exact_i32_ok by (unfold in_s; lia). cbn beta iota.
  rewrite !(proj2 (Z.ltb_lt _ _)) by lia. done.
Qed.

End TermPool.

(** * The open-addressing table *)

Module Table.
Import BytesRefHash.

(** The position [d] steps after the home of [c], in a table of [2^k] entries. *)
Definition slot_at (k c d : Z) : Z := (c + d) mod 2 ^ k.

Lemma slot_range k c d : 0 <= k -> 0 <= slot_at k c d < 2 ^ k.
Proof. intros. unfold slot_at. apply Z.mod_pos_bound. lia. Qed.

Lemma slot_of_code k code : 0 <= k <= 32 -> in_s 32 code -> Z.land (as_u64 code) (2 ^ k - 1) = code mod 2 ^ k.
Proof.
  intros Hk Hc. replace (2 ^ k - 1) with (Z.ones k) by (rewrite Z.ones_equiv; lia).
  rewrite Z.land_ones by lia. unfold wrap_u. symmetry. apply Znumtheory.Zmod_div_mod; [lia|lia|].
  exists (2 ^ (64 - k)). rewrite <- Z.pow_add_r by lia. f_equal. lia.
Qed.

Lemma next_code k code : 0 <= k <= 32 -> as_i32 (code + 1) mod 2 ^ k = (code + 1) mod 2 ^ k.
Proof.
  intros Hk. assert (Hd : (2 ^ k | 2 ^ 32)) by (exists (2 ^ (32 - k)); rewrite <- Z.pow_add_r by lia; f_equal; lia).
  rewrite (Znumtheory.Zmod_div_mod (2 ^ k) (2 ^ 32) (as_i32 (code + 1))) by (done || lia).
  rewrite (Znumtheory.Zmod_div_mod (2 ^ k) (2 ^ 32) (code + 1)) by (done || lia).
  by rewrite wrap_s_mod by lia.
Qed.

Section Probe.
Context (k : Z) (Hk : 0 <= k <= 32) (table : list Z) (Hlen : Z.of_nat (length table) = 2 ^ k).

Lemma slot_lookup c d : exists e, table !! Z.to_nat (slot_at k c d) = Some e /\ vget table (slot_at k c d) = Ok e.
Proof. pose proof (slot_range k c d ltac:(lia)). apply vget_in. lia. Qed.

(** Probing ends at the first entry that satisfies [stop], when there is one. *)
Lemma probe_ok (stop : Z -> result bool) (stopb : Z -> bool) c D :
  in_s 32 c -> (forall (i : nat) e, table !! i = Some e -> stop e = Ok (stopb e)) ->
  0 <= D < 2 ^ k -> (forall e, table !! Z.to_nat (slot_at k c D) = Some e -> stopb e = true) ->
  exists d e, 0 <= d <= D /\ probe table (2 ^ k - 1) stop c = Ok (slot_at k c d) /\
    table !! Z.to_nat (slot_at k c d) = Some e /\ stopb e = true /\
    forall d', 0 <= d' < d -> exists e', table !! Z.to_nat (slot_at k c d') = Some e' /\ stopb e' = false.
Proof.
  intros Hc Hstop HD Hend. unfold probe.
  pose (Inv := fun (code : Z) (_ : unit) => in_s 32 code /\ exists d, 0 <= d <= D /\ code mod 2 ^ k = slot_at k c d /\
    forall d', 0 <= d' < d -> exists e', table !! Z.to_nat (slot_at k c d') = Some e' /\ stopb e' = false).
  pose (Post := fun (pos : Z) (_ : unit) => exists d e, 0 <= d <= D /\ pos = slot_at k c d /\
    table !! Z.to_nat (slot_at k c d) = Some e /\ stopb e = true /\
    forall d', 0 <= d' < d -> exists e', table !! Z.to_nat (slot_at k c d') = Some e' /\ stopb e' = false).
  pose (measure := fun (code : Z) (_ : unit) => (c + D - code) mod 2 ^ k).
  assert (Hmeas : forall code d, code mod 2 ^ k = slot_at k c d -> 0 <= d <= D -> measure code tt = D - d).
  { intros code d E Hd. unfold measure, slot_at in *. rewrite Zminus_mod, E, <- Zminus_mod.
    replace (c + D - (c + d)) with (D - d) by lia. apply Z.mod_small. lia. }
  match goal with |- context [loop 33 ?st _ _] => pose (step := st) end. fold step.
  destruct (loop_ok step Inv Post measure) with (k := 33%nat) (x := c) (s := tt) as (pos & [] & Hl & d & e & Hd & -> & Hrest).
  - intros code [] (_ & d & Hd & E & _). rewrite (Hmeas code d E Hd). lia.
  - intros code [] (Hc' & d & Hd & E & Hbefore). unfold step, slift. rewrite slot_of_code, E by done.
    destruct (slot_lookup c d) as (e & Hl & ->). cbn [rbind]. rewrite (Hstop _ _ Hl). cbn [rbind].
    eexists _, tt. split; [done|]. destruct (stopb e) eqn:Es; [by exists d, e|].
    assert (d <> D) by (intros ->; specialize (Hend e Hl); congruence).
    assert (E1 : as_i32 (code + 1) mod 2 ^ k = slot_at k c (d + 1)).
    { rewrite next_code by done. rewrite Z.add_mod, E by lia. unfold slot_at.
      rewrite <- Z.add_mod by lia. f_equal. lia. }
    split.
    + split; [apply wrap_s_in; lia|]. exists (d + 1). split_and!; [lia|lia|done|].
      intros d' Hd'. destruct (decide (d' = d)) as [->|]; [by exists e|]. apply Hbefore. lia.
    + rewrite (Hmeas _ _ E1), (Hmeas _ _ E) by lia. lia.
  - split; [done|]. exists 0. split_and!; [lia|lia|unfold slot_at; f_equal; lia|lia].
  - rewrite (Hmeas c 0) by (try lia; unfold slot_at; f_equal; lia).
    assert (2 ^ k <= 2 ^ 32) by (apply Z.pow_le_mono_r; lia). lia.
  - exists d, e. split_and!; try done; try lia; [by rewrite Hl|..]; by apply Hrest.
Qed.
End Probe.

(** A table of [2^k] entries that holds exactly the ids [es]: on the way from the home
    of an id to its place no entry is empty. *)
Record Tab (k : Z) (ids : list Z) (code : Z -> Z) (es : list Z) : Prop := mkTab {
  tab_len : Z.of_nat (length ids) = 2 ^ k;
  tab_perm : filter (fun e => e <> -1) ids ≡ₚ es;
  tab_chain : forall e, e ∈ es -> exists d, 0 <= d < 2 ^ k /\
    ids !! Z.to_nat (slot_at k (code e) d) = Some e /\
    forall d', 0 <= d' < d -> exists e', ids !! Z.to_nat (slot_at k (code e) d') = Some e' /\ e' <> -1 }.

Lemma tab_member k ids code es e : Tab k ids code es -> e ∈ es <-> e ∈ ids /\ e <> -1.
Proof. intros [_ Hp _]. rewrite <- Hp, list_elem_of_filter. tauto. Qed.

Lemma tab_ext k ids code code' es : (forall e, e ∈ es -> code e = code' e) -> Tab k ids code es -> Tab k ids code' es.
Proof.
  intros Hc [Hl Hp Hch]. constructor; [done..|]. intros e He. rewrite <- Hc by done. by apply Hch.
Qed.

Lemma tab_perm_ext k ids code es es' : es ≡ₚ es' -> Tab k ids code es -> Tab k ids code es'.
Proof.
  intros Hpe [Hl Hp Hch]. constructor; [done|by rewrite Hp|]. intros e He. apply Hch. by rewrite Hpe.
Qed.

Lemma filter_none (n : nat) : filter (fun e : Z => e <> -1) (replicate n (-1)) = [].
Proof. induction n; [done|]. cbn [replicate]. by rewrite filter_cons_False by lia. Qed.

Lemma tab_empty k code : 0 <= k -> Tab k (replicate (Z.to_nat (2 ^ k)) (-1)) code [].
Proof.
  intros Hk. constructor.
  - rewrite length_replicate. lia.
  - by rewrite filter_none.
  - intros e He. by apply not_elem_of_nil in He.
Qed.

(** As long as the table is not full, every probe sequence meets an empty entry. *)
Lemma tab_room k ids code es c : 0 <= k -> Tab k ids code es -> Z.of_nat (length es) < 2 ^ k ->
  exists D, 0 <= D < 2 ^ k /\ ids !! Z.to_nat (slot_at k c D) = Some (-1).
Proof.
  intros Hk [Hl Hp _] Hes.
  assert (exists i : nat, ids !! i = Some (-1)) as [i Hi].
  { apply list_elem_of_lookup. destruct (decide (-1 ∈ ids)) as [|Hn]; [done|]. exfalso.
    assert (filter (fun e => e <> -1) ids = ids) as E.
    { clear -Hn. induction ids as [|x l IH]; [done|].
      rewrite not_elem_of_cons in Hn. rewrite filter_cons_True, IH by (intuition congruence). done. }
    rewrite E in Hp. apply Permutation_length in Hp. lia. }
  pose proof (lookup_lt_Some _ _ _ Hi). exists ((Z.of_nat i - c) mod 2 ^ k).
  split; [apply Z.mod_pos_bound; lia|].
  assert (slot_at k c ((Z.of_nat i - c) mod 2 ^ k) = Z.of_nat i) as ->; [|by rewrite Nat2Z.id].
  unfold slot_at. rewrite Zplus_mod_idemp_r. replace (c + (Z.of_nat i - c)) with (Z.of_nat i) by lia.
  apply Z.mod_small. lia.
Qed.

Lemma filter_insert_new (ids : list Z) i e : ids !! i = Some (-1) -> e <> -1 ->
  filter (fun e => e <> -1) (<[i := e]> ids) ≡ₚ e :: filter (fun e => e <> -1) ids.
Proof.
  intros Hi He. rewrite <- (take_drop_middle _ _ _ Hi) at 2. rewrite insert_take_drop by by apply lookup_lt_Some in Hi.
  rewrite !filter_app, !filter_cons_True, filter_cons_False by (done || lia).
  by rewrite Permutation_middle.
Qed.

(** Entering an id at the first empty place of its probe sequence. *)
Lemma tab_insert k ids code es e d : 0 <= k -> Tab k ids code es -> e <> -1 -> 0 <= d < 2 ^ k ->
  ids !! Z.to_nat (slot_at k (code e) d) = Some (-1) ->
  (forall d', 0 <= d' < d -> exists e', ids !! Z.to_nat (slot_at k (code e) d') = Some e' /\ e' <> -1) ->
  Tab k (<[Z.to_nat (slot_at k (code e) d) := e]> ids) code (e :: es).
Proof.
  intros Hk HT Hne Hd Hpos Hbefore. set (pos := Z.to_nat (slot_at k (code e) d)) in *.
  assert (Hpass : forall i x, ids !! i = Some x -> x <> -1 -> <[pos := e]> ids !! i = Some x).
  { intros i x Hi Hx. rewrite list_lookup_insert_ne; [done|]. intros ->. congruence. }
  constructor.
  - rewrite length_insert. apply HT.
  - rewrite filter_insert_new by done. by rewrite (tab_perm _ _ _ _ HT).
  - intros x [->|Hx]%elem_of_cons.
    + exists d. split_and!; [lia|lia|apply list_lookup_insert_eq; by apply lookup_lt_Some in Hpos|].
      intros d' Hd'. destruct (Hbefore d' Hd') as (e' & He' & Hn). exists e'. auto.
    + destruct (tab_chain _ _ _ _ HT x Hx) as (dx & Hdx & Hlx & Hb). exists dx.
      apply (tab_member _ _ _ _ _ HT) in Hx as [_ Hx]. split_and!; [lia|lia|auto|].
      intros d' Hd'. destruct (Hb d' Hd') as (e' & He' & Hn). exists e'. auto.
Qed.

(** A lookup: [hit] recognises at most the id [e], whose home is where probing starts. *)
Lemma tab_find k ids code es c (hit : Z -> bool) (stop : Z -> result bool) :
  0 <= k <= 32 -> Tab k ids code es -> Z.of_nat (length es) < 2 ^ k -> in_s 32 c ->
  stop (-1) = Ok true -> (forall e, e ∈ es -> stop e = Ok (hit e)) ->
  (forall e, e ∈ es -> hit e = true -> code e = c /\ forall e', e' ∈ es -> hit e' = true -> e' = e) ->
  exists d x, 0 <= d < 2 ^ k /\ probe ids (2 ^ k - 1) stop c = Ok (slot_at k c d) /\
    ids !! Z.to_nat (slot_at k c d) = Some x /\ vget ids (slot_at k c d) = Ok x /\
    (forall d', 0 <= d' < d -> exists e', ids !! Z.to_nat (slot_at k c d') = Some e' /\ e' <> -1) /\
    ((x = -1 /\ forall e, e ∈ es -> hit e = false) \/ (x ∈ es /\ hit x = true)).
Proof.
  intros Hk HT Hes Hc Hst1 Hst Hhit.
  destruct (tab_room k ids code es c ltac:(lia) HT Hes) as (D & HD & HDe).
  destruct (probe_ok k Hk ids (tab_len _ _ _ _ HT) stop (fun e => (e =? -1) || hit e) c D Hc)
    as (d & x & Hd & Hp & Hx & Hsx & Hbefore); [|lia| |].
  - intros i e He. destruct (Z.eqb_spec e (-1)) as [->|Hn]; [done|]. apply Hst, (tab_member _ _ _ _ _ HT).
    split; [by eapply list_elem_of_lookup_2|done].
  - intros e He. rewrite HDe in He. by injection He as <-.
  - assert (Hmem : forall i e, ids !! i = Some e -> e <> -1 -> e ∈ es).
    { intros i e He Hn. apply (tab_member _ _ _ _ _ HT). split; [by eapply list_elem_of_lookup_2|done]. }
    exists d, x. pose proof (slot_range k c d ltac:(lia)). split_and!; try done; try lia.
    + by apply vget_ok; [lia|].
    + intros d' Hd'. destruct (Hbefore d' Hd') as (e' & He' & Hn). exists e'. split; [done|].
      by intros ->.
    + destruct (Z.eqb_spec x (-1)) as [->|Hn]; [|right; split; [by eapply Hmem|done]].
      left. split; [done|]. intros e He. destruct (hit e) eqn:Ehit; [|done]. exfalso.
      destruct (Hhit e He Ehit) as [Hce _]. destruct (tab_chain _ _ _ _ HT e He) as (de & Hde & Hle & Hbe).
      rewrite Hce in *. apply (tab_member _ _ _ _ _ HT) in He as [_ He].
      destruct (decide (d < de)).
      * destruct (Hbe d) as (y & Hy & Hyn); [lia|]. congruence.
      * destruct (decide (d = de)) as [->|]; [congruence|].
        destruct (Hbefore de) as (y & Hy & Hys); [lia|]. rewrite Hle in Hy. injection Hy as <-.
        by rewrite Ehit, orb_true_r in Hys.
Qed.
End Table.
