(* ===== verification/BytesRefDictionary.v ===== *)
(** The contract of [BytesRefHash]: a hash with its pool represents a list of distinct
    terms in the order of their ids, and every operation acts on that list. *)

From Stdlib Require Import ZArith Lia Bool.
From stdpp Require Import base tactics numbers list sorting.
From S2P Require Import Prelude BitUtil ArrayUtil StringHelper ByteBlockPool BytesRefHash BytesRefHashProofs.

Local Open Scope Z_scope.

Module BytesRefDictionary.
Import ByteBlockPool PoolFacts BytesRefBlockPool TermPool BytesRefHash Table.

Section Dictionary.
Context {A : Type} `{StartArraySpec A}.
Context (seed : Z).
Implicit Types (h : @BytesRefHash.t A) (p : ByteBlockPool.t).

Definition code_of (cs : list Z) (e : Z) : Z := default 0 (cs !! Z.to_nat e).

(** The part of the invariant both kinds of hashes share: [cs] are the hash codes of
    the ids in order, [vs] the values of the start array. *)
Record HashOK (h : @BytesRefHash.t A) (k : Z) (vs cs : list Z) : Prop := mkHashOK {
  ok_array : ready (bytes_start_array h) vs;
  ok_k : 1 <= k <= 32;
  ok_size : hash_size h = 2 ^ k /\ hash_half_size h = 2 ^ (k - 1) /\ hash_mask h = 2 ^ k - 1;
  ok_count : count h = Z.of_nat (length cs);
  ok_load : Z.of_nat (length cs) < 2 ^ (k - 1);
  ok_room : (length cs <= length vs)%nat;
  ok_bound : Z.of_nat (length cs) <= 2 ^ 30;
  ok_codes : Forall (in_s 32) cs;
  ok_tab : Tab k (ids h) (code_of cs) (seqZ 0 (Z.of_nat (length cs))) }.

Lemma half_pow k : 1 <= k -> 2 ^ k = 2 * 2 ^ (k - 1).
Proof. intros. rewrite <- Z.pow_succ_r by lia. f_equal. lia. Qed.

Lemma id_u64 e : 0 <= e <= 2 ^ 31 -> as_u64 e = e.
Proof. intros. apply wrap_u_id. unfold in_u. lia. Qed.

Lemma code_of_lookup cs (i : nat) c : cs !! i = Some c -> code_of cs (Z.of_nat i) = c.
Proof. intros Hi. unfold code_of. by rewrite Nat2Z.id, Hi. Qed.

Lemma elem_seqZ (n : nat) e : e ∈ seqZ 0 (Z.of_nat n) -> exists i : nat, e = Z.of_nat i /\ (i < n)%nat.
Proof. intros He%elem_of_seqZ. exists (Z.to_nat e). lia. Qed.

(** ** Growing the array of starts *)

Lemma ensure_start_ok h p vs n :
  ready (bytes_start_array h) vs -> (n <= length vs)%nat -> Z.of_nat n <= 2 ^ 30 ->
  exists a' vs', ensure_start (Z.of_nat n) (h, p) = (Ok tt, (with_array h a', p)) /\ ready a' vs' /\
    vs `prefix_of` vs' /\ (n < length vs')%nat.
Proof.
  intros Hr Hn Hb. unfold ensure_start. rewrite sget_sbind. cbn beta iota.
  rewrite slift_sbind, (len_ready _ _ Hr). cbn beta iota.
  destruct (Z.leb_spec (Z.of_nat (length vs)) (Z.of_nat n)).
  - destruct (grow_ready _ _ Hr) as (a' & ext & Hg & Hr' & Hne); [lia|].
    assert (Hon : on_array grow (h, p) = (Ok tt, (with_array h a', p))).
    { unfold on_array. cbn [fst snd]. by rewrite Hg. }
    rewrite (sbind_ok _ _ _ _ _ Hon), sget_sbind. cbn beta iota.
    rewrite slift_sbind. cbn [with_array bytes_start_array]. rewrite (len_ready _ _ Hr'). cbn beta iota.
    exists a', (vs ++ ext). assert (0 < length ext)%nat by (destruct ext; [done|cbn; lia]).
    unfold debug_assert, slift. rewrite (proj2 (Z.ltb_lt _ _)) by (rewrite length_app; lia).
    split_and!; [done|done|by eexists|rewrite length_app; lia].
  - exists (bytes_start_array h), vs. split_and!; [|done..|lia]. unfold sret. do 3 f_equal. by destruct h.
Qed.

(** ** Rehashing *)

Section Rehash.
Context (a : A) (pool : ByteBlockPool.t) (on_data : bool) (code : Z -> Z) (k : Z) (Hk : 0 <= k <= 32).

(** What is known of the ids to place: their hash is their code. *)
Definition placeable (e : Z) : Prop := 0 <= e < 2 ^ 31 /\ in_s 32 (code e) /\ exists value,
  get_value a e = Ok value /\ (if on_data then hash seed value pool else Ok value) = Ok (code e).

Lemma place_ok new_hash es e : Tab k new_hash code es -> Z.of_nat (length es) < 2 ^ k -> placeable e ->
  exists new', place seed on_data a pool (2 ^ k - 1) new_hash e = Ok new' /\ Tab k new' code (e :: es).
Proof.
  intros HT Hes (He & Hc & value & Hv & Hcode). unfold place.
  rewrite (proj2 (Z.eqb_neq e (-1))) by lia. rewrite id_u64, Hv by lia. cbn [rbind]. rewrite Hcode. cbn [rbind].
  destruct (tab_find k new_hash code es (code e) (fun _ => false) (fun e => Ok (e =? -1)))
    as (d & x & Hd & Hp & Hx & Hg & Hb & Hres); try done.
  { intros y Hy. apply (tab_member _ _ _ _ _ HT) in Hy as [_ Hy]. f_equal. lia. }
  rewrite Hp. cbn [rbind]. destruct Hres as [[-> _]|[_ [=]]]. pose proof (slot_range k (code e) d ltac:(lia)).
  rewrite vset_ok by (rewrite (tab_len _ _ _ _ HT); lia).
  eexists. split; [done|]. apply tab_insert; auto; lia.
Qed.

Lemma rehash_loop_ok old n : forall (i : nat) new_hash es,
  (i + n = length old)%nat -> Tab k new_hash code es ->
  Z.of_nat (length es) + Z.of_nat n <= 2 ^ k -> (forall e, e ∈ old -> e <> -1 -> placeable e) ->
  exists new', rehash_loop seed on_data a pool (2 ^ k - 1) old n (Z.of_nat i) new_hash = Ok new' /\
    Tab k new' code (rev (filter (fun e => e <> -1) (drop i old)) ++ es).
Proof.
  induction n as [|n IH]; intros i new_hash es Hi HT Hes Hpl; cbn [rehash_loop].
  - exists new_hash. rewrite drop_ge by lia. done.
  - destruct (vget_in old (Z.of_nat i)) as (e & He & ->); [lia|]. rewrite Nat2Z.id in He. cbn [rbind].
    rewrite (drop_S _ _ _ He). replace (Z.of_nat i + 1) with (Z.of_nat (S i)) by lia.
    destruct (decide (e = -1)) as [->|Hne].
    + unfold place. rewrite filter_cons_False by lia. apply IH; auto; lia.
    + destruct (place_ok new_hash es e HT) as (new1 & -> & HT1); [lia|apply Hpl; [by eapply list_elem_of_lookup_2|done]|].
      cbn [rbind]. rewrite filter_cons_True by done. cbn [rev]. rewrite <- app_assoc. cbn [app].
      apply IH; auto; cbn [length]; lia.
Qed.
End Rehash.

Lemma rehash_ok h p k cs on_data :
  0 <= k <= 31 -> hash_size h = 2 ^ k ->
  Tab k (ids h) (code_of cs) (seqZ 0 (Z.of_nat (length cs))) ->
  (forall e, e ∈ seqZ 0 (Z.of_nat (length cs)) -> placeable (bytes_start_array h) p on_data (code_of cs) e) ->
  exists v b, rehash seed (2 * hash_size h) on_data (h, p)
      = (Ok tt, (mk (2 ^ (k + 1)) (2 ^ k) (2 ^ (k + 1) - 1) (count h) (last_count h) v (bytes_start_array h) b, p)) /\
    Tab (k + 1) v (code_of cs) (seqZ 0 (Z.of_nat (length cs))).
Proof.
  intros Hk Hs HT Hpl. unfold rehash. rewrite sget_sbind. cbn beta iota. rewrite Hs.
  replace (2 * 2 ^ k) with (2 ^ (k + 1)) by (rewrite Z.pow_add_r by lia; lia).
  destruct (rehash_loop_ok (bytes_start_array h) p on_data (code_of cs) (k + 1) ltac:(lia) (ids h) (length (ids h)) 0
    (replicate (Z.to_nat (2 ^ (k + 1))) (-1)) []) as (v & Hv & HTv); [lia|by apply tab_empty; lia| |..].
  - cbn [length]. rewrite (tab_len _ _ _ _ HT), Z.pow_add_r by lia. lia.
  - intros e He Hn. apply Hpl. by apply (tab_member _ _ _ _ _ HT).
  - rewrite slift_sbind. replace (Z.to_nat (2 ^ k)) with (length (ids h))
      by (rewrite <- (tab_len _ _ _ _ HT); lia).
    change (Z.of_nat 0) with 0 in Hv. rewrite Hv. cbn beta iota.
    exists v. eexists. split.
    + unfold sput. do 3 f_equal. rewrite Z.pow_add_r, Z.div_mul by lia. done.
    + rewrite drop_0, app_nil_r in HTv. eapply tab_perm_ext; [|exact HTv].
      rewrite <- Permutation_rev. apply HT.
Qed.

(** ** Entering an id *)

Lemma seqZ_snoc n : 0 <= n -> seqZ 0 (n + 1) ≡ₚ n :: seqZ 0 n.
Proof.
  intros Hn. rewrite seqZ_app by lia. rewrite Permutation_app_comm. cbn.
  by rewrite Z.add_0_l.
Qed.

Lemma occupy_ok h p k vs cs c d on_data :
  let n := Z.of_nat (length cs) in
  ready (bytes_start_array h) vs -> 1 <= k <= 32 ->
  hash_size h = 2 ^ k -> hash_half_size h = 2 ^ (k - 1) -> hash_mask h = 2 ^ k - 1 ->
  count h = n + 1 -> n < 2 ^ (k - 1) -> (length cs < length vs)%nat -> n + 1 <= 2 ^ 30 ->
  Forall (in_s 32) cs -> in_s 32 c -> Tab k (ids h) (code_of cs) (seqZ 0 n) ->
  0 <= d < 2 ^ k -> ids h !! Z.to_nat (slot_at k c d) = Some (-1) ->
  (forall d', 0 <= d' < d -> exists e', ids h !! Z.to_nat (slot_at k c d') = Some e' /\ e' <> -1) ->
  (forall e, e ∈ seqZ 0 (n + 1) -> placeable (bytes_start_array h) p on_data (code_of (cs ++ [c])) e) ->
  exists h' k', occupy seed (slot_at k c d) n on_data (h, p) = (Ok tt, (h', p)) /\
    HashOK h' k' vs (cs ++ [c]).
Proof.
  intros n Hr Hk Hs Hh Hm Hc Hn Hroom Hb Hcs Hci HT Hd Hpos Hbefore Hpl.
  pose proof (slot_range k c d ltac:(lia)) as Hslot. pose proof (half_pow k ltac:(lia)) as Hhalf.
  set (cs' := cs ++ [c]). assert (Hlen : Z.of_nat (length cs') = n + 1) by (unfold cs'; rewrite length_app; cbn; lia).
  assert (Hcode : code_of cs' n = c).
  { apply code_of_lookup. unfold cs'. by rewrite list_lookup_middle by done. }
  set (v := <[Z.to_nat (slot_at k c d) := n]> (ids h)).
  assert (HT' : Tab k v (code_of cs') (seqZ 0 (Z.of_nat (length cs')))).
  { rewrite Hlen. apply (tab_perm_ext k v _ (n :: seqZ 0 n)); [by rewrite seqZ_snoc by lia|].
    assert (HT1 : Tab k (ids h) (code_of cs') (seqZ 0 n)).
    { eapply tab_ext; [|exact HT]. intros e (i & -> & Hi)%elem_seqZ. unfold code_of, cs'.
      by rewrite Nat2Z.id, lookup_app_l. }
    unfold v. rewrite <- Hcode. apply tab_insert; rewrite ?Hcode; auto; lia. }
  unfold occupy. rewrite sget_sbind. cbn beta iota. rewrite slift_sbind.
  rewrite (proj2 (vget_ok (ids h) (slot_at k c d) (-1) ltac:(lia)) Hpos). cbn beta iota. rewrite slift_sbind. cbn [debug_assert Z.eqb].
  cbn beta iota. rewrite slift_sbind, vset_ok by (rewrite (tab_len _ _ _ _ HT); lia). cbn beta iota. fold v.
  change (sbind (modify (fun h => with_ids h v)) ?kk (h, p)) with (kk tt (with_ids h v, p)). cbn beta.
  rewrite sget_sbind. cbn beta iota. cbn [with_ids count hash_half_size]. rewrite Hc, Hh.
  destruct (Z.eqb_spec (n + 1) (2 ^ (k - 1))) as [Hfull|Hnot].
  - assert (k <= 31).
    { destruct (decide (k <= 31)); [done|]. assert (2 ^ 31 <= 2 ^ (k - 1)) by (apply Z.pow_le_mono_r; lia). lia. }
    destruct (rehash_ok (with_ids h v) p k cs' on_data ltac:(lia) Hs HT') as (w & b & Hw & HTw).
    { rewrite Hlen. exact Hpl. }
    eexists _, (k + 1). split; [exact Hw|].
    constructor; cbn; rewrite ?Z.add_simpl_r; try done; try lia. apply Forall_app. auto.
  - exists (with_ids h v), k. split; [done|]. constructor; cbn; try done; try lia.
    apply Forall_app. auto.
Qed.

(** ** What a hash represents *)

Definition key_code (t : list Z) : Z :=
  match StringHelper.do_hash seed t 0 (Z.of_nat (length t)) with Ok c => c | _ => 0 end.

(** A lower bound of what the terms take in the pool: two bytes, one for the empty term. *)
Definition least_size (ts : list (list Z)) : Z :=
  2 * Z.of_nat (length ts) - (if decide ([] ∈ ts) then 1 else 0).

(** The hash and its pool hold the distinct terms [ts], in the order of their ids. *)
Record Rep (h : @BytesRefHash.t A) (p : ByteBlockPool.t) (ts : list (list Z)) : Prop := mkRep {
  rep_pool : WF p;
  rep_hash : exists k vs, HashOK h k vs (map key_code ts) /\
    forall (i : nat) t, ts !! i = Some t -> exists s, vs !! i = Some s /\ stored p s t;
  rep_distinct : NoDup ts;
  rep_size : least_size ts <= position p }.

Lemma key_code_ok t : Z.of_nat (length t) <= i32_MAX -> Forall (in_u 8) t ->
  StringHelper.do_hash seed t 0 (Z.of_nat (length t)) = Ok (key_code t) /\ in_s 32 (key_code t).
Proof.
  intros Hl Hb. destruct (StringHelper.do_hash_inner seed t 0 (Z.of_nat (length t))) as [_ (c & Hc & Hi)]; try done; try lia.
  unfold key_code. by rewrite Hc.
Qed.

Lemma stored_code p s t : WF p -> stored p s t -> hash seed s p = Ok (key_code t) /\ in_s 32 (key_code t).
Proof.
  intros H1 Hst. destruct (hash_ok seed p s t H1 Hst) as [He (c & Hc & Hi)].
  unfold key_code. rewrite <- He, Hc. done.
Qed.

Lemma position_bound p : WF p -> position p <= 2 ^ 31.
Proof.
  intros H1. pose proof (wf_position p H1). pose proof block_size_val.
  assert (Z.of_nat (length (buffers p)) <= 65536).
  { destruct H1 as [_ _ Hs]. destruct (buffer_upto p); [lia|]. destruct Hs as [-> _]. cbn. lia. }
  nia.
Qed.

(** The lookup: the place of the term's id, or the empty place where it would go. *)
Lemma find_hash_ok h p ts k vs b :
  WF p -> HashOK h k vs (map key_code ts) -> NoDup ts ->
  (forall (i : nat) t, ts !! i = Some t -> exists s, vs !! i = Some s /\ stored p s t) ->
  BytesRef.valid b -> Forall (in_u 8) (BytesRef.contents b) -> BytesRef.length_ b <= i32_MAX ->
  let t := BytesRef.contents b in
  exists d x, 0 <= d < 2 ^ k /\ find_hash seed h b p = Ok (slot_at k (key_code t) d) /\
    ids h !! Z.to_nat (slot_at k (key_code t) d) = Some x /\
    vget (ids h) (slot_at k (key_code t) d) = Ok x /\
    (forall d', 0 <= d' < d -> exists e', ids h !! Z.to_nat (slot_at k (key_code t) d') = Some e' /\ e' <> -1) /\
    ((x = -1 /\ t ∉ ts) \/ exists i : nat, x = Z.of_nat i /\ ts !! i = Some t).
Proof.
  intros Hw Hh Hnd Hterms Hb Hby Hlen t. pose proof (BytesRef.contents_length b Hb) as Hl. fold t in Hl.
  pose proof (ok_k _ _ _ _ Hh) as Hk. pose proof (half_pow k ltac:(lia)) as Hhalf.
  pose proof (ok_load _ _ _ _ Hh) as Hload. pose proof (ok_bound _ _ _ _ Hh) as Hbound.
  pose proof (ok_array _ _ _ _ Hh) as Ha. pose proof (ok_tab _ _ _ _ Hh) as HT.
  destruct (ok_size _ _ _ _ Hh) as (_ & _ & Hmask). rewrite length_map in *.
  destruct (key_code_ok t) as [Hkc Hki]; [lia|done|].
  assert (Hterm : forall e, e ∈ seqZ 0 (Z.of_nat (length ts)) -> exists (i : nat) u s,
    e = Z.of_nat i /\ ts !! i = Some u /\ get_value (bytes_start_array h) (as_u64 e) = Ok s /\ stored p s u).
  { intros e (i & -> & Hi)%elem_seqZ. destruct (lookup_lt_is_Some_2 ts i Hi) as [u Hu].
    destruct (Hterms i u Hu) as (s & Hs & Hst). exists i, u, s. rewrite id_u64 by lia.
    split_and!; try done. by apply (get_ready _ _ _ _ Ha). }
  unfold find_hash. rewrite (need_init_ready _ _ Ha). cbn [negb debug_assert rbind].
  rewrite BytesRef.as_byte_slice_ok by done. cbn [rbind]. fold t. rewrite Hkc. cbn [rbind]. rewrite Hmask.
  set (stop := fun e : Z => if e =? -1 then Ok true
    else let? start := get_value (bytes_start_array h) (as_u64 e) in equals start b p).
  destruct (tab_find k (ids h) _ _ (key_code t) (fun e => bool_decide (ts !! Z.to_nat e = Some t)) stop
    ltac:(lia) HT) as (d & x & Hd & Hp & Hx & Hg & Hbefore & Hres); [rewrite length_seqZ; lia|exact Hki|reflexivity| | |].
  - intros e He. destruct (Hterm e He) as (i & u & s & -> & Hu & Hgv & Hst). unfold stop.
    rewrite (proj2 (Z.eqb_neq _ _)) by lia. rewrite Hgv. cbn [rbind]. rewrite (equals_ok p s u b) by done.
    f_equal. rewrite Nat2Z.id, Hu. apply bool_decide_ext. fold t. split; congruence.
  - intros e He Hhit%bool_decide_eq_true. split.
    + destruct (Hterm e He) as (i & u & s & -> & _). rewrite Nat2Z.id in Hhit.
      apply code_of_lookup. by rewrite list_lookup_fmap, Hhit.
    + intros e' He' Hhit'%bool_decide_eq_true. apply elem_of_seqZ in He, He'.
      pose proof (NoDup_lookup _ _ _ _ Hnd Hhit Hhit'). lia.
  - exists d, x. split_and!; try done; try lia. destruct Hres as [[-> Hno]|[Hin Hhit%bool_decide_eq_true]].
    + left. split; [done|]. intros (i & Hi)%list_elem_of_lookup.
      pose proof (lookup_lt_Some _ _ _ Hi). specialize (Hno (Z.of_nat i)).
      rewrite bool_decide_eq_false, Nat2Z.id in Hno. apply Hno; [apply elem_of_seqZ; lia|done].
    + right. exists (Z.to_nat x). apply elem_of_seqZ in Hin. split; [lia|done].
Qed.

(** ** The operations on the represented list *)

Lemma prefix_stored p p' (vs vs' : list Z) (ts : list (list Z)) :
  content p `prefix_of` content p' -> vs `prefix_of` vs' ->
  (forall (i : nat) t, ts !! i = Some t -> exists s, vs !! i = Some s /\ stored p s t) ->
  forall (i : nat) t, ts !! i = Some t -> exists s, vs' !! i = Some s /\ stored p' s t.
Proof.
  intros Hc Hv Ht i t Hi. destruct (Ht i t Hi) as (s & Hs & Hst). exists s.
  split; [by eapply prefix_lookup_Some|by eapply stored_mono].
Qed.

Lemma hash_with_array h k vs vs' cs a : HashOK h k vs cs -> ready a vs' -> vs `prefix_of` vs' ->
  HashOK (with_array h a) k vs' cs.
Proof.
  intros [] Hr Hp%prefix_length. constructor; cbn; try done. lia.
Qed.

Lemma least_size_snoc p q ts t : t ∉ ts -> least_size ts <= position p ->
  position p + Z.of_nat (length (enc t)) <= position q -> least_size (ts ++ [t]) <= position q.
Proof.
  intros Hn Hs Hq. unfold least_size in *. rewrite length_app. cbn [length].
  pose proof (enc_length t) as He. assert (1 <= prefix_size t) by (unfold prefix_size; destruct (_ <? _); lia).
  destruct (decide ([] ∈ ts ++ [t])) as [Hin|Hin].
  - apply elem_of_app in Hin as [Hin|Hin%list_elem_of_singleton].
    + rewrite decide_True in Hs by done. destruct t; [done|cbn [length] in *; lia].
    + subst t. rewrite decide_False in Hs by done. cbn [length] in *. lia.
  - rewrite decide_False in Hs by (intros ?; apply Hin, elem_of_app; auto).
    destruct t; [exfalso; apply Hin, elem_of_app; right; apply list_elem_of_singleton; done|cbn [length] in *; lia].
Qed.

Lemma rep_bound h p ts : Rep h p ts -> Z.of_nat (length ts) <= 2 ^ 30.
Proof. intros [_ (k & vs & Hh & _) _ _]. pose proof (ok_bound _ _ _ _ Hh). by rewrite length_map in *. Qed.

Lemma terms_placeable h p vs ts on_data :
  ready (bytes_start_array h) vs -> WF p -> on_data = true -> Z.of_nat (length ts) <= 2 ^ 30 ->
  (forall (i : nat) t, ts !! i = Some t -> exists s, vs !! i = Some s /\ stored p s t) ->
  forall e, e ∈ seqZ 0 (Z.of_nat (length ts)) ->
  placeable (bytes_start_array h) p on_data (code_of (map key_code ts)) e.
Proof.
  intros Ha Hw -> Hb Hterms e (i & -> & Hi)%elem_seqZ. destruct (lookup_lt_is_Some_2 ts i Hi) as [u Hu].
  destruct (Hterms i u Hu) as (s & Hs & Hst). destruct (stored_code p s u Hw Hst) as [Hc Hin].
  assert (code_of (map key_code ts) (Z.of_nat i) = key_code u) as Hcode
    by (apply code_of_lookup; by rewrite list_lookup_fmap, Hu).
  unfold placeable. rewrite Hcode. split_and!; [lia|lia|done|]. exists s.
  split; [by apply (get_ready _ _ _ _ Ha)|done].
Qed.

(** Growing the array of starts changes nothing of what the hash represents. *)
Lemma rep_with_array h p ts k vs vs' a :
  Rep h p ts -> HashOK h k vs (map key_code ts) -> ready a vs' -> vs `prefix_of` vs' ->
  (forall (i : nat) t, ts !! i = Some t -> exists s, vs !! i = Some s /\ stored p s t) ->
  Rep (with_array h a) p ts.
Proof.
  intros HR Hh Hr Hp Hterms. constructor; try apply HR. exists k, vs'.
  split; [by eapply hash_with_array|]. eapply prefix_stored; done.
Qed.

Lemma on_array_ok {B} (m : ST A B) h p b a' : m (bytes_start_array h) = (Ok b, a') ->
  on_array m (h, p) = (Ok b, (with_array h a', p)).
Proof. intros Hm. unfold on_array. cbn [fst snd]. by rewrite Hm. Qed.

Lemma on_pool_eq {B} (m : ST ByteBlockPool.t B) h p : on_pool m (h, p) = let '(r, p') := m p in (r, (h, p')).
Proof. done. Qed.

(** The last steps of [add], once the term is in the pool. *)
Lemma enter_ok h p ts k vs t start d :
  HashOK h k vs (map key_code ts) -> (length ts < length vs)%nat -> WF p ->
  Z.of_nat (length ts) + 1 <= 2 ^ 30 -> in_s 32 (key_code t) ->
  (forall (i : nat) u, ts !! i = Some u -> exists s, vs !! i = Some s /\ stored p s u) -> stored p start t ->
  0 <= d < 2 ^ k -> ids h !! Z.to_nat (slot_at k (key_code t) d) = Some (-1) ->
  (forall d', 0 <= d' < d -> exists e', ids h !! Z.to_nat (slot_at k (key_code t) d') = Some e' /\ e' <> -1) ->
  exists h' k' vs', (let* _ := on_array (set_value (count h) start) in
      let* _ := modify (fun h => with_count h (count h + 1)) in
      let* _ := occupy seed (slot_at k (key_code t) d) (as_i32 (count h)) true in
      sret (as_i32 (count h))) (h, p) = (Ok (Z.of_nat (length ts)), (h', p)) /\
    HashOK h' k' vs' (map key_code (ts ++ [t])) /\
    (forall (i : nat) u, (ts ++ [t]) !! i = Some u -> exists s, vs' !! i = Some s /\ stored p s u).
Proof.
  intros Hh Hroom Hw Hb Hki Hterms Hst Hd Hpos Hbefore.
  pose proof (ok_count _ _ _ _ Hh) as Hc. rewrite length_map in Hc. rewrite Hc.
  destruct (set_ready _ _ _ start (ok_array _ _ _ _ Hh) Hroom) as (a' & Hset & Ha').
  rewrite (sbind_ok _ _ _ _ _ (on_array_ok _ h p _ _ Hset)).
  rewrite wrap_s_id by (unfold in_s; lia).
  set (vs' := <[length ts := start]> vs) in *.
  assert (Hterms' : forall (i : nat) u, (ts ++ [t]) !! i = Some u -> exists s, vs' !! i = Some s /\ stored p s u).
  { intros i u Hi. apply lookup_snoc_Some in Hi as [[Hi Hu]|[-> <-]].
    - destruct (Hterms i u Hu) as (s & Hs & Hsu). exists s. split; [|done].
      unfold vs'. rewrite list_lookup_insert_ne by lia. done.
    - exists start. split; [|done]. unfold vs'. by apply list_lookup_insert_eq. }
  set (h2 := with_count (with_array h a') (Z.of_nat (length ts) + 1)).
  change (sbind (modify (fun h => with_count h (count h + 1))) ?kk (with_array h a', p))
    with (kk tt (with_count (with_array h a') (count h + 1), p)). rewrite Hc. fold h2. cbn beta.
  destruct (ok_size _ _ _ _ Hh) as (Hs1 & Hs2 & Hs3). pose proof (ok_load _ _ _ _ Hh) as Hload.
  pose proof (ok_tab _ _ _ _ Hh) as HT. rewrite length_map in *.
  destruct (occupy_ok h2 p k vs' (map key_code ts) (key_code t) d true) as (h' & k' & Ho & Hh');
    rewrite ?length_map; try done; try apply Hh; try lia.
  - unfold vs'. rewrite length_insert. lia.
  - change [key_code t] with (map key_code [t]). rewrite <- map_app.
    replace (Z.of_nat (length ts) + 1) with (Z.of_nat (length (ts ++ [t]))) by (rewrite length_app; cbn; lia).
    apply (terms_placeable h2 p vs'); try done. rewrite length_app. cbn. lia.
  - rewrite length_map in Ho. exists h', k', vs'. rewrite (sbind_ok _ _ _ _ _ Ho). split; [done|].
    split; [|done]. by rewrite map_app.
Qed.

Definition full (p : ByteBlockPool.t) (t : list Z) : Prop :=
  BYTE_BLOCK_SIZE < 2 + Z.of_nat (length t) + byte_upto p /\ i32_MAX < byte_offset p + BYTE_BLOCK_SIZE.
#[local] Instance full_dec p t : Decision (full p t).
Proof. unfold full. apply _. Defined.

(** [add] of a new term: after the lookup and the growth of the starts, what is left is
    to put the term in the pool and its id in the table. *)
Lemma add_new h p ts b :
  Rep h p ts -> BytesRef.valid b -> Forall (in_u 8) (BytesRef.contents b) -> BytesRef.length_ b < 2 ^ 30 ->
  let t := BytesRef.contents b in t ∉ ts ->
  exists k vs a' d, let h' := with_array h a' in
    add seed b (h, p) = (let* v := on_pool (add_bytes_ref b) in
      let* _ := on_array (set_value (count h') v) in
      let* _ := modify (fun h => with_count h (count h + 1)) in
      let* _ := occupy seed (slot_at k (key_code t) d) (as_i32 (count h')) true in
      sret (as_i32 (count h'))) (h', p) /\
    Rep h' p ts /\ HashOK h' k vs (map key_code ts) /\ (length ts < length vs)%nat /\
    (forall (i : nat) u, ts !! i = Some u -> exists s, vs !! i = Some s /\ stored p s u) /\
    0 <= d < 2 ^ k /\ ids h' !! Z.to_nat (slot_at k (key_code t) d) = Some (-1) /\
    (forall d', 0 <= d' < d -> exists e', ids h' !! Z.to_nat (slot_at k (key_code t) d') = Some e' /\ e' <> -1).
Proof.
  intros HR Hb Hby Hlen t Hn. pose proof HR as [Hw (k & vs & Hh & Hterms) Hnd Hsize].
  destruct (find_hash_ok h p ts k vs b Hw Hh Hnd Hterms Hb Hby) as (d & x & Hd & Hf & Hx & Hg & Hbefore & Hres);
    [unfold i32_MAX; lia|]. fold t in Hf, Hx, Hg, Hbefore, Hres.
  destruct Hres as [[-> _]|(j & -> & Hj)]; [|by apply list_elem_of_lookup_2 in Hj].
  pose proof (ok_count _ _ _ _ Hh) as Hc. pose proof (ok_room _ _ _ _ Hh) as Hroom. rewrite length_map in Hc, Hroom.
  pose proof (rep_bound h p ts HR) as Hbound.
  destruct (ensure_start_ok h p vs (length ts) (ok_array _ _ _ _ Hh) Hroom Hbound) as (a' & vs' & He & Ha' & Hpre & Hlt).
  exists k, vs', a', d. cbv zeta. split_and!; try done; try lia.
  - unfold add. rewrite sget_sbind. cbn beta iota.
    rewrite slift_sbind, (need_init_ready _ _ (ok_array _ _ _ _ Hh)). cbn [negb debug_assert]. cbn beta iota.
    rewrite slift_sbind, Hf. cbn beta iota. rewrite slift_sbind, Hg. cbn beta iota.
    rewrite Z.eqb_refl. cbn [with_array count]. by rewrite Hc, (sbind_ok _ _ _ _ _ He).
  - by eapply rep_with_array.
  - by eapply hash_with_array.
  - by eapply prefix_stored.
Qed.

Lemma add_new_fits h p ts b :
  Rep h p ts -> BytesRef.valid b -> Forall (in_u 8) (BytesRef.contents b) ->
  let t := BytesRef.contents b in
  t ∉ ts -> Z.of_nat (length t) <= BYTE_BLOCK_SIZE - 2 -> ~ full p t ->
  exists h' p', add seed b (h, p) = (Ok (Z.of_nat (length ts)), (h', p')) /\
    Rep h' p' (ts ++ [t]) /\ content p `prefix_of` content p'.
Proof.
  intros HR Hb Hby t Hn Hlen Hfull. pose proof block_size_val as HB.
  pose proof (BytesRef.contents_length b Hb) as Hl. fold t in Hl.
  destruct (add_new h p ts b HR Hb Hby ltac:(lia) Hn) as (k & vs & a' & d & -> & HR' & Hh & Hroom & Hterms & Hd & Hx & Hbefore).
  fold t in Hx, Hbefore |- *. pose proof HR' as [Hw _ Hnd Hsize].
  pose proof (add_bytes_ref_ok p b Hw Hb Hby Hlen) as Hadd. cbv zeta in Hadd. rewrite decide_False in Hadd by exact Hfull.
  destruct Hadd as (start & p' & Hadd & Hw' & Hst & Hpc & _ & Hsz). fold t in Hst, Hsz.
  assert (Hsize' : least_size (ts ++ [t]) <= position p') by by eapply least_size_snoc.
  assert (Hb' : Z.of_nat (length ts) + 1 <= 2 ^ 30).
  { pose proof (position_bound p' Hw'). unfold least_size in Hsize'. rewrite length_app in Hsize'. cbn [length] in Hsize'.
    destruct (decide _) in Hsize'; lia. }
  destruct (enter_ok (with_array h a') p' ts k vs t start d Hh Hroom Hw' Hb') as (h' & k' & vs2 & Hrun & Hh2 & Ht2);
    try done; [apply key_code_ok; [unfold i32_MAX; lia|done]|by eapply prefix_stored|].
  unfold sbind at 1. rewrite on_pool_eq, Hadd. exists h', p'. split; [exact Hrun|]. split; [|done].
  constructor; [done|by exists k', vs2| |done].
  apply NoDup_app. split_and!; [done| |apply NoDup_singleton]. intros u Hu ->%list_elem_of_singleton. done.
Qed.

Lemma add_old h p ts b (i : nat) :
  Rep h p ts -> BytesRef.valid b -> Forall (in_u 8) (BytesRef.contents b) -> BytesRef.length_ b < 2 ^ 30 ->
  ts !! i = Some (BytesRef.contents b) -> add seed b (h, p) = (Ok (- (Z.of_nat i + 1)), (h, p)).
Proof.
  intros HR Hb Hby Hlen Hi. pose proof HR as [Hw (k & vs & Hh & Hterms) Hnd Hsize].
  destruct (find_hash_ok h p ts k vs b Hw Hh Hnd Hterms Hb Hby) as (d & x & Hd & Hf & Hx & Hg & Hbefore & Hres);
    [unfold i32_MAX; lia|].
  destruct Hres as [[_ Hn]|(j & -> & Hj)]; [exfalso; apply Hn; by eapply list_elem_of_lookup_2|].
  unfold add. rewrite sget_sbind. cbn beta iota.
  rewrite slift_sbind, (need_init_ready _ _ (ok_array _ _ _ _ Hh)). cbn [negb debug_assert]. cbn beta iota.
  rewrite slift_sbind, Hf. cbn beta iota. rewrite slift_sbind, Hg. cbn beta iota.
  rewrite (proj2 (Z.eqb_neq _ _)) by lia. by rewrite (NoDup_lookup _ _ _ _ Hnd Hi Hj).
Qed.

(** The two ways a new term is refused. *)
Lemma add_refused h p ts b :
  Rep h p ts -> BytesRef.valid b -> Forall (in_u 8) (BytesRef.contents b) -> BytesRef.length_ b < 2 ^ 30 ->
  let t := BytesRef.contents b in t ∉ ts ->
  (BYTE_BLOCK_SIZE - 2 < Z.of_nat (length t) ->
    exists h', add seed b (h, p) = (Err MaxBytesLengthExceeded, (h', p)) /\ Rep h' p ts) /\
  (Z.of_nat (length t) <= BYTE_BLOCK_SIZE - 2 -> full p t -> exists s, add seed b (h, p) = (Err NumberOverflow, s)).
Proof.
  intros HR Hb Hby Hlen t Hn. pose proof (rep_pool _ _ _ HR) as Hw. pose proof (BytesRef.contents_length b Hb) as Hl. fold t in Hl.
  destruct (add_new h p ts b HR Hb Hby Hlen Hn) as (k' & vs' & a' & d & -> & HR' & _).
  split; unfold sbind at 1; rewrite on_pool_eq.
  - intros Hlong. rewrite add_bytes_ref_too_long by (done || lia). by eexists.
  - intros Hs Hfull. pose proof (add_bytes_ref_ok p b Hw Hb Hby Hs) as Hadd. fold t in Hadd.
    cbv zeta in Hadd. rewrite decide_True in Hadd by exact Hfull. destruct Hadd as (p' & ->). by eexists.
Qed.

(** C10: Adding a term to a hash is adding it to the list of distinct terms it stands
    for: a known term answers [-(id + 1)] and changes nothing; a new one gets the next id
    and is appended, whether or not the table doubles; one that is too long is refused and
    the terms stay; when the pool has reached two gigabytes it is an overflow error. *)
Theorem add_refines h p ts b :
  Rep h p ts -> BytesRef.valid b -> Forall (in_u 8) (BytesRef.contents b) -> BytesRef.length_ b < 2 ^ 30 ->
  let t := BytesRef.contents b in
  (forall i : nat, ts !! i = Some t -> add seed b (h, p) = (Ok (- (Z.of_nat i + 1)), (h, p))) /\
  (t ∉ ts ->
    if decide (BYTE_BLOCK_SIZE - 2 < Z.of_nat (length t)) then
      exists h', add seed b (h, p) = (Err MaxBytesLengthExceeded, (h', p)) /\ Rep h' p ts
    else if decide (full p t) then exists s, add seed b (h, p) = (Err NumberOverflow, s)
    else exists h' p', add seed b (h, p) = (Ok (Z.of_nat (length ts)), (h', p')) /\
      Rep h' p' (ts ++ [t]) /\ content p `prefix_of` content p').
Proof.
  intros HR Hb Hby Hlen t. split; [intros i; by apply add_old|]. intros Hn.
  destruct (add_refused h p ts b HR Hb Hby Hlen Hn) as [Hlong Hfull]. fold t in Hlong, Hfull.
  case_decide; [by apply Hlong|]. case_decide; [apply Hfull; [lia|done]|]. apply add_new_fits; try done. fold t. lia.
Qed.

(** C25: In a hash that stands for a list of terms, [find] answers the id of a term it
    holds and -1 for any other, and [get] and [byte_start] lead from an id to the bytes of
    its term. *)
Theorem lookups_correct h p ts b :
  Rep h p ts -> BytesRef.valid b -> Forall (in_u 8) (BytesRef.contents b) -> BytesRef.length_ b <= i32_MAX ->
  (forall i : nat, ts !! i = Some (BytesRef.contents b) -> find seed h b p = Ok (Z.of_nat i)) /\
  (BytesRef.contents b ∉ ts -> find seed h b p = Ok (-1)) /\
  forall (i : nat) t, ts !! i = Some t -> exists pos block start,
    get h (Z.of_nat i) p = Ok pos /\ vget (buffers p) (block_index pos) = Ok block /\
    vslice block (pos_offset pos) (pos_offset pos + pos_length pos) = Ok t /\
    byte_start h (Z.of_nat i) = Ok start /\ fill_bytes_ref start p = Ok pos.
Proof.
  intros HR Hb Hby Hlen. pose proof HR as [Hw (k & vs & Hh & Hterms) Hnd Hsize].
  destruct (find_hash_ok h p ts k vs b Hw Hh Hnd Hterms Hb Hby Hlen) as (d & x & Hd & Hf & Hx & Hg & Hbefore & Hres).
  assert (Hfind : find seed h b p = Ok x) by (unfold find; rewrite Hf; exact Hg).
  rewrite Hfind. split_and!.
  - intros i Hi. destruct Hres as [[_ Hn]|(j & -> & Hj)].
    + exfalso. apply Hn. by eapply list_elem_of_lookup_2.
    + by rewrite (NoDup_lookup _ _ _ _ Hnd Hi Hj).
  - intros Hn. destruct Hres as [[-> _]|(j & -> & Hj)]; [done|]. by apply list_elem_of_lookup_2 in Hj.
  - intros i t Hi. destruct (Hterms i t Hi) as (s & Hs & Hst).
    destruct (fill_bytes_ref_ok p s t Hw Hst) as (pos & block & Hfill & Hblock & _ & Hsl).
    pose proof (ok_array _ _ _ _ Hh) as Ha. pose proof (rep_bound h p ts HR). pose proof (lookup_lt_Some _ _ _ Hi).
    pose proof (lookup_lt_Some _ _ _ Hs). pose proof (ok_count _ _ _ _ Hh) as Hc. rewrite length_map in Hc.
    exists pos, block, s. unfold get, byte_start. rewrite (need_init_ready _ _ Ha), (len_ready _ _ Ha), id_u64, Hc by lia.
    cbn [negb debug_assert rbind]. rewrite !(proj2 (Z.ltb_lt _ _)) by lia. rewrite (proj2 (Z.leb_le _ _)) by lia.
    cbn [andb debug_assert rbind]. rewrite (get_ready _ _ _ _ Ha Hs). cbn [rbind]. by split_and!.
Qed.

(** ** Construction, compaction, clearing *)

Lemma empty_rep h p k vs : ready (bytes_start_array h) vs -> 1 <= k <= 32 ->
  hash_size h = 2 ^ k /\ hash_half_size h = 2 ^ (k - 1) /\ hash_mask h = 2 ^ k - 1 -> count h = 0 ->
  ids h = replicate (Z.to_nat (2 ^ k)) (-1) -> WF p -> Rep h p [].
Proof.
  intros Ha Hk Hs Hc Hi Hw. assert (0 < 2 ^ (k - 1)) by (apply Z.pow_pos_nonneg; lia). constructor; [done| |apply NoDup_nil_2|].
  - exists k, vs. split; [|by intros i t Hit].
    constructor; cbn; try done; try lia. rewrite Hi. apply tab_empty. lia.
  - unfold least_size. cbn. pose proof (wf_position p Hw). destruct (decide _); lia.
Qed.

Lemma shiftr_half k : 1 <= k -> Z.shiftr (2 ^ k) 1 = 2 ^ (k - 1) /\ 2 ^ k / 2 = 2 ^ (k - 1).
Proof.
  intros Hk. rewrite Z.shiftr_div_pow2, Z.pow_1_r by lia. rewrite half_pow by lia.
  rewrite Z.mul_comm, Z.div_mul by lia. done.
Qed.

Lemma from_bytes_start_array_ok a p k counter : idle a -> 1 <= k <= 32 -> WF p ->
  exists h, from_bytes_start_array (2 ^ k) counter a = Ok h /\ Rep h p [].
Proof.
  intros Hi Hk Hw. destruct (init_idle a Hi) as (a' & vs & Hinit & Hr).
  unfold from_bytes_start_array. rewrite Hinit, (proj2 (Z.eqb_neq _ _)) by lia.
  eexists. split; [done|]. apply (empty_rep _ p k vs); try done.
  cbn [hash_size hash_half_size hash_mask]. split_and!; [done|apply shiftr_half; lia|done].
Qed.

Lemma compact_loop_ok rest : forall (F : list Z) (m : nat) i upto v,
  i = Z.of_nat (length F + m) -> upto = Z.of_nat (length F) -> v = F ++ replicate m (-1) ++ rest ->
  exists m', compact_loop (length rest) i upto v
    = Ok (Z.of_nat (length (F ++ filter (fun e => e <> -1) rest)),
          (F ++ filter (fun e => e <> -1) rest) ++ replicate m' (-1)).
Proof.
  induction rest as [|e rest IH]; intros F m i upto v -> -> ->; cbn [compact_loop length].
  - exists m. by rewrite filter_nil, !app_nil_r.
  - rewrite app_assoc, vget_middle by (rewrite length_app, length_replicate; lia). cbn [rbind].
    destruct (Z.eqb_spec e (-1)) as [->|Hne]; cbn [negb].
    + rewrite filter_cons_False by lia. apply (IH F (S m)); [lia|done|].
      rewrite <- app_assoc. f_equal. by rewrite replicate_S_end, <- app_assoc.
    + rewrite filter_cons_True by done. rewrite (cons_middle e F), app_assoc.
      destruct m as [|m].
      * rewrite (proj2 (Z.ltb_ge _ _)) by lia. cbn [rbind]. apply (IH (F ++ [e]) 0%nat);
          [rewrite length_app; cbn; lia|rewrite length_app; cbn; lia|]. cbn [replicate app]. by rewrite <- !app_assoc.
      * rewrite (proj2 (Z.ltb_lt _ _)) by lia. cbn [replicate]. rewrite <- app_assoc. cbn [app].
        rewrite vset_middle by done. cbn [rbind].
        replace (F ++ e :: replicate m (-1) ++ e :: rest) with ((F ++ e :: replicate m (-1)) ++ e :: rest)
          by (by rewrite <- app_assoc).
        rewrite vset_middle by (rewrite length_app; cbn [length]; rewrite length_replicate; lia). cbn [rbind].
        apply (IH (F ++ [e]) (S m)); [rewrite length_app; cbn [length]; lia|rewrite length_app; cbn [length]; lia|].
        by rewrite replicate_S_end, <- !app_assoc.
Qed.

(** [compact] moves the ids in use to the front of the table, each exactly once, and
    leaves the rest of it empty. *)
Theorem compact_collects_ids h p ts :
  Rep h p ts -> exists h' front m, compact h = Ok h' /\ ids h' = front ++ replicate m (-1) /\
    front ≡ₚ seqZ 0 (Z.of_nat (length ts)) /\ count h' = Z.of_nat (length ts).
Proof.
  intros [Hw (k & vs & Hh & _) _ _]. pose proof (ok_tab _ _ _ _ Hh) as HT. pose proof (ok_count _ _ _ _ Hh) as Hc.
  rewrite length_map in *. destruct (ok_size _ _ _ _ Hh) as (Hs & _ & _).
  unfold compact. rewrite (need_init_ready _ _ (ok_array _ _ _ _ Hh)). cbn [negb debug_assert rbind].
  replace (Z.to_nat (hash_size h)) with (length (ids h)) by (rewrite Hs, <- (tab_len _ _ _ _ HT); lia).
  destruct (compact_loop_ok (ids h) [] 0 0 0 (ids h)) as (m & ->); [done..|]. cbn [rbind app].
  pose proof (tab_perm _ _ _ _ HT) as Hp. pose proof (Permutation_length Hp) as Hlen. rewrite length_seqZ in Hlen.
  rewrite (proj2 (Z.eqb_eq _ _)) by lia. cbn [debug_assert rbind].
  eexists _, _, m. split_and!; done.
Qed.

Definition cleared h : Prop := exists k, 1 <= k <= 32 /\
  (hash_size h = 2 ^ k /\ hash_half_size h = 2 ^ (k - 1) /\ hash_mask h = 2 ^ k - 1) /\
  count h = 0 /\ idle (bytes_start_array h) /\
  (ids h = replicate (Z.to_nat (2 ^ k)) (-1) \/ ids h = []).

Lemma shrunk_size_ok fuel : forall k target, 1 <= k ->
  exists k', 1 <= k' <= k /\ shrunk_size fuel (2 ^ k) target = 2 ^ k'.
Proof.
  induction fuel as [|fuel IH]; intros k target Hk; cbn [shrunk_size]; [exists k; split; [lia|done]|].
  destruct (Z.leb_spec 8 (2 ^ k)); cbn [andb]; [|exists k; split; [lia|done]].
  destruct (_ <? _); [|exists k; split; [lia|done]].
  assert (3 <= k) by (apply (Z.pow_le_mono_r_iff 2); lia).
  rewrite (proj2 (shiftr_half k ltac:(lia))). destruct (IH (k - 1) target) as (k' & Hk' & E); [lia|].
  exists k'. split; [lia|done].
Qed.

Lemma clear_ok h p ts r : Rep h p ts -> exists h' p', clear_with_reset_pool r (h, p) = (Ok tt, (h', p')) /\
  cleared h' /\ WF p' /\ ids h' <> [] /\ (if r then content p' = [] else p' = p).
Proof.
  intros [Hw (k & vs & Hh & _) _ _]. pose proof (ok_size _ _ _ _ Hh) as (Hs1 & Hs2 & Hs3).
  pose proof (ok_k _ _ _ _ Hh) as Hk. pose proof (tab_len _ _ _ _ (ok_tab _ _ _ _ Hh)) as Hlen.
  pose proof (clear_ready _ _ (ok_array _ _ _ _ Hh)) as Hidle.
  assert (Hpool : exists p', (forall h0, (if r then on_pool (ByteBlockPool.reset false false) else sret tt) (h0, p)
      = (Ok tt, (h0, p'))) /\ WF p' /\ (if r then content p' = [] else p' = p)).
  { destruct r; [|by exists p]. destruct (reset_ok p false false Hw) as (p' & Hr & Hw' & Hc & _).
    exists p'. split; [|done]. intros h0. by rewrite on_pool_eq, Hr. }
  destruct Hpool as (p' & Hpool & Hw' & Hp').
  unfold clear_with_reset_pool. unfold modify at 1. unfold sbind at 1. cbn [fst snd].
  rewrite (sbind_ok _ _ _ _ _ (Hpool _)). unfold modify at 1. unfold sbind at 1. cbn [fst snd].
  rewrite sget_sbind. cbn beta iota. cbn [with_array last_count]. unfold shrink.
  cbn [with_array hash_size hash_half_size hash_mask count last_count ids bytes_start_array bytes_used].
  rewrite Hs1. destruct (shrunk_size_ok 64 k (count h)) as (k' & Hk' & E); [lia|]. rewrite E.
  assert (Hne : forall j, 0 <= j -> replicate (Z.to_nat (2 ^ j)) (-1) <> []).
  { intros j Hj Hn. apply (f_equal length) in Hn. rewrite length_replicate in Hn. cbn in Hn.
    assert (0 < 2 ^ j) by (apply Z.pow_pos_nonneg; lia). lia. }
  destruct (Z.eqb_spec (2 ^ k') (2 ^ k)) as [Eq|Hneq]; cbn [negb]; unfold sput.
  - eexists _, p'. split; [done|]. split_and!; [|done| |done].
    + exists k. cbn. split_and!; try done; [lia|lia|]. left. f_equal. lia.
    + cbn. replace (length (ids h)) with (Z.to_nat (2 ^ k)) by lia. apply Hne. lia.
  - eexists _, p'. split; [done|]. split_and!; [|done|cbn; apply Hne; lia|done].
    exists k'. cbn. split_and!; try done; try lia; [by apply shiftr_half; lia|]. by left.
Qed.

Lemma reinit_ok h p : cleared h -> WF p -> exists h', reinit (h, p) = (Ok tt, (h', p)) /\ Rep h' p [].
Proof.
  intros (k & Hk & (Hs1 & Hs2 & Hs3) & Hc & Hidle & Hids) Hw.
  unfold reinit. rewrite sget_sbind. cbn beta iota. rewrite (need_init_idle _ Hidle).
  destruct (init_idle _ Hidle) as (a' & vs & Hinit & Hr).
  rewrite (sbind_ok _ _ _ _ _ (on_array_ok _ h p _ _ Hinit)), sget_sbind. cbn beta iota. cbn [with_array ids].
  assert (0 < 2 ^ k) by (apply Z.pow_pos_nonneg; lia). destruct Hids as [E|E]; rewrite E.
  - assert (exists x l, replicate (Z.to_nat (2 ^ k)) (-1) = x :: l) as (x & l & El).
    { destruct (Z.to_nat (2 ^ k)) eqn:En; [lia|]. by eexists _, _. }
    rewrite El. eexists. split; [done|]. apply (empty_rep _ p k vs); cbn; try done.
  - unfold modify. cbn [fst snd with_array hash_size]. rewrite Hs1.
    eexists. split; [done|]. apply (empty_rep _ p k vs); cbn; try done.
Qed.

(** After a clear (which may also shrink the table) or a close, [reinit] makes a hash
    that stands for no terms: its pool is empty when it was reset, and the same when not. *)
Theorem clear_then_reinit h p ts r :
  Rep h p ts ->
  (exists h' p', (let* _ := clear_with_reset_pool r in reinit) (h, p) = (Ok tt, (h', p')) /\
     Rep h' p' [] /\ (if r then content p' = [] else p' = p)) /\
  exists h' p', (let* _ := close in reinit) (h, p) = (Ok tt, (h', p')) /\ Rep h' p' [] /\ content p' = [].
Proof.
  intros HR. split.
  - destruct (clear_ok h p ts r HR) as (h' & p' & Hc & Hcl & Hw & _ & Hp).
    destruct (reinit_ok h' p' Hcl Hw) as (h2 & Hr & HR2). exists h2, p'.
    by rewrite (sbind_ok _ _ _ _ _ Hc).
  - destruct (clear_ok h p ts true HR) as (h' & p' & Hc & Hcl & Hw & _ & Hp).
    unfold close. unfold sbind at 1. rewrite (sbind_ok _ _ _ _ _ Hc). unfold modify. cbn [fst snd].
    match goal with |- context [reinit (?h2, p')] => destruct (reinit_ok h2 p') as (h3 & Hr & HR3) end; [|done|by exists h3, p'].
    destruct Hcl as (k & ? & ? & ? & ? & _). exists k. cbn. split_and!; try done; try tauto; lia.
Qed.

(** ** Hashing by pool offset *)

(** The hash stands for distinct offsets, which are their own hash codes. *)
Definition OffsetRep h (os : list Z) : Prop :=
  NoDup os /\ exists k vs, HashOK h k vs os /\ os `prefix_of` vs.

(** [add_by_pool_offset] keeps the distinct offsets it was given in order: a known
    offset answers [-(id + 1)] and changes nothing, a new one gets the next id, also when
    the table doubles. *)
Theorem add_by_pool_offset_refines h p os o :
  OffsetRep h os -> in_s 32 o -> Z.of_nat (length os) < 2 ^ 30 ->
  (forall i : nat, os !! i = Some o -> add_by_pool_offset seed o (h, p) = (Ok (- (Z.of_nat i + 1)), (h, p))) /\
  (o ∉ os -> exists h', add_by_pool_offset seed o (h, p) = (Ok (Z.of_nat (length os)), (h', p)) /\
     OffsetRep h' (os ++ [o])).
Proof.
  intros (Hnd & k & vs & Hh & [ext Hvs]) Ho Hlen.
  pose proof (ok_k _ _ _ _ Hh) as Hk. pose proof (half_pow k ltac:(lia)) as Hhalf.
  pose proof (ok_load _ _ _ _ Hh) as Hload. pose proof (ok_array _ _ _ _ Hh) as Ha. pose proof (ok_tab _ _ _ _ Hh) as HT.
  pose proof (ok_room _ _ _ _ Hh) as Hroom. pose proof (ok_count _ _ _ _ Hh) as Hc.
  destruct (ok_size _ _ _ _ Hh) as (Hs1 & Hs2 & Hs3).
  assert (Hval : forall a ws (i : nat) u, ready a ws -> os `prefix_of` ws -> os !! i = Some u -> get_value a (Z.of_nat i) = Ok u).
  { intros a ws i u Hr Hp Hi. apply (get_ready _ _ _ _ Hr). by eapply prefix_lookup_Some. }
  unfold add_by_pool_offset. rewrite sget_sbind. cbn beta iota.
  rewrite slift_sbind, (need_init_ready _ _ Ha). cbn [negb debug_assert]. cbn beta iota. rewrite slift_sbind, Hs3.
  set (stop := fun e : Z => if e =? -1 then Ok true
    else let? v := get_value (bytes_start_array h) (as_u64 e) in Ok (v =? o)).
  destruct (tab_find k (ids h) _ _ o (fun e => code_of os e =? o) stop
    ltac:(lia) HT) as (d & x & Hd & Hp & Hx & Hg & Hbefore & Hres); [rewrite length_seqZ; lia|exact Ho|reflexivity| | |].
  { intros e (i & -> & Hi)%elem_seqZ. destruct (lookup_lt_is_Some_2 os i Hi) as [u Hu]. unfold stop.
    rewrite (proj2 (Z.eqb_neq (Z.of_nat i) (-1))), id_u64 by lia.
    rewrite (Hval _ vs i u Ha) by (done || by eexists). cbn [rbind]. by rewrite (code_of_lookup _ _ _ Hu). }
  { intros e (i & -> & Hi)%elem_seqZ Hhit%Z.eqb_eq. split; [done|]. intros e' (j & -> & Hj)%elem_seqZ Hhit'%Z.eqb_eq.
    destruct (lookup_lt_is_Some_2 os i Hi) as [u Hu], (lookup_lt_is_Some_2 os j Hj) as [w Hw].
    rewrite (code_of_lookup _ _ _ Hu) in Hhit. rewrite (code_of_lookup _ _ _ Hw) in Hhit'. subst.
    by rewrite (NoDup_lookup _ _ _ _ Hnd Hu Hw). }
  rewrite Hp. cbn beta iota. rewrite slift_sbind, Hg. cbn beta iota.
  assert (Hin : forall i : nat, os !! i = Some o -> x = Z.of_nat i).
  { intros i Hi. pose proof (lookup_lt_Some _ _ _ Hi). destruct Hres as [[_ Hno]|[He Hhit%Z.eqb_eq]].
    - specialize (Hno (Z.of_nat i)). rewrite (code_of_lookup _ _ _ Hi), Z.eqb_refl in Hno.
      by assert (true = false) by (apply Hno, elem_of_seqZ; lia).
    - apply elem_seqZ in He as (j & -> & Hj). destruct (lookup_lt_is_Some_2 os j Hj) as [w Hw].
      rewrite (code_of_lookup _ _ _ Hw) in Hhit. subst w. by rewrite (NoDup_lookup _ _ _ _ Hnd Hi Hw). }
  split.
  - intros i Hi. rewrite (Hin i Hi). by rewrite (proj2 (Z.eqb_neq _ _)) by lia.
  - intros Hn. assert (x = -1) as ->.
    { destruct Hres as [[-> _]|[He Hhit%Z.eqb_eq]]; [done|]. apply elem_seqZ in He as (j & -> & Hj).
      destruct (lookup_lt_is_Some_2 os j Hj) as [w Hw]. rewrite (code_of_lookup _ _ _ Hw) in Hhit. subst w.
      by apply list_elem_of_lookup_2 in Hw. }
    rewrite Z.eqb_refl, Hc.
    destruct (ensure_start_ok h p vs (length os) Ha Hroom) as (a' & vs' & He & Ha' & Hpre & Hlt); [lia|].
    rewrite (sbind_ok _ _ _ _ _ He). rewrite wrap_s_id by (unfold in_s; lia).
    unfold modify at 1. unfold sbind at 1. cbn [fst snd with_array count].
    destruct (set_ready _ _ _ o Ha' Hlt) as (a2 & Hset & Ha2).
    rewrite (sbind_ok _ _ _ _ _ (on_array_ok _ (with_count (with_array h a') (count h + 1)) p _ _ Hset)).
    set (vs2 := <[length os := o]> vs') in *.
    assert (Hp2 : os ++ [o] `prefix_of` vs2).
    { destruct Hpre as [e2 E2]. rewrite E2, Hvs, <- app_assoc in Hlt. unfold vs2. rewrite E2, Hvs, <- app_assoc.
      rewrite length_app in Hlt. destruct (ext ++ e2) as [|y r] eqn:El; [cbn in Hlt; lia|].
      rewrite insert_app_r_alt, Nat.sub_diag by lia. cbn. exists r. by rewrite <- app_assoc. }
    set (h2 := with_array (with_count (with_array h a') (count h + 1)) a2).
    destruct (occupy_ok h2 p k vs2 os o d false) as (h' & k' & Hocc & Hh'); try done; try lia; try apply Hh; cbn; try lia.
    + unfold vs2. by rewrite length_insert.
    + intros e He2. replace (Z.of_nat (length os) + 1) with (Z.of_nat (length (os ++ [o]))) in He2 by (rewrite length_app; cbn; lia).
      apply elem_seqZ in He2 as (i & -> & Hi). destruct (lookup_lt_is_Some_2 _ i Hi) as [u Hu].
      rewrite length_app in Hi. cbn in Hi. unfold placeable. rewrite (code_of_lookup _ _ _ Hu). split_and!; [lia|lia| |].
      * apply lookup_snoc_Some in Hu as [[_ Hu]|[_ <-]]; [|done]. by eapply Forall_lookup_1; [apply Hh|].
      * exists u. split; [|done]. apply (get_ready _ _ _ _ Ha2). by eapply prefix_lookup_Some.
    + rewrite (sbind_ok _ _ _ _ _ Hocc). exists h'. split; [done|]. split; [|by exists k', vs2].
      apply NoDup_app. split_and!; [done| |apply NoDup_singleton]. intros u Hu ->%list_elem_of_singleton. done.
Qed.
End Dictionary.

(** * At concrete inputs *)

Section Samples.
Definition sample_hash : @BytesRefHash.t DirectBytesStartArray.t :=
  mk 4 2 3 0 None (replicate 4 (-1)) (DirectBytesStartArray.mk 2 (replicate 5 0) true) 16.
Definition sample_pool : ByteBlockPool.t := ByteBlockPool.new AllocatorByte.new_direct.
Definition term (l : list Z) : BytesRef.t := BytesRef.from_bytes l.

Lemma sample_from : from_bytes_start_array 4 0 (DirectBytesStartArray.new 2) = Ok sample_hash.
Proof. reflexivity. Qed.

Lemma sample_empty seed : Rep seed sample_hash sample_pool [].
Proof.
  assert (Hw : WF sample_pool) by (apply wf_new; done).
  destruct (from_bytes_start_array_ok seed (DirectBytesStartArray.new 2) sample_pool 2 0) as (h & Hh & HR);
    [cbn; lia|lia|done|].
  change (2 ^ 2) with 4 in Hh. rewrite sample_from in Hh. by injection Hh as <-.
Qed.

Lemma sample_not_full t : ~ full sample_pool t.
Proof. intros [_ Hf]. by vm_compute in Hf. Qed.

Lemma sample_one seed : exists h p, add seed (term [1; 2]) (sample_hash, sample_pool) = (Ok 0, (h, p)) /\
  Rep seed h p [[1; 2]].
Proof.
  destruct (add_new_fits seed sample_hash sample_pool [] (term [1; 2])) as (h & p & Ha & HR & _);
    [apply sample_empty|apply BytesRef.from_bytes_valid| | |vm_compute; discriminate|apply sample_not_full|eauto].
  - repeat apply Forall_cons_2; try apply Forall_nil_2; unfold in_u; lia.
  - apply not_elem_of_nil.
Qed.

Lemma bytes_of (l : list Z) : forallb (fun x => (0 <=? x) && (x <? 256)) l = true -> Forall (in_u 8) l.
Proof.
  induction l as [|x l IH]; cbn; [done|]. intros [Hx Hl]%andb_true_iff.
  apply Forall_cons_2; [unfold in_u; change (2 ^ 8) with 256; lia|auto].
Qed.

Lemma add_refines_witness :
  exists h p, add 7 (term [1; 2]) (sample_hash, sample_pool) = (Ok 0, (h, p)) /\
    Rep 7 h p [[1; 2]] /\ add 7 (term [1; 2]) (h, p) = (Ok (-1), (h, p)).
Proof.
  destruct (BytesRef.from_bytes_valid [1; 2]) as [Hv Hc].
  assert (Hb : Forall (in_u 8) (BytesRef.contents (term [1; 2]))) by by apply bytes_of.
  destruct (add_refines 7 sample_hash sample_pool [] (term [1; 2]) (sample_empty 7) Hv Hb ltac:(done)) as [_ Hn].
  specialize (Hn (not_elem_of_nil _)). rewrite decide_False in Hn by (vm_compute; intros [=]).
  rewrite decide_False in Hn by (apply sample_not_full). destruct Hn as (h & p & Ha & HR & _).
  exists h, p. split; [exact Ha|]. split; [exact HR|].
  apply (proj1 (add_refines 7 h p [[1; 2]] (term [1; 2]) HR Hv Hb ltac:(done)) 0%nat). done.
Defined.

Lemma lookups_correct_witness :
  exists h p pos block, find 7 h (term [1; 2]) p = Ok 0 /\ find 7 h (term [2; 1]) p = Ok (-1) /\
    get h 0 p = Ok pos /\ vget (buffers p) (block_index pos) = Ok block /\
    vslice block (pos_offset pos) (pos_offset pos + pos_length pos) = Ok [1; 2].
Proof.
  destruct (sample_one 7) as (h & p & _ & HR).
  destruct (lookups_correct 7 h p [[1; 2]] (term [1; 2]) HR) as (Hf & _ & Hg);
    [apply BytesRef.from_bytes_valid|by apply bytes_of|done|].
  destruct (lookups_correct 7 h p [[1; 2]] (term [2; 1]) HR) as (_ & Hn & _);
    [apply BytesRef.from_bytes_valid|by apply bytes_of|done|].
  destruct (Hg 0%nat [1; 2] eq_refl) as (pos & block & start & Hget & Hblock & Hsl & _).
  exists h, p, pos, block. split_and!; [by apply (Hf 0%nat)| |done..].
  apply Hn. intros [Hx|Hx]%elem_of_cons; [discriminate Hx|by apply not_elem_of_nil in Hx].
Defined.

Lemma compact_collects_ids_witness :
  exists (h : @BytesRefHash.t DirectBytesStartArray.t) front m, ids h = front ++ replicate m (-1) /\ front ≡ₚ [0] /\ count h = 1.
Proof.
  destruct (sample_one 7) as (h & p & _ & HR).
  destruct (compact_collects_ids 7 h p [[1; 2]] HR) as (h' & front & m & _ & Hi & Hp & Hc).
  by exists h', front, m.
Defined.

Lemma clear_then_reinit_witness :
  exists h p h' p', Rep 7 h p [[1; 2]] /\ (let* _ := close in reinit) (h, p) = (Ok tt, (h', p')) /\
    Rep 7 h' p' [] /\ content p' = [].
Proof.
  destruct (sample_one 7) as (h & p & _ & HR).
  destruct (clear_then_reinit 7 h p [[1; 2]] true HR) as [_ (h' & p' & Hr & HR' & Hc)].
  by exists h, p, h', p'.
Defined.

Lemma add_by_pool_offset_refines_witness :
  exists h', add_by_pool_offset 7 40 (sample_hash, sample_pool) = (Ok 0, (h', sample_pool)) /\
    add_by_pool_offset 7 40 (h', sample_pool) = (Ok (-1), (h', sample_pool)).
Proof.
  assert (H0 : OffsetRep sample_hash []).
  { split; [apply NoDup_nil_2|]. destruct (sample_empty 7) as [_ (k & vs & Hh & _) _ _].
    exists k, vs. split; [exact Hh|apply prefix_nil]. }
  destruct (add_by_pool_offset_refines 7 sample_hash sample_pool [] 40 H0) as [_ Hn];
    [unfold in_s; lia|cbn; lia|].
  destruct (Hn (not_elem_of_nil _)) as (h' & Ha & HR). exists h'. split; [exact Ha|].
  apply (proj1 (add_by_pool_offset_refines 7 h' sample_pool [40] 40 HR ltac:(unfold in_s; lia) ltac:(cbn; lia)) 0%nat).
  done.
Defined.
End Samples.
End BytesRefDictionary.
