(* ===== verification/ByteSlices.v ===== *)
(** Byte streams of unknown length inside a shared pool: [ByteSlicePool]
    (src/core/index/byte_slice_pool.rs), which chains slices of growing sizes, and
    [ByteSliceReader] (src/core/index/byte_slice_reader.rs), which follows such a
    chain. A slice starts out zero-filled and ends with a non-zero level byte; when it
    is full its last four bytes become the address of the next slice. *)

From Stdlib Require Import ZArith Lia Bool.
From stdpp Require Import base tactics numbers list.
From S2P Require Import Prelude ArrayUtil BitUtil DataOutput DataInput GroupVInt StringHelper ByteBlockPool.
Import BitUtil.

Local Open Scope Z_scope.

(** * Slices *)

Module ByteSlicePool.
Import ByteBlockPool.

Definition LEVEL_SIZE_ARRAY : list Z := [5; 14; 20; 30; 40; 40; 80; 80; 120; 200].
Definition NEXT_LEVEL_ARRAY : list Z := [1; 2; 3; 4; 5; 6; 7; 8; 9; 9].
Definition FIRST_LEVEL_SIZE : Z := 5.

(** [get_buffer_mut(i)] with an update of the block: the blocks are owned vectors. *)
Definition update_buffer (i : Z) (f : list Z -> result (list Z)) : ST t unit := fun p =>
  match (let? b := vget (buffers p) i in
         let? b := f b in
         vset (buffers p) i b) with
  | Ok bs => (Ok tt, with_buffers p bs)
  | _ => (Panic, p)
  end.

Definition get_buffer (p : t) (i : Z) : result (list Z) := vget (buffers p) i.
Definition get_buffer_or_empty (p : t) (i : Z) : list Z :=
  match vget (buffers p) i with Ok b => b | _ => [] end.

(** Leaves the current block when [size] bytes do not fit it. *)
Definition make_room (size : Z) : ST t unit :=
  let* p := sget in
  if BYTE_BLOCK_SIZE - size <? byte_upto p then let* _ := next_buffer in sret tt
  else sret tt.

Definition new_slice (size : Z) : ST t Z :=
  if BYTE_BLOCK_SIZE <? size then slift (Err IllegalArgument)
  else
    let* _ := make_room size in
    let* p := sget in
    let upto := byte_upto p in
    let* _ := advance_upto size in
    let* buffer_upto := slift (upto_or_error p) in
    let* _ := update_buffer buffer_upto (fun b => vset b (upto + size - 1) 16) in
    sret upto.

(** A value whose low 8 bits are the length of the new slice and whose other bits are
    its offset in the current block. *)
Definition alloc_known_size_slice (slice_index upto : Z) : ST t Z :=
  let* p := sget in
  let* level := slift (let? slice := get_buffer p slice_index in
                       let? b := vget slice upto in
                       Ok (Z.land b 15)) in
  let* new_level := slift (vget NEXT_LEVEL_ARRAY level) in
  let* new_size := slift (vget LEVEL_SIZE_ARRAY new_level) in
  let* _ := make_room new_size in
  let* p := sget in
  let new_upto := byte_upto p in
  let offset := new_upto + byte_offset p in
  let* _ := advance_upto new_size in
  let* past3_bytes := slift (let? slice := get_buffer p slice_index in
                             let? v := get_i32_le slice (upto - 3) in
                             Ok (Z.land v 0xFFFFFF)) in
  let* buffer_upto := slift (upto_or_error p) in
  let* _ := update_buffer buffer_upto (fun b =>
              let? c := vget b (new_upto + 3) in
              let? _ := debug_assert (c =? 0) in
              set_i32_le b new_upto past3_bytes) in
  let* _ := update_buffer slice_index (fun b => set_i32_le b (upto - 3) offset) in
  let* _ := update_buffer buffer_upto (fun b =>
              vset b (new_upto + new_size - 1) (as_u8 (Z.lor 16 new_level))) in
  sret (Z.lor (Z.shiftl (new_upto + 3) 8) (new_size - 3)).

Definition alloc_slice (slice_index upto : Z) : ST t Z :=
  let* r := alloc_known_size_slice slice_index upto in
  sret (Z.shiftr r 8).
End ByteSlicePool.

(** * Reading a chain *)

Module ByteSliceReader.
Import ByteSlicePool.

(** [buffer] is the block [buffer_upto] of [pool], or empty where there is none. *)
Record t := mk {
  pool : ByteBlockPool.t;
  buffer_upto : Z;
  buffer : list Z;
  upto : Z;
  limit : Z;
  level : Z;
  buffer_offset : Z;
  end_index : Z }.

Definition new (pool : ByteBlockPool.t) : t := mk pool 0 [] 0 0 0 0 0.

Definition with_upto (r : t) (u : Z) : t :=
  mk (pool r) (buffer_upto r) (buffer r) u (limit r) (level r) (buffer_offset r) (end_index r).

Definition eof (r : t) : result bool :=
  let? _ := debug_assert (upto r + buffer_offset r <=? end_index r) in
  Ok (upto r + buffer_offset r =? end_index r).

(** [usize] subtraction. *)
Definition usub (a b : Z) : result Z := if b <=? a then Ok (a - b) else Panic.

Definition init (r : t) (start_index end_index : Z) : result t :=
  let? _ := debug_assert (start_index <=? end_index) in
  let buffer_upto := start_index / BYTE_BLOCK_SIZE in
  let upto := Z.land start_index BYTE_BLOCK_MASK in
  let? first_size := vget LEVEL_SIZE_ARRAY 0 in
  let limit := if end_index <=? start_index + first_size then Z.land end_index BYTE_BLOCK_MASK
               else upto + first_size - 4 in
  Ok (mk (pool r) buffer_upto (get_buffer_or_empty (pool r) buffer_upto) upto limit 0
        (buffer_upto * BYTE_BLOCK_SIZE) end_index).

Definition next_slice : ST t unit := fun r =>
  match (let? v := get_i32_le (buffer r) (limit r) in
         let? next_index := try_convert_usize v in
         let? level := vget NEXT_LEVEL_ARRAY (level r) in
         let? new_size := vget LEVEL_SIZE_ARRAY level in
         let buffer_upto := next_index / BYTE_BLOCK_SIZE in
         let buffer_offset := buffer_upto * BYTE_BLOCK_SIZE in
         let upto := Z.land next_index BYTE_BLOCK_MASK in
         let? limit := (if end_index r <=? next_index + new_size then
                          let? rest := usub (end_index r) next_index in
                          let? _ := debug_assert (0 <? rest) in
                          usub (end_index r) buffer_offset
                        else usub (upto + new_size) 4) in
         Ok (mk (pool r) buffer_upto (get_buffer_or_empty (pool r) buffer_upto) upto limit level
               buffer_offset (end_index r))) with
  | Ok r => (Ok tt, r)
  | Err e => (Err e, r)
  | _ => (Panic, r)
  end.

Definition read_byte : ST t Z :=
  let* r := sget in
  let* at_end := slift (eof r) in
  let* _ := slift (debug_assert (negb at_end)) in
  let* _ := slift (debug_assert (upto r <=? limit r)) in
  let* _ := (if upto r =? limit r then next_slice else sret tt) in
  let* r := sget in
  let* byte := slift (vget (buffer r) (upto r)) in
  let* _ := sput (with_upto r (upto r + 1)) in
  sret byte.

(** [consume_bytes]: [consume acc slice] is the closure; every turn but the first and
    the last consumes at least one byte of a chain the pool built. *)
Fixpoint consume_bytes {A} (fuel : nat) (len : Z) (consume : A -> list Z -> result A) (acc : A) : ST t A :=
  match fuel with
  | O => slift OutOfFuel
  | S fuel =>
      if 0 <? len then
        let* r := sget in
        let* num_left := slift (usub (limit r) (upto r)) in
        if num_left <? len then
          let* acc := slift (let? s := vslice (buffer r) (upto r) (upto r + num_left) in consume acc s) in
          let* _ := next_slice in
          consume_bytes fuel (len - num_left) consume acc
        else
          let* acc := slift (let? s := vslice (buffer r) (upto r) (upto r + len) in consume acc s) in
          let* _ := sput (with_upto r (upto r + len)) in
          sret acc
      else sret acc
  end.

Definition turns_for (len : Z) : nat := S (S (Z.to_nat len)).

Definition get_bytes (len : Z) : ST t (list Z) :=
  if len =? 0 then sret []
  else
    let* r := sget in
    let* num_left := slift (usub (limit r) (upto r)) in
    if len <=? num_left then
      let* _ := sput (with_upto r (upto r + len)) in
      slift (vslice (buffer r) (upto r) (upto r + len))
    else consume_bytes (turns_for len) len (fun bytes slice => Ok (bytes ++ slice)) [].

(** Answers the target after the copy. *)
Definition read_bytes (b : list Z) (offset len : Z) : ST t (list Z) :=
  let* (b, _) := consume_bytes (turns_for len) len
    (fun '(b, offset) slice =>
       let? b := vcopy b offset slice in Ok (b, offset + Z.of_nat (length slice))) (b, offset) in
  sret b.

Fixpoint skip_loop (fuel : nat) (num_bytes : Z) : ST t unit :=
  match fuel with
  | O => slift OutOfFuel
  | S fuel =>
      if 0 <? num_bytes then
        let* r := sget in
        let* num_left := slift (usub (limit r) (upto r)) in
        if num_left <? num_bytes then
          let* _ := next_slice in
          skip_loop fuel (num_bytes - num_left)
        else sput (with_upto r (upto r + num_bytes))
      else sret tt
  end.

Definition skip_bytes (num_bytes : Z) : ST t unit :=
  if num_bytes <? 0 then slift (Err IllegalArgument)
  else skip_loop (turns_for num_bytes) num_bytes.

#[global] Instance data_input : DataInput t := {
  DataInput.read_byte := read_byte;
  DataInput.get_bytes := get_bytes;
  DataInput.read_bytes := read_bytes;
  DataInput.read_short := default_read_short read_byte;
  DataInput.read_int := default_read_int read_byte;
  DataInput.read_long := default_read_long (default_read_int read_byte);
  DataInput.skip_bytes := skip_bytes;
}.

Definition read_group_vint : list Z -> Z -> ST t (list Z) := GroupVIntUtil.read_group_vint_i32.

(** [write]: everything up to [end_index] goes to the output, one piece per slice; the
    state is the reader and the output. *)
Section Write.
Context {Out : Type} {DO : DataOutput Out}.

Definition on_reader {A} (m : ST t A) : ST (t * Out) A := fun '(r, o) =>
  let '(a, r') := m r in (a, (r', o)).
Definition on_output {A} (m : ST Out A) : ST (t * Out) A := fun '(r, o) =>
  let '(a, o') := m o in (a, (r, o')).

Fixpoint write_loop (fuel : nat) (size : Z) : ST (t * Out) Z :=
  match fuel with
  | O => slift OutOfFuel
  | S fuel =>
      let* (r, _) := sget in
      let* buffer := slift (match buffer r with
                            | [] => get_buffer (pool r) (buffer_upto r)
                            | _ => Ok (buffer r)
                            end) in
      let last := limit r + buffer_offset r =? end_index r in
      let* _ := (if last then
                   let* rest := slift (usub (end_index r) (buffer_offset r)) in
                   slift (debug_assert (upto r <=? rest))
                 else sret tt) in
      let* num := slift (usub (limit r) (upto r)) in
      let* _ := on_output (write_bytes_range buffer (upto r) num) in
      if last then sret (size + num)
      else
        let* _ := on_reader next_slice in
        write_loop fuel (size + num)
  end.

Definition write : ST (t * Out) Z := fun s => write_loop (S (Z.to_nat (end_index (fst s)))) 0 s.
End Write.
End ByteSliceReader.
