(* ===== verification/ByteSliceProofs.v ===== *)
(** What the slices of ByteSlices.v promise: a pool as one flat memory, chains of
    slices in it, how an allocation extends a chain and leaves every other byte alone,
    and that a reader yields the bytes of a chain in order. *)

From Stdlib Require Import ZArith Lia Bool.
From stdpp Require Import base tactics numbers list.
From S2P Require Import Prelude ArrayUtil BitUtil DataOutput DataInput StringHelper ByteBlockPool ByteSlices.
Import BitUtil ByteBlockPool PoolFacts.

Local Open Scope Z_scope.

(** * Flat memory *)

Module Flat.
(** The [n] bytes at address [a], and a memory with [bs] written at [a]. *)
Definition seg (M : list Z) (a n : Z) : list Z := take (Z.to_nat n) (drop (Z.to_nat a) M).
Definition splice (M : list Z) (a : Z) (bs : list Z) : list Z :=
  take (Z.to_nat a) M ++ bs ++ drop (Z.to_nat a + length bs) M.
Definition size (M : list Z) : Z := Z.of_nat (length M).

Lemma seg_size M a n : 0 <= a -> 0 <= n -> a + n <= size M -> Z.of_nat (length (seg M a n)) = n.
Proof. unfold seg, size. intros. rewrite length_take, length_drop. lia. Qed.

Lemma seg_app M a n m : 0 <= a -> 0 <= n -> 0 <= m -> seg M a (n + m) = seg M a n ++ seg M (a + n) m.
Proof.
  intros. unfold seg. rewrite Z2Nat.inj_add by lia. rewrite <- take_take_drop, drop_drop.
  do 3 f_equal. lia.
Qed.

Lemma seg_parts M a n d e : 0 <= a -> seg M a n = d ++ e -> n = Z.of_nat (length d + length e) ->
  seg M a (Z.of_nat (length d)) = d /\ seg M (a + Z.of_nat (length d)) (Z.of_nat (length e)) = e.
Proof.
  intros Ha Hs ->. rewrite Nat2Z.inj_add, seg_app in Hs by lia.
  assert (length d = length (seg M a (Z.of_nat (length d)))) as Hl.
  { apply (f_equal length) in Hs. rewrite !length_app in Hs. revert Hs. unfold seg.
    rewrite !length_take. lia. }
  by apply app_inj_1 in Hs.
Qed.

Lemma seg_agree M M' a n : (forall x, a <= x < a + n -> M' !! Z.to_nat x = M !! Z.to_nat x) ->
  0 <= a -> seg M' a n = seg M a n.
Proof.
  intros H Ha. unfold seg. apply list_eq. intros i.
  destruct (decide (i < Z.to_nat n)%nat).
  - rewrite !lookup_take_lt, !lookup_drop by done.
    specialize (H (a + Z.of_nat i) ltac:(lia)). by replace (Z.to_nat (a + Z.of_nat i)) with (Z.to_nat a + i)%nat in H by lia.
  - by rewrite !lookup_take_ge by lia.
Qed.

Lemma seg_grow M X a n : 0 <= a -> 0 <= n -> a + n <= size M -> seg (M ++ X) a n = seg M a n.
Proof.
  intros Ha Hn Hl. unfold size in Hl. apply seg_agree; [|done]. intros x Hx.
  rewrite lookup_app_l by lia. done.
Qed.

Lemma seg_lookup M a n d x e : 0 <= a -> seg M a n = d ++ x :: e ->
  M !! Z.to_nat (a + Z.of_nat (length d)) = Some x.
Proof.
  intros Ha Hs. assert (seg M a n !! length d = Some x) as Hl by (by rewrite Hs, list_lookup_middle).
  unfold seg in Hl. apply lookup_take_Some in Hl as [Hl _]. rewrite lookup_drop in Hl.
  by replace (Z.to_nat (a + Z.of_nat (length d))) with (Z.to_nat a + length d)%nat by lia.
Qed.

Section Splice.
Context (M : list Z) (a : Z) (bs : list Z) (Ha : 0 <= a) (Hl : a + Z.of_nat (length bs) <= size M).

Lemma splice_size : size (splice M a bs) = size M.
Proof using Ha Hl. unfold size, splice in *. rewrite !length_app, length_take, length_drop. lia. Qed.

Lemma splice_lookup x : 0 <= x -> x < a \/ a + Z.of_nat (length bs) <= x ->
  splice M a bs !! Z.to_nat x = M !! Z.to_nat x.
Proof using Ha Hl.
  unfold splice, size in *. intros Hx [H|H].
  - rewrite lookup_app_l by (rewrite length_take; lia). rewrite lookup_take_lt by lia. done.
  - assert (length (take (Z.to_nat a) M) = Z.to_nat a) as Ht by (rewrite length_take; lia).
    rewrite !lookup_app_r by lia. rewrite lookup_drop, Ht. f_equal. lia.
Qed.

Lemma seg_splice_off s n : 0 <= s -> s + n <= a \/ a + Z.of_nat (length bs) <= s ->
  seg (splice M a bs) s n = seg M s n.
Proof using Ha Hl. intros Hs H. apply seg_agree; [|done]. intros x Hx. apply splice_lookup; lia. Qed.

Lemma seg_splice_at : seg (splice M a bs) a (Z.of_nat (length bs)) = bs.
Proof using Ha Hl.
  unfold seg, splice, size in *.
  assert (length (take (Z.to_nat a) M) = Z.to_nat a) as Ht by (rewrite length_take; lia).
  rewrite drop_app_length' by done. by rewrite take_app_length' by lia.
Qed.

(** Writing inside a segment replaces the middle of it. *)
Lemma seg_splice_in s n d x e : 0 <= s -> s + n <= size M -> seg M s n = d ++ x ++ e ->
  n = Z.of_nat (length d + length x + length e) ->
  a = s + Z.of_nat (length d) -> length x = length bs ->
  seg (splice M a bs) s n = d ++ bs ++ e.
Proof using Ha Hl.
  intros Hs Hsz Hseg -> Hae Hx.
  destruct (seg_parts M s _ d (x ++ e) Hs Hseg) as [Hd He]; [rewrite length_app; lia|].
  destruct (seg_parts M (s + Z.of_nat (length d)) _ x e ltac:(lia) He) as [_ He']; [rewrite length_app; lia|].
  replace (Z.of_nat (length d + length x + length e)) with
    (Z.of_nat (length d) + (Z.of_nat (length bs) + Z.of_nat (length e))) by lia.
  rewrite !seg_app by lia. rewrite <- Hae in *. rewrite seg_splice_at, !seg_splice_off, Hd by lia.
  rewrite Hx in He'. by rewrite He'.
Qed.
End Splice.
End Flat.
Import Flat.

(** ** The blocks as one memory *)

Module PoolMemory.
Import ByteSlicePool.

Lemma concat_update (bs : list (list Z)) i b pos x :
  Forall full_block bs -> bs !! i = Some b -> 0 <= pos -> pos + Z.of_nat (length x) <= BYTE_BLOCK_SIZE ->
  concat (<[i := take (Z.to_nat pos) b ++ x ++ drop (Z.to_nat pos + length x) b]> bs)
    = splice (concat bs) (Z.of_nat i * BYTE_BLOCK_SIZE + pos) x.
Proof.
  intros Hf Hi Hp Hx. pose proof (lookup_lt_Some _ _ _ Hi) as Hlt.
  pose proof (Forall_lookup_1 _ _ _ _ Hf Hi) as [Hlen _]. pose proof block_size_val as HB.
  rewrite insert_take_drop by done. rewrite <- (take_drop_middle bs i b Hi) at 3.
  rewrite !concat_app. cbn [concat]. set (l := concat (take i bs)). set (r := concat (drop (S i) bs)).
  assert (Z.of_nat (length l) = Z.of_nat i * BYTE_BLOCK_SIZE) as Hl.
  { unfold l. rewrite blocks_length by by apply Forall_take. rewrite length_take. lia. }
  unfold splice. replace (Z.to_nat (Z.of_nat i * BYTE_BLOCK_SIZE + pos)) with (length l + Z.to_nat pos)%nat by lia.
  rewrite take_app_add. rewrite (take_app_le b) by lia. rewrite <- Nat.add_assoc, drop_app_add, (drop_app_le b) by lia.
  by rewrite <- !app_assoc.
Qed.

Lemma wf_max p : WF p -> size (memory p) = BYTE_BLOCK_SIZE * Z.of_nat (length (buffers p)) /\
  size (memory p) <= 65536 * BYTE_BLOCK_SIZE /\ position p <= size (memory p).
Proof.
  intros H. unfold size, memory. pose proof (wf_position p H). rewrite blocks_length by apply H.
  pose proof block_size_val. destruct H as [_ _ Hs]. destruct (buffer_upto p); [nia|]. destruct Hs as [E _]. rewrite E in *. cbn [length Z.of_nat] in *. lia.
Qed.

Lemma wf_with_buffers p b : WF p -> Forall full_block b -> length b = length (buffers p) -> WF (with_buffers p b).
Proof.
  intros [Hb Ha Hs] Hf Hl. constructor; cbn; [done..|]. destruct (buffer_upto p); [by rewrite Hl|].
  destruct Hs as [E ?]. split; [|done]. rewrite E in Hl. by destruct b.
Qed.

(** A write inside one block is a write to the memory. *)
Lemma update_buffer_ok p a bs f : WF p -> 0 <= a < size (memory p) ->
  a mod BYTE_BLOCK_SIZE + Z.of_nat (length bs) <= BYTE_BLOCK_SIZE -> Forall (in_u 8) bs ->
  (forall b, full_block b -> memory p !! Z.to_nat a = b !! Z.to_nat (a mod BYTE_BLOCK_SIZE) ->
     seg (memory p) a (Z.of_nat (length bs)) = seg b (a mod BYTE_BLOCK_SIZE) (Z.of_nat (length bs)) ->
     f b = vcopy b (a mod BYTE_BLOCK_SIZE) bs) ->
  exists b, update_buffer (a / BYTE_BLOCK_SIZE) f p = (Ok tt, with_buffers p b) /\
    WF (with_buffers p b) /\ memory (with_buffers p b) = splice (memory p) a bs /\ length b = length (buffers p).
Proof.
  intros H Ha Hfit Hbs Hf. pose proof block_size_val as HB.
  destruct (wf_max p H) as (Hsz & _ & _).
  pose proof (Z.div_mod a BYTE_BLOCK_SIZE ltac:(lia)) as Hdm.
  pose proof (Z.mod_pos_bound a BYTE_BLOCK_SIZE ltac:(lia)) as Hmb.
  assert (0 <= a / BYTE_BLOCK_SIZE < Z.of_nat (length (buffers p))) as Hi by nia.
  destruct (vget_in (buffers p) (a / BYTE_BLOCK_SIZE) Hi) as (b & Hlk & Hg).
  pose proof (Forall_lookup_1 _ _ _ _ (wf_blocks p H) Hlk) as Hb. destruct Hb as [Hlen Hu].
  unfold update_buffer. rewrite Hg. cbn [rbind].
  destruct (block_slice (buffers p) (a / BYTE_BLOCK_SIZE) (a mod BYTE_BLOCK_SIZE) 1 (wf_blocks p H)) as (b1 & Hg1 & Hs1); [lia..|].
  rewrite Hg in Hg1. injection Hg1 as <-.
  destruct (block_slice (buffers p) (a / BYTE_BLOCK_SIZE) (a mod BYTE_BLOCK_SIZE) (Z.of_nat (length bs)) (wf_blocks p H))
    as (b2 & Hg2 & Hs2); [lia..|].
  rewrite Hg in Hg2. injection Hg2 as <-.
  rewrite vslice_ok in Hs1, Hs2 by lia.
  replace (a / BYTE_BLOCK_SIZE * BYTE_BLOCK_SIZE + a mod BYTE_BLOCK_SIZE) with a in Hs1, Hs2 by lia.
  fold (memory p) in Hs1, Hs2. injection Hs1 as Hs1. injection Hs2 as Hs2.
  rewrite Hf.
  2: by split.
  2: { apply (f_equal (fun l => l !! 0%nat)) in Hs1. rewrite !lookup_take_lt, !lookup_drop, !Nat.add_0_r in Hs1 by lia. done. }
  2: { unfold seg. rewrite <- Hs2. f_equal. lia. }
  rewrite vcopy_def by lia. cbn [rbind]. rewrite vset_ok by lia.
  eexists. split; [done|].
  assert (Hlen' : length (take (Z.to_nat (a mod BYTE_BLOCK_SIZE)) b ++ bs ++
      drop (Z.to_nat (a mod BYTE_BLOCK_SIZE) + length bs) b) = length b)
    by (rewrite !length_app, length_take, length_drop; lia).
  split_and!.
  - apply wf_with_buffers; [done| |by rewrite length_insert].
    apply Forall_insert; [apply H|]. split; [lia|]. rewrite !Forall_app. split_and!; auto using Forall_take, Forall_drop.
  - unfold memory at 1. cbn [buffers with_buffers].
    rewrite concat_update by (try apply H; try done; lia). fold (memory p). f_equal. lia.
  - by rewrite length_insert.
Qed.
End PoolMemory.

(** * Room for a slice *)

Module Room.
Import ByteSlicePool PoolMemory.

(** Everything from the write position on is zero. *)
Definition Clean (p : t) : Prop :=
  WF p /\ forall a, position p <= a < size (memory p) -> memory p !! Z.to_nat a = Some 0.

Lemma clean_wf p : Clean p -> WF p.
Proof. by intros []. Qed.

Lemma zero_seg M a n : 0 <= a -> 0 <= n ->
  (forall x, a <= x < a + n -> M !! Z.to_nat x = Some 0) -> seg M a n = replicate (Z.to_nat n) 0.
Proof.
  intros Ha Hn H. unfold seg. apply list_eq. intros i. destruct (decide (i < Z.to_nat n)%nat).
  - rewrite lookup_take_lt, lookup_drop, lookup_replicate_2 by done.
    rewrite <- (H (a + Z.of_nat i)) by lia. f_equal. lia.
  - rewrite lookup_take_ge by lia. symmetry. apply lookup_ge_None_2. rewrite length_replicate. lia.
Qed.

(** What an operation on the pool may change: the memory grows, the write position
    moves up, and below the old position only the addresses in [W] change. *)
Record grows (W : Z -> Prop) (p p' : t) : Prop := mkGrows {
  grows_clean : Clean p';
  grows_pos : position p <= position p';
  grows_size : size (memory p) <= size (memory p');
  grows_same a : 0 <= a < position p -> ~ W a -> memory p' !! Z.to_nat a = memory p !! Z.to_nat a }.

Lemma grows_refl W p : Clean p -> grows W p p.
Proof. by constructor. Qed.

Lemma grows_trans W W' p p' p'' : grows W p p' -> grows W' p' p'' ->
  (forall a, 0 <= a < position p -> W' a -> W a) -> grows W p p''.
Proof.
  intros [C1 P1 S1 A1] [C2 P2 S2 A2] Hi. constructor; [done|lia..|].
  intros a Ha Hw. rewrite A2, A1; [done|done|done|lia|]. intros H. by apply Hw, Hi.
Qed.

Lemma grows_weaken W W' p p' : grows W p p' -> (forall a, 0 <= a < position p -> W a -> W' a) -> grows W' p p'.
Proof. intros [C P S A] H. constructor; try done. intros a Ha Hw. apply A; [done|]. auto. Qed.

(** The pool stands in a block that has [n] bytes left, at address [position p]. *)
Definition roomy (p : t) (n : Z) : Prop :=
  exists u, buffer_upto p = Some u /\ byte_upto p + n <= BYTE_BLOCK_SIZE /\
    position p / BYTE_BLOCK_SIZE = u /\ position p mod BYTE_BLOCK_SIZE = byte_upto p /\ byte_offset p = u * BYTE_BLOCK_SIZE.

Lemma roomy_intro p n : WF p -> 0 < n -> byte_upto p + n <= BYTE_BLOCK_SIZE -> roomy p n.
Proof.
  intros H Hn Hb. pose proof (wf_shape p H) as Hs. pose proof block_size_val as HB.
  destruct (buffer_upto p) as [u|] eqn:E; [|lia]. destruct Hs as (Hu & Hl & Ho & Hup).
  exists u. unfold position. rewrite Ho.
  split_and!; try done; symmetry; [apply Z.div_unique with (byte_upto p)|apply Z.mod_unique with u]; lia.
Qed.

Lemma roomy_size p n : WF p -> 0 < n -> roomy p n -> position p + n <= size (memory p).
Proof.
  intros H Hn (u & Hu & Hb & _ & _ & Ho). destruct (wf_max p H) as (Hsz & _ & _).
  pose proof (wf_shape p H) as Hs. rewrite Hu in Hs. unfold position. pose proof block_size_val. nia.
Qed.

(** The only way to fail is that the pool may not grow any more. *)
Definition full (p : t) (n : Z) : Prop :=
  BYTE_BLOCK_SIZE < byte_upto p + n /\ i32_MAX < byte_offset p + BYTE_BLOCK_SIZE.

Lemma make_room_ok p n : Clean p -> 0 < n <= BYTE_BLOCK_SIZE ->
  if decide (full p n) then exists p', make_room n p = (Err NumberOverflow, p')
  else exists p', make_room n p = (Ok tt, p') /\ grows (fun _ => False) p p' /\ roomy p' n /\
    position p' < position p + n.
Proof.
  intros [H Hc] Hn. unfold make_room. rewrite sget_sbind. unfold full.
  destruct (Z.ltb_spec (BYTE_BLOCK_SIZE - n) (byte_upto p)) as [Hlt|Hge].
  2: { rewrite decide_False by lia. exists p. split_and!; [done|by apply grows_refl|apply roomy_intro; [done|lia..]|]. pose proof block_size_val. lia. }
  case_decide as Hfull.
  - destruct (next_buffer_err p) as (p' & Hn'); [lia|]. exists p'. unfold sbind. by rewrite Hn'.
  - destruct (next_buffer_ok p H) as (p' & Hn' & Hw & Hu & Hup & Hoff & Hcont & _); [lia|].
    exists p'. rewrite (sbind_ok _ _ _ _ _ Hn'). split; [done|].
    assert (Hpos' : position p' = size (memory p)).
    { unfold size. rewrite <- Hcont. symmetry. apply (content_length p' Hw). }
    destruct (wf_max p H) as (Hsz & Hmx & Hle). destruct (wf_max p' Hw) as (Hsz' & _ & Hle').
    assert (Hpre : forall x, 0 <= x < size (memory p) -> memory p' !! Z.to_nat x = memory p !! Z.to_nat x).
    { intros x Hx. rewrite <- Hcont. unfold content. rewrite lookup_take_lt by lia. done. }
    assert (Hmem : exists k, memory p' = memory p ++ replicate k 0).
    { revert Hn'. unfold next_buffer, AllocatorByte.get_byte_block.
      pose proof (wf_shape p H) as Hs.
      assert ((match buffer_upto p with Some upto => upto + 1 | None => 0 end =? Z.of_nat (length (buffers p))) = true) as ->.
      { apply Z.eqb_eq. destruct (buffer_upto p); [lia|]. destruct Hs as [-> _]. done. }
      cbn [buffers byte_offset]. rewrite (proj2 (Z.ltb_ge _ _)) by lia. intros [= _ <-].
      unfold memory. cbn [buffers]. rewrite concat_app. cbn [concat]. rewrite app_nil_r. by eexists. }
    destruct Hmem as (k & Hmem).
    split_and!; [|apply roomy_intro; [done|lia..]|].
    + constructor; [split; [done|]|lia|lia|].
      * intros a Ha. rewrite Hmem, lookup_app_r by (unfold size in *; lia).
        apply lookup_replicate_2. revert Ha. rewrite Hmem at 1. unfold size in *. rewrite length_app, length_replicate. lia.
      * intros a Ha _. apply Hpre. lia.
    + rewrite Hpos', Hsz. pose proof (wf_shape p H) as Hs. unfold position. pose proof block_size_val.
      destruct (buffer_upto p); [nia|]. destruct Hs as [-> ?]. cbn. lia.
Qed.

(** [advance_upto] inside the block hands out zeros. *)
Lemma advance_ok p n : Clean p -> 0 < n -> roomy p n ->
  Clean (with_byte_upto p (byte_upto p + n)) /\ memory (with_byte_upto p (byte_upto p + n)) = memory p /\
  position (with_byte_upto p (byte_upto p + n)) = position p + n.
Proof.
  intros [H Hc] Hn Hr. assert (position (with_byte_upto p (byte_upto p + n)) = position p + n) as Hp
    by (unfold position; cbn; lia).
  split_and!; [|done|done]. split.
  - destruct Hr as (u & Hu & Hb & _). destruct H as [Hbl Ha Hs]. constructor; cbn; [done..|].
    rewrite Hu in *. lia.
  - intros a Ha. change (memory (with_byte_upto p (byte_upto p + n))) with (memory p) in *. apply Hc. lia.
Qed.

(** A write below the position of a clean pool. *)
Lemma write_below_ok p a bs f : Clean p -> 0 <= a -> a + Z.of_nat (length bs) <= position p -> bs <> [] ->
  a mod BYTE_BLOCK_SIZE + Z.of_nat (length bs) <= BYTE_BLOCK_SIZE -> Forall (in_u 8) bs ->
  (forall b, full_block b -> memory p !! Z.to_nat a = b !! Z.to_nat (a mod BYTE_BLOCK_SIZE) ->
     seg (memory p) a (Z.of_nat (length bs)) = seg b (a mod BYTE_BLOCK_SIZE) (Z.of_nat (length bs)) ->
     f b = vcopy b (a mod BYTE_BLOCK_SIZE) bs) ->
  exists p', update_buffer (a / BYTE_BLOCK_SIZE) f p = (Ok tt, p') /\ memory p' = splice (memory p) a bs /\
    Clean p' /\ position p' = position p /\ byte_upto p' = byte_upto p /\ byte_offset p' = byte_offset p /\
    buffer_upto p' = buffer_upto p /\
    grows (fun x => a <= x < a + Z.of_nat (length bs)) p p'.
Proof.
  intros [H Hc] Ha Hpos Hne Hfit Hbs Hf. destruct (wf_max p H) as (Hsz & _ & Hle).
  assert (0 < Z.of_nat (length bs)) by (destruct bs; [done|cbn; lia]).
  destruct (update_buffer_ok p a bs f H) as (b & He & Hw & Hm & Hl); [lia|done..|].
  exists (with_buffers p b). rewrite Hm.
  assert (Clean (with_buffers p b)) as HC.
  { split; [done|]. rewrite Hm. intros x. rewrite splice_size by lia. change (position (with_buffers p b)) with (position p).
    intros Hx. rewrite splice_lookup by lia. apply Hc. lia. }
  split_and!; try done. constructor; try done.
  - rewrite Hm, splice_size by lia. done.
  - intros x Hx Hn. rewrite Hm. apply splice_lookup; lia.
Qed.
End Room.

(** * Chains of slices *)

Module Chain.
Import ByteSlicePool PoolMemory Room.

Definition lsize (l : Z) : Z := default 0 (LEVEL_SIZE_ARRAY !! Z.to_nat l).
Definition lnext (l : Z) : Z := default 0 (NEXT_LEVEL_ARRAY !! Z.to_nat l).
Definition level_ok (l : Z) : Prop := 0 <= l <= 9.

Lemma level_facts l : level_ok l ->
  vget NEXT_LEVEL_ARRAY l = Ok (lnext l) /\ vget LEVEL_SIZE_ARRAY l = Ok (lsize l) /\
  level_ok (lnext l) /\ 5 <= lsize l <= 200 /\ 14 <= lsize (lnext l) <= 200 /\
  Z.land (16 + l) 15 = l /\ as_u8 (Z.lor 16 l) = 16 + l.
Proof.
  unfold level_ok. intros Hl. assert (l ∈ seqZ 0 10) as Hin by (apply elem_of_seqZ; lia). cbv in Hin.
  repeat (apply elem_of_cons in Hin as [->|Hin]; [cbv; repeat split; discriminate || lia|]).
  by apply not_elem_of_nil in Hin.
Qed.

(** [n] bytes from [s] on lie in one block. *)
Definition fits (s n : Z) : Prop := 0 <= s /\ s mod BYTE_BLOCK_SIZE + n <= BYTE_BLOCK_SIZE.

(** [chain M l starts upto data]: slices of the levels [l], [lnext l], ... start at
    [starts]; they hold [data], and the next byte goes to [upto]. Every slice but the
    last ends with the address of its successor, the last one with its level. *)
Inductive chain (M : list Z) : Z -> list Z -> Z -> list Z -> Prop :=
| chain_last l s data k :
    level_ok l -> fits s (lsize l) ->
    seg M s (lsize l) = data ++ replicate k 0 ++ [16 + l] ->
    Z.of_nat (length data + k + 1) = lsize l ->
    chain M l [s] (s + Z.of_nat (length data)) data
| chain_more l s s' rest upto d1 d2 :
    level_ok l -> fits s (lsize l) ->
    seg M s (lsize l) = d1 ++ to_le_bytes 4 s' ->
    Z.of_nat (length d1 + 4) = lsize l ->
    s + lsize l <= s' < 2 ^ 31 -> s' < upto ->
    chain M (lnext l) (s' :: rest) upto d2 ->
    chain M l (s :: s' :: rest) upto (d1 ++ d2).

Fixpoint owned (l : Z) (starts : list Z) (a : Z) : Prop :=
  match starts with
  | [] => False
  | s :: starts => s <= a < s + lsize l \/ owned (lnext l) starts a
  end.

Lemma chain_frame M M' l st upto d : chain M l st upto d ->
  (forall a, owned l st a -> M' !! Z.to_nat a = M !! Z.to_nat a) -> chain M' l st upto d.
Proof.
  induction 1 as [l s d k Hl Hf Hs Hn|l s s' rest upto d1 d2 Hl Hf Hs Hn Hss Hup Hc IH]; intros Ha.
  - apply chain_last with k; try done. rewrite <- Hs. apply seg_agree; [|apply Hf]. intros x Hx. apply Ha. by left.
  - apply chain_more; try done.
    + rewrite <- Hs. apply seg_agree; [|apply Hf]. intros x Hx. apply Ha. by left.
    + apply IH. intros x Hx. apply Ha. by right.
Qed.

Lemma chain_head M l st upto d : chain M l st upto d ->
  exists s rest, st = s :: rest /\ 0 <= s <= upto /\ owned l st s /\ level_ok l.
Proof.
  destruct 1 as [l s d k Hl [? ?] _ _|l s s' rest upto d1 d2 Hl [? ?] _ _ Hss Hup _];
    pose proof (level_facts l Hl) as (_ & _ & _ & ? & _); eexists _, _; split_and!; try done; try lia; left; lia.
Qed.

(** All of a chain lies between its first address and the end of its last slice. *)
Lemma chain_owned_ge M l st upto d a : chain M l st upto d -> owned l st a -> default 0 (head st) <= a.
Proof.
  induction 1 as [l s d k Hl Hf Hs Hn|l s s' rest upto d1 d2 Hl Hf Hs Hn Hss Hup Hc IH]; cbn in *.
  - intros [|[]]. lia.
  - pose proof (level_facts l Hl) as (_ & _ & _ & ? & _). intros [?|?]; [lia|]. specialize (IH H0). lia.
Qed.

(** The last slice of a chain, and how the chain goes on when that slice is replaced. *)
Record focus (M : list Z) (l : Z) (st : list Z) (upto : Z) (d pre : list Z) (s l' : Z) (dpre d' : list Z) (k : nat) : Prop := {
  fo_starts : st = pre ++ [s];
  fo_data : d = dpre ++ d';
  fo_level : level_ok l';
  fo_fits : fits s (lsize l');
  fo_seg : seg M s (lsize l') = d' ++ replicate k 0 ++ [16 + l'];
  fo_size : Z.of_nat (length d' + k + 1) = lsize l';
  fo_upto : upto = s + Z.of_nat (length d');
  fo_owned tail a : owned l (pre ++ s :: tail) a <-> owned l (pre ++ [s]) a \/ owned (lnext l') tail a;
  fo_last a : s <= a < s + lsize l' -> owned l st a;
  fo_again M' tail upto' d'' : (forall a, owned l st a -> a < s -> M' !! Z.to_nat a = M !! Z.to_nat a) ->
    s < upto' -> chain M' l' (s :: tail) upto' d'' -> chain M' l (pre ++ s :: tail) upto' (dpre ++ d'') }.

Lemma chain_focus M l st upto d : chain M l st upto d ->
  exists pre s l' dpre d' k, focus M l st upto d pre s l' dpre d' k.
Proof.
  induction 1 as [l s d k Hl Hf Hs Hn|l s s' rest upto d1 d2 Hl Hf Hs Hn Hss Hup Hc IH].
  - exists [], s, l, [], d, k. constructor; try done; cbn; [tauto|lia].
  - destruct IH as (pre & s2 & l' & dpre & d' & k & [Fs Fd Fl Ff Fg Fn Fu Fo Fla Fa]).
    pose proof (level_facts l Hl) as (_ & _ & _ & Hsz & _).
    pose proof (level_facts l' Fl) as (_ & _ & _ & Hsz' & _).
    assert (s' <= s2) as Hle by (apply (chain_owned_ge _ _ _ _ _ s2 Hc), Fla; lia).
    exists (s :: pre), s2, l', (d1 ++ dpre), d', k. constructor; try done.
    + cbn. by rewrite Fs.
    + rewrite Fd. by rewrite app_assoc.
    + intros tail a. cbn. rewrite Fo. tauto.
    + intros a Ha. right. by apply Fla.
    + intros M' tail upto' d'' Hag Hu' Hch. cbn [app]. rewrite <- app_assoc.
      specialize (Fa M' tail upto' d''). destruct pre as [|x pre]; cbn [app] in *.
      * injection Fs as -> ->. apply chain_more; try done.
        -- rewrite <- Hs. apply seg_agree; [|apply Hf]. intros x Hx. apply Hag; [by left|lia].
        -- apply Fa; [|done..]. intros a Ha Hlt. apply Hag; [by right|done].
      * injection Fs as -> ->. apply chain_more; try done; [|lia|].
        -- rewrite <- Hs. apply seg_agree; [|apply Hf]. intros y Hy. apply Hag; [by left|lia].
        -- apply Fa; [|done..]. intros a Ha Hlt. apply Hag; [by right|done].
Qed.

(** ** New slices *)

Lemma make_room_id p n : byte_upto p + n <= BYTE_BLOCK_SIZE -> make_room n p = (Ok tt, p).
Proof. intros H. unfold make_room. rewrite sget_sbind, (proj2 (Z.ltb_ge _ _)) by lia. done. Qed.

(** Where a slice of [n] bytes was taken from a pool. *)
Record taken (p p' : t) (s n : Z) : Prop := {
  tk_pos : position p <= s;
  tk_end : position p' = s + n;
  tk_fits : fits s n;
  tk_block : buffer_upto p' = Some (s / BYTE_BLOCK_SIZE);
  tk_offset : byte_offset p' = s / BYTE_BLOCK_SIZE * BYTE_BLOCK_SIZE;
  tk_max : s + n <= 2 ^ 31;
  tk_near : s < position p + n;
  tk_here : byte_upto p + n <= BYTE_BLOCK_SIZE -> s = position p }.

(** Making room and advancing: a zero-filled slice at the position in between. *)
Lemma take_slice p n : Clean p -> 0 < n <= BYTE_BLOCK_SIZE ->
  if decide (full p n) then exists p', make_room n p = (Err NumberOverflow, p')
  else exists p1, make_room n p = (Ok tt, p1) /\ roomy p1 n /\ byte_upto p1 = position p1 mod BYTE_BLOCK_SIZE /\
    grows (fun _ => False) p p1 /\
    let p2 := with_byte_upto p1 (byte_upto p1 + n) in
    advance_upto n p1 = (Ok tt, p2) /\ grows (fun _ => False) p p2 /\ taken p p2 (position p1) n /\
    memory p2 = memory p1 /\
    seg (memory p2) (position p1) n = replicate (Z.to_nat n) 0.
Proof.
  intros Hc Hn. pose proof (make_room_ok p n Hc Hn) as Hm. case_decide; [done|].
  destruct Hm as (p1 & Hm & Hg & Hr & Hlt). exists p1.
  pose proof (grows_clean _ _ _ Hg) as Hc1. destruct (advance_ok p1 n Hc1 ltac:(lia) Hr) as (Hc2 & Hm2 & Hp2).
  pose proof (wf_position p (clean_wf _ Hc)) as Hp0. pose proof block_size_val as HB.
  pose proof (roomy_size p1 n (clean_wf _ Hc1) ltac:(lia) Hr) as Hsz. pose proof (grows_pos _ _ _ Hg) as Hgp.
  destruct (wf_max p1 (clean_wf _ Hc1)) as (_ & Hmax & _).
  pose proof Hr as (u & Hu & Hb & Hd & Hmo & Ho). do 4 (split; [done|]). cbv zeta. split_and!; try done.
  - constructor; [done|lia| |]; rewrite Hm2; [apply (grows_size _ _ _ Hg)|apply (grows_same _ _ _ Hg)].
  - constructor; try done; [|by rewrite Hd|by rewrite Hd| |].
    + split; lia.
    + lia.
    + intros Hfit. rewrite (make_room_id p n Hfit) in Hm. by injection Hm as <-.
  - rewrite Hm2. apply zero_seg; [lia|lia|]. intros x Hx. apply (proj2 Hc1). lia.
Qed.

Lemma fits_mod s n d : fits s n -> 0 <= d < n -> 
  (s + d) mod BYTE_BLOCK_SIZE = s mod BYTE_BLOCK_SIZE + d /\ (s + d) / BYTE_BLOCK_SIZE = s / BYTE_BLOCK_SIZE.
Proof.
  intros [Hs Hf] Hd. pose proof block_size_val as HB. pose proof (Z.div_mod s BYTE_BLOCK_SIZE ltac:(lia)).
  pose proof (Z.mod_pos_bound s BYTE_BLOCK_SIZE ltac:(lia)).
  split; symmetry; [apply Z.mod_unique with (s / BYTE_BLOCK_SIZE)|apply Z.div_unique with (s mod BYTE_BLOCK_SIZE + d)]; lia.
Qed.

(** A write of [x] at distance [d] in a slice whose bytes there are [y]. *)
Lemma write_slice_ok p s n d y e x f : Clean p -> fits s n -> s + n <= position p ->
  seg (memory p) s n = d ++ y ++ e -> Z.of_nat (length d + length y + length e) = n ->
  length x = length y -> x <> [] -> Forall (in_u 8) x ->
  (forall b, full_block b -> seg b (s mod BYTE_BLOCK_SIZE + Z.of_nat (length d)) (Z.of_nat (length y)) = y ->
     f b = vcopy b (s mod BYTE_BLOCK_SIZE + Z.of_nat (length d)) x) ->
  exists p', update_buffer (s / BYTE_BLOCK_SIZE) f p = (Ok tt, p') /\ Clean p' /\ position p' = position p /\
    byte_upto p' = byte_upto p /\ byte_offset p' = byte_offset p /\ buffer_upto p' = buffer_upto p /\
    memory p' = splice (memory p) (s + Z.of_nat (length d)) x /\
    seg (memory p') s n = d ++ x ++ e /\
    (forall a m, 0 <= a -> a + m <= s \/ s + n <= a -> seg (memory p') a m = seg (memory p) a m) /\
    grows (fun a => s <= a < s + n) p p'.
Proof.
  intros Hc Hfit Hpos Hseg Hn Hxy Hne Hx Hf. pose proof (clean_wf _ Hc) as Hw. destruct (wf_max p Hw) as (_ & _ & Hle).
  assert (0 < length x)%nat by (destruct x; [done|cbn; lia]).
  destruct (fits_mod s n (Z.of_nat (length d)) Hfit) as [Emod Ediv]; [lia|].
  destruct Hfit as [Hs0 Hfit].
  destruct (seg_parts _ _ _ d (y ++ e) Hs0 Hseg) as [Hd He]; [rewrite length_app; lia|].
  destruct (seg_parts _ (s + Z.of_nat (length d)) _ y e ltac:(lia) He) as [Hy _]; [rewrite length_app; lia|].
  destruct (write_below_ok p (s + Z.of_nat (length d)) x f Hc) as (p' & Hu & Hm & Hc' & Hp' & Hb & Ho & Hbu & Hg);
    [lia|lia|done|lia|done| |].
  - intros b Hb _ Hsb. rewrite Emod. apply Hf; [done|]. by rewrite <- Hxy, <- Emod, <- Hsb, Hxy.
  - rewrite Ediv in Hu. exists p'. split_and!; try done.
    + rewrite Hm. apply (seg_splice_in (memory p) (s + Z.of_nat (length d)) x ltac:(lia) ltac:(lia) s n d y e); try done; lia.
    + intros a m Ha Hd'. rewrite Hm. apply seg_splice_off; lia.
    + apply grows_weaken with (1 := Hg). intros a _. lia.
Qed.

Lemma slice_block p s n : WF p -> fits s n -> 0 < n -> s + n <= size (memory p) ->
  exists b, vget (buffers p) (s / BYTE_BLOCK_SIZE) = Ok b /\ full_block b /\
    forall d m, 0 <= d -> 0 <= m -> d + m <= n ->
      vslice b (s mod BYTE_BLOCK_SIZE + d) (s mod BYTE_BLOCK_SIZE + d + m) = Ok (seg (memory p) (s + d) m).
Proof.
  intros H [Hs Hf] Hn Hsz. pose proof block_size_val as HB. destruct (wf_max p H) as (E & _ & _).
  pose proof (Z.div_mod s BYTE_BLOCK_SIZE ltac:(lia)). pose proof (Z.mod_pos_bound s BYTE_BLOCK_SIZE ltac:(lia)).
  assert (0 <= s / BYTE_BLOCK_SIZE < Z.of_nat (length (buffers p))) as Hi by nia.
  destruct (vget_in _ _ Hi) as (b & Hl & Hg). exists b.
  split_and!; [done|by apply (Forall_lookup_1 _ _ _ _ (wf_blocks p H) Hl)|].
  intros d m Hd Hm Hdm.
  destruct (block_slice (buffers p) (s / BYTE_BLOCK_SIZE) (s mod BYTE_BLOCK_SIZE + d) m (wf_blocks p H))
    as (b' & Hg' & Hv); [lia..|].
  rewrite Hg in Hg'. injection Hg' as <-. rewrite Hv. unfold seg. do 3 f_equal. lia.
Qed.

Lemma vslice_one (b : list Z) i x : vslice b i (i + 1) = Ok [x] -> vget b i = Ok x.
Proof.
  unfold vslice. destruct (_ && _) eqn:E; [|done]. intros [= H]. apply vget_ok; [lia|].
  apply (f_equal (fun l => l !! 0%nat)) in H. replace (Z.to_nat (i + 1 - i)) with 1%nat in H by lia.
  by rewrite lookup_take_lt, lookup_drop, Nat.add_0_r in H by lia.
Qed.

Lemma seg_vget (b : list Z) i m y x (j : nat) : 0 <= i -> seg b i m = y -> y !! j = Some x -> vget b (i + Z.of_nat j) = Ok x.
Proof.
  intros Hi <- Hx. apply vget_ok; [lia|]. unfold seg in Hx. apply lookup_take_Some in Hx as [Hx _].
  rewrite lookup_drop in Hx. by replace (Z.to_nat (i + Z.of_nat j)) with (Z.to_nat i + j)%nat by lia.
Qed.

(** The three bytes carried over to the next slice, with a zero behind them. *)
Lemma past3_bytes_ok x b : Forall (in_u 8) (x ++ [b]) -> length x = 3%nat ->
  to_le_bytes 4 (Z.land (from_le_bytes (x ++ [b])) 0xFFFFFF) = x ++ [0].
Proof.
  intros Hx Hl. apply Forall_app in Hx as [Hx Hb].
  assert (Z.land (from_le_bytes (x ++ [b])) 0xFFFFFF = le_value x) as ->.
  { pose proof (le_value_in_u x Hx) as Hv. rewrite Hl in Hv. change (8 * Z.of_nat 3) with 24 in Hv.
    unfold from_le_bytes. rewrite length_app, Hl, le_value_app, Hl. change (8 * Z.of_nat (3 + length [b])) with 32.
    change (8 * Z.of_nat 3) with 24. change 0xFFFFFF with (Z.ones 24). same_bits i.
    destruct (decide (i < 24)).
    - rewrite Z.ones_spec_low, andb_true_r, (Z.min_l i) by lia. rewrite (Z.testbit_neg_r _ (i - 24)) by lia.
      by rewrite orb_false_r.
    - rewrite Z.ones_spec_high, andb_false_r by lia. symmetry. apply (in_u_testbit 24); [done|lia]. }
  assert (le_value x = le_value (x ++ [0])) as -> by (rewrite le_value_app; change (le_value [0]) with 0; by rewrite Z.shiftl_0_l, ?Z.lor_0_r).
  replace 4%nat with (length (x ++ [0])) by (rewrite length_app; cbn; lia).
  apply to_le_bytes_le_value, Forall_app. split; [done|]. repeat constructor. unfold in_u. lia.
Qed.

Lemma set_i32_le_eq b pos v : set_i32_le b pos v = vcopy b pos (to_le_bytes 4 v).
Proof. done. Qed.

Lemma vset_vcopy (b : list Z) i x : vset b i x = vcopy b i [x].
Proof.
  unfold vset, vcopy. cbn [length].
  assert ((i + Z.of_nat 1 <=? Z.of_nat (length b)) = (i <? Z.of_nat (length b))) as ->
    by (destruct (Z.ltb_spec i (Z.of_nat (length b))); [apply Z.leb_le|apply Z.leb_gt]; lia).
  destruct (_ && _) eqn:E; [|done]. f_equal. rewrite insert_take_drop by lia. cbn [app]. do 3 f_equal. lia.
Qed.

Lemma byte_in_u l : level_ok l -> Forall (in_u 8) [16 + l].
Proof. unfold level_ok. intros. repeat constructor; unfold in_u; lia. Qed.

(** A new stream: an empty chain of one slice. *)
Lemma new_slice_ok p : Clean p ->
  if decide (full p FIRST_LEVEL_SIZE) then exists p', new_slice FIRST_LEVEL_SIZE p = (Err NumberOverflow, p')
  else exists p' s, new_slice FIRST_LEVEL_SIZE p = (Ok (s mod BYTE_BLOCK_SIZE), p') /\ taken p p' s FIRST_LEVEL_SIZE /\
    grows (fun _ => False) p p' /\ chain (memory p') 0 [s] s [].
Proof.
  intros Hc. pose proof (take_slice p FIRST_LEVEL_SIZE Hc ltac:(cbv; split; congruence)) as Ht.
  unfold new_slice. change (BYTE_BLOCK_SIZE <? FIRST_LEVEL_SIZE) with false. cbn iota.
  case_decide.
  - destruct Ht as (p' & Ht). exists p'. unfold sbind. by rewrite Ht.
  - destruct Ht as (p1 & Ht & Hr & Hup & _ & Hadv & Hg & Htk & Hm & Hz).
    rewrite (sbind_ok _ _ _ _ _ Ht), sget_sbind, (sbind_ok _ _ _ _ _ Hadv).
    set (p2 := with_byte_upto p1 _) in *. set (s := position p1) in *. destruct Htk as [T1 T2 T3 T4 T5 T6 T7 T8].
    change (upto_or_error p1) with (upto_or_error p2). unfold upto_or_error. rewrite T4, slift_sbind.
    change (Z.to_nat FIRST_LEVEL_SIZE) with 5%nat in Hz.
    destruct (write_slice_ok p2 s FIRST_LEVEL_SIZE (replicate 4 0) [0] [] [16]
      (fun b => vset b (byte_upto p1 + FIRST_LEVEL_SIZE - 1) 16))
      as (p3 & Hu & Hc3 & Hp3 & Hb3 & Ho3 & Hbu3 & Hm3 & Hs3 & Hoff & Hg3); try done.
    + apply Hg.
    + lia.
    + repeat constructor; unfold in_u; lia.
    + intros b _ _. rewrite vset_vcopy. f_equal. cbn. rewrite Hup. unfold FIRST_LEVEL_SIZE. lia.
    + rewrite (sbind_ok _ _ _ _ _ Hu). exists p3, s. rewrite Hup. split_and!; [done| | |].
      * constructor; try done; [by rewrite Hp3|by rewrite Hbu3|by rewrite Ho3].
      * apply (grows_trans _ _ _ _ _ Hg Hg3). lia.
      * rewrite <- (Z.add_0_r s) at 2. apply (chain_last _ 0 s [] 4); done.
Qed.

(** What allocating the slice after the full slice [s] of level [l] leaves: [s] forwards
    to the new slice [s'], which holds the three bytes the address displaced. *)
Record forwarded (p p' : t) (s l s' : Z) (d1 x : list Z) : Prop := {
  fw_taken : taken p p' s' (lsize (lnext l));
  fw_grows : grows (fun a => s <= a < s + lsize l) p p';
  fw_len : length x = 3%nat;
  fw_old : seg (memory p') s (lsize l) = d1 ++ to_le_bytes 4 s';
  fw_new : seg (memory p') s' (lsize (lnext l)) =
    x ++ replicate (Z.to_nat (lsize (lnext l) - 4)) 0 ++ [16 + lnext l] }.

(** The reads of the old slice, before and after room was made. *)
Lemma full_slice_reads p p1 s l d : Clean p -> grows (fun _ => False) p p1 -> level_ok l -> fits s (lsize l) ->
  s + lsize l <= position p -> seg (memory p) s (lsize l) = d ++ [16 + l] -> Z.of_nat (length d + 1) = lsize l ->
  seg (memory p1) s (lsize l) = d ++ [16 + l] /\ Forall (in_u 8) (d ++ [16 + l]) /\
  (let? b := get_buffer p (s / BYTE_BLOCK_SIZE) in
   let? c := vget b (s mod BYTE_BLOCK_SIZE + Z.of_nat (length d)) in Ok (Z.land c 15)) = Ok l /\
  exists d1 x, d = d1 ++ x /\ length x = 3%nat /\
    (let? b := get_buffer p1 (s / BYTE_BLOCK_SIZE) in
     let? v := get_i32_le b (s mod BYTE_BLOCK_SIZE + Z.of_nat (length d) - 3) in Ok (Z.land v 0xFFFFFF))
      = Ok (Z.land (from_le_bytes (x ++ [16 + l])) 0xFFFFFF).
Proof.
  intros Hc Hg Hl Hf Hpos Hs Hlen. pose proof (clean_wf _ Hc) as Hw. pose proof (clean_wf _ (grows_clean _ _ _ Hg)) as Hw1.
  destruct (level_facts l Hl) as (_ & _ & _ & Hsz & _ & Hland & _). destruct (wf_max p Hw) as (_ & _ & Hle).
  pose proof (grows_size _ _ _ Hg) as Hgs.
  assert (Hs1 : seg (memory p1) s (lsize l) = d ++ [16 + l]).
  { rewrite <- Hs. apply seg_agree; [|apply Hf]. intros a Ha. destruct Hf. apply (grows_same _ _ _ Hg); [lia|tauto]. }
  split_and!; [done| | |].
  - rewrite <- Hs. unfold seg. apply Forall_take, Forall_drop, blocks_bytes, Hw.
  - destruct (slice_block p s (lsize l) Hw Hf) as (b & Hb & _ & Hr); [lia|lia|].
    unfold get_buffer. rewrite Hb. cbn [rbind].
    destruct (seg_parts _ _ _ _ _ (proj1 Hf) Hs) as [_ Hb1]; [cbn; lia|].
    rewrite (vslice_one b _ (16 + l)); [cbn [rbind]; by rewrite Hland|].
    rewrite Hr by lia. f_equal. exact Hb1.
  - exists (take (length d - 3) d), (drop (length d - 3) d). split; [by rewrite take_drop|].
    split; [rewrite length_drop; lia|].
    destruct (slice_block p1 s (lsize l) Hw1 Hf) as (b & Hb & _ & Hr); [lia|lia|].
    unfold get_buffer. rewrite Hb. cbn [rbind]. unfold get_i32_le, get_le.
    replace (s mod BYTE_BLOCK_SIZE + Z.of_nat (length d) - 3) with (s mod BYTE_BLOCK_SIZE + (Z.of_nat (length d) - 3)) by lia.
    unfold INT_BYTES. rewrite Hr by lia. cbn [rbind]. do 3 f_equal.
    rewrite <- (take_drop (length d - 3) d) in Hs1. rewrite <- app_assoc in Hs1.
    destruct (seg_parts _ _ _ _ _ (proj1 Hf) Hs1) as [_ Hb1]; [rewrite !length_app, length_take, length_drop; cbn; lia|].
    rewrite length_app, length_take, length_drop in Hb1.
    replace (Z.of_nat (length d - (length d - 3) + length [16 + l])) with 4 in Hb1 by (cbn; lia).
    replace (Z.of_nat ((length d - 3) `min` length d)) with (Z.of_nat (length d) - 3) in Hb1 by lia. exact Hb1.
Qed.

(** The three writes that link a full slice [s] to the fresh slice [s']. *)
Lemma forward_ok p s l d1 x s' n' : Clean p -> level_ok l -> n' = lsize (lnext l) -> fits s (lsize l) -> fits s' n' ->
  s + lsize l <= s' -> s' + n' <= position p ->
  seg (memory p) s (lsize l) = d1 ++ (x ++ [16 + l]) ++ [] -> length x = 3%nat -> Z.of_nat (length d1 + 4) = lsize l ->
  seg (memory p) s' n' = replicate (Z.to_nat n') 0 -> Forall (in_u 8) x ->
  exists p3 p4 p5,
    update_buffer (s' / BYTE_BLOCK_SIZE) (fun b =>
      let? c := vget b (s' mod BYTE_BLOCK_SIZE + 3) in
      let? _ := debug_assert (c =? 0) in
      set_i32_le b (s' mod BYTE_BLOCK_SIZE) (Z.land (from_le_bytes (x ++ [16 + l])) 0xFFFFFF)) p = (Ok tt, p3) /\
    update_buffer (s / BYTE_BLOCK_SIZE) (fun b =>
      set_i32_le b (s mod BYTE_BLOCK_SIZE + Z.of_nat (length (d1 ++ x)) - 3) s') p3 = (Ok tt, p4) /\
    update_buffer (s' / BYTE_BLOCK_SIZE) (fun b =>
      vset b (s' mod BYTE_BLOCK_SIZE + n' - 1) (as_u8 (Z.lor 16 (lnext l)))) p4 = (Ok tt, p5) /\
    position p5 = position p /\ byte_offset p5 = byte_offset p /\ buffer_upto p5 = buffer_upto p /\
    grows (fun a => s <= a < s + lsize l \/ s' <= a) p p5 /\
    seg (memory p5) s (lsize l) = d1 ++ to_le_bytes 4 s' /\
    seg (memory p5) s' n' = x ++ replicate (Z.to_nat (n' - 4)) 0 ++ [16 + lnext l].
Proof.
  intros Hc Hl -> Hf Hf' Hss Hpos Hs Hx Hlen Hz Hx8. destruct (level_facts l Hl) as (_ & _ & Hl' & Hsz & Hsz' & _).
  destruct (level_facts _ Hl') as (_ & _ & _ & _ & _ & _ & Hlb). pose proof block_size_val as HB.
  assert (Hv := past3_bytes_ok x (16 + l) (proj2 (Forall_app _ _ _) (conj Hx8 (byte_in_u l Hl))) Hx).
  set (v := Z.land _ _) in *. set (n' := lsize (lnext l)) in *.
  assert (Hz4 : seg (memory p) s' n' = [] ++ replicate 4 0 ++ replicate (Z.to_nat n' - 4) 0).
  { rewrite Hz. cbn [app]. rewrite <- replicate_add. f_equal. lia. }
  destruct (write_slice_ok p s' n' [] (replicate 4 0) (replicate (Z.to_nat n' - 4) 0) (x ++ [0])
    (fun b => let? c := vget b (s' mod BYTE_BLOCK_SIZE + 3) in
              let? _ := debug_assert (c =? 0) in set_i32_le b (s' mod BYTE_BLOCK_SIZE) v))
    as (p3 & Hu3 & Hc3 & Hp3 & _ & Ho3 & Hbu3 & _ & Hs3 & Hoff3 & Hg3); try done.
  { rewrite !length_replicate. cbn [length]. lia. } { rewrite length_app. cbn. lia. } { by destruct x. }
  { rewrite <- Hv. apply to_le_bytes_in_u. }
  { intros b _ Hb. cbn [length Z.of_nat] in *. rewrite Z.add_0_r in *.
    pose proof (Z.mod_pos_bound s' BYTE_BLOCK_SIZE ltac:(lia)) as [Hb0 _].
    change 3 with (Z.of_nat 3). rewrite (seg_vget b _ _ _ 0 3%nat Hb0 Hb eq_refl).
    cbn [rbind debug_assert Z.eqb]. by rewrite set_i32_le_eq, Hv. }
  destruct (write_slice_ok p3 s (lsize l) d1 (x ++ [16 + l]) [] (to_le_bytes 4 s')
    (fun b => set_i32_le b (s mod BYTE_BLOCK_SIZE + Z.of_nat (length (d1 ++ x)) - 3) s'))
    as (p4 & Hu4 & Hc4 & Hp4 & _ & Ho4 & Hbu4 & _ & Hs4 & Hoff4 & Hg4); try done.
  { lia. } { rewrite Hoff3; [done|apply Hf|lia]. } { rewrite length_app. cbn. lia. }
  { rewrite length_app, to_le_bytes_length. cbn. lia. } { apply to_le_bytes_in_u. }
  { intros b _ _. rewrite set_i32_le_eq. f_equal. rewrite length_app. lia. }
  destruct (write_slice_ok p4 s' n' (x ++ [0] ++ replicate (Z.to_nat n' - 5) 0) [0] [] [16 + lnext l]
    (fun b => vset b (s' mod BYTE_BLOCK_SIZE + n' - 1) (as_u8 (Z.lor 16 (lnext l)))))
    as (p5 & Hu5 & Hc5 & Hp5 & _ & Ho5 & Hbu5 & _ & Hs5 & Hoff5 & Hg5); try done.
  { lia. }
  { rewrite Hoff4 by (destruct Hf'; lia). rewrite Hs3. cbn [app]. rewrite <- !app_assoc. f_equal. cbn [app]. f_equal.
    replace (Z.to_nat n' - 4)%nat with (Z.to_nat n' - 5 + 1)%nat by lia. by rewrite replicate_add. }
  { rewrite !length_app, length_replicate. cbn. lia. } { by apply byte_in_u. }
  { intros b _ _. rewrite vset_vcopy, Hlb. f_equal. rewrite !length_app, length_replicate. cbn. lia. }
  exists p3, p4, p5. split_and!; try done; [lia|by rewrite Ho5, Ho4|by rewrite Hbu5, Hbu4| | |].
  - refine (grows_trans _ _ _ _ _ (grows_trans _ _ _ _ _ (grows_weaken _ _ _ _ Hg3 _) Hg4 _) Hg5 _); lia.
  - rewrite Hoff5 by (destruct Hf; lia). by rewrite Hs4, app_nil_r.
  - rewrite Hs5. cbn [app]. rewrite <- !app_assoc. f_equal. cbn [app].
    replace (Z.to_nat (n' - 4)) with (S (Z.to_nat n' - 5)) by lia. done.
Qed.

Lemma alloc_ok p s l d : Clean p -> level_ok l -> fits s (lsize l) -> s + lsize l <= position p ->
  seg (memory p) s (lsize l) = d ++ [16 + l] -> Z.of_nat (length d + 1) = lsize l ->
  if decide (full p (lsize (lnext l))) then
    exists p', alloc_known_size_slice (s / BYTE_BLOCK_SIZE) (s mod BYTE_BLOCK_SIZE + Z.of_nat (length d)) p = (Err NumberOverflow, p')
  else exists p' s' d1 x,
    alloc_known_size_slice (s / BYTE_BLOCK_SIZE) (s mod BYTE_BLOCK_SIZE + Z.of_nat (length d)) p
      = (Ok (Z.lor (Z.shiftl (s' mod BYTE_BLOCK_SIZE + 3) 8) (lsize (lnext l) - 3)), p') /\
    d = d1 ++ x /\ forwarded p p' s l s' d1 x.
Proof.
  intros Hc Hl Hf Hpos Hs Hlen. destruct (level_facts l Hl) as (Hnx & _ & Hl' & Hsz & Hsz' & _).
  destruct (level_facts _ Hl') as (_ & Hsv & _). pose proof block_size_val as HB.
  pose proof (take_slice p (lsize (lnext l)) Hc ltac:(lia)) as Ht.
  destruct (full_slice_reads p p s l d Hc (grows_refl _ _ Hc) Hl Hf Hpos Hs Hlen) as (_ & Hu8 & Hlv & _).
  unfold alloc_known_size_slice. rewrite sget_sbind, slift_sbind, Hlv, slift_sbind, Hnx, slift_sbind, Hsv.
  case_decide.
  { destruct Ht as (p' & Ht). exists p'. unfold sbind. by rewrite Ht. }
  destruct Ht as (p1 & Ht & Hr & Hup & Hg1 & Hadv & Hg2 & Htk & Hm & Hz).
  rewrite (sbind_ok _ _ _ _ _ Ht), sget_sbind, (sbind_ok _ _ _ _ _ Hadv).
  destruct (full_slice_reads p p1 s l d Hc Hg1 Hl Hf Hpos Hs Hlen) as (Hs1 & _ & _ & d1 & x & -> & Hx & Hpast).
  rewrite slift_sbind, Hpast. set (p2 := with_byte_upto p1 _) in *. destruct Htk as [T1 T2 T3 T4 T5 T6 T7 T8].
  change (upto_or_error p1) with (upto_or_error p2). unfold upto_or_error. rewrite T4, slift_sbind.
  assert (Hof : byte_upto p1 + byte_offset p1 = position p1) by (unfold position; lia). rewrite Hof, Hup.
  rewrite <- app_assoc in Hs1, Hu8. apply Forall_app in Hu8 as [_ [Hx8 _]%Forall_app]. rewrite length_app in Hlen.
  destruct (forward_ok p2 s l d1 x (position p1) _ (grows_clean _ _ _ Hg2) Hl eq_refl Hf T3)
    as (p3 & p4 & p5 & Hu3 & Hu4 & Hu5 & Hp5 & Ho5 & Hbu5 & Hg5 & Hold & Hnew); try done; [lia|lia|by rewrite Hm, app_nil_r|lia|].
  rewrite (sbind_ok _ _ _ _ _ Hu3), (sbind_ok _ _ _ _ _ Hu4), (sbind_ok _ _ _ _ _ Hu5).
  exists p5, (position p1), d1, x. split; [done|]. split; [done|]. constructor; try done.
  - constructor; try done; [lia|by rewrite Hbu5|by rewrite Ho5].
  - refine (grows_trans _ _ _ _ _ (grows_weaken _ _ _ _ Hg2 _) Hg5 _); [tauto|lia].
Qed.
End Chain.

(** * Streams *)

Module Stream.
Import ByteSlicePool PoolMemory Room Chain.

(** A chain of the pool from level 0 on with [k] free bytes in its last slice. *)
Definition stream (p : t) (st : list Z) (upto : Z) (d : list Z) (k : nat) : Prop :=
  chain (memory p) 0 st upto d /\ (forall a, owned 0 st a -> a < position p) /\
  exists pre s l dpre d', focus (memory p) 0 st upto d pre s l dpre d' k.

Lemma stream_intro p st upto d : chain (memory p) 0 st upto d ->
  (forall a, owned 0 st a -> a < position p) -> exists k, stream p st upto d k.
Proof.
  intros Hc Ho. destruct (chain_focus _ _ _ _ _ Hc) as (pre & s & l & dpre & d' & k & F).
  exists k. split_and!; [done..|]. by exists pre, s, l, dpre, d'.
Qed.

Lemma owned_nonneg M l st upto d a : chain M l st upto d -> owned l st a -> 0 <= a.
Proof.
  intros Hc Ho. pose proof (chain_owned_ge _ _ _ _ _ _ Hc Ho). destruct (chain_head _ _ _ _ _ Hc) as (s & r & -> & ? & _).
  cbn in *. lia.
Qed.

(** Operations that leave a stream alone keep it. *)
Lemma stream_frame W p p' st upto d k : stream p st upto d k -> grows W p p' ->
  (forall a, owned 0 st a -> ~ W a) -> stream p' st upto d k.
Proof.
  intros (Hc & Ho & pre & s & l & dpre & d' & F) Hg Hd.
  assert (Hsame : forall a, owned 0 st a -> memory p' !! Z.to_nat a = memory p !! Z.to_nat a).
  { intros a Ha. apply (grows_same _ _ _ Hg); [|auto]. split; [by eapply owned_nonneg|auto]. }
  pose proof (grows_pos _ _ _ Hg). split_and!.
  - by apply (chain_frame _ _ _ _ _ _ Hc).
  - intros a Ha. specialize (Ho a Ha). lia.
  - exists pre, s, l, dpre, d'. destruct F as [F1 F2 F3 F4 F5 F6 F7 F8 F9 F10]. constructor; try done.
    + rewrite <- F5. apply seg_agree; [|apply F4]. auto.
    + intros M' tail upto' d'' Hag. apply F10. intros a Ha Hlt. rewrite Hag, Hsame; auto.
Qed.

Section Write.
Context (p : t) (Hc : Clean p) (st : list Z) (upto : Z) (d : list Z) (k : nat) (Hs : stream p st upto d k).

(** The byte at [upto] tells whether the slice is full. *)
Lemma slot_ok : exists b c, vget (buffers p) (upto / BYTE_BLOCK_SIZE) = Ok b /\
  vget b (upto mod BYTE_BLOCK_SIZE) = Ok c /\ (c =? 0) = (0 <? Z.of_nat k) /\ full_block b.
Proof using Hc Hs.
  destruct Hs as (Hch & Ho & pre & s & l & dpre & d' & [F1 F2 F3 F4 F5 F6 F7 F8 F9 F10]).
  destruct (level_facts l F3) as (_ & _ & _ & Hsz & _). destruct (wf_max p (clean_wf _ Hc)) as (_ & _ & Hle).
  assert (s + lsize l <= position p) by (specialize (Ho (s + lsize l - 1) ltac:(apply F9; lia)); lia).
  destruct (slice_block p s (lsize l) (clean_wf _ Hc) F4) as (b & Hb & Hfb & Hr); [lia|lia|].
  destruct (fits_mod s (lsize l) (Z.of_nat (length d')) F4) as [Em Ed]; [lia|].
  rewrite F7, Em, Ed. exists b.
  assert (exists c e, replicate k 0 ++ [16 + l] = c :: e /\ (c =? 0) = (0 <? Z.of_nat k)) as (c & e & Hce & Hc0).
  { destruct k; [exists (16 + l), []|eexists _, _; split; [done|]; symmetry; apply Z.ltb_lt; lia].
    split; [done|]. apply Z.eqb_neq. unfold level_ok in F3. lia. }
  exists c. split_and!; try done. apply vslice_one. rewrite Hr by lia. f_equal.
  rewrite Hce in F5. destruct (seg_parts _ _ _ d' (c :: e) (proj1 F4) F5) as [_ H2].
  { rewrite <- Hce, length_app, length_replicate. cbn. lia. }
  replace (Z.of_nat (length (c :: e))) with (1 + Z.of_nat (length e)) in H2 by (cbn [length]; lia).
  rewrite seg_app in H2 by (destruct F4; lia).
  assert (Hl1 : Z.of_nat (length (seg (memory p) (s + Z.of_nat (length d')) 1)) = 1) by (apply seg_size; destruct F4; lia).
  destruct (seg _ _ 1) as [|z [|]]; cbn [length] in Hl1; [lia| |lia]. cbn [app] in H2. by injection H2 as -> _.
Qed.

(** Bytes written into the free part. *)
Lemma slot_put_ok x f : (0 < length x <= k)%nat -> Forall (in_u 8) x ->
  (forall b, full_block b -> f b = vcopy b (upto mod BYTE_BLOCK_SIZE) x) ->
  exists p', update_buffer (upto / BYTE_BLOCK_SIZE) f p = (Ok tt, p') /\
    stream p' st (upto + Z.of_nat (length x)) (d ++ x) (k - length x) /\ grows (owned 0 st) p p' /\
    position p' = position p /\ byte_offset p' = byte_offset p /\ buffer_upto p' = buffer_upto p.
Proof using Hc Hs.
  intros Hx Hx8 Hf. destruct Hs as (Hch & Ho & pre & s & l & dpre & d' & F). pose proof F as [F1 F2 F3 F4 F5 F6 F7 F8 F9 F10].
  destruct (level_facts l F3) as (_ & _ & _ & Hsz & _).
  assert (s + lsize l <= position p) by (specialize (Ho (s + lsize l - 1) ltac:(apply F9; lia)); lia).
  destruct (fits_mod s (lsize l) (Z.of_nat (length d')) F4) as [Em Ed]; [lia|].
  destruct (write_slice_ok p s (lsize l) d' (replicate (length x) 0) (replicate (k - length x) 0 ++ [16 + l]) x f)
    as (p' & Hu & Hc' & Hp & Hb & Hof & Hbu & Hm & Hsg & Hoff & Hg); try done.
  { rewrite F5. f_equal. rewrite app_assoc, <- replicate_add. do 2 f_equal. lia. }
  { rewrite length_app, !length_replicate. cbn. lia. } { by rewrite length_replicate. } { destruct x; [cbn in Hx; lia|done]. }
  { intros b Hb _. rewrite <- Em, <- F7. by apply Hf. }
  exists p'. rewrite F7, Ed. split; [done|].
  assert (Hg' : grows (owned 0 st) p p') by (apply grows_weaken with (1 := Hg); auto).
  assert (chain (memory p') l [s] (s + Z.of_nat (length (d' ++ x))) (d' ++ x)) as Hl.
  { apply chain_last with (k - length x)%nat; try done; [by rewrite <- app_assoc|]. rewrite length_app. lia. }
  assert (Hag : forall M' : list Z, (forall a, owned 0 st a -> a < s -> M' !! Z.to_nat a = memory p' !! Z.to_nat a) ->
    forall a, owned 0 st a -> a < s -> M' !! Z.to_nat a = memory p !! Z.to_nat a).
  { intros M' H' a Ha Hlt. rewrite H' by done. apply (grows_same _ _ _ Hg); [|lia].
    specialize (Ho a Ha). pose proof (owned_nonneg _ _ _ _ _ _ Hch Ha). lia. }
  replace (s + Z.of_nat (length d') + Z.of_nat (length x)) with (s + Z.of_nat (length (d' ++ x))) by (rewrite length_app; lia).
  rewrite F2, <- app_assoc. split_and!; try done. split_and!.
  - rewrite F1. apply F10; [by apply Hag|rewrite length_app; lia|done].
  - intros a Ha. rewrite Hp. auto.
  - exists pre, s, l, dpre, (d' ++ x). constructor; try done; [by rewrite <- app_assoc|rewrite length_app; lia|].
    intros M' tail upto' d'' HM. apply F10. by apply Hag.
Qed.

(** When the last slice is full, an allocation adds a slice with room; the bytes of
    the stream stay the same. *)
Lemma extend_ok : k = O ->
  (exists n, n <= 200 /\ full p n /\
     exists p', alloc_known_size_slice (upto / BYTE_BLOCK_SIZE) (upto mod BYTE_BLOCK_SIZE) p = (Err NumberOverflow, p')) \/
  exists p' s' n, alloc_known_size_slice (upto / BYTE_BLOCK_SIZE) (upto mod BYTE_BLOCK_SIZE) p
      = (Ok (Z.lor (Z.shiftl (s' mod BYTE_BLOCK_SIZE + 3) 8) (n - 3)), p') /\ 14 <= n <= 200 /\
    stream p' (st ++ [s']) (s' + 3) d (Z.to_nat (n - 4)) /\ grows (owned 0 st) p p' /\ taken p p' s' n /\
    (forall a, owned 0 (st ++ [s']) a <-> owned 0 st a \/ s' <= a < s' + n).
Proof using Hc Hs.
  intros ->. destruct Hs as (Hch & Ho & pre & s & l & dpre & d' & F). pose proof F as [F1 F2 F3 F4 F5 F6 F7 F8 F9 F10].
  destruct (level_facts l F3) as (_ & _ & Hl' & Hsz & Hsz' & _).
  assert (s + lsize l <= position p) by (specialize (Ho (s + lsize l - 1) ltac:(apply F9; lia)); lia).
  destruct (fits_mod s (lsize l) (Z.of_nat (length d')) F4) as [Em Ed]; [lia|]. rewrite F7, Em, Ed.
  cbn [replicate app] in F5. pose proof (alloc_ok p s l d' Hc F3 F4 ltac:(lia) F5 ltac:(lia)) as Ha. case_decide as Hfull.
  { left. exists (lsize (lnext l)). split; [lia|]. split; done. }
  right. destruct Ha as (p' & s' & d1 & x & He & -> & [W1 W2 W3 W4 W5]). exists p', s', (lsize (lnext l)).
  pose proof W1 as [T1 T2 T3 T4 T5 T6 T7 T8].
  assert (Hown : forall a, owned 0 (st ++ [s']) a <-> owned 0 st a \/ s' <= a < s' + lsize (lnext l)).
  { intros a. rewrite F1, <- app_assoc. cbn [app]. rewrite F8. cbn. tauto. }
  assert (Hg : grows (owned 0 st) p p') by (apply grows_weaken with (1 := W2); auto).
  split_and!; try done; try lia.
  assert (Hnew : chain (memory p') (lnext l) [s'] (s' + 3) x).
  { change 3 with (Z.of_nat 3). rewrite <- W3. apply chain_last with (Z.to_nat (lsize (lnext l) - 4)); try done. lia. }
  assert (Hag : forall a, owned 0 st a -> a < s -> memory p' !! Z.to_nat a = memory p !! Z.to_nat a).
  { intros a Ha Hlt. apply (grows_same _ _ _ W2); [|lia]. specialize (Ho a Ha). pose proof (owned_nonneg _ _ _ _ _ _ Hch Ha). lia. }
  rewrite length_app in F6.
  assert (Hchain : chain (memory p') 0 (st ++ [s']) (s' + 3) d).
  { rewrite F1, F2, <- app_assoc. apply F10; [done|lia|]. apply chain_more; try done; lia. }
  split_and!; [done| |].
  - intros a [Ha|Ha]%Hown; [specialize (Ho a Ha); lia|lia].
  - exists (pre ++ [s]), s', (lnext l), (dpre ++ d1), x. constructor; try done.
    + by rewrite F1.
    + by rewrite F2, app_assoc.
    + rewrite W3. lia.
    + lia.
    + intros tail a. rewrite <- !app_assoc. cbn [app]. rewrite (F8 (s' :: tail)), (F8 [s']). cbn. tauto.
    + intros a Ha'. apply Hown. by right.
    + intros M' tail upto' d'' HM Hlt Hnc. rewrite <- !app_assoc. cbn [app].
      apply F10; [intros a Ha Hl; rewrite HM; [auto|apply Hown; by left|lia]|lia|].
      apply chain_more; try done; try lia. rewrite <- W4. apply seg_agree; [|apply F4].
      intros y Hy. apply HM; [apply Hown; left; auto|lia].
Qed.
End Write.
End Stream.

(** * The reader *)

Module Reading.
Import ByteSlicePool ByteSliceReader PoolMemory Room Chain Stream.

(** What is known of a chain by its first slice. *)
Lemma chain_inv M l s rest upto D : chain M l (s :: rest) upto D ->
  level_ok l /\ fits s (lsize l) /\
  match rest with
  | [] => seg M s (Z.of_nat (length D)) = D /\ upto = s + Z.of_nat (length D) /\ Z.of_nat (length D) < lsize l
  | s' :: rest' => exists d1 d2, D = d1 ++ d2 /\ seg M s (lsize l) = d1 ++ to_le_bytes 4 s' /\
      Z.of_nat (length d1 + 4) = lsize l /\ s + lsize l <= s' < 2 ^ 31 /\ s' < upto /\
      chain M (lnext l) (s' :: rest') upto d2
  end.
Proof.
  intros H. inversion H as [l0 s0 D0 k Hl Hf Hs Hn|l0 s0 s' rest' upto0 d1 d2 Hl Hf Hs Hn Hss Hup Hc]; subst.
  - split_and!; try done; [|lia].
    apply (seg_parts _ _ _ _ _ (proj1 Hf) Hs). rewrite length_app, length_replicate. cbn. lia.
  - split_and!; try done. by exists d1, d2.
Qed.

(** The reader stands in a slice of a chain that ends at [end_index], behind [c], with
    [d] to come. *)
Definition reads (r : t) (d : list Z) : Prop :=
  WF (pool r) /\ exists s rest c,
    chain (memory (pool r)) (level r) (s :: rest) (end_index r) (c ++ d) /\
    (forall a, owned (level r) (s :: rest) a -> a < size (memory (pool r))) /\
    buffer_upto r = s / BYTE_BLOCK_SIZE /\ buffer_offset r = s / BYTE_BLOCK_SIZE * BYTE_BLOCK_SIZE /\
    buffer r = get_buffer_or_empty (pool r) (s / BYTE_BLOCK_SIZE) /\
    upto r = s mod BYTE_BLOCK_SIZE + Z.of_nat (length c) /\
    limit r = match rest with
              | [] => end_index r - buffer_offset r
              | _ => s mod BYTE_BLOCK_SIZE + lsize (level r) - 4
              end /\
    upto r <= limit r.

(** The piece of the current slice that is left, and what follows it. *)
Record piece (r : t) (x d' : list Z) : Prop := {
  pc_len : Z.of_nat (length x) = limit r - upto r;
  pc_upto : 0 <= upto r;
  pc_slice n : 0 <= n <= Z.of_nat (length x) -> vslice (buffer r) (upto r) (upto r + n) = Ok (take (Z.to_nat n) x);
  pc_move n : 0 <= n <= Z.of_nat (length x) -> reads (with_upto r (upto r + n)) (drop (Z.to_nat n) x ++ d');
  pc_buffer : buffer r <> [] /\ Forall (in_u 8) (buffer r);
  pc_next : if limit r + buffer_offset r =? end_index r then d' = []
    else exists r', next_slice r = (Ok tt, r') /\ reads r' d' /\ upto r' < limit r' /\ end_index r' = end_index r /\
      buffer_offset r + limit r < buffer_offset r' + upto r' < end_index r }.

Lemma chain_first_slice M l s rest upto D : chain M l (s :: rest) upto D -> owned l (s :: rest) s /\ owned l (s :: rest) (s + lsize l - 1).
Proof.
  intros H. destruct (chain_inv _ _ _ _ _ _ H) as (Hl & _). pose proof (level_facts l Hl) as (_ & _ & _ & ? & _).
  split; left; lia.
Qed.

(** The forwarding address leads to the next slice. *)
Lemma next_slice_ok r s s' rest d1 d2 b :
  WF (pool r) -> level_ok (level r) -> fits s (lsize (level r)) -> s + lsize (level r) <= size (memory (pool r)) ->
  seg (memory (pool r)) s (lsize (level r)) = d1 ++ to_le_bytes 4 s' ->
  Z.of_nat (length d1 + 4) = lsize (level r) ->
  s + lsize (level r) <= s' < 2 ^ 31 -> s' < end_index r ->
  chain (memory (pool r)) (lnext (level r)) (s' :: rest) (end_index r) d2 ->
  (forall a, owned (lnext (level r)) (s' :: rest) a -> a < size (memory (pool r))) ->
  vget (ByteBlockPool.buffers (pool r)) (s / BYTE_BLOCK_SIZE) = Ok b -> buffer r = b ->
  limit r = s mod BYTE_BLOCK_SIZE + lsize (level r) - 4 ->
  exists r', next_slice r = (Ok tt, r') /\ reads r' d2 /\ upto r' < limit r' /\ end_index r' = end_index r /\
    buffer_offset r' + upto r' = s'.
Proof.
  intros Hw Hl Hf Hsz Hs Hn Hss Hse Hch Hown Hb Hbr Hlim. pose proof block_size_val as HB. pose proof (proj1 Hf) as Hs0.
  destruct (level_facts _ Hl) as (Hnx & _ & Hl' & Hs1 & Hs2 & _). destruct (level_facts _ Hl') as (_ & Hsv & _).
  destruct (slice_block (pool r) s (lsize (level r)) Hw Hf) as (b' & Hb' & _ & Hr); [lia|lia|].
  rewrite Hb in Hb'. injection Hb' as <-.
  destruct (seg_parts _ _ _ _ _ (proj1 Hf) Hs) as [_ Hfw]; [rewrite to_le_bytes_length; lia|].
  rewrite to_le_bytes_length in Hfw.
  assert (Hg : get_i32_le (buffer r) (limit r) = Ok s').
  { unfold get_i32_le, get_le, INT_BYTES. rewrite Hbr, Hlim.
    replace (s mod BYTE_BLOCK_SIZE + lsize (level r) - 4) with (s mod BYTE_BLOCK_SIZE + Z.of_nat (length d1)) by lia.
    rewrite Hr by lia. cbn [rbind]. change (Z.of_nat 4) with 4 in Hfw. rewrite Hfw, from_to_le_bytes by lia.
    f_equal. change (8 * Z.of_nat 4) with 32. apply wrap_s_id; [lia|]. unfold in_s. lia. }
  unfold next_slice. rewrite Hg. cbn [rbind]. unfold try_convert_usize. rewrite (proj2 (Z.ltb_ge _ _)) by lia.
  cbn [rbind]. rewrite Hnx. cbn [rbind]. rewrite Hsv. cbn [rbind].
  assert (Hland : Z.land s' BYTE_BLOCK_MASK = s' mod BYTE_BLOCK_SIZE)
    by (change BYTE_BLOCK_MASK with (Z.ones 15); by rewrite Z.land_ones by lia). rewrite Hland.
  pose proof (Z.div_mod s' BYTE_BLOCK_SIZE ltac:(lia)) as Hdm. pose proof (Z.mod_pos_bound s' BYTE_BLOCK_SIZE ltac:(lia)).
  destruct (chain_inv _ _ _ _ _ _ Hch) as (_ & Hf' & Hrest).
  set (lim := if _ <=? _ then _ else _).
  assert (Hlm : lim = Ok (match rest with [] => end_index r - s' / BYTE_BLOCK_SIZE * BYTE_BLOCK_SIZE
    | _ => s' mod BYTE_BLOCK_SIZE + lsize (lnext (level r)) - 4 end)).
  { unfold lim, usub. destruct rest as [|s2 rest].
    - destruct Hrest as (_ & He & Hlt). rewrite (proj2 (Z.leb_le _ _)) by lia. rewrite (proj2 (Z.leb_le s' _)) by lia.
      cbn [rbind]. rewrite (proj2 (Z.ltb_lt 0 _)) by lia. cbn [rbind debug_assert]. by rewrite (proj2 (Z.leb_le _ _)) by lia.
    - destruct Hrest as (e1 & e2 & _ & _ & _ & He & Hlt & _). rewrite (proj2 (Z.leb_gt _ _)) by lia.
      by rewrite (proj2 (Z.leb_le _ _)) by lia. }
  rewrite Hlm. cbn [rbind]. eexists. split; [done|]. cbn [ByteSliceReader.upto limit end_index buffer_offset].
  assert (Hlt : s' mod BYTE_BLOCK_SIZE < match rest with [] => end_index r - s' / BYTE_BLOCK_SIZE * BYTE_BLOCK_SIZE
    | _ => s' mod BYTE_BLOCK_SIZE + lsize (lnext (level r)) - 4 end) by (destruct rest; lia).
  split_and!; [|done|done|lia].
  split; [done|]. exists s', rest, []. cbn. split_and!; try done; [lia|lia].
Qed.

Lemma seg_take M a n m : 0 <= n <= m -> seg M a n = take (Z.to_nat n) (seg M a m).
Proof. intros H. unfold seg. rewrite take_take. f_equal. lia. Qed.

Lemma reads_piece r d : reads r d -> exists x d', d = x ++ d' /\ piece r x d'.
Proof.
  intros (Hw & s & rest & c & Hch & Hown & Hbu & Hbo & Hbuf & Hup & Hlim & Hle).
  pose proof block_size_val as HB. destruct (chain_inv _ _ _ _ _ _ Hch) as (Hl & Hf & Hrest).
  destruct (level_facts _ Hl) as (_ & _ & _ & Hsz & _). pose proof (proj1 Hf) as Hs0.
  assert (Hmem : s + lsize (level r) <= size (memory (pool r))).
  { pose proof (Hown _ (proj2 (chain_first_slice _ _ _ _ _ _ Hch))). lia. }
  destruct (slice_block (pool r) s (lsize (level r)) Hw Hf) as (b & Hb & Hfb & Hr); [lia|lia|].
  assert (buffer r = b) as Hbb by (rewrite Hbuf; unfold get_buffer_or_empty; by rewrite Hb).
  pose proof (Z.div_mod s BYTE_BLOCK_SIZE ltac:(lia)) as Hdm. pose proof (Z.mod_pos_bound s BYTE_BLOCK_SIZE ltac:(lia)).
  assert (Hsplit : exists x d', d = x ++ d' /\ seg (memory (pool r)) s (Z.of_nat (length (c ++ x))) = c ++ x /\
    Z.of_nat (length (c ++ x)) <= lsize (level r) /\ limit r = s mod BYTE_BLOCK_SIZE + Z.of_nat (length (c ++ x)) /\
    match rest with [] => d' = [] /\ end_index r = s + Z.of_nat (length (c ++ x))
    | s' :: rest' => seg (memory (pool r)) s (lsize (level r)) = (c ++ x) ++ to_le_bytes 4 s' /\
        Z.of_nat (length (c ++ x) + 4) = lsize (level r) /\ s + lsize (level r) <= s' < 2 ^ 31 /\ s' < end_index r /\
        chain (memory (pool r)) (lnext (level r)) (s' :: rest') (end_index r) d' end).
  { destruct rest as [|s' rest'].
    - destruct Hrest as (H1 & H2 & H3). exists d, []. rewrite app_nil_r. split_and!; try done; lia.
    - destruct Hrest as (d1 & d2 & Hcd & H1 & H2 & H3 & H4 & H5). exists (drop (length c) d1), d2.
      assert (d1 = c ++ drop (length c) d1) as E.
      { rewrite <- (take_drop (length c) d1) at 1. f_equal. apply (f_equal (take (length c))) in Hcd.
        rewrite take_app_length, take_app_le in Hcd by lia. done. }
      rewrite <- E. split_and!; try done; try lia.
      + rewrite E in Hcd at 1. rewrite <- app_assoc in Hcd. by apply app_inv_head in Hcd.
      + apply (seg_parts _ _ _ _ _ Hs0 H1). rewrite to_le_bytes_length. lia. }
  destruct Hsplit as (x & d' & Hd & Hseg & Hlx & Hlm & Hmore). exists x, d'. split; [done|].
  rewrite length_app in Hseg, Hlx, Hlm. assert (Hlen : Z.of_nat (length x) = limit r - upto r) by lia. constructor.
  - done.
  - lia.
  - intros n Hn. rewrite Hbb, Hup, Hr by lia. f_equal. rewrite (seg_take _ _ n (Z.of_nat (length x))) by lia.
    f_equal. apply (seg_parts _ _ _ c x Hs0 Hseg). lia.
  - intros n Hn. split; [done|]. exists s, rest, (c ++ take (Z.to_nat n) x). cbn.
    rewrite Hd in Hch. rewrite <- app_assoc, (app_assoc (take _ x)), take_drop, length_app, length_take. split_and!; try done; lia.
  - rewrite Hbb. destruct Hfb as [Hfb ?]. split; [|done]. intros ->. cbn in Hfb. lia.
  - rewrite Hlm, Hbo. destruct rest as [|s' rest'].
    + destruct Hmore as [-> He]. rewrite length_app in He. by rewrite (proj2 (Z.eqb_eq _ _)) by lia.
    + destruct Hmore as (H1 & H2 & H3 & H4 & H5). rewrite length_app in H2. rewrite (proj2 (Z.eqb_neq _ _)) by lia.
      destruct (next_slice_ok r s s' rest' (c ++ x) d' b) as (r' & Hn & Hrd & Hlt & He & Hpos); try done.
      * rewrite length_app. lia.
      * intros a Ha. apply Hown. by right.
      * exists r'. split_and!; try done; lia.
Qed.

(** ** The methods *)

Lemma eof_ok r d : reads r d -> eof r = Ok (bool_decide (d = [])).
Proof.
  intros Hr. destruct (reads_piece r d Hr) as (x & d' & -> & P). destruct P as [Pl Pu _ _ _ Pn].
  unfold eof. destruct (Z.eqb_spec (limit r + buffer_offset r) (end_index r)) as [E|E].
  - subst d'. rewrite app_nil_r, (proj2 (Z.leb_le _ _)) by lia. cbn [rbind debug_assert]. f_equal.
    apply eq_iff_eq_true. rewrite Z.eqb_eq, bool_decide_eq_true. destruct x; cbn [length] in Pl; [split; [done|lia]|]. split; [lia|done].
  - destruct Pn as (r' & _ & Hr' & Hlt & He & Hpos). rewrite (proj2 (Z.leb_le _ _)) by lia. cbn [rbind debug_assert]. f_equal.
    rewrite (proj2 (Z.eqb_neq _ _)) by lia. symmetry. apply bool_decide_eq_false. intros [_ ->]%app_eq_nil.
    destruct (reads_piece r' [] Hr') as (x' & d'' & Hx & P'). destruct x'; [|done].
    pose proof (pc_len _ _ _ P') as Hl. cbn in Hl. lia.
Qed.

Lemma usub_piece r x d' : piece r x d' -> usub (limit r) (upto r) = Ok (Z.of_nat (length x)).
Proof. intros P. unfold usub. pose proof (pc_len _ _ _ P). rewrite (proj2 (Z.leb_le _ _)) by lia. by f_equal. Qed.

(** What remains to be asked of a piece that is exhausted. *)
Lemma piece_next r x d' : piece r x d' -> d' <> [] ->
  exists r', next_slice r = (Ok tt, r') /\ reads r' d' /\ upto r' < limit r' /\ end_index r' = end_index r /\
    buffer_offset r + limit r < buffer_offset r' + upto r' < end_index r.
Proof. intros P Hd. pose proof (pc_next _ _ _ P) as Hn. destruct (_ =? _); [done|exact Hn]. Qed.

Lemma read_byte_reads r b d : reads r (b :: d) -> exists r', read_byte r = (Ok b, r') /\ reads r' d.
Proof.
  intros Hr. unfold read_byte. rewrite sget_sbind, slift_sbind, (eof_ok _ _ Hr).
  rewrite bool_decide_eq_false_2 by done. rewrite slift_sbind. cbn [negb debug_assert].
  destruct (reads_piece r _ Hr) as (x & d' & Hd & P). pose proof (pc_len _ _ _ P) as Hlen.
  rewrite slift_sbind, (proj2 (Z.leb_le _ _)) by lia. cbn [debug_assert].
  assert (Hstep : exists r1 d1, (if upto r =? limit r then next_slice else sret tt) r = (Ok tt, r1) /\
    exists x1, piece r1 (b :: x1) d1 /\ d = x1 ++ d1).
  { destruct (Z.eqb_spec (upto r) (limit r)) as [E|E].
    - destruct x; [|cbn in Hlen; lia]. cbn in Hd. subst d'.
      destruct (piece_next _ _ _ P) as (r1 & Hn & Hr1 & Hlt & _); [done|].
      destruct (reads_piece r1 _ Hr1) as ([|b1 x1] & d1 & Hd1 & P1);
        [pose proof (pc_len _ _ _ P1) as Hl1; cbn in Hl1; lia|].
      injection Hd1 as -> ->. exists r1, d1. split; [done|]. by exists x1.
    - destruct x as [|b1 x1]; [cbn in Hlen; lia|]. injection Hd as -> ->. exists r, d'. split; [done|]. by exists x1. }
  destruct Hstep as (r1 & d1 & Hst & x1 & P1 & ->). rewrite (sbind_ok _ _ _ _ _ Hst), sget_sbind.
  rewrite slift_sbind, (vslice_one _ _ b) by (apply (pc_slice _ _ _ P1 1); cbn [length]; lia).
  rewrite sput_sbind. eexists. split; [done|]. apply (pc_move _ _ _ P1 1). cbn [length]. lia.
Qed.

(** A request for [x] is answered by the current piece, or takes all of it. *)
Lemma reads_request r x d : reads r (x ++ d) -> exists y,
  usub (limit r) (upto r) = Ok (Z.of_nat (length y)) /\ Z.of_nat (length y) = limit r - upto r /\
  if Z.of_nat (length y) <? Z.of_nat (length x) then
    exists x' r', x = y ++ x' /\ vslice (buffer r) (upto r) (upto r + Z.of_nat (length y)) = Ok y /\
      next_slice r = (Ok tt, r') /\ reads r' (x' ++ d) /\ upto r' < limit r'
  else vslice (buffer r) (upto r) (upto r + Z.of_nat (length x)) = Ok x /\
    reads (with_upto r (upto r + Z.of_nat (length x))) d.
Proof.
  intros Hr. destruct (reads_piece r _ Hr) as (y & e & Hd & P). exists y.
  split; [by eapply usub_piece|]. split; [apply P|]. symmetry in Hd. destruct (Z.ltb_spec (Z.of_nat (length y)) (Z.of_nat (length x))) as [Hlt|Hge].
  - assert (x = y ++ drop (length y) x) as E.
    { rewrite <- (take_drop (length y) x) at 1. f_equal. apply (f_equal (take (length y))) in Hd.
      rewrite take_app_length, take_app_le in Hd by lia. done. }
    rewrite E, <- app_assoc in Hd. apply app_inv_head in Hd. subst e.
    destruct (piece_next _ _ _ P) as (r' & Hn & Hr' & Hlt' & _).
    { intros Hnil%(f_equal length). rewrite length_app, length_drop in Hnil. cbn in Hnil. lia. }
    exists (drop (length y) x), r'. split_and!; try done.
    rewrite (pc_slice _ _ _ P) by lia. by rewrite Nat2Z.id, firstn_all.
  - assert (y = x ++ drop (length x) y) as E.
    { rewrite <- (take_drop (length x) y) at 1. f_equal. apply (f_equal (take (length x))) in Hd.
      rewrite take_app_length, take_app_le in Hd by lia. done. }
    split.
    + rewrite (pc_slice _ _ _ P) by lia. rewrite Nat2Z.id, E. by rewrite take_app_length.
    + pose proof (pc_move _ _ _ P (Z.of_nat (length x)) ltac:(lia)) as Hm. rewrite Nat2Z.id in Hm.
      rewrite E, <- app_assoc in Hd. apply app_inv_head in Hd. by rewrite Hd in Hm.
Qed.

Definition pending (r : t) : nat := if upto r =? limit r then 1 else 0.

Section Consume.
Context {A : Type} (f : A -> list Z -> result A).
(** Consuming a run of bytes is consuming its parts. *)
Hypothesis f_nil : forall acc acc', f acc [] = Ok acc' -> acc' = acc.
Hypothesis f_app : forall acc a b acc', f acc (a ++ b) = Ok acc' -> exists acc1, f acc a = Ok acc1 /\ f acc1 b = Ok acc'.

Lemma consume_ok fuel : forall r x d acc acc', reads r (x ++ d) -> f acc x = Ok acc' ->
  (length x + pending r < fuel)%nat ->
  exists r', consume_bytes fuel (Z.of_nat (length x)) f acc r = (Ok acc', r') /\ reads r' d.
Proof using f_nil f_app.
  induction fuel as [|fuel IH]; intros r x d acc acc' Hr Hacc Hfuel; [lia|]. cbn [consume_bytes].
  destruct (Z.ltb_spec 0 (Z.of_nat (length x))) as [Hpos|].
  2: { destruct x; [|cbn in *; lia]. exists r. by rewrite <- (f_nil _ _ Hacc). }
  destruct (reads_request r x d Hr) as (y & Hu & Hlen & Hreq). rewrite sget_sbind, slift_sbind, Hu.
  destruct (_ <? _) eqn:E.
  - destruct Hreq as (x' & r' & -> & Hv & Hn & Hr' & Hlt). destruct (f_app _ _ _ _ Hacc) as (acc1 & H1 & H2).
    rewrite slift_sbind, Hv. cbn [rbind]. rewrite H1, (sbind_ok _ _ _ _ _ Hn).
    replace (Z.of_nat (length (y ++ x')) - Z.of_nat (length y)) with (Z.of_nat (length x')) by (rewrite length_app; lia).
    apply (IH r' x' d acc1 acc' Hr' H2). rewrite length_app in Hfuel. unfold pending in *.
    rewrite (proj2 (Z.eqb_neq (upto r') _)) by lia. destruct (Z.eqb_spec (upto r) (limit r)); lia.
  - destruct Hreq as [Hv Hm]. rewrite slift_sbind, Hv. cbn [rbind]. rewrite Hacc, sput_sbind. by eexists.
Qed.
End Consume.

Lemma pending_le r : (pending r <= 1)%nat.
Proof. unfold pending. destruct (_ =? _); lia. Qed.

Lemma get_bytes_reads r x d : reads r (x ++ d) ->
  exists r', get_bytes (Z.of_nat (length x)) r = (Ok x, r') /\ reads r' d.
Proof.
  intros Hr. unfold get_bytes. destruct (Z.eqb_spec (Z.of_nat (length x)) 0).
  { destruct x; [|cbn in *; lia]. by exists r. }
  destruct (reads_request r x d Hr) as (y & Hu & Hlen & Hreq). rewrite sget_sbind, slift_sbind, Hu.
  destruct (Z.leb_spec (Z.of_nat (length x)) (Z.of_nat (length y))) as [Hle|Hlt].
  - rewrite (proj2 (Z.ltb_ge _ _)) in Hreq by lia. destruct Hreq as [Hv Hm]. rewrite sput_sbind. eexists. split; [|done].
    unfold slift. by rewrite Hv.
  - apply consume_ok with (d := d) (acc := []); [| |done|done|].
    + intros acc acc' [= <-]. by rewrite app_nil_r.
    + intros acc a b acc' [= <-]. eexists. split; [done|]. by rewrite app_assoc.
    + unfold turns_for. pose proof (pending_le r). lia.
Qed.

Lemma read_bytes_reads r x d b o : reads r (x ++ d) -> 0 <= o -> o + Z.of_nat (length x) <= Z.of_nat (length b) ->
  exists r', read_bytes b o (Z.of_nat (length x)) r
    = (Ok (take (Z.to_nat o) b ++ x ++ drop (Z.to_nat o + length x) b), r') /\ reads r' d.
Proof.
  intros Hr Ho Hb. unfold read_bytes.
  destruct (consume_ok (fun '(b, offset) slice =>
       let? b := vcopy b offset slice in Ok (b, offset + Z.of_nat (length slice))))
    with (fuel := turns_for (Z.of_nat (length x))) (r := r) (x := x) (d := d) (acc := (b, o))
      (acc' := (take (Z.to_nat o) b ++ x ++ drop (Z.to_nat o + length x) b, o + Z.of_nat (length x)))
    as (r' & Hc & Hr'); [| |done| | |].
  - intros [b1 o1] acc'. unfold vcopy. destruct (_ && _) eqn:E; [|done]. cbn [rbind]. intros [= <-].
    cbn [app length]. rewrite Nat.add_0_r, take_drop. f_equal. lia.
  - intros [b1 o1] a1 a2 acc'. destruct (vcopy b1 o1 (a1 ++ a2)) as [b2| | |] eqn:E; try done. cbn [rbind]. intros [= <-].
    pose proof E as E1. unfold vcopy in E1. destruct (_ && _) eqn:Hin; [|done].
    rewrite length_app, andb_true_iff, !Z.leb_le in Hin.
    pose proof (vcopy_def b1 o1 a1 ltac:(lia) ltac:(lia)) as E2. rewrite E2. cbn [rbind]. eexists. split; [done|].
    cbv beta iota. rewrite (vcopy_vcopy _ _ _ _ _ E2) by lia. rewrite E. cbn [rbind]. rewrite length_app. do 2 f_equal. lia.
  - by rewrite vcopy_def by lia.
  - unfold turns_for. pose proof (pending_le r). lia.
  - rewrite (sbind_ok _ _ _ _ _ Hc). by exists r'.
Qed.

Lemma skip_loop_ok fuel : forall r x d, reads r (x ++ d) -> (length x + pending r < fuel)%nat ->
  exists r', skip_loop fuel (Z.of_nat (length x)) r = (Ok tt, r') /\ reads r' d.
Proof.
  induction fuel as [|fuel IH]; intros r x d Hr Hfuel; [lia|]. cbn [skip_loop].
  destruct (Z.ltb_spec 0 (Z.of_nat (length x))) as [Hpos|].
  2: { destruct x; [|cbn in *; lia]. by exists r. }
  destruct (reads_request r x d Hr) as (y & Hu & Hlen & Hreq). rewrite sget_sbind, slift_sbind, Hu.
  destruct (_ <? _) eqn:E.
  - destruct Hreq as (x' & r' & -> & Hv & Hn & Hr' & Hlt). rewrite (sbind_ok _ _ _ _ _ Hn).
    replace (Z.of_nat (length (y ++ x')) - Z.of_nat (length y)) with (Z.of_nat (length x')) by (rewrite length_app; lia).
    apply (IH r' x' d Hr'). rewrite length_app in Hfuel. unfold pending in *.
    rewrite (proj2 (Z.eqb_neq (upto r') _)) by lia. destruct (Z.eqb_spec (upto r) (limit r)); lia.
  - destruct Hreq as [Hv Hm]. unfold sput. by eexists.
Qed.

Lemma skip_bytes_reads r x d : reads r (x ++ d) ->
  exists r', skip_bytes (Z.of_nat (length x)) r = (Ok tt, r') /\ reads r' d.
Proof.
  intros Hr. unfold skip_bytes. rewrite (proj2 (Z.ltb_ge _ _)) by lia. apply skip_loop_ok; [done|].
  unfold turns_for. pose proof (pending_le r). lia.
Qed.

(** ** The contract of a data input *)

(** Everything up to [end_index], slice by slice. *)
Fixpoint remaining (fuel : nat) (r : t) : list Z :=
  match fuel with
  | O => []
  | S fuel =>
      match vslice (buffer r) (upto r) (limit r) with
      | Ok x => x ++ (if limit r + buffer_offset r =? end_index r then []
                      else match next_slice r with (Ok _, r') => remaining fuel r' | _ => [] end)
      | _ => []
      end
  end.

Lemma remaining_ok fuel : forall r d, reads r d -> end_index r - (buffer_offset r + upto r) < Z.of_nat fuel ->
  remaining fuel r = d.
Proof.
  induction fuel as [|fuel IH]; intros r d Hr Hf; destruct (reads_piece r d Hr) as (x & d' & -> & P);
    destruct P as [Pl Pu Ps Pm Pb Pn].
  { destruct (Z.eqb_spec (limit r + buffer_offset r) (end_index r)); [lia|]. destruct Pn as (r' & _ & _ & _ & _ & ?). lia. }
  cbn [remaining]. replace (limit r) with (upto r + Z.of_nat (length x)) at 1 by lia.
  rewrite Ps, Nat2Z.id, firstn_all by lia. f_equal.
  destruct (_ =? _); [done|]. destruct Pn as (r' & -> & Hr' & Hlt & He & Hpos). apply IH; [done|]. lia.
Qed.

Definition rest_of (r : t) : list Z := remaining (S (Z.to_nat (end_index r))) r.

Lemma reads_offset r d : reads r d -> 0 <= buffer_offset r + upto r <= end_index r.
Proof.
  intros Hr. destruct (reads_piece r d Hr) as (x & d' & _ & [Pl Pu _ _ _ Pn]). destruct Hr as (_ & s & rest & c & Hch & _ & _ & Hbo & _).
  destruct (chain_inv _ _ _ _ _ _ Hch) as (_ & [Hs _] & _). pose proof block_size_val as HB.
  pose proof (Z.div_pos s BYTE_BLOCK_SIZE ltac:(lia) ltac:(lia)). split; [lia|].
  destruct (Z.eqb_spec (limit r + buffer_offset r) (end_index r)); [lia|]. destruct Pn as (r' & _ & _ & _ & _ & ?). lia.
Qed.

Lemma reads_rest r d : reads r d -> rest_of r = d.
Proof. intros Hr. apply remaining_ok; [done|]. pose proof (reads_offset r d Hr). lia. Qed.

Lemma chain_bytes M l st upto D : Forall (in_u 8) M -> chain M l st upto D -> Forall (in_u 8) D.
Proof.
  intros HM. assert (forall a n, Forall (in_u 8) (seg M a n)) as Hseg by (intros; by apply Forall_take, Forall_drop).
  induction 1 as [l s D k Hl Hf Hs Hn|l s s' rest upto d1 d2 Hl Hf Hs Hn Hss Hup Hc IH];
    specialize (Hseg s (lsize l)); rewrite Hs in Hseg; apply Forall_app in Hseg as [? _]; [done|]. by apply Forall_app.
Qed.

Lemma reads_consumes {A} (m : ST t A) (x : list Z) (a : A) r :
  (forall d, reads r (x ++ d) -> exists r', m r = (Ok a, r') /\ reads r' d) ->
  consumes_from rest_of (fun r => reads r (rest_of r)) m r x a.
Proof.
  intros Hm rest Hi Ha. rewrite Ha in Hi. destruct (Hm _ Hi) as (r' & Hr & Hd). exists r'.
  rewrite (reads_rest _ _ Hd). done.
Qed.

#[global] Instance slice_reader_spec : DataInputSpec t.
Proof.
  assert (Hbyte : forall r b, consumes_from rest_of (fun r => reads r (rest_of r)) read_byte r [b] b)
    by (intros; apply reads_consumes; intros; by apply read_byte_reads).
  assert (Hbytes : forall r, reads r (rest_of r) -> Forall (in_u 8) (rest_of r)).
  { intros r (Hw & s & rest & c & Hch & _). apply (chain_bytes _ _ _ _ _) in Hch; [by apply Forall_app in Hch as [_ ?]|].
    apply blocks_bytes, Hw. }
  refine {| avail := rest_of; in_inv := fun r => reads r (rest_of r) |}.
  - exact Hbytes.
  - exact Hbyte.
  - intros r bs. apply reads_consumes. intros d. apply get_bytes_reads.
  - intros r bs. apply (default_read_short_spec _ _ read_byte Hbyte).
  - intros r bs. apply (default_read_int_spec _ _ read_byte Hbyte).
  - intros r bs. apply (default_read_long_spec _ _ (default_read_int read_byte)
      (default_read_int_spec _ _ read_byte Hbyte) Hbytes).
  - intros r bs. apply reads_consumes. intros d. apply skip_bytes_reads.
Defined.

(** ** Opening a reader on a stream *)

Lemma init_ok r p st upto0 d k : pool r = p -> WF p -> position p <= size (memory p) -> stream p st upto0 d k ->
  exists r', init r (default 0 (head st)) upto0 = Ok r' /\ pool r' = p /\ reads r' d.
Proof.
  intros Hp Hw Hsz (Hch & Hown & _). destruct (chain_head _ _ _ _ _ Hch) as (s & rest & -> & Hle & _).
  change (default 0 (head (s :: rest))) with s. destruct (chain_inv _ _ _ _ _ _ Hch) as (_ & Hf & Hrest). pose proof block_size_val as HB.
  unfold init. rewrite (proj2 (Z.leb_le s upto0)) by lia. cbn [debug_assert rbind].
  change (vget LEVEL_SIZE_ARRAY 0) with (Ok 5). cbn [rbind]. change (lsize 0) with 5 in *.
  assert (Hland : forall a, Z.land a BYTE_BLOCK_MASK = a mod BYTE_BLOCK_SIZE)
    by (intros; change BYTE_BLOCK_MASK with (Z.ones 15); by rewrite Z.land_ones by lia). rewrite !Hland.
  eexists. split; [done|]. split; [done|]. cbn. split; [by rewrite Hp|].
  exists s, rest, []. cbn. rewrite Hp, Z.add_0_r. split_and!; try done.
  - intros a Ha. specialize (Hown a Ha). lia.
  - pose proof (Z.div_mod s BYTE_BLOCK_SIZE ltac:(lia)). destruct rest as [|s' rest].
    + destruct Hrest as (_ & -> & Hlt). rewrite (proj2 (Z.leb_le _ _)) by lia.
      destruct (fits_mod s 5 (Z.of_nat (length d)) Hf) as [-> _]; lia.
    + destruct Hrest as (d1 & d2 & _ & _ & _ & ? & ? & _). by rewrite (proj2 (Z.leb_gt _ _)) by lia.
  - destruct rest as [|s' rest].
    + destruct Hrest as (_ & -> & Hlt). rewrite (proj2 (Z.leb_le _ _)) by lia.
      destruct (fits_mod s 5 (Z.of_nat (length d)) Hf) as [-> _]; lia.
    + destruct Hrest as (d1 & d2 & _ & _ & _ & ? & ? & _). rewrite (proj2 (Z.leb_gt _ _)) by lia. lia.
Qed.

(** ** Copying a stream to an output *)

Section Copy.
Context {Out : Type} {DO : DataOutput Out} {OS : DataOutputSpec Out}.

Lemma write_loop_ok fuel : forall r (o : Out) d n, reads r d -> out_inv o -> Z.of_nat (length d) <= room o ->
  end_index r - (buffer_offset r + upto r) < Z.of_nat fuel ->
  exists r' o', write_loop fuel n (r, o) = (Ok (n + Z.of_nat (length d)), (r', o')) /\ out_inv o' /\
    out o' = out o ++ d /\ room o' = room o - Z.of_nat (length d).
Proof using OS.
  induction fuel as [|fuel IH]; intros r o d n Hr Ho Hroom Hf; [pose proof (reads_offset _ _ Hr); lia|].
  destruct (reads_piece r d Hr) as (x & d' & -> & P). pose proof (usub_piece _ _ _ P) as Hus. destruct P as [Pl Pu Ps Pm [Pb Pb8] Pn].
  rewrite length_app in *. cbn [write_loop]. rewrite sget_sbind. cbn iota beta. rewrite slift_sbind.
  assert (match buffer r with [] => get_buffer (pool r) (buffer_upto r) | _ :: _ => Ok (buffer r) end = Ok (buffer r)) as ->
    by (by destruct (buffer r)).
  assert (Hchk : (if limit r + buffer_offset r =? end_index r then
      let* rest := slift (usub (end_index r) (buffer_offset r)) in slift (debug_assert (upto r <=? rest))
    else sret tt) (r, o) = (Ok tt, (r, o))).
  { destruct (Z.eqb_spec (limit r + buffer_offset r) (end_index r)); [|done].
    unfold usub. rewrite slift_sbind, (proj2 (Z.leb_le _ _)) by lia. unfold slift. by rewrite (proj2 (Z.leb_le _ _)) by lia. }
  rewrite (sbind_ok _ _ _ _ _ Hchk), slift_sbind, Hus.
  pose proof (Ps (Z.of_nat (length x)) ltac:(lia)) as Hv. rewrite Nat2Z.id, firstn_all in Hv.
  unfold vslice in Hv. destruct (_ && _) eqn:Hin; [|done]. injection Hv as Hv.
  rewrite !andb_true_iff, !Z.leb_le in Hin.
  destruct (write_bytes_range_spec o (buffer r) (upto r) (Z.of_nat (length x)) Ho Pb8) as (o1 & Hw & Ho1 & Hout & Hrm); [lia..|].
  replace (upto r + Z.of_nat (length x) - upto r) with (Z.of_nat (length x)) in Hv by lia.
  rewrite Nat2Z.id in Hv, Hout, Hrm. rewrite Hv in Hout, Hrm.
  rewrite (sbind_ok (on_output _) _ (r, o) tt (r, o1)) by (unfold on_output; by rewrite Hw).
  destruct (_ =? end_index r).
  - subst d'. exists r, o1. cbn [length]. rewrite app_nil_r, Nat.add_0_r. done.
  - destruct Pn as (r' & Hn & Hr' & Hlt & He & Hpos).
    rewrite (sbind_ok (on_reader _) _ (r, o1) tt (r', o1)) by (unfold on_reader; by rewrite Hn).
    destruct (IH r' o1 d' (n + Z.of_nat (length x)) Hr' Ho1) as (r2 & o2 & Hl & Ho2 & Hout2 & Hrm2); [lia|lia|].
    exists r2, o2. rewrite Hl, Hout2, Hout, app_assoc. split_and!; try done; [do 2 f_equal; lia|lia].
Qed.

Lemma write_reads r (o : Out) d : reads r d -> out_inv o -> Z.of_nat (length d) <= room o ->
  exists r' o', write (r, o) = (Ok (Z.of_nat (length d)), (r', o')) /\ out_inv o' /\ out o' = out o ++ d.
Proof using OS.
  intros Hr Ho Hroom. pose proof (reads_offset _ _ Hr). unfold write. cbn [fst].
  destruct (write_loop_ok (S (Z.to_nat (end_index r))) r o d 0 Hr Ho Hroom) as (r' & o' & Hw & ? & ? & _); [lia|].
  by exists r', o'.
Qed.
End Copy.
End Reading.
