(* ===== verification/TermsHash.v ===== *)
(** The in-memory term streams of the indexing chain: [IntBlockPool]
    (src/core/util/int_block_pool.rs) with its allocators, the postings arrays
    (src/core/index/parallel_postings_array.rs), and [TermsHashPerField]
    (src/core/index/terms_hash_per_field.rs), which gives each term of a field a row of
    byte streams: their write addresses lie in the int pool, their bytes in slices of
    the byte pool. *)

From Stdlib Require Import ZArith Lia Bool.
From stdpp Require Import base tactics numbers list.
From S2P Require Import Prelude ArrayUtil BitUtil DataOutput DataInput StringHelper ByteBlockPool BytesRefHash ByteSlices.
Import BitUtil.

Local Open Scope Z_scope.

(** * Int blocks *)

Definition INT_BLOCK_SHIFT : Z := 13.
Definition INT_BLOCK_SIZE : Z := Z.shiftl 1 INT_BLOCK_SHIFT.
Definition INT_BLOCK_MASK : Z := INT_BLOCK_SIZE - 1.

Module AllocatorInt.
(** [AllocatorIntEnum]: the direct allocator, and [IntBlockAllocator] of the indexing
    chain with the value of the counter it reports to. *)
Inductive t : Type :=
| DA (block_size : Z)
| IBA (block_size byte_used : Z).

Definition new_direct : t := DA INT_BLOCK_SIZE.
Definition new_indexing (byte_used : Z) : t := IBA INT_BLOCK_SIZE byte_used.

Definition get_block_size (a : t) : Z :=
  match a with DA block_size => block_size | IBA block_size _ => block_size end.

Definition get_byte_block (a : t) : list Z * t :=
  match a with
  | DA block_size => (replicate (Z.to_nat block_size) 0, a)
  | IBA block_size byte_used =>
      (replicate (Z.to_nat INT_BLOCK_SIZE) 0, IBA block_size (as_i64 (byte_used + INT_BLOCK_SIZE * INT_BYTES)))
  end.

(** The caller passes the end of the range, which [IntBlockAllocator] takes for a
    number of blocks. *)
Definition recycle_int_blocks (a : t) (start end_ : Z) : t :=
  match a with
  | DA _ => a
  | IBA block_size byte_used =>
      let delta := end_ * (block_size * INT_BYTES) in
      IBA block_size (as_i64 (byte_used + - delta))
  end.
End AllocatorInt.

Module IntBlockPool.
Import AllocatorInt.

Record t := mk {
  buffers : list (list Z);
  buffer_upto : option Z;
  int_upto : Z;
  int_offset : Z;
  allocator : AllocatorInt.t }.

Definition with_allocator (a : AllocatorInt.t) : t := mk [] None INT_BLOCK_SIZE (- INT_BLOCK_SIZE) a.
Definition new : t := with_allocator new_direct.

Definition with_buffers (p : t) (b : list (list Z)) : t :=
  mk b (buffer_upto p) (int_upto p) (int_offset p) (allocator p).
Definition with_int_upto (p : t) (u : Z) : t :=
  mk (buffers p) (buffer_upto p) u (int_offset p) (allocator p).

Definition get_buffer (p : t) (i : Z) : result (list Z) := vget (buffers p) i.

(** The full blocks, then the used part of the last one. *)
Definition zero_fill (p : t) (upto : Z) : result (list (list Z)) :=
  let? bs := ByteBlockPool.zero_fill (Z.to_nat upto) 0 (buffers p) in
  let? b := vget bs upto in
  let? used := vslice b 0 (int_upto p) in
  let? b := vcopy b 0 (replicate (length used) 0) in
  vset bs upto b.

Definition reset (zero_fill_buffers reuse_first : bool) : ST t unit := fun p =>
  match buffer_upto p with
  | None => (Ok tt, p)
  | Some upto =>
      match (if zero_fill_buffers then zero_fill p upto else Ok (buffers p)) with
      | Ok bs =>
          let offset := if reuse_first then 1 else 0 in
          let '(bs, a) := (if (0 <? upto) || negb reuse_first then
                             (take (length bs - Z.to_nat (upto + 1 - offset))%nat bs,
                              recycle_int_blocks (allocator p) offset (upto + 1))
                           else (bs, allocator p)) in
          (Ok tt, if reuse_first then mk bs (Some 0) 0 0 a
                  else mk bs None INT_BLOCK_SIZE (- INT_BLOCK_SIZE) a)
      | _ => (Panic, p)
      end
  end.

Definition next_buffer : ST t unit := fun p =>
  let upto := match buffer_upto p with Some upto => upto + 1 | None => 0 end in
  let '(bs, a) := (if upto =? Z.of_nat (length (buffers p)) then
                     let '(block, a) := get_byte_block (allocator p) in (buffers p ++ [block], a)
                   else (buffers p, allocator p)) in
  let sum := int_offset p + INT_BLOCK_SIZE in
  if i32_MAX <? sum then (Err NumberOverflow, mk bs (Some upto) 0 (int_offset p) a)
  else (Ok tt, mk bs (Some upto) 0 sum a).

(** [get_buffer_mut(i)\[off\]]: the cell, and the pool with another value in it. *)
Definition get_cell (p : t) (i off : Z) : result Z :=
  let? b := get_buffer p i in vget b off.
Definition set_cell (p : t) (i off v : Z) : result t :=
  let? b := get_buffer p i in
  let? b := vset b off v in
  let? bs := vset (buffers p) i b in
  Ok (with_buffers p bs).
End IntBlockPool.

(** * Postings arrays *)

Inductive IndexOptions : Type :=
| NotIndexed
| Docs
| DocsAndFreqs
| DocsAndFreqsAndPositions
| DocsAndFreqsAndPositionsAndOffsets.

(** The derived order is that of the declaration. *)
Definition options_rank (o : IndexOptions) : Z :=
  match o with
  | NotIndexed => 0 | Docs => 1 | DocsAndFreqs => 2 | DocsAndFreqsAndPositions => 3
  | DocsAndFreqsAndPositionsAndOffsets => 4
  end.
Definition options_ge (o p : IndexOptions) : bool := options_rank p <=? options_rank o.

(** A record of [starts]: term text start, stream address, byte-pool start. *)
Record start_row := mk_row { text_start : Z; address_offset : Z; byte_start : Z }.
Definition empty_row : start_row := mk_row 0 0 0.

(** The traits [PostingsArrayBase] and [PostingsArray]; the three getters of the trait
    are columns of one table of rows in every implementation. *)
Class PostingsArray (PA : Type) := {
  new_for_index : Z -> IndexOptions -> PA;
  bytes_per_posting : PA -> Z;
  copy_to : Z -> ST PA unit;
  get_size : PA -> Z;
  get_rows : PA -> list start_row;
  set_row : PA -> list start_row -> PA }.

Section PostingsArrayMethods.
Context {PA : Type} `{PostingsArray PA}.

(** The default [grow] and the setters; an index out of range panics. *)
Definition grow_postings : ST PA unit :=
  let* a := sget in
  let* new_size := slift (ArrayUtil.oversize (get_size a + 1) (bytes_per_posting a)) in
  copy_to new_size.

Definition update_row (f : start_row -> start_row) (index : Z) (a : PA) : result PA :=
  let? r := vget (get_rows a) index in
  let? rs := vset (get_rows a) index (f r) in
  Ok (set_row a rs).
Definition set_text_starts (index value : Z) : PA -> result PA :=
  update_row (fun r => mk_row value (address_offset r) (byte_start r)) index.
Definition set_address_offset (index value : Z) : PA -> result PA :=
  update_row (fun r => mk_row (text_start r) value (byte_start r)) index.
Definition set_byte_starts (index value : Z) : PA -> result PA :=
  update_row (fun r => mk_row (text_start r) (address_offset r) value) index.
End PostingsArrayMethods.

Module ParallelPostingsArray.
Record t := mk { size : Z; starts : list start_row }.
Definition BYTES_PER_POSTING : Z := 3 * INT_BYTES.

Definition new (size : Z) : t := mk size (replicate (Z.to_nat size) empty_row).

Definition copy_to_ (new_size : Z) : ST t unit := fun a =>
  let a := mk new_size (starts a) in
  match ArrayUtil.grow_exact (starts a) new_size empty_row with
  | Ok rs => (Ok tt, mk new_size rs)
  | Err e => (Err e, a)
  | Panic => (Panic, a)
  | OutOfFuel => (OutOfFuel, a)
  end.

#[global] Instance parallel_array : PostingsArray t := {
  new_for_index n _ := new n;
  bytes_per_posting _ := BYTES_PER_POSTING;
  copy_to := copy_to_;
  get_size := size;
  get_rows := starts;
  set_row a rs := mk (size a) rs }.
End ParallelPostingsArray.

(** * The starts of the terms of a field *)

Module PostingsBytesStartArray.
Section Array.
Context {PA : Type} `{PostingsArray PA}.

(** [per_field] with its [postings_array] and [index_options]; the counter of used
    bytes, which the array shares with the hash and the pools, is not part of it. *)
Record t := mk { postings_array : option PA; index_options : IndexOptions }.

Definition new (o : IndexOptions) : t := mk None o.

Definition with_postings (a : t) (p : PA) : t := mk (Some p) (index_options a).

Definition init_ : ST t unit := fun a =>
  match postings_array a with
  | None => (Ok tt, with_postings a (new_for_index 2 (index_options a)))
  | Some _ => (Ok tt, a)
  end.

(** The debug assertion makes a missing array a panic. *)
Definition grow_ : ST t unit := fun a =>
  match postings_array a with
  | None => (Panic, a)
  | Some p => let '(r, p) := grow_postings p in (r, with_postings a p)
  end.

Definition clear_ (a : t) : t := mk None (index_options a).

Definition get_value_ (a : t) (index : Z) : result Z :=
  match postings_array a with
  | None => Panic
  | Some p => match vget (get_rows p) index with Ok r => Ok (text_start r) | _ => Err IllegalArgument end
  end.

Definition set_value_ (index value : Z) : ST t unit := fun a =>
  match postings_array a with
  | None => (Panic, a)
  | Some p =>
      if Z.of_nat (length (get_rows p)) <=? index then (Err IllegalArgument, a)
      else match set_text_starts index value p with
           | Ok p => (Ok tt, with_postings a p)
           | _ => (Panic, a)
           end
  end.

Definition array_len_ (a : t) : result Z :=
  match postings_array a with
  | None => Panic
  | Some p => Ok (Z.of_nat (length (get_rows p)))
  end.

#[global] Instance postings_starts : BytesStartArray t := {
  init := init_;
  grow := grow_;
  clear_array := clear_;
  get_value := get_value_;
  set_value := set_value_;
  array_len := array_len_;
  need_init a := match postings_array a with None => true | Some _ => false end }.
End Array.
Arguments t : clear implicits.
End PostingsBytesStartArray.

(** * The streams of a field *)

Module TermsHashPerField.
Import ByteBlockPool ByteSlicePool.
Abbreviation starts_t PA := (PostingsBytesStartArray.t PA).

Definition HASH_INIT_SIZE : Z := 4.

(** ** Writing a stream: the state is its write address and the byte pool *)

Definition cursor : Type := Z * ByteBlockPool.t.
Definition on_bytes {A} (m : ST ByteBlockPool.t A) : ST cursor A := fun '(a, p) =>
  let '(r, p) := m p in (r, (a, p)).
Definition set_address (a : Z) : ST cursor unit := fun s => (Ok tt, (a, snd s)).
Definition advance_address (n : Z) : ST cursor unit :=
  let* (a, _) := sget in
  let* a := slift (exact_i32 (a + n)) in
  set_address a.

(** The block and the offset in it of the next byte, and the byte that is there. *)
Definition locate_slot : ST cursor (Z * Z * Z) :=
  let* (upto, pool) := sget in
  let block_index := Z.shiftr upto BYTE_BLOCK_SHIFT in
  let* last := slift (upto_or_error pool) in
  let* _ := slift (debug_assert (block_index <=? last)) in
  let offset := Z.land upto BYTE_BLOCK_MASK in
  let* slot := slift (let? b := get_buffer pool block_index in vget b offset) in
  sret (block_index, offset, slot).

Definition write_byte (b : Z) : ST cursor unit :=
  let* (block_index, offset, slot) := locate_slot in
  let* _ := (if slot =? 0 then on_bytes (update_buffer block_index (fun buf => vset buf offset b))
             else
               let* offset := on_bytes (alloc_slice block_index offset) in
               let* (_, pool) := sget in
               let* a := slift (exact_i32 (offset + byte_offset pool)) in
               let* _ := set_address a in
               let* block_index := slift (upto_or_error pool) in
               on_bytes (update_buffer block_index (fun buf => vset buf offset b))) in
  advance_address 1.

(** [while offset < end && slice\[slice_offset\] == 0]: answers both offsets. *)
Fixpoint fill_loop (fuel : nat) (b : list Z) (offset end_ block_index slice_offset : Z) : ST cursor (Z * Z) :=
  match fuel with
  | O => slift OutOfFuel
  | S fuel =>
      if offset <? end_ then
        let* (_, pool) := sget in
        let* slot := slift (let? s := get_buffer pool block_index in vget s slice_offset) in
        if slot =? 0 then
          let* x := slift (vget b offset) in
          let* _ := on_bytes (update_buffer block_index (fun s => vset s slice_offset x)) in
          let* _ := advance_address 1 in
          fill_loop fuel b (offset + 1) end_ block_index (slice_offset + 1)
        else sret (offset, slice_offset)
      else sret (offset, slice_offset)
  end.

(** The slices for what is left: each takes at least one byte. *)
Fixpoint slices_loop (fuel : nat) (b : list Z) (offset end_ block_index slice_offset : Z) : ST cursor unit :=
  match fuel with
  | O => slift OutOfFuel
  | S fuel =>
      if offset <? end_ then
        let* offset_and_length := on_bytes (alloc_known_size_slice block_index slice_offset) in
        let slice_offset := Z.shiftr offset_and_length 8 in
        let slice_length := Z.land offset_and_length 0xff in
        let* (_, pool) := sget in
        let* block_index := slift (upto_or_error pool) in
        let* room := slift (ByteSliceReader.usub slice_length 1) in
        let write_length := Z.min room (end_ - offset) in
        let* src := slift (vslice b offset (offset + write_length)) in
        let* _ := on_bytes (update_buffer block_index (fun s => vcopy s slice_offset src)) in
        let slice_offset := slice_offset + write_length in
        let* a := slift (exact_i32 (slice_offset + byte_offset pool)) in
        let* _ := set_address a in
        slices_loop fuel b (offset + write_length) end_ block_index slice_offset
      else sret tt
  end.

Definition write_bytes_at (b : list Z) (offset len : Z) : ST cursor unit :=
  let* (upto, pool) := sget in
  let block_index := Z.shiftr upto BYTE_BLOCK_SHIFT in
  let* last := slift (upto_or_error pool) in
  let* _ := slift (debug_assert (block_index <=? last)) in
  let* _ := slift (get_buffer pool block_index) in
  let* (o, slice_offset) := fill_loop (S (Z.to_nat len)) b offset (offset + len) block_index (Z.land upto BYTE_BLOCK_MASK) in
  slices_loop (S (Z.to_nat len)) b o (offset + len) block_index slice_offset.

(** The loop of [write_vint]; five bytes hold 32 bits. *)
Fixpoint vint_loop (fuel : nat) (i : Z) : ST cursor unit :=
  match fuel with
  | O => slift OutOfFuel
  | S fuel =>
      if Z.land i (Z.lnot 0x7F) =? 0 then write_byte (as_u8 i)
      else
        let* _ := write_byte (as_u8 (Z.lor (Z.land i 0x7F) 0x80)) in
        vint_loop fuel (as_i32 (Z.shiftr (as_u32 i) 7))
  end.

(** A code of one byte is written at once when the slice has room. *)
Definition write_vint_at (i : Z) : ST cursor unit :=
  if Z.land i (Z.lnot 0x7F) =? 0 then
    let* (block_index, offset, slot) := locate_slot in
    if slot =? 0 then
      let* _ := on_bytes (update_buffer block_index (fun buf => vset buf offset (as_u8 i))) in
      advance_address 1
    else vint_loop 5 i
  else vint_loop 5 i.

Section PerField.
Context {PA : Type} `{PostingsArray PA}.
Context (seed : Z).

Record t := mk {
  term_stream_address_buffer_index : Z;
  stream_address_offset : Z;
  stream_count : Z;
  bytes_hash : @BytesRefHash.t (starts_t PA);
  last_doc_id : Z }.

Definition new (stream_count counter : Z) (o : IndexOptions) : result t :=
  let? _ := debug_assert (negb (options_rank o =? 0)) in
  let? h := BytesRefHash.from_bytes_start_array HASH_INIT_SIZE counter (PostingsBytesStartArray.new o) in
  Ok (mk 0 0 stream_count h 0).

Definition postings (f : t) : option PA :=
  PostingsBytesStartArray.postings_array (BytesRefHash.bytes_start_array (bytes_hash f)).

Definition postings_or_error (f : t) : result PA :=
  match postings f with Some p => Ok p | None => Err IllegalState end.

Definition with_hash (f : t) (h : @BytesRefHash.t (starts_t PA)) : t :=
  mk (term_stream_address_buffer_index f) (stream_address_offset f) (stream_count f) h (last_doc_id f).
Definition with_postings (f : t) (p : PA) : t :=
  with_hash f (BytesRefHash.with_array (bytes_hash f)
    (PostingsBytesStartArray.with_postings (BytesRefHash.bytes_start_array (bytes_hash f)) p)).
Definition with_stream (f : t) (index offset : Z) : t :=
  mk index offset (stream_count f) (bytes_hash f) (last_doc_id f).

Definition get_num_terms (f : t) : Z := BytesRefHash.size (bytes_hash f).

(** *** Reading *)

Definition init_reader (f : t) (r : ByteSliceReader.t) (term_id stream : Z) (int_pool : IntBlockPool.t) :
    result ByteSliceReader.t :=
  let? _ := debug_assert (stream <? stream_count f) in
  let? p := postings_or_error f in
  let? row := vget (get_rows p) term_id in
  let stream_start_offset := address_offset row in
  let buffer_index := Z.shiftr stream_start_offset INT_BLOCK_SHIFT in
  let offset_in_address_buffer := Z.land stream_start_offset INT_BLOCK_MASK in
  let? addr := IntBlockPool.get_cell int_pool buffer_index (offset_in_address_buffer + stream) in
  let? init_offset := exact_i32 (byte_start row + stream * FIRST_LEVEL_SIZE) in
  ByteSliceReader.init r init_offset addr.

(** *** Writing: the state is both pools *)

Definition pools : Type := IntBlockPool.t * ByteBlockPool.t.

(** Runs [m] with the address of [stream] in its cell of the int pool. *)
Definition on_stream {A} (f : t) (stream : Z) (m : ST cursor A) : ST pools A := fun '(ip, bp) =>
  let index := term_stream_address_buffer_index f in
  let offset := stream_address_offset f + stream in
  match IntBlockPool.get_cell ip index offset with
  | Ok a =>
      let '(r, (a, bp)) := m (a, bp) in
      match IntBlockPool.set_cell ip index offset a with
      | Ok ip => (r, (ip, bp))
      | _ => (Panic, (ip, bp))
      end
  | _ => (Panic, (ip, bp))
  end.

Definition write_bytes (f : t) (stream : Z) (b : list Z) (offset len : Z) : ST pools unit :=
  on_stream f stream (write_bytes_at b offset len).

Definition write_vint (f : t) (stream i : Z) : ST pools unit :=
  let* _ := slift (debug_assert (stream <? stream_count f)) in
  on_stream f stream (write_vint_at i).

(** *** Terms: the state is the field and both pools *)

Record state := mk_state { per_field : t; int_pool : IntBlockPool.t; byte_pool : ByteBlockPool.t }.

Definition on_ints {A} (m : ST IntBlockPool.t A) : ST state A := fun s =>
  let '(r, p) := m (int_pool s) in (r, mk_state (per_field s) p (byte_pool s)).
Definition on_pool {A} (m : ST ByteBlockPool.t A) : ST state A := fun s =>
  let '(r, p) := m (byte_pool s) in (r, mk_state (per_field s) (int_pool s) p).
Definition on_pools {A} (m : ST pools A) : ST state A := fun s =>
  let '(r, (ip, bp)) := m (int_pool s, byte_pool s) in (r, mk_state (per_field s) ip bp).
Definition on_hash {A} (m : ST (@BytesRefHash.t (starts_t PA) * ByteBlockPool.t) A) : ST state A := fun s =>
  let '(r, (h, p)) := m (bytes_hash (per_field s), byte_pool s) in
  (r, mk_state (with_hash (per_field s) h) (int_pool s) p).
Definition set_field (f : t) : ST state unit := fun s => (Ok tt, mk_state f (int_pool s) (byte_pool s)).
(** A change of the postings array, which must be there. *)
Definition on_postings (g : PA -> result PA) : ST state unit :=
  let* s := sget in
  let* p := slift (postings_or_error (per_field s)) in
  let* p := slift (g p) in
  set_field (with_postings (per_field s) p).

(** The first slice of each stream; its address goes to the int pool. The source walks
    the row of cells when it is inside the block and indexes it cell by cell otherwise. *)
Fixpoint new_slices (n : nat) (i byte_offset : Z) : ST state unit :=
  match n with
  | O => sret tt
  | S n =>
      let* upto := on_pool (new_slice FIRST_LEVEL_SIZE) in
      let* s := sget in
      let f := per_field s in
      let* address := slift (exact_i32 (upto + byte_offset)) in
      let* ip := slift (IntBlockPool.set_cell (int_pool s) (term_stream_address_buffer_index f)
                          (stream_address_offset f + i) address) in
      let* _ := sput (mk_state f ip (byte_pool s)) in
      new_slices n (i + 1) byte_offset
  end.

Definition init_stream_slices (term_id : Z) : ST state unit :=
  let* s := sget in
  let count := stream_count (per_field s) in
  let* _ := (if INT_BLOCK_SIZE <? count + IntBlockPool.int_upto (int_pool s) then on_ints IntBlockPool.next_buffer
             else sret tt) in
  let* _ := (if BYTE_BLOCK_SIZE - byte_upto (byte_pool s) <? 2 * count * FIRST_LEVEL_SIZE then
               let* _ := on_pool next_buffer in sret tt
             else sret tt) in
  let* s := sget in
  let ip := int_pool s in
  let byte_offset := byte_offset (byte_pool s) in
  let* index := slift (match IntBlockPool.buffer_upto ip with Some u => Ok u | None => Err IllegalState end) in
  let offset := IntBlockPool.int_upto ip in
  let* _ := sput (mk_state (with_stream (per_field s) index offset)
                    (IntBlockPool.with_int_upto ip (offset + count)) (byte_pool s)) in
  let* address := slift (exact_i32 (offset + IntBlockPool.int_offset ip)) in
  let* _ := on_postings (set_address_offset term_id address) in
  let* _ := new_slices (Z.to_nat count) 0 byte_offset in
  let* s := sget in
  let* first := slift (IntBlockPool.get_cell (int_pool s) index offset) in
  on_postings (set_byte_starts term_id first).

(** Back to the streams of a term met before; the hash answered [-(id + 1)]. *)
Definition position_stream_slice (term_id : Z) : ST state Z :=
  let term_id := - term_id - 1 in
  let* s := sget in
  let* p := slift (postings_or_error (per_field s)) in
  let* row := slift (vget (get_rows p) term_id) in
  let int_start := address_offset row in
  let* _ := set_field (with_stream (per_field s) (Z.shiftr int_start INT_BLOCK_SHIFT) (Z.land int_start INT_BLOCK_MASK)) in
  sret term_id.

Definition assert_doc_id (doc_id : Z) : ST state bool :=
  let* s := sget in
  let f := per_field s in
  let* _ := slift (debug_assert (last_doc_id f <=? doc_id)) in
  let* _ := set_field (mk (term_stream_address_buffer_index f) (stream_address_offset f) (stream_count f)
                         (bytes_hash f) doc_id) in
  sret true.

Definition reset : ST state unit := on_hash (BytesRefHash.clear_with_reset_pool false).
Definition reinit_hash : ST state unit := on_hash BytesRefHash.reinit.
End PerField.
End TermsHashPerField.
