(* ===== verification/TermsHashProofs.v ===== *)
(** The streams of TermsHash.v: what a write through a write address does to the pool,
    the contract of the postings arrays, and the refinement: a field with its two pools
    represents a row of byte strings per term, to which the operations append and from
    which the readers read, however the writes to the streams are interleaved. *)

From Stdlib Require Import ZArith Lia Bool.
From stdpp Require Import base tactics numbers list.
From S2P Require Import Prelude ArrayUtil BitUtil DataOutput DataInput StringHelper ByteBlockPool.
From S2P Require Import BytesRefHash BytesRefHashProofs BytesRefDictionary ByteSlices ByteSliceProofs TermsHash.
Import BitUtil ByteBlockPool PoolFacts ByteSlicePool Flat PoolMemory Room Chain Stream TermsHashPerField.

Local Open Scope Z_scope.

(** * Writing at an address *)

Module Cursor.

(** A byte costs at most 400 bytes of the pool: a slice and what is lost at the end of
    a block; no write fails while the pool stays below [LIMIT]. *)
Definition LIMIT : Z := 2 ^ 31 - 256.
Definition cost (bs : list Z) : Z := 400 * Z.of_nat (length bs).

Record wrote (p p' : ByteBlockPool.t) (st st' : list Z) (a' : Z) (d' : list Z) : Prop := {
  wr_stream : exists k, stream p' st' a' d' k;
  wr_grows : grows (owned 0 st) p p';
  wr_head : head st' = head st;
  wr_new a : owned 0 st' a -> owned 0 st a \/ position p <= a }.

Lemma wrote_trans p p1 p2 st st1 st2 a1 a2 d1 d2 :
  wrote p p1 st st1 a1 d1 -> wrote p1 p2 st1 st2 a2 d2 -> wrote p p2 st st2 a2 d2.
Proof.
  intros [S1 G1 H1 N1] [S2 G2 H2 N2]. pose proof (grows_pos _ _ _ G1). constructor; [done| |by rewrite H2|].
  - apply (grows_trans _ _ _ _ _ G1 G2). intros a Ha Ho. destruct (N1 a Ho); [done|lia].
  - intros a Ha. destruct (N2 a Ha) as [Ho|Ho]; [by apply N1|right; lia].
Qed.

(** [m] appends [bs] to the stream its address belongs to. *)
Definition writes (m : ST cursor unit) (bs : list Z) : Prop := forall p st a d k,
  Clean p -> stream p st a d k ->
  (exists c, m (a, p) = (Err NumberOverflow, c) /\ LIMIT < position p + cost bs) \/
  (exists a' p' st', m (a, p) = (Ok tt, (a', p')) /\ wrote p p' st st' a' (d ++ bs) /\ position p' <= position p + cost bs).

Lemma writes_seq m k bs1 bs2 : writes m bs1 -> writes (k tt) bs2 -> writes (sbind m k) (bs1 ++ bs2).
Proof.
  intros H1 H2 p st a d kk Hc Hs. unfold cost in *. rewrite length_app.
  destruct (H1 p st a d kk Hc Hs) as [(c & Hm & Hl)|(a1 & p1 & st1 & Hm & Hw & Hp)]; unfold cost in *.
  { left. exists c. split; [unfold sbind; by rewrite Hm|lia]. }
  pose proof Hw as [(k1 & S1) G1 _ _].
  destruct (H2 p1 st1 a1 _ k1 (grows_clean _ _ _ G1) S1) as [(c & Hm2 & Hl)|(a2 & p2 & st2 & Hm2 & Hw2 & Hp2)]; unfold cost in *.
  - left. exists c. rewrite (sbind_ok _ _ _ _ _ Hm). split; [done|lia].
  - right. exists a2, p2, st2. rewrite (sbind_ok _ _ _ _ _ Hm), app_assoc. split_and!; [done|by eapply wrote_trans|lia].
Qed.

Section At.
Context (p : ByteBlockPool.t) (Hc : Clean p) (st : list Z) (a : Z) (d : list Z) (k : nat) (Hs : stream p st a d k).

(** The address and the block it names are in range. *)
Lemma address_ok : 0 <= a < position p /\ position p <= 2 ^ 31 /\
  Z.shiftr a BYTE_BLOCK_SHIFT = a / BYTE_BLOCK_SIZE /\ Z.land a BYTE_BLOCK_MASK = a mod BYTE_BLOCK_SIZE /\
  exists u, upto_or_error p = Ok u /\ a / BYTE_BLOCK_SIZE <= u.
Proof using Hc Hs.
  pose proof Hs as (Hch & Ho & pre & s & l & dpre & d' & [F1 F2 F3 F4 F5 F6 F7 F8 F9 F10]).
  destruct (level_facts l F3) as (_ & _ & _ & Hsz & _). pose proof (proj1 F4).
  assert (Hp : a < position p) by (apply Ho, F9; lia).
  destruct (wf_max p (clean_wf _ Hc)) as (Hm1 & Hm2 & Hm3). pose proof block_size_val as HB.
  split_and!; try lia.
  - unfold BYTE_BLOCK_SHIFT. rewrite Z.shiftr_div_pow2 by lia. done.
  - change BYTE_BLOCK_MASK with (Z.ones 15). by rewrite Z.land_ones by lia.
  - pose proof (wf_shape p (clean_wf _ Hc)) as Hsh. unfold upto_or_error, position in *.
    destruct (buffer_upto p) as [u|]; [|lia]. exists u. split; [done|].
    assert (a / BYTE_BLOCK_SIZE < u + 1); [apply Z.div_lt_upper_bound; nia|lia].
Qed.

Lemma locate_slot_ok : exists c, locate_slot (a, p) = (Ok (a / BYTE_BLOCK_SIZE, a mod BYTE_BLOCK_SIZE, c), (a, p)) /\
  (c =? 0) = (0 <? Z.of_nat k).
Proof using Hc Hs.
  destruct address_ok as (_ & _ & E1 & E2 & u & Eu & Hu). destruct (slot_ok p Hc st a d k Hs) as (b & c & Hb & Hbc & Hk & _).
  exists c. unfold locate_slot. rewrite sget_sbind. cbn beta iota. rewrite slift_sbind, Eu, slift_sbind, E1, E2, (proj2 (Z.leb_le _ _) Hu).
  cbn [debug_assert]. rewrite slift_sbind. unfold get_buffer. rewrite Hb. cbn [rbind]. by rewrite Hbc.
Qed.

(** Bytes that fit the free part of the slice, written by any update of the block. *)
Lemma put_at x f : (0 < length x <= k)%nat -> Forall (in_u 8) x ->
  (forall b, full_block b -> f b = vcopy b (a mod BYTE_BLOCK_SIZE) x) ->
  exists p', update_buffer (a / BYTE_BLOCK_SIZE) f p = (Ok tt, p') /\
    stream p' st (a + Z.of_nat (length x)) (d ++ x) (k - length x) /\
    wrote p p' st st (a + Z.of_nat (length x)) (d ++ x) /\ position p' = position p /\
    byte_offset p' = byte_offset p /\ buffer_upto p' = buffer_upto p /\
    exact_i32 (a + Z.of_nat (length x)) = Ok (a + Z.of_nat (length x)).
Proof using Hc Hs.
  intros Hx Hx8 Hf. destruct (slot_put_ok p Hc st a d k Hs x f Hx Hx8 Hf) as (p' & Hu & Hs' & Hg & Hp & Ho & Hb).
  exists p'. split_and!; try done.
  - constructor; [by eexists|done|done|by left].
  - apply TermPool.exact_i32_ok. destruct Hs' as (Hch & Hown & pre & s & l & dpre & d' & [F1 F2 F3 F4 F5 F6 F7 F8 F9 F10]).
    destruct address_ok as (? & ? & _). destruct (level_facts l F3) as (_ & _ & _ & Hsz & _).
    assert (a + Z.of_nat (length x) < position p') by (apply Hown, F9; lia). unfold in_s. lia.
Qed.

Lemma advance_at n p' : exact_i32 (a + n) = Ok (a + n) -> advance_address n (a, p') = (Ok tt, (a + n, p')).
Proof. intros E. unfold advance_address. rewrite sget_sbind. cbn beta iota. by rewrite slift_sbind, E. Qed.
End At.

Lemma on_bytes_ok {A} (m : ST ByteBlockPool.t A) a p r p' : m p = (r, p') -> on_bytes m (a, p) = (r, (a, p')).
Proof. intros H. unfold on_bytes. by rewrite H. Qed.

(** The parts of an allocation's answer. *)
Lemma split_answer o n : 0 <= n < 256 -> Z.shiftr (Z.lor (Z.shiftl o 8) n) 8 = o /\ Z.land (Z.lor (Z.shiftl o 8) n) 0xff = n.
Proof.
  intros Hn. assert (in_u 8 n) as Hu by (unfold in_u; lia). change 0xff with (Z.ones 8). split.
  - same_bits i. rewrite (in_u_testbit 8 n) by (auto; lia). rewrite orb_false_r. f_equal. lia.
  - same_bits i. destruct (decide (i < 8)).
    + rewrite Z.ones_spec_low, andb_true_r by lia. by rewrite (Z.testbit_neg_r _ (i - 8)) by lia.
    + rewrite Z.ones_spec_high, andb_false_r by lia. symmetry. apply (in_u_testbit 8); [done|lia].
Qed.

(** A full slice: the allocation either runs into the end of the pool or leaves the
    address three bytes into a fresh slice with room. *)
Lemma alloc_at p st a d : Clean p -> stream p st a d 0 ->
  (exists p', alloc_known_size_slice (a / BYTE_BLOCK_SIZE) (a mod BYTE_BLOCK_SIZE) p = (Err NumberOverflow, p') /\ LIMIT < position p) \/
  exists p1 s' n, alloc_known_size_slice (a / BYTE_BLOCK_SIZE) (a mod BYTE_BLOCK_SIZE) p
      = (Ok (Z.lor (Z.shiftl ((s' + 3) mod BYTE_BLOCK_SIZE) 8) (n - 3)), p1) /\ 14 <= n <= 200 /\
    stream p1 (st ++ [s']) (s' + 3) d (Z.to_nat (n - 4)) /\ wrote p p1 st (st ++ [s']) (s' + 3) d /\
    position p1 <= position p + 400 /\ upto_or_error p1 = Ok ((s' + 3) / BYTE_BLOCK_SIZE) /\
    (s' + 3) mod BYTE_BLOCK_SIZE + byte_offset p1 = s' + 3 /\ Clean p1.
Proof.
  intros Hc Hs. destruct (extend_ok p Hc st a d 0 Hs eq_refl) as [(n & Hn & [Hf1 Hf2] & p' & He)|(p1 & s' & n & He & Hn & Hs1 & Hg & Ht & Ho)].
  - left. exists p'. split; [done|]. unfold LIMIT, position, i32_MAX in *. lia.
  - right. destruct Ht as [T1 T2 T3 T4 T5 T6 T7 T8]. destruct (fits_mod s' n 3 T3) as [Em Ed]; [lia|].
    exists p1, s', n. rewrite Em, Ed. pose proof block_size_val as HB.
    pose proof (Z.div_mod s' BYTE_BLOCK_SIZE ltac:(lia)).
    split_and!; try done; try lia.
    + constructor; [by eexists|done| |].
      * destruct Hs as (Hch & _). destruct (chain_head _ _ _ _ _ Hch) as (? & ? & -> & _). done.
      * intros x [?|?]%Ho; [by left|right; lia].
    + unfold upto_or_error. by rewrite T4.
    + apply (grows_clean _ _ _ Hg).
Qed.

Lemma write_byte_writes b : in_u 8 b -> writes (write_byte b) [b].
Proof.
  intros Hb p st a d k Hc Hs. assert (Hb8 : Forall (in_u 8) [b]) by by constructor.
  destruct (locate_slot_ok p Hc st a d k Hs) as (c & Hl & Hk). unfold write_byte, cost.
  rewrite (sbind_ok _ _ _ _ _ Hl). cbn beta iota. rewrite Hk. destruct (Z.ltb_spec 0 (Z.of_nat k)) as [Hpos|Hz].
  - right. destruct (put_at p Hc st a d k Hs [b] (fun buf => vset buf (a mod BYTE_BLOCK_SIZE) b)) as (p' & Hu & _ & Hw & Hp & _ & _ & He);
      [cbn; lia|done|intros; apply vset_vcopy|].
    rewrite (sbind_ok _ _ _ _ _ (on_bytes_ok _ _ _ _ _ Hu)), (advance_at _ _ _ He).
    exists (a + 1), p', st. split_and!; [done..|lia].
  - assert (k = 0%nat) as -> by lia.
    destruct (alloc_at p st a d Hc Hs) as [(p' & He & Hl')|(p1 & s' & n & He & Hn & Hs1 & Hw1 & Hp1 & Hu1 & Ho1 & Hc1)].
    + left. exists (a, p'). split; [|cbn; lia].
      unfold alloc_slice, sbind at 1 2, on_bytes, sbind. by rewrite He.
    + right. destruct (split_answer ((s' + 3) mod BYTE_BLOCK_SIZE) (n - 3)) as [Esh _]; [lia|].
      assert (Ha : alloc_slice (a / BYTE_BLOCK_SIZE) (a mod BYTE_BLOCK_SIZE) p = (Ok ((s' + 3) mod BYTE_BLOCK_SIZE), p1)).
      { unfold alloc_slice. rewrite (sbind_ok _ _ _ _ _ He), Esh. done. }
      destruct (put_at p1 Hc1 _ _ d _ Hs1 [b] (fun buf => vset buf ((s' + 3) mod BYTE_BLOCK_SIZE) b))
        as (p2 & Hu2 & _ & Hw2 & Hp2 & _ & _ & He2); [cbn [length]; lia|done|intros; apply vset_vcopy|].
      destruct (address_ok p1 Hc1 _ _ _ _ Hs1) as (? & ? & _).
      exists (s' + 3 + 1), p2, (st ++ [s']). split_and!; [|by eapply wrote_trans|cbn [length]; lia].
      unfold sbind at 1. unfold sbind at 1. rewrite (on_bytes_ok _ _ _ _ _ Ha). rewrite sget_sbind. cbn beta iota.
      rewrite slift_sbind, Ho1, TermPool.exact_i32_ok by (unfold in_s; lia).
      rewrite (sbind_ok (set_address _) _ (a, p1) tt (s' + 3, p1) eq_refl), slift_sbind, Hu1.
      rewrite (on_bytes_ok _ _ _ _ _ Hu2). by apply advance_at.
Qed.

(** ** Variable-length integers *)

Lemma small_code i : in_s 32 i -> (Z.land i (Z.lnot 0x7F) =? 0) = (as_u32 i <? 128).
Proof.
  unfold in_s. intros Hi. change 0x7F with (Z.ones 7). rewrite <- Z.ldiff_land, Z.ldiff_ones_r by lia.
  rewrite Z.shiftl_mul_pow2, Z.shiftr_div_pow2 by lia. change (2 ^ 7) with 128.
  assert (Hu : as_u32 i = if i <? 0 then i + 2 ^ 32 else i).
  { unfold wrap_u. destruct (Z.ltb_spec i 0); symmetry; [apply Z.mod_unique with (-1)|apply Z.mod_unique with 0]; lia. }
  rewrite Hu. apply eq_iff_eq_true. rewrite Z.eqb_eq, Z.ltb_lt. pose proof (Z.div_mod i 128 ltac:(lia)).
  pose proof (Z.mod_pos_bound i 128 ltac:(lia)). destruct (Z.ltb_spec i 0); lia.
Qed.

Lemma code_bytes i : as_u8 i = as_u8 (as_u32 i) /\ Z.land i 0x7F = Z.land (as_u32 i) 0x7F.
Proof.
  change 0x7F with (Z.ones 7). split; same_bits j.
  - destruct (Z.ltb_spec j 8); [|done]. by rewrite (proj2 (Z.ltb_lt j 32)) by lia.
  - destruct (decide (j < 7)).
    + by rewrite (proj2 (Z.ltb_lt j 32)) by lia.
    + by rewrite Z.ones_spec_high, !andb_false_r by lia.
Qed.

Lemma vint_loop_writes fuel : forall i, in_s 32 i -> as_u32 i < 2 ^ (7 * Z.of_nat fuel) -> (0 < fuel)%nat \/ 0 < as_u32 i ->
  writes (vint_loop fuel i) (vcode fuel (as_u32 i)).
Proof.
  induction fuel as [|fuel IH]; intros i Hi Hb Hp; [change (2 ^ (7 * Z.of_nat 0)) with 1 in Hb; lia|].
  pose proof (wrap_u_in 32 i ltac:(lia)) as Hu. pose proof Hu as Hu'. unfold in_u in Hu'.
  cbn [vint_loop vcode]. rewrite small_code by done. destruct (code_bytes i) as [E1 E2]. rewrite E1, E2.
  destruct (Z.ltb_spec (as_u32 i) 128) as [Hs|Hs].
  - rewrite (wrap_u_id 8) by (unfold in_u; lia). apply write_byte_writes. unfold in_u. lia.
  - rewrite (wrap_u_id 8) by apply low7_in_u8. apply (writes_seq _ _ [_]); [apply write_byte_writes, low7_in_u8|].
    set (u := as_u32 i) in *. assert (Hsh : 0 < Z.shiftr u 7 < 2 ^ 31).
    { rewrite Z.shiftr_div_pow2 by lia. split; [apply Z.div_str_pos; lia|apply Z.div_lt_upper_bound; lia]. }
    assert (E : as_u32 (as_i32 (Z.shiftr u 7)) = Z.shiftr u 7).
    { rewrite (wrap_s_id 32) by (unfold in_s; lia). apply wrap_u_id. unfold in_u. lia. }
    rewrite <- E at 2. apply IH; rewrite ?E; [apply wrap_s_in; lia| |right; lia]. apply shiftr_7_lt; lia || done.
Qed.

Lemma locate_slot_pure c : snd (locate_slot c) = c.
Proof. destruct c as [a p]. unfold locate_slot, sbind, sget, slift, sret. repeat case_match; by simplify_eq. Qed.

(** The shortcut does what the loop would do. *)
Lemma write_vint_shortcut i c : write_vint_at i c = vint_loop 5 i c.
Proof.
  unfold write_vint_at. cbn [vint_loop]. destruct (_ =? 0); [|done]. unfold write_byte.
  destruct (locate_slot c) as [r c'] eqn:E.
  pose proof (locate_slot_pure c) as Hp. rewrite E in Hp. cbn in Hp. subst c'.
  destruct r as [[[bi o] slot]| | |]; [|unfold sbind; by rewrite E..].
  rewrite !(sbind_ok _ _ _ _ _ E). destruct (slot =? 0) eqn:Hs; [done|]. by rewrite (sbind_ok _ _ _ _ _ E), Hs.
Qed.

Lemma write_vint_writes i : in_s 32 i -> writes (write_vint_at i) (vint_code i).
Proof.
  intros Hi p st a d k Hc Hs. rewrite write_vint_shortcut. revert p st a d k Hc Hs.
  apply vint_loop_writes; [done| |left; lia]. pose proof (wrap_u_in 32 i ltac:(lia)) as Hu. unfold in_u in Hu.
  change (7 * Z.of_nat 5) with 35. lia.
Qed.

(** ** Byte strings *)

(** The free bytes of a slice lie in its block. *)
Lemma next_address p st a d k j : Clean p -> stream p st a d k -> 0 <= j <= Z.of_nat k ->
  (a + j) / BYTE_BLOCK_SIZE = a / BYTE_BLOCK_SIZE /\ (a + j) mod BYTE_BLOCK_SIZE = a mod BYTE_BLOCK_SIZE + j.
Proof.
  intros Hc (_ & _ & pre & s & l & dpre & d' & [F1 F2 F3 F4 F5 F6 F7 F8 F9 F10]) Hj.
  destruct (fits_mod s (lsize l) (Z.of_nat (length d')) F4) as [E1 E2]; [lia|].
  destruct (fits_mod s (lsize l) (Z.of_nat (length d') + j) F4) as [E3 E4]; [lia|].
  rewrite F7, <- Z.add_assoc, E1, E2, E3, E4. split; [done|lia].
Qed.

Definition part (b : list Z) (o e : Z) : list Z := take (Z.to_nat (e - o)) (drop (Z.to_nat o) b).

Lemma part_length b o e : 0 <= o <= e -> e <= Z.of_nat (length b) -> Z.of_nat (length (part b o e)) = e - o.
Proof. intros. unfold part. rewrite length_take, length_drop. lia. Qed.

Lemma part_app b o m e : 0 <= o <= m -> m <= e -> part b o e = part b o m ++ part b m e.
Proof.
  intros. unfold part. replace (Z.to_nat (e - o)) with (Z.to_nat (m - o) + Z.to_nat (e - m))%nat by lia.
  rewrite <- take_take_drop, drop_drop. do 3 f_equal. lia.
Qed.

Lemma part_one b o x : 0 <= o -> vget b o = Ok x -> part b o (o + 1) = [x].
Proof.
  intros Ho Hx. apply vget_ok in Hx; [|done]. unfold part. rewrite (drop_S _ _ _ Hx).
  by replace (Z.to_nat (o + 1 - o)) with 1%nat by lia.
Qed.

Lemma part_bytes b o e : Forall (in_u 8) b -> Forall (in_u 8) (part b o e).
Proof. intros. by apply Forall_take, Forall_drop. Qed.

Section Bytes.
Context (b : list Z) (Hb8 : Forall (in_u 8) b) (e : Z) (He : e <= Z.of_nat (length b)).

Lemma fill_loop_ok fuel : forall p st a d k o, Clean p -> stream p st a d k -> 0 <= o <= e -> e - o < Z.of_nat fuel ->
  let n := Z.min (Z.of_nat k) (e - o) in
  exists p', fill_loop fuel b o e (a / BYTE_BLOCK_SIZE) (a mod BYTE_BLOCK_SIZE) (a, p)
      = (Ok (o + n, a mod BYTE_BLOCK_SIZE + n), (a + n, p')) /\
    stream p' st (a + n) (d ++ part b o (o + n)) (k - Z.to_nat n) /\
    wrote p p' st st (a + n) (d ++ part b o (o + n)) /\ position p' = position p.
Proof using Hb8 He.
  induction fuel as [|fuel IH]; intros p st a d k o Hc Hs Ho Hf; [lia|]. cbv zeta.
  assert (Hstop : forall n, n = 0 -> exists p', (Ok (o, a mod BYTE_BLOCK_SIZE), (a, p)) = (Ok (o + n, a mod BYTE_BLOCK_SIZE + n), (a + n, p')) /\
    stream p' st (a + n) (d ++ part b o (o + n)) (k - Z.to_nat n) /\
    wrote p p' st st (a + n) (d ++ part b o (o + n)) /\ position p' = position p).
  { intros n ->. exists p. unfold part. rewrite !Z.add_0_r, Z.sub_diag, take_0, app_nil_r, Nat.sub_0_r. split_and!; try done.
    constructor; [by eexists|by apply grows_refl|done|by left]. }
  cbn [fill_loop]. destruct (Z.ltb_spec o e) as [Hlt|]; [|apply Hstop; lia].
  destruct (slot_ok p Hc st a d k Hs) as (blk & c & Hblk & Hbc & Hk & _).
  rewrite sget_sbind. cbn beta iota. rewrite slift_sbind. unfold get_buffer. rewrite Hblk. cbn [rbind]. rewrite Hbc, Hk.
  destruct (Z.ltb_spec 0 (Z.of_nat k)) as [Hkp|]; [|apply Hstop; lia].
  destruct (vget_in b o ltac:(lia)) as (x & Hxl & Hx). rewrite slift_sbind, Hx.
  assert (Hx8 : Forall (in_u 8) [x]) by (constructor; [by eapply Forall_lookup_1|done]).
  destruct (put_at p Hc st a d k Hs [x] (fun s => vset s (a mod BYTE_BLOCK_SIZE) x)) as (p1 & Hu & Hs1 & Hw1 & Hp1 & _ & _ & He1);
    [cbn; lia|done|intros; apply vset_vcopy|].
  rewrite (sbind_ok _ _ _ _ _ (on_bytes_ok _ _ _ _ _ Hu)). change (Z.of_nat (length [x])) with 1 in *.
  rewrite (sbind_ok _ _ _ _ _ (advance_at a _ p1 He1)).
  destruct (next_address p st a d k 1 Hc Hs ltac:(lia)) as [E1 E2].
  destruct (IH p1 st (a + 1) (d ++ [x]) (k - 1)%nat (o + 1) (grows_clean _ _ _ (wr_grows _ _ _ _ _ _ Hw1)) Hs1) as (p' & Hl & Hs' & Hw & Hp);
    [lia|lia|]. rewrite E1, E2 in Hl.
  set (n := Z.min (Z.of_nat (k - 1)) (e - (o + 1))) in *.
  replace (Z.min (Z.of_nat k) (e - o)) with (1 + n) by lia. exists p'.
  assert (Ed : (d ++ [x]) ++ part b (o + 1) (o + 1 + n) = d ++ part b o (o + (1 + n))).
  { rewrite <- app_assoc, <- (part_one b o x), <- part_app by (done || lia). do 2 f_equal. lia. }
  rewrite Ed in Hs', Hw. replace (a + (1 + n)) with (a + 1 + n) by lia.
  split_and!; [|by replace (k - Z.to_nat (1 + n))%nat with (k - 1 - Z.to_nat n)%nat by lia|by eapply wrote_trans|lia].
  rewrite Hl. do 3 f_equal; lia.
Qed.

Lemma slices_loop_writes fuel : forall p st a d k o, Clean p -> stream p st a d k -> 0 <= o <= e -> e - o < Z.of_nat fuel ->
  (o < e -> k = 0%nat) ->
  (exists c, slices_loop fuel b o e (a / BYTE_BLOCK_SIZE) (a mod BYTE_BLOCK_SIZE) (a, p) = (Err NumberOverflow, c) /\
     LIMIT < position p + cost (part b o e)) \/
  exists a' p' st', slices_loop fuel b o e (a / BYTE_BLOCK_SIZE) (a mod BYTE_BLOCK_SIZE) (a, p) = (Ok tt, (a', p')) /\
    wrote p p' st st' a' (d ++ part b o e) /\ position p' <= position p + cost (part b o e).
Proof using Hb8 He.
  induction fuel as [|fuel IH]; intros p st a d k o Hc Hs Ho Hf Hk; [lia|]. unfold cost. rewrite part_length by lia.
  cbn [slices_loop]. destruct (Z.ltb_spec o e) as [Hlt|].
  2: { right. exists a, p, st. replace e with o by lia. unfold part. rewrite Z.sub_diag, take_0, app_nil_r.
       split_and!; [done| |lia]. constructor; [by eexists|by apply grows_refl|done|by left]. }
  rewrite (Hk Hlt) in Hs.
  destruct (alloc_at p st a d Hc Hs) as [(p' & Ha & Hl)|(p1 & s' & n & Ha & Hn & Hs1 & Hw1 & Hp1 & Hu1 & Ho1 & Hc1)].
  { left. exists (a, p'). split; [|lia]. unfold sbind at 1. by rewrite (on_bytes_ok _ _ _ _ _ Ha). }
  destruct (split_answer ((s' + 3) mod BYTE_BLOCK_SIZE) (n - 3)) as [Esh Eln]; [lia|].
  rewrite (sbind_ok _ _ _ _ _ (on_bytes_ok _ _ _ _ _ Ha)), Esh, Eln, sget_sbind. cbn beta iota.
  rewrite slift_sbind, Hu1, slift_sbind. unfold ByteSliceReader.usub. rewrite (proj2 (Z.leb_le _ _)) by lia.
  set (w := Z.min (n - 3 - 1) (e - o)). rewrite slift_sbind, vslice_ok by lia.
  replace (take (Z.to_nat (o + w - o)) (drop (Z.to_nat o) b)) with (part b o (o + w)) by done.
  pose proof (part_length b o (o + w) ltac:(lia) ltac:(lia)) as Hpl.
  destruct (put_at p1 Hc1 _ _ d _ Hs1 (part b o (o + w)) (fun s => vcopy s ((s' + 3) mod BYTE_BLOCK_SIZE) (part b o (o + w))))
    as (p2 & Hu2 & Hs2 & Hw2 & Hp2 & _ & _ & He2); [lia|by apply part_bytes|done|].
  rewrite (sbind_ok _ _ _ _ _ (on_bytes_ok _ _ _ _ _ Hu2)), slift_sbind.
  assert (Hpn : length (part b o (o + w)) = Z.to_nat w) by lia.
  replace (Z.of_nat (length (part b o (o + w)))) with w in * by lia.
  replace ((s' + 3) mod BYTE_BLOCK_SIZE + w + byte_offset p1) with (s' + 3 + w) by lia. rewrite He2.
  rewrite (sbind_ok (set_address _) _ (a, p2) tt (s' + 3 + w, p2) eq_refl).
  destruct (next_address p1 _ _ d _ w Hc1 Hs1 ltac:(lia)) as [E1 E2]. rewrite <- E1, <- E2.
  pose proof (wrote_trans _ _ _ _ _ _ _ _ _ _ Hw1 Hw2) as Hw12.
  destruct (IH p2 (st ++ [s']) (s' + 3 + w) (d ++ part b o (o + w)) _ (o + w) (grows_clean _ _ _ (wr_grows _ _ _ _ _ _ Hw2)) Hs2)
    as [(c & Hl & HL)|(a' & p' & st' & Hl & Hw & Hp)]; [lia|lia|intros; lia| |];
    unfold cost in *; rewrite part_length in * by lia.
  - left. exists c. split; [done|lia].
  - right. exists a', p', st'. rewrite <- app_assoc, <- part_app in Hw by lia.
    split_and!; [done|by eapply wrote_trans|lia].
Qed.
End Bytes.

Lemma write_bytes_writes b o n : Forall (in_u 8) b -> 0 <= o -> 0 <= n -> o + n <= Z.of_nat (length b) ->
  writes (write_bytes_at b o n) (part b o (o + n)).
Proof.
  intros Hb8 Ho Hn Hl p st a d k Hc Hs. unfold write_bytes_at, cost. rewrite part_length by lia.
  destruct (address_ok p Hc st a d k Hs) as (_ & _ & E1 & E2 & u & Eu & Hu).
  destruct (slot_ok p Hc st a d k Hs) as (blk & c & Hblk & _ & _ & _).
  rewrite sget_sbind. cbn beta iota. rewrite slift_sbind, Eu, slift_sbind, E1, E2, (proj2 (Z.leb_le _ _) Hu).
  cbn [debug_assert]. rewrite slift_sbind. unfold get_buffer. rewrite Hblk.
  destruct (fill_loop_ok b Hb8 (o + n) Hl (S (Z.to_nat n)) p st a d k o Hc Hs) as (p1 & Hf & Hs1 & Hw1 & Hp1); [lia|lia|].
  rewrite (sbind_ok _ _ _ _ _ Hf). cbn beta iota. set (m := Z.min (Z.of_nat k) (o + n - o)) in *.
  destruct (next_address p st a d k m Hc Hs ltac:(lia)) as [E3 E4]. rewrite <- E3, <- E4.
  destruct (slices_loop_writes b Hb8 (o + n) Hl (S (Z.to_nat n)) p1 st (a + m) _ _ (o + m) (grows_clean _ _ _ (wr_grows _ _ _ _ _ _ Hw1)) Hs1)
    as [(c' & Hl' & HL)|(a' & p' & st' & Hl' & Hw & Hp)]; [lia|lia|lia| |]; unfold cost in *; rewrite part_length in * by lia.
  - left. exists c'. split; [done|lia].
  - right. exists a', p', st'. rewrite <- app_assoc, <- part_app in Hw by lia. split_and!; [done|by eapply wrote_trans|lia].
Qed.
End Cursor.

(** * The int pool *)

Module Ints.
Import IntBlockPool.

Lemma int_size_val : INT_BLOCK_SIZE = 8192.
Proof. done. Qed.

Definition full_ints (b : list Z) : Prop := Z.of_nat (length b) = INT_BLOCK_SIZE.

Record IWF (p : t) : Prop := mkIWF {
  iwf_blocks : Forall full_ints (buffers p);
  iwf_alloc : AllocatorInt.get_block_size (allocator p) = INT_BLOCK_SIZE;
  iwf_shape :
    match buffer_upto p with
    | None => buffers p = [] /\ int_upto p = INT_BLOCK_SIZE /\ int_offset p = - INT_BLOCK_SIZE
    | Some u => 0 <= u <= 262143 /\ Z.of_nat (length (buffers p)) = u + 1 /\
        int_offset p = u * INT_BLOCK_SIZE /\ 0 <= int_upto p <= INT_BLOCK_SIZE
    end }.

Definition ipos (p : t) : Z := int_offset p + int_upto p.
Definition cell (p : t) (a : Z) : option Z :=
  buffers p !! Z.to_nat (a / INT_BLOCK_SIZE) ≫= fun b => b !! Z.to_nat (a mod INT_BLOCK_SIZE).

Lemma iwf_new a : AllocatorInt.get_block_size a = INT_BLOCK_SIZE -> IWF (with_allocator a).
Proof. by constructor. Qed.

Lemma ipos_bound p : IWF p -> 0 <= ipos p <= INT_BLOCK_SIZE * Z.of_nat (length (buffers p)) /\ ipos p <= 2 ^ 31.
Proof.
  intros [_ _ Hs]. unfold ipos. pose proof int_size_val. destruct (buffer_upto p); [nia|].
  destruct Hs as (-> & ? & ?). cbn [length Z.of_nat]. lia.
Qed.

(** Row addresses are split by shift and mask. *)
Lemma address_split a i : 0 <= a -> 0 <= i -> a mod INT_BLOCK_SIZE + i < INT_BLOCK_SIZE ->
  Z.shiftr a INT_BLOCK_SHIFT = (a + i) / INT_BLOCK_SIZE /\ Z.land a INT_BLOCK_MASK + i = (a + i) mod INT_BLOCK_SIZE /\
  (a + i) / INT_BLOCK_SIZE = a / INT_BLOCK_SIZE /\ (a + i) mod INT_BLOCK_SIZE = a mod INT_BLOCK_SIZE + i.
Proof.
  intros Ha Hi Hf. pose proof int_size_val as HB. pose proof (Z.div_mod a INT_BLOCK_SIZE ltac:(lia)).
  pose proof (Z.mod_pos_bound a INT_BLOCK_SIZE ltac:(lia)).
  assert ((a + i) / INT_BLOCK_SIZE = a / INT_BLOCK_SIZE) as E1
    by (symmetry; apply Z.div_unique with (a mod INT_BLOCK_SIZE + i); lia).
  assert ((a + i) mod INT_BLOCK_SIZE = a mod INT_BLOCK_SIZE + i) as E2
    by (symmetry; apply Z.mod_unique with (a / INT_BLOCK_SIZE); lia).
  rewrite E1, E2. split_and!; try done.
  - unfold INT_BLOCK_SHIFT. by rewrite Z.shiftr_div_pow2 by lia.
  - change INT_BLOCK_MASK with (Z.ones 13). by rewrite Z.land_ones by lia.
Qed.

Lemma get_cell_ok p a v : 0 <= a -> cell p a = Some v ->
  get_cell p (a / INT_BLOCK_SIZE) (a mod INT_BLOCK_SIZE) = Ok v.
Proof.
  intros Ha Hc. unfold cell in Hc. apply bind_Some in Hc as (b & Hb & Hv). unfold get_cell, get_buffer.
  pose proof int_size_val. pose proof (Z.div_pos a INT_BLOCK_SIZE ltac:(lia) ltac:(lia)).
  pose proof (Z.mod_pos_bound a INT_BLOCK_SIZE ltac:(lia)).
  rewrite (proj2 (vget_ok (buffers p) (a / INT_BLOCK_SIZE) b ltac:(lia)) Hb). cbn [rbind]. apply vget_ok; [lia|done].
Qed.

Lemma cell_some p a : IWF p -> 0 <= a < INT_BLOCK_SIZE * Z.of_nat (length (buffers p)) -> exists v, cell p a = Some v.
Proof.
  intros H Ha. pose proof int_size_val as HB. pose proof (Z.div_pos a INT_BLOCK_SIZE ltac:(lia) ltac:(lia)).
  pose proof (Z.mod_pos_bound a INT_BLOCK_SIZE ltac:(lia)).
  assert (a / INT_BLOCK_SIZE < Z.of_nat (length (buffers p))) by (apply Z.div_lt_upper_bound; lia).
  destruct (lookup_lt_is_Some_2 (buffers p) (Z.to_nat (a / INT_BLOCK_SIZE))) as [b Hb]; [lia|].
  pose proof (Forall_lookup_1 _ _ _ _ (iwf_blocks p H) Hb) as Hl. unfold full_ints in Hl.
  destruct (lookup_lt_is_Some_2 b (Z.to_nat (a mod INT_BLOCK_SIZE))) as [v Hv]; [lia|]. exists v. unfold cell. by rewrite Hb.
Qed.

Lemma set_cell_ok p a v : IWF p -> 0 <= a < INT_BLOCK_SIZE * Z.of_nat (length (buffers p)) ->
  exists p', set_cell p (a / INT_BLOCK_SIZE) (a mod INT_BLOCK_SIZE) v = Ok p' /\ IWF p' /\ ipos p' = ipos p /\
    int_upto p' = int_upto p /\ int_offset p' = int_offset p /\ buffer_upto p' = buffer_upto p /\
    length (buffers p') = length (buffers p) /\
    cell p' a = Some v /\ forall x, 0 <= x -> x <> a -> cell p' x = cell p x.
Proof.
  intros H Ha. pose proof int_size_val as HB. pose proof (Z.div_pos a INT_BLOCK_SIZE ltac:(lia) ltac:(lia)).
  pose proof (Z.mod_pos_bound a INT_BLOCK_SIZE ltac:(lia)). pose proof (Z.div_mod a INT_BLOCK_SIZE ltac:(lia)).
  assert (a / INT_BLOCK_SIZE < Z.of_nat (length (buffers p))) by (apply Z.div_lt_upper_bound; lia).
  destruct (vget_in (buffers p) (a / INT_BLOCK_SIZE) ltac:(lia)) as (b & Hb & Hg).
  pose proof (Forall_lookup_1 _ _ _ _ (iwf_blocks p H) Hb) as Hl. unfold full_ints in Hl.
  unfold set_cell, get_buffer. rewrite Hg. cbn [rbind]. rewrite vset_ok by lia. cbn [rbind]. rewrite vset_ok by lia. cbn [rbind].
  eexists. split; [done|]. destruct H as [I1 I2 I3]. split_and!; try done.
  - constructor; cbn; [|done|].
    + apply Forall_insert; [done|]. unfold full_ints. by rewrite length_insert.
    + destruct (buffer_upto p); [by rewrite length_insert|]. destruct I3 as [E ?]. rewrite E in *. cbn in *. lia.
  - cbn. by rewrite length_insert.
  - unfold cell. cbn. rewrite list_lookup_insert_eq by lia. cbn. by rewrite list_lookup_insert_eq by lia.
  - intros x Hx Hne. unfold cell. cbn. pose proof (Z.div_pos x INT_BLOCK_SIZE ltac:(lia) ltac:(lia)).
    pose proof (Z.mod_pos_bound x INT_BLOCK_SIZE ltac:(lia)). pose proof (Z.div_mod x INT_BLOCK_SIZE ltac:(lia)).
    destruct (decide (x / INT_BLOCK_SIZE = a / INT_BLOCK_SIZE)) as [E|E].
    + rewrite E, list_lookup_insert_eq, Hb by lia. cbn. rewrite list_lookup_insert_ne; [done|]. intros E2. apply Hne. lia.
    + rewrite list_lookup_insert_ne; [done|lia].
Qed.

(** Room for a row of cells in the current block, or a new block. *)
Lemma int_room_ok p n : IWF p -> 1 <= n <= INT_BLOCK_SIZE ->
  (exists p', (if INT_BLOCK_SIZE <? n + int_upto p then next_buffer else sret tt) p = (Err NumberOverflow, p') /\
     2 ^ 31 - INT_BLOCK_SIZE <= ipos p + n) \/
  exists p', (if INT_BLOCK_SIZE <? n + int_upto p then next_buffer else sret tt) p = (Ok tt, p') /\ IWF p' /\
    ipos p <= ipos p' < ipos p + n /\ (exists u, buffer_upto p' = Some u /\ ipos p' = u * INT_BLOCK_SIZE + int_upto p' /\
      int_offset p' = u * INT_BLOCK_SIZE /\ int_upto p' + n <= INT_BLOCK_SIZE /\ u + 1 = Z.of_nat (length (buffers p'))) /\
    forall x, 0 <= x < ipos p -> cell p' x = cell p x.
Proof.
  intros H Hn. pose proof int_size_val as HB. pose proof (iwf_shape p H) as Hs. pose proof (ipos_bound p H) as Hip.
  destruct (Z.ltb_spec INT_BLOCK_SIZE (n + int_upto p)) as [Hlt|Hge].
  2: { right. exists p. destruct (buffer_upto p) as [u|] eqn:E; [|lia].
       split_and!; try done; try lia. exists u. unfold ipos. split_and!; try done; lia. }
  assert (Hu : exists u, match buffer_upto p with Some upto => upto + 1 | None => 0 end = u /\ u = Z.of_nat (length (buffers p)) /\
    int_offset p + INT_BLOCK_SIZE = u * INT_BLOCK_SIZE /\ ipos p = int_offset p + int_upto p).
  { exists (Z.of_nat (length (buffers p))). unfold ipos. destruct (buffer_upto p); [nia|]. destruct Hs as (-> & ? & ?). cbn [length Z.of_nat]. lia. }
  destruct Hu as (u & Eu & El & Eo & Ep). unfold next_buffer. rewrite Eu, (proj2 (Z.eqb_eq _ _) El).
  assert (Hblk : exists a, AllocatorInt.get_byte_block (allocator p) = (replicate (Z.to_nat INT_BLOCK_SIZE) 0, a) /\
    AllocatorInt.get_block_size a = INT_BLOCK_SIZE).
  { pose proof (iwf_alloc p H) as Ha. destruct (allocator p); cbn [AllocatorInt.get_block_size] in Ha; subst; cbn; eauto. }
  destruct Hblk as (al & -> & Hal). cbn iota zeta beta. destruct (Z.ltb_spec i32_MAX (int_offset p + INT_BLOCK_SIZE)) as [Hmax|Hmax].
  - left. eexists. split; [done|]. unfold i32_MAX, ipos in *. lia.
  - right. eexists. split; [done|]. unfold i32_MAX in *. cbn [ipos]. unfold ipos at 2 3. cbn [int_offset int_upto buffer_upto buffers].
    split_and!.
    + constructor; cbn; [|done|].
      * apply Forall_app. split; [apply H|]. constructor; [|done]. unfold full_ints. rewrite length_replicate. lia.
      * rewrite length_app. cbn [length]. lia.
    + lia.
    + lia.
    + exists u. unfold ipos. cbn. rewrite length_app. cbn [length]. split_and!; try done; lia.
    + intros x Hx. unfold cell. cbn [buffers]. rewrite lookup_app_l; [done|].
      assert (x / INT_BLOCK_SIZE < u); [apply Z.div_lt_upper_bound; lia|].
      pose proof (Z.div_pos x INT_BLOCK_SIZE ltac:(lia) ltac:(lia)). lia.
Qed.
(** A reset that keeps the first block gives back one block too many: two blocks are
    taken, one stays, and the counter is back where it started. *)
Lemma reset_keeping_first_undercounts start : in_s 64 (start + 2 * INT_BLOCK_SIZE * INT_BYTES) -> in_s 64 start ->
  exists p2 p3, (let* _ := next_buffer in next_buffer) (with_allocator (AllocatorInt.new_indexing start)) = (Ok tt, p2) /\
    allocator p2 = AllocatorInt.new_indexing (start + 2 * INT_BLOCK_SIZE * INT_BYTES) /\
    reset false true p2 = (Ok tt, p3) /\ length (buffers p3) = 1%nat /\ allocator p3 = AllocatorInt.new_indexing start.
Proof.
  intros H2 H0. change INT_BLOCK_SIZE with 8192 in *. change INT_BYTES with 4 in *.
  assert (Hs : in_s 64 (start + 8192 * 4)) by (lia || (unfold in_s in *; lia)).
  eexists _, _. split_and!; [reflexivity| |reflexivity|reflexivity|]; cbn [allocator]; unfold AllocatorInt.new_indexing.
  - change INT_BLOCK_SIZE with 8192. change INT_BYTES with 4. rewrite (wrap_s_id 64 (start + 8192 * 4) ltac:(lia) Hs), wrap_s_id by (lia || (unfold in_s in *; lia)). f_equal. lia.
  - unfold AllocatorInt.recycle_int_blocks. change INT_BLOCK_SIZE with 8192. change INT_BYTES with 4.
    rewrite (wrap_s_id 64 (start + 8192 * 4) ltac:(lia) Hs); cbn [buffer_upto with_allocator]; rewrite (wrap_s_id 64 (start + 8192 * 4 + 8192 * 4)), wrap_s_id by (lia || (unfold in_s in *; lia)). f_equal. lia.
Qed.
End Ints.

(** * Rows of streams *)

Module Rows.
Import Cursor Ints.

(** A stream as the proofs see it: its slices, its write address and its bytes. *)
Record ghost := mkG { g_st : list Z; g_upto : Z; g_data : list Z }.

Definition gat (gs : list (list ghost)) (t i : nat) : option ghost := gs !! t ≫= fun g => g !! i.
Definition upd (gs : list (list ghost)) (t i : nat) (x : ghost) : list (list ghost) :=
  alter (fun g => <[i := x]> g) t gs.

Lemma gat_upd gs t i x y t' i' : gat gs t i = Some y ->
  gat (upd gs t i x) t' i' = if decide (t' = t /\ i' = i) then Some x else gat gs t' i'.
Proof.
  unfold gat, upd. intros (g & Hg & Hy)%bind_Some. destruct (decide (t' = t)) as [->|Hne].
  - rewrite list_lookup_alter_eq, Hg. cbn. destruct (decide (i' = i)) as [->|].
    + rewrite decide_True by done. apply list_lookup_insert_eq. by eapply lookup_lt_Some.
    + rewrite decide_False by tauto. by apply list_lookup_insert_ne.
  - rewrite decide_False by tauto. by rewrite list_lookup_alter_ne.
Qed.

Lemma upd_length gs t i x : length (upd gs t i x) = length gs.
Proof. apply length_alter. Qed.

(** [count] streams for each of the first terms of [rows]: where [rows] says, in slices
    that no two streams share. *)
Record SRep (count : Z) (rows : list start_row) (ip : IntBlockPool.t) (bp : ByteBlockPool.t) (gs : list (list ghost)) : Prop := {
  sr_clean : Clean bp;
  sr_ints : IWF ip;
  sr_rows : (length gs <= length rows)%nat;
  sr_count t g : gs !! t = Some g -> Z.of_nat (length g) = count;
  sr_stream t i x row : gat gs t i = Some x -> rows !! t = Some row ->
    (exists k, stream bp (g_st x) (g_upto x) (g_data x) k) /\ head (g_st x) = Some (byte_start row + 5 * Z.of_nat i) /\
    cell ip (address_offset row + Z.of_nat i) = Some (g_upto x);
  sr_addr t row : (t < length gs)%nat -> rows !! t = Some row -> 0 <= address_offset row /\
    address_offset row mod INT_BLOCK_SIZE + count <= INT_BLOCK_SIZE /\ address_offset row + count <= ipos ip;
  sr_apart t t' row row' : (t < t' < length gs)%nat -> rows !! t = Some row -> rows !! t' = Some row' ->
    address_offset row + count <= address_offset row';
  sr_disj t i x t' i' x' a : gat gs t i = Some x -> gat gs t' i' = Some x' -> ~ (t = t' /\ i = i') ->
    owned 0 (g_st x) a -> owned 0 (g_st x') a -> False }.

Lemma sr_row count rows ip bp gs t i x : SRep count rows ip bp gs -> gat gs t i = Some x ->
  exists row, rows !! t = Some row /\ (t < length gs)%nat /\ Z.of_nat i < count.
Proof.
  intros R (g & Hg & Hx)%bind_Some. pose proof (lookup_lt_Some _ _ _ Hg). pose proof (sr_rows _ _ _ _ _ R).
  destruct (lookup_lt_is_Some_2 rows t) as [row Hrow]; [lia|]. exists row. split_and!; try done.
  rewrite <- (sr_count _ _ _ _ _ R t g Hg). apply lookup_lt_Some in Hx. lia.
Qed.

(** Another part of the pool grows. *)
Lemma sr_frame count rows ip bp bp' gs : SRep count rows ip bp gs -> grows (fun _ => False) bp bp' ->
  SRep count rows ip bp' gs.
Proof.
  intros [] Hg. constructor; try done; [by apply (grows_clean _ _ _ Hg)|].
  intros t i x row Hx Hrow. destruct (sr_stream0 t i x row Hx Hrow) as ((k & Hs) & ? & ?).
  split_and!; try done. exists k. apply (stream_frame _ _ _ _ _ _ _ Hs Hg). by intros a _ [].
Qed.

(** The columns the streams do not use may change, and rows may be added. *)
Lemma sr_rows_mono count rows rows' ip bp gs : SRep count rows ip bp gs -> (length gs <= length rows')%nat ->
  (forall t row', (t < length gs)%nat -> rows' !! t = Some row' -> exists row, rows !! t = Some row /\
     address_offset row = address_offset row' /\ byte_start row = byte_start row') ->
  SRep count rows' ip bp gs.
Proof.
  intros R Hl Hr. pose proof R as []. constructor; try done.
  - intros t i x row' Hx Hrow'. destruct (sr_row _ _ _ _ _ t i x R Hx) as (_ & _ & Ht & _).
    destruct (Hr t row' Ht Hrow') as (row & Hrow & <- & <-). eauto.
  - intros t row' Ht Hrow'. destruct (Hr t row' Ht Hrow') as (row & Hrow & <- & _). eauto.
  - intros t t' row1 row2 Ht H1 H2. destruct (Hr t row1 ltac:(lia) H1) as (r1 & ? & <- & _).
    destruct (Hr t' row2 ltac:(lia) H2) as (r2 & ? & <- & _). by eapply sr_apart0.
Qed.

(** What a write to one stream touches belongs to no other stream. *)
Lemma sr_others count rows ip bp gs t i x bp' st' a' d' : SRep count rows ip bp gs -> gat gs t i = Some x ->
  wrote bp bp' (g_st x) st' a' d' -> forall t2 i2 x2, gat gs t2 i2 = Some x2 -> ~ (t2 = t /\ i2 = i) ->
  forall a, owned 0 (g_st x2) a -> ~ owned 0 (g_st x) a /\ ~ owned 0 st' a.
Proof.
  intros R Hx [_ _ _ Wn] t2 i2 x2 H2 Hne a Ho.
  assert (~ owned 0 (g_st x) a) by (intros Ho'; by eapply (sr_disj _ _ _ _ _ R t2 i2 x2 t i x a)).
  split; [done|]. intros Ho'. destruct (Wn a Ho') as [?|?]; [done|].
  destruct (sr_row _ _ _ _ _ t2 i2 x2 R H2) as (row2 & Hrow2 & _).
  destruct (sr_stream _ _ _ _ _ R t2 i2 x2 row2 H2 Hrow2) as ((k & _ & Hb & _) & _). specialize (Hb a Ho). lia.
Qed.

(** The address cells of two streams differ. *)
Lemma sr_cells count rows ip bp gs t i x row t2 i2 x2 row2 : SRep count rows ip bp gs ->
  gat gs t i = Some x -> rows !! t = Some row -> gat gs t2 i2 = Some x2 -> rows !! t2 = Some row2 -> ~ (t2 = t /\ i2 = i) ->
  0 <= address_offset row2 + Z.of_nat i2 /\ address_offset row2 + Z.of_nat i2 <> address_offset row + Z.of_nat i.
Proof.
  intros R Hx Hrow Hx2 Hrow2 Hne. destruct (sr_row _ _ _ _ _ t i x R Hx) as (_ & _ & Ht & Hi).
  destruct (sr_row _ _ _ _ _ t2 i2 x2 R Hx2) as (_ & _ & Ht2 & Hi2).
  destruct (sr_addr _ _ _ _ _ R t2 row2 Ht2 Hrow2) as (Ha2 & _). split; [lia|].
  destruct (lt_eq_lt_dec t2 t) as [[Hlt| ->]|Hgt].
  - pose proof (sr_apart _ _ _ _ _ R t2 t row2 row ltac:(lia) Hrow2 Hrow). lia.
  - rewrite Hrow in Hrow2. injection Hrow2 as <-. assert (i2 <> i) by tauto. lia.
  - pose proof (sr_apart _ _ _ _ _ R t t2 row row2 ltac:(lia) Hrow Hrow2). lia.
Qed.

(** A write to one stream. *)
Lemma sr_write count rows ip bp gs t i x row bp' st' a' d' :
  SRep count rows ip bp gs -> gat gs t i = Some x -> rows !! t = Some row ->
  wrote bp bp' (g_st x) st' a' d' ->
  exists ip', IntBlockPool.set_cell ip ((address_offset row + Z.of_nat i) / INT_BLOCK_SIZE)
      ((address_offset row + Z.of_nat i) mod INT_BLOCK_SIZE) a' = Ok ip' /\
    SRep count rows ip' bp' (upd gs t i (mkG st' a' d')) /\ ipos ip' = ipos ip.
Proof.
  intros R Hx Hrow W. pose proof (sr_others _ _ _ _ _ t i x _ _ _ _ R Hx W) as Hother. destruct W as [Ws Wg Wh Wn]. destruct (sr_row _ _ _ _ _ t i x R Hx) as (row' & Hrow' & Ht & Hi).
  rewrite Hrow in Hrow'. injection Hrow' as <-. destruct (sr_addr _ _ _ _ _ R t row Ht Hrow) as (Ha & Hf & Hp).
  destruct (ipos_bound ip (sr_ints _ _ _ _ _ R)) as [Hip _].
  destruct (set_cell_ok ip (address_offset row + Z.of_nat i) a' (sr_ints _ _ _ _ _ R)) as (ip' & Hset & Hw & Hpos & _ & _ & _ & _ & Hc & Hco); [lia|].
  exists ip'. split; [done|]. split; [|done].
  constructor.
  - apply (grows_clean _ _ _ Wg).
  - done.
  - rewrite upd_length. apply R.
  - intros t2 g Hg. unfold upd in Hg. destruct (decide (t2 = t)) as [->|].
    + rewrite list_lookup_alter_eq in Hg. destruct (gs !! t) as [g0|] eqn:Eg; [|done]. cbn in Hg. injection Hg as <-.
      rewrite length_insert. by eapply (sr_count _ _ _ _ _ R).
    + rewrite list_lookup_alter_ne in Hg by done. by eapply (sr_count _ _ _ _ _ R).
  - intros t2 i2 x2 row2 Hx2 Hrow2. rewrite (gat_upd _ _ _ _ _ _ _ Hx) in Hx2. case_decide as Hd.
    + destruct Hd as [-> ->]. injection Hx2 as <-. rewrite Hrow in Hrow2. injection Hrow2 as <-. cbn.
      destruct (sr_stream _ _ _ _ _ R t i x row Hx Hrow) as (_ & Hh & _). split_and!; [done|congruence|done].
    + destruct (sr_stream _ _ _ _ _ R t2 i2 x2 row2 Hx2 Hrow2) as ((k & Hs) & Hh & Hcell). split_and!; [|done|].
      * exists k. apply (stream_frame _ _ _ _ _ _ _ Hs Wg). intros a Ho. by apply (Hother t2 i2 x2 Hx2 Hd a Ho).
      * destruct (sr_cells _ _ _ _ _ t i x row t2 i2 x2 row2 R Hx Hrow Hx2 Hrow2 Hd). by rewrite Hco.
  - rewrite upd_length, Hpos. apply R.
  - rewrite upd_length. apply R.
  - intros t2 i2 x2 t3 i3 x3 a H2 H3 Hne Ho2 Ho3. rewrite (gat_upd _ _ _ _ _ _ _ Hx) in H2.
    rewrite (gat_upd _ _ _ _ _ _ _ Hx) in H3.
    destruct (decide (t2 = t /\ i2 = i)) as [D2|D2], (decide (t3 = t /\ i3 = i)) as [D3|D3].
    + destruct D2, D3. apply Hne. split; congruence.
    + injection H2 as <-. cbn in Ho2. by apply (Hother t3 i3 x3 H3 D3 a Ho3).
    + injection H3 as <-. cbn in Ho3. by apply (Hother t2 i2 x2 H2 D2 a Ho2).
    + by eapply (sr_disj _ _ _ _ _ R t2 i2 x2 t3 i3 x3 a).
Qed.
End Rows.

(** * The operations of a field *)

Module Field.
Import Cursor Ints Rows ByteSliceReader Reading.

Section PerField.
Context {PA : Type} {PAi : PostingsArray PA}.
Implicit Types f : @TermsHashPerField.t PA.

(** The field stands at the row of streams at int address [a]. *)
Definition current (f : @TermsHashPerField.t PA) (a : Z) : Prop :=
  term_stream_address_buffer_index f = a / INT_BLOCK_SIZE /\ stream_address_offset f = a mod INT_BLOCK_SIZE.

Lemma on_stream_writes f m bs count rows ip bp gs t i x row :
  writes m bs -> SRep count rows ip bp gs -> gat gs t i = Some x -> rows !! t = Some row -> current f (address_offset row) ->
  (exists s, on_stream f (Z.of_nat i) m (ip, bp) = (Err NumberOverflow, s) /\ LIMIT < position bp + cost bs) \/
  exists ip' bp' x', on_stream f (Z.of_nat i) m (ip, bp) = (Ok tt, (ip', bp')) /\
    SRep count rows ip' bp' (upd gs t i x') /\ g_data x' = g_data x ++ bs /\ ipos ip' = ipos ip /\
    grows (owned 0 (g_st x)) bp bp' /\ (forall a, owned 0 (g_st x') a -> owned 0 (g_st x) a \/ position bp <= a) /\
    position bp' <= position bp + cost bs.
Proof.
  intros Hm R Hx Hrow [Hc1 Hc2]. destruct (sr_row _ _ _ _ _ t i x R Hx) as (_ & _ & Ht & Hi).
  destruct (sr_addr _ _ _ _ _ R t row Ht Hrow) as (Ha & Hf & Hp).
  destruct (address_split (address_offset row) (Z.of_nat i)) as (_ & _ & E1 & E2); [lia|lia|lia|].
  destruct (sr_stream _ _ _ _ _ R t i x row Hx Hrow) as ((k & Hs) & Hh & Hcell).
  unfold on_stream. rewrite Hc1, Hc2, <- E1, <- E2, (get_cell_ok ip (address_offset row + Z.of_nat i) _ ltac:(lia) Hcell).
  destruct (Hm bp (g_st x) (g_upto x) (g_data x) k (sr_clean _ _ _ _ _ R) Hs) as [([a' bp'] & -> & HL)|(a' & bp' & st' & -> & Hw & Hpos)].
  - left. destruct (ipos_bound ip (sr_ints _ _ _ _ _ R)) as [Hip _].
    destruct (set_cell_ok ip (address_offset row + Z.of_nat i) a' (sr_ints _ _ _ _ _ R)) as (ip' & -> & _); [lia|]. by eexists.
  - right. destruct (sr_write _ _ _ _ _ t i x row bp' st' a' _ R Hx Hrow Hw) as (ip' & -> & R' & Hip).
    exists ip', bp', (mkG st' a' (g_data x ++ bs)). split_and!; try done; apply Hw.
Qed.

(** Both writes of a field, on the stream the row of the current term holds. *)
Lemma write_vint_ok f v count rows ip bp gs t i x row : in_s 32 v -> stream_count f = count ->
  SRep count rows ip bp gs -> gat gs t i = Some x -> rows !! t = Some row -> current f (address_offset row) ->
  (exists s, write_vint f (Z.of_nat i) v (ip, bp) = (Err NumberOverflow, s) /\ LIMIT < position bp + cost (vint_code v)) \/
  exists ip' bp' x', write_vint f (Z.of_nat i) v (ip, bp) = (Ok tt, (ip', bp')) /\
    SRep count rows ip' bp' (upd gs t i x') /\ g_data x' = g_data x ++ vint_code v /\ ipos ip' = ipos ip /\
    grows (owned 0 (g_st x)) bp bp' /\ (forall a, owned 0 (g_st x') a -> owned 0 (g_st x) a \/ position bp <= a) /\
    position bp' <= position bp + cost (vint_code v).
Proof.
  intros Hv Hcount R Hx Hrow Hcur. destruct (sr_row _ _ _ _ _ t i x R Hx) as (_ & _ & _ & Hi).
  unfold write_vint. rewrite slift_sbind, Hcount, (proj2 (Z.ltb_lt _ _) Hi).
  by apply (on_stream_writes f _ _ _ _ _ _ _ _ _ _ _ (write_vint_writes v Hv) R Hx Hrow Hcur).
Qed.

Lemma write_bytes_ok f b o n count rows ip bp gs t i x row : Forall (in_u 8) b -> 0 <= o -> 0 <= n -> o + n <= Z.of_nat (length b) ->
  SRep count rows ip bp gs -> gat gs t i = Some x -> rows !! t = Some row -> current f (address_offset row) ->
  (exists s, write_bytes f (Z.of_nat i) b o n (ip, bp) = (Err NumberOverflow, s) /\ LIMIT < position bp + cost (part b o (o + n))) \/
  exists ip' bp' x', write_bytes f (Z.of_nat i) b o n (ip, bp) = (Ok tt, (ip', bp')) /\
    SRep count rows ip' bp' (upd gs t i x') /\ g_data x' = g_data x ++ part b o (o + n) /\ ipos ip' = ipos ip /\
    grows (owned 0 (g_st x)) bp bp' /\ (forall a, owned 0 (g_st x') a -> owned 0 (g_st x) a \/ position bp <= a) /\
    position bp' <= position bp + cost (part b o (o + n)).
Proof.
  intros Hb Ho Hn Hl R Hx Hrow Hcur.
  by apply (on_stream_writes f _ _ _ _ _ _ _ _ _ _ _ (write_bytes_writes b o n Hb Ho Hn Hl) R Hx Hrow Hcur).
Qed.

(** A reader opened on a stream has exactly its bytes in front of it. *)
Lemma init_reader_ok f r pa count ip bp gs t i x : ByteSliceReader.pool r = bp -> postings f = Some pa -> stream_count f = count ->
  SRep count (get_rows pa) ip bp gs -> gat gs t i = Some x ->
  exists r', init_reader f r (Z.of_nat t) (Z.of_nat i) ip = Ok r' /\ ByteSliceReader.pool r' = bp /\ reads r' (g_data x).
Proof.
  intros Hr Hpa Hcount R Hx. destruct (sr_row _ _ _ _ _ t i x R Hx) as (row & Hrow & Ht & Hi).
  destruct (sr_addr _ _ _ _ _ R t row Ht Hrow) as (Ha & Hf & Hp).
  destruct (address_split (address_offset row) (Z.of_nat i)) as (E1 & E2 & _ & _); [lia|lia|lia|].
  destruct (sr_stream _ _ _ _ _ R t i x row Hx Hrow) as ((k & Hs) & Hh & Hcell).
  unfold init_reader, postings_or_error. rewrite Hcount, (proj2 (Z.ltb_lt _ _) Hi), Hpa. cbn [debug_assert rbind].
  rewrite (proj2 (vget_ok _ (Z.of_nat t) row ltac:(lia))) by by rewrite Nat2Z.id. cbn [rbind].
  rewrite E1, E2, (get_cell_ok ip (address_offset row + Z.of_nat i) _ ltac:(lia) Hcell). cbn [rbind].
  pose proof (sr_clean _ _ _ _ _ R) as Hc. destruct (wf_max bp (clean_wf _ Hc)) as (_ & Hmax & Hsz).
  pose proof block_size_val as HB. pose proof Hs as (Hch & Hown & _).
  destruct (chain_head _ _ _ _ _ Hch) as (s & rest & Hst & Hle & Ho & _). specialize (Hown s Ho).
  rewrite Hst in Hh. injection Hh as Hh. unfold FIRST_LEVEL_SIZE. rewrite (Z.mul_comm (Z.of_nat i)), <- Hh.
  rewrite TermPool.exact_i32_ok by (unfold in_s; lia). cbn [rbind].
  destruct (init_ok r bp _ _ _ k Hr (clean_wf _ Hc) Hsz Hs) as (r' & Hi' & Hp' & Hrd). rewrite Hst in Hi'. by exists r'.
Qed.

(** ** New terms *)

Lemma on_pool_ok {A} (m : ST ByteBlockPool.t A) f ip bp r bp' : m bp = (r, bp') ->
  TermsHashPerField.on_pool m (mk_state f ip bp) = (r, mk_state f ip bp').
Proof. intros H. unfold TermsHashPerField.on_pool. cbn. by rewrite H. Qed.

Lemma new_slices_ok n : forall f ip bp a i, Clean bp -> IWF ip -> current f a -> 0 <= a -> 0 <= i ->
  a mod INT_BLOCK_SIZE + i + Z.of_nat n <= INT_BLOCK_SIZE -> a + i + Z.of_nat n <= INT_BLOCK_SIZE * Z.of_nat (length (IntBlockPool.buffers ip)) ->
  byte_upto bp + 5 * Z.of_nat n <= BYTE_BLOCK_SIZE ->
  exists ip' bp', new_slices n i (byte_offset bp) (mk_state f ip bp) = (Ok tt, mk_state f ip' bp') /\
    grows (fun _ => False) bp bp' /\ position bp' = position bp + 5 * Z.of_nat n /\ IWF ip' /\ ipos ip' = ipos ip /\
    (forall j, (j < n)%nat -> cell ip' (a + i + Z.of_nat j) = Some (position bp + 5 * Z.of_nat j) /\
       let s := position bp + 5 * Z.of_nat j in
       (exists k, stream bp' [s] s [] k) /\ forall x, owned 0 [s] x <-> s <= x < s + 5) /\
    forall x, 0 <= x -> x < a + i \/ a + i + Z.of_nat n <= x -> cell ip' x = cell ip x.
Proof.
  induction n as [|n IH]; intros f ip bp a i Hc Hi Hcur Ha Hi0 Hfit Hlen Hroom.
  { exists ip, bp. cbn [new_slices]. split_and!; try done; first [by apply grows_refl|intros; lia]. }
  cbn [new_slices]. pose proof (new_slice_ok bp Hc) as Hn. unfold full, FIRST_LEVEL_SIZE in Hn. rewrite decide_False in Hn by lia.
  destruct Hn as (bp1 & s & Hn & Ht & Hg & Hch). destruct Ht as [T1 T2 T3 T4 T5 T6 T7 T8]. rewrite (T8 ltac:(lia)) in *. clear T8.
  rewrite (sbind_ok _ _ _ _ _ (on_pool_ok _ f ip bp _ _ Hn)), sget_sbind. cbn [per_field int_pool byte_pool].
  pose proof block_size_val as HB. pose proof (wf_max bp1 (clean_wf _ (grows_clean _ _ _ Hg))) as (_ & Hmax & Hsz).
  pose proof (Z.div_mod (position bp) BYTE_BLOCK_SIZE ltac:(lia)) as Hdm. pose proof (proj1 T3).
  assert (Hoff : byte_offset bp1 = byte_offset bp /\ position bp mod BYTE_BLOCK_SIZE + byte_offset bp = position bp /\ byte_upto bp1 = byte_upto bp + 5).
  { pose proof (wf_shape bp (clean_wf _ Hc)) as Hsh. unfold position in *. destruct (ByteBlockPool.buffer_upto bp) as [u|]; [|lia].
    destruct Hsh as (_ & _ & Ho & Hup). assert ((byte_offset bp + byte_upto bp) / BYTE_BLOCK_SIZE = u) as Eu.
    { symmetry. apply Z.div_unique with (byte_upto bp); lia. }
    rewrite Eu in *. lia. }
  destruct Hoff as (Ho1 & Ho2 & Ho3).
  rewrite slift_sbind, Ho2, TermPool.exact_i32_ok by (unfold in_s; lia).
  destruct Hcur as [Hc1 Hc2]. destruct (address_split a i) as (_ & _ & E1 & E2); [lia|lia|lia|].
  destruct (set_cell_ok ip (a + i) (position bp) Hi) as (ip1 & Hset & Hi1 & Hip1 & _ & _ & _ & Hl1 & Hcl & Hco); [lia|].
  rewrite slift_sbind, Hc1, Hc2, <- E1, <- E2, Hset, sput_sbind, <- Ho1.
  destruct (IH f ip1 bp1 a (i + 1) (grows_clean _ _ _ Hg) Hi1) as (ip' & bp' & Hrun & Hg' & Hp' & Hi' & Hip' & Hj & Hx);
    [done|lia|lia|lia|rewrite Hl1; lia|lia|].
  rewrite Hrun. exists ip', bp'. split_and!; try done.
  - by apply (grows_trans _ _ _ _ _ Hg Hg').
  - lia.
  - by rewrite Hip'.
  - intros j Hlt. destruct j as [|j].
    + change (Z.of_nat 0) with 0. rewrite !Z.add_0_r, Hx, Hcl by lia. split; [done|]. cbv zeta.
      split; [|intros x; cbn; change (lsize 0) with 5; tauto].
      destruct (stream_intro bp1 [position bp] (position bp) [] Hch) as (k & Hs).
      { intros x. cbn. change (lsize 0) with 5. lia. }
      exists k. apply (stream_frame _ _ _ _ _ _ _ Hs Hg'). by intros x _ [].
    + destruct (Hj j ltac:(lia)) as [Hcj Hsj]. rewrite T2 in Hcj, Hsj.
      replace (a + i + Z.of_nat (S j)) with (a + (i + 1) + Z.of_nat j) by lia.
      replace (position bp + 5 * Z.of_nat (S j)) with (position bp + 5 + 5 * Z.of_nat j) by lia. done.
  - intros x Hx0 Hxo. rewrite Hx by lia. apply Hco; lia.
Qed.

(** The row of a fresh term. *)
Definition fresh_row (base : Z) (n : nat) : list ghost :=
  (fun j : nat => let s := base + 5 * Z.of_nat j in mkG [s] s []) <$> seq 0 n.

Lemma gat_snoc gs g t i x : gat (gs ++ [g]) t i = Some x ->
  (gat gs t i = Some x /\ (t < length gs)%nat) \/ (t = length gs /\ g !! i = Some x).
Proof.
  unfold gat. intros (h & Hh & Hx)%bind_Some. apply lookup_snoc_Some in Hh as [[Hlt Hh]|[-> <-]]; [|by right].
  left. by rewrite Hh.
Qed.

Lemma gat_below gs t i x : gat gs t i = Some x -> (t < length gs)%nat.
Proof. unfold gat. intros (h & Hh & _)%bind_Some. by eapply lookup_lt_Some. Qed.

(** A row of fresh streams behind everything allocated so far. *)
Lemma sr_snoc count rows ip bp ip' bp' gs a row rows' :
  SRep count rows ip bp gs -> 0 <= count -> rows !! length gs = Some row -> grows (fun _ => False) bp bp' -> IWF ip' ->
  rows' = <[length gs := mk_row (text_start row) a (position bp)]> rows ->
  ipos ip <= a -> a + count <= ipos ip' -> a mod INT_BLOCK_SIZE + count <= INT_BLOCK_SIZE ->
  (forall j, (j < Z.to_nat count)%nat -> cell ip' (a + Z.of_nat j) = Some (position bp + 5 * Z.of_nat j) /\
     let s := position bp + 5 * Z.of_nat j in (exists k, stream bp' [s] s [] k) /\ forall x, owned 0 [s] x <-> s <= x < s + 5) ->
  (forall x, 0 <= x < ipos ip -> cell ip' x = cell ip x) ->
  SRep count rows' ip' bp' (gs ++ [fresh_row (position bp) (Z.to_nat count)]).
Proof.
  intros R Hc0 Hrow Hg Hi -> Ha Hap Hfit Hj Hco.
  pose proof (lookup_lt_Some _ _ _ Hrow) as Hlt. pose proof (ipos_bound _ (sr_ints _ _ _ _ _ R)) as [[Hip0 _] _].
  assert (Hold : forall t r, (t < length gs)%nat -> <[length gs := mk_row (text_start row) a (position bp)]> rows !! t = Some r -> rows !! t = Some r)
    by (intros t r Ht; by rewrite list_lookup_insert_ne by lia).
  assert (Hnew : forall r, <[length gs := mk_row (text_start row) a (position bp)]> rows !! length gs = Some r ->
    r = mk_row (text_start row) a (position bp)) by (intros r; rewrite list_lookup_insert_eq by done; by intros [= <-]).
  assert (Hfresh : forall j x, fresh_row (position bp) (Z.to_nat count) !! j = Some x -> (j < Z.to_nat count)%nat /\
    x = mkG [position bp + 5 * Z.of_nat j] (position bp + 5 * Z.of_nat j) []).
  { intros j x. unfold fresh_row. intros (n & -> & Hn)%list_lookup_fmap_Some. apply lookup_seq in Hn as [-> ?]. done. }
  assert (Hown : forall t i x y, gat gs t i = Some x -> owned 0 (g_st x) y -> y < position bp).
  { intros t i x y Hx Hy. destruct (sr_row _ _ _ _ _ t i x R Hx) as (r & Hr & _).
    destruct (sr_stream _ _ _ _ _ R t i x r Hx Hr) as ((k & _ & Hb & _) & _). auto. }
  constructor.
  - apply (grows_clean _ _ _ Hg).
  - done.
  - rewrite length_app, length_insert. cbn. lia.
  - intros t g [[_ Hg']|[_ <-]]%lookup_snoc_Some; [by eapply (sr_count _ _ _ _ _ R)|].
    unfold fresh_row. rewrite length_fmap, length_seq. lia.
  - intros t i x r Hx Hr. apply gat_snoc in Hx as [[Hx Ht]|[-> Hx]].
    + destruct (sr_stream _ _ _ _ _ R t i x r Hx (Hold t r Ht Hr)) as ((k & Hs) & Hh & Hc). split_and!; [|done|].
      * exists k. apply (stream_frame _ _ _ _ _ _ _ Hs Hg). by intros y _ [].
      * destruct (sr_row _ _ _ _ _ t i x R Hx) as (r' & Hr' & _ & Hi'). rewrite (Hold t r Ht Hr) in Hr'. injection Hr' as <-.
        destruct (sr_addr _ _ _ _ _ R t r Ht (Hold t r Ht Hr)). rewrite Hco; [done|lia].
    + rewrite (Hnew r Hr). destruct (Hfresh i x Hx) as [Hi' ->]. cbn. destruct (Hj i Hi') as (Hcell & Hs & _). done.
  - intros t r Ht Hr. rewrite length_app in Ht. cbn in Ht. destruct (decide (t = length gs)) as [->|].
    + rewrite (Hnew r Hr). cbn. lia.
    + destruct (sr_addr _ _ _ _ _ R t r ltac:(lia) (Hold t r ltac:(lia) Hr)). lia.
  - intros t t' r r' Ht Hr Hr'. rewrite length_app in Ht. cbn in Ht. apply Hold in Hr; [|lia].
    destruct (decide (t' = length gs)) as [->|].
    + rewrite (Hnew r' Hr'). cbn. destruct (sr_addr _ _ _ _ _ R t r ltac:(lia) Hr). lia.
    + apply Hold in Hr'; [|lia]. apply (sr_apart _ _ _ _ _ R t t'); [lia|done|done].
  - intros t i x t' i' x' y Hx Hx' Hne Ho Ho'. apply gat_snoc in Hx as [[Hx Ht]|[-> Hx]]; apply gat_snoc in Hx' as [[Hx' Ht']|[-> Hx']].
    + by eapply (sr_disj _ _ _ _ _ R t i x t' i' x' y).
    + destruct (Hfresh i' x' Hx') as [Hi' ->]. apply (Hj i' Hi') in Ho'. pose proof (Hown _ _ _ _ Hx Ho). lia.
    + destruct (Hfresh i x Hx) as [Hi' ->]. apply (Hj i Hi') in Ho. pose proof (Hown _ _ _ _ Hx' Ho'). lia.
    + destruct (Hfresh i x Hx) as [Hi' ->], (Hfresh i' x' Hx') as [Hi2 ->]. apply (Hj i Hi') in Ho. apply (Hj i' Hi2) in Ho'.
      apply Hne. split; [done|lia].
Qed.
End PerField.
End Field.

(** * The contract of a postings array *)

(** All arrays have one size; growing appends to them, and setting the rows leaves the
    others as they are ([keeps]: what an implementation has beside the rows). *)
Class PostingsSpec (PA : Type) {PAi : PostingsArray PA} := {
  pa_ok : PA -> Prop;
  keeps : PA -> PA -> Prop;
  keeps_order : PreOrder keeps;
  pa_new n o : 0 <= n -> pa_ok (new_for_index n o) /\ get_rows (new_for_index n o) = replicate (Z.to_nat n) empty_row;
  pa_size p : pa_ok p -> get_size p = Z.of_nat (length (get_rows p));
  pa_bytes p : pa_ok p -> 0 < bytes_per_posting p <= 1024;
  pa_copy p n : pa_ok p -> Z.of_nat (length (get_rows p)) <= n ->
    exists p', copy_to n p = (Ok tt, p') /\ pa_ok p' /\ keeps p p' /\
      get_rows p' = get_rows p ++ replicate (Z.to_nat n - length (get_rows p)) empty_row;
  pa_set p rs : pa_ok p -> length rs = length (get_rows p) ->
    pa_ok (set_row p rs) /\ keeps p (set_row p rs) /\ get_rows (set_row p rs) = rs }.
#[global] Existing Instance keeps_order.

Section PostingsFacts.
Context {PA : Type} {PAi : PostingsArray PA} {PS : PostingsSpec PA}.

Lemma update_row_ok g (i : nat) (p : PA) r : pa_ok p -> get_rows p !! i = Some r ->
  exists p', update_row g (Z.of_nat i) p = Ok p' /\ pa_ok p' /\ keeps p p' /\ get_rows p' = <[i := g r]> (get_rows p).
Proof.
  intros Hp Hr. pose proof (lookup_lt_Some _ _ _ Hr). unfold update_row.
  rewrite (proj2 (vget_ok _ (Z.of_nat i) r ltac:(lia))) by by rewrite Nat2Z.id. cbn [rbind]. rewrite vset_ok by lia. cbn [rbind].
  rewrite Nat2Z.id. destruct (pa_set p (<[i := g r]> (get_rows p)) Hp) as (H1 & H2 & H3); [by rewrite length_insert|]. by eexists.
Qed.

Lemma grow_postings_ok (p : PA) : pa_ok p -> Z.of_nat (length (get_rows p)) < 2 ^ 31 - 1 ->
  exists p' ext, grow_postings p = (Ok tt, p') /\ pa_ok p' /\ keeps p p' /\ get_rows p' = get_rows p ++ ext /\ ext <> [].
Proof.
  intros Hp Hl. pose proof (pa_size p Hp) as Hs. pose proof (pa_bytes p Hp) as Hb.
  unfold grow_postings. rewrite sget_sbind, slift_sbind, Hs.
  assert (ArrayUtil.max_array_length (bytes_per_posting p) = 2147483647) as Hm.
  { unfold ArrayUtil.max_array_length, ArrayUtil.isize_MAX. rewrite (proj2 (Z.eqb_neq _ _)) by lia. apply Z.min_l.
    unfold ArrayUtil.MAX_ARRAY_LENGTH, i32_MAX. apply Z.div_le_lower_bound; lia. }
  unfold ArrayUtil.oversize. rewrite (proj2 (Z.eqb_neq _ _)) by lia. rewrite Hm, (proj2 (Z.ltb_ge _ _)) by lia.
  set (n := Z.min _ 2147483647). assert (Hn : Z.of_nat (length (get_rows p)) < n).
  { assert (0 <= Z.shiftr (Z.of_nat (length (get_rows p)) + 1) 3) by (apply Z.shiftr_nonneg; lia).
    unfold n, ArrayUtil.usize_MAX. destruct (_ <? 3); destruct (_ <? _); lia. }
  destruct (pa_copy p n Hp ltac:(lia)) as (p' & Hc & H1 & H2 & H3). exists p'. eexists. split_and!; try done.
  destruct (Z.to_nat n - length (get_rows p))%nat eqn:E; [lia|done].
Qed.
End PostingsFacts.

#[global] Instance parallel_postings_spec : PostingsSpec ParallelPostingsArray.t.
Proof.
  refine {| pa_ok p := ParallelPostingsArray.size p = Z.of_nat (length (ParallelPostingsArray.starts p));
            keeps _ _ := True |}.
  - by split.
  - intros n o Hn. cbn. rewrite length_replicate. split; [lia|done].
  - done.
  - intros p _. cbv. done.
  - intros p n Hp Hl. cbn in *. unfold ParallelPostingsArray.copy_to_, ArrayUtil.grow_exact. cbn [ParallelPostingsArray.starts].
    destruct (Z.ltb_spec (Z.of_nat (length (ParallelPostingsArray.starts p))) n).
    + eexists. split; [done|]. cbn. split_and!; [|done|].
      * rewrite length_app, length_replicate. lia.
      * do 2 f_equal. lia.
    + rewrite (proj2 (Z.eqb_eq _ _)) by lia. eexists. split; [done|]. cbn. split_and!; [lia|done|].
      replace (Z.to_nat n - _)%nat with 0%nat by lia. by rewrite app_nil_r.
  - intros p rs Hp Hl. cbn in *. rewrite Hl. done.
Defined.

(** ** The starts of the terms *)

#[global] Instance postings_starts_spec {PA} {PAi : PostingsArray PA} {PS : PostingsSpec PA} :
  StartArraySpec (PostingsBytesStartArray.t PA).
Proof.
  refine {| ready a vs := exists p, PostingsBytesStartArray.postings_array a = Some p /\ pa_ok p /\ text_start <$> get_rows p = vs;
            idle a := PostingsBytesStartArray.postings_array a = None |}.
  - intros a vs (p & Hp & _). cbn. by rewrite Hp.
  - intros a Ha. cbn. by rewrite Ha.
  - intros a vs (p & Hp & _ & <-). cbn. unfold PostingsBytesStartArray.array_len_. by rewrite Hp, length_fmap.
  - intros a vs i v (p & Hp & _ & <-) Hv. cbn. unfold PostingsBytesStartArray.get_value_. rewrite Hp.
    apply list_lookup_fmap_Some in Hv as (r & -> & Hr).
    by rewrite (proj2 (vget_ok _ (Z.of_nat i) r ltac:(lia))) by by rewrite Nat2Z.id.
  - intros a vs i v (p & Hp & Hok & <-) Hi. cbn. unfold PostingsBytesStartArray.set_value_. rewrite Hp.
    rewrite length_fmap in Hi. rewrite (proj2 (Z.leb_gt _ _)) by lia.
    destruct (lookup_lt_is_Some_2 _ _ Hi) as [r Hr]. unfold set_text_starts.
    destruct (update_row_ok (fun r => mk_row v (address_offset r) (byte_start r)) i p r Hok Hr) as (p' & -> & H1 & _ & H2).
    eexists. split; [done|]. exists p'. split_and!; try done. rewrite H2, list_fmap_insert. done.
  - intros a vs (p & Hp & Hok & <-) Hl. cbn. unfold PostingsBytesStartArray.grow_. rewrite Hp. rewrite length_fmap in Hl.
    destruct (grow_postings_ok p Hok Hl) as (p' & ext & -> & H1 & _ & H2 & Hne). eexists _, (text_start <$> ext).
    split; [done|]. split; [|by destruct ext]. exists p'. split_and!; try done. by rewrite H2, fmap_app.
  - intros a vs _. done.
  - intros a Ha. cbn. unfold PostingsBytesStartArray.init_. rewrite Ha.
    destruct (pa_new 2 (PostingsBytesStartArray.index_options a) ltac:(lia)) as [H1 H2]. eexists _, _. split; [done|].
    eexists. split_and!; done.
Defined.

(** * What adding a term changes beside the dictionary *)

Module AddEffect.
Import BytesRefHash BytesRefBlockPool.

Section Effect.
Context {A : Type} {BA : BytesStartArray A} (seed : Z) (h0 : @BytesRefHash.t A) (p0 : ByteBlockPool.t).
(** A relation that growing and setting the entry of the new id keep. *)
Context (R : A -> A -> Prop) {Ro : PreOrder R}.
Hypothesis R_grow : forall a a', grow a = (Ok tt, a') -> R a a'.
Hypothesis R_set : forall v a a', set_value (count h0) v a = (Ok tt, a') -> R a a'.

Let same (p : ByteBlockPool.t) (s : @BytesRefHash.t A * ByteBlockPool.t) : Prop :=
  R (bytes_start_array h0) (bytes_start_array s.1) /\ s.2 = p.

Lemma on_array_ends {B} (m : ST A B) p s : same p s ->
  (forall b a', m (bytes_start_array s.1) = (Ok b, a') -> R (bytes_start_array s.1) a') ->
  ends (fun _ => same p) (fun _ => True) (on_array m) s.
Proof using Ro.
  intros [H1 H2] Hm. apply ends_run. intros r s'. unfold on_array. destruct (m _) as [rr a'] eqn:E. intros [= <- <-].
  destruct rr; [|done..]. split; [|done]. cbn. etrans; [done|]. by eapply Hm.
Qed.

Lemma lift_ends {B} (r : result B) p s : same p s -> ends (fun _ => same p) (fun _ => True) (slift r) s.
Proof. intros H. by apply ends_lift. Qed.

Lemma occupy_ends pos e d p s : same p s -> ends (fun _ => same p) (fun _ => True) (occupy seed pos e d) s.
Proof.
  intros Hs. unfold occupy, rehash. apply ends_get. destruct s as [h q].
  do 3 (eapply ends_bind; [by apply lift_ends|cbn beta; intros ? ? H0; clear Hs; rename H0 into Hs]).
  eapply ends_bind; [apply ends_run; intros r ? [= <- <-]; instantiate (1 := fun _ => same p); exact Hs|cbn beta; intros _ [h2 q2] Hs2].
  apply ends_get. destruct (_ =? _); [|by apply ends_ret].
  apply ends_get. eapply ends_bind; [by apply lift_ends|cbn beta; intros v [h3 q3] Hs3].
  apply ends_run. intros r ? [= <- <-]. exact Hs2.
Qed.

Lemma ensure_start_ends p i s : same p s -> ends (fun _ => same p) (fun _ => True) (ensure_start i) s.
Proof using R_grow Ro.
  intros Hs. unfold ensure_start. apply ends_get. destruct s as [h q].
  eapply ends_bind; [by apply lift_ends|cbn beta; intros n s1 Hs1].
  destruct (_ <=? _); [|by apply ends_ret].
  eapply ends_bind; [by apply (on_array_ends _ p); [|intros []; apply R_grow]|cbn beta; intros _ s2 Hs2].
  apply ends_get. destruct s2 as [h2 q2]. eapply ends_bind; [by apply lift_ends|cbn beta; intros m s3 Hs3]. by apply lift_ends.
Qed.

(** Entering the id of a term whose text is in the pool. *)
Lemma enter_ends v pos e p s : same p s ->
  ends (fun _ => same p) (fun _ => True) (let* _ := on_array (set_value (count h0) v) in
      let* _ := modify (fun h => with_count h (count h + 1)) in
      let* _ := occupy seed pos e true in sret e) s.
Proof using R_set Ro.
  intros Hs. eapply ends_bind; [apply (on_array_ends _ p); [done|intros []; apply R_set]|cbn beta; intros _ s1 Hs1].
  eapply ends_bind; [apply ends_run; intros r ? [= <- <-]; instantiate (1 := fun _ => same p); exact Hs1|cbn beta; intros _ s2 Hs2].
  eapply ends_bind; [by apply occupy_ends|cbn beta; intros _ s3 Hs3]. by apply ends_ret.
Qed.

Lemma add_ends b : ends (fun _ s => R (bytes_start_array h0) (bytes_start_array s.1)) (fun _ => True) (add seed b) (h0, p0).
Proof using R_grow R_set Ro.
  unfold add. apply ends_get. cbn beta iota. assert (H0 : same p0 (h0, p0)) by (split; [reflexivity|done]).
  do 3 (eapply ends_bind; [by apply lift_ends|cbn beta; intros ? ? Hs; clear H0; rename Hs into H0]).
  destruct (_ =? -1); [|by apply ends_ret, H0].
  eapply ends_bind; [by apply ensure_start_ends|cbn beta; intros _ [h1 q1] [HR1 _]; cbn in HR1].
  eapply (ends_bind (fun _ s => same s.2 s)).
  { apply ends_run. intros r s' Hr. unfold on_pool in Hr. destruct (add_bytes_ref b _) as [rr p'].
    injection Hr as <- <-. by destruct rr. }
  intros start [h2 q2] Hs2. cbn in Hs2. eapply ends_weaken; [by apply (enter_ends _ _ _ q2)|by intros ? ? []|done].
Qed.
End Effect.

(** The array a new term leaves is the one its start was set in. *)
Lemma enter_post {A} {BA : BytesStartArray A} seed v pos e (h : @BytesRefHash.t A) p (Q : A -> Prop) :
  (forall a', set_value (count h) v (bytes_start_array h) = (Ok tt, a') -> Q a') ->
  ends (fun _ s => Q (bytes_start_array s.1) /\ s.2 = p) (fun _ => True) (let* _ := on_array (set_value (count h) v) in
      let* _ := modify (fun h => with_count h (count h + 1)) in
      let* _ := occupy seed pos e true in sret e) (h, p).
Proof.
  intros HQ. eapply (ends_bind (fun _ s => Q (bytes_start_array s.1) /\ s.2 = p)).
  { apply ends_run. intros r s'. unfold on_array. cbn [fst snd]. destruct (set_value _ _ _) as [rr a'] eqn:E. intros [= <- <-].
    destruct rr as [[]| | |]; [|done..]. split; [by apply HQ|done]. }
  intros _ [h1 q1] [HQ1 Hp]. cbn in HQ1, Hp. subst q1.
  eapply (ends_bind (fun _ s => bytes_start_array h1 = bytes_start_array s.1 /\ s.2 = p)); [done|].
  intros _ s2 Hs2. eapply ends_bind; [by apply (occupy_ends seed h1 eq pos e true p)|cbn beta; intros _ s3 [E3 Hp3]].
  apply ends_ret. by rewrite <- E3.
Qed.
End AddEffect.

(** * Terms in a clean pool *)

Module CleanTerms.
Import BytesRefBlockPool TermPool.

(** A term stored in the pool, by its bytes in memory. *)
Lemma stored_seg p start t : WF p -> stored p start t <->
  0 <= start /\ Z.of_nat (length t) <= BYTE_BLOCK_SIZE - 2 /\
  start mod BYTE_BLOCK_SIZE + Z.of_nat (length (enc t)) <= BYTE_BLOCK_SIZE /\
  start + Z.of_nat (length (enc t)) <= position p /\ seg (memory p) start (Z.of_nat (length (enc t))) = enc t.
Proof.
  intros Hw. pose proof (content_length p Hw) as Hc. pose proof (wf_position p Hw) as [Hp _].
  assert (Hseg : 0 <= start -> start + Z.of_nat (length (enc t)) <= position p ->
    take (length (enc t)) (drop (Z.to_nat start) (content p)) = seg (memory p) start (Z.of_nat (length (enc t)))).
  { intros Hs Hl. unfold seg, content. rewrite Nat2Z.id, skipn_firstn_comm, take_take. f_equal. lia. }
  split.
  - intros Hst. pose proof (stored_end _ _ _ Hst). destruct Hst as (H1 & H2 & H3 & H4). rewrite Hseg in H4 by lia.
    split_and!; try done; lia.
  - intros (H1 & H2 & H3 & H4 & H5). split_and!; try done. by rewrite Hseg.
Qed.

(** Stream writes elsewhere keep a stored term. *)
Lemma stored_frame W p p' start t : WF p -> grows W p p' ->
  (forall a, start <= a < start + Z.of_nat (length (enc t)) -> ~ W a) -> stored p start t -> stored p' start t.
Proof.
  intros Hw Hg Hd Hst. apply (stored_seg p) in Hst as (H1 & H2 & H3 & H4 & H5); [|done].
  apply stored_seg; [apply (grows_clean _ _ _ Hg)|]. pose proof (grows_pos _ _ _ Hg). split_and!; try done; [lia|].
  etrans; [|exact H5]. apply seg_agree; [|done]. intros x Hx. apply (grows_same _ _ _ Hg); [lia|auto].
Qed.

Lemma enc_bytes t : Forall (in_u 8) t -> Forall (in_u 8) (enc t).
Proof.
  intros Ht. unfold enc. destruct (Z.ltb_spec (Z.of_nat (length t)) 128).
  - apply Forall_cons_2; [unfold in_u; lia|done].
  - apply Forall_app. split; [|done]. apply Forall_rev, to_le_bytes_in_u.
Qed.

(** The entry written into the current block. *)
Lemma put_term_ok q u b : Clean q -> BytesRef.valid b -> Forall (in_u 8) (BytesRef.contents b) ->
  let t := BytesRef.contents b in Z.of_nat (length t) <= BYTE_BLOCK_SIZE - 2 ->
  roomy q (Z.of_nat (length (enc t))) -> buffer_upto q = Some u ->
  exists buf buf' bs, vget (buffers q) u = Ok buf /\
    write_entry buf (byte_upto q) (Z.of_nat (length t)) t = Ok (buf', Z.of_nat (length (enc t))) /\
    vset (buffers q) u buf' = Ok bs /\
    let p' := with_byte_upto (with_buffers q bs) (byte_upto q + Z.of_nat (length (enc t))) in
    grows (fun _ => False) q p' /\ stored p' (position q) t /\ position p' = position q + Z.of_nat (length (enc t)).
Proof.
  intros Hc Hb Hb8 t Hl Hr Hu. pose proof (clean_wf _ Hc) as Hw. pose proof (enc_positive t) as Hpos. pose proof block_size_val as HB.
  pose proof (roomy_size q (Z.of_nat (length (enc t))) Hw ltac:(lia) Hr) as Hsz. pose proof (wf_position q Hw) as [Hp0 _]. pose proof Hr as (u' & Hu' & Hfit & Hd & Hm & Ho).
  rewrite Hu in Hu'. injection Hu' as <-.
  destruct (update_buffer_ok q (position q) (enc t) (fun b => vcopy b (byte_upto q) (enc t)) Hw) as (bs & He & Hw' & Hmem & Hlen);
    [lia|lia|by apply enc_bytes|intros; by rewrite Hm|].
  unfold update_buffer in He. rewrite Hd in He. destruct (vget (buffers q) u) as [buf| | |] eqn:Hg; try done. cbn [rbind] in He.
  pose proof (wf_shape q Hw) as Hsh. rewrite Hu in Hsh.
  assert (Hbl : full_block buf) by (apply (Forall_lookup_1 _ _ _ _ (wf_blocks q Hw) (proj1 (vget_ok _ u buf ltac:(lia)) Hg))).
  destruct (write_entry_ok buf (byte_upto q) t) as (buf' & Hv & Hwe); [lia|destruct Hbl; lia|lia|].
  rewrite Hv in He. cbn [rbind] in He. destruct (vset (buffers q) u buf') as [bs'| | |] eqn:Hvs; try done.
  injection He as ->.
  exists buf, buf', bs. split_and!; try done. cbv zeta. set (p' := with_byte_upto _ _).
  assert (Hpos' : position p' = position q + Z.of_nat (length (enc t))) by (unfold position, p'; cbn; lia).
  assert (Hmem' : memory p' = splice (memory q) (position q) (enc t)) by exact Hmem.
  assert (Hcl : Clean p').
  { split.
    - destruct Hw' as [W1 W2 W3]. constructor; cbn in *; [done..|]. rewrite Hu in *. lia.
    - rewrite Hmem'. intros a. rewrite splice_size by lia. intros Ha. rewrite splice_lookup by lia. apply (proj2 Hc). lia. }
  split_and!; [constructor; [done|lia| |]|apply stored_seg; [by apply clean_wf|]|done].
  - rewrite Hmem', splice_size by lia. done.
  - intros a Ha _. rewrite Hmem'. apply splice_lookup; lia.
  - split_and!; [lia|done|lia|lia|]. rewrite Hmem'. by apply seg_splice_at; lia.
Qed.

Lemma add_term_ok p b : Clean p -> BytesRef.valid b -> Forall (in_u 8) (BytesRef.contents b) ->
  let t := BytesRef.contents b in Z.of_nat (length t) <= BYTE_BLOCK_SIZE - 2 ->
  ~ full p (2 + Z.of_nat (length t)) ->
  exists start p', add_bytes_ref b p = (Ok start, p') /\ grows (fun _ => False) p p' /\ position p <= start /\
    stored p' start t /\ position p' <= position p + 2 * (2 + Z.of_nat (length t)).
Proof.
  intros Hc Hb Hb8 t Hl Hf. pose proof (BytesRef.contents_length b Hb) as Hlen. fold t in Hlen. pose proof block_size_val as HB.
  pose proof (make_room_ok p (2 + Z.of_nat (length t)) Hc ltac:(lia)) as Hm. rewrite decide_False in Hm by done.
  destruct Hm as (q & Hm & Hg & Hr & Hnear). pose proof (enc_length t) as He.
  assert (1 <= prefix_size t <= 2) by (unfold prefix_size; destruct (_ <? _); lia).
  pose proof (grows_clean _ _ _ Hg) as Hq. pose proof (wf_shape p (clean_wf _ Hc)) as Hsh.
  assert (Hup : 0 <= byte_upto p <= BYTE_BLOCK_SIZE) by (destruct (buffer_upto p); lia).
  destruct Hr as (u & Hu & Hfit & Hd & Hmo & Ho).
  assert (Hr' : roomy q (Z.of_nat (length (enc t)))) by (exists u; split_and!; (done || lia)).
  destruct (put_term_ok q u b Hq Hb Hb8 Hl Hr' Hu) as (buf & buf' & bs & Hbuf & Hwe & Hvs & Hgq & Hst & Hpq). fold t in Hwe, Hgq, Hst, Hpq.
  pose proof (wf_max q (clean_wf _ Hq)) as (_ & Hmax & Hsz). pose proof (wf_position q (clean_wf _ Hq)) as [Hq0 _].
  pose proof (roomy_size q (Z.of_nat (length (enc t))) (clean_wf _ Hq) ltac:(lia) Hr').
  eexists (position q), _. split; [|split_and!; [apply (grows_trans _ _ _ _ _ Hg Hgq); tauto|apply (grows_pos _ _ _ Hg)|done|lia]].
  unfold add_bytes_ref. rewrite <- Hlen, slift_sbind, (wrap_s_id 32), exact_i32_ok by (unfold in_s; lia).
  rewrite sget_sbind, slift_sbind, exact_i32_ok by (unfold in_s; lia).
  assert (Hroom : (if BYTE_BLOCK_SIZE <? 2 + Z.of_nat (length t) + byte_upto p then
      if BYTE_BLOCK_SIZE <? 2 + Z.of_nat (length t) then slift (Err MaxBytesLengthExceeded) else let* _ := next_buffer in sret tt
    else sret tt) p = (Ok tt, q)).
  { rewrite <- Hm. unfold make_room. rewrite sget_sbind, (proj2 (Z.ltb_ge BYTE_BLOCK_SIZE (2 + Z.of_nat (length t)))) by lia.
    destruct (Z.ltb_spec BYTE_BLOCK_SIZE (2 + Z.of_nat (length t) + byte_upto p)), (Z.ltb_spec (BYTE_BLOCK_SIZE - (2 + Z.of_nat (length t))) (byte_upto p)); (done || lia). }
  rewrite (sbind_ok _ _ _ _ _ Hroom), sget_sbind, slift_sbind.
  replace (byte_upto q + byte_offset q) with (position q) by (unfold position; lia).
  rewrite exact_i32_ok by (unfold in_s; lia). rewrite slift_sbind. unfold upto_or_error. rewrite Hu, slift_sbind, Hbuf.
  rewrite slift_sbind, BytesRef.as_byte_slice_ok by done. fold t. rewrite slift_sbind, Hwe. cbn beta iota.
  rewrite slift_sbind, Hvs, sput_sbind. done.
Qed.
End CleanTerms.
