(* ===== verification/TermStreams.v ===== *)
(** A field as a dictionary with a row of byte streams per term: the representation
    invariant over the hash, the postings array and the two pools, and what the
    operations of [TermsHashPerField] (src/core/index/terms_hash_per_field.rs) do to it. *)

From Stdlib Require Import ZArith Lia Bool.
From stdpp Require Import base tactics numbers list.
From S2P Require Import Prelude ArrayUtil BitUtil DataOutput DataInput StringHelper ByteBlockPool.
From S2P Require Import BytesRefHash BytesRefHashProofs BytesRefDictionary ByteSlices ByteSliceProofs TermsHash TermsHashProofs.
Import BitUtil ByteBlockPool PoolFacts Flat PoolMemory Room Chain Stream TermsHashPerField Cursor Ints Rows Field TermPool CleanTerms.

Local Open Scope Z_scope.

(** Changing the pool away from the terms, and the array in other columns, leaves a
    dictionary as it is. *)
Lemma dict_frame {A} {BA : BytesStartArray A} {SS : StartArraySpec A} seed (h : @BytesRefHash.t A) p ts a' vs' p' :
  BytesRefDictionary.Rep seed h p ts -> WF p' -> position p <= position p' -> ready a' vs' -> (length ts <= length vs')%nat ->
  (forall (i : nat) t, ts !! i = Some t -> exists s, vs' !! i = Some s /\ stored p' s t) ->
  BytesRefDictionary.Rep seed (BytesRefHash.with_array h a') p' ts.
Proof.
  intros [_ (k & vs & Hh & _) Hnd Hsz] Hw Hpos Hr Hl Ht. constructor; [done| |done|lia].
  exists k, vs'. split; [|done]. destruct Hh. constructor; try done. by rewrite length_map.
Qed.

(** * Programs that use up the pools *)

Module Spending.
(** Both pools address their content with 32 bits. *)
Definition CAPACITY : Z := 2 ^ 31 - INT_BLOCK_SIZE - 1.

Section Spending.
Context {S : Type} (usage : S -> Z).

(** [m] succeeds with [Q] and uses at most [c], or overflows, which takes that [c] more
    is beyond the capacity. *)
Definition spends {A} (c : Z) (m : ST S A) (s : S) (Q : A -> S -> Prop) : Prop :=
  (exists s', m s = (Err NumberOverflow, s') /\ CAPACITY < usage s + c) \/
  (exists a s', m s = (Ok a, s') /\ usage s' <= usage s + c /\ Q a s').

Lemma spends_bind {A B} c1 c2 (m : ST S A) (k : A -> ST S B) s Q R : 0 <= c2 -> spends c1 m s Q ->
  (forall a s', Q a s' -> spends c2 (k a) s' R) -> spends (c1 + c2) (sbind m k) s R.
Proof.
  intros Hc [(s' & Hm & Hf)|(a & s' & Hm & Hu & HQ)] Hk.
  - left. exists s'. unfold sbind. rewrite Hm. split; [done|lia].
  - unfold spends. rewrite (sbind_ok _ _ _ _ _ Hm). destruct (Hk a s' HQ) as [(s2 & Hm2 & Hf)|(b & s2 & Hm2 & Hu2 & HR)].
    + left. exists s2. split; [done|lia].
    + right. exists b, s2. split_and!; [done|lia|done].
Qed.

Lemma spends_weaken {A} c c' (m : ST S A) s (Q Q' : A -> S -> Prop) : spends c m s Q -> c <= c' ->
  (forall a s', Q a s' -> Q' a s') -> spends c' m s Q'.
Proof.
  intros [(s' & Hm & Hf)|(a & s' & Hm & Hu & HQ)] Hc HQQ; [left; exists s'|right; exists a, s']; split_and!; auto; lia.
Qed.

(** Steps that use nothing, and a step of known cost before the rest. *)
Lemma spends_step {A B} c (m : ST S A) (k : A -> ST S B) s a s' R : m s = (Ok a, s') -> usage s' = usage s ->
  spends c (k a) s' R -> spends c (sbind m k) s R.
Proof. intros Hm Hu H. unfold spends in *. by rewrite (sbind_ok _ _ _ _ _ Hm), <- Hu. Qed.

Lemma spends_seq {A B} c1 c2 c (m : ST S A) (k : A -> ST S B) s Q R : spends c1 m s Q ->
  (forall a s', Q a s' -> spends c2 (k a) s' R) -> 0 <= c2 -> c1 + c2 <= c -> spends c (sbind m k) s R.
Proof. intros Hm Hk H2 Hc. eapply spends_weaken; [by eapply spends_bind|done|done]. Qed.

Lemma spends_now {A} c (m : ST S A) s a s' (Q : A -> S -> Prop) : m s = (Ok a, s') -> usage s' <= usage s + c -> Q a s' ->
  spends c m s Q.
Proof. intros. right. by exists a, s'. Qed.

Lemma spends_ok {A} c (m : ST S A) s Q a s' : spends c m s Q -> m s = (Ok a, s') -> Q a s'.
Proof. intros [(s1 & Hm & _)|(b & s1 & Hm & _ & HQ)] H; rewrite Hm in H; [done|]. by injection H as <- <-. Qed.

(** Below the capacity it is a success. *)
Lemma spends_fits {A} c (m : ST S A) s Q : spends c m s Q -> usage s + c <= CAPACITY ->
  exists a s', m s = (Ok a, s') /\ usage s' <= usage s + c /\ Q a s'.
Proof. intros [(s' & _ & Hf)|H] Hc; [lia|done]. Qed.
End Spending.
End Spending.

Module TermStreams.
Import Spending.
Section Streams.
Context {PA : Type} {PAi : PostingsArray PA} {PS : PostingsSpec PA} (seed : Z).
Implicit Types (f : @TermsHashPerField.t PA) (s : @TermsHashPerField.state PA) (pa : PA).

Abbreviation dict := (BytesRefDictionary.Rep seed).

(** No stream owns a byte of a term's text. *)
Definition apart (gs : list (list ghost)) (start : Z) (t : list Z) : Prop := forall j i x a,
  gat gs j i = Some x -> owned 0 (g_st x) a -> ~ (start <= a < start + Z.of_nat (length (enc t))).

(** The field holds the terms [ts], the first of which have the streams [gs]. *)
Record FRep (s : @TermsHashPerField.state PA) (pa : PA) (ts : list (list Z)) (gs : list (list ghost)) : Prop := {
  fr_postings : postings (per_field s) = Some pa;
  fr_ok : pa_ok pa;
  fr_streams : SRep (stream_count (per_field s)) (get_rows pa) (int_pool s) (byte_pool s) gs;
  fr_dict : dict (bytes_hash (per_field s)) (byte_pool s) ts;
  fr_len : (length gs <= length ts <= length (get_rows pa))%nat;
  fr_count : 1 <= stream_count (per_field s) <= 3276;
  fr_texts i t row : ts !! i = Some t -> get_rows pa !! i = Some row ->
    stored (byte_pool s) (text_start row) t /\ apart gs (text_start row) t }.

(** The bytes of the streams, row by row. *)
Definition contents (gs : list (list ghost)) : list (list (list Z)) := map (map g_data) gs.

Lemma ready_postings pa o : pa_ok pa ->
  ready (PostingsBytesStartArray.mk (Some pa) o) (text_start <$> get_rows pa).
Proof. intros H. by exists pa. Qed.

Lemma texts_stored bp pa ts (P : Z -> list Z -> Prop) : (length ts <= length (get_rows pa))%nat ->
  (forall i t row, ts !! i = Some t -> get_rows pa !! i = Some row -> stored bp (text_start row) t /\ P (text_start row) t) ->
  forall (i : nat) t, ts !! i = Some t -> exists v, (text_start <$> get_rows pa) !! i = Some v /\ stored bp v t.
Proof.
  intros Hl H i t Hi. pose proof (lookup_lt_Some _ _ _ Hi). destruct (lookup_lt_is_Some_2 (get_rows pa) i) as [row Hrow]; [lia|].
  exists (text_start row). rewrite list_lookup_fmap, Hrow. split; [done|]. by eapply H.
Qed.

(** The postings array is replaced by one with the same rows. *)
Lemma fr_with_postings s pa pa' ts gs bp : FRep s pa ts gs -> pa_ok pa' -> WF bp -> position (byte_pool s) <= position bp ->
  (length ts <= length (get_rows pa'))%nat ->
  (forall i t row, ts !! i = Some t -> get_rows pa' !! i = Some row -> stored bp (text_start row) t) ->
  dict (bytes_hash (TermsHashPerField.with_postings (per_field s) pa')) bp ts.
Proof using PS.
  intros [F1 F2 F3 F4 F5 F6 F7] Hok Hw Hpos Hl Ht.
  unfold TermsHashPerField.with_postings, with_hash, PostingsBytesStartArray.with_postings. cbn [bytes_hash].
  eapply dict_frame; [exact F4|done|done|by apply ready_postings|by rewrite length_fmap|].
  apply (texts_stored bp pa' ts (fun _ _ => True)); [done|]. intros i t row H1 H2. split; [|done]. by eapply Ht.
Qed.

Lemma with_own_postings f pa : postings f = Some pa -> TermsHashPerField.with_postings f pa = f.
Proof.
  unfold postings, TermsHashPerField.with_postings, PostingsBytesStartArray.with_postings, with_hash, BytesRefHash.with_array.
  destruct f as [x y z h d]. cbn. destruct h as [? ? ? ? ? ? [pa' o] ?]. cbn. by intros ->.
Qed.

(** ** Writing to the streams of the current term *)

Lemma apart_upd gs t i x x' start u : gat gs t i = Some x -> apart gs start u ->
  (forall a, owned 0 (g_st x') a -> owned 0 (g_st x) a \/ start + Z.of_nat (length (enc u)) <= a) -> apart (upd gs t i x') start u.
Proof.
  intros Hx Ha Hn j i2 y a Hy Ho. rewrite (gat_upd _ _ _ _ _ _ _ Hx) in Hy. case_decide.
  - injection Hy as <-. destruct (Hn a Ho) as [Ho'|Hge]; [by apply (Ha t i x)|lia].
  - by apply (Ha j i2 y).
Qed.

(** A write of [bs] to stream [i] of term [t], the term the field stands at. *)
Lemma fr_write s pa ts gs t i x row ip' bp' x' bs : FRep s pa ts gs -> gat gs t i = Some x ->
  SRep (stream_count (per_field s)) (get_rows pa) ip' bp' (upd gs t i x') -> g_data x' = g_data x ++ bs ->
  grows (owned 0 (g_st x)) (byte_pool s) bp' ->
  (forall a, owned 0 (g_st x') a -> owned 0 (g_st x) a \/ position (byte_pool s) <= a) ->
  get_rows pa !! t = Some row ->
  FRep (mk_state (per_field s) ip' bp') pa ts (upd gs t i x').
Proof using PS.
  intros F Hx R Hd Hg Hn Hrow. pose proof F as [F1 F2 F3 F4 F5 F6 F7]. pose proof (clean_wf _ (sr_clean _ _ _ _ _ F3)) as Hw.
  assert (Hst : forall j u r, ts !! j = Some u -> get_rows pa !! j = Some r -> stored bp' (text_start r) u).
  { intros j u r Hu Hr. destruct (F7 j u r Hu Hr) as [Hs Ha]. apply (stored_frame _ _ _ _ _ Hw Hg); [|done].
    intros a Har Ho. by apply (Ha t i x a Hx Ho). }
  constructor; cbn [per_field int_pool byte_pool]; try done.
  - pose proof (fr_with_postings s pa pa ts gs bp' F F2 (clean_wf _ (grows_clean _ _ _ Hg)) (grows_pos _ _ _ Hg) ltac:(lia) Hst) as Hdict.
    by rewrite with_own_postings in Hdict.
  - by rewrite upd_length.
  - intros j u r Hu Hr. split; [by eapply Hst|]. destruct (F7 j u r Hu Hr) as [Hs Ha]. apply (apart_upd _ _ _ x); [done..|].
    intros a Ho. destruct (Hn a Ho) as [?|?]; [by left|right]. apply (stored_seg _ _ _ Hw) in Hs. lia.
Qed.

Lemma contents_upd gs t i x x' : gat gs t i = Some x ->
  contents (upd gs t i x') = alter (fun r => <[i := g_data x']> r) t (contents gs).
Proof.
  intros (g & Hg & Hx)%bind_Some. unfold contents, upd. apply list_eq. intros j. rewrite list_lookup_fmap.
  destruct (decide (j = t)) as [->|Hne].
  - rewrite !list_lookup_alter_eq, list_lookup_fmap, Hg. cbn. by rewrite list_fmap_insert.
  - rewrite !list_lookup_alter_ne, list_lookup_fmap by done. done.
Qed.

(** What is written to a stream of the current term is appended to it. *)
Definition appends_to (m : ST pools unit) (t i : nat) (bs : list Z) s pa ts gs : Prop :=
  (exists q, m (int_pool s, byte_pool s) = (Err NumberOverflow, q) /\ LIMIT < position (byte_pool s) + cost bs) \/
  exists ip' bp' gs', m (int_pool s, byte_pool s) = (Ok tt, (ip', bp')) /\
    FRep (mk_state (per_field s) ip' bp') pa ts gs' /\
    contents gs' = alter (fun r => alter (fun d => d ++ bs) i r) t (contents gs) /\
    ipos ip' = ipos (int_pool s) /\ position bp' <= position (byte_pool s) + cost bs.

Lemma gat_contents gs t i : gat gs t i <> None <-> (exists r d, contents gs !! t = Some r /\ r !! i = Some d).
Proof.
  unfold gat, contents. split.
  - intros H. destruct (gs !! t) as [g|] eqn:E; [|done]. cbn in H. destruct (g !! i) as [x|] eqn:Ex; [|done].
    exists (map g_data g), (g_data x). rewrite !list_lookup_fmap, E, Ex. done.
  - intros (r & d & Hr & Hd). rewrite list_lookup_fmap in Hr. destruct (gs !! t) as [g|]; [|done]. injection Hr as <-.
    rewrite list_lookup_fmap in Hd. cbn. by destruct (g !! i).
Qed.

Lemma write_field s pa ts gs t i row m bs : FRep s pa ts gs -> gat gs t i <> None -> get_rows pa !! t = Some row ->
  current (per_field s) (address_offset row) -> writes m bs ->
  appends_to (on_stream (per_field s) (Z.of_nat i) m) t i bs s pa ts gs.
Proof using PS.
  intros F Hx Hrow Hcur Hm. destruct (gat gs t i) as [x|] eqn:Ex; [|done]. pose proof (fr_streams _ _ _ _ F) as R.
  destruct (on_stream_writes (per_field s) m bs _ _ _ _ gs t i x row Hm R Ex Hrow Hcur)
    as [(q & He & HL)|(ip' & bp' & x' & He & R' & Hd & Hip & Hg & Hn & Hp)]; [left; by exists q|].
  right. exists ip', bp', (upd gs t i x'). split_and!; try done.
  - by eapply (fr_write s pa ts gs t i x row).
  - rewrite (contents_upd _ _ _ _ _ Ex). unfold contents. apply list_eq. intros j. destruct (decide (j = t)) as [->|].
    + rewrite !list_lookup_alter_eq. unfold gat in Ex. rewrite list_lookup_fmap. destruct (gs !! t) as [g|]; [|done]. cbn in *. f_equal.
      apply list_eq. intros l. destruct (decide (l = i)) as [->|].
      * rewrite list_lookup_alter_eq, list_lookup_fmap, Ex. cbn. rewrite list_lookup_insert_eq; [by rewrite Hd|].
        rewrite length_map. by eapply lookup_lt_Some.
      * by rewrite list_lookup_alter_ne, list_lookup_insert_ne.
    + by rewrite !list_lookup_alter_ne.
Qed.

(** ** Terms *)

(** The rows of the terms that have streams are what they were, and the other arrays
    are kept. *)
Definition same_rows (n : nat) (pa pa' : PA) : Prop := keeps pa pa' /\
  forall t row, (t < n)%nat -> get_rows pa !! t = Some row -> get_rows pa' !! t = Some row.

#[local] Instance same_rows_order n : PreOrder (same_rows n).
Proof using PS.
  split; [by split|]. intros p1 p2 p3 [K1 H1] [K2 H2]. split; [by etrans|]. intros t row Ht Hr. auto.
Qed.

(** A term met before: the hash knows its id and nothing changes. *)
Lemma add_known s pa ts gs b (i : nat) : FRep s pa ts gs -> BytesRef.valid b -> Forall (in_u 8) (BytesRef.contents b) ->
  BytesRef.length_ b < 2 ^ 30 -> ts !! i = Some (BytesRef.contents b) ->
  on_hash (BytesRefHash.add seed b) s = (Ok (- (Z.of_nat i + 1)), s).
Proof using PS.
  intros F Hb Hb8 Hl Hi. unfold on_hash. rewrite (BytesRefDictionary.add_old seed _ _ _ b i (fr_dict _ _ _ _ F) Hb Hb8 Hl Hi).
  by destruct s as [[]].
Qed.

(** The array relation that [BytesRefHash.add] keeps. *)
Definition array_rel (n : nat) (a a' : PostingsBytesStartArray.t PA) : Prop :=
  forall pa, PostingsBytesStartArray.postings_array a = Some pa -> pa_ok pa ->
    exists pa', PostingsBytesStartArray.postings_array a' = Some pa' /\ pa_ok pa' /\ same_rows n pa pa'.

#[local] Instance array_rel_order n : PreOrder (array_rel n).
Proof using PS.
  split.
  - intros a pa H1 H2. exists pa. split_and!; [done..|reflexivity].
  - intros a1 a2 a3 H1 H2 pa Hp Hok. destruct (H1 pa Hp Hok) as (p2 & Hp2 & Hok2 & S1).
    destruct (H2 p2 Hp2 Hok2) as (p3 & Hp3 & Hok3 & S2). exists p3. split_and!; [done..|by etrans].
Qed.

Lemma array_rel_grow n a a' : grow a = (Ok tt, a') -> array_rel n a a'.
Proof using PS.
  cbn. unfold PostingsBytesStartArray.grow_. intros Hg pa Hpa Hok. rewrite Hpa in Hg.
  destruct (grow_postings pa) as [r pa'] eqn:E. injection Hg as -> <-. exists pa'. split; [done|].
  unfold grow_postings in E. rewrite sget_sbind, slift_sbind in E. pose proof (pa_size pa Hok) as Hs. pose proof (pa_bytes pa Hok) as Hb.
  destruct (ArrayUtil.oversize _ _) as [m| | |] eqn:Eo; try done.
  assert (Z.of_nat (length (get_rows pa)) <= m).
  { rewrite Hs in Eo.
    assert (Hm : Z.of_nat (length (get_rows pa)) + 1 <= ArrayUtil.max_array_length (bytes_per_posting pa)).
    { unfold ArrayUtil.oversize in Eo. rewrite (proj2 (Z.eqb_neq _ _)) in Eo by lia. destruct (Z.ltb_spec (ArrayUtil.max_array_length (bytes_per_posting pa)) (Z.of_nat (length (get_rows pa)) + 1)); [done|lia]. }
    unfold ArrayUtil.oversize in Eo. rewrite (proj2 (Z.eqb_neq _ _)) in Eo by lia. rewrite (proj2 (Z.ltb_ge _ _)) in Eo by lia.
    injection Eo as <-. pose proof (ArrayUtil.max_array_length_le (bytes_per_posting pa)).
    assert (0 <= Z.shiftr (Z.of_nat (length (get_rows pa)) + 1) 3) by (apply Z.shiftr_nonneg; lia).
    destruct (_ <? 3); destruct (_ <? _); lia. }
  destruct (pa_copy pa m Hok) as (p2 & Hc & H1 & H2 & H3); [done|]. rewrite Hc in E. injection E as <-.
  split; [done|]. split; [done|]. intros t row Ht Hr. rewrite H3. by apply lookup_app_l_Some.
Qed.

Lemma array_rel_set (n : nat) i v a a' : i = Z.of_nat n -> set_value i v a = (Ok tt, a') -> array_rel n a a'.
Proof using PS.
  cbn. unfold PostingsBytesStartArray.set_value_. intros -> Hs pa Hpa Hok. rewrite Hpa in Hs.
  destruct (_ <=? _) eqn:El; [done|]. apply Z.leb_gt in El.
  destruct (lookup_lt_is_Some_2 (get_rows pa) n) as [r Hr]; [lia|]. unfold set_text_starts in Hs.
  destruct (update_row_ok (fun r => mk_row v (address_offset r) (byte_start r)) n pa r Hok Hr) as (p' & Hu & H1 & H2 & H3).
  rewrite Hu in Hs. injection Hs as <-. exists p'. split_and!; try done. split; [done|]. intros t row Ht Hrow. rewrite H3.
  by rewrite list_lookup_insert_ne by lia.
Qed.

Lemma set_start_row (n : nat) v a a' : set_value (Z.of_nat n) v a = (Ok tt, a') ->
  (forall q, PostingsBytesStartArray.postings_array a = Some q -> pa_ok q) ->
  forall q, PostingsBytesStartArray.postings_array a' = Some q -> exists row, get_rows q !! n = Some row /\ text_start row = v.
Proof using PS.
  cbn. unfold PostingsBytesStartArray.set_value_. intros Hs Hok q Hq. destruct (PostingsBytesStartArray.postings_array a) as [pa|]; [|done].
  destruct (_ <=? _) eqn:El; [done|]. apply Z.leb_gt in El.
  destruct (lookup_lt_is_Some_2 (get_rows pa) n) as [r Hr]; [lia|]. unfold set_text_starts in Hs.
  destruct (update_row_ok (fun r => mk_row v (address_offset r) (byte_start r)) n pa r (Hok pa eq_refl) Hr) as (p' & Hu & H1 & H2 & H3).
  rewrite Hu in Hs. injection Hs as <-. injection Hq as <-. rewrite H3. eexists. split; [apply list_lookup_insert_eq; lia|done].
Qed.

(** A new term: it gets the next id, its text goes to the pool, and it has no streams yet. *)
Lemma add_fresh s pa ts gs b : FRep s pa ts gs -> BytesRef.valid b -> Forall (in_u 8) (BytesRef.contents b) ->
  let t := BytesRef.contents b in t ∉ ts -> Z.of_nat (length t) <= BYTE_BLOCK_SIZE - 2 ->
  ~ full (byte_pool s) (2 + Z.of_nat (length t)) ->
  exists s' pa', on_hash (BytesRefHash.add seed b) s = (Ok (Z.of_nat (length ts)), s') /\ FRep s' pa' (ts ++ [t]) gs /\
    same_rows (length ts) pa pa' /\ int_pool s' = int_pool s /\ stream_count (per_field s') = stream_count (per_field s) /\
    last_doc_id (per_field s') = last_doc_id (per_field s) /\
    position (byte_pool s') <= position (byte_pool s) + 2 * (2 + Z.of_nat (length t)).
Proof using PS.
  intros F Hb Hb8 t Hn Hl Hfull. pose proof F as [F1 F2 F3 F4 F5 F6 F7]. destruct s as [f ip bp]. cbn [per_field int_pool byte_pool] in *.
  pose proof (sr_clean _ _ _ _ _ F3) as Hc.
  assert (Hfd : ~ BytesRefDictionary.full bp t) by (intros [H1 H2]; apply Hfull; split; lia).
  destruct (BytesRefDictionary.add_new_fits seed _ _ _ b F4 Hb Hb8 Hn Hl Hfd) as (h' & bp' & Hadd & Hrep & _).
  destruct (add_term_ok bp b Hc Hb Hb8 Hl Hfull) as (start & bp2 & Hat & Hg & Hstart & Hst & Hpos).
  pose proof (BytesRefDictionary.rep_hash _ _ _ _ F4) as (k0 & vs0 & Hh0 & _). pose proof (BytesRefDictionary.ok_count _ _ _ _ Hh0) as Hcnt. rewrite length_map in Hcnt.
  pose proof (AddEffect.add_ends seed (bytes_hash f) bp (array_rel (length ts)) (array_rel_grow _)
    (fun v a a' => array_rel_set (length ts) _ v a a' Hcnt) b) as Harr.
  unfold ends in Harr. rewrite Hadd in Harr. cbn [fst] in Harr. destruct (Harr pa F1 F2) as (pa' & Hpa' & Hok' & Hsame).
  assert (bp' = bp2 /\ exists row, get_rows pa' !! length ts = Some row /\ text_start row = start) as [-> (row & Hrow & Htext)].
  { destruct (BytesRefDictionary.add_new seed _ _ _ b F4 Hb Hb8 ltac:(rewrite <- (BytesRef.contents_length b Hb); fold t; pose proof block_size_val; lia) Hn)
      as (k & vs & a' & d & Heq & _ & Hh' & _). rewrite Hadd in Heq. unfold sbind at 1 in Heq.
    rewrite BytesRefDictionary.on_pool_eq, Hat in Heq. cbn iota beta in Heq.
    match type of Heq with _ = ?m ?st => pose proof (AddEffect.enter_post seed start (Table.slot_at k (BytesRefDictionary.key_code seed t) d)
      (as_i32 (BytesRefHash.count (BytesRefHash.with_array (bytes_hash f) a'))) (BytesRefHash.with_array (bytes_hash f) a') bp2
      (fun a => forall q, PostingsBytesStartArray.postings_array a = Some q -> exists row, get_rows q !! length ts = Some row /\ text_start row = start)) as He end.
    unfold ends in He. fold t in Heq. rewrite <- Heq in He. cbn [fst snd] in He. destruct He as [HQ Hp]; [|split; [done|by apply HQ]].
    cbn [BytesRefHash.with_array BytesRefHash.count BytesRefHash.bytes_start_array]. rewrite Hcnt. intros a2 Hset. apply (set_start_row (length ts) start a' a2 Hset).
    destruct (BytesRefDictionary.ok_array _ _ _ _ Hh') as (q & Hq & Hqok & _). cbn in Hq. intros q' Hq'. congruence. }
  exists (mk_state (with_hash f h') ip bp2), pa'. unfold on_hash. cbn [per_field byte_pool]. rewrite Hadd. split; [done|].
  destruct Hsame as [Hk Hrows]. pose proof (BytesRefDictionary.rep_hash _ _ _ _ Hrep) as (k & vs & Hh & Hs).
  pose proof (BytesRefDictionary.ok_array _ _ _ _ Hh) as (pa2 & Hpa2 & _ & Hvs). rewrite Hpa' in Hpa2. injection Hpa2 as <-.
  pose proof (BytesRefDictionary.ok_room _ _ _ _ Hh) as Hroom. rewrite length_map, <- Hvs, length_fmap in Hroom.
  pose proof (clean_wf _ Hc) as Hw. rewrite length_app in Hroom. cbn [length] in Hroom.
  split; [|split_and!; try done].
  assert (Hrow_old : forall j r, (j < length ts)%nat -> get_rows pa' !! j = Some r -> get_rows pa !! j = Some r).
  { intros j r Hj Hr. destruct (lookup_lt_is_Some_2 (get_rows pa) j) as [r0 Hr0]; [lia|]. rewrite (Hrows j r0 Hj Hr0) in Hr. congruence. }
  constructor; cbn [per_field int_pool byte_pool with_hash stream_count bytes_hash]; try done.
  - eapply sr_rows_mono; [by eapply sr_frame|lia|]. intros j r Hj Hr. exists r. split_and!; try done. apply Hrow_old; [lia|done].
  - rewrite length_app. cbn [length]. lia.
  - intros j u r [[Hj Hu]|[-> <-]]%lookup_snoc_Some Hr.
    + apply Hrow_old in Hr; [|done]. destruct (F7 j u r Hu Hr) as [Hsj Ha]. split; [|done].
      apply (stored_frame _ _ _ _ _ Hw Hg); [by intros a _ []|done].
    + destruct (Hs (length ts) t) as (v & Hv & Hsv); [by apply lookup_snoc_Some; right|].
      rewrite <- Hvs, list_lookup_fmap, Hr in Hv. injection Hv as <-. split; [done|].
      rewrite Hrow in Hr. injection Hr as <-. rewrite Htext. intros j i x a Hx Ho Ha.
      destruct (sr_row _ _ _ _ _ j i x F3 Hx) as (r & Hr & _). destruct (sr_stream _ _ _ _ _ F3 j i x r Hx Hr) as ((kk & _ & Hbelow & _) & _).
      specialize (Hbelow a Ho). lia.
Qed.

Lemma on_ints_ok {A} (m : ST IntBlockPool.t A) f ip bp r ip' : m ip = (r, ip') ->
  on_ints m (mk_state f ip bp) = (r, mk_state f ip' bp).
Proof. intros H. unfold on_ints. cbn. by rewrite H. Qed.

Lemma on_postings_ok g f ip bp pa pa' : postings f = Some pa -> g pa = Ok pa' ->
  on_postings g (mk_state f ip bp) = (Ok tt, mk_state (TermsHashPerField.with_postings f pa') ip bp).
Proof.
  intros H1 H2. unfold on_postings. rewrite sget_sbind, slift_sbind. cbn [per_field]. unfold postings_or_error. rewrite H1, slift_sbind, H2. done.
Qed.

(** Both checks for room at the start of [init_stream_slices]. *)
Lemma stream_room_ok f ip bp n : Clean bp -> IWF ip -> 1 <= n <= 3276 -> forall (kk : state -> ST state unit),
  let m := (let* _ := (if INT_BLOCK_SIZE <? n + IntBlockPool.int_upto ip then on_ints IntBlockPool.next_buffer else sret tt) in
            let* _ := (if BYTE_BLOCK_SIZE - byte_upto bp <? 2 * n * ByteSlicePool.FIRST_LEVEL_SIZE then
               let* _ := TermsHashPerField.on_pool next_buffer in sret tt else sret tt) in
            let* s := sget in kk s) in
  (exists s', m (mk_state f ip bp) = (Err NumberOverflow, s') /\ (2 ^ 31 - INT_BLOCK_SIZE <= ipos ip + n \/ 2 ^ 31 <= position bp + 10 * n)) \/
  exists ip1 bp1, m (mk_state f ip bp) = kk (mk_state f ip1 bp1) (mk_state f ip1 bp1) /\
    grows (fun _ => False) bp bp1 /\ roomy bp1 (10 * n) /\ position bp1 < position bp + 10 * n /\ IWF ip1 /\
    ipos ip <= ipos ip1 < ipos ip + n /\
    (exists u, IntBlockPool.buffer_upto ip1 = Some u /\ ipos ip1 = u * INT_BLOCK_SIZE + IntBlockPool.int_upto ip1 /\
      IntBlockPool.int_offset ip1 = u * INT_BLOCK_SIZE /\ IntBlockPool.int_upto ip1 + n <= INT_BLOCK_SIZE /\ u + 1 = Z.of_nat (length (IntBlockPool.buffers ip1))) /\
    forall x, 0 <= x < ipos ip -> cell ip1 x = cell ip x.
Proof.
  intros Hc Hi Hn kk m. pose proof block_size_val as HB. pose proof int_size_val as HI.
  destruct (int_room_ok ip n Hi ltac:(lia)) as [(ip' & He & Hl)|(ip1 & He & Hi1 & Hp1 & Hu & Hcell)].
  { left. exists (mk_state f ip' bp). split; [|by left]. unfold m, sbind at 1.
    destruct (_ <? _); [by rewrite (on_ints_ok _ f ip bp _ _ He)|discriminate He]. }
  assert (E1 : (if INT_BLOCK_SIZE <? n + IntBlockPool.int_upto ip then on_ints IntBlockPool.next_buffer else sret tt) (mk_state f ip bp)
    = (Ok tt, mk_state f ip1 bp)).
  { destruct (_ <? _); [by rewrite (on_ints_ok _ f ip bp _ _ He)|by injection He as ->]. }
  pose proof (make_room_ok bp (10 * n) Hc ltac:(lia)) as Hm.
  assert (E2 : forall r bp', ByteSlicePool.make_room (10 * n) bp = (r, bp') ->
    (if BYTE_BLOCK_SIZE - byte_upto bp <? 2 * n * ByteSlicePool.FIRST_LEVEL_SIZE then
       let* _ := TermsHashPerField.on_pool next_buffer in sret tt else sret tt) (mk_state f ip1 bp) = (r, mk_state f ip1 bp')).
  { intros r bp'. unfold ByteSlicePool.make_room, ByteSlicePool.FIRST_LEVEL_SIZE. rewrite sget_sbind.
    destruct (Z.ltb_spec (BYTE_BLOCK_SIZE - 10 * n) (byte_upto bp)), (Z.ltb_spec (BYTE_BLOCK_SIZE - byte_upto bp) (2 * n * 5)); try lia;
      unfold sbind, sret, TermsHashPerField.on_pool; cbn [byte_pool per_field int_pool]; [|by intros [= <- <-]].
    destruct (next_buffer bp) as [[] q]; by intros [= <- <-]. }
  unfold m. rewrite (sbind_ok _ _ _ _ _ E1). case_decide as Hfull.
  - destruct Hm as (bp' & Hm). left. exists (mk_state f ip1 bp'). split; [|right; destruct Hfull; unfold position, i32_MAX in *; lia].
    unfold sbind at 1. by rewrite (E2 _ _ Hm).
  - destruct Hm as (bp1 & Hm & Hg & Hr & Hnear). right. exists ip1, bp1.
    rewrite (sbind_ok _ _ _ _ _ (E2 _ _ Hm)), sget_sbind. do 4 (split; [done|]). done.
Qed.

(** The state of the field after its new row is in place. *)
Lemma fr_snoc s pa ts gs pa' row f' ip' bp1 bp' a : FRep s pa ts gs -> get_rows pa !! length gs = Some row ->
  (length gs < length ts)%nat -> pa_ok pa' -> keeps pa pa' -> grows (fun _ => False) (byte_pool s) bp1 -> grows (fun _ => False) bp1 bp' ->
  get_rows pa' = <[length gs := mk_row (text_start row) a (position bp1)]> (get_rows pa) ->
  SRep (stream_count (per_field s)) (get_rows pa') ip' bp' (gs ++ [fresh_row (position bp1) (Z.to_nat (stream_count (per_field s)))]) ->
  stream_count f' = stream_count (per_field s) -> bytes_hash f' = bytes_hash (TermsHashPerField.with_postings (per_field s) pa') ->
  FRep (mk_state f' ip' bp') pa' ts (gs ++ [fresh_row (position bp1) (Z.to_nat (stream_count (per_field s)))]) /\ same_rows (length gs) pa pa'.
Proof using PS.
  intros F Hrow Hlt Hok Hk Hg1 Hg2 Hrows R Hsc Hh. pose proof F as [F1 F2 F3 F4 F5 F6 F7]. pose proof (clean_wf _ (sr_clean _ _ _ _ _ F3)) as Hw.
  assert (Hg : grows (fun _ => False) (byte_pool s) bp') by (by apply (grows_trans _ _ _ _ _ Hg1 Hg2)).
  assert (Htext : forall j u r, ts !! j = Some u -> get_rows pa' !! j = Some r -> exists r0, get_rows pa !! j = Some r0 /\ text_start r0 = text_start r).
  { intros j u r Hu Hr. rewrite Hrows in Hr. destruct (decide (j = length gs)) as [->|].
    - rewrite list_lookup_insert_eq in Hr by (by eapply lookup_lt_Some). injection Hr as <-. by exists row.
    - rewrite list_lookup_insert_ne in Hr by done. by exists r. }
  assert (Hst : forall j u r, ts !! j = Some u -> get_rows pa' !! j = Some r -> stored bp' (text_start r) u).
  { intros j u r Hu Hr. destruct (Htext j u r Hu Hr) as (r0 & Hr0 & <-). destruct (F7 j u r0 Hu Hr0) as [Hs _].
    apply (stored_frame _ _ _ _ _ Hw Hg); [by intros x _ []|done]. }
  assert (Hl : length (get_rows pa') = length (get_rows pa)) by (rewrite Hrows; apply length_insert).
  split.
  - constructor; cbn [per_field int_pool byte_pool]; try done; rewrite ?Hsc; try done.
    + unfold postings. rewrite Hh. done.
    + rewrite Hh. apply (fr_with_postings s pa pa' ts gs bp' F Hok); [apply (grows_clean _ _ _ Hg)|apply (grows_pos _ _ _ Hg)|lia|done].
    + rewrite length_app. cbn. lia.
    + intros j u r Hu Hr. split; [by eapply Hst|]. destruct (Htext j u r Hu Hr) as (r0 & Hr0 & <-).
      destruct (F7 j u r0 Hu Hr0) as [Hs Ha]. intros j2 i2 x y Hx Ho Hy. apply gat_snoc in Hx as [[Hx _]|[_ Hx]]; [by apply (Ha j2 i2 x y)|].
      unfold fresh_row in Hx. apply list_lookup_fmap_Some in Hx as (m & -> & _). cbn in Ho. change (lsize 0) with 5 in Ho.
      apply (stored_seg _ _ _ Hw) in Hs. pose proof (grows_pos _ _ _ Hg1). destruct Ho as [Ho|[]]. lia.
  - split; [done|]. intros j r Hj Hr. rewrite Hrows. by rewrite list_lookup_insert_ne by lia.
Qed.

Lemma fresh_contents start n : map g_data (fresh_row start n) = replicate n [].
Proof.
  apply list_eq. intros i. unfold fresh_row. rewrite !list_lookup_fmap. destruct (decide (i < n)%nat).
  - rewrite lookup_seq_lt by done. by rewrite lookup_replicate_2.
  - rewrite lookup_seq_ge by lia. symmetry. apply lookup_replicate_None. lia.
Qed.

Lemma init_streams_ok s pa ts gs : FRep s pa ts gs -> (length gs < length ts)%nat ->
  let n := stream_count (per_field s) in
  (exists s', init_stream_slices (Z.of_nat (length gs)) s = (Err NumberOverflow, s') /\
     (2 ^ 31 - INT_BLOCK_SIZE <= ipos (int_pool s) + n \/ 2 ^ 31 <= position (byte_pool s) + 10 * n)) \/
  exists s' pa' gs', init_stream_slices (Z.of_nat (length gs)) s = (Ok tt, s') /\ FRep s' pa' ts gs' /\
    contents gs' = contents gs ++ [replicate (Z.to_nat n) []] /\ same_rows (length gs) pa pa' /\
    stream_count (per_field s') = n /\ last_doc_id (per_field s') = last_doc_id (per_field s) /\
    (exists row, get_rows pa' !! length gs = Some row /\ current (per_field s') (address_offset row)) /\
    position (byte_pool s') <= position (byte_pool s) + 15 * n /\ ipos (int_pool s') <= ipos (int_pool s) + 2 * n.
Proof using PS.
  intros F Hlt n. pose proof F as [F1 F2 F3 F4 F5 F6 F7]. destruct s as [f ip bp]. cbn [per_field int_pool byte_pool] in *. fold n in F6, F3.
  destruct (lookup_lt_is_Some_2 (get_rows pa) (length gs)) as [row Hrow]; [lia|].
  unfold init_stream_slices. rewrite sget_sbind. cbn [per_field int_pool byte_pool]. fold n.
  match goal with |- context [sbind sget ?kk] =>
    destruct (stream_room_ok f ip bp n (sr_clean _ _ _ _ _ F3) (sr_ints _ _ _ _ _ F3) F6 kk)
      as [(s' & -> & Hl)|(ip1 & bp1 & -> & Hg1 & Hr1 & Hn1 & Hi1 & Hip1 & (u & Hu & Hpu & Hou & Hfu & Hlu) & Hc1)] end;
    [left; by exists s'|right].
  cbn [per_field int_pool byte_pool]. rewrite slift_sbind, Hu, sput_sbind. pose proof int_size_val as HI. pose proof block_size_val as HB.
  set (a := ipos ip1) in *. pose proof (ipos_bound _ Hi1) as [Hpos1 Hmax1]. fold a in Hpos1, Hmax1.
  pose proof (iwf_shape _ Hi1) as Hs1. rewrite Hu in Hs1.
  assert (Hdm : a / INT_BLOCK_SIZE = u /\ a mod INT_BLOCK_SIZE = IntBlockPool.int_upto ip1).
  { split; symmetry; [apply Z.div_unique with (IntBlockPool.int_upto ip1)|apply Z.mod_unique with u]; lia. }
  destruct Hdm as [Hdiv Hmod]. rewrite slift_sbind. replace (IntBlockPool.int_upto ip1 + IntBlockPool.int_offset ip1) with a by (unfold a, ipos; lia).
  rewrite exact_i32_ok by (split; [lia|rewrite HI in *; lia]).
  destruct (update_row_ok (fun r => mk_row (text_start r) a (byte_start r)) (length gs) pa row F2 Hrow) as (pa1 & Hu1 & Hok1 & Hk1 & Hrows1).
  rewrite (sbind_ok _ _ _ _ _ (on_postings_ok (set_address_offset (Z.of_nat (length gs)) a)
    (with_stream f u (IntBlockPool.int_upto ip1)) (IntBlockPool.with_int_upto ip1 (IntBlockPool.int_upto ip1 + n)) bp1 pa pa1 F1 Hu1)).
  set (f1 := TermsHashPerField.with_postings (with_stream f u (IntBlockPool.int_upto ip1)) pa1).
  set (ip2 := IntBlockPool.with_int_upto ip1 (IntBlockPool.int_upto ip1 + n)).
  assert (Hi2 : IWF ip2). { destruct Hi1 as [A1 A2 A3]. constructor; cbn; [done..|]. rewrite Hu in *. lia. }
  assert (Hip2 : ipos ip2 = a + n) by (unfold a, ipos, ip2; cbn; lia).
  pose proof Hr1 as (ub & _ & Hbfit & _ & _ & _).
  destruct (new_slices_ok (Z.to_nat n) f1 ip2 bp1 a 0 (grows_clean _ _ _ Hg1) Hi2) as (ip3 & bp2 & Hrun & Hg2 & Hp2 & Hi3 & Hip3 & Hj & Hx);
    [by split|lia|lia|lia|cbn; lia|lia|].
  rewrite (sbind_ok _ _ _ _ _ Hrun), sget_sbind. cbn [int_pool per_field].
  destruct (Hj 0%nat ltac:(lia)) as [Hcell0 _]. change (Z.of_nat 0) with 0 in Hcell0. rewrite Z.mul_0_r, !Z.add_0_r in Hcell0.
  rewrite slift_sbind, <- Hdiv, <- Hmod, (get_cell_ok ip3 a _ ltac:(lia) Hcell0).
  destruct (update_row_ok (fun r => mk_row (text_start r) (address_offset r) (position bp1)) (length gs) pa1 (mk_row (text_start row) a (byte_start row)) Hok1)
    as (pa2 & Hu2 & Hok2 & Hk2 & Hrows2); [rewrite Hrows1; apply list_lookup_insert_eq; by eapply lookup_lt_Some|].
  rewrite (on_postings_ok (set_byte_starts (Z.of_nat (length gs)) (position bp1)) f1 ip3 bp2 pa1 pa2 eq_refl Hu2).
  rewrite Hrows1, list_insert_insert_eq in Hrows2. cbn [text_start address_offset] in Hrows2.
  assert (R : SRep n (get_rows pa2) ip3 bp2 (gs ++ [fresh_row (position bp1) (Z.to_nat n)])).
  { eapply (sr_snoc n (get_rows pa) ip bp1 ip3 bp2 gs a row); try done; [by eapply sr_frame|lia|lia|lia|lia|..].
    - intros j Hjn. specialize (Hj j Hjn). by rewrite Z.add_0_r in Hj.
    - intros x Hx0. rewrite Hx by lia. unfold ip2. change (cell (IntBlockPool.with_int_upto ip1 _) x) with (cell ip1 x). apply Hc1. lia. }
  destruct (fr_snoc (mk_state f ip bp) pa ts gs pa2 row (TermsHashPerField.with_postings f1 pa2) ip3 bp1 bp2 a F Hrow Hlt Hok2) as [F' Hsame]; try done.
  { by etrans. }
  eexists _, pa2, _. split; [done|]. split; [exact F'|]. cbn [per_field int_pool byte_pool]. split_and!; try done; [| |lia|lia].
  - unfold contents. rewrite map_app. cbn [map]. by rewrite fresh_contents.
  - rewrite Hrows2. eexists. split; [apply list_lookup_insert_eq; by eapply lookup_lt_Some|]. cbn. by split.
Qed.

(** ** The field as its clients see it: every term has its row of streams *)

Definition Rep s pa ts cs : Prop := exists gs, FRep s pa ts gs /\ contents gs = cs /\ length gs = length ts.

(** The field stands at the streams of term [t]. *)
Definition at_term s pa (t : nat) : Prop :=
  exists row, get_rows pa !! t = Some row /\ current (per_field s) (address_offset row).

Definition append (t i : nat) (bs : list Z) (cs : list (list (list Z))) : list (list (list Z)) :=
  alter (fun r => alter (fun d => d ++ bs) i r) t cs.

(** What is used of both pools; no operation overflows while there is room below
    [CAPACITY]. *)
Definition usage s : Z := Z.max (position (byte_pool s)) (ipos (int_pool s)).

Lemma rep_field s pa ts cs f' : Rep s pa ts cs -> stream_count f' = stream_count (per_field s) ->
  bytes_hash f' = bytes_hash (per_field s) -> Rep (mk_state f' (int_pool s) (byte_pool s)) pa ts cs.
Proof using PS.
  intros (gs & [F1 F2 F3 F4 F5 F6 F7] & Hc & Hl) Hs Hh. exists gs. split; [|done].
  constructor; cbn [per_field int_pool byte_pool]; rewrite ?Hs; try done; [|by rewrite Hh]. unfold postings. by rewrite Hh.
Qed.

(** Other columns of the postings array change. *)
Lemma rep_postings s pa ts cs pa' : Rep s pa ts cs -> pa_ok pa' -> get_rows pa' = get_rows pa ->
  Rep (mk_state (TermsHashPerField.with_postings (per_field s) pa') (int_pool s) (byte_pool s)) pa' ts cs.
Proof using PS.
  intros (gs & F & Hc & Hl) Hok Hr. exists gs. split; [|done]. pose proof F as [F1 F2 F3 F4 F5 F6 F7].
  constructor; cbn [per_field int_pool byte_pool]; rewrite ?Hr; try done.
  apply (fr_with_postings s pa pa' ts gs _ F); rewrite ?Hr; [done|apply (sr_clean _ _ _ _ _ F3)|lia|lia|].
  intros i t row Hi Hrow. by destruct (F7 i t row Hi Hrow).
Qed.

Lemma rep_write s pa ts cs t i r d m bs : Rep s pa ts cs -> at_term s pa t -> cs !! t = Some r -> r !! i = Some d -> writes m bs ->
  spends usage (cost bs) (on_pools (on_stream (per_field s) (Z.of_nat i) m)) s
    (fun _ s' => per_field s' = per_field s /\ Rep s' pa ts (append t i bs cs)).
Proof using PS.
  intros (gs & F & <- & Hl) (row & Hrow & Hcur) Hr Hd Hm.
  assert (Hx : gat gs t i <> None) by (apply gat_contents; by exists r, d).
  destruct (write_field s pa ts gs t i row m bs F Hx Hrow Hcur Hm)
    as [([ip' bp'] & He & HL)|(ip' & bp' & gs' & He & F' & Hc & Hip & Hp)]; unfold on_pools.
  - left. rewrite He. eexists. split; [done|]. unfold LIMIT, usage, CAPACITY in *. pose proof int_size_val. lia.
  - right. exists tt. rewrite He. eexists. split; [done|]. split; [unfold usage, cost in *; cbn [int_pool byte_pool]; lia|]. split; [done|].
    exists gs'. split; [done|]. split; [done|]. rewrite <- Hl. apply (f_equal length) in Hc. unfold contents in Hc.
    by rewrite length_alter, !length_map in Hc.
Qed.

(** Back to the streams of a term met before. *)
Lemma rep_position s pa ts cs (t : nat) : Rep s pa ts cs -> (t < length ts)%nat ->
  exists s', position_stream_slice (- (Z.of_nat t + 1)) s = (Ok (Z.of_nat t), s') /\ Rep s' pa ts cs /\ at_term s' pa t /\
    usage s' = usage s /\ stream_count (per_field s') = stream_count (per_field s) /\ last_doc_id (per_field s') = last_doc_id (per_field s).
Proof using PS.
  intros R Ht. pose proof R as (gs & F & Hc & Hl). pose proof F as [F1 F2 F3 F4 F5 F6 F7].
  destruct (lookup_lt_is_Some_2 (get_rows pa) t) as [row Hrow]; [lia|].
  destruct (sr_addr _ _ _ _ _ F3 t row ltac:(lia) Hrow) as (Ha & Hfit & _).
  unfold position_stream_slice. rewrite sget_sbind. replace (- - (Z.of_nat t + 1) - 1) with (Z.of_nat t) by lia.
  unfold postings_or_error. rewrite F1, slift_sbind, slift_sbind. rewrite (proj2 (vget_ok _ (Z.of_nat t) row ltac:(lia))) by by rewrite Nat2Z.id.
  eexists. split; [reflexivity|]. split; [by apply (rep_field s)|]. split; [|done]. exists row. split; [done|].
  pose proof int_size_val. destruct (address_split (address_offset row) 0 Ha ltac:(lia) ltac:(lia)) as (E1 & E2 & _).
  split; cbn [per_field with_stream term_stream_address_buffer_index stream_address_offset]; rewrite !Z.add_0_r in *; [exact E1|exact E2].
Qed.

(** The term is in the hash and has no streams yet. *)
Definition entering s pa ts cs (t : list Z) : Prop := exists gs pa', FRep s pa' (ts ++ [t]) gs /\ contents gs = cs /\
  length gs = length ts /\ keeps pa pa'.

(** A new term, and then its row of empty streams. *)
Lemma rep_add s pa ts cs b : Rep s pa ts cs -> BytesRef.valid b -> Forall (in_u 8) (BytesRef.contents b) ->
  let t := BytesRef.contents b in t ∉ ts -> Z.of_nat (length t) <= BYTE_BLOCK_SIZE - 2 ->
  spends usage (2 * (2 + Z.of_nat (length t))) (on_hash (BytesRefHash.add seed b)) s
    (fun id s' => id = Z.of_nat (length ts) /\ entering s' pa ts cs t /\ stream_count (per_field s') = stream_count (per_field s) /\
       last_doc_id (per_field s') = last_doc_id (per_field s)).
Proof using PS.
  intros (gs & F & <- & Hl) Hb Hb8 t Hn Hlen. pose proof (BytesRef.contents_length b Hb) as Hbl. fold t in Hbl.
  pose proof block_size_val as HB. pose proof int_size_val as HI.
  destruct (decide (full (byte_pool s) (2 + Z.of_nat (length t)))) as [[Hf1 Hf2]|Hfull].
  - left. destruct (BytesRefDictionary.add_refused seed _ _ _ b (fr_dict _ _ _ _ F) Hb Hb8 ltac:(lia) Hn) as [_ Hr].
    destruct (Hr Hlen) as ((h' & bp') & Hadd); [split; fold t; lia|]. unfold on_hash. rewrite Hadd. eexists. split; [done|].
    unfold usage, CAPACITY, i32_MAX, position in *. lia.
  - right. destruct (add_fresh s pa ts gs b F Hb Hb8 Hn Hlen Hfull) as (s' & pa' & He & F' & [Hk _] & Hip & Hsc & Hld & Hp).
    exists (Z.of_nat (length ts)), s'. split; [done|]. split; [unfold usage; rewrite Hip; fold t in Hp; lia|]. split; [done|].
    split; [by exists gs, pa'|done].
Qed.

Lemma rep_init s pa ts cs t : entering s pa ts cs t -> let n := stream_count (per_field s) in
  spends usage (15 * n) (init_stream_slices (Z.of_nat (length ts))) s
    (fun _ s' => exists pa', Rep s' pa' (ts ++ [t]) (cs ++ [replicate (Z.to_nat n) []]) /\ at_term s' pa' (length ts) /\
       keeps pa pa' /\ stream_count (per_field s') = n /\ last_doc_id (per_field s') = last_doc_id (per_field s)).
Proof using PS.
  intros (gs & pa1 & F1 & <- & Hl & Hk1) n. pose proof (fr_count _ _ _ _ F1) as Hc. fold n in Hc. rewrite <- Hl.
  destruct (init_streams_ok s pa1 (ts ++ [t]) gs F1) as [(s' & He & HL)|(s' & pa' & gs' & He & F2 & Hco & [Hk2 Hr2] & Hsc2 & Hld2 & Hat & Hp & Hi)];
    [rewrite length_app; cbn; lia| |]; fold n in HL || fold n in Hsc2, Hp, Hi, Hco.
  - left. exists s'. split; [done|]. pose proof int_size_val. unfold usage, CAPACITY. lia.
  - right. exists tt, s'. split; [done|]. split; [unfold usage; lia|].
    exists pa'. split_and!; [|done|by etrans|done|done]. exists gs'. split_and!; [done..|]. apply (f_equal length) in Hco.
    unfold contents in Hco. rewrite length_app, !length_map in Hco. rewrite length_app. cbn in *. lia.
Qed.

(** A new field over pools that may already hold other fields. *)
Lemma rep_new n counter o ip bp : 1 <= n <= 3276 -> o <> NotIndexed -> Clean bp -> IWF ip ->
  exists f, TermsHashPerField.new n counter o = Ok f /\ stream_count f = n /\ last_doc_id f = 0 /\
    postings f = Some (new_for_index 2 o) /\ Rep (mk_state f ip bp) (new_for_index 2 o) [] [].
Proof using PS.
  intros Hn Ho Hc Hi. unfold TermsHashPerField.new.
  replace (debug_assert (negb (options_rank o =? 0))) with (Ok tt) by by destruct o. cbn [rbind].
  assert (Hidle : idle (PostingsBytesStartArray.new (PA := PA) o)) by done.
  destruct (BytesRefDictionary.from_bytes_start_array_ok seed _ bp 2 counter Hidle ltac:(lia) (clean_wf _ Hc)) as (h & Hh & HR).
  change (2 ^ 2) with HASH_INIT_SIZE in Hh. rewrite Hh. cbn [rbind]. eexists. split; [done|]. split; [done|]. split; [done|].
  assert (Hpa : PostingsBytesStartArray.postings_array (BytesRefHash.bytes_start_array h) = Some (new_for_index 2 o)).
  { unfold BytesRefHash.from_bytes_start_array in Hh. cbn in Hh. by injection Hh as <-. }
  split; [exact Hpa|]. destruct (pa_new 2 o ltac:(lia)) as [Hok Hrows]. exists []. split; [|done].
  constructor; cbn [per_field int_pool byte_pool stream_count bytes_hash]; try done; [|cbn; lia].
  constructor; try done; cbn; try lia; intros; try lia; done.
Qed.

Lemma rep_stream s pa ts cs (t i : nat) : Rep s pa ts cs -> (t < length ts)%nat -> Z.of_nat i < stream_count (per_field s) ->
  exists r d, cs !! t = Some r /\ r !! i = Some d.
Proof using PS.
  intros (gs & F & <- & Hl) Ht Hi. apply gat_contents. unfold gat. destruct (lookup_lt_is_Some_2 gs t) as [g Hg]; [lia|].
  rewrite Hg. cbn. pose proof (sr_count _ _ _ _ _ (fr_streams _ _ _ _ F) t g Hg).
  destruct (lookup_lt_is_Some_2 g i) as [x Hx]; [lia|]. by rewrite Hx.
Qed.

Lemma rep_vint s pa ts cs (t i : nat) v : Rep s pa ts cs -> at_term s pa t -> (t < length ts)%nat ->
  Z.of_nat i < stream_count (per_field s) -> in_s 32 v ->
  spends usage (cost (vint_code v)) (on_pools (write_vint (per_field s) (Z.of_nat i) v)) s
    (fun _ s' => per_field s' = per_field s /\ Rep s' pa ts (append t i (vint_code v) cs)).
Proof using PS.
  intros R Hat Ht Hi Hv. destruct (rep_stream s pa ts cs t i R Ht Hi) as (r & d & Hr & Hd).
  pose proof (rep_write s pa ts cs t i r d _ _ R Hat Hr Hd (write_vint_writes v Hv)) as H.
  unfold spends, on_pools, write_vint in *. by rewrite slift_sbind, (proj2 (Z.ltb_lt _ _) Hi).
Qed.

Lemma rep_bytes s pa ts cs (t i : nat) b o n : Rep s pa ts cs -> at_term s pa t -> (t < length ts)%nat ->
  Z.of_nat i < stream_count (per_field s) -> Forall (in_u 8) b -> 0 <= o -> 0 <= n -> o + n <= Z.of_nat (length b) ->
  spends usage (400 * n) (on_pools (write_bytes (per_field s) (Z.of_nat i) b o n)) s
    (fun _ s' => per_field s' = per_field s /\ Rep s' pa ts (append t i (part b o (o + n)) cs)).
Proof using PS.
  intros R Hat Ht Hi Hb Ho Hn Hl. destruct (rep_stream s pa ts cs t i R Ht Hi) as (r & d & Hr & Hd).
  pose proof (rep_write s pa ts cs t i r d _ _ R Hat Hr Hd (write_bytes_writes b o n Hb Ho Hn Hl)) as H.
  unfold cost in H. rewrite part_length in H by lia. by replace (400 * n) with (400 * (o + n - o)) by lia.
Qed.

Lemma rep_reader s pa ts cs (t i : nat) r d r0 : Rep s pa ts cs -> cs !! t = Some r -> r !! i = Some d ->
  ByteSliceReader.pool r0 = byte_pool s ->
  exists r', init_reader (per_field s) r0 (Z.of_nat t) (Z.of_nat i) (int_pool s) = Ok r' /\
    ByteSliceReader.pool r' = byte_pool s /\ Reading.reads r' d.
Proof using PS.
  intros (gs & F & <- & Hl) Hr Hd H0. destruct (gat gs t i) as [x|] eqn:Hx; [|by edestruct (proj2 (gat_contents gs t i)); [exists r, d|]].
  destruct (init_reader_ok (per_field s) r0 pa _ (int_pool s) (byte_pool s) gs t i x H0 (fr_postings _ _ _ _ F) eq_refl (fr_streams _ _ _ _ F) Hx)
    as (r' & He & Hp & Hr'). exists r'. split_and!; [done..|]. replace d with (g_data x); [done|].
  unfold gat in Hx. unfold contents in Hr. rewrite list_lookup_fmap in Hr. destruct (gs !! t) as [g|]; [|done]. injection Hr as <-.
  rewrite list_lookup_fmap in Hd. cbn in Hx. rewrite Hx in Hd. by injection Hd.
Qed.

(** C27: Whatever a field writes to stream [i] of the term it stands at, a variable-length
    integer or a run of bytes, is appended to that stream: every other stream of the term,
    every stream of every other term and the terms themselves are what they were, although
    all of them share the two pools and the slices of a stream are spread over the blocks.
    The write can only fail with an overflow, and only when the pools are within 400 bytes
    per byte written of two gigabytes. *)
Theorem stream_write_appends s pa ts cs (t i : nat) :
  Rep s pa ts cs -> at_term s pa t -> (t < length ts)%nat -> Z.of_nat i < stream_count (per_field s) ->
  (forall v, in_s 32 v ->
    spends usage (cost (vint_code v)) (on_pools (write_vint (per_field s) (Z.of_nat i) v)) s
      (fun _ s' => per_field s' = per_field s /\ Rep s' pa ts (append t i (vint_code v) cs))) /\
  (forall b o n, Forall (in_u 8) b -> 0 <= o -> 0 <= n -> o + n <= Z.of_nat (length b) ->
    spends usage (400 * n) (on_pools (write_bytes (per_field s) (Z.of_nat i) b o n)) s
      (fun _ s' => per_field s' = per_field s /\ Rep s' pa ts (append t i (part b o (o + n)) cs))).
Proof using PS.
  intros R Hat Ht Hi. split; [intros v|intros b o n]; [by apply rep_vint|by apply rep_bytes].
Qed.

(** C28: A reader placed on a stream by [init_reader] reads the bytes written to it, and
    no others: in however many portions they are read, across slices and blocks, and it is
    at its end exactly after the last of them; so every typed read of [DataInput] sees
    what was written. *)
Theorem stream_reads_back s pa ts cs (t i : nat) r d r0 :
  Rep s pa ts cs -> cs !! t = Some r -> r !! i = Some d -> ByteSliceReader.pool r0 = byte_pool s ->
  exists r', init_reader (per_field s) r0 (Z.of_nat t) (Z.of_nat i) (int_pool s) = Ok r' /\ in_inv r' /\ avail r' = d /\
    forall x y, d = x ++ y -> exists r1 r2,
      get_bytes (Z.of_nat (length x)) r' = (Ok x, r1) /\ ByteSliceReader.eof r1 = Ok (bool_decide (y = [])) /\
      get_bytes (Z.of_nat (length y)) r1 = (Ok y, r2) /\ ByteSliceReader.eof r2 = Ok true.
Proof using PS.
  intros R Hr Hd H0. destruct (rep_reader s pa ts cs t i r d r0 R Hr Hd H0) as (r' & He & _ & Hr').
  exists r'. change (in_inv r') with (Reading.reads r' (Reading.rest_of r')). change (avail r') with (Reading.rest_of r').
  rewrite (Reading.reads_rest _ _ Hr'). split_and!; [done..|]. intros x y ->.
  destruct (Reading.get_bytes_reads r' x y Hr') as (r1 & E1 & H1). rewrite <- (app_nil_r y) in H1.
  destruct (Reading.get_bytes_reads r1 y [] H1) as (r2 & E2 & H2). exists r1, r2. rewrite app_nil_r in H1.
  split_and!; [done|by apply Reading.eof_ok|done|]. by rewrite (Reading.eof_ok _ _ H2).
Qed.
End Streams.
End TermStreams.

(** * Witnesses *)

Section Samples.
Import Spending TermStreams.
Abbreviation sample_term := (BytesRefDictionary.term [104; 105]).

Lemma clean_new : Clean (ByteBlockPool.new AllocatorByte.new_direct).
Proof. split; [apply wf_new; done|]. intros a. change (size _) with 0. unfold position. cbn. lia. Qed.

Lemma sample_stream : exists s pa, Rep 7 s pa [[104; 105]] [[[]; []]] /\ at_term s pa 0 /\
  stream_count (per_field (PA := ParallelPostingsArray.t) s) = 2 /\ usage s <= 100.
Proof.
  destruct (rep_new (PA := ParallelPostingsArray.t) 7 2 0 Docs IntBlockPool.new (ByteBlockPool.new AllocatorByte.new_direct))
    as (f & _ & Hn & _ & _ & R); [lia|done|apply clean_new|by apply iwf_new|].
  destruct (BytesRef.from_bytes_valid [104; 105]) as [Hv Hc].
  assert (Hb : Forall (in_u 8) (BytesRef.contents sample_term)) by by apply BytesRefDictionary.bytes_of.
  destruct (spends_fits _ _ _ _ _ (rep_add 7 _ _ _ _ sample_term R Hv Hb (not_elem_of_nil _) ltac:(by vm_compute)) ltac:(by vm_compute))
    as (id & s1 & _ & Hu1 & -> & He & Hc1 & _). cbn [per_field] in Hc1. rewrite Hn in Hc1. pose proof (rep_init 7 _ _ _ _ _ He) as Hs.
  cbv zeta in Hs. rewrite Hc1 in Hs. assert (Hu2 : usage s1 <= 10) by (etrans; [exact Hu1|by vm_compute]).
  apply spends_fits in Hs as ([] & s' & _ & Hu & pa' & R' & Hat & _ & Hc' & _); [|etrans; [apply Z.add_le_mono_r, Hu2|by vm_compute]].
  exists s', pa'. split_and!; [exact R'|exact Hat|done|]. etrans; [exact Hu|]. etrans; [apply Z.add_le_mono_r, Hu2|by vm_compute].
Qed.

Lemma stream_write_appends_witness : exists s s1 s2 pa, Rep 7 (PA := ParallelPostingsArray.t) s pa [[104; 105]] [[[]; []]] /\
  on_pools (write_vint (per_field s) 0 300) s = (Ok tt, s1) /\ Rep 7 s1 pa [[104; 105]] [[[172; 2]; []]] /\
  on_pools (write_bytes (per_field s) 1 [9; 8; 7] 1 2) s = (Ok tt, s2) /\ Rep 7 s2 pa [[104; 105]] [[[]; [8; 7]]].
Proof.
  destruct sample_stream as (s & pa & R & Hat & Hc & Hu).
  destruct (stream_write_appends 7 s pa _ _ 0 0 R Hat ltac:(cbn; lia) ltac:(rewrite Hc; done)) as [H1 _].
  destruct (stream_write_appends 7 s pa _ _ 0 1 R Hat ltac:(cbn; lia) ltac:(rewrite Hc; done)) as [_ H2].
  specialize (H1 300 ltac:(done)). specialize (H2 [9; 8; 7] 1 2 ltac:(by apply BytesRefDictionary.bytes_of) ltac:(lia) ltac:(lia) ltac:(cbn; lia)).
  apply spends_fits in H1 as ([] & s1 & E1 & _ & _ & R1); [|etrans; [apply Z.add_le_mono_r, Hu|by vm_compute]].
  apply spends_fits in H2 as ([] & s2 & E2 & _ & _ & R2); [|etrans; [apply Z.add_le_mono_r, Hu|by vm_compute]].
  exists s, s1, s2, pa. split_and!; [exact R|exact E1|exact R1|exact E2|exact R2].
Defined.

Lemma stream_reads_back_witness : exists s pa r', Rep 7 (PA := ParallelPostingsArray.t) s pa [[104; 105]] [[[172; 2]; []]] /\
  init_reader (per_field s) (ByteSliceReader.new (byte_pool s)) 0 0 (int_pool s) = Ok r' /\ avail r' = [172; 2].
Proof.
  destruct sample_stream as (s & pa & R & Hat & Hc & Hu).
  pose proof (rep_vint 7 s pa _ _ 0 0 300 R Hat ltac:(cbn; lia) ltac:(rewrite Hc; done) ltac:(done)) as H1.
  apply spends_fits in H1 as ([] & s1 & _ & _ & _ & R1); [|etrans; [apply Z.add_le_mono_r, Hu|by vm_compute]].
  destruct (stream_reads_back 7 s1 pa _ _ 0 0 _ _ (ByteSliceReader.new (byte_pool s1)) R1 eq_refl eq_refl eq_refl) as (r' & E & _ & Ha & _).
  exists s1, pa, r'. split_and!; [exact R1|exact E|exact Ha].
Defined.
End Samples.
