(* ===== verification/IndexFileNames.v ===== *)
(** File names of an index: [IndexFileNames] and the pattern of codec files
    (src/core/index/index_file_names.rs), the generation in the name of a segments file
    (src/core/index/segment_infos.rs). *)

From Stdlib Require Import ZArith Lia ZifyBool Bool Ascii String.
From stdpp Require Import base tactics numbers list strings.
From S2P Require Import Prelude.

Local Open Scope string_scope.
Local Open Scope Z_scope.

(** * The strings of Rust, as far as the names need them *)

Definition starts_with (prefix file_name : string) : bool := String.prefix prefix file_name.

Definition ends_with (suffix file_name : string) : bool :=
  (String.length suffix <=? String.length file_name)%nat &&
  String.eqb (String.substring (String.length file_name - String.length suffix) (String.length suffix) file_name) suffix.

(** [&s[..n]] and [&s[n..]]. *)
Definition str_to (n : nat) (s : string) : string := String.substring 0 n s.
Definition str_from (n : nat) (s : string) : string := String.substring n (String.length s - n) s.

(** [s.find(c)]. *)
Fixpoint find (c : ascii) (s : string) : option nat :=
  match s with
  | EmptyString => None
  | String a s => if Ascii.eqb a c then Some O else option_map S (find c s)
  end.

(** [s.split(c)]. *)
Fixpoint split (c : ascii) (s : string) : list string :=
  match s with
  | EmptyString => [""]
  | String a s =>
      if Ascii.eqb a c then "" :: split c s
      else match split c s with
           | [] => [String a ""]
           | w :: ws => String a w :: ws
           end
  end.

(** * Numbers in base 36 *)

Module Radix.

(** [char::to_digit(36)]. *)
Definition to_digit (c : ascii) : option Z :=
  let n := Z.of_nat (nat_of_ascii c) in
  if (48 <=? n) && (n <=? 57) then Some (n - 48)
  else if (97 <=? n) && (n <=? 122) then Some (n - 87)
  else if (65 <=? n) && (n <=? 90) then Some (n - 55)
  else None.

(** The digits from the left, with the overflow checks of every step. *)
Fixpoint digits (sign acc : Z) (s : string) : option Z :=
  match s with
  | EmptyString => Some acc
  | String c s =>
      match to_digit c with
      | None => None
      | Some d =>
          let acc := acc * 36 + sign * d in
          if (- 2 ^ 63 <=? acc) && (acc <? 2 ^ 63) then digits sign acc s else None
      end
  end.

(** [i64::from_str_radix(s, 36)]. *)
Definition from_str_radix (s : string) : option Z :=
  match s with
  | "" | "+" | "-" => None
  | String "+" s => digits 1 0 s
  | String "-" s => digits (-1) 0 s
  | s => digits 1 0 s
  end.
End Radix.

(** * The names *)

Module IndexFileNames.
Section Names.
(** [BigInt::to_str_radix(36)] of the num-bigint crate. *)
Context (to_str_radix : Z -> string).

Definition SEGMENTS : string := "segments".
Definition PENDING_SEGMENTS : string := "pending_segments".

Definition is_empty (s : string) : bool := String.eqb s "".

Definition segment_file_name (segment_name segment_suffix ext : string) : result string :=
  if negb (is_empty ext) || negb (is_empty segment_suffix) then
    let? _ := debug_assert (negb (starts_with "." ext)) in
    let sb := segment_name in
    let sb := if negb (is_empty segment_suffix) then sb ++ "_" ++ segment_suffix else sb in
    let sb := if negb (is_empty ext) then sb ++ "." ++ ext else sb in
    Ok sb
  else Ok segment_name.

Definition file_name_from_generation (base ext : string) (gen_ : Z) : result (option string) :=
  if gen_ =? -1 then Ok None
  else if gen_ =? 0 then
    let? name := segment_file_name base "" ext in
    Ok (Some name)
  else
    let gen_str := to_str_radix gen_ in
    let res := base ++ "_" ++ gen_str in
    let res := if negb (is_empty ext) then res ++ "." ++ ext else res in
    Ok (Some res).

Definition matches_extension (filename ext : string) : bool :=
  ends_with ext filename && ends_with "." (str_to (String.length filename - String.length ext) filename).

Definition index_of_segment_name (filename : string) : result (option nat) :=
  let? _ := debug_assert (Z.of_nat (String.length filename) <=? 2 ^ 31 - 1) in
  match find "_" (str_from 1 filename) with
  | Some idx => Ok (Some (idx + 1)%nat)
  | None => Ok (find "." filename)
  end.

Definition strip_segment_name (filename : string) : result string :=
  let? at_ := index_of_segment_name filename in
  match at_ with
  | Some idx => Ok (str_from idx filename)
  | None => Ok filename
  end.

Definition parse_segment_name (filename : string) : result string :=
  let? at_ := index_of_segment_name filename in
  match at_ with
  | Some idx => Ok (str_to idx filename)
  | None => Ok filename
  end.

Definition strip_extension (filename : string) : string :=
  match find "." filename with
  | Some idx => str_to idx filename
  | None => filename
  end.

Definition get_extension (filename : string) : option string :=
  match find "." filename with
  | Some idx => Some (str_from (idx + 1) filename)
  | None => None
  end.

(** The parts of [segment], [segment_gen], [segment_codec_suffix] or
    [segment_gen_codec_suffix]; a part that is no number is a [ParseIntError]. *)
Definition parse_generation (filename : string) : result Z :=
  let? _ := debug_assert (starts_with "_" filename) in
  let stripped := strip_extension filename in
  let parts := split "_" (str_from 1 stripped) in
  let generation := parts !! 1%nat in
  let remaining := (length parts - 2)%nat in
  match generation with
  | Some generation =>
      if (remaining =? 0)%nat || (remaining =? 2)%nat then
        match Radix.from_str_radix generation with
        | Some g => Ok g
        | None => Err ParseIntError
        end
      else Ok 0
  | None => Ok 0
  end.

(** ** Codec files *)

Definition newline : ascii := ascii_of_nat 10.

(** A lower-case letter or a digit. *)
Definition in_name (c : ascii) : bool :=
  let n := nat_of_ascii c in
  ((97 <=? n) && (n <=? 122) || ((48 <=? n) && (n <=? 57)))%nat.

(** A dot is reached on this line. *)
Fixpoint reaches_dot (s : string) : bool :=
  match s with
  | EmptyString => false
  | String c s => if Ascii.eqb c "." then true else if Ascii.eqb c newline then false else reaches_dot s
  end.

(** Name characters, then a dot, or an underscore and a dot later on; [some] when a name
    character has been seen. *)
Fixpoint codec_rest (some : bool) (s : string) : bool :=
  match s with
  | EmptyString => false
  | String c s =>
      if in_name c then codec_rest true s
      else some && (Ascii.eqb c "." || Ascii.eqb c "_" && reaches_dot s)
  end.

(** [CODEC_FILE_PATTERN.is_match]: somewhere in the name. *)
Fixpoint is_codec_file (s : string) : bool :=
  match s with
  | EmptyString => false
  | String c s => Ascii.eqb c "_" && codec_rest false s || is_codec_file s
  end.

(** ** Segments files *)

Definition OLD_SEGMENTS_GEN : string := "segments.gen".

Definition generation_from_segments_file_name (file_name : string) : result Z :=
  if String.eqb file_name OLD_SEGMENTS_GEN then Err IllegalArgument
  else if String.eqb file_name SEGMENTS then Ok 0
  else if starts_with SEGMENTS file_name then
    match Radix.from_str_radix (str_from (String.length SEGMENTS + 1) file_name) with
    | Some generation => Ok generation
    | None => Err NumberFormat
    end
  else Err IllegalArgument.
End Names.
End IndexFileNames.

(** * Correctness *)

Module NameFacts.
Import IndexFileNames.
#[local] Arguments String.append !_ _ /.

(** No character of the string is [c]. *)
Fixpoint free (c : ascii) (s : string) : bool :=
  match s with
  | EmptyString => true
  | String a s => negb (Ascii.eqb a c) && free c s
  end.

(** Only lower-case letters and digits. *)
Fixpoint plain (s : string) : bool :=
  match s with
  | EmptyString => true
  | String a s => in_name a && plain s
  end.

(** The number a string of digits stands for, most significant digit first. *)
Fixpoint value (acc : Z) (s : string) : Z :=
  match s with
  | EmptyString => acc
  | String a s => value (acc * 36 + default 0 (Radix.to_digit a)) s
  end.

Lemma append_assoc s t u : (s ++ t) ++ u = s ++ (t ++ u).
Proof. induction s as [|a s IH]; cbn; [done|by rewrite IH]. Qed.

Lemma append_nil_r s : s ++ "" = s.
Proof. induction s as [|a s IH]; cbn; [done|by rewrite IH]. Qed.

Lemma length_append s t : String.length (s ++ t) = (String.length s + String.length t)%nat.
Proof. induction s as [|a s IH]; cbn; [done|by rewrite IH]. Qed.

Lemma free_append c s t : free c (s ++ t) = free c s && free c t.
Proof. induction s as [|a s IH]; cbn; [done|]. by rewrite IH, andb_assoc. Qed.

Lemma str_from_0 s : String.substring 0 (String.length s) s = s.
Proof. induction s as [|a s IH]; cbn; [done|by rewrite IH]. Qed.

Lemma str_to_append s t : str_to (String.length s) (s ++ t) = s.
Proof. unfold str_to. induction s as [|a s IH]; cbn; [by destruct t|by rewrite IH]. Qed.

Lemma str_from_append s t : str_from (String.length s) (s ++ t) = t.
Proof.
  unfold str_from. rewrite length_append. replace (_ + _ - _)%nat with (String.length t) by lia.
  induction s as [|a s IH]; cbn; [apply str_from_0|exact IH].
Qed.

Lemma starts_with_append s t : starts_with s (s ++ t) = true.
Proof. unfold starts_with. induction s as [|a s IH]; cbn; [by destruct t|]. by destruct (ascii_dec a a). Qed.

Lemma find_free c s : free c s = true -> find c s = None.
Proof.
  induction s as [|a s IH]; cbn; [done|]. rewrite andb_true_iff, negb_true_iff. intros [-> H]. by rewrite IH.
Qed.

Lemma find_append c s t : free c s = true -> find c (s ++ String c t) = Some (String.length s).
Proof.
  induction s as [|a s IH]; cbn; [by rewrite Ascii.eqb_refl|].
  rewrite andb_true_iff, negb_true_iff. intros [-> H]. by rewrite IH.
Qed.

Lemma split_free c s : free c s = true -> split c s = [s].
Proof.
  induction s as [|a s IH]; cbn; [done|]. rewrite andb_true_iff, negb_true_iff. intros [-> H]. by rewrite IH.
Qed.

Lemma split_append c s t : free c s = true -> split c (s ++ String c t) = s :: split c t.
Proof.
  induction s as [|a s IH]; cbn; [by rewrite Ascii.eqb_refl|].
  rewrite andb_true_iff, negb_true_iff. intros [-> H]. by rewrite IH.
Qed.

Lemma in_name_not a c : in_name c = false -> in_name a = true -> Ascii.eqb a c = false.
Proof. intros Hc Ha. destruct (Ascii.eqb_spec a c) as [->|]; [congruence|done]. Qed.

Lemma plain_free c s : in_name c = false -> plain s = true -> free c s = true.
Proof.
  intros Hc. induction s as [|a s IH]; cbn; [done|]. rewrite andb_true_iff. intros [Ha Hs].
  by rewrite (in_name_not a c), IH.
Qed.

Lemma to_digit_plain a : in_name a = true -> exists d, Radix.to_digit a = Some d /\ 0 <= d < 36.
Proof.
  unfold in_name, Radix.to_digit. intros Ha. cbv zeta. repeat case_match; try (eexists; split; [done|]); lia.
Qed.

Lemma value_bounds s : forall acc, 0 <= acc -> plain s = true -> acc <= value acc s.
Proof.
  induction s as [|a s IH]; cbn [value plain]; intros acc Hacc; [lia|]. rewrite andb_true_iff. intros [Ha Hs].
  destruct (to_digit_plain a Ha) as (d & -> & Hd). cbn [default from_option]. unfold id. specialize (IH (acc * 36 + d) ltac:(lia) Hs). lia.
Qed.

Lemma digits_value s : forall acc, 0 <= acc -> plain s = true -> value acc s < 2 ^ 63 ->
  Radix.digits 1 acc s = Some (value acc s).
Proof.
  induction s as [|a s IH]; cbn [value plain Radix.digits]; intros acc Hacc; [done|].
  rewrite andb_true_iff. intros [Ha Hs] Hv.
  destruct (to_digit_plain a Ha) as (d & E & Hd). rewrite E in *. cbn [default from_option] in *. unfold id in *.
  replace (acc * 36 + 1 * d) with (acc * 36 + d) by lia.
  pose proof (value_bounds s (acc * 36 + d) ltac:(lia) Hs).
  rewrite (proj2 (Z.leb_le _ _)), (proj2 (Z.ltb_lt _ _)) by lia. cbn [andb]. apply IH; [lia|done|done].
Qed.

Lemma from_str_radix_value s : plain s = true -> s <> "" -> value 0 s < 2 ^ 63 ->
  Radix.from_str_radix s = Some (value 0 s).
Proof.
  intros Hp Hn Hv. rewrite <- (digits_value s 0) by done. destruct s as [|a s]; [done|]. unfold Radix.from_str_radix.
  cbn in Hp. apply andb_true_iff in Hp as [Ha _].
  destruct a as [[] [] [] [] [] [] [] []]; first [done|discriminate Ha|by destruct s].
Qed.

(** ** Names that carry a generation *)

Section Generation.
Context (to_str_radix : Z -> string).
(** The number is written in the digits [0]-[9] and [a]-[z], most significant first. *)
Hypothesis to_str_radix_digits : forall g, 0 < g < 2 ^ 63 ->
  plain (to_str_radix g) = true /\ to_str_radix g <> "" /\ value 0 (to_str_radix g) = g.

Lemma from_str_to_str g : 0 < g < 2 ^ 63 -> Radix.from_str_radix (to_str_radix g) = Some g.
Proof.
  intros Hg. destruct (to_str_radix_digits g Hg) as (Hp & Hn & Hv).
  rewrite from_str_radix_value; [by rewrite Hv|done|done|lia].
Qed.

(** The tail that [file_name_from_generation] puts behind the segment name. *)
Definition tail (ext : string) (g : Z) : string :=
  (if g =? 0 then "" else "_" ++ to_str_radix g) ++ (if is_empty ext then "" else "." ++ ext).

Lemma file_name_ok base ext g : 0 <= g < 2 ^ 63 -> starts_with "." ext = false ->
  file_name_from_generation to_str_radix base ext g = Ok (Some (base ++ tail ext g)).
Proof.
  intros Hg He. unfold file_name_from_generation, segment_file_name, tail. rewrite He.
  rewrite (proj2 (Z.eqb_neq g (-1))) by lia.
  destruct (is_empty ext) eqn:Ee, (g =? 0); cbn; rewrite ?append_assoc, ?append_nil_r; done.
Qed.

Lemma tail_cases ext g : 0 <= g < 2 ^ 63 -> free "_" ext = true ->
  (g = 0 /\ ext = "" /\ tail ext g = "") \/
  (g = 0 /\ ext <> "" /\ tail ext g = String "." ext /\ free "_" (tail ext g) = true) \/
  (0 < g /\ tail ext g = String "_" (to_str_radix g ++ (if is_empty ext then "" else String "." ext))).
Proof.
  intros Hg He. unfold tail, is_empty. destruct (Z.eqb_spec g 0) as [->|]; [|by right; right; split; [lia|]].
  destruct (String.eqb_spec ext "") as [->|]; [by left|]. right; left. by split_and!.
Qed.

Lemma index_of_segment_name_ok seg ext g :
  free "_" seg = true -> free "." seg = true -> free "_" ext = true -> 0 <= g < 2 ^ 63 ->
  Z.of_nat (String.length (("_" ++ seg) ++ tail ext g)) < 2 ^ 31 ->
  index_of_segment_name (("_" ++ seg) ++ tail ext g)
  = Ok (if is_empty (tail ext g) then None else Some (String.length ("_" ++ seg))).
Proof.
  intros Hs Hd He Hg Hl. unfold index_of_segment_name. rewrite (proj2 (Z.leb_le _ _)) by lia. cbn [debug_assert rbind].
  rewrite (append_assoc "_" seg). rewrite (str_from_append "_").
  destruct (tail_cases ext g Hg He) as [(_ & _ & ->)|[(_ & _ & -> & Ht)|(_ & ->)]].
  - rewrite append_nil_r, (find_free _ _ Hs), (find_free "." ("_" ++ seg)); [done|]. by rewrite free_append, Hd.
  - rewrite (find_free "_" (seg ++ _)) by by rewrite free_append, Hs.
    rewrite <- append_assoc, find_append; [done|]. by rewrite free_append, Hd.
  - rewrite find_append by done. rewrite length_append. cbn. do 2 f_equal. lia.
Qed.

Lemma middle_free g : 0 <= g < 2 ^ 63 -> free "." (if g =? 0 then "" else "_" ++ to_str_radix g) = true.
Proof.
  intros Hg. destruct (Z.eqb_spec g 0); [done|]. destruct (to_str_radix_digits g ltac:(lia)) as (Hp & _ & _).
  rewrite free_append. by rewrite (plain_free "." _ eq_refl Hp).
Qed.

Lemma parse_generation_ok seg ext g :
  free "_" seg = true -> free "." seg = true -> free "_" ext = true -> 0 <= g < 2 ^ 63 ->
  parse_generation (("_" ++ seg) ++ tail ext g) = Ok g.
Proof.
  intros Hs Hd He Hg. unfold parse_generation. rewrite (append_assoc "_" seg), starts_with_append. cbn [debug_assert rbind].
  assert (Hst : strip_extension ("_" ++ seg ++ tail ext g) = "_" ++ seg ++ (if g =? 0 then "" else "_" ++ to_str_radix g)).
  { pose proof (middle_free g Hg) as Hf.
    unfold strip_extension, tail. set (m := if g =? 0 then _ else _) in *.
    assert (Hfr : free "." ("_" ++ seg ++ m) = true) by by rewrite !free_append, Hd, Hf.
    destruct (is_empty ext).
    - rewrite append_nil_r. by rewrite (find_free _ _ Hfr).
    - rewrite <- !append_assoc in *. rewrite (append_assoc _ "." ext).
      change ("." ++ ext) with (String "." ext). rewrite find_append by done. by rewrite str_to_append. }
  rewrite Hst. rewrite (str_from_append "_").
  destruct (Z.eqb_spec g 0) as [->|Hne].
  - by rewrite append_nil_r, (split_free _ _ Hs).
  - destruct (to_str_radix_digits g ltac:(lia)) as (Hp & _ & _).
    change ("_" ++ to_str_radix g) with (String "_" (to_str_radix g)).
    rewrite (split_append _ _ _ Hs), (split_free _ _ (plain_free "_" _ eq_refl Hp)). cbn.
    by rewrite from_str_to_str by lia.
Qed.

Lemma get_extension_ok seg ext g :
  free "." seg = true -> 0 <= g < 2 ^ 63 ->
  get_extension (("_" ++ seg) ++ tail ext g) = (if is_empty ext then None else Some ext).
Proof.
  intros Hd Hg. unfold get_extension, tail.
  pose proof (middle_free g Hg) as Hf.
  set (m := if g =? 0 then _ else _) in *. rewrite <- append_assoc.
  assert (Hfr : free "." (("_" ++ seg) ++ m) = true) by by rewrite !free_append, Hd, Hf.
  destruct (is_empty ext).
  - rewrite append_nil_r. by rewrite (find_free _ _ Hfr).
  - change ("." ++ ext) with (String "." ext). rewrite find_append by done.
    set (n := _ ++ m) in *. replace (n ++ String "." ext) with ((n ++ ".") ++ ext) by by rewrite append_assoc.
    replace (String.length n + 1)%nat with (String.length (n ++ ".")) by by rewrite length_append.
    by rewrite str_from_append.
Qed.

Lemma plain_not_codec s : plain s = true -> forall b, codec_rest b s = false /\ is_codec_file s = false.
Proof.
  induction s as [|a s IH]; cbn; [done|]. rewrite andb_true_iff. intros [Ha Hs] b. rewrite Ha.
  split; [by apply IH|]. rewrite (in_name_not a "_" eq_refl Ha). cbn. by apply (IH Hs true).
Qed.

Lemma segments_name_ok g : 0 <= g < 2 ^ 63 ->
  generation_from_segments_file_name (SEGMENTS ++ tail "" g) = Ok g /\
  starts_with SEGMENTS (SEGMENTS ++ tail "" g) = true /\ is_codec_file (SEGMENTS ++ tail "" g) = false.
Proof.
  intros Hg. split_and!; [|apply starts_with_append|].
  - destruct (tail_cases "" g Hg eq_refl) as [(-> & _ & ->)|[(_ & ? & _)|(Hp & ->)]]; [done|done|].
    cbn [is_empty String.eqb]. rewrite append_nil_r. unfold generation_from_segments_file_name.
    change (SEGMENTS ++ String "_" (to_str_radix g)) with ("segments_" ++ to_str_radix g).
    change (String.length SEGMENTS + 1)%nat with (String.length "segments_"). rewrite str_from_append.
    cbn -[Radix.from_str_radix]. by rewrite from_str_to_str by lia.
  - destruct (tail_cases "" g Hg eq_refl) as [(-> & _ & ->)|[(_ & ? & _)|(Hp & ->)]]; [done|done|].
    destruct (to_str_radix_digits g ltac:(lia)) as (Hpl & _ & _). cbn. rewrite append_nil_r.
    by destruct (plain_not_codec _ Hpl false) as [-> ->].
Qed.

(** C39: the three parts of a file name can be read back from it. For a segment [_seg], an
    extension without [_] that does not start with a dot, and a generation from 0 on, the
    name built by [file_name_from_generation] gives back the segment, the generation and
    the extension; the name of a segments file gives back its generation, and the name of
    a segments file is never taken for a codec file. *)
Theorem file_names_roundtrip (seg ext : string) (g : Z) :
  free "_" seg = true -> free "." seg = true -> free "_" ext = true -> starts_with "." ext = false ->
  0 <= g < 2 ^ 63 ->
  exists name segments,
    file_name_from_generation to_str_radix ("_" ++ seg) ext g = Ok (Some name) /\
    (Z.of_nat (String.length name) < 2 ^ 31 -> parse_segment_name name = Ok ("_" ++ seg) /\
       strip_segment_name name = Ok (if is_empty (tail ext g) then name else tail ext g)) /\
    parse_generation name = Ok g /\
    get_extension name = (if is_empty ext then None else Some ext) /\
    file_name_from_generation to_str_radix SEGMENTS "" g = Ok (Some segments) /\
    generation_from_segments_file_name segments = Ok g /\
    starts_with SEGMENTS segments = true /\ is_codec_file segments = false.
Proof.
  intros Hs Hd He Hdot Hg. exists (("_" ++ seg) ++ tail ext g), (SEGMENTS ++ tail "" g).
  split; [by apply file_name_ok|]. split; [|split; [by apply parse_generation_ok|split]].
  - intros Hl. unfold parse_segment_name, strip_segment_name. rewrite index_of_segment_name_ok by done. cbn [rbind].
    destruct (is_empty (tail ext g)) eqn:E.
    + apply String.eqb_eq in E. by rewrite E, append_nil_r.
    + by rewrite str_to_append, str_from_append.
  - apply get_extension_ok; done.
  - split; [by apply file_name_ok|]. by apply segments_name_ok.
Qed.
End Generation.

(** ** A rendering in base 36 *)

Definition digit (d : Z) : ascii := ascii_of_nat (Z.to_nat (if d <? 10 then d + 48 else d + 87)).

Fixpoint render (fuel : nat) (g : Z) : string :=
  match fuel with
  | O => ""
  | S fuel => if g =? 0 then "" else render fuel (g / 36) ++ String (digit (g mod 36)) ""
  end.

Lemma digit_ok d : 0 <= d < 36 -> in_name (digit d) = true /\ Radix.to_digit (digit d) = Some d.
Proof.
  intros Hd. unfold in_name, Radix.to_digit, digit. set (n := Z.to_nat _).
  assert (Hn : Z.of_nat n = if d <? 10 then d + 48 else d + 87) by (unfold n; destruct (d <? 10); lia).
  assert (Hb : (n < 256)%nat) by (destruct (Z.ltb_spec d 10); lia).
  rewrite nat_ascii_embedding by done. cbv zeta. rewrite Hn.
  destruct (Z.ltb_spec d 10); split; [lia| |lia|]; repeat case_match; try f_equal; lia.
Qed.

Lemma plain_append s t : plain (s ++ t) = plain s && plain t.
Proof. induction s as [|a s IH]; cbn; [done|]. by rewrite IH, andb_assoc. Qed.

Lemma value_append s t : forall acc, value acc (s ++ t) = value (value acc s) t.
Proof. induction s as [|a s IH]; intros acc; cbn [value String.append]; [done|]. apply IH. Qed.

Lemma render_ok fuel : forall g, 0 <= g < 36 ^ Z.of_nat fuel ->
  plain (render fuel g) = true /\ (0 < g -> render fuel g <> "") /\ value 0 (render fuel g) = g.
Proof.
  induction fuel as [|fuel IH]; intros g Hg; [change (36 ^ Z.of_nat 0) with 1 in Hg; cbn; split_and!; [done|lia|lia]|].
  rewrite Nat2Z.inj_succ, Z.pow_succ_r in Hg by lia. cbn [render].
  destruct (Z.eqb_spec g 0) as [->|Hne]; [by split_and!; [|lia|]|].
  assert (Hd : 0 <= g mod 36 < 36) by (apply Z.mod_pos_bound; lia).
  destruct (digit_ok (g mod 36) Hd) as [H1 H2].
  destruct (IH (g / 36)) as (H3 & _ & H4).
  { split; [apply Z.div_pos; lia|]. apply Z.div_lt_upper_bound; lia. }
  split_and!.
  - rewrite plain_append, H3. cbn. by rewrite H1.
  - intros _ E. apply (f_equal String.length) in E. rewrite length_append in E. cbn in E. lia.
  - rewrite value_append, H4. cbn [value]. rewrite H2. cbn [default from_option]. unfold id.
    pose proof (Z.div_mod g 36). lia.
Qed.

Lemma file_names_roundtrip_witness : exists name segments,
  file_name_from_generation (render 13) "_2b" "liv" 71 = Ok (Some name) /\ name = "_2b_1z.liv" /\
  parse_generation name = Ok 71 /\ file_name_from_generation (render 13) SEGMENTS "" 71 = Ok (Some segments) /\
  generation_from_segments_file_name segments = Ok 71.
Proof.
  assert (Hr : forall g, 0 < g < 2 ^ 63 ->
    plain (render 13 g) = true /\ render 13 g <> "" /\ value 0 (render 13 g) = g).
  { intros g Hg. destruct (render_ok 13 g) as (? & ? & ?); [|by split_and!; auto with lia].
    split; [lia|]. change (36 ^ Z.of_nat 13) with 170581728179578208256. lia. }
  destruct (file_names_roundtrip (render 13) Hr "2b" "liv" 71) as (name & segments & H1 & _ & H2 & _ & H3 & H4 & _);
    [reflexivity|reflexivity|reflexivity|reflexivity|lia|].
  exists name, segments. split_and!; try done. vm_compute in H1. congruence.
Defined.

(** A file of a codec whose generation part is no number: the error that [parse_generation]
    answers is not the one for a malformed number. *)
Example trash_generation : is_codec_file "_1_A$.tmpx" = true /\ parse_generation "_1_A$.tmpx" = Err ParseIntError.
Proof. done. Qed.
End NameFacts.
