(* ===== verification/SegmentInfos.v ===== *)
(** The list of segments of an index, as far as names and generations go: [SegmentInfos]
    (src/core/index/segment_infos.rs), [SegmentCommitInfo] (segment_commit_info.rs), and
    [inflate_gens] (index_file_deleter.rs), which moves the counters past every file of the
    directory. *)

From Stdlib Require Import ZArith Lia Bool Ascii.
From stdpp Require Import base tactics numbers list gmap strings.
From S2P Require Import Prelude IndexFileNames.

Local Open Scope string_scope.
Local Open Scope Z_scope.

(** * Debugging output *)

(** [InfoStream]; the text of the messages is left out. *)
Class InfoStream (I : Type) := {
  is_enabled : I -> bool;
  message : ST I unit }.

Class QuietInfoStream (I : Type) `{InfoStream I} := {
  message_ok : forall i, exists i', message i = (Ok tt, i') }.

(** [if info_stream.is_enabled(..) { info_stream.message(..)?; }] *)
Definition log {I} `{InfoStream I} : ST I unit := fun i => if is_enabled i then message i else (Ok tt, i).

Lemma log_ok {I} `{QuietInfoStream I} i : exists i', log i = (Ok tt, i').
Proof. unfold log. destruct (is_enabled i); [apply message_ok|eauto]. Qed.

(** [a + b] on [i64]; the build checks it for overflow. *)
Definition add_i64 (a b : Z) : result Z := if (- 2 ^ 63 <=? a + b) && (a + b <? 2 ^ 63) then Ok (a + b) else Panic.

Lemma add_i64_ok a b : in_s 64 (a + b) -> add_i64 a b = Ok (a + b).
Proof.
  unfold in_s, add_i64. change (64 - 1) with 63. intros [H1 H2].
  by rewrite (proj2 (Z.leb_le _ _) H1), (proj2 (Z.ltb_lt _ _) H2).
Qed.

(** * Segments *)

Module SegmentCommitInfo.
(** [files] is what the segment answers when asked for its files. *)
Record t := mk {
  name : string;
  files : result (gset string);
  next_write_del_gen : Z;
  next_write_field_infos_gen : Z;
  next_write_doc_values_gen : Z }.

Definition set_next_write_del_gen (s : t) (v : Z) : t :=
  mk (name s) (files s) v (next_write_field_infos_gen s) (next_write_doc_values_gen s).
Definition set_next_write_field_infos_gen (s : t) (v : Z) : t :=
  mk (name s) (files s) (next_write_del_gen s) v (next_write_doc_values_gen s).
Definition set_next_write_doc_values_gen (s : t) (v : Z) : t :=
  mk (name s) (files s) (next_write_del_gen s) (next_write_field_infos_gen s) v.
End SegmentCommitInfo.

Module SegmentInfos.
Record t := mk {
  counter : Z;
  generation : Z;
  last_generation : Z;
  user_data : gmap string string;
  segments : list SegmentCommitInfo.t }.

Definition size (s : t) : Z := Z.of_nat (length (segments s)).
Definition info (s : t) (i : Z) : option SegmentCommitInfo.t := segments s !! Z.to_nat i.
Definition get_generation (s : t) : Z := generation s.
Definition set_generation (s : t) (g : Z) : t := mk (counter s) g (last_generation s) (user_data s) (segments s).
Definition set_counter (s : t) (c : Z) : t := mk c (generation s) (last_generation s) (user_data s) (segments s).
Definition set_segments (s : t) (l : list SegmentCommitInfo.t) : t :=
  mk (counter s) (generation s) (last_generation s) (user_data s) l.

Section Operations.
Context (to_str_radix : Z -> string).

Definition get_segments_file_name (s : t) : result (option string) :=
  IndexFileNames.file_name_from_generation to_str_radix IndexFileNames.SEGMENTS "" (last_generation s).

Definition set_next_write_generation (g : Z) : ST t unit := fun s =>
  if g <? generation s then (Err IllegalState, s)
  else (Ok tt, set_generation s g).

Fixpoint gather (segments : list SegmentCommitInfo.t) (acc : gset string) : result (gset string) :=
  match segments with
  | [] => Ok acc
  | segment_commit_info :: segments =>
      let? segment_files := SegmentCommitInfo.files segment_commit_info in
      gather segments (acc ∪ segment_files)
  end.

Definition files (s : t) (include_segments_file : bool) : result (gset string) :=
  if (size s =? 1) && negb include_segments_file then
    match info s 0 with
    | None => Err IllegalState
    | Some i => SegmentCommitInfo.files i
    end
  else
    let? acc := (if include_segments_file then
                   let? name := get_segments_file_name s in
                   Ok (match name with Some segment_file_name => {[segment_file_name]} | None => ∅ end)
                 else Ok ∅) in
    gather (segments s) acc.
End Operations.
End SegmentInfos.

(** * Moving the generations past the files of the directory *)

Module InflateGens.
Section Operations.
Context {I : Type} {stream : InfoStream I}.
(** [str::to_lowercase], for the names that are not ASCII. *)
Context (to_lowercase : string -> string).

Definition WRITE_LOCK_NAME : string := "write.lock".

Fixpoint is_ascii (s : string) : bool :=
  match s with
  | EmptyString => true
  | String c s => (nat_of_ascii c <? 128)%nat && is_ascii s
  end.

Definition to_ascii_lowercase (c : ascii) : ascii :=
  let n := nat_of_ascii c in
  if ((65 <=? n) && (n <=? 90))%nat then ascii_of_nat (n + 32) else c.

Fixpoint eq_ignore_ascii_case (a b : string) : bool :=
  match a, b with
  | EmptyString, EmptyString => true
  | String x a, String y b => Ascii.eqb (to_ascii_lowercase x) (to_ascii_lowercase y) && eq_ignore_ascii_case a b
  | _, _ => false
  end.

Definition is_temp_file (file_name : string) : bool :=
  if is_ascii file_name then eq_ignore_ascii_case (str_from (String.length file_name - 4) file_name) ".tmp"
  else ends_with ".tmp" (to_lowercase file_name).

(** The maxima found so far. *)
Record maxima := mk {
  max_segment_gen : Z;
  max_segment_name : Z;
  max_per_segment_gen : gmap string Z }.

Definition no_files : maxima := mk (- 2 ^ 63) (- 2 ^ 63) ∅.

(** A generation that cannot be read is passed over only when the error says the number
    is malformed. *)
Definition or_trash (m : maxima) (g : result Z) (k : Z -> result maxima) : result maxima :=
  match g with
  | Ok gen_ => k gen_
  | Err NumberFormat => Ok m
  | Err e => Err e
  | Panic => Panic
  | OutOfFuel => OutOfFuel
  end.

Definition see_generation (m : maxima) (g : result Z) : result maxima :=
  or_trash m g (fun gen_ => Ok (mk (max_segment_gen m `max` gen_) (max_segment_name m) (max_per_segment_gen m))).

Definition see_segment_file (m : maxima) (file_name : string) : result maxima :=
  let? segment_name := IndexFileNames.parse_segment_name file_name in
  let? _ := debug_assert (starts_with "_" segment_name) in
  if is_temp_file file_name then Ok m
  else
    match Radix.from_str_radix (str_from 1 segment_name) with
    | None => Err ParseIntError
    | Some n =>
        let m := mk (max_segment_gen m) (max_segment_name m `max` n) (max_per_segment_gen m) in
        let cur_gen := default 0 (max_per_segment_gen m !! segment_name) in
        let put g := mk (max_segment_gen m) (max_segment_name m) (<[segment_name := g]> (max_per_segment_gen m)) in
        or_trash (put cur_gen) (IndexFileNames.parse_generation file_name) (fun gen_ => Ok (put (cur_gen `max` gen_)))
    end.

Definition see_file (m : maxima) (file_name : string) : result maxima :=
  if String.eqb file_name WRITE_LOCK_NAME then Ok m
  else if starts_with IndexFileNames.SEGMENTS file_name then
    see_generation m (IndexFileNames.generation_from_segments_file_name file_name)
  else if starts_with IndexFileNames.PENDING_SEGMENTS file_name then
    see_generation m (IndexFileNames.generation_from_segments_file_name (str_from 8 file_name))
  else see_segment_file m file_name.

Fixpoint see_files (m : maxima) (files : list string) : result maxima :=
  match files with
  | [] => Ok m
  | f :: files => let? m := see_file m f in see_files m files
  end.

(** Lifts an operation on the infos, or on the stream. *)
Definition on_infos {A} (o : ST SegmentInfos.t A) : ST (SegmentInfos.t * I) A := fun '(s, i) =>
  let '(r, s) := o s in (r, (s, i)).
Definition on_stream {A} (o : ST I A) : ST (SegmentInfos.t * I) A := fun '(s, i) =>
  let '(r, i) := o i in (r, (s, i)).

Definition segment_at (n : nat) : ST (SegmentInfos.t * I) SegmentCommitInfo.t :=
  on_infos (fun s => (match SegmentInfos.segments s !! n with Some info => Ok info | None => Panic end, s)).
Definition put_segment (n : nat) (info : SegmentCommitInfo.t) : ST (SegmentInfos.t * I) unit :=
  on_infos (fun s => (Ok tt, SegmentInfos.set_segments s (<[n := info]> (SegmentInfos.segments s)))).

(** One of the three counters of the [n]-th segment. *)
Definition inflate_one (get : SegmentCommitInfo.t -> Z) (set : SegmentCommitInfo.t -> Z -> SegmentCommitInfo.t)
    (n : nat) (gen_long : Z) : ST (SegmentInfos.t * I) unit :=
  let* info := segment_at n in
  let* next := slift (add_i64 gen_long 1) in
  if get info <? next then
    let* _ := on_stream log in
    put_segment n (set info next)
  else sret tt.

Definition inflate_segment (maxs : gmap string Z) (n : nat) : ST (SegmentInfos.t * I) unit :=
  let* info := segment_at n in
  match maxs !! SegmentCommitInfo.name info with
  | None => slift (Err IllegalState)
  | Some gen_long =>
      let* _ := inflate_one SegmentCommitInfo.next_write_del_gen SegmentCommitInfo.set_next_write_del_gen n gen_long in
      let* _ := inflate_one SegmentCommitInfo.next_write_field_infos_gen SegmentCommitInfo.set_next_write_field_infos_gen n gen_long in
      inflate_one SegmentCommitInfo.next_write_doc_values_gen SegmentCommitInfo.set_next_write_doc_values_gen n gen_long
  end.

Fixpoint inflate_segments (maxs : gmap string Z) (indices : list nat) : ST (SegmentInfos.t * I) unit :=
  match indices with
  | [] => sret tt
  | n :: indices => let* _ := inflate_segment maxs n in inflate_segments maxs indices
  end.

Definition inflate_gens (files : list string) : ST (SegmentInfos.t * I) unit :=
  let* m := slift (see_files no_files files) in
  let* infos := on_infos sget in
  let next_gen := SegmentInfos.get_generation infos `max` max_segment_gen m in
  let* _ := on_infos (SegmentInfos.set_next_write_generation next_gen) in
  let* desired := slift (add_i64 1 (max_segment_name m)) in
  let* _ := (if SegmentInfos.counter infos <? desired then
               let* _ := on_stream log in
               on_infos (fun s => (Ok tt, SegmentInfos.set_counter s desired))
             else sret tt) in
  inflate_segments (max_per_segment_gen m) (seq 0 (length (SegmentInfos.segments infos))).
End Operations.
End InflateGens.

(** * Correctness *)

Module InflateFacts.
Import InflateGens.

Section Proofs.
Context {I : Type} {stream : InfoStream I} {quiet : QuietInfoStream I} (to_lowercase : string -> string).

(** ** The maxima *)

Definition le_max (m m' : maxima) : Prop :=
  max_segment_gen m <= max_segment_gen m' /\ max_segment_name m <= max_segment_name m' /\
  forall seg g, max_per_segment_gen m !! seg = Some g -> exists g', max_per_segment_gen m' !! seg = Some g' /\ g <= g'.

(** What the name of a file says, and that the maxima are not below it. *)
Definition covers (m : maxima) (f : string) : Prop :=
  if String.eqb f WRITE_LOCK_NAME then True
  else if starts_with IndexFileNames.SEGMENTS f then
    forall g, IndexFileNames.generation_from_segments_file_name f = Ok g -> g <= max_segment_gen m
  else if starts_with IndexFileNames.PENDING_SEGMENTS f then
    forall g, IndexFileNames.generation_from_segments_file_name (str_from 8 f) = Ok g -> g <= max_segment_gen m
  else
    forall seg, IndexFileNames.parse_segment_name f = Ok seg -> is_temp_file to_lowercase f = false ->
    (exists n, Radix.from_str_radix (str_from 1 seg) = Some n /\ n <= max_segment_name m) /\
    exists g', max_per_segment_gen m !! seg = Some g' /\
      forall g, IndexFileNames.parse_generation f = Ok g -> g <= g'.

Lemma le_max_refl m : le_max m m.
Proof. split_and!; [lia..|]. intros seg g ->. by exists g. Qed.

Lemma le_max_trans m1 m2 m3 : le_max m1 m2 -> le_max m2 m3 -> le_max m1 m3.
Proof.
  intros (A1 & B1 & C1) (A2 & B2 & C2). split_and!; [lia..|]. intros seg g Hg.
  destruct (C1 seg g Hg) as (g1 & H1 & ?). destruct (C2 seg g1 H1) as (g2 & H2 & ?). exists g2. split; [done|lia].
Qed.

Lemma covers_mono m m' f : le_max m m' -> covers m f -> covers m' f.
Proof.
  intros (A & B & C). unfold covers. repeat case_match; [done|intros H' g Hg; specialize (H' g Hg); lia..|].
  intros H' seg Hs Ht. destruct (H' seg Hs Ht) as ((n & Hn & ?) & g' & Hg' & Hg).
  destruct (C seg g' Hg') as (g2 & Hg2 & ?). split; [exists n; split; [done|lia]|].
  exists g2. split; [done|]. intros g Hp. specialize (Hg g Hp). lia.
Qed.

Lemma or_trash_ok m g k m' : or_trash m g k = Ok m' -> (exists g', g = Ok g' /\ k g' = Ok m') \/ (g = Err NumberFormat /\ m' = m).
Proof. destruct g as [g'|[]| |]; cbn; intros E; try discriminate; [left; eauto|right]. by injection E as <-. Qed.

Lemma see_generation_ok m g m' : see_generation m g = Ok m' -> le_max m m' /\ forall g', g = Ok g' -> g' <= max_segment_gen m'.
Proof.
  intros [(g' & -> & [= <-])|[-> ->]]%or_trash_ok; [|by split; [apply le_max_refl|]].
  split; [|intros ? [= <-]; cbn; lia]. split_and!; cbn; [lia..|]. intros seg g1 ->. by exists g1.
Qed.

Lemma put_le_max m seg a b g : default 0 (max_per_segment_gen m !! seg) <= g ->
  le_max m (mk (max_segment_gen m `max` a) (max_segment_name m `max` b) (<[seg := g]> (max_per_segment_gen m))).
Proof.
  intros Hg. split_and!; cbn; [lia..|]. intros seg' g' E. destruct (decide (seg' = seg)) as [->|Hne].
  - rewrite lookup_insert_eq. rewrite E in Hg. cbn in Hg. by exists g.
  - rewrite lookup_insert_ne by done. by exists g'.
Qed.

Lemma see_segment_file_ok m f m' : see_segment_file to_lowercase m f = Ok m' -> le_max m m' /\
  forall seg, IndexFileNames.parse_segment_name f = Ok seg -> is_temp_file to_lowercase f = false ->
    (exists n, Radix.from_str_radix (str_from 1 seg) = Some n /\ n <= max_segment_name m') /\
    exists g', max_per_segment_gen m' !! seg = Some g' /\
      forall g, IndexFileNames.parse_generation f = Ok g -> g <= g'.
Proof.
  unfold see_segment_file. intros (seg & Hs & (? & _ & E)%rbind_ok)%rbind_ok. rewrite Hs.
  destruct (is_temp_file to_lowercase f).
  { injection E as <-. split; [apply le_max_refl|done]. }
  destruct (Radix.from_str_radix (str_from 1 seg)) as [n|] eqn:En; [|done]. cbv zeta in E. cbn in E.
  apply or_trash_ok in E as [(g & Hg & [= <-])|[Hg ->]].
  - split; [|intros ? [= <-] _; cbn; rewrite lookup_insert_eq, Hg, En].
    + rewrite <- (Z.max_id (max_segment_gen m)) at 1. apply put_le_max. lia.
    + split; [exists n; split; [done|lia]|]. eexists. split; [done|]. intros ? [= <-]. lia.
  - split; [|intros ? [= <-] _; cbn; rewrite lookup_insert_eq, Hg, En].
    + rewrite <- (Z.max_id (max_segment_gen m)) at 1. apply put_le_max. lia.
    + split; [exists n; split; [done|lia]|]. by eexists.
Qed.

Lemma see_file_ok m f m' : see_file to_lowercase m f = Ok m' -> le_max m m' /\ covers m' f.
Proof.
  unfold see_file, covers. repeat case_match.
  - intros [= <-]. split; [apply le_max_refl|done].
  - apply see_generation_ok.
  - apply see_generation_ok.
  - apply see_segment_file_ok.
Qed.

Lemma see_files_ok files : forall m m', see_files to_lowercase m files = Ok m' -> le_max m m' /\ forall f, f ∈ files -> covers m' f.
Proof.
  induction files as [|f files IH]; intros m m'; cbn [see_files].
  - intros [= <-]. split; [apply le_max_refl|]. by intros f Hf%not_elem_of_nil.
  - intros (m1 & E1 & E2)%rbind_ok. apply see_file_ok in E1 as [L1 C1]. apply IH in E2 as [L2 C2].
    split; [by eapply le_max_trans|]. intros g [->|Hg]%elem_of_cons; [by eapply covers_mono|by apply C2].
Qed.

(** ** Names the scan accepts *)

(** A segments file but the obsolete one, or a file of a segment with readable numbers that
    leave room for one more. *)
Definition well_named (f : string) : Prop :=
  if String.eqb f WRITE_LOCK_NAME then True
  else if starts_with IndexFileNames.SEGMENTS f then f <> IndexFileNames.OLD_SEGMENTS_GEN
  else if starts_with IndexFileNames.PENDING_SEGMENTS f then
    starts_with IndexFileNames.SEGMENTS (str_from 8 f) = true /\ str_from 8 f <> IndexFileNames.OLD_SEGMENTS_GEN
  else
    exists seg, IndexFileNames.parse_segment_name f = Ok seg /\ starts_with "_" seg = true /\
      (is_temp_file to_lowercase f = false ->
       (exists n, Radix.from_str_radix (str_from 1 seg) = Some n /\ n < 2 ^ 63 - 1) /\
       exists g, IndexFileNames.parse_generation f = Ok g /\ g < 2 ^ 63 - 1).

(** The maxima leave room for one more. *)
Definition room (m : maxima) : Prop :=
  max_segment_name m < 2 ^ 63 - 1 /\ - 2 ^ 63 <= max_segment_name m /\
  forall seg g, max_per_segment_gen m !! seg = Some g -> 0 <= g < 2 ^ 63 - 1.

Lemma segments_generation f : starts_with IndexFileNames.SEGMENTS f = true -> f <> IndexFileNames.OLD_SEGMENTS_GEN ->
  IndexFileNames.generation_from_segments_file_name f = Err NumberFormat \/
  exists g, IndexFileNames.generation_from_segments_file_name f = Ok g.
Proof.
  intros Hs Hn. unfold IndexFileNames.generation_from_segments_file_name.
  rewrite (proj2 (String.eqb_neq _ _) Hn), Hs. destruct (String.eqb f _); [eauto|].
  destruct (Radix.from_str_radix _); eauto.
Qed.

Lemma see_generation_total m f : starts_with IndexFileNames.SEGMENTS f = true -> f <> IndexFileNames.OLD_SEGMENTS_GEN ->
  room m -> exists m', see_generation m (IndexFileNames.generation_from_segments_file_name f) = Ok m' /\ room m'.
Proof.
  intros Hs Hn Hr. destruct (segments_generation f Hs Hn) as [->|[g ->]]; eexists; (split; [reflexivity|done]).
Qed.

Lemma see_segment_file_total m f seg : IndexFileNames.parse_segment_name f = Ok seg -> starts_with "_" seg = true ->
  (is_temp_file to_lowercase f = false ->
   (exists n, Radix.from_str_radix (str_from 1 seg) = Some n /\ n < 2 ^ 63 - 1) /\
   exists g, IndexFileNames.parse_generation f = Ok g /\ g < 2 ^ 63 - 1) ->
  room m -> exists m', see_segment_file to_lowercase m f = Ok m' /\ room m'.
Proof.
  intros Hs Hu Hn (R1 & R0 & R2). unfold see_segment_file. rewrite Hs. cbn [rbind]. rewrite Hu. cbn [debug_assert rbind].
  destruct (is_temp_file to_lowercase f); [by exists m|].
  destruct (Hn eq_refl) as ((n & -> & Hb) & g & -> & Hg). cbn. eexists. split; [reflexivity|].
  split_and!; cbn; [lia|lia|]. intros s' g'. rewrite lookup_insert_Some. intros [[<- <-]|[_ E]]; [|by eapply R2].
  destruct (max_per_segment_gen m !! seg) as [c|] eqn:Ec; cbn; [specialize (R2 seg c Ec)|]; lia.
Qed.

Lemma see_files_total files : Forall well_named files -> forall m, room m ->
  exists m', see_files to_lowercase m files = Ok m' /\ room m'.
Proof.
  induction 1 as [|f files Hf _ IH]; intros m Hr; cbn [see_files]; [by exists m|].
  assert (exists m1, see_file to_lowercase m f = Ok m1 /\ room m1) as (m1 & -> & R1); [|by apply IH].
  unfold see_file, well_named in *. repeat case_match; [by exists m|by apply see_generation_total| |].
  - destruct Hf as [Hp Hn]. by apply see_generation_total.
  - destruct Hf as (seg & Hs & Hu & Hn). by eapply see_segment_file_total.
Qed.

(** ** The segments *)

(** The counters of a segment, moved past a generation. *)
Definition past (g : Z) (info : SegmentCommitInfo.t) : SegmentCommitInfo.t :=
  SegmentCommitInfo.mk (SegmentCommitInfo.name info) (SegmentCommitInfo.files info)
    (SegmentCommitInfo.next_write_del_gen info `max` (g + 1)) (SegmentCommitInfo.next_write_field_infos_gen info `max` (g + 1))
    (SegmentCommitInfo.next_write_doc_values_gen info `max` (g + 1)).

Lemma on_stream_log (s : SegmentInfos.t) (i : I) : exists i', on_stream log (s, i) = (Ok tt, (s, i')).
Proof. destruct (log_ok i) as (i' & E). exists i'. unfold on_stream. by rewrite E. Qed.

Lemma inflate_one_ok get set n g (s : SegmentInfos.t) (i : I) info :
  SegmentInfos.segments s !! n = Some info -> set info (get info) = info -> 0 <= g < 2 ^ 63 - 1 ->
  exists i', inflate_one get set n g (s, i)
    = (Ok tt, (SegmentInfos.set_segments s (<[n := set info (get info `max` (g + 1))]> (SegmentInfos.segments s)), i')).
Proof.
  intros Hn Hset Hg. unfold inflate_one, segment_at, put_segment.
  assert (E : on_infos (I := I) (fun s => (match SegmentInfos.segments s !! n with Some info => Ok info | None => Panic end, s)) (s, i)
    = (Ok info, (s, i))) by (unfold on_infos; by rewrite Hn).
  rewrite (sbind_ok _ _ _ _ _ E), slift_sbind, add_i64_ok by (unfold in_s; lia).
  destruct (Z.ltb_spec (get info) (g + 1)) as [Hlt|Hge].
  - destruct (on_stream_log s i) as (i' & El). rewrite (sbind_ok _ _ _ _ _ El). exists i'.
    by replace (get info `max` (g + 1)) with (g + 1) by lia.
  - exists i. replace (get info `max` (g + 1)) with (get info) by lia. rewrite Hset, list_insert_id by done.
    by destruct s.
Qed.

Lemma inflate_segment_ok maxs n g (s : SegmentInfos.t) (i : I) info :
  SegmentInfos.segments s !! n = Some info -> maxs !! SegmentCommitInfo.name info = Some g -> 0 <= g < 2 ^ 63 - 1 ->
  exists i', inflate_segment maxs n (s, i)
    = (Ok tt, (SegmentInfos.set_segments s (<[n := past g info]> (SegmentInfos.segments s)), i')).
Proof.
  intros Hn Hm Hg. unfold inflate_segment, segment_at.
  assert (E : on_infos (I := I) (fun s => (match SegmentInfos.segments s !! n with Some info => Ok info | None => Panic end, s)) (s, i)
    = (Ok info, (s, i))) by (unfold on_infos; by rewrite Hn).
  rewrite (sbind_ok _ _ _ _ _ E), Hm. pose proof (lookup_lt_Some _ _ _ Hn) as Hlt.
  assert (Hat : forall x, (<[n := x]> (SegmentInfos.segments s)) !! n = Some x) by (intros; by apply list_lookup_insert_eq).
  destruct (inflate_one_ok SegmentCommitInfo.next_write_del_gen SegmentCommitInfo.set_next_write_del_gen n g s i info)
    as (i1 & E1); [done|by destruct info|done|].
  rewrite (sbind_ok _ _ _ _ _ E1). set (s1 := SegmentInfos.set_segments s _).
  destruct (inflate_one_ok SegmentCommitInfo.next_write_field_infos_gen SegmentCommitInfo.set_next_write_field_infos_gen n g s1 i1 _ (Hat _))
    as (i2 & E2); [done|done|]. rewrite (sbind_ok _ _ _ _ _ E2). set (s2 := SegmentInfos.set_segments s1 _).
  assert (Hs2 : forall x, SegmentInfos.set_segments s2 (<[n := x]> (SegmentInfos.segments s2)) = SegmentInfos.set_segments s (<[n := x]> (SegmentInfos.segments s))).
  { intros x. unfold s2, s1, SegmentInfos.set_segments. cbn. by rewrite !list_insert_insert_eq. }
  destruct (inflate_one_ok SegmentCommitInfo.next_write_doc_values_gen SegmentCommitInfo.set_next_write_doc_values_gen n g s2 i2
    (SegmentCommitInfo.set_next_write_field_infos_gen (SegmentCommitInfo.set_next_write_del_gen info (SegmentCommitInfo.next_write_del_gen info `max` (g + 1)))
       (SegmentCommitInfo.next_write_field_infos_gen info `max` (g + 1)))) as (i3 & E3); [|done|done|].
  - unfold s2. cbn. apply list_lookup_insert_eq. by rewrite length_insert.
  - exists i3. rewrite E3, Hs2. done.
Qed.

(** The counters of a segment whose files have been seen. *)
Definition inflated (maxs : gmap string Z) (info : SegmentCommitInfo.t) : SegmentCommitInfo.t :=
  past (default 0 (maxs !! SegmentCommitInfo.name info)) info.

Lemma inflate_segments_ok maxs indices : (forall seg g, maxs !! seg = Some g -> 0 <= g < 2 ^ 63 - 1) -> NoDup indices ->
  forall (s : SegmentInfos.t) (i : I),
  (forall n, n ∈ indices -> exists info, SegmentInfos.segments s !! n = Some info /\ is_Some (maxs !! SegmentCommitInfo.name info)) ->
  exists l i', inflate_segments maxs indices (s, i) = (Ok tt, (SegmentInfos.set_segments s l, i')) /\
    forall n, l !! n = (if decide (n ∈ indices) then inflated maxs <$> SegmentInfos.segments s !! n else SegmentInfos.segments s !! n).
Proof.
  intros Hm. induction 1 as [|n indices Hn Hd IH]; intros s i Hs; cbn [inflate_segments].
  - exists (SegmentInfos.segments s), i. split; [by destruct s|done].
  - destruct (Hs n) as (info & Hi & [g Hg]); [by left|].
    destruct (inflate_segment_ok maxs n g s i info Hi Hg (Hm _ _ Hg)) as (i1 & E1). rewrite (sbind_ok _ _ _ _ _ E1).
    set (s1 := SegmentInfos.set_segments s _). pose proof (lookup_lt_Some _ _ _ Hi) as Hlt.
    destruct (IH s1 i1) as (l & i2 & -> & Hl).
    { intros k Hk. destruct (Hs k) as (info' & Hk' & Hsome); [by right|]. exists info'. split; [|done].
      cbn. rewrite list_lookup_insert_ne; [done|]. intros ->. done. }
    exists l, i2. split; [done|]. intros k. rewrite Hl. cbn. destruct (decide (k ∈ indices)) as [Hk|Hk].
    + rewrite decide_True by by right. rewrite list_lookup_insert_ne; [done|]. intros ->. done.
    + destruct (decide (k = n)) as [->|Hne].
      * rewrite decide_True by by left. rewrite list_lookup_insert_eq by done. rewrite Hi. cbn. unfold inflated. by rewrite Hg.
      * rewrite decide_False by (intros [|]%elem_of_cons; done). by rewrite list_lookup_insert_ne.
Qed.

(** A number that no file written by the index may carry: each file of the directory has a
    smaller one. *)
Definition fresh (s : SegmentInfos.t) (f : string) : Prop :=
  if String.eqb f WRITE_LOCK_NAME then True
  else if starts_with IndexFileNames.SEGMENTS f then
    forall g, IndexFileNames.generation_from_segments_file_name f = Ok g -> g <= SegmentInfos.generation s
  else if starts_with IndexFileNames.PENDING_SEGMENTS f then
    forall g, IndexFileNames.generation_from_segments_file_name (str_from 8 f) = Ok g -> g <= SegmentInfos.generation s
  else
    forall seg, IndexFileNames.parse_segment_name f = Ok seg -> is_temp_file to_lowercase f = false ->
    (exists n, Radix.from_str_radix (str_from 1 seg) = Some n /\ n < SegmentInfos.counter s) /\
    forall g info, IndexFileNames.parse_generation f = Ok g -> info ∈ SegmentInfos.segments s ->
      SegmentCommitInfo.name info = seg ->
      g < SegmentCommitInfo.next_write_del_gen info /\ g < SegmentCommitInfo.next_write_field_infos_gen info /\
      g < SegmentCommitInfo.next_write_doc_values_gen info.

(** The file belongs to the segment. *)
Definition file_of (seg f : string) : Prop :=
  String.eqb f WRITE_LOCK_NAME = false /\ starts_with IndexFileNames.SEGMENTS f = false /\
  starts_with IndexFileNames.PENDING_SEGMENTS f = false /\
  IndexFileNames.parse_segment_name f = Ok seg /\ is_temp_file to_lowercase f = false.

Lemma covers_file_of m seg f : covers m f -> file_of seg f -> is_Some (max_per_segment_gen m !! seg).
Proof.
  unfold covers. intros Hc (E0 & E1 & E2 & Hp & Ht). rewrite E0, E1, E2 in Hc.
  destruct (Hc seg Hp Ht) as (_ & g & -> & _). done.
Qed.

Lemma covers_fresh m s l f : covers m f ->
  (forall info, info ∈ l -> exists old, info = inflated (max_per_segment_gen m) old) ->
  fresh (SegmentInfos.mk (SegmentInfos.counter s `max` (1 + max_segment_name m))
    (SegmentInfos.generation s `max` max_segment_gen m) (SegmentInfos.last_generation s) (SegmentInfos.user_data s) l) f.
Proof.
  unfold covers, fresh. intros Hc Hl. repeat case_match; [done|intros g Hg; specialize (Hc g Hg); cbn; lia..|].
  intros seg Hs Ht. destruct (Hc seg Hs Ht) as ((n & Hn & ?) & g' & Hg' & Hle). cbn. split; [exists n; split; [done|lia]|].
  intros g info Hg Hin Hname. destruct (Hl info Hin) as (old & ->). cbn in Hname. specialize (Hle g Hg).
  unfold inflated. cbn. rewrite Hname, Hg'. cbn. lia.
Qed.

Lemma inflate_counter_ok s next desired (i : I) : exists i1,
  (if SegmentInfos.counter s <? desired then
     let* _ := on_stream log in on_infos (fun s => (Ok tt, SegmentInfos.set_counter s desired))
   else sret tt) (SegmentInfos.set_generation s next, i)
  = (Ok tt, (SegmentInfos.mk (SegmentInfos.counter s `max` desired) next (SegmentInfos.last_generation s)
      (SegmentInfos.user_data s) (SegmentInfos.segments s), i1)).
Proof.
  destruct (Z.ltb_spec (SegmentInfos.counter s) desired) as [Hlt|Hge].
  - destruct (on_stream_log (SegmentInfos.set_generation s next) i) as (i1 & El). exists i1.
    rewrite (sbind_ok _ _ _ _ _ El). by rewrite Z.max_r by lia.
  - exists i. by rewrite Z.max_l by lia.
Qed.

(** C16: the numbers the index uses next are new. The scan of [inflate_gens] over the files of
    the directory - including those a crashed writer left behind - succeeds when every name
    is [well_named] (that of the lock, of a segments or pending segments file other than
    [segments.gen], or a segment file with readable numbers below [i64::MAX], which a
    temporary file need not have), every segment has a file among them and the info stream takes
    its messages ([QuietInfoStream]). Then the generation of the commits is at least that of
    every segments file and pending segments file, so that the next one lies past it, and the
    counter that names the next segment and the next generations of every segment lie past the
    numbers of every segment file that is not temporary; the numbers of [.tmp] files, which
    the scan passes over, and unreadable generations of segments files bind nothing. Nothing is
    moved back, and the segments keep their names and files. *)
Theorem inflate_gens_fresh (files : list string) (s : SegmentInfos.t) (i : I) :
  Forall well_named files ->
  (forall info, info ∈ SegmentInfos.segments s -> exists f, f ∈ files /\ file_of (SegmentCommitInfo.name info) f) ->
  exists s' i', inflate_gens to_lowercase files (s, i) = (Ok tt, (s', i')) /\
    Forall (fresh s') files /\
    SegmentInfos.generation s <= SegmentInfos.generation s' /\ SegmentInfos.counter s <= SegmentInfos.counter s' /\
    SegmentInfos.last_generation s' = SegmentInfos.last_generation s /\
    Forall2 (fun info info' => exists g, 0 <= g /\ info' = past g info) (SegmentInfos.segments s) (SegmentInfos.segments s').
Proof.
  intros Hw Hs. destruct (see_files_total files Hw no_files) as (m & E & R1 & R0 & R2).
  { split_and!; cbn; [lia..|]. intros seg g. by rewrite lookup_empty. }
  destruct (see_files_ok files _ _ E) as [_ Hc].
  unfold inflate_gens. rewrite E, slift_sbind. cbn beta iota. change (on_infos sget (s, i)) with (Ok s, (s, i)).
  rewrite (sbind_ok (on_infos sget) _ (s, i) s (s, i) eq_refl).
  set (next := SegmentInfos.get_generation s `max` max_segment_gen m).
  assert (E1 : on_infos (I := I) (SegmentInfos.set_next_write_generation next) (s, i) = (Ok tt, (SegmentInfos.set_generation s next, i))).
  { unfold on_infos, SegmentInfos.set_next_write_generation. rewrite (proj2 (Z.ltb_ge _ _)); [done|].
    unfold next, SegmentInfos.get_generation. lia. }
  rewrite (sbind_ok _ _ _ _ _ E1), slift_sbind, add_i64_ok by (unfold in_s; lia). cbn beta iota.
  destruct (inflate_counter_ok s next (1 + max_segment_name m) i) as (i1 & E2).
  rewrite (sbind_ok _ _ _ _ _ E2). set (s1 := SegmentInfos.mk _ next _ _ _).
  destruct (inflate_segments_ok (max_per_segment_gen m) (seq 0 (length (SegmentInfos.segments s))) R2 (NoDup_seq _ _) s1 i1)
    as (l & i2 & -> & Hl).
  { intros n [_ Hn]%elem_of_seq. destruct (lookup_lt_is_Some_2 (SegmentInfos.segments s) n Hn) as [info Hi]. exists info.
    split; [done|]. destruct (Hs info) as (f & Hf & Hfo); [by eapply list_elem_of_lookup_2|]. by eapply covers_file_of, Hfo; apply Hc. }
  assert (Hl' : forall n, l !! n = inflated (max_per_segment_gen m) <$> SegmentInfos.segments s !! n).
  { intros n. rewrite Hl. case_decide as Hn; [done|]. rewrite elem_of_seq in Hn. cbn.
    destruct (SegmentInfos.segments s !! n) eqn:En; [|done]. apply lookup_lt_Some in En. lia. }
  exists (SegmentInfos.set_segments s1 l), i2. split; [done|]. cbn. split_and!; [|unfold next, SegmentInfos.get_generation; lia|lia|done|].
  - apply Forall_forall. intros f Hf. apply (covers_fresh m s l f); [by apply Hc|]. intros info [n Hn]%list_elem_of_lookup.
    rewrite Hl' in Hn. apply fmap_Some in Hn as (old & _ & ->). by exists old.
  - apply Forall2_lookup. intros n. rewrite Hl'. destruct (SegmentInfos.segments s !! n) as [info|]; cbn; [|by constructor]. constructor.
    exists (default 0 (max_per_segment_gen m !! SegmentCommitInfo.name info)). split; [|done].
    destruct (max_per_segment_gen m !! _) as [g|] eqn:Eg; cbn; [apply R2 in Eg|]; lia.
Qed.
End Proofs.

(** ** A directory with the leavings of a crashed writer *)

#[global] Instance silent : InfoStream unit := {| is_enabled := fun _ => false; message := sret tt |}.
#[global] Instance silent_quiet : QuietInfoStream unit.
Proof. split. intros []. by exists tt. Qed.

Definition sample_segment : SegmentCommitInfo.t := SegmentCommitInfo.mk "_0" (Ok {["_0.cfs"]}) 1 1 1.
Definition sample_infos : SegmentInfos.t := SegmentInfos.mk 1 3 3 ∅ [sample_segment].
Definition sample_files : list string :=
  ["write.lock"; "segments_3"; "pending_segments_5"; "segments_x!"; "_0.cfs"; "_0_4.liv"; "_z.tmp"; "_b.fdt"].

Lemma inflate_gens_fresh_witness : exists s' i',
  inflate_gens (fun s => s) sample_files (sample_infos, tt) = (Ok tt, (s', i')) /\
  SegmentInfos.generation s' = 5 /\ SegmentInfos.counter s' = 12 /\
  SegmentCommitInfo.next_write_del_gen <$> SegmentInfos.segments s' = [5] /\ Forall (fresh (fun s => s) s') sample_files.
Proof.
  destruct (inflate_gens_fresh (fun s => s) sample_files sample_infos tt) as (s' & i' & E & Hf & _).
  - repeat (apply Forall_cons; split); [..|by apply Forall_nil].
    all: unfold well_named; cbn -[Z.pow].
    + done.
    + done.
    + done.
    + done.
    + exists "_0". split_and!; [done..|]. intros _. split; [by exists 0|by exists 0].
    + exists "_0". split_and!; [done..|]. intros _. split; [by exists 0|by exists 4].
    + exists "_z". by split_and!.
    + exists "_b". split_and!; [done..|]. intros _. split; [by exists 11|by exists 0].
  - intros info [->|[]%not_elem_of_nil]%elem_of_cons. exists "_0.cfs". split; [set_solver|]. by split_and!.
  - exists s', i'. split; [done|]. assert (E' := E). vm_compute in E'. injection E' as <- <-. by split_and!.
Defined.

(** A codec file whose generation is no number stops the scan with a [ParseIntError],
    although such files are meant to be passed over. *)
Example trash_stops_scan :
  inflate_gens (fun s => s) ["segments_3"; "_0.cfs"; "_0_x!.tmpx"] (sample_infos, tt) = (Err ParseIntError, (sample_infos, tt)).
Proof. reflexivity. Qed.
End InflateFacts.
