(* ===== verification/DeletionPolicy.v ===== *)
(** Commits and the policies that decide which of them go: [IndexCommit], [CommitPoint],
    [IndexDeletionPolicy] and its implementations (src/core/index/index_commit.rs,
    index_file_deleter.rs, index_deletion_policy.rs, keep_only_last_commit_deletion_policy.rs,
    no_deletion_policy.rs, snapshot_deletion_policy.rs). *)

From Stdlib Require Import ZArith Lia Bool.
From stdpp Require Import base tactics numbers list gmap strings.
From S2P Require Import Prelude.

Local Open Scope Z_scope.

(** * Commits *)

(** What commits share with the deleter: the flags [deleted] of the commits, by the identity
    of the commit, and the flag that says some commit was marked. *)
Module Marks.
Record t := mk {
  deleted : gset nat;
  commits_to_delete : bool;
  next : nat }.

Definition empty : t := mk ∅ false 0.
End Marks.

Module CommitPoint.
(** [id] stands for the identity of the shared object. *)
Record t := mk {
  id : nat;
  files : list string;
  segments_file_name : string;
  generation : Z;
  user_data : gmap string string;
  segment_count : Z }.

Definition is_deleted_ (c : t) (m : Marks.t) : bool := bool_decide (id c ∈ Marks.deleted m).

Definition delete_ (c : t) : ST Marks.t unit := fun m =>
  (Ok tt, if is_deleted_ c m then m
          else Marks.mk ({[id c]} ∪ Marks.deleted m) true (Marks.next m)).
End CommitPoint.

(** [IndexCommit]: what the policies use of a commit. *)
Class IndexCommit (C : Type) := {
  delete_commit : C -> ST Marks.t unit;
  get_generation : C -> Z }.

#[global] Instance commit_point : IndexCommit CommitPoint.t := {|
  delete_commit := CommitPoint.delete_;
  get_generation := CommitPoint.generation |}.

(** * Keeping the last commit, keeping all *)

Module KeepOnlyLastCommitDeletionPolicy.
Fixpoint delete_each {C} `{IndexCommit C} (commits : list C) : ST Marks.t unit :=
  match commits with
  | [] => sret tt
  | commit :: commits => let* _ := delete_commit commit in delete_each commits
  end.

Definition on_commit {C} `{IndexCommit C} (commits : list C) : ST Marks.t unit :=
  let size := (length commits - 1)%nat in
  delete_each (take size commits).

Definition on_init {C} `{IndexCommit C} (commits : list C) : ST Marks.t unit := on_commit commits.
End KeepOnlyLastCommitDeletionPolicy.

Module NoDeletionPolicy.
Definition on_commit {C} `{IndexCommit C} (commits : list C) : ST Marks.t unit := sret tt.
Definition on_init {C} `{IndexCommit C} (commits : list C) : ST Marks.t unit := sret tt.
End NoDeletionPolicy.

(** * Snapshots *)

Module Snapshots.
(** [Inner]: how many snapshots are held of each generation, and the commits held. *)
Record Inner := mk {
  ref_counts : gmap Z Z;
  index_commits : gmap Z CommitPoint.t;
  last_commit : option CommitPoint.t;
  init_called : bool }.

Definition new : Inner := mk ∅ ∅ None false.

(** [SnapshotCommitPoint]: a commit that a held snapshot keeps from deletion; the policy is
    locked while such wrappers exist. *)
Record SnapshotCommitPoint := wrap { inner : Inner; cp : CommitPoint.t }.

Definition delete_ (c : SnapshotCommitPoint) : ST Marks.t unit :=
  if bool_decide (is_Some (ref_counts (inner c) !! CommitPoint.generation (cp c))) then sret tt
  else CommitPoint.delete_ (cp c).

#[global] Instance snapshot_commit_point : IndexCommit SnapshotCommitPoint := {|
  delete_commit := delete_;
  get_generation := fun c => CommitPoint.generation (cp c) |}.

Definition wrap_commits (i : Inner) (commits : list CommitPoint.t) : list SnapshotCommitPoint :=
  wrap i <$> commits.

Definition release_gen (generation : Z) : ST Inner unit := fun i =>
  if negb (init_called i) then (Err IllegalState, i)
  else
    match ref_counts i !! generation with
    | None => (Err IllegalArgument, i)
    | Some ref_count =>
        if negb (0 <? ref_count) then (Panic, i)
        else
          let ref_count := ref_count - 1 in
          if ref_count =? 0 then
            (Ok tt, mk (delete generation (ref_counts i)) (delete generation (index_commits i)) (last_commit i) (init_called i))
          else
            (Ok tt, mk (<[generation := ref_count]> (ref_counts i)) (index_commits i) (last_commit i) (init_called i))
    end.

Definition release (commit : CommitPoint.t) : ST Inner unit := release_gen (CommitPoint.generation commit).

(** The count is an [i32]: one more than [i32::MAX] overflows. *)
Definition inc_ref (ic : CommitPoint.t) : ST Inner unit := fun i =>
  let generation := CommitPoint.generation ic in
  let ref_count := default 0 (ref_counts i !! generation) in
  let commits := if ref_count =? 0 then <[generation := ic]> (index_commits i) else index_commits i in
  if ref_count + 1 <? 2 ^ 31 then
    (Ok tt, mk (<[generation := ref_count + 1]> (ref_counts i)) commits (last_commit i) (init_called i))
  else (Panic, mk (ref_counts i) commits (last_commit i) (init_called i)).

Definition snapshot : ST Inner CommitPoint.t :=
  let* i := sget in
  if negb (init_called i) then slift (Err IllegalState)
  else
    match last_commit i with
    | None => slift (Err IllegalState)
    | Some last_commit =>
        let* _ := inc_ref last_commit in
        sret last_commit
    end.

(** In the order of the map. *)
Definition get_snapshots (i : Inner) : list CommitPoint.t := (map_to_list (index_commits i)).*2.

Definition get_snapshot_count (i : Inner) : Z := map_fold (fun _ n acc => n + acc) 0 (ref_counts i).

Definition get_index_commit (i : Inner) (generation : Z) : option CommitPoint.t := index_commits i !! generation.
End Snapshots.

(** * The policies *)

Module IndexDeletionPolicyEnum.
Inductive t :=
| KeepOnlyLastCommit
| No
| Snapshot (primary : t) (inner : Snapshots.Inner).

(** The policy on commits wrapped by a snapshot policy. *)
Definition on_init_wrapped (policy : t) (commits : list Snapshots.SnapshotCommitPoint) : ST Marks.t unit :=
  match policy with
  | KeepOnlyLastCommit => KeepOnlyLastCommitDeletionPolicy.on_init commits
  | No => NoDeletionPolicy.on_init commits
  | Snapshot _ _ => slift (Err IllegalArgument)
  end.

Definition on_commit_wrapped (policy : t) (commits : list Snapshots.SnapshotCommitPoint) : ST Marks.t unit :=
  match policy with
  | KeepOnlyLastCommit => KeepOnlyLastCommitDeletionPolicy.on_commit commits
  | No => NoDeletionPolicy.on_commit commits
  | Snapshot _ _ => slift (Err IllegalArgument)
  end.

(** [SnapshotDeletionPolicy::on_init]. *)
Fixpoint refresh_commits (commits : list CommitPoint.t) (i : Snapshots.Inner) : Snapshots.Inner :=
  match commits with
  | [] => i
  | commit :: commits =>
      refresh_commits commits
        (if bool_decide (is_Some (Snapshots.ref_counts i !! CommitPoint.generation commit)) then
           Snapshots.mk (Snapshots.ref_counts i) (<[CommitPoint.generation commit := commit]> (Snapshots.index_commits i))
             (Snapshots.last_commit i) (Snapshots.init_called i)
         else i)
  end.

Definition snapshot_on_init (primary : t) (i : Snapshots.Inner) (commits : list CommitPoint.t) : ST (Marks.t * t) unit :=
  fun '(m, _) =>
    let i := Snapshots.mk (Snapshots.ref_counts i) (Snapshots.index_commits i) (Snapshots.last_commit i) true in
    let wrapped_commits := Snapshots.wrap_commits i commits in
    match on_init_wrapped primary wrapped_commits m with
    | (Ok _, m) =>
        let i := refresh_commits commits i in
        let last_commit := match last commits with Some c => Some c | None => Snapshots.last_commit i end in
        (Ok tt, (m, Snapshot primary
          (Snapshots.mk (Snapshots.ref_counts i) (Snapshots.index_commits i) last_commit (Snapshots.init_called i))))
    | (r, m) => (r, (m, Snapshot primary i))
    end.

(** [SnapshotDeletionPolicy::on_commit]. *)
Definition snapshot_on_commit (primary : t) (i : Snapshots.Inner) (commits : list CommitPoint.t) : ST (Marks.t * t) unit :=
  fun '(m, _) =>
    let wrapped_commits := Snapshots.wrap_commits i commits in
    match on_commit_wrapped primary wrapped_commits m with
    | (Ok _, m) =>
        (Ok tt, (m, Snapshot primary
          (Snapshots.mk (Snapshots.ref_counts i) (Snapshots.index_commits i) (last commits) (Snapshots.init_called i))))
    | (r, m) => (r, (m, Snapshot primary i))
    end.

(** A policy without state. *)
Definition stateless (m : ST Marks.t unit) : ST (Marks.t * t) unit := fun '(s, p) =>
  let '(r, s) := m s in (r, (s, p)).

Definition on_init_ (commits : list CommitPoint.t) : ST (Marks.t * t) unit := fun '(m, policy) =>
  match policy with
  | KeepOnlyLastCommit => stateless (KeepOnlyLastCommitDeletionPolicy.on_init commits) (m, policy)
  | No => stateless (NoDeletionPolicy.on_init commits) (m, policy)
  | Snapshot primary i => snapshot_on_init primary i commits (m, policy)
  end.

Definition on_commit_ (commits : list CommitPoint.t) : ST (Marks.t * t) unit := fun '(m, policy) =>
  match policy with
  | KeepOnlyLastCommit => stateless (KeepOnlyLastCommitDeletionPolicy.on_commit commits) (m, policy)
  | No => stateless (NoDeletionPolicy.on_commit commits) (m, policy)
  | Snapshot primary i => snapshot_on_commit primary i commits (m, policy)
  end.
End IndexDeletionPolicyEnum.

(** * What a policy promises to the deleter *)

(** [IndexDeletionPolicy]. *)
Class IndexDeletionPolicy (P : Type) := {
  on_init : list CommitPoint.t -> ST (Marks.t * P) unit;
  on_commit : list CommitPoint.t -> ST (Marks.t * P) unit }.

(** [m'] comes from [m] by marking commits of the list, and the flag says so. *)
Record marked (commits : list CommitPoint.t) (m m' : Marks.t) : Prop := {
  marked_next : Marks.next m' = Marks.next m;
  marked_keeps : Marks.deleted m ⊆ Marks.deleted m';
  marked_only : Marks.deleted m' ⊆ Marks.deleted m ∪ list_to_set (CommitPoint.id <$> commits);
  marked_flag : Marks.commits_to_delete m = true -> Marks.commits_to_delete m' = true;
  marked_says : Marks.commits_to_delete m' = false -> Marks.deleted m' = Marks.deleted m }.

(** Whatever its outcome, a policy does nothing but mark commits it was given. *)
Class PolicySpec (P : Type) `{IndexDeletionPolicy P} := {
  on_init_marks : forall commits m p r m' p', on_init commits (m, p) = (r, (m', p')) -> marked commits m m';
  on_commit_marks : forall commits m p r m' p', on_commit commits (m, p) = (r, (m', p')) -> marked commits m m' }.

#[global] Instance policy_enum : IndexDeletionPolicy IndexDeletionPolicyEnum.t := {|
  on_init := IndexDeletionPolicyEnum.on_init_;
  on_commit := IndexDeletionPolicyEnum.on_commit_ |}.

(** * Correctness *)

Module PolicyFacts.
Import IndexDeletionPolicyEnum.

Lemma marked_refl commits m : marked commits m m.
Proof. by split; [..|set_solver|done|]. Qed.

Lemma marked_trans commits m1 m2 m3 : marked commits m1 m2 -> marked commits m2 m3 -> marked commits m1 m3.
Proof.
  intros [N1 K1 O1 F1 S1] [N2 K2 O2 F2 S2]. split; [congruence|by etrans| |auto|].
  - intros x Hx%O2. apply elem_of_union in Hx as [Hx%O1|Hx]; [done|]. by apply elem_of_union_r.
  - intros E. rewrite S2 by done. apply S1. destruct (Marks.commits_to_delete m2); [by rewrite F2 in E|done].
Qed.

Lemma marked_weaken l l' m m' : l ⊆ l' -> marked l m m' -> marked l' m m'.
Proof.
  intros Hs [? ? Ho ? ?]. split; try done. intros x Hx%Ho. apply elem_of_union in Hx as [|Hx]; [set_solver|].
  apply elem_of_union_r, elem_of_list_to_set. apply elem_of_list_to_set, list_elem_of_fmap in Hx as (c & -> & Hc).
  apply list_elem_of_fmap. eauto.
Qed.

Lemma take_subset {A} n (l : list A) : take n l ⊆ l.
Proof. intros x (i & Hi & _)%elem_of_take. by eapply list_elem_of_lookup_2. Qed.

Lemma delete_marks c m : exists m', CommitPoint.delete_ c m = (Ok tt, m') /\ marked [c] m m' /\
  Marks.deleted m' = {[CommitPoint.id c]} ∪ Marks.deleted m.
Proof.
  unfold CommitPoint.delete_, CommitPoint.is_deleted_. case_bool_decide as E.
  - exists m. split_and!; [done|apply marked_refl|set_solver].
  - eexists. split; [done|]. split; [|done]. split; cbn; try done; set_solver.
Qed.

(** What [delete_each] of the first policy marks, for commits that guard their deletion. *)
Lemma delete_each_marks {C} `{IndexCommit C} (point : C -> CommitPoint.t) (guarded : C -> bool) :
  (forall c m, delete_commit c m = if guarded c then (Ok tt, m) else CommitPoint.delete_ (point c) m) ->
  forall commits m, exists m', KeepOnlyLastCommitDeletionPolicy.delete_each commits m = (Ok tt, m') /\
    marked (point <$> commits) m m' /\
    Marks.deleted m' = Marks.deleted m ∪ list_to_set (CommitPoint.id ∘ point <$> base.filter (fun c => guarded c = false) commits).
Proof.
  intros Hd. induction commits as [|c commits IH]; intros m; cbn [KeepOnlyLastCommitDeletionPolicy.delete_each].
  - exists m. split_and!; [done|apply marked_refl|set_solver].
  - assert (exists m1, delete_commit c m = (Ok tt, m1) /\ marked (point <$> c :: commits) m m1 /\
      Marks.deleted m1 = (if guarded c then ∅ else {[CommitPoint.id (point c)]}) ∪ Marks.deleted m) as (m1 & E1 & M1 & D1).
    { rewrite Hd. destruct (guarded c); [exists m; split_and!; [done|apply marked_refl|set_solver]|].
      destruct (delete_marks (point c) m) as (m1 & -> & M1 & D1). exists m1. split_and!; try done.
      eapply marked_weaken; [|done]. set_solver. }
    rewrite (sbind_ok _ _ _ _ _ E1). destruct (IH m1) as (m2 & -> & M2 & D2). exists m2. split_and!; [done| |].
    + eapply marked_trans; [done|]. eapply marked_weaken; [|done]. set_solver.
    + rewrite D2, D1. destruct (guarded c) eqn:E.
      * rewrite filter_cons_False by congruence. set_solver.
      * rewrite filter_cons_True by done. cbn. set_solver.
Qed.

(** The generation is held by a snapshot. *)
Definition held (i : Snapshots.Inner) (c : CommitPoint.t) : bool :=
  bool_decide (is_Some (Snapshots.ref_counts i !! CommitPoint.generation c)).

(** What a policy marks. *)
Definition condemned (p : t) (commits : list CommitPoint.t) : list CommitPoint.t :=
  match p with
  | KeepOnlyLastCommit => take (length commits - 1) commits
  | No => []
  | Snapshot KeepOnlyLastCommit i => base.filter (fun c => held i c = false) (take (length commits - 1) commits)
  | Snapshot _ _ => []
  end.

Lemma keep_last_marks commits m : exists m',
  KeepOnlyLastCommitDeletionPolicy.on_commit commits m = (Ok tt, m') /\ marked commits m m' /\
  Marks.deleted m' = Marks.deleted m ∪ list_to_set (CommitPoint.id <$> take (length commits - 1) commits).
Proof.
  destruct (delete_each_marks (C := CommitPoint.t) (fun c => c) (fun _ => false) ltac:(done) (take (length commits - 1) commits) m)
    as (m' & E & M & D). exists m'. split_and!; [exact E| |].
  - eapply marked_weaken; [|done]. rewrite list_fmap_id. apply take_subset.
  - rewrite D. do 2 f_equal. generalize (take (length commits - 1) commits). intros l.
    induction l as [|c l IH]; [done|].
    rewrite filter_cons_True by done. by rewrite !fmap_cons, IH.
Qed.

Lemma keep_last_wrapped_marks i commits m : exists m',
  KeepOnlyLastCommitDeletionPolicy.on_commit (Snapshots.wrap_commits i commits) m = (Ok tt, m') /\ marked commits m m' /\
  Marks.deleted m' = Marks.deleted m ∪
    list_to_set (CommitPoint.id <$> base.filter (fun c => held i c = false) (take (length commits - 1) commits)).
Proof.
  unfold KeepOnlyLastCommitDeletionPolicy.on_commit, Snapshots.wrap_commits. rewrite length_fmap, <- fmap_take.
  set (l := take _ commits).
  destruct (delete_each_marks Snapshots.cp (fun c => held (Snapshots.inner c) (Snapshots.cp c))) with (commits := Snapshots.wrap i <$> l) (m := m)
    as (m' & E & M & D).
  { intros c m0. cbn. unfold Snapshots.delete_, held. by case_bool_decide. }
  exists m'. split_and!; [exact E| |].
  - eapply marked_weaken; [|done]. rewrite <- list_fmap_compose, list_fmap_id.
    apply take_subset.
  - rewrite D. do 2 f_equal. clear. induction l as [|c l IH]; [done|].
    rewrite fmap_cons, !filter_cons. cbn [Snapshots.inner Snapshots.cp]. case_decide; rewrite ?fmap_cons, IH; done.
Qed.

(** Every branch of [on_commit]: what is marked and when it fails. *)
Lemma on_commit_spec p commits m : exists r m' p', on_commit_ commits (m, p) = (r, (m', p')) /\ marked commits m m' /\
  Marks.deleted m' = Marks.deleted m ∪ list_to_set (CommitPoint.id <$> condemned p commits) /\
  (r = match p with Snapshot (Snapshot _ _) _ => Err IllegalArgument | _ => Ok tt end) /\
  p' = match p with
       | Snapshot (Snapshot _ _) _ | KeepOnlyLastCommit | No => p
       | Snapshot q i => Snapshot q (Snapshots.mk (Snapshots.ref_counts i) (Snapshots.index_commits i) (last commits) (Snapshots.init_called i))
       end.
Proof.
  destruct p as [| |[| |q j] i]; cbn [on_commit_ condemned].
  - destruct (keep_last_marks commits m) as (m' & E & M & D). unfold stateless. rewrite E. by eexists _, m', _.
  - eexists _, m, _. split_and!; [done|apply marked_refl|set_solver|done|done].
  - destruct (keep_last_wrapped_marks i commits m) as (m' & E & M & D).
    unfold snapshot_on_commit. cbn [on_commit_wrapped]. rewrite E. by eexists _, m', _.
  - eexists _, m, _. split_and!; [done|apply marked_refl|set_solver|done|done].
  - eexists _, m, _. split_and!; [done|apply marked_refl|set_solver|done|done].
Qed.

Lemma on_init_marks_only p commits m r m' p' : on_init_ commits (m, p) = (r, (m', p')) -> marked commits m m'.
Proof.
  destruct p as [| |[| |q j] i]; cbn [on_init_]; [| |unfold snapshot_on_init..]; cbn [on_init_wrapped].
  - destruct (keep_last_marks commits m) as (m1 & E & M & _). unfold stateless, KeepOnlyLastCommitDeletionPolicy.on_init.
    rewrite E. by intros [= _ <- _].
  - intros [= _ <- _]. apply marked_refl.
  - unfold KeepOnlyLastCommitDeletionPolicy.on_init. destruct (keep_last_wrapped_marks (Snapshots.mk (Snapshots.ref_counts i)
      (Snapshots.index_commits i) (Snapshots.last_commit i) true) commits m) as (m1 & E & M & _).
    rewrite E. by intros [= _ <- _].
  - intros [= _ <- _]. apply marked_refl.
  - intros [= _ <- _]. apply marked_refl.
Qed.

(** ** Taking and releasing snapshots *)

(** Every snapshot counted holds its commit, and no other commit is held. *)
Definition Inv (i : Snapshots.Inner) : Prop :=
  (forall g n, Snapshots.ref_counts i !! g = Some n -> 0 < n < 2 ^ 31) /\
  (forall g, is_Some (Snapshots.ref_counts i !! g) <-> is_Some (Snapshots.index_commits i !! g)).

Definition snapshots_of (i : Snapshots.Inner) (g : Z) : Z := default 0 (Snapshots.ref_counts i !! g).

Lemma snapshots_of_nonneg i g : Inv i -> 0 <= snapshots_of i g < 2 ^ 31.
Proof.
  intros [H _]. unfold snapshots_of. destruct (Snapshots.ref_counts i !! g) as [n|] eqn:E; cbn; [|lia].
  specialize (H g n E). lia.
Qed.

Lemma inc_ref_inner c i : Inv i -> snapshots_of i (CommitPoint.generation c) + 1 < 2 ^ 31 ->
  exists i', Snapshots.inc_ref c i = (Ok tt, i') /\ Inv i' /\ held i' c = true /\
    Snapshots.ref_counts i' = <[CommitPoint.generation c := snapshots_of i (CommitPoint.generation c) + 1]> (Snapshots.ref_counts i) /\
    Snapshots.index_commits i' = (if snapshots_of i (CommitPoint.generation c) =? 0
      then <[CommitPoint.generation c := c]> (Snapshots.index_commits i) else Snapshots.index_commits i) /\
    Snapshots.last_commit i' = Snapshots.last_commit i /\ Snapshots.init_called i' = Snapshots.init_called i.
Proof.
  intros Hi Hb. unfold Snapshots.inc_ref. fold (snapshots_of i (CommitPoint.generation c)).
  pose proof (snapshots_of_nonneg i (CommitPoint.generation c) Hi) as Hn. destruct Hi as [H1 H2].
  rewrite (proj2 (Z.ltb_lt _ _)) by done. eexists. split; [done|]. cbn. split_and!; try done.
  - split; cbn.
    + intros g n. rewrite lookup_insert_Some. intros [[<- <-]|[_ Hg]]; [lia|eauto].
    + intros g. unfold snapshots_of in *. destruct (decide (g = CommitPoint.generation c)) as [->|Hne].
      * rewrite lookup_insert_eq. split; [|done]. intros _. destruct (Z.eqb_spec (default 0 (Snapshots.ref_counts i !! CommitPoint.generation c)) 0) as [E|E].
        -- rewrite lookup_insert_eq. done.
        -- apply H2. destruct (Snapshots.ref_counts i !! CommitPoint.generation c); [done|]. cbn in E. lia.
      * rewrite lookup_insert_ne by done. case_match; rewrite ?lookup_insert_ne by done; apply H2.
  - unfold held. cbn. rewrite lookup_insert_eq. by rewrite bool_decide_eq_true_2.
Qed.

Lemma release_gen_inner g i n : Inv i -> Snapshots.init_called i = true -> Snapshots.ref_counts i !! g = Some n ->
  exists i', Snapshots.release_gen g i = (Ok tt, i') /\ Inv i' /\
    Snapshots.ref_counts i' = (if n =? 1 then delete g (Snapshots.ref_counts i) else <[g := n - 1]> (Snapshots.ref_counts i)) /\
    Snapshots.index_commits i' = (if n =? 1 then delete g (Snapshots.index_commits i) else Snapshots.index_commits i) /\
    Snapshots.last_commit i' = Snapshots.last_commit i /\ Snapshots.init_called i' = Snapshots.init_called i.
Proof.
  intros [H1 H2] Hc Hg. unfold Snapshots.release_gen. rewrite Hc, Hg. cbn [negb].
  pose proof (H1 g n Hg) as Hn. rewrite (proj2 (Z.ltb_lt _ _)) by lia. cbn [negb].
  replace (n - 1 =? 0) with (n =? 1) by (destruct (Z.eqb_spec n 1), (Z.eqb_spec (n - 1) 0); lia).
  destruct (Z.eqb_spec n 1) as [->|Hne]; eexists; (split; [done|]); cbn; split_and!; try done.
  - split; cbn.
    + intros g' n'. rewrite lookup_delete_Some. intros [_ Hg']. eauto.
    + intros g'. destruct (decide (g' = g)) as [->|Hg']; [by rewrite !lookup_delete_eq|].
      by rewrite !lookup_delete_ne by done.
  - split; cbn.
    + intros g' n'. rewrite lookup_insert_Some. intros [[<- <-]|[_ Hg']]; [lia|eauto].
    + intros g'. rewrite <- H2. destruct (decide (g' = g)) as [->|Hg']; [by rewrite lookup_insert_eq, Hg|].
      by rewrite lookup_insert_ne by done.
Qed.

Lemma inner_eq i j : Snapshots.ref_counts i = Snapshots.ref_counts j -> Snapshots.index_commits i = Snapshots.index_commits j ->
  Snapshots.last_commit i = Snapshots.last_commit j -> Snapshots.init_called i = Snapshots.init_called j -> i = j.
Proof. destruct i, j; cbn; congruence. Qed.

(** C40: a snapshot holds the last commit until it is released: [snapshot] answers the last
    commit of the policy and counts one more snapshot of its generation, which is then held
    and can be found by its generation; [release] takes back exactly that, so that the
    policy is as before. *)
Theorem snapshot_release (i : Snapshots.Inner) (c : CommitPoint.t) :
  Inv i -> Snapshots.init_called i = true -> Snapshots.last_commit i = Some c ->
  snapshots_of i (CommitPoint.generation c) + 1 < 2 ^ 31 ->
  exists i', Snapshots.snapshot i = (Ok c, i') /\ Inv i' /\ held i' c = true /\
    is_Some (Snapshots.get_index_commit i' (CommitPoint.generation c)) /\
    (forall g, snapshots_of i' g = snapshots_of i g + (if decide (g = CommitPoint.generation c) then 1 else 0)) /\
    Snapshots.release c i' = (Ok tt, i).
Proof.
  intros Hi Hc Hl Hb. destruct (inc_ref_inner c i Hi Hb) as (i' & E & Hi' & Hh & Hr & Hx & Hl' & Hc').
  exists i'. unfold Snapshots.snapshot. rewrite sget_sbind, Hc, Hl. cbn [negb]. rewrite (sbind_ok _ _ _ _ _ E).
  set (g := CommitPoint.generation c) in *. pose proof (snapshots_of_nonneg i g Hi) as Hn.
  split_and!; [done|done|done| | |].
  - apply Hi'. by apply bool_decide_eq_true in Hh.
  - intros g'. unfold snapshots_of at 1. rewrite Hr. destruct (decide (g' = g)) as [->|Hne].
    + by rewrite lookup_insert_eq.
    + rewrite lookup_insert_ne by done. fold (snapshots_of i g'). lia.
  - unfold Snapshots.release. fold g.
    destruct (release_gen_inner g i' (snapshots_of i g + 1) Hi') as (i2 & -> & _ & Hr2 & Hx2 & Hl2 & Hc2).
    { by rewrite Hc'. } { by rewrite Hr, lookup_insert_eq. }
    f_equal. apply inner_eq; [| |congruence|congruence].
    + rewrite Hr2, Hr. unfold snapshots_of in *. destruct (Snapshots.ref_counts i !! g) as [n|] eqn:Eg; cbn in *.
      * destruct (Z.eqb_spec (n + 1) 1) as [?|?]; [destruct Hi as [H1 _]; specialize (H1 g n Eg); lia|].
        rewrite insert_insert_eq. replace (n + 1 - 1) with n by lia. by rewrite insert_id.
      * by rewrite delete_insert_id.
    + rewrite Hx2, Hx. destruct (Z.eqb_spec (snapshots_of i g) 0) as [E0|E0].
      * rewrite E0. cbn. rewrite delete_insert_id; [done|]. apply eq_None_not_Some. rewrite <- (proj2 Hi).
        unfold snapshots_of in E0. intros [n En]. rewrite En in E0. cbn in E0. destruct Hi as [H1 _]. specialize (H1 g n En). lia.
      * by rewrite (proj2 (Z.eqb_neq _ _)) by lia.
Qed.

Lemma snapshot_release_witness : exists i c i', Snapshots.snapshot i = (Ok c, i') /\ held i' c = true /\
  CommitPoint.generation c = 3 /\ snapshots_of i' 3 = 2 /\ Snapshots.release c i' = (Ok tt, i).
Proof.
  set (c := CommitPoint.mk 0 [] "segments_3" 3 ∅ 0).
  set (i := Snapshots.mk {[3 := 1]} {[3 := c]} (Some c) true).
  destruct (snapshot_release i c) as (i' & H1 & _ & H2 & _ & H3 & H4); [|reflexivity|reflexivity|vm_compute; reflexivity|].
  - split; intros g; cbn.
    + intros n [<- <-]%lookup_singleton_Some. lia.
    + by destruct (decide (g = 3)) as [->|Hne]; [rewrite !lookup_singleton_eq|rewrite !lookup_singleton_ne by done].
  - exists i, c, i'. by split_and!.
Defined.
End PolicyFacts.

#[global] Instance policy_enum_spec : PolicySpec IndexDeletionPolicyEnum.t.
Proof.
  split; intros commits m p r m' p' E.
  - by eapply PolicyFacts.on_init_marks_only.
  - destruct (PolicyFacts.on_commit_spec p commits m) as (r1 & m1 & p1 & E1 & M & _).
    change (IndexDeletionPolicyEnum.on_commit_ commits (m, p) = (r, (m', p'))) in E. rewrite E1 in E. by injection E as <- <- <-.
Qed.
