(* ===== verification/FileDeleter.v ===== *)
(** Reference counts of index files: [FileDeleter] (src/core/util/file_deleter.rs) with the
    cleanup helpers of [IOUtils] (src/core/util/io_utils.rs) it uses. *)

From Stdlib Require Import ZArith Lia Bool.
From stdpp Require Import base tactics numbers list gmap strings.
From S2P Require Import Prelude IndexFileNames.

Local Open Scope Z_scope.

(** * What the deleter works on *)

(** [Directory]: deleting a file can fail; the listing is in no particular order. *)
Class Directory (D : Type) := {
  directory_delete : string -> ST D unit;
  list_all : D -> result (list string) }.

(** The contract of a directory: a deletion concerns its own file only, whether it
    succeeds or not. *)
Class DirectorySpec (D : Type) `{Directory D} := {
  files : D -> gset string;
  delete_frame : forall f d r d', directory_delete f d = (r, d') ->
    files d ∖ {[f]} ⊆ files d' /\ files d' ⊆ files d;
  delete_done : forall f d d', directory_delete f d = (Ok tt, d') -> f ∉ files d';
  list_all_files : forall d l, list_all d = Ok l -> forall f, f ∈ l <-> f ∈ files d }.

(** A directory in which deleting a file succeeds. *)
Class ReliableDirectory (D : Type) `{DirectorySpec D} := {
  delete_succeeds : forall f d, f ∈ files d -> exists d', directory_delete f d = (Ok tt, d') }.

Inductive MsgType : Type := Ref | File.

(** [Messenger]; the text of the messages is left out. *)
Class Messenger (M : Type) := { accept : MsgType -> ST M unit }.

Class QuietMessenger (M : Type) `{Messenger M} := {
  accept_ok : forall ty m, exists m', accept ty m = (Ok tt, m') }.

(** * Cleanup that goes on after failures *)

Module IOUtils.
Section Cleanup.
Context {S : Type}.

(** [catch_unwind]: the outcome becomes a value, the state is kept. *)
Definition caught {A} (m : ST S A) : ST S (result A) := fun s => let '(r, s) := m s in (Ok r, s).

(** [close_with]: every object is attempted, the first failure is the answer. *)
Fixpoint close_loop {A} (close : A -> ST S unit) (objects : list A) (first : result unit) : ST S (result unit) :=
  match objects with
  | [] => sret first
  | o :: objects =>
      let* r := caught (close o) in
      close_loop close objects (match first with Ok _ => r | _ => first end)
  end.

Definition close_with {A} (close : A -> ST S unit) (objects : list A) : ST S unit :=
  let* r := close_loop close objects (Ok tt) in
  slift r.
End Cleanup.

(** [use_or_suppress_caught_result]: a failure of the body wins. *)
Definition use_or_suppress_caught_result (result close_result : result unit) : Prelude.result unit :=
  match result with
  | Ok _ => close_result
  | _ => result
  end.
End IOUtils.

(** * Counts *)

(** The count is a [usize] that wraps around. *)

Module RefCount.
Record t := mk { init_done : bool; count : Z }.

Definition new : t := mk false 0.

Definition inc_ref (rc : t) : result t :=
  let? rc := (if negb (init_done rc) then Ok (mk true (count rc))
              else let? _ := debug_assert (0 <? count rc) in Ok rc) in
  Ok (mk (init_done rc) (as_u64 (count rc + 1))).

Definition dec_ref (rc : t) : result t :=
  let? _ := debug_assert (0 <? count rc) in
  Ok (mk (init_done rc) (as_u64 (count rc - 1))).
End RefCount.

(** * The deleter *)

Module FileDeleter.
Section Operations.
Context {D M : Type} `{Directory D} `{Messenger M}.
(** The order in which a [HashSet] is iterated. *)
Context (order : gset string -> list string).

Record t := mk {
  ref_counts : gmap string RefCount.t;
  directory : D;
  messenger : option M }.

Definition new (directory : D) (messenger : option M) : t := mk ∅ directory messenger.

Definition with_counts (s : t) (m : gmap string RefCount.t) : t := mk m (directory s) (messenger s).

(** [if let Some(messenger) = &self.messenger { messenger.accept_formatted(ty, ..)?; }] *)
Definition tell (ty : MsgType) : ST t unit := fun s =>
  match messenger s with
  | None => (Ok tt, s)
  | Some m => let '(r, m) := accept ty m in (r, mk (ref_counts s) (directory s) (Some m))
  end.

(** The count of the file, entered as a new one when there is none. *)
Definition get_ref_count_internal (file_name : string) : ST t RefCount.t := fun s =>
  match ref_counts s !! file_name with
  | Some rc => (Ok rc, s)
  | None => (Ok RefCount.new, with_counts s (<[file_name := RefCount.new]> (ref_counts s)))
  end.

Definition put (file_name : string) (rc : RefCount.t) : ST t unit := fun s =>
  (Ok tt, with_counts s (<[file_name := rc]> (ref_counts s))).

Definition inc_ref_single (file_name : string) : ST t unit :=
  let* rc := get_ref_count_internal file_name in
  let* _ := tell Ref in
  let* rc := slift (RefCount.inc_ref rc) in
  put file_name rc.

Fixpoint inc_ref (file_names : list string) : ST t unit :=
  match file_names with
  | [] => sret tt
  | file :: file_names => let* _ := inc_ref_single file in inc_ref file_names
  end.

Definition dec_ref_single (file_name : string) : ST t bool :=
  let* rc := get_ref_count_internal file_name in
  let* _ := tell Ref in
  let* rc := slift (RefCount.dec_ref rc) in
  if RefCount.count rc =? 0 then
    fun s => (Ok true, with_counts s (delete file_name (ref_counts s)))
  else
    let* _ := put file_name rc in
    sret false.

Definition init_ref_count (file_name : string) : ST t unit := fun s =>
  match ref_counts s !! file_name with
  | Some _ => (Ok tt, s)
  | None => (Ok tt, with_counts s (<[file_name := RefCount.new]> (ref_counts s)))
  end.

Definition get_ref_count (s : t) (file_name : string) : Z :=
  match ref_counts s !! file_name with Some rc => RefCount.count rc | None => 0 end.

Definition get_all_files (s : t) : gset string := dom (ref_counts s).

Definition exists_ (s : t) (file_name : string) : bool :=
  match ref_counts s !! file_name with Some rc => 0 <? RefCount.count rc | None => false end.

Definition delete_file (file_name : string) : ST t unit := fun s =>
  let '(r, d) := directory_delete file_name (directory s) in
  (r, mk (ref_counts s) d (messenger s)).

Fixpoint delete_each (file_names : list string) : ST t unit :=
  match file_names with
  | [] => sret tt
  | f :: file_names =>
      let* s := sget in
      let* _ := slift (debug_assert (negb (exists_ s f))) in
      let* _ := delete_file f in
      delete_each file_names
  end.

(** The segments files first: a stale commit goes before the files it refers to. *)
Definition delete_files (file_names : list string) : ST t unit :=
  let* _ := tell File in
  let* _ := delete_each (base.filter (fun f => starts_with IndexFileNames.SEGMENTS f = true) file_names) in
  delete_each (base.filter (fun f => starts_with IndexFileNames.SEGMENTS f = false) file_names).

(** [close_with] runs the closure on every name; [to_delete] is what it collects. *)
Definition dec_one (file_name : string) : ST (t * gset string) unit := fun s =>
  match dec_ref_single file_name s.1 with
  | (Ok true, d) => (Ok tt, (d, {[file_name]} ∪ s.2))
  | (Ok false, d) => (Ok tt, (d, s.2))
  | (Err e, d) => (Err e, (d, s.2))
  | (Panic, d) => (Panic, (d, s.2))
  | (OutOfFuel, d) => (OutOfFuel, (d, s.2))
  end.

Definition dec_ref (file_names : list string) : ST t unit := fun s =>
  let '(dec_ref_result, (s, to_delete)) := IOUtils.close_with dec_one file_names (s, ∅) in
  let '(delete_result, s) := delete_files (order to_delete) s in
  (IOUtils.use_or_suppress_caught_result dec_ref_result delete_result, s).

(** The files with a count of 0, in the order of the map. *)
Fixpoint tell_each (n : nat) : ST t unit :=
  match n with
  | O => sret tt
  | S n => let* _ := tell File in tell_each n
  end.

Definition unrefed (m : gmap string RefCount.t) : gset string :=
  dom (filter (fun p => RefCount.count p.2 = 0) m).

Definition get_unrefed_files : ST t (gset string) :=
  let* s := sget in
  let found := unrefed (ref_counts s) in
  let* _ := tell_each (size found) in
  sret found.

Fixpoint collect_no_ref (file_names : list string) (to_delete : gset string) : ST t (gset string) :=
  match file_names with
  | [] => sret to_delete
  | f :: file_names =>
      let* s := sget in
      if negb (exists_ s f) then
        let* _ := tell File in
        collect_no_ref file_names ({[f]} ∪ to_delete)
      else collect_no_ref file_names to_delete
  end.

Definition delete_files_if_no_ref (file_names : list string) : ST t unit :=
  let* to_delete := collect_no_ref file_names ∅ in
  delete_files (order to_delete).

Definition force_delete (file_name : string) : ST t unit :=
  let* s := sget in
  let* _ := sput (with_counts s (delete file_name (ref_counts s))) in
  delete_file file_name.

Definition delete_file_if_no_ref (file_name : string) : ST t unit :=
  let* s := sget in
  if negb (exists_ s file_name) then
    let* _ := tell File in
    delete_file file_name
  else sret tt.
End Operations.
Arguments t : clear implicits.
End FileDeleter.

(** A directory in memory, to run examples in. *)
Module MemDirectory.
Definition delete_file_ (f : string) : ST (gset string) unit := fun d =>
  if decide (f ∈ d) then (Ok tt, d ∖ {[f]}) else (Err NoSuchFile, d).

#[global] Instance mem_directory : Directory (gset string) := {|
  directory_delete := delete_file_;
  list_all := fun d => Ok (elements d) |}.

#[global] Instance mem_directory_spec : DirectorySpec (gset string).
Proof.
  refine {| files := fun d => d |}.
  - intros f d r d'. cbn. unfold delete_file_. case_decide; intros [= _ <-]; set_solver.
  - intros f d d'. cbn. unfold delete_file_. case_decide; [intros [= <-]; set_solver|done].
  - intros d l. cbn. intros [= <-] f. apply elem_of_elements.
Defined.

#[global] Instance mem_directory_reliable : ReliableDirectory (gset string).
Proof. split. intros f d Hf. cbn in *. unfold delete_file_. rewrite decide_True by done. eauto. Qed.

#[global] Instance no_messenger : Messenger unit := {| accept := fun _ => sret tt |}.
#[global] Instance no_messenger_quiet : QuietMessenger unit.
Proof. split. intros ty []. by exists tt. Qed.
End MemDirectory.

(** * Correctness *)

Module FileDeleterProofs.
Import FileDeleter.

(** How often a name occurs. *)
Fixpoint occ (f : string) (l : list string) : Z :=
  match l with
  | [] => 0
  | g :: l => (if decide (g = f) then 1 else 0) + occ f l
  end.

Lemma occ_nonneg f l : 0 <= occ f l.
Proof. induction l as [|g l IH]; cbn; [lia|]. case_decide; lia. Qed.

Lemma occ_in f l : f ∈ l <-> 0 < occ f l.
Proof.
  induction l as [|g l IH]; cbn.
  - split; [by intros ?%not_elem_of_nil|lia].
  - rewrite elem_of_cons, IH. pose proof (occ_nonneg f l). case_decide; split; naive_solver lia.
Qed.

Lemma occ_app f l l' : occ f (l ++ l') = occ f l + occ f l'.
Proof. induction l as [|g l IH]; cbn; lia. Qed.

Lemma occ_NoDup f l : NoDup l -> occ f l = if decide (f ∈ l) then 1 else 0.
Proof.
  induction 1 as [|g l Hn Hd IH]; cbn; [by rewrite decide_False by apply not_elem_of_nil|].
  rewrite IH. destruct (decide (g = f)) as [->|Hne].
  - rewrite decide_False by done. by rewrite decide_True by by left.
  - destruct (decide (f ∈ l)); [by rewrite decide_True by by right|].
    rewrite decide_False; [done|]. by intros [|]%elem_of_cons.
Qed.

Section Proofs.
Context {D M : Type} {dir : Directory D} {dir_spec : DirectorySpec D} {msg : Messenger M} {quiet : QuietMessenger M}.
Context (order : gset string -> list string) (order_perm : forall X, order X ≡ₚ elements X).
Implicit Types (s : FileDeleter.t D M).

Abbreviation on_disk s := (files (directory s)).

(** Every recorded count is a [usize], and only a new one is 0. *)
Definition WF s : Prop := forall f rc, ref_counts s !! f = Some rc ->
  0 <= RefCount.count rc < 2 ^ 64 /\ (RefCount.init_done rc = true <-> 0 < RefCount.count rc).

Lemma order_elem f X : f ∈ order X <-> f ∈ X.
Proof. by rewrite order_perm, elem_of_elements. Qed.

Lemma order_NoDup X : NoDup (order X).
Proof. rewrite order_perm. apply NoDup_elements. Qed.

Lemma count_nonneg s f : WF s -> 0 <= get_ref_count s f < 2 ^ 64.
Proof.
  intros Hw. unfold get_ref_count. destruct (ref_counts s !! f) as [rc|] eqn:E; [|lia].
  by destruct (Hw f rc E).
Qed.

Lemma exists_count s f : exists_ s f = (0 <? get_ref_count s f).
Proof. unfold exists_, get_ref_count. by destruct (ref_counts s !! f). Qed.

Lemma tell_ok ty s : exists m, tell ty s = (Ok tt, mk (ref_counts s) (directory s) m).
Proof.
  unfold tell. destruct (messenger s) as [m|] eqn:E.
  - destruct (accept_ok ty m) as (m' & ->). by exists (Some m').
  - exists None. destruct s; cbn in *. by subst.
Qed.

(** ** One file *)

Lemma get_ref_count_internal_ok f s : WF s -> exists rc s', get_ref_count_internal f s = (Ok rc, s') /\
  WF s' /\ directory s' = directory s /\ (forall g, get_ref_count s' g = get_ref_count s g) /\
  ref_counts s' !! f = Some rc /\ RefCount.count rc = get_ref_count s f.
Proof.
  intros Hw. unfold get_ref_count_internal. destruct (ref_counts s !! f) as [rc|] eqn:E.
  - exists rc, s. split_and!; try done. unfold get_ref_count. by rewrite E.
  - eexists RefCount.new, _. split; [done|]. cbn [with_counts directory ref_counts]. split_and!.
    + intros g rc. cbn. rewrite lookup_insert_Some. intros [[<- <-]|[_ Hg]]; [|by apply Hw in Hg].
      cbn. split; [lia|]. split; [done|lia].
    + done.
    + intros g. unfold get_ref_count. cbn. destruct (decide (g = f)) as [->|Hne].
      * by rewrite lookup_insert_eq, E.
      * by rewrite lookup_insert_ne by done.
    + by rewrite lookup_insert_eq.
    + unfold get_ref_count. by rewrite E.
Qed.

Lemma count_put s f rc g : get_ref_count (with_counts s (<[f := rc]> (ref_counts s))) g
  = if decide (g = f) then RefCount.count rc else get_ref_count s g.
Proof.
  unfold get_ref_count. cbn. case_decide as E; [subst; by rewrite lookup_insert_eq|by rewrite lookup_insert_ne by done].
Qed.

Lemma wf_put s f rc : WF s -> 0 <= RefCount.count rc < 2 ^ 64 ->
  (RefCount.init_done rc = true <-> 0 < RefCount.count rc) -> WF (with_counts s (<[f := rc]> (ref_counts s))).
Proof.
  intros Hw Hc Hi g rc'. cbn. rewrite lookup_insert_Some. intros [[<- <-]|[_ Hg]]; [done|by apply Hw in Hg].
Qed.

Lemma inc_ref_single_ok f s : WF s -> get_ref_count s f + 1 < 2 ^ 64 ->
  exists s', inc_ref_single f s = (Ok tt, s') /\ WF s' /\ directory s' = directory s /\
    forall g, get_ref_count s' g = get_ref_count s g + (if decide (g = f) then 1 else 0).
Proof.
  intros Hw Hb. destruct (get_ref_count_internal_ok f s Hw) as (rc & s1 & H1 & Hw1 & Hd1 & Hc1 & Hl1 & Hrc).
  destruct (tell_ok Ref s1) as (m & Ht). unfold inc_ref_single.
  rewrite (sbind_ok _ _ _ _ _ H1), (sbind_ok _ _ _ _ _ Ht), slift_sbind.
  destruct (Hw1 f rc Hl1) as [Hr Hi]. pose proof (count_nonneg s f Hw).
  assert (RefCount.inc_ref rc = Ok (RefCount.mk true (RefCount.count rc + 1))) as ->.
  { unfold RefCount.inc_ref. destruct (RefCount.init_done rc) eqn:E; cbn.
    - rewrite (proj2 (Z.ltb_lt _ _)) by (by apply Hi). cbn. rewrite E, wrap_u_id by (unfold in_u; lia). done.
    - by rewrite wrap_u_id by (unfold in_u; lia). }
  unfold put. eexists. split; [done|]. cbn [with_counts directory]. split_and!; [|done|].
  - apply (wf_put (mk (ref_counts s1) (directory s1) m)); [exact Hw1|cbn; lia|cbn; split; [lia|done]].
  - intros g. rewrite (count_put (mk (ref_counts s1) (directory s1) m)). cbn [RefCount.count].
    change (get_ref_count (mk _ _ m) g) with (get_ref_count s1 g). rewrite Hc1. case_decide; [subst; lia|lia].
Qed.

Lemma dec_ref_single_ok f s : WF s -> 0 < get_ref_count s f ->
  exists s', dec_ref_single f s = (Ok (get_ref_count s f =? 1), s') /\ WF s' /\ directory s' = directory s /\
    forall g, get_ref_count s' g = get_ref_count s g - (if decide (g = f) then 1 else 0).
Proof.
  intros Hw Hb. destruct (get_ref_count_internal_ok f s Hw) as (rc & s1 & H1 & Hw1 & Hd1 & Hc1 & Hl1 & Hrc).
  destruct (tell_ok Ref s1) as (m & Ht). unfold dec_ref_single.
  rewrite (sbind_ok _ _ _ _ _ H1), (sbind_ok _ _ _ _ _ Ht), slift_sbind.
  destruct (Hw1 f rc Hl1) as [Hr Hi]. pose proof (count_nonneg s f Hw).
  assert (RefCount.dec_ref rc = Ok (RefCount.mk (RefCount.init_done rc) (RefCount.count rc - 1))) as ->.
  { unfold RefCount.dec_ref. rewrite (proj2 (Z.ltb_lt _ _)) by lia. cbn. by rewrite wrap_u_id by (unfold in_u; lia). }
  cbn beta iota. cbn [RefCount.count]. rewrite Hrc. destruct (Z.eqb_spec (get_ref_count s f) 1) as [E|E].
  - rewrite (proj2 (Z.eqb_eq _ _)) by lia. eexists. split; [done|]. cbn [with_counts directory]. split_and!; [|done|].
    + intros g rc'. cbn. rewrite lookup_delete_Some. intros [_ Hg]. by apply Hw1 in Hg.
    + intros g. unfold get_ref_count at 1. cbn. case_decide as Eg.
      * subst. rewrite lookup_delete_eq. lia.
      * rewrite lookup_delete_ne by done. change (match ref_counts s1 !! g with Some rc => RefCount.count rc | None => 0 end)
          with (get_ref_count s1 g). rewrite Hc1. lia.
  - rewrite (proj2 (Z.eqb_neq _ _)) by lia. unfold put. unfold sbind. eexists. split; [done|].
    cbn [with_counts directory]. split_and!; [|done|].
    + apply (wf_put (mk (ref_counts s1) (directory s1) m)); [exact Hw1|cbn; lia|].
      cbn. split; [lia|]. intros _. apply Hi. lia.
    + intros g. rewrite (count_put (mk (ref_counts s1) (directory s1) m)). cbn [RefCount.count].
      change (get_ref_count (mk _ _ m) g) with (get_ref_count s1 g). rewrite Hc1. case_decide; [subst; lia|lia].
Qed.

(** ** Lists of files *)

Lemma inc_ref_ok fs : forall s, WF s -> (forall f, get_ref_count s f + occ f fs < 2 ^ 64) ->
  exists s', inc_ref fs s = (Ok tt, s') /\ WF s' /\ directory s' = directory s /\
    forall g, get_ref_count s' g = get_ref_count s g + occ g fs.
Proof.
  induction fs as [|f fs IH]; intros s Hw Hb; cbn [inc_ref].
  - exists s. split_and!; try done. intros g. cbn. lia.
  - destruct (inc_ref_single_ok f s Hw) as (s1 & H1 & Hw1 & Hd1 & Hc1).
    { specialize (Hb f). cbn in Hb. rewrite decide_True in Hb by done. pose proof (occ_nonneg f fs). lia. }
    rewrite (sbind_ok _ _ _ _ _ H1). destruct (IH s1 Hw1) as (s2 & H2 & Hw2 & Hd2 & Hc2).
    { intros g. rewrite Hc1. specialize (Hb g). cbn in Hb. do 2 case_decide; naive_solver lia. }
    exists s2. split_and!; try done; [congruence|]. intros g. rewrite Hc2, Hc1. cbn. do 2 case_decide; naive_solver lia.
Qed.

Lemma dec_loop_ok fs : forall s td, WF s -> (forall f, occ f fs <= get_ref_count s f) ->
  exists s' td', IOUtils.close_loop dec_one fs (Ok tt) (s, td) = (Ok (Ok tt), (s', td')) /\ WF s' /\
    directory s' = directory s /\ (forall g, get_ref_count s' g = get_ref_count s g - occ g fs) /\
    forall g, g ∈ td' <-> g ∈ td \/ (g ∈ fs /\ get_ref_count s' g = 0).
Proof.
  induction fs as [|f fs IH]; intros s td Hw Hb; cbn [IOUtils.close_loop].
  - exists s, td. split_and!; try done; [intros; cbn; lia|]. intros g. rewrite elem_of_nil. tauto.
  - assert (Hf : 0 < get_ref_count s f).
    { specialize (Hb f). cbn in Hb. rewrite decide_True in Hb by done. pose proof (occ_nonneg f fs). lia. }
    destruct (dec_ref_single_ok f s Hw Hf) as (s1 & H1 & Hw1 & Hd1 & Hc1).
    set (td1 := if get_ref_count s f =? 1 then {[f]} ∪ td else td).
    assert (Hone : IOUtils.caught (dec_one f) (s, td) = (Ok (Ok tt), (s1, td1))).
    { unfold IOUtils.caught, dec_one, td1. cbn [fst snd]. rewrite H1. by destruct (_ =? 1). }
    rewrite (sbind_ok _ _ _ _ _ Hone).
    destruct (IH s1 td1 Hw1) as (s2 & td2 & H2 & Hw2 & Hd2 & Hc2 & Ht2).
    { intros g. rewrite Hc1. specialize (Hb g). cbn in Hb. do 2 case_decide; naive_solver lia. }
    exists s2, td2. split_and!; try done; [congruence| |].
    + intros g. rewrite Hc2, Hc1. cbn. do 2 case_decide; naive_solver lia.
    + intros g. rewrite Ht2, elem_of_cons. unfold td1.
      assert (Hgone : g = f -> g ∉ fs -> get_ref_count s2 g = 0 <-> get_ref_count s f =? 1 = true).
      { intros -> Hn. rewrite Hc2, Hc1, decide_True by done. rewrite occ_in in Hn. pose proof (occ_nonneg f fs).
        rewrite Z.eqb_eq. lia. }
      assert (Hone' : get_ref_count s f =? 1 = true -> get_ref_count s2 f = 0).
      { intros E%Z.eqb_eq. rewrite Hc2, Hc1, decide_True by done. specialize (Hb f). cbn in Hb.
        rewrite decide_True in Hb by done. pose proof (occ_nonneg f fs). lia. }
      destruct (decide (g ∈ fs)), (decide (g = f)); destruct (get_ref_count s f =? 1); subst; set_solver.
Qed.

(** ** Deletion *)

Lemma delete_file_frame f s r s' : delete_file f s = (r, s') ->
  ref_counts s' = ref_counts s /\ on_disk s ∖ {[f]} ⊆ on_disk s' /\ on_disk s' ⊆ on_disk s /\
  (r = Ok tt -> f ∉ on_disk s').
Proof.
  unfold delete_file. destruct (directory_delete f (directory s)) as [r' d] eqn:E. intros [= <- <-].
  destruct (delete_frame _ _ _ _ E) as [H1 H2]. split_and!; try done. intros ->. by eapply delete_done.
Qed.

Lemma delete_each_frame fs : forall s r s', (forall f, f ∈ fs -> exists_ s f = false) ->
  delete_each fs s = (r, s') ->
  ref_counts s' = ref_counts s /\ (forall f, f ∈ on_disk s -> f ∉ fs -> f ∈ on_disk s') /\ on_disk s' ⊆ on_disk s /\
  (r = Ok tt -> forall f, f ∈ fs -> f ∉ on_disk s').
Proof.
  induction fs as [|f fs IH]; intros s r s' Hn; cbn [delete_each].
  - intros [= <- <-]. split_and!; try done. intros _ f Hf. by apply not_elem_of_nil in Hf.
  - rewrite sget_sbind, slift_sbind, (Hn f) by by left. cbn [negb debug_assert]. cbn beta iota.
    unfold sbind. destruct (delete_file f s) as [r1 s1] eqn:E1.
    destruct (delete_file_frame _ _ _ _ E1) as (Hc & Hk & Hs & Hg).
    destruct r1 as [[]|e| |]; [|intros [= <- <-]; split_and!; try done; set_solver..].
    intros E2. destruct (IH s1 r s') as (Hc2 & Hk2 & Hs2 & Hg2); [|done|].
    { intros g Hin. unfold exists_. rewrite Hc. apply Hn. by right. }
    split_and!; [congruence|set_solver|set_solver|].
    intros -> g [->|Hin]%elem_of_cons; [|by apply Hg2]. specialize (Hg eq_refl). set_solver.
Qed.

(** What survives a deletion, and in which order the files go: no other file before
    every segments file. *)
Lemma delete_files_frame fs s r s' : (forall f, f ∈ fs -> exists_ s f = false) -> delete_files fs s = (r, s') ->
  ref_counts s' = ref_counts s /\ (forall f, f ∈ on_disk s -> f ∉ fs -> f ∈ on_disk s') /\ on_disk s' ⊆ on_disk s /\
  (r = Ok tt -> forall f, f ∈ fs -> f ∉ on_disk s') /\
  forall f g, f ∈ on_disk s -> f ∉ on_disk s' -> starts_with IndexFileNames.SEGMENTS f = false ->
    g ∈ fs -> starts_with IndexFileNames.SEGMENTS g = true -> g ∉ on_disk s'.
Proof.
  intros Hn. unfold delete_files. destruct (tell_ok File s) as (m & Ht). rewrite (sbind_ok _ _ _ _ _ Ht).
  set (s0 := mk (ref_counts s) (directory s) m). unfold sbind.
  destruct (delete_each (filter _ fs) s0) as [r1 s1] eqn:E1.
  destruct (delete_each_frame (base.filter (fun f => starts_with IndexFileNames.SEGMENTS f = true) fs) s0 r1 s1) as (Hc1 & Hk1 & Hs1 & Hg1); [|exact E1|].
  { intros f [_ Hf]%list_elem_of_filter. by apply Hn. }
  cbn in Hc1, Hk1, Hs1.
  assert (Hkeep1 : forall f, f ∈ on_disk s -> starts_with IndexFileNames.SEGMENTS f = false -> f ∈ on_disk s1).
  { intros f Hf Hp. apply Hk1; [done|]. rewrite list_elem_of_filter. intros [? _]. congruence. }
  assert (Hkeepfs : forall f, f ∈ on_disk s -> f ∉ fs -> f ∈ on_disk s1).
  { intros f Hf Hp. apply Hk1; [done|]. rewrite list_elem_of_filter. tauto. }
  assert (Hfail : r1 <> Ok tt -> (r1, s1) = (r, s') ->
    ref_counts s' = ref_counts s /\ (forall f, f ∈ on_disk s -> f ∉ fs -> f ∈ on_disk s') /\ on_disk s' ⊆ on_disk s /\
    (r = Ok tt -> forall f, f ∈ fs -> f ∉ on_disk s') /\
    forall f g, f ∈ on_disk s -> f ∉ on_disk s' -> starts_with IndexFileNames.SEGMENTS f = false ->
      g ∈ fs -> starts_with IndexFileNames.SEGMENTS g = true -> g ∉ on_disk s').
  { intros Hr [= -> ->]. split_and!; try done. intros f g Hf Hnf Hp. exfalso. auto. }
  destruct r1 as [[]|e| |]; [|by apply Hfail..]. intros E2.
  destruct (delete_each_frame (base.filter (fun f => starts_with IndexFileNames.SEGMENTS f = false) fs) s1 r s') as (Hc2 & Hk2 & Hs2 & Hg2);
    [intros f Hf; unfold exists_; rewrite Hc1; apply list_elem_of_filter in Hf as [_ Hf]; exact (Hn f Hf)|exact E2|].
  assert (Hseg : forall g, g ∈ fs -> starts_with IndexFileNames.SEGMENTS g = true -> g ∉ on_disk s').
  { intros g Hg Hp Hd. apply (Hg1 eq_refl g); [by rewrite list_elem_of_filter|by apply Hs2]. }
  split_and!; [congruence| |set_solver| |].
  - intros f Hf Hp. apply Hk2; [by apply Hkeepfs|]. rewrite list_elem_of_filter. tauto.
  - intros -> f Hf. destruct (starts_with IndexFileNames.SEGMENTS f) eqn:Ep; [by apply Hseg|].
    apply (Hg2 eq_refl). by rewrite list_elem_of_filter.
  - intros f g _ _ _ Hg Hp. by apply Hseg.
Qed.

(** ** Giving up references *)

(** Giving up references that are held never touches a file another reference is held
    to, whatever the directory does: counts fall by exactly the references given up, the
    files left without one are the only ones deleted - all of them, when no deletion fails -
    and no such file goes before the segments files among them, so that an interruption
    never leaves a commit without its files. *)
Lemma dec_ref_frame fs s r s' :
  WF s -> (forall f, occ f fs <= get_ref_count s f) -> dec_ref order fs s = (r, s') ->
  WF s' /\ (forall f, get_ref_count s' f = get_ref_count s f - occ f fs) /\
  (forall f, f ∈ on_disk s -> f ∉ fs \/ 0 < get_ref_count s' f -> f ∈ on_disk s') /\
  on_disk s' ⊆ on_disk s /\
  (r = Ok tt -> forall f, f ∈ fs -> get_ref_count s' f = 0 -> f ∉ on_disk s') /\
  forall f g, f ∈ on_disk s -> f ∉ on_disk s' -> starts_with IndexFileNames.SEGMENTS f = false ->
    g ∈ fs -> starts_with IndexFileNames.SEGMENTS g = true -> get_ref_count s' g = 0 -> g ∉ on_disk s'.
Proof.
  intros Hw Hb. unfold dec_ref, IOUtils.close_with.
  destruct (dec_loop_ok fs s ∅ Hw Hb) as (s1 & td & H1 & Hw1 & Hd1 & Hc1 & Ht).
  rewrite (sbind_ok _ _ _ _ _ H1). unfold slift.
  destruct (delete_files (order td) s1) as [r2 s2] eqn:E2. cbn [IOUtils.use_or_suppress_caught_result]. intros [= -> ->].
  assert (Htd : forall g, g ∈ order td <-> g ∈ fs /\ get_ref_count s1 g = 0).
  { intros g. rewrite order_elem, Ht. set_solver. }
  destruct (delete_files_frame (order td) s1 r s') as (Hcs & Hk & Hs & Hg & Hcrash); [|exact E2|].
  { intros f [_ Hf]%Htd. rewrite exists_count, Hf. done. }
  assert (Hcount : forall g, get_ref_count s' g = get_ref_count s1 g) by (intros; unfold get_ref_count; by rewrite Hcs).
  rewrite Hd1 in *. split_and!.
  - intros f rc. rewrite Hcs. apply Hw1.
  - intros f. by rewrite Hcount, Hc1.
  - intros f Hf Hor. apply Hk; [done|]. rewrite Htd, <- Hcount. intros [Hin Hz]. destruct Hor; [done|lia].
  - done.
  - intros Hr f Hf Hz. apply (Hg Hr), Htd. by rewrite <- Hcount.
  - intros f g Hf Hnf Hp Hin Hp' Hz. eapply (Hcrash f g); try done. apply Htd. by rewrite <- Hcount.
Qed.

(** ** Deleting what nothing refers to *)

Lemma collect_no_ref_ok fs : forall s td, exists m td',
  collect_no_ref fs td s = (Ok td', mk (ref_counts s) (directory s) m) /\
  forall f, f ∈ td' <-> f ∈ td \/ (f ∈ fs /\ exists_ s f = false).
Proof.
  induction fs as [|f fs IH]; intros s td; cbn [collect_no_ref].
  - exists (messenger s), td. split; [by destruct s|]. intros f. rewrite elem_of_nil. tauto.
  - rewrite sget_sbind. destruct (exists_ s f) eqn:E; cbn [negb].
    + destruct (IH s td) as (m & td' & -> & Ht). exists m, td'. split; [done|].
      intros g. rewrite Ht, elem_of_cons. split; [naive_solver|]. intros [?|[[->|?] ?]]; [by left|congruence|by right].
    + destruct (tell_ok File s) as (m & Ht). rewrite (sbind_ok _ _ _ _ _ Ht).
      destruct (IH (mk (ref_counts s) (directory s) m) ({[f]} ∪ td)) as (m' & td' & -> & Ht').
      exists m', td'. split; [done|]. intros g. rewrite Ht', elem_of_cons, elem_of_union, elem_of_singleton.
      change (exists_ (mk _ _ m) g) with (exists_ s g). split; [|naive_solver].
      intros [[->|?]|[? ?]]; [right; by split; [left|]|by left|right; by split; [right|]].
Qed.

Lemma delete_files_if_no_ref_frame fs s r s' : delete_files_if_no_ref order fs s = (r, s') ->
  ref_counts s' = ref_counts s /\ on_disk s' ⊆ on_disk s /\
  (forall f, f ∈ on_disk s -> f ∉ fs \/ 0 < get_ref_count s f -> f ∈ on_disk s') /\
  (r = Ok tt -> forall f, f ∈ fs -> exists_ s f = false -> f ∉ on_disk s').
Proof.
  unfold delete_files_if_no_ref. destruct (collect_no_ref_ok fs s ∅) as (m & td & Hc & Ht).
  rewrite (sbind_ok _ _ _ _ _ Hc). intros E.
  assert (Htd : forall f, f ∈ order td <-> f ∈ fs /\ exists_ s f = false).
  { intros f. rewrite order_elem, Ht. set_solver. }
  destruct (delete_files_frame (order td) (mk (ref_counts s) (directory s) m) r s') as (H1 & H2 & H3 & H4 & _);
    [|exact E|].
  { intros f Hf%Htd. apply Hf. }
  cbn in H1, H2, H3. split_and!; [done|done| |].
  - intros f Hf Hor. apply H2; [done|]. rewrite Htd, exists_count, Z.ltb_ge. intros [? ?]. destruct Hor; [done|lia].
  - intros Hr f Hf He. apply (H4 Hr). by rewrite Htd.
Qed.

(** ** Directories that delete what they are told to *)

Context {reliable : ReliableDirectory D}.

Lemma delete_each_reliable fs : NoDup fs -> forall s, (forall f, f ∈ fs -> exists_ s f = false /\ f ∈ on_disk s) ->
  exists s', delete_each fs s = (Ok tt, s').
Proof.
  induction 1 as [|f fs Hn _ IH]; intros s Hs; cbn [delete_each]; [by eexists|].
  destruct (Hs f) as [He Hd]; [by left|]. rewrite sget_sbind, slift_sbind, He. cbn [negb debug_assert]. cbn beta iota.
  destruct (delete_file f s) as [r1 s1] eqn:E1. assert (r1 = Ok tt) as ->.
  { unfold delete_file in E1. destruct (delete_succeeds f (directory s) Hd) as (d' & E). rewrite E in E1. by injection E1 as <- _. }
  rewrite (sbind_ok _ _ _ _ _ E1). destruct (delete_file_frame _ _ _ _ E1) as (Hc & Hk & _). apply IH.
  intros g Hg. unfold exists_. rewrite Hc. destruct (Hs g) as [? ?]; [by right|]. split; [done|]. set_solver.
Qed.

Lemma delete_files_reliable fs s : NoDup fs -> (forall f, f ∈ fs -> exists_ s f = false /\ f ∈ on_disk s) ->
  exists s', delete_files fs s = (Ok tt, s').
Proof.
  intros Hn Hs. unfold delete_files. destruct (tell_ok File s) as (m & Ht). rewrite (sbind_ok _ _ _ _ _ Ht).
  set (s0 := mk (ref_counts s) (directory s) m).
  destruct (delete_each_reliable (base.filter (fun f => starts_with IndexFileNames.SEGMENTS f = true) fs)) with (s := s0) as (s1 & E1).
  { by apply NoDup_filter. } { intros f [_ Hf]%list_elem_of_filter. by apply Hs. }
  rewrite (sbind_ok _ _ _ _ _ E1).
  destruct (delete_each_frame (base.filter (fun f => starts_with IndexFileNames.SEGMENTS f = true) fs) s0 (Ok tt) s1)
    as (Hc1 & Hk1 & _); [intros f [_ Hf]%list_elem_of_filter; by apply Hs|exact E1|].
  apply delete_each_reliable; [by apply NoDup_filter|]. intros f [Hp Hf]%list_elem_of_filter. destruct (Hs f Hf).
  unfold exists_. rewrite Hc1. split; [done|]. apply Hk1; [done|]. rewrite list_elem_of_filter. intros [? _]. congruence.
Qed.

Lemma dec_ref_reliable fs s : WF s -> (forall f, occ f fs <= get_ref_count s f) -> (forall f, f ∈ fs -> f ∈ on_disk s) ->
  exists s', dec_ref order fs s = (Ok tt, s').
Proof.
  intros Hw Hb Hf. unfold dec_ref, IOUtils.close_with.
  destruct (dec_loop_ok fs s ∅ Hw Hb) as (s1 & td & H1 & Hw1 & Hd1 & Hc1 & Ht). rewrite (sbind_ok _ _ _ _ _ H1). unfold slift.
  destruct (delete_files_reliable (order td) s1) as (s2 & ->); [apply order_NoDup| |by exists s2].
  intros f [[]%not_elem_of_empty|[Hin Hz]]%order_elem%Ht. split; [by rewrite exists_count, Hz|]. rewrite Hd1. by apply Hf.
Qed.
End Proofs.

(** C15: giving up references never touches a file another reference is held to, whatever
    deletions fail, provided that the messages can be written ([QuietMessenger]) and no more
    references are given up than are held. Counts fall by exactly the references given up; the files left
    without one are the only ones deleted - all of them when no deletion fails, and then
    the call succeeds -, and none of them goes before the segments files among them, so that
    an interruption never leaves a commit without its files. *)
Theorem dec_ref_safe {D M : Type} {dir : Directory D} {dir_spec : DirectorySpec D} {msg : Messenger M} {quiet : QuietMessenger M}
    (order : gset string -> list string) (order_perm : forall X, order X ≡ₚ elements X) (fs : list string) (s s' : FileDeleter.t D M) r :
  WF s -> (forall f, occ f fs <= get_ref_count s f) -> dec_ref order fs s = (r, s') ->
  WF s' /\ (forall f, get_ref_count s' f = get_ref_count s f - occ f fs) /\
  (forall f, f ∈ files (directory s) -> f ∉ fs \/ 0 < get_ref_count s' f -> f ∈ files (directory s')) /\
  (r = Ok tt -> forall f, f ∈ fs -> get_ref_count s' f = 0 -> f ∉ files (directory s')) /\
  (ReliableDirectory D -> (forall f, f ∈ fs -> f ∈ files (directory s)) -> r = Ok tt) /\
  forall f g, f ∈ files (directory s) -> f ∉ files (directory s') -> starts_with IndexFileNames.SEGMENTS f = false ->
    g ∈ fs -> starts_with IndexFileNames.SEGMENTS g = true -> get_ref_count s' g = 0 -> g ∉ files (directory s').
Proof.
  intros Hw Hb E. destruct (dec_ref_frame order order_perm fs s r s' Hw Hb E) as (? & ? & ? & _ & ? & ?).
  split_and!; try done. intros Hrel Hd. destruct (dec_ref_reliable order order_perm fs s Hw Hb Hd) as (s2 & E2). congruence.
Qed.

Lemma dec_ref_safe_witness : exists s s' : FileDeleter.t (gset string) unit,
  dec_ref elements ["_0.cfs"; "segments_1"] s = (Ok tt, s') /\ "_0.cfs" ∈ directory s' /\ "segments_1" ∉ directory s' /\
  get_ref_count s' "_0.cfs" = 1.
Proof.
  set (rc := RefCount.mk true).
  set (s := mk (<["_0.cfs" := rc 2]> (<["segments_1" := rc 1]> ∅)) {["_0.cfs"; "segments_1"; "_1.cfs"]} None : FileDeleter.t (gset string) unit).
  destruct (dec_ref elements ["_0.cfs"; "segments_1"] s) as [r s'] eqn:E.
  destruct (dec_ref_safe elements (fun _ => reflexivity _) ["_0.cfs"; "segments_1"] s s' r) as (_ & Hc & Hk & Hg & Hr & _); [..|exact E|].
  - intros f x. cbn. rewrite !lookup_insert_Some, lookup_empty. intros Hx.
    destruct Hx as [[_ <-]|[_ [[_ <-]|[_ ?]]]]; [..|done]; cbn; split; [lia|split; [lia|done]|lia|split; [lia|done]].
  - intros f. cbn. unfold get_ref_count. cbn. destruct (decide ("_0.cfs" = f)) as [<-|]; [vm_compute; discriminate|].
    destruct (decide ("segments_1" = f)) as [<-|]; [vm_compute; discriminate|]. rewrite !lookup_insert_ne, lookup_empty by done. done.
  - exists s, s'. assert (r = Ok tt) as ->.
    { apply Hr; [apply _|]. intros f [->|[->|[]%not_elem_of_nil]%elem_of_cons]%elem_of_cons; by apply (bool_decide_unpack _). }
    assert (H1 : get_ref_count s' "_0.cfs" = 1) by (rewrite Hc; reflexivity).
    split_and!; [done| | |done].
    + apply Hk; [by apply (bool_decide_unpack _)|right; lia].
    + apply Hg; [done|by right; left|rewrite Hc; reflexivity].
Defined.
End FileDeleterProofs.
