(* ===== verification/IndexFileDeleter.v ===== *)
(** [IndexFileDeleter] (src/core/index/index_file_deleter.rs): which files of the index are
    still needed, by the commits on disk, by the last checkpoint of the writer, and by whoever
    else asked for them. *)

From Stdlib Require Import ZArith Lia Bool Sorting.Sorted.
From stdpp Require Import base tactics numbers list gmap strings sorting.
From S2P Require Import Prelude IndexFileNames SegmentInfos DeletionPolicy FileDeleter.

Local Open Scope Z_scope.

(** * Messages *)

(** [MessengerImpl]: the stream it writes to is shared with the deleter. *)
Module MessengerImpl.
Record t (I : Type) := mk { info_stream : I; verbose_ref_counts : bool }.
Arguments mk {I}.
Arguments info_stream {I}.
Arguments verbose_ref_counts {I}.

Definition accept_ {I} `{InfoStream I} (ty : MsgType) : ST (t I) unit := fun m =>
  if (match ty with Ref => true | File => false end) && negb (verbose_ref_counts m) then (Ok tt, m)
  else let '(r, i) := log (info_stream m) in (r, mk i (verbose_ref_counts m)).

#[global] Instance messenger_impl {I} `{InfoStream I} : Messenger (t I) := {| accept := accept_ |}.

#[global] Instance messenger_impl_quiet {I} `{QuietInfoStream I} : QuietMessenger (t I).
Proof.
  split. intros ty [i v]. cbn. unfold accept_. cbn. destruct (log_ok i) as (i' & ->).
  destruct (_ && _); eauto.
Qed.
End MessengerImpl.

(** * The deleter *)

Module IndexFileDeleter.
Section Operations.
Context {D I P : Type} {dir : Directory D} {stream : InfoStream I} {pol : IndexDeletionPolicy P}.
Context (to_str_radix : Z -> string) (to_lowercase : string -> string).
(** The order in which a [HashSet] is iterated. *)
Context (order : gset string -> list string).
(** [SegmentInfos::read_commit] and [Directory::get_pending_deletions]. *)
Context (read_commit : D -> string -> result SegmentInfos.t) (get_pending_deletions : D -> result (gset string)).

Abbreviation deleter := (FileDeleter.t D (MessengerImpl.t I)).

Record t := mk {
  commits : list CommitPoint.t;
  last_files : gset string;
  marks : Marks.t;
  starting_commit_deleted : bool;
  file_deleter : deleter }.

Definition set_commits (s : t) (l : list CommitPoint.t) : t := mk l (last_files s) (marks s) (starting_commit_deleted s) (file_deleter s).
Definition set_last_files (s : t) (l : gset string) : t := mk (commits s) l (marks s) (starting_commit_deleted s) (file_deleter s).
Definition set_marks (s : t) (m : Marks.t) : t := mk (commits s) (last_files s) m (starting_commit_deleted s) (file_deleter s).
Definition set_starting (s : t) (b : bool) : t := mk (commits s) (last_files s) (marks s) b (file_deleter s).
Definition set_deleter (s : t) (d : deleter) : t := mk (commits s) (last_files s) (marks s) (starting_commit_deleted s) d.

(** Calls on a part of the state. *)
Definition on_deleter {A} (m : ST deleter A) : ST t A := fun s =>
  let '(r, d) := m (file_deleter s) in (r, set_deleter s d).
Definition on_marks {A} (m : ST Marks.t A) : ST t A := fun s =>
  let '(r, x) := m (marks s) in (r, set_marks s x).
Definition on_self {A Q} (m : ST t A) : ST (t * Q) A := fun '(s, q) =>
  let '(r, s) := m s in (r, (s, q)).

(** A message of the deleter itself. *)
Definition log_ifd : ST t unit := fun s =>
  match FileDeleter.messenger (file_deleter s) with
  | None => (Ok tt, s)
  | Some m =>
      let '(r, i) := log (MessengerImpl.info_stream m) in
      (r, set_deleter s (FileDeleter.mk (FileDeleter.ref_counts (file_deleter s)) (FileDeleter.directory (file_deleter s))
            (Some (MessengerImpl.mk i (MessengerImpl.verbose_ref_counts m)))))
  end.

Definition inc_ref_files (files : list string) : ST t unit := on_deleter (FileDeleter.inc_ref files).

Definition dec_ref (files : list string) : ST t unit := on_deleter (FileDeleter.dec_ref order files).

Definition inc_ref_from_segment (segment_infos : SegmentInfos.t) (is_commit : bool) : ST t unit :=
  let* files := slift (SegmentInfos.files to_str_radix segment_infos is_commit) in
  inc_ref_files (order files).

Definition dec_ref_from_segment (segment_infos : SegmentInfos.t) : ST t unit :=
  let* files := slift (SegmentInfos.files to_str_radix segment_infos false) in
  dec_ref (order files).

Definition exists_ (s : t) (file_name : string) : bool := FileDeleter.exists_ (file_deleter s) file_name.

Definition delete_new_files (files : list string) : ST t unit := on_deleter (FileDeleter.delete_files_if_no_ref order files).

(** [CommitPoint::new]. *)
Definition new_commit_point (segment_infos : SegmentInfos.t) (referenced_files : option (gset string)) : ST Marks.t CommitPoint.t :=
  let* name := slift (SegmentInfos.get_segments_file_name to_str_radix segment_infos) in
  let* segments_file_name := slift (match name with Some n => Ok n | None => Err IllegalState end) in
  let* files := slift (match referenced_files with
                       | Some files => Ok files
                       | None => SegmentInfos.files to_str_radix segment_infos true
                       end) in
  let* m := sget in
  let* _ := sput (Marks.mk (Marks.deleted m) (Marks.commits_to_delete m) (S (Marks.next m))) in
  sret (CommitPoint.mk (Marks.next m) (order files) segments_file_name (SegmentInfos.get_generation segment_infos)
          (SegmentInfos.user_data segment_infos) (SegmentInfos.size segment_infos)).

Definition is_deleted (s : t) (c : CommitPoint.t) : bool := CommitPoint.is_deleted_ c (marks s).

(** ** Removing commits *)

(** The references of the removed commits; a failure does not stop the loop. *)
Fixpoint dec_each (removed : list CommitPoint.t) (first_failure : result unit) : ST t (result unit) :=
  match removed with
  | [] => sret first_failure
  | commit :: removed =>
      let* _ := log_ifd in
      let* failure := IOUtils.caught (on_deleter (FileDeleter.dec_ref order (CommitPoint.files commit))) in
      dec_each removed (match first_failure with Ok _ => failure | _ => first_failure end)
  end.

Definition clear_flag (m : Marks.t) : Marks.t := Marks.mk (Marks.deleted m) false (Marks.next m).

Definition delete_commits : ST t unit :=
  let* s := sget in
  if negb (Marks.commits_to_delete (marks s)) then sret tt
  else
    let removed := base.filter (fun c => is_deleted s c = true) (commits s) in
    let* first_failure := dec_each removed (Ok tt) in
    let* s := sget in
    let s := set_marks s (clear_flag (marks s)) in
    let* _ := sput (set_commits s (base.filter (fun c => is_deleted s c = false) (commits s))) in
    slift first_failure.

(** ** Policies and checkpoints *)

Definition assert_commits_are_not_deleted : ST t unit := fun s =>
  (debug_assert (forallb (fun c => negb (is_deleted s c)) (commits s)), s).

(** [policy.on_commit(&self.commits)] and [policy.on_init(&self.commits)]. *)
Definition consult (call : list CommitPoint.t -> ST (Marks.t * P) unit) : ST (t * P) unit := fun '(s, p) =>
  let '(r, (m, p)) := call (commits s) (marks s, p) in (r, (set_marks s m, p)).

Definition revisit_policy : ST (t * P) unit :=
  let* _ := on_self log_ifd in
  let* s := sget in
  match commits s.1 with
  | [] => sret tt
  | _ :: _ =>
      let* _ := on_self assert_commits_are_not_deleted in
      let* _ := consult on_commit in
      on_self delete_commits
  end.

Definition push_commit (c : CommitPoint.t) : ST t unit := fun s => (Ok tt, set_commits s (commits s ++ [c])).

Definition take_last_files : ST t (gset string) := fun s => (Ok (last_files s), set_last_files s ∅).
Definition put_last_files (files : gset string) : ST t unit := fun s => (Ok tt, set_last_files s files).

Definition checkpoint (segment_infos : SegmentInfos.t) (is_commit : bool) : ST (t * P) unit :=
  let* _ := (if is_commit then
               let* files := slift (SegmentInfos.files to_str_radix segment_infos true) in
               let* _ := on_self (inc_ref_files (order files)) in
               let* c := on_self (on_marks (new_commit_point segment_infos (Some files))) in
               let* _ := on_self (push_commit c) in
               let* _ := on_self assert_commits_are_not_deleted in
               let* _ := consult on_commit in
               on_self delete_commits
             else
               let* new_files := slift (SegmentInfos.files to_str_radix segment_infos false) in
               let* _ := on_self (inc_ref_files (order new_files)) in
               let* files := on_self take_last_files in
               let* _ := on_self (dec_ref (order files)) in
               on_self (put_last_files new_files)) in
  on_self log_ifd.

Definition close : ST t unit :=
  let* s := sget in
  if decide (last_files s = ∅) then sret tt
  else
    let* files := take_last_files in
    dec_ref (order files).

(** ** Files nothing refers to *)

Definition is_index_file (file_name : string) : bool :=
  IndexFileNames.is_codec_file file_name || starts_with IndexFileNames.SEGMENTS file_name
  || starts_with IndexFileNames.PENDING_SEGMENTS file_name.

Fixpoint collect_unreferenced (files : list string) (to_delete : gset string) : ST t (gset string) :=
  match files with
  | [] => sret to_delete
  | file_name :: files =>
      let* s := sget in
      if negb (ends_with InflateGens.WRITE_LOCK_NAME file_name) && negb (exists_ s file_name) && is_index_file file_name then
        let* _ := log_ifd in
        collect_unreferenced files ({[file_name]} ∪ to_delete)
      else collect_unreferenced files to_delete
  end.

Definition refresh : ST t unit :=
  let* s := sget in
  let* files := slift (list_all (FileDeleter.directory (file_deleter s))) in
  let* to_delete := collect_unreferenced files ∅ in
  on_deleter (FileDeleter.delete_files_if_no_ref order (order to_delete)).

(** ** Opening *)

(** The deleter before any file has been looked at. *)
Definition blank (directory : D) (info_stream : I) (initial_index_exists : bool) : t :=
  mk [] ∅ Marks.empty (negb initial_index_exists)
    (FileDeleter.new directory (Some (MessengerImpl.mk info_stream false))).

(** A commit that was read: a commit point of it is entered, and its files referenced. *)
Definition add_commit (sis : SegmentInfos.t) : ST t CommitPoint.t :=
  let* commit_point := on_marks (new_commit_point sis None) in
  let* _ := push_commit commit_point in
  let* _ := inc_ref_files (CommitPoint.files commit_point) in
  sret commit_point.

(** One file of the listing; the commit point of the current generation, when found. *)
Definition init_file (current_gen : Z) (file : string) (current : option CommitPoint.t) : ST t (option CommitPoint.t) :=
  if ends_with InflateGens.WRITE_LOCK_NAME file then sret current
  else
    let is_segments := starts_with IndexFileNames.SEGMENTS file in
    if IndexFileNames.is_codec_file file || is_segments || starts_with IndexFileNames.PENDING_SEGMENTS file then
      if is_segments then
        let* _ := on_deleter (FileDeleter.init_ref_count file) in
        let* _ := log_ifd in
        let* s := sget in
        let* sis := slift (read_commit (FileDeleter.directory (file_deleter s)) file) in
        let* commit_point := add_commit sis in
        sret (if SegmentInfos.get_generation sis =? current_gen then Some commit_point else current)
      else
        let* _ := on_deleter (FileDeleter.init_ref_count file) in
        sret current
    else sret current.

Fixpoint init_files (current_gen : Z) (files : list string) (current : option CommitPoint.t) : ST t (option CommitPoint.t) :=
  match files with
  | [] => sret current
  | file :: files =>
      let* current := init_file current_gen file current in
      init_files current_gen files current
  end.

(** [LuceneError::is_io_error]. *)
Definition is_io_error (e : LuceneErrorKind) : bool :=
  match e with
  | CorruptIndex | Eof | IndexFormatTooNew | IndexFormatTooOld | IndexNotFound | Io | IoWithPath
  | LockAlreadyHeld | LockHeldByOther | LockObtainFailed | LockReleaseFailed | MergeAborted | NoSuchFile => true
  | _ => false
  end.

(** An I/O error of the forced read is a corrupt index. *)
Definition as_corrupt {A} (r : result A) : result A :=
  match r with
  | Err e => if is_io_error e then Err CorruptIndex else Err e
  | r => r
  end.

Definition generation_le (a b : CommitPoint.t) : Prop := CommitPoint.generation a <= CommitPoint.generation b.
#[local] Instance generation_le_dec : RelDecision generation_le.
Proof. intros a b. unfold generation_le. apply _. Defined.

Definition sort_commits : ST t unit := fun s => (Ok tt, set_commits s (merge_sort generation_le (commits s))).

(** The files left with no reference; a segments file among them is an error. *)
Fixpoint check_unrefed (unrefed : list string) : ST t unit :=
  match unrefed with
  | [] => sret tt
  | file :: unrefed =>
      if starts_with IndexFileNames.SEGMENTS file then slift (Err IllegalState)
      else
        let* _ := log_ifd in
        check_unrefed unrefed
  end.

(** The current commit, read although the listing did not show it. *)
Definition force_current (segment_infos : SegmentInfos.t) (initial_index_exists : bool) (current : option CommitPoint.t) :
    ST t (option CommitPoint.t) :=
  let* name := slift (SegmentInfos.get_segments_file_name to_str_radix segment_infos) in
  match name, current with
  | Some file, None =>
      if initial_index_exists then
        let* s := sget in
        let* sis := slift (as_corrupt (read_commit (FileDeleter.directory (file_deleter s)) file)) in
        let* _ := log_ifd in
        let* commit_point := add_commit sis in
        sret (Some commit_point)
      else sret current
  | _, _ => sret current
  end.

(** What the constructor works on: the deleter, the policy, the infos of the writer. *)
Definition on_both {A} (m : ST (t * P) A) : ST (t * P * SegmentInfos.t) A := fun '(s, i) =>
  let '(r, s) := m s in (r, (s, i)).

(** [inflate_gens] on the infos of the writer, with the stream of the deleter. *)
Definition inflate (files : list string) : ST (t * P * SegmentInfos.t) unit := fun '(s, p, infos) =>
  match FileDeleter.messenger (file_deleter s) with
  | None => (Ok tt, (s, p, infos))
  | Some m =>
      let '(r, (infos, i)) := InflateGens.inflate_gens to_lowercase files (infos, MessengerImpl.info_stream m) in
      (r, (set_deleter s (FileDeleter.mk (FileDeleter.ref_counts (file_deleter s)) (FileDeleter.directory (file_deleter s))
             (Some (MessengerImpl.mk i (MessengerImpl.verbose_ref_counts m)))), p, infos))
  end.

(** The constructor, from the blank deleter on. *)
Definition init (files : list string) (initial_index_exists is_reader_init : bool) : ST (t * P * SegmentInfos.t) unit :=
  let* w := sget in
  let segment_infos := w.2 in
  let* current_segments_file_opt := slift (SegmentInfos.get_segments_file_name to_str_radix segment_infos) in
  let* _ := on_both (on_self log_ifd) in
  let* current := on_both (on_self (match current_segments_file_opt with
                                    | Some _ => init_files (SegmentInfos.get_generation segment_infos) files None
                                    | None => sret None
                                    end)) in
  let* current := on_both (on_self (force_current segment_infos initial_index_exists current)) in
  let* _ := (if is_reader_init then on_both (checkpoint segment_infos false) else sret tt) in
  let* _ := on_both (on_self sort_commits) in
  let* w := sget in
  let* pending := slift (get_pending_deletions (FileDeleter.directory (file_deleter w.1.1))) in
  let* _ := inflate (order (FileDeleter.get_all_files (file_deleter w.1.1)) ++ order pending) in
  let* unrefed := on_both (on_self (on_deleter FileDeleter.get_unrefed_files)) in
  let* _ := on_both (on_self (check_unrefed (order unrefed))) in
  let* _ := on_both (on_self (on_deleter (FileDeleter.delete_files_if_no_ref order (order unrefed)))) in
  let* _ := on_both (consult on_init) in
  let* w := sget in
  let* _ := on_both (checkpoint w.2 false) in
  let* _ := on_both (on_self (fun s => (Ok tt, set_starting s (match current with Some c => is_deleted s c | None => false end)))) in
  on_both (on_self delete_commits).

Definition new (files : list string) (directory : D) (policy : P) (segment_infos : SegmentInfos.t) (info_stream : I)
    (initial_index_exists is_reader_init : bool) : result unit * (t * P * SegmentInfos.t) :=
  init files initial_index_exists is_reader_init (blank directory info_stream initial_index_exists, policy, segment_infos).
End Operations.
Arguments t : clear implicits.
End IndexFileDeleter.
