(* ===== verification/IndexFileDeleterProofs.v ===== *)
(** Correctness of the index file deleter: every file that a live commit, the last checkpoint
    or another holder refers to stays on disk. *)

From Stdlib Require Import ZArith Lia Bool.
From stdpp Require Import base tactics numbers list gmap strings sorting relations.
From S2P Require Import Prelude IndexFileNames SegmentInfos DeletionPolicy FileDeleter IndexFileDeleter.

Local Open Scope Z_scope.

Module IndexFileDeleterProofs.
Import IndexFileDeleter.
Import FileDeleterProofs.

Section Proofs.
Context {D I P : Type} {dir : Directory D} {dir_spec : DirectorySpec D} {stream : InfoStream I} {quiet : QuietInfoStream I}.
Context {pol : IndexDeletionPolicy P} {pol_spec : PolicySpec P}.
Context (to_str_radix : Z -> string).
Context (order : gset string -> list string) (order_perm : forall X, order X ≡ₚ elements X).
Implicit Types (s : IndexFileDeleter.t D I) (d : FileDeleter.t D (MessengerImpl.t I)).

Abbreviation disk s := (files (FileDeleter.directory (file_deleter s))).
Abbreviation count s f := (FileDeleter.get_ref_count (file_deleter s) f).

(** ** References *)

(** The references that a list of commits holds to a file. *)
Definition total (f : string) (l : list CommitPoint.t) : Z := occ f (mjoin (CommitPoint.files <$> l)).

(** The references the deleter itself knows of. *)
Definition refs s (f : string) : Z := total f (commits s) + (if decide (f ∈ last_files s) then 1 else 0).

Lemma total_app f l l' : total f (l ++ l') = total f l + total f l'.
Proof. unfold total. by rewrite fmap_app, join_app, occ_app. Qed.

Lemma total_cons f c l : total f (c :: l) = occ f (CommitPoint.files c) + total f l.
Proof. unfold total. cbn. by rewrite occ_app. Qed.

Lemma total_nonneg f l : 0 <= total f l.
Proof. apply occ_nonneg. Qed.

Lemma total_in f c l : c ∈ l -> f ∈ CommitPoint.files c -> 0 < total f l.
Proof. intros Hc Hf. apply occ_in, list_elem_of_join. exists (CommitPoint.files c). split; [done|]. by apply list_elem_of_fmap_2. Qed.

Lemma total_perm f l l' : l ≡ₚ l' -> total f l = total f l'.
Proof. induction 1; rewrite ?total_cons; lia. Qed.

Lemma total_filter f (b : CommitPoint.t -> bool) l :
  total f l = total f (base.filter (fun c => b c = true) l) + total f (base.filter (fun c => b c = false) l).
Proof.
  induction l as [|c l IH]; [done|]. rewrite total_cons, !filter_cons, IH.
  destruct (b c); repeat case_decide; try done; rewrite total_cons; lia.
Qed.

Lemma occ_order f X : occ f (order X) = if decide (f ∈ X) then 1 else 0.
Proof.
  rewrite occ_NoDup by by apply order_NoDup. destruct (decide (f ∈ X)) as [Hf|Hf].
  - rewrite decide_True; [done|]. by rewrite order_elem.
  - rewrite decide_False; [done|]. by rewrite order_elem.
Qed.

(** ** The invariant *)

(** [ext f] references to [f] are held by others. Every reference is counted and its file is
    on disk; the identities of the commits are distinct, and a commit is marked only while
    the flag says so. *)
Record Inv (ext : string -> Z) s : Prop := {
  inv_wf : WF (file_deleter s);
  inv_ext : forall f, 0 <= ext f;
  inv_count : forall f, refs s f + ext f <= count s f;
  inv_disk : forall f, 0 < refs s f + ext f -> f ∈ disk s;
  inv_ids : NoDup (CommitPoint.id <$> commits s);
  inv_old : forall c, c ∈ commits s -> (CommitPoint.id c < Marks.next (marks s))%nat;
  inv_marks : forall n, n ∈ Marks.deleted (marks s) -> (n < Marks.next (marks s))%nat;
  inv_flag : Marks.commits_to_delete (marks s) = false -> forall c, c ∈ commits s -> is_deleted s c = false }.

(** ** The blank deleter *)

Lemma blank_inv (d : D) (i : I) b : Inv (fun _ => 0) (blank d i b).
Proof.
  assert (Hr : forall f, refs (blank d i b) f = 0) by (intros f; unfold refs; cbn; by rewrite decide_False by apply not_elem_of_empty).
  split.
  - intros f rc. cbn. by rewrite lookup_empty.
  - done.
  - intros f. by rewrite Hr.
  - intros f. rewrite Hr. lia.
  - constructor.
  - intros c []%not_elem_of_nil.
  - intros n []%not_elem_of_empty.
  - intros _ c []%not_elem_of_nil.
Qed.

(** Files with a reference left survive; counts do not rise. *)
Record falls d d' : Prop := {
  falls_wf : WF d';
  falls_count : forall f, FileDeleter.get_ref_count d' f <= FileDeleter.get_ref_count d f;
  falls_disk : files (FileDeleter.directory d') ⊆ files (FileDeleter.directory d);
  falls_keeps : forall f, f ∈ files (FileDeleter.directory d) -> 0 < FileDeleter.get_ref_count d' f -> f ∈ files (FileDeleter.directory d') }.

Lemma falls_refl d : WF d -> falls d d.
Proof. intros Hw. by split. Qed.

Lemma falls_trans d1 d2 d3 : falls d1 d2 -> falls d2 d3 -> falls d1 d3.
Proof.
  intros [? C1 D1 K1] [? C2 D2 K2]. split; [done| |set_solver|].
  - intros f. specialize (C1 f). specialize (C2 f). lia.
  - intros f Hf Hc. apply K2; [|done]. apply K1; [done|]. specialize (C2 f). lia.
Qed.

Lemma same_falls d d' : WF d -> FileDeleter.ref_counts d' = FileDeleter.ref_counts d ->
  FileDeleter.directory d' = FileDeleter.directory d -> falls d d'.
Proof.
  intros Hw Hc Hd. split; rewrite ?Hd; try done.
  - intros f rc. rewrite Hc. apply Hw.
  - intros f. unfold FileDeleter.get_ref_count. by rewrite Hc.
Qed.

(** The deleter changes under the invariant as long as the counts cover the references. *)
Lemma inv_falls ext s d' : Inv ext s -> falls (file_deleter s) d' ->
  (forall f, refs s f + ext f <= FileDeleter.get_ref_count d' f) -> Inv ext (set_deleter s d').
Proof.
  intros [? ? ? Hd ? ? ? ?] [? ? ? Hk] Hc. split; try done. cbn. intros f Hf. apply Hk; [by apply Hd|].
  specialize (Hc f). change (refs (set_deleter s d') f) with (refs s f) in Hf. lia.
Qed.

(** Less is referred to. *)
Lemma inv_mono ext s ext' s' : Inv ext s -> file_deleter s' = file_deleter s -> marks s' = marks s ->
  commits s' = commits s -> (forall f, 0 <= ext' f) -> (forall f, refs s' f + ext' f <= refs s f + ext f) -> Inv ext' s'.
Proof.
  intros [? ? Hc Hd ? ? ? Hf] E1 E2 E3 He Hle. split; try done; rewrite ?E1, ?E2, ?E3; try done.
  - intros f. specialize (Hle f). specialize (Hc f). lia.
  - intros f Hp. apply Hd. specialize (Hle f). lia.
  - intros Hfl c Hin. unfold is_deleted in *. rewrite E2. by apply Hf.
Qed.

(** ** Messages *)

Lemma log_ifd_same s : exists s', log_ifd s = (Ok tt, s') /\
  exists d', s' = set_deleter s d' /\ FileDeleter.ref_counts d' = FileDeleter.ref_counts (file_deleter s) /\
    FileDeleter.directory d' = FileDeleter.directory (file_deleter s).
Proof.
  unfold log_ifd. destruct (FileDeleter.messenger (file_deleter s)) as [m|] eqn:E.
  - destruct (log_ok (MessengerImpl.info_stream m)) as (i' & ->). eexists. split; [done|]. by eexists.
  - exists s. split; [done|]. exists (file_deleter s). by destruct s.
Qed.

Lemma inv_log ext s : Inv ext s -> exists s', log_ifd s = (Ok tt, s') /\ Inv ext s' /\
  exists d', s' = set_deleter s d' /\ falls (file_deleter s) d' /\
    (forall f, FileDeleter.get_ref_count d' f = FileDeleter.get_ref_count (file_deleter s) f) /\
    FileDeleter.directory d' = FileDeleter.directory (file_deleter s).
Proof.
  intros Hi. destruct (log_ifd_same s) as (s' & E & d' & -> & Hc & Hd). exists (set_deleter s d').
  pose proof (inv_wf _ _ Hi) as Hw. pose proof (same_falls _ d' Hw Hc Hd) as Hf.
  assert (Hg : forall f, FileDeleter.get_ref_count d' f = FileDeleter.get_ref_count (file_deleter s) f)
    by (intros f; unfold FileDeleter.get_ref_count; by rewrite Hc).
  split; [done|]. split; [|by exists d']. apply inv_falls; [done|done|]. intros f. rewrite Hg. by apply inv_count.
Qed.

(** ** Taking and giving up references *)

(** No count overflows when these references are taken. *)
Definition room s (fs : list string) : Prop := forall f, count s f + occ f fs < 2 ^ 64.

(** Taking references to files on disk. *)
Lemma inc_ref_files_inv ext s fs : Inv ext s -> room s fs -> (forall f, f ∈ fs -> f ∈ disk s) ->
  exists d', inc_ref_files fs s = (Ok tt, set_deleter s d') /\
    Inv (fun f => ext f + occ f fs) (set_deleter s d') /\
    FileDeleter.directory d' = FileDeleter.directory (file_deleter s) /\
    forall f, FileDeleter.get_ref_count d' f = count s f + occ f fs.
Proof.
  intros Hi Hr Hf. destruct (inc_ref_ok fs (file_deleter s) (inv_wf _ _ Hi) Hr) as (d' & E & Hw & Hd & Hc).
  exists d'. unfold inc_ref_files, on_deleter. rewrite E. split; [done|]. split; [|done].
  destruct Hi as [? He Hcnt Hdisk ? ? ? ?]. split; try done; cbn.
  - intros f. specialize (He f). pose proof (occ_nonneg f fs). lia.
  - intros f. rewrite Hc. change (refs (set_deleter s d') f) with (refs s f). specialize (Hcnt f). lia.
  - intros f Hp. rewrite Hd. destruct (decide (f ∈ fs)) as [Hin|Hin]; [by apply Hf|]. apply Hdisk.
    rewrite occ_in in Hin. pose proof (occ_nonneg f fs). change (refs (set_deleter s d') f) with (refs s f) in Hp. lia.
Qed.

(** Giving up references that others hold, whether the deletions succeed or not. *)
Lemma dec_ref_inv ext s fs r s' : Inv ext s -> (forall f, occ f fs <= ext f) -> dec_ref order fs s = (r, s') ->
  exists d', s' = set_deleter s d' /\ Inv (fun f => ext f - occ f fs) s' /\ falls (file_deleter s) d' /\
    (forall f, FileDeleter.get_ref_count d' f = count s f - occ f fs) /\
    (r = Ok tt -> forall f, f ∈ fs -> FileDeleter.get_ref_count d' f = 0 -> f ∉ files (FileDeleter.directory d')).
Proof.
  intros Hi Hle. unfold dec_ref, on_deleter. destruct (FileDeleter.dec_ref order fs (file_deleter s)) as [r' d'] eqn:E.
  intros [= <- <-].
  assert (Hb : forall f, occ f fs <= count s f).
  { intros f. specialize (Hle f). pose proof (inv_count _ _ Hi f). unfold refs in *. pose proof (total_nonneg f (commits s)).
    case_decide; lia. }
  destruct (dec_ref_frame order order_perm fs _ _ _ (inv_wf _ _ Hi) Hb E) as (Hw & Hc & Hk & Hs & Hg & _).
  exists d'. split; [done|]. assert (Hf : falls (file_deleter s) d').
  { split; [done| |done|auto]. intros f. rewrite Hc. pose proof (occ_nonneg f fs). lia. }
  split; [|split; [done|split; [done|auto]]].
  assert (Hi' : Inv (fun f => ext f - occ f fs) s).
  { eapply inv_mono; [exact Hi|done..| |]; intros f; [specialize (Hle f); lia|pose proof (occ_nonneg f fs); lia]. }
  apply inv_falls; [done|done|]. intros f. rewrite Hc. pose proof (inv_count _ _ Hi f). lia.
Qed.

(** Deleting what nothing refers to. *)
Lemma delete_unreferenced_inv ext s fs r s' : Inv ext s ->
  on_deleter (FileDeleter.delete_files_if_no_ref order fs) s = (r, s') ->
  exists d', s' = set_deleter s d' /\ Inv ext s' /\ falls (file_deleter s) d' /\
    (forall f, FileDeleter.get_ref_count d' f = count s f) /\
    (r = Ok tt -> forall f, f ∈ fs -> count s f = 0 -> f ∉ disk s').
Proof.
  intros Hi. unfold on_deleter. destruct (FileDeleter.delete_files_if_no_ref order fs (file_deleter s)) as [r' d'] eqn:E.
  intros [= <- <-]. destruct (delete_files_if_no_ref_frame order order_perm fs _ _ _ E) as (Hc & Hs & Hk & Hg).
  assert (Hcnt : forall f, FileDeleter.get_ref_count d' f = count s f) by (intros f; unfold FileDeleter.get_ref_count; by rewrite Hc).
  assert (Hf : falls (file_deleter s) d').
  { split; [|intros f; by rewrite Hcnt|done|].
    - intros f rc. rewrite Hc. apply (inv_wf _ _ Hi).
    - intros f Hin Hp. apply Hk; [done|]. right. by rewrite <- Hcnt. }
  exists d'. split; [done|]. split; [|split; [done|split; [done|]]].
  - apply inv_falls; [done|done|]. intros f. rewrite Hcnt. by apply inv_count.
  - intros Hr f Hin Hz. apply Hg; [done|done|]. by rewrite exists_count, Hz.
Qed.

(** ** Removing commits *)

Lemma dec_each_ok removed : forall s first, WF (file_deleter s) -> (forall f, total f removed <= count s f) ->
  exists r d', dec_each order removed first s = (Ok r, set_deleter s d') /\ falls (file_deleter s) d' /\
    (forall f, FileDeleter.get_ref_count d' f = count s f - total f removed) /\
    (r = Ok tt -> first = Ok tt /\ forall f, 0 < total f removed -> FileDeleter.get_ref_count d' f = 0 -> f ∉ files (FileDeleter.directory d')).
Proof.
  induction removed as [|c removed IH]; intros s first Hw Hb; cbn [dec_each].
  - exists first, (file_deleter s). split; [by destruct s|]. split; [by apply falls_refl|]. split; [intros f; cbn; lia|].
    intros ->. split; [done|]. intros f Hf. cbn in Hf. lia.
  - destruct (log_ifd_same s) as (s1 & E1 & d1 & -> & Hc1 & Hd1). rewrite (sbind_ok _ _ _ _ _ E1).
    pose proof (same_falls _ d1 Hw Hc1 Hd1) as F1.
    assert (Hcnt1 : forall f, FileDeleter.get_ref_count d1 f = count s f) by (intros f; unfold FileDeleter.get_ref_count; by rewrite Hc1).
    destruct (FileDeleter.dec_ref order (CommitPoint.files c) d1) as [r2 d2] eqn:E2.
    assert (E3 : IOUtils.caught (on_deleter (FileDeleter.dec_ref order (CommitPoint.files c))) (set_deleter s d1)
      = (Ok r2, set_deleter s d2)) by (unfold IOUtils.caught, on_deleter; cbn; by rewrite E2).
    rewrite (sbind_ok _ _ _ _ _ E3).
    destruct (dec_ref_frame order order_perm (CommitPoint.files c) d1 r2 d2 (falls_wf _ _ F1)) as (Hw2 & Hc2 & Hk2 & Hs2 & Hg2 & _); [|exact E2|].
    { intros f. rewrite Hcnt1. specialize (Hb f). rewrite total_cons in Hb. pose proof (total_nonneg f removed). lia. }
    assert (F2 : falls d1 d2).
    { split; [done| |done|auto]. intros f. rewrite Hc2. pose proof (occ_nonneg f (CommitPoint.files c)). lia. }
    destruct (IH (set_deleter s d2) (match first with Ok _ => r2 | _ => first end)) as (r & d' & -> & F3 & Hc3 & Hr).
    { done. } { intros f. cbn. rewrite Hc2, Hcnt1. specialize (Hb f). rewrite total_cons in Hb. lia. }
    exists r, d'. split; [done|]. cbn in F3. split; [eauto using falls_trans|].
    split. { intros f. rewrite Hc3. cbn [set_deleter file_deleter]. rewrite Hc2, Hcnt1, total_cons. lia. }
    intros Hok. destruct (Hr Hok) as [Hfirst Hgone].
    assert (first = Ok tt /\ r2 = Ok tt) as [-> ->] by (destruct first as [[]| | |]; try done).
    split; [done|]. intros f Hp Hz. rewrite total_cons in Hp. pose proof (total_nonneg f removed).
    destruct (decide (0 < total f removed)); [by apply Hgone|].
    intros Hin. apply (Hg2 eq_refl f); [apply occ_in; lia| |by apply (falls_disk _ _ F3)].
    rewrite Hc3 in Hz. cbn in Hz. lia.
Qed.

Lemma filter_ids (b : CommitPoint.t -> bool) l : NoDup (CommitPoint.id <$> l) ->
  NoDup (CommitPoint.id <$> base.filter (fun c => b c = false) l).
Proof.
  induction l as [|c l IH]; [done|]. rewrite fmap_cons, NoDup_cons, filter_cons. intros [Hn Hd].
  case_decide; [|by apply IH]. rewrite fmap_cons, NoDup_cons. split; [|by apply IH]. intros (c' & E & Hc)%list_elem_of_fmap.
  apply Hn. rewrite E. apply list_elem_of_fmap_2. by apply list_elem_of_filter in Hc as [_ Hc].
Qed.

Abbreviation kept s := (base.filter (fun c => is_deleted s c = false) (commits s)).
Abbreviation removed s := (base.filter (fun c => is_deleted s c = true) (commits s)).

Lemma filter_every_one {A} (b : A -> bool) v (l : list A) : (forall x, x ∈ l -> b x = v) -> base.filter (fun x => b x = v) l = l.
Proof.
  induction l as [|x l IH]; intros Hl; [done|]. rewrite filter_cons_True by (apply Hl; by left). f_equal. apply IH.
  intros y Hy. apply Hl. by right.
Qed.

Lemma filter_no_one {A} (b : A -> bool) v (l : list A) : (forall x, x ∈ l -> b x <> v) -> base.filter (fun x => b x = v) l = [].
Proof.
  induction l as [|x l IH]; intros Hl; [done|]. rewrite filter_cons_False by (apply Hl; by left). apply IH.
  intros y Hy. apply Hl. by right.
Qed.

(** What is left of the deleter when the marked commits are gone. *)
Definition without_marked s (d' : FileDeleter.t D (MessengerImpl.t I)) : IndexFileDeleter.t D I :=
  mk (kept s) (last_files s) (clear_flag (marks s)) (starting_commit_deleted s) d'.

Lemma total_removed f s : total f (commits s) = total f (removed s) + total f (kept s).
Proof. exact (total_filter f (is_deleted s) (commits s)). Qed.

Lemma inv_without_marked ext s d' : Inv ext s -> falls (file_deleter s) d' ->
  (forall f, FileDeleter.get_ref_count d' f = count s f - total f (removed s)) -> Inv ext (without_marked s d').
Proof.
  intros Hi Hf Hc. pose proof (inv_count _ _ Hi) as Hcnt. pose proof (inv_disk _ _ Hi) as Hdisk.
  assert (Hr : forall f, refs s f = refs (without_marked s d') f + total f (removed s)).
  { intros f. unfold refs. rewrite total_removed. cbn [without_marked commits last_files]. lia. }
  split; try apply Hi.
  - apply Hf.
  - intros f. cbn [without_marked file_deleter]. rewrite Hc. specialize (Hcnt f). specialize (Hr f). lia.
  - intros f Hp. cbn [without_marked file_deleter]. pose proof (total_nonneg f (removed s)). specialize (Hcnt f). specialize (Hr f).
    apply (falls_keeps _ _ Hf); [apply Hdisk; lia|]. rewrite Hc. lia.
  - by apply filter_ids, Hi.
  - intros c [_ Hc']%list_elem_of_filter. by apply (inv_old _ _ Hi).
  - intros _ c [Hd _]%list_elem_of_filter. done.
Qed.

(** The flag is down, and so no commit is marked; or the marked commits go. *)
Lemma delete_commits_inv ext s : Inv ext s -> exists r d', delete_commits order s = (r, without_marked s d') /\
  Inv ext (without_marked s d') /\ falls (file_deleter s) d' /\
  (forall f, FileDeleter.get_ref_count d' f = count s f - total f (removed s)) /\
  (r = Ok tt -> forall f, 0 < total f (removed s) -> FileDeleter.get_ref_count d' f = 0 -> f ∉ files (FileDeleter.directory d')).
Proof.
  intros Hi. pose proof (inv_wf _ _ Hi) as Hw. unfold delete_commits. rewrite sget_sbind.
  destruct (Marks.commits_to_delete (marks s)) eqn:Efl; cbn [negb].
  - destruct (dec_each_ok (removed s) s (Ok tt) Hw) as (r & d' & E & Hf & Hc & Hg).
    { intros f. pose proof (inv_count _ _ Hi f). unfold refs in *. rewrite total_removed in *.
      pose proof (total_nonneg f (kept s)). pose proof (inv_ext _ _ Hi f). case_decide; lia. }
    rewrite (sbind_ok _ _ _ _ _ E), sget_sbind. cbv zeta. rewrite sput_sbind.
    exists r, d'. split; [done|]. split; [by apply inv_without_marked|]. split_and!; [done|done|]. intros ->. by apply Hg.
  - assert (Hn : removed s = []).
    { apply filter_no_one. intros c Hc. rewrite (inv_flag _ _ Hi Efl c Hc). done. }
    assert (Hk : kept s = commits s) by (apply filter_every_one; by apply (inv_flag _ _ Hi)).
    exists (Ok tt), (file_deleter s). assert (Hc : forall f, count s f = count s f - total f (removed s)) by (intros f; rewrite Hn; cbn; lia).
    assert (E : without_marked s (file_deleter s) = s).
    { unfold without_marked. rewrite Hk. destruct s as [? ? [] ? ?]. cbn in *. by rewrite Efl. }
    split; [by rewrite E|]. split_and!; [by rewrite E|by apply falls_refl|done|]. intros _ f. rewrite Hn. cbn. lia.
Qed.

(** ** Consulting the policy *)

Lemma consult_inv ext s (p : P) (call : list CommitPoint.t -> ST (Marks.t * P) unit) r s' p' : Inv ext s ->
  (forall l m p r m' p', call l (m, p) = (r, (m', p')) -> marked l m m') ->
  consult call (s, p) = (r, (s', p')) ->
  exists m', s' = set_marks s m' /\ marked (commits s) (marks s) m' /\ Inv ext s' /\ call (commits s) (marks s, p) = (r, (m', p')).
Proof.
  intros Hi Hcall. unfold consult. destruct (call (commits s) (marks s, p)) as [r1 [m' p1]] eqn:E. intros [= <- <- <-].
  pose proof (Hcall _ _ _ _ _ _ E) as Hm. exists m'. split_and!; try done. destruct Hm as [Hnx Hk Ho Hfl Hs].
  split; cbn; rewrite ?Hnx; try apply Hi.
  - intros n Hn%Ho. apply elem_of_union in Hn as [Hn|Hn]; [by apply (inv_marks _ _ Hi)|].
    apply elem_of_list_to_set, list_elem_of_fmap in Hn as (c & -> & Hc). by apply (inv_old _ _ Hi).
  - intros Hf c Hc. unfold is_deleted, CommitPoint.is_deleted_. cbn. rewrite Hs by done. apply (inv_flag _ _ Hi); [|done].
    destruct (Marks.commits_to_delete (marks s)); [by rewrite Hfl in Hf|done].
Qed.

Lemma assert_state s r s' : assert_commits_are_not_deleted s = (r, s') -> s' = s.
Proof. by intros [= _ <-]. Qed.

(** ** Checkpoints *)

Lemma on_self_run {A Q} (m : ST (IndexFileDeleter.t D I) A) s (q : Q) r s' : m s = (r, s') -> on_self m (s, q) = (r, (s', q)).
Proof. unfold on_self. by intros ->. Qed.

Lemma on_self_inv {A Q} (m : ST (IndexFileDeleter.t D I) A) s (q : Q) r w : on_self m (s, q) = (r, w) ->
  exists s', m s = (r, s') /\ w = (s', q).
Proof. unfold on_self. destruct (m s) as [r' s']. intros [= <- <-]. eauto. Qed.

(** The end of a commit, and of a visit: the policy speaks, the marked commits go. *)
Abbreviation settle := (sbind (on_self assert_commits_are_not_deleted) (fun _ =>
  sbind (consult (P := P) on_commit) (fun _ => on_self (delete_commits order)))).

Lemma settle_inv ext s p r w : Inv ext s -> settle (s, p) = (r, w) -> Inv ext w.1.
Proof.
  intros Hi. intros [([] & w1 & E1 & E)|(r1 & E1 & _)]%sbind_cases; apply on_self_inv in E1 as (s1 & ->%assert_state & ->); [|done].
  apply sbind_cases in E as [([] & w2 & E2 & E)|(r2 & E2 & _)]; destruct w as [s' p'].
  - destruct w2 as [s2 p2]. destruct (consult_inv ext s p on_commit _ s2 p2 Hi on_commit_marks E2) as (m' & -> & _ & Hi2 & _).
    apply on_self_inv in E as (s3 & E & [= -> ->]). destruct (delete_commits_inv ext _ Hi2) as (r3 & d' & E3 & Hi3 & _).
    rewrite E3 in E. by injection E as _ <-.
  - destruct (consult_inv ext s p on_commit _ s' p' Hi on_commit_marks E2) as (m' & -> & _ & Hi2 & _). done.
Qed.

Lemma revisit_policy_inv ext s p r w : Inv ext s -> revisit_policy order (s, p) = (r, w) -> Inv ext w.1.
Proof.
  intros Hi. unfold revisit_policy. destruct (inv_log ext s Hi) as (s1 & E1 & Hi1 & _).
  rewrite (sbind_ok _ _ _ _ _ (on_self_run _ s p _ _ E1)), sget_sbind. cbn [fst].
  destruct (commits s1); [by intros [= _ <-]|]. by apply settle_inv.
Qed.

Lemma new_commit_point_ok infos fs (m : Marks.t) r m' : new_commit_point to_str_radix order infos (Some fs) m = (r, m') ->
  (m' = m /\ forall c, r <> Ok c) \/
  exists c, r = Ok c /\ CommitPoint.id c = Marks.next m /\ CommitPoint.files c = order fs /\
    CommitPoint.generation c = SegmentInfos.generation infos /\
    m' = Marks.mk (Marks.deleted m) (Marks.commits_to_delete m) (S (Marks.next m)).
Proof.
  unfold new_commit_point. rewrite slift_sbind.
  destruct (SegmentInfos.get_segments_file_name to_str_radix infos) as [[n|]| | |]; [|by intros [= <- <-]; left..].
  rewrite !slift_sbind, sget_sbind, sput_sbind. intros [= <- <-]. right. by eexists.
Qed.

(** A new commit whose files are on disk takes over the references taken for it. *)
Lemma push_commit_inv ext s c : Inv (fun f => ext f + occ f (CommitPoint.files c)) s -> (forall f, 0 <= ext f) ->
  CommitPoint.id c = Marks.next (marks s) ->
  Inv ext (set_commits (set_marks s (Marks.mk (Marks.deleted (marks s)) (Marks.commits_to_delete (marks s)) (S (Marks.next (marks s)))))
    (commits s ++ [c])).
Proof.
  intros Hi He Hid. set (s' := set_commits _ _).
  assert (Hr : forall f, refs s' f = refs s f + occ f (CommitPoint.files c)).
  { intros f. unfold refs, s'. cbn [commits last_files set_commits]. rewrite total_app, total_cons.
    change (total f []) with 0. cbn [set_marks last_files]. lia. }
  split; try done; cbn [s' set_commits set_marks file_deleter commits marks Marks.next Marks.deleted].
  - apply Hi.
  - intros f. fold s'. rewrite Hr. pose proof (inv_count _ _ Hi f). cbn in *. lia.
  - intros f. fold s'. rewrite Hr. intros Hp. apply (inv_disk _ _ Hi). cbn. lia.
  - rewrite fmap_app, NoDup_app. split_and!; [apply Hi| |apply NoDup_singleton].
    intros n (c' & -> & Hc)%list_elem_of_fmap. cbn. rewrite list_elem_of_singleton, Hid.
    pose proof (inv_old _ _ Hi c' Hc). lia.
  - intros c' [Hc| ->%list_elem_of_singleton]%elem_of_app; [pose proof (inv_old _ _ Hi c' Hc)|]; lia.
  - intros n Hn. pose proof (inv_marks _ _ Hi n Hn). lia.
  - intros Hf c' [Hc| ->%list_elem_of_singleton]%elem_of_app; [by apply (inv_flag _ _ Hi)|].
    unfold is_deleted, CommitPoint.is_deleted_. cbn. apply bool_decide_eq_false. rewrite Hid.
    intros Hn%(inv_marks _ _ Hi). lia.
Qed.

(** What a caller of a checkpoint ensures: the files of the infos are on disk. *)
Definition written s (infos : SegmentInfos.t) (is_commit : bool) : Prop :=
  forall fs, SegmentInfos.files to_str_radix infos is_commit = Ok fs -> room s (order fs) /\ forall f, f ∈ fs -> f ∈ disk s.

(** References held by the deleter for a moment are given up by a failure. *)
Lemma inv_forget ext fs s : Inv (fun f => ext f + occ f fs) s -> (forall f, 0 <= ext f) -> Inv ext s.
Proof. intros Hi He. eapply inv_mono; [exact Hi|done..|]. intros f. cbn. pose proof (occ_nonneg f fs). lia. Qed.

Lemma commit_inv ext s p infos fs r w : Inv ext s -> room s (order fs) -> (forall f, f ∈ fs -> f ∈ disk s) ->
  (let* _ := on_self (inc_ref_files (order fs)) in
   let* c := on_self (on_marks (new_commit_point to_str_radix order infos (Some fs))) in
   let* _ := on_self (push_commit c) in
   settle) (s, p) = (r, w) -> Inv ext w.1.
Proof.
  intros Hi Hr Hf. pose proof (inv_ext _ _ Hi) as He.
  destruct (inc_ref_files_inv ext s (order fs) Hi Hr) as (d' & E1 & Hi1 & Hd1 & _).
  { intros f Hin. apply Hf. by rewrite (order_elem order order_perm) in Hin. }
  rewrite (sbind_ok _ _ _ _ _ (on_self_run _ s p _ _ E1)). set (s1 := set_deleter s d') in *.
  intros [(c & w2 & E2 & E)|(r2 & E2 & _)]%sbind_cases; apply on_self_inv in E2 as (s2 & E2 & ->);
    unfold on_marks in E2; destruct (new_commit_point to_str_radix order infos (Some fs) (marks s1)) as [r3 m3] eqn:E3;
    destruct (new_commit_point_ok _ _ _ _ _ E3) as [[-> Hno]|(c' & -> & Hid & Hfc & _ & ->)]; injection E2 as E2 <-.
  - by destruct (Hno c).
  - subst c'. rewrite (sbind_ok _ _ _ _ _ (on_self_run (push_commit c) _ p (Ok tt) _ eq_refl)) in E. eapply settle_inv; [|exact E].
    rewrite <- Hfc in Hi1. exact (push_commit_inv ext s1 c Hi1 He Hid).
  - replace (set_marks s1 (marks s1)) with s1 by by destruct s1. by eapply inv_forget.
  - subst r2. apply inv_forget with (order fs); [|done]. cbn. destruct Hi1 as [? ? ? ? ? Ho Hm ?].
    split; try done; cbn; [intros c0 Hc0; specialize (Ho c0 Hc0)|intros n Hn; specialize (Hm n Hn)]; cbn in *; lia.
Qed.

Lemma swap_inv {Q} ext s (p : Q) fs r w : Inv ext s -> room s (order fs) -> (forall f, f ∈ fs -> f ∈ disk s) ->
  (let* _ := on_self (inc_ref_files (order fs)) in
   let* files := on_self take_last_files in
   let* _ := on_self (dec_ref order (order files)) in
   on_self (put_last_files fs)) (s, p) = (r, w) -> Inv ext w.1.
Proof.
  intros Hi Hr Hf. pose proof (inv_ext _ _ Hi) as He.
  destruct (inc_ref_files_inv ext s (order fs) Hi Hr) as (d' & E1 & Hi1 & Hd1 & _).
  { intros f Hin. apply Hf. by rewrite (order_elem order order_perm) in Hin. }
  rewrite (sbind_ok _ _ _ _ _ (on_self_run _ s p _ _ E1)). set (s1 := set_deleter s d') in *.
  rewrite (sbind_ok _ _ _ _ _ (on_self_run take_last_files s1 p (Ok _) _ eq_refl)).
  set (s2 := set_last_files s1 ∅).
  assert (Hi2 : Inv (fun f => ext f + occ f (order fs) + occ f (order (last_files s1))) s2).
  { eapply inv_mono; [exact Hi1|done..| |]; intros f; [specialize (He f); pose proof (occ_nonneg f (order fs));
      pose proof (occ_nonneg f (order (last_files s1))); lia|].
    unfold refs, s2. cbn [commits last_files set_last_files]. rewrite (occ_order f (last_files s1)).
    rewrite (decide_False (P := f ∈ ∅)) by set_solver. lia. }
  assert (Hle : forall f, occ f (order (last_files s1)) <= ext f + occ f (order fs) + occ f (order (last_files s1))).
  { intros f. specialize (He f). pose proof (occ_nonneg f (order fs)). lia. }
  intros [([] & w3 & E3 & E)|(r3 & E3 & _)]%sbind_cases; apply on_self_inv in E3 as (s3 & E3 & ->);
    destruct (dec_ref_inv _ _ _ _ _ Hi2 Hle E3) as (d3 & -> & Hi3 & _);
    assert (Hi4 : Inv (fun f => ext f + occ f (order fs)) (set_deleter s2 d3))
      by (eapply inv_mono; [exact Hi3|done..| |]; intros f; [specialize (He f); pose proof (occ_nonneg f (order fs)); lia|cbn; lia]).
  - apply on_self_inv in E as (s4 & [= _ <-] & ->). cbn. eapply inv_mono; [exact Hi4|done..|]. intros f.
    unfold refs. cbn [commits last_files set_last_files s2 set_deleter]. rewrite (occ_order f fs).
    rewrite (decide_False (P := f ∈ ∅)) by set_solver. lia.
  - by eapply inv_forget.
Qed.

Lemma checkpoint_inv ext s p infos is_commit r w : Inv ext s -> written s infos is_commit ->
  checkpoint to_str_radix order infos is_commit (s, p) = (r, w) -> Inv ext w.1.
Proof.
  intros Hi Hw. unfold checkpoint.
  intros [([] & [s1 p1] & E1 & E)|(r1 & E1 & _)]%sbind_cases.
  - enough (Hi1 : Inv ext s1).
    { destruct (inv_log ext s1 Hi1) as (s2 & E2 & Hi2 & _). rewrite (on_self_run _ s1 p1 _ _ E2) in E. by injection E as _ <-. }
    change s1 with (s1, p1).1. destruct is_commit; rewrite slift_sbind in E1;
      destruct (SegmentInfos.files to_str_radix infos _) as [fs| | |] eqn:Ef; try discriminate; destruct (Hw fs Ef);
      [by eapply commit_inv|by eapply swap_inv].
  - destruct is_commit; rewrite slift_sbind in E1;
      destruct (SegmentInfos.files to_str_radix infos _) as [fs| | |] eqn:Ef; try (by injection E1 as _ <-); destruct (Hw fs Ef);
      [by eapply commit_inv|by eapply swap_inv].
Qed.

(** ** Cleaning up *)

Lemma close_inv ext s r s' : Inv ext s -> close order s = (r, s') -> Inv ext s' /\ last_files s' = ∅.
Proof.
  intros Hi. unfold close. rewrite sget_sbind. case_decide as El; [by intros [= _ <-]|].
  rewrite (sbind_ok take_last_files _ s (last_files s) (set_last_files s ∅) eq_refl). intros E.
  assert (Hi2 : Inv (fun f => ext f + occ f (order (last_files s))) (set_last_files s ∅)).
  { eapply inv_mono; [exact Hi|done..| |]; intros f; [pose proof (inv_ext _ _ Hi f); pose proof (occ_nonneg f (order (last_files s))); lia|].
    unfold refs. cbn [commits last_files set_last_files]. rewrite (occ_order f (last_files s)).
    rewrite (decide_False (P := f ∈ ∅)) by set_solver. lia. }
  destruct (dec_ref_inv _ _ (order (last_files s)) r s' Hi2) as (d3 & -> & Hi3 & _); [|exact E|].
  { intros f. pose proof (inv_ext _ _ Hi f). lia. }
  split; [|done]. eapply inv_mono; [exact Hi3|done..|apply Hi|]. intros f. cbn. lia.
Qed.

Lemma collect_unreferenced_ok fs : forall s td, exists td' d', collect_unreferenced fs td s = (Ok td', set_deleter s d') /\
  FileDeleter.ref_counts d' = FileDeleter.ref_counts (file_deleter s) /\ FileDeleter.directory d' = FileDeleter.directory (file_deleter s) /\
  forall f, f ∈ td' <-> f ∈ td \/ (f ∈ fs /\ ends_with InflateGens.WRITE_LOCK_NAME f = false /\ exists_ s f = false /\ is_index_file f = true).
Proof.
  induction fs as [|g fs IH]; intros s td; cbn [collect_unreferenced].
  - exists td, (file_deleter s). split_and!; [by destruct s|done|done|]. intros f. rewrite elem_of_nil. tauto.
  - rewrite sget_sbind. destruct (negb (ends_with InflateGens.WRITE_LOCK_NAME g) && negb (exists_ s g) && is_index_file g) eqn:E.
    + destruct (log_ifd_same s) as (s1 & E1 & d1 & -> & Hc1 & Hd1). rewrite (sbind_ok _ _ _ _ _ E1).
      destruct (IH (set_deleter s d1) ({[g]} ∪ td)) as (td' & d' & -> & Hc & Hd & Ht). exists td', d'. cbn in Hc, Hd.
      split_and!; [done|congruence|congruence|]. intros f. rewrite Ht, elem_of_cons, elem_of_union, elem_of_singleton.
      assert (He : exists_ (set_deleter s d1) f = exists_ s f) by (unfold exists_, FileDeleter.exists_; cbn; by rewrite Hc1). rewrite He.
      rewrite !andb_true_iff, !negb_true_iff in E. naive_solver.
    + destruct (IH s td) as (td' & d' & -> & Hc & Hd & Ht). exists td', d'. split_and!; try done. intros f. rewrite Ht, elem_of_cons.
      rewrite !andb_false_iff, !negb_false_iff in E. naive_solver congruence.
Qed.

Lemma refresh_inv ext s r s' : Inv ext s -> refresh order s = (r, s') -> Inv ext s' /\ commits s' = commits s /\
  (r = Ok tt -> forall f, f ∈ disk s' -> exists_ s f = false -> ends_with InflateGens.WRITE_LOCK_NAME f = true \/ is_index_file f = false).
Proof.
  intros Hi. unfold refresh. rewrite sget_sbind, slift_sbind.
  destruct (list_all (FileDeleter.directory (file_deleter s))) as [l|e| |] eqn:El; [|by intros [= <- <-]..].
  destruct (collect_unreferenced_ok l s ∅) as (td & d1 & E1 & Hc1 & Hd1 & Ht). rewrite (sbind_ok _ _ _ _ _ E1). intros E.
  assert (Hcnt : forall f, FileDeleter.get_ref_count d1 f = count s f) by (intros f; unfold FileDeleter.get_ref_count; by rewrite Hc1).
  assert (Hi1 : Inv ext (set_deleter s d1)).
  { apply inv_falls; [done|by apply same_falls; [apply Hi|..]|]. intros f. rewrite Hcnt. by apply Hi. }
  destruct (delete_unreferenced_inv ext _ _ _ _ Hi1 E) as (d2 & -> & Hi2 & Hf & _ & Hg). split_and!; [done|done|].
  intros Hr f Hin Hx. destruct (ends_with _ f) eqn:Ew; [by left|]. destruct (is_index_file f) eqn:Ei; [|by right]. exfalso.
  apply (Hg Hr f); [|cbn; rewrite Hcnt|done].
  - rewrite order_elem by done. apply Ht. right. split_and!; try done. apply (list_all_files _ _ El). cbn in Hin.
    rewrite <- Hd1. by apply (falls_disk _ _ Hf).
  - unfold exists_ in Hx. rewrite exists_count in Hx. apply Z.ltb_ge in Hx. pose proof (count_nonneg _ f (inv_wf _ _ Hi)). lia.
Qed.

(** ** Every step *)

Record world := at_ { ext : string -> Z; self : IndexFileDeleter.t D I; policy : P }.

(** The calls of the writer and what happens between them: files are written, the policy
    changes its mind. The outcome of a call, success or failure, does not matter. *)
Inductive step : world -> world -> Prop :=
| step_checkpoint e s p infos is_commit r s' p' :
    written s infos is_commit -> checkpoint to_str_radix order infos is_commit (s, p) = (r, (s', p')) ->
    step (at_ e s p) (at_ e s' p')
| step_revisit e s p r s' p' : revisit_policy order (s, p) = (r, (s', p')) -> step (at_ e s p) (at_ e s' p')
| step_inc e s p fs s' :
    room s fs -> (forall f, f ∈ fs -> f ∈ disk s) -> inc_ref_files fs s = (Ok tt, s') ->
    step (at_ e s p) (at_ (fun f => e f + occ f fs) s' p)
| step_dec e s p fs r s' :
    (forall f, occ f fs <= e f) -> dec_ref order fs s = (r, s') ->
    step (at_ e s p) (at_ (fun f => e f - occ f fs) s' p)
| step_inc_segment e s p infos is_commit fs s' :
    SegmentInfos.files to_str_radix infos is_commit = Ok fs -> written s infos is_commit ->
    inc_ref_from_segment to_str_radix order infos is_commit s = (Ok tt, s') ->
    step (at_ e s p) (at_ (fun f => e f + occ f (order fs)) s' p)
| step_dec_segment e s p infos fs r s' :
    SegmentInfos.files to_str_radix infos false = Ok fs -> (forall f, f ∈ fs -> 0 < e f) ->
    dec_ref_from_segment to_str_radix order infos s = (r, s') ->
    step (at_ e s p) (at_ (fun f => e f - occ f (order fs)) s' p)
| step_delete_new e s p fs r s' : delete_new_files order fs s = (r, s') -> step (at_ e s p) (at_ e s' p)
| step_refresh e s p r s' : refresh order s = (r, s') -> step (at_ e s p) (at_ e s' p)
| step_close e s p r s' : close order s = (r, s') -> step (at_ e s p) (at_ e s' p)
| step_write e s p d' :
    FileDeleter.ref_counts d' = FileDeleter.ref_counts (file_deleter s) -> disk s ⊆ files (FileDeleter.directory d') ->
    step (at_ e s p) (at_ e (set_deleter s d') p)
| step_policy e s p p' : step (at_ e s p) (at_ e s p').

Lemma write_inv e s d' : Inv e s -> FileDeleter.ref_counts d' = FileDeleter.ref_counts (file_deleter s) ->
  disk s ⊆ files (FileDeleter.directory d') -> Inv e (set_deleter s d').
Proof.
  intros Hi Hc Hd. split; try apply Hi.
  - intros f rc. cbn. rewrite Hc. apply Hi.
  - intros f. cbn [set_deleter file_deleter]. unfold FileDeleter.get_ref_count. rewrite Hc. by apply Hi.
  - intros f Hp. apply Hd. by apply (inv_disk _ _ Hi).
Qed.

Lemma step_inv w w' : step w w' -> Inv (ext w) (self w) -> Inv (ext w') (self w').
Proof.
  intros Hs. destruct Hs as [e s p infos b r s' p' Hw E|e s p r s' p' E|e s p fs s' Hr Hf E|e s p fs r s' Hle E
    |e s p infos b fs s' Ef Hw E|e s p infos fs r s' Ef Hle E|e s p fs r s' E|e s p r s' E|e s p r s' E|e s p d' Hc Hd|];
    cbn [ext self]; intros Hi.
  - by apply checkpoint_inv with (ext := e) in E.
  - by apply revisit_policy_inv with (ext := e) in E.
  - destruct (inc_ref_files_inv e s fs Hi Hr Hf) as (d' & E' & Hi' & _). rewrite E' in E. by injection E as <-.
  - by destruct (dec_ref_inv e s fs r s' Hi Hle E) as (d' & _ & Hi' & _).
  - destruct (Hw fs Ef) as [Hr Hf]. unfold inc_ref_from_segment in E. rewrite slift_sbind, Ef in E.
    destruct (inc_ref_files_inv e s (order fs) Hi Hr) as (d' & E' & Hi' & _); [|rewrite E' in E; by injection E as <-].
    intros f Hin. apply Hf. by rewrite (order_elem order order_perm) in Hin.
  - unfold dec_ref_from_segment in E. rewrite slift_sbind, Ef in E.
    destruct (dec_ref_inv e s (order fs) r s' Hi) as (d' & _ & Hi' & _); [|exact E|done].
    intros f. rewrite occ_order. case_decide as Hin; [specialize (Hle f Hin); lia|apply (inv_ext _ _ Hi)].
  - by destruct (delete_unreferenced_inv e s fs r s' Hi E) as (d' & _ & Hi' & _).
  - by eapply refresh_inv.
  - by eapply close_inv.
  - by apply write_inv.
  - done.
Qed.

Lemma reach_inv w w' : rtc step w w' -> Inv (ext w) (self w) -> Inv (ext w') (self w').
Proof. induction 1; eauto using step_inv. Qed.

(** C1: a file that is still referred to is never deleted, provided that the info stream takes
    its messages ([QuietInfoStream]: the writing of a message never fails). Whatever
    sequence of calls the writer then makes from a sound state - checkpoints and commits,
    visits of the policy, references taken and given back, clean-ups, each with success or
    with a failure of a deletion or of an argument - and whatever the policy decides, every file of
    every commit still listed, every file of the last checkpoint and every file some other
    holder has a reference to is on disk and known to the deleter. A message that cannot be
    written is outside this statement: it makes [delete_commits] stop half-way, and a listed
    commit loses a file ([message_failure_loses_file] below). *)
Theorem referenced_files_stay (w w' : world) : Inv (ext w) (self w) -> rtc step w w' ->
  (forall c f, c ∈ commits (self w') -> f ∈ CommitPoint.files c -> f ∈ disk (self w') /\ exists_ (self w') f = true) /\
  (forall f, f ∈ last_files (self w') -> f ∈ disk (self w') /\ exists_ (self w') f = true) /\
  (forall f, 0 < ext w' f -> f ∈ disk (self w') /\ exists_ (self w') f = true).
Proof.
  intros Hi Hr. pose proof (reach_inv w w' Hr Hi) as Hi'.
  assert (Hp : forall f, 0 < refs (self w') f + ext w' f -> f ∈ disk (self w') /\ exists_ (self w') f = true).
  { intros f Hf. split; [by apply (inv_disk _ _ Hi')|]. unfold exists_. rewrite exists_count. apply Z.ltb_lt.
    pose proof (inv_count _ _ Hi' f). lia. }
  assert (Hn : forall f, 0 <= ext w' f) by apply Hi'.
  split_and!; intros; apply Hp; unfold refs.
  - pose proof (total_in f c (commits (self w')) ltac:(done) ltac:(done)). specialize (Hn f). case_decide; lia.
  - rewrite decide_True by done. pose proof (total_nonneg f (commits (self w'))). specialize (Hn f). lia.
  - pose proof (total_nonneg f (commits (self w'))). case_decide; lia.
Qed.

(** ** A commit, step by step *)

(** The commit point made of the infos. *)
Definition commit_of s infos fs n : CommitPoint.t :=
  CommitPoint.mk (Marks.next (marks s)) (order fs) n (SegmentInfos.generation infos) (SegmentInfos.user_data infos) (SegmentInfos.size infos).

Definition allocated (m : Marks.t) : Marks.t := Marks.mk (Marks.deleted m) (Marks.commits_to_delete m) (S (Marks.next m)).

Lemma assert_passes ext s : Inv ext s -> Marks.commits_to_delete (marks s) = false ->
  assert_commits_are_not_deleted s = (Ok tt, s).
Proof.
  intros Hi Hf. unfold assert_commits_are_not_deleted. replace (forallb _ _) with true; [done|]. symmetry.
  apply forallb_forall. intros c Hc%list_elem_of_In. by rewrite (inv_flag _ _ Hi Hf c Hc).
Qed.

Lemma settle_run ext s p m' p' : Inv ext s -> Marks.commits_to_delete (marks s) = false ->
  on_commit (commits s) (marks s, p) = (Ok tt, (m', p')) ->
  exists r d', settle (s, p) = (r, (without_marked (set_marks s m') d', p')) /\ Inv ext (without_marked (set_marks s m') d') /\
    falls (file_deleter s) d' /\
    (forall f, FileDeleter.get_ref_count d' f = count s f - total f (removed (set_marks s m'))) /\
    (r = Ok tt -> forall f, 0 < total f (removed (set_marks s m')) -> FileDeleter.get_ref_count d' f = 0 -> f ∉ files (FileDeleter.directory d')).
Proof.
  intros Hi Hfl E. rewrite (sbind_ok _ _ _ _ _ (on_self_run _ s p _ _ (assert_passes ext s Hi Hfl))).
  assert (Ec : consult (P := P) on_commit (s, p) = (Ok tt, (set_marks s m', p'))) by (unfold consult; by rewrite E).
  rewrite (sbind_ok _ _ _ _ _ Ec). destruct (consult_inv ext s p on_commit _ _ _ Hi on_commit_marks Ec) as (m2 & Em & _ & Hi2 & _).
  destruct (delete_commits_inv ext _ Hi2) as (r & d' & E3 & Hi3 & Hf & Hc & Hg).
  exists r, d'. by rewrite (on_self_run _ _ p' _ _ E3).
Qed.

(** Where a commit stands before the policy is asked. *)
Lemma commit_prefix ext s p infos fs n : Inv ext s ->
  SegmentInfos.files to_str_radix infos true = Ok fs -> SegmentInfos.get_segments_file_name to_str_radix infos = Ok (Some n) ->
  written s infos true ->
  exists d1 s1, s1 = mk (commits s ++ [commit_of s infos fs n]) (last_files s) (allocated (marks s)) (starting_commit_deleted s) d1 /\
    Inv ext s1 /\ FileDeleter.directory d1 = FileDeleter.directory (file_deleter s) /\
    (forall f, FileDeleter.get_ref_count d1 f = count s f + (if decide (f ∈ fs) then 1 else 0)) /\
    checkpoint to_str_radix order infos true (s, p) = (let* _ := settle in on_self log_ifd) (s1, p).
Proof.
  intros Hi Hfs Hn Hw. destruct (Hw fs Hfs) as [Hr Hd].
  destruct (inc_ref_files_inv ext s (order fs) Hi Hr) as (d1 & E1 & Hi1 & Hd1 & Hc1).
  { intros f Hin. apply Hd. by rewrite (order_elem order order_perm) in Hin. }
  exists d1, (mk (commits s ++ [commit_of s infos fs n]) (last_files s) (allocated (marks s)) (starting_commit_deleted s) d1).
  split; [done|]. split_and!.
  - exact (push_commit_inv ext (set_deleter s d1) (commit_of s infos fs n) Hi1 (inv_ext _ _ Hi) eq_refl).
  - done.
  - intros f. by rewrite Hc1, occ_order.
  - unfold checkpoint. apply sbind_same. rewrite slift_sbind, Hfs.
    rewrite (sbind_ok _ _ _ _ _ (on_self_run _ s p _ _ E1)).
    assert (En : new_commit_point to_str_radix order infos (Some fs) (marks (set_deleter s d1)) = (Ok (commit_of s infos fs n), allocated (marks s))).
    { unfold new_commit_point. by rewrite slift_sbind, Hn. }
    assert (E2 : on_marks (new_commit_point to_str_radix order infos (Some fs)) (set_deleter s d1)
      = (Ok (commit_of s infos fs n), set_marks (set_deleter s d1) (allocated (marks s)))) by (unfold on_marks; by rewrite En).
    rewrite (sbind_ok _ _ _ _ _ (on_self_run _ _ p _ _ E2)).
    by rewrite (sbind_ok _ _ _ _ _ (on_self_run (push_commit _) _ p (Ok tt) _ eq_refl)).
Qed.

Lemma same_id l c c' : NoDup (CommitPoint.id <$> l) -> c ∈ l -> c' ∈ l -> CommitPoint.id c = CommitPoint.id c' -> c = c'.
Proof.
  intros Hn [i Hi]%list_elem_of_lookup [j Hj]%list_elem_of_lookup E.
  assert (i = j) as ->; [|congruence]. eapply (NoDup_lookup _ i j (CommitPoint.id c) Hn); rewrite list_lookup_fmap.
  - by rewrite Hi.
  - by rewrite Hj, E.
Qed.

(** Exactly the commits a policy marks are marked. *)
Lemma marked_iff ext s m' l c : Inv ext s -> Marks.commits_to_delete (marks s) = false ->
  Marks.deleted m' = Marks.deleted (marks s) ∪ list_to_set (CommitPoint.id <$> l) -> l ⊆ commits s -> c ∈ commits s ->
  is_deleted (set_marks s m') c = true <-> c ∈ l.
Proof.
  intros Hi Hfl Hd Hl Hc. unfold is_deleted, CommitPoint.is_deleted_. cbn. rewrite bool_decide_eq_true, Hd, elem_of_union, elem_of_list_to_set, list_elem_of_fmap.
  pose proof (inv_flag _ _ Hi Hfl c Hc) as Hnd. unfold is_deleted, CommitPoint.is_deleted_ in Hnd. apply bool_decide_eq_false in Hnd.
  split; [|by eauto]. intros [?|(c' & E & Hc')]; [done|]. by rewrite (same_id (commits s) c c' (inv_ids _ _ Hi) Hc (Hl _ Hc') E).
Qed.

(** The end of a call: one more message. *)
Lemma then_log (m : ST (IndexFileDeleter.t D I * P) unit) w r s' p' : m w = (r, (s', p')) -> exists s'',
  (let* _ := m in on_self log_ifd) w = (r, (s'', p')) /\ exists d'', s'' = set_deleter s' d'' /\
    FileDeleter.ref_counts d'' = FileDeleter.ref_counts (file_deleter s') /\ FileDeleter.directory d'' = FileDeleter.directory (file_deleter s').
Proof.
  intros E. destruct r as [[]|e| |]; [|exists s'; unfold sbind; rewrite E; split; [done|]; exists (file_deleter s'); by destruct s'..].
  rewrite (sbind_ok _ _ _ _ _ E). destruct (log_ifd_same s') as (s2 & E2 & Hs2). exists s2. split; [|done]. by apply on_self_run.
Qed.

(** ** When no deletion fails *)

Lemma dec_each_reliable `{!ReliableDirectory D} removed : forall s, WF (file_deleter s) ->
  (forall f, total f removed <= count s f) -> (forall f, 0 < total f removed -> f ∈ disk s) ->
  exists s', dec_each order removed (Ok tt) s = (Ok (Ok tt), s').
Proof.
  induction removed as [|c removed IH]; intros s Hw Hb Hd; cbn [dec_each]; [by eexists|].
  destruct (log_ifd_same s) as (s1 & E1 & d1 & -> & Hc1 & Hd1). rewrite (sbind_ok _ _ _ _ _ E1).
  pose proof (same_falls _ d1 Hw Hc1 Hd1) as F1.
  assert (Hcnt1 : forall f, FileDeleter.get_ref_count d1 f = count s f) by (intros f; unfold FileDeleter.get_ref_count; by rewrite Hc1).
  assert (Hb1 : forall f, occ f (CommitPoint.files c) <= FileDeleter.get_ref_count d1 f).
  { intros f. rewrite Hcnt1. specialize (Hb f). rewrite total_cons in Hb. pose proof (total_nonneg f removed). lia. }
  destruct (dec_ref_reliable order order_perm (CommitPoint.files c) d1 (falls_wf _ _ F1) Hb1) as (d2 & E2).
  { intros f Hf. rewrite Hd1. apply Hd. rewrite total_cons. apply occ_in in Hf. pose proof (total_nonneg f removed). lia. }
  assert (E3 : IOUtils.caught (on_deleter (FileDeleter.dec_ref order (CommitPoint.files c))) (set_deleter s d1)
    = (Ok (Ok tt), set_deleter s d2)) by (unfold IOUtils.caught, on_deleter; cbn; by rewrite E2).
  rewrite (sbind_ok _ _ _ _ _ E3).
  destruct (dec_ref_frame order order_perm _ _ _ _ (falls_wf _ _ F1) Hb1 E2) as (Hw2 & Hc2 & Hk2 & _).
  assert (Hle : forall f, total f removed <= FileDeleter.get_ref_count d2 f).
  { intros f. rewrite Hc2, Hcnt1. specialize (Hb f). rewrite total_cons in Hb. lia. }
  apply IH; cbn [set_deleter file_deleter]; [done|done|]. intros f Hf. apply Hk2; [|right; specialize (Hle f); lia].
  rewrite Hd1. apply Hd. rewrite total_cons. pose proof (occ_nonneg f (CommitPoint.files c)). lia.
Qed.

Lemma delete_commits_reliable `{!ReliableDirectory D} ext s : Inv ext s -> exists s', delete_commits order s = (Ok tt, s').
Proof.
  intros Hi. unfold delete_commits. rewrite sget_sbind. destruct (Marks.commits_to_delete (marks s)); cbn [negb]; [|by eexists].
  assert (Hr : forall f, 0 < total f (removed s) -> 0 < refs s f).
  { intros f. unfold refs. rewrite total_removed. pose proof (total_nonneg f (kept s)). case_decide; lia. }
  destruct (dec_each_reliable (removed s) s (inv_wf _ _ Hi)) as (s1 & E).
  - intros f. pose proof (inv_count _ _ Hi f). pose proof (inv_ext _ _ Hi f). unfold refs in *. rewrite total_removed in *.
    pose proof (total_nonneg f (kept s)). case_decide; lia.
  - intros f Hf. apply (inv_disk _ _ Hi). pose proof (inv_ext _ _ Hi f). specialize (Hr f Hf). lia.
  - rewrite (sbind_ok _ _ _ _ _ E), sget_sbind. by eexists.
Qed.

Lemma settle_reliable `{!ReliableDirectory D} ext s p m' p' r w : Inv ext s -> Marks.commits_to_delete (marks s) = false ->
  on_commit (commits s) (marks s, p) = (Ok tt, (m', p')) -> settle (s, p) = (r, w) -> r = Ok tt.
Proof.
  intros Hi Hfl E. rewrite (sbind_ok _ _ _ _ _ (on_self_run _ s p _ _ (assert_passes ext s Hi Hfl))).
  assert (Ec : consult (P := P) on_commit (s, p) = (Ok tt, (set_marks s m', p'))) by (unfold consult; by rewrite E).
  rewrite (sbind_ok _ _ _ _ _ Ec). destruct (consult_inv ext s p on_commit _ _ _ Hi on_commit_marks Ec) as (m2 & Em & _ & Hi2 & _).
  destruct (delete_commits_reliable ext _ Hi2) as (s' & E').  rewrite (on_self_run _ _ p' _ _ E'). by intros [= <- _].
Qed.
End Proofs.

(** * The policies at work *)

Section Policies.
Context {D I : Type} {dir : Directory D} {dir_spec : DirectorySpec D} {stream : InfoStream I} {quiet : QuietInfoStream I}.
Context (to_str_radix : Z -> string).
Context (order : gset string -> list string) (order_perm : forall X, order X ≡ₚ elements X).
Implicit Types (s : IndexFileDeleter.t D I).
Abbreviation disk s := (files (FileDeleter.directory (file_deleter s))).
Abbreviation count s f := (FileDeleter.get_ref_count (file_deleter s) f).
Abbreviation kept s := (base.filter (fun c => is_deleted s c = false) (commits s)).
Abbreviation removed s := (base.filter (fun c => is_deleted s c = true) (commits s)).

Lemma take_but_last {A} (l : list A) x : take (length (l ++ [x]) - 1) (l ++ [x]) = l.
Proof. rewrite length_app. cbn. replace (length l + 1 - 1)%nat with (length l) by lia. by rewrite take_app_length. Qed.

Lemma split_marked (b : CommitPoint.t -> bool) (l : list CommitPoint.t) c :
  c ∉ l -> (forall c', c' ∈ l ++ [c] -> b c' = true <-> c' ∈ l) ->
  base.filter (fun x => b x = true) (l ++ [c]) = l /\ base.filter (fun x => b x = false) (l ++ [c]) = [c].
Proof.
  intros Hn Hb. rewrite !filter_app.
  assert (Hl : forall x, x ∈ l -> b x = true) by (intros x Hx; apply Hb; set_solver).
  assert (Hc : b c = false) by (destruct (b c) eqn:E; [|done]; exfalso; apply Hn, Hb; [set_solver|done]).
  rewrite (filter_every_one b true l Hl), (filter_no_one b false l) by (intros x Hx; by rewrite (Hl x Hx)).
  rewrite filter_cons_False, filter_cons_True by congruence. by rewrite app_nil_r.
Qed.

(** C12: with the default policy, and an info stream that takes its messages
    ([QuietInfoStream]), a commit leaves exactly one commit, the new one. From a sound state in which no commit waits for its removal, [checkpoint] of a commit drops every
    older commit, whatever deletions fail; the counts become those of before, less the
    references of the older commits, plus those of the new one; when the call succeeds -
    which it does when no deletion fails - the files only older commits referred to are
    gone from disk, and only such files. *)
Theorem commit_keeps_only_last (ext : string -> Z) (s : IndexFileDeleter.t D I) (infos : SegmentInfos.t) (fs : gset string) (n : string) :
  Inv ext s -> Marks.commits_to_delete (marks s) = false ->
  SegmentInfos.files to_str_radix infos true = Ok fs -> SegmentInfos.get_segments_file_name to_str_radix infos = Ok (Some n) ->
  written to_str_radix order s infos true ->
  exists r s', checkpoint to_str_radix order infos true (s, IndexDeletionPolicyEnum.KeepOnlyLastCommit)
      = (r, (s', IndexDeletionPolicyEnum.KeepOnlyLastCommit)) /\
    Inv ext s' /\ commits s' = [commit_of order s infos fs n] /\
    (forall f, count s' f = count s f - total f (commits s) + (if decide (f ∈ fs) then 1 else 0)) /\
    (forall f, f ∈ disk s -> 0 < count s' f -> f ∈ disk s') /\
    (r = Ok tt -> forall f, 0 < total f (commits s) -> count s' f = 0 -> f ∉ disk s') /\
    (ReliableDirectory D -> r = Ok tt).
Proof.
  intros Hi Hfl Hfs Hn Hw.
  destruct (commit_prefix to_str_radix order order_perm ext s IndexDeletionPolicyEnum.KeepOnlyLastCommit infos fs n Hi Hfs Hn Hw)
    as (d1 & s1 & Hs1 & Hi1 & Hd1 & Hc1 & ->).
  destruct (PolicyFacts.on_commit_spec IndexDeletionPolicyEnum.KeepOnlyLastCommit (commits s1) (marks s1))
    as (r1 & m' & p' & E1 & _ & Hdel & -> & ->).
  change (on_commit (commits s1) (marks s1, IndexDeletionPolicyEnum.KeepOnlyLastCommit)
    = (Ok tt, (m', IndexDeletionPolicyEnum.KeepOnlyLastCommit))) in E1.
  assert (Hfl1 : Marks.commits_to_delete (marks s1) = false) by by rewrite Hs1.
  destruct (settle_run order order_perm ext s1 _ m' _ Hi1 Hfl1 E1) as (r & d' & E & Hi' & Hf & Hc & Hg).
  set (c := commit_of order s infos fs n) in *. set (s2 := set_marks s1 m') in *.
  assert (Hl : commits s1 = commits s ++ [c]) by by rewrite Hs1.
  cbn [PolicyFacts.condemned] in Hdel. rewrite Hl, take_but_last in Hdel.
  assert (Hnew : c ∉ commits s) by (intros Hin%(inv_old _ _ Hi); cbn in Hin; lia).
  assert (Hmark : forall c', c' ∈ commits s1 -> is_deleted s2 c' = true <-> c' ∈ commits s).
  { intros c'. apply (marked_iff ext s1 m' (commits s) c' Hi1 Hfl1 Hdel). rewrite Hl. set_solver. }
  assert (Hrem : removed s2 = commits s /\ kept s2 = [c]).
  { cbn [s2 commits set_marks]. rewrite Hl in *. by apply split_marked. }
  destruct Hrem as [Hrem Hkept]. rewrite Hrem in Hc, Hg.
  destruct (then_log _ _ _ _ _ E) as (s'' & -> & d'' & -> & Hrc & Hdd). cbn [without_marked file_deleter] in Hrc, Hdd.
  exists r, (set_deleter (without_marked s2 d') d'').
  assert (Hcnt : forall f, FileDeleter.get_ref_count d'' f = count s f - total f (commits s) + (if decide (f ∈ fs) then 1 else 0)).
  { intros f. unfold FileDeleter.get_ref_count at 1. rewrite Hrc.
    fold (FileDeleter.get_ref_count d' f). rewrite Hc. rewrite Hs1. cbn [file_deleter]. rewrite Hc1. lia. }
  split; [done|]. split_and!; [|done|done| | |].
  - apply write_inv; [done|done|]. by rewrite Hdd.
  - intros f Hin Hp. cbn [set_deleter file_deleter] in *. rewrite Hdd. apply (falls_keeps _ _ Hf).
    + rewrite Hs1. cbn. by rewrite Hd1.
    + unfold FileDeleter.get_ref_count in *. by rewrite <- Hrc.
  - intros Hr f Ht Hz. cbn [set_deleter file_deleter] in *. rewrite Hdd. apply (Hg Hr f Ht).
    unfold FileDeleter.get_ref_count in *. by rewrite <- Hrc.
  - intros Hrel. exact (settle_reliable order order_perm ext s1 _ m' _ r _ Hi1 Hfl1 E1 E).
Qed.

(** A held commit is not among those the policy marks. *)
Lemma settle_survives ext s q i c r s' p' : Inv ext s -> Marks.commits_to_delete (marks s) = false -> c ∈ commits s ->
  PolicyFacts.held i c = true ->
  (let* _ := on_self assert_commits_are_not_deleted in let* _ := consult on_commit in on_self (delete_commits order))
    (s, IndexDeletionPolicyEnum.Snapshot q i) = (r, (s', p')) ->
  c ∈ commits s' /\ exists i', p' = IndexDeletionPolicyEnum.Snapshot q i' /\ PolicyFacts.held i' c = true.
Proof.
  intros Hi Hfl Hc Hh. destruct (PolicyFacts.on_commit_spec (IndexDeletionPolicyEnum.Snapshot q i) (commits s) (marks s))
    as (r1 & m' & p1 & E1 & _ & Hdel & Hr1 & Hp1).
  change (on_commit (commits s) (marks s, IndexDeletionPolicyEnum.Snapshot q i) = (r1, (m', p1))) in E1.
  assert (Hp : exists i', p1 = IndexDeletionPolicyEnum.Snapshot q i' /\ PolicyFacts.held i' c = true).
  { rewrite Hp1. destruct q; [| |]; eexists; split; try reflexivity; done. }
  assert (Hnot : c ∉ PolicyFacts.condemned (IndexDeletionPolicyEnum.Snapshot q i) (commits s)).
  { destruct q; cbn; [|apply not_elem_of_nil..]. rewrite list_elem_of_filter. intros [? _]. congruence. }
  assert (Hsub : PolicyFacts.condemned (IndexDeletionPolicyEnum.Snapshot q i) (commits s) ⊆ commits s).
  { destruct q; cbn; [|apply list_subseteq_nil..]. intros x [_ Hx]%list_elem_of_filter. by eapply PolicyFacts.take_subset. }
  destruct r1 as [[]|e| |].
  - destruct (settle_run order order_perm ext s _ m' p1 Hi Hfl E1) as (r2 & d' & -> & _). intros [= _ <- <-]. split; [|done].
    cbn [without_marked commits]. apply list_elem_of_filter. split; [|done].
    destruct (is_deleted (set_marks s m') c) eqn:Ed; [|done]. exfalso. apply Hnot.
    by apply (marked_iff ext s m' _ c Hi Hfl Hdel Hsub Hc).
  - rewrite (sbind_ok _ _ _ _ _ (on_self_run _ s _ _ _ (assert_passes ext s Hi Hfl))).
    unfold sbind, consult. rewrite E1. by intros [= _ <- <-].
  - by destruct q.
  - by destruct q.
Qed.

Lemma swap_frame {Q} s (p : Q) fs r w :
  (let* _ := on_self (inc_ref_files (order fs)) in
   let* files := on_self take_last_files in
   let* _ := on_self (dec_ref order (order files)) in
   on_self (put_last_files fs)) (s, p) = (r, w) -> commits w.1 = commits s /\ w.2 = p.
Proof.
  intros [([] & w1 & E1 & E)|(? & E1 & _)]%sbind_cases; apply on_self_inv in E1 as (s1 & E1 & ->);
    unfold inc_ref_files, on_deleter in E1; destruct (FileDeleter.inc_ref _ _); injection E1 as _ <-; [|done].
  rewrite (sbind_ok _ _ _ _ _ (on_self_run take_last_files _ p (Ok _) _ eq_refl)) in E.
  apply sbind_cases in E as [([] & w2 & E2 & E)|(? & E2 & _)]; apply on_self_inv in E2 as (s2 & E2 & ->);
    unfold dec_ref, on_deleter in E2; destruct (FileDeleter.dec_ref _ _ _); injection E2 as _ <-; [|done].
  apply on_self_inv in E as (s3 & [= _ <-] & ->). done.
Qed.

Lemma log_frame {Q} s (p : Q) r w : on_self log_ifd (s, p) = (r, w) -> commits w.1 = commits s /\ w.2 = p.
Proof.
  destruct (log_ifd_same s) as (s1 & E & d' & -> & _). intros (s2 & E2 & ->)%on_self_inv. rewrite E in E2.
  by injection E2 as _ <-.
Qed.

(** What a snapshot promises of a call: the commit stays listed, and held. *)
Definition survives c q (w : IndexFileDeleter.t D I * IndexDeletionPolicyEnum.t) : Prop :=
  c ∈ commits w.1 /\ exists i', w.2 = IndexDeletionPolicyEnum.Snapshot q i' /\ PolicyFacts.held i' c = true.

Lemma survives_frame c q w w' : survives c q w -> commits w'.1 = commits w.1 -> w'.2 = w.2 -> survives c q w'.
Proof. unfold survives. by intros H -> ->. Qed.

Lemma commit_survives ext s q i c infos fs r w : Inv ext s -> Marks.commits_to_delete (marks s) = false -> c ∈ commits s ->
  PolicyFacts.held i c = true -> room s (order fs) -> (forall f, f ∈ fs -> f ∈ disk s) ->
  (let* _ := on_self (inc_ref_files (order fs)) in
   let* c := on_self (on_marks (new_commit_point to_str_radix order infos (Some fs))) in
   let* _ := on_self (push_commit c) in
   let* _ := on_self assert_commits_are_not_deleted in
   let* _ := consult on_commit in
   on_self (delete_commits order)) (s, IndexDeletionPolicyEnum.Snapshot q i) = (r, w) -> survives c q w.
Proof.
  intros Hi Hfl Hc Hh Hr Hf.
  destruct (inc_ref_files_inv ext s (order fs) Hi Hr) as (d' & E1 & Hi1 & Hd1 & _).
  { intros f Hin. apply Hf. by rewrite (order_elem order order_perm) in Hin. }
  rewrite (sbind_ok _ _ _ _ _ (on_self_run _ s _ _ _ E1)). set (s1 := set_deleter s d') in *.
  intros [(c' & w2 & E2 & E)|(r2 & E2 & _)]%sbind_cases; apply on_self_inv in E2 as (s2 & E2 & ->);
    unfold on_marks in E2; destruct (new_commit_point to_str_radix order infos (Some fs) (marks s1)) as [r3 m3] eqn:E3;
    destruct (new_commit_point_ok to_str_radix order _ _ _ _ _ E3) as [[-> Hno]|(c2 & -> & Hid & Hfc & _ & ->)]; injection E2 as E2 <-.
  - by destruct (Hno c').
  - subst c2. rewrite (sbind_ok _ _ _ _ _ (on_self_run (push_commit c') _ _ (Ok tt) _ eq_refl)) in E. destruct w as [s' p'].
    rewrite <- Hfc in Hi1. eapply settle_survives in E; [exact E|..].
    + exact (push_commit_inv ext s1 c' Hi1 (inv_ext _ _ Hi) Hid).
    + done.
    + cbn. apply elem_of_app. by left.
    + done.
  - split; [done|]. eauto.
  - split; [done|]. eauto.
Qed.

Lemma checkpoint_survives ext s q i c infos b r w : Inv ext s -> Marks.commits_to_delete (marks s) = false -> c ∈ commits s ->
  PolicyFacts.held i c = true -> written to_str_radix order s infos b ->
  checkpoint to_str_radix order infos b (s, IndexDeletionPolicyEnum.Snapshot q i) = (r, w) -> survives c q w.
Proof.
  intros Hi Hfl Hc Hh Hw E.
  assert (Hsv : survives c q (s, IndexDeletionPolicyEnum.Snapshot q i)) by (split; [done|]; eauto).
  unfold checkpoint in E. apply sbind_cases in E as [([] & w1 & E1 & E)|(r1 & E1 & _)];
    [destruct w1 as [s1 p1]; apply log_frame in E as [El1 El2]; apply (survives_frame c q (s1, p1)); [|done|done]|];
    (destruct b; rewrite slift_sbind in E1; destruct (SegmentInfos.files to_str_radix infos _) as [fs| | |] eqn:Ef;
      try discriminate; try (injection E1 as _ <-; exact Hsv)).
  all: try (apply swap_frame in E1 as [? ?]; by eapply survives_frame).
  all: destruct (Hw fs Ef) as [Hr Hd]; exact (commit_survives ext s q i c infos fs _ _ Hi Hfl Hc Hh Hr Hd E1).
Qed.

Lemma revisit_survives ext s q i c r w : Inv ext s -> Marks.commits_to_delete (marks s) = false -> c ∈ commits s ->
  PolicyFacts.held i c = true -> revisit_policy order (s, IndexDeletionPolicyEnum.Snapshot q i) = (r, w) -> survives c q w.
Proof.
  intros Hi Hfl Hc Hh. unfold revisit_policy. destruct (inv_log ext s Hi) as (s1 & E1 & Hi1 & d' & -> & _).
  rewrite (sbind_ok _ _ _ _ _ (on_self_run _ s _ _ _ E1)), sget_sbind. cbn [fst set_deleter commits].
  destruct w as [s' p']. destruct (commits s) as [|c0 l] eqn:El; [by apply not_elem_of_nil in Hc|]. intros E.
  eapply settle_survives in E; [exact E|exact Hi1|done| |done]. cbn. by rewrite El.
Qed.

(** C13: a snapshot protects its commit. While the generation of a listed commit is held by a
    snapshot policy - over whichever policy - and the info stream takes its messages
    ([QuietInfoStream]), no checkpoint, commit or visit of the policy, successful or not, takes the commit off the list, releases the snapshot, or leaves one
    of its files missing on disk. *)
Theorem snapshot_protects (ext : string -> Z) (s : IndexFileDeleter.t D I) (q : IndexDeletionPolicyEnum.t) (i : Snapshots.Inner)
    (c : CommitPoint.t) (infos : SegmentInfos.t) (b : bool) :
  Inv ext s -> Marks.commits_to_delete (marks s) = false -> c ∈ commits s -> PolicyFacts.held i c = true ->
  written to_str_radix order s infos b ->
  forall r s' p',
  (checkpoint to_str_radix order infos b (s, IndexDeletionPolicyEnum.Snapshot q i) = (r, (s', p')) \/
   revisit_policy order (s, IndexDeletionPolicyEnum.Snapshot q i) = (r, (s', p'))) ->
  c ∈ commits s' /\ (forall f, f ∈ CommitPoint.files c -> f ∈ disk s') /\
  exists i', p' = IndexDeletionPolicyEnum.Snapshot q i' /\ PolicyFacts.held i' c = true.
Proof.
  intros Hi Hfl Hc Hh Hw r s' p' E.
  assert (Hs : survives c q (s', p')) by (destruct E; [by eapply checkpoint_survives|by eapply revisit_survives]).
  assert (Hi' : Inv ext s').
  { change s' with (s', p').1. destruct E as [E|E].
    - exact (checkpoint_inv to_str_radix order order_perm ext s _ infos b r _ Hi Hw E).
    - exact (revisit_policy_inv order order_perm ext s _ r _ Hi E). }
  destruct Hs as [Hin Hp]. split_and!; [done| |done]. intros f Hf. apply (inv_disk _ _ Hi'). unfold refs.
  pose proof (total_in f c (commits s') Hin Hf). pose proof (inv_ext _ _ Hi' f). case_decide; lia.
Qed.
End Policies.

(** * An index in memory *)

Lemma small_counts {D M} (d : FileDeleter.t D M) B : 0 < B ->
  map_Forall (fun _ rc => RefCount.count rc < B) (FileDeleter.ref_counts d) -> forall f, FileDeleter.get_ref_count d f < B.
Proof. intros HB Hm f. unfold FileDeleter.get_ref_count. destruct (_ !! f) as [rc|] eqn:E; [by apply (Hm f)|done]. Qed.

Definition sample_seg (name file : string) : SegmentCommitInfo.t := SegmentCommitInfo.mk name (Ok {[file]}) 1 1 1.
Definition sample_infos (g : Z) (l : list SegmentCommitInfo.t) : SegmentInfos.t := SegmentInfos.mk 2 g g ∅ l.
Definition first_infos : SegmentInfos.t := sample_infos 1 [sample_seg "_0" "_0.cfs"; sample_seg "_1" "_1.cfs"].
Definition second_infos : SegmentInfos.t := sample_infos 2 [sample_seg "_1" "_1.cfs"; sample_seg "_2" "_2.cfs"].
Definition sample_files : gset string := {["_0.cfs"; "_1.cfs"; "_2.cfs"; "segments_1"; "segments_2"]}.
Abbreviation render := (NameFacts.render 13).
Abbreviation keep_last := IndexDeletionPolicyEnum.KeepOnlyLastCommit.

(** Decides a closed statement by computation. *)
Ltac by_compute := apply (bool_decide_unpack _); vm_compute; exact I.

Definition state0 : IndexFileDeleter.t (gset string) unit := blank sample_files tt true.
Definition state1 : IndexFileDeleter.t (gset string) unit :=
  Eval vm_compute in (checkpoint render elements first_infos true (state0, keep_last)).2.1.

Lemma sample_written (s : IndexFileDeleter.t (gset string) unit) infos b fs :
  SegmentInfos.files render infos b = Ok fs -> map_Forall (fun _ rc => RefCount.count rc < 100) (FileDeleter.ref_counts (file_deleter s)) ->
  fs ⊆ FileDeleter.directory (file_deleter s) -> written render elements s infos b.
Proof.
  intros Hf Hm Hs fs' E. rewrite Hf in E. injection E as <-. split; [|exact Hs].
  intros f. pose proof (small_counts _ 100 ltac:(lia) Hm f). rewrite (occ_order elements (fun _ => reflexivity _)). case_decide; lia.
Qed.

Lemma state0_inv : Inv (fun _ => 0) state0.
Proof. apply blank_inv. Qed.

Lemma first_written : written render elements state0 first_infos true.
Proof. eapply (sample_written _ _ _ {["segments_1"; "_0.cfs"; "_1.cfs"]}); [vm_compute; reflexivity|by_compute|by_compute]. Qed.

Lemma commit1_run : checkpoint render elements first_infos true (state0, keep_last) = (Ok tt, (state1, keep_last)).
Proof. vm_compute. reflexivity. Qed.

Lemma state1_inv : Inv (fun _ => 0) state1.
Proof.
  exact (checkpoint_inv render elements (fun _ => reflexivity _) (fun _ => 0) state0 keep_last first_infos true (Ok tt)
    (state1, keep_last) state0_inv first_written commit1_run).
Qed.

Lemma second_written : written render elements state1 second_infos true.
Proof. eapply (sample_written _ _ _ {["segments_2"; "_1.cfs"; "_2.cfs"]}); [vm_compute; reflexivity|by_compute|by_compute]. Qed.

Lemma referenced_files_stay_witness : exists w' : world (D := gset string) (I := unit) (P := IndexDeletionPolicyEnum.t),
  rtc (step render elements) (at_ (fun _ => 0) state0 keep_last) w' /\ length (commits (self w')) = 1%nat /\
  forall f, f ∈ ["_0.cfs"; "_1.cfs"; "segments_1"] -> exists_ (self w') f = true.
Proof.
  set (w' := at_ (fun _ => 0) state1 keep_last).
  assert (Hr : rtc (step render elements) (at_ (fun _ => 0) state0 keep_last) w').
  { apply rtc_once. exact (step_checkpoint render elements (fun _ => 0) state0 keep_last first_infos true (Ok tt) state1 keep_last first_written commit1_run). }
  destruct (referenced_files_stay render elements (fun _ => reflexivity _) (at_ (fun _ => 0) state0 keep_last) w' state0_inv Hr) as (Hc & _ & _).
  exists w'. split; [done|]. split; [reflexivity|]. intros f Hf.
  destruct (commits state1) as [|c l] eqn:El; [discriminate El|]. apply (Hc c).
  - cbn [self w']. rewrite El. by left.
  - vm_compute in El. injection El as <- _. cbn [CommitPoint.files].
    revert f Hf. intros f [->|[->|[->|[]%not_elem_of_nil]%elem_of_cons]%elem_of_cons]%elem_of_cons; by_compute.
Defined.

Lemma commit_keeps_only_last_witness : exists s' : IndexFileDeleter.t (gset string) unit,
  checkpoint render elements second_infos true (state1, keep_last) = (Ok tt, (s', keep_last)) /\
  length (commits s') = 1%nat /\ "_0.cfs" ∉ FileDeleter.directory (file_deleter s') /\ "_1.cfs" ∈ FileDeleter.directory (file_deleter s').
Proof.
  destruct (commit_keeps_only_last render elements (fun _ => reflexivity _) (fun _ => 0) state1 second_infos
    {["segments_2"; "_1.cfs"; "_2.cfs"]} "segments_2") as (r & s' & E & _ & Hc & Hn & Hk & Hg & Hr).
  - apply state1_inv.
  - reflexivity.
  - vm_compute. reflexivity.
  - reflexivity.
  - apply second_written.
  - assert (r = Ok tt) as -> by (apply Hr; apply _). exists s'. split; [done|]. rewrite Hc. split; [done|]. split.
    + apply Hg; [done|reflexivity|rewrite Hn; reflexivity].
    + apply Hk; [by_compute|rewrite Hn; reflexivity].
Defined.

Lemma snapshot_protects_witness : exists c i r (s' : IndexFileDeleter.t (gset string) unit) p',
  checkpoint render elements second_infos true (state1, IndexDeletionPolicyEnum.Snapshot keep_last i) = (r, (s', p')) /\
  CommitPoint.generation c = 1 /\ c ∈ commits s' /\ "_0.cfs" ∈ FileDeleter.directory (file_deleter s').
Proof.
  destruct (commits state1) as [|c l] eqn:El; [discriminate El|].
  set (i := Snapshots.mk {[1 := 1]} {[1 := c]} (Some c) true).
  destruct (checkpoint render elements second_infos true (state1, IndexDeletionPolicyEnum.Snapshot keep_last i)) as [r [s' p']] eqn:E.
  assert (Hg : CommitPoint.generation c = 1 /\ "_0.cfs" ∈ CommitPoint.files c).
  { vm_compute in El. injection El as <- _. split; [reflexivity|by_compute]. }
  destruct (snapshot_protects render elements (fun _ => reflexivity _) (fun _ => 0) state1 keep_last i c second_infos true) with (r := r) (s' := s') (p' := p')
    as (Hc & Hf & _).
  - apply state1_inv.
  - reflexivity.
  - rewrite El. by left.
  - unfold PolicyFacts.held. rewrite (proj1 Hg). reflexivity.
  - apply second_written.
  - by left.
  - exists c, i, r, s', p'. split_and!; [done|apply Hg|done|]. apply Hf, Hg.
Defined.

(** ** A message that cannot be written *)

(** A stream whose third message fails. *)
Definition third_fails : InfoStream nat := {|
  is_enabled := fun _ => true;
  message := fun n => (if (n =? 2)%nat then Err Io else Ok tt, S n) |}.

Definition three_commits : IndexFileDeleter.t (gset string) nat :=
  let rc := RefCount.mk true in
  let c id fs := CommitPoint.mk id fs "" (Z.of_nat id) ∅ 1 in
  mk [c 1%nat ["_0.cfs"; "_s.cfs"]; c 2%nat ["_1.cfs"]; c 3%nat ["_s.cfs"]] ∅
    (Marks.mk {[1%nat; 2%nat]} true 4) false
    (FileDeleter.mk (<["_0.cfs" := rc 1]> (<["_1.cfs" := rc 1]> (<["_s.cfs" := rc 2]> ∅))) {["_0.cfs"; "_1.cfs"; "_s.cfs"]}
       (Some (MessengerImpl.mk 0%nat false))).

(** The error of the message for the second removed commit leaves the first one listed,
    although its references are given up already; the next removal gives them up again and
    deletes a file that the third commit, which stays, refers to. *)
Example message_failure_loses_file :
  let run := delete_commits (stream := third_fails) elements in
  let '(r1, s1) := run three_commits in
  let '(r2, s2) := run s1 in
  r1 = Err Io /\ length (commits s1) = 3%nat /\ CommitPoint.files <$> commits s2 = [["_s.cfs"]] /\
  bool_decide ("_s.cfs" ∈ FileDeleter.directory (file_deleter s2)) = false.
Proof. vm_compute. by split_and!. Qed.
End IndexFileDeleterProofs.
