(* ===== verification/IndexFileDeleterOpening.v ===== *)
(** Opening an index: the constructor of the index file deleter keeps what the commits it
    reads refer to and removes what nothing refers to. *)

From Stdlib Require Import ZArith Lia Bool.
From stdpp Require Import base tactics numbers list gmap strings sorting.
From S2P Require Import Prelude IndexFileNames SegmentInfos DeletionPolicy FileDeleter IndexFileDeleter IndexFileDeleterProofs.

Local Open Scope Z_scope.

Module IndexFileDeleterOpening.
Import IndexFileDeleter.
Import FileDeleterProofs.
Import IndexFileDeleterProofs.

Section Proofs.
Context {D I P : Type} {dir : Directory D} {dir_spec : DirectorySpec D} {stream : InfoStream I} {quiet : QuietInfoStream I}.
Context {pol : IndexDeletionPolicy P} {pol_spec : PolicySpec P}.
Context (to_str_radix : Z -> string) (to_lowercase : string -> string).
Context (order : gset string -> list string) (order_perm : forall X, order X ≡ₚ elements X).
Context (read_commit : D -> string -> result SegmentInfos.t) (get_pending_deletions : D -> result (gset string)).
Implicit Types (s : IndexFileDeleter.t D I).

Abbreviation disk s := (files (FileDeleter.directory (file_deleter s))).
Abbreviation count s f := (FileDeleter.get_ref_count (file_deleter s) f).
Abbreviation counts s := (FileDeleter.ref_counts (file_deleter s)).
Abbreviation none := (fun _ : string => 0).

(** Taking references does not forget a file. *)
Definition tracked (f : string) (d : FileDeleter.t D (MessengerImpl.t I)) : Prop := is_Some (FileDeleter.ref_counts d !! f).

Lemma insert_tracked f g rc (m : gmap string RefCount.t) : is_Some (m !! f) -> is_Some (<[g := rc]> m !! f).
Proof. intros Hs. destruct (decide (g = f)) as [->|]; [by rewrite lookup_insert_eq|by rewrite lookup_insert_ne]. Qed.

Lemma inc_ref_single_tracked f g (d : FileDeleter.t D (MessengerImpl.t I)) :
  tracked f d -> ends (fun _ => tracked f) (tracked f) (FileDeleter.inc_ref_single g) d.
Proof.
  intros Hs. unfold FileDeleter.inc_ref_single. eapply ends_bind with (N1 := fun _ => tracked f); [|clear d Hs; intros rc d Hs].
  { unfold ends, FileDeleter.get_ref_count_internal. destruct (FileDeleter.ref_counts d !! g); [done|]. by apply insert_tracked. }
  eapply ends_bind with (N1 := fun _ => tracked f); [|clear d Hs; intros ? d Hs].
  { apply ends_run. intros r d'. unfold FileDeleter.tell. destruct (FileDeleter.messenger d) as [m|]; [|by intros [= <- <-]].
    destruct (accept Ref m) as [r' m']. intros [= <- <-]. by destruct r'. }
  eapply ends_bind with (N1 := fun _ => tracked f); [by apply ends_lift|]. clear d Hs. intros rc' d Hs. by apply insert_tracked.
Qed.

Lemma inc_ref_tracked f gs : forall d : FileDeleter.t D (MessengerImpl.t I),
  tracked f d -> ends (fun _ => tracked f) (tracked f) (FileDeleter.inc_ref gs) d.
Proof.
  induction gs as [|g gs IH]; intros d Hs; cbn [FileDeleter.inc_ref]; [done|].
  eapply ends_bind; [by apply inc_ref_single_tracked|]. intros ? d' Hs'. by apply IH.
Qed.

(** ** Reading the commits *)

Section Reading.
Context (d : D) (infos : SegmentInfos.t).

(** The index is sound: the files of every commit that can be read are there, and those of
    the commit the writer starts from are those of its infos. *)
Record sound : Prop := {
  sound_files : forall f sis fs, read_commit d f = Ok sis -> SegmentInfos.files to_str_radix sis true = Ok fs ->
    forall g, g ∈ fs -> g ∈ files d;
  sound_current : forall f sis, read_commit d f = Ok sis ->
    SegmentInfos.generation sis = SegmentInfos.generation infos \/ SegmentInfos.get_segments_file_name to_str_radix infos = Ok (Some f) ->
    forall fs gs, SegmentInfos.files to_str_radix infos false = Ok fs -> SegmentInfos.files to_str_radix sis true = Ok gs -> fs ⊆ gs }.

(** A commit that has the files of the infos. *)
Definition has_infos (c : CommitPoint.t) : Prop :=
  forall fs, SegmentInfos.files to_str_radix infos false = Ok fs -> forall f, f ∈ fs -> f ∈ CommitPoint.files c.

(** While the commits are read: nothing is deleted, counts stay small. *)
Record reading (k : Z) (T : list string) (current : option CommitPoint.t) s : Prop := {
  reading_inv : Inv none s;
  reading_dir : FileDeleter.directory (file_deleter s) = d;
  reading_count : forall f, count s f <= k;
  reading_current : forall c, current = Some c -> c ∈ commits s /\ has_infos c;
  reading_flag : Marks.commits_to_delete (marks s) = false;
  reading_last : last_files s = ∅;
  reading_tracked : forall f, f ∈ T -> is_Some (counts s !! f) }.

Lemma reading_same k T current s d' : reading k T current s -> FileDeleter.directory d' = FileDeleter.directory (file_deleter s) ->
  (forall f rc, FileDeleter.ref_counts d' !! f = Some rc -> counts s !! f = Some rc \/ (counts s !! f = None /\ rc = RefCount.new)) ->
  (forall f rc, counts s !! f = Some rc -> FileDeleter.ref_counts d' !! f = Some rc) ->
  reading k T current (set_deleter s d').
Proof.
  intros [Hi Hd Hc Hcur Hfl Hl Ht] Hdir Hnew Hold.
  assert (Hcnt : forall f, FileDeleter.get_ref_count d' f = count s f).
  { intros f. unfold FileDeleter.get_ref_count. destruct (FileDeleter.ref_counts d' !! f) as [rc|] eqn:E.
    - destruct (Hnew f rc E) as [->|[-> ->]]; done.
    - destruct (counts s !! f) as [rc|] eqn:E'; [|done]. apply Hold in E'. congruence. }
  split; try done; cbn; [|congruence|intros f; by rewrite Hcnt|intros f Hf; destruct (Ht f Hf) as [rc E]; by rewrite (Hold _ _ E)].
  split; try apply Hi; cbn.
  - intros f rc E. destruct (Hnew f rc E) as [E'|[_ ->]]; [by apply (inv_wf _ _ Hi f)|]. cbn. split; [lia|]. split; [done|lia].
  - intros f. rewrite Hcnt. apply (inv_count _ _ Hi f).
  - intros f Hp. rewrite Hdir. by apply (inv_disk _ _ Hi f).
Qed.

Lemma log_ends k T current s : reading k T current s -> ends (fun _ => reading k T current) (Inv none) log_ifd s.
Proof.
  intros Hr. destruct (log_ifd_same s) as (s' & E & d' & -> & Hc & Hd). unfold ends. rewrite E.
  apply reading_same; [done|done|..]; intros f rc; rewrite Hc; auto.
Qed.

Lemma track_ends k T current f s : reading k T current s ->
  ends (fun _ => reading k (f :: T) current) (Inv none) (on_deleter (FileDeleter.init_ref_count f)) s.
Proof.
  intros Hr. unfold ends, on_deleter, FileDeleter.init_ref_count.
  destruct (counts s !! f) as [rc|] eqn:E.
  - replace (set_deleter s (file_deleter s)) with s by by destruct s.
    split; try apply Hr. intros g [->|Hg]%elem_of_cons; [by rewrite E|by apply (reading_tracked _ _ _ _ Hr)].
  - assert (Hr' : reading k T current (set_deleter s (FileDeleter.with_counts (file_deleter s) (<[f := RefCount.new]> (counts s))))).
    { apply reading_same; [done|done|..]; intros g rc; cbn.
      - rewrite lookup_insert_Some. intros [[<- <-]|[_ Hg]]; auto.
      - intros Hg. rewrite lookup_insert_ne; [done|]. intros ->. congruence. }
    split; try apply Hr'. intros g [->|Hg]%elem_of_cons; [cbn; by rewrite lookup_insert_eq|by apply (reading_tracked _ _ _ _ Hr')].
Qed.

Lemma new_commit_point_none sis (m : Marks.t) r m' : new_commit_point to_str_radix order sis None m = (r, m') ->
  (m' = m /\ forall c, r <> Ok c) \/
  exists c fs, r = Ok c /\ SegmentInfos.files to_str_radix sis true = Ok fs /\ CommitPoint.id c = Marks.next m /\
    CommitPoint.files c = order fs /\ m' = allocated m.
Proof.
  unfold new_commit_point. rewrite slift_sbind.
  destruct (SegmentInfos.get_segments_file_name to_str_radix sis) as [[n|]| | |]; [|by intros [= <- <-]; left..].
  rewrite !slift_sbind. destruct (SegmentInfos.files to_str_radix sis true) as [fs| | |]; [|by intros [= <- <-]; left..].
  rewrite sget_sbind, sput_sbind. intros [= <- <-]. right. by eexists _, fs.
Qed.

(** A commit that was read is entered; its counts go up by one at most. *)
Lemma add_commit_ends k T current sis f s : sound -> reading k T current s -> k + 1 < 2 ^ 64 -> read_commit d f = Ok sis ->
  ends (fun c s' => reading (k + 1) T current s' /\ c ∈ commits s' /\
      ((SegmentInfos.generation sis = SegmentInfos.generation infos \/ SegmentInfos.get_segments_file_name to_str_radix infos = Ok (Some f)) -> has_infos c))
    (Inv none) (add_commit to_str_radix order sis) s.
Proof.
  intros Hs [Hi Hd Hc Hcur Hfl Hl Ht] Hk Hsis. apply ends_run. intros r s'. unfold add_commit.
  destruct (new_commit_point to_str_radix order sis None (marks s)) as [r1 m1] eqn:E1.
  assert (E2 : on_marks (new_commit_point to_str_radix order sis None) s = (r1, set_marks s m1)) by (unfold on_marks; by rewrite E1).
  destruct (new_commit_point_none sis _ _ _ E1) as [[-> Hno]|(c & fs & -> & Hfs & Hid & Hfc & ->)].
  { replace (set_marks s (marks s)) with s in E2 by by destruct s. unfold sbind at 1. rewrite E2.
    destruct r1 as [c| | |]; [by destruct (Hno c)|by intros [= <- <-]..]. }
  rewrite (sbind_ok _ _ _ _ _ E2).
  rewrite (sbind_ok (push_commit c) _ _ tt (set_commits (set_marks s (allocated (marks s))) (commits s ++ [c])) eq_refl).
  assert (Hocc : forall g, occ g (order fs) <= 1) by (intros g; rewrite occ_order by done; case_decide; lia).
  destruct (inc_ref_files_inv none s (order fs) Hi) as (d' & E3 & Hi3 & Hd3 & Hc3).
  { intros g. specialize (Hc g). specialize (Hocc g). lia. }
  { intros g Hg. rewrite Hd. apply (sound_files Hs f sis fs Hsis Hfs). by rewrite (order_elem order order_perm) in Hg. }
  assert (E4 : inc_ref_files (CommitPoint.files c) (set_commits (set_marks s (allocated (marks s))) (commits s ++ [c]))
    = (Ok tt, set_deleter (set_commits (set_marks s (allocated (marks s))) (commits s ++ [c])) d')).
  { rewrite Hfc. unfold inc_ref_files, on_deleter in *. cbn [set_commits set_marks file_deleter].
    destruct (FileDeleter.inc_ref (order fs) (file_deleter s)) as [r4 d4]. by injection E3 as -> ->. }
  rewrite (sbind_ok _ _ _ _ _ E4). intros [= <- <-]. rewrite <- Hfc in Hi3.
  pose proof (push_commit_inv none (set_deleter s d') c Hi3 ltac:(done) Hid) as Hi'.
  split_and!; [split; try done; cbn|cbn; set_solver|].
  - by rewrite Hd3.
  - intros g. rewrite Hc3. specialize (Hc g). specialize (Hocc g). lia.
  - intros c' Hc'. destruct (Hcur c' Hc'). split; [set_solver|done].
  - intros g Hg. unfold inc_ref_files, on_deleter in E3. destruct (FileDeleter.inc_ref (order fs) (file_deleter s)) as [r4 d4] eqn:E5.
    injection E3 as -> ->. pose proof (inc_ref_tracked g (order fs) (file_deleter s) (Ht g Hg)) as He. unfold ends in He.
    by rewrite E5 in He.
  - intros Hgen fs' Hfs' g Hg. rewrite Hfc, (order_elem order order_perm). by eapply (sound_current Hs f sis Hsis Hgen fs' fs).
Qed.

Lemma reading_weaken k k' T current s : reading k T current s -> k <= k' -> reading k' T current s.
Proof. intros Hr Hk. split; try apply Hr. intros f. pose proof (reading_count _ _ _ _ Hr f). lia. Qed.

(** The files of the listing that are counted. *)
Definition counted (f : string) : bool := negb (ends_with InflateGens.WRITE_LOCK_NAME f) && is_index_file f.
Definition note (f : string) (T : list string) : list string := if counted f then f :: T else T.

Lemma init_file_ends k T current f s : sound -> reading k T current s -> k + 1 < 2 ^ 64 ->
  ends (fun current' => reading (k + 1) (note f T) current') (Inv none)
    (init_file to_str_radix order read_commit (SegmentInfos.get_generation infos) f current) s.
Proof.
  intros Hs Hr Hk. unfold init_file, note, counted, is_index_file. destruct (ends_with _ f); cbn [negb andb].
  { apply ends_ret. eapply reading_weaken; [done|lia]. }
  destruct (_ || _ || _); [|apply ends_ret; eapply reading_weaken; [done|lia]].
  destruct (starts_with IndexFileNames.SEGMENTS f).
  - eapply ends_bind; [by apply track_ends|]. clear s Hr. intros [] s Hr. eapply ends_bind; [by apply log_ends|].
    clear s Hr. intros [] s Hr. apply ends_get. rewrite (reading_dir _ _ _ _ Hr).
    eapply ends_bind; [apply ends_lift with (N := fun sis s1 => s1 = s /\ read_commit d f = Ok sis); [by apply Hr|done]|].
    intros sis s1 [-> Hsis]. eapply ends_bind; [by eapply add_commit_ends|]. clear s Hr. intros c s (Hr & Hc & Hhas).
    apply ends_ret. destruct (Z.eqb_spec (SegmentInfos.get_generation sis) (SegmentInfos.get_generation infos)) as [Hg|]; [|done].
    split; try apply Hr. intros c' [= <-]. split; [done|]. apply Hhas. by left.
  - eapply ends_bind; [by apply track_ends|]. clear s Hr. intros [] s Hr. apply ends_ret. eapply reading_weaken; [done|lia].
Qed.

Lemma init_files_ends fs : forall k T current s, sound -> reading k T current s -> k + Z.of_nat (length fs) < 2 ^ 64 ->
  ends (fun current' s' => exists T', reading (k + Z.of_nat (length fs)) T' current' s' /\
      (forall f, f ∈ T \/ (f ∈ fs /\ counted f = true) -> f ∈ T'))
    (Inv none) (init_files to_str_radix order read_commit (SegmentInfos.get_generation infos) fs current) s.
Proof.
  induction fs as [|f fs IH]; intros k T current s Hs Hr Hk; cbn [init_files length].
  - apply ends_ret. exists T. split; [eapply reading_weaken; [done|lia]|]. intros f [?|[[]%not_elem_of_nil _]]. done.
  - cbn [length] in Hk. eapply ends_bind; [apply (init_file_ends k T current f s Hs Hr); lia|]. clear s Hr. intros current' s Hr.
    eapply ends_weaken; [apply (IH (k + 1) (note f T) current' s Hs Hr); lia| |done].
    intros cur s' (T' & Hr' & HT'). exists T'. split; [eapply reading_weaken; [done|lia]|].
    intros g Hg. apply HT'. unfold note. destruct Hg as [Hg|[[->|Hg]%elem_of_cons Hc]]; [|rewrite Hc; left; by left|by right].
    left. destruct (counted f); [by right|done].
Qed.

Lemma force_current_ends k T current b s : sound -> reading k T current s -> k + 1 < 2 ^ 64 ->
  ends (fun current' s' => reading (k + 1) T current' s' /\
      (b = true -> (exists n, SegmentInfos.get_segments_file_name to_str_radix infos = Ok (Some n)) -> is_Some current'))
    (Inv none) (force_current to_str_radix order read_commit infos b current) s.
Proof.
  intros Hs Hr Hk. unfold force_current.
  eapply ends_bind; [apply ends_lift with (N := fun n s1 => s1 = s /\ SegmentInfos.get_segments_file_name to_str_radix infos = Ok n); [by apply Hr|done]|].
  intros name s1 [-> Hname]. rewrite Hname.
  assert (Hw : reading (k + 1) T current s) by (eapply reading_weaken; [done|lia]).
  destruct name as [f|]; [|apply ends_ret; split; [done|by intros _ [? [=]]]].
  destruct current as [c|]; [apply ends_ret; by split; [|eauto]|]. destruct b; [|apply ends_ret; by split].
  apply ends_get. rewrite (reading_dir _ _ _ _ Hr).
  eapply ends_bind; [apply ends_lift with (N := fun sis s1 => s1 = s /\ read_commit d f = Ok sis); [by apply Hr|]|].
  { intros sis E. split; [done|]. destruct (read_commit d f) as [x|e| |]; cbn in E; try done. by destruct (is_io_error e). }
  intros sis s1 [-> Hsis]. eapply ends_bind; [exact (log_ends k T None s Hr)|]. clear s Hr Hw. intros ? s Hr.
  eapply ends_bind; [exact (add_commit_ends k T None sis f s Hs Hr Hk Hsis)|]. clear s Hr. intros c s (Hr & Hc & Hhas). apply ends_ret.
  split; [|eauto]. split; try apply Hr. intros c' [= <-]. split; [done|]. apply Hhas. by right.
Qed.

(** ** In order *)

Lemma sort_inv ext s l : Inv ext s -> l ≡ₚ commits s -> Inv ext (set_commits s l).
Proof.
  intros Hi Hp. assert (Hr : forall f, refs (set_commits s l) f = refs s f).
  { intros f. unfold refs. cbn [set_commits commits last_files]. by rewrite (total_perm f l (commits s) Hp). }
  split; try apply Hi.
  - intros f. rewrite Hr. apply Hi.
  - intros f. rewrite Hr. apply Hi.
  - cbn. rewrite Hp. apply Hi.
  - intros c Hc. cbn in *. rewrite Hp in Hc. by apply (inv_old _ _ Hi).
  - intros Hf c Hc. cbn in Hc. rewrite Hp in Hc. by apply (inv_flag _ _ Hi).
Qed.

(** When all commits are read: files of the listing are tracked, the commit the writer
    starts from is listed. *)
Record ready (k : Z) (T : list string) (current : option CommitPoint.t) s : Prop := {
  ready_inv : Inv none s;
  ready_count : forall f, count s f <= k;
  ready_current : forall c, current = Some c -> c ∈ commits s /\ has_infos c;
  ready_tracked : forall f, f ∈ T -> tracked f (file_deleter s) }.

Lemma reading_ready k T current s : reading k T current s -> ready k T current s.
Proof. intros Hr. split; apply Hr. Qed.

Lemma ready_same k T current s d' : ready k T current s -> FileDeleter.ref_counts d' = counts s ->
  FileDeleter.directory d' = FileDeleter.directory (file_deleter s) -> ready k T current (set_deleter s d').
Proof.
  intros [Hi Hc Hcur Ht] Hrc Hd. split; try done.
  - apply write_inv; [done|done|]. by rewrite Hd.
  - intros f. cbn. unfold FileDeleter.get_ref_count. rewrite Hrc. apply Hc.
  - intros f Hf. unfold tracked. cbn. rewrite Hrc. by apply Ht.
Qed.

Lemma ready_log k T current s : ready k T current s -> ends (fun _ => ready k T current) (Inv none) log_ifd s.
Proof. intros Hr. destruct (log_ifd_same s) as (s' & E & d' & -> & Hc & Hd). unfold ends. rewrite E. by apply ready_same. Qed.

Lemma dec_ref_nil d0 : exists m, FileDeleter.dec_ref (D := D) (M := MessengerImpl.t I) order (order ∅) d0
  = (Ok tt, FileDeleter.mk (FileDeleter.ref_counts d0) (FileDeleter.directory d0) m).
Proof.
  assert (Ho : order ∅ = []) by (apply Permutation_nil_r; rewrite order_perm; by rewrite elements_empty).
  rewrite Ho. unfold FileDeleter.dec_ref, IOUtils.close_with. cbn [IOUtils.close_loop].
  unfold sret, sbind, slift. rewrite Ho. unfold FileDeleter.delete_files. destruct (tell_ok File d0) as (m & Ht). exists m.
  rewrite (sbind_ok _ _ _ _ _ Ht). done.
Qed.

(** The infos of the writer are those of the current commit, or have no files. *)
Definition started (current : option CommitPoint.t) : Prop :=
  is_Some current \/ forall fs, SegmentInfos.files to_str_radix infos false = Ok fs -> fs = ∅.

Lemma started_on_disk k T current s fs f : ready k T current s -> started current ->
  SegmentInfos.files to_str_radix infos false = Ok fs -> f ∈ fs -> f ∈ disk s.
Proof.
  intros Hr [[c ->]|He] Hfs Hf; [|rewrite (He fs Hfs) in Hf; set_solver].
  destruct (ready_current _ _ _ _ Hr c eq_refl) as [Hc Hh]. apply (inv_disk _ _ (ready_inv _ _ _ _ Hr)). unfold refs.
  pose proof (total_in f c (commits s) Hc (Hh fs Hfs f Hf)). case_decide; lia.
Qed.

Lemma started_written k T current s infos' : ready k T current s -> started current -> k + 1 < 2 ^ 64 ->
  SegmentInfos.files to_str_radix infos' false = SegmentInfos.files to_str_radix infos false -> written to_str_radix order s infos' false.
Proof.
  intros Hr Hs Hk E fs Hfs. rewrite E in Hfs. split.
  - intros f. rewrite occ_order by done. pose proof (ready_count _ _ _ _ Hr f). case_decide; lia.
  - intros f. by eapply started_on_disk.
Qed.

(** The first checkpoint only takes references. *)
Lemma first_checkpoint_ends k T current s (p : P) : ready k T current s -> started current -> k + 1 < 2 ^ 64 -> last_files s = ∅ ->
  ends (fun _ w => ready (k + 1) T current w.1) (fun w => Inv none w.1) (checkpoint to_str_radix order infos false) (s, p).
Proof.
  intros Hr Hs Hk Hl. pose proof (started_written k T current s infos Hr Hs Hk eq_refl) as Hw. pose proof (ready_inv _ _ _ _ Hr) as Hi.
  apply ends_run. intros r w E.
  assert (Hi' : Inv none w.1) by exact (checkpoint_inv to_str_radix order order_perm none s p infos false r w Hi Hw E).
  destruct r as [[]|e| |]; [|done..]. unfold checkpoint in E. apply sbind_inv in E as ([] & [s1 p1] & E1 & E2).
  rewrite slift_sbind in E1. destruct (SegmentInfos.files to_str_radix infos false) as [fs| | |] eqn:Ef; try discriminate.
  destruct (Hw fs Ef) as [Hroom Hd].
  destruct (inc_ref_files_inv none s (order fs) Hi Hroom) as (d' & E3 & _ & Hd3 & Hc3).
  { intros f Hin. apply Hd. by rewrite (order_elem order order_perm) in Hin. }
  rewrite (sbind_ok _ _ _ _ _ (on_self_run _ s p _ _ E3)) in E1.
  rewrite (sbind_ok _ _ _ _ _ (on_self_run take_last_files _ p (Ok _) _ eq_refl)) in E1.
  cbn [set_deleter last_files] in E1. rewrite Hl in E1. destruct (dec_ref_nil d') as (m & E4).
  assert (E5 : dec_ref order (order ∅) (set_last_files (set_deleter s d') ∅)
    = (Ok tt, set_deleter s (FileDeleter.mk (FileDeleter.ref_counts d') (FileDeleter.directory d') m))).
  { unfold dec_ref, on_deleter. cbn. rewrite E4. unfold set_deleter. cbn. by rewrite Hl. }
  rewrite (sbind_ok _ _ _ _ _ (on_self_run _ _ p _ _ E5)) in E1. apply on_self_inv in E1 as (s2 & [= <-] & [= -> ->]).
  apply on_self_inv in E2 as (s3 & E2 & ->). cbn [fst] in *.
  destruct (log_ifd_same (set_last_files (set_deleter s (FileDeleter.mk (FileDeleter.ref_counts d') (FileDeleter.directory d') m)) fs))
    as (s4 & E6 & d4 & -> & Hc4 & Hd4). rewrite E6 in E2. injection E2 as <-. cbn in Hc4.
  split; [done| |apply Hr|].
  - intros f. cbn. unfold FileDeleter.get_ref_count. rewrite Hc4. fold (FileDeleter.get_ref_count d' f). rewrite Hc3, occ_order by done.
    pose proof (ready_count _ _ _ _ Hr f). case_decide; lia.
  - intros f Hf. unfold tracked. cbn. rewrite Hc4. unfold inc_ref_files, on_deleter in E3.
    pose proof (inc_ref_tracked f (order fs) (file_deleter s) (ready_tracked _ _ _ _ Hr f Hf)) as He. unfold ends in He.
    destruct (FileDeleter.inc_ref (order fs) (file_deleter s)) as [r4 d5]. injection E3 as -> ->. exact He.
Qed.

(** ** Generations move, files do not *)

Definition same_files (a b : SegmentInfos.t) : Prop :=
  SegmentInfos.last_generation b = SegmentInfos.last_generation a /\
  SegmentCommitInfo.files <$> SegmentInfos.segments b = SegmentCommitInfo.files <$> SegmentInfos.segments a.

Lemma same_files_trans a b c : same_files a b -> same_files b c -> same_files a c.
Proof. unfold same_files. intros [-> ->] [-> ->]. done. Qed.

Lemma same_files_ok a b include : same_files a b -> SegmentInfos.files to_str_radix b include = SegmentInfos.files to_str_radix a include.
Proof.
  destruct a as [ca ga la ua sa], b as [cb gb lb ub sb]. unfold same_files. cbn. intros [-> E].
  unfold SegmentInfos.files, SegmentInfos.size, SegmentInfos.info, SegmentInfos.get_segments_file_name. cbn.
  rewrite <- (length_fmap SegmentCommitInfo.files sb), <- (length_fmap SegmentCommitInfo.files sa), E.
  assert (Hg : forall acc, SegmentInfos.gather sb acc = SegmentInfos.gather sa acc).
  { clear -E. revert sb E. induction sa as [|x sa IH]; intros [|y sb] E acc; try discriminate E; [done|].
    injection E as Ef E. cbn. rewrite Ef. destruct (SegmentCommitInfo.files x); cbn; [by apply IH|done..]. }
  assert (Hx : SegmentCommitInfo.files <$> sb !! Z.to_nat 0 = SegmentCommitInfo.files <$> sa !! Z.to_nat 0)
    by (rewrite <- !list_lookup_fmap; by rewrite E).
  case_match; [destruct (sb !! _), (sa !! _); cbn in Hx; congruence|].
  destruct include; cbn -[IndexFileNames.file_name_from_generation]; [|apply Hg].
  by destruct (IndexFileNames.file_name_from_generation _ _ _ _); cbn; rewrite ?Hg.
Qed.

Section Inflate.
Context (a : SegmentInfos.t).
Abbreviation keeps := (fun w : SegmentInfos.t * I => same_files a w.1).

Lemma on_stream_keeps {A} (m : ST I A) w : keeps w -> ends (fun _ => keeps) keeps (InflateGens.on_stream m) w.
Proof. destruct w as [s i]. intros Hk. apply ends_run. intros r w'. unfold InflateGens.on_stream. destruct (m i). intros [= <- <-]. by destruct r0. Qed.

Lemma inflate_one_keeps get set n g w : (forall info v, SegmentCommitInfo.files (set info v) = SegmentCommitInfo.files info) ->
  keeps w -> ends (fun _ => keeps) keeps (InflateGens.inflate_one get set n g) w.
Proof.
  intros Hset Hk. unfold InflateGens.inflate_one.
  eapply ends_bind with (N1 := fun info w' => keeps w' /\ SegmentInfos.segments w'.1 !! n = Some info).
  { destruct w as [s i]. unfold ends, InflateGens.segment_at, InflateGens.on_infos. cbn in *. by destruct (SegmentInfos.segments s !! n) eqn:E. }
  clear w Hk. intros info w [Hk Hn].
  eapply ends_bind with (N1 := fun _ w' => keeps w' /\ SegmentInfos.segments w'.1 !! n = Some info); [by apply ends_lift|].
  clear w Hk Hn. intros next w [Hk Hn]. destruct (_ <? _); [|by apply ends_ret].
  eapply ends_bind with (N1 := fun _ w' => keeps w' /\ SegmentInfos.segments w'.1 !! n = Some info).
  { destruct w as [s i]. apply ends_run. intros r w'. unfold InflateGens.on_stream. destruct (log i) as [r0 i']. intros [= <- <-]. by destruct r0. }
  clear w Hk Hn. intros ? [s i] [Hk Hn]. unfold ends, InflateGens.put_segment, InflateGens.on_infos. cbn in *.
  destruct Hk as [H1 H2]. split; [done|]. cbn. rewrite list_fmap_insert, Hset, <- H2.
  apply list_insert_id. by rewrite list_lookup_fmap, Hn.
Qed.

Lemma inflate_segments_keeps maxs indices : forall w, keeps w -> ends (fun _ => keeps) keeps (InflateGens.inflate_segments maxs indices) w.
Proof.
  induction indices as [|n indices IH]; intros w Hk; cbn [InflateGens.inflate_segments]; [by apply ends_ret|].
  eapply ends_bind with (N1 := fun _ => keeps); [|intros ? w' Hk'; by apply IH]. unfold InflateGens.inflate_segment.
  eapply ends_bind with (N1 := fun _ => keeps).
  { destruct w as [s i]. unfold ends, InflateGens.segment_at, InflateGens.on_infos. cbn in *. by destruct (SegmentInfos.segments s !! n). }
  clear w Hk. intros info w Hk. destruct (maxs !! _) as [g|]; [|by apply ends_lift].
  do 2 (eapply ends_bind with (N1 := fun _ => keeps); [by apply inflate_one_keeps|]; clear w Hk; intros ? w Hk).
  by apply inflate_one_keeps.
Qed.

Lemma inflate_gens_keeps fs (i : I) : ends (fun _ => keeps) keeps (InflateGens.inflate_gens to_lowercase fs) (a, i).
Proof.
  unfold InflateGens.inflate_gens. set (w := (a, i)). assert (Hk : keeps w) by done. clearbody w.
  eapply ends_bind with (N1 := fun _ => keeps); [by apply ends_lift|]. clear w Hk. intros m w Hk.
  eapply ends_bind with (N1 := fun _ => keeps); [by destruct w|]. clear w Hk. intros b w Hk.
  eapply ends_bind with (N1 := fun _ => keeps).
  { destruct w as [s j]. unfold ends, InflateGens.on_infos, SegmentInfos.set_next_write_generation. by destruct (_ <? _). }
  clear w Hk. intros ? w Hk. eapply ends_bind with (N1 := fun _ => keeps); [by apply ends_lift|]. clear w Hk. intros desired w Hk.
  eapply ends_bind with (N1 := fun _ => keeps); [|intros ? w' Hk'; by apply inflate_segments_keeps].
  destruct (_ <? _); [|by apply ends_ret]. eapply ends_bind with (N1 := fun _ => keeps); [by apply on_stream_keeps|].
  clear w Hk. intros ? [s j] Hk. exact Hk.
Qed.
End Inflate.

(** What the constructor works on. *)
Abbreviation world := (IndexFileDeleter.t D I * P * SegmentInfos.t)%type.
Abbreviation safe := (fun w : world => Inv none w.1.1).

Lemma inflate_ends k T current fs (w : world) : ready k T current w.1.1 -> same_files infos w.2 ->
  ends (fun _ w' => ready k T current w'.1.1 /\ same_files infos w'.2) safe (inflate to_lowercase fs) w.
Proof.
  destruct w as [[s p] a]. intros Hr Hs. cbn in *. apply ends_run. intros r w'. unfold inflate.
  destruct (FileDeleter.messenger (file_deleter s)) as [m|]; [|by intros [= <- <-]].
  pose proof (inflate_gens_keeps a fs (MessengerImpl.info_stream m)) as He. unfold ends in He.
  destruct (InflateGens.inflate_gens to_lowercase fs (a, MessengerImpl.info_stream m)) as [r' [a' i']]. intros [= <- <-].
  assert (Hr' : forall d', FileDeleter.ref_counts d' = counts s -> FileDeleter.directory d' = FileDeleter.directory (file_deleter s) ->
    ready k T current (set_deleter s d')) by (intros; by apply ready_same).
  destruct r'; [|apply (ready_inv k T current); by apply Hr'..]. split; [by apply Hr'|]. by eapply same_files_trans.
Qed.

(** ** What nothing refers to goes *)

Lemma ready_unrefed k T current u s : ready k T current s -> FileDeleter.unrefed (counts s) = u ->
  forall f, f ∈ T -> count s f = 0 -> f ∈ u.
Proof.
  intros Hr <- f Hf Hz. destruct (ready_tracked _ _ _ _ Hr f Hf) as [rc E]. unfold FileDeleter.unrefed.
  apply elem_of_dom. exists rc. apply map_lookup_filter_Some. split; [done|]. cbn.
  unfold FileDeleter.get_ref_count in Hz. by rewrite E in Hz.
Qed.

Lemma tell_each_same n : forall d0 : FileDeleter.t D (MessengerImpl.t I), exists m,
  FileDeleter.tell_each n d0 = (Ok tt, FileDeleter.mk (FileDeleter.ref_counts d0) (FileDeleter.directory d0) m).
Proof.
  induction n as [|n IH]; intros d0; cbn [FileDeleter.tell_each].
  - exists (FileDeleter.messenger d0). by destruct d0.
  - destruct (tell_ok File d0) as (m & Ht). rewrite (sbind_ok _ _ _ _ _ Ht).
    destruct (IH (FileDeleter.mk (FileDeleter.ref_counts d0) (FileDeleter.directory d0) m)) as (m' & ->). by exists m'.
Qed.

Abbreviation found u k T current := (fun s => ready k T current s /\ FileDeleter.unrefed (counts s) = u).

Lemma get_unrefed_ends k T current s : ready k T current s ->
  ends (fun u => found u k T current) (Inv none) (on_deleter FileDeleter.get_unrefed_files) s.
Proof.
  intros Hr. unfold ends, on_deleter, FileDeleter.get_unrefed_files. rewrite sget_sbind. cbv zeta.
  destruct (tell_each_same (size (FileDeleter.unrefed (counts s))) (file_deleter s)) as (m & E). rewrite (sbind_ok _ _ _ _ _ E).
  split; [by apply ready_same|done].
Qed.

Lemma check_unrefed_ends u k T current l : forall s, found u k T current s ->
  ends (fun _ => found u k T current) (Inv none) (check_unrefed l) s.
Proof.
  induction l as [|f l IH]; intros s [Hr Hu]; cbn [check_unrefed]; [by apply ends_ret|].
  destruct (starts_with _ f); [by apply ends_lift; [apply (ready_inv _ _ _ _ Hr)|]|].
  eapply ends_bind with (N1 := fun _ => found u k T current); [|intros ? s' Hs'; by apply IH].
  destruct (log_ifd_same s) as (s' & E & d' & -> & Hc & Hd). unfold ends. rewrite E. split; [by apply ready_same|].
  cbn. by rewrite Hc.
Qed.

(** No file of the listing is left without a reference. *)
Definition clean (T : list string) s : Prop := forall f, f ∈ T -> f ∈ disk s -> 0 < count s f.

Record cleaned (k : Z) (T : list string) (current : option CommitPoint.t) s : Prop := {
  cleaned_inv : Inv none s;
  cleaned_count : forall f, count s f <= k;
  cleaned_current : forall c, current = Some c -> c ∈ commits s /\ has_infos c;
  cleaned_clean : clean T s }.

Lemma delete_unrefed_ends k T current u s : found u k T current s ->
  ends (fun _ => cleaned k T current) (Inv none) (on_deleter (FileDeleter.delete_files_if_no_ref order (order u))) s.
Proof.
  intros [Hr Hu]. apply ends_run. intros r s' E. pose proof (ready_inv _ _ _ _ Hr) as Hi.
  destruct (delete_unreferenced_inv order order_perm none s _ r s' Hi E) as (d' & -> & Hi' & Hf & Hc & Hg).
  destruct r as [[]|e| |]; [|done..]. split; [done| | |].
  - intros f. cbn. rewrite Hc. apply Hr.
  - apply Hr.
  - intros f HT Hd. cbn. rewrite Hc. destruct (Z.eq_dec (count s f) 0) as [Hz|Hz].
    + exfalso. apply (Hg eq_refl f); [|done|done]. rewrite (order_elem order order_perm). by eapply ready_unrefed.
    + pose proof (count_nonneg _ f (inv_wf _ _ Hi)). lia.
Qed.

Lemma consult_init_ends k T current s (p : P) : cleaned k T current s ->
  ends (fun _ w => cleaned k T current w.1) (fun w => Inv none w.1) (consult on_init) (s, p).
Proof.
  intros Hr. apply ends_run. intros r [s' p'] E.
  destruct (consult_inv none s p on_init r s' p' (cleaned_inv _ _ _ _ Hr) on_init_marks E) as (m' & -> & _ & Hi & _).
  destruct r as [[]|e| |]; [|done..]. split; [done|apply Hr..].
Qed.

(** ** The checkpoint of the writer *)

Lemma last_checkpoint_ends k T current s (p : P) infos' : cleaned k T current s -> started current -> k + 1 < 2 ^ 64 ->
  SegmentInfos.files to_str_radix infos' false = SegmentInfos.files to_str_radix infos false ->
  ends (fun _ w => Inv none w.1 /\ clean T w.1 /\ forall fs, SegmentInfos.files to_str_radix infos false = Ok fs -> last_files w.1 = fs)
    (fun w => Inv none w.1) (checkpoint to_str_radix order infos' false) (s, p).
Proof.
  intros Hr Hs Hk Hsame. pose proof (cleaned_inv _ _ _ _ Hr) as Hi.
  assert (Hw : written to_str_radix order s infos' false).
  { apply (started_written k [] current s infos'); [|done|done|done]. split; [done|apply Hr..|]. intros f []%not_elem_of_nil. }
  apply ends_run. intros r w E.
  assert (Hi' : Inv none w.1) by exact (checkpoint_inv to_str_radix order order_perm none s p infos' false r w Hi Hw E).
  destruct r as [[]|e| |]; [|done..]. unfold checkpoint in E. apply sbind_inv in E as ([] & [s1 p1] & E1 & E2).
  rewrite slift_sbind, Hsame in E1. destruct (SegmentInfos.files to_str_radix infos false) as [fs| | |] eqn:Ef; try discriminate.
  destruct (Hw fs Hsame) as [Hroom Hd].
  destruct (inc_ref_files_inv none s (order fs) Hi Hroom) as (d' & E3 & Hi3 & Hd3 & Hc3).
  { intros f Hin. apply Hd. by rewrite (order_elem order order_perm) in Hin. }
  rewrite (sbind_ok _ _ _ _ _ (on_self_run _ s p _ _ E3)) in E1.
  rewrite (sbind_ok _ _ _ _ _ (on_self_run take_last_files _ p (Ok _) _ eq_refl)) in E1.
  apply sbind_inv in E1 as ([] & [s2 p2] & E4 & E5). apply on_self_inv in E4 as (s3 & E4 & [= -> ->]).
  unfold dec_ref, on_deleter in E4. cbn [set_last_files set_deleter file_deleter last_files] in E4.
  destruct (FileDeleter.dec_ref order (order (last_files s)) d') as [r4 d4] eqn:E6. injection E4 as -> <-.
  destruct (dec_ref_frame order order_perm (order (last_files s)) d' (Ok tt) d4) as (_ & Hc4 & _ & Hs4 & Hg4 & _); [apply Hi3| |exact E6|].
  { intros f. rewrite Hc3, !occ_order by done. pose proof (inv_count _ _ Hi f) as Hic. unfold refs in Hic.
    pose proof (total_nonneg f (commits s)). repeat case_decide; lia. }
  apply on_self_inv in E5 as (s5 & [= <-] & [= -> ->]). apply on_self_inv in E2 as (s6 & E2 & ->). cbn [fst] in *.
  match type of E2 with log_ifd ?x = _ => destruct (log_ifd_same x) as (s7 & E7 & d7 & -> & Hc7 & Hd7) end.
  rewrite E7 in E2. injection E2 as <-. cbn in Hc7, Hd7. split_and!; [done| |by intros ? [= <-]].
  intros f HT. cbn. rewrite Hd7. unfold FileDeleter.get_ref_count. rewrite Hc7. fold (FileDeleter.get_ref_count d4 f). intros Hin.
  assert (Hpos : 0 < FileDeleter.get_ref_count d' f).
  { rewrite Hc3. assert (f ∈ disk s) as Hds by (rewrite <- Hd3; by apply Hs4). pose proof (cleaned_clean _ _ _ _ Hr f HT Hds).
    pose proof (occ_nonneg f (order fs)). lia. }
  destruct (decide (f ∈ order (last_files s))) as [Hl|Hl].
  - destruct (Z.eq_dec (FileDeleter.get_ref_count d4 f) 0) as [Hz|Hz]; [by destruct (Hg4 eq_refl f Hl Hz)|].
    rewrite Hc4. pose proof (occ_order order order_perm f (last_files s)) as Ho. rewrite Hc4 in Hz. case_decide; lia.
  - rewrite Hc4. rewrite occ_in in Hl. pose proof (occ_nonneg f (order (last_files s))). lia.
Qed.

(** ** The constructor *)

Lemma ends_self {A} (N : A -> world -> Prop) (E : world -> Prop) (m : ST (IndexFileDeleter.t D I) A) s (p : P) a :
  ends (fun x s' => N x (s', p, a)) (fun s' => E (s', p, a)) m s -> ends N E (on_both (on_self m)) (s, p, a).
Proof. unfold ends, on_both, on_self. by destruct (m s) as [[] ?]. Qed.

Lemma ends_both {A} (N : A -> world -> Prop) (E : world -> Prop) (m : ST (IndexFileDeleter.t D I * P) A) w a :
  ends (fun x w' => N x (w', a)) (fun w' => E (w', a)) m w -> ends N E (on_both m) (w, a).
Proof. unfold ends, on_both. by destruct (m w) as [[] ?]. Qed.

(** The files of the listing are those of the index. *)
Definition covered (fs T : list string) : Prop := forall f, f ∈ fs -> counted f = true -> f ∈ T.

Lemma init_all_ends (fs : list string) (s : IndexFileDeleter.t D I) (current_name : option string) : sound ->
  reading 0 [] None s -> Z.of_nat (length fs) + 1 < 2 ^ 64 ->
  ends (fun current s' => exists T, reading (Z.of_nat (length fs)) T current s' /\ (is_Some current_name -> covered fs T)) (Inv none)
    (match current_name with
     | Some _ => init_files to_str_radix order read_commit (SegmentInfos.get_generation infos) fs None
     | None => sret None
     end) s.
Proof.
  intros Hs Hr Hk. destruct current_name as [n|]; [|apply ends_ret; exists []; split; [eapply reading_weaken; [done|lia]|by intros [? [=]]]].
  eapply ends_weaken; [apply (init_files_ends fs 0 [] None s Hs Hr); lia| |done].
  intros cur s' (T & Hr' & HT). exists T. split; [eapply reading_weaken; [done|lia]|]. intros _ f Hf Hc. by apply HT; right.
Qed.

(** From the deletion of unreferenced files to the end. *)
Lemma open_tail_ends k T current (s : IndexFileDeleter.t D I) (p : P) (a : SegmentInfos.t) u : found u k T current s -> started current ->
  same_files infos a -> k + 1 < 2 ^ 64 ->
  ends (fun _ w => Inv none w.1.1 /\ clean T w.1.1 /\ forall x, SegmentInfos.files to_str_radix infos false = Ok x -> last_files w.1.1 = x) safe
    (let* _ := on_both (on_self (on_deleter (FileDeleter.delete_files_if_no_ref order (order u)))) in
     let* _ := on_both (consult on_init) in
     let* w := sget in
     let* _ := on_both (checkpoint to_str_radix order w.2 false) in
     let* _ := on_both (on_self (fun s => (Ok tt, set_starting s (match current with Some c => is_deleted s c | None => false end)))) in
     on_both (on_self (delete_commits order))) (s, p, a).
Proof.
  intros Hf Hst Hsame Hk.
  eapply ends_bind with (N1 := fun _ w => exists s', w = (s', p, a) /\ cleaned k T current s').
  { apply ends_self. eapply ends_weaken; [exact (delete_unrefed_ends k T current u s Hf)| |done]. intros ? s' Hc. by exists s'. }
  clear s Hf. intros ? ? (s & -> & Hc). eapply ends_bind with (N1 := fun _ w => exists w1, w = (w1, a) /\ cleaned k T current w1.1).
  { apply ends_both. eapply ends_weaken; [exact (consult_init_ends k T current s p Hc)| |done]. intros ? w Hc'. by exists w. }
  clear s Hc. intros ? ? ([s p1] & -> & Hc). apply ends_get. cbn [snd].
  eapply ends_bind with (N1 := fun _ w => exists w1, w = (w1, a) /\ Inv none w1.1 /\ clean T w1.1 /\
    forall x, SegmentInfos.files to_str_radix infos false = Ok x -> last_files w1.1 = x).
  { apply ends_both. eapply ends_weaken; [apply (last_checkpoint_ends k T current s p1 a Hc Hst Hk); by apply same_files_ok| |done].
    intros ? w Hw. by exists w. }
  clear s Hc. intros ? ? ([s p2] & -> & Hi & Hcl & Hl). cbn [fst] in *.
  eapply ends_bind with (N1 := fun _ w => exists s', w = (s', p2, a) /\ Inv none s' /\ clean T s' /\
    forall x, SegmentInfos.files to_str_radix infos false = Ok x -> last_files s' = x).
  { apply ends_self. unfold ends. eexists. split; [done|]. split_and!; [|done|done]. by destruct Hi; split. }
  clear s Hi Hcl Hl. intros ? ? (s & -> & Hi & Hcl & Hl). apply ends_self. apply ends_run. intros r s' E.
  destruct (delete_commits_inv order order_perm none s Hi) as (r' & d' & E' & Hi' & Hf & Hc & Hg). rewrite E' in E. injection E as -> <-.
  destruct r as [[]|e| |]; [|done..]. split_and!; [done| |done]. intros f HT Hd. cbn in *. rewrite Hc.
  assert (Hpos : 0 < count s f) by (apply Hcl; [done|by apply (falls_disk _ _ Hf)]).
  set (gone := total f _) in *. assert (Hnn : 0 <= gone) by apply total_nonneg.
  destruct (Z.eq_dec (count s f - gone) 0) as [Hz|Hz]; [|pose proof (count_nonneg _ f (inv_wf _ _ Hi')) as Hn; cbn in Hn; rewrite Hc in Hn; fold gone in Hn; lia].
  exfalso. apply (Hg eq_refl f); [fold gone; lia|by rewrite Hc|done].
Qed.

Lemma open_ends (fs : list string) (s : IndexFileDeleter.t D I) (p : P) b reader current_name : sound ->
  reading 0 [] None s -> Z.of_nat (length fs) + 3 < 2 ^ 64 ->
  SegmentInfos.get_segments_file_name to_str_radix infos = Ok current_name ->
  (b = true /\ is_Some current_name) \/ (forall x, SegmentInfos.files to_str_radix infos false = Ok x -> x = ∅) ->
  ends (fun _ w => Inv none w.1.1 /\ (is_Some current_name -> exists T, covered fs T /\ clean T w.1.1) /\
      forall x, SegmentInfos.files to_str_radix infos false = Ok x -> last_files w.1.1 = x) safe
    (init to_str_radix to_lowercase order read_commit get_pending_deletions fs b reader) (s, p, infos).
Proof.
  intros Hs Hr Hk Hn Hst. unfold init. apply ends_get. cbn [snd]. set (k := Z.of_nat (length fs)) in *.
  eapply ends_bind; [apply ends_lift with (N := fun n w => w = (s, p, infos) /\ n = current_name); [by apply Hr|intros n E; split; congruence]|].
  intros ? ? [-> ->]. eapply ends_bind with (N1 := fun _ w => exists s', w = (s', p, infos) /\ reading 0 [] None s').
  { apply ends_self. eapply ends_weaken; [by apply log_ends| |done]. intros ? s' Hr'. by exists s'. }
  clear s Hr. intros ? ? (s & -> & Hr).
  eapply ends_bind with (N1 := fun current w => exists s' T, w = (s', p, infos) /\ reading k T current s' /\ (is_Some current_name -> covered fs T)).
  { apply ends_self. eapply ends_weaken; [apply (init_all_ends fs s current_name Hs Hr); lia| |done]. intros c s' (T & ? & ?). by exists s', T. }
  clear s Hr. intros cur0 ? (s & T & -> & Hr & HT).
  eapply ends_bind with (N1 := fun current w => exists s', w = (s', p, infos) /\ reading (k + 1) T current s' /\ started current).
  { apply ends_self. eapply ends_weaken; [apply (force_current_ends k T cur0 b s Hs Hr); lia| |done].
    intros c s' [Hr' Hb]. exists s'. split_and!; [done|done|]. destruct Hst as [[-> [n ->]]|He]; [left; apply Hb; [done|eauto]|by right]. }
  clear s Hr. intros cur ? (s & -> & Hr & Hstart).
  eapply ends_bind with (N1 := fun _ w => exists w1, w = (w1, infos) /\ ready (k + 2) T cur w1.1).
  { destruct reader; [|apply ends_ret; eexists; split; [done|]; apply reading_ready; eapply reading_weaken; [done|lia]].
    apply ends_both. eapply ends_weaken; [apply (first_checkpoint_ends (k + 1) T cur s p); [by apply reading_ready|done|lia|apply Hr]| |done].
    intros ? w Hw. exists w. split; [done|]. by replace (k + 2) with (k + 1 + 1) by lia. }
  clear s Hr. intros ? ? ([s p1] & -> & Hr). cbn [fst] in Hr.
  eapply ends_bind with (N1 := fun _ w => exists s', w = (s', p1, infos) /\ ready (k + 2) T cur s').
  { apply ends_self. unfold ends, sort_commits. eexists. split; [done|]. destruct Hr as [Hi Hc Hcur Ht]. split; [|done| |done].
    - apply sort_inv; [done|]. apply merge_sort_Permutation.
    - intros c Hc'. destruct (Hcur c Hc'). split; [|done]. cbn. by rewrite merge_sort_Permutation. }
  clear s Hr. intros ? ? (s & -> & Hr). apply ends_get.
  eapply ends_bind; [apply ends_lift with (N := fun _ w => w = (s, p1, infos)); [apply Hr|done]|]. intros pending ? ->.
  eapply ends_bind; [by apply (inflate_ends (k + 2) T cur)|]. clear s Hr. intros ? [[s p2] a'] [Hr Hsame]. cbn [fst snd] in *.
  eapply ends_bind with (N1 := fun u w => exists s', w = (s', p2, a') /\ found u (k + 2) T cur s').
  { apply ends_self. eapply ends_weaken; [exact (get_unrefed_ends (k + 2) T cur s Hr)| |done]. intros u s' Hu. by exists s'. }
  clear s Hr. intros u ? (s & -> & Hf). eapply ends_bind with (N1 := fun _ w => exists s', w = (s', p2, a') /\ found u (k + 2) T cur s').
  { apply ends_self. eapply ends_weaken; [exact (check_unrefed_ends u (k + 2) T cur (order u) s Hf)| |done]. intros ? s' Hu. by exists s'. }
  clear s Hf. intros ? ? (s & -> & Hf).
  eapply ends_weaken; [apply (open_tail_ends (k + 2) T cur s p2 a' u Hf Hstart Hsame); lia| |done].
  intros ? w (? & ? & ?). split_and!; [done|by exists T; auto|done].
Qed.
End Reading.

(** C14: opening an index loses nothing and, where there is a commit to open, leaves no
    garbage. The info stream takes its messages ([QuietInfoStream]). Opened on a sound index -
    the files of every commit that can be read are there, the infos of the writer are those
    of an existing commit (the index is said to exist and they have a segments file name) or have
    no files - the deleter ends, successfully or not, with every
    file of every commit it lists on disk; when it succeeds, the files of the writer's infos are
    protected as its last checkpoint; and when it succeeds on infos that have a segments file
    name, that is a generation other than -1, every index file of the listing that is still
    on disk has a reference. For infos without a segments file name the listing is not
    looked at, and what it holds stays ([fresh_writer_leaves_files] below). *)
Theorem opening_safe (listing : list string) (d : D) (p : P) (infos : SegmentInfos.t) (i : I) (b reader : bool) (name : option string)
    r s p' infos' :
  sound d infos -> Z.of_nat (length listing) + 3 < 2 ^ 64 ->
  SegmentInfos.get_segments_file_name to_str_radix infos = Ok name ->
  (b = true /\ is_Some name) \/ (forall x, SegmentInfos.files to_str_radix infos false = Ok x -> x = ∅) ->
  new to_str_radix to_lowercase order read_commit get_pending_deletions listing d p infos i b reader = (r, (s, p', infos')) ->
  (forall c f, c ∈ commits s -> f ∈ CommitPoint.files c -> f ∈ disk s) /\
  (r = Ok tt ->
   (forall x f, SegmentInfos.files to_str_radix infos false = Ok x -> f ∈ x -> f ∈ disk s /\ exists_ s f = true) /\
   (is_Some name -> forall f, f ∈ listing -> counted f = true -> f ∈ disk s -> exists_ s f = true)).
Proof.
  intros Hs Hk Hn Hst E.
  assert (Hr : reading d infos 0 [] None (blank d i b)) by (split; try done; [apply blank_inv|intros f []%not_elem_of_nil]).
  pose proof (open_ends d infos listing (blank d i b) p b reader name Hs Hr Hk Hn Hst) as He. unfold ends in He.
  unfold new in E. rewrite E in He.
  assert (Hi : Inv none s) by (by destruct r as [[]|e| |]; [destruct He|..]).
  split.
  - intros c f Hc Hf. apply (inv_disk _ _ Hi). unfold refs. pose proof (total_in f c (commits s) Hc Hf). case_decide; lia.
  - intros ->. destruct He as (_ & Hclean & Hlast). cbn in *. split.
    + intros x f Hx Hf. rewrite <- (Hlast x Hx) in Hf. assert (0 < refs s f + 0) as Hp.
      { unfold refs. rewrite decide_True by done. pose proof (total_nonneg f (commits s)). lia. }
      split; [by apply (inv_disk _ _ Hi)|]. unfold exists_. rewrite exists_count. apply Z.ltb_lt.
      pose proof (inv_count _ _ Hi f) as Hcnt. cbn beta in Hcnt. lia.
    + intros Hname f Hf Hc Hd. destruct (Hclean Hname) as (T & HT & Hcl). unfold exists_. rewrite exists_count. apply Z.ltb_lt.
      by apply Hcl; [apply HT|].
Qed.
End Proofs.

(** * Opening an index in memory *)

Definition read_sample (d : gset string) (f : string) : result SegmentInfos.t :=
  if decide (f = "segments_1") then Ok first_infos else Err CorruptIndex.
Definition crashed : gset string := {["_0.cfs"; "_1.cfs"; "segments_1"; "_2.cfs"; "pending_segments_2"; "write.lock"]}.

Lemma first_files b : SegmentInfos.files render first_infos b
  = Ok (if b then {["segments_1"; "_0.cfs"; "_1.cfs"]} else {["_0.cfs"; "_1.cfs"]}).
Proof. destruct b; vm_compute; reflexivity. Qed.

Lemma sample_sound : sound render read_sample crashed first_infos.
Proof.
  split.
  - intros f sis fs. unfold read_sample. case_decide; [|done]. intros [= <-]. rewrite first_files. intros [= <-].
    assert (Hs : ({["segments_1"; "_0.cfs"; "_1.cfs"]} : gset string) ⊆ crashed) by by_compute. exact Hs.
  - intros f sis. unfold read_sample. case_decide; [|done]. intros [= <-] _ fs gs. rewrite !first_files. intros [= <-] [= <-].
    by_compute.
Qed.

Lemma opening_safe_witness : exists (s : IndexFileDeleter.t (gset string) unit) p' infos',
  new render (fun s => s) elements read_sample (fun _ => Ok ∅) (elements crashed) crashed keep_last first_infos tt true false
    = (Ok tt, (s, p', infos')) /\
  "_0.cfs" ∈ FileDeleter.directory (file_deleter s) /\ "_2.cfs" ∉ FileDeleter.directory (file_deleter s).
Proof.
  destruct (new render (fun s => s) elements read_sample (fun _ => Ok ∅) (elements crashed) crashed keep_last first_infos tt true false)
    as [r [[s p'] infos']] eqn:E.
  destruct (opening_safe render (fun s => s) elements (fun _ => reflexivity _) read_sample (fun _ => Ok ∅) (elements crashed) crashed
    keep_last first_infos tt true false (Some "segments_1") r s p' infos') as [_ Hok].
  - exact sample_sound.
  - vm_compute. reflexivity.
  - reflexivity.
  - left. split; [reflexivity|eexists; reflexivity].
  - exact E.
  - assert (Hrun : (match new render (fun s => s) elements read_sample (fun _ => Ok ∅) (elements crashed) crashed keep_last
        first_infos tt true false with (Ok _, (s, _, _)) => negb (exists_ s "_2.cfs") | _ => false end) = true)
      by (vm_compute; reflexivity).
    rewrite E in Hrun. assert (r = Ok tt /\ exists_ s "_2.cfs" = false) as [-> Hx].
    { destruct r as [[]|e| |]; [|discriminate Hrun..]. split; [reflexivity|exact (proj1 (negb_true_iff _) Hrun)]. }
    destruct (Hok eq_refl) as [Hf Hg]. exists s, p', infos'. split; [reflexivity|]. split.
    + apply (Hf {["_0.cfs"; "_1.cfs"]} "_0.cfs"); [exact (first_files false)|by_compute].
    + intros Hd. rewrite (Hg ltac:(eexists; reflexivity) "_2.cfs" ltac:(by_compute) eq_refl Hd) in Hx. discriminate Hx.
Defined.

(** A new index, whose infos have no generation yet, opened over a directory with a file some
    earlier index left: the constructor succeeds, and the file stays without a reference. *)
Example fresh_writer_leaves_files :
  let d : gset string := {["_5.cfs"]} in
  match new render (fun s => s) elements read_sample (fun _ => Ok ∅) ["_5.cfs"] d keep_last
          (SegmentInfos.mk 0 0 (-1) ∅ []) tt true false with
  | (Ok _, (s, _, _)) => bool_decide ("_5.cfs" ∈ FileDeleter.directory (file_deleter s)) = true /\ exists_ s "_5.cfs" = false
  | _ => False
  end.
Proof. vm_compute. by split. Qed.
End IndexFileDeleterOpening.
