(* ===== verification/Heap.v ===== *)
(** Binary heaps over a list: sifting up and down as pure functions on the elements in
    heap order, with the heap order, the permutation and the minimum. The two queues of
    the code ([PriorityQueue], [LongHeap]) are shown to compute these functions. Indices
    are 1-based, as in the code: element [i] of the heap is [l !! (i - 1)]. *)

From Stdlib Require Import ZArith Lia Bool.
From stdpp Require Import base tactics numbers list sorting.
From S2P Require Import Prelude.

(** A strict order with an incomparability that is transitive, by its two laws. *)
Class StrictWeak {T : Type} (lt : T -> T -> bool) : Prop := {
  lt_asym a b : lt a b = true -> lt b a = false;
  le_trans a b c : lt b a = false -> lt c b = false -> lt c a = false;
}.

Module Heap.
Section Heap.
Context {T : Type} (lt : T -> T -> bool).

Definition le (a b : T) : Prop := lt b a = false.

(** Element [i], from 1 on. *)
Definition at_ (l : list T) (i : nat) : option T := if (i =? 0)%nat then None else l !! (i - 1)%nat.

Definition swap (l : list T) (i j : nat) : list T :=
  match at_ l i, at_ l j with
  | Some a, Some b => <[(i - 1)%nat := b]> (<[(j - 1)%nat := a]> l)
  | _, _ => l
  end.

(** The smaller child of [i], the left one on a tie. *)
Definition child (l : list T) (i : nat) : nat :=
  match at_ l (2 * i), at_ l (2 * i + 1) with
  | Some cl, Some cr => if lt cr cl then 2 * i + 1 else 2 * i
  | _, _ => 2 * i
  end.

Fixpoint sift_down (fuel : nat) (l : list T) (i : nat) : list T :=
  match fuel with
  | O => l
  | S fuel =>
      match at_ l i, at_ l (child l i) with
      | Some node, Some c => if lt c node then sift_down fuel (swap l i (child l i)) (child l i) else l
      | _, _ => l
      end
  end.

(** Returns the list and the final position. *)
Fixpoint sift_up (fuel : nat) (l : list T) (i : nat) : list T * nat :=
  match fuel with
  | O => (l, i)
  | S fuel =>
      match at_ l i, at_ l (i / 2) with
      | Some v, Some p => if lt v p then sift_up fuel (swap l i (i / 2)) (i / 2) else (l, i)
      | _, _ => (l, i)
      end
  end.

(** The heap order below the parents from [m] on; the whole heap for [m = 1]. *)
Definition ordered_from (m : nat) (l : list T) : Prop :=
  forall x a b, (m <= x / 2)%nat -> (2 <= x)%nat -> at_ l (x / 2) = Some a -> at_ l x = Some b -> le a b.
Definition ordered (l : list T) : Prop := ordered_from 1 l.

(** Ordered but for the node [i] and its children. *)
Definition down_pre (m : nat) (l : list T) (i : nat) : Prop :=
  (forall x a b, (m <= x / 2)%nat -> (2 <= x)%nat -> (x / 2 <> i)%nat ->
     at_ l (x / 2) = Some a -> at_ l x = Some b -> le a b) /\
  (forall x a b, (x / 2 = i)%nat -> (2 <= i)%nat -> (m <= i / 2)%nat ->
     at_ l (i / 2) = Some a -> at_ l x = Some b -> le a b).

(** Ordered but for the node [i] and its parent. *)
Definition up_pre (l : list T) (i : nat) : Prop :=
  (forall x a b, (2 <= x)%nat -> x <> i -> at_ l (x / 2) = Some a -> at_ l x = Some b -> le a b) /\
  (forall x a b, (x / 2 = i)%nat -> (2 <= i)%nat -> at_ l (i / 2) = Some a -> at_ l x = Some b -> le a b).

Lemma at_pos l i : (1 <= i)%nat -> at_ l i = l !! (i - 1)%nat.
Proof. intros. unfold at_. destruct (Nat.eqb_spec i 0); [lia|done]. Qed.

Lemma at_some l i a : at_ l i = Some a -> (1 <= i <= length l)%nat.
Proof.
  unfold at_. destruct (Nat.eqb_spec i 0); [discriminate|]. intros H%lookup_lt_Some. lia.
Qed.

Lemma at_is_some l i : (1 <= i <= length l)%nat -> exists a, at_ l i = Some a.
Proof. intros. rewrite at_pos by lia. apply lookup_lt_is_Some_2. lia. Qed.

Lemma at_top_exists l : l <> [] -> exists a, at_ l 1 = Some a.
Proof. intros. apply at_is_some. destruct l; [done|simpl; lia]. Qed.

Lemma swap_length l i j : length (swap l i j) = length l.
Proof. unfold swap. destruct (at_ l i), (at_ l j); rewrite ?length_insert; done. Qed.

Lemma swap_at l i j a b x : at_ l i = Some a -> at_ l j = Some b -> i <> j ->
  at_ (swap l i j) x = if (x =? i)%nat then Some b else if (x =? j)%nat then Some a else at_ l x.
Proof.
  intros Hi Hj Hne. pose proof (at_some _ _ _ Hi). pose proof (at_some _ _ _ Hj).
  unfold swap. rewrite Hi, Hj. unfold at_.
  destruct (Nat.eqb_spec x 0) as [->|Hx].
  { destruct (Nat.eqb_spec 0 i); [lia|]. destruct (Nat.eqb_spec 0 j); [lia|done]. }
  destruct (Nat.eqb_spec x i) as [->|].
  { apply list_lookup_insert_eq. rewrite length_insert. lia. }
  rewrite list_lookup_insert_ne by lia.
  destruct (Nat.eqb_spec x j) as [->|]; [apply list_lookup_insert_eq; lia|].
  by rewrite list_lookup_insert_ne by lia.
Qed.

Lemma swap_perm l i j : swap l i j ≡ₚ l.
Proof.
  unfold swap. destruct (at_ l i) as [a|] eqn:Hi; [|done]. destruct (at_ l j) as [b|] eqn:Hj; [|done].
  pose proof (at_some _ _ _ Hi). pose proof (at_some _ _ _ Hj).
  rewrite at_pos in Hi, Hj by lia. by apply Permutation_insert_swap.
Qed.

Lemma sift_down_perm fuel : forall l i, sift_down fuel l i ≡ₚ l.
Proof.
  induction fuel as [|fuel IH]; intros l i; [done|]. cbn [sift_down].
  destruct (at_ l i), (at_ l (child l i)); try done. destruct (lt _ _); [|done].
  rewrite IH. apply swap_perm.
Qed.

Lemma sift_up_perm fuel : forall l i, (sift_up fuel l i).1 ≡ₚ l.
Proof.
  induction fuel as [|fuel IH]; intros l i; [done|]. cbn [sift_up].
  destruct (at_ l i), (at_ l (i / 2)); try done. destruct (lt _ _); [|done].
  rewrite IH. apply swap_perm.
Qed.

(** The heap order is decidable. *)
Definition ordered_b (l : list T) : bool :=
  forallb (fun x => match at_ l (x / 2), at_ l x with
                    | Some a, Some b => negb (lt b a)
                    | _, _ => true
                    end) (seq 2 (length l)).

Lemma ordered_b_ok l : ordered_b l = true -> ordered l.
Proof.
  intros H x a b _ H2 Ha Hb. pose proof (at_some _ _ _ Hb). unfold ordered_b in H. rewrite forallb_forall in H.
  specialize (H x). rewrite Ha, Hb in H. unfold le. destruct (lt b a); [|done].
  exfalso. discriminate H. apply in_seq. lia.
Qed.

Context {SW : StrictWeak lt}.

Lemma le_refl a : le a a.
Proof. unfold le. destruct (lt a a) eqn:E; [|done]. by rewrite (lt_asym a a E) in E. Qed.

Lemma lt_le a b : lt a b = true -> le a b.
Proof. apply lt_asym. Qed.

Lemma le_tr a b c : le a b -> le b c -> le a c.
Proof. apply le_trans. Qed.

Lemma child_cases l i : (1 <= i)%nat -> (child l i = 2 * i \/ child l i = 2 * i + 1)%nat.
Proof. intros. unfold child. destruct (at_ l (2 * i)), (at_ l (2 * i + 1)); auto. destruct (lt _ _); auto. Qed.

(** The chosen child is the least of the children. *)
Lemma child_least l i x c b : (1 <= i)%nat -> (x / 2 = i)%nat -> (2 <= x)%nat ->
  at_ l (child l i) = Some c -> at_ l x = Some b -> le c b.
Proof.
  intros Hi Hx H2 Hc Hb.
  assert (x = 2 * i \/ x = 2 * i + 1)%nat as Hxc.
  { pose proof (Nat.div_mod x 2 ltac:(lia)). pose proof (Nat.mod_upper_bound x 2 ltac:(lia)). lia. }
  unfold child in Hc. destruct (at_ l (2 * i)) as [a1|] eqn:E1.
  2: { rewrite Hc in E1. discriminate. }
  destruct (at_ l (2 * i + 1)) as [a2|] eqn:E2.
  - destruct (lt a2 a1) eqn:Hlt; destruct Hxc as [-> | ->]; simplify_eq; try apply le_refl; try done.
    by apply lt_le.
  - destruct Hxc as [-> | ->]; simplify_eq. apply le_refl.
Qed.

Lemma half_lt x : (2 <= x)%nat -> (1 <= x / 2 < x)%nat.
Proof.
  intros. split; [apply (Nat.div_le_mono 2 x 2); lia|apply Nat.div_lt; lia].
Qed.

Lemma half_child i j : (1 <= i)%nat -> (j = 2 * i \/ j = 2 * i + 1)%nat -> (j / 2 = i)%nat.
Proof.
  intros Hi [-> | ->]; symmetry; [apply (Nat.div_unique _ 2 i 0); lia|apply (Nat.div_unique _ 2 i 1); lia].
Qed.

Lemma down_step m l i node c : (1 <= i)%nat -> down_pre m l i ->
  at_ l i = Some node -> at_ l (child l i) = Some c -> lt c node = true ->
  down_pre m (swap l i (child l i)) (child l i).
Proof.
  intros Hi [H1 H2] Hn Hc Hlt. set (j := child l i) in *.
  pose proof (child_cases l i Hi) as Hj. fold j in Hj.
  pose proof (half_child i j Hi Hj) as Hhalf.
  assert (Hne : i <> j) by lia.
  assert (Hsw : forall x, at_ (swap l i j) x
    = if (x =? i)%nat then Some c else if (x =? j)%nat then Some node else at_ l x)
    by (intros; by apply swap_at).
  split.
  - intros x a b Hm H2x Hxj Ha Hb. rewrite Hsw in Ha, Hb. pose proof (half_lt x H2x).
    destruct (Nat.eqb_spec x i) as [->|Hxi].
    { destruct (Nat.eqb_spec (i / 2) i); [lia|]. destruct (Nat.eqb_spec (i / 2) j); [lia|].
      simplify_eq. by apply (H2 j). }
    destruct (Nat.eqb_spec (x / 2) i) as [Hxp|Hxp].
    + injection Ha as <-. destruct (Nat.eqb_spec x j) as [_|_]; [injection Hb as <-; by apply lt_le|].
      apply (child_least l i x); auto.
    + destruct (Nat.eqb_spec (x / 2) j); [done|].
      destruct (Nat.eqb_spec x j) as [->|]; [lia|]. by apply (H1 x).
  - intros x a b Hx H2j Hm Ha Hb. rewrite Hhalf in Ha, Hm. rewrite Hsw in Ha, Hb.
    rewrite Nat.eqb_refl in Ha. injection Ha as <-. assert (2 <= x)%nat.
    { destruct x as [|[|x]]; simpl in Hx; lia. }
    pose proof (half_lt x ltac:(lia)).
    destruct (Nat.eqb_spec x i); [lia|]. destruct (Nat.eqb_spec x j); [lia|].
    apply (H1 x); auto; [lia|lia|by rewrite Hx].
Qed.

Lemma down_done m l i : (1 <= i)%nat -> down_pre m l i ->
  (forall node c, at_ l i = Some node -> at_ l (child l i) = Some c -> lt c node = false) ->
  ordered_from m l.
Proof.
  intros Hi [H1 H2] Hle x a b Hm H2x Ha Hb.
  destruct (decide (x / 2 = i)%nat) as [Heq|Hne]; [|by apply (H1 x)].
  subst i. assert (exists c, at_ l (child l (x / 2)) = Some c) as [c Hc].
  { destruct (child_cases l (x / 2) Hi) as [Hch|Hch].
    - apply at_is_some. apply at_some in Hb.
      pose proof (Nat.div_mod x 2 ltac:(lia)). rewrite Hch. lia.
    - unfold child in Hch. destruct (at_ l (2 * (x / 2))) as [c1|] eqn:E1; [|lia].
      destruct (at_ l (2 * (x / 2) + 1)) as [c2|] eqn:E2; [|lia].
      unfold child. rewrite E1, E2. destruct (lt c2 c1); eauto. }
  apply le_tr with c; [by apply Hle|]. by apply (child_least l (x / 2) x).
Qed.

Theorem sift_down_ordered m fuel : forall l i, (1 <= i)%nat -> (length l < i + fuel)%nat ->
  down_pre m l i -> ordered_from m (sift_down fuel l i).
Proof.
  induction fuel as [|fuel IH]; intros l i Hi Hf Hpre; cbn [sift_down].
  { apply (down_done m l i Hi Hpre). intros node c Hn. apply at_some in Hn. lia. }
  destruct (at_ l i) as [node|] eqn:Hn.
  2: { apply (down_done m l i Hi Hpre). intros node c Hn'. congruence. }
  destruct (at_ l (child l i)) as [c|] eqn:Hc.
  2: { apply (down_done m l i Hi Hpre). intros node' c Hn' Hc'. congruence. }
  destruct (lt c node) eqn:Hlt.
  - pose proof (child_cases l i Hi). apply IH; [lia|rewrite swap_length; lia|].
    by apply down_step with node c.
  - apply (down_done m l i Hi Hpre). intros node' c' Hn' Hc'. congruence.
Qed.

Lemma up_step l i v p : (2 <= i)%nat -> up_pre l i ->
  at_ l i = Some v -> at_ l (i / 2) = Some p -> lt v p = true ->
  up_pre (swap l i (i / 2)) (i / 2).
Proof.
  intros Hi [H1 H2] Hv Hp Hlt. set (j := (i / 2)%nat) in *.
  pose proof (half_lt i Hi) as Hij. fold j in Hij.
  assert (Hsw : forall x, at_ (swap l i j) x
    = if (x =? i)%nat then Some p else if (x =? j)%nat then Some v else at_ l x)
    by (intros; apply swap_at; auto; lia).
  split.
  - intros x a b H2x Hxj Ha Hb. rewrite Hsw in Ha, Hb. pose proof (half_lt x H2x).
    destruct (Nat.eqb_spec x i) as [->|Hxi].
    { fold j in Ha. rewrite Nat.eqb_refl in Ha. destruct (Nat.eqb_spec j i); [lia|].
      simplify_eq. by apply lt_le. }
    destruct (Nat.eqb_spec x j); [done|].
    destruct (Nat.eqb_spec (x / 2) i) as [Hxp|Hxp]; [injection Ha as <-; apply (H2 x); auto; lia|].
    destruct (Nat.eqb_spec (x / 2) j) as [Hxq|Hxq]; [injection Ha as <-|by apply (H1 x)].
    apply le_tr with p; [by apply lt_le|]. apply (H1 x); auto. by rewrite Hxq.
  - intros x a b Hx H2j Ha Hb. rewrite Hsw in Ha, Hb.
    assert (2 <= x)%nat by (destruct x as [|[|x]]; simpl in Hx; lia).
    pose proof (half_lt j H2j). pose proof (half_lt x ltac:(lia)).
    destruct (Nat.eqb_spec (j / 2) i); [lia|]. destruct (Nat.eqb_spec (j / 2) j); [lia|].
    assert (le a p) by (apply (H1 j); auto; lia).
    destruct (Nat.eqb_spec x i) as [->|Hxi]; [by simplify_eq|].
    destruct (Nat.eqb_spec x j); [lia|]. apply le_tr with p; [done|].
    apply (H1 x); auto. by rewrite Hx.
Qed.

Lemma up_done l i : up_pre l i ->
  (forall v p, (2 <= i)%nat -> at_ l i = Some v -> at_ l (i / 2) = Some p -> lt v p = false) ->
  ordered l.
Proof.
  intros [H1 _] Hle x a b _ H2x Ha Hb.
  destruct (decide (x = i)) as [->|Hne]; [by apply Hle|by apply (H1 x)].
Qed.

Theorem sift_up_ordered fuel : forall l i, (1 <= i <= fuel)%nat -> up_pre l i ->
  ordered (sift_up fuel l i).1.
Proof.
  induction fuel as [|fuel IH]; intros l i Hi Hpre; [lia|]. cbn [sift_up].
  destruct (at_ l i) as [v|] eqn:Hv.
  2: { apply (up_done l i Hpre). intros v p _ Hv'. congruence. }
  destruct (at_ l (i / 2)) as [p|] eqn:Hp.
  2: { apply (up_done l i Hpre). intros v' p _ Hv' Hp'. congruence. }
  destruct (lt v p) eqn:Hlt.
  - assert (2 <= i)%nat by (apply at_some in Hp; destruct i as [|[|i]]; simpl in Hp; lia).
    pose proof (half_lt i ltac:(lia)). apply IH; [lia|]. by apply up_step with v p.
  - apply (up_done l i Hpre). intros v' p' _ Hv' Hp'. congruence.
Qed.
(** ** Whole-heap consequences *)

Lemma ordered_min l a : ordered l -> at_ l 1 = Some a -> Forall (le a) l.
Proof.
  intros Ho Ha. assert (Hx : forall x b, at_ l x = Some b -> le a b).
  { intros x. induction x as [x IH] using lt_wf_ind. intros b Hb.
    pose proof (at_some _ _ _ Hb). destruct (decide (x = 1)%nat) as [->|Hne].
    { simplify_eq. apply le_refl. }
    pose proof (half_lt x ltac:(lia)). destruct (at_is_some l (x / 2)) as [p Hp]; [lia|].
    apply le_tr with p; [apply (IH (x / 2)%nat); [lia|done]|]. apply (Ho x); auto; lia. }
  apply Forall_lookup_2. intros i b Hb. apply (Hx (S i)). rewrite at_pos by lia.
  by replace (S i - 1)%nat with i by lia.
Qed.

Lemma ordered_nil : ordered [].
Proof. intros x a b _ H2 _ Hb. apply at_some in Hb. simpl in Hb. lia. Qed.

(** Appending at the end, then sifting up. *)
Lemma push_pre l v : ordered l -> up_pre (l ++ [v]) (length l + 1).
Proof.
  intros Ho. assert (Hlow : forall x, (x <= length l)%nat -> at_ (l ++ [v]) x = at_ l x).
  { intros x Hx. unfold at_. destruct (Nat.eqb_spec x 0); [done|]. rewrite lookup_app_l; [done|lia]. }
  split; intros x a b.
  - intros H2 Hne Ha Hb. pose proof (at_some _ _ _ Hb) as Hx. rewrite length_app in Hx. simpl in Hx.
    pose proof (half_lt x H2). rewrite Hlow in Ha, Hb by lia. apply (Ho x); auto; lia.
  - intros Hx H2 _ Hb. apply at_some in Hb. rewrite length_app in Hb. simpl in Hb.
    assert (2 <= x)%nat by (destruct x as [|[|x]]; simpl in Hx; lia).
    pose proof (half_lt x ltac:(lia)). lia.
Qed.

(** Moving a hole is swapping. *)
Lemma at_insert (l : list T) i x v : (1 <= i <= length l)%nat ->
  at_ (<[(i - 1)%nat := v]> l) x = if (x =? i)%nat then Some v else at_ l x.
Proof.
  intros Hi. unfold at_. destruct (Nat.eqb_spec x 0) as [->|].
  { destruct (Nat.eqb_spec 0 i); [lia|done]. }
  destruct (Nat.eqb_spec x i) as [->|]; [apply list_lookup_insert_eq; lia|].
  apply list_lookup_insert_ne. lia.
Qed.

(** Filling the hole [i] from [j], then putting the value at [j], swaps them. *)
Lemma hole_swap (l : list T) i j v c : (1 <= i <= length l)%nat -> i <> j ->
  at_ l j = Some c ->
  <[(j - 1)%nat := v]> (<[(i - 1)%nat := c]> l) = swap (<[(i - 1)%nat := v]> l) i j.
Proof.
  intros Hi Hne Hc. pose proof (at_some _ _ _ Hc). unfold swap.
  rewrite !at_insert by done. rewrite Nat.eqb_refl. destruct (Nat.eqb_spec j i); [lia|]. rewrite Hc.
  rewrite (list_insert_insert_ne (<[(i - 1)%nat := v]> l) (i - 1) (j - 1) c v) by lia.
  by rewrite list_insert_insert_eq.
Qed.

(** [l'] is [l], perhaps cut, with another element at [i]. *)
Definition replaced (l l' : list T) (i : nat) : Prop :=
  forall x b, x <> i -> at_ l' x = Some b -> at_ l x = Some b.

Lemma replaced_down m l l' i w : ordered_from m l -> replaced l l' i -> at_ l i = Some w ->
  (forall p v, (m <= i / 2)%nat -> at_ l' (i / 2) = Some p -> at_ l' i = Some v -> le p v) ->
  down_pre m l' i.
Proof.
  intros Ho Hr Hw Hp. pose proof (at_some _ _ _ Hw). split; intros x a b.
  - intros Hm H2 Hne Ha Hb. destruct (decide (x = i)) as [->|]; [by apply Hp|].
    apply (Ho x); auto.
  - intros Hx H2 Hm Ha Hb. assert (2 <= x)%nat by (destruct x as [|[|x]]; simpl in Hx; lia).
    pose proof (half_lt x ltac:(lia)). pose proof (half_lt i ltac:(lia)).
    apply le_tr with w; [apply (Ho i); auto; apply Hr; [lia|done]|].
    apply (Ho x); auto; [lia|by rewrite Hx|apply Hr; [lia|done]].
Qed.

Lemma replaced_up l l' i w v p : ordered l -> replaced l l' i -> at_ l i = Some w -> (2 <= i)%nat ->
  at_ l' i = Some v -> at_ l' (i / 2) = Some p -> lt v p = true -> up_pre l' i.
Proof.
  intros Ho Hr Hw Hi Hv Hp Hlt. pose proof (half_lt i Hi).
  assert (Hpw : le p w) by (apply (Ho i); [lia|lia|apply Hr; [lia|done]|done]).
  split; intros x a b.
  - intros H2 Hne Ha Hb. pose proof (half_lt x H2).
    destruct (decide (x / 2 = i)%nat) as [Heq|].
    + rewrite Heq in Ha. assert (v = a) as <- by congruence. apply le_tr with p; [by apply lt_le|].
      apply le_tr with w; [done|]. apply (Ho x); [lia|lia|by rewrite Heq|by apply Hr].
    + apply (Ho x); [lia|lia|by apply Hr|by apply Hr].
  - intros Hx H2 Ha Hb. assert (2 <= x)%nat by (destruct x as [|[|x]]; simpl in Hx; lia).
    pose proof (half_lt x ltac:(lia)). assert (p = a) as <- by congruence. apply le_tr with w; [done|].
    apply (Ho x); [lia|lia|by rewrite Hx|apply Hr; [lia|done]].
Qed.

(** Floyd's heap construction: sift every parent down, the last one first. *)
Fixpoint heapify (fuel m : nat) (l : list T) : list T :=
  match m with
  | O => l
  | S m' => heapify fuel m' (sift_down fuel l (S m'))
  end.

Lemma heapify_perm fuel m : forall l, heapify fuel m l ≡ₚ l.
Proof. induction m as [|m IH]; intros l; [done|]. cbn [heapify]. rewrite IH. apply sift_down_perm. Qed.

Lemma heapify_ordered fuel m : forall l, (length l <= fuel)%nat -> ordered_from (S m) l ->
  ordered (heapify fuel m l).
Proof.
  induction m as [|m IH]; intros l Hf Ho; [done|]. cbn [heapify].
  apply IH; [by rewrite (Permutation_length (sift_down_perm fuel l (S m)))|].
  apply sift_down_ordered; [lia|lia|]. split.
  - intros x a b Hm H2 Hne. apply (Ho x); auto. lia.
  - intros x a b _ Hs Hm. pose proof (half_lt (S m) Hs). lia.
Qed.

Lemma ordered_from_leaves l : ordered_from (S (length l / 2)) l.
Proof.
  intros x a b Hm _ _ Hb. apply at_some in Hb.
  pose proof (Nat.div_le_mono x (length l) 2 ltac:(lia) ltac:(lia)). lia.
Qed.
(** [a] is an element no other is less than. *)
Definition least (a : T) (l : list T) : Prop := a ∈ l /\ Forall (le a) l.

Lemma ordered_least l a : ordered l -> at_ l 1 = Some a -> least a l.
Proof.
  intros Ho Ha. split; [|by apply ordered_min].
  rewrite at_pos in Ha by lia. by eapply list_elem_of_lookup_2.
Qed.

(** Moving the last element [z] to position [i] and dropping the last position. *)
Lemma swap_last l z i y : at_ (l ++ [z]) i = Some y ->
  swap (l ++ [z]) i (length l + 1) = <[(i - 1)%nat := z]> l ++ [y].
Proof.
  intros Hy. pose proof (at_some _ _ _ Hy) as Hi. rewrite length_app in Hi. simpl in Hi.
  assert (Hz : at_ (l ++ [z]) (length l + 1) = Some z).
  { rewrite at_pos by lia. rewrite lookup_app_r by lia.
    by replace (length l + 1 - 1 - length l)%nat with 0%nat by lia. }
  unfold swap. rewrite Hy, Hz.
  replace (length l + 1 - 1)%nat with (length l + 0)%nat by lia.
  rewrite insert_app_r. cbn.
  destruct (decide (i = length l + 1)%nat) as [->|].
  - rewrite Hz in Hy. simplify_eq. rewrite insert_app_r_alt by lia.
    replace (length l + 1 - 1 - length l)%nat with 0%nat by lia. cbn.
    by rewrite list_insert_ge by lia.
  - by rewrite insert_app_l by lia.
Qed.

Lemma replaced_last l z i : (1 <= i)%nat -> replaced (l ++ [z]) (<[(i - 1)%nat := z]> l) i.
Proof.
  intros Hi x b Hne Hb. pose proof (at_some _ _ _ Hb) as Hx. rewrite length_insert in Hx.
  rewrite at_pos in Hb |- * by lia. rewrite list_lookup_insert_ne in Hb by lia.
  by apply lookup_app_l_Some.
Qed.

Lemma remove_last_perm l z i y : at_ (l ++ [z]) i = Some y ->
  l ++ [z] ≡ₚ y :: <[(i - 1)%nat := z]> l.
Proof.
  intros Hy. rewrite <- (swap_perm (l ++ [z]) i (length l + 1)) at 1. rewrite (swap_last l z i y Hy).
  by rewrite Permutation_app_comm.
Qed.

(** After position [i] took another element: up if it is less than its parent, else down. *)
Definition resift (l : list T) (i : nat) : list T :=
  let up := sift_up (S i) l i in
  if (up.2 =? i)%nat then sift_down (S (length up.1)) up.1 i else up.1.

Lemma sift_up_pos fuel : forall l i, ((sift_up fuel l i).2 <= i)%nat.
Proof.
  induction fuel as [|fuel IH]; intros l i; [done|]. cbn [sift_up].
  destruct (at_ l i), (at_ l (i / 2)); try done. destruct (lt _ _); [|done].
  etrans; [apply IH|]. apply Nat.Div0.div_le_upper_bound. lia.
Qed.

Lemma resift_ordered l l' i w v : ordered l -> replaced l l' i -> at_ l i = Some w ->
  at_ l' i = Some v -> ordered (resift l' i).
Proof.
  intros Ho Hr Hw Hv. pose proof (at_some _ _ _ Hv). unfold resift.
  destruct (at_ l' (i / 2)) as [p|] eqn:Hp; [destruct (lt v p) eqn:Hlt|].
  - assert (2 <= i)%nat by (apply at_some in Hp; destruct i as [|[|i]]; simpl in Hp; lia).
    pose proof (half_lt i ltac:(lia)).
    destruct (Nat.eqb_spec (sift_up (S i) l' i).2 i) as [Heq|].
    { cbn [sift_up] in Heq. rewrite Hv, Hp, Hlt in Heq.
      pose proof (sift_up_pos i (swap l' i (i / 2)) (i / 2)). lia. }
    apply sift_up_ordered; [lia|]. by apply (replaced_up l l' i w v p).
  - cbn [sift_up]. rewrite Hv, Hp, Hlt. cbn. rewrite Nat.eqb_refl.
    apply (sift_down_ordered 1 (S (length l')) l' i); [lia|lia|].
    apply (replaced_down 1 l l' i w); auto. intros p' v' _ Hp' Hv'.
    unfold le. congruence.
  - cbn [sift_up]. rewrite Hv, Hp. cbn. rewrite Nat.eqb_refl.
    apply (sift_down_ordered 1 (S (length l')) l' i); [lia|lia|].
    apply (replaced_down 1 l l' i w); auto. intros p' v' _ Hp'. congruence.
Qed.

Lemma resift_perm l i : resift l i ≡ₚ l.
Proof.
  unfold resift. destruct (_ =? _)%nat; rewrite ?sift_down_perm; apply sift_up_perm.
Qed.
(** What was refused or thrown out so far is at most what is kept, and nothing was as long
    as there was room. *)
Definition best (m : nat) (kept dropped : list T) : Prop :=
  (forall d y, d ∈ dropped -> y ∈ kept -> le d y) /\ (length kept < m -> dropped = [])
  /\ length kept <= m.

Lemma best_insert m l l' o e D : best m l D ->
  match o with
  | None => length l < m /\ l' ≡ₚ e :: l
  | Some r => m <= length l /\ r :: l' ≡ₚ e :: l /\ Forall (le r) l'
  end -> best m l' (D ++ option_list o) /\ l' ++ D ++ option_list o ≡ₚ e :: l ++ D.
Proof.
  intros (HD & Hroom & Hle) Ho. destruct o as [r|]; cbn [option_list].
  - destruct Ho as (Hfull & Hp & Hr). pose proof (Permutation_length Hp) as Hlen. simpl in Hlen. split; [split_and!|].
    + intros d y Hdy Hy. apply elem_of_app in Hdy as [Hd|Hd].
      2: { apply list_elem_of_singleton in Hd as ->. by eapply Forall_forall in Hr. }
      assert (Hin : y ∈ e :: l) by (rewrite <- Hp; by right).
      apply elem_of_cons in Hin as [->|Hin]; [|by apply HD].
      assert (Hrin : r ∈ e :: l) by (rewrite <- Hp; left).
      apply elem_of_cons in Hrin as [->|Hrin]; [|apply (le_tr) with r; [by apply HD|]].
      * assert (Hp' : l' ≡ₚ l) by by apply Permutation_cons_inv in Hp. apply HD; [done|by rewrite <- Hp'].
      * by eapply Forall_forall in Hr.
    + lia.
    + lia.
    + rewrite (Permutation_app_comm D), (app_assoc l'), (Permutation_app_comm l'). cbn.
      rewrite app_comm_cons, Hp. done.
  - destruct Ho as [Hlt Hp]. rewrite (Hroom Hlt), !app_nil_r. split; [|done].
    split_and!; [intros d y Hd; by apply elem_of_nil in Hd|done|].
    rewrite (Permutation_length Hp). simpl. lia.
Qed.

Lemma least_sorted_cons a l l' out : least a l -> l ≡ₚ a :: l' -> out ≡ₚ l' ->
  StronglySorted le out -> StronglySorted le (a :: out).
Proof.
  intros [_ Hmin] Hp Hout Hs. constructor; [done|]. rewrite Hp in Hmin. inversion Hmin; subst.
  by rewrite Hout.
Qed.

Lemma new_root_pre l a e : ordered (a :: l) -> down_pre 1 (e :: l) 1.
Proof.
  intros Ho. apply (replaced_down 1 (a :: l) (e :: l) 1 a); [done| |done|].
  - intros x b Hx Hb. pose proof (at_some _ _ _ Hb). rewrite at_pos in Hb |- * by lia.
    by destruct (x - 1) eqn:?; [lia|].
  - intros p v H. cbn in H. lia.
Qed.

End Heap.
End Heap.

#[export] Instance Zltb_strict_weak : StrictWeak Z.ltb.
Proof. split; intros *; rewrite ?Z.ltb_lt, ?Z.ltb_ge; lia. Qed.
