(* ===== verification/PriorityQueue.v ===== *)
(** [PriorityQueue] of [src/core/util/priority_queue.rs]: the bounded binary heap behind
    hit collection, merging and scoring. A [usize] index or size is a [nat] here: sizes are
    below [i32::MAX] by the constructor, so no index computation wraps. The queue's
    [Compare] object is the parameter [less_than], which may fail. *)

From Stdlib Require Import ZArith Lia Bool Arith.
From stdpp Require Import base tactics numbers list sorting.
From S2P Require Import Prelude Heap.

Local Open Scope nat_scope.

Module PriorityQueue.

(** [v[i]], [v[i] = x] and [v.swap(i, j)]: an index out of range panics. *)
Definition nget {A} (v : list A) (i : nat) : result A :=
  match v !! i with Some x => Ok x | None => Panic end.
Definition nset {A} (v : list A) (i : nat) (x : A) : result (list A) :=
  if i <? length v then Ok (<[i := x]> v) else Panic.
Definition nswap {A} (v : list A) (i j : nat) : result (list A) :=
  match v !! i, v !! j with
  | Some a, Some b => Ok (<[i := b]> (<[j := a]> v))
  | _, _ => Panic
  end.

(** [.ok_or_else(|| illegal_state("priority queue element should exist"))] *)
Definition should_exist {A} (o : option A) : result A :=
  match o with Some x => Ok x | None => Err IllegalState end.

Record t (T : Type) : Type := mk { size : nat; max_size : nat; heap : list (option T) }.
Arguments mk {T}.
Arguments size {T}.
Arguments max_size {T}.
Arguments heap {T}.

Section Operations.
Context {T : Type} (less_than : T -> T -> result bool) (eqb : T -> T -> bool).

Definition set_heap (h : list (option T)) : ST (t T) unit :=
  fun q => (Ok tt, mk (size q) (max_size q) h).
Definition set_size (n : nat) : ST (t T) unit :=
  fun q => (Ok tt, mk n (max_size q) (heap q)).

(** ** Construction. [supplier n] is what call number [n] of the supplier returns. *)

(** [for i in 2..heap.len() { heap[i] = Some(supplier()?) }] *)
Fixpoint fill_sentinels (supplier : nat -> option T) (n i : nat) (h : list (option T)) : result (list (option T)) :=
  match n with
  | O => Ok h
  | S n =>
      let? s := should_exist (supplier (i - 1)) in
      let? h := nset h i (Some s) in
      fill_sentinels supplier n (S i) h
  end.

Definition heap_size (max_size : nat) : nat := if max_size =? 0 then 2 else max_size + 1.

Definition with_sentinel_object (max_size : nat) (supplier : nat -> option T) : result (t T) :=
  if negb (max_size =? 0) && negb (Z.of_nat max_size <? i32_MAX)%Z then Err IllegalArgument
  else
    let h := replicate (heap_size max_size) None in
    match supplier 0 with
    | Some sentinel =>
        let? h := nset h 1 (Some sentinel) in
        let? h := fill_sentinels supplier (length h - 2) 2 h in
        Ok (mk max_size max_size h)
    | None => Ok (mk 0 max_size h)
    end.

Definition new (max_size : nat) : result (t T) := with_sentinel_object max_size (fun _ => None).

(** ** Access *)

Definition heap_value (q : t T) (index : nat) : result T :=
  let? o := nget (heap q) index in should_exist o.

Definition top (q : t T) : result (option T) := nget (heap q) 1.

Definition take_top : ST (t T) (option T) :=
  let* q := sget in
  let* o := slift (nget (heap q) 1) in
  let* h := slift (nset (heap q) 1 None) in
  let* _ := set_heap h in
  sret o.

(** [heap[..=size][1..]] is set to [None]. *)
Definition clear : ST (t T) unit :=
  let* q := sget in
  if size q <? length (heap q) then
    let* _ := set_heap (take 1 (heap q) ++ replicate (size q) None ++ drop (size q + 1) (heap q)) in
    set_size 0
  else slift Panic.

(** ** Sifting *)

Fixpoint up_heap_loop (fuel i orig_pos : nat) : ST (t T) bool :=
  match fuel with
  | O => slift OutOfFuel
  | S fuel =>
      let j := i / 2 in
      if 0 <? j then
        let* q := sget in
        let* a := slift (heap_value q i) in
        let* b := slift (heap_value q j) in
        let* less := slift (less_than a b) in
        if less then
          let* h := slift (nswap (heap q) i j) in
          let* _ := set_heap h in
          up_heap_loop fuel j orig_pos
        else sret (negb (i =? orig_pos))
      else sret (negb (i =? orig_pos))
  end.

Definition up_heap (orig_pos : nat) : ST (t T) bool := up_heap_loop (S orig_pos) orig_pos orig_pos.

(** [split_at_mut(j)] gives the [parents] before [j] and the [children] from [j] on; an
    index past the end of either part panics. Returns the chosen child and its index. *)
Definition choose_child (q : t T) (i : nat) : result (T * nat) :=
  let j := i * 2 in
  let k := j + 1 in
  let children := drop j (heap q) in
  if k <=? size q then
    let? right_ := rbind (nget children 1) should_exist in
    let? left_ := rbind (nget children 0) should_exist in
    let? less := less_than right_ left_ in
    Ok (if less then (right_, k) else (left_, j))
  else
    let? c := rbind (nget children 0) should_exist in
    Ok (c, j).

Fixpoint down_heap_loop (fuel i : nat) : ST (t T) unit :=
  match fuel with
  | O => slift OutOfFuel
  | S fuel =>
      let* q := sget in
      if i * 2 <=? size q then
        let* (child, j) := slift (choose_child q i) in
        let* node := slift (rbind (nget (take (i * 2) (heap q)) i) should_exist) in
        let* less := slift (less_than child node) in
        if negb less then sret tt
        else
          let* h := slift (nswap (heap q) i j) in
          let* _ := set_heap h in
          down_heap_loop fuel j
      else sret tt
  end.

Definition down_heap (i : nat) : ST (t T) unit :=
  let* q := sget in down_heap_loop (S (size q)) i.

(** ** Updates *)

Definition add (element : T) : ST (t T) T :=
  let* q := sget in
  let index := size q + 1 in
  if length (heap q) <=? index then slift (Err ArrayIndexOutOfBounds)
  else
    let* h := slift (nset (heap q) index (Some element)) in
    let* _ := set_heap h in
    let* _ := set_size index in
    let* _ := up_heap index in
    let* q := sget in
    slift (heap_value q 1).

Fixpoint append_all (elements : list T) : ST (t T) unit :=
  match elements with
  | [] => sret tt
  | element :: elements =>
      let* q := sget in
      let* h := slift (nset (heap q) (size q + 1) (Some element)) in
      let* _ := set_heap h in
      let* _ := set_size (size q + 1) in
      append_all elements
  end.

(** [for i in (1..=m).rev() { self.down_heap(i)? }] *)
Fixpoint down_heaps (m : nat) : ST (t T) unit :=
  match m with
  | O => sret tt
  | S m' => let* _ := down_heap m in down_heaps m'
  end.

(** The message of the error computes [max_size - size]: a [usize] subtraction, which
    panics when the queue holds more than [max_size] elements. *)
Definition add_all_exact (elements : list T) : ST (t T) unit :=
  let* q := sget in
  if max_size q <? size q + length elements then
    if max_size q <? size q then slift Panic else slift (Err ArrayIndexOutOfBounds)
  else
    let* _ := append_all elements in
    let* q := sget in
    down_heaps (size q / 2).

Definition add_all (elements : list T) : ST (t T) unit := add_all_exact elements.

Definition update_top : ST (t T) T :=
  let* _ := down_heap 1 in
  let* q := sget in
  slift (heap_value q 1).

Definition update_top_with_new_top (new_top : T) : ST (t T) T :=
  let* q := sget in
  let* h := slift (nset (heap q) 1 (Some new_top)) in
  let* _ := set_heap h in
  update_top.

Definition insert_with_overflow (element : T) : ST (t T) (option T) :=
  let* q := sget in
  if size q <? max_size q then
    let* _ := add element in
    sret None
  else if 0 <? size q then
    let* top := slift (nget (heap q) 1) in
    match top with
    | Some top =>
        let* less := slift (less_than top element) in
        if less then
          let* h := slift (nset (heap q) 1 (Some element)) in
          let* _ := set_heap h in
          let* _ := update_top in
          sret (Some top)
        else sret (Some element)
    | None => sret (Some element)
    end
  else sret (Some element).

Definition pop_unchecked : ST (t T) T :=
  let* q := sget in
  let* _ := slift (debug_assert (0 <? size q)) in
  let* h := slift (nswap (heap q) 1 (size q)) in
  let* _ := set_heap h in
  let* o := slift (nget h (size q)) in
  let* h := slift (nset h (size q) None) in
  let* _ := set_heap h in
  let* result := slift (should_exist o) in
  let* _ := set_size (size q - 1) in
  let* _ := down_heap 1 in
  sret result.

Definition pop : ST (t T) (option T) :=
  let* q := sget in
  if 0 <? size q then
    let* result := pop_unchecked in
    sret (Some result)
  else sret None.

(** [(1..=size).find(|&idx| heap[idx] == Some(element))], from [idx] on. *)
Fixpoint find_index (element : T) (n idx : nat) (h : list (option T)) : result (option nat) :=
  match n with
  | O => Ok None
  | S n =>
      let? o := nget h idx in
      if match o with Some value => eqb value element | None => false end then Ok (Some idx)
      else find_index element n (S idx) h
  end.

Definition remove (element : T) : ST (t T) bool :=
  let* q := sget in
  let* found := slift (find_index element (size q) 1 (heap q)) in
  match found with
  | Some i =>
      let last_index := size q in
      let* h := slift (nswap (heap q) i last_index) in
      let* h := slift (nset h last_index None) in
      let* _ := set_heap h in
      let* _ := set_size (size q - 1) in
      if i <=? size q - 1 then
        let* moved := up_heap i in
        if negb moved then
          let* _ := down_heap i in sret true
        else sret true
      else sret true
  | None => sret false
  end.

(** [filter_map(Option::take)] over [heap[1..=size]]. *)
Definition take_heap_array : ST (t T) (list T) :=
  let* q := sget in
  if size q =? 0 then sret []
  else if size q <? length (heap q) then
    let taken := omap id (take (size q) (drop 1 (heap q))) in
    let* _ := set_heap (take 1 (heap q) ++ replicate (size q) None ++ drop (size q + 1) (heap q)) in
    let* _ := set_size 0 in
    sret taken
  else slift Panic.

(** ** Iterators: the queue and the index reached. *)

Fixpoint iter_ref_next (fuel : nat) (q : t T) (index : nat) : result (option T * nat) :=
  match fuel with
  | O => OutOfFuel
  | S fuel =>
      if index <? size q then
        let index := index + 1 in
        let? o := nget (heap q) index in
        match o with
        | Some result => Ok (Some result, index)
        | None => iter_ref_next fuel q index
        end
      else Ok (None, index)
  end.

Definition PriorityQueueIterator_next (q : t T) (index : nat) : result (option T * nat) :=
  iter_ref_next (S (size q)) q index.

(** The consuming iterator takes the element out of its slot. *)
Fixpoint into_iter_next (fuel : nat) (q : t T) (index : nat) : result (option T * (t T * nat)) :=
  match fuel with
  | O => OutOfFuel
  | S fuel =>
      if index <? size q then
        let index := index + 1 in
        let? o := nget (heap q) index in
        match o with
        | Some result => Ok (Some result, (mk (size q) (max_size q) (<[index := None]> (heap q)), index))
        | None => into_iter_next fuel q index
        end
      else Ok (None, (q, index))
  end.

Definition PriorityQueueIntoIterator_next (q : t T) (index : nat) : result (option T * (t T * nat)) :=
  into_iter_next (S (size q)) q index.

(** A client's loop over a queue: every element of [xs] in turn, as hit collection does. *)
Fixpoint insert_all (xs : list T) : ST (t T) (list (option T)) :=
  match xs with
  | [] => sret []
  | x :: xs =>
      let* o := insert_with_overflow x in
      let* os := insert_all xs in
      sret (o :: os)
  end.

Fixpoint pop_all (n : nat) : ST (t T) (list (option T)) :=
  match n with
  | O => sret []
  | S n =>
      let* o := pop in
      let* os := pop_all n in
      sret (o :: os)
  end.
End Operations.
(** ** The queue as a heap of its elements *)

(** The queue whose elements in heap order are [l], with [k] free slots. *)
Definition rep {T} (l : list T) (k m : nat) : t T :=
  mk (length l) m (None :: (Some <$> l) ++ replicate k None).

(** The invariant: the elements are in heap order and the slots are [heap_size] many. *)
Definition holds {T} (lt : T -> T -> bool) (q : t T) (l : list T) : Prop :=
  exists k, q = rep l k (max_size q) /\ Heap.ordered lt l /\ 1 + length l + k = heap_size (max_size q).

Section Representation.
Context {T : Type}.
Implicit Types l : list T.

Lemma rep_lookup l k m i a : Heap.at_ l i = Some a -> heap (rep l k m) !! i = Some (Some a).
Proof.
  intros H. pose proof (Heap.at_some _ _ _ H). rewrite Heap.at_pos in H by lia.
  destruct i as [|i]; [lia|]. cbn [rep heap]. rewrite lookup_cons.
  replace (S i - 1) with i in H by lia. rewrite lookup_app_l by (rewrite length_fmap; lia).
  by rewrite list_lookup_fmap, H.
Qed.

Lemma insert_cons_S {A} (x y : A) v i : <[S i := y]> (x :: v) = x :: <[i := y]> v.
Proof. done. Qed.

Lemma rep_insert l k m i a : 1 <= i <= length l ->
  <[i := Some a]> (heap (rep l k m)) = heap (rep (<[i - 1 := a]> l) k m).
Proof.
  intros Hi. destruct i as [|i]; [lia|]. cbn [rep heap]. replace (S i - 1) with i by lia.
  rewrite list_fmap_insert, insert_cons_S. by rewrite insert_app_l by (rewrite length_fmap; lia).
Qed.

Lemma rep_heap_value l k m i a : Heap.at_ l i = Some a -> heap_value (rep l k m) i = Ok a.
Proof. intros H. unfold heap_value, nget. by rewrite (rep_lookup _ _ _ _ _ H). Qed.

Lemma rep_nswap l k m i j a b : Heap.at_ l i = Some a -> Heap.at_ l j = Some b ->
  nswap (heap (rep l k m)) i j = Ok (heap (rep (Heap.swap l i j) k m)).
Proof.
  intros Hi Hj. pose proof (Heap.at_some _ _ _ Hi). pose proof (Heap.at_some _ _ _ Hj).
  unfold nswap. rewrite (rep_lookup _ _ _ _ _ Hi), (rep_lookup _ _ _ _ _ Hj).
  rewrite rep_insert by done. rewrite rep_insert by (rewrite length_insert; lia).
  unfold Heap.swap. by rewrite Hi, Hj.
Qed.

Lemma rep_set_heap l l' k m : length l' = length l ->
  set_heap (heap (rep l' k m)) (rep l k m) = (Ok tt, rep l' k m).
Proof. intros H. unfold set_heap, rep. cbn [size max_size heap]. by rewrite H. Qed.

(** A free slot takes an element. *)
Lemma rep_append l k m a :
  <[length l + 1 := Some a]> (heap (rep l (S k) m)) = heap (rep (l ++ [a]) k m).
Proof.
  cbn [rep heap]. replace (length l + 1) with (S (length l)) by lia. rewrite insert_cons_S.
  rewrite insert_app_r_alt by (rewrite length_fmap; lia). rewrite length_fmap, Nat.sub_diag.
  cbn. by rewrite fmap_app, <- app_assoc.
Qed.

Lemma rep_length l k m : length (heap (rep l k m)) = 1 + length l + k.
Proof. cbn. rewrite length_app, length_fmap, length_replicate. done. Qed.

(** The last element's slot becomes free. *)
Lemma rep_drop_last l k m a :
  <[length l + 1 := None]> (heap (rep (l ++ [a]) k m)) = heap (rep l (S k) m).
Proof.
  cbn [rep heap]. replace (length l + 1) with (S (length l)) by lia. rewrite insert_cons_S.
  rewrite fmap_app, <- app_assoc. rewrite insert_app_r_alt by (rewrite length_fmap; lia).
  rewrite length_fmap, Nat.sub_diag. done.
Qed.
End Representation.

Section Sifting.
Context {T : Type} (less_than : T -> T -> result bool) (lt : T -> T -> bool).
Hypothesis less_than_ok : forall a b, less_than a b = Ok (lt a b).

Lemma choose_child_rep (l : list T) k m i c : (1 <= i) -> (i * 2 <= length l) ->
  Heap.at_ l (Heap.child lt l i) = Some c ->
  choose_child less_than (rep l k m) i = Ok (c, Heap.child lt l i).
Proof.
  intros Hi H2 Hc. unfold choose_child. set (hp := heap (rep l k m)). cbn [size rep].
  destruct (Heap.at_is_some l (2 * i)) as [cl Hcl]; [lia|].
  assert (nget (drop (i * 2) hp) 0 = Ok (Some cl)) as ->.
  { unfold nget. rewrite lookup_drop, Nat.add_0_r. replace (i * 2) with (2 * i) by lia.
    unfold hp. by rewrite (rep_lookup _ _ _ _ _ Hcl). }
  destruct (Nat.leb_spec (i * 2 + 1) (length l)) as [Hk|Hk].
  - destruct (Heap.at_is_some l (2 * i + 1)) as [cr Hcr]; [lia|].
    assert (nget (drop (i * 2) hp) 1 = Ok (Some cr)) as ->.
    { unfold nget. rewrite lookup_drop. replace (i * 2 + 1) with (2 * i + 1) by lia.
      unfold hp. by rewrite (rep_lookup _ _ _ _ _ Hcr). }
    cbn [rbind should_exist]. rewrite less_than_ok. cbn [rbind].
    unfold Heap.child in *. rewrite Hcl, Hcr in *. destruct (lt cr cl);
      (assert (Heq : i * 2 = 2 * i) by lia; rewrite Heq; congruence).
  - cbn [rbind should_exist]. unfold Heap.child in *. rewrite Hcl in *.
    destruct (Heap.at_ l (2 * i + 1)) as [cr|] eqn:Hcr; [apply Heap.at_some in Hcr; lia|].
    assert (Heq : i * 2 = 2 * i) by lia. rewrite Heq. congruence.
Qed.

(** [down_heap] computes [sift_down], with enough iterations allowed. *)
Lemma down_heap_loop_rep fuel : forall (l : list T) k m i, 1 <= i -> length l < i + fuel ->
  1 <= fuel ->
  down_heap_loop less_than fuel i (rep l k m) = (Ok tt, rep (Heap.sift_down lt fuel l i) k m).
Proof.
  induction fuel as [|fuel IH]; intros l k m i Hi Hf H1; [lia|].
  cbn [down_heap_loop Heap.sift_down]. erewrite sbind_ok by done. cbn [size rep]. fold (rep l k m).
  destruct (Nat.leb_spec (i * 2) (length l)) as [H2|H2].
  - destruct (Heap.at_is_some l i) as [node Hn]; [lia|].
    pose proof (Heap.child_cases lt l i Hi) as Hch.
    assert (exists c, Heap.at_ l (Heap.child lt l i) = Some c) as [c Hc].
    { unfold Heap.child. destruct (Heap.at_is_some l (2 * i)) as [cl Hcl]; [lia|]. rewrite Hcl.
      destruct (Heap.at_ l (2 * i + 1)) as [cr|] eqn:Hcr; [destruct (lt cr cl)|]; eauto. }
    rewrite Hn, Hc. erewrite sbind_ok by (unfold slift; by rewrite (choose_child_rep _ _ _ _ _ Hi H2 Hc)).
    cbn beta match. erewrite sbind_ok.
    2: { unfold slift, nget. rewrite lookup_take_lt by lia. by rewrite (rep_lookup _ _ _ _ _ Hn). }
    erewrite sbind_ok by (unfold slift; by rewrite less_than_ok).
    destruct (lt c node); [|done]. cbn [negb].
    erewrite sbind_ok by (unfold slift; by rewrite (rep_nswap _ _ _ _ _ _ _ Hn Hc)).
    erewrite sbind_ok by (apply rep_set_heap, Heap.swap_length).
    apply IH; rewrite ?Heap.swap_length; lia.
  - assert (Heap.at_ l (Heap.child lt l i) = None) as ->.
    { destruct (Heap.at_ l (Heap.child lt l i)) as [c|] eqn:Hc; [|done].
      pose proof (Heap.child_cases lt l i Hi). apply Heap.at_some in Hc. lia. }
    by destruct (Heap.at_ l i).
Qed.

Lemma down_heap_rep (l : list T) k m i : 1 <= i ->
  down_heap less_than i (rep l k m) = (Ok tt, rep (Heap.sift_down lt (S (length l)) l i) k m).
Proof.
  intros Hi. unfold down_heap. erewrite sbind_ok by done. cbn [size rep].
  fold (rep l k m). apply down_heap_loop_rep; lia.
Qed.

(** [up_heap] computes [sift_up] and tells whether the element moved. *)
Lemma up_heap_loop_rep fuel orig : forall (l : list T) k m i, 1 <= i <= length l -> i < fuel ->
  up_heap_loop less_than fuel i orig (rep l k m)
  = (Ok (negb ((Heap.sift_up lt fuel l i).2 =? orig)), rep (Heap.sift_up lt fuel l i).1 k m).
Proof.
  induction fuel as [|fuel IH]; intros l k m i Hi Hf; [lia|].
  cbn [up_heap_loop Heap.sift_up]. destruct (Heap.at_is_some l i) as [v Hv]; [lia|]. rewrite Hv.
  destruct (Nat.ltb_spec 0 (i / 2)) as [Hj|Hj].
  - assert (2 <= i) by (destruct i as [|[|i]]; simpl in Hj; lia).
    pose proof (Heap.half_lt i ltac:(lia)).
    destruct (Heap.at_is_some l (i / 2)) as [p Hp]; [lia|]. rewrite Hp.
    erewrite sbind_ok by done.
    erewrite sbind_ok by (unfold slift; by rewrite (rep_heap_value _ _ _ _ _ Hv)).
    erewrite sbind_ok by (unfold slift; by rewrite (rep_heap_value _ _ _ _ _ Hp)).
    erewrite sbind_ok by (unfold slift; by rewrite less_than_ok).
    destruct (lt v p); [|done].
    erewrite sbind_ok by (unfold slift; by rewrite (rep_nswap _ _ _ _ _ _ _ Hv Hp)).
    erewrite sbind_ok by (apply rep_set_heap, Heap.swap_length).
    apply IH; rewrite ?Heap.swap_length; lia.
  - assert (i / 2 = 0) as -> by lia. done.
Qed.

Lemma up_heap_rep (l : list T) k m i : 1 <= i <= length l ->
  up_heap less_than i (rep l k m)
  = (Ok (negb ((Heap.sift_up lt (S i) l i).2 =? i)), rep (Heap.sift_up lt (S i) l i).1 k m).
Proof. intros Hi. apply up_heap_loop_rep; lia. Qed.

Lemma down_heaps_rep n : forall (l : list T) k m,
  down_heaps less_than n (rep l k m) = (Ok tt, rep (Heap.heapify lt (S (length l)) n l) k m).
Proof.
  induction n as [|n IH]; intros l k m; [done|]. cbn [down_heaps Heap.heapify].
  erewrite sbind_ok by (apply down_heap_rep; lia). rewrite IH.
  by rewrite (Permutation_length (Heap.sift_down_perm lt (S (length l)) l (S n))).
Qed.
End Sifting.
Section Updates.
Context {T : Type} (less_than : T -> T -> result bool) (lt : T -> T -> bool) {SW : StrictWeak lt}.
Hypothesis less_than_ok : forall a b, less_than a b = Ok (lt a b).
Implicit Types l : list T.

Lemma perm_nonempty l l' : l' ≡ₚ l -> l <> [] -> l' <> [].
Proof. intros H Hl ->. by apply Permutation_nil in H. Qed.

Lemma add_rep l k m e : Heap.ordered lt l ->
  exists a l', add less_than e (rep l (S k) m) = (Ok a, rep l' k m)
    /\ Heap.ordered lt l' /\ l' ≡ₚ e :: l /\ Heap.at_ l' 1 = Some a.
Proof.
  intros Ho. set (l' := (Heap.sift_up lt (S (length l + 1)) (l ++ [e]) (length l + 1)).1).
  assert (Hp : l' ≡ₚ e :: l) by (unfold l'; rewrite Heap.sift_up_perm; apply Permutation_app_comm).
  destruct (Heap.at_top_exists l') as [a Ha]; [by apply (perm_nonempty (e :: l))|].
  exists a, l'. split_and!; [|apply Heap.sift_up_ordered; [done|lia|by apply Heap.push_pre]|done|done].
  unfold add. erewrite sbind_ok by done. change (size (rep l (S k) m)) with (length l).
  rewrite rep_length. destruct (Nat.leb_spec (1 + length l + S k) (length l + 1)); [lia|].
  erewrite sbind_ok.
  2: { unfold slift, nset. rewrite rep_length. destruct (Nat.ltb_spec (length l + 1) (1 + length l + S k)); [|lia].
       by rewrite rep_append. }
  erewrite sbind_ok by done. erewrite sbind_ok by done.
  assert (Hst : mk (length l + 1) m (heap (rep (l ++ [e]) k m)) = rep (l ++ [e]) k m).
  { unfold rep. cbn [heap]. by rewrite length_app. }
  cbn [size max_size heap rep] in Hst |- *. erewrite sbind_ok.
  2: { rewrite Hst. apply (up_heap_rep _ lt); [done|]. rewrite length_app. simpl. lia. }
  fold l'. erewrite sbind_ok by done. unfold slift. by rewrite (rep_heap_value _ _ _ _ _ Ha).
Qed.

(** The root took another element and moves down. *)
Lemma update_top_rep l k m : Heap.down_pre lt 1 l 1 -> l <> [] ->
  exists a l', update_top less_than (rep l k m) = (Ok a, rep l' k m)
    /\ Heap.ordered lt l' /\ l' ≡ₚ l /\ Heap.at_ l' 1 = Some a.
Proof.
  intros Hpre Hl. set (l' := Heap.sift_down lt (S (length l)) l 1).
  assert (Hp : l' ≡ₚ l) by apply Heap.sift_down_perm.
  destruct (Heap.at_top_exists l') as [a Ha]; [by apply (perm_nonempty l)|].
  exists a, l'. split_and!; [|apply Heap.sift_down_ordered; [done|lia|lia|done]|done|done].
  unfold update_top. erewrite sbind_ok by (apply (down_heap_rep _ lt); [done|lia]).
  fold l'. erewrite sbind_ok by done. unfold slift. by rewrite (rep_heap_value _ _ _ _ _ Ha).
Qed.

Lemma update_top_with_rep l k m a e : Heap.ordered lt (a :: l) ->
  exists b l', update_top_with_new_top less_than e (rep (a :: l) k m) = (Ok b, rep l' k m)
    /\ Heap.ordered lt l' /\ l' ≡ₚ e :: l /\ Heap.at_ l' 1 = Some b.
Proof.
  intros Ho. destruct (update_top_rep (e :: l) k m) as (b & l' & Hu & Hrest); [by eapply Heap.new_root_pre|done|].
  exists b, l'. split; [|done]. exact Hu.
Qed.

(** [swap(i, size)], [heap[size].take()], [size -= 1]. *)
Lemma nswap_last_rep l z k m i y : Heap.at_ (l ++ [z]) i = Some y ->
  nswap (heap (rep (l ++ [z]) k m)) i (length l + 1)
  = Ok (heap (rep (<[i - 1 := z]> l ++ [y]) k m)).
Proof.
  intros Hy. rewrite (rep_nswap (l ++ [z]) k m i (length l + 1) y z); [by rewrite (Heap.swap_last l z i y Hy)|done|].
  rewrite Heap.at_pos by lia. rewrite lookup_app_r by lia.
  by replace (length l + 1 - 1 - length l) with 0 by lia.
Qed.

Lemma nset_last_rep l k m y i : i = length l + 1 ->
  nset (heap (rep (l ++ [y]) k m)) i None = Ok (heap (rep l (S k) m)).
Proof.
  intros ->. unfold nset. rewrite rep_length, length_app. change (length [y]) with 1.
  destruct (Nat.ltb_spec (length l + 1) (1 + (length l + 1) + k)); [|lia]. by rewrite rep_drop_last.
Qed.

Lemma pop_unchecked_rep l k m a : Heap.ordered lt l -> Heap.at_ l 1 = Some a ->
  exists l', pop_unchecked less_than (rep l k m) = (Ok a, rep l' (S k) m)
    /\ Heap.ordered lt l' /\ l ≡ₚ a :: l'.
Proof.
  intros Ho Ha. destruct (decide (l = [])) as [->|Hl]; [done|].
  destruct (exists_last Hl) as (l0 & z & ->). set (l1 := <[1 - 1 := z]> l0).
  assert (length l1 = length l0) as Hl1 by apply length_insert.
  exists (Heap.sift_down lt (S (length l1)) l1 1). split_and!.
  - unfold pop_unchecked. erewrite sbind_ok by done.
    change (size (rep (l0 ++ [z]) k m)) with (length (l0 ++ [z])). rewrite length_app.
    change (length [z]) with 1.
    erewrite sbind_ok.
    2: { unfold slift, debug_assert. by destruct (Nat.ltb_spec 0 (length l0 + 1)); [|lia]. }
    erewrite sbind_ok by (unfold slift; by rewrite (nswap_last_rep _ _ _ _ _ _ Ha)).
    fold l1. erewrite sbind_ok by done.
    assert (Hlast : Heap.at_ (l1 ++ [a]) (length l0 + 1) = Some a).
    { rewrite Heap.at_pos by lia. rewrite lookup_app_r by lia.
      by replace (length l0 + 1 - 1 - length l1) with 0 by lia. }
    erewrite sbind_ok by (unfold slift, nget; by rewrite (rep_lookup _ _ _ _ _ Hlast)).
    erewrite sbind_ok by (unfold slift; by rewrite (nset_last_rep l1) by lia).
    erewrite sbind_ok by done. erewrite sbind_ok by done. erewrite sbind_ok by done.
    cbn [size max_size heap]. replace (length l0 + 1 - 1) with (length l1) by lia.
    change (mk (length l1) m _) with (rep l1 (S k) m).
    by erewrite sbind_ok by (apply (down_heap_rep _ lt); [done|lia]).
  - apply Heap.sift_down_ordered; [done|lia|lia|].
    apply (Heap.replaced_down lt 1 (l0 ++ [z]) l1 1 a); [done| |done|].
    + apply Heap.replaced_last. lia.
    + intros p v H. cbn in H. lia.
  - rewrite Heap.sift_down_perm. by apply Heap.remove_last_perm.
Qed.

Lemma append_all_rep es : forall l k m, length es <= k ->
  append_all es (rep l k m) = (Ok tt, rep (l ++ es) (k - length es) m).
Proof.
  induction es as [|e es IH]; intros l k m Hk; cbn [append_all length].
  { by rewrite app_nil_r, Nat.sub_0_r. }
  simpl in Hk. destruct k as [|k]; [lia|]. erewrite sbind_ok by done.
  change (size (rep l (S k) m)) with (length l). erewrite sbind_ok.
  2: { unfold slift, nset. rewrite rep_length.
       destruct (Nat.ltb_spec (length l + 1) (1 + length l + S k)); [|lia]. by rewrite rep_append. }
  erewrite sbind_ok by done. erewrite sbind_ok by done. cbn [size max_size heap].
  assert (mk (length l + 1) m (None :: (Some <$> l ++ [e]) ++ replicate k None) = rep (l ++ [e]) k m) as Hst.
  { unfold rep. by rewrite length_app. }
  cbn [rep heap max_size]. rewrite Hst, IH by lia. by rewrite <- app_assoc.
Qed.

Lemma add_all_rep l k m es : length es <= k -> length l + length es <= m ->
  exists l', add_all less_than es (rep l k m) = (Ok tt, rep l' (k - length es) m)
    /\ Heap.ordered lt l' /\ l' ≡ₚ l ++ es.
Proof.
  intros Hk Hm. set (n := length (l ++ es)). exists (Heap.heapify lt (S n) (n / 2) (l ++ es)). split_and!.
  - unfold add_all, add_all_exact. erewrite sbind_ok by done. cbn [size max_size rep]. fold (rep l k m).
    destruct (Nat.ltb_spec m (length l + length es)); [lia|].
    erewrite sbind_ok by by apply append_all_rep.
    erewrite sbind_ok by done. cbn [size rep]. fold n. by apply down_heaps_rep.
  - apply Heap.heapify_ordered; [done|unfold n; lia|]. apply Heap.ordered_from_leaves.
  - apply Heap.heapify_perm.
Qed.
End Updates.
(** ** Sifting with a comparator that fails *)

(** What a method does to the state, whatever its outcome. *)
Definition leaves {S A : Type} (R : S -> S -> Prop) (m : ST S A) : Prop := forall s, R s (m s).2.

Lemma leaves_bind {S A B : Type} (R : S -> S -> Prop) (m : ST S A) (k : A -> ST S B) :
  Transitive R -> leaves R m -> (forall a s s', m s = (Ok a, s') -> R s' (k a s').2) -> leaves R (sbind m k).
Proof.
  intros HT Hm Hk s. unfold sbind. pose proof (Hm s) as H. destruct (m s) as [[] s'] eqn:E; try done.
  etrans; [exact H|]. by apply (Hk _ s).
Qed.

Definition same_elements {T : Type} (q q' : t T) : Prop :=
  size q' = size q /\ max_size q' = max_size q /\ heap q' ≡ₚ heap q.

#[export] Instance same_elements_preorder {T} : PreOrder (@same_elements T).
Proof.
  split; [done|]. intros q1 q2 q3 (?&?&?) (?&?&?). split_and!; [congruence|congruence|by etrans].
Qed.

Lemma nswap_perm {A} (v v' : list A) i j : nswap v i j = Ok v' -> v' ≡ₚ v.
Proof.
  unfold nswap. destruct (v !! i) eqn:Hi; [|done]. destruct (v !! j) eqn:Hj; [|done].
  intros [= <-]. by apply Permutation_insert_swap.
Qed.

Section AnyComparator.
Context {T : Type} (less_than : T -> T -> result bool).

Lemma swapped_same (q : t T) h i j : nswap (heap q) i j = Ok h ->
  same_elements q (mk (size q) (max_size q) h).
Proof. intros H%nswap_perm. done. Qed.

Lemma down_heap_loop_same fuel : forall i, leaves same_elements (down_heap_loop less_than fuel i).
Proof.
  induction fuel as [|fuel IH]; intros i q; [done|]. cbn [down_heap_loop].
  erewrite sbind_ok by done. destruct (_ <=? _); [|done].
  rewrite slift_sbind. destruct (choose_child _ _ _) as [[c j]|e| |]; try done.
  rewrite slift_sbind. destruct (rbind _ _) as [node|e| |]; try done.
  rewrite slift_sbind. destruct (less_than c node) as [[]|e| |]; try done. cbn [negb].
  rewrite slift_sbind. destruct (nswap _ _ _) as [h|e| |] eqn:Hs; try done.
  erewrite sbind_ok by done. etrans; [by eapply swapped_same|apply IH].
Qed.

Lemma up_heap_loop_same fuel orig : forall i, leaves same_elements (up_heap_loop less_than fuel i orig).
Proof.
  induction fuel as [|fuel IH]; intros i q; [done|]. cbn [up_heap_loop].
  destruct (0 <? i / 2); [|done]. erewrite sbind_ok by done.
  rewrite slift_sbind. destruct (heap_value q i) as [a|e| |]; try done.
  rewrite slift_sbind. destruct (heap_value q (i / 2)) as [b|e| |]; try done.
  rewrite slift_sbind. destruct (less_than a b) as [[]|e| |]; try done.
  rewrite slift_sbind. destruct (nswap _ _ _) as [h|e| |] eqn:Hs; try done.
  erewrite sbind_ok by done. etrans; [by eapply swapped_same|apply IH].
Qed.

(** C35: Sifting never loses or duplicates an element: whatever the comparator does, also
    when it fails halfway, [up_heap] and [down_heap] leave a permutation of the slots and
    the size and capacity as they were. *)
Theorem sifting_keeps_elements i (q : t T) :
  same_elements q (up_heap less_than i q).2 /\ same_elements q (down_heap less_than i q).2.
Proof.
  split; [apply up_heap_loop_same|]. unfold down_heap. erewrite sbind_ok by done.
  apply down_heap_loop_same.
Qed.
End AnyComparator.

(** ** The queue's promises *)

Section Correctness.
Context {T : Type} (less_than : T -> T -> result bool) (eqb : T -> T -> bool).
Context (lt : T -> T -> bool) {SW : StrictWeak lt}.
Hypothesis less_than_ok : forall a b, less_than a b = Ok (lt a b).
Implicit Types l : list T.

Lemma holds_rep l k m : Heap.ordered lt l -> 1 + length l + k = heap_size m -> holds lt (rep l k m) l.
Proof. intros. by exists k. Qed.

Lemma holds_length q l : holds lt q l -> length (heap q) = heap_size (max_size q) /\ size q = length l.
Proof. intros (k & -> & _ & Hk). by rewrite rep_length. Qed.

Lemma add_holds q l e : holds lt q l -> length l + 1 < heap_size (max_size q) ->
  exists a q' l', add less_than e q = (Ok a, q') /\ holds lt q' l' /\ max_size q' = max_size q
    /\ l' ≡ₚ e :: l /\ Heap.least lt a l' /\ top q' = Ok (Some a).
Proof.
  intros (k & Hq & Ho & Hk) Hc. set (m := max_size q) in *. clearbody m. subst q.
  destruct k as [|k]; [lia|].
  destruct (add_rep less_than lt less_than_ok l k m e Ho) as (a & l' & Hadd & Ho' & Hp & Ha).
  exists a, (rep l' k m), l'. split_and!; auto.
  - apply holds_rep; [done|]. rewrite (Permutation_length Hp). simpl. lia.
  - by apply Heap.ordered_least.
  - unfold top, nget. by rewrite (rep_lookup _ _ _ _ _ Ha).
Qed.

(** [add] on a queue with a free slot stores the element and returns the new least
    element; on a full queue it fails with [ArrayIndexOutOfBounds] and changes nothing. *)
Theorem add_correct q l e : holds lt q l ->
  (length l + 1 < heap_size (max_size q) ->
     exists a q' l', add less_than e q = (Ok a, q') /\ holds lt q' l' /\ max_size q' = max_size q
       /\ l' ≡ₚ e :: l /\ Heap.least lt a l' /\ top q' = Ok (Some a)) /\
  (heap_size (max_size q) <= length l + 1 -> add less_than e q = (Err ArrayIndexOutOfBounds, q)).
Proof.
  intros H. split; intros Hc; [by apply add_holds|].
  destruct (holds_length q l H) as [Hl Hs]. unfold add. erewrite sbind_ok by done.
  rewrite Hl, Hs. by destruct (Nat.leb_spec (heap_size (max_size q)) (length l + 1)); [|lia].
Qed.

Lemma pop_holds q l : holds lt q l ->
  (l = [] /\ pop less_than q = (Ok None, q)) \/
  (exists a q' l', pop less_than q = (Ok (Some a), q') /\ holds lt q' l' /\ max_size q' = max_size q
     /\ l ≡ₚ a :: l' /\ Heap.least lt a l).
Proof.
  intros (k & Hq & Ho & Hk). set (m := max_size q) in *. clearbody m. subst q.
  destruct (decide (l = [])) as [->|Hl]; [left; done|right].
  destruct (Heap.at_top_exists l Hl) as [a Ha].
  destruct (pop_unchecked_rep less_than lt less_than_ok l k m a Ho Ha) as (l' & Hpop & Ho' & Hp).
  exists a, (rep l' (S k) m), l'. split_and!; auto.
  - unfold pop. erewrite sbind_ok by done. cbn [size rep]. fold (rep l k m).
    destruct (Nat.ltb_spec 0 (length l)); [|destruct l; simpl in *; [done|lia]].
    by erewrite sbind_ok.
  - apply holds_rep; [done|]. apply Permutation_length in Hp. simpl in Hp. lia.
  - by apply Heap.ordered_least.
Qed.

(** C22: Popping a queue until it is empty returns exactly its elements, in ascending order,
    and one more [pop] returns [None] and changes nothing. *)
Theorem pop_all_sorts q l : holds lt q l ->
  exists out q', pop_all less_than (length l) q = (Ok (Some <$> out), q') /\ holds lt q' []
    /\ out ≡ₚ l /\ StronglySorted (Heap.le lt) out /\ pop less_than q' = (Ok None, q').
Proof.
  remember (length l) as n eqn:Hn. revert q l Hn. induction n as [|n IH]; intros q l Hn Hq.
  - destruct l; [|done]. exists [], q. split_and!; try done; [constructor|].
    destruct (pop_holds q [] Hq) as [[_ ?]|(a & q' & l' & _ & _ & _ & Hp & _)]; [done|].
    by apply Permutation_nil_cons in Hp.
  - destruct (pop_holds q l Hq) as [[-> _]|(a & q1 & l1 & Hpop & Hq1 & _ & Hp & Hmin)]; [done|].
    destruct (IH q1 l1) as (out & q' & Hall & Hq' & Hout & Hs & Hend); [|done|].
    { apply Permutation_length in Hp. simpl in Hp. lia. }
    exists (a :: out), q'. split_and!; auto; [|by rewrite Hp, Hout|by eapply Heap.least_sorted_cons].
    cbn [pop_all]. erewrite sbind_ok by exact Hpop. by erewrite sbind_ok by exact Hall.
Qed.

Lemma insert_with_overflow_holds q l e : holds lt q l ->
  exists o q' l', insert_with_overflow less_than e q = (Ok o, q') /\ holds lt q' l'
    /\ max_size q' = max_size q
    /\ match o with
       | None => length l < max_size q /\ l' ≡ₚ e :: l
       | Some r => max_size q <= length l /\ r :: l' ≡ₚ e :: l /\ Forall (Heap.le lt r) l'
       end.
Proof.
  intros Hq. destruct (holds_length q l Hq) as [Hlen Hsize].
  unfold insert_with_overflow. erewrite sbind_ok by done. rewrite Hsize.
  destruct (Nat.ltb_spec (length l) (max_size q)) as [Hlt|Hge].
  { destruct (add_holds q l e Hq) as (a & q' & l' & Hadd & Hq' & Hm & Hp & _).
    - unfold heap_size. destruct (Nat.eqb_spec (max_size q) 0); lia.
    - exists None, q', l'. erewrite sbind_ok by exact Hadd. done. }
  destruct l as [|a l]; [by exists (Some e), q, []|].
  cbn [length]. change (0 <? S (length l)) with true. cbn match.
  destruct Hq as (k & Hq & Ho & Hk). set (m := max_size q) in *. clearbody m. subst q.
  rewrite slift_sbind. cbn [nget heap rep lookup list_lookup fmap list_fmap app]. fold (rep (a :: l) k m).
  rewrite slift_sbind, less_than_ok. destruct (lt a e) eqn:Hae.
  - destruct (update_top_with_rep less_than lt less_than_ok l k m a e Ho) as (b & l' & Hu & Ho' & Hp & _).
    exists (Some a), (rep l' k m), l'. split_and!; auto.
    + unfold update_top_with_new_top in Hu. rewrite slift_sbind. erewrite sbind_ok in Hu by done.
      rewrite slift_sbind in Hu. destruct (nset _ 1 (Some e)) as [h|?| |]; try done.
      cbn beta match in Hu |- *. erewrite sbind_ok in Hu by done. erewrite sbind_ok by done. by erewrite sbind_ok by exact Hu.
    + apply holds_rep; [done|]. rewrite (Permutation_length Hp). done.
    + rewrite Hp. apply perm_swap.
    + rewrite Hp. pose proof (Heap.ordered_min lt (a :: l) a Ho eq_refl) as Hmin.
      inversion Hmin; subst. constructor; [by apply Heap.lt_le|done].
  - exists (Some e), (rep (a :: l) k m), (a :: l). split_and!; auto; [by apply holds_rep|].
    eapply Forall_impl; [apply (Heap.ordered_min lt (a :: l) a Ho eq_refl)|].
    intros y Hy. by apply (Heap.le_tr lt) with a.
Qed.
Lemma insert_all_holds xs : forall q l D, holds lt q l -> Heap.best lt (max_size q) l D ->
  exists outs q' l', insert_all less_than xs q = (Ok outs, q') /\ holds lt q' l' /\ max_size q' = max_size q
    /\ Heap.best lt (max_size q) l' (D ++ omap id outs) /\ l' ++ D ++ omap id outs ≡ₚ xs ++ l ++ D.
Proof.
  induction xs as [|x xs IH]; intros q l D Hq HD; cbn [insert_all].
  { exists [], q, l. cbn. by rewrite app_nil_r. }
  destruct (insert_with_overflow_holds q l x Hq) as (o & q1 & l1 & Hins & Hq1 & Hm1 & Ho).
  destruct (Heap.best_insert lt _ _ _ _ _ _ HD Ho) as [HD1 Hp1]. rewrite <- Hm1 in HD1.
  destruct (IH q1 l1 (D ++ option_list o) Hq1 HD1) as (outs & q' & l' & Hall & Hq' & Hm' & HD' & Hp').
  assert (Heq : D ++ omap id (o :: outs) = (D ++ option_list o) ++ omap id outs).
  { rewrite <- app_assoc. by destruct o. }
  exists (o :: outs), q', l'. rewrite Heq. split_and!; [|done|by rewrite Hm'|by rewrite <- Hm1|].
  - erewrite sbind_ok by exact Hins. by erewrite sbind_ok by exact Hall.
  - rewrite Hp', Hp1. symmetry. apply (Permutation_middle xs (l ++ D) x).
Qed.

Lemma new_holds m : (Z.of_nat m < i32_MAX)%Z -> exists q, new m = Ok q /\ holds lt q [] /\ max_size q = m.
Proof.
  intros Hm. unfold new, with_sentinel_object.
  assert (negb (m =? 0) && negb (Z.of_nat m <? i32_MAX)%Z = false) as ->.
  { apply Z.ltb_lt in Hm. by rewrite Hm, andb_false_r. }
  exists (mk 0 m (replicate (heap_size m) None)). split_and!; try done.
  exists (heap_size m - 1). unfold heap_size. split_and!; [|apply Heap.ordered_nil|].
  - unfold rep. cbn. by destruct (Nat.eqb_spec m 0); [|rewrite Nat.add_comm; cbn; rewrite Nat.sub_0_r].
  - cbn. destruct (Nat.eqb_spec m 0); lia.
Qed.

(** C17: Collecting any sequence of elements with [insert_with_overflow] into a new queue of
    capacity [m] keeps the [m] largest of them: what was returned as dropped is no greater
    than anything kept, kept and dropped together are the input, and the queue holds
    [min m n] elements. *)
Theorem collect_keeps_largest m xs : (Z.of_nat m < i32_MAX)%Z ->
  exists q0 outs q' kept, new m = Ok q0 /\ insert_all less_than xs q0 = (Ok outs, q')
    /\ holds lt q' kept /\ kept ++ omap id outs ≡ₚ xs
    /\ (forall d y, d ∈ omap id outs -> y ∈ kept -> Heap.le lt d y)
    /\ length kept = Nat.min m (length xs).
Proof.
  intros Hm. destruct (new_holds m Hm) as (q0 & Hnew & Hq0 & Hmq).
  destruct (insert_all_holds xs q0 [] [] Hq0) as (outs & q' & kept & Hall & Hq' & Hm' & (HD & Hroom & Hle) & Hp).
  { split_and!; [intros d y Hd; by apply elem_of_nil in Hd|done|simpl; lia]. }
  rewrite !app_nil_r in *. cbn in HD, Hroom, Hp. rewrite Hmq in *.
  exists q0, outs, q', kept. split_and!; auto.
  apply Permutation_length in Hp. rewrite length_app in Hp.
  destruct (decide (length kept < m)) as [Hlt|]; [rewrite (Hroom Hlt) in Hp; simpl in Hp|]; lia.
Qed.
(** [add_all] takes as many elements as there is room for under [max_size] and leaves
    their heap; more elements are refused with [ArrayIndexOutOfBounds] and nothing changes. *)
Theorem add_all_correct q l es : holds lt q l -> length l <= max_size q ->
  if length l + length es <=? max_size q then
    exists q' l', add_all less_than es q = (Ok tt, q') /\ holds lt q' l' /\ max_size q' = max_size q
      /\ l' ≡ₚ l ++ es
  else add_all less_than es q = (Err ArrayIndexOutOfBounds, q).
Proof.
  intros Hq Hle. destruct (holds_length q l Hq) as [_ Hs].
  destruct (Nat.leb_spec (length l + length es) (max_size q)) as [Hroom|Hover].
  - destruct Hq as (k & Hq & Ho & Hk). set (m := max_size q) in *. clearbody m. subst q.
    assert (Hkm : length es <= k) by (unfold heap_size in Hk; destruct (Nat.eqb_spec m 0); lia).
    destruct (add_all_rep less_than lt less_than_ok l k m es Hkm Hroom) as (l' & Hadd & Ho' & Hp).
    exists (rep l' (k - length es) m), l'. split_and!; auto.
    apply holds_rep; [done|]. rewrite (Permutation_length Hp), length_app. lia.
  - unfold add_all, add_all_exact. erewrite sbind_ok by done. rewrite Hs.
    destruct (Nat.ltb_spec (max_size q) (length l + length es)); [|lia].
    by destruct (Nat.ltb_spec (max_size q) (length l)); [lia|].
Qed.

(** Replacing the top of a non-empty queue removes exactly the least element, stores the
    new one, restores the order and returns the new least element. *)
Theorem update_top_correct q l a e : holds lt q l -> top q = Ok (Some a) ->
  exists b q' l' rest, update_top_with_new_top less_than e q = (Ok b, q') /\ holds lt q' l'
    /\ max_size q' = max_size q /\ l = a :: rest /\ l' ≡ₚ e :: rest
    /\ Heap.least lt a l /\ Heap.least lt b l'.
Proof.
  intros (k & Hq & Ho & Hk) Htop. set (m := max_size q) in *. clearbody m. subst q.
  destruct l as [|a' l]; [by destruct k|]. assert (a' = a) as -> by (cbn in Htop; congruence).
  destruct (update_top_with_rep less_than lt less_than_ok l k m a e Ho) as (b & l' & Hu & Ho' & Hp & Hb).
  exists b, (rep l' k m), l', l. split_and!; auto using Heap.ordered_least.
  apply holds_rep; [done|]. rewrite (Permutation_length Hp). done.
Qed.

Lemma find_index_rep l k m e n : forall idx, 1 <= idx -> idx + n = length l + 1 ->
  exists o, find_index eqb e n idx (heap (rep l k m)) = Ok o /\
    match o with
    | Some i => exists y, Heap.at_ l i = Some y /\ eqb y e = true
    | None => forall i y, idx <= i -> Heap.at_ l i = Some y -> eqb y e = false
    end.
Proof.
  induction n as [|n IH]; intros idx H1 Hn; cbn [find_index].
  { exists None. split; [done|]. intros i y Hi Hy. apply Heap.at_some in Hy. lia. }
  destruct (Heap.at_is_some l idx) as [y Hy]; [lia|]. unfold nget.
  rewrite (rep_lookup _ _ _ _ _ Hy). cbn [rbind]. destruct (eqb y e) eqn:He; [exists (Some idx); by eauto|].
  destruct (IH (S idx)) as (o & Ho & Hspec); [lia|lia|]. exists o. split; [done|].
  destruct o; [done|]. intros i z Hi Hz. destruct (decide (i = idx)) as [->|]; [congruence|].
  apply (Hspec i); [lia|done].
Qed.

(** The element at [i], found, is taken out. *)
Lemma remove_found l z k m i y e : Heap.ordered lt (l ++ [z]) -> Heap.at_ (l ++ [z]) i = Some y ->
  find_index eqb e (length l + 1) 1 (heap (rep (l ++ [z]) k m)) = Ok (Some i) ->
  exists l', remove less_than eqb e (rep (l ++ [z]) k m) = (Ok true, rep l' (S k) m)
    /\ Heap.ordered lt l' /\ l ++ [z] ≡ₚ y :: l'.
Proof.
  intros Ho Hy Hf. set (l1 := <[i - 1 := z]> l).
  assert (Hl1 : length l1 = length l) by apply length_insert.
  pose proof (Heap.at_some _ _ _ Hy) as Hi. rewrite length_app in Hi. simpl in Hi.
  assert (Hrem : remove less_than eqb e (rep (l ++ [z]) k m)
    = if i <=? length l then (Ok true, rep (Heap.resift lt l1 i) (S k) m) else (Ok true, rep l1 (S k) m)).
  { unfold remove. erewrite sbind_ok by done.
    change (size (rep (l ++ [z]) k m)) with (length (l ++ [z])). rewrite length_app.
    change (length [z]) with 1. rewrite slift_sbind, Hf, slift_sbind, (nswap_last_rep _ _ _ _ _ _ Hy).
    fold l1. rewrite slift_sbind, (nset_last_rep l1) by lia.
    erewrite sbind_ok by done. erewrite sbind_ok by done. cbn [size max_size heap].
    replace (length l + 1 - 1) with (length l1) by lia.
    change (mk (length l1) _ _) with (rep l1 (S k) m). rewrite Hl1. destruct (Nat.leb_spec i (length l)); [|done].
    erewrite sbind_ok by (apply (up_heap_rep _ lt); [done|lia]). rewrite negb_involutive.
    unfold Heap.resift. destruct (_ =? i); [|done].
    by erewrite sbind_ok by (apply (down_heap_rep _ lt); [done|lia]). }
  rewrite Hrem. pose proof (Heap.remove_last_perm _ _ _ _ Hy) as Hp. fold l1 in Hp.
  pose proof (Heap.replaced_last l z i ltac:(lia)) as Hrep. fold l1 in Hrep.
  destruct (Nat.leb_spec i (length l)).
  - exists (Heap.resift lt l1 i). split_and!; [done| |by rewrite Heap.resift_perm].
    apply (Heap.resift_ordered lt (l ++ [z]) l1 i y z); auto.
    rewrite Heap.at_pos by lia. unfold l1. apply list_lookup_insert_eq. lia.
  - exists l1. split_and!; [done| |done]. intros x a b Hx H2 Ha Hb.
    pose proof (Heap.at_some _ _ _ Ha). pose proof (Heap.at_some _ _ _ Hb).
    apply (Ho x); [done|done|apply Hrep; [lia|done]|apply Hrep; [lia|done]].
Qed.

(** [remove] takes out one element that equals the given one and keeps the heap, or
    returns [false] with the queue untouched when none does. *)
Theorem remove_correct q l e : holds lt q l ->
  if existsb (fun x => eqb x e) l then
    exists y q' l', remove less_than eqb e q = (Ok true, q') /\ holds lt q' l'
      /\ max_size q' = max_size q /\ eqb y e = true /\ l ≡ₚ y :: l'
  else remove less_than eqb e q = (Ok false, q).
Proof.
  intros (k & Hq & Ho & Hk). set (m := max_size q) in *. clearbody m. subst q.
  destruct (find_index_rep l k m e (length l) 1) as (o & Hf & Hspec); [lia|lia|].
  destruct (existsb _ l) eqn:Hex.
  - apply existsb_exists in Hex as (x & Hx%list_elem_of_In & Hxe).
    apply list_elem_of_lookup_1 in Hx as [i0 Hx].
    destruct o as [i|].
    2: { rewrite (Hspec (S i0) x) in Hxe; [done|lia|]. rewrite Heap.at_pos by lia.
         by replace (S i0 - 1) with i0 by lia. }
    destruct Hspec as (y & Hy & Hye). destruct (decide (l = [])) as [->|Hl]; [done|].
    destruct (exists_last Hl) as (l0 & z & ->). rewrite length_app in Hf, Hk. simpl in Hf, Hk.
    destruct (remove_found l0 z k m i y e Ho Hy Hf) as (l' & Hr & Ho' & Hp).
    exists y, (rep l' (S k) m), l'. split_and!; auto. apply holds_rep; [done|].
    apply Permutation_length in Hp. rewrite length_app in Hp. simpl in Hp. lia.
  - destruct o as [i|].
    { destruct Hspec as (y & Hy & Hye). exfalso. apply not_true_iff_false in Hex. apply Hex.
      apply existsb_exists. exists y. split; [|done]. pose proof (Heap.at_some _ _ _ Hy).
      rewrite Heap.at_pos in Hy by lia. apply list_elem_of_In. by eapply list_elem_of_lookup_2. }
    unfold remove. erewrite sbind_ok by done. change (size (rep l k m)) with (length l). by rewrite slift_sbind, Hf.
Qed.

(** ** Draining, clearing and iterating *)

Lemma rep_cleared l k m :
  take 1 (heap (rep l k m)) ++ replicate (length l) None ++ drop (length l + 1) (heap (rep l k m))
  = heap (rep (T := T) [] (length l + k) m).
Proof.
  cbn [rep heap]. rewrite (Nat.add_comm (length l) 1). cbn. f_equal.
  rewrite drop_app_length' by by rewrite length_fmap. by rewrite replicate_add.
Qed.

(** [clear] empties the queue; [take_heap_array] returns the elements in heap order and
    empties it; the borrowing iterator, called at index [i], returns the [i]-th of them and
    ends after the last one. *)
Theorem drain_correct q l : holds lt q l ->
  (exists q', clear q = (Ok tt, q') /\ holds lt q' [] /\ max_size q' = max_size q) /\
  (exists q', take_heap_array q = (Ok l, q') /\ holds lt q' [] /\ max_size q' = max_size q) /\
  (forall i, i <= length l -> PriorityQueueIterator_next q i
     = Ok (l !! i, if i <? length l then i + 1 else i)).
Proof.
  intros (k & Hq & Ho & Hk). set (m := max_size q) in *. clearbody m. subst q.
  assert (Hempty : holds lt (rep (T := T) [] (length l + k) m) []).
  { apply holds_rep; [apply Heap.ordered_nil|]. rewrite <- Hk. done. }
  assert (Hlt : (length l <? length (heap (rep l k m))) = true).
  { rewrite rep_length. apply Nat.ltb_lt. lia. }
  split_and!.
  - exists (rep [] (length l + k) m). split_and!; try done. unfold clear. erewrite sbind_ok by done.
    change (size (rep l k m)) with (length l). rewrite Hlt, rep_cleared. done.
  - unfold take_heap_array. erewrite sbind_ok by done. change (size (rep l k m)) with (length l).
    destruct (Nat.eqb_spec (length l) 0) as [->%nil_length_inv|].
    { exists (rep [] k m). done. }
    exists (rep [] (length l + k) m). split_and!; try done. rewrite Hlt, rep_cleared.
    erewrite sbind_ok by done. erewrite sbind_ok by done. unfold sret. f_equal. f_equal.
    change (drop 1 (heap (rep l k m))) with ((Some <$> l) ++ replicate k None). rewrite take_app_length' by by rewrite length_fmap.
    clear. induction l as [|a l IH]; [done|]. cbn. by f_equal.
  - intros i Hi. unfold PriorityQueueIterator_next. cbn [size iter_ref_next].
    change (size (rep l k m)) with (length l). destruct (Nat.ltb_spec i (length l)) as [Hil|].
    + destruct (lookup_lt_is_Some_2 l i Hil) as [a Ha].
      assert (Hat : Heap.at_ l (i + 1) = Some a).
      { rewrite Heap.at_pos by lia. by rewrite Nat.add_sub. }
      unfold nget. rewrite (rep_lookup _ _ _ _ _ Hat), Ha. done.
    + by rewrite lookup_ge_None_2 by lia.
Qed.

(** ** Construction *)

Lemma fill_sentinels_ok (f : nat -> T) n : forall l, 1 <= length l ->
  l = f <$> seq 0 (length l) ->
  fill_sentinels (fun i => Some (f i)) n (length l + 1) (heap (rep l n 0))
  = Ok (heap (rep (f <$> seq 0 (length l + n)) 0 0)).
Proof.
  induction n as [|n IH]; intros l H1 Hl; cbn [fill_sentinels].
  { rewrite Nat.add_0_r, <- Hl. done. }
  cbn [should_exist rbind]. rewrite Nat.add_sub. unfold nset. rewrite rep_length.
  destruct (Nat.ltb_spec (length l + 1) (1 + length l + S n)); [|lia]. cbn [rbind].
  rewrite rep_append. pose proof (IH (l ++ [f (length l)])) as IH'. rewrite length_app in IH'.
  change (length [f (length l)]) with 1 in IH'. rewrite <- Nat.add_1_r at 1. rewrite IH'.
  - by replace (length l + S n) with (length l + 1 + n) by lia.
  - lia.
  - rewrite Hl at 1. by rewrite seq_app, fmap_app.
Qed.

Lemma equal_ordered l : (forall a b, a ∈ l -> b ∈ l -> lt a b = false) -> Heap.ordered lt l.
Proof.
  intros H x a b _ _ Ha Hb. pose proof (Heap.at_some _ _ _ Ha). pose proof (Heap.at_some _ _ _ Hb).
  rewrite Heap.at_pos in Ha, Hb by lia. apply H; by eapply list_elem_of_lookup_2.
Qed.

(** [new] gives an empty queue for every capacity below [i32::MAX], and
    [IllegalArgument] from there on; a supplier of mutually unordered sentinels gives a
    queue full with them. *)
Theorem construction_correct m (f : nat -> T) :
  (forall i j, lt (f i) (f j) = false) ->
  ((Z.of_nat m < i32_MAX)%Z -> exists q, new m = Ok q /\ holds lt q [] /\ max_size q = m) /\
  ((i32_MAX <= Z.of_nat m)%Z -> new (T := T) m = Err IllegalArgument) /\
  ((0 < Z.of_nat m < i32_MAX)%Z -> exists q, with_sentinel_object m (fun i => Some (f i)) = Ok q
     /\ holds lt q (f <$> seq 0 m) /\ max_size q = m).
Proof.
  intros Hf. split_and!; [apply new_holds| |].
  - intros Hm. unfold new, with_sentinel_object.
    destruct (Nat.eqb_spec m 0); [unfold i32_MAX in Hm; lia|].
    by destruct (Z.ltb_spec (Z.of_nat m) i32_MAX); [lia|].
  - intros Hm. unfold with_sentinel_object, heap_size. destruct (Nat.eqb_spec m 0); [lia|].
    destruct (Z.ltb_spec (Z.of_nat m) i32_MAX); [|lia]. cbn [negb andb].
    exists (rep (f <$> seq 0 m) 0 m). split_and!; [|apply holds_rep|done].
    + unfold nset. rewrite length_replicate. destruct (Nat.ltb_spec 1 (m + 1)); [|lia]. cbn [rbind].
      rewrite length_insert, length_replicate. pose proof (fill_sentinels_ok f (m - 1) [f 0]) as Hfill.
      destruct m as [|m']; [lia|]. replace (S m' + 1 - 2) with (S m' - 1) by lia.
      replace (S m' + 1) with (S (S m')) by lia. cbn [rep heap length fmap list_fmap app] in Hfill.
      replace (S m' - 1) with m' in * by lia. change (1 + 1) with 2 in Hfill.
      change (<[1 := Some (f 0)]> (replicate (S (S m')) None)) with (None :: Some (f 0) :: replicate m' None).
      rewrite Hfill by done. change (1 + m') with (S m').
      cbn [rbind]. unfold rep. by rewrite length_fmap, length_seq.
    + apply equal_ordered. intros a b Ha Hb. apply list_elem_of_fmap in Ha as (i & -> & _).
      by apply list_elem_of_fmap in Hb as (j & -> & _).
    + rewrite length_fmap, length_seq. unfold heap_size. destruct (Nat.eqb_spec m 0); lia.
Qed.

End Correctness.
(** ** Witnesses: a queue of integers *)

Definition zless (a b : Z) : result bool := Ok (a <? b)%Z.
Definition sample : t Z := rep [1; 4; 2]%Z 1 4.

Lemma zless_ok : forall a b, zless a b = Ok (a <? b)%Z.
Proof. done. Qed.

Lemma sample_holds : holds Z.ltb sample [1; 4; 2]%Z.
Proof. exists 1. split_and!; [done|by apply Heap.ordered_b_ok|done]. Qed.

Lemma collect_keeps_largest_witness : exists q0 outs q' kept,
  new 2 = Ok q0 /\ insert_all zless [5; 1; 7; 3]%Z q0 = (Ok outs, q')
  /\ holds Z.ltb q' kept /\ kept ++ omap id outs ≡ₚ [5; 1; 7; 3]%Z
  /\ (forall d y, d ∈ omap id outs -> y ∈ kept -> Heap.le Z.ltb d y)
  /\ length kept = Nat.min 2 4.
Proof. apply (collect_keeps_largest zless Z.ltb zless_ok 2 [5; 1; 7; 3]%Z). done. Defined.

Lemma pop_all_sorts_witness : exists out q', pop_all zless 3 sample = (Ok (Some <$> out), q')
  /\ holds Z.ltb q' [] /\ out ≡ₚ [1; 4; 2]%Z /\ StronglySorted (Heap.le Z.ltb) out
  /\ pop zless q' = (Ok None, q').
Proof. apply (pop_all_sorts zless Z.ltb zless_ok sample [1; 4; 2]%Z). apply sample_holds. Defined.

Lemma add_correct_witness :
  (exists a q' l', add zless 0%Z sample = (Ok a, q') /\ holds Z.ltb q' l' /\ max_size q' = 4
    /\ l' ≡ₚ [0; 1; 4; 2]%Z /\ Heap.least Z.ltb a l' /\ top q' = Ok (Some a)) /\
  add zless 7%Z (rep [1; 4; 2]%Z 0 3) = (Err ArrayIndexOutOfBounds, rep [1; 4; 2]%Z 0 3).
Proof.
  split.
  - apply (add_correct zless Z.ltb zless_ok sample [1; 4; 2]%Z 0%Z); [apply sample_holds|cbn; lia].
  - apply (add_correct zless Z.ltb zless_ok (rep [1; 4; 2]%Z 0 3) [1; 4; 2]%Z 7%Z); [|cbn; lia].
    apply holds_rep; [by apply Heap.ordered_b_ok|done].
Defined.

Lemma add_all_correct_witness : exists q' l', add_all zless [0]%Z sample = (Ok tt, q')
  /\ holds Z.ltb q' l' /\ max_size q' = 4 /\ l' ≡ₚ [1; 4; 2; 0]%Z.
Proof.
  apply (add_all_correct zless Z.ltb zless_ok sample [1; 4; 2]%Z [0]%Z); [apply sample_holds|cbn; lia].
Defined.

Lemma update_top_correct_witness : exists b q' l' rest,
  update_top_with_new_top zless 9%Z sample = (Ok b, q') /\ holds Z.ltb q' l'
  /\ max_size q' = 4 /\ [1; 4; 2]%Z = 1%Z :: rest /\ l' ≡ₚ 9%Z :: rest
  /\ Heap.least Z.ltb 1%Z [1; 4; 2]%Z /\ Heap.least Z.ltb b l'.
Proof.
  apply (update_top_correct zless Z.ltb zless_ok sample [1; 4; 2]%Z 1%Z 9%Z); [apply sample_holds|done].
Defined.

Lemma remove_correct_witness :
  (exists y q' l', remove zless Z.eqb 4%Z sample = (Ok true, q') /\ holds Z.ltb q' l'
    /\ max_size q' = 4 /\ (y =? 4)%Z = true /\ [1; 4; 2]%Z ≡ₚ y :: l') /\
  remove zless Z.eqb 3%Z sample = (Ok false, sample).
Proof.
  split.
  - apply (remove_correct zless Z.eqb Z.ltb zless_ok sample [1; 4; 2]%Z 4%Z). apply sample_holds.
  - apply (remove_correct zless Z.eqb Z.ltb zless_ok sample [1; 4; 2]%Z 3%Z). apply sample_holds.
Defined.

Lemma drain_correct_witness : exists q', take_heap_array sample = (Ok [1; 4; 2]%Z, q') /\ holds Z.ltb q' [] /\ max_size q' = 4.
Proof. apply (drain_correct Z.ltb sample [1; 4; 2]%Z). apply sample_holds. Defined.

Lemma construction_correct_witness : exists q, with_sentinel_object 3 (fun i => Some 0%Z) = Ok q
  /\ holds Z.ltb q [0; 0; 0]%Z /\ max_size q = 3.
Proof. apply (construction_correct Z.ltb 3 (fun _ => 0%Z)); done. Defined.

(** ** Where the code and its comments part *)

(** A queue of capacity 0 has a slot for one element: [add] stores it, and the queue then
    holds more than [max_size], although [add] is said to fail then. *)
Lemma zero_capacity_accepts_one :
  match new 0 with
  | Ok q => match add zless 5%Z q with (Ok a, q') => a = 5%Z /\ size q' = 1 /\ max_size q' = 0 | _ => False end
  | _ => False
  end.
Proof. done. Qed.

(** On that queue even [add_all] of nothing panics, in computing its error message. *)
Lemma zero_capacity_add_all_panics :
  match new 0 with
  | Ok q => (add_all zless [] (add zless 5%Z q).2).1 = Panic
  | _ => False
  end.
Proof. done. Qed.

(** With sentinels, the queue of capacity 0 has a top although it is empty. *)
Lemma zero_capacity_sentinel_top :
  match with_sentinel_object 0 (fun _ => Some 5%Z) with
  | Ok q => size q = 0 /\ top q = Ok (Some 5%Z)
  | _ => False
  end.
Proof. done. Qed.
End PriorityQueue.
