(* ===== verification/LongHeap.v ===== *)
(** [LongHeap] of [src/core/util/long_heap.rs]: a min-heap of [i64] values in a vector that
    [push] grows. Sifting moves a hole through the vector instead of swapping; the theorems
    show it computes the same heaps as the swapping functions of [Heap]. Slots past [size]
    keep stale values. A [usize] is a [nat]: sizes are bounded by the growth limit. *)

From Stdlib Require Import ZArith Lia Bool Arith.
From stdpp Require Import base tactics numbers list sorting.
From S2P Require Import Prelude ArrayUtil Heap.

Local Open Scope nat_scope.

Module LongHeap.

Record t : Type := mk { max_size : nat; heap : list Z; size : nat }.

Definition nget (v : list Z) (i : nat) : result Z :=
  match v !! i with Some x => Ok x | None => Panic end.
Definition nset (v : list Z) (i : nat) (x : Z) : result (list Z) :=
  if i <? length v then Ok (<[i := x]> v) else Panic.

Definition set_heap (v : list Z) : ST t unit := fun h => (Ok tt, mk (max_size h) v (size h)).
Definition set_size (n : nat) : ST t unit := fun h => (Ok tt, mk (max_size h) (heap h) n).

Definition new (max_size : nat) : result t :=
  if (1 <=? max_size) && (Z.of_nat max_size <? ArrayUtil.MAX_ARRAY_LENGTH)%Z
  then Ok (mk max_size (replicate (max_size + 1) 0%Z) 0)
  else Err IllegalArgument.

(** [parents] is the vector before [slot], so the parent of [slot] is at [slot >> 1]. *)
Fixpoint up_loop (fuel : nat) (value : Z) (slot : nat) (v : list Z) : result (list Z) :=
  match fuel with
  | O => OutOfFuel
  | S fuel =>
      if 1 <? slot then
        let parent_index := slot / 2 in
        let? parent := nget v parent_index in
        if (parent <=? value)%Z then nset v slot value
        else
          let? v := nset v slot parent in
          up_loop fuel value parent_index v
      else nset v slot value
  end.

Definition up_heap (i : nat) : ST t unit :=
  let* h := sget in
  match heap h !! i with
  | None => slift (Err IllegalState)
  | Some value =>
      let* v := slift (up_loop (S i) value i (heap h)) in
      set_heap v
  end.

(** [j += usize::from(k <= self.size && self.heap[k] < self.heap[j])] *)
Definition choose_child (size : nat) (v : list Z) (i : nat) : result nat :=
  let j := i * 2 in
  let k := j + 1 in
  if k <=? size then
    let? a := nget v k in
    let? b := nget v j in
    Ok (if (a <? b)%Z then j + 1 else j)
  else Ok j.

Fixpoint down_loop (fuel size : nat) (value : Z) (i : nat) (v : list Z) : result (list Z) :=
  match fuel with
  | O => OutOfFuel
  | S fuel =>
      let? j := choose_child size v i in
      if j <=? size then
        let? c := nget v j in
        if (c <? value)%Z then
          let? v := nset v i c in
          down_loop fuel size value j v
        else nset v i value
      else nset v i value
  end.

Definition down_heap (i : nat) : ST t unit :=
  let* h := sget in
  let* value := slift (nget (heap h) i) in
  let* v := slift (down_loop (S (size h)) (size h) value i (heap h)) in
  set_heap v.

(** The capacity asked for when the vector is full: [(size * 3).div_ceil(2)]. *)
Definition new_capacity (size : nat) : Z := (Z.of_nat size * 3 + 1) / 2.

Definition push (element : Z) : ST t Z :=
  let* h := sget in
  let size := size h + 1 in
  let* _ := set_size size in
  let* _ := (if size =? length (heap h) then
    let* _ := slift (debug_assert (new_capacity size <=? i32_MAX)%Z) in
    let* v := slift (ArrayUtil.grow_with 8 (heap h) (new_capacity size) 0%Z) in
    set_heap v
  else sret tt) in
  let* h := sget in
  let* v := slift (nset (heap h) size element) in
  let* _ := set_heap v in
  let* _ := up_heap size in
  let* h := sget in
  slift (nget (heap h) 1).

Definition update_top (value : Z) : ST t Z :=
  let* h := sget in
  let* v := slift (nset (heap h) 1 value) in
  let* _ := set_heap v in
  let* _ := down_heap 1 in
  let* h := sget in
  slift (nget (heap h) 1).

Definition insert_with_overflow (value : Z) : ST t bool :=
  let* h := sget in
  if max_size h <=? size h then
    let* top := slift (nget (heap h) 1) in
    if (value <? top)%Z then sret false
    else let* _ := update_top value in sret true
  else let* _ := push value in sret true.

Definition top (h : t) : result Z := nget (heap h) 1.

Definition pop : ST t Z :=
  let* h := sget in
  if 0 <? size h then
    let* result := slift (nget (heap h) 1) in
    let* last := slift (nget (heap h) (size h)) in
    let* v := slift (nset (heap h) 1 last) in
    let* _ := set_heap v in
    let* _ := set_size (size h - 1) in
    let* _ := down_heap 1 in
    sret result
  else slift (Err IllegalState).

Definition clear : ST t unit := set_size 0.

Definition get (h : t) (i : nat) : result Z := nget (heap h) i.

(** [for i in 1..=other.size { self.push(other.heap[i])? }] *)
Fixpoint push_all_from (n i : nat) (other : t) : ST t unit :=
  match n with
  | O => sret tt
  | S n =>
      let* x := slift (nget (heap other) i) in
      let* _ := push x in
      push_all_from n (S i) other
  end.

Definition push_all (other : t) : ST t unit := push_all_from (size other) 1 other.

(** Clients' loops. *)
Fixpoint insert_all (xs : list Z) : ST t (list bool) :=
  match xs with
  | [] => sret []
  | x :: xs =>
      let* b := insert_with_overflow x in
      let* bs := insert_all xs in
      sret (b :: bs)
  end.

Fixpoint pop_all (n : nat) : ST t (list Z) :=
  match n with
  | O => sret []
  | S n =>
      let* x := pop in
      let* xs := pop_all n in
      sret (x :: xs)
  end.

(** ** The vector as a heap of its first [size] elements *)

Abbreviation ordered := (Heap.ordered Z.ltb).
Abbreviation least := (Heap.least Z.ltb).

(** Slot 0 is unused and [rest] is stale. *)
Definition slots (x0 : Z) (l rest : list Z) : list Z := x0 :: l ++ rest.

(** The invariant. There is always a slot 1. *)
Definition holds (h : t) (l : list Z) : Prop :=
  (exists x0 rest, heap h = slots x0 l rest) /\ size h = length l /\ ordered l
  /\ 2 <= length (heap h) /\ 1 <= max_size h.

Lemma slots_at x0 l rest i a : Heap.at_ l i = Some a -> slots x0 l rest !! i = Some a.
Proof.
  intros H. pose proof (Heap.at_some _ _ _ H). rewrite Heap.at_pos in H by lia.
  destruct i as [|i]; [lia|]. unfold slots. rewrite lookup_cons. replace (S i - 1) with i in H by lia.
  by apply lookup_app_l_Some.
Qed.

Lemma slots_insert x0 l rest i a : 1 <= i <= length l ->
  <[i := a]> (slots x0 l rest) = slots x0 (<[i - 1 := a]> l) rest.
Proof.
  intros Hi. destruct i as [|i]; [lia|]. unfold slots. replace (S i - 1) with i by lia.
  rewrite <- insert_app_l by lia. done.
Qed.

Lemma slots_length x0 l rest : length (slots x0 l rest) = 1 + length l + length rest.
Proof. unfold slots. simpl. by rewrite length_app. Qed.

Lemma nset_slots x0 l rest i a : 1 <= i <= length l ->
  nset (slots x0 l rest) i a = Ok (slots x0 (<[i - 1 := a]> l) rest).
Proof.
  intros Hi. unfold nset. rewrite slots_length.
  destruct (Nat.ltb_spec i (1 + length l + length rest)); [|lia]. by rewrite slots_insert.
Qed.

Lemma nget_slots x0 l rest i a : Heap.at_ l i = Some a -> nget (slots x0 l rest) i = Ok a.
Proof. intros H. unfold nget. by rewrite (slots_at _ _ _ _ _ H). Qed.

(** ** Moving a hole is swapping *)

Lemma choose_child_slots x0 (l rest : list Z) i v : 1 <= i <= length l ->
  choose_child (length l) (slots x0 l rest) i = Ok (Heap.child Z.ltb (<[i - 1 := v]> l) i).
Proof.
  intros Hi. unfold choose_child, Heap.child. rewrite !Heap.at_insert by done.
  destruct (Nat.eqb_spec (2 * i) i); [lia|]. destruct (Nat.eqb_spec (2 * i + 1) i); [lia|].
  assert (i * 2 = 2 * i) as -> by lia.
  destruct (Nat.leb_spec (2 * i + 1) (length l)).
  - destruct (Heap.at_is_some l (2 * i)) as [a Ha]; [lia|].
    destruct (Heap.at_is_some l (2 * i + 1)) as [b Hb]; [lia|].
    rewrite Ha, Hb, (nget_slots _ _ _ _ _ Ha), (nget_slots _ _ _ _ _ Hb). done.
  - destruct (Heap.at_ l (2 * i + 1)) eqn:Hb; [apply Heap.at_some in Hb; lia|].
    by destruct (Heap.at_ l (2 * i)).
Qed.

Lemma down_loop_sift fuel value : forall x0 l rest i, 1 <= i <= length l -> length l < i + fuel ->
  1 <= fuel ->
  down_loop fuel (length l) value i (slots x0 l rest)
  = Ok (slots x0 (Heap.sift_down Z.ltb fuel (<[i - 1 := value]> l) i) rest).
Proof.
  induction fuel as [|fuel IH]; intros x0 l rest i Hi Hf H1; [lia|].
  cbn [down_loop Heap.sift_down]. rewrite (choose_child_slots x0 l rest i value Hi). cbn [rbind].
  set (j := Heap.child Z.ltb (<[i - 1 := value]> l) i).
  pose proof (Heap.child_cases Z.ltb (<[i - 1 := value]> l) i ltac:(lia)) as Hj. fold j in Hj.
  rewrite !Heap.at_insert by done. rewrite Nat.eqb_refl. destruct (Nat.eqb_spec j i); [lia|].
  destruct (Nat.leb_spec j (length l)).
  - destruct (Heap.at_is_some l j) as [c Hc]; [lia|]. rewrite Hc, (nget_slots _ _ _ _ _ Hc). cbn [rbind].
    destruct (c <? value)%Z; [|by rewrite nset_slots].
    rewrite nset_slots by done. cbn [rbind].
    pose proof (IH x0 (<[i - 1 := c]> l) rest j) as IH'. rewrite length_insert in IH'.
    rewrite IH' by lia. by rewrite (Heap.hole_swap l i j value c).
  - assert (Heap.at_ l j = None) as ->.
    { destruct (Heap.at_ l j) eqn:Hc; [|done]. apply Heap.at_some in Hc. lia. }
    by rewrite nset_slots.
Qed.

Lemma up_loop_sift fuel value : forall x0 l rest i, 1 <= i <= length l -> i < fuel ->
  up_loop fuel value i (slots x0 l rest)
  = Ok (slots x0 (Heap.sift_up Z.ltb fuel (<[i - 1 := value]> l) i).1 rest).
Proof.
  induction fuel as [|fuel IH]; intros x0 l rest i Hi Hf; [lia|].
  cbn [up_loop Heap.sift_up]. rewrite !Heap.at_insert by done. rewrite Nat.eqb_refl.
  destruct (Nat.ltb_spec 1 i).
  - pose proof (Heap.half_lt i ltac:(lia)). destruct (Nat.eqb_spec (i / 2) i); [lia|].
    destruct (Heap.at_is_some l (i / 2)) as [p Hp]; [lia|]. rewrite Hp, (nget_slots _ _ _ _ _ Hp). cbn [rbind].
    rewrite Z.leb_antisym. destruct (value <? p)%Z; cbn [negb]; [|by rewrite nset_slots].
    rewrite nset_slots by done. cbn [rbind].
    pose proof (IH x0 (<[i - 1 := p]> l) rest (i / 2)) as IH'. rewrite length_insert in IH'.
    rewrite IH' by lia. by rewrite (Heap.hole_swap l i (i / 2) value p) by (done || lia).
  - assert (i = 1) as -> by lia. by rewrite nset_slots.
Qed.

Lemma at_insert_same (l : list Z) i v : Heap.at_ l i = Some v -> <[i - 1 := v]> l = l.
Proof. intros H. pose proof (Heap.at_some _ _ _ H). rewrite Heap.at_pos in H by lia. by apply list_insert_id. Qed.

Lemma down_heap_slots m x0 l rest i : 1 <= i <= length l ->
  down_heap i (mk m (slots x0 l rest) (length l))
  = (Ok tt, mk m (slots x0 (Heap.sift_down Z.ltb (S (length l)) l i) rest) (length l)).
Proof.
  intros Hi. destruct (Heap.at_is_some l i Hi) as [v Hv]. unfold down_heap. erewrite sbind_ok by done.
  cbn [heap size]. erewrite sbind_ok by (unfold slift; by rewrite (nget_slots _ _ _ _ _ Hv)).
  erewrite sbind_ok by (unfold slift; by rewrite down_loop_sift by lia).
  by rewrite (at_insert_same l i v Hv).
Qed.

Lemma up_heap_slots m x0 l rest i : 1 <= i <= length l ->
  up_heap i (mk m (slots x0 l rest) (length l))
  = (Ok tt, mk m (slots x0 (Heap.sift_up Z.ltb (S i) l i).1 rest) (length l)).
Proof.
  intros Hi. destruct (Heap.at_is_some l i Hi) as [v Hv]. unfold up_heap. erewrite sbind_ok by done.
  cbn [heap size]. rewrite (slots_at _ _ _ _ _ Hv).
  erewrite sbind_ok by (unfold slift; by rewrite up_loop_sift by lia).
  by rewrite (at_insert_same l i v Hv).
Qed.

(** ** The heap's promises *)

Lemma holds_intro m x0 l rest : ordered l -> 1 <= length l + length rest -> 1 <= m ->
  holds (mk m (slots x0 l rest) (length l)) l.
Proof. intros. split_and!; try done; [by eexists _, _|]. cbn [heap]. rewrite slots_length. lia. Qed.

Lemma holds_elim h l : holds h l ->
  exists x0 rest, h = mk (max_size h) (slots x0 l rest) (length l) /\ ordered l
    /\ 1 <= length l + length rest /\ 1 <= max_size h.
Proof.
  intros ((x0 & rest & Hh) & Hs & Ho & Hlen & Hm). exists x0, rest. rewrite Hh, slots_length in Hlen.
  split_and!; [|done|lia|done]. destruct h as [m v n]. cbn in *. by subst.
Qed.

(** The growth step of [push] leaves a free slot. *)
Lemma grow_slots x0 l rest : 1 <= length l + length rest ->
  (new_capacity (length l + 1) <= i32_MAX)%Z ->
  exists r rest', (if length l + 1 =? length (slots x0 l rest) then
    let? _ := debug_assert (new_capacity (length l + 1) <=? i32_MAX)%Z in
    ArrayUtil.grow_with 8 (slots x0 l rest) (new_capacity (length l + 1)) 0%Z
  else Ok (slots x0 l rest)) = Ok (slots x0 l (r :: rest')).
Proof.
  intros H1 Hcap. rewrite slots_length. destruct (Nat.eqb_spec (length l + 1) (1 + length l + length rest)).
  - assert (rest = []) as -> by (destruct rest; simpl in *; [done|lia]).
    apply Z.leb_le in Hcap as Hb. rewrite Hb. cbn [debug_assert rbind].
    destruct (ArrayUtil.grow_with_ok 8 (slots x0 l []) (new_capacity (length l + 1)) 0%Z) as (k & -> & Hk & _).
    { exact Hcap. }
    rewrite slots_length in Hk. simpl in Hk, H1. unfold new_capacity in Hk.
    assert (Z.of_nat (length l) + 2 <= (Z.of_nat (length l + 1) * 3 + 1) / 2)%Z
      by (apply Z.div_le_lower_bound; lia).
    destruct k as [|k]; [lia|]. exists 0%Z, (replicate k 0%Z). unfold slots. by rewrite app_nil_r.
  - destruct rest as [|r rest]; [simpl in *; lia|]. by exists r, rest.
Qed.

Lemma nset_append x0 l r rest e :
  nset (slots x0 l (r :: rest)) (length l + 1) e = Ok (slots x0 (l ++ [e]) rest).
Proof.
  unfold nset. rewrite slots_length. simpl length.
  destruct (Nat.ltb_spec (length l + 1) (1 + length l + S (length rest))); [|lia].
  unfold slots. rewrite Nat.add_1_r. f_equal. change (x0 :: ?v) with ([x0] ++ v).
  rewrite insert_app_r_alt by (simpl; lia). simpl length. rewrite Nat.sub_succ, Nat.sub_0_r.
  rewrite insert_app_r_alt by lia. rewrite Nat.sub_diag. cbn. by rewrite <- app_assoc.
Qed.

Lemma push_holds h l e : holds h l -> (new_capacity (length l + 1) <= i32_MAX)%Z ->
  exists a h' l', push e h = (Ok a, h') /\ holds h' l' /\ max_size h' = max_size h
    /\ l' ≡ₚ e :: l /\ least a l' /\ top h' = Ok a.
Proof.
  intros Hh Hcap. destruct (holds_elim h l Hh) as (x0 & rest & Heq & Ho & H1 & Hm).
  set (m := max_size h) in *. clearbody m. subst h. clear Hh.
  destruct (grow_slots x0 l rest H1 Hcap) as (r & rest' & Hgrow).
  set (l' := (Heap.sift_up Z.ltb (S (length l + 1)) (l ++ [e]) (length l + 1)).1).
  assert (Hp : l' ≡ₚ e :: l) by (unfold l'; rewrite Heap.sift_up_perm; apply Permutation_app_comm).
  assert (Ho' : ordered l') by (apply Heap.sift_up_ordered; [apply _|lia|by apply Heap.push_pre]).
  assert (Hlen : length l' = length l + 1) by (rewrite (Permutation_length Hp); simpl; lia).
  destruct (Heap.at_top_exists l') as [a Ha]; [intros E; rewrite E in Hlen; simpl in Hlen; lia|].
  exists a, (mk m (slots x0 l' rest') (length l')), l'.
  split_and!; [|apply holds_intro; [done|lia|done]|done|done|by apply (Heap.ordered_least Z.ltb)
    |by apply nget_slots].
  unfold push. erewrite sbind_ok by done. cbn [size heap]. erewrite sbind_ok by done.
  erewrite sbind_ok.
  2: { instantiate (1 := mk m (slots x0 l (r :: rest')) (length l + 1)). instantiate (1 := tt).
       cbn [max_size heap]. revert Hgrow. destruct (_ =? _); [|intros Hg; injection Hg as Hg; unfold slots at 2; rewrite <- Hg; done].
       destruct (debug_assert _) as [[]|?| |]; [|done..]. cbn [rbind]. intros Hgrow.
       erewrite sbind_ok by done. by erewrite sbind_ok by (unfold slift; by rewrite Hgrow). }
  erewrite sbind_ok by done. cbn [heap].
  erewrite sbind_ok by (unfold slift; by rewrite nset_append). erewrite sbind_ok by done.
  cbn [max_size size].
  assert (Hst : mk m (slots x0 (l ++ [e]) rest') (length l + 1)
    = mk m (slots x0 (l ++ [e]) rest') (length (l ++ [e]))) by by rewrite length_app.
  erewrite sbind_ok by (rewrite Hst; apply up_heap_slots; rewrite length_app; simpl; lia).
  fold l'. erewrite sbind_ok by done. cbn [heap]. unfold slift. rewrite (nget_slots _ _ _ _ _ Ha).
  by rewrite Hlen, length_app.
Qed.

Lemma update_top_holds h a l e : holds h (a :: l) ->
  exists b h' l', update_top e h = (Ok b, h') /\ holds h' l' /\ max_size h' = max_size h
    /\ l' ≡ₚ e :: l /\ least b l'.
Proof.
  intros Hh. destruct (holds_elim h (a :: l) Hh) as (x0 & rest & Heq & Ho & H1 & Hm).
  set (m := max_size h) in *. clearbody m. subst h. clear Hh.
  set (l' := Heap.sift_down Z.ltb (S (length (e :: l))) (e :: l) 1).
  assert (Hp : l' ≡ₚ e :: l) by apply Heap.sift_down_perm.
  assert (Hpre : Heap.down_pre Z.ltb 1 (e :: l) 1).
  { apply (Heap.new_root_pre Z.ltb l a e Ho). }
  assert (Ho' : ordered l') by (apply Heap.sift_down_ordered; [apply _|lia|lia|done]).
  pose proof (Permutation_length Hp) as Hlen.
  destruct (Heap.at_top_exists l') as [b Hb]; [intros E; by rewrite E in Hlen|].
  exists b, (mk m (slots x0 l' rest) (length l')), l'.
  split_and!; [|apply holds_intro; [done|simpl in *; lia|done]|done|done|by apply (Heap.ordered_least Z.ltb)].
  unfold update_top. erewrite sbind_ok by done. cbn [heap].
  erewrite sbind_ok by (unfold slift; by rewrite nset_slots by (simpl; lia)).
  erewrite sbind_ok by done. cbn [max_size size]. change (<[1 - 1 := e]> (a :: l)) with (e :: l).
  change (length (a :: l)) with (length (e :: l)).
  erewrite sbind_ok by (apply down_heap_slots; simpl; lia). fold l'.
  erewrite sbind_ok by done. cbn [heap]. unfold slift. by rewrite (nget_slots _ _ _ _ _ Hb), Hlen.
Qed.


(** Moving the last value to the root and dropping the last position. *)
Lemma slots_move_last x0 l z rest :
  <[1 := z]> (slots x0 (l ++ [z]) rest) = slots x0 (<[1 - 1 := z]> l) (z :: rest).
Proof. unfold slots. cbn. rewrite <- app_assoc. by destruct l. Qed.

Lemma down_heap_empty m x0 z rest :
  down_heap 1 (mk m (slots x0 [] (z :: rest)) 0) = (Ok tt, mk m (slots x0 [] (z :: rest)) 0).
Proof. done. Qed.

Lemma long_pop_holds h l : holds h l ->
  (l = [] /\ pop h = (Err IllegalState, h)) \/
  (exists a h' l', pop h = (Ok a, h') /\ holds h' l' /\ max_size h' = max_size h
     /\ l ≡ₚ a :: l' /\ least a l /\ length l = length l' + 1).
Proof.
  intros Hh. destruct (holds_elim h l Hh) as (x0 & rest & Heq & Ho & H1 & Hm).
  set (m := max_size h) in *. clearbody m. subst h. clear Hh.
  destruct (decide (l = [])) as [->|Hl]; [left; done|right].
  destruct (Heap.at_top_exists l Hl) as [a Ha]. destruct (exists_last Hl) as (l0 & z & ->).
  set (l1 := <[1 - 1 := z]> l0). assert (Hl1 : length l1 = length l0) by apply length_insert.
  set (l' := Heap.sift_down Z.ltb (S (length l1)) l1 1).
  assert (Hp : l' ≡ₚ l1) by apply Heap.sift_down_perm. pose proof (Permutation_length Hp) as Hlen.
  exists a, (mk m (slots x0 l' (z :: rest)) (length l')), l'. split_and!; try done.
  - unfold pop. erewrite sbind_ok by done. cbn [size heap].
    assert (Hz : Heap.at_ (l0 ++ [z]) (length (l0 ++ [z])) = Some z).
    { rewrite length_app. simpl. rewrite Heap.at_pos by lia. rewrite lookup_app_r by lia.
      by replace (length l0 + 1 - 1 - length l0) with 0 by lia. }
    pose proof (Heap.at_some _ _ _ Hz). destruct (Nat.ltb_spec 0 (length (l0 ++ [z]))); [|lia].
    erewrite sbind_ok by (unfold slift; by rewrite (nget_slots _ _ _ _ _ Ha)).
    erewrite sbind_ok by (unfold slift; by rewrite (nget_slots _ _ _ _ _ Hz)).
    erewrite sbind_ok.
    2: { unfold slift, nset. rewrite slots_length.
         destruct (Nat.ltb_spec 1 (1 + length (l0 ++ [z]) + length rest)); [|lia].
         by rewrite slots_move_last. }
    fold l1. erewrite sbind_ok by done. erewrite sbind_ok by done. cbn [max_size heap].
    replace (length (l0 ++ [z]) - 1) with (length l1) by (rewrite length_app; simpl; lia).
    destruct (decide (l1 = [])) as [E|E]; [|assert (1 <= length l1) by (destruct l1; [done|simpl; lia])].
    + assert (l' = []) as Hl' by (unfold l'; by rewrite E). rewrite E, Hl'.
      by erewrite sbind_ok by apply down_heap_empty.
    + erewrite sbind_ok by (apply down_heap_slots; lia). fold l'. by rewrite Hlen.
  - apply holds_intro; [|simpl; lia|done]. apply Heap.sift_down_ordered; [apply _|lia|lia|].
    apply (Heap.replaced_down Z.ltb 1 (l0 ++ [z]) l1 1 a); [done|apply Heap.replaced_last; lia|done|].
    intros p v H. cbn in H. lia.
  - rewrite Hp. by apply Heap.remove_last_perm.
  - by apply (Heap.ordered_least Z.ltb).
  - rewrite length_app. simpl. lia.
Qed.

(** Popping a [LongHeap] until it is empty returns its values in ascending order; a pop
    of the empty heap is an [IllegalState] error and changes nothing. *)
Theorem long_pop_all_sorts h l : holds h l ->
  exists out h', pop_all (length l) h = (Ok out, h') /\ holds h' [] /\ out ≡ₚ l
    /\ StronglySorted Z.le out /\ pop h' = (Err IllegalState, h').
Proof.
  intros Hh. cut (exists out h', pop_all (length l) h = (Ok out, h') /\ holds h' [] /\ out ≡ₚ l
    /\ StronglySorted (Heap.le Z.ltb) out /\ pop h' = (Err IllegalState, h')).
  { intros (out & h' & H1 & H2 & H3 & H4 & H5). exists out, h'. split_and!; auto.
    clear -H4. induction H4 as [|x out Hs IH Hx]; constructor; [done|].
    eapply Forall_impl; [exact Hx|]. intros y. unfold Heap.le. by rewrite Z.ltb_ge. }
  remember (length l) as n eqn:Hn. revert h l Hn Hh. induction n as [|n IH]; intros h l Hn Hh.
  - destruct l; [|done]. exists [], h. split_and!; try done; [constructor|].
    destruct (long_pop_holds h [] Hh) as [[_ ?]|(a & h' & l' & _ & _ & _ & Hp & _)]; [done|].
    by apply Permutation_nil_cons in Hp.
  - destruct (long_pop_holds h l Hh) as [[-> _]|(a & h1 & l1 & Hpop & Hh1 & _ & Hp & Hmin & Hlen)]; [done|].
    destruct (IH h1 l1) as (out & h' & Hall & Hh' & Hout & Hs & Hend); [lia|done|].
    exists (a :: out), h'. split_and!; auto; [|by rewrite Hp, Hout|by eapply Heap.least_sorted_cons].
    cbn [pop_all]. erewrite sbind_ok by exact Hpop. by erewrite sbind_ok by exact Hall.
Qed.

Lemma new_capacity_mono n m : n <= m -> (new_capacity n <= new_capacity m)%Z.
Proof. intros. apply Z.div_le_mono; lia. Qed.

(** [o] is the value that left the heap, if any. *)
Lemma long_insert_with_overflow_holds h l e : holds h l -> length l <= max_size h ->
  (new_capacity (max_size h) <= i32_MAX)%Z ->
  exists b h' l' o, insert_with_overflow e h = (Ok b, h') /\ holds h' l' /\ max_size h' = max_size h
    /\ (if b then e ∈ l' else o = Some e /\ h' = h)
    /\ match o with
       | None => length l < max_size h /\ l' ≡ₚ e :: l
       | Some r => max_size h <= length l /\ r :: l' ≡ₚ e :: l /\ Forall (Heap.le Z.ltb r) l'
       end.
Proof.
  intros Hh Hle Hcap. destruct (holds_elim h l Hh) as (x0 & rest & Heq & Ho & H1 & Hm).
  unfold insert_with_overflow. erewrite sbind_ok by done.
  assert (size h = length l) as -> by (rewrite Heq; done).
  destruct (Nat.leb_spec (max_size h) (length l)) as [Hfull|Hroom].
  - destruct l as [|a l]; [simpl in *; lia|]. pose proof (Heap.ordered_min Z.ltb (a :: l) a Ho eq_refl) as Hmin.
    erewrite sbind_ok by (unfold slift; rewrite Heq; cbn [heap]; by rewrite (nget_slots _ _ _ 1 a)).
    destruct (e <? a)%Z eqn:Hea.
    + exists false, h, (a :: l), (Some e). split_and!; auto.
      eapply Forall_impl; [exact Hmin|]. intros y Hy. apply (Heap.le_tr Z.ltb) with a; [by apply lt_asym|done].
    + destruct (update_top_holds h a l e Hh) as (b & h' & l' & Hu & Hh' & Hm' & Hp & _).
      exists true, h', l', (Some a). erewrite sbind_ok by exact Hu. split_and!; auto.
      * rewrite Hp. left.
      * rewrite Hp. apply perm_swap.
      * rewrite Hp. inversion Hmin; subst. by constructor.
  - destruct (push_holds h l e Hh) as (a & h' & l' & Hpush & Hh' & Hm' & Hp & _).
    { etrans; [apply (new_capacity_mono _ (max_size h)); lia|done]. }
    exists true, h', l', None. erewrite sbind_ok by exact Hpush. split_and!; auto. rewrite Hp. left.
Qed.

Lemma long_insert_all_holds xs : forall h l D, holds h l -> (new_capacity (max_size h) <= i32_MAX)%Z ->
  Heap.best Z.ltb (max_size h) l D ->
  exists bs h' l' D', insert_all xs h = (Ok bs, h') /\ holds h' l' /\ max_size h' = max_size h
    /\ Heap.best Z.ltb (max_size h) l' D' /\ l' ++ D' ≡ₚ xs ++ l ++ D.
Proof.
  induction xs as [|x xs IH]; intros h l D Hh Hcap HD; cbn [insert_all].
  { by exists [], h, l, D. }
  destruct (long_insert_with_overflow_holds h l x Hh) as (b & h1 & l1 & o & Hins & Hh1 & Hm1 & _ & Ho); [apply HD|done|].
  destruct (Heap.best_insert Z.ltb _ _ _ _ _ _ HD Ho) as [HD1 Hp1]. rewrite <- Hm1 in HD1, Hcap.
  destruct (IH h1 l1 (D ++ option_list o) Hh1 Hcap HD1) as (bs & h' & l' & D' & Hall & Hh' & Hm' & HD' & Hp').
  exists (b :: bs), h', l', D'. split_and!; [|done|by rewrite Hm'|by rewrite <- Hm1|].
  - erewrite sbind_ok by exact Hins. by erewrite sbind_ok by exact Hall.
  - rewrite Hp', Hp1. symmetry. apply (Permutation_middle xs (l ++ D) x).
Qed.

(** Collecting any sequence of values with [LongHeap::insert_with_overflow] into a new
    heap of [m] keeps the [m] largest: there are the values left out, none above a kept one,
    and together they are the input. *)
Theorem long_collect_keeps_largest m xs : 1 <= m -> (new_capacity m <= i32_MAX)%Z ->
  exists h0 bs h' kept dropped, new m = Ok h0 /\ insert_all xs h0 = (Ok bs, h')
    /\ holds h' kept /\ kept ++ dropped ≡ₚ xs
    /\ (forall d y, d ∈ dropped -> y ∈ kept -> (d <= y)%Z)
    /\ length kept = Nat.min m (length xs).
Proof.
  intros Hm Hcap. set (h0 := mk m (replicate (m + 1) 0%Z) 0).
  assert (Hh0 : holds h0 []).
  { replace h0 with (mk m (slots 0%Z [] (replicate m 0%Z)) 0) by (unfold h0; by rewrite Nat.add_1_r).
    apply (holds_intro m 0%Z []); [apply Heap.ordered_nil|rewrite length_replicate; simpl; lia|done]. }
  destruct (long_insert_all_holds xs h0 [] [] Hh0 Hcap) as (bs & h' & kept & D & Hall & Hh' & Hm' & (HD & Hroom & Hle) & Hp).
  { split_and!; [intros d y Hd; by apply elem_of_nil in Hd|done|simpl; lia]. }
  rewrite !app_nil_r in Hp. exists h0, bs, h', kept, D. split_and!; auto.
  - unfold new. destruct (Nat.leb_spec 1 m); [|lia].
    assert (Z.of_nat m < ArrayUtil.MAX_ARRAY_LENGTH)%Z as Hlt.
    { unfold new_capacity, ArrayUtil.MAX_ARRAY_LENGTH in *. unfold i32_MAX in *.
      assert (Z.of_nat m + 1 <= (Z.of_nat m * 3 + 1) / 2)%Z by (apply Z.div_le_lower_bound; lia). lia. }
    apply Z.ltb_lt in Hlt. by rewrite Hlt.
  - intros d y Hd Hy. pose proof (HD d y Hd Hy) as H. unfold Heap.le in H. by apply Z.ltb_ge.
  - apply Permutation_length in Hp. rewrite length_app in Hp. cbn [max_size h0] in *.
    destruct (decide (length kept < m)) as [Hlt|]; [rewrite (Hroom Hlt) in Hp; simpl in Hp|]; lia.
Qed.

Lemma push_all_from_holds other lo n : forall i h l, holds other lo -> holds h l ->
  1 <= i -> i + n = length lo + 1 -> (new_capacity (length l + n) <= i32_MAX)%Z ->
  exists h' l', push_all_from n i other h = (Ok tt, h') /\ holds h' l' /\ max_size h' = max_size h
    /\ l' ≡ₚ drop (i - 1) lo ++ l.
Proof.
  induction n as [|n IH]; intros i h l Ho Hh Hi Hn Hcap; cbn [push_all_from].
  { exists h, l. split_and!; try done. by rewrite drop_ge by lia. }
  destruct (holds_elim other lo Ho) as (x0 & rest & Heq & _).
  destruct (Heap.at_is_some lo i) as [x Hx]; [lia|].
  erewrite sbind_ok by (unfold slift; rewrite Heq; cbn [heap]; by rewrite (nget_slots _ _ _ _ _ Hx)).
  destruct (push_holds h l x Hh) as (a & h1 & l1 & Hpush & Hh1 & Hm1 & Hp1 & _).
  { etrans; [apply (new_capacity_mono _ (length l + S n)); lia|done]. }
  erewrite sbind_ok by exact Hpush. pose proof (Permutation_length Hp1) as Hlen. simpl in Hlen.
  destruct (IH (S i) h1 l1) as (h' & l' & Hall & Hh' & Hm' & Hp'); [done|done|lia|lia| |].
  { rewrite Hlen. replace (S (length l) + n) with (length l + S n) by lia. done. }
  exists h', l'. split_and!; [done|done|by rewrite Hm'|]. rewrite Hp', Hp1.
  rewrite Heap.at_pos in Hx by lia. rewrite (drop_S lo x (i - 1) Hx).
  replace (S i - 1) with (S (i - 1)) by lia. cbn. symmetry. apply Permutation_middle.
Qed.

(** [push] stores the value, growing the vector when it is full, and returns the new
    least value; [push_all] stores every value of the other heap; [update_top] exchanges
    exactly the least value. *)
Theorem long_push_correct h l e other lo : holds h l -> holds other lo ->
  (new_capacity (length l + length lo + 1) <= i32_MAX)%Z ->
  (exists a h' l', push e h = (Ok a, h') /\ holds h' l' /\ l' ≡ₚ e :: l /\ least a l' /\ top h' = Ok a) /\
  (exists h' l', push_all other h = (Ok tt, h') /\ holds h' l' /\ l' ≡ₚ lo ++ l) /\
  (forall a rest, l = a :: rest -> exists b h' l', update_top e h = (Ok b, h') /\ holds h' l'
     /\ l' ≡ₚ e :: rest /\ least a l /\ least b l').
Proof.
  intros Hh Ho Hcap. split_and!.
  - destruct (push_holds h l e Hh) as (a & h' & l' & H1 & H2 & _ & H3 & H4 & H5).
    { etrans; [apply (new_capacity_mono _ (length l + length lo + 1)); lia|done]. }
    by exists a, h', l'.
  - unfold push_all. destruct (holds_elim other lo Ho) as (x0 & rest & Heq & _).
    assert (size other = length lo) as -> by (rewrite Heq; done).
    destruct (push_all_from_holds other lo (length lo) 1 h l Ho Hh) as (h' & l' & H1 & H2 & _ & H3); [lia|lia| |].
    { etrans; [apply (new_capacity_mono _ (length l + length lo + 1)); lia|done]. }
    by exists h', l'.
  - intros a rest ->. destruct (update_top_holds h a rest e Hh) as (b & h' & l' & H1 & H2 & _ & H3 & H4).
    exists b, h', l'. split_and!; auto. apply (Heap.ordered_least Z.ltb); [apply Hh|done].
Qed.

Definition sample : t := mk 3 (slots 0 [1; 4; 2] [])%Z 3.

Lemma long_sample_holds : holds sample [1; 4; 2]%Z.
Proof. apply (holds_intro 3 0%Z [1; 4; 2]%Z []); [by apply Heap.ordered_b_ok|simpl; lia|lia]. Qed.

Lemma long_pop_all_sorts_witness : exists out h', pop_all 3 sample = (Ok out, h') /\ holds h' []
  /\ out ≡ₚ [1; 4; 2]%Z /\ StronglySorted Z.le out /\ pop h' = (Err IllegalState, h').
Proof. apply (long_pop_all_sorts sample [1; 4; 2]%Z). apply long_sample_holds. Defined.

Lemma long_collect_keeps_largest_witness : exists h0 bs h' kept dropped,
  new 2 = Ok h0 /\ insert_all [5; 1; 7; 3]%Z h0 = (Ok bs, h')
  /\ holds h' kept /\ kept ++ dropped ≡ₚ [5; 1; 7; 3]%Z
  /\ (forall d y, d ∈ dropped -> y ∈ kept -> (d <= y)%Z) /\ length kept = Nat.min 2 4.
Proof. apply (long_collect_keeps_largest 2 [5; 1; 7; 3]%Z); [lia|done]. Defined.

Lemma long_push_correct_witness :
  (exists a h' l', push 0 sample = (Ok a, h') /\ holds h' l' /\ l' ≡ₚ [0; 1; 4; 2]%Z
    /\ least a l' /\ top h' = Ok a).
Proof.
  apply (long_push_correct sample [1; 4; 2]%Z 0%Z sample [1; 4; 2]%Z);
    [apply long_sample_holds|apply long_sample_holds|done].
Defined.
End LongHeap.
