(* ===== verification/Disi.v ===== *)
(** [DocIdSetIterator] of [src/core/search/doc_id_set_iterator.rs]: the interface every
    iterator over document ids implements, as a class of operations and a class of the laws
    its documentation promises; the simple iterators, the two-variant enum and the iterator
    over a [FixedBitSet] ([src/core/util/bit_set_iterator.rs]) as instances. *)

From Stdlib Require Import ZArith Lia Bool.
From stdpp Require Import base tactics numbers list sorting.
From S2P Require Import Prelude BitUtil FixedBitSet.

Local Open Scope Z_scope.

Module Disi.

Definition NO_MORE_DOCS : Z := i32_MAX.

(** [x + 1] on an [i32]: a debug build panics on overflow. *)
Definition succ_i32 (x : Z) : result Z := if x =? i32_MAX then Panic else Ok (x + 1).

(** ** The traits *)

Class DocIdSetIterator (I : Type) : Type := {
  doc_id : I -> Z;
  next_doc : ST I Z;
  advance : Z -> ST I Z;
  cost : I -> result Z;
}.

Class BitSetIteratorAccess (I : Type) : Type := {
  is_bit_iter : I -> bool;
  get : I -> Z -> result bool;
  set_doc_id : Z -> ST I unit;
  bit_set_length : I -> result Z;
}.

(** The trait's defaults: an ordinary iterator has no bit set. *)
Definition no_bit_set {I : Type} : BitSetIteratorAccess I := {|
  is_bit_iter _ := false;
  get _ _ := Err UnsupportedOperation;
  set_doc_id _ := slift (Err UnsupportedOperation);
  bit_set_length _ := Err UnsupportedOperation;
|}.

(** [loop { doc = self.next_doc()?; if doc >= target { break } }]; there are fewer than
    [2^32] document ids. *)
Definition slow_advance {I : Type} `{DocIdSetIterator I} (target : Z) : ST I Z :=
  let* i := sget in
  let* _ := slift (debug_assert (doc_id i <? target)) in
  loop 32 (fun _ : unit =>
    let* doc := next_doc in
    sret (if target <=? doc then inr doc else inl tt)) tt.

(** A client's loop: every document up to [NO_MORE_DOCS]. *)
Definition collect {I : Type} `{DocIdSetIterator I} : ST I (list Z) :=
  loop 32 (fun acc : list Z =>
    let* doc := next_doc in
    sret (if doc =? NO_MORE_DOCS then inr acc else inl (acc ++ [doc]))) [].

(** ** The documented contract *)

(** [r] is the first document of [mem] from [t] on, or [NO_MORE_DOCS]. *)
Definition first_at (mem : Z -> bool) (t r : Z) : Prop :=
  t <= r <= NO_MORE_DOCS /\ (r < NO_MORE_DOCS -> mem r = true) /\ forall d, t <= d < r -> mem d = false.

(** The laws: nothing is promised for [advance] to a target at or before the current
    document, nor after exhaustion. *)
Class DisiSpec (I : Type) `{DocIdSetIterator I} : Type := {
  iter_ok : I -> Prop;
  mem : I -> Z -> bool;
  doc_range i : iter_ok i -> -1 <= doc_id i <= NO_MORE_DOCS;
  doc_mem i : iter_ok i -> 0 <= doc_id i < NO_MORE_DOCS -> mem i (doc_id i) = true;
  advance_spec i t : iter_ok i -> 0 <= t -> doc_id i < t <= NO_MORE_DOCS ->
    exists i', advance t i = (Ok (doc_id i'), i') /\ iter_ok i' /\ (forall d, mem i' d = mem i d)
      /\ first_at (mem i) t (doc_id i');
  next_spec i : iter_ok i -> doc_id i < NO_MORE_DOCS ->
    exists i', next_doc i = (Ok (doc_id i'), i') /\ iter_ok i' /\ (forall d, mem i' d = mem i d)
      /\ first_at (mem i) (doc_id i + 1) (doc_id i');
}.

(** The laws of a bit-set iterator: random access to the same documents. *)
Class BitSetSpec (I : Type) `{DisiSpec I} `{BitSetIteratorAccess I} : Type := {
  bits_spec i : iter_ok i -> is_bit_iter i = true ->
    exists n, bit_set_length i = Ok n /\ 0 <= n <= NO_MORE_DOCS
      /\ (forall d, n <= d -> mem i d = false)
      /\ (forall d, 0 <= d < n -> get i d = Ok (mem i d))
      /\ (forall d, 0 <= d < n -> mem i d = true ->
            exists i', set_doc_id d i = (Ok tt, i') /\ iter_ok i' /\ doc_id i' = d
              /\ (forall e, mem i' e = mem i e) /\ is_bit_iter i' = true
              /\ bit_set_length i' = Ok n);
}.

(** ** The simple iterators *)

Module EmptyDISI.
Record t := mk { exhausted : bool }.
Definition new : t := mk false.
Definition doc_id (i : t) : Z := if exhausted i then NO_MORE_DOCS else -1.
Definition next_doc : ST t Z :=
  let* i := sget in
  let* _ := slift (debug_assert (negb (exhausted i))) in
  let* _ := sput (mk true) in
  sret NO_MORE_DOCS.
Definition advance (target : Z) : ST t Z :=
  let* i := sget in
  let* _ := slift (debug_assert (negb (exhausted i))) in
  let* _ := slift (debug_assert (0 <=? target)) in
  let* _ := sput (mk true) in
  sret NO_MORE_DOCS.
Definition cost (i : t) : result Z := Ok 0.
End EmptyDISI.

Module AllDISI.
Record t := mk { doc : Z; max_doc : Z }.
Definition new (max_doc : Z) : t := mk (-1) max_doc.
Definition advance (target : Z) : ST t Z :=
  let* i := sget in
  let doc := if max_doc i <=? target then NO_MORE_DOCS else target in
  let* _ := sput (mk doc (max_doc i)) in
  sret doc.
Definition next_doc : ST t Z :=
  let* i := sget in
  let* target := slift (succ_i32 (doc i)) in
  let* _ := advance target in
  let* i := sget in
  sret (doc i).
Definition cost (i : t) : result Z := Ok (max_doc i).
End AllDISI.

Module RangeDISI.
Record t := mk { doc : Z; min_doc : Z; max_doc : Z }.
Definition new (min_doc max_doc : Z) : result t :=
  if max_doc <=? min_doc then Err IllegalArgument
  else if min_doc <? 0 then Err IllegalArgument
  else Ok (mk (-1) min_doc max_doc).
Definition advance (target : Z) : ST t Z :=
  let* i := sget in
  let doc := if target <? min_doc i then min_doc i
             else if max_doc i <=? target then NO_MORE_DOCS else target in
  let* _ := sput (mk doc (min_doc i) (max_doc i)) in
  sret doc.
Definition next_doc : ST t Z :=
  let* i := sget in
  let* target := slift (succ_i32 (doc i)) in
  advance target.
Definition cost (i : t) : result Z := Ok (max_doc i - min_doc i).
End RangeDISI.

(** [BitSetIterator<FixedBitSet>] *)
Module BitSetIterator.
Record t := mk { bits : FixedBitSet.t; length : Z; cost_ : Z; doc : Z }.
Definition new (bits : FixedBitSet.t) (cost : Z) : result t :=
  if cost <? 0 then Err IllegalArgument
  else
    let length := FixedBitSet.num_bits bits in
    if length <=? i32_MAX then Ok (mk bits length cost (-1)) else Err IllegalState.
Definition set_doc_id (doc_id : Z) : ST t unit :=
  fun i => (Ok tt, mk (bits i) (length i) (cost_ i) doc_id).
Definition advance (target : Z) : ST t Z :=
  let* i := sget in
  if length i <=? target then
    let* _ := set_doc_id NO_MORE_DOCS in sret NO_MORE_DOCS
  else
    let* r := slift (FixedBitSet.next_set_bit (bits i) (as_u64 target)) in
    let* _ := set_doc_id (as_i32 r) in
    sret (as_i32 r).
Definition next_doc : ST t Z :=
  let* i := sget in
  let* target := slift (succ_i32 (doc i)) in
  advance target.
Definition cost (i : t) : result Z := Ok (cost_ i).
Definition get (i : t) (index : Z) : result bool := FixedBitSet.get (bits i) index.
Definition bit_set_length (i : t) : result Z := Ok (FixedBitSet.num_bits (bits i)).
End BitSetIterator.

#[export] Instance EmptyDISI_iter : DocIdSetIterator EmptyDISI.t :=
  { doc_id := EmptyDISI.doc_id; next_doc := EmptyDISI.next_doc;
    advance := EmptyDISI.advance; cost := EmptyDISI.cost }.
#[export] Instance AllDISI_iter : DocIdSetIterator AllDISI.t :=
  { doc_id := AllDISI.doc; next_doc := AllDISI.next_doc;
    advance := AllDISI.advance; cost := AllDISI.cost }.
#[export] Instance RangeDISI_iter : DocIdSetIterator RangeDISI.t :=
  { doc_id := RangeDISI.doc; next_doc := RangeDISI.next_doc;
    advance := RangeDISI.advance; cost := RangeDISI.cost }.
#[export] Instance BitSetIterator_iter : DocIdSetIterator BitSetIterator.t :=
  { doc_id := BitSetIterator.doc; next_doc := BitSetIterator.next_doc;
    advance := BitSetIterator.advance; cost := BitSetIterator.cost }.

#[export] Instance EmptyDISI_bits : BitSetIteratorAccess EmptyDISI.t := no_bit_set.
#[export] Instance AllDISI_bits : BitSetIteratorAccess AllDISI.t := no_bit_set.
#[export] Instance RangeDISI_bits : BitSetIteratorAccess RangeDISI.t := no_bit_set.
#[export] Instance BitSetIterator_bits : BitSetIteratorAccess BitSetIterator.t :=
  { is_bit_iter _ := true; get := BitSetIterator.get;
    set_doc_id := BitSetIterator.set_doc_id; bit_set_length := BitSetIterator.bit_set_length }.

(** ** [DocIdSetIteratorEnum2] *)

Inductive Enum2 (A B : Type) : Type := EA (a : A) | EB (b : B).
Arguments EA {A B} a.
Arguments EB {A B} b.

(** Running a method of the variant in place. *)
Definition on_A {A B R : Type} (a : A) (m : ST A R) : result R * Enum2 A B :=
  let (r, a') := m a in (r, EA a').
Definition on_B {A B R : Type} (b : B) (m : ST B R) : result R * Enum2 A B :=
  let (r, b') := m b in (r, EB b').

#[export] Instance Enum2_iter {A B} `{DocIdSetIterator A} `{DocIdSetIterator B} : DocIdSetIterator (Enum2 A B) := {
  doc_id i := match i with EA a => doc_id a | EB b => doc_id b end;
  next_doc i := match i with EA a => on_A a next_doc | EB b => on_B b next_doc end;
  advance t i := match i with EA a => on_A a (advance t) | EB b => on_B b (advance t) end;
  cost i := match i with EA a => cost a | EB b => cost b end;
}.

#[export] Instance Enum2_bits {A B} `{BitSetIteratorAccess A} `{BitSetIteratorAccess B} :
    BitSetIteratorAccess (Enum2 A B) := {
  is_bit_iter i := match i with EA a => is_bit_iter a | EB b => is_bit_iter b end;
  get i d := match i with EA a => get a d | EB b => get b d end;
  set_doc_id d i := match i with EA a => on_A a (set_doc_id d) | EB b => on_B b (set_doc_id d) end;
  bit_set_length i := match i with EA a => bit_set_length a | EB b => bit_set_length b end;
}.

(** ** The instances meet the contract *)

Lemma first_at_none mem t : t <= NO_MORE_DOCS -> (forall d, t <= d < NO_MORE_DOCS -> mem d = false) ->
  first_at mem t NO_MORE_DOCS.
Proof. intros. split_and!; auto; lia. Qed.

Lemma first_at_here mem t : t <= NO_MORE_DOCS -> mem t = true -> first_at mem t t.
Proof. intros. split_and!; auto; lia. Qed.

Lemma succ_i32_ok x : x < NO_MORE_DOCS -> succ_i32 x = Ok (x + 1).
Proof. unfold NO_MORE_DOCS, succ_i32. intros. by destruct (Z.eqb_spec x i32_MAX); [lia|]. Qed.

(** [ops] reduces the operations of a concrete iterator to their names. *)
Ltac ops :=
  cbn [doc_id next_doc advance cost is_bit_iter get set_doc_id bit_set_length
       AllDISI_iter RangeDISI_iter BitSetIterator_iter BitSetIterator_bits] in *.

Definition empty_mem (i : EmptyDISI.t) (d : Z) : bool := false.

#[export] Program Instance EmptyDISI_spec : DisiSpec EmptyDISI.t :=
  { iter_ok _ := True; mem := empty_mem }.
Next Obligation. intros [[]] _; cbn; unfold NO_MORE_DOCS, i32_MAX, EmptyDISI.doc_id; simpl; lia. Qed.
Next Obligation. intros [[]] _; cbn; unfold EmptyDISI.doc_id; simpl; lia. Qed.
Next Obligation.
  intros [[]] t _ Ht; cbn; unfold EmptyDISI.doc_id; simpl; [lia|]. intros Hd.
  exists (EmptyDISI.mk true). split_and!; auto; [|apply first_at_none; [lia|done]].
  apply Z.leb_le in Ht. unfold EmptyDISI.advance, sbind, slift, debug_assert. cbn. by rewrite Ht.
Qed.
Next Obligation.
  intros [[]] _; cbn; unfold EmptyDISI.doc_id; simpl; [lia|]. intros Hd.
  exists (EmptyDISI.mk true). split_and!; auto. apply first_at_none; [done|done].
Qed.

Definition all_ok (i : AllDISI.t) : Prop :=
  -1 <= AllDISI.doc i <= NO_MORE_DOCS /\ 0 <= AllDISI.max_doc i <= NO_MORE_DOCS
  /\ (AllDISI.doc i < NO_MORE_DOCS -> AllDISI.doc i < AllDISI.max_doc i).
Definition all_mem (i : AllDISI.t) (d : Z) : bool := (0 <=? d) && (d <? AllDISI.max_doc i).

Lemma all_advance i t : all_ok i -> 0 <= t <= NO_MORE_DOCS ->
  exists i', AllDISI.advance t i = (Ok (AllDISI.doc i'), i') /\ all_ok i'
    /\ AllDISI.max_doc i' = AllDISI.max_doc i /\ first_at (all_mem i) t (AllDISI.doc i').
Proof.
  intros (H1 & H2 & H3) Ht. unfold AllDISI.advance. erewrite sbind_ok by done.
  exists (AllDISI.mk (if AllDISI.max_doc i <=? t then NO_MORE_DOCS else t) (AllDISI.max_doc i)).
  split; [done|]. unfold all_ok. cbn [AllDISI.doc AllDISI.max_doc].
  destruct (Z.leb_spec (AllDISI.max_doc i) t).
  - split_and!; try lia. apply first_at_none; [lia|].
    intros d Hd. unfold all_mem. zcase.
  - split_and!; try lia. apply first_at_here; [lia|]. unfold all_mem. zcase.
Qed.

#[export] Program Instance AllDISI_spec : DisiSpec AllDISI.t := { iter_ok := all_ok; mem := all_mem }.
Next Obligation. intros i (H & _). apply H. Qed.
Next Obligation. intros i (_ & _ & H) Hd. ops. unfold all_mem. zcase. Qed.
Next Obligation.
  intros i t Hi Ht Hd. ops. destruct (all_advance i t Hi) as (i' & ? & ? & Hm & ?); [lia|].
  exists i'. split_and!; try done. intros d. unfold all_mem. by rewrite Hm.
Qed.
Next Obligation.
  intros i Hi Hd. ops. destruct Hi as [Hr Hi'] eqn:E. clear E.
  destruct (all_advance i (AllDISI.doc i + 1)) as (i' & Ha & ? & Hm & ?); [done|lia|].
  exists i'. split_and!; try done; [|intros d; unfold all_mem; by rewrite Hm].
  unfold AllDISI.next_doc. erewrite sbind_ok by done.
  rewrite slift_sbind, succ_i32_ok by done. by erewrite sbind_ok by exact Ha.
Qed.

Definition range_ok (i : RangeDISI.t) : Prop :=
  (RangeDISI.doc i = -1 \/ RangeDISI.min_doc i <= RangeDISI.doc i <= NO_MORE_DOCS)
  /\ 0 <= RangeDISI.min_doc i < RangeDISI.max_doc i /\ RangeDISI.max_doc i <= NO_MORE_DOCS
  /\ (RangeDISI.doc i < NO_MORE_DOCS -> RangeDISI.doc i < RangeDISI.max_doc i).
Definition range_mem (i : RangeDISI.t) (d : Z) : bool :=
  (RangeDISI.min_doc i <=? d) && (d <? RangeDISI.max_doc i).

Lemma range_advance i t : range_ok i -> 0 <= t <= NO_MORE_DOCS ->
  exists i', RangeDISI.advance t i = (Ok (RangeDISI.doc i'), i') /\ range_ok i'
    /\ RangeDISI.min_doc i' = RangeDISI.min_doc i /\ RangeDISI.max_doc i' = RangeDISI.max_doc i
    /\ first_at (range_mem i) t (RangeDISI.doc i').
Proof.
  intros (H1 & H2 & H3 & H4) Ht. unfold RangeDISI.advance. erewrite sbind_ok by done.
  exists (RangeDISI.mk (if t <? RangeDISI.min_doc i then RangeDISI.min_doc i
    else if RangeDISI.max_doc i <=? t then NO_MORE_DOCS else t) (RangeDISI.min_doc i) (RangeDISI.max_doc i)).
  split; [done|]. unfold range_ok. cbn [RangeDISI.doc RangeDISI.min_doc RangeDISI.max_doc].
  destruct (Z.ltb_spec t (RangeDISI.min_doc i)).
  - split_and!; try lia. split_and!; [lia|lia|intros _; unfold range_mem; zcase|].
    intros d Hd. unfold range_mem. zcase.
  - destruct (Z.leb_spec (RangeDISI.max_doc i) t).
    + split_and!; try lia. apply first_at_none; [lia|]. intros d Hd. unfold range_mem. zcase.
    + split_and!; try lia. apply first_at_here; [lia|]. unfold range_mem. zcase.
Qed.

#[export] Program Instance RangeDISI_spec : DisiSpec RangeDISI.t := { iter_ok := range_ok; mem := range_mem }.
Next Obligation. intros i (H & H1 & H2 & _). ops. lia. Qed.
Next Obligation. intros i (H & H1 & H2 & H3) Hd. ops. unfold range_mem. zcase. Qed.
Next Obligation.
  intros i t Hi Ht Hd. ops. destruct (range_advance i t Hi) as (i' & ? & ? & Hm & Hx & ?); [lia|].
  exists i'. split_and!; try done. intros d. unfold range_mem. by rewrite Hm, Hx.
Qed.
Next Obligation.
  intros i Hi Hd. ops. pose proof Hi as (Hr & H1 & _).
  destruct (range_advance i (RangeDISI.doc i + 1)) as (i' & Ha & ? & Hm & Hx & ?); [done|lia|].
  exists i'. split_and!; try done; [|intros d; unfold range_mem; by rewrite Hm, Hx].
  unfold RangeDISI.next_doc. erewrite sbind_ok by done. by rewrite slift_sbind, succ_i32_ok by done.
Qed.

Definition bsi_ok (i : BitSetIterator.t) : Prop :=
  FixedBitSet.inv (BitSetIterator.bits i)
  /\ BitSetIterator.length i = FixedBitSet.num_bits (BitSetIterator.bits i)
  /\ BitSetIterator.length i <= NO_MORE_DOCS /\ -1 <= BitSetIterator.doc i <= NO_MORE_DOCS
  /\ (0 <= BitSetIterator.doc i < NO_MORE_DOCS ->
        FixedBitSet.bit (BitSetIterator.bits i) (BitSetIterator.doc i) = true).
Definition bsi_mem (i : BitSetIterator.t) (d : Z) : bool := FixedBitSet.bit (BitSetIterator.bits i) d.

Lemma as_i32_doc r : 0 <= r <= NO_MORE_DOCS -> as_i32 r = r.
Proof. intros. apply wrap_s_id; [lia|]. unfold in_s, NO_MORE_DOCS, i32_MAX in *. cbn. lia. Qed.

Lemma as_u64_doc r : 0 <= r <= NO_MORE_DOCS -> as_u64 r = r.
Proof. intros. apply wrap_u_id. unfold in_u, NO_MORE_DOCS, i32_MAX in *. lia. Qed.

(** The search of the set, by its first one bit. *)
Lemma next_set_bit_first s t : FixedBitSet.inv s -> 0 <= t < FixedBitSet.num_bits s ->
  FixedBitSet.num_bits s <= NO_MORE_DOCS ->
  exists r, FixedBitSet.next_set_bit s t = Ok r /\ first_at (FixedBitSet.bit s) t r.
Proof.
  intros Hs Ht Hn. unfold FixedBitSet.next_set_bit, FixedBitSet.next_set_bit_range.
  destruct (FixedBitSet.next_set_bit_impl_ok s t (FixedBitSet.num_bits s) Hs) as [(r & -> & Hr)|(-> & Hr)]; [lia|lia| |].
  - cbn [rbind]. destruct Hr as (H1 & H2 & H3).
    destruct (Z.ltb_spec r (FixedBitSet.num_bits s)) as [|Hge].
    + exists r. split; [done|]. split_and!; auto; lia.
    + rewrite FixedBitSet.bit_ghost in H2 by done. done.
  - cbn [rbind]. exists NO_MORE_DOCS. split.
    + change FixedBitSet.NO_MORE_DOCS with NO_MORE_DOCS. by destruct (_ <? _).
    + apply first_at_none; [lia|]. intros d Hd.
      destruct (Z.lt_ge_cases d (FixedBitSet.num_bits s)); [apply Hr; lia|by apply FixedBitSet.bit_ghost].
Qed.

Lemma bsi_advance i t : bsi_ok i -> 0 <= t <= NO_MORE_DOCS ->
  exists i', BitSetIterator.advance t i = (Ok (BitSetIterator.doc i'), i') /\ bsi_ok i'
    /\ BitSetIterator.bits i' = BitSetIterator.bits i
    /\ first_at (bsi_mem i) t (BitSetIterator.doc i').
Proof.
  intros (Hinv & Hlen & Hmax & Hdoc & Hm) Ht. unfold BitSetIterator.advance. erewrite sbind_ok by done.
  destruct (Z.leb_spec (BitSetIterator.length i) t) as [Hge|Hlt].
  - exists (BitSetIterator.mk (BitSetIterator.bits i) (BitSetIterator.length i) (BitSetIterator.cost_ i) NO_MORE_DOCS).
    split; [done|]. unfold bsi_ok. split_and!; cbn; try done; try lia.
    apply first_at_none; [lia|]. intros d Hd. apply FixedBitSet.bit_ghost; [done|lia].
  - rewrite slift_sbind, as_u64_doc by lia.
    destruct (next_set_bit_first (BitSetIterator.bits i) t) as (r & -> & Hr); [done|lia|lia|].
    pose proof Hr as (Hr1 & Hr2 & _). cbn match. erewrite sbind_ok by done.
    rewrite as_i32_doc by lia.
    exists (BitSetIterator.mk (BitSetIterator.bits i) (BitSetIterator.length i) (BitSetIterator.cost_ i) r).
    split; [done|]. unfold bsi_ok. split_and!; cbn; try done; try lia.
    intros Hd. apply Hr2. lia.
Qed.

#[export] Program Instance BitSetIterator_spec : DisiSpec BitSetIterator.t := { iter_ok := bsi_ok; mem := bsi_mem }.
Next Obligation. intros i (_ & _ & _ & H & _). done. Qed.
Next Obligation. intros i (_ & _ & _ & _ & H). done. Qed.
Next Obligation.
  intros i t Hi Ht Hd. ops. destruct (bsi_advance i t Hi) as (i' & ? & ? & Hb & ?); [lia|].
  exists i'. split_and!; try done. intros d. unfold bsi_mem. by rewrite Hb.
Qed.
Next Obligation.
  intros i Hi Hd. ops. pose proof Hi as (_ & _ & _ & Hr & _).
  destruct (bsi_advance i (BitSetIterator.doc i + 1)) as (i' & Ha & ? & Hb & ?); [done|lia|].
  exists i'. split_and!; try done; [|intros d; unfold bsi_mem; by rewrite Hb].
  unfold BitSetIterator.next_doc. erewrite sbind_ok by done. by rewrite slift_sbind, succ_i32_ok by done.
Qed.

#[export] Program Instance BitSetIterator_bits_spec : BitSetSpec BitSetIterator.t.
Next Obligation.
  intros i (Hinv & Hlen & Hmax & Hdoc & Hm) _. ops.
  exists (FixedBitSet.num_bits (BitSetIterator.bits i)). pose proof Hinv as (Hn & _).
  split_and!; try done; try lia.
  - intros d Hd. by apply FixedBitSet.bit_ghost.
  - intros d Hd. by apply FixedBitSet.get_ok.
  - intros d Hd Hb. eexists. split; [done|]. unfold bsi_ok. split_and!; cbn; try done; try lia. split_and!; cbn; try done; lia.
Qed.


#[export] Program Instance EmptyDISI_bits_spec : BitSetSpec EmptyDISI.t.
Next Obligation. done. Qed.
#[export] Program Instance AllDISI_bits_spec : BitSetSpec AllDISI.t.
Next Obligation. done. Qed.
#[export] Program Instance RangeDISI_bits_spec : BitSetSpec RangeDISI.t.
Next Obligation. done. Qed.

Section Enum2.
Context {A B : Type} `{DisiSpec A} `{DisiSpec B}.

Definition enum_ok (i : Enum2 A B) : Prop := match i with EA a => iter_ok a | EB b => iter_ok b end.
Definition enum_mem (i : Enum2 A B) : Z -> bool := match i with EA a => mem a | EB b => mem b end.

#[export] Program Instance Enum2_spec : DisiSpec (Enum2 A B) := { iter_ok := enum_ok; mem := enum_mem }.
Next Obligation. intros [a|b] Hi; cbn in *; by apply doc_range. Qed.
Next Obligation. intros [a|b] Hi; cbn in *; by apply doc_mem. Qed.
Next Obligation.
  intros [a|b] t Hi Ht Hd; cbn in *.
  - destruct (advance_spec a t Hi Ht Hd) as (a' & Ha & ?). exists (EA a'). unfold on_A. by rewrite Ha.
  - destruct (advance_spec b t Hi Ht Hd) as (b' & Hb & ?). exists (EB b'). unfold on_B. by rewrite Hb.
Qed.
Next Obligation.
  intros [a|b] Hi Hd; cbn in *.
  - destruct (next_spec a Hi Hd) as (a' & Ha & ?). exists (EA a'). unfold on_A. by rewrite Ha.
  - destruct (next_spec b Hi Hd) as (b' & Hb & ?). exists (EB b'). unfold on_B. by rewrite Hb.
Qed.

Context `{!BitSetIteratorAccess A, !BitSetSpec A, !BitSetIteratorAccess B, !BitSetSpec B}.

#[export] Program Instance Enum2_bits_spec : BitSetSpec (Enum2 A B).
Next Obligation.
  intros [a|b] Hi Hb; cbn in *.
  - destruct (bits_spec a Hi Hb) as (n & Hn1 & Hn2 & Hn3 & Hn4 & Hn5). exists n. split_and!; auto; try lia.
    intros d Hd Hm. destruct (Hn5 d Hd Hm) as (a' & Ha & ?). exists (EA a'). unfold on_A. by rewrite Ha.
  - destruct (bits_spec b Hi Hb) as (n & Hn1 & Hn2 & Hn3 & Hn4 & Hn5). exists n. split_and!; auto; try lia.
    intros d Hd Hm. destruct (Hn5 d Hd Hm) as (b' & Hb' & ?). exists (EB b'). unfold on_B. by rewrite Hb'.
Qed.
End Enum2.

(** ** What every iterator does *)

Section Generic.
Context {I : Type} `{DisiSpec I}.

(** For every iterator that meets the contract, the linear [slow_advance] lands where
    [advance] is documented to land: on the first document from the target on. *)
Theorem slow_advance_correct (i : I) t : iter_ok i -> doc_id i < t <= NO_MORE_DOCS ->
  exists i', slow_advance t i = (Ok (doc_id i'), i') /\ iter_ok i' /\ (forall d, mem i' d = mem i d)
    /\ first_at (mem i) t (doc_id i').
Proof.
  intros Hi Ht. unfold slow_advance. erewrite sbind_ok by done.
  rewrite slift_sbind. destruct (Z.ltb_spec (doc_id i) t); [|lia]. cbn [debug_assert].
  edestruct (loop_ok (S := I) (X := unit) (A := Z)) with
    (Inv := fun (_ : unit) j => iter_ok j /\ (forall d, mem j d = mem i d) /\ doc_id j < t)
    (Post := fun r j => r = doc_id j /\ iter_ok j /\ (forall d, mem j d = mem i d) /\ first_at (mem i) t (doc_id j))
    (measure := fun (_ : unit) j => NO_MORE_DOCS - doc_id j) as (r & i' & Hl & -> & Hp); [| | | |by exists i'; split; [exact Hl|]].
  - intros _ j (Hj & _). pose proof (doc_range j Hj). lia.
  - intros [] j (Hj & Hm & Hd). destruct (next_spec j Hj ltac:(lia)) as (j' & Hn & Hj' & Hm' & Hf).
    erewrite sbind_ok by exact Hn. eexists _, j'. split; [done|]. destruct Hf as (Hf1 & Hf2 & Hf3).
    assert (forall d, mem j' d = mem i d) by (intros; by rewrite Hm').
    destruct (Z.leb_spec t (doc_id j')); [|split_and!; auto; lia].
    do 3 (split; [done|]). split_and!; [lia|lia|intros Hlt; rewrite <- Hm; by apply Hf2|].
    intros d Hd'. rewrite <- Hm. apply Hf3. lia.
  - split_and!; auto.
  - pose proof (doc_range i Hi). unfold NO_MORE_DOCS, i32_MAX in *. change (2 ^ Z.of_nat 32) with 4294967296. lia.
Qed.

Lemma collect_ok (i : I) : iter_ok i -> doc_id i < NO_MORE_DOCS ->
  exists docs i', collect i = (Ok docs, i') /\ iter_ok i' /\ doc_id i' = NO_MORE_DOCS
    /\ StronglySorted Z.lt docs
    /\ forall d, d ∈ docs <-> doc_id i < d < NO_MORE_DOCS /\ mem i d = true.
Proof.
  intros Hi Hd0. unfold collect.
  edestruct (loop_ok (S := I) (X := list Z) (A := list Z)) with
    (Inv := fun acc j => iter_ok j /\ (forall d, mem j d = mem i d) /\ doc_id i <= doc_id j < NO_MORE_DOCS
      /\ StronglySorted Z.lt acc /\ forall d, d ∈ acc <-> doc_id i < d <= doc_id j /\ mem i d = true)
    (Post := fun docs j => iter_ok j /\ doc_id j = NO_MORE_DOCS /\ StronglySorted Z.lt docs
      /\ forall d, d ∈ docs <-> doc_id i < d < NO_MORE_DOCS /\ mem i d = true)
    (measure := fun (_ : list Z) (j : I) => NO_MORE_DOCS - doc_id j) as (docs & i' & Hl & Hp);
    [| | | |by exists docs, i'; split; [exact Hl|]].
  - intros _ j (Hj & _ & Hr & _). lia.
  - intros acc j (Hj & Hm & Hr & Hs & Hacc). destruct (next_spec j Hj ltac:(lia)) as (j' & Hn & Hj' & Hm' & Hf1 & Hf2 & Hf3).
    erewrite sbind_ok by exact Hn. eexists _, j'. split; [done|].
    assert (Hgap : forall d, doc_id j < d < doc_id j' -> mem i d = false).
    { intros d Hd. rewrite <- Hm. apply Hf3. lia. }
    destruct (Z.eqb_spec (doc_id j') NO_MORE_DOCS) as [He|Hne].
    + split_and!; auto. intros d. rewrite Hacc. split; [intros [? ?]; split; [lia|done]|].
      intros [Hd Hmd]. split; [|done]. destruct (Z.le_gt_cases d (doc_id j)); [lia|].
      rewrite Hgap in Hmd by lia. done.
    + split; [|lia]. split_and!; [done|intros d; by rewrite Hm'|lia|lia| |].
      * apply StronglySorted_app. split_and!; [|done|by constructor; [constructor|]].
        intros x1 x2 Hx1 Hx2%list_elem_of_singleton. subst. apply Hacc in Hx1. lia.
      * intros d. rewrite elem_of_app, list_elem_of_singleton, Hacc. split.
        -- intros [[? ?]| ->]; split; try lia; [done|rewrite <- Hm; apply Hf2; lia].
        -- intros [Hd Hmd]. destruct (Z.le_gt_cases d (doc_id j)); [left; split; [lia|done]|].
           destruct (decide (d = doc_id j')); [by right|]. rewrite Hgap in Hmd by lia. done.
  - split_and!; auto; try lia; [constructor|]. intros d. split; [by intros ?%elem_of_nil|lia].
  - pose proof (doc_range i Hi). unfold NO_MORE_DOCS, i32_MAX in *. change (2 ^ Z.of_nat 32) with 4294967296. lia.
Qed.
End Generic.


(** ** The concrete iterators, listed *)

Lemma sorted_lt_ext (l1 l2 : list Z) : StronglySorted Z.lt l1 -> StronglySorted Z.lt l2 ->
  (forall d, d ∈ l1 <-> d ∈ l2) -> l1 = l2.
Proof.
  intros H1 H2 Hext. assert (Hnd : forall l, StronglySorted Z.lt l -> NoDup l).
  { intros l Hl. induction Hl as [|x l Hl IH Hx]; constructor; [|done].
    intros Hin. eapply Forall_forall in Hx; [|exact Hin]. lia. }
  assert (AntiSymm (=) Z.lt) by (intros x y ? ?; lia).
  apply (StronglySorted_unique Z.lt); [done|done|].
  apply NoDup_Permutation; auto.
Qed.

Lemma seqZ_sorted m n : StronglySorted Z.lt (seqZ m n).
Proof.
  destruct (Z.le_gt_cases n 0) as [|Hn]; [rewrite seqZ_nil by lia; constructor|].
  revert m. apply (Zlt_0_ind (fun n => forall m, StronglySorted Z.lt (seqZ m n))); [|lia].
  intros k IH Hk m. destruct (Z.eq_dec k 0) as [->|]; [rewrite seqZ_nil by lia; constructor|].
  rewrite seqZ_cons by lia. constructor; [apply IH; lia|].
  apply Forall_forall. intros x Hx%elem_of_seqZ. lia.
Qed.

Lemma filter_sorted (P : Z -> Prop) `{forall x, Decision (P x)} l :
  StronglySorted Z.lt l -> StronglySorted Z.lt (filter P l).
Proof.
  intros Hl. induction Hl as [|x l Hl IH Hx]; [constructor|]. rewrite filter_cons.
  destruct (decide (P x)); [|done]. constructor; [done|].
  apply Forall_forall. intros y [_ Hy]%list_elem_of_filter. by eapply Forall_forall in Hx.
Qed.

(** The two ways to say what an iterator lists. *)
Lemma collect_is {I : Type} `{DisiSpec I} (i : I) docs : iter_ok i -> doc_id i < NO_MORE_DOCS ->
  StronglySorted Z.lt docs ->
  (forall d, d ∈ docs <-> doc_id i < d < NO_MORE_DOCS /\ mem i d = true) ->
  exists i', collect i = (Ok docs, i') /\ iter_ok i' /\ doc_id i' = NO_MORE_DOCS.
Proof.
  intros Hi Hd Hs Hdocs. destruct (collect_ok i Hi Hd) as (docs' & i' & Hc & Hi' & Hend & Hs' & Hm).
  exists i'. rewrite <- (sorted_lt_ext docs' docs); auto. intros d. by rewrite Hm, Hdocs.
Qed.

(** Iterating a new [RangeDISI] lists exactly the documents from [min_doc] to
    [max_doc - 1], once each and ascending, an [AllDISI] all documents below [max_doc] and an
    [EmptyDISI] none; bounds that are not [0 <= min_doc < max_doc] are refused. *)
Theorem simple_iterators_list_their_docs min max n : max <= NO_MORE_DOCS -> 0 <= n <= NO_MORE_DOCS ->
  (0 <= min < max -> exists i i', RangeDISI.new min max = Ok i
     /\ collect i = (Ok (seqZ min (max - min)), i') /\ doc_id i' = NO_MORE_DOCS) /\
  (min < 0 \/ max <= min -> RangeDISI.new min max = Err IllegalArgument) /\
  (exists i', collect (AllDISI.new n) = (Ok (seqZ 0 n), i') /\ doc_id i' = NO_MORE_DOCS) /\
  (exists i', collect EmptyDISI.new = (Ok [], i') /\ doc_id i' = NO_MORE_DOCS).
Proof.
  intros Hmax Hn. split_and!.
  - intros Hr. exists (RangeDISI.mk (-1) min max).
    destruct (collect_is (RangeDISI.mk (-1) min max) (seqZ min (max - min))) as (i' & Hc & _ & He).
    + repeat split; cbn; auto; lia.
    + done.
    + apply seqZ_sorted.
    + intros d. rewrite elem_of_seqZ. cbn. unfold range_mem. cbn. rewrite andb_true_iff, Z.leb_le, Z.ltb_lt. lia.
    + exists i'. split_and!; [|done|done]. unfold RangeDISI.new. zcase.
  - intros Hr. unfold RangeDISI.new. zcase.
  - destruct (collect_is (AllDISI.new n) (seqZ 0 n)) as (i' & Hc & _ & He); [| | | |by exists i'].
    + repeat split; cbn; unfold NO_MORE_DOCS, i32_MAX in *; lia.
    + done.
    + apply seqZ_sorted.
    + intros d. rewrite elem_of_seqZ. cbn. unfold all_mem. cbn. rewrite andb_true_iff, Z.leb_le, Z.ltb_lt. lia.
  - destruct (collect_is EmptyDISI.new []) as (i' & Hc & _ & He); [done|done|constructor| |by exists i'].
    intros d. split; [by intros ?%elem_of_nil|by intros [_ ?]].
Qed.

Lemma simple_iterators_list_their_docs_witness :
  (exists i i', RangeDISI.new 3 7 = Ok i /\ collect i = (Ok [3; 4; 5; 6], i') /\ doc_id i' = NO_MORE_DOCS) /\
  RangeDISI.new 7 3 = Err IllegalArgument.
Proof.
  split.
  - apply (simple_iterators_list_their_docs 3 7 0); unfold NO_MORE_DOCS, i32_MAX; lia.
  - apply (simple_iterators_list_their_docs 7 3 0); unfold NO_MORE_DOCS, i32_MAX; lia.
Defined.

(** Iterating a [BitSetIterator] over a well-formed [FixedBitSet] lists exactly its one
    bits in ascending order; a negative cost and a set too long for an [i32] are refused. *)
Theorem bit_set_iterator_lists_bits s c : FixedBitSet.inv s ->
  if c <? 0 then BitSetIterator.new s c = Err IllegalArgument
  else if i32_MAX <? FixedBitSet.num_bits s then BitSetIterator.new s c = Err IllegalState
  else exists i i', BitSetIterator.new s c = Ok i /\ doc_id i' = NO_MORE_DOCS
    /\ collect i = (Ok (filter (fun d => FixedBitSet.bit s d = true) (seqZ 0 (FixedBitSet.num_bits s))), i').
Proof.
  intros Hs. unfold BitSetIterator.new. destruct (c <? 0); [done|].
  rewrite Z.ltb_antisym. destruct (Z.leb_spec (FixedBitSet.num_bits s) i32_MAX); cbn [negb]; [|done].
  set (i := BitSetIterator.mk s (FixedBitSet.num_bits s) c (-1)).
  edestruct (collect_is i) as (i' & Hc & _ & He); [| | | |exists i, i'; split_and!; [done|done|exact Hc]].
  - split_and!; try done; cbn; unfold NO_MORE_DOCS, i32_MAX in *; lia.
  - done.
  - apply filter_sorted, seqZ_sorted.
  - intros d. rewrite list_elem_of_filter, elem_of_seqZ. cbn. unfold bsi_mem, NO_MORE_DOCS. cbn.
    split; [intros [? ?]; split; [lia|done]|]. intros [Hd Hb]. split; [done|].
    destruct (Z.lt_ge_cases d (FixedBitSet.num_bits s)); [lia|].
    rewrite FixedBitSet.bit_ghost in Hb by done. done.
Qed.

Lemma bit_set_iterator_lists_bits_witness : exists i i', BitSetIterator.new FixedBitSet.sample 1 = Ok i
  /\ doc_id i' = NO_MORE_DOCS /\ collect i = (Ok [0; 2; 131], i').
Proof. apply (bit_set_iterator_lists_bits FixedBitSet.sample 1). apply FixedBitSet.sample_inv. Defined.

Lemma slow_advance_correct_witness : exists i', slow_advance 5 (RangeDISI.mk (-1) 3 9) = (Ok (doc_id i'), i')
  /\ iter_ok i' /\ (forall d, mem i' d = mem (RangeDISI.mk (-1) 3 9) d)
  /\ first_at (mem (RangeDISI.mk (-1) 3 9)) 5 (doc_id i').
Proof.
  apply (slow_advance_correct (RangeDISI.mk (-1) 3 9) 5).
  - repeat split; cbn; auto; unfold NO_MORE_DOCS, i32_MAX; lia.
  - cbn. unfold NO_MORE_DOCS, i32_MAX. lia.
Defined.

End Disi.
