(* ===== verification/FreqProx.v ===== *)
(** Model of the writer of in-memory postings and of the enumerators that read them back:
    [FreqProxPostingsArray] and [FreqProxTermsWriterPerField]
    (src/core/index/freq_prox_terms_writer_per_field.rs), [FreqProxDocsEnum] and
    [FreqProxPostingsEnum] (src/core/index/freq_prox_fields.rs), [FieldInvertState]
    (src/core/index/field_invert_state.rs). *)

From Stdlib Require Import ZArith Lia Bool.
From stdpp Require Import base tactics numbers list.
From S2P Require Import Prelude ArrayUtil BitUtil DataOutput DataInput StringHelper.
From S2P Require Import ByteBlockPool BytesRefHash ByteSlices Disi TermsHash.
Import BitUtil.

Local Open Scope Z_scope.

(** * The columns beside the starts *)

Module FreqProxPostingsArray.
Record t := mk {
  size : Z;
  term_freqs : option (list Z);
  last_docs : list (Z * Z);
  last_positions : option (list Z);
  last_offsets : option (list Z);
  parent : ParallelPostingsArray.t }.

(** Offsets come with positions in every value of [IndexOptions], so the assertion of the
    source on the flags holds. *)
Definition new (size : Z) (write_freqs write_prox write_offsets : bool) : t :=
  let zeros := replicate (Z.to_nat size) 0 in
  mk size (if write_freqs then Some zeros else None) (replicate (Z.to_nat size) (0, 0))
    (if write_prox then Some zeros else None) (if write_prox && write_offsets then Some zeros else None)
    (ParallelPostingsArray.new size).

Definition has_freq (o : IndexOptions) : bool := options_ge o DocsAndFreqs.
Definition has_prox (o : IndexOptions) : bool := options_ge o DocsAndFreqsAndPositions.
Definition has_offsets (o : IndexOptions) : bool := options_ge o DocsAndFreqsAndPositionsAndOffsets.

Definition new_for_index_ (size : Z) (o : IndexOptions) : t := new size (has_freq o) (has_prox o) (has_offsets o).

Definition option_bytes {A} (c : option A) : Z := match c with Some _ => INT_BYTES | None => 0 end.
Definition bytes_per_posting_ (a : t) : Z :=
  ParallelPostingsArray.BYTES_PER_POSTING + 2 * INT_BYTES + option_bytes (last_positions a)
  + option_bytes (last_offsets a) + option_bytes (term_freqs a).

Definition with_size (a : t) (n : Z) : t := mk n (term_freqs a) (last_docs a) (last_positions a) (last_offsets a) (parent a).
Definition with_term_freqs (a : t) (l : list Z) : t :=
  mk (size a) (Some l) (last_docs a) (last_positions a) (last_offsets a) (parent a).
Definition with_last_docs (a : t) (l : list (Z * Z)) : t :=
  mk (size a) (term_freqs a) l (last_positions a) (last_offsets a) (parent a).
Definition with_last_positions (a : t) (l : list Z) : t :=
  mk (size a) (term_freqs a) (last_docs a) (Some l) (last_offsets a) (parent a).
Definition with_last_offsets (a : t) (l : list Z) : t :=
  mk (size a) (term_freqs a) (last_docs a) (last_positions a) (Some l) (parent a).
Definition with_parent (a : t) (p : ParallelPostingsArray.t) : t :=
  mk (size a) (term_freqs a) (last_docs a) (last_positions a) (last_offsets a) p.

Definition on_parent {A} (m : ST ParallelPostingsArray.t A) : ST t A := fun a =>
  let '(r, p) := m (parent a) in (r, with_parent a p).

(** A column that is there grows to the new size. *)
Definition grow_column (c : t -> option (list Z)) (put : t -> list Z -> t) (n : Z) : ST t unit :=
  let* a := sget in
  match c a with
  | Some l => let* l := slift (ArrayUtil.grow_exact l n 0) in sput (put a l)
  | None => sret tt
  end.

Definition copy_to_ (new_size : Z) : ST t unit :=
  let* _ := on_parent (copy_to new_size) in
  let* a := sget in
  let* _ := sput (with_size a new_size) in
  let* a := sget in
  let* l := slift (ArrayUtil.grow_exact (last_docs a) new_size (0, 0)) in
  let* _ := sput (with_last_docs a l) in
  let* _ := grow_column last_positions with_last_positions new_size in
  let* _ := grow_column last_offsets with_last_offsets new_size in
  grow_column term_freqs with_term_freqs new_size.

#[global] Instance freq_prox_array : PostingsArray t := {
  new_for_index := new_for_index_;
  bytes_per_posting := bytes_per_posting_;
  copy_to := copy_to_;
  get_size := size;
  get_rows a := get_rows (parent a);
  set_row a rs := with_parent a (set_row (parent a) rs) }.

(** Reading and writing a column that must be there ([ok_or_else]); an index out of range
    panics. *)
Definition column_get (c : option (list Z)) (i : Z) : result Z :=
  match c with Some l => vget l i | None => Err IllegalState end.
Definition column_set (c : t -> option (list Z)) (put : t -> list Z -> t) (i v : Z) (a : t) : result t :=
  match c a with Some l => let? l := vset l i v in Ok (put a l) | None => Err IllegalState end.
Definition set_last_doc (i : Z) (d : Z * Z) (a : t) : result t :=
  let? l := vset (last_docs a) i d in Ok (with_last_docs a l).
End FreqProxPostingsArray.

(** * The state of inverting a field *)

Module FieldInvertState.
Record t := mk {
  position : Z;
  length : Z;
  num_overlap : Z;
  offset : Z;
  max_term_frequency : Z;
  unique_term_count : Z;
  last_start_offset : Z;
  last_position : Z }.

Definition new : t := mk 0 0 0 0 0 0 0 0.
Definition reset (_ : t) : t := mk (-1) 0 0 0 0 0 0 0.

Definition with_max_term_frequency (s : t) (m : Z) : t :=
  mk (position s) (length s) (num_overlap s) (offset s) m (unique_term_count s) (last_start_offset s) (last_position s).
Definition with_unique_term_count (s : t) (n : Z) : t :=
  mk (position s) (length s) (num_overlap s) (offset s) (max_term_frequency s) n (last_start_offset s) (last_position s).
End FieldInvertState.

(** The attributes of a token the writer asks for. *)
Record attributes := mk_attributes {
  get_payload : result (option BytesRef.t);
  start_offset : result Z;
  end_offset : result Z;
  get_term_frequency : result Z;
  get_bytes_ref : result (option BytesRef.t) }.

(** * The writer *)

Module FreqProxTermsWriterPerField.
Import FreqProxPostingsArray.
Section Writer.
Context (seed : Z).

(** The field with its term hash, the two pools and the invert state it is called with. *)
Record t := mk {
  options : IndexOptions;
  saw_payloads : bool;
  base : @TermsHashPerField.state FreqProxPostingsArray.t;
  field_state : FieldInvertState.t }.

Definition field_has_freq (w : t) : bool := has_freq (options w).
Definition field_has_prox (w : t) : bool := has_prox (options w).
Definition field_has_offsets (w : t) : bool := has_offsets (options w).

Definition new (o : IndexOptions) (counter : Z) (ip : IntBlockPool.t) (bp : ByteBlockPool.t) (fs : FieldInvertState.t) : result t :=
  let stream_count := if options_ge o DocsAndFreqsAndPositions then 2 else 1 in
  let? f := TermsHashPerField.new stream_count counter o in
  Ok (mk o false (TermsHashPerField.mk_state f ip bp) fs).

Definition on_base {A} (m : ST TermsHashPerField.state A) : ST t A := fun w =>
  let '(r, b) := m (base w) in (r, mk (options w) (saw_payloads w) b (field_state w)).
Definition set_field_state (fs : FieldInvertState.t) : ST t unit := fun w =>
  (Ok tt, mk (options w) (saw_payloads w) (base w) fs).
Definition set_saw_payloads : ST t unit := fun w => (Ok tt, mk (options w) true (base w) (field_state w)).
Definition get_postings : ST t FreqProxPostingsArray.t :=
  let* w := sget in slift (TermsHashPerField.postings_or_error (TermsHashPerField.per_field (base w))).
Definition on_postings (g : FreqProxPostingsArray.t -> result FreqProxPostingsArray.t) : ST t unit :=
  on_base (TermsHashPerField.on_postings g).

Definition write_vint (stream i : Z) : ST t unit :=
  let* w := sget in
  on_base (TermsHashPerField.on_pools (TermsHashPerField.write_vint (TermsHashPerField.per_field (base w)) stream i)).
Definition write_bytes (stream : Z) (b : list Z) (offset len : Z) : ST t unit :=
  let* w := sget in
  on_base (TermsHashPerField.on_pools (TermsHashPerField.write_bytes (TermsHashPerField.per_field (base w)) stream b offset len)).

Definition write_prox (term_id prox_code : Z) (a : attributes) : ST t unit :=
  let* payload := slift (get_payload a) in
  let plain := write_vint 1 (as_i32 (Z.shiftl prox_code 1)) in
  let* _ := match payload with
            | Some p =>
                if 0 <? BytesRef.length_ p then
                  let* _ := write_vint 1 (Z.lor (as_i32 (Z.shiftl prox_code 1)) 1) in
                  let* _ := write_vint 1 (as_i32 (BytesRef.length_ p)) in
                  let* _ := write_bytes 1 (BytesRef.bytes p) (BytesRef.offset p) (BytesRef.length_ p) in
                  set_saw_payloads
                else plain
            | None => plain
            end in
  let* w := sget in
  on_postings (column_set last_positions with_last_positions term_id (FieldInvertState.position (field_state w))).

Definition write_offsets (term_id offset_accum : Z) (a : attributes) : ST t unit :=
  let* start := slift (start_offset a) in
  let* end_ := slift (end_offset a) in
  let* start_offset := slift (ByteBlockPool.exact_i32 (offset_accum + start)) in
  let* end_offset := slift (ByteBlockPool.exact_i32 (offset_accum + end_)) in
  let* p := get_postings in
  let* last_offset := slift (column_get (last_offsets p) term_id) in
  let* v1 := slift (ByteBlockPool.exact_i32 (start_offset - last_offset)) in
  let* _ := slift (debug_assert (0 <=? v1)) in
  let* v2 := slift (ByteBlockPool.exact_i32 (end_offset - start_offset)) in
  let* _ := on_postings (column_set last_offsets with_last_offsets term_id start_offset) in
  let* _ := write_vint 1 v1 in
  write_vint 1 v2.

Definition get_term_freq (a : attributes) : ST t Z :=
  let* w := sget in
  let* freq := slift (match get_term_frequency a with Err _ => Ok 1 | r => r end) in
  if negb (freq =? 1) && field_has_prox w then slift (Err IllegalState) else sret freq.

(** Positions and offsets of a token, for the fields that index them. *)
Definition write_token (term_id prox_code : Z) (a : attributes) : ST t unit :=
  let* _ := write_prox term_id prox_code a in
  let* w := sget in
  if field_has_offsets w then write_offsets term_id (FieldInvertState.offset (field_state w)) a else sret tt.

Definition count_unique_term : ST t unit :=
  let* w := sget in
  let* n := slift (ByteBlockPool.exact_i32 (FieldInvertState.unique_term_count (field_state w) + 1)) in
  set_field_state (FieldInvertState.with_unique_term_count (field_state w) n).
Definition raise_max_term_frequency (tf : Z) : ST t unit :=
  let* w := sget in
  set_field_state (FieldInvertState.with_max_term_frequency (field_state w)
                     (Z.max (FieldInvertState.max_term_frequency (field_state w)) tf)).

Definition new_term (term_id doc_id : Z) (a : attributes) : ST t unit :=
  let* tf := get_term_freq a in
  let* w := sget in
  let* p := get_postings in
  let* d := slift (vget (last_docs p) term_id) in
  let* _ := on_postings (set_last_doc term_id (doc_id, snd d)) in
  let* _ :=
    (if negb (field_has_freq w) then
       let* _ := slift (debug_assert (match term_freqs p with None => true | _ => false end)) in
       let* _ := on_postings (set_last_doc term_id (doc_id, doc_id)) in
       raise_max_term_frequency 1
     else
       let* _ := on_postings (set_last_doc term_id (doc_id, as_i32 (Z.shiftl doc_id 1))) in
       let* _ := on_postings (column_set term_freqs with_term_freqs term_id tf) in
       let* _ := (if field_has_prox w then write_token term_id (FieldInvertState.position (field_state w)) a
                  else slift (debug_assert (negb (field_has_offsets w)))) in
       raise_max_term_frequency tf) in
  count_unique_term.

(** The values kept until after the borrow, [v.into_iter().flatten()]. *)
Fixpoint write_vints (stream : Z) (v : list Z) : ST t unit :=
  match v with
  | [] => sret tt
  | x :: v => let* _ := write_vint stream x in write_vints stream v
  end.

Definition add_term (term_id doc_id : Z) (a : attributes) : ST t unit :=
  let* tf := get_term_freq a in
  let* w := sget in
  let* p := get_postings in
  let* _ := (if field_has_freq w then
               let* f := slift (column_get (term_freqs p) term_id) in
               slift (debug_assert (0 <? f))
             else sret tt) in
  let* (last_doc, last_code) := slift (vget (last_docs p) term_id) in
  if negb (field_has_freq w) then
    let* _ := slift (debug_assert (match term_freqs p with None => true | _ => false end)) in
    if negb (tf =? 1) then slift (Err IllegalState)
    else if negb (doc_id =? last_doc) then
      let* _ := slift (debug_assert (last_doc <? doc_id)) in
      let* delta := slift (ByteBlockPool.exact_i32 (doc_id - last_doc)) in
      let* _ := on_postings (set_last_doc term_id (doc_id, delta)) in
      let* _ := count_unique_term in
      write_vints 0 [last_code]
    else sret tt
  else if negb (doc_id =? last_doc) then
    let* _ := slift (debug_assert (last_doc <? doc_id)) in
    let* freq := slift (column_get (term_freqs p) term_id) in
    let v := if freq =? 1 then [Z.lor last_code 1] else [last_code; freq] in
    let* _ := on_postings (column_set term_freqs with_term_freqs term_id tf) in
    let* _ := raise_max_term_frequency tf in
    let* delta := slift (ByteBlockPool.exact_i32 (doc_id - last_doc)) in
    let* _ := on_postings (set_last_doc term_id (doc_id, as_i32 (Z.shiftl delta 1))) in
    let* _ := (if field_has_prox w && field_has_offsets w then
                 on_postings (column_set last_offsets with_last_offsets term_id 0)
               else sret tt) in
    let* _ := write_vints 0 v in
    let* _ := (if field_has_prox w then write_token term_id (FieldInvertState.position (field_state w)) a
               else slift (debug_assert (negb (field_has_offsets w)))) in
    count_unique_term
  else
    let* f := slift (column_get (term_freqs p) term_id) in
    let* f := slift (if (f + tf <=? i32_MAX) && (- 2 ^ 31 <=? f + tf) then Ok (f + tf) else Err IllegalState) in
    let* _ := on_postings (column_set term_freqs with_term_freqs term_id f) in
    let* _ := raise_max_term_frequency f in
    if field_has_prox w then
      let* last := slift (column_get (last_positions p) term_id) in
      let* delta := slift (ByteBlockPool.exact_i32 (FieldInvertState.position (field_state w) - last)) in
      write_token term_id delta a
    else sret tt.

(** [add_with_bytes_ref] of a field without term vectors. *)
Definition add_with_bytes_ref (term_bytes : option BytesRef.t) (doc_id : Z) (a : attributes) : ST t unit :=
  let* ok := on_base (TermsHashPerField.assert_doc_id doc_id) in
  let* _ := slift (debug_assert ok) in
  let* bytes := slift (get_bytes_ref a) in
  let* term_bytes := slift (match term_bytes, bytes with
                            | Some b, _ => Ok b
                            | None, Some b => Ok b
                            | None, None => Err IllegalState
                            end) in
  let* term_id := on_base (TermsHashPerField.on_hash (BytesRefHash.add seed term_bytes)) in
  if 0 <=? term_id then
    let* _ := on_base (TermsHashPerField.init_stream_slices term_id) in
    new_term term_id doc_id a
  else
    let* term_id := on_base (TermsHashPerField.position_stream_slice term_id) in
    add_term term_id doc_id a.
End Writer.
End FreqProxTermsWriterPerField.

(** * The enumerators *)

(** What both enumerators borrow: the field and the pools. *)
Record field_view := mk_view {
  view_options : IndexOptions;
  view_field : @TermsHashPerField.t FreqProxPostingsArray.t;
  view_ints : IntBlockPool.t;
  view_bytes : ByteBlockPool.t }.

Definition view_postings (v : field_view) : result FreqProxPostingsArray.t := TermsHashPerField.postings_or_error (view_field v).

Module FreqProxDocsEnum.
Import FreqProxPostingsArray.
Section Enum.
Context (terms : field_view).

Record t := mk {
  reader : ByteSliceReader.t;
  read_term_freq : bool;
  doc_id : Z;
  freq : Z;
  ended : bool;
  term_id : option Z }.

Definition new : t := mk (ByteSliceReader.new (view_bytes terms)) (has_freq (view_options terms)) (-1) 0 false None.

Definition with_reader (e : t) (r : ByteSliceReader.t) : t := mk r (read_term_freq e) (doc_id e) (freq e) (ended e) (term_id e).
Definition with_doc_id (e : t) (d : Z) : t := mk (reader e) (read_term_freq e) d (freq e) (ended e) (term_id e).
Definition with_freq (e : t) (f : Z) : t := mk (reader e) (read_term_freq e) (doc_id e) f (ended e) (term_id e).
Definition with_ended (e : t) : t := mk (reader e) (read_term_freq e) (doc_id e) (freq e) true (term_id e).
Definition on_reader {A} (m : ST ByteSliceReader.t A) : ST t A := fun e =>
  let '(r, rd) := m (reader e) in (r, with_reader e rd).

(** A term id of -1 is turned into an index out of range, which panics. *)
Definition reset (id : Z) (e : t) : result t :=
  let? r := TermsHashPerField.init_reader (view_field terms) (reader e) (as_u64 id) 0 (view_ints terms) in
  Ok (mk r (read_term_freq e) (-1) (freq e) false (if id =? -1 then None else Some (as_u64 id))).

Definition next_doc : ST t Z :=
  let* e := sget in
  let* _ := (if doc_id e =? -1 then sput (with_doc_id e 0) else sret tt) in
  let* e := sget in
  let* at_end := slift (ByteSliceReader.eof (reader e)) in
  if at_end then
    if ended e then sret Disi.NO_MORE_DOCS
    else
      let* _ := sput (with_ended e) in
      let* p := slift (view_postings terms) in
      let* id := slift (match term_id e with Some i => Ok i | None => Err IllegalState end) in
      let* (d, _) := slift (vget (last_docs p) id) in
      let* e := sget in
      let* _ := sput (with_doc_id e d) in
      let* _ := (if read_term_freq e then
                   let* e := sget in
                   let* f := slift (column_get (term_freqs p) id) in
                   sput (with_freq e f)
                 else sret tt) in
      sret d
  else
    let* code := on_reader (read_vint 5) in
    let* e := sget in
    let* _ := (if negb (read_term_freq e) then
                 let* d := slift (ByteBlockPool.exact_i32 (doc_id e + code)) in
                 sput (with_doc_id e d)
               else
                 let* d := slift (ByteBlockPool.exact_i32 (doc_id e + as_i32 (Z.shiftr (as_u32 code) 1))) in
                 let* _ := sput (with_doc_id e d) in
                 if negb (Z.land code 1 =? 0) then sput (with_freq (with_doc_id e d) 1)
                 else
                   let* f := on_reader (read_vint 5) in
                   let* e := sget in
                   sput (with_freq e f)) in
    let* e := sget in
    let* _ := slift (debug_assert
                (match view_postings terms, term_id e with
                 | Ok p, Some i => match vget (last_docs p) i with Ok (d, _) => negb (doc_id e =? d) | _ => false end
                 | _, _ => false
                 end)) in
    sret (doc_id e).

Definition get_freq (e : t) : result Z := if read_term_freq e then Ok (freq e) else Err IllegalState.
End Enum.
End FreqProxDocsEnum.

Module FreqProxPostingsEnum.
Import FreqProxPostingsArray.
Section Enum.
(** [capacity] is the room of the payload's [Vec], which the allocator decides. *)
Context (terms : field_view) (capacity : list Z -> Z).

Record t := mk {
  reader : ByteSliceReader.t;
  pos_reader : ByteSliceReader.t;
  read_offsets : bool;
  doc_id : Z;
  freq : Z;
  pos : Z;
  start_offset : Z;
  end_offset : Z;
  pos_left : Z;
  term_id : Z;
  ended : bool;
  has_payload : bool;
  payload : BytesRef.t }.

Definition new : result t :=
  let? _ := debug_assert (has_prox (view_options terms)) in
  let? _ := debug_assert (has_freq (view_options terms)) in
  Ok (mk (ByteSliceReader.new (view_bytes terms)) (ByteSliceReader.new (view_bytes terms)) (has_offsets (view_options terms))
        (-1) 0 0 0 0 0 0 false false (BytesRef.mk [] 0 0)).

Definition with_reader (e : t) (r : ByteSliceReader.t) : t :=
  mk r (pos_reader e) (read_offsets e) (doc_id e) (freq e) (pos e) (start_offset e) (end_offset e) (pos_left e) (term_id e)
    (ended e) (has_payload e) (payload e).
Definition with_pos_reader (e : t) (r : ByteSliceReader.t) : t :=
  mk (reader e) r (read_offsets e) (doc_id e) (freq e) (pos e) (start_offset e) (end_offset e) (pos_left e) (term_id e)
    (ended e) (has_payload e) (payload e).
Definition with_doc (e : t) (d f : Z) : t :=
  mk (reader e) (pos_reader e) (read_offsets e) d f (pos e) (start_offset e) (end_offset e) (pos_left e) (term_id e)
    (ended e) (has_payload e) (payload e).
Definition with_ended (e : t) : t :=
  mk (reader e) (pos_reader e) (read_offsets e) (doc_id e) (freq e) (pos e) (start_offset e) (end_offset e) (pos_left e)
    (term_id e) true (has_payload e) (payload e).
Definition with_left (e : t) (l p s : Z) : t :=
  mk (reader e) (pos_reader e) (read_offsets e) (doc_id e) (freq e) p s (end_offset e) l (term_id e) (ended e)
    (has_payload e) (payload e).
Definition with_payload (e : t) (h : bool) (b : BytesRef.t) : t :=
  mk (reader e) (pos_reader e) (read_offsets e) (doc_id e) (freq e) (pos e) (start_offset e) (end_offset e) (pos_left e)
    (term_id e) (ended e) h b.
Definition with_offsets (e : t) (s en : Z) : t :=
  mk (reader e) (pos_reader e) (read_offsets e) (doc_id e) (freq e) (pos e) s en (pos_left e) (term_id e) (ended e)
    (has_payload e) (payload e).

Definition on_reader {A} (m : ST ByteSliceReader.t A) : ST t A := fun e =>
  let '(r, rd) := m (reader e) in (r, with_reader e rd).
Definition on_pos_reader {A} (m : ST ByteSliceReader.t A) : ST t A := fun e =>
  let '(r, rd) := m (pos_reader e) in (r, with_pos_reader e rd).

(** The buffer of the payload and its length. *)
Definition set_payload (bytes : list Z) (len : Z) : ST t unit := fun e =>
  (Ok tt, with_payload e (has_payload e) (BytesRef.mk bytes (BytesRef.offset (payload e)) len)).

Definition reset (id : Z) (e : t) : result t :=
  let i := as_u64 id in
  let? r := TermsHashPerField.init_reader (view_field terms) (reader e) i 0 (view_ints terms) in
  let? p := TermsHashPerField.init_reader (view_field terms) (pos_reader e) i 1 (view_ints terms) in
  Ok (mk r p (read_offsets e) (-1) (freq e) (pos e) (start_offset e) (end_offset e) 0 i false (has_payload e) (payload e)).

Definition next_position : ST t Z :=
  let* e := sget in
  let* _ := slift (debug_assert (0 <? pos_left e)) in
  let* _ := sput (with_left e (pos_left e - 1) (pos e) (start_offset e)) in
  let* code := on_pos_reader (read_vint 5) in
  let* e := sget in
  let* p := slift (ByteBlockPool.exact_i32 (pos e + as_i32 (Z.shiftr (as_u32 code) 1))) in
  let* _ := sput (with_left e (pos_left e) p (start_offset e)) in
  let* e := sget in
  let* _ := (if negb (Z.land code 1 =? 0) then
               let* _ := sput (with_payload e true (payload e)) in
               let* len := on_pos_reader (read_vint 5) in
               let payload_len := as_u64 len in
               let* _ := set_payload (BytesRef.bytes (payload e)) payload_len in
               let* bytes := slift (ArrayUtil.grow_no_copy 1 (capacity (BytesRef.bytes (payload e)))
                                      (BytesRef.bytes (payload e)) payload_len 0) in
               let* _ := set_payload bytes payload_len in
               let* _ := slift (debug_assert (payload_len <=? i32_MAX)) in
               let* bytes := on_pos_reader (read_bytes bytes 0 payload_len) in
               set_payload bytes payload_len
             else sput (with_payload e false (payload e))) in
  let* e := sget in
  let* _ := (if read_offsets e then
               let* v1 := on_pos_reader (read_vint 5) in
               let* e := sget in
               let* s := slift (ByteBlockPool.exact_i32 (start_offset e + v1)) in
               let* _ := sput (with_offsets e s (end_offset e)) in
               let* v2 := on_pos_reader (read_vint 5) in
               let* e := sget in
               let* en := slift (ByteBlockPool.exact_i32 (start_offset e + v2)) in
               sput (with_offsets e (start_offset e) en)
             else sret tt) in
  let* e := sget in
  sret (pos e).

(** [while self.pos_left != 0]: every turn takes one off. *)
Fixpoint skip_positions (fuel : nat) : ST t unit :=
  match fuel with
  | O => slift OutOfFuel
  | S fuel =>
      let* e := sget in
      if pos_left e =? 0 then sret tt
      else let* _ := next_position in skip_positions fuel
  end.

Definition next_doc : ST t Z :=
  let* e := sget in
  let* _ := (if doc_id e =? -1 then sput (with_doc e 0 (freq e)) else sret tt) in
  let* _ := skip_positions (S (Z.to_nat (pos_left e))) in
  let* e := sget in
  let* at_end := slift (ByteSliceReader.eof (reader e)) in
  if at_end && ended e then sret Disi.NO_MORE_DOCS
  else
    let* _ :=
      (if at_end then
         let* _ := sput (with_ended e) in
         let* p := slift (view_postings terms) in
         let* (d, _) := slift (vget (last_docs p) (term_id e)) in
         let* e := sget in
         let* _ := sput (with_doc e d (freq e)) in
         let* f := slift (column_get (term_freqs p) (term_id e)) in
         let* e := sget in
         sput (with_doc e (doc_id e) f)
       else
         let* code := on_reader (read_vint 5) in
         let* e := sget in
         let* d := slift (ByteBlockPool.exact_i32 (doc_id e + as_i32 (Z.shiftr (as_u32 code) 1))) in
         let* _ := sput (with_doc e d (freq e)) in
         let* e := sget in
         let* _ := (if negb (Z.land code 1 =? 0) then sput (with_doc e (doc_id e) 1)
                    else
                      let* f := on_reader (read_vint 5) in
                      let* e := sget in
                      sput (with_doc e (doc_id e) f)) in
         let* e := sget in
         slift (debug_assert
           (match view_postings terms with
            | Ok p => match vget (last_docs p) (term_id e) with Ok (d, _) => negb (doc_id e =? d) | _ => false end
            | _ => false
            end))) in
    let* e := sget in
    let* _ := sput (with_left e (freq e) 0 0) in
    sret (doc_id e).

Definition get_start_offset (e : t) : result Z := if read_offsets e then Ok (start_offset e) else Err IllegalState.
Definition get_end_offset (e : t) : result Z := if read_offsets e then Ok (end_offset e) else Err IllegalState.
Definition current_payload (e : t) : option BytesRef.t := if has_payload e then Some (payload e) else None.
End Enum.
End FreqProxPostingsEnum.
