(* ===== verification/FreqProxProofs.v ===== *)
(** The writer and the enumerators of in-memory postings: the bytes a list of postings is
    written as, the state of a field that holds a list of postings for every term, what
    each token does to it, and what the enumerators read. *)

From Stdlib Require Import ZArith Lia Bool.
From stdpp Require Import base tactics numbers list.
From S2P Require Import Prelude ArrayUtil BitUtil DataOutput DataInput StringHelper ByteBlockPool BytesRefHash BytesRefHashProofs.
From S2P Require Import BytesRefDictionary ByteSlices ByteSliceProofs Disi TermsHash TermsHashProofs TermStreams FreqProx.
Import BitUtil Spending.

Local Open Scope Z_scope.

(** * The columns *)

Module Columns.
Import FreqProxPostingsArray.

(** A column grows by zeros. *)
Definition grown {A} (z : A) (l l' : list A) : Prop := exists k, l' = l ++ replicate k z.

#[local] Instance grown_order {A} (z : A) : PreOrder (grown z).
Proof.
  split; [intros l; exists 0%nat; by rewrite app_nil_r|]. intros l1 l2 l3 [k ->] [k' ->]. exists (k + k')%nat.
  by rewrite <- app_assoc, replicate_add.
Qed.

Definition cell (c : option (list Z)) (t : nat) : option Z := c ≫= fun l => l !! t.

(** What the array holds for a term. *)
Record row := mk_row { r_doc : Z; r_code : Z; r_freq : option Z; r_pos : option Z; r_off : option Z }.

Definition has_row (p : FreqProxPostingsArray.t) (t : nat) (r : row) : Prop :=
  last_docs p !! t = Some (r_doc r, r_code r) /\ cell (term_freqs p) t = r_freq r /\
  cell (last_positions p) t = r_pos r /\ cell (last_offsets p) t = r_off r.

Definition sized (n : nat) (c : option (list Z)) : Prop := match c with Some l => length l = n | None => True end.

(** The columns a field has. *)
Definition present (c : option (list Z)) : bool := match c with Some _ => true | None => false end.
Definition shaped (o : IndexOptions) (p : FreqProxPostingsArray.t) : Prop :=
  present (term_freqs p) = has_freq o /\ present (last_positions p) = has_prox o /\ present (last_offsets p) = has_offsets o.

Lemma options_nested o : (has_offsets o = true -> has_prox o = true) /\ (has_prox o = true -> has_freq o = true).
Proof. by destruct o. Qed.

Lemma grow_exact_ok {A} (l : list A) n z : Z.of_nat (length l) <= n ->
  ArrayUtil.grow_exact l n z = Ok (l ++ replicate (Z.to_nat n - length l) z).
Proof.
  intros H. unfold ArrayUtil.grow_exact. destruct (Z.ltb_spec (Z.of_nat (length l)) n).
  - do 3 f_equal. lia.
  - rewrite (proj2 (Z.eqb_eq _ _)) by lia. replace (Z.to_nat n - length l)%nat with 0%nat by lia. by rewrite app_nil_r.
Qed.

Definition grow_by (n m : nat) (c : option (list Z)) : option (list Z) := (fun l => l ++ replicate (n - m) 0) <$> c.

Lemma grow_column_ok c put (n : Z) (m : nat) p : sized m (c p) -> Z.of_nat m <= n ->
  grow_column c put n p = (Ok tt, match c p with Some l => put p (l ++ replicate (Z.to_nat n - m) 0) | None => p end).
Proof.
  intros Hs Hn. unfold grow_column. rewrite sget_sbind. destruct (c p) as [l|]; [|done]. cbn in Hs. subst m.
  rewrite slift_sbind, grow_exact_ok by done. done.
Qed.

Lemma grown_column n (m : nat) c : sized m c -> (m <= n)%nat ->
  sized n (grow_by n m c) /\ option_Forall2 (grown 0) c (grow_by n m c).
Proof.
  intros Hs Hn. destruct c as [l|]; cbn in *; [|by split; [|constructor]]. split; [rewrite length_app, length_replicate; lia|].
  constructor. by eexists.
Qed.

#[global] Instance freq_prox_postings_spec : PostingsSpec FreqProxPostingsArray.t.
Proof.
  refine {| pa_ok p := pa_ok (parent p) /\ size p = Z.of_nat (length (get_rows (parent p))) /\
              length (last_docs p) = length (get_rows (parent p)) /\ sized (length (get_rows (parent p))) (term_freqs p) /\
              sized (length (get_rows (parent p))) (last_positions p) /\ sized (length (get_rows (parent p))) (last_offsets p);
            keeps p p' := grown (0, 0) (last_docs p) (last_docs p') /\ option_Forall2 (grown 0) (term_freqs p) (term_freqs p') /\
              option_Forall2 (grown 0) (last_positions p) (last_positions p') /\
              option_Forall2 (grown 0) (last_offsets p) (last_offsets p') |}.
  - split; [intros p; split_and!; reflexivity|]. intros p1 p2 p3 (A1 & A2 & A3 & A4) (B1 & B2 & B3 & B4). split_and!; by etrans.
  - intros n o Hn. cbn. unfold new_for_index_, new. cbn. rewrite !length_replicate. split; [|done]. split_and!; try done; try lia.
    + by destruct (has_freq o); cbn; rewrite ?length_replicate.
    + by destruct (has_prox o); cbn; rewrite ?length_replicate.
    + by destruct (has_prox o && has_offsets o); cbn; rewrite ?length_replicate.
  - intros p (_ & H & _). exact H.
  - intros p _. cbn. unfold bytes_per_posting_, option_bytes, ParallelPostingsArray.BYTES_PER_POSTING, INT_BYTES.
    destruct (last_positions p), (last_offsets p), (term_freqs p); lia.
  - intros p n (H1 & H2 & H3 & H4 & H5 & H6) Hl. cbn [get_rows freq_prox_array copy_to] in *.
    destruct (pa_copy (parent p) n H1 Hl) as (q & Hc & Q1 & _ & Q3).
    set (m := length (get_rows (parent p))) in *.
    exists (mk n (grow_by (Z.to_nat n) m (term_freqs p)) (last_docs p ++ replicate (Z.to_nat n - m) (0, 0))
              (grow_by (Z.to_nat n) m (last_positions p)) (grow_by (Z.to_nat n) m (last_offsets p)) q).
    assert (Hq : length (get_rows q) = Z.to_nat n) by (rewrite Q3, length_app, length_replicate; fold m; lia).
    split; [|cbn [parent size last_docs term_freqs last_positions last_offsets]; rewrite Hq, length_app, length_replicate; split_and!;
      try done; try lia; try (apply grown_column; [done|lia]); by eexists].
    unfold copy_to_. rewrite (sbind_ok _ _ p tt (with_parent p q)) by (unfold on_parent; by rewrite Hc).
    rewrite sget_sbind, sput_sbind, sget_sbind, slift_sbind. cbn [with_parent with_size last_docs].
    rewrite grow_exact_ok, sput_sbind, H3 by lia.
    unfold with_last_docs, with_size, with_parent.
    destruct p as [sz tf ld lp lo pp]. cbn [size term_freqs last_docs last_positions last_offsets parent] in *.
    erewrite sbind_ok; [|apply (grow_column_ok _ _ _ m); [exact H5|exact Hl]].
    destruct lp as [lp|]; unfold with_last_positions; cbn [size term_freqs last_docs last_positions last_offsets parent];
      (erewrite sbind_ok; [|apply (grow_column_ok _ _ _ m); [exact H6|exact Hl]]);
       destruct lo as [lo|]; unfold with_last_offsets; cbn [size term_freqs last_docs last_positions last_offsets parent];
       (rewrite (grow_column_ok _ _ _ m) by done; by destruct tf).
  - intros p rs (H1 & H2 & H3 & H4 & H5 & H6) Hl. destruct (pa_set (parent p) rs H1 Hl) as (S1 & S2 & S3). cbn in *. rewrite Hl in *.
    split_and!; try done.
Defined.

(** ** One row at a time *)

Definition with_doc (r : row) (d c : Z) : row := mk_row d c (r_freq r) (r_pos r) (r_off r).
Definition with_freq (r : row) (v : Z) : row := mk_row (r_doc r) (r_code r) (Some v) (r_pos r) (r_off r).
Definition with_pos (r : row) (v : Z) : row := mk_row (r_doc r) (r_code r) (r_freq r) (Some v) (r_off r).
Definition with_off (r : row) (v : Z) : row := mk_row (r_doc r) (r_code r) (r_freq r) (r_pos r) (Some v).

Implicit Types (p : FreqProxPostingsArray.t) (t : nat) (r : row).

(** Only row [t] differs. *)
Record only t p p' : Prop := {
  only_ok : pa_ok p';
  only_starts : get_rows p' = get_rows p;
  only_shape o : shaped o p -> shaped o p';
  only_row u r : u <> t -> has_row p u r -> has_row p' u r }.

Lemma only_refl t p : pa_ok p -> only t p p.
Proof. by constructor. Qed.

Lemma only_trans t p1 p2 p3 : only t p1 p2 -> only t p2 p3 -> only t p1 p3.
Proof. intros [A1 A2 A3 A4] [B1 B2 B3 B4]. constructor; [done|congruence|auto|auto]. Qed.

Lemma rows_parent p : get_rows p = get_rows (parent p).
Proof. done. Qed.

Lemma has_row_lt p t r : pa_ok p -> has_row p t r -> (t < length (get_rows p))%nat.
Proof. intros (_ & _ & H & _) (Hd & _). rewrite rows_parent, <- H. by eapply lookup_lt_Some. Qed.

Lemma row_exists p t : pa_ok p -> (t < length (get_rows p))%nat -> exists r, has_row p t r.
Proof.
  intros (_ & _ & H & _) Ht. rewrite rows_parent in Ht. destruct (lookup_lt_is_Some_2 (last_docs p) t) as [[d c] Hd]; [lia|].
  by exists (mk_row d c (cell (term_freqs p) t) (cell (last_positions p) t) (cell (last_offsets p) t)).
Qed.

Lemma set_last_doc_ok p t r d c : pa_ok p -> has_row p t r ->
  exists p', set_last_doc (Z.of_nat t) (d, c) p = Ok p' /\ only t p p' /\ has_row p' t (with_doc r d c).
Proof.
  intros Hp Hr. pose proof (has_row_lt _ _ _ Hp Hr) as Hlt. pose proof Hp as (H1 & H2 & H3 & H4 & H5 & H6). destruct Hr as (R1 & R2 & R3 & R4).
  rewrite rows_parent in Hlt. unfold set_last_doc. rewrite vset_ok by lia. cbn [rbind]. rewrite Nat2Z.id. eexists. split; [done|]. split.
  - constructor; [|done|done|].
    + split_and!; try done. cbn [with_last_docs last_docs parent]. by rewrite length_insert.
    + intros u r' Hu (U1 & U2). split; [|done]. cbn. by rewrite list_lookup_insert_ne.
  - split; [|done]. cbn. apply list_lookup_insert_eq. lia.
Qed.

Lemma cell_set (l : list Z) t v u : (t < length l)%nat ->
  cell (Some (<[t := v]> l)) u = if decide (u = t) then Some v else cell (Some l) u.
Proof.
  intros H. cbn. case_decide; [subst; by apply list_lookup_insert_eq|by apply list_lookup_insert_ne].
Qed.

(** The three optional columns are set alike. *)
Ltac set_column :=
  intros Hp Hr Hv; pose proof (has_row_lt _ _ _ Hp Hr) as Hlt; pose proof Hp as (H1 & H2 & H3 & H4 & H5 & H6);
  destruct Hr as (R1 & R2 & R3 & R4); rewrite rows_parent in Hlt; unfold column_set;
  match goal with H : cell ?c _ = ?x, G : ?x = Some _ |- _ =>
    let E := fresh "E" in rewrite G in H; destruct c as [l|] eqn:E; [|done]; cbn [sized] in H4, H5, H6;
    rewrite vset_ok by lia; cbn [rbind]; rewrite Nat2Z.id; eexists; split; [done|];
    unfold with_term_freqs, with_last_positions, with_last_offsets; split;
    [constructor;
      [split_and!; try done; cbn [sized parent term_freqs last_docs last_positions last_offsets]; by rewrite ?E, ?length_insert|done
      |intros o (O1 & O2 & O3); unfold shaped; cbn [term_freqs last_positions last_offsets]; rewrite ?E in *; by split_and!
      |intros u r' Hu (U1 & U2 & U3 & U4); unfold has_row; cbn [last_docs term_freqs last_positions last_offsets];
       rewrite ?E in *; rewrite cell_set, decide_False by (done || lia); by split_and!]
    |unfold has_row; cbn [last_docs term_freqs last_positions last_offsets];
     rewrite cell_set, decide_True by (done || lia); by split_and!]
  end.

Lemma set_freq_ok p t r v v0 : pa_ok p -> has_row p t r -> r_freq r = Some v0 ->
  exists p', column_set term_freqs with_term_freqs (Z.of_nat t) v p = Ok p' /\ only t p p' /\ has_row p' t (with_freq r v).
Proof. set_column. Qed.

Lemma set_pos_ok p t r v v0 : pa_ok p -> has_row p t r -> r_pos r = Some v0 ->
  exists p', column_set last_positions with_last_positions (Z.of_nat t) v p = Ok p' /\ only t p p' /\ has_row p' t (with_pos r v).
Proof. set_column. Qed.

Lemma set_off_ok p t r v v0 : pa_ok p -> has_row p t r -> r_off r = Some v0 ->
  exists p', column_set last_offsets with_last_offsets (Z.of_nat t) v p = Ok p' /\ only t p p' /\ has_row p' t (with_off r v).
Proof. set_column. Qed.

Lemma column_get_ok c t v : cell c t = Some v -> column_get c (Z.of_nat t) = Ok v.
Proof. destruct c as [l|]; [|done]. cbn. intros H. apply vget_ok; [lia|]. by rewrite Nat2Z.id. Qed.

Lemma last_docs_get p t r : has_row p t r -> vget (last_docs p) (Z.of_nat t) = Ok (r_doc r, r_code r).
Proof. intros (H & _). apply vget_ok; [lia|]. by rewrite Nat2Z.id. Qed.

(** The cells there are follow the columns there are. *)
Lemma shaped_row o p t r : pa_ok p -> shaped o p -> has_row p t r ->
  (if has_freq o then is_Some (r_freq r) else term_freqs p = None) /\ (has_prox o = true -> is_Some (r_pos r)) /\
  (has_offsets o = true -> is_Some (r_off r)).
Proof.
  intros Hp (S1 & S2 & S3) Hr. pose proof (has_row_lt _ _ _ Hp Hr) as Hlt. destruct Hp as (H1 & H2 & H3 & H4 & H5 & H6).
  destruct Hr as (R1 & R2 & R3 & R4). rewrite rows_parent in Hlt.
  assert (Hc : forall c x, sized (length (get_rows (parent p))) c -> cell c t = x -> present c = true -> is_Some x).
  { intros [l|] x Hs <- Hpr; [|done]. cbn [sized] in Hs. apply lookup_lt_is_Some_2. lia. }
  split; [|split; intros E; rewrite E in *; [by apply (Hc _ _ H5 R3)|by apply (Hc _ _ H6 R4)]].
  destruct (has_freq o); [by apply (Hc _ _ H4 R2)|]. by destruct (term_freqs p).
Qed.

Lemma keeps_shape o p p' : keeps p p' -> shaped o p -> shaped o p'.
Proof.
  intros (_ & K2 & K3 & K4) (S1 & S2 & S3). unfold shaped. rewrite <- S1, <- S2, <- S3.
  split_and!; [by destruct K2|by destruct K3|by destruct K4].
Qed.

Lemma keeps_row p p' t r : pa_ok p -> keeps p p' -> has_row p t r -> has_row p' t r.
Proof.
  intros Hp (K1 & K2 & K3 & K4) Hr. pose proof (has_row_lt _ _ _ Hp Hr) as Hlt. destruct Hp as (H1 & H2 & H3 & H4 & H5 & H6).
  destruct Hr as (R1 & R2 & R3 & R4). rewrite rows_parent in Hlt.
  assert (Hc : forall c c', sized (length (get_rows (parent p))) c -> option_Forall2 (grown 0) c c' -> cell c' t = cell c t).
  { intros c c' Hs HF. destruct HF as [l l' [k ->]|] in Hs |- *; [|done]. cbn [sized] in Hs. unfold cell. cbn [mbind option_bind]. by rewrite lookup_app_l by lia. }
  unfold has_row. rewrite (Hc _ _ H4 K2), (Hc _ _ H5 K3), (Hc _ _ H6 K4).
  split_and!; try done. destruct K1 as [k ->]. by rewrite lookup_app_l by lia.
Qed.

(** A row that was never used has no offset yet. *)
Definition blank o p t : Prop := has_offsets o = true -> cell (last_offsets p) t = Some 0.

Lemma keeps_blank o p p' t : pa_ok p -> pa_ok p' -> shaped o p -> keeps p p' -> (t < length (get_rows p'))%nat ->
  ((t < length (get_rows p))%nat -> blank o p t) -> blank o p' t.
Proof.
  intros (H1 & H2 & H3 & H4 & H5 & H6) (H1' & H2' & H3' & H4' & H5' & H6') (_ & _ & S3) (K1 & K2 & K3 & K4) Ht Hb Ho.
  rewrite Ho in S3. rewrite rows_parent in Ht, Hb. unfold blank in Hb. destruct (last_offsets p) as [l|], (last_offsets p') as [l'|]; inversion K4 as [x y [k E]|]; try done. subst. cbn [sized] in *. rewrite length_app, length_replicate in H6'. unfold cell in *. cbn [mbind option_bind] in *.
  destruct (decide (t < length l)%nat).
  - rewrite lookup_app_l by lia. apply Hb; [lia|done].
  - rewrite lookup_app_r by lia. apply lookup_replicate_2. lia.
Qed.
End Columns.

(** * Postings and their bytes *)

Module Codes.
Import FreqProxPostingsArray.

(** An occurrence of a term in a document; offsets are those of the whole field. *)
Record occurrence := mk_occ { o_pos : Z; o_start : Z; o_end : Z; o_payload : list Z }.
Record entry := mk_entry { e_doc : Z; e_freq : Z; e_occs : list occurrence }.

Section Codes.
Context (o : IndexOptions).

Definition doc_code (d : Z) : Z := if has_freq o then as_i32 (Z.shiftl d 1) else d.

Definition entry_code (prev : Z) (e : entry) : list Z :=
  let c := doc_code (e_doc e - prev) in
  if has_freq o then
    if e_freq e =? 1 then vint_code (Z.lor c 1) else vint_code c ++ vint_code (e_freq e)
  else vint_code c.

Fixpoint docs_code (prev : Z) (es : list entry) : list Z :=
  match es with
  | [] => []
  | e :: es => entry_code prev e ++ docs_code (e_doc e) es
  end.

Definition pos_code (delta : Z) (payload : list Z) : list Z :=
  let c := as_i32 (Z.shiftl delta 1) in
  match payload with
  | [] => vint_code c
  | _ => vint_code (Z.lor c 1) ++ vint_code (Z.of_nat (length payload)) ++ payload
  end.

Definition off_code (prev : Z) (x : occurrence) : list Z :=
  if has_offsets o then vint_code (o_start x - prev) ++ vint_code (o_end x - o_start x) else [].

Fixpoint occs_code (pos start : Z) (xs : list occurrence) : list Z :=
  match xs with
  | [] => []
  | x :: xs => pos_code (o_pos x - pos) (o_payload x) ++ off_code start x ++ occs_code (o_pos x) (o_start x) xs
  end.

Definition prox_code (es : list entry) : list Z := flat_map (fun e => occs_code 0 0 (e_occs e)) es.

(** The streams of a term whose postings are [es] and then [e], the one in progress. *)
Definition streams (es : list entry) (e : entry) : list (list Z) :=
  docs_code 0 es :: (if has_prox o then [prox_code (es ++ [e])] else []).

Definition last_doc (prev : Z) (es : list entry) : Z := default prev (e_doc <$> last es).
Definition last_pos (pos : Z) (xs : list occurrence) : Z := default pos (o_pos <$> last xs).
Definition last_start (start : Z) (xs : list occurrence) : Z := default start (o_start <$> last xs).

Lemma last_doc_cons prev e es : last_doc prev (e :: es) = last_doc (e_doc e) es.
Proof. unfold last_doc. rewrite last_cons. by destruct (last es). Qed.

Lemma docs_code_snoc es : forall prev e, docs_code prev (es ++ [e]) = docs_code prev es ++ entry_code (last_doc prev es) e.
Proof.
  induction es as [|f es IH]; intros prev e; cbn [docs_code app]; [by rewrite app_nil_r|].
  by rewrite IH, last_doc_cons, app_assoc.
Qed.

Lemma occs_code_snoc xs : forall pos start x, occs_code pos start (xs ++ [x])
  = occs_code pos start xs ++ pos_code (o_pos x - last_pos pos xs) (o_payload x) ++ off_code (last_start start xs) x.
Proof.
  induction xs as [|y xs IH]; intros pos start x; cbn [occs_code app]; [by rewrite app_nil_r|].
  rewrite IH, <- !app_assoc. unfold last_pos, last_start. rewrite last_cons. by destruct (last xs).
Qed.

Lemma prox_code_snoc es e : prox_code (es ++ [e]) = prox_code es ++ occs_code 0 0 (e_occs e).
Proof. unfold prox_code. rewrite flat_map_app. cbn. by rewrite app_nil_r. Qed.

(** ** What can be written *)

Definition occ_ok (pos start : Z) (x : occurrence) : Prop :=
  (has_prox o = true -> pos <= o_pos x <= i32_MAX) /\
  (has_offsets o = true -> start <= o_start x <= o_end x /\ o_end x <= i32_MAX) /\
  Forall (in_u 8) (o_payload x) /\ Z.of_nat (length (o_payload x)) <= i32_MAX.

Fixpoint occs_ok (pos start : Z) (xs : list occurrence) : Prop :=
  match xs with
  | [] => True
  | x :: xs => occ_ok pos start x /\ occs_ok (o_pos x) (o_start x) xs
  end.

Definition entry_ok (prev : Z) (e : entry) : Prop :=
  prev < e_doc e < Disi.NO_MORE_DOCS /\ (has_freq o = true -> 1 <= e_freq e <= i32_MAX) /\ e_occs e <> [] /\
  (has_prox o = true -> e_freq e = Z.of_nat (length (e_occs e)) /\ occs_ok 0 0 (e_occs e)).

Fixpoint entries_ok (prev : Z) (es : list entry) : Prop :=
  match es with
  | [] => True
  | e :: es => entry_ok prev e /\ entries_ok (e_doc e) es
  end.

Lemma occs_ok_snoc xs : forall pos start x,
  occs_ok pos start (xs ++ [x]) <-> occs_ok pos start xs /\ occ_ok (last_pos pos xs) (last_start start xs) x.
Proof.
  induction xs as [|y xs IH]; intros pos start x; cbn [occs_ok app]; [unfold last_pos, last_start; cbn; tauto|].
  rewrite IH. unfold last_pos, last_start. rewrite last_cons. destruct (last xs); cbn; tauto.
Qed.

Lemma entries_ok_snoc es : forall prev e, entries_ok prev (es ++ [e]) <-> entries_ok prev es /\ entry_ok (last_doc prev es) e.
Proof.
  induction es as [|f es IH]; intros prev e; cbn [entries_ok app]; [unfold last_doc; cbn; tauto|].
  rewrite IH, last_doc_cons. tauto.
Qed.

Lemma last_doc_le es : forall prev, entries_ok prev es -> prev <= last_doc prev es.
Proof.
  induction es as [|e es IH]; intros prev; [unfold last_doc; cbn; lia|]. intros [[He _] Hes]. rewrite last_doc_cons.
  specialize (IH _ Hes). lia.
Qed.
End Codes.

(** ** One integer *)

Lemma lor_even k : Z.lor (2 * k) 1 = 2 * k + 1.
Proof.
  apply Z.bits_inj'. intros n Hn. rewrite Z.lor_spec. destruct (Z.eq_dec n 0) as [->|Hz].
  - by rewrite Z.testbit_even_0, Z.testbit_odd_0.
  - assert (H1 : Z.testbit 1 n = false) by (apply Z.bits_above_log2; [lia|cbn; lia]). rewrite H1, orb_false_r.
    replace n with (Z.succ (Z.pred n)) by lia. by rewrite Z.testbit_even_succ, Z.testbit_odd_succ by lia.
Qed.

(** A doubled delta is read back from its code, whether or not the flag is set. *)
Lemma delta_read d : 0 <= d < 2 ^ 31 -> let c := as_i32 (Z.shiftl d 1) in
  in_s 32 c /\ Z.land c 1 = 0 /\ as_i32 (Z.shiftr (as_u32 c) 1) = d /\
  in_s 32 (Z.lor c 1) /\ Z.land (Z.lor c 1) 1 = 1 /\ as_i32 (Z.shiftr (as_u32 (Z.lor c 1)) 1) = d.
Proof.
  intros Hd c. assert (Hc : exists k, c = 2 * k /\ (k = d \/ k = d - 2 ^ 31) /\ - 2 ^ 30 <= k < 2 ^ 30).
  { unfold c, wrap_s. rewrite Z.shiftl_mul_pow2 by lia. change (2 ^ 1) with 2. destruct (Z.lt_ge_cases d (2 ^ 30)).
    - exists d. rewrite Z.mod_small by lia. split_and!; lia.
    - exists (d - 2 ^ 31). rewrite <- (Z.mod_unique (d * 2 + 2 ^ (32 - 1)) (2 ^ 32) 1 (d * 2 + 2 ^ 31 - 2 ^ 32)) by lia.
      split_and!; lia. }
  destruct Hc as (k & -> & Hk & Hr). rewrite lor_even.
  assert (Hl : forall x, Z.land x 1 = x mod 2) by (intros; apply (Z.land_ones x 1); lia).
  rewrite !Hl. assert (Hu : forall b, 0 <= b < 2 -> as_i32 (Z.shiftr (as_u32 (2 * k + b)) 1) = d).
  { intros b Hb. unfold wrap_u. rewrite Z.shiftr_div_pow2 by lia. change (2 ^ 1) with 2.
    assert (E : (2 * k + b) mod 2 ^ 32 = 2 * d + b).
    { destruct Hk as [->| ->]; [apply Z.mod_small; lia|]. symmetry. apply (Z.mod_unique _ _ (-1)); lia. }
    rewrite E. replace ((2 * d + b) / 2) with d by (apply (Z.div_unique _ _ _ b); lia). apply wrap_s_id; [lia|]. unfold in_s. lia. }
  split_and!; [unfold in_s; lia| |by rewrite <- (Z.add_0_r (2 * k)); apply Hu|unfold in_s; lia| |by apply Hu].
  - rewrite Z.mul_comm. apply Z.mod_mul. lia.
  - symmetry. apply (Z.mod_unique _ _ k); lia.
Qed.

Lemma vint_reads r i d : in_s 32 i -> Reading.reads r (vint_code i ++ d) -> exists r', read_vint 5 r = (Ok i, r') /\ Reading.reads r' d.
Proof.
  intros Hi Hr. pose proof (read_vint_spec 5 i r ltac:(lia) Hi d) as H. change (in_inv r) with (Reading.reads r (Reading.rest_of r)) in H.
  change (avail r) with (Reading.rest_of r) in H. rewrite (Reading.reads_rest _ _ Hr) in H. destruct (H Hr eq_refl) as (r' & E & Hin & Ha).
  change (in_inv r') with (Reading.reads r' (Reading.rest_of r')) in Hin. change (avail r') with (Reading.rest_of r') in Ha.
  rewrite Ha in Hin. by exists r'.
Qed.

Lemma vint_length i : (length (vint_code i) <= 5)%nat.
Proof. apply vcode_length. Qed.
End Codes.

(** * One token *)

Module Writing.
Import FreqProxPostingsArray Columns Codes TermStreams FreqProxTermsWriterPerField.
Import TermsHashPerField (per_field, int_pool, byte_pool, stream_count, last_doc_id, mk_state).

Definition used (w : FreqProxTermsWriterPerField.t) : Z := usage (base w).
Definition streams_of (o : IndexOptions) : Z := if has_prox o then 2 else 1.

Lemma append_app t i b1 b2 cs : append t i b2 (append t i b1 cs) = append t i (b1 ++ b2) cs.
Proof.
  unfold append. apply list_eq. intros j. destruct (decide (j = t)) as [->|].
  - rewrite !list_lookup_alter_eq. destruct (cs !! t) as [r|]; [|done]. cbn. f_equal. apply list_eq. intros k. destruct (decide (k = i)) as [->|].
    + rewrite !list_lookup_alter_eq. destruct (r !! i); [|done]. cbn. by rewrite app_assoc.
    + by rewrite !list_lookup_alter_ne.
  - by rewrite !list_lookup_alter_ne.
Qed.

Section Token.
Context (seed : Z) (o : IndexOptions) (ld : Z) (ts : list (list Z)) (t : nat) (pa0 : FreqProxPostingsArray.t).
Implicit Types (w : FreqProxTermsWriterPerField.t) (fs : FieldInvertState.t) (sp : bool) (r : row) (cs : list (list (list Z))).

(** In the course of a token of term [t]: the row of the term and the streams. *)
Record Mid fs sp r cs w : Prop := {
  mid_options : options w = o;
  mid_state : field_state w = fs;
  mid_saw : saw_payloads w = sp;
  mid_last : last_doc_id (per_field (base w)) = ld;
  mid_count : stream_count (per_field (base w)) = streams_of o;
  mid_lt : (t < length ts)%nat;
  mid_rep : exists pa, Rep seed (base w) pa ts cs /\ at_term (base w) pa t /\ shaped o pa /\ only t pa0 pa /\ has_row pa t r }.

Lemma mid_postings fs sp r cs w : Mid fs sp r cs w ->
  exists pa, get_postings w = (Ok pa, w) /\ pa_ok pa /\ shaped o pa /\ has_row pa t r.
Proof.
  intros [_ _ _ _ _ _ (pa & (gs & F & _) & _ & Hs & _ & Hr)]. exists pa. unfold get_postings. rewrite sget_sbind.
  unfold TermsHashPerField.postings_or_error. rewrite (fr_postings _ _ _ _ _ F). split_and!; try done. by eapply fr_ok.
Qed.

Lemma on_base_spends {A} c (m : ST TermsHashPerField.state A) w (Q : A -> FreqProxTermsWriterPerField.t -> Prop) :
  spends usage c m (base w) (fun a b => Q a (mk (options w) (saw_payloads w) b (field_state w))) -> spends used c (on_base m) w Q.
Proof.
  unfold on_base. intros [(b & Hm & Hc)|(a & b & Hm & Hu & HQ)].
  - left. rewrite Hm. by eexists.
  - right. rewrite Hm. by eexists _, _.
Qed.

Lemma mid_vint (i : nat) v fs sp r cs w : Mid fs sp r cs w -> Z.of_nat i < streams_of o -> in_s 32 v ->
  spends used 2000 (write_vint (Z.of_nat i) v) w (fun _ => Mid fs sp r (append t i (vint_code v) cs)).
Proof.
  intros [M1 M2 M3 M4 M5 M6 (pa & R & Hat & Hs & Ho & Hr)] Hi Hv. unfold write_vint.
  eapply (spends_step _ _ _ _ _ _ w); [done|done|]. apply on_base_spends. eapply spends_weaken.
  - apply (rep_vint seed (base w) pa ts cs t i v); try done. by rewrite M5.
  - pose proof (vint_length v). unfold Cursor.cost. lia.
  - intros _ b [Hpf HR]. constructor; cbn [options field_state saw_payloads base]; rewrite ?Hpf; try done.
    exists pa. split_and!; try done. destruct Hat as (row & Hrow & Hcur). exists row. by rewrite Hpf.
Qed.

Lemma mid_bytes (i : nat) b off n fs sp r cs w : Mid fs sp r cs w -> Z.of_nat i < streams_of o ->
  Forall (in_u 8) b -> 0 <= off -> 0 <= n -> off + n <= Z.of_nat (length b) ->
  spends used (400 * n) (write_bytes (Z.of_nat i) b off n) w (fun _ => Mid fs sp r (append t i (Cursor.part b off (off + n)) cs)).
Proof.
  intros [M1 M2 M3 M4 M5 M6 (pa & R & Hat & Hs & Ho & Hr)] Hi Hb H0 Hn Hl. unfold write_bytes.
  eapply (spends_step _ _ _ _ _ _ w); [done|done|]. apply on_base_spends. eapply spends_weaken.
  - apply (rep_bytes seed (base w) pa ts cs t i b off n); try done. by rewrite M5.
  - done.
  - intros _ b' [Hpf HR]. constructor; cbn [options field_state saw_payloads base]; rewrite ?Hpf; try done.
    exists pa. split_and!; try done. destruct Hat as (row & Hrow & Hcur). exists row. by rewrite Hpf.
Qed.

(** Changes of the row, of the counters and of the flag use nothing of the pools. *)
Lemma mid_set g fs sp r r' cs w :
  (forall pa, pa_ok pa -> has_row pa t r -> exists pa', g pa = Ok pa' /\ only t pa pa' /\ has_row pa' t r') -> Mid fs sp r cs w ->
  exists w', on_postings g w = (Ok tt, w') /\ used w' = used w /\ Mid fs sp r' cs w'.
Proof.
  intros Hg [M1 M2 M3 M4 M5 M6 (pa & R & Hat & Hs & Ho & Hr)]. pose proof R as (gs & F & _).
  destruct (Hg pa (fr_ok _ _ _ _ _ F) Hr) as (pa' & He & Ho' & Hr'). destruct w as [wo ws [f ip bp] wf].
  cbn [options field_state saw_payloads base per_field] in *. unfold on_postings, on_base. cbn [base].
  rewrite (on_postings_ok g f ip bp pa pa' (fr_postings _ _ _ _ _ F) He). eexists. split; [done|]. split; [done|].
  constructor; cbn [options field_state saw_payloads base]; try done. exists pa'. split_and!; try done.
  - apply (rep_postings seed (mk_state f ip bp) pa ts cs pa' R); apply Ho'.
  - destruct Hat as (row & Hrow & Hcur). exists row. split; [|done]. by rewrite (only_starts _ _ _ Ho').
  - by apply Ho'.
  - by eapply only_trans.
Qed.

Lemma mid_count_term fs sp r cs w : Mid fs sp r cs w -> 0 <= FieldInvertState.unique_term_count fs < i32_MAX ->
  exists w', count_unique_term w = (Ok tt, w') /\ used w' = used w /\
    Mid (FieldInvertState.with_unique_term_count fs (FieldInvertState.unique_term_count fs + 1)) sp r cs w'.
Proof.
  intros [M1 M2 M3 M4 M5 M6 M7] Hb. unfold count_unique_term. rewrite sget_sbind, slift_sbind, M2.
  rewrite TermPool.exact_i32_ok by (unfold in_s, i32_MAX in *; lia). eexists. split; [done|]. by split.
Qed.

Lemma mid_raise tf fs sp r cs w : Mid fs sp r cs w ->
  exists w', raise_max_term_frequency tf w = (Ok tt, w') /\ used w' = used w /\
    Mid (FieldInvertState.with_max_term_frequency fs (Z.max (FieldInvertState.max_term_frequency fs) tf)) sp r cs w'.
Proof.
  intros [M1 M2 M3 M4 M5 M6 M7]. unfold raise_max_term_frequency. rewrite sget_sbind, M2. eexists. split; [done|]. by split.
Qed.
(** ** Positions, payloads, offsets *)

Definition payload_is (p : option BytesRef.t) (b : list Z) : Prop :=
  match p with
  | None => b = []
  | Some q => BytesRef.valid q /\ Forall (in_u 8) (BytesRef.bytes q) /\ BytesRef.contents q = b
  end.

Definition saw sp (b : list Z) : bool := match b with [] => sp | _ => true end.

Lemma mid_saw_set fs sp r cs w : Mid fs sp r cs w -> exists w', set_saw_payloads w = (Ok tt, w') /\ used w' = used w /\ Mid fs true r cs w'.
Proof. intros [M1 M2 M3 M4 M5 M6 M7]. eexists. split; [done|]. by split. Qed.

Lemma write_prox_ok delta a p b fs sp r cs w p0 : Mid fs sp r cs w -> has_prox o = true -> get_payload a = Ok p -> payload_is p b ->
  Z.of_nat (length b) <= i32_MAX -> 0 <= delta < 2 ^ 31 -> r_pos r = Some p0 ->
  spends used (4000 + 400 * Z.of_nat (length b)) (write_prox (Z.of_nat t) delta a) w
    (fun _ => Mid fs (saw sp b) (with_pos r (FieldInvertState.position fs)) (append t 1 (pos_code delta b) cs)).
Proof.
  intros M Hp Ha Hb Hl Hd Hr. assert (Hc : Z.of_nat 1 < streams_of o) by (unfold streams_of; by rewrite Hp).
  destruct (delta_read delta Hd) as (D1 & _ & _ & D2 & _). unfold write_prox.
  eapply (spends_step _ _ _ _ _ _ w); [by unfold slift; rewrite Ha|done|].
  eapply (spends_seq _ (4000 + 400 * Z.of_nat (length b)) 0 _ _ _ _ (fun _ => Mid fs (saw sp b) r (append t 1 (pos_code delta b) cs))); [| |lia|lia].
  - assert (Hplain : b = [] -> spends used (4000 + 400 * Z.of_nat (length b)) (write_vint 1 (as_i32 (delta ≪ 1))) w
      (fun _ => Mid fs (saw sp b) r (append t 1 (pos_code delta b) cs))).
    { intros ->. eapply spends_weaken; [by apply (mid_vint 1)|cbn; lia|done]. }
    destruct p as [q|]; [|by apply Hplain]. destruct Hb as (Hv & Hq & Hqb). pose proof (BytesRef.contents_length q Hv) as Hql. rewrite Hqb in Hql.
    destruct (Z.ltb_spec 0 (BytesRef.length_ q)) as [Hpos|Hz]; [|apply Hplain; by destruct b; [|cbn in *; lia]].
    destruct b as [|b0 b]; [cbn in *; lia|]. set (bs := b0 :: b) in *.
    eapply (spends_seq _ 2000 (2000 + 400 * Z.of_nat (length bs))); [by apply (mid_vint 1)| |lia|lia]. intros [] w1 M1.
    eapply (spends_seq _ 2000 (400 * Z.of_nat (length bs))); [apply (mid_vint 1); [exact M1|done|]| |lia|lia].
    { rewrite wrap_s_id by (unfold in_s, i32_MAX in *; lia). unfold in_s, i32_MAX in *. lia. }
    intros [] w2 M2. destruct Hv as (V1 & V2 & V3).
    eapply (spends_seq _ (400 * Z.of_nat (length bs)) 0); [eapply spends_weaken; [apply (mid_bytes 1); [exact M2|done|done|lia|lia|lia]|lia|done]| |lia|lia].
    intros [] w3 M3. destruct (mid_saw_set _ _ _ _ _ M3) as (w4 & E4 & U4 & M4). apply (spends_now _ _ _ _ tt w4); [done|lia|].
    rewrite !append_app in M4. unfold bs, pos_code in *. rewrite (wrap_s_id 32 (BytesRef.length_ q)) in M4 by (unfold in_s, i32_MAX in *; lia). rewrite Hql.
    replace (Cursor.part (BytesRef.bytes q) (BytesRef.offset q) (BytesRef.offset q + BytesRef.length_ q)) with (b0 :: b) in M4; [done|].
    rewrite <- Hqb. unfold Cursor.part, BytesRef.contents. f_equal. lia.
  - intros [] w1 M1. eapply (spends_step _ _ _ _ _ _ w1); [done|done|]. rewrite (mid_state _ _ _ _ _ M1).
    destruct (mid_set (column_set last_positions with_last_positions (Z.of_nat t) (FieldInvertState.position fs)) fs (saw sp b) r
      (with_pos r (FieldInvertState.position fs)) (append t 1 (pos_code delta b) cs) w1) as (w2 & E2 & U2 & M2); [|done|].
    + intros pa H1 H2. by eapply set_pos_ok.
    + apply (spends_now _ _ _ _ tt w2); [done|lia|done].
Qed.

Lemma write_offsets_ok a (s e : Z) x l fs sp r cs w : Mid fs sp r cs w -> has_offsets o = true ->
  start_offset a = Ok s -> end_offset a = Ok e -> o_start x = FieldInvertState.offset fs + s -> o_end x = FieldInvertState.offset fs + e ->
  r_off r = Some l -> 0 <= l <= o_start x -> o_start x <= o_end x <= i32_MAX ->
  spends used 4000 (write_offsets (Z.of_nat t) (FieldInvertState.offset fs) a) w
    (fun _ => Mid fs sp (with_off r (o_start x)) (append t 1 (off_code o l x) cs)).
Proof.
  intros M Ho Hs He Xs Xe Hr Hl Hx. assert (Hc : Z.of_nat 1 < streams_of o).
  { unfold streams_of. by rewrite (proj1 (options_nested o) Ho). }
  unfold write_offsets. eapply (spends_step _ _ _ _ _ _ w); [by unfold slift; rewrite Hs|done|].
  eapply (spends_step _ _ _ _ _ _ w); [by unfold slift; rewrite He|done|]. rewrite <- Xs, <- Xe.
  assert (R31 : forall z, 0 <= z <= i32_MAX -> in_s 32 z) by (unfold in_s, i32_MAX; lia).
  eapply (spends_step _ _ _ _ _ _ w); [by unfold slift; rewrite TermPool.exact_i32_ok by (apply R31; lia)|done|].
  eapply (spends_step _ _ _ _ _ _ w); [by unfold slift; rewrite TermPool.exact_i32_ok by (apply R31; lia)|done|].
  destruct (mid_postings _ _ _ _ _ M) as (pa & Ep & Hok & Hsh & Hrow).
  eapply (spends_step _ _ _ _ _ _ w); [done|done|]. pose proof Hrow as (_ & _ & _ & R4). rewrite Hr in R4.
  eapply (spends_step _ _ _ _ _ _ w); [by unfold slift; rewrite (column_get_ok _ _ _ R4)|done|].
  eapply (spends_step _ _ _ _ _ _ w); [by unfold slift; rewrite TermPool.exact_i32_ok by (apply R31; lia)|done|].
  eapply (spends_step _ _ _ _ _ _ w); [by unfold slift; rewrite (proj2 (Z.leb_le _ _)) by lia|done|].
  eapply (spends_step _ _ _ _ _ _ w); [by unfold slift; rewrite TermPool.exact_i32_ok by (apply R31; lia)|done|].
  destruct (mid_set (column_set last_offsets with_last_offsets (Z.of_nat t) (o_start x)) fs sp r (with_off r (o_start x)) cs w)
    as (w2 & E2 & U2 & M2); [intros q H1 H2; by eapply set_off_ok|done|].
  eapply (spends_step _ _ _ _ _ _ w2); [done|done|].
  eapply (spends_seq _ 2000 2000); [apply (mid_vint 1); [exact M2|done|apply R31; lia]| |lia|lia]. intros [] w3 M3.
  eapply spends_weaken; [apply (mid_vint 1); [exact M3|done|apply R31; lia]|lia|].
  intros [] w4 M4. rewrite append_app in M4. unfold off_code. by rewrite Ho.
Qed.
(** ** A token *)

(** What the token source and the invert state say of the occurrence [x] with the
    frequency [tf]. *)
Record describes fs (a : attributes) (x : occurrence) (tf : Z) : Prop := {
  d_pos : o_pos x = FieldInvertState.position fs;
  d_payload : has_prox o = true -> exists p, get_payload a = Ok p /\ payload_is p (o_payload x);
  d_offsets : has_offsets o = true -> exists s e, start_offset a = Ok s /\ end_offset a = Ok e /\
    o_start x = FieldInvertState.offset fs + s /\ o_end x = FieldInvertState.offset fs + e;
  d_freq : match get_term_frequency a with Err _ => Ok 1 | f => f end = Ok tf;
  d_range : 1 <= tf <= i32_MAX;
  d_custom : has_prox o = true \/ has_freq o = false -> tf = 1 }.

Definition row_is r (d c f p s : Z) : Prop :=
  r_doc r = d /\ r_code r = c /\ (has_freq o = true -> r_freq r = Some f) /\ (has_prox o = true -> r_pos r = Some p) /\
  (has_offsets o = true -> r_off r = Some s).

Lemma write_token_ok delta a x tf fs sp r cs w d c f p0 l : Mid fs sp r cs w -> has_prox o = true -> describes fs a x tf ->
  row_is r d c f p0 l -> 0 <= delta < 2 ^ 31 -> (has_offsets o = true -> 0 <= l) -> occ_ok o 0 l x ->
  spends used (8000 + 400 * Z.of_nat (length (o_payload x))) (write_token (Z.of_nat t) delta a) w
    (fun _ w' => exists r', Mid fs (saw sp (o_payload x)) r' (append t 1 (pos_code delta (o_payload x) ++ off_code o l x) cs) w' /\
       row_is r' d c f (o_pos x) (o_start x)).
Proof.
  intros M Hp [D1 D2 D3 _ _ _] (R1 & R2 & R3 & R4 & R5) Hd Hl (X1 & X2 & X3 & X4). unfold write_token. destruct (D2 Hp) as (p & Ha & Hpl).
  eapply (spends_seq _ (4000 + 400 * Z.of_nat (length (o_payload x))) 4000); [by apply (write_prox_ok delta a p (o_payload x) fs sp r cs w p0); auto| |lia|lia].
  intros [] w1 M1. eapply (spends_step _ _ _ _ _ _ w1); [done|done|]. unfold field_has_offsets.
  rewrite (mid_options _ _ _ _ _ M1), (mid_state _ _ _ _ _ M1). destruct (has_offsets o) eqn:Ho.
  - destruct (D3 eq_refl) as (s & e & Es & Ee & Xs & Xe). destruct (X2 eq_refl) as [X5 X6]. specialize (Hl eq_refl).
    eapply spends_weaken; [apply (write_offsets_ok a s e x l); try done; [by apply R5|lia|lia]|lia|].
    intros [] w2 M2. rewrite append_app in M2. eexists. split; [exact M2|]. split_and!; try done; intros _; cbn [with_off with_pos r_pos r_freq]; congruence.
  - apply (spends_now _ _ _ _ tt w1); [done|lia|]. eexists. split; [unfold off_code; rewrite Ho, app_nil_r; exact M1|].
    split_and!; try done; intros ?; cbn [with_pos r_pos]; congruence.
Qed.

Lemma term_freq_ok fs sp r cs w a x tf : Mid fs sp r cs w -> describes fs a x tf -> get_term_freq a w = (Ok tf, w).
Proof.
  intros M [_ _ _ D4 _ D6]. unfold get_term_freq. rewrite sget_sbind, slift_sbind, D4. unfold field_has_prox.
  rewrite (mid_options _ _ _ _ _ M). destruct (has_prox o); [|by rewrite andb_false_r]. by rewrite D6 by auto.
Qed.

(** The counters of the document after an entry whose frequency has become [f]. *)
Definition counted fs (f : Z) (fresh : bool) : FieldInvertState.t :=
  let m := FieldInvertState.with_max_term_frequency fs (Z.max (FieldInvertState.max_term_frequency fs) f) in
  if fresh then FieldInvertState.with_unique_term_count m (FieldInvertState.unique_term_count fs + 1) else m.

Definition token_streams delta l x cs : list (list (list Z)) :=
  if has_prox o then append t 1 (pos_code delta (o_payload x) ++ off_code o l x) cs else cs.
Definition token_saw sp x : bool := if has_prox o then saw sp (o_payload x) else sp.

(** The first token of a term in the segment. *)
Lemma new_term_ok doc a x tf fs sp r cs w : Mid fs sp r cs w -> describes fs a x tf -> (has_offsets o = true -> r_off r = Some 0) ->
  0 <= doc < 2 ^ 31 -> occ_ok o 0 0 x -> 0 <= FieldInvertState.unique_term_count fs < i32_MAX ->
  spends used (8000 + 400 * Z.of_nat (length (o_payload x))) (new_term (Z.of_nat t) doc a) w
    (fun _ w' => exists r', Mid (counted fs (if has_freq o then tf else 1) true) (token_saw sp x) r' (token_streams (o_pos x) 0 x cs) w' /\
       row_is r' doc (doc_code o doc) tf (o_pos x) (o_start x)).
Proof.
  intros M D Hoff Hdoc Hx Hu. unfold new_term.
  eapply (spends_step _ _ _ _ _ _ w); [by eapply term_freq_ok|done|]. eapply (spends_step _ _ _ _ _ _ w); [done|done|].
  destruct (mid_postings _ _ _ _ _ M) as (pa & Ep & Hok & Hsh & Hrow). eapply (spends_step _ _ _ _ _ _ w); [done|done|].
  eapply (spends_step _ _ _ _ _ _ w); [by unfold slift; rewrite (last_docs_get _ _ _ Hrow)|done|]. cbn [snd].
  destruct (mid_set (set_last_doc (Z.of_nat t) (doc, r_code r)) fs sp r (with_doc r doc (r_code r)) cs w) as (w1 & E1 & U1 & M1);
    [intros q H1 H2; by apply set_last_doc_ok|done|]. eapply (spends_step _ _ _ _ _ _ w1); [done|done|].
  unfold field_has_freq, field_has_prox, field_has_offsets. rewrite (mid_options _ _ _ _ _ M), (mid_state _ _ _ _ _ M).
  destruct (shaped_row o pa t r Hok Hsh Hrow) as (S1 & S2 & S3). pose proof (options_nested o) as [N1 N2].
  set (dc := doc_code o doc).
  eapply (spends_seq _ (8000 + 400 * Z.of_nat (length (o_payload x))) 0 _ _ _ _ (fun _ w' => exists r',
    Mid (FieldInvertState.with_max_term_frequency fs (Z.max (FieldInvertState.max_term_frequency fs) (if has_freq o then tf else 1)))
      (token_saw sp x) r' (token_streams (o_pos x) 0 x cs) w' /\ row_is r' doc dc tf (o_pos x) (o_start x))); [| |lia|lia].
  - destruct (mid_set (set_last_doc (Z.of_nat t) (doc, dc)) fs sp (with_doc r doc (r_code r)) (with_doc r doc dc) cs w1) as (w2 & E2 & U2 & M2);
      [intros q H1 H2; by apply (set_last_doc_ok q t (with_doc r doc (r_code r)))|done|].
    unfold dc, doc_code in E2, M2 |- *. destruct (has_freq o) eqn:Hf; cbn [negb].
    + eapply (spends_step _ _ _ _ _ _ w2); [done|done|]. destruct S1 as [f0 Sf].
      destruct (mid_set (column_set term_freqs with_term_freqs (Z.of_nat t) tf) fs sp (with_doc r doc (as_i32 (doc ≪ 1))) (with_freq (with_doc r doc (as_i32 (doc ≪ 1))) tf) cs w2)
        as (w3 & E3 & U3 & M3); [intros q H1 H2; by eapply set_freq_ok|exact M2|].
      eapply (spends_step _ _ _ _ _ _ w3); [done|done|].
      eapply (spends_seq _ (8000 + 400 * Z.of_nat (length (o_payload x))) 0 _ _ _ _ (fun _ w' => exists r',
        Mid fs (token_saw sp x) r' (token_streams (o_pos x) 0 x cs) w' /\ row_is r' doc (as_i32 (doc ≪ 1)) tf (o_pos x) (o_start x))); [| |lia|lia].
      * unfold token_saw, token_streams. destruct (has_prox o) eqn:Hp.
        -- destruct (S2 eq_refl) as [p0 Sp]. rewrite <- (d_pos _ _ _ _ D).
           apply (write_token_ok (o_pos x) a x tf fs sp _ cs w3 doc (as_i32 (doc ≪ 1)) tf p0 0 M3 Hp D); [|apply Hx in Hp as Hx'; unfold i32_MAX in *; lia|lia|done].
           split_and!; try done.
        -- assert (Hoo : has_offsets o = false) by (destruct (has_offsets o); [by specialize (N1 eq_refl)|done]). rewrite Hoo.
           apply (spends_now _ _ _ _ tt w3); [done|lia|]. eexists. split; [exact M3|]. split_and!; try done; by rewrite ?Hp, ?Hoo.
      * intros [] w4 (r4 & M4 & R4). destruct (mid_raise tf _ _ _ _ _ M4) as (w5 & E5 & U5 & M5).
        apply (spends_now _ _ _ _ tt w5); [done|lia|]. by exists r4.
    + eapply (spends_step _ _ _ _ _ _ w1); [unfold slift; by rewrite S1|done|].
      eapply (spends_step _ _ _ _ _ _ w2); [done|done|]. destruct (mid_raise 1 _ _ _ _ _ M2) as (w3 & E3 & U3 & M3).
      apply (spends_now _ _ _ _ tt w3); [done|lia|]. assert (Hp : has_prox o = false) by (destruct (has_prox o); [by specialize (N2 eq_refl)|done]).
      assert (Hoo : has_offsets o = false) by (destruct (has_offsets o); [by rewrite N1 in Hp|done]).
      unfold token_saw, token_streams. rewrite Hp. eexists. split; [exact M3|]. split_and!; try done; by rewrite ?Hf, ?Hp, ?Hoo.
  - intros [] w2 (r2 & M2 & R2). destruct (mid_count_term _ _ _ _ _ M2) as (w3 & E3 & U3 & M3); [done|].
    apply (spends_now _ _ _ _ tt w3); [done|lia|]. by exists r2.
Qed.
(** The term has been met in the segment: the reads at the start of [add_term]. *)
Lemma add_term_start a x tf fs sp r cs w d c f p s doc Q cost : Mid fs sp r cs w -> describes fs a x tf -> row_is r d c f p s ->
  (has_freq o = true -> 0 < f) ->
  (forall pa, pa_ok pa -> shaped o pa -> has_row pa t r -> spends used cost
    (if negb (has_freq o) then
       if negb (doc =? d) then
         let* _ := slift (debug_assert (d <? doc)) in
         let* delta := slift (ByteBlockPool.exact_i32 (doc - d)) in
         let* _ := on_postings (set_last_doc (Z.of_nat t) (doc, delta)) in
         let* _ := count_unique_term in
         write_vints 0 [c]
       else sret tt
     else if negb (doc =? d) then
       let* _ := slift (debug_assert (d <? doc)) in
       let* freq := slift (column_get (term_freqs pa) (Z.of_nat t)) in
       let v := if freq =? 1 then [Z.lor c 1] else [c; freq] in
       let* _ := on_postings (column_set term_freqs with_term_freqs (Z.of_nat t) tf) in
       let* _ := raise_max_term_frequency tf in
       let* delta := slift (ByteBlockPool.exact_i32 (doc - d)) in
       let* _ := on_postings (set_last_doc (Z.of_nat t) (doc, as_i32 (Z.shiftl delta 1))) in
       let* _ := (if has_prox o && has_offsets o then
                    on_postings (column_set last_offsets with_last_offsets (Z.of_nat t) 0)
                  else sret tt) in
       let* _ := write_vints 0 v in
       let* _ := (if has_prox o then write_token (Z.of_nat t) (FieldInvertState.position fs) a
                  else slift (debug_assert (negb (has_offsets o)))) in
       count_unique_term
     else
       let* f := slift (column_get (term_freqs pa) (Z.of_nat t)) in
       let* f := slift (if (f + tf <=? i32_MAX) && (- 2 ^ 31 <=? f + tf) then Ok (f + tf) else Err IllegalState) in
       let* _ := on_postings (column_set term_freqs with_term_freqs (Z.of_nat t) f) in
       let* _ := raise_max_term_frequency f in
       if has_prox o then
         let* last := slift (column_get (last_positions pa) (Z.of_nat t)) in
         let* delta := slift (ByteBlockPool.exact_i32 (FieldInvertState.position fs - last)) in
         write_token (Z.of_nat t) delta a
       else sret tt) w Q) ->
  spends used cost (add_term (Z.of_nat t) doc a) w Q.
Proof.
  intros M D R Hf H. pose proof R as (R1 & R2 & R3 & _). unfold add_term.
  eapply (spends_step _ _ _ _ _ _ w); [by eapply term_freq_ok|done|]. eapply (spends_step _ _ _ _ _ _ w); [done|done|].
  destruct (mid_postings _ _ _ _ _ M) as (pa & Ep & Hok & Hsh & Hrow). eapply (spends_step _ _ _ _ _ _ w); [done|done|].
  destruct (shaped_row o pa t r Hok Hsh Hrow) as (S1 & S2 & S3). pose proof Hrow as (_ & Q2 & _).
  unfold field_has_freq, field_has_prox, field_has_offsets. rewrite (mid_options _ _ _ _ _ M), (mid_state _ _ _ _ _ M).
  eapply (spends_step _ _ _ _ _ _ w); [|done|].
  { destruct (has_freq o); [|done]. rewrite (R3 eq_refl) in Q2. rewrite slift_sbind, (column_get_ok _ _ _ Q2).
    unfold slift. by rewrite (proj2 (Z.ltb_lt _ _)) by auto. }
  eapply (spends_step _ _ _ _ _ _ w); [by unfold slift; rewrite (last_docs_get _ _ _ Hrow)|done|]. cbn iota beta. rewrite R1, R2.
  specialize (H pa Hok Hsh Hrow). destruct (has_freq o) eqn:E; cbn [negb] in *; [exact H|].
  eapply (spends_step _ _ _ _ _ _ w); [by unfold slift; rewrite S1|done|]. rewrite (d_custom _ _ _ _ D) by auto. exact H.
Qed.

(** Again in the document in progress. *)
Lemma add_same_ok a x tf fs sp r cs w d c f p s : Mid fs sp r cs w -> describes fs a x tf -> row_is r d c f p s ->
  (has_freq o = true -> 0 < f /\ f + tf <= i32_MAX) -> (has_prox o = true -> 0 <= p) -> (has_offsets o = true -> 0 <= s) -> occ_ok o p s x ->
  spends used (8000 + 400 * Z.of_nat (length (o_payload x))) (add_term (Z.of_nat t) d a) w
    (fun _ w' => exists r', Mid (if has_freq o then counted fs (f + tf) false else fs) (token_saw sp x) r'
         (token_streams (o_pos x - p) s x cs) w' /\ row_is r' d c (f + tf) (o_pos x) (o_start x)).
Proof.
  intros M D R Hf Hp0 Hs0 Hx. pose proof R as (R1 & R2 & R3 & R4 & R5). pose proof (options_nested o) as [N1 N2].
  pose proof (d_range _ _ _ _ D) as Htf.
  eapply add_term_start; [done|done|done|intros E; by apply Hf|]. intros pa Hok Hsh Hrow.
  destruct (shaped_row o pa t r Hok Hsh Hrow) as (S1 & S2 & S3). pose proof Hrow as (_ & Q2 & Q3 & _).
  rewrite Z.eqb_refl. unfold token_saw, token_streams. destruct (has_freq o) eqn:Ef; cbn [negb].
  2: { assert (Hp : has_prox o = false) by (destruct (has_prox o); [by specialize (N2 eq_refl)|done]). rewrite Hp.
       assert (Hoo : has_offsets o = false) by (destruct (has_offsets o); [by rewrite N1 in Hp|done]).
       apply (spends_now _ _ _ _ tt w); [done|lia|]. exists r. split; [done|]. split_and!; try done; intros E; congruence. }
  destruct (Hf eq_refl) as [Hf0 Hf1]. rewrite (R3 eq_refl) in Q2.
  eapply (spends_step _ _ _ _ _ _ w); [by unfold slift; rewrite (column_get_ok _ _ _ Q2)|done|].
  eapply (spends_step _ _ _ _ _ _ w); [by unfold slift; rewrite !(proj2 (Z.leb_le _ _)) by lia|done|].
  destruct (mid_set (column_set term_freqs with_term_freqs (Z.of_nat t) (f + tf)) fs sp r (with_freq r (f + tf)) cs w)
    as (w1 & E1 & U1 & M1); [intros q H1 H2; by eapply set_freq_ok; [..|apply R3]|done|].
  eapply (spends_step _ _ _ _ _ _ w1); [done|done|]. destruct (mid_raise (f + tf) _ _ _ _ _ M1) as (w2 & E2 & U2 & M2).
  eapply (spends_step _ _ _ _ _ _ w2); [done|done|]. destruct (has_prox o) eqn:Ep.
  - rewrite (R4 eq_refl) in Q3. eapply (spends_step _ _ _ _ _ _ w2); [by unfold slift; rewrite (column_get_ok _ _ _ Q3)|done|].
    destruct Hx as (X1 & Hx). specialize (X1 Ep). specialize (Hp0 eq_refl). rewrite <- (d_pos _ _ _ _ D).
    eapply (spends_step _ _ _ _ _ _ w2); [by unfold slift; rewrite TermPool.exact_i32_ok by (unfold in_s, i32_MAX in *; lia)|done|].
    apply (write_token_ok (o_pos x - p) a x tf _ _ _ _ w2 d c (f + tf) p s M2 Ep).
    + by destruct D.
    + split_and!; try done. auto.
    + unfold i32_MAX in *. lia.
    + done.
    + split; [intros _; lia|done].
  - assert (Hoo : has_offsets o = false) by (destruct (has_offsets o); [by specialize (N1 eq_refl)|done]).
    apply (spends_now _ _ _ _ tt w2); [done|lia|]. eexists. split; [exact M2|]. split_and!; try done; intros E; congruence.
Qed.

Definition flush_code (c f : Z) : list Z :=
  if has_freq o then if f =? 1 then vint_code (Z.lor c 1) else vint_code c ++ vint_code f else vint_code c.

Lemma write_vints_ok v fs sp r cs : forall w, Mid fs sp r cs w -> Forall (in_s 32) v ->
  spends used (2000 * Z.of_nat (length v)) (write_vints 0 v) w (fun _ => Mid fs sp r (append t 0 (flat_map vint_code v) cs)).
Proof.
  revert cs. induction v as [|x v IH]; intros cs w M Hv.
  { apply (spends_now _ _ _ _ tt w); [done|cbn; lia|]. cbn. replace (append t 0 [] cs) with cs; [done|].
    unfold append. rewrite <- (list_alter_id id cs t) at 1 by done. apply list_alter_ext; [|done]. intros y _. cbn.
    symmetry. apply list_alter_id. intros z. apply app_nil_r. }
  apply Forall_cons in Hv as [Hx Hv]. cbn [write_vints length flat_map].
  eapply (spends_seq _ 2000 (2000 * Z.of_nat (length v))); [apply (mid_vint 0); [exact M|unfold streams_of; by destruct (has_prox o)|done]| |lia|lia].
  intros [] w1 M1. eapply spends_weaken; [by apply IH|lia|]. intros [] w2 M2. by rewrite append_app in M2.
Qed.

(** In a new document: the entry in progress is written and another begins. *)
Lemma add_next_ok doc a x tf fs sp r cs w d c f p s : Mid fs sp r cs w -> describes fs a x tf -> row_is r d c f p s ->
  0 <= d < doc -> doc < 2 ^ 31 -> in_s 32 c -> (has_freq o = true -> in_s 32 (Z.lor c 1)) -> (has_freq o = true -> 1 <= f <= i32_MAX) -> occ_ok o 0 0 x ->
  0 <= FieldInvertState.unique_term_count fs < i32_MAX ->
  spends used (12000 + 400 * Z.of_nat (length (o_payload x))) (add_term (Z.of_nat t) doc a) w
    (fun _ w' => exists r', Mid (if has_freq o then counted fs tf true
           else FieldInvertState.with_unique_term_count fs (FieldInvertState.unique_term_count fs + 1)) (token_saw sp x) r'
         (token_streams (o_pos x) 0 x (append t 0 (flush_code c f) cs)) w' /\
       row_is r' doc (doc_code o (doc - d)) tf (o_pos x) (o_start x)).
Proof.
  intros M D R Hd Hdoc Hc Hc1 Hf Hx Hu. pose proof R as (R1 & R2 & R3 & R4 & R5). pose proof (options_nested o) as [N1 N2].
  eapply add_term_start; [done|done|done|intros E; specialize (Hf E); lia|]. intros pa Hok Hsh Hrow.
  destruct (shaped_row o pa t r Hok Hsh Hrow) as (S1 & S2 & S3). pose proof Hrow as (_ & Q2 & Q3 & _).
  rewrite (proj2 (Z.eqb_neq _ _)) by lia. cbn [negb]. unfold token_saw, token_streams, flush_code, doc_code. destruct (has_freq o) eqn:Ef; cbn [negb].
  - destruct (Hf eq_refl) as [Hf0 Hf1]. rewrite (R3 eq_refl) in Q2.
    eapply (spends_step _ _ _ _ _ _ w); [by unfold slift; rewrite (proj2 (Z.ltb_lt _ _)) by lia|done|].
    eapply (spends_step _ _ _ _ _ _ w); [by unfold slift; rewrite (column_get_ok _ _ _ Q2)|done|]. cbv zeta.
    destruct (mid_set (column_set term_freqs with_term_freqs (Z.of_nat t) tf) fs sp r (with_freq r tf) cs w)
      as (w1 & E1 & U1 & M1); [intros q H1 H2; by eapply set_freq_ok; [..|apply R3]|done|].
    eapply (spends_step _ _ _ _ _ _ w1); [done|done|]. destruct (mid_raise tf _ _ _ _ _ M1) as (w2 & E2 & U2 & M2).
    eapply (spends_step _ _ _ _ _ _ w2); [done|done|].
    eapply (spends_step _ _ _ _ _ _ w2); [by unfold slift; rewrite TermPool.exact_i32_ok by (unfold in_s; lia)|done|].
    set (dc := as_i32 ((doc - d) ≪ 1)). set (fs1 := FieldInvertState.with_max_term_frequency _ _) in *.
    destruct (mid_set (set_last_doc (Z.of_nat t) (doc, dc)) fs1 sp (with_freq r tf) (with_doc (with_freq r tf) doc dc) cs w2) as (w3 & E3 & U3 & M3);
      [intros q H1 H2; by apply set_last_doc_ok|done|]. eapply (spends_step _ _ _ _ _ _ w3); [done|done|].
    assert (Hoff : exists w4 r4, (if has_prox o && has_offsets o then on_postings (column_set last_offsets with_last_offsets (Z.of_nat t) 0)
      else sret tt) w3 = (Ok tt, w4) /\ used w4 = used w3 /\ Mid fs1 sp r4 cs w4 /\ row_is r4 doc dc tf p 0).
    { destruct (has_offsets o) eqn:Eo.
      - rewrite (N1 eq_refl). cbn [andb]. destruct (mid_set (column_set last_offsets with_last_offsets (Z.of_nat t) 0) fs1 sp
          (with_doc (with_freq r tf) doc dc) (with_off (with_doc (with_freq r tf) doc dc) 0) cs w3) as (w4 & E4 & U4 & M4);
          [intros q H1 H2; by eapply set_off_ok; [..|by apply R5]|done|].
        exists w4, (with_off (with_doc (with_freq r tf) doc dc) 0). split_and!; try done.
      - rewrite andb_false_r. exists w3, (with_doc (with_freq r tf) doc dc). split_and!; try done. unfold row_is. split_and!; try done; intros E; congruence. }
    destruct Hoff as (w4 & r4 & E4 & U4 & M4 & R4'). eapply (spends_step _ _ _ _ _ _ w4); [done|done|].
    eapply (spends_seq _ 4000 (8000 + 400 * Z.of_nat (length (o_payload x))) _ _ _ _
      (fun _ => Mid fs1 sp r4 (append t 0 (flat_map vint_code (if f =? 1 then [Z.lor c 1] else [c; f])) cs))).
    { eapply spends_weaken; [apply write_vints_ok; [exact M4|]| |].
      - assert (in_s 32 f) by (unfold in_s, i32_MAX in *; lia). destruct (f =? 1); rewrite !Forall_cons, Forall_nil; auto.
      - destruct (f =? 1); cbn; lia.
      - done. }
    2: lia. 2: lia.
    intros [] w5 M5. replace (flat_map vint_code (if f =? 1 then [Z.lor c 1] else [c; f]))
      with (if f =? 1 then vint_code (Z.lor c 1) else vint_code c ++ vint_code f) in M5 by (destruct (f =? 1); cbn; by rewrite app_nil_r).
    eapply (spends_seq _ (8000 + 400 * Z.of_nat (length (o_payload x))) 0 _ _ _ _ (fun _ w' => exists r', Mid fs1 (if has_prox o then saw sp (o_payload x) else sp) r'
      (if has_prox o then append t 1 (pos_code (o_pos x) (o_payload x) ++ off_code o 0 x)
         (append t 0 (if f =? 1 then vint_code (Z.lor c 1) else vint_code c ++ vint_code f) cs)
       else append t 0 (if f =? 1 then vint_code (Z.lor c 1) else vint_code c ++ vint_code f) cs) w' /\ row_is r' doc dc tf (o_pos x) (o_start x))); [| |lia|lia].
    + destruct (has_prox o) eqn:Ep.
      * rewrite <- (d_pos _ _ _ _ D). pose proof (proj1 Hx Ep) as Hpos.
        apply (write_token_ok (o_pos x) a x tf fs1 sp r4 _ w5 doc dc tf p 0 M5 Ep); [by destruct D|done|unfold i32_MAX in *; lia|lia|done].
      * assert (Hoo : has_offsets o = false) by (destruct (has_offsets o); [by specialize (N1 eq_refl)|done]). rewrite Hoo.
        apply (spends_now _ _ _ _ tt w5); [done|lia|]. exists r4. split; [done|].
        destruct R4' as (A1 & A2 & A3 & A4 & A5). split_and!; try done; intros E; congruence.
    + intros [] w6 (r6 & M6 & R6). destruct (mid_count_term _ _ _ _ _ M6) as (w7 & E7 & U7 & M7); [done|].
      apply (spends_now _ _ _ _ tt w7); [done|lia|]. by exists r6.
  - assert (Hp : has_prox o = false) by (destruct (has_prox o); [by specialize (N2 eq_refl)|done]).
    assert (Hoo : has_offsets o = false) by (destruct (has_offsets o); [by rewrite N1 in Hp|done]). rewrite Hp.
    eapply (spends_step _ _ _ _ _ _ w); [by unfold slift; rewrite (proj2 (Z.ltb_lt _ _)) by lia|done|].
    eapply (spends_step _ _ _ _ _ _ w); [by unfold slift; rewrite TermPool.exact_i32_ok by (unfold in_s; lia)|done|].
    destruct (mid_set (set_last_doc (Z.of_nat t) (doc, doc - d)) fs sp r (with_doc r doc (doc - d)) cs w) as (w1 & E1 & U1 & M1);
      [intros q H1 H2; by apply set_last_doc_ok|done|]. eapply (spends_step _ _ _ _ _ _ w1); [done|done|].
    destruct (mid_count_term _ _ _ _ _ M1) as (w2 & E2 & U2 & M2); [done|]. eapply (spends_step _ _ _ _ _ _ w2); [done|done|].
    eapply spends_weaken; [apply write_vints_ok; [exact M2|by rewrite Forall_cons, Forall_nil]|cbn; lia|].
    intros [] w3 M3. cbn [flat_map] in M3. rewrite app_nil_r in M3. eexists. split; [exact M3|].
    split_and!; try done; intros E; congruence.
Qed.
End Token.
End Writing.
