(* ===== verification/Postings.v ===== *)
(** A field of the in-memory index as a list of postings per term: what each token adds
    ([FreqProxTermsWriterPerField]) and what the enumerators give back
    ([FreqProxDocsEnum], [FreqProxPostingsEnum]). *)

From Stdlib Require Import ZArith Lia Bool.
From stdpp Require Import base tactics numbers list.
From S2P Require Import Prelude ArrayUtil BitUtil DataOutput DataInput StringHelper ByteBlockPool BytesRefHash BytesRefHashProofs.
From S2P Require Import BytesRefDictionary ByteSlices ByteSliceProofs Disi TermsHash TermsHashProofs TermStreams FreqProx FreqProxProofs.
Import BitUtil ByteBlockPool.PoolFacts Spending.

Local Open Scope Z_scope.

(** * The postings of a field *)

Module Postings.
Import FreqProxPostingsArray Columns Codes TermStreams FreqProxTermsWriterPerField Writing.
Import TermsHashPerField (per_field, int_pool, byte_pool, stream_count, last_doc_id, mk_state).

(** The terms in the order of their ids, each with its postings. *)
Abbreviation postings := (list (list Z * list entry)).

Definition add_entry (doc tf : Z) (x : occurrence) (es : list entry) : list entry :=
  match last es with
  | Some e => if e_doc e =? doc then removelast es ++ [mk_entry doc (e_freq e + tf) (e_occs e ++ [x])] else es ++ [mk_entry doc tf [x]]
  | None => [mk_entry doc tf [x]]
  end.

Fixpoint add_posting (u : list Z) (doc tf : Z) (x : occurrence) (m : postings) : postings :=
  match m with
  | [] => [(u, [mk_entry doc tf [x]])]
  | (v, es) :: m => if decide (v = u) then (v, add_entry doc tf x es) :: m else (v, es) :: add_posting u doc tf x m
  end.

Fixpoint entries_of (u : list Z) (m : postings) : list entry :=
  match m with
  | [] => []
  | (v, es) :: m => if decide (v = u) then es else entries_of u m
  end.

Lemma add_entry_snoc doc tf x es e : add_entry doc tf x (es ++ [e]) =
  if e_doc e =? doc then es ++ [mk_entry doc (e_freq e + tf) (e_occs e ++ [x])] else es ++ [e; mk_entry doc tf [x]].
Proof. unfold add_entry. rewrite last_snoc, removelast_last. destruct (_ =? _); [done|]. by rewrite <- app_assoc. Qed.

Lemma posting_cases u m :
  (exists (i : nat) es, m !! i = Some (u, es) /\ entries_of u m = es /\
     forall doc tf x, add_posting u doc tf x m = <[i := (u, add_entry doc tf x es)]> m) \/
  (u ∉ map fst m /\ entries_of u m = [] /\ forall doc tf x, add_posting u doc tf x m = m ++ [(u, [mk_entry doc tf [x]])]).
Proof.
  induction m as [|[v es] m IH]; [right; split_and!; [apply not_elem_of_nil|done|done]|]. cbn [entries_of add_posting map fst].
  destruct (decide (v = u)) as [->|Hne]; [left; by exists 0%nat, es|]. destruct IH as [(i & es' & H1 & H2 & H3)|(H1 & H2 & H3)].
  - left. exists (S i), es'. split_and!; [done|done|]. intros. by rewrite H3.
  - right. split_and!; [|done|intros; by rewrite H3]. rewrite not_elem_of_cons. by split.
Qed.

Section Field.
Context (seed : Z).
Implicit Types (w : FreqProxTermsWriterPerField.t) (m : postings) (cs : list (list (list Z))) (pa : FreqProxPostingsArray.t).

(** The row and the streams of a term with the postings [es]. *)
Definition term_ok (o : IndexOptions) pa cs (t : nat) (es : list entry) : Prop := exists front cur r,
  es = front ++ [cur] /\ cs !! t = Some (streams o front cur) /\ has_row pa t r /\
  row_is o r (e_doc cur) (doc_code o (e_doc cur - last_doc 0 front)) (e_freq cur) (last_pos 0 (e_occs cur)) (last_start 0 (e_occs cur)).

Definition postings_ok (o : IndexOptions) (ld : Z) (es : list entry) : Prop :=
  entries_ok o (-1) es /\ Forall (fun e => e_doc e <= ld) es.

Record PRep w m : Prop := {
  pr_count : stream_count (per_field (base w)) = streams_of (options w);
  pr_last : 0 <= last_doc_id (per_field (base w));
  pr_state : exists pa cs, Rep seed (base w) pa (map fst m) cs /\ shaped (options w) pa /\
    (forall t, (length m <= t < length (get_rows pa))%nat -> blank (options w) pa t) /\
    forall t u es, m !! t = Some (u, es) -> term_ok (options w) pa cs t es;
  pr_ok t u es : m !! t = Some (u, es) -> postings_ok (options w) (last_doc_id (per_field (base w))) es }.

Lemma rep_rows s pa ts cs : Rep seed s pa ts cs -> pa_ok pa /\ (length ts <= length (get_rows pa))%nat /\ length cs = length ts.
Proof. intros (gs & F & <- & Hl). split; [apply F|]. pose proof (fr_len _ _ _ _ _ F). split; [lia|]. unfold contents. by rewrite length_map. Qed.

(** From the end of a token back to the whole field. *)
Lemma prep_of_mid o ld ts (t : nat) pa0 fs sp r cs w m m' u es cs0 :
  Mid seed o ld ts t pa0 fs sp r cs w -> map fst m' = ts -> 0 <= ld -> pa_ok pa0 ->
  (forall v, (length m' <= v < length (get_rows pa0))%nat -> blank o pa0 v) ->
  (forall v x es', v <> t -> m' !! v = Some (x, es') -> m !! v = Some (x, es')) ->
  (forall v x es', v <> t -> m !! v = Some (x, es') -> term_ok o pa0 cs0 v es' /\ postings_ok o ld es') ->
  (forall v, v <> t -> cs !! v = cs0 !! v) ->
  m' !! t = Some (u, es) -> postings_ok o ld es ->
  (exists front cur, es = front ++ [cur] /\ cs !! t = Some (streams o front cur) /\
     row_is o r (e_doc cur) (doc_code o (e_doc cur - last_doc 0 front)) (e_freq cur) (last_pos 0 (e_occs cur)) (last_start 0 (e_occs cur))) ->
  PRep w m'.
Proof.
  intros [M1 M2 M3 M4 M5 M6 (pa & R & Hat & Hs & Ho & Hr)] Hts Hld Hok0 Hbl Hm' Hm Hcs Ht Hes (front & cur & E1 & E2 & E3).
  rewrite <- Hts in R. constructor; rewrite ?M1, ?M4; try done.
  - exists pa, cs. split_and!; try done.
    + intros v Hv. rewrite (only_starts _ _ _ Ho) in Hv. intros Hoff. pose proof (lookup_lt_Some _ _ _ Ht).
      destruct (row_exists pa0 v Hok0 ltac:(lia)) as (r0 & H0). pose proof (only_row _ _ _ Ho v r0 ltac:(lia) H0) as H0'.
      destruct H0 as (_ & _ & _ & H0), H0' as (_ & _ & _ & H0'). rewrite H0', <- H0. by apply Hbl.
    + intros v x es' Hv. destruct (decide (v = t)) as [->|Hne].
      * rewrite Ht in Hv. injection Hv as <- <-. by exists front, cur, r.
      * destruct (Hm v x es' Hne (Hm' v x es' Hne Hv)) as [(f' & c' & r' & F1 & F2 & F3 & F4) _].
        exists f', c', r'. split_and!; try done; [by rewrite Hcs|by apply (only_row _ _ _ Ho)].
  - intros v x es' Hv. destruct (decide (v = t)) as [->|Hne]; [by rewrite Ht in Hv; injection Hv as <- <-|].
    by destruct (Hm v x es' Hne (Hm' v x es' Hne Hv)).
Qed.
Lemma append_same (t i : nat) b cs row d : cs !! t = Some row -> row !! i = Some d -> append t i b cs !! t = Some (<[i := d ++ b]> row).
Proof.
  intros H1 H2. unfold append. rewrite list_lookup_alter_eq, H1. cbn. f_equal. apply list_eq. intros k.
  destruct (decide (k = i)) as [->|].
  - rewrite list_lookup_alter_eq, H2, list_lookup_insert_eq by (by eapply lookup_lt_Some). done.
  - by rewrite list_lookup_alter_ne, list_lookup_insert_ne.
Qed.

Lemma append_other (t i v : nat) b cs : v <> t -> append t i b cs !! v = cs !! v.
Proof. intros H. unfold append. by rewrite list_lookup_alter_ne. Qed.

Lemma token_streams_other o (t v : nat) delta l x cs : v <> t -> token_streams o t delta l x cs !! v = cs !! v.
Proof. intros H. unfold token_streams. destruct (has_prox o); [by apply append_other|done]. Qed.

Section Streams.
Context (o : IndexOptions) (t : nat) (front : list entry) (cur : entry) (cs : list (list (list Z))).
Hypothesis Hcs : cs !! t = Some (streams o front cur).

(** Another occurrence in the document in progress. *)
Lemma streams_same doc f x : let cur' := mk_entry doc f (e_occs cur ++ [x]) in
  token_streams o t (o_pos x - last_pos 0 (e_occs cur)) (last_start 0 (e_occs cur)) x cs !! t = Some (streams o front cur').
Proof using Hcs.
  cbv zeta. unfold token_streams, streams in *. destruct (has_prox o); [|done]. erewrite append_same; [|exact Hcs|done]. cbn [insert list_insert].
  do 3 f_equal. rewrite !prox_code_snoc. cbn [e_occs]. by rewrite occs_code_snoc, <- app_assoc.
Qed.

(** The first occurrence in the next document. *)
Lemma streams_next doc f x :
  token_streams o t (o_pos x) 0 x (append t 0 (flush_code o (doc_code o (e_doc cur - last_doc 0 front)) (e_freq cur)) cs) !! t
  = Some (streams o (front ++ [cur]) (mk_entry doc f [x])).
Proof using Hcs.
  assert (Hd : docs_code o 0 front ++ flush_code o (doc_code o (e_doc cur - last_doc 0 front)) (e_freq cur) = docs_code o 0 (front ++ [cur])).
  { rewrite docs_code_snoc. unfold entry_code, flush_code. by destruct (has_freq o). }
  unfold token_streams, streams in *. destruct (has_prox o).
  - erewrite append_same; [|by erewrite append_same; [|exact Hcs|done]|done]. cbn [insert list_insert]. rewrite Hd. do 3 f_equal.
    rewrite (prox_code_snoc o (front ++ [cur])). cbn [e_occs occs_code]. by rewrite Z.sub_0_r, app_nil_r.
  - erewrite append_same; [|exact Hcs|done]. cbn [insert list_insert]. by rewrite Hd.
Qed.
End Streams.

Lemma streams_new o (t : nat) doc f x cs : t = length cs ->
  token_streams o t (o_pos x) 0 x (cs ++ [replicate (Z.to_nat (streams_of o)) []]) !! t = Some (streams o [] (mk_entry doc f [x])).
Proof.
  intros ->. assert (H : forall row, (cs ++ [row]) !! length cs = Some row) by (intros; by apply list_lookup_middle).
  unfold token_streams, streams, streams_of. destruct (has_prox o); [|apply H].
  erewrite append_same; [|apply H|done]. cbn. by rewrite Z.sub_0_r, !app_nil_r.
Qed.

Lemma last_doc_0 o es : entries_ok o (-1) es -> 0 <= last_doc 0 es /\ last_doc 0 es = Z.max 0 (last_doc (-1) es).
Proof.
  destruct es as [|e es]; [done|]. intros H. pose proof (last_doc_le o _ _ H). destruct H as [[[H1 _] _] H2]. pose proof (last_doc_le o _ _ H2).
  rewrite !last_doc_cons in *. lia.
Qed.

Lemma entry_delta o front cur : entries_ok o (-1) (front ++ [cur]) -> 0 <= e_doc cur - last_doc 0 front < 2 ^ 31 /\ 0 <= last_doc 0 front.
Proof.
  intros [H1 [H2 _]]%entries_ok_snoc. destruct (last_doc_0 _ _ H1) as [H3 H4]. pose proof (last_doc_le _ _ _ H1).
  unfold Disi.NO_MORE_DOCS, i32_MAX in *. lia.
Qed.

Lemma doc_code_ok o d : 0 <= d < 2 ^ 31 -> in_s 32 (doc_code o d) /\ (has_freq o = true -> in_s 32 (Z.lor (doc_code o d) 1)).
Proof.
  intros Hd. destruct (delta_read d Hd) as (D1 & _ & _ & D2 & _). unfold doc_code. destruct (has_freq o); [done|].
  split; [unfold in_s; lia|done].
Qed.
(** ** A token of the field *)

Lemma occs_last o xs : forall pos start, occs_ok o pos start xs ->
  (has_prox o = true -> pos <= last_pos pos xs) /\ (has_offsets o = true -> start <= last_start start xs).
Proof.
  induction xs as [|x xs IH]; intros pos start H; [unfold last_pos, last_start; cbn; split; lia|]. destruct H as [(X1 & X2 & _) H].
  destruct (IH _ _ H) as [I1 I2]. unfold last_pos, last_start in *. rewrite last_cons. destruct (last xs); cbn in *; split; intros E;
    try specialize (X1 E); try specialize (X2 E); try specialize (I1 E); try specialize (I2 E); lia.
Qed.

(** The occurrence can follow the postings of its term. *)
Definition admissible (o : IndexOptions) (es : list entry) (doc tf : Z) (x : occurrence) : Prop :=
  match last es with
  | Some e => if e_doc e =? doc then (has_freq o = true -> e_freq e + tf <= i32_MAX) /\
                                     occ_ok o (last_pos 0 (e_occs e)) (last_start 0 (e_occs e)) x
              else occ_ok o 0 0 x
  | None => occ_ok o 0 0 x
  end.

(** What the token makes of the counters of its document. *)
Definition counters (o : IndexOptions) (fs : FieldInvertState.t) (es : list entry) (doc tf : Z) : FieldInvertState.t :=
  match last es with
  | Some e => if e_doc e =? doc then if has_freq o then counted fs (e_freq e + tf) false else fs
              else if has_freq o then counted fs tf true
              else FieldInvertState.with_unique_term_count fs (FieldInvertState.unique_term_count fs + 1)
  | None => counted fs (if has_freq o then tf else 1) true
  end.

Definition dated w (doc : Z) : FreqProxTermsWriterPerField.t :=
  let f := per_field (base w) in
  mk (options w) (saw_payloads w)
    (mk_state (TermsHashPerField.mk (TermsHashPerField.term_stream_address_buffer_index f) (TermsHashPerField.stream_address_offset f)
       (stream_count f) (TermsHashPerField.bytes_hash f) doc) (int_pool (base w)) (byte_pool (base w))) (field_state w).

(** The start of [add_with_bytes_ref]. *)
Lemma token_start w b doc a c bytes Q : last_doc_id (per_field (base w)) <= doc -> get_bytes_ref a = Ok bytes ->
  spends used c (let* term_id := on_base (TermsHashPerField.on_hash (BytesRefHash.add seed b)) in
                 if 0 <=? term_id then
                   let* _ := on_base (TermsHashPerField.init_stream_slices term_id) in new_term term_id doc a
                 else
                   let* term_id := on_base (TermsHashPerField.position_stream_slice term_id) in add_term term_id doc a) (dated w doc) Q ->
  spends used c (add_with_bytes_ref seed (Some b) doc a) w Q.
Proof.
  intros Hd Hb H. unfold add_with_bytes_ref.
  eapply (spends_step _ _ _ _ _ _ (dated w doc)); [|done|].
  { unfold on_base, TermsHashPerField.assert_doc_id. rewrite sget_sbind, slift_sbind, (proj2 (Z.leb_le _ _)) by done. done. }
  eapply (spends_step _ _ _ _ _ _ (dated w doc)); [done|done|].
  eapply (spends_step _ _ _ _ _ _ (dated w doc)); [by unfold slift; rewrite Hb|done|].
  by eapply (spends_step _ _ _ _ _ _ (dated w doc)).
Qed.

Lemma postings_later o ld ld' es : postings_ok o ld es -> ld <= ld' -> postings_ok o ld' es.
Proof. intros [H1 H2] Hl. split; [done|]. eapply Forall_impl; [exact H2|]. cbn. lia. Qed.

Definition token_cost (u : list Z) (x : occurrence) : Z := 12100 + 2 * Z.of_nat (length u) + 400 * Z.of_nat (length (o_payload x)).

Section Step.
Context (w : FreqProxTermsWriterPerField.t) (m : postings) (b : BytesRef.t) (doc : Z) (a : attributes) (x : occurrence) (tf : Z).
Context (bytes : option BytesRef.t).
Abbreviation u := (BytesRef.contents b).
Hypothesis HP : PRep w m.
Hypothesis Hvalid : BytesRef.valid b.
Hypothesis Hbytes : Forall (in_u 8) u.
Hypothesis Hlen : Z.of_nat (length u) <= BYTE_BLOCK_SIZE - 2.
Hypothesis Hgb : get_bytes_ref a = Ok bytes.
Hypothesis Hdoc : last_doc_id (per_field (base w)) <= doc < Disi.NO_MORE_DOCS.
Hypothesis Hdesc : describes (options w) (field_state w) a x tf.
Hypothesis Hadm : admissible (options w) (entries_of u m) doc tf x.
Hypothesis Huniq : 0 <= FieldInvertState.unique_term_count (field_state w) < i32_MAX.

Definition token_post (w' : FreqProxTermsWriterPerField.t) : Prop :=
  PRep w' (add_posting u doc tf x m) /\ options w' = options w /\ last_doc_id (per_field (base w')) = doc /\
  field_state w' = counters (options w) (field_state w) (entries_of u m) doc tf /\
  saw_payloads w' = token_saw (options w) (saw_payloads w) x.

Lemma on_base_keeps {A} c (mm : ST TermsHashPerField.state A) v (Q : A -> TermsHashPerField.state -> Prop) :
  spends usage c mm (base v) Q -> spends used c (on_base mm) v (fun y v' => Q y (base v') /\
    options v' = options v /\ saw_payloads v' = saw_payloads v /\ field_state v' = field_state v).
Proof using Type. intros H. apply on_base_spends. eapply spends_weaken; [exact H|done|]. intros y s HQ. by split_and!. Qed.

Lemma dated_rep pa ts cs : Rep seed (base w) pa ts cs -> Rep seed (base (dated w doc)) pa ts cs.
Proof. intros R. by apply (rep_field seed (base w)). Qed.

(** A term the field has met. *)
Lemma token_known (i : nat) es : m !! i = Some (u, es) -> entries_of u m = es ->
  (forall d f y, add_posting u d f y m = <[i := (u, add_entry d f y es)]> m) ->
  spends used (token_cost u x) (add_with_bytes_ref seed (Some b) doc a) w (fun _ => token_post).
Proof using All.
  intros Hi Hes Hadd. destruct HP as [P1 P2 (pa & cs & R & Hsh & Hbl & Hterm) P4]. destruct (P4 i u es Hi) as [Hok Hle].
  pose proof block_size_val as HB. pose proof (BytesRef.contents_length b Hvalid) as Hbl'. pose proof (lookup_lt_Some _ _ _ Hi) as Hlt.
  destruct (Hterm i u es Hi) as (front & cur & r & E & Hcs & Hrow & Hris). destruct (rep_rows _ _ _ _ R) as (Hpok & Hplen & Hclen).
  apply (token_start w b doc a _ bytes); [lia|done|].
  assert (Hmi : map fst m !! i = Some u) by (etrans; [apply list_lookup_fmap|]; by rewrite Hi).
  pose proof (dated_rep _ _ _ R) as R1. pose proof R1 as (gs & F1 & _).
  eapply (spends_step _ _ _ _ (dated w doc) _ (dated w doc)); [|done|].
  { unfold on_base. by rewrite (add_known seed _ _ _ _ b i F1 Hvalid Hbytes ltac:(lia) Hmi). }
  rewrite (proj2 (Z.leb_gt _ _)) by lia.
  destruct (rep_position seed _ _ _ _ i R1) as (s2 & E2 & R2 & Hat2 & U2 & C2 & L2); [by rewrite length_map|].
  set (w2 := mk (options w) (saw_payloads w) s2 (field_state w)).
  eapply (spends_step _ _ _ _ (dated w doc) _ w2); [unfold on_base; by rewrite E2|done|].
  assert (Hc2 : stream_count (per_field s2) = streams_of (options w)) by (by rewrite C2).
  assert (M : Mid seed (options w) doc (map fst m) i pa (field_state w) (saw_payloads w) r cs w2).
  { constructor; try done; [by rewrite length_map|]. exists pa. split_and!; try done. }
  rewrite E in Hi, Hes, Hok, Hle, Hadd. clear es E. apply entries_ok_snoc in Hok as Hok'. pose proof (entry_delta _ _ _ Hok) as [Hdelta Hl0].
  destruct (doc_code_ok (options w) _ Hdelta) as [Hc Hc1]. destruct Hok' as [Hfront (Hcd & Hcf & Hcn & Hco)].
  assert (Hcle : e_doc cur <= last_doc_id (per_field (base w))) by (by apply Forall_app in Hle as [_ [? _]%Forall_cons]).
  unfold token_post, admissible, counters in *. rewrite Hes, last_snoc in *. rewrite Hadd, add_entry_snoc.
  assert (Hts : forall es', map fst (<[i := (u, es')]> m) = map fst m).
  { intros es'. etrans; [apply list_fmap_insert|]. by apply list_insert_id. }
  assert (Hfin : forall fs' sp' r' cs' w' front' cur', Mid seed (options w) doc (map fst m) i pa fs' sp' r' cs' w' ->
    cs' !! i = Some (streams (options w) front' cur') -> (forall v, v <> i -> cs' !! v = cs !! v) ->
    row_is (options w) r' (e_doc cur') (doc_code (options w) (e_doc cur' - last_doc 0 front')) (e_freq cur') (last_pos 0 (e_occs cur')) (last_start 0 (e_occs cur')) ->
    postings_ok (options w) doc (front' ++ [cur']) -> PRep w' (<[i := (u, front' ++ [cur'])]> m)).
  { intros fs' sp' r' cs' w' front' cur' M' Hcs' Hoth Hris' Hpok'.
    eapply (prep_of_mid (options w) doc (map fst m) i pa fs' sp' r' cs' w' m _ u (front' ++ [cur']) cs M'); try done; try lia.
    - rewrite length_insert. exact Hbl.
    - intros v y es' Hv. by rewrite list_lookup_insert_ne.
    - intros v y es' Hv Hv'. split; [by eapply Hterm|]. eapply postings_later; [by eapply P4|lia].
    - by apply list_lookup_insert_eq.
    - by exists front', cur'. }
  destruct (Z.eqb_spec (e_doc cur) doc) as [Ed|Ed].
  - destruct Hadm as [Hfm Hx]. rewrite <- Ed in Hfin |- *.
    eapply spends_weaken; [eapply (add_same_ok seed (options w) (e_doc cur) (map fst m) i pa a x tf (field_state w) (saw_payloads w) r cs w2)|unfold token_cost; lia|].
    + by rewrite Ed.
    + done.
    + exact Hris.
    + intros E. specialize (Hcf E). split; [lia|by apply Hfm].
    + intros E. apply (occs_last (options w) (e_occs cur) 0 0); [by apply Hco|done].
    + intros E. apply (occs_last (options w) (e_occs cur) 0 0); [apply Hco; by apply options_nested|done].
    + done.
    + intros [] w3 (r3 & M3 & R3). split_and!; [|apply M3..].
      eapply (Hfin _ _ _ _ _ front (mk_entry (e_doc cur) (e_freq cur + tf) (e_occs cur ++ [x])) M3).
      * by apply streams_same.
      * intros v Hv. by apply token_streams_other.
      * cbn [e_doc e_freq e_occs]. unfold last_pos, last_start. rewrite !last_snoc. exact R3.
      * split; [|apply Forall_app; split; [apply Forall_app in Hle as [Hle _]; eapply Forall_impl; [exact Hle|cbn; lia]|apply Forall_singleton; cbn; lia]].
        apply entries_ok_snoc. split; [done|]. split_and!; cbn [e_doc e_freq e_occs]; [lia|lia| |by destruct (e_occs cur)|].
        -- intros E. specialize (Hcf E). specialize (Hfm E). pose proof (d_range _ _ _ _ _ Hdesc). lia.
        -- intros E. destruct (Hco E) as [Hcl Hocc]. rewrite (d_custom _ _ _ _ _ Hdesc) by auto. split; [rewrite length_app; cbn; lia|].
           apply occs_ok_snoc. by split.
  - eapply spends_weaken; [eapply (add_next_ok seed (options w) doc (map fst m) i pa doc a x tf (field_state w) (saw_payloads w) r cs w2 (e_doc cur))|unfold token_cost; lia|];
      try done; try (unfold Disi.NO_MORE_DOCS, i32_MAX in *; lia).
    intros [] w3 (r3 & M3 & R3). split_and!; [|apply M3..].
    change [cur; mk_entry doc tf [x]] with ([cur] ++ [mk_entry doc tf [x]]). rewrite app_assoc.
    eapply (Hfin _ _ _ _ _ (front ++ [cur]) (mk_entry doc tf [x]) M3).
    + by apply streams_next.
    + intros v Hv. rewrite token_streams_other by done. by apply append_other.
    + cbn [e_doc e_freq e_occs]. unfold last_doc. rewrite last_snoc. exact R3.
    + split; [|apply Forall_app; split; [eapply Forall_impl; [exact Hle|cbn; lia]|apply Forall_singleton; cbn; lia]].
      apply entries_ok_snoc. split; [done|]. unfold last_doc. rewrite last_snoc. cbn. pose proof (d_range _ _ _ _ _ Hdesc).
      split_and!; cbn [e_doc e_freq e_occs]; try done; try lia. intros E. split; [rewrite (d_custom _ _ _ _ _ Hdesc) by auto; done|]. by split.
Qed.
(** A new term. *)
Lemma token_fresh : u ∉ map fst m -> entries_of u m = [] ->
  (forall d f y, add_posting u d f y m = m ++ [(u, [mk_entry d f [y]])]) ->
  spends used (token_cost u x) (add_with_bytes_ref seed (Some b) doc a) w (fun _ => token_post).
Proof using All.
  intros Hn Hes Hadd. destruct HP as [P1 P2 (pa & cs & R & Hsh & Hbl & Hterm) P4]. destruct (rep_rows _ _ _ _ R) as (Hpok & Hplen & Hclen).
  rewrite length_map in Hplen, Hclen. apply (token_start w b doc a _ bytes); [lia|done|]. pose proof (dated_rep _ _ _ R) as R1.
  unfold token_post, admissible, counters in *. rewrite Hes, Hadd in *. cbn [last] in *.
  assert (Hso : 1 <= streams_of (options w) <= 2) by (unfold streams_of; destruct (has_prox (options w)); lia).
  eapply (spends_seq _ (2 * (2 + Z.of_nat (length u))) (30 + (8000 + 400 * Z.of_nat (length (o_payload x)))));
    [apply on_base_keeps, (rep_add seed _ _ _ _ b R1 Hvalid Hbytes Hn Hlen)| |lia|unfold token_cost; lia].
  intros id w1 ((-> & He & Hc1 & Hl1) & K1 & K2 & K3). rewrite (proj2 (Z.leb_le _ _)) by lia.
  pose proof (rep_init seed _ _ _ _ _ He) as Hini. cbv zeta in Hini. rewrite Hc1 in Hini.
  change (stream_count (per_field (base (dated w doc)))) with (stream_count (per_field (base w))) in Hini. rewrite P1 in Hini.
  eapply (spends_seq _ 30 (8000 + 400 * Z.of_nat (length (o_payload x))));
    [apply on_base_keeps; eapply spends_weaken; [exact Hini|lia|intros ? ? HH; exact HH]| |lia|lia].
  intros [] w2 ((pa' & R2 & Hat & Hk & Hc2 & Hl2) & K4 & K5 & K6). rewrite length_map in *.
  assert (Hrows : (length m < length (get_rows pa'))%nat /\ pa_ok pa').
  { destruct (rep_rows _ _ _ _ R2) as (? & Hx & _). rewrite length_app, length_map in Hx. cbn [length] in Hx. split; [lia|done]. }
  destruct Hrows as [Hrows Hok']. destruct (row_exists pa' (length m) Hok' Hrows) as (r & Hr).
  pose proof (keeps_shape _ _ _ Hk Hsh) as Hsh'.
  assert (Hbl' : forall v, (length m <= v < length (get_rows pa'))%nat -> blank (options w) pa' v).
  { intros v Hv. apply (keeps_blank _ pa pa' v Hpok Hok' Hsh Hk); [lia|]. intros Hv'. apply Hbl. lia. }
  assert (M : Mid seed (options w) doc (map fst m ++ [u]) (length m) pa' (field_state w) (saw_payloads w) r
    (cs ++ [replicate (Z.to_nat (streams_of (options w))) []]) w2).
  { constructor; [by rewrite K4, K1|by rewrite K6, K3|by rewrite K5, K2|by rewrite Hl2, Hl1|done|rewrite length_app, length_map; cbn; lia|].
    exists pa'. split_and!; try done. }
  eapply spends_weaken; [eapply (new_term_ok seed (options w) doc (map fst m ++ [u]) (length m) pa' doc a x tf _ _ r _ w2 M Hdesc)|lia|].
  - intros Ho. destruct Hr as (_ & _ & _ & <-). apply Hbl'; [lia|done].
  - unfold Disi.NO_MORE_DOCS, i32_MAX in *. lia.
  - done.
  - done.
  - intros [] w3 (r3 & M3 & R3). split_and!; [|apply M3..].
    eapply (prep_of_mid (options w) doc (map fst m ++ [u]) (length m) pa' _ _ r3 _ w3 m _ u [mk_entry doc tf [x]]
      (cs ++ [replicate (Z.to_nat (streams_of (options w))) []]) M3); try done; try lia.
    + by rewrite map_app.
    + intros v Hv. apply Hbl'. rewrite length_app in Hv. cbn [length] in Hv. lia.
    + intros v y es' Hv Hm. apply lookup_snoc_Some in Hm as [[_ Hm]|[-> _]]; [done|done].
    + intros v y es' Hv Hm. split; [|eapply postings_later; [by eapply P4|lia]].
      destruct (Hterm v y es' Hm) as (f' & c' & r' & F1 & F2 & F3 & F4). exists f', c', r'. split_and!; try done.
      * by apply lookup_app_l_Some.
      * by apply (keeps_row pa).
    + intros v Hv. by apply token_streams_other.
    + by apply list_lookup_middle.
    + split; [|apply Forall_singleton; cbn; lia]. split; [|done]. pose proof (d_range _ _ _ _ _ Hdesc). split_and!; cbn [e_doc e_freq e_occs]; try done; try lia.
      intros E. split; [rewrite (d_custom _ _ _ _ _ Hdesc) by auto; done|]. by split.
    + exists [], (mk_entry doc tf [x]). split_and!; [done|by apply streams_new|]. cbn [e_doc e_freq e_occs]. unfold last_doc. cbn. by rewrite Z.sub_0_r.
Qed.
Lemma token_step : spends used (token_cost u x) (add_with_bytes_ref seed (Some b) doc a) w (fun _ => token_post).
Proof using All.
  destruct (posting_cases u m) as [(i & es & H1 & H2 & H3)|(H1 & H2 & H3)]; [by apply (token_known i es)|by apply token_fresh].
Qed.
End Step.

(** A field that was just created holds nothing. *)
Lemma prep_new o counter ip bp fs : o <> NotIndexed -> Room.Clean bp -> Ints.IWF ip ->
  exists w, FreqProxTermsWriterPerField.new o counter ip bp fs = Ok w /\ PRep w [] /\ options w = o /\ field_state w = fs /\
    last_doc_id (per_field (base w)) = 0 /\ saw_payloads w = false /\ int_pool (base w) = ip /\ byte_pool (base w) = bp.
Proof.
  intros Ho Hc Hi. unfold FreqProxTermsWriterPerField.new. set (n := if options_ge o DocsAndFreqsAndPositions then 2 else 1).
  assert (Hn : 1 <= n <= 3276) by (unfold n; destruct (options_ge _ _); lia).
  destruct (rep_new (PA := FreqProxPostingsArray.t) seed n counter o ip bp Hn Ho Hc Hi) as (f & Hf & Hsc & Hld & _ & R).
  rewrite Hf. cbn [rbind]. eexists. split; [done|]. split_and!; try done.
  constructor; cbn [options base per_field]; [done|by rewrite Hld| |done].
  exists (new_for_index 2 o), []. split_and!; try done.
  - cbn. unfold shaped, new_for_index_, new. cbn [term_freqs last_positions last_offsets]. by destruct o.
  - intros v Hv Hoff. change (length (get_rows (new_for_index 2 o))) with 2%nat in Hv. cbn [new_for_index freq_prox_array].
    unfold new_for_index_, new. cbn [last_offsets]. rewrite (proj1 (options_nested o) Hoff), Hoff. cbn.
    destruct v as [|[|v]]; [done|done|lia].
Qed.

Lemma prep_invert w m fs : PRep w m -> PRep (mk (options w) (saw_payloads w) (base w) fs) m.
Proof. by intros []. Qed.

(** The field holds the postings of the tokens it was given: the moves are the creation of
    the field, the changes the inverter makes to the invert state, and tokens that were
    taken. *)
Inductive indexed : FreqProxTermsWriterPerField.t -> postings -> Prop :=
| indexed_new o counter ip bp fs w : o <> NotIndexed -> Room.Clean bp -> Ints.IWF ip ->
    FreqProxTermsWriterPerField.new o counter ip bp fs = Ok w -> indexed w []
| indexed_invert w m fs w' : indexed w m -> set_field_state fs w = (Ok tt, w') -> indexed w' m
| indexed_token w m b doc a x tf bytes w' : indexed w m -> BytesRef.valid b -> Forall (in_u 8) (BytesRef.contents b) ->
    Z.of_nat (length (BytesRef.contents b)) <= BYTE_BLOCK_SIZE - 2 -> get_bytes_ref a = Ok bytes ->
    last_doc_id (per_field (base w)) <= doc < Disi.NO_MORE_DOCS ->
    describes (options w) (field_state w) a x tf -> admissible (options w) (entries_of (BytesRef.contents b) m) doc tf x ->
    0 <= FieldInvertState.unique_term_count (field_state w) < i32_MAX ->
    add_with_bytes_ref seed (Some b) doc a w = (Ok tt, w') -> indexed w' (add_posting (BytesRef.contents b) doc tf x m).

Lemma indexed_rep w m : indexed w m -> PRep w m.
Proof.
  induction 1 as [o counter ip bp fs w H1 H2 H3 H4|w m fs w' _ IH H|w m b doc a x tf bytes w' _ IH H1 H2 H3 H4 H5 H6 H7 H8 H9].
  - destruct (prep_new o counter ip bp fs H1 H2 H3) as (w' & E & HP & _). rewrite H4 in E. by injection E as <-.
  - injection H as <-. by apply prep_invert.
  - pose proof (token_step w m b doc a x tf bytes IH H1 H2 H3 H4 H5 H6 H7 H8) as Hs. by destruct (spends_ok _ _ _ _ _ _ _ Hs H9).
Qed.

(** A token that fits is taken. *)
Lemma indexed_step w m fs b doc a x tf bytes : let v := mk (options w) (saw_payloads w) (base w) fs in
  indexed w m -> BytesRef.valid b -> Forall (in_u 8) (BytesRef.contents b) ->
  Z.of_nat (length (BytesRef.contents b)) <= BYTE_BLOCK_SIZE - 2 -> get_bytes_ref a = Ok bytes ->
  last_doc_id (per_field (base w)) <= doc < Disi.NO_MORE_DOCS ->
  describes (options w) fs a x tf -> admissible (options w) (entries_of (BytesRef.contents b) m) doc tf x ->
  0 <= FieldInvertState.unique_term_count fs < i32_MAX -> used w + token_cost (BytesRef.contents b) x <= CAPACITY ->
  exists w', add_with_bytes_ref seed (Some b) doc a v = (Ok tt, w') /\ indexed w' (add_posting (BytesRef.contents b) doc tf x m) /\
    options w' = options w /\ last_doc_id (per_field (base w')) = doc /\ used w' <= used w + token_cost (BytesRef.contents b) x.
Proof.
  intros v H H1 H2 H3 H4 H5 H6 H7 H8 Hc. assert (Hv : indexed v m) by (by apply (indexed_invert w m fs)).
  destruct (spends_fits _ _ _ _ _ (token_step v m b doc a x tf bytes (indexed_rep _ _ Hv) H1 H2 H3 H4 H5 H6 H7 H8) Hc)
    as ([] & w' & E & Hu & (_ & Ho & Hl & _)).
  exists w'. split_and!; try done. by apply (indexed_token v m b doc a x tf bytes).
Qed.

(** C4: A token that the writer of a field takes is added to the postings of its term: a
    new term gets the next id and its first entry; in the document in progress the entry of
    the term grows by the occurrence; in a later document the entry in progress is written
    to its stream and the next one begins. Every other term keeps its postings, all terms
    sharing two pools and a table. The counters of the document follow: a term new to the
    document counts once, and the maximal frequency is that of its most frequent term. The
    only failure is an overflow of the pools near two gigabytes. *)
Theorem token_adds_posting w m b doc a x tf bytes :
  PRep w m -> BytesRef.valid b -> Forall (in_u 8) (BytesRef.contents b) -> Z.of_nat (length (BytesRef.contents b)) <= BYTE_BLOCK_SIZE - 2 ->
  get_bytes_ref a = Ok bytes -> last_doc_id (per_field (base w)) <= doc < Disi.NO_MORE_DOCS ->
  describes (options w) (field_state w) a x tf -> admissible (options w) (entries_of (BytesRef.contents b) m) doc tf x ->
  0 <= FieldInvertState.unique_term_count (field_state w) < i32_MAX ->
  spends used (token_cost (BytesRef.contents b) x) (add_with_bytes_ref seed (Some b) doc a) w (fun _ w' =>
    PRep w' (add_posting (BytesRef.contents b) doc tf x m) /\ options w' = options w /\ last_doc_id (per_field (base w')) = doc /\
    field_state w' = counters (options w) (field_state w) (entries_of (BytesRef.contents b) m) doc tf /\
    saw_payloads w' = token_saw (options w) (saw_payloads w) x).
Proof. intros. by eapply token_step. Qed.
End Field.
End Postings.

(** * Witnesses *)

Section Samples.
Import Codes Writing Postings TermStreams.
Import FreqProxPostingsArray.
Import FreqProxTermsWriterPerField (base, options, field_state, add_with_bytes_ref).
Import TermsHashPerField (per_field, last_doc_id).

(** The word [hi] in two documents: twice in the first, the second time with a payload. *)
Definition sample_word : BytesRef.t := BytesRefDictionary.term [104; 105].
Definition sample_occs : list occurrence := [mk_occ 0 0 2 []; mk_occ 3 5 7 [42]; mk_occ 1 0 2 []].
Definition sample_at (p : Z) : FieldInvertState.t := FieldInvertState.mk p 0 0 0 0 0 0 0.
Definition sample_attributes (x : occurrence) : attributes :=
  mk_attributes (Ok (match o_payload x with [] => None | d => Some (BytesRef.from_bytes d) end)) (Ok (o_start x)) (Ok (o_end x))
    (Err IllegalState) (Ok (Some sample_word)).
Definition sample_postings : postings :=
  [([104; 105], [mk_entry 0 2 [mk_occ 0 0 2 []; mk_occ 3 5 7 [42]]; mk_entry 2 1 [mk_occ 1 0 2 []]])].

Lemma sample_describes p x : o_pos x = p -> x ∈ sample_occs ->
  describes DocsAndFreqsAndPositionsAndOffsets (sample_at p) (sample_attributes x) x 1.
Proof.
  intros Hp Hx. constructor; try done.
  - intros _. eexists. split; [done|]. unfold sample_occs in Hx. rewrite !elem_of_cons, elem_of_nil in Hx.
    destruct Hx as [->|[->|[->|[]]]]; cbn; [done| |done]. split; [|split; [|done]].
    + by apply (BytesRef.from_bytes_valid [42]).
    + by repeat constructor.
  - intros _. by exists (o_start x), (o_end x).
Qed.

Lemma sample_new : exists w, indexed 7 w [] /\ PRep 7 w [] /\ options w = DocsAndFreqsAndPositionsAndOffsets /\
  field_state w = sample_at 0 /\ last_doc_id (per_field (base w)) = 0 /\ used w <= 10.
Proof.
  destruct (prep_new 7 DocsAndFreqsAndPositionsAndOffsets 0 IntBlockPool.new (ByteBlockPool.new AllocatorByte.new_direct) FieldInvertState.new)
    as (w & E & HP & Ho & Hf & Hl & _ & Hi & Hb); [done|apply clean_new|by apply Ints.iwf_new|].
  exists w. split_and!; try done; [|unfold used, usage; rewrite Hi, Hb; by vm_compute].
  eapply indexed_new; [| | |exact E]; [done|apply clean_new|by apply Ints.iwf_new].
Qed.

Lemma token_adds_posting_witness : exists w w', PRep 7 w [] /\
  add_with_bytes_ref 7 (Some sample_word) 4 (sample_attributes (mk_occ 0 0 2 [])) w = (Ok tt, w') /\
  PRep 7 w' [([104; 105], [mk_entry 4 1 [mk_occ 0 0 2 []]])] /\ FieldInvertState.unique_term_count (field_state w') = 1.
Proof.
  destruct sample_new as (w & _ & HP & Ho & Hf & Hl & Hu). destruct (BytesRef.from_bytes_valid [104; 105]) as [Hv Hc].
  pose proof (token_adds_posting 7 w [] sample_word 4 (sample_attributes (mk_occ 0 0 2 [])) (mk_occ 0 0 2 []) 1 (Some sample_word)) as H.
  rewrite Ho, Hf, Hl in H.
  destruct (spends_fits _ _ _ _ _ (H HP Hv ltac:(by apply BytesRefDictionary.bytes_of) ltac:(by vm_compute) eq_refl ltac:(by vm_compute)
    ltac:(apply sample_describes; [done|by left]) ltac:(cbn; repeat split; done || by constructor) ltac:(by vm_compute))) as ([] & w' & E & _ & HP' & _ & _ & Hf' & _).
  - etrans; [apply Z.add_le_mono_r, Hu|by vm_compute].
  - exists w, w'. split_and!; [exact HP|exact E|exact HP'|by rewrite Hf'].
Defined.

(** One more of the sample tokens. *)
Lemma sample_step w m p doc x : indexed 7 w m -> options w = DocsAndFreqsAndPositionsAndOffsets ->
  last_doc_id (per_field (base w)) <= doc < 100 -> o_pos x = p -> x ∈ sample_occs ->
  admissible DocsAndFreqsAndPositionsAndOffsets (entries_of [104; 105] m) doc 1 x -> used w <= 1000000 ->
  exists w', indexed 7 w' (add_posting [104; 105] doc 1 x m) /\ options w' = DocsAndFreqsAndPositionsAndOffsets /\
    last_doc_id (per_field (base w')) = doc /\ used w' <= used w + 12504.
Proof.
  intros H Ho Hd Hp Hx Ha Hu. destruct (BytesRef.from_bytes_valid [104; 105]) as [Hv Hc].
  assert (Hl : (length (o_payload x) <= 1)%nat).
  { unfold sample_occs in Hx. rewrite !elem_of_cons, elem_of_nil in Hx. destruct Hx as [->|[->|[->|[]]]]; cbn; lia. }
  assert (Hk : token_cost (BytesRef.contents sample_word) x <= 12504) by (unfold token_cost; cbn [length BytesRef.contents sample_word]; change (length _) with 2%nat at 1; lia).
  destruct (indexed_step 7 w m (sample_at p) sample_word doc (sample_attributes x) x 1 (Some sample_word))
    as (w' & _ & H' & Ho' & Hl' & Hu'); rewrite ?Ho; try done.
  - by apply BytesRefDictionary.bytes_of.
  - unfold Disi.NO_MORE_DOCS, i32_MAX. lia.
  - by apply sample_describes.
  - unfold CAPACITY. change INT_BLOCK_SIZE with 8192. lia.
  - exists w'. split_and!; [exact H'|congruence|done|lia].
Qed.

(** The field of the three tokens. *)
Lemma sample_indexed : exists w, indexed 7 w sample_postings /\ options w = DocsAndFreqsAndPositionsAndOffsets.
Proof.
  destruct sample_new as (w & H & _ & Ho & _ & Hl & Hu).
  assert (Hi : 42 <= i32_MAX) by done.
  destruct (sample_step w [] 0 0 (mk_occ 0 0 2 []) H Ho ltac:(lia) eq_refl) as (w1 & H1 & Ho1 & Hl1 & Hu1).
  { by left. } { cbn. split_and!; intros; try lia; by repeat constructor. } { lia. }
  destruct (sample_step w1 _ 3 0 (mk_occ 3 5 7 [42]) H1 Ho1 ltac:(lia) eq_refl) as (w2 & H2 & Ho2 & Hl2 & Hu2).
  { by right; left. } { cbn. split_and!; intros; try lia; by repeat constructor. } { lia. }
  destruct (sample_step w2 _ 1 2 (mk_occ 1 0 2 []) H2 Ho2 ltac:(lia) eq_refl) as (w3 & H3 & Ho3 & _ & _).
  { by right; right; left. } { cbn. split_and!; intros; try lia; by repeat constructor. } { lia. }
  by exists w3.
Qed.
End Samples.
