(* ===== verification/PostingsEnums.v ===== *)
(** What the enumerators of in-memory postings read: documents and frequencies with
    [FreqProxDocsEnum], and positions, offsets and payloads with [FreqProxPostingsEnum]. *)

From Stdlib Require Import ZArith Lia Bool.
From stdpp Require Import base tactics numbers list.
From S2P Require Import Prelude ArrayUtil BitUtil DataOutput DataInput StringHelper ByteBlockPool BytesRefHash BytesRefHashProofs.
From S2P Require Import BytesRefDictionary ByteSlices ByteSliceProofs Disi TermsHash TermsHashProofs TermStreams FreqProx FreqProxProofs Postings.
Import BitUtil Spending.

Local Open Scope Z_scope.

Module PostingsEnums.
Import FreqProxPostingsArray Columns Codes TermStreams Writing Postings.
Import FreqProxTermsWriterPerField (base, options).
Import TermsHashPerField (per_field, int_pool, byte_pool, stream_count, last_doc_id, mk_state).

Definition view_of (w : FreqProxTermsWriterPerField.t) : field_view :=
  mk_view (options w) (per_field (base w)) (int_pool (base w)) (byte_pool (base w)).

(** ** One code at a time *)

(** The code of an entry, as both enumerators take it apart. *)
Lemma entry_code_reads o prev e r d : has_freq o = true -> 0 <= e_doc e - prev < 2 ^ 31 -> 1 <= e_freq e <= i32_MAX ->
  Reading.reads r (entry_code o prev e ++ d) -> exists c r1, read_vint 5 r = (Ok c, r1) /\
    as_i32 (Z.shiftr (as_u32 c) 1) = e_doc e - prev /\
    if negb (Z.land c 1 =? 0) then e_freq e = 1 /\ Reading.reads r1 d
    else exists r2, read_vint 5 r1 = (Ok (e_freq e), r2) /\ Reading.reads r2 d.
Proof.
  intros Hf Hd Hq Hr. destruct (delta_read _ Hd) as (D1 & D2 & D3 & D4 & D5 & D6). unfold entry_code, doc_code in Hr. rewrite Hf in Hr.
  destruct (Z.eqb_spec (e_freq e) 1) as [E|E].
  - destruct (vint_reads _ _ _ D4 Hr) as (r1 & E1 & H1). exists (Z.lor (as_i32 ((e_doc e - prev) ≪ 1)) 1), r1. rewrite D5. done.
  - rewrite <- app_assoc in Hr. destruct (vint_reads _ _ _ D1 Hr) as (r1 & E1 & H1).
    assert (Hi : in_s 32 (e_freq e)) by (unfold in_s, i32_MAX in *; lia). destruct (vint_reads _ _ _ Hi H1) as (r2 & E2 & H2).
    exists (as_i32 ((e_doc e - prev) ≪ 1)), r1. rewrite D2. split; [done|]. split; [done|]. by exists r2.
Qed.

(** Everything [FreqProxDocsEnum] has left. *)
Fixpoint all_docs (terms : field_view) (fuel : nat) : ST FreqProxDocsEnum.t (list (Z * result Z)) :=
  match fuel with
  | O => slift OutOfFuel
  | S fuel =>
      let* d := FreqProxDocsEnum.next_doc terms in
      if d =? Disi.NO_MORE_DOCS then sret []
      else
        let* e := sget in
        let* ds := all_docs terms fuel in
        sret ((d, FreqProxDocsEnum.get_freq e) :: ds)
  end.

(** What an occurrence shows: the position, the offsets, and the payload if any. *)
Abbreviation seen := (Z * result Z * result Z * option (list Z))%type.

Definition seen_now (e : FreqProxPostingsEnum.t) : seen :=
  (FreqProxPostingsEnum.pos e, FreqProxPostingsEnum.get_start_offset e, FreqProxPostingsEnum.get_end_offset e,
   BytesRef.contents <$> FreqProxPostingsEnum.current_payload e).

Definition seen_of (o : IndexOptions) (x : occurrence) : seen :=
  (o_pos x, (if has_offsets o then Ok (o_start x) else Err IllegalState), (if has_offsets o then Ok (o_end x) else Err IllegalState),
   match o_payload x with [] => None | d => Some d end).

Fixpoint positions (capacity : list Z -> Z) (k : nat) : ST FreqProxPostingsEnum.t (list seen) :=
  match k with
  | O => sret []
  | S k =>
      let* _ := FreqProxPostingsEnum.next_position capacity in
      let* e := sget in
      let* xs := positions capacity k in
      sret (seen_now e :: xs)
  end.

(** The next documents, with as many positions of each as [ks] says. *)
Fixpoint documents (terms : field_view) (capacity : list Z -> Z) (ks : list nat) :
    ST FreqProxPostingsEnum.t (list (Z * Z * list seen)) :=
  match ks with
  | [] => sret []
  | k :: ks =>
      let* d := FreqProxPostingsEnum.next_doc terms capacity in
      let* e := sget in
      let* xs := positions capacity k in
      let* ds := documents terms capacity ks in
      sret ((d, FreqProxPostingsEnum.freq e, xs) :: ds)
  end.

Lemma term_split seed w m (t : nat) u es : PRep seed w m -> m !! t = Some (u, es) -> exists front cur, es = front ++ [cur].
Proof. intros [_ _ (pa & cs & _ & _ & _ & H) _] Ht. destruct (H t u es Ht) as (front & cur & _ & -> & _). by exists front, cur. Qed.

(** With positions the frequency counts the occurrences. *)
Lemma fewer_positions o ks es : has_prox o = true -> forall prev, entries_ok o prev es ->
  Forall2 (fun k x => Z.of_nat k <= e_freq x) ks es -> Forall2 (fun k x => (k <= length (e_occs x))%nat) ks es.
Proof.
  intros Hp prev Hok H. revert prev Hok. induction H as [|k x ks es Hk _ IH]; intros prev Hok; constructor.
  - destruct Hok as [(_ & _ & _ & Hx) _]. destruct (Hx Hp). lia.
  - by apply (IH (e_doc x)), Hok.
Qed.

Section Enums.
Context (seed : Z) (w : FreqProxTermsWriterPerField.t) (m : postings) (tid : nat) (u : list Z) (front : list entry) (cur : entry).
Abbreviation o := (options w).
Abbreviation v := (view_of w).
Hypothesis HP : PRep seed w m.
Hypothesis Ht : m !! tid = Some (u, front ++ [cur]).

(** What the enumerators find for the term. *)
Lemma term_view : exists pa rowv, view_postings v = Ok pa /\ pa_ok pa /\ has_row pa tid rowv /\ as_u64 (Z.of_nat tid) = Z.of_nat tid /\
  r_doc rowv = e_doc cur /\ (has_freq o = true -> cell (term_freqs pa) tid = Some (e_freq cur)) /\
  entries_ok o (-1) (front ++ [cur]) /\
  (forall (i : nat) d r0, ByteSliceReader.pool r0 = byte_pool (base w) -> streams o front cur !! i = Some d ->
     exists r, TermsHashPerField.init_reader (per_field (base w)) r0 (Z.of_nat tid) (Z.of_nat i) (int_pool (base w)) = Ok r /\ Reading.reads r d).
Proof using HP Ht.
  destruct HP as [P1 P2 (pa & cs & R & Hsh & Hbl & Hterm) P4]. destruct (Hterm tid u _ Ht) as (f & c & r & E & Hcs & Hrow & (R1 & R2 & R3 & _)).
  apply app_inj_tail in E as [<- <-]. destruct (P4 tid u _ Ht) as [Hok _]. destruct (rep_rows _ _ _ _ _ R) as (Hpok & _).
  pose proof R as (gs & F & _). exists pa, r. split_and!; try done.
  - unfold view_postings, TermsHashPerField.postings_or_error. cbn [view_field view_of]. by rewrite (fr_postings _ _ _ _ _ F).
  - pose proof (BytesRefDictionary.rep_bound seed _ _ _ (fr_dict _ _ _ _ _ F)) as Hb. rewrite length_map in Hb.
    pose proof (lookup_lt_Some _ _ _ Ht). apply wrap_u_id. unfold in_u. lia.
  - intros Hf. destruct Hrow as (_ & -> & _). by apply R3.
  - intros i d r0 H0 Hd. destruct (rep_reader seed (base w) pa _ cs tid i _ d r0 R Hcs Hd H0) as (r' & H1 & _ & H2). by exists r'.
Qed.

(** ** Documents and frequencies *)

Section Docs.
Import FreqProxDocsEnum.

(** Two enumerators with the same fields, those that do not change known. *)
Local Ltac flat := unfold with_freq, with_doc_id, with_reader; cbn; repeat match goal with
  | H : ended _ = _ |- _ => rewrite H | H : term_id _ = _ |- _ => rewrite H | H : read_term_freq _ = _ |- _ => rewrite H end; try done.

(** Before the entries [rest] and the one in progress; [prev] is the last document. *)
Record at_docs (e : t) (prev : Z) (rest : list entry) : Prop := {
  ad_reads : Reading.reads (reader e) (docs_code o (Z.max 0 prev) rest);
  ad_doc : doc_id e = prev;
  ad_ok : -1 <= prev /\ entries_ok o prev (rest ++ [cur]);
  ad_open : ended e = false;
  ad_term : term_id e = Some (Z.of_nat tid);
  ad_freq : read_term_freq e = has_freq o }.

Definition at_end (e : t) : Prop := Reading.reads (reader e) [] /\ ended e = true /\ doc_id e = e_doc cur.

Definition freq_of (x : entry) : result Z := if has_freq o then Ok (e_freq x) else Err IllegalState.

Lemma docs_reset e : ByteSliceReader.pool (reader e) = byte_pool (base w) -> read_term_freq e = has_freq o ->
  exists e', reset v (Z.of_nat tid) e = Ok e' /\ at_docs e' (-1) front.
Proof using HP Ht.
  intros H0 Hf. destruct term_view as (pa & r & _ & _ & _ & Hid & _ & _ & Hok & Hrd). unfold reset. cbn [view_field view_ints view_of]. rewrite Hid.
  destruct (Hrd 0%nat (docs_code o 0 front) (reader e) H0 eq_refl) as (rd & E & Hr). change (Z.of_nat 0) with 0 in E. rewrite E. cbn [rbind].
  eexists. split; [done|]. constructor; cbn; try done. destruct (Z.eqb_spec (Z.of_nat tid) (-1)); [lia|done].
Qed.

Lemma docs_enter e : -1 <= doc_id e ->
  (if doc_id e =? -1 then sput (with_doc_id e 0) else sret tt) e = (Ok tt, with_doc_id e (Z.max 0 (doc_id e))).
Proof using Type.
  intros H. destruct (Z.eqb_spec (doc_id e) (-1)) as [E|E]; [by rewrite E|]. rewrite Z.max_r by lia. by destruct e.
Qed.

Lemma entry_code_nonempty prev x d : entry_code o prev x ++ d <> [].
Proof using Type.
  assert (H : forall i c, vint_code i ++ c <> []) by (intros i c; unfold vint_code; cbn [vcode]; by destruct (_ <? 128)).
  unfold entry_code. destruct (has_freq o), (e_freq x =? 1); rewrite <- ?app_assoc; apply H.
Qed.

(** An entry that is not the last is of an earlier document than the one in progress. *)
Lemma entry_before prev x rest : entries_ok o prev ((x :: rest) ++ [cur]) ->
  prev < e_doc x < e_doc cur /\ e_doc cur < Disi.NO_MORE_DOCS /\ (has_freq o = true -> 1 <= e_freq x <= i32_MAX).
Proof using Type.
  intros [[Hx [Hf _]] H]. apply entries_ok_snoc in H as [H1 [H2 _]]. pose proof (last_doc_le _ _ _ H1). repeat split; try lia; by apply Hf.
Qed.

Lemma docs_next e prev x rest : at_docs e prev (x :: rest) ->
  exists e', next_doc v e = (Ok (e_doc x), e') /\ at_docs e' (e_doc x) rest /\ get_freq e' = freq_of x.
Proof using HP Ht.
  intros [H1 H2 [H3 H4] H6 H7 H8]. destruct term_view as (pa & r & Hv & _ & Hrow & _ & Hdoc & _ & _ & _).
  destruct (entry_before _ _ _ H4) as (B1 & B2 & B3). destruct H4 as [_ H4]. cbn [docs_code] in H1. unfold next_doc. rewrite sget_sbind, (sbind_ok _ _ _ _ _ (docs_enter e ltac:(lia))).
  rewrite sget_sbind, slift_sbind. cbn [reader with_doc_id]. rewrite (Reading.eof_ok _ _ H1), bool_decide_eq_false_2 by apply entry_code_nonempty.
  unfold Disi.NO_MORE_DOCS, i32_MAX in *.
  assert (Hl : vget (last_docs pa) (Z.of_nat tid) = Ok (e_doc cur, r_code r)) by (rewrite <- Hdoc; by apply last_docs_get).
  assert (Hx : forall c, c = e_doc x - Z.max 0 prev -> ByteBlockPool.exact_i32 (Z.max 0 (doc_id e) + c) = Ok (e_doc x)).
  { intros c ->. rewrite H2. replace (_ + _) with (e_doc x) by lia. apply TermPool.exact_i32_ok. unfold in_s. lia. }
  pose (fin := fun e' : t => mk (reader e') (read_term_freq e) (e_doc x) (freq e') false (Some (Z.of_nat tid))).
  assert (Hend : forall e', e' = fin e' ->
    (let* e0 := sget in let* _ := slift (debug_assert (match view_postings v, term_id e0 with
        | Ok p, Some i => match vget (last_docs p) i with Ok (d, _) => negb (doc_id e0 =? d) | _ => false end | _, _ => false end)) in
     sret (doc_id e0)) e' = (Ok (e_doc x), e')).
  { intros e' ->. rewrite sget_sbind, slift_sbind. cbn [fin term_id doc_id]. rewrite Hv, Hl, (proj2 (Z.eqb_neq (e_doc x) (e_doc cur))) by lia. done. }
  assert (Hat : forall e', e' = fin e' -> Reading.reads (reader e') (docs_code o (e_doc x) rest) -> at_docs e' (e_doc x) rest).
  { intros e' -> Hr. constructor; cbn [fin reader doc_id ended term_id read_term_freq] in *; try done; [by rewrite Z.max_r by lia|split; [lia|done]]. }
  destruct (has_freq o) eqn:Hf.
  - destruct (entry_code_reads o (Z.max 0 prev) x (reader e) _ Hf ltac:(lia) ltac:(apply B3; done) H1) as (c & r1 & E1 & E2 & E3).
    rewrite (sbind_ok _ _ _ c (with_reader (with_doc_id e (Z.max 0 (doc_id e))) r1)) by (unfold on_reader; cbn [reader with_doc_id]; by rewrite E1).
    rewrite sget_sbind. cbn [read_term_freq with_reader with_doc_id doc_id]. rewrite H8. cbn [negb].
    rewrite sbind_assoc, slift_sbind, (Hx _ E2), sbind_assoc, sput_sbind.
    destruct (negb (Z.land c 1 =? 0)).
    + destruct E3 as [E3 Hr1]. rewrite sput_sbind. eexists. split; [by apply Hend; unfold fin; flat|].
      split; [by apply Hat; [unfold fin; flat|]|]. cbn. unfold get_freq, freq_of. cbn. by rewrite Hf, H8, E3.
    + destruct E3 as (r2 & E3 & Hr2). rewrite sbind_assoc, (sbind_ok _ _ _ (e_freq x) (mk r2 true (e_doc x) (freq e) false (Some (Z.of_nat tid))))
        by (unfold on_reader; cbn [reader with_doc_id with_reader]; rewrite E3; by flat).
      rewrite sbind_assoc, sget_sbind, sput_sbind. eexists. split; [by apply Hend; unfold fin; flat|].
      split; [by apply Hat; [unfold fin; flat|]|]. unfold get_freq, freq_of. cbn. by rewrite Hf.
  - unfold entry_code, doc_code in H1. rewrite Hf in H1. assert (Hi : in_s 32 (e_doc x - Z.max 0 prev)) by (unfold in_s; lia).
    destruct (vint_reads _ _ _ Hi H1) as (r1 & E1 & Hr1).
    rewrite (sbind_ok _ _ _ _ (with_reader (with_doc_id e (Z.max 0 (doc_id e))) r1)) by (unfold on_reader; cbn [reader with_doc_id]; by rewrite E1).
    rewrite sget_sbind. cbn [read_term_freq with_reader with_doc_id doc_id]. rewrite H8. cbn [negb].
    rewrite sbind_assoc, slift_sbind, (Hx _ eq_refl), sput_sbind. eexists. split; [by apply Hend; unfold fin; flat|].
    split; [by apply Hat; [unfold fin; flat|]|]. unfold get_freq, freq_of. cbn. by rewrite Hf, H8.
Qed.

Lemma docs_last e prev : at_docs e prev [] -> exists e', next_doc v e = (Ok (e_doc cur), e') /\ at_end e' /\ get_freq e' = freq_of cur.
Proof using HP Ht.
  intros [H1 H2 [H3 H4] H6 H7 H8]. destruct term_view as (pa & r & Hv & _ & Hrow & _ & Hdoc & Hfr & _ & _).
  unfold next_doc. rewrite sget_sbind, (sbind_ok _ _ _ _ _ (docs_enter e ltac:(lia))), sget_sbind, slift_sbind.
  cbn [reader with_doc_id ended term_id]. rewrite (Reading.eof_ok _ _ H1), H6, H7. cbn [docs_code]. rewrite bool_decide_eq_true_2 by done.
  rewrite sput_sbind, slift_sbind, Hv, slift_sbind, slift_sbind, (last_docs_get _ _ _ Hrow), sget_sbind, sput_sbind, Hdoc.
  cbn [read_term_freq with_ended with_doc_id]. rewrite H8. unfold freq_of. destruct (has_freq o) eqn:Hf.
  - rewrite sbind_assoc, sget_sbind, sbind_assoc, slift_sbind, (column_get_ok _ _ _ (Hfr eq_refl)), sput_sbind. eexists. split; [done|]. split; [done|]. unfold get_freq. cbn. by rewrite H8.
  - rewrite sret_sbind. eexists. split; [done|]. split; [done|]. unfold get_freq. cbn. by rewrite H8.
Qed.

(** [doc_id] stays on the last document. *)
Lemma docs_stop e : at_end e -> next_doc v e = (Ok Disi.NO_MORE_DOCS, e).
Proof using HP Ht.
  intros (H1 & H2 & H3). destruct term_view as (pa & r & _ & _ & _ & _ & _ & _ & Hok & _). destruct (entry_delta _ _ _ Hok).
  unfold next_doc. rewrite sget_sbind, (sbind_ok _ _ _ _ _ (docs_enter e ltac:(lia))), sget_sbind, slift_sbind.
  cbn [reader with_doc_id ended]. rewrite (Reading.eof_ok _ _ H1), H2, bool_decide_eq_true_2 by done. rewrite Z.max_r by lia. by destruct e.
Qed.

Lemma docs_all rest : forall e prev, at_docs e prev rest ->
  exists e', all_docs v (S (S (length rest))) e = (Ok (map (fun x => (e_doc x, freq_of x)) (rest ++ [cur])), e') /\ at_end e'.
Proof using HP Ht.
  assert (Hlt : forall e prev y ys, at_docs e prev (y :: ys) -> e_doc y =? Disi.NO_MORE_DOCS = false).
  { intros e prev y ys [_ _ [_ H] _ _ _]. destruct (entry_before _ _ _ H). apply Z.eqb_neq. lia. }
  induction rest as [|x rest IH]; intros e prev H; cbn [all_docs].
  - destruct (docs_last e prev H) as (e1 & E1 & H1 & F1). destruct H as [_ _ [_ H] _ _ _]. destruct H as [[H _] _].
    rewrite (sbind_ok _ _ _ _ _ E1), (proj2 (Z.eqb_neq _ _)) by lia. rewrite sget_sbind. cbn [length all_docs].
    rewrite sbind_assoc, (sbind_ok _ _ _ _ _ (docs_stop e1 H1)), Z.eqb_refl. exists e1. split; [|done]. cbn. by rewrite F1.
  - destruct (docs_next e prev x rest H) as (e1 & E1 & H1 & F1). rewrite (sbind_ok _ _ _ _ _ E1), (Hlt _ _ _ _ H), sget_sbind.
    destruct (IH e1 (e_doc x) H1) as (e' & E & H'). exists e'. split; [|done]. cbn [length]. rewrite (sbind_ok _ _ _ _ _ E), F1. done.
Qed.
End Docs.

(** ** Positions, offsets and payloads *)

Section Positions.
Import FreqProxPostingsEnum.
Context (capacity : list Z -> Z).
Hypothesis Hprox : has_prox o = true.

Local Ltac flat := unfold with_doc, with_left, with_payload, with_offsets, with_reader, with_pos_reader, with_ended; cbn.

(** Inside a document: [ys] are its occurrences to come, behind the position [p] and the
    start offset [st], and [later] the entries after it. *)
Record at_occs (e : t) (p st : Z) (ys : list occurrence) (later : list entry) : Prop := {
  ao_reads : Reading.reads (pos_reader e) (occs_code o p st ys ++ prox_code o later);
  ao_ok : 0 <= p /\ occs_ok o p st ys;
  ao_pos : pos e = p;
  ao_start : has_offsets o = true -> start_offset e = st /\ 0 <= st;
  ao_left : pos_left e = Z.of_nat (length ys);
  ao_offsets : read_offsets e = has_offsets o;
  ao_payload : BytesRef.offset (payload e) = 0 }.

(** The part of the enumerator that [next_position] leaves alone. *)
Definition same_doc (e e' : t) : Prop :=
  reader e' = reader e /\ doc_id e' = doc_id e /\ freq e' = freq e /\ term_id e' = term_id e /\ ended e' = ended e.

(** What the enumerator shows after a position. *)
Definition shows (e : t) (x : occurrence) : Prop :=
  pos e = o_pos x /\ (has_offsets o = true -> start_offset e = o_start x /\ end_offset e = o_end x) /\
  match o_payload x with
  | [] => has_payload e = false
  | d => has_payload e = true /\ BytesRef.valid (payload e) /\ BytesRef.contents (payload e) = d
  end.

(** The payload that goes with a position. *)
Lemma payload_reads e c x d :
  Reading.reads (pos_reader e) (match o_payload x with [] => [] | _ => vint_code (Z.of_nat (length (o_payload x))) ++ o_payload x end ++ d) ->
  negb (Z.land c 1 =? 0) = match o_payload x with [] => false | _ => true end ->
  Z.of_nat (length (o_payload x)) <= i32_MAX -> BytesRef.offset (payload e) = 0 ->
  exists r1 h b, (if negb (Z.land c 1 =? 0) then
      let* _ := sput (with_payload e true (payload e)) in
      let* len := on_pos_reader (read_vint 5) in
      let payload_len := as_u64 len in
      let* _ := set_payload (BytesRef.bytes (payload e)) payload_len in
      let* bytes := slift (ArrayUtil.grow_no_copy 1 (capacity (BytesRef.bytes (payload e)))
                             (BytesRef.bytes (payload e)) payload_len 0) in
      let* _ := set_payload bytes payload_len in
      let* _ := slift (debug_assert (payload_len <=? i32_MAX)) in
      let* bytes := on_pos_reader (read_bytes bytes 0 payload_len) in
      set_payload bytes payload_len
    else sput (with_payload e false (payload e))) e = (Ok tt, with_payload (with_pos_reader e r1) h b) /\
    Reading.reads r1 d /\ BytesRef.offset b = 0 /\
    match o_payload x with [] => h = false | q => h = true /\ BytesRef.valid b /\ BytesRef.contents b = q end.
Proof using Type.
  intros Hr Hc Hl H0. rewrite Hc. destruct (o_payload x) as [|y q] eqn:Eq.
  { exists (pos_reader e), false, (payload e). split; [by destruct e|done]. }
  set (pl := y :: q) in *. rewrite <- app_assoc in Hr. assert (Hi : in_s 32 (Z.of_nat (length pl))) by (unfold in_s, i32_MAX in *; lia).
  destruct (vint_reads _ _ _ Hi Hr) as (r1 & E1 & H1).
  rewrite sput_sbind, (sbind_ok _ _ _ (Z.of_nat (length pl)) (with_pos_reader (with_payload e true (payload e)) r1))
    by (unfold on_pos_reader; cbn [pos_reader with_payload]; by rewrite E1). cbv zeta.
  assert (Hw : as_u64 (Z.of_nat (length pl)) = Z.of_nat (length pl)) by (apply wrap_u_id; unfold in_u, i32_MAX in *; lia). rewrite Hw.
  destruct (ByteBlockPool.PoolFacts.grow_no_copy_ok (capacity (BytesRef.bytes (payload e))) (BytesRef.bytes (payload e)) (Z.of_nat (length pl)) ltac:(lia))
    as (v' & E2 & H2). rewrite (sbind_ok (set_payload _ _) _ _ tt _ eq_refl), slift_sbind, E2, (sbind_ok (set_payload _ _) _ _ tt _ eq_refl), slift_sbind, (proj2 (Z.leb_le _ _)) by done. cbn [debug_assert].
  destruct (Reading.read_bytes_reads r1 pl _ v' 0 H1 ltac:(lia) ltac:(lia)) as (r2 & E3 & H3). change (Z.to_nat 0) with 0%nat in E3. rewrite take_0, app_nil_l in E3.
  change (ByteSliceReader.read_bytes v' 0 (Z.of_nat (length pl)) r1) with (read_bytes v' 0 (Z.of_nat (length pl)) r1) in E3.
  rewrite (sbind_ok _ _ _ _ (with_pos_reader (with_payload e true (BytesRef.mk v' 0 (Z.of_nat (length pl)))) r2))
    by (unfold on_pos_reader; cbn [pos_reader with_pos_reader with_payload]; rewrite E3; flat; by rewrite H0).
  exists r2, true, (BytesRef.mk (pl ++ drop (length pl) v') 0 (Z.of_nat (length pl))). split; [done|]. split; [done|]. split; [done|].
  split; [done|]. unfold BytesRef.valid, BytesRef.contents. cbn [BytesRef.offset BytesRef.length_ BytesRef.bytes].
  rewrite length_app, Nat2Z.id. split; [lia|]. change (Z.to_nat 0) with 0%nat. rewrite drop_0. by rewrite take_app_length.
Qed.

(** The offsets that go with a position. *)
Lemma offsets_read e st x d :
  Reading.reads (pos_reader e) (off_code o st x ++ d) -> occ_ok o (pos e) st x -> read_offsets e = has_offsets o ->
  (has_offsets o = true -> start_offset e = st /\ 0 <= st) ->
  exists r1 s1 e1, (if read_offsets e then
      let* v1 := on_pos_reader (read_vint 5) in
      let* e := sget in
      let* s := slift (ByteBlockPool.exact_i32 (start_offset e + v1)) in
      let* _ := sput (with_offsets e s (end_offset e)) in
      let* v2 := on_pos_reader (read_vint 5) in
      let* e := sget in
      let* en := slift (ByteBlockPool.exact_i32 (start_offset e + v2)) in
      sput (with_offsets e (start_offset e) en)
    else sret tt) e = (Ok tt, with_offsets (with_pos_reader e r1) s1 e1) /\
    Reading.reads r1 d /\ (has_offsets o = true -> s1 = o_start x /\ e1 = o_end x).
Proof using Type.
  intros Hr (_ & Hok & _) Hro Hst. rewrite Hro. unfold off_code in Hr. destruct (has_offsets o).
  - destruct (Hok eq_refl) as [H1 H2], (Hst eq_refl) as [H3 H4]. rewrite <- app_assoc in Hr. unfold i32_MAX in *.
    assert (Hi1 : in_s 32 (o_start x - st)) by (unfold in_s; lia). assert (Hi2 : in_s 32 (o_end x - o_start x)) by (unfold in_s; lia).
    destruct (vint_reads _ _ _ Hi1 Hr) as (r1 & E1 & R1), (vint_reads _ _ _ Hi2 R1) as (r2 & E2 & R2).
    rewrite (sbind_ok _ _ _ (o_start x - st) (with_pos_reader e r1)) by (unfold on_pos_reader; by rewrite E1).
    rewrite sget_sbind, slift_sbind. cbn [start_offset with_pos_reader]. rewrite H3. replace (st + _) with (o_start x) by lia.
    rewrite TermPool.exact_i32_ok, sput_sbind by (unfold in_s; lia).
    rewrite (sbind_ok _ _ _ (o_end x - o_start x) (with_pos_reader (with_offsets e (o_start x) (end_offset e)) r2))
      by (unfold on_pos_reader; cbn [pos_reader with_pos_reader with_offsets]; by rewrite E2).
    rewrite sget_sbind, slift_sbind. cbn [start_offset with_offsets with_pos_reader]. replace (o_start x + _) with (o_end x) by lia. rewrite TermPool.exact_i32_ok by (unfold in_s; lia).
    by exists r2, (o_start x), (o_end x).
  - exists (pos_reader e), (start_offset e), (end_offset e). split; [by destruct e|]. done.
Qed.

Lemma position_step e p st x ys later : at_occs e p st (x :: ys) later ->
  exists e', next_position capacity e = (Ok (o_pos x), e') /\ at_occs e' (o_pos x) (o_start x) ys later /\ same_doc e e' /\ shows e' x.
Proof using Hprox.
  intros [H1 [H2 [H3 H4]] H5 H6 H7 H8 H9]. unfold next_position. rewrite sget_sbind, slift_sbind, H7. cbn [length].
  rewrite (proj2 (Z.ltb_lt _ _)) by lia. cbn [debug_assert]. rewrite sput_sbind.
  pose proof (proj1 H3 Hprox) as Hp. assert (Hd : 0 <= o_pos x - p < 2 ^ 31) by (unfold i32_MAX in *; lia).
  destruct (delta_read _ Hd) as (D1 & D2 & D3 & D4 & D5 & D6).
  cbn [occs_code] in H1. rewrite <- !app_assoc in H1.
  assert (exists c r1, read_vint 5 (pos_reader e) = (Ok c, r1) /\ as_i32 (Z.shiftr (as_u32 c) 1) = o_pos x - p /\
    negb (Z.land c 1 =? 0) = match o_payload x with [] => false | _ => true end /\
    Reading.reads r1 (match o_payload x with [] => [] | _ => vint_code (Z.of_nat (length (o_payload x))) ++ o_payload x end ++
      off_code o st x ++ occs_code o (o_pos x) (o_start x) ys ++ prox_code o later)) as (c & r1 & E1 & E2 & E3 & R1).
  { unfold pos_code in H1. destruct (o_payload x) as [|y q].
    - destruct (vint_reads _ _ _ D1 H1) as (r1 & E & R). eexists _, r1. split_and!; [exact E|done|by rewrite D2|done].
    - rewrite <- app_assoc in H1. destruct (vint_reads _ _ _ D4 H1) as (r1 & E & R). eexists _, r1. split_and!; [exact E|done|by rewrite D5|].
      exact R. }
  set (e0 := with_left e (Z.of_nat (S (length ys)) - 1) (pos e) (start_offset e)).
  rewrite (sbind_ok _ _ _ c (with_pos_reader e0 r1)) by (unfold on_pos_reader; cbn [pos_reader with_left e0]; by rewrite E1).
  rewrite sget_sbind, slift_sbind, E2. cbn [pos with_pos_reader e0 with_left]. rewrite H5. replace (p + _) with (o_pos x) by lia.
  rewrite TermPool.exact_i32_ok by (unfold in_s, i32_MAX in *; lia). rewrite sput_sbind, sget_sbind.
  set (e1 := with_left _ _ _ _).
  destruct (payload_reads e1 c x _ R1 E3 ltac:(apply H3) H9) as (r2 & h & b & E4 & R2 & B1 & B2). rewrite (sbind_ok _ _ _ _ _ E4), sget_sbind.
  set (e2 := with_payload _ _ _).
  destruct (offsets_read e2 st x _ R2 ltac:(destruct H3 as (_ & H3); split; [cbn; lia|done]) H8 H6) as (r3 & s & en & E5 & R3 & S3).
  rewrite (sbind_ok _ _ _ _ _ E5), sget_sbind. eexists. split; [done|].
  split; [|by split_and!]. constructor; cbn; try done; try lia; [split; [lia|done]|].
  intros Ho. destruct (S3 Ho) as [-> _]. split; [done|]. destruct H3 as (_ & H3 & _), (H6 Ho) as [_ H6']. specialize (H3 Ho). lia.
Qed.

Lemma skip_ok ys : forall e p st later fuel, at_occs e p st ys later -> (length ys < fuel)%nat ->
  exists e' p' st', skip_positions capacity fuel e = (Ok tt, e') /\ at_occs e' p' st' [] later /\ same_doc e e'.
Proof using Hprox.
  induction ys as [|x ys IH]; intros e p st later [|fuel] H Hf; try (cbn in Hf; lia); cbn [skip_positions]; rewrite sget_sbind, (ao_left _ _ _ _ _ H).
  - by exists e, p, st.
  - cbn [length]. rewrite (proj2 (Z.eqb_neq _ _)) by lia. destruct (position_step _ _ _ _ _ _ H) as (e1 & E1 & H1 & (S1 & S2 & S3 & S4 & S5) & _).
    rewrite (sbind_ok _ _ _ _ _ E1). destruct (IH _ _ _ _ fuel H1 ltac:(cbn in Hf; lia)) as (e' & p' & st' & E & H' & (T1 & T2 & T3 & T4 & T5)).
    exists e', p', st'. unfold same_doc. split_and!; try done; congruence.
Qed.

(** In a document, or before the first, with the occurrences [ys] of it unread and the
    entries [rest] and the one in progress to come. *)
Record at_pdocs (e : t) (prev p st : Z) (ys : list occurrence) (rest : list entry) : Prop := {
  ap_occs : at_occs e p st ys (rest ++ [cur]);
  ap_reads : Reading.reads (reader e) (docs_code o (Z.max 0 prev) rest);
  ap_doc : doc_id e = prev;
  ap_ok : -1 <= prev /\ entries_ok o prev (rest ++ [cur]);
  ap_open : ended e = false;
  ap_term : term_id e = Z.of_nat tid }.

Definition at_plast (e : t) (p st : Z) (ys : list occurrence) : Prop :=
  at_occs e p st ys [] /\ Reading.reads (reader e) [] /\ ended e = true /\ doc_id e = e_doc cur.

(** The start of [next_doc]: what is left of the document is skipped. *)
Lemma pdocs_enter e p st ys later : at_occs e p st ys later -> -1 <= doc_id e ->
  exists e1 p1 st1, (forall A (k : ST t A), (let* e := sget in
      let* _ := (if doc_id e =? -1 then sput (with_doc e 0 (freq e)) else sret tt) in
      let* _ := skip_positions capacity (S (Z.to_nat (pos_left e))) in k) e = k e1) /\
    at_occs e1 p1 st1 [] later /\ same_doc (with_doc e (Z.max 0 (doc_id e)) (freq e)) e1.
Proof using Hprox.
  intros H Hd. set (e0 := with_doc e (Z.max 0 (doc_id e)) (freq e)).
  assert (H0 : at_occs e0 p st ys later) by (by destruct H). assert (Hl := ao_left _ _ _ _ _ H).
  destruct (skip_ok ys e0 p st later (S (Z.to_nat (pos_left e))) H0 ltac:(lia)) as (e1 & p1 & st1 & E & H1 & S1).
  exists e1, p1, st1. split; [|done]. intros A k. rewrite sget_sbind.
  rewrite (sbind_ok _ _ _ tt e0); [by rewrite (sbind_ok _ _ _ _ _ E)|]. unfold e0.
  destruct (Z.eqb_spec (doc_id e) (-1)) as [Eq|Eq]; [by rewrite Eq|]. rewrite Z.max_r by lia. by destruct e.
Qed.

Lemma occs_start e p st x later d f : at_occs e p st [] (x :: later) -> e_freq x = Z.of_nat (length (e_occs x)) /\ occs_ok o 0 0 (e_occs x) -> f = e_freq x ->
  at_occs (with_left (with_doc e d f) f 0 0) 0 0 (e_occs x) later.
Proof using Type. intros [H1 _ _ _ _ H6 H7] [Hx Hok] ->. by constructor. Qed.

Lemma pdocs_next e prev p st ys x rest : at_pdocs e prev p st ys (x :: rest) ->
  exists e', next_doc v capacity e = (Ok (e_doc x), e') /\ at_pdocs e' (e_doc x) 0 0 (e_occs x) rest /\ freq e' = e_freq x.
Proof using HP Ht Hprox.
  intros [H1 H2 H3 [H4 H5] H6 H7]. destruct term_view as (pa & r & Hv & _ & Hrow & _ & Hdoc & _ & _ & _).
  destruct (entry_before _ _ _ H5) as (B1 & B2 & B3). destruct H5 as [(_ & _ & _ & Hx) H5]. specialize (Hx Hprox).
  assert (Hf : has_freq o = true) by (by apply options_nested).
  destruct (pdocs_enter e p st ys _ H1 ltac:(lia)) as (e1 & p1 & st1 & Hk & A1 & (S1 & S2 & S3 & S4 & S5)). cbn in S1, S2, S3, S4, S5.
  unfold next_doc. rewrite Hk, sget_sbind, slift_sbind, S1, S5, H6.
  cbn [docs_code] in H2. rewrite (Reading.eof_ok _ _ H2), bool_decide_eq_false_2 by apply entry_code_nonempty. cbn [andb].
  unfold Disi.NO_MORE_DOCS, i32_MAX in *.
  destruct (entry_code_reads o (Z.max 0 prev) x (reader e) _ Hf ltac:(lia) ltac:(apply B3; done) H2) as (c & r1 & E1 & E2 & E3).
  rewrite sbind_assoc, (sbind_ok _ _ _ c (with_reader e1 r1)) by (unfold on_reader; rewrite S1; by rewrite E1).
  rewrite sbind_assoc, sget_sbind, sbind_assoc, slift_sbind, E2. cbn [doc_id with_reader]. rewrite S2, H3.
  replace (Z.max 0 prev + _) with (e_doc x) by lia. rewrite TermPool.exact_i32_ok by (unfold in_s; lia).
  rewrite sbind_assoc, sput_sbind, sbind_assoc, sget_sbind.
  assert (exists r2, (if negb (Z.land c 1 =? 0) then sput (with_doc (with_doc (with_reader e1 r1) (e_doc x) (freq e1)) (e_doc x) 1)
                      else let* f := on_reader (read_vint 5) in let* e := sget in sput (with_doc e (doc_id e) f))
      (with_doc (with_reader e1 r1) (e_doc x) (freq e1)) = (Ok tt, with_doc (with_reader e1 r2) (e_doc x) (e_freq x)) /\
      Reading.reads r2 (docs_code o (e_doc x) rest)) as (r2 & E4 & R2).
  { destruct (negb _); [destruct E3 as [-> R1]; by exists r1|]. destruct E3 as (r2 & E3 & R2). exists r2. split; [|done].
    rewrite (sbind_ok _ _ _ (e_freq x) (with_reader (with_doc e1 (e_doc x) (freq e1)) r2)) by (unfold on_reader; cbn [reader with_doc with_reader]; by rewrite E3).
    done. }
  rewrite sbind_assoc, (sbind_ok _ _ _ _ _ E4), sbind_assoc, sget_sbind, slift_sbind. cbn [term_id doc_id with_doc with_reader].
  rewrite Hv, S4, H7, (last_docs_get _ _ _ Hrow), Hdoc, (proj2 (Z.eqb_neq _ _)) by lia. cbn [negb debug_assert].
  rewrite sget_sbind, sput_sbind. cbn [freq with_doc]. eexists. split; [done|].
  split; [|done]. constructor; cbn; try done; [|by rewrite Z.max_r by lia|split; [lia|done]|congruence|congruence].
  apply (occs_start (with_reader e1 r2) p1 st1 x _ (e_doc x) (e_freq x)); [by destruct A1|done|done].
Qed.

Lemma pdocs_last e prev p st ys : at_pdocs e prev p st ys [] ->
  exists e', next_doc v capacity e = (Ok (e_doc cur), e') /\ at_plast e' 0 0 (e_occs cur) /\ freq e' = e_freq cur.
Proof using HP Ht Hprox.
  intros [H1 H2 H3 [H4 H5] H6 H7]. destruct term_view as (pa & r & Hv & _ & Hrow & _ & Hdoc & Hfr & _ & _).
  destruct H5 as [(_ & _ & _ & Hx) _]. specialize (Hx Hprox). assert (Hf : has_freq o = true) by (by apply options_nested).
  destruct (pdocs_enter e p st ys _ H1 ltac:(lia)) as (e1 & p1 & st1 & Hk & A1 & (S1 & S2 & S3 & S4 & S5)). cbn in S1, S2, S3, S4, S5.
  unfold next_doc. rewrite Hk, sget_sbind, slift_sbind, S1, S5, H6. cbn [docs_code] in H2. rewrite (Reading.eof_ok _ _ H2), bool_decide_eq_true_2 by done.
  cbn [andb]. rewrite sbind_assoc, sput_sbind, sbind_assoc, slift_sbind, Hv, sbind_assoc, slift_sbind, S4, H7, (last_docs_get _ _ _ Hrow), Hdoc.
  rewrite sbind_assoc, sget_sbind, sbind_assoc, sput_sbind, sbind_assoc, slift_sbind. cbn [term_id with_ended]. rewrite S4, H7, (column_get_ok _ _ _ (Hfr Hf)).
  rewrite sbind_assoc, sget_sbind, sput_sbind, sget_sbind, sput_sbind. eexists. split; [done|]. split; [|done]. split_and!; cbn; try done.
  - apply (occs_start (with_ended e1) p1 st1 cur _ (e_doc cur) (e_freq cur)); [by destruct A1|done|done].
  - by rewrite S1.
Qed.

Lemma pdocs_stop e p st ys : at_plast e p st ys ->
  exists e' p' st', next_doc v capacity e = (Ok Disi.NO_MORE_DOCS, e') /\ at_plast e' p' st' [].
Proof using HP Ht Hprox.
  intros (H1 & H2 & H3 & H4). destruct term_view as (pa & r & _ & _ & _ & _ & _ & _ & Hok & _). destruct (entry_delta _ _ _ Hok).
  destruct (pdocs_enter e p st ys _ H1 ltac:(lia)) as (e1 & p1 & st1 & Hk & A1 & (S1 & S2 & S3 & S4 & S5)). cbn in S1, S2, S3, S4, S5.
  unfold next_doc. rewrite Hk, sget_sbind, slift_sbind, S1, S5, H3, (Reading.eof_ok _ _ H2), bool_decide_eq_true_2 by done. cbn [andb].
  exists e1, p1, st1. split; [done|]. split_and!; try done; [congruence|congruence|]. rewrite S2, Z.max_r by lia. done.
Qed.

Lemma shows_seen e x : shows e x -> read_offsets e = has_offsets o -> seen_now e = seen_of o x.
Proof using Type.
  intros (H1 & H2 & H3) Ho. unfold seen_now, seen_of, get_start_offset, get_end_offset, current_payload. rewrite Ho, H1.
  assert (BytesRef.contents <$> (if has_payload e then Some (payload e) else None) = match o_payload x with [] => None | d => Some d end) as ->.
  { destruct (o_payload x); [by rewrite H3|]. destruct H3 as (-> & _ & <-). done. }
  destruct (has_offsets o); [|done]. by destruct (H2 eq_refl) as [-> ->].
Qed.

(** The first [k] positions of a document. *)
Lemma positions_ok k : forall e p st ys later, at_occs e p st ys later -> (k <= length ys)%nat ->
  exists e' p' st', positions capacity k e = (Ok (map (seen_of o) (take k ys)), e') /\ at_occs e' p' st' (drop k ys) later /\ same_doc e e'.
Proof using Hprox.
  induction k as [|k IH]; intros e p st ys later H Hk; cbn [positions]; [by exists e, p, st|]. destruct ys as [|x ys]; [cbn in Hk; lia|].
  destruct (position_step _ _ _ _ _ _ H) as (e1 & E1 & H1 & S1 & V1). rewrite (sbind_ok _ _ _ _ _ E1), sget_sbind.
  destruct (IH _ _ _ _ _ H1 ltac:(cbn in Hk; lia)) as (e' & p' & st' & E & H' & S'). exists e', p', st'. split_and!; [|done|].
  - rewrite (sbind_ok _ _ _ _ _ E), (shows_seen e1 x V1 (ao_offsets _ _ _ _ _ H1)). done.
  - unfold same_doc in *. destruct S1 as (?&?&?&?&?), S' as (?&?&?&?&?). split_and!; congruence.
Qed.

(** The whole of a term, before its first document. *)
Lemma documents_ok rest : forall e prev p st ys ks, at_pdocs e prev p st ys rest ->
  Forall2 (fun k x => (k <= length (e_occs x))%nat) ks (rest ++ [cur]) ->
  exists e' p' st' ys', documents v capacity ks e
    = (Ok (zip_with (fun k x => (e_doc x, e_freq x, map (seen_of o) (take k (e_occs x)))) ks (rest ++ [cur])), e') /\ at_plast e' p' st' ys'.
Proof using HP Ht Hprox.
  induction rest as [|x rest IH]; intros e prev p st ys ks H Hks; cbn [app] in Hks; apply Forall2_cons_inv_r in Hks as (k & ks' & Hk & Hks & ->);
    cbn [documents app zip_with].
  - apply Forall2_nil_inv_r in Hks as ->. destruct (pdocs_last _ _ _ _ _ H) as (e1 & E1 & (A1 & R1 & N1 & D1) & F1).
    rewrite (sbind_ok _ _ _ _ _ E1), sget_sbind. destruct (positions_ok k _ _ _ _ _ A1 Hk) as (e2 & p2 & st2 & E2 & A2 & (S1 & S2 & S3 & S4 & S5)).
    rewrite (sbind_ok _ _ _ _ _ E2), F1. exists e2, p2, st2, (drop k (e_occs cur)). split; [done|]. split_and!; try done; congruence.
  - destruct (pdocs_next _ _ _ _ _ _ _ H) as (e1 & E1 & [A1 R1 D1 O1 N1 T1] & F1).
    rewrite (sbind_ok _ _ _ _ _ E1), sget_sbind. destruct (positions_ok k _ _ _ _ _ A1 Hk) as (e2 & p2 & st2 & E2 & A2 & (S1 & S2 & S3 & S4 & S5)).
    rewrite (sbind_ok _ _ _ _ _ E2), F1.
    destruct (IH e2 (e_doc x) p2 st2 (drop k (e_occs x)) ks') as (e' & p' & st' & ys' & E & H'); [|done|].
    { constructor; try done; congruence. }
    exists e', p', st', ys'. split; [|done]. by rewrite (sbind_ok _ _ _ _ _ E).
Qed.

Lemma pdocs_reset e : ByteSliceReader.pool (reader e) = byte_pool (base w) -> ByteSliceReader.pool (pos_reader e) = byte_pool (base w) ->
  0 <= pos e -> 0 <= start_offset e -> read_offsets e = has_offsets o -> BytesRef.offset (payload e) = 0 ->
  exists e', reset v (Z.of_nat tid) e = Ok e' /\ at_pdocs e' (-1) (pos e) (start_offset e) [] front.
Proof using HP Ht Hprox.
  intros P1 P2 Hp Hs Ho Hpl. destruct term_view as (pa & r & _ & _ & _ & Hid & _ & _ & Hok & Hrd). unfold reset. cbn [view_field view_ints view_of]. rewrite Hid.
  unfold streams in Hrd. rewrite Hprox in Hrd.
  destruct (Hrd 0%nat _ (reader e) P1 eq_refl) as (rd & E1 & R1). destruct (Hrd 1%nat _ (pos_reader e) P2 eq_refl) as (pr & E2 & R2).
  change (Z.of_nat 0) with 0 in E1. change (Z.of_nat 1) with 1 in E2. rewrite E1. cbn [rbind]. rewrite E2. cbn [rbind].
  eexists. split; [done|]. by constructor.
Qed.
End Positions.
End Enums.

(** ** The claims *)

Section Claims.
Context (seed : Z).
Implicit Types (w : FreqProxTermsWriterPerField.t) (m : postings).

(** C5: [FreqProxDocsEnum], put on a term of a field that took any sequence of tokens,
    gives the term's documents in increasing order, each with its frequency (or the error
    of [freq] when the field has none), the document in progress last; then it answers
    [NO_MORE_DOCS], and keeps doing so. *)
Theorem docs_read_back w m (t : nat) u es : indexed seed w m -> m !! t = Some (u, es) ->
  exists e e', FreqProxDocsEnum.reset (view_of w) (Z.of_nat t) (FreqProxDocsEnum.new (view_of w)) = Ok e /\
    all_docs (view_of w) (S (length es)) e
    = (Ok (map (fun x => (e_doc x, if has_freq (options w) then Ok (e_freq x) else Err IllegalState)) es), e') /\
    FreqProxDocsEnum.next_doc (view_of w) e' = (Ok Disi.NO_MORE_DOCS, e') /\ FreqProxDocsEnum.doc_id e' = last_doc (-1) es.
Proof.
  intros HP%indexed_rep Ht. destruct (term_split seed w m t u es HP Ht) as (front & cur & ->).
  destruct (docs_reset seed w m t u front cur HP Ht (FreqProxDocsEnum.new (view_of w)) eq_refl eq_refl) as (e & E & H).
  destruct (docs_all seed w m t u front cur HP Ht front e (-1) H) as (e' & E' & H'). exists e, e'. split_and!; [done| | |].
  - rewrite length_app, Nat.add_1_r. exact E'.
  - by apply (docs_stop seed w m t u front cur HP Ht).
  - unfold last_doc. rewrite last_snoc. by apply H'.
Qed.

(** C3: [FreqProxPostingsEnum], put on a term of a field with positions that took any
    sequence of tokens, gives the documents and frequencies of the term, and in each
    document the occurrences in order: the position, the offsets when they are indexed,
    and the payload when there is one. A caller may leave any number of the positions of a
    document unread; the next document is not affected, whatever the room of the payload's
    buffer. After the last document it answers [NO_MORE_DOCS]. *)
Theorem positions_read_back capacity w m (t : nat) u es ks : indexed seed w m -> m !! t = Some (u, es) -> has_prox (options w) = true ->
  Forall2 (fun k x => Z.of_nat k <= e_freq x) ks es ->
  exists e0 e e' e'', FreqProxPostingsEnum.new (view_of w) = Ok e0 /\ FreqProxPostingsEnum.reset (view_of w) (Z.of_nat t) e0 = Ok e /\
    documents (view_of w) capacity ks e
    = (Ok (zip_with (fun k x => (e_doc x, e_freq x, map (seen_of (options w)) (take k (e_occs x)))) ks es), e') /\
    FreqProxPostingsEnum.next_doc (view_of w) capacity e' = (Ok Disi.NO_MORE_DOCS, e'').
Proof.
  intros HP%indexed_rep Ht Hpx Hks. destruct (term_split seed w m t u es HP Ht) as (front & cur & ->).
  pose proof (fewer_positions _ _ _ Hpx _ (proj1 (pr_ok _ _ _ HP t u _ Ht)) Hks) as Hks'.
  set (e0 := FreqProxPostingsEnum.mk (ByteSliceReader.new (byte_pool (base w))) (ByteSliceReader.new (byte_pool (base w)))
    (has_offsets (options w)) (-1) 0 0 0 0 0 0 false false (BytesRef.mk [] 0 0)).
  assert (E0 : FreqProxPostingsEnum.new (view_of w) = Ok e0).
  { unfold FreqProxPostingsEnum.new. cbn [view_options view_of]. by rewrite Hpx, (proj2 (options_nested _) Hpx). }
  destruct (pdocs_reset seed w m t u front cur HP Ht Hpx e0) as (e & E & H); try done.
  destruct (documents_ok seed w m t u front cur HP Ht capacity Hpx front e _ _ _ _ ks H Hks') as (e' & p' & st' & ys' & E' & H').
  destruct (pdocs_stop seed w m t u front cur HP Ht capacity Hpx e' _ _ _ H') as (e'' & _ & _ & E'' & _). by exists e0, e, e', e''.
Qed.
End Claims.
End PostingsEnums.

(** * Witnesses *)

Section Samples.
Import FreqProxPostingsArray Codes Postings PostingsEnums.

Lemma docs_read_back_witness : exists w e e', indexed 7 w sample_postings /\
  FreqProxDocsEnum.reset (view_of w) 0 (FreqProxDocsEnum.new (view_of w)) = Ok e /\
  all_docs (view_of w) 3 e = (Ok [(0, Ok 2); (2, Ok 1)], e') /\ FreqProxDocsEnum.doc_id e' = 2.
Proof.
  destruct sample_indexed as (w & H & Ho). destruct (docs_read_back 7 w sample_postings 0 _ _ H eq_refl) as (e & e' & E1 & E2 & _ & E3).
  rewrite Ho in E2. exists w, e, e'. split_and!; [exact H|exact E1|exact E2|exact E3].
Defined.

(** The first of two positions is read, and the only one of the next document. *)
Lemma positions_read_back_witness : exists w e e', indexed 7 w sample_postings /\ FreqProxPostingsEnum.reset (view_of w) 0
    (FreqProxPostingsEnum.mk (ByteSliceReader.new (view_bytes (view_of w))) (ByteSliceReader.new (view_bytes (view_of w)))
       true (-1) 0 0 0 0 0 0 false false (BytesRef.mk [] 0 0)) = Ok e /\
  documents (view_of w) (fun _ => 0) [1%nat; 1%nat] e = (Ok [(0, 2, [(0, Ok 0, Ok 2, None)]); (2, 1, [(1, Ok 0, Ok 2, None)])], e').
Proof.
  destruct sample_indexed as (w & H & Ho).
  destruct (positions_read_back 7 (fun _ => 0) w sample_postings 0 _ _ [1%nat; 1%nat] H eq_refl ltac:(by rewrite Ho)
    ltac:(by repeat constructor)) as (e0 & e & e' & e'' & E0 & E1 & E2 & _).
  unfold FreqProxPostingsEnum.new in E0. cbn [view_options view_of] in E0. rewrite Ho in E0. injection E0 as <-.
  rewrite Ho in E2. exists w, e, e'. split_and!; [exact H|exact E1|exact E2].
Defined.
End Samples.
