(* ===== verification/Conjunction.v ===== *)
(** [ConjunctionDISI] and [BitSetConjunctionDISI] of [src/core/search/conjunction_disi.rs]:
    the iterators over the documents that all clauses of a conjunction match, proved against
    the [DisiSpec] interface of their sub-iterators and shown to meet it themselves. The
    constructors, which order the sub-iterators by cost with the Tim sort, are not modelled:
    the theorems hold for every order of them. *)

From Stdlib Require Import ZArith Lia Bool.
From stdpp Require Import base tactics numbers list sorting.
From S2P Require Import Prelude BitUtil FixedBitSet Disi.
Import Disi.

Local Open Scope Z_scope.

Module ConjunctionDISI.

Record t (D : Type) : Type := mk { lead1 : nat; lead2 : nat; others : list nat; all_disi : list D }.
Arguments mk {D}.
Arguments lead1 {D}.
Arguments lead2 {D}.
Arguments others {D}.
Arguments all_disi {D}.

Section Operations.
Context {D : Type} `{DocIdSetIterator D}.

Definition with_disi (c : t D) (v : list D) : t D := mk (lead1 c) (lead2 c) (others c) v.

(** A method of [self.all_disi[idx]]. *)
Definition on_iter {R : Type} (idx : nat) (m : ST D R) : ST (t D) R := fun c =>
  match all_disi c !! idx with
  | None => (Panic, c)
  | Some i => let (r, i') := m i in (r, with_disi c (<[idx := i']> (all_disi c)))
  end.

Definition iter_doc (idx : nat) : ST (t D) Z := fun c =>
  match all_disi c !! idx with
  | None => (Panic, c)
  | Some i => (Ok (doc_id i), c)
  end.

(** The loop over [others]: [Some doc] continues the outer loop with the new [doc]. *)
Fixpoint visit_others (doc : Z) (os : list nat) : ST (t D) (option Z) :=
  match os with
  | [] => sret None
  | other_idx :: os =>
      let* other_doc := iter_doc other_idx in
      if other_doc <? doc then
        let* next := on_iter other_idx (advance doc) in
        if doc <? next then
          let* c := sget in
          let* doc := on_iter (lead1 c) (advance next) in
          sret (Some doc)
        else visit_others doc os
      else visit_others doc os
  end.

Definition agree_with_others (doc : Z) : ST (t D) (Z + Z) :=
  let* c := sget in
  let* r := visit_others doc (others c) in
  sret (match r with Some doc => inl doc | None => inr doc end).

(** One turn of ['advance_head]. *)
Definition advance_head (doc : Z) : ST (t D) (Z + Z) :=
  let* c := sget in
  let* doc1 := iter_doc (lead1 c) in
  let* _ := slift (debug_assert (doc =? doc1)) in
  let* next2 := on_iter (lead2 c) (advance doc) in
  if negb (next2 =? doc) then
    let* doc := on_iter (lead1 c) (advance next2) in
    if negb (doc =? next2) then sret (inl doc) else agree_with_others doc
  else agree_with_others doc.

(** Every turn but the last moves to a greater document: [2^32] turns are enough. *)
Definition do_next (doc : Z) : ST (t D) Z := loop 32 advance_head doc.

Fixpoint others_on (cur_doc : Z) (os : list nat) (v : list D) : result bool :=
  match os with
  | [] => Ok true
  | o :: os =>
      match v !! o with
      | None => Panic
      | Some i => if doc_id i =? cur_doc then others_on cur_doc os v else Ok false
      end
  end.

Definition assert_iters_on_same_doc (c : t D) : result bool :=
  match all_disi c !! lead1 c, all_disi c !! lead2 c with
  | Some i1, Some i2 => if doc_id i2 =? doc_id i1 then others_on (doc_id i1) (others c) (all_disi c) else Ok false
  | _, _ => Panic
  end.

Definition check_same_doc : ST (t D) unit :=
  let* c := sget in
  slift (let? b := assert_iters_on_same_doc c in debug_assert b).

Definition next_doc_ : ST (t D) Z :=
  let* _ := check_same_doc in
  let* c := sget in
  let* doc := on_iter (lead1 c) next_doc in
  do_next doc.

Definition advance_ (target : Z) : ST (t D) Z :=
  let* _ := check_same_doc in
  let* c := sget in
  let* doc := on_iter (lead1 c) (advance target) in
  do_next doc.

(** The lead is always one of [all_disi]; an index out of range would panic. *)
Definition doc_id_ (c : t D) : Z :=
  match all_disi c !! lead1 c with Some i => doc_id i | None => -1 end.

Definition cost_ (c : t D) : result Z :=
  match all_disi c !! lead1 c with Some i => cost i | None => Panic end.

#[export] Instance conjunction_iter : DocIdSetIterator (t D) :=
  { doc_id := doc_id_; next_doc := next_doc_; advance := advance_; cost := cost_ }.
#[export] Instance conjunction_bits : BitSetIteratorAccess (t D) := no_bit_set.
End Operations.

Section Correctness.
Context {D : Type} `{DisiSpec D}.
Implicit Types v : list D.

(** Each index is the lead, the second lead or one of the others, once. *)
Definition wf (c : t D) : Prop := lead1 c :: lead2 c :: others c ≡ₚ seq 0 (length (all_disi c)).

Definition all_mem (v : list D) (d : Z) : bool := forallb (fun i => mem i d) v.
Definition conj_mem (c : t D) (d : Z) : bool := all_mem (all_disi c) d.

(** All sub-iterators are fine and on one document. *)
Definition conj_ok (c : t D) : Prop :=
  wf c /\ Forall iter_ok (all_disi c) /\ Forall (fun i => doc_id i = doc_id_ c) (all_disi c).

Definition at_doc (v : list D) (k : nat) : option Z := doc_id <$> v !! k.

(** [v] is [v0] with the iterators moved. *)
Definition tracks (v0 v : list D) : Prop :=
  Forall2 (fun a b => iter_ok b /\ forall d, mem b d = mem a d) v0 v.

Lemma all_mem_false v k a d : v !! k = Some a -> mem a d = false -> all_mem v d = false.
Proof.
  intros Hk Hm. unfold all_mem. apply not_true_iff_false. rewrite forallb_forall. intros Hall.
  rewrite (Hall a) in Hm; [done|]. apply list_elem_of_In. by eapply list_elem_of_lookup_2.
Qed.

Lemma tracks_lookup v0 v k : tracks v0 v -> (k < length v0)%nat ->
  exists a b, v0 !! k = Some a /\ v !! k = Some b /\ iter_ok b /\ forall d, mem b d = mem a d.
Proof.
  intros Ht Hk. destruct (lookup_lt_is_Some_2 v0 k Hk) as [a Ha].
  destruct (Forall2_lookup_l _ _ _ _ _ Ht Ha) as (b & Hb & Hok & Hm). by exists a, b.
Qed.

Lemma tracks_insert v0 v k a b : tracks v0 v -> v0 !! k = Some a -> iter_ok b ->
  (forall d, mem b d = mem a d) -> tracks v0 (<[k := b]> v).
Proof.
  intros Ht Ha Hb Hm. rewrite <- (list_insert_id v0 k a Ha). by apply Forall2_insert.
Qed.

Lemma tracks_all_mem v0 v d : tracks v0 v -> all_mem v d = all_mem v0 d.
Proof.
  intros Ht. unfold all_mem. induction Ht as [|a b v0 v [_ Hm] Ht IH]; [done|]. cbn. by rewrite Hm, IH.
Qed.

Lemma at_doc_insert v k b j : (k < length v)%nat ->
  at_doc (<[k := b]> v) j = if decide (j = k) then Some (doc_id b) else at_doc v j.
Proof.
  intros Hk. unfold at_doc. destruct (decide (j = k)) as [->|].
  - by rewrite list_lookup_insert_eq.
  - by rewrite list_lookup_insert_ne.
Qed.

(** Moving one sub-iterator, by its contract. *)
Lemma on_iter_advance v0 c k p target : tracks v0 (all_disi c) -> (k < length v0)%nat ->
  at_doc (all_disi c) k = Some p -> p < target <= NO_MORE_DOCS -> 0 <= target ->
  exists r v', on_iter k (advance target) c = (Ok r, with_disi c v') /\ tracks v0 v'
    /\ target <= r <= NO_MORE_DOCS /\ at_doc v' k = Some r
    /\ (forall j, j <> k -> at_doc v' j = at_doc (all_disi c) j)
    /\ (forall d, target <= d < r -> all_mem v0 d = false).
Proof.
  intros Ht Hk Hp Hr Hz. destruct (tracks_lookup _ _ _ Ht Hk) as (a & b & Ha & Hb & Hok & Hm).
  unfold at_doc in Hp. rewrite Hb in Hp. injection Hp as Hp.
  destruct (advance_spec b target Hok Hz) as (b' & Hadv & Hok' & Hm' & Hf1 & Hf2 & Hf3); [lia|].
  pose proof (lookup_lt_Some _ _ _ Hb) as Hlen.
  exists (doc_id b'), (<[k := b']> (all_disi c)). split_and!; try lia.
  - unfold on_iter. by rewrite Hb, Hadv.
  - apply (tracks_insert v0 (all_disi c) k a); auto. intros d. by rewrite Hm'.
  - rewrite at_doc_insert by done. by destruct (decide (k = k)).
  - intros j Hj. rewrite at_doc_insert by done. by destruct (decide (j = k)).
  - intros d Hd. apply (all_mem_false v0 k a); [done|]. rewrite <- Hm. by apply Hf3.
Qed.

Lemma wf_indices c : wf c ->
  (lead1 c < length (all_disi c))%nat /\ (lead2 c < length (all_disi c))%nat
  /\ Forall (fun o => (o < length (all_disi c))%nat /\ o <> lead1 c /\ o <> lead2 c) (others c)
  /\ lead1 c <> lead2 c
  /\ forall k, (k < length (all_disi c))%nat -> k = lead1 c \/ k = lead2 c \/ k ∈ others c.
Proof.
  unfold wf. intros Hwf. assert (Hin : forall k, k ∈ lead1 c :: lead2 c :: others c <-> (k < length (all_disi c))%nat).
  { intros k. rewrite Hwf, elem_of_seq. lia. }
  assert (Hnd : NoDup (lead1 c :: lead2 c :: others c)) by (rewrite Hwf; apply NoDup_seq).
  apply NoDup_cons in Hnd as [Hn1 Hnd]. apply NoDup_cons in Hnd as [Hn2 _].
  rewrite not_elem_of_cons in Hn1. split_and!.
  - apply Hin. left.
  - apply Hin. right. left.
  - apply Forall_forall. intros o Ho. split_and!; [apply Hin; by do 2 right| |]; intros ->; tauto.
  - tauto.
  - intros k Hk%Hin. apply elem_of_cons in Hk as [|Hk]; [auto|]. apply elem_of_cons in Hk; tauto.
Qed.

(** ** The loop, from a conjunction [c0] and a first target [start] *)

Section Loop.
Context (c0 : t D) (start : Z).
Hypothesis (Hwf : wf c0) (Hstart : 0 <= start).
Abbreviation v0 := (all_disi c0).

(** [doc] is the lead's document, nobody is beyond it and no match was passed. *)
Definition reached (doc : Z) (v : list D) : Prop :=
  tracks v0 v /\ at_doc v (lead1 c0) = Some doc
  /\ Forall (fun o => exists p, at_doc v o = Some p /\ p <= doc) (others c0)
  /\ start <= doc <= NO_MORE_DOCS /\ forall d, start <= d < doc -> all_mem v0 d = false.

(** At the head of the loop the second lead is behind. *)
Definition head_inv (doc : Z) (v : list D) : Prop :=
  reached doc v /\ exists p, at_doc v (lead2 c0) = Some p /\ p < doc.

Definition agreed (doc : Z) (v : list D) : Prop :=
  tracks v0 v /\ (forall k, (k < length v0)%nat -> at_doc v k = Some doc)
  /\ start <= doc <= NO_MORE_DOCS /\ forall d, start <= d < doc -> all_mem v0 d = false.

(** Advancing another iterator [k] beyond [doc], then the lead to it. *)
Lemma lead_follows doc v k v1 next : reached doc v -> k <> lead1 c0 -> doc < next <= NO_MORE_DOCS ->
  tracks v0 v1 -> at_doc v1 k = Some next -> (forall j, j <> k -> at_doc v1 j = at_doc v j) ->
  (forall d, doc <= d < next -> all_mem v0 d = false) ->
  exists doc' v', on_iter (lead1 c0) (advance next) (with_disi c0 v1) = (Ok doc', with_disi c0 v')
    /\ reached doc' v' /\ next <= doc' /\ (forall j, j <> lead1 c0 -> at_doc v' j = at_doc v1 j).
Proof.
  intros (Ht & Hl1 & Hos & Hd & Hgap) Hk Hn Ht1 Hk1 Hsame Hgap1.
  destruct (wf_indices c0 Hwf) as (Hi1 & Hi2 & Hio & Hne & _).
  destruct (on_iter_advance v0 (with_disi c0 v1) (lead1 c0) doc next) as (r & v' & Hadv & Ht' & Hr & Hat & Hsame' & Hgap').
  { done. } { done. } { cbn. by rewrite Hsame by done. } { lia. } { lia. }
  exists r, v'. cbn [all_disi with_disi] in Hsame'. split_and!; auto; [|lia]. split_and!; auto; try lia.
  - rewrite Forall_forall in Hos, Hio |- *. intros o Ho. destruct (Hio o Ho) as (_ & Ho1 & _).
    rewrite Hsame' by done. destruct (decide (o = k)) as [->|Hok]; [exists next; split; [done|lia]|].
    rewrite Hsame by done. destruct (Hos o Ho) as (p & Hp & Hle). exists p. split; [done|lia].
  - intros d Hd'. destruct (Z.lt_ge_cases d doc); [apply Hgap; lia|].
    destruct (Z.lt_ge_cases d next); [apply Hgap1; lia|apply Hgap'; lia].
Qed.

Lemma visit_others_ok doc : forall os v, Forall (.∈ others c0) os -> reached doc v ->
  at_doc v (lead2 c0) = Some doc -> (forall o, o ∈ others c0 -> o ∈ os \/ at_doc v o = Some doc) ->
  exists r v', visit_others doc os (with_disi c0 v) = (Ok r, with_disi c0 v') /\
    match r with
    | Some doc' => head_inv doc' v' /\ doc < doc'
    | None => agreed doc v'
    end.
Proof.
  destruct (wf_indices c0 Hwf) as (Hi1 & Hi2 & Hio & Hne & Hall). rewrite Forall_forall in Hio.
  induction os as [|o os IH]; intros v Hsub Hv Hl2 Hleft; cbn [visit_others].
  { exists None, v. split; [done|]. destruct Hv as (Ht & Hl1 & _ & Hd & Hgap). split_and!; auto; try lia.
    intros k Hk. destruct (Hall k Hk) as [->|[->|Ho]]; [done|done|].
    destruct (Hleft k Ho) as [?%elem_of_nil|]; done. }
  apply Forall_cons in Hsub as [Ho Hsub]. destruct (Hio o Ho) as (Hlen & Ho1 & Ho2).
  pose proof Hv as (Ht & Hl1 & Hos & Hd & Hgap). rewrite Forall_forall in Hos.
  destruct (Hos o Ho) as (p & Hp & Hle).
  assert (Hidoc : iter_doc o (with_disi c0 v) = (Ok p, with_disi c0 v)).
  { unfold iter_doc, at_doc in *. cbn. destruct (v !! o); [|done]. cbn in Hp. by injection Hp as ->. }
  erewrite sbind_ok by exact Hidoc. destruct (Z.ltb_spec p doc) as [Hlt|Hge].
  2: { apply IH; auto. intros o' Ho'. destruct (Hleft o' Ho') as [Hin|]; [|auto].
       apply elem_of_cons in Hin as [->|]; [right|by left]. rewrite Hp. f_equal. lia. }
  destruct (on_iter_advance v0 (with_disi c0 v) o p doc) as (r & v1 & Hadv & Ht1 & Hr & Hat & Hsame & Hgap1);
    [done|done|done|lia|lia|]. cbn [all_disi with_disi] in Hsame.
  erewrite sbind_ok by exact Hadv. destruct (Z.ltb_spec doc r) as [Hbeyond|Hhere].
  - erewrite sbind_ok by done. cbn [lead1 with_disi].
    destruct (lead_follows doc v o v1 r Hv Ho1 ltac:(lia) Ht1 Hat Hsame Hgap1) as (doc' & v' & Hl & Hv' & Hn & Hs').
    erewrite sbind_ok by exact Hl. exists (Some doc'), v'. split; [done|]. split; [|lia]. split; [done|].
    exists doc. rewrite Hs', Hsame by auto. split; [done|lia].
  - assert (r = doc) as -> by lia. apply IH; auto.
    + split_and!; auto; try lia; [by rewrite Hsame by auto|].
      apply Forall_forall. intros o' Ho'. destruct (decide (o' = o)) as [->|]; [by exists doc|].
      rewrite Hsame by done. by apply Hos.
    + by rewrite Hsame by auto.
    + intros o' Ho'. destruct (decide (o' = o)) as [->|Hoo]; [by right|]. rewrite Hsame by done.
      destruct (Hleft o' Ho') as [Hin|]; [|auto]. apply elem_of_cons in Hin as [|]; [done|by left].
Qed.

Lemma agree_with_others_ok doc v : reached doc v -> at_doc v (lead2 c0) = Some doc ->
  exists r v', agree_with_others doc (with_disi c0 v) = (Ok r, with_disi c0 v') /\
    match r with
    | inl doc' => head_inv doc' v' /\ doc < doc'
    | inr doc' => agreed doc' v'
    end.
Proof.
  intros Hv Hl2. destruct (visit_others_ok doc (others c0) v) as (r & v' & Hvis & Hr); auto.
  { by apply Forall_forall. }
  unfold agree_with_others. erewrite sbind_ok by done. cbn [others with_disi].
  erewrite sbind_ok by exact Hvis. exists (match r with Some d => inl d | None => inr doc end), v'.
  split; [done|]. by destruct r.
Qed.

Lemma advance_head_ok doc v : head_inv doc v ->
  exists r v', advance_head doc (with_disi c0 v) = (Ok r, with_disi c0 v') /\
    match r with
    | inl doc' => head_inv doc' v' /\ doc < doc'
    | inr doc' => agreed doc' v'
    end.
Proof.
  intros [Hv (p & Hp & Hlt)]. pose proof Hv as (Ht & Hl1 & Hos & Hd & Hgap).
  destruct (wf_indices c0 Hwf) as (Hi1 & Hi2 & Hio & Hne & _).
  unfold advance_head. erewrite sbind_ok by done. cbn [lead1 lead2 with_disi].
  assert (Hidoc : iter_doc (lead1 c0) (with_disi c0 v) = (Ok doc, with_disi c0 v)).
  { unfold iter_doc, at_doc in *. cbn. destruct (v !! lead1 c0); [|done]. cbn in Hl1. by injection Hl1 as ->. }
  erewrite sbind_ok by exact Hidoc. rewrite slift_sbind, Z.eqb_refl. cbn [debug_assert].
  destruct (on_iter_advance v0 (with_disi c0 v) (lead2 c0) p doc) as (r & v1 & Hadv & Ht1 & Hr & Hat & Hsame & Hgap1);
    [done|done|done|lia|lia|]. cbn [all_disi with_disi] in Hsame.
  erewrite sbind_ok by exact Hadv. destruct (Z.eqb_spec r doc) as [->|Hrd]; cbn [negb].
  - apply agree_with_others_ok; [|done]. rewrite Forall_forall in Hos, Hio.
    split_and!; auto; try lia; [by rewrite Hsame by auto|].
    apply Forall_forall. intros o Ho. rewrite Hsame; [by apply Hos|]. by destruct (Hio o Ho) as (_ & _ & ?).
  - destruct (lead_follows doc v (lead2 c0) v1 r Hv ltac:(auto) ltac:(lia) Ht1 Hat Hsame Hgap1)
      as (doc' & v' & Hl & Hv' & Hn & Hs').
    erewrite sbind_ok by exact Hl. assert (Hat2 : at_doc v' (lead2 c0) = Some r) by (by rewrite Hs' by auto).
    destruct (Z.eqb_spec doc' r) as [->|Hdr]; cbn [negb].
    + destruct (agree_with_others_ok r v' Hv' Hat2) as (res & v'' & Hag & Hres). exists res, v''.
      split; [done|]. destruct res; [split; [apply Hres|destruct Hres; lia]|done].
    + exists (inl doc'), v'. split; [done|]. split; [|lia]. split; [done|]. exists r. split; [done|lia].
Qed.

Lemma do_next_ok doc v : head_inv doc v ->
  exists r v', do_next doc (with_disi c0 v) = (Ok r, with_disi c0 v') /\ agreed r v'.
Proof.
  intros Hv. destruct (loop_ok advance_head
    (fun doc c => exists v, c = with_disi c0 v /\ head_inv doc v)
    (fun r c => exists v, c = with_disi c0 v /\ agreed r v)
    (fun doc (_ : t D) => NO_MORE_DOCS - doc)) with (k := 32%nat) (x := doc) (s := with_disi c0 v)
    as (r & c' & Hl & v' & -> & Hag).
  - intros x c (w & -> & (_ & _ & _ & Hd & _) & _). lia.
  - intros x c (w & -> & Hw). destruct (advance_head_ok x w Hw) as (r & w' & Hs & Hr).
    exists r, (with_disi c0 w'). split; [done|]. destruct r; [|by exists w'].
    destruct Hr as [Hh Hlt]. split; [by exists w'|lia].
  - by exists v.
  - destruct Hv as ((_ & _ & _ & Hd & _) & _). unfold NO_MORE_DOCS, i32_MAX in *.
    change (2 ^ Z.of_nat 32) with 4294967296. lia.
  - by exists r, v'.
Qed.
End Loop.


(** ** The conjunction meets the contract of its clauses *)

Lemma tracks_refl v : Forall iter_ok v -> tracks v v.
Proof. intros Hv. induction Hv; constructor; auto. Qed.

Lemma conj_at c k : conj_ok c -> (k < length (all_disi c))%nat -> at_doc (all_disi c) k = Some (doc_id_ c).
Proof.
  intros (_ & _ & Hd) Hk. destruct (lookup_lt_is_Some_2 _ _ Hk) as [i Hi]. unfold at_doc. rewrite Hi.
  rewrite Forall_forall in Hd. cbn. f_equal. apply Hd. by eapply list_elem_of_lookup_2.
Qed.

Lemma check_same_doc_ok c : conj_ok c -> check_same_doc c = (Ok tt, c).
Proof.
  intros Hc. pose proof Hc as (Hwf & _ & _). destruct (wf_indices c Hwf) as (Hi1 & Hi2 & Hio & _).
  pose proof (conj_at c _ Hc Hi1) as H1. pose proof (conj_at c _ Hc Hi2) as H2. unfold at_doc in H1, H2.
  unfold check_same_doc. erewrite sbind_ok by done. unfold slift, assert_iters_on_same_doc.
  destruct (all_disi c !! lead1 c) as [i1|]; [|done]. destruct (all_disi c !! lead2 c) as [i2|]; [|done].
  cbn in H1, H2. injection H1 as H1. injection H2 as H2. rewrite H1, H2, Z.eqb_refl.
  assert (Hos : others_on (doc_id_ c) (others c) (all_disi c) = Ok true); [|by rewrite Hos].
  induction (others c) as [|o os IH]; [done|]. apply Forall_cons in Hio as [(Ho & _) Hio]. cbn.
  pose proof (conj_at c o Hc Ho) as Hat. unfold at_doc in Hat. destruct (all_disi c !! o) as [i|]; [|done].
  cbn in Hat. injection Hat as ->. rewrite Z.eqb_refl. by apply IH.
Qed.

Lemma agreed_ok c start doc v : wf c -> 0 <= start -> agreed c start doc v ->
  conj_ok (with_disi c v) /\ doc_id_ (with_disi c v) = doc
  /\ (forall d, conj_mem (with_disi c v) d = conj_mem c d) /\ first_at (conj_mem c) start doc.
Proof.
  intros Hwf Hs (Ht & Hat & Hd & Hgap). pose proof (Forall2_length _ _ _ Ht) as Hlen.
  destruct (wf_indices c Hwf) as (Hi1 & _).
  assert (Hdoc : doc_id_ (with_disi c v) = doc).
  { pose proof (Hat _ Hi1) as H1. unfold at_doc in H1. unfold doc_id_. cbn. destruct (v !! lead1 c); [|done].
    cbn in H1. by injection H1. }
  assert (Hdocs : forall k b, v !! k = Some b -> doc_id b = doc).
  { intros k b Hb. pose proof (lookup_lt_Some _ _ _ Hb). pose proof (Hat k ltac:(lia)) as Hk.
    unfold at_doc in Hk. rewrite Hb in Hk. cbn in Hk. by injection Hk. }
  assert (Hoks : forall k b, v !! k = Some b -> iter_ok b).
  { intros k b Hb. destruct (Forall2_lookup_r _ _ _ _ _ Ht Hb) as (a & _ & Hok & _). done. }
  split_and!.
  - split_and!.
    + unfold wf. cbn. rewrite <- Hlen. exact Hwf.
    + apply Forall_lookup_2. exact Hoks.
    + apply Forall_lookup_2. intros k b Hb. rewrite Hdoc. by eapply Hdocs.
  - done.
  - intros d. by apply tracks_all_mem.
  - split_and!; [lia|lia| |exact Hgap].
    intros Hlt. unfold conj_mem. rewrite <- (tracks_all_mem _ v doc Ht). unfold all_mem. apply forallb_forall.
    intros b [k Hb]%list_elem_of_In%list_elem_of_lookup_1. rewrite <- (Hdocs k b Hb).
    apply doc_mem; [by eapply Hoks|]. rewrite (Hdocs k b Hb). lia.
Qed.

(** From the lead's first landing on, whichever method moved it. *)
Lemma from_lead c start (m : ST D Z) : conj_ok c -> 0 <= start -> doc_id_ c < start ->
  (forall i, all_disi c !! lead1 c = Some i -> exists i', m i = (Ok (doc_id i'), i') /\ iter_ok i'
     /\ (forall d, mem i' d = mem i d) /\ first_at (mem i) start (doc_id i')) ->
  exists c', (let* _ := check_same_doc in
     let* c := sget in
     let* doc := on_iter (lead1 c) m in
     do_next doc) c = (Ok (doc_id_ c'), c')
    /\ conj_ok c' /\ (forall d, conj_mem c' d = conj_mem c d) /\ first_at (conj_mem c) start (doc_id_ c').
Proof.
  intros Hc Hs Hlt Hm. pose proof Hc as (Hwf & Hok & _). destruct (wf_indices c Hwf) as (Hi1 & Hi2 & Hio & Hne & _).
  destruct (lookup_lt_is_Some_2 _ _ Hi1) as [i Hi]. destruct (Hm i Hi) as (i' & Hmi & Hi' & Hmem & Hf1 & Hf2 & Hf3).
  set (v := <[lead1 c := i']> (all_disi c)).
  assert (Hat : forall j, at_doc v j = if decide (j = lead1 c) then Some (doc_id i') else at_doc (all_disi c) j).
  { intros j. by apply at_doc_insert. }
  assert (Hhead : head_inv c start (doc_id i') v).
  { split; [split_and!|]; try lia.
    - apply (tracks_insert _ _ _ i); auto. by apply tracks_refl.
    - rewrite Hat. by destruct (decide (lead1 c = lead1 c)).
    - rewrite Forall_forall in Hio |- *. intros o Ho. destruct (Hio o Ho) as (Hl & Ho1 & _).
      rewrite Hat. destruct (decide (o = lead1 c)); [done|]. rewrite (conj_at c o Hc Hl). exists (doc_id_ c). split; [done|lia].
    - intros d Hd. apply (all_mem_false _ (lead1 c) i); [done|]. by apply Hf3.
    - rewrite Hat. destruct (decide (lead2 c = lead1 c)); [congruence|]. rewrite (conj_at c _ Hc Hi2).
      exists (doc_id_ c). split; [done|lia]. }
  destruct (do_next_ok c start Hwf Hs _ _ Hhead) as (r & v' & Hdo & Hag).
  destruct (agreed_ok c start r v' Hwf Hs Hag) as (Hc' & Hr & Hm' & Hf). exists (with_disi c v').
  split_and!; auto; [|by rewrite Hr].
  erewrite sbind_ok by by apply check_same_doc_ok. erewrite sbind_ok by done.
  erewrite sbind_ok by (unfold on_iter; by rewrite Hi, Hmi). fold v. by rewrite Hdo, Hr.
Qed.

#[export] Program Instance conjunction_spec : DisiSpec (t D) := { iter_ok := conj_ok; mem := conj_mem }.
Next Obligation.
  intros c (Hwf & Hok & _). destruct (wf_indices c Hwf) as (Hi1 & _). cbn. unfold doc_id_.
  destruct (lookup_lt_is_Some_2 _ _ Hi1) as [i Hi]. rewrite Hi. apply doc_range.
  by eapply Forall_lookup_1 in Hok.
Qed.
Next Obligation.
  intros c Hc Hd. pose proof Hc as (_ & Hok & Hdocs). cbn in *. unfold conj_mem, all_mem. apply forallb_forall.
  rewrite Forall_forall in Hok, Hdocs. intros i Hi%list_elem_of_In. rewrite <- (Hdocs i Hi).
  apply doc_mem; [by apply Hok|]. by rewrite (Hdocs i Hi).
Qed.
Next Obligation.
  intros c target Hc Hz Ht. apply (from_lead c target (advance target) Hc Hz); [apply Ht|].
  intros i Hi. pose proof Hc as (_ & Hok & _). apply advance_spec; [by eapply Forall_lookup_1 in Hok|done|].
  cbn in Ht. unfold doc_id_ in Ht. by rewrite Hi in Ht.
Qed.
Next Obligation.
  intros c Hc Ht. pose proof Hc as (Hwf & Hok & _). destruct (wf_indices c Hwf) as (Hi1 & _).
  destruct (lookup_lt_is_Some_2 _ _ Hi1) as [i Hi]. pose proof (Forall_lookup_1 _ _ _ _ Hok Hi) as Hiok.
  pose proof (doc_range i Hiok) as Hr. assert (Hdi : doc_id_ c = doc_id i) by (unfold doc_id_; by rewrite Hi).
  cbn in *. rewrite Hdi in *. apply (from_lead c (doc_id i + 1) next_doc Hc); [lia|lia|].
  intros i2 Hi2. rewrite Hi in Hi2. injection Hi2 as <-. apply next_spec; [done|lia].
Qed.

End Correctness.
End ConjunctionDISI.

Module BitSetConjunctionDISI.

Inductive IteratorLocation : Type := Lead (i : nat) | BitSet (i : nat).

(** [L] is the type of the lead, in the code [DocIdSetIteratorEnum2<D, ConjunctionDISI<D>>]. *)
Record t (L D : Type) : Type := mk {
  lead : L;
  bit_set_iterators : list D;
  min_length : Z;
  iterator_locations : list IteratorLocation;
}.
Arguments mk {L D}.
Arguments lead {L D}.
Arguments bit_set_iterators {L D}.
Arguments min_length {L D}.
Arguments iterator_locations {L D}.

Section Operations.
Context {L D : Type} `{DocIdSetIterator L} `{DocIdSetIterator D} `{BitSetIteratorAccess D}.

Definition with_lead (b : t L D) (l : L) : t L D :=
  mk l (bit_set_iterators b) (min_length b) (iterator_locations b).
Definition with_bits (b : t L D) (v : list D) : t L D :=
  mk (lead b) v (min_length b) (iterator_locations b).

Definition on_lead {R : Type} (m : ST L R) : ST (t L D) R := fun b =>
  let (r, l) := m (lead b) in (r, with_lead b l).

(** Whether every bit set has [doc], reading them up to the first that has not. *)
Fixpoint all_get (v : list D) (doc : Z) : result bool :=
  match v with
  | [] => Ok true
  | i :: v =>
      let? x := get i doc in
      if negb x then Ok false else all_get v doc
  end.

(** [for iter in &mut bit_set_iterators { iter.set_doc_id(doc)?; }] *)
Fixpoint set_doc_ids (doc : Z) (v : list D) : result unit * list D :=
  match v with
  | [] => (Ok tt, [])
  | i :: v =>
      match set_doc_id doc i with
      | (Ok _, i') => let (r, v') := set_doc_ids doc v in (r, i' :: v')
      | (r, i') => (r, i' :: v)
      end
  end.

Definition set_all_doc_ids (doc : Z) : ST (t L D) unit := fun b =>
  let (r, v) := set_doc_ids doc (bit_set_iterators b) in (r, with_bits b v).

(** One turn of ['advance_lead]; [doc as usize] is [doc] for a document id. *)
Definition advance_lead (doc : Z) : ST (t L D) (Z + Z) :=
  let* b := sget in
  if min_length b <=? doc then
    let* _ := (if negb (doc =? NO_MORE_DOCS) then
      let* _ := on_lead (advance NO_MORE_DOCS) in sret tt
    else sret tt) in
    sret (inr NO_MORE_DOCS)
  else
    let* x := slift (all_get (bit_set_iterators b) (as_u64 doc)) in
    if negb x then
      let* doc := on_lead next_doc in
      sret (inl doc)
    else
      let* _ := set_all_doc_ids doc in
      sret (inr doc).

Definition do_next (doc : Z) : ST (t L D) Z := loop 32 advance_lead doc.

Definition assert_iters_on_same_doc (b : t L D) : bool :=
  forallb (fun i => doc_id i =? doc_id (lead b)) (bit_set_iterators b).

Definition check_same_doc : ST (t L D) unit :=
  let* b := sget in slift (debug_assert (assert_iters_on_same_doc b)).

Definition next_doc_ : ST (t L D) Z :=
  let* _ := check_same_doc in
  let* doc := on_lead next_doc in
  do_next doc.

Definition advance_ (target : Z) : ST (t L D) Z :=
  let* _ := check_same_doc in
  let* doc := on_lead (advance target) in
  do_next doc.

Definition doc_id_ (b : t L D) : Z := doc_id (lead b).
Definition cost_ (b : t L D) : result Z := cost (lead b).

#[export] Instance bit_conjunction_iter : DocIdSetIterator (t L D) :=
  { doc_id := doc_id_; next_doc := next_doc_; advance := advance_; cost := cost_ }.
#[export] Instance bit_conjunction_bits : BitSetIteratorAccess (t L D) := no_bit_set.
End Operations.

Section Correctness.
Context {L D : Type} `{DisiSpec L} `{BitSetSpec D}.
Implicit Types b : t L D.

Definition all_mem (v : list D) (d : Z) : bool := forallb (fun i => mem i d) v.
Definition bc_mem (b : t L D) (d : Z) : bool := mem (lead b) d && all_mem (bit_set_iterators b) d.

(** [n] is the length of the bit set of [i]. *)
Definition bits_ok (n : Z) (i : D) : Prop := iter_ok i /\ is_bit_iter i = true /\
  exists k, bit_set_length i = Ok k /\ n <= k.

(** [min_length] is the least length of the bit sets; all are on the lead's document, but
    after the end, where the bit sets are left behind. *)
Definition bc_ok (b : t L D) : Prop :=
  iter_ok (lead b) /\ Forall (bits_ok (min_length b)) (bit_set_iterators b)
  /\ Exists (fun i => bit_set_length i = Ok (min_length b)) (bit_set_iterators b)
  /\ (doc_id (lead b) < NO_MORE_DOCS ->
        Forall (fun i => doc_id i = doc_id (lead b)) (bit_set_iterators b)).

Lemma all_get_ok v n d : Forall (bits_ok n) v -> 0 <= d < n -> all_get v d = Ok (all_mem v d).
Proof.
  intros Hv Hd. induction Hv as [|i v (Hi & Hb & k & Hk & Hn) Hv IH]; [done|]. cbn.
  destruct (bits_spec i Hi Hb) as (k' & Hk' & _ & _ & Hget & _). rewrite Hk in Hk'. injection Hk' as <-.
  rewrite Hget by lia. cbn. by destruct (mem i d).
Qed.

(** Past the shortest bit set nothing matches. *)
Lemma all_mem_beyond v n d : Forall (bits_ok n) v -> Exists (fun i => bit_set_length i = Ok n) v ->
  n <= d -> all_mem v d = false.
Proof.
  intros Hv Hex Hd. apply Exists_exists in Hex as (i & Hin & Hn). rewrite Forall_forall in Hv.
  destruct (Hv i Hin) as (Hi & Hb & _). destruct (bits_spec i Hi Hb) as (k & Hk & _ & Hbeyond & _).
  rewrite Hn in Hk. injection Hk as <-. unfold all_mem. apply not_true_iff_false. rewrite forallb_forall.
  intros Hall. apply list_elem_of_In in Hin.
  specialize (Hall i Hin). by rewrite Hbeyond in Hall.
Qed.

Lemma set_doc_ids_ok v n d : Forall (bits_ok n) v -> 0 <= d < n -> all_mem v d = true ->
  exists v', set_doc_ids d v = (Ok tt, v') /\ Forall (bits_ok n) v' /\ Forall (fun i => doc_id i = d) v'
    /\ (forall e, all_mem v' e = all_mem v e) /\ (bit_set_length <$> v') = (bit_set_length <$> v).
Proof.
  intros Hv Hd. induction Hv as [|i v (Hi & Hb & k & Hk & Hn) Hv IH]; [by exists []|].
  cbn [all_mem forallb]. intros [Hm Hms]%andb_prop. destruct (IH Hms) as (v' & Hs & Hv' & Hdocs & Hmem & Hlen).
  destruct (bits_spec i Hi Hb) as (k' & Hk' & _ & _ & _ & Hset). rewrite Hk in Hk'. injection Hk' as <-.
  destruct (Hset d ltac:(lia) Hm) as (i' & Hi' & Hok & Hdoc & Hmi & Hbit & Hlen').
  exists (i' :: v'). cbn [set_doc_ids]. rewrite Hi', Hs. split_and!; auto.
  - constructor; [|done]. split_and!; auto. by exists k.
  - intros e. cbn. rewrite Hmi. f_equal. apply Hmem.
  - rewrite !fmap_cons, Hlen', Hk, Hlen. done.
Qed.

Lemma exists_length v v' n : (bit_set_length <$> v') = (bit_set_length <$> v) ->
  Exists (fun i => bit_set_length i = Ok n) v -> Exists (fun i : D => bit_set_length i = Ok n) v'.
Proof.
  intros Heq Hex. apply Exists_exists in Hex as (i & [k Hi]%list_elem_of_lookup_1 & Hn).
  assert (Hk : (bit_set_length <$> v') !! k = Some (Ok n)) by (rewrite Heq, list_lookup_fmap, Hi; cbn; by rewrite Hn).
  rewrite list_lookup_fmap in Hk. destruct (v' !! k) as [i'|] eqn:Hi'; [|done]. cbn in Hk. injection Hk as Hk.
  apply Exists_exists. exists i'. split; [by eapply list_elem_of_lookup_2|done].
Qed.

Section Loop.
Context (b0 : t L D) (start : Z).
Hypothesis (Hb0 : bc_ok b0) (Hstart : 0 <= start).

(** The lead is on [doc] and no match was passed; the bit sets did not move. *)
Definition lead_inv (doc : Z) (b : t L D) : Prop := exists l, b = with_lead b0 l
  /\ iter_ok l /\ (forall d, mem l d = mem (lead b0) d) /\ doc_id l = doc
  /\ start <= doc <= NO_MORE_DOCS /\ forall d, start <= d < doc -> bc_mem b0 d = false.

Definition landed (doc : Z) (b : t L D) : Prop :=
  bc_ok b /\ doc_id_ b = doc /\ (forall d, bc_mem b d = bc_mem b0 d) /\ first_at (bc_mem b0) start doc.

Lemma bc_mem_gap a n d : (forall e, start <= e < a -> bc_mem b0 e = false) ->
  (forall e, a <= e < n -> mem (lead b0) e = false) -> start <= d < n -> bc_mem b0 d = false.
Proof.
  intros Ha1 Ha2 Hd. destruct (Z.lt_ge_cases d a); [apply Ha1; lia|]. unfold bc_mem. by rewrite Ha2 by lia.
Qed.

Lemma with_lead_landed l : iter_ok l -> (forall d, mem l d = mem (lead b0) d) -> doc_id l = NO_MORE_DOCS ->
  first_at (bc_mem b0) start NO_MORE_DOCS -> landed NO_MORE_DOCS (with_lead b0 l).
Proof.
  intros Hl Hm Hd Hf. destruct Hb0 as (_ & Hbits & Hex & _). split_and!; auto.
  - split_and!; auto. cbn. rewrite Hd. intros ?. lia.
  - intros d. unfold bc_mem. cbn. by rewrite Hm.
Qed.

(** Past [min_length]: the lead is exhausted too. *)
Lemma exhaust_ok doc b : lead_inv doc b -> min_length b0 <= doc ->
  exists b', (let* _ := (if negb (doc =? NO_MORE_DOCS) then
      let* _ := on_lead (advance NO_MORE_DOCS) in sret tt
    else sret tt) in sret (inr (A := Z) NO_MORE_DOCS)) b = (Ok (inr NO_MORE_DOCS), b')
    /\ landed NO_MORE_DOCS b'.
Proof.
  intros (l & -> & Hl & Hm & Hd & Hr & Hgap) Hmin. destruct Hb0 as (_ & Hbits & Hex & _).
  assert (Hf : first_at (bc_mem b0) start NO_MORE_DOCS).
  { apply first_at_none; [lia|]. intros d Hd'. destruct (Z.lt_ge_cases d doc); [apply Hgap; lia|].
    unfold bc_mem. rewrite (all_mem_beyond _ (min_length b0)) by (done || lia). by rewrite andb_false_r. }
  destruct (Z.eqb_spec doc NO_MORE_DOCS) as [He|Hne]; cbn [negb].
  - exists (with_lead b0 l). split; [done|]. apply with_lead_landed; auto. lia.
  - destruct (advance_spec l NO_MORE_DOCS Hl) as (l' & Hadv & Hl' & Hm' & Hf1 & _); [lia|lia|].
    exists (with_lead b0 l'). split.
    + erewrite sbind_ok; [done|]. erewrite sbind_ok; [done|]. unfold on_lead. cbn. by rewrite Hadv.
    + apply with_lead_landed; auto; [|lia]. intros d. by rewrite Hm'.
Qed.

Lemma advance_lead_ok doc b : lead_inv doc b ->
  exists r b', advance_lead doc b = (Ok r, b') /\
    match r with
    | inl doc' => lead_inv doc' b' /\ doc < doc'
    | inr doc' => landed doc' b'
    end.
Proof.
  intros Hinv. pose proof Hinv as (l & Hb & Hl & Hm & Hd & Hr & Hgap). pose proof Hb0 as (_ & Hbits & Hex & _).
  unfold advance_lead. erewrite sbind_ok by done.
  assert (min_length b = min_length b0 /\ bit_set_iterators b = bit_set_iterators b0) as [-> ->] by by rewrite Hb.
  destruct (Z.leb_spec (min_length b0) doc) as [Hmin|Hmin].
  { destruct (exhaust_ok doc b Hinv Hmin) as (b' & He & Hland). by exists (inr NO_MORE_DOCS), b'. }
  rewrite slift_sbind, as_u64_doc by lia. rewrite (all_get_ok _ (min_length b0)) by (done || lia).
  assert (Hnext : doc < NO_MORE_DOCS).
  { apply Exists_exists in Hex as (i & Hin & Hn). rewrite Forall_forall in Hbits. destruct (Hbits i Hin) as (Hi & Hbi & _).
    destruct (bits_spec i Hi Hbi) as (k & Hk & Hk' & _). rewrite Hn in Hk. injection Hk as <-. lia. }
  destruct (all_mem (bit_set_iterators b0) doc) eqn:Hall; cbn [negb].
  - destruct (set_doc_ids_ok _ _ doc Hbits ltac:(lia) Hall) as (v' & Hs & Hv' & Hdocs & Hmem & Hlen).
    exists (inr doc), (with_bits (with_lead b0 l) v'). split.
    { erewrite sbind_ok; [done|]. unfold set_all_doc_ids. rewrite Hb. cbn. by rewrite Hs. }
    split_and!; auto.
    + split_and!; auto; [by eapply exists_length|]. cbn. intros _. by rewrite Hd.
    + intros d. unfold bc_mem. cbn [lead bit_set_iterators with_bits with_lead]. by rewrite Hm, Hmem.
    + split_and!; auto; try lia. intros _. unfold bc_mem. rewrite Hall, andb_true_r, <- Hm, <- Hd.
      apply doc_mem; [done|lia].
  - destruct (next_spec l Hl ltac:(lia)) as (l' & Hn & Hl' & Hm' & Hf1 & Hf2 & Hf3).
    exists (inl (doc_id l')), (with_lead b0 l'). split.
    { erewrite sbind_ok; [done|]. unfold on_lead. rewrite Hb. cbn. by rewrite Hn. }
    split; [|lia]. exists l'. split_and!; auto; try lia; [intros d; by rewrite Hm'|].
    intros d Hd'. apply (bc_mem_gap (doc + 1) (doc_id l')); [|intros e He; rewrite <- Hm; apply Hf3; lia|lia].
    intros e He. destruct (Z.lt_ge_cases e doc); [apply Hgap; lia|]. assert (e = doc) as -> by lia.
    unfold bc_mem. by rewrite Hall, andb_false_r.
Qed.

Lemma bits_do_next_ok doc b : lead_inv doc b ->
  exists b', do_next doc b = (Ok (doc_id_ b'), b') /\ landed (doc_id_ b') b'.
Proof.
  intros Hb. destruct (loop_ok advance_lead lead_inv landed (fun doc (_ : t L D) => NO_MORE_DOCS - doc))
    with (k := 32%nat) (x := doc) (s := b) as (r & b' & Hl & Hland).
  - intros x c (l & _ & _ & _ & _ & Hr & _). lia.
  - intros x c Hx. destruct (advance_lead_ok x c Hx) as (r & c' & Hs & Hr). exists r, c'.
    split; [done|]. destruct r; [|done]. split; [apply Hr|destruct Hr; lia].
  - done.
  - destruct Hb as (l & _ & _ & _ & _ & Hr & _). unfold NO_MORE_DOCS, i32_MAX in *.
    change (2 ^ Z.of_nat 32) with 4294967296. lia.
  - assert (doc_id_ b' = r) as <- by apply Hland. by exists b'.
Qed.
End Loop.

Lemma bits_check_same_doc_ok b : bc_ok b -> doc_id (lead b) < NO_MORE_DOCS -> check_same_doc b = (Ok tt, b).
Proof.
  intros (_ & _ & _ & Hd) Hlt. specialize (Hd Hlt). unfold check_same_doc. erewrite sbind_ok by done.
  unfold slift. assert (assert_iters_on_same_doc b = true) as ->; [|done].
  apply forallb_forall. rewrite Forall_forall in Hd. intros i Hi%list_elem_of_In. apply Z.eqb_eq. by apply Hd.
Qed.

Lemma bits_from_lead b start (m : ST L Z) : bc_ok b -> 0 <= start -> doc_id (lead b) < NO_MORE_DOCS ->
  (exists l', m (lead b) = (Ok (doc_id l'), l') /\ iter_ok l' /\ (forall d, mem l' d = mem (lead b) d)
     /\ first_at (mem (lead b)) start (doc_id l')) ->
  exists b', (let* _ := check_same_doc in
     let* doc := on_lead m in
     do_next doc) b = (Ok (doc_id_ b'), b')
    /\ bc_ok b' /\ (forall d, bc_mem b' d = bc_mem b d) /\ first_at (bc_mem b) start (doc_id_ b').
Proof.
  intros Hb Hs Hlt (l' & Hm & Hl' & Hmem & Hf1 & Hf2 & Hf3).
  destruct (bits_do_next_ok b start Hb Hs (doc_id l') (with_lead b l')) as (b' & Hdo & Hok & _ & Hm' & Hf).
  { exists l'. split_and!; auto; try lia. intros d Hd. unfold bc_mem. by rewrite Hf3. }
  exists b'. split_and!; auto. erewrite sbind_ok by by apply bits_check_same_doc_ok.
  erewrite sbind_ok; [exact Hdo|]. unfold on_lead. by rewrite Hm.
Qed.

#[export] Program Instance bit_conjunction_spec : DisiSpec (t L D) := { iter_ok := bc_ok; mem := bc_mem }.
Next Obligation. intros b (Hl & _). cbn. by apply doc_range. Qed.
Next Obligation.
  intros b (Hl & Hbits & _ & Hd) Hr. cbn in *. unfold doc_id_ in *. unfold bc_mem. rewrite doc_mem by done.
  specialize (Hd ltac:(lia)). cbn. apply forallb_forall. rewrite Forall_forall in Hd, Hbits.
  intros i Hi%list_elem_of_In. rewrite <- (Hd i Hi). apply doc_mem; [by apply Hbits|]. by rewrite (Hd i Hi).
Qed.
Next Obligation.
  intros b target Hb Hz Ht. cbn in Ht. unfold doc_id_ in Ht. apply (bits_from_lead b target (advance target) Hb Hz); [lia|].
  apply advance_spec; [apply Hb|done|lia].
Qed.
Next Obligation.
  intros b Hb Ht. cbn in *. unfold doc_id_ in *. pose proof Hb as (Hl & _). pose proof (doc_range _ Hl).
  apply (bits_from_lead b (doc_id (lead b) + 1) next_doc Hb); [lia|lia|]. by apply next_spec.
Qed.
End Correctness.
End BitSetConjunctionDISI.

(** * What a conjunction iterates *)

#[export] Existing Instances ConjunctionDISI.conjunction_iter ConjunctionDISI.conjunction_spec
  BitSetConjunctionDISI.bit_conjunction_iter BitSetConjunctionDISI.bit_conjunction_spec.

Module Conjunction.

Section Claims.
Context {D : Type} `{BitSetSpec D}.

(** C29: Moving a conjunction whose clauses stand on one document lands on the first document
    from the target on that every clause matches, or on [NO_MORE_DOCS] with every clause
    exhausted, and the clauses stand on one document again. *)
Theorem conjunction_moves_to_next_match (c : ConjunctionDISI.t D) target : ConjunctionDISI.conj_ok c ->
  0 <= target -> ConjunctionDISI.doc_id_ c < target <= NO_MORE_DOCS ->
  exists c1 c2, ConjunctionDISI.advance_ target c = (Ok (ConjunctionDISI.doc_id_ c1), c1)
    /\ ConjunctionDISI.next_doc_ c = (Ok (ConjunctionDISI.doc_id_ c2), c2)
    /\ ConjunctionDISI.conj_ok c1 /\ ConjunctionDISI.conj_ok c2
    /\ (forall d, ConjunctionDISI.conj_mem c1 d = ConjunctionDISI.conj_mem c d)
    /\ (forall d, ConjunctionDISI.conj_mem c2 d = ConjunctionDISI.conj_mem c d)
    /\ first_at (ConjunctionDISI.conj_mem c) target (ConjunctionDISI.doc_id_ c1)
    /\ first_at (ConjunctionDISI.conj_mem c) (ConjunctionDISI.doc_id_ c + 1) (ConjunctionDISI.doc_id_ c2).
Proof.
  intros Hc Hz Ht.
  destruct (advance_spec c target) as (c1 & Ha & Hc1 & Hm1 & Hf1); [exact Hc|exact Hz|exact Ht|].
  destruct (next_spec c) as (c2 & Hn & Hc2 & Hm2 & Hf2); [exact Hc|cbn; lia|]. by exists c1, c2.
Qed.

(** C6: Iterating a new conjunction lists exactly the documents that every clause matches,
    in ascending order and once each, and ends with every clause exhausted. *)
Theorem conjunction_lists_intersection (c : ConjunctionDISI.t D) : ConjunctionDISI.conj_ok c ->
  ConjunctionDISI.doc_id_ c = -1 ->
  exists docs c', collect c = (Ok docs, c') /\ ConjunctionDISI.doc_id_ c' = NO_MORE_DOCS
    /\ ConjunctionDISI.conj_ok c' /\ StronglySorted Z.lt docs
    /\ forall d, d ∈ docs <-> 0 <= d < NO_MORE_DOCS /\ Forall (fun i => mem i d = true) (ConjunctionDISI.all_disi c).
Proof.
  intros Hc Hd. destruct (collect_ok c) as (docs & c' & Hcol & Hc' & He & Hs & Hdocs).
  { exact Hc. } { cbn. rewrite Hd. done. }
  exists docs, c'. split_and!; auto. intros d. rewrite Hdocs. cbn. rewrite Hd.
  unfold ConjunctionDISI.conj_mem, ConjunctionDISI.all_mem. rewrite forallb_forall, Forall_forall.
  setoid_rewrite list_elem_of_In. intuition lia.
Qed.

(** C20: Iterating a new conjunction of a lead with bit sets lists exactly the documents of the
    lead that every bit set has, ascending, and ends with the lead exhausted, whatever the
    lead: here, as in the code, one iterator or a conjunction of several. *)
Theorem bit_set_conjunction_lists_intersection
    (b : BitSetConjunctionDISI.t (Enum2 D (ConjunctionDISI.t D)) D) :
  BitSetConjunctionDISI.bc_ok b -> BitSetConjunctionDISI.doc_id_ b = -1 ->
  exists docs b', collect b = (Ok docs, b') /\ BitSetConjunctionDISI.doc_id_ b' = NO_MORE_DOCS
    /\ StronglySorted Z.lt docs
    /\ forall d, d ∈ docs <-> 0 <= d < NO_MORE_DOCS /\ mem (BitSetConjunctionDISI.lead b) d = true
         /\ Forall (fun i => mem i d = true) (BitSetConjunctionDISI.bit_set_iterators b).
Proof.
  intros Hb Hd. destruct (collect_ok b) as (docs & b' & Hcol & Hb' & He & Hs & Hdocs).
  { exact Hb. } { change (doc_id b) with (BitSetConjunctionDISI.doc_id_ b). rewrite Hd. done. }
  exists docs, b'. split_and!; auto. intros d. rewrite Hdocs.
  change (doc_id b) with (BitSetConjunctionDISI.doc_id_ b). rewrite Hd.
  change (mem b d) with (BitSetConjunctionDISI.bc_mem b d).
  unfold BitSetConjunctionDISI.bc_mem, BitSetConjunctionDISI.all_mem.
  rewrite andb_true_iff, forallb_forall, Forall_forall. setoid_rewrite list_elem_of_In. intuition lia.
Qed.
End Claims.

(** ** Witnesses: ranges and a bit set *)

Abbreviation Clause := (Enum2 RangeDISI.t BitSetIterator.t).

Definition bits_clause : Clause := EB (BitSetIterator.mk FixedBitSet.sample 140 3 (-1)).
Definition range_clause (lo hi : Z) : Clause := EA (RangeDISI.mk (-1) lo hi).

Lemma bits_clause_ok : iter_ok bits_clause.
Proof.
  split_and!; [apply FixedBitSet.sample_inv|done|done|done|done|]. cbn. lia.
Qed.

Lemma range_clause_ok lo hi : 0 <= lo < hi -> hi <= NO_MORE_DOCS -> iter_ok (range_clause lo hi).
Proof. intros. repeat split; cbn; auto; try lia. Qed.

(** The lead is the last clause, the bit set the second lead. *)
Definition sample_conjunction : ConjunctionDISI.t Clause :=
  ConjunctionDISI.mk 2 1 [0%nat] [range_clause 0 140; bits_clause; range_clause 1 132].

Lemma sample_conjunction_ok : ConjunctionDISI.conj_ok sample_conjunction.
Proof.
  split_and!.
  - unfold ConjunctionDISI.wf. cbn. apply Permutation_sym.
    change ([0; 1; 2]%nat ≡ₚ [2; 1; 0]%nat). apply (Permutation_rev [0; 1; 2]%nat).
  - cbn [sample_conjunction ConjunctionDISI.all_disi]. rewrite !Forall_cons. split; [|split; [|split; [|done]]].
    + apply range_clause_ok; unfold NO_MORE_DOCS, i32_MAX; lia.
    + apply bits_clause_ok.
    + apply range_clause_ok; unfold NO_MORE_DOCS, i32_MAX; lia.
  - cbn. by repeat constructor.
Qed.

Definition sample_bit_conjunction : BitSetConjunctionDISI.t (Enum2 Clause (ConjunctionDISI.t Clause)) Clause :=
  BitSetConjunctionDISI.mk (EA (range_clause 1 139)) [bits_clause] 140 [BitSetConjunctionDISI.Lead 0; BitSetConjunctionDISI.BitSet 0].

Lemma sample_bit_conjunction_ok : BitSetConjunctionDISI.bc_ok sample_bit_conjunction.
Proof.
  split_and!.
  - apply range_clause_ok; unfold NO_MORE_DOCS, i32_MAX; lia.
  - apply Forall_cons. split; [|done]. split_and!; [apply bits_clause_ok|done|]. exists 140. split; [done|]. cbn. lia.
  - by constructor.
  - intros _. by repeat constructor.
Qed.

Lemma conjunction_moves_to_next_match_witness :
  exists c1 c2, ConjunctionDISI.advance_ 3 sample_conjunction = (Ok (ConjunctionDISI.doc_id_ c1), c1)
    /\ ConjunctionDISI.next_doc_ sample_conjunction = (Ok (ConjunctionDISI.doc_id_ c2), c2)
    /\ ConjunctionDISI.conj_ok c1 /\ ConjunctionDISI.conj_ok c2
    /\ (forall d, ConjunctionDISI.conj_mem c1 d = ConjunctionDISI.conj_mem sample_conjunction d)
    /\ (forall d, ConjunctionDISI.conj_mem c2 d = ConjunctionDISI.conj_mem sample_conjunction d)
    /\ first_at (ConjunctionDISI.conj_mem sample_conjunction) 3 (ConjunctionDISI.doc_id_ c1)
    /\ first_at (ConjunctionDISI.conj_mem sample_conjunction) 0 (ConjunctionDISI.doc_id_ c2).
Proof.
  apply (conjunction_moves_to_next_match sample_conjunction 3 sample_conjunction_ok); [lia|].
  cbn. unfold NO_MORE_DOCS, i32_MAX. lia.
Defined.

Lemma conjunction_lists_intersection_witness :
  exists docs c', collect sample_conjunction = (Ok docs, c') /\ ConjunctionDISI.doc_id_ c' = NO_MORE_DOCS
    /\ ConjunctionDISI.conj_ok c' /\ StronglySorted Z.lt docs
    /\ forall d, d ∈ docs <-> 0 <= d < NO_MORE_DOCS
         /\ Forall (fun i => mem i d = true) (ConjunctionDISI.all_disi sample_conjunction).
Proof. apply (conjunction_lists_intersection sample_conjunction sample_conjunction_ok). reflexivity. Defined.

Lemma bit_set_conjunction_lists_intersection_witness :
  exists docs b', collect sample_bit_conjunction = (Ok docs, b')
    /\ BitSetConjunctionDISI.doc_id_ b' = NO_MORE_DOCS /\ StronglySorted Z.lt docs
    /\ forall d, d ∈ docs <-> 0 <= d < NO_MORE_DOCS /\ mem (BitSetConjunctionDISI.lead sample_bit_conjunction) d = true
         /\ Forall (fun i => mem i d = true) (BitSetConjunctionDISI.bit_set_iterators sample_bit_conjunction).
Proof.
  apply (bit_set_conjunction_lists_intersection sample_bit_conjunction sample_bit_conjunction_ok). reflexivity.
Defined.

(** The two strategies on the same clauses, run. *)
Example strategies_run :
  (collect sample_conjunction).1 = Ok [2; 131] /\ (collect sample_bit_conjunction).1 = Ok [2; 131].
Proof. by vm_compute. Qed.
End Conjunction.
