(* ===== verification/Disjunction.v ===== *)
(** Disjunctions: [DisiPriorityQueue] ([src/core/search/disi_priority_queue.rs]), the queue of
    wrapper indices ordered by the wrappers' current documents, and
    [DisjunctionDISIApproximation] ([src/core/search/disjunction_disi_approximation.rs]), which
    iterates the union of its scorers with it, and the choice [DisjunctionScorer::prepare] makes
    between it and a two-phase iterator over it ([src/core/search/disjunction_scorer.rs]). A
    scorer is its approximating iterator, with a flag that tells whether it is two-phase. *)

From Stdlib Require Import ZArith Lia Bool.
From stdpp Require Import base tactics numbers list sorting.
From S2P Require Import Prelude Heap PriorityQueue Disi.
Import Disi.

Local Open Scope Z_scope.

(** Slices indexed by [usize]. *)
Definition slot {A : Type} (v : list A) (i : nat) : result A :=
  match v !! i with Some x => Ok x | None => Panic end.
Definition set_slot {A : Type} (v : list A) (i : nat) (x : A) : result (list A) :=
  if (i <? length v)%nat then Ok (<[i := x]> v) else Panic.

Module DisiWrapper.
(** The scores of a wrapper ([match_cost] and the window scores) play no part here. *)
Record t (I : Type) : Type := mk { scorer : I; next : option nat; doc : Z; cost : Z }.
Arguments mk {I}.
Arguments scorer {I}.
Arguments next {I}.
Arguments doc {I}.
Arguments cost {I}.

Definition new {I : Type} `{DocIdSetIterator I} (i : I) : result (t I) :=
  let? c := Disi.cost i in
  Ok (mk i None (-1) c).
End DisiWrapper.

Module DisiPriorityQueue.

Record t : Type := mk { size : nat; heap : list nat }.

Definition new (max_size : nat) : t := mk 0 (replicate max_size 0%nat).

Definition left_node (node : nat) : nat := ((node + 1) * 2 - 1)%nat.
Definition right_node (node : nat) : nat := (node + 1)%nat.
Definition parent_node (node : nat) : option nat :=
  if (node =? 0)%nat then None else Some ((node - 1) / 2)%nat.

Definition top (q : t) : result (option nat) :=
  if (size q =? 0)%nat then Ok None
  else let? i := slot (heap q) 0 in Ok (Some i).

Section Operations.
Context {I : Type}.
Abbreviation wrapper := (DisiWrapper.t I).

Definition doc_of (ws : list wrapper) (i : nat) : result Z :=
  let? w := slot ws i in Ok (DisiWrapper.doc w).

(** [wrappers[self.heap[i]].doc] *)
Definition doc_at (ws : list wrapper) (h : list nat) (i : nat) : result Z :=
  let? e := slot h i in doc_of ws e.

Definition top2 (ws : list wrapper) (q : t) : result (option nat) :=
  match size q with
  | O | 1%nat => Ok None
  | 2%nat => let? i := slot (heap q) 1 in Ok (Some i)
  | _ =>
      let? left_ := slot (heap q) 1 in
      let? right_ := slot (heap q) 2 in
      let? a := doc_of ws left_ in
      let? b := doc_of ws right_ in
      Ok (Some (if a <=? b then left_ else right_))
  end.

(** [while let Some(j) = parent_node(i)] *)
Fixpoint up_loop (fuel : nat) (ws : list wrapper) (node : nat) (node_doc : Z) (i : nat) (h : list nat) : result (list nat) :=
  match fuel with
  | O => OutOfFuel
  | S fuel =>
      match parent_node i with
      | None => set_slot h i node
      | Some j =>
          let? e := slot h j in
          let? d := doc_of ws e in
          if d <=? node_doc then set_slot h i node
          else
            let? h := set_slot h i e in
            up_loop fuel ws node node_doc j h
      end
  end.

Definition up_heap (ws : list wrapper) (i : nat) (h : list nat) : result (list nat) :=
  let? node_index := slot h i in
  let? node_doc := doc_of ws node_index in
  up_loop (S i) ws node_index node_doc i h.

(** [if k < size && wrappers[heap[k]].doc < wrappers[heap[j]].doc { j = k }], [k = right_node(j)] *)
Definition smaller (size : nat) (ws : list wrapper) (h : list nat) (j : nat) : result nat :=
  let k := right_node j in
  if (k <? size)%nat then
    let? a := doc_at ws h k in
    let? b := doc_at ws h j in
    Ok (if a <? b then k else j)
  else Ok j.

Fixpoint down_loop (fuel size : nat) (ws : list wrapper) (node : nat) (i j : nat) (h : list nat) : result (list nat) :=
  match fuel with
  | O => OutOfFuel
  | S fuel =>
      let? e := slot h j in
      let? h := set_slot h i e in
      let i := j in
      let? j := smaller size ws h (left_node i) in
      if (size <=? j)%nat then set_slot h i node
      else
        let? a := doc_at ws h j in
        let? b := doc_of ws node in
        if b <=? a then set_slot h i node else down_loop fuel size ws node i j h
  end.

Definition down_heap (size : nat) (ws : list wrapper) (h : list nat) : result (list nat) :=
  if (size =? 0)%nat then Ok h
  else
    let? node := slot h 0 in
    let j := left_node 0 in
    if (j <? size)%nat then
      let? j := smaller size ws h j in
      let? a := doc_at ws h j in
      let? b := doc_of ws node in
      if a <? b then down_loop size size ws node 0 j h else Ok h
    else Ok h.

Definition add (entry : nat) (ws : list wrapper) (q : t) : result (nat * t) :=
  let? h := set_slot (heap q) (size q) entry in
  let? h := up_heap ws (size q) h in
  let? e := slot h 0 in
  Ok (e, mk (size q + 1) h).

(** [for (idx, entry) in entries.iter().enumerate() { heap[size + idx] = *entry }] *)
Fixpoint copy_entries (entries : list nat) (i : nat) (h : list nat) : result (list nat) :=
  match entries with
  | [] => Ok h
  | e :: entries => let? h := set_slot h i e in copy_entries entries (i + 1)%nat h
  end.

(** [while parent_index < first_leaf_index] *)
Fixpoint sift_loop (fuel size first_leaf_index : nat) (ws : list wrapper) (parent : nat) (parent_doc : Z)
    (parent_index : nat) (h : list nat) : result (list nat) :=
  match fuel with
  | O => OutOfFuel
  | S fuel =>
      if (parent_index <? first_leaf_index)%nat then
        let? child_index := smaller size ws h (left_node parent_index) in
        let? child := slot h child_index in
        let? d := doc_of ws child in
        if parent_doc <=? d then set_slot h parent_index parent
        else
          let? h := set_slot h parent_index child in
          sift_loop fuel size first_leaf_index ws parent parent_doc child_index h
      else set_slot h parent_index parent
  end.

(** [for root_index in (0..first_leaf_index).rev()], [n] roots left. *)
Fixpoint heapify (n size first_leaf_index : nat) (ws : list wrapper) (h : list nat) : result (list nat) :=
  match n with
  | O => Ok h
  | S n =>
      let? parent := slot h n in
      let? parent_doc := doc_of ws parent in
      let? h := sift_loop (S size) size first_leaf_index ws parent parent_doc n h in
      heapify n size first_leaf_index ws h
  end.

Definition add_all (entries : list nat) (offset len : nat) (ws : list wrapper) (q : t) : result t :=
  if (len =? 0)%nat then Ok q
  else
    let new_size := (size q + len)%nat in
    if (length (heap q) <? new_size)%nat then Err ArrayIndexOutOfBounds
    else
      let end_ := (offset + len)%nat in
      if (length entries <? end_)%nat then Err ArrayIndexOutOfBounds
      else
        let? h := copy_entries (take len (drop offset entries)) (size q) (heap q) in
        let first_leaf_index := (new_size / 2)%nat in
        let? h := heapify first_leaf_index new_size first_leaf_index ws h in
        Ok (mk new_size h).

Definition pop (ws : list wrapper) (q : t) : result (nat * t) :=
  let? o := top q in
  match o with
  | None => Ok (0%nat, q)
  | Some result =>
      let i := (size q - 1)%nat in
      let? e := slot (heap q) i in
      let? h := set_slot (heap q) 0 e in
      let? h := set_slot h i 0%nat in
      let? h := down_heap i ws h in
      Ok (result, mk i h)
  end.

Definition update_top (ws : list wrapper) (q : t) : result (nat * t) :=
  let? h := down_heap (size q) ws (heap q) in
  let? e := slot h 0 in
  Ok (e, mk (size q) h).

Definition update_top_with (top_replacement : nat) (ws : list wrapper) (q : t) : result (nat * t) :=
  let? h := set_slot (heap q) 0 top_replacement in
  update_top ws (mk (size q) h).

Definition clear (q : t) : t := mk 0 (map (fun _ => 0%nat) (heap q)).
Definition iter (q : t) : list nat := take (size q) (heap q).

(** ** The list of the wrappers on the current document, linked through [next] *)

Definition set_next (ws : list wrapper) (i : nat) (o : option nat) : result (list wrapper) :=
  let? w := slot ws i in
  set_slot ws i (DisiWrapper.mk (DisiWrapper.scorer w) o (DisiWrapper.doc w) (DisiWrapper.cost w)).

Definition prepend (w1 w2 : nat) (ws : list wrapper) : result (nat * list wrapper) :=
  let? ws := set_next ws w1 (Some w2) in
  Ok (w1, ws).

(** A node's children are past it, so [size] bounds the depth. *)
Fixpoint top_list (fuel : nat) (list_ : nat) (h : list nat) (ws : list wrapper) (size i : nat) : result (nat * list wrapper) :=
  match fuel with
  | O => OutOfFuel
  | S fuel =>
      let? w_index := slot h i in
      let? a := doc_of ws w_index in
      let? b := doc_of ws list_ in
      if a =? b then
        let? (list_, ws) := prepend w_index list_ ws in
        let left := left_node i in
        let right := (left + 1)%nat in
        if (right <? size)%nat then
          let? (list_, ws) := top_list fuel list_ h ws size left in
          top_list fuel list_ h ws size right
        else if (left <? size)%nat then
          let? left_index := slot h left in
          let? a := doc_of ws left_index in
          let? b := doc_of ws list_ in
          if a =? b then prepend left_index list_ ws else Ok (list_, ws)
        else Ok (list_, ws)
      else Ok (list_, ws)
  end.

Definition top_list_root (ws : list wrapper) (q : t) : result (nat * list wrapper) :=
  let? list_index := slot (heap q) 0 in
  let? ws := set_next ws list_index None in
  if (3 <=? size q)%nat then
    let? (list_index, ws) := top_list (size q) list_index (heap q) ws (size q) 1 in
    top_list (size q) list_index (heap q) ws (size q) 2
  else if (size q =? 2)%nat then
    let? child := slot (heap q) 1 in
    let? a := doc_of ws child in
    let? b := doc_of ws list_index in
    if a =? b then prepend child list_index ws else Ok (list_index, ws)
  else Ok (list_index, ws).
End Operations.
End DisiPriorityQueue.

Module DisjunctionDISIApproximation.
Import DisiPriorityQueue.

Record t (I : Type) : Type := mk {
  all_scores : list (DisiWrapper.t I);
  sub_iterators : DisiPriorityQueue.t;
  cost_ : Z;
  initial_all_scores_len : nat;
  initial_sub_iterator_count : nat;
}.
Arguments mk {I}.
Arguments all_scores {I}.
Arguments sub_iterators {I}.
Arguments cost_ {I}.
Arguments initial_all_scores_len {I}.
Arguments initial_sub_iterator_count {I}.

Section Operations.
Context {I : Type} `{DocIdSetIterator I}.

(** The costs are added as [i64]; a sum past its maximum overflows. *)
Fixpoint sum_costs (all_scores : list (DisiWrapper.t I)) (cost : Z) (idxs : list nat) : result Z :=
  match idxs with
  | [] => Ok cost
  | idx :: idxs =>
      match all_scores !! idx with
      | None => Err IllegalArgument
      | Some score =>
          let sum := cost + DisiWrapper.cost score in
          if (sum <? - 2 ^ 63) || (i64_MAX <? sum) then Panic else sum_costs all_scores sum idxs
      end
  end.

Definition new (sub_iterators : DisiPriorityQueue.t) (all_scores : list (DisiWrapper.t I)) : result (t I) :=
  if (size sub_iterators =? 0)%nat then Err IllegalArgument
  else
    let? cost := sum_costs all_scores 0 (iter sub_iterators) in
    Ok (mk all_scores sub_iterators cost (length all_scores) (size sub_iterators)).

Definition debug_assert_structure_unchanged (d : t I) : result unit :=
  let? _ := debug_assert (initial_all_scores_len d =? length (all_scores d))%nat in
  debug_assert (initial_sub_iterator_count d =? size (sub_iterators d))%nat.

(** [expect_invariant!] panics on an empty queue. *)
Definition top_idx (d : t I) : result nat :=
  let? _ := debug_assert_structure_unchanged d in
  let? o := top (sub_iterators d) in
  match o with Some i => Ok i | None => Panic end.

Definition top_doc (d : t I) : result Z :=
  let? i := top_idx d in
  doc_of (all_scores d) i.

Definition doc_id_ (d : t I) : Z := match top_doc d with Ok x => x | _ => -1 end.

Definition set_score (ix : nat) (w : DisiWrapper.t I) (d : t I) : t I :=
  mk (<[ix := w]> (all_scores d)) (sub_iterators d) (cost_ d) (initial_all_scores_len d) (initial_sub_iterator_count d).

Definition set_queue (q : DisiPriorityQueue.t) (d : t I) : t I :=
  mk (all_scores d) q (cost_ d) (initial_all_scores_len d) (initial_sub_iterator_count d).

(** [let v = top.scorer.m()?; top.doc = v; update_top] *)
Definition move_top (m : ST I Z) (ix : nat) : ST (t I) nat := fun d =>
  match all_scores d !! ix with
  | None => (Panic, d)
  | Some w =>
      let (r, i') := m (DisiWrapper.scorer w) in
      match r with
      | Ok v =>
          let d := set_score ix (DisiWrapper.mk i' (DisiWrapper.next w) v (DisiWrapper.cost w)) d in
          match update_top (all_scores d) (sub_iterators d) with
          | Ok (ix, q) => (Ok ix, set_queue q d)
          | Err e => (Err e, d)
          | Panic => (Panic, d)
          | OutOfFuel => (OutOfFuel, d)
          end
      | Err e => (Err e, set_score ix (DisiWrapper.mk i' (DisiWrapper.next w) (DisiWrapper.doc w) (DisiWrapper.cost w)) d)
      | Panic => (Panic, d)
      | OutOfFuel => (OutOfFuel, d)
      end
  end.

(** The loops of [next_doc] and [advance]; each wrapper moves at most once. *)
Fixpoint move_loop (fuel : nat) (m : ST I Z) (stop : Z -> bool) (ix : nat) : ST (t I) Z :=
  match fuel with
  | O => slift OutOfFuel
  | S fuel =>
      let* ix := move_top m ix in
      let* d := sget in
      let* _ := slift (debug_assert_structure_unchanged d) in
      let* doc := slift (doc_of (all_scores d) ix) in
      if stop doc then sret doc else move_loop fuel m stop ix
  end.

Definition next_doc_ : ST (t I) Z :=
  let* d := sget in
  let* ix := slift (top_idx d) in
  let* old_doc := slift (doc_of (all_scores d) ix) in
  move_loop (S (size (sub_iterators d))) next_doc (fun doc => negb (doc =? old_doc)) ix.

Definition advance_ (target : Z) : ST (t I) Z :=
  let* d := sget in
  let* ix := slift (top_idx d) in
  move_loop (S (size (sub_iterators d))) (advance target) (fun doc => target <=? doc) ix.

#[export] Instance disjunction_iter : DocIdSetIterator (t I) :=
  {| doc_id := doc_id_; next_doc := next_doc_; advance := advance_; Disi.cost d := Ok (cost_ d) |}.
End Operations.
End DisjunctionDISIApproximation.

(** * The queue is a heap of (wrapper, document) pairs *)
Module DisiQueueProofs.
Import DisiPriorityQueue.
Local Open Scope nat_scope.

Abbreviation node := (nat * Z)%type.
Definition before (p q : node) : bool := (p.2 <? q.2)%Z.

#[export] Instance before_order : StrictWeak before.
Proof. split; unfold before; intros; rewrite ?Z.ltb_lt, ?Z.ltb_ge in *; lia. Qed.

Abbreviation ordered := (Heap.ordered before).

(** The slots of the queue: its nodes, then [rest]. *)
Definition slots (L : list node) (rest : list nat) : list nat := L.*1 ++ rest.

Section Queue.
Context {I : Type}.
Implicit Types (ws : list (DisiWrapper.t I)) (L : list node).

Definition agrees ws (p : node) : Prop := doc_of ws p.1 = Ok p.2.

Lemma slot_slots L rest i p : L !! i = Some p -> slot (slots L rest) i = Ok p.1.
Proof.
  intros Hp. unfold slot, slots. rewrite lookup_app_l by (rewrite length_fmap; by eapply lookup_lt_Some).
  by rewrite list_lookup_fmap, Hp.
Qed.

Lemma set_slot_slots L rest i p : i < length L -> set_slot (slots L rest) i p.1 = Ok (slots (<[i := p]> L) rest).
Proof.
  intros Hi. unfold set_slot, slots. rewrite length_app, length_fmap. destruct (Nat.ltb_spec i (length L + length rest)); [|lia].
  by rewrite insert_app_l, list_fmap_insert by (rewrite length_fmap; lia).
Qed.

Lemma slot_at L rest i p : Heap.at_ L i = Some p -> slot (slots L rest) (i - 1) = Ok p.1.
Proof. intros Hp. pose proof (Heap.at_some _ _ _ Hp). rewrite Heap.at_pos in Hp by lia. by apply slot_slots. Qed.

Lemma agrees_at ws L i p : Forall (agrees ws) L -> Heap.at_ L i = Some p -> doc_of ws p.1 = Ok p.2.
Proof.
  intros Ha Hp. pose proof (Heap.at_some _ _ _ Hp). rewrite Heap.at_pos in Hp by lia. by eapply Forall_lookup_1 in Ha.
Qed.

Lemma doc_at_slots ws L rest i p : Forall (agrees ws) L -> Heap.at_ L i = Some p -> doc_at ws (slots L rest) (i - 1) = Ok p.2.
Proof. intros Ha Hp. unfold doc_at. rewrite (slot_at _ _ _ _ Hp). cbn [rbind]. by eapply agrees_at. Qed.

Lemma smaller_ok ws L rest i v : Forall (agrees ws) L -> 1 <= i <= length L ->
  smaller (length L) ws (slots L rest) (left_node (i - 1)) = Ok (Heap.child before (<[i - 1 := v]> L) i - 1).
Proof.
  intros Ha Hi. unfold smaller, Heap.child, left_node, right_node. rewrite !Heap.at_insert by done.
  destruct (Nat.eqb_spec (2 * i) i); [lia|]. destruct (Nat.eqb_spec (2 * i + 1) i); [lia|].
  replace ((i - 1 + 1) * 2 - 1) with (2 * i - 1) by lia. replace (2 * i - 1 + 1) with (2 * i + 1 - 1) by lia.
  destruct (Nat.ltb_spec (2 * i + 1 - 1) (length L)).
  - destruct (Heap.at_is_some L (2 * i)) as [a Hl]; [lia|]. destruct (Heap.at_is_some L (2 * i + 1)) as [b Hr]; [lia|].
    rewrite (doc_at_slots ws L rest _ b Ha Hr), (doc_at_slots ws L rest _ a Ha Hl), Hl, Hr. cbn [rbind]. unfold before.
    by destruct (b.2 <? a.2)%Z.
  - destruct (Heap.at_ L (2 * i + 1)) eqn:Hr; [apply Heap.at_some in Hr; lia|]. by destruct (Heap.at_ L (2 * i)).
Qed.

Lemma agrees_insert ws L i p : Forall (agrees ws) L -> agrees ws p -> Forall (agrees ws) (<[i := p]> L).
Proof. intros. by apply Forall_insert. Qed.

Lemma down_loop_ok ws v rest fuel : forall L i c, Forall (agrees ws) L -> agrees ws v -> 1 <= i <= length L ->
  length L < i + fuel -> Heap.at_ L (Heap.child before (<[i - 1 := v]> L) i) = Some c -> before c v = true ->
  down_loop fuel (length L) ws v.1 (i - 1) (Heap.child before (<[i - 1 := v]> L) i - 1) (slots L rest)
  = Ok (slots (Heap.sift_down before (S fuel) (<[i - 1 := v]> L) i) rest).
Proof.
  induction fuel as [|fuel IH]; intros L i c Ha Hv Hi Hf Hc Hlt; [lia|]. cbn [down_loop].
  pose proof (Heap.child_cases before (<[i - 1 := v]> L) i ltac:(lia)) as Hj.
  set (j := Heap.child before (<[i - 1 := v]> L) i) in *. pose proof (Heap.at_some _ _ _ Hc) as Hjl.
  assert (Hac : agrees ws c) by (unfold agrees; by eapply agrees_at).
  rewrite (slot_at _ _ _ _ Hc). cbn [rbind]. rewrite set_slot_slots by lia. cbn [rbind].
  pose proof (smaller_ok ws (<[i - 1 := c]> L) rest j v) as Hs. rewrite length_insert in Hs.
  rewrite Hs by (auto using agrees_insert || lia). cbn [rbind].
  assert (Hsw : <[j - 1 := v]> (<[i - 1 := c]> L) = Heap.swap (<[i - 1 := v]> L) i j) by (apply Heap.hole_swap; auto; lia).
  cbn [Heap.sift_down]. fold j. rewrite (Heap.at_insert L i i v) by done. rewrite Nat.eqb_refl.
  rewrite (Heap.at_insert L i j v) by done. destruct (Nat.eqb_spec j i); [lia|]. rewrite Hc, Hlt.
  rewrite <- Hsw. set (L1 := <[i - 1 := c]> L) in *. assert (Hl1 : length L1 = length L) by apply length_insert.
  assert (HaL1 : Forall (agrees ws) L1) by by apply agrees_insert.
  set (k := Heap.child before (<[j - 1 := v]> L1) j) in *.
  pose proof (Heap.child_cases before (<[j - 1 := v]> L1) j ltac:(lia)) as Hk. fold k in Hk.
  assert (Hset : set_slot (slots L1 rest) (j - 1) v.1 = Ok (slots (<[j - 1 := v]> L1) rest)) by (apply set_slot_slots; lia).
  assert (HvL : doc_of ws v.1 = Ok v.2) by exact Hv.
  destruct fuel as [|fuel']; [lia|]. rewrite (Heap.at_insert L1 j j v) by lia. rewrite Nat.eqb_refl.
  rewrite (Heap.at_insert L1 j k v) by lia. destruct (Nat.eqb_spec k j); [lia|].
  destruct (Nat.leb_spec (length L) (k - 1)).
  - destruct (Heap.at_ L1 k) eqn:Hk1; [apply Heap.at_some in Hk1; lia|]. done.
  - destruct (Heap.at_is_some L1 k) as [d Hd]; [lia|].
    rewrite (doc_at_slots ws L1 rest _ d) by done. cbn [rbind]. rewrite HvL. cbn [rbind].
    rewrite Hd. rewrite Z.leb_antisym. fold (before d v). destruct (before d v) eqn:Hdv; cbn [negb]; [|done].
    pose proof (IH L1 j d HaL1 Hv ltac:(lia) ltac:(lia) Hd Hdv) as IH'. fold k in IH'. rewrite Hl1 in IH'. rewrite IH'.
    cbn [Heap.sift_down]. fold k. rewrite (Heap.at_insert L1 j j v), (Heap.at_insert L1 j k v) by lia.
    rewrite Nat.eqb_refl. destruct (Nat.eqb_spec k j); [lia|]. by rewrite Hd, Hdv.
Qed.

Lemma down_heap_ok ws L rest : Forall (agrees ws) L -> L <> [] ->
  down_heap (length L) ws (slots L rest) = Ok (slots (Heap.sift_down before (S (length L)) L 1) rest).
Proof.
  intros Ha Hne. unfold down_heap. assert (Hl : 1 <= length L) by (destruct L; [done|simpl; lia]).
  destruct (Nat.eqb_spec (length L) 0); [lia|]. destruct (Heap.at_is_some L 1) as [v Hv]; [lia|].
  assert (Hins : <[1 - 1 := v]> L = L) by (rewrite Heap.at_pos in Hv by lia; by apply list_insert_id).
  pose proof (slot_at L rest 1 v Hv) as Hs. cbn in Hs. rewrite Hs. cbn [rbind].
  pose proof (smaller_ok ws L rest 1 v Ha ltac:(lia)) as Hsm. rewrite Hins in Hsm. cbn [Nat.sub] in Hsm.
  pose proof (Heap.child_cases before L 1 ltac:(lia)) as Hj. set (j := Heap.child before L 1) in *.
  cbn [Heap.sift_down]. fold j. rewrite Hv. unfold left_node in Hsm |- *. cbn [Nat.add Nat.mul Nat.sub] in Hsm |- *.
  destruct (Nat.ltb_spec 1 (length L)) as [Hlt|Hge].
  - rewrite Hsm. cbn [rbind]. destruct (Heap.at_is_some L j) as [c Hc].
    { destruct Hj as [Hj|Hj]; [lia|]. pose proof Hj as Hj'. unfold j, Heap.child in Hj'.
      destruct (Heap.at_ L (2 * 1)); [|lia]. destruct (Heap.at_ L (2 * 1 + 1)) eqn:E; [|lia]. apply Heap.at_some in E. lia. }
    rewrite (doc_at_slots ws L rest _ c Ha Hc). cbn [rbind]. rewrite (agrees_at ws L 1 v Ha Hv). cbn [rbind].
    rewrite Hc. fold (before c v). destruct (before c v) eqn:Hcv; [|done].
    pose proof (down_loop_ok ws v rest (length L) L 1 c) as Hd. rewrite Hins in Hd. fold j in Hd. cbn [Nat.sub] in Hd.
    rewrite Hd; auto; try lia; [|by eapply agrees_at]. cbn [Heap.sift_down]. fold j. by rewrite Hv, Hc, Hcv.
  - destruct (Heap.at_ L j) eqn:Hc; [apply Heap.at_some in Hc; lia|done].
Qed.

(** Moving the top down restores the order. *)
Lemma update_top_ok ws p L rest v : Forall (agrees ws) ((p.1, v) :: L) -> ordered (p :: L) ->
  exists q L', update_top ws (DisiPriorityQueue.mk (S (length L)) (slots (p :: L) rest))
      = Ok (q.1, DisiPriorityQueue.mk (S (length L)) (slots (q :: L') rest))
    /\ ordered (q :: L') /\ q :: L' ≡ₚ (p.1, v) :: L.
Proof.
  intros Ha Ho. unfold update_top. cbn [DisiPriorityQueue.size DisiPriorityQueue.heap].
  pose proof (down_heap_ok ws ((p.1, v) :: L) rest Ha ltac:(done)) as Hd. cbn [length] in Hd.
  set (L1 := Heap.sift_down before (S (S (length L))) ((p.1, v) :: L) 1) in *.
  assert (Hp : L1 ≡ₚ (p.1, v) :: L) by apply Heap.sift_down_perm.
  assert (Ho1 : ordered L1).
  { apply Heap.sift_down_ordered; [apply _|lia|simpl; lia|]. by apply (Heap.new_root_pre before L p). }
  clearbody L1. destruct L1 as [|q L']; [by apply Permutation_nil_cons in Hp|]. exists q, L'. split; [|done].
  change (slots (p :: L) rest) with (slots ((p.1, v) :: L) rest). rewrite Hd. done.
Qed.

Lemma up_loop_ok ws v rest fuel : forall L i, Forall (agrees ws) L -> 1 <= i <= length L -> i <= fuel ->
  up_loop fuel ws v.1 v.2 (i - 1) (slots L rest) = Ok (slots (Heap.sift_up before fuel (<[i - 1 := v]> L) i).1 rest).
Proof.
  induction fuel as [|fuel IH]; intros L i Ha Hi Hf; [lia|].
  cbn [up_loop Heap.sift_up]. rewrite !Heap.at_insert by done. rewrite Nat.eqb_refl. unfold parent_node.
  destruct (Nat.eqb_spec (i - 1) 0) as [H1|H1].
  { assert (i = 1) as -> by lia. rewrite set_slot_slots by lia. by change (1 / 2) with 0. }
  assert (Hhalf : (i - 1 - 1) / 2 = i / 2 - 1).
  { replace i with (1 * 2 + (i - 1 - 1)) at 2 by lia. rewrite Nat.div_add_l by lia. lia. }
  rewrite Hhalf. pose proof (Heap.half_lt i ltac:(lia)). destruct (Nat.eqb_spec (i / 2) i); [lia|].
  destruct (Heap.at_is_some L (i / 2)) as [p Hp]; [lia|]. rewrite Hp, (slot_at _ _ _ _ Hp). cbn [rbind].
  rewrite (agrees_at ws L _ _ Ha Hp). cbn [rbind]. rewrite Z.leb_antisym. fold (before v p).
  destruct (before v p); cbn [negb]; [|by rewrite set_slot_slots by lia].
  rewrite set_slot_slots by lia. cbn [rbind]. pose proof (IH (<[i - 1 := p]> L) (i / 2)) as IH'. rewrite length_insert in IH'.
  rewrite IH' by first [lia|apply agrees_insert; [done|unfold agrees; by eapply agrees_at]].
  by rewrite (Heap.hole_swap L i (i / 2) v p) by (done || lia).
Qed.

Lemma up_heap_ok ws L rest p : Forall (agrees ws) (L ++ [p]) ->
  up_heap ws (length L) (slots (L ++ [p]) rest) = Ok (slots (Heap.sift_up before (S (length L)) (L ++ [p]) (S (length L))).1 rest).
Proof.
  intros Ha. unfold up_heap. assert (Hp : (L ++ [p]) !! length L = Some p) by by apply list_lookup_middle.
  rewrite (slot_slots _ _ _ _ Hp). cbn [rbind].
  pose proof (proj1 (Forall_lookup _ _) Ha _ _ Hp) as Hag. unfold agrees in Hag. rewrite Hag. cbn [rbind].
  pose proof (up_loop_ok ws p rest (S (length L)) (L ++ [p]) (S (length L))) as Hu. rewrite length_app in Hu. cbn [length] in Hu.
  replace (S (length L) - 1) with (length L) in Hu by lia. rewrite Hu by (done || lia). by rewrite list_insert_id.
Qed.

(** [add] puts a node in. *)
Lemma add_ok ws L x rest p : Forall (agrees ws) (L ++ [p]) -> ordered L ->
  exists q L', add p.1 ws (DisiPriorityQueue.mk (length L) (slots L (x :: rest)))
      = Ok (q.1, DisiPriorityQueue.mk (length L + 1) (slots (q :: L') rest))
    /\ ordered (q :: L') /\ q :: L' ≡ₚ L ++ [p].
Proof.
  intros Ha Ho. unfold add. cbn [DisiPriorityQueue.size DisiPriorityQueue.heap].
  assert (Hset : set_slot (slots L (x :: rest)) (length L) p.1 = Ok (slots (L ++ [p]) rest)).
  { unfold set_slot, slots. rewrite length_app, length_fmap. cbn [length].
    destruct (Nat.ltb_spec (length L) (length L + S (length rest))); [|lia].
    rewrite insert_app_r_alt by (rewrite length_fmap; lia). rewrite length_fmap, Nat.sub_diag. cbn.
    by rewrite fmap_app, <- app_assoc. }
  rewrite Hset. cbn [rbind]. rewrite (up_heap_ok ws L rest p Ha). cbn [rbind].
  set (L1 := (Heap.sift_up before (S (length L)) (L ++ [p]) (S (length L))).1).
  assert (Hp : L1 ≡ₚ L ++ [p]) by apply Heap.sift_up_perm.
  assert (Ho1 : ordered L1).
  { apply Heap.sift_up_ordered; [apply _|lia|]. rewrite <- Nat.add_1_r. by apply Heap.push_pre. }
  clearbody L1. destruct L1 as [|q L']; [apply Permutation_length in Hp; rewrite length_app in Hp; simpl in Hp; lia|].
  exists q, L'. done.
Qed.

(** The sift of [add_all]: the first leaf is at half the size. *)
Lemma wrapper_sift_ok ws v rest fuel : forall L i, Forall (agrees ws) L -> agrees ws v -> 1 <= i <= length L -> length L < i + fuel ->
  sift_loop fuel (length L) (length L / 2) ws v.1 v.2 (i - 1) (slots L rest)
  = Ok (slots (Heap.sift_down before fuel (<[i - 1 := v]> L) i) rest).
Proof.
  induction fuel as [|fuel IH]; intros L i Ha Hv Hi Hf; [lia|]. cbn [sift_loop Heap.sift_down].
  pose proof (Heap.child_cases before (<[i - 1 := v]> L) i ltac:(lia)) as Hj.
  assert (Hhalf : 2 * (length L / 2) <= length L < 2 * (length L / 2) + 2).
  { pose proof (Nat.div_mod (length L) 2 ltac:(lia)). pose proof (Nat.mod_upper_bound (length L) 2 ltac:(lia)). lia. }
  rewrite (Heap.at_insert L i i v) by done. rewrite Nat.eqb_refl.
  destruct (Nat.ltb_spec (i - 1) (length L / 2)) as [Hin|Hleaf].
  - rewrite (smaller_ok ws L rest i v Ha Hi). cbn [rbind].
    assert (Hjl : Heap.child before (<[i - 1 := v]> L) i <= length L).
    { unfold Heap.child. rewrite !Heap.at_insert by done. destruct (Nat.eqb_spec (2 * i) i); [lia|].
      destruct (Nat.eqb_spec (2 * i + 1) i); [lia|]. destruct (Heap.at_ L (2 * i)); [|lia].
      destruct (Heap.at_ L (2 * i + 1)) eqn:E; [apply Heap.at_some in E|lia]. case_match; lia. }
    set (j := Heap.child before (<[i - 1 := v]> L) i) in *.
    destruct (Heap.at_is_some L j) as [c Hc]; [lia|]. rewrite (Heap.at_insert L i j v) by done.
    destruct (Nat.eqb_spec j i); [lia|]. rewrite Hc, (slot_at _ _ _ _ Hc). cbn [rbind].
    rewrite (agrees_at ws L _ _ Ha Hc). cbn [rbind]. rewrite Z.leb_antisym. fold (before c v).
    destruct (before c v); cbn [negb]; [|by rewrite set_slot_slots by lia].
    rewrite set_slot_slots by lia. cbn [rbind]. pose proof (IH (<[i - 1 := c]> L) j) as IH'. rewrite length_insert in IH'.
    rewrite IH' by first [lia|done|apply agrees_insert; [done|unfold agrees; by eapply agrees_at]].
    by rewrite (Heap.hole_swap L i j v c) by (done || lia).
  - rewrite set_slot_slots by lia. rewrite (Heap.at_insert L i _ v) by done.
    destruct (Nat.eqb_spec (Heap.child before (<[i - 1 := v]> L) i) i); [lia|].
    destruct (Heap.at_ L _) eqn:E; [apply Heap.at_some in E; lia|done].
Qed.

Lemma wrapper_heapify_ok ws rest n : forall L, Forall (agrees ws) L -> n <= length L ->
  DisiPriorityQueue.heapify n (length L) (length L / 2) ws (slots L rest) = Ok (slots (Heap.heapify before (S (length L)) n L) rest).
Proof.
  induction n as [|n IH]; intros L Ha Hn; [done|]. cbn [DisiPriorityQueue.heapify Heap.heapify].
  destruct (lookup_lt_is_Some_2 L n) as [v Hv]; [lia|]. rewrite (slot_slots _ _ _ _ Hv). cbn [rbind].
  pose proof (proj1 (Forall_lookup _ _) Ha _ _ Hv) as Hag. pose proof Hag as Hag'. unfold agrees in Hag'. rewrite Hag'. cbn [rbind].
  pose proof (wrapper_sift_ok ws v rest (S (length L)) L (S n) Ha Hag ltac:(lia) ltac:(lia)) as Hs. replace (S n - 1) with n in Hs by lia.
  rewrite Hs. cbn [rbind]. rewrite list_insert_id by done.
  set (L1 := Heap.sift_down before (S (length L)) L (S n)). assert (Hp : L1 ≡ₚ L) by apply Heap.sift_down_perm.
  rewrite <- (Permutation_length Hp) at 1 2. rewrite (IH L1); [by rewrite (Permutation_length Hp)|by rewrite Hp|].
  rewrite (Permutation_length Hp). lia.
Qed.

Lemma copy_entries_ok E : forall L rest, length E <= length rest ->
  copy_entries E.*1 (length L) (slots L rest) = Ok (slots (L ++ E) (drop (length E) rest)).
Proof.
  induction E as [|p E IH]; intros L rest Hl; cbn [copy_entries fmap list_fmap length]; [by rewrite app_nil_r, drop_0|].
  destruct rest as [|x rest]; [simpl in Hl; lia|]. unfold set_slot, slots at 1. rewrite length_app, length_fmap. cbn [length].
  destruct (Nat.ltb_spec (length L) (length L + S (length rest))); [|lia]. cbn [rbind]. unfold slots at 1.
  rewrite insert_app_r_alt by (rewrite length_fmap; lia). rewrite length_fmap, Nat.sub_diag. cbn.
  pose proof (IH (L ++ [p]) rest ltac:(simpl in Hl; lia)) as IH'. rewrite length_app in IH'. cbn in IH'.
  unfold slots in *. rewrite fmap_app, <- !app_assoc in IH'. cbn in IH'. rewrite IH'. by rewrite fmap_app.
Qed.

(** [add_all] puts many in at once. *)
Lemma add_all_ok ws L rest E entries offset : Forall (agrees ws) (L ++ E) -> E <> [] -> length E <= length rest ->
  take (length E) (drop offset entries) = E.*1 ->
  exists L', add_all entries offset (length E) ws (DisiPriorityQueue.mk (length L) (slots L rest))
      = Ok (DisiPriorityQueue.mk (length L + length E) (slots L' (drop (length E) rest)))
    /\ ordered L' /\ L' ≡ₚ L ++ E.
Proof.
  intros Ha Hne Hl Hen. unfold add_all. cbn [DisiPriorityQueue.size DisiPriorityQueue.heap].
  assert (Hpos : length E <> 0) by (destruct E; [done|simpl; lia]). destruct (Nat.eqb_spec (length E) 0); [lia|].
  unfold slots at 1. rewrite length_app, length_fmap.
  destruct (Nat.ltb_spec (length L + length rest) (length L + length E)); [lia|].
  assert (Hlen : offset + length E <= length entries).
  { apply (f_equal length) in Hen. rewrite length_take, length_drop, length_fmap in Hen. lia. }
  destruct (Nat.ltb_spec (length entries) (offset + length E)); [lia|]. rewrite Hen, copy_entries_ok by done. cbn [rbind].
  rewrite <- length_app. rewrite wrapper_heapify_ok; [|done|apply Nat.Div0.div_le_upper_bound; lia]. cbn [rbind].
  eexists. split; [done|]. split; [|apply Heap.heapify_perm].
  apply Heap.heapify_ordered; [apply _|lia|apply Heap.ordered_from_leaves].
Qed.

(** [pop] takes the least node out. *)
Lemma pop_ok ws p L rest : Forall (agrees ws) (p :: L) -> ordered (p :: L) ->
  exists L' rest', pop ws (DisiPriorityQueue.mk (S (length L)) (slots (p :: L) rest))
      = Ok (p.1, DisiPriorityQueue.mk (length L) (slots L' rest'))
    /\ ordered L' /\ L' ≡ₚ L.
Proof.
  intros Ha Ho. unfold pop, top. cbn [DisiPriorityQueue.size DisiPriorityQueue.heap Nat.eqb].
  assert (Hs : slot (slots (p :: L) rest) 0 = Ok p.1) by done. rewrite Hs. cbn [rbind]. replace (S (length L) - 1) with (length L) by lia.
  destruct (decide (L = [])) as [->|Hne]; [exists [], (0 :: rest); split; [reflexivity|split; [intros x a b _ _ Hx; apply Heap.at_some in Hx; simpl in Hx; lia|done]]|]. destruct (exists_last Hne) as (M & z & ->).
  rewrite length_app in *. cbn [length] in *. rewrite Nat.add_1_r.
  assert (Hz : (p :: M ++ [z]) !! S (length M) = Some z) by (change ((M ++ [z]) !! length M = Some z); by apply list_lookup_middle).
  rewrite (slot_slots _ _ _ _ Hz). cbn [rbind]. rewrite (set_slot_slots _ _ 0 z) by (simpl; lia). cbn [rbind list_insert].
  assert (Hset : set_slot (slots (z :: M ++ [z]) rest) (S (length M)) 0 = Ok (slots (z :: M) (0 :: rest))).
  { assert (E : slots (z :: M ++ [z]) rest = (z :: M).*1 ++ z.1 :: rest).
    { unfold slots. change (z :: M ++ [z]) with ((z :: M) ++ [z]). by rewrite fmap_app, <- app_assoc. }
    unfold set_slot. rewrite E, length_app, length_fmap. cbn [length].
    destruct (Nat.ltb_spec (S (length M)) (S (length M) + S (length rest))); [|lia].
    rewrite insert_app_r_alt by (rewrite length_fmap; simpl; lia). rewrite length_fmap. cbn [length]. by rewrite Nat.sub_diag. }
  change (<[0 := z]> (p :: M ++ [z])) with (z :: M ++ [z]). rewrite Hset. cbn [rbind].
  assert (HaM : Forall (agrees ws) (z :: M)).
  { inversion_clear Ha as [|? ? _ HM]. apply Forall_app in HM as [HM Hz']. inversion_clear Hz'. by constructor. }
  pose proof (down_heap_ok ws (z :: M) (0 :: rest) HaM ltac:(done)) as Hd. cbn [length] in Hd. rewrite Hd. cbn [rbind].
  exists (Heap.sift_down before (S (S (length M))) (z :: M) 1), (0 :: rest). split; [done|]. split.
  - apply Heap.sift_down_ordered; [apply _|lia|simpl; lia|].
    apply (Heap.replaced_down before 1 (p :: M ++ [z]) (z :: M) 1 p); [done| |done|].
    + exact (Heap.replaced_last (p :: M) z 1 ltac:(lia)).
    + intros p' v' Hle. simpl in Hle. lia.
  - rewrite Heap.sift_down_perm. by rewrite Permutation_app_comm.
Qed.

End Queue.
End DisiQueueProofs.

(** * The disjunction iterates the union *)
Module DisjunctionProofs.
Import DisiPriorityQueue DisiQueueProofs DisjunctionDISIApproximation.

Section Union.
Context {I : Type} `{DisiSpec I}.
Abbreviation dis := (DisjunctionDISIApproximation.t I).
Implicit Types (ws : list (DisiWrapper.t I)) (L : list (nat * Z)) (d : dis).

(** The wrapper of a node holds a sound iterator on the node's document. *)
Definition tracked ws (p : nat * Z) : Prop := exists w, ws !! p.1 = Some w /\ DisiWrapper.doc w = p.2
  /\ iter_ok (DisiWrapper.scorer w) /\ doc_id (DisiWrapper.scorer w) = p.2.

Definition mem_of ws (i : nat) (x : Z) : bool :=
  match ws !! i with Some w => mem (DisiWrapper.scorer w) x | None => false end.

Definition dis_mem d (x : Z) : bool := existsb (fun i => mem_of (all_scores d) i x) (iter (sub_iterators d)).

(** The state of a disjunction whose queue holds the nodes [L]. *)
Record holds d L (rest : list nat) : Prop := {
  h_queue : sub_iterators d = DisiPriorityQueue.mk (length L) (slots L rest);
  h_nodup : NoDup L.*1;
  h_order : Heap.ordered before L;
  h_tracked : Forall (tracked (all_scores d)) L;
  h_scores : initial_all_scores_len d = length (all_scores d);
  h_count : initial_sub_iterator_count d = length L;
}.

(** No iterator has a document between [t] and the one it is on. *)
Definition no_gap d L (t : Z) : Prop := forall p x, p ∈ L -> t <= x < p.2 -> mem_of (all_scores d) p.1 x = false.

Definition dis_ok d : Prop := exists p L rest, holds d (p :: L) rest /\ no_gap d (p :: L) (p.2 + 1).

Lemma tracked_agrees ws L : Forall (tracked ws) L -> Forall (agrees ws) L.
Proof.
  intros HF. eapply Forall_impl; [exact HF|]. intros p (w & Hw & Hd & _). unfold agrees, doc_of, slot. rewrite Hw. cbn. by rewrite Hd.
Qed.

Lemma tracked_range ws p : tracked ws p -> -1 <= p.2 <= NO_MORE_DOCS.
Proof. intros (w & _ & _ & Hok & <-). by apply doc_range. Qed.

Lemma first_least p L q : Heap.ordered before (p :: L) -> q ∈ p :: L -> p.2 <= q.2.
Proof.
  intros Ho Hq. pose proof (Heap.ordered_min before (p :: L) p Ho eq_refl) as Hf. eapply Forall_forall in Hf; [|exact Hq].
  unfold Heap.le, before in Hf. apply Z.ltb_ge in Hf. done.
Qed.

Lemma structure_ok d L rest : holds d L rest -> debug_assert_structure_unchanged d = Ok tt.
Proof.
  intros Hh. unfold debug_assert_structure_unchanged. rewrite (h_scores _ _ _ Hh), (h_count _ _ _ Hh), (h_queue _ _ _ Hh).
  cbn [DisiPriorityQueue.size]. rewrite !Nat.eqb_refl. done.
Qed.

Lemma top_idx_ok d p L rest : holds d (p :: L) rest -> top_idx d = Ok p.1.
Proof. intros Hh. unfold top_idx. rewrite (structure_ok _ _ _ Hh). cbn [rbind]. by rewrite (h_queue _ _ _ Hh). Qed.

Lemma doc_of_ok ws p : tracked ws p -> doc_of ws p.1 = Ok p.2.
Proof. intros (w & Hw & Hd & _). unfold doc_of, slot. rewrite Hw. cbn. by rewrite Hd. Qed.

Lemma doc_id_ok d p L rest : holds d (p :: L) rest -> doc_id_ d = p.2.
Proof.
  intros Hh. unfold doc_id_, top_doc. rewrite (top_idx_ok _ _ _ _ Hh). cbn [rbind].
  pose proof (h_tracked _ _ _ Hh) as Ht. inversion Ht; subst. by rewrite doc_of_ok.
Qed.

Lemma iter_nodes d L rest : holds d L rest -> iter (sub_iterators d) = L.*1.
Proof.
  intros Hh. rewrite (h_queue _ _ _ Hh). unfold iter, slots. cbn [DisiPriorityQueue.size DisiPriorityQueue.heap].
  rewrite <- (length_fmap fst). by rewrite take_app_length.
Qed.

Lemma mem_of_insert ws i w w' j x : ws !! i = Some w -> (forall y, mem (DisiWrapper.scorer w') y = mem (DisiWrapper.scorer w) y) ->
  mem_of (<[i := w']> ws) j x = mem_of ws j x.
Proof.
  intros Hw Hm. unfold mem_of. destruct (decide (i = j)) as [->|Hij].
  - rewrite list_lookup_insert_eq by (by eapply lookup_lt_Some). by rewrite Hw.
  - by rewrite list_lookup_insert_ne.
Qed.

(** One move of the top. *)
Lemma move_top_ok (m : ST I Z) d p L rest w v i' : holds d (p :: L) rest -> all_scores d !! p.1 = Some w ->
  m (DisiWrapper.scorer w) = (Ok v, i') -> iter_ok i' -> doc_id i' = v ->
  (forall x, mem i' x = mem (DisiWrapper.scorer w) x) ->
  exists q L' d', move_top m p.1 d = (Ok q.1, d') /\ holds d' (q :: L') rest /\ q :: L' ≡ₚ (p.1, v) :: L
    /\ (forall j x, mem_of (all_scores d') j x = mem_of (all_scores d) j x).
Proof.
  intros Hh Hw Hm Hok Hv Hmem. unfold move_top. rewrite Hw, Hm.
  set (w' := DisiWrapper.mk i' (DisiWrapper.next w) v (DisiWrapper.cost w)). set (d1 := set_score p.1 w' d).
  pose proof (h_nodup _ _ _ Hh) as Hnd. cbn in Hnd. apply NoDup_cons in Hnd as [Hnin Hnd].
  assert (Ht1 : Forall (tracked (all_scores d1)) ((p.1, v) :: L)).
  { pose proof (h_tracked _ _ _ Hh) as Ht. inversion_clear Ht as [|? ? _ HtL]. constructor.
    - exists w'. cbn. rewrite list_lookup_insert_eq by (by eapply lookup_lt_Some). done.
    - apply Forall_forall. intros q Hq. eapply Forall_forall in HtL as (wq & Hwq & Hq'); [|exact Hq].
      exists wq. split; [|done]. cbn. rewrite list_lookup_insert_ne; [done|]. intros E. apply Hnin. rewrite E. by apply list_elem_of_fmap_2. }
  destruct (update_top_ok (all_scores d1) p L rest v (tracked_agrees _ _ Ht1) (h_order _ _ _ Hh)) as (q & L' & Hu & Ho & Hp).
  assert (Hq : sub_iterators d1 = DisiPriorityQueue.mk (S (length L)) (slots (p :: L) rest)) by exact (h_queue _ _ _ Hh).
  exists q, L', (set_queue (DisiPriorityQueue.mk (S (length L)) (slots (q :: L') rest)) d1).
  rewrite Hq, Hu. pose proof (Permutation_length Hp) as Hlen. cbn in Hlen. injection Hlen as Hlen.
  split; [done|]. split; [|split; [done|intros j x; by apply mem_of_insert with w]]. constructor; cbn.
  - by rewrite Hlen.
  - change (q.1 :: L'.*1) with ((q :: L').*1). rewrite Hp. cbn. by apply NoDup_cons.
  - done.
  - by rewrite Hp.
  - rewrite length_insert. apply (h_scores _ _ _ Hh).
  - rewrite Hlen. apply (h_count _ _ _ Hh).
Qed.

Definition behind (t : Z) L : nat := length (filter (fun p => p.2 < t) L).

Lemma behind_perm t L L' : L ≡ₚ L' -> behind t L = behind t L'.
Proof. intros Hp. unfold behind. by rewrite Hp. Qed.

(** The loop moves every iterator that is behind [t] once. *)
Lemma move_loop_ok (m : ST I Z) stop cur t : 0 <= t ->
  (forall x, cur <= x -> stop x = (t <=? x)) ->
  (forall i, iter_ok i -> cur <= doc_id i < t -> exists i', m i = (Ok (doc_id i'), i') /\ iter_ok i'
     /\ (forall x, mem i' x = mem i x) /\ first_at (mem i) t (doc_id i')) ->
  forall fuel d p L rest, holds d (p :: L) rest -> no_gap d (p :: L) t -> cur <= p.2 < t -> (behind t (p :: L) <= fuel)%nat ->
  exists r L' d', move_loop fuel m stop p.1 d = (Ok r.2, d') /\ holds d' (r :: L') rest /\ t <= r.2
    /\ no_gap d' (r :: L') t /\ (forall j x, mem_of (all_scores d') j x = mem_of (all_scores d) j x)
    /\ (r :: L').*1 ≡ₚ (p :: L).*1.
Proof.
  intros Ht0 Hstop Hm. induction fuel as [|fuel IH]; intros d p L rest Hh Hgap Hp Hf.
  { unfold behind in Hf. rewrite filter_cons_True in Hf by lia. simpl in Hf. lia. }
  pose proof (h_tracked _ _ _ Hh) as Htr. inversion Htr as [|? ? Htp HtL]; subst.
  destruct Htp as (w & Hw & Hdoc & Hok & Hid). destruct (Hm (DisiWrapper.scorer w)) as (i' & Hmi & Hok' & Hmem & Hfirst); [done|lia|].
  destruct (move_top_ok m d p L rest w (doc_id i') i') as (q & L' & d' & Hmove & Hh' & Hperm & Hmem'); auto.
  assert (Hcur : forall y, y ∈ q :: L' -> cur <= y.2).
  { intros y Hy. rewrite Hperm in Hy. apply elem_of_cons in Hy as [->|Hy]; [cbn; destruct Hfirst; lia|].
    pose proof (first_least p L y (h_order _ _ _ Hh) ltac:(by right)). lia. }
  assert (Hgap' : no_gap d' (q :: L') t).
  { intros y x Hy Hx. rewrite Hmem'. rewrite Hperm in Hy. apply elem_of_cons in Hy as [->|Hy].
    - cbn in *. unfold mem_of. rewrite Hw. by apply Hfirst.
    - apply Hgap; [by right|done]. }
  assert (Hfst : (q :: L').*1 ≡ₚ (p :: L).*1) by (rewrite Hperm; done).
  cbn [move_loop]. rewrite (sbind_ok _ _ _ _ _ Hmove). erewrite sbind_ok by done.
  rewrite slift_sbind, (structure_ok _ _ _ Hh'). cbn beta iota.
  pose proof (h_tracked _ _ _ Hh') as Htr'. inversion Htr' as [|? ? Htq _]; subst.
  rewrite slift_sbind, (doc_of_ok _ _ Htq). cbn beta iota. rewrite Hstop by (apply Hcur; left).
  destruct (Z.leb_spec t q.2) as [Hge|Hlt].
  - exists q, L', d'. split_and!; auto.
  - destruct (IH d' q L' rest Hh' Hgap') as (r & L2 & d2 & Hl & Hh2 & Hr & Hg2 & Hm2 & Hf2).
    { split; [apply Hcur; left|done]. }
    { rewrite (behind_perm _ _ _ Hperm). unfold behind in Hf |- *. rewrite filter_cons_True in Hf by lia.
      rewrite filter_cons_False by (cbn; destruct Hfirst; lia). simpl in Hf. lia. }
    exists r, L2, d2. split_and!; auto; [intros j x; by rewrite Hm2|by rewrite Hf2].
Qed.

Lemma existsb_fmap {A B} (f : B -> bool) (g : A -> B) l : existsb f (g <$> l) = existsb (fun a => f (g a)) l.
Proof. induction l as [|a l IH]; [done|]. cbn. by rewrite IH. Qed.

Lemma existsb_perm {A} (f : A -> bool) l l' : l ≡ₚ l' -> existsb f l = existsb f l'.
Proof. induction 1; cbn; try congruence. by destruct (f x), (f y). Qed.

Lemma dis_mem_nodes d L rest x : holds d L rest -> dis_mem d x = existsb (fun i => mem_of (all_scores d) i x) L.*1.
Proof. intros Hh. unfold dis_mem. by rewrite (iter_nodes _ _ _ Hh). Qed.

(** What a move to [t] establishes. *)
Lemma moved_ok d d' p L r L' rest t : holds d (p :: L) rest -> holds d' (r :: L') rest -> 0 <= t <= r.2 ->
  no_gap d' (r :: L') t -> (forall j x, mem_of (all_scores d') j x = mem_of (all_scores d) j x) ->
  (r :: L').*1 ≡ₚ (p :: L).*1 ->
  dis_ok d' /\ doc_id_ d' = r.2 /\ (forall x, dis_mem d' x = dis_mem d x) /\ first_at (dis_mem d) t r.2.
Proof.
  intros Hh Hh' Ht Hgap Hmem Hperm.
  assert (Hsame : forall x, dis_mem d' x = dis_mem d x).
  { intros x. rewrite (dis_mem_nodes _ _ _ _ Hh), (dis_mem_nodes _ _ _ _ Hh'), (existsb_perm _ _ _ Hperm).
    generalize ((p :: L).*1). intros l. induction l as [|a l IH]; [done|]. cbn [existsb]. by rewrite Hmem, IH. }
  pose proof (h_tracked _ _ _ Hh') as Htr. inversion Htr as [|? ? Htr' _]; subst.
  split_and!; [|by eapply doc_id_ok|done|].
  - exists r, L', rest. split; [done|]. intros q x Hq Hx. apply Hgap; [done|lia].
  - split_and!; [lia|pose proof (tracked_range _ _ Htr'); lia| |].
    + intros Hlt. rewrite <- Hsame, (dis_mem_nodes _ _ _ _ Hh'). cbn. apply orb_true_iff. left.
      destruct Htr' as (w & Hw & _ & Hok & Hid). unfold mem_of. rewrite Hw, <- Hid. apply doc_mem; [done|lia].
    + intros x Hx. rewrite <- Hsame, (dis_mem_nodes _ _ _ _ Hh').
      assert (Hall : forall q, q ∈ r :: L' -> mem_of (all_scores d') q.1 x = false).
      { intros q Hq. apply Hgap; [done|]. pose proof (first_least r L' q (h_order _ _ _ Hh') Hq). lia. }
      revert Hall. generalize (r :: L'). intros l Hall. induction l as [|q l IH]; [done|]. cbn.
      rewrite Hall by left. apply IH. intros q' Hq'. apply Hall. by right.
Qed.

Lemma weaken_gap d L t t' : no_gap d L t -> t <= t' -> no_gap d L t'.
Proof. intros Hg Ht p x Hp Hx. apply Hg; [done|lia]. Qed.

Lemma behind_le t L : (behind t L <= length L)%nat.
Proof. apply length_filter. Qed.

Lemma dis_advance d t : dis_ok d -> 0 <= t -> doc_id_ d < t <= NO_MORE_DOCS ->
  exists d', advance_ t d = (Ok (doc_id_ d'), d') /\ dis_ok d' /\ (forall x, dis_mem d' x = dis_mem d x)
    /\ first_at (dis_mem d) t (doc_id_ d').
Proof.
  intros (p & L & rest & Hh & Hgap) H0t Ht. rewrite (doc_id_ok _ _ _ _ Hh) in Ht.
  destruct (move_loop_ok (advance t) (fun doc => t <=? doc) p.2 t H0t) with (S (size (sub_iterators d))) d p L rest
    as (r & L' & d' & Hl & Hh' & Hr & Hg & Hm & Hp); auto; [| | | |].
  - intros i Hi Hd. by apply advance_spec; [| |lia].
  - eapply weaken_gap; [exact Hgap|lia].
  - lia.
  - rewrite (h_queue _ _ _ Hh). cbn [DisiPriorityQueue.size]. pose proof (behind_le t (p :: L)). lia.
  - destruct (moved_ok d d' p L r L' rest t) as (Hok & Hid & Hsame & Hfirst); auto. exists d'. rewrite Hid. split_and!; auto.
    unfold advance_. erewrite sbind_ok by done. rewrite slift_sbind, (top_idx_ok _ _ _ _ Hh). exact Hl.
Qed.

Lemma dis_next d : dis_ok d -> doc_id_ d < NO_MORE_DOCS ->
  exists d', next_doc_ d = (Ok (doc_id_ d'), d') /\ dis_ok d' /\ (forall x, dis_mem d' x = dis_mem d x)
    /\ first_at (dis_mem d) (doc_id_ d + 1) (doc_id_ d').
Proof.
  intros (p & L & rest & Hh & Hgap) Hlt. rewrite (doc_id_ok _ _ _ _ Hh) in Hlt |- *.
  pose proof (h_tracked _ _ _ Hh) as Htr. inversion Htr as [|? ? Htp _]; subst. pose proof (tracked_range _ _ Htp) as Hrange.
  destruct (move_loop_ok next_doc (fun doc => negb (doc =? p.2)) p.2 (p.2 + 1) ltac:(lia)) with (S (size (sub_iterators d))) d p L rest
    as (r & L' & d' & Hl & Hh' & Hr & Hg & Hm & Hp); auto; [| | | |].
  - intros x Hx. destruct (Z.eqb_spec x p.2), (Z.leb_spec (p.2 + 1) x); cbn; try done; lia.
  - intros i Hi Hd. assert (E : doc_id i = p.2) by lia. destruct (next_spec i Hi ltac:(lia)) as (i' & H1 & H2 & H3 & H4).
    exists i'. rewrite E in H4. done.
  - lia.
  - rewrite (h_queue _ _ _ Hh). cbn [DisiPriorityQueue.size]. pose proof (behind_le (p.2 + 1) (p :: L)). lia.
  - destruct (moved_ok d d' p L r L' rest (p.2 + 1)) as (Hok & Hid & Hsame & Hfirst); auto; [lia|]. exists d'. rewrite Hid. split_and!; auto.
    unfold next_doc_. erewrite sbind_ok by done. rewrite slift_sbind, (top_idx_ok _ _ _ _ Hh). cbn beta iota.
    rewrite slift_sbind, (doc_of_ok _ _ Htp). exact Hl.
Qed.

#[export] Instance disjunction_spec : DisiSpec dis.
Proof.
  refine {| iter_ok := dis_ok; mem := dis_mem |}.
  - intros d (p & L & rest & Hh & _). cbn. rewrite (doc_id_ok _ _ _ _ Hh). pose proof (h_tracked _ _ _ Hh) as Htr.
    inversion Htr; subst. by eapply tracked_range.
  - intros d (p & L & rest & Hh & _). cbn. rewrite (doc_id_ok _ _ _ _ Hh). intros Hr. rewrite (dis_mem_nodes _ _ _ _ Hh). cbn.
    pose proof (h_tracked _ _ _ Hh) as Htr. inversion Htr as [|? ? (w & Hw & _ & Hok & Hid) _]; subst.
    apply orb_true_iff. left. unfold mem_of. rewrite Hw, <- Hid. apply doc_mem; [done|lia].
  - exact dis_advance.
  - exact dis_next.
Defined.
End Union.
End DisjunctionProofs.

(** * Building and listing a disjunction *)
Module Disjunction.
Import DisiPriorityQueue DisiQueueProofs DisjunctionDISIApproximation DisjunctionProofs.

Inductive ScoreMode := Complete | CompleteNoScores | TopScores | TopDocs | TopDocsWithScores.
#[export] Instance ScoreMode_eq_dec : EqDecision ScoreMode.
Proof. solve_decision. Defined.

(** What [prepare] answers: the approximation is the iterator, or there is a two-phase
    iterator over it, with the list of verified matches and the queue of unverified ones.
    Its match cost, a float, is left out. *)
Inductive prepared (I : Type) : Type :=
| Approximation (d : DisjunctionDISIApproximation.t I)
| TwoPhase (d : DisjunctionDISIApproximation.t I) (verified_matches : option nat) (unverified_matches : PriorityQueue.t nat) (needs_scores : bool).
Arguments Approximation {I}.
Arguments TwoPhase {I}.

Section Build.
Context {I : Type} `{DocIdSetIterator I}.

(** The loop of [DisjunctionScorer::prepare]: each scorer is wrapped, stored and queued. *)
Fixpoint enqueue (scorers : list I) (ws : list (DisiWrapper.t I)) (dpq : DisiPriorityQueue.t) :
    result (list (DisiWrapper.t I) * DisiPriorityQueue.t) :=
  match scorers with
  | [] => Ok (ws, dpq)
  | s :: scorers =>
      let? w := DisiWrapper.new s in
      let ws' := ws ++ [w] in
      let? (_, dpq) := add (length ws) ws' dpq in
      enqueue scorers ws' dpq
  end.

(** [has_two_phase_iterator() == TwoPhaseState::Yes]: the scorer confirms the documents of
    its approximation one by one. *)
Context (two_phase : I -> bool).

(** The loop over the wrappers: the sum of their costs, each at least one, overflows as an
    [i64]. The sum of the match costs, a float that is only handed on, is left out. *)
Fixpoint sum_weights (all_scores : list (DisiWrapper.t I)) (idxs : list nat) (sum_approx_cost : Z) (has_approximation : bool) : result (Z * bool) :=
  match idxs with
  | [] => Ok (sum_approx_cost, has_approximation)
  | idx :: idxs =>
      let? w := slot all_scores idx in
      let cost_weight := if DisiWrapper.cost w <=? 1 then 1 else DisiWrapper.cost w in
      let? sum_approx_cost := exact_s 64 (sum_approx_cost + cost_weight) in
      sum_weights all_scores idxs sum_approx_cost (two_phase (DisiWrapper.scorer w) || has_approximation)
  end.

(** [TwoPhase::new] *)
Definition new_two_phase (d : DisjunctionDISIApproximation.t I) (needs_scores : bool) : result (prepared I) :=
  let? _ := debug_assert_structure_unchanged d in
  let? q := PriorityQueue.new (length (all_scores d)) in
  Ok (TwoPhase d None q needs_scores).

Definition prepare (sub_scorers : list I) (score_mode : ScoreMode) : result (prepared I) :=
  if (length sub_scorers <=? 1)%nat then Err IllegalArgument
  else
    let? (ws, dpq) := enqueue sub_scorers [] (DisiPriorityQueue.new (length sub_scorers)) in
    let? approximation := DisjunctionDISIApproximation.new dpq ws in
    let needs_scores := bool_decide (score_mode <> CompleteNoScores) in
    let? _ := debug_assert_structure_unchanged approximation in
    let? (_, has_approximation) := sum_weights (all_scores approximation) (iter (sub_iterators approximation)) 0 false in
    if has_approximation then new_two_phase approximation needs_scores
    else Ok (Approximation approximation).
End Build.

Section Listing.
Context {I : Type} `{DisiSpec I}.

(** A scorer that has not moved; its cost is known. *)
Definition fresh (c : I -> Z) (i : I) : Prop := iter_ok i /\ doc_id i = -1 /\ Disi.cost i = Ok (c i).

Definition wrap (c : I -> Z) (i : I) : DisiWrapper.t I := DisiWrapper.mk i None (-1) (c i).

Lemma enqueue_ok c scorers : forall done L rest, Forall (fresh c) (done ++ scorers) -> Heap.ordered before L ->
  L.*1 ≡ₚ seq 0 (length done) -> Forall (fun p => p.2 = -1) L -> length rest = length scorers ->
  exists L', enqueue scorers (wrap c <$> done) (DisiPriorityQueue.mk (length L) (slots L rest))
      = Ok (wrap c <$> (done ++ scorers), DisiPriorityQueue.mk (length (done ++ scorers)) (slots L' []))
    /\ Heap.ordered before L' /\ L'.*1 ≡ₚ seq 0 (length (done ++ scorers)) /\ Forall (fun p => p.2 = -1) L'.
Proof.
  induction scorers as [|s scorers IH]; intros done L rest Hf Ho Hp Hd Hl.
  { destruct rest; [|done]. exists L. rewrite app_nil_r. cbn.
    by rewrite <- (length_fmap fst L), (Permutation_length Hp), length_seq. }
  destruct rest as [|x rest]; [done|]. cbn [enqueue].
  assert (Hs : fresh c s) by (eapply Forall_forall; [exact Hf|]; apply elem_of_app; right; left).
  unfold DisiWrapper.new. destruct Hs as (Hok & Hid & Hc). rewrite Hc. cbn [rbind]. rewrite length_fmap.
  assert (Hws : (wrap c <$> done) ++ [wrap c s] = wrap c <$> (done ++ [s])) by (by rewrite fmap_app).
  fold (wrap c s). rewrite Hws. assert (Hag : Forall (agrees (wrap c <$> (done ++ [s]))) (L ++ [(length done, -1)])).
  { apply Forall_forall. intros p Hpin. assert (Hp2 : p.2 = -1 /\ (p.1 < length (done ++ [s]))%nat).
    { rewrite length_app. cbn. apply elem_of_app in Hpin as [Hpin|Hpin].
      - split; [by eapply Forall_forall in Hd|]. assert (Hin : p.1 ∈ L.*1) by by apply list_elem_of_fmap_2.
        rewrite Hp in Hin. apply elem_of_seq in Hin. lia.
      - apply list_elem_of_singleton in Hpin as ->. cbn. lia. }
    destruct Hp2 as [Hp2 Hp1]. destruct (lookup_lt_is_Some_2 (done ++ [s]) p.1 Hp1) as [i Hi].
    unfold agrees, doc_of, slot. rewrite list_lookup_fmap, Hi. cbn. by rewrite Hp2. }
  destruct (add_ok (wrap c <$> (done ++ [s])) L x rest (length done, -1) Hag Ho) as (q & L1 & Hadd & Ho1 & Hp1).
  cbn [fst] in Hadd. rewrite Hadd. cbn [rbind].
  assert (Hlen : length (q :: L1) = (length L + 1)%nat) by (rewrite (Permutation_length Hp1), length_app; done).
  rewrite <- Hlen. destruct (IH (done ++ [s]) (q :: L1) rest) as (L' & He & Ho' & Hp' & Hd').
  { by rewrite <- app_assoc. } { done. }
  { rewrite Hp1, fmap_app, Hp. rewrite length_app, seq_app. done. }
  { rewrite Hp1. apply Forall_app. split; [done|by repeat constructor]. }
  { simpl in Hl. lia. }
  rewrite <- app_assoc in He, Hp'. exists L'. done.
Qed.

Lemma sum_costs_ok c (its : list I) idxs : forall acc, Forall (fun i => 0 <= c i) its -> Forall (fun k => k < length its)%nat idxs ->
  0 <= acc -> acc + foldr Z.add 0 ((fun k => match its !! k with Some i => c i | None => 0 end) <$> idxs) <= i64_MAX ->
  exists r, sum_costs (wrap c <$> its) acc idxs = Ok r.
Proof.
  induction idxs as [|k idxs IH]; intros acc Hc Hk Ha Hs; [by exists acc|]. cbn [sum_costs]. inversion_clear Hk as [|? ? Hk1 Hk2].
  destruct (lookup_lt_is_Some_2 its k Hk1) as [i Hi]. rewrite list_lookup_fmap, Hi. cbn [option_fmap option_map fmap].
  cbn in Hs. rewrite Hi in Hs. cbn [wrap DisiWrapper.cost]. unfold wrap at 1. cbn [DisiWrapper.cost].
  assert (0 <= c i) by (eapply Forall_lookup_1 in Hc; eauto).
  assert (Hpos : 0 <= foldr Z.add 0 ((fun k => match its !! k with Some i => c i | None => 0 end) <$> idxs)).
  { clear -Hc. induction idxs as [|k idxs IH]; cbn; [lia|]. destruct (its !! k) as [j|] eqn:E; [|lia].
    eapply Forall_lookup_1 in Hc; [|exact E]. lia. }
  destruct (Z.ltb_spec (acc + c i) (- 2 ^ 63)); [lia|]. destruct (Z.ltb_spec i64_MAX (acc + c i)); [lia|]. cbn [orb].
  apply IH; auto; lia.
Qed.

Lemma sum_weights_ok (tp : I -> bool) c (its : list I) idxs : forall acc has, Forall (fun k => k < length its)%nat idxs ->
  0 <= acc -> acc + foldr Z.add 0 ((fun k => match its !! k with Some i => Z.max 1 (c i) | None => 0 end) <$> idxs) <= i64_MAX ->
  exists r, sum_weights tp (wrap c <$> its) idxs acc has = Ok (r, existsb (fun k => match its !! k with Some i => tp i | None => false end) idxs || has).
Proof.
  induction idxs as [|k idxs IH]; intros acc has Hk Ha Hs; [by exists acc|]. cbn [sum_weights existsb]. inversion_clear Hk as [|? ? Hk1 Hk2].
  destruct (lookup_lt_is_Some_2 its k Hk1) as [i Hi]. unfold slot. rewrite list_lookup_fmap, Hi. cbn [option_fmap option_map fmap rbind].
  cbn in Hs. rewrite Hi in Hs. change (DisiWrapper.cost (wrap c i)) with (c i). change (DisiWrapper.scorer (wrap c i)) with i.
  assert (Hpos : 0 <= foldr Z.add 0 ((fun k => match its !! k with Some i => Z.max 1 (c i) | None => 0 end) <$> idxs)).
  { clear. induction idxs as [|k idxs IH]; cbn; [lia|]. destruct (its !! k); lia. }
  replace (if c i <=? 1 then 1 else c i) with (Z.max 1 (c i)) by (destruct (Z.leb_spec (c i) 1); lia).
  rewrite exact_s_ok by (unfold in_s, i64_MAX in *; lia). cbn [rbind].
  destruct (IH (acc + Z.max 1 (c i)) (tp i || has)) as (r & ->); [done|lia|lia|]. exists r. do 2 f_equal.
  by rewrite orb_assoc, (orb_comm _ (tp i)).
Qed.

Lemma sum_perm (l l' : list Z) : l ≡ₚ l' -> foldr Z.add 0 l = foldr Z.add 0 l'.
Proof. induction 1; cbn; lia. Qed.

Lemma costs_of_seq {A} (c : I -> A) z (its : list I) :
  (fun k => match its !! k with Some i => c i | None => z end) <$> seq 0 (length its) = c <$> its.
Proof.
  apply list_eq. intros k. rewrite !list_lookup_fmap. destruct (decide (k < length its)%nat) as [Hk|Hk].
  - rewrite lookup_seq_lt by done. cbn. by destruct (lookup_lt_is_Some_2 its k Hk) as [i ->].
  - rewrite lookup_seq_ge, lookup_ge_None_2 by lia. done.
Qed.

Lemma weights_above_costs c (its : list I) : foldr Z.add 0 (c <$> its) <= foldr Z.add 0 ((fun i => Z.max 1 (c i)) <$> its).
Proof. induction its as [|i its IH]; cbn; lia. Qed.

Lemma prepare_ok tp mode c (its : list I) : (2 <= length its)%nat -> Forall (fresh c) its -> Forall (fun i => 0 <= c i) its ->
  foldr Z.add 0 ((fun i => Z.max 1 (c i)) <$> its) <= i64_MAX ->
  exists d, prepare tp its mode = (if existsb tp its then new_two_phase d (bool_decide (mode <> CompleteNoScores)) else Ok (Approximation d)) /\
    dis_ok d /\ doc_id_ d = -1 /\ length (all_scores d) = length its /\ debug_assert_structure_unchanged d = Ok tt /\ (forall x, dis_mem d x = existsb (fun i => mem i x) its).
Proof.
  intros Hlen Hf Hc Hsum. pose proof (weights_above_costs c its) as Hwc. unfold prepare. destruct (Nat.leb_spec (length its) 1); [lia|].
  destruct (enqueue_ok c its [] [] (replicate (length its) 0%nat)) as (L & He & Ho & Hp & Hd); auto; [apply Heap.ordered_nil|by rewrite length_replicate|].
  cbn [fmap list_fmap app length] in He. change (slots [] (replicate (length its) 0%nat)) with (replicate (length its) 0%nat) in He.
  unfold DisiPriorityQueue.new. rewrite He. cbn [rbind]. unfold DisjunctionDISIApproximation.new. cbn [DisiPriorityQueue.size].
  destruct (Nat.eqb_spec (length its) 0); [lia|]. cbn [app] in Hp.
  assert (HlL : length L = length its) by (by rewrite <- (length_fmap fst L), (Permutation_length Hp), length_seq).
  assert (Hit : iter (DisiPriorityQueue.mk (length its) (slots L [])) = L.*1).
  { unfold iter, slots. cbn. rewrite app_nil_r. apply take_ge. rewrite length_fmap. lia. }
  rewrite Hit. destruct (sum_costs_ok c its L.*1 0) as (r & Hr); auto; [| | |].
  { rewrite Hp. apply Forall_forall. intros k Hk%elem_of_seq. lia. } { lia. }
  { rewrite (sum_perm _ ((fun k => match its !! k with Some i => c i | None => 0 end) <$> seq 0 (length its))) by by rewrite Hp.
    rewrite costs_of_seq. lia. }
  rewrite Hr. cbn [rbind]. rewrite length_fmap.
  destruct (sum_weights_ok tp c its L.*1 0 false) as (sum & Hsw).
  { rewrite Hp. apply Forall_forall. intros k Hk%elem_of_seq. lia. } { lia. }
  { rewrite (sum_perm _ ((fun k => match its !! k with Some i => Z.max 1 (c i) | None => 0 end) <$> seq 0 (length its))) by by rewrite Hp.
    rewrite (costs_of_seq (fun i => Z.max 1 (c i))). lia. }
  destruct L as [|p L]; [simpl in HlL; lia|]. set (d := DisjunctionDISIApproximation.mk _ _ _ _ _).
  assert (Hst : debug_assert_structure_unchanged d = Ok tt) by (unfold debug_assert_structure_unchanged, d; cbn; by rewrite length_fmap, !Nat.eqb_refl).
  exists d. split.
  { rewrite Hst. cbn [rbind]. cbn [d all_scores sub_iterators]. rewrite Hit, Hsw. cbn [rbind].
    rewrite orb_false_r, (existsb_perm _ _ _ Hp).
    rewrite <- (existsb_fmap (fun b => b) (fun k => match its !! k with Some i => tp i | None => false end)), (costs_of_seq tp false).
    by rewrite (existsb_fmap (fun b => b) tp). }
  assert (Hh : holds d (p :: L) []).
  { constructor; cbn; auto.
    - by rewrite <- HlL.
    - change (NoDup (p :: L).*1). rewrite Hp. apply NoDup_seq.
    - apply Forall_forall. intros q Hq. assert (Hin : q.1 ∈ (p :: L).*1) by by apply list_elem_of_fmap_2.
      rewrite Hp in Hin. apply elem_of_seq in Hin. destruct (lookup_lt_is_Some_2 its q.1) as [i Hi]; [lia|].
      exists (wrap c i). rewrite list_lookup_fmap, Hi. eapply Forall_forall in Hd; [|exact Hq]. cbn in Hd.
      eapply Forall_lookup_1 in Hf as (Hok & Hid & _); [|exact Hi]. rewrite Hd. done.
    - by rewrite length_fmap. }
  inversion_clear Hd as [|? ? Hp2 HdL]. split; [|split; [by rewrite (doc_id_ok _ _ _ _ Hh)|split; [cbn; by rewrite length_fmap|split; [exact Hst|]]]].
  - exists p, L, []. split; [done|]. intros q x Hq Hx. apply elem_of_cons in Hq as [->|Hq]; [lia|].
    eapply Forall_forall in HdL; [|exact Hq]. lia.
  - intros x. rewrite (dis_mem_nodes _ _ _ _ Hh), (existsb_perm _ _ _ Hp). cbn [all_scores d].
    apply eq_true_iff_eq. rewrite !existsb_exists. split.
    + intros (k & Hk%list_elem_of_In%elem_of_seq & Hm). destruct (lookup_lt_is_Some_2 its k) as [i Hi]; [lia|].
      unfold mem_of in Hm. rewrite list_lookup_fmap, Hi in Hm. exists i. split; [|done]. apply list_elem_of_In. by eapply list_elem_of_lookup_2.
    + intros (i & Hi%list_elem_of_In & Hm). apply list_elem_of_lookup_1 in Hi as [k Hi]. exists k. split.
      * apply list_elem_of_In, elem_of_seq. apply lookup_lt_Some in Hi. lia.
      * unfold mem_of. by rewrite list_lookup_fmap, Hi.
Qed.

Lemma new_two_phase_ok (d : DisjunctionDISIApproximation.t I) scores : (0 < length (all_scores d))%nat ->
  debug_assert_structure_unchanged d = Ok tt ->
  new_two_phase d scores = if i32_MAX <=? Z.of_nat (length (all_scores d)) then Err IllegalArgument
    else Ok (TwoPhase d None (PriorityQueue.mk 0 (length (all_scores d)) (replicate (length (all_scores d) + 1) None)) scores).
Proof.
  intros Hpos Hst. unfold new_two_phase. rewrite Hst. cbn [rbind]. unfold  PriorityQueue.new, PriorityQueue.with_sentinel_object, PriorityQueue.heap_size.
  destruct (Nat.eqb_spec (length (all_scores d)) 0); [lia|]. cbn [negb andb].
  rewrite Z.leb_antisym. by destruct (Z.of_nat (length (all_scores d)) <? i32_MAX).
Qed.

(** C11: Of fewer than two scorers no disjunction is prepared. Of two or more that have not
    moved, whose costs counted at least one each have a sum within [i64], [prepare] answers the
    approximation itself when none of them is two-phase, and otherwise the two-phase iterator
    that holds the approximation, nothing verified, an empty queue of unverified wrappers and
    whether scores are needed, refused when there are [i32::MAX] scorers or more. Listing
    this approximation gives, ascending and once each, exactly the documents of the scorers'
    iterators: the documents the scorers match when none is two-phase, and otherwise those
    left to confirm. *)
Theorem disjunction_lists_union (tp : I -> bool) mode c (its : list I) : Forall (fresh c) its -> Forall (fun i => 0 <= c i) its ->
  foldr Z.add 0 ((fun i => Z.max 1 (c i)) <$> its) <= i64_MAX ->
  if (length its <=? 1)%nat then prepare tp its mode = Err IllegalArgument
  else exists d docs d',
    prepare tp its mode
      = (if existsb tp its
         then if i32_MAX <=? Z.of_nat (length its) then Err IllegalArgument
              else Ok (TwoPhase d None (PriorityQueue.mk 0 (length its) (replicate (length its + 1) None)) (bool_decide (mode <> CompleteNoScores)))
         else Ok (Approximation d))
    /\ collect d = (Ok docs, d') /\ StronglySorted Z.lt docs
    /\ forall x, x ∈ docs <-> -1 < x < NO_MORE_DOCS /\ exists i, i ∈ its /\ mem i x = true.
Proof.
  intros Hf Hc Hs. destruct (Nat.leb_spec (length its) 1) as [Hle|Hgt].
  { unfold prepare. destruct (Nat.leb_spec (length its) 1); [done|lia]. }
  destruct (prepare_ok tp mode c its) as (d & Hp & Hok & Hid & Hlen & Hst & Hm); auto.
  rewrite new_two_phase_ok, Hlen in Hp by (lia || done). destruct (collect_ok d) as (docs & d' & Hcol & _ & _ & Hsort & Hdocs); [done|cbn; rewrite Hid; done|].
  exists d, docs, d'. split_and!; auto. intros x. rewrite Hdocs. cbn. rewrite Hid, Hm, existsb_exists.
  split; intros [Hx (i & Hi & Hmi)]; (split; [done|]); exists i; (split; [by apply list_elem_of_In|done]).
Qed.

(** C36: On a sound disjunction, [next_doc] and [advance] return, on the first document of any
    of its scorers after the current one, respectively from the target on, and leave the
    disjunction sound. *)
Theorem disjunction_moves_to_next_match (d : DisjunctionDISIApproximation.t I) target : dis_ok d ->
  0 <= target -> doc_id_ d < target <= NO_MORE_DOCS ->
  (exists d', next_doc_ d = (Ok (doc_id_ d'), d') /\ dis_ok d' /\ first_at (dis_mem d) (doc_id_ d + 1) (doc_id_ d')) /\
  (exists d', advance_ target d = (Ok (doc_id_ d'), d') /\ dis_ok d' /\ first_at (dis_mem d) target (doc_id_ d')).
Proof.
  intros Hok Hpos Ht. split.
  - destruct (dis_next d Hok ltac:(lia)) as (d' & ? & ? & _ & ?). eauto.
  - destruct (dis_advance d target Hok Hpos Ht) as (d' & ? & ? & _ & ?). eauto.
Qed.
End Listing.

(** ** Concrete disjunctions *)

Definition range_cost (i : RangeDISI.t) : Z := RangeDISI.max_doc i - RangeDISI.min_doc i.
Definition sample_ranges : list RangeDISI.t :=
  [RangeDISI.mk (-1) 7 9; RangeDISI.mk (-1) 2 4; RangeDISI.mk (-1) 3 6].

Lemma sample_ranges_fresh : Forall (fresh range_cost) sample_ranges.
Proof. repeat constructor; cbn; unfold range_ok, NO_MORE_DOCS, i32_MAX; cbn; lia. Qed.

Lemma sample_costs : Forall (fun i => 0 <= range_cost i) sample_ranges.
Proof. repeat (apply Forall_cons_2; [vm_compute; congruence|]). apply Forall_nil_2. Qed.

Lemma sample_weights : foldr Z.add 0 ((fun i => Z.max 1 (range_cost i)) <$> sample_ranges) <= i64_MAX.
Proof. vm_compute. congruence. Qed.

(** The scorer of the documents 3 to 5 has to be asked to confirm them. *)
Definition sample_two_phase (i : RangeDISI.t) : bool := RangeDISI.min_doc i =? 3.

Lemma disjunction_lists_union_witness :
  (exists d docs d', prepare (fun _ => false) sample_ranges CompleteNoScores = Ok (Approximation d) /\ collect d = (Ok docs, d')
    /\ StronglySorted Z.lt docs /\ forall x, x ∈ docs <-> -1 < x < NO_MORE_DOCS /\ exists i, i ∈ sample_ranges /\ mem i x = true) /\
  (exists d docs d', prepare sample_two_phase sample_ranges Complete
      = Ok (TwoPhase d None (PriorityQueue.mk 0 3 [None; None; None; None]) true) /\ collect d = (Ok docs, d')
    /\ StronglySorted Z.lt docs /\ forall x, x ∈ docs <-> -1 < x < NO_MORE_DOCS /\ exists i, i ∈ sample_ranges /\ mem i x = true).
Proof.
  split.
  - exact (disjunction_lists_union (fun _ => false) CompleteNoScores range_cost sample_ranges sample_ranges_fresh sample_costs sample_weights).
  - exact (disjunction_lists_union sample_two_phase Complete range_cost sample_ranges sample_ranges_fresh sample_costs sample_weights).
Defined.

(** The union, computed. *)
Example union_runs : (let? p := prepare (fun _ => false) sample_ranges TopScores in
    match p with Approximation d => fst (collect d) | _ => Panic end) = Ok [2; 3; 4; 5; 7; 8].
Proof. vm_compute. reflexivity. Qed.

(** A scorer whose cost is given with it. *)
Module Priced.
Record t : Type := mk { price : Z; range : RangeDISI.t }.
#[global] Instance priced_disi : DocIdSetIterator t := {|
  doc_id p := doc_id (range p);
  next_doc p := let '(r, i) := next_doc (range p) in (r, mk (price p) i);
  advance target p := let '(r, i) := advance target (range p) in (r, mk (price p) i);
  Disi.cost p := Ok (price p)
|}.
End Priced.

(** The weights are added as [i64]: a scorer without documents beside one whose cost is the
    largest [i64] overflows the sum. *)
Example weights_overflow :
  prepare (fun _ => false) [Priced.mk i64_MAX (RangeDISI.mk (-1) 2 4); Priced.mk 0 (RangeDISI.mk (-1) 0 0)] Complete = Panic.
Proof. vm_compute. reflexivity. Qed.

Definition sample_disjunction : DisjunctionDISIApproximation.t RangeDISI.t :=
  Eval vm_compute in match prepare (fun _ => false) sample_ranges Complete with
                     | Ok (Approximation d) => d
                     | _ => DisjunctionDISIApproximation.mk [] (DisiPriorityQueue.mk 0 []) 0 0 0
                     end.

Lemma sample_disjunction_ok : dis_ok sample_disjunction.
Proof.
  destruct (prepare_ok (fun _ => false) Complete range_cost sample_ranges) as (d & Hp & Hok & _).
  { cbn. lia. } { exact sample_ranges_fresh. } { exact sample_costs. } { exact sample_weights. }
  vm_compute in Hp. injection Hp as <-. exact Hok.
Qed.

Lemma disjunction_moves_to_next_match_witness :
  (exists d', next_doc_ sample_disjunction = (Ok (doc_id_ d'), d') /\ dis_ok d'
     /\ first_at (dis_mem sample_disjunction) (doc_id_ sample_disjunction + 1) (doc_id_ d')) /\
  (exists d', advance_ 6 sample_disjunction = (Ok (doc_id_ d'), d') /\ dis_ok d'
     /\ first_at (dis_mem sample_disjunction) 6 (doc_id_ d')).
Proof.
  apply (disjunction_moves_to_next_match sample_disjunction 6); [exact sample_disjunction_ok|lia|].
  vm_compute. split; congruence.
Defined.
End Disjunction.

(** * The wrappers on the current document *)
Module TopList.
Import DisiPriorityQueue DisiQueueProofs.
Local Open Scope nat_scope.

Definition next_of {I : Type} (ws : list (DisiWrapper.t I)) (i : nat) : option (option nat) := DisiWrapper.next <$> ws !! i.

(** [V] is the list linked from its first wrapper. *)
Fixpoint chain {I : Type} (ws : list (DisiWrapper.t I)) (V : list nat) : Prop :=
  match V with
  | [] => False
  | [i] => next_of ws i = Some None
  | i :: (j :: _) as V' => next_of ws i = Some (Some j) /\ chain ws V'
  end.

(** Walking it. *)
Fixpoint walk {I : Type} (fuel : nat) (ws : list (DisiWrapper.t I)) (i : nat) : list nat :=
  match fuel with
  | O => []
  | S fuel =>
      i :: match ws !! i with
           | Some w => match DisiWrapper.next w with Some j => walk fuel ws j | None => [] end
           | None => []
           end
  end.

Lemma chain_walk {I : Type} (ws : list (DisiWrapper.t I)) i V : forall fuel, chain ws (i :: V) -> S (length V) <= fuel ->
  walk fuel ws i = i :: V.
Proof.
  revert i. induction V as [|j V IH]; intros i fuel Hc Hf; (destruct fuel as [|fuel]; [simpl in Hf; lia|]); cbn [walk chain] in *.
  - unfold next_of in Hc. destruct (ws !! i); [|done]. cbn in Hc. injection Hc as ->. done.
  - destruct Hc as [Hn Hc]. unfold next_of in Hn. destruct (ws !! i); [|done]. cbn in Hn. injection Hn as ->.
    f_equal. apply IH; [done|simpl in Hf; lia].
Qed.

Section Visit.
Context {I : Type}.
Implicit Types (ws : list (DisiWrapper.t I)) (L : list node).

Lemma chain_other ws i w V : chain ws V -> i ∉ V -> chain (<[i := w]> ws) V.
Proof.
  induction V as [|j [|k V] IH]; [done| |]; intros Hc Hni; cbn [chain] in *; unfold next_of in *.
  - rewrite list_lookup_insert_ne; [done|]. intros ->. apply Hni. left.
  - destruct Hc as [Hn Hc]. rewrite list_lookup_insert_ne; [|intros ->; apply Hni; left]. split; [done|].
    apply IH; [done|]. intros Hin. apply Hni. by right.
Qed.

(** [ws'] differs from [ws] in links only. *)
Definition same_docs ws ws' : Prop := length ws' = length ws /\ forall i, doc_of ws' i = doc_of ws i.

Lemma same_docs_trans ws1 ws2 ws3 : same_docs ws1 ws2 -> same_docs ws2 ws3 -> same_docs ws1 ws3.
Proof. intros [H1 H2] [H3 H4]. split; [congruence|]. intros i. by rewrite H4. Qed.

Lemma set_next_ok ws i o : i < length ws -> exists ws', set_next ws i o = Ok ws' /\ same_docs ws ws'
  /\ next_of ws' i = Some o /\ (forall V, chain ws V -> i ∉ V -> chain ws' V).
Proof.
  intros Hi. destruct (lookup_lt_is_Some_2 ws i Hi) as [w Hw]. unfold set_next, slot. rewrite Hw. cbn [rbind].
  unfold set_slot. destruct (Nat.ltb_spec i (length ws)); [|lia]. eexists. split; [done|]. split_and!.
  - split; [by rewrite length_insert|]. intros j. unfold doc_of, slot. destruct (decide (i = j)) as [->|Hij].
    + rewrite list_lookup_insert_eq by done. by rewrite Hw.
    + by rewrite list_lookup_insert_ne.
  - unfold next_of. by rewrite list_lookup_insert_eq.
  - intros V Hc Hni. by apply chain_other.
Qed.

Lemma prepend_ok ws w l V : w < length ws -> chain ws (l :: V) -> w ∉ l :: V ->
  exists ws', prepend w l ws = Ok (w, ws') /\ chain ws' (w :: l :: V) /\ same_docs ws ws'.
Proof.
  intros Hw Hc Hni. destruct (set_next_ok ws w (Some l) Hw) as (ws' & Hs & Hd & Hn & Hk).
  exists ws'. unfold prepend. rewrite Hs. split; [done|]. split; [|done]. split; [done|by apply Hk].
Qed.

(** The positions [top_list] visits from position [i]: those on document [d]. *)
Context (L : list node) (d : Z).

Fixpoint vis (fuel i : nat) : list nat :=
  match fuel with
  | O => []
  | S fuel =>
      match L !! i with
      | Some p => if (p.2 =? d)%Z then i :: vis fuel (2 * i + 1) ++ vis fuel (2 * i + 2) else []
      | None => []
      end
  end.

Definition child (p c : nat) : Prop := c = 2 * p + 1 \/ c = 2 * p + 2.

Inductive desc (i : nat) : nat -> Prop :=
| desc_here : desc i i
| desc_below p c : desc i p -> child p c -> desc i c.

Lemma desc_le i n : desc i n -> i <= n.
Proof. induction 1 as [|p c _ IH [-> | ->]]; lia. Qed.

Lemma desc_top i c n : child i c -> desc c n -> desc i n.
Proof. intros Hc. induction 1 as [|p c' _ IH Hcc]; [by eapply desc_below; [apply desc_here|]|by eapply desc_below]. Qed.

Lemma vis_desc fuel : forall i n, n ∈ vis fuel i -> desc i n.
Proof.
  induction fuel as [|fuel IH]; intros i n Hn; cbn [vis] in Hn; [by apply elem_of_nil in Hn|].
  destruct (L !! i) as [p|]; [|by apply elem_of_nil in Hn]. destruct (p.2 =? d)%Z; [|by apply elem_of_nil in Hn].
  apply elem_of_cons in Hn as [->|Hn]; [apply desc_here|].
  apply elem_of_app in Hn as [Hn|Hn]; apply IH in Hn; (eapply desc_top; [|exact Hn]); [by left|by right].
Qed.

Lemma desc_linear a b n : desc a n -> desc b n -> desc a b \/ desc b a.
Proof.
  intros Ha. revert b. induction Ha as [|p c Ha IH Hc]; intros b Hb; [by right|].
  inversion Hb as [|p' c' Hb' Hc']; subst; [left; by eapply desc_below|].
  assert (p' = p) as -> by (destruct Hc, Hc'; lia). by apply IH.
Qed.

Lemma siblings_apart i n : desc (2 * i + 1) n -> desc (2 * i + 2) n -> False.
Proof.
  intros Hl Hr. destruct (desc_linear _ _ _ Hl Hr) as [Hd|Hd].
  - inversion Hd as [|p c Hp Hc]; subst; [lia|]. apply desc_le in Hp. destruct Hc; lia.
  - apply desc_le in Hd. lia.
Qed.

Lemma vis_nodup fuel : forall i, NoDup (vis fuel i).
Proof.
  induction fuel as [|fuel IH]; intros i; cbn [vis]; [constructor|]. destruct (L !! i) as [p|]; [|constructor].
  destruct (p.2 =? d)%Z; [|constructor]. apply NoDup_cons. split.
  - intros [Hn|Hn]%elem_of_app; apply vis_desc, desc_le in Hn; lia.
  - apply NoDup_app. split_and!; auto. intros n Hl%vis_desc Hr%vis_desc. by eapply siblings_apart.
Qed.

Lemma vis_here fuel i p : L !! i = Some p -> p.2 = d -> 1 <= fuel -> i ∈ vis fuel i.
Proof. intros Hp Hd Hf. destruct fuel as [|fuel]; [lia|]. cbn [vis]. rewrite Hp, Hd, Z.eqb_refl. left. Qed.

Lemma vis_doc fuel : forall i n, n ∈ vis fuel i -> exists p, L !! n = Some p /\ p.2 = d.
Proof.
  induction fuel as [|fuel IH]; intros i n Hn; cbn [vis] in Hn; [by apply elem_of_nil in Hn|].
  destruct (L !! i) as [p|] eqn:E; [|by apply elem_of_nil in Hn]. destruct (Z.eqb_spec p.2 d); [|by apply elem_of_nil in Hn].
  apply elem_of_cons in Hn as [->|[Hn|Hn]%elem_of_app]; eauto.
Qed.

Lemma vis_closed fuel : forall i n c q, length L - i <= fuel -> n ∈ vis fuel i -> child n c -> L !! c = Some q -> q.2 = d ->
  c ∈ vis fuel i.
Proof.
  induction fuel as [|fuel IH]; intros i n c q Hf Hn Hc Hq Hqd; cbn [vis] in *; [by apply elem_of_nil in Hn|].
  destruct (L !! i) as [p|] eqn:E; [|by apply elem_of_nil in Hn]. destruct (p.2 =? d)%Z; [|by apply elem_of_nil in Hn].
  pose proof (lookup_lt_Some _ _ _ Hq) as Hcl. right. apply elem_of_app.
  apply elem_of_cons in Hn as [->|[Hn|Hn]%elem_of_app].
  - destruct Hc as [-> | ->]; [left|right]; eapply vis_here; eauto; lia.
  - left. eapply (IH (2 * i + 1) n); eauto. lia.
  - right. eapply (IH (2 * i + 2) n); eauto. lia.
Qed.

Lemma vis_none fuel i : length L <= i -> vis fuel i = [].
Proof. intros Hi. destruct fuel; cbn [vis]; [done|]. by rewrite lookup_ge_None_2. Qed.

Lemma vis_leaf fuel i p : L !! i = Some p -> length L <= 2 * i + 1 -> 1 <= fuel -> vis fuel i = if (p.2 =? d)%Z then [i] else [].
Proof. intros Hp Hi Hf. destruct fuel as [|fuel]; [lia|]. cbn [vis]. rewrite Hp. by rewrite !vis_none by lia. Qed.

(** ** What [top_list] links *)

Definition ix (k : nat) : nat := match L !! k with Some p => p.1 | None => 0 end.

(** The list so far: the positions [K], all on [d], linked through their wrappers. *)
Record linked ws (K : list nat) : Prop := {
  l_chain : chain ws (ix <$> K);
  l_nodup : NoDup K;
  l_docs : Forall (fun n => exists p, L !! n = Some p /\ p.2 = d) K;
  l_agrees : Forall (agrees ws) L;
}.

Lemma linked_doc ws k K : linked ws (k :: K) -> doc_of ws (ix k) = Ok d.
Proof.
  intros Hl. pose proof (l_docs _ _ Hl) as Hd. inversion_clear Hd as [|? ? (p & Hp & <-) _]. unfold ix. rewrite Hp.
  pose proof (l_agrees _ _ Hl) as Ha. by eapply Forall_lookup_1 in Ha.
Qed.

Hypothesis distinct : NoDup L.*1.

Lemma ix_inj i j p q : L !! i = Some p -> L !! j = Some q -> p.1 = q.1 -> i = j.
Proof.
  intros Hi Hj E. eapply NoDup_lookup; [exact distinct| |]; rewrite list_lookup_fmap; [rewrite Hi|rewrite Hj]; cbn; [done|by rewrite E].
Qed.

Lemma agrees_same ws ws' : same_docs ws ws' -> Forall (agrees ws) L -> Forall (agrees ws') L.
Proof. intros [_ Hd] Ha. eapply Forall_impl; [exact Ha|]. intros p Hp. unfold agrees in *. by rewrite Hd. Qed.

Lemma link_ok ws k K i p : linked ws (k :: K) -> L !! i = Some p -> p.2 = d -> i ∉ k :: K ->
  exists ws', prepend p.1 (ix k) ws = Ok (p.1, ws') /\ linked ws' (i :: k :: K) /\ same_docs ws ws'.
Proof.
  intros Hl Hp Hd Hni. destruct (prepend_ok ws p.1 (ix k) (ix <$> K)) as (ws' & Hpre & Hc & Hsd).
  - pose proof (l_agrees _ _ Hl) as Ha. eapply Forall_lookup_1 in Ha; [|exact Hp]. unfold agrees, doc_of, slot in Ha.
    destruct (ws !! p.1) eqn:E; [by eapply lookup_lt_Some|done].
  - exact (l_chain _ _ Hl).
  - change (ix k :: (ix <$> K)) with (ix <$> k :: K). intros (n & Hn & Hin)%list_elem_of_fmap_1. apply Hni.
    pose proof (l_docs _ _ Hl) as Hf. eapply Forall_forall in Hf as (q & Hq & _); [|exact Hin].
    unfold ix in Hn. rewrite Hq in Hn. by rewrite (ix_inj i n p q).
  - exists ws'. split; [done|]. split; [|done]. constructor.
    + change (ix <$> i :: k :: K) with (ix i :: ix k :: (ix <$> K)). unfold ix at 1. rewrite Hp. exact Hc.
    + apply NoDup_cons. split; [done|apply (l_nodup _ _ Hl)].
    + constructor; [eauto|apply (l_docs _ _ Hl)].
    + eapply agrees_same; [exact Hsd|apply (l_agrees _ _ Hl)].
Qed.

Lemma top_list_ok rest fuel : forall i k K ws, i < length L -> length L - i <= fuel -> linked ws (k :: K) ->
  (forall n, desc i n -> n ∉ k :: K) ->
  exists k' K' ws', top_list fuel (ix k) (slots L rest) ws (length L) i = Ok (ix k', ws')
    /\ k' :: K' = rev (vis fuel i) ++ k :: K /\ linked ws' (k' :: K') /\ same_docs ws ws'.
Proof.
  induction fuel as [|fuel IH]; intros i k K ws Hi Hf Hl Hdis; [lia|]. cbn [top_list vis].
  destruct (lookup_lt_is_Some_2 L i Hi) as [p Hp]. rewrite Hp, (slot_slots _ _ _ _ Hp). cbn [rbind].
  pose proof (l_agrees _ _ Hl) as Ha. pose proof (proj1 (Forall_lookup _ _) Ha _ _ Hp) as Hag. unfold agrees in Hag.
  rewrite Hag. cbn [rbind]. rewrite (linked_doc _ _ _ Hl). cbn [rbind].
  destruct (Z.eqb_spec p.2 d) as [Hpd|Hpd]; [|exists k, K, ws; split_and!; auto; by split].
  destruct (link_ok ws k K i p Hl Hp Hpd) as (ws1 & Hpre & Hl1 & Hs1); [apply Hdis, desc_here|].
  rewrite Hpre. cbn [rbind]. unfold left_node. replace ((i + 1) * 2 - 1) with (2 * i + 1) by lia.
  replace (2 * i + 1 + 1) with (2 * i + 2) by lia. assert (Hixi : p.1 = ix i) by (unfold ix; by rewrite Hp).
  assert (Hsub : forall c n, child i c -> desc c n -> n ∉ i :: k :: K).
  { intros c n Hc Hn [->|Hin]%elem_of_cons; [apply desc_le in Hn; destruct Hc; lia|].
    apply (Hdis n); [by eapply desc_top|done]. }
  destruct (Nat.ltb_spec (2 * i + 2) (length L)) as [Hr|Hr]; [|destruct (Nat.ltb_spec (2 * i + 1) (length L)) as [Hle|Hge]].
  - rewrite Hixi. destruct (IH (2 * i + 1) i (k :: K) ws1) as (k2 & K2 & ws2 & Ht2 & E2 & Hl2 & Hs2); [lia|lia|done|intros n Hn; apply (Hsub (2 * i + 1)); [by left|done]|].
    rewrite Ht2. cbn [rbind].
    destruct (IH (2 * i + 2) k2 K2 ws2) as (k3 & K3 & ws3 & Ht3 & E3 & Hl3 & Hs3); [lia|lia|done| |].
    { rewrite E2. intros n Hn [Hin|Hin]%elem_of_app; [|apply (Hsub (2 * i + 2) n); [by right|done|done]].
      apply list_elem_of_In, in_rev, list_elem_of_In, vis_desc in Hin. by eapply siblings_apart. }
    exists k3, K3, ws3. split_and!; auto.
    + rewrite E3, E2. cbn [rev]. by rewrite rev_app_distr, <- !app_assoc.
    + eapply same_docs_trans; [exact Hs1|]. by eapply same_docs_trans.
  - destruct (lookup_lt_is_Some_2 L (2 * i + 1) Hle) as [q Hq]. rewrite (slot_slots _ _ _ _ Hq). cbn [rbind].
    pose proof (proj1 (Forall_lookup _ _) (l_agrees _ _ Hl1) _ _ Hq) as Hagq. unfold agrees in Hagq. rewrite Hagq. cbn [rbind].
    rewrite Hixi, (linked_doc _ _ _ Hl1). cbn [rbind]. rewrite (vis_none fuel (2 * i + 2)) by lia.
    rewrite (vis_leaf fuel (2 * i + 1) q Hq) by lia. destruct (Z.eqb_spec q.2 d) as [Hqd|Hqd].
    + destruct (link_ok ws1 i (k :: K) (2 * i + 1) q Hl1 Hq Hqd) as (ws2 & Hpre2 & Hl2 & Hs2).
      { apply (Hsub (2 * i + 1)); [by left|apply desc_here]. }
      exists (2 * i + 1), (i :: k :: K), ws2. rewrite Hpre2. unfold ix at 1. rewrite Hq. split_and!; auto. by eapply same_docs_trans.
    + exists i, (k :: K), ws1. split_and!; auto.
  - exists i, (k :: K), ws1. rewrite !vis_none by lia. rewrite Hixi. split_and!; auto.
Qed.

(** From the root: every position on [d] and no other. *)
Definition current (fuel : nat) : list nat := rev (vis fuel 2) ++ rev (vis fuel 1) ++ [0].

Hypothesis ordered_L : ordered L.

Lemma parent_doc p0 n q : L !! 0 = Some p0 -> p0.2 = d -> L !! n = Some q -> q.2 = d -> 1 <= n ->
  exists m, child m n /\ exists p, L !! m = Some p /\ p.2 = d.
Proof.
  intros Hp0 Hd0 Hq Hqd Hn. exists ((n - 1) / 2). pose proof (Nat.div_mod (n - 1) 2 ltac:(lia)) as Hdm.
  pose proof (Nat.mod_upper_bound (n - 1) 2 ltac:(lia)) as Hub. set (m := (n - 1) / 2) in *. clearbody m.
  pose proof (lookup_lt_Some _ _ _ Hq) as Hnl. split; [unfold child; lia|].
  destruct (lookup_lt_is_Some_2 L m) as [p Hp]; [lia|]. exists p. split; [done|].
  assert (Hmin : (p0.2 <= p.2)%Z).
  { pose proof (Heap.ordered_min before L p0 ordered_L Hp0) as Hf. eapply Forall_lookup_1 in Hf; [|exact Hp].
    unfold Heap.le, before in Hf. by apply Z.ltb_ge in Hf. }
  assert (Hle : Heap.le before p q).
  { assert (E : (n + 1) / 2 = m + 1).
    { replace (n + 1) with ((m + 1) * 2 + (n - 1) mod 2) by lia. rewrite Nat.div_add_l by lia. rewrite (Nat.div_small ((n - 1) mod 2)) by lia. lia. }
    apply (ordered_L (n + 1)); [lia|lia| |]; rewrite ?E; rewrite Heap.at_pos by lia.
    - by replace (m + 1 - 1) with m by lia.
    - by replace (n + 1 - 1) with n by lia. }
  unfold Heap.le, before in Hle. apply Z.ltb_ge in Hle. lia.
Qed.

Lemma elem_of_current fuel n : n ∈ current fuel <-> n ∈ vis fuel 2 \/ n ∈ vis fuel 1 \/ n = 0.
Proof.
  unfold current. rewrite !elem_of_app, list_elem_of_singleton.
  assert (Hr : forall l : list nat, n ∈ rev l <-> n ∈ l) by (intros l; rewrite !list_elem_of_In; symmetry; apply in_rev).
  by rewrite !Hr.
Qed.

Lemma current_complete p0 fuel n q : L !! 0 = Some p0 -> p0.2 = d -> length L - 1 <= fuel -> L !! n = Some q -> q.2 = d -> n ∈ current fuel.
Proof.
  intros Hp0 Hd0 Hf. revert q. induction (lt_wf n) as [n _ IH]. intros q Hq Hqd. apply elem_of_current.
  destruct (decide (n = 0)) as [->|Hn]; [by right; right|]. pose proof (lookup_lt_Some _ _ _ Hq) as Hnl.
  destruct (parent_doc p0 n q Hp0 Hd0 Hq Hqd ltac:(lia)) as (m & Hc & p & Hp & Hpd).
  assert (Hlt : m < n) by (destruct Hc; lia). specialize (IH m Hlt p Hp Hpd). apply elem_of_current in IH as [IH|[IH| ->]].
  - left. eapply vis_closed; [|exact IH|exact Hc|exact Hq|exact Hqd]. lia.
  - right. left. eapply vis_closed; [|exact IH|exact Hc|exact Hq|exact Hqd]. lia.
  - destruct Hc as [-> | ->]; [right; left|left]; eapply vis_here; eauto; lia.
Qed.

Lemma current_sound p0 fuel n : L !! 0 = Some p0 -> p0.2 = d -> n ∈ current fuel -> exists p, L !! n = Some p /\ p.2 = d.
Proof. intros Hp0 Hd0 [Hn|[Hn| ->]]%elem_of_current; [by eapply vis_doc|by eapply vis_doc|eauto]. Qed.

Lemma current_wrappers ws p0 fuel : L !! 0 = Some p0 -> p0.2 = d -> length L - 1 <= fuel -> linked ws (current fuel) ->
  ix <$> current fuel ≡ₚ (filter (fun p => p.2 = d) L).*1.
Proof.
  intros Hp0 Hd0 Hf Hl. apply NoDup_Permutation.
  - apply NoDup_fmap_2_strong; [|apply (l_nodup _ _ Hl)]. intros x y Hx Hy.
    apply (current_sound p0) in Hx as (p & Hp & _); [|done|done]. apply (current_sound p0) in Hy as (q & Hq & _); [|done|done].
    unfold ix. rewrite Hp, Hq. by apply ix_inj.
  - eapply sublist_NoDup; [exact distinct|]. apply fmap_sublist, sublist_filter.
  - intros j. rewrite !list_elem_of_fmap. split.
    + intros (n & -> & Hn). apply (current_sound p0) in Hn as (p & Hp & Hpd); [|done|done].
      exists p. unfold ix. rewrite Hp. split; [done|]. apply list_elem_of_filter. split; [done|]. by eapply list_elem_of_lookup_2.
    + intros (p & -> & (Hpd & Hin)%list_elem_of_filter). apply list_elem_of_lookup_1 in Hin as [n Hn].
      exists n. split; [unfold ix; by rewrite Hn|]. by eapply current_complete.
Qed.

Lemma top_list_root_ok ws p0 rest : L !! 0 = Some p0 -> p0.2 = d -> Forall (agrees ws) L ->
  exists r ws', top_list_root ws (DisiPriorityQueue.mk (length L) (slots L rest)) = Ok (r, ws')
    /\ walk (length L) ws' r ≡ₚ (filter (fun p => p.2 = d) L).*1 /\ same_docs ws ws'.
Proof.
  intros Hp0 Hd0 Ha. pose proof (lookup_lt_Some _ _ _ Hp0) as Hlen.
  assert (Hlink : exists k K ws', top_list_root ws (DisiPriorityQueue.mk (length L) (slots L rest)) = Ok (ix k, ws')
    /\ k :: K = current (length L) /\ linked ws' (k :: K) /\ same_docs ws ws').
  { unfold top_list_root. cbn [DisiPriorityQueue.size DisiPriorityQueue.heap].
    rewrite (slot_slots _ _ _ _ Hp0). cbn [rbind]. destruct (set_next_ok ws p0.1 None) as (ws1 & Hs & Hsd & Hn & _).
    { pose proof (proj1 (Forall_lookup _ _) Ha _ _ Hp0) as Hag. unfold agrees, doc_of, slot in Hag.
      destruct (ws !! p0.1) eqn:E; [by eapply lookup_lt_Some|done]. }
    rewrite Hs. cbn [rbind]. assert (Hix : p0.1 = ix 0) by (unfold ix; by rewrite Hp0).
    assert (Hl1 : linked ws1 [0]).
    { constructor; [cbn; by rewrite <- Hix|apply NoDup_singleton|constructor; [eauto|constructor]|by eapply agrees_same]. }
    assert (Hroot : forall i n, 1 <= i -> desc i n -> n ∉ [0]).
    { intros i n Hi Hdn ->%list_elem_of_singleton. apply desc_le in Hdn. lia. }
    unfold current. destruct (Nat.leb_spec 3 (length L)) as [H3|H3].
    - rewrite Hix. destruct (top_list_ok rest (length L) 1 0 [] ws1) as (k2 & K2 & ws2 & Ht2 & E2 & Hl2 & Hs2);
        [lia|lia|done|intros n Hdn; apply (Hroot 1 n); [lia|done]|]. rewrite Ht2. cbn [rbind].
      destruct (top_list_ok rest (length L) 2 k2 K2 ws2) as (k3 & K3 & ws3 & Ht3 & E3 & Hl3 & Hs3); [lia|lia|done| |].
      { rewrite E2. intros n Hdn [Hin|Hin]%elem_of_app; [|apply (Hroot 2 n); [lia|done|done]].
        apply list_elem_of_In, in_rev, list_elem_of_In, vis_desc in Hin. by eapply (siblings_apart 0). }
      exists k3, K3, ws3. split_and!; auto; [by rewrite E3, E2|].
      eapply same_docs_trans; [exact Hsd|]. by eapply same_docs_trans.
    - rewrite (vis_none (length L) 2) by lia. destruct (Nat.eqb_spec (length L) 2) as [H2|H2].
      + destruct (lookup_lt_is_Some_2 L 1) as [q Hq]; [lia|]. rewrite (slot_slots _ _ _ _ Hq). cbn [rbind].
        pose proof (proj1 (Forall_lookup _ _) (l_agrees _ _ Hl1) _ _ Hq) as Hag. unfold agrees in Hag. rewrite Hag. cbn [rbind].
        rewrite Hix, (linked_doc _ _ _ Hl1). cbn [rbind]. rewrite (vis_leaf (length L) 1 q Hq) by lia.
        destruct (Z.eqb_spec q.2 d) as [Hqd|Hqd]; [|by exists 0, [], ws1].
        destruct (link_ok ws1 0 [] 1 q Hl1 Hq Hqd) as (ws2 & Hpre & Hl2 & Hs2); [by intros ?%list_elem_of_singleton|].
        exists 1, [0], ws2. rewrite Hpre. unfold ix at 1. rewrite Hq. split_and!; auto. by eapply same_docs_trans.
      + exists 0, [], ws1. rewrite (vis_none (length L) 1) by lia. by rewrite Hix. }
  destruct Hlink as (k & K & ws' & Hr & E & Hl & Hs). exists (ix k), ws'. split; [done|]. split; [|done].
  rewrite E in Hl. pose proof (current_wrappers ws' p0 (length L) Hp0 Hd0 ltac:(lia) Hl) as Hperm.
  rewrite <- E in Hperm, Hl. pose proof (l_chain _ _ Hl) as Hc. cbn [fmap list_fmap] in Hc.
  rewrite (chain_walk ws' (ix k) (ix <$> K)); [exact Hperm|exact Hc|].
  apply Permutation_length in Hperm. cbn in Hperm. rewrite Hperm, length_fmap. apply length_filter.
Qed.
End Visit.

(** [top_list_root] links exactly the wrappers that are on the current document: from the
    wrapper it answers, the [next] links run through each of them once and end. *)
Theorem top_list_links_current {I : Type} (ws : list (DisiWrapper.t I)) (p : nat * Z) (L : list (nat * Z)) rest :
  Forall (agrees ws) (p :: L) -> NoDup (p :: L).*1 -> ordered (p :: L) ->
  exists r ws', top_list_root ws (DisiPriorityQueue.mk (S (length L)) (slots (p :: L) rest)) = Ok (r, ws')
    /\ walk (S (length L)) ws' r ≡ₚ (filter (fun q => q.2 = p.2) (p :: L)).*1
    /\ (forall i, doc_of ws' i = doc_of ws i).
Proof.
  intros Ha Hnd Ho. destruct (top_list_root_ok (p :: L) p.2 Hnd Ho ws p rest eq_refl eq_refl Ha) as (r & ws' & Hr & Hw & [_ Hd]).
  by exists r, ws'.
Qed.

(** C37: The queue keeps its wrappers by document: [add] and [add_all] put wrappers in with the
    heap order kept, [pop] takes out one whose document no other precedes, and none of them
    loses or repeats a wrapper. *)
Theorem queue_operations_correct {I : Type} (ws : list (DisiWrapper.t I)) p L x rest e E entries offset :
  Forall (agrees ws) (p :: L ++ e :: E) -> ordered (p :: L) -> length E <= S (length rest) -> E <> [] ->
  take (length E) (drop offset entries) = E.*1 ->
  let q := DisiPriorityQueue.mk (S (length L)) (slots (p :: L) (x :: rest)) in
  (exists top L', add e.1 ws q = Ok (top.1, DisiPriorityQueue.mk (S (S (length L))) (slots (top :: L') rest))
     /\ ordered (top :: L') /\ top :: L' ≡ₚ e :: p :: L) /\
  (exists L' rest', add_all entries offset (length E) ws q
       = Ok (DisiPriorityQueue.mk (S (length L) + length E) (slots L' rest'))
     /\ ordered L' /\ L' ≡ₚ (p :: L) ++ E) /\
  (exists L' rest', pop ws q = Ok (p.1, DisiPriorityQueue.mk (length L) (slots L' rest'))
     /\ ordered L' /\ L' ≡ₚ L /\ Forall (fun r => (p.2 <= r.2)%Z) L).
Proof.
  intros Ha Ho Hl Hne Hen q. pose proof Ha as Ha'. change (p :: L ++ e :: E) with ((p :: L) ++ e :: E) in Ha'.
  apply Forall_app in Ha' as [HaL HaE]. inversion_clear HaE as [|? ? Hae HaE']. split_and!.
  - destruct (add_ok ws (p :: L) x rest e) as (top & L' & Hadd & Ho' & Hp); [apply Forall_app; split; [done|by apply Forall_singleton]|done|].
    exists top, L'. split; [|split; [done|by rewrite Hp, Permutation_app_comm]]. cbn [length] in Hadd. by rewrite Nat.add_1_r in Hadd.
  - destruct (add_all_ok ws (p :: L) (x :: rest) E entries offset) as (L' & Hadd & Ho' & Hp); auto; [by apply Forall_app|].
    by exists L', (drop (length E) (x :: rest)).
  - destruct (pop_ok ws p L (x :: rest) HaL Ho) as (L' & rest' & Hpop & Ho' & Hp). exists L', rest'. split_and!; auto.
    pose proof (Heap.ordered_min before (p :: L) p Ho eq_refl) as Hf. inversion_clear Hf as [|? ? _ Hf'].
    eapply Forall_impl; [exact Hf'|]. intros r Hr. unfold Heap.le, before in Hr. by apply Z.ltb_ge in Hr.
Qed.

Definition sample_wrappers : list (DisiWrapper.t unit) :=
  (fun d => DisiWrapper.mk tt None d 0%Z) <$> [5; 3; 3; 9; 3]%Z.
Definition sample_nodes : list (nat * Z) := [(1, 3%Z); (2, 3%Z); (3, 9%Z); (4, 3%Z); (0, 5%Z)].

Lemma top_list_links_current_witness : exists r ws',
  top_list_root sample_wrappers (DisiPriorityQueue.mk 5 (slots sample_nodes [])) = Ok (r, ws')
  /\ walk 5 ws' r ≡ₚ (filter (fun q => q.2 = 3%Z) sample_nodes).*1
  /\ (forall i, doc_of ws' i = doc_of sample_wrappers i).
Proof.
  apply (top_list_links_current sample_wrappers (1, 3%Z) [(2, 3%Z); (3, 9%Z); (4, 3%Z); (0, 5%Z)] []).
  - repeat (apply Forall_cons_2; [vm_compute; reflexivity|]). apply Forall_nil_2.
  - vm_compute. repeat (apply NoDup_cons_2; [rewrite ?elem_of_cons, elem_of_nil; intuition congruence|]). apply NoDup_nil_2.
  - apply Heap.ordered_b_ok. vm_compute. reflexivity.
Defined.

Lemma queue_operations_correct_witness :
  let q := DisiPriorityQueue.mk 2 (slots [(1, 3%Z); (0, 5%Z)] [0; 0]) in
  (exists top L', add 4 sample_wrappers q = Ok (top.1, DisiPriorityQueue.mk 3 (slots (top :: L') [0]))
     /\ ordered (top :: L') /\ top :: L' ≡ₚ [(4, 3%Z); (1, 3%Z); (0, 5%Z)]) /\
  (exists L' rest', add_all [7; 2; 3] 1 2 sample_wrappers q = Ok (DisiPriorityQueue.mk 4 (slots L' rest'))
     /\ ordered L' /\ L' ≡ₚ [(1, 3%Z); (0, 5%Z)] ++ [(2, 3%Z); (3, 9%Z)]) /\
  (exists L' rest', pop sample_wrappers q = Ok (1, DisiPriorityQueue.mk 1 (slots L' rest'))
     /\ ordered L' /\ L' ≡ₚ [(0, 5%Z)] /\ Forall (fun r => (3 <= r.2)%Z) [(0, 5%Z)]).
Proof.
  apply (queue_operations_correct sample_wrappers (1, 3%Z) [(0, 5%Z)] 0 [0] (4, 3%Z) [(2, 3%Z); (3, 9%Z)] [7; 2; 3] 1).
  - repeat (apply Forall_cons_2; [vm_compute; reflexivity|]). apply Forall_nil_2.
  - apply Heap.ordered_b_ok. vm_compute. reflexivity.
  - cbn. lia.
  - congruence.
  - reflexivity.
Defined.
End TopList.
