(* ===== verification/Sorter.v ===== *)
(** [Sorter] of [src/core/util/sorter.rs], the trait whose default methods are the sorting
    routines over [compare] and [swap] of slots, with [InPlaceMergeSorter]
    ([src/core/util/in_place_merge_sorter.rs]) and the array sorter of
    [src/core/util/array_intro_sorter.rs]. Slots are [nat]s: a range of slots never wraps. *)

From Stdlib Require Import ZArith Lia Bool Arith.
From stdpp Require Import base tactics numbers list sorting.
From S2P Require Import Prelude.

Local Open Scope nat_scope.

Module Sorter.

(** The required methods. *)
Class Sorter (S : Type) : Type := {
  compare : nat -> nat -> ST S Z;
  swap : nat -> nat -> ST S unit;
  set_pivot : nat -> ST S unit;
  compare_pivot : nat -> ST S Z;
}.

Section Defaults.
Context {S : Type} `{Sorter S}.

Fixpoint lower_loop (fuel from len val : nat) : ST S nat :=
  match fuel with
  | O => slift OutOfFuel
  | Datatypes.S fuel =>
      if 0 <? len then
        let half := len / 2 in
        let mid := from + half in
        let* c := compare mid val in
        if (c <? 0)%Z then lower_loop fuel (mid + 1) (len - half - 1) val
        else lower_loop fuel from half val
      else sret from
  end.

Definition lower (from to val : nat) : ST S nat := lower_loop (Datatypes.S (to - from)) from (to - from) val.

Fixpoint upper_loop (fuel from len val : nat) : ST S nat :=
  match fuel with
  | O => slift OutOfFuel
  | Datatypes.S fuel =>
      if 0 <? len then
        let half := len / 2 in
        let mid := from + half in
        let* c := compare val mid in
        if (c <? 0)%Z then upper_loop fuel from half val
        else upper_loop fuel (mid + 1) (len - half - 1) val
      else sret from
  end.

Definition upper (from to val : nat) : ST S nat := upper_loop (Datatypes.S (to - from)) from (to - from) val.

(** [last] is [to - 1]; [checked_sub] ends the loop below slot 0. *)
Fixpoint reverse_loop (fuel from last : nat) : ST S unit :=
  match fuel with
  | O => slift OutOfFuel
  | Datatypes.S fuel =>
      if last <=? from then sret tt
      else
        let* _ := swap from last in
        match last with
        | O => sret tt
        | Datatypes.S last => reverse_loop fuel (from + 1) last
        end
  end.

Definition reverse (from to : nat) : ST S unit :=
  match to with
  | O => sret tt
  | Datatypes.S last => reverse_loop (Datatypes.S to) from last
  end.

(** [while mid < hi { swap(lo, mid); lo += 1; mid += 1 }] *)
Fixpoint swap_blocks (n lo mid : nat) : ST S unit :=
  match n with
  | O => sret tt
  | Datatypes.S n => let* _ := swap lo mid in swap_blocks n (lo + 1) (mid + 1)
  end.

Definition do_rotate (lo mid hi : nat) : ST S unit :=
  if mid + mid =? hi + lo then swap_blocks (hi - mid) lo mid
  else
    let* _ := reverse lo mid in
    let* _ := reverse mid hi in
    reverse lo hi.

Definition rotate (lo mid hi : nat) : ST S unit :=
  let* _ := slift (debug_assert ((lo <=? mid) && (mid <=? hi))) in
  if (lo =? mid) || (mid =? hi) then sret tt else do_rotate lo mid hi.

(** [while self.compare(from, mid)? <= 0 { from += 1 }] *)
Fixpoint trim_from (fuel from mid : nat) : ST S nat :=
  match fuel with
  | O => slift OutOfFuel
  | Datatypes.S fuel =>
      let* c := compare from mid in
      if (c <=? 0)%Z then trim_from fuel (from + 1) mid else sret from
  end.

(** [while self.compare(mid - 1, to - 1)? <= 0 { to -= 1 }] *)
Fixpoint trim_to (fuel mid to : nat) : ST S nat :=
  match fuel with
  | O => slift OutOfFuel
  | Datatypes.S fuel =>
      let* c := compare (mid - 1) (to - 1) in
      if (c <=? 0)%Z then trim_to fuel mid (to - 1) else sret to
  end.

(** The cuts [(first_cut, second_cut)]; [len22] is [second_cut - mid]. *)
Definition cuts (from mid to : nat) : ST S (nat * nat) :=
  if to - mid <? mid - from then
    let len11 := (mid - from) / 2 in
    let first_cut := from + len11 in
    let* second_cut := lower mid to first_cut in
    sret (first_cut, second_cut)
  else
    let len22 := (to - mid) / 2 in
    let second_cut := mid + len22 in
    let* first_cut := upper from mid second_cut in
    sret (first_cut, second_cut).

Fixpoint merge_in_place_loop (fuel from mid to : nat) : ST S unit :=
  match fuel with
  | O => slift OutOfFuel
  | Datatypes.S fuel =>
      if (from =? mid) || (mid =? to) then sret tt
      else
        let* c := compare (mid - 1) mid in
        if (c <=? 0)%Z then sret tt
        else if to =? 2 + from then swap (mid - 1) mid
        else
          let* from := trim_from (mid - from) from mid in
          let* to := trim_to (to - mid) mid to in
          let* (first_cut, second_cut) := cuts from mid to in
          let* _ := rotate first_cut mid second_cut in
          let new_mid := first_cut + (second_cut - mid) in
          let* _ := merge_in_place_loop fuel from first_cut new_mid in
          merge_in_place_loop fuel new_mid second_cut to
  end.

Definition merge_in_place (from mid to : nat) : ST S unit :=
  merge_in_place_loop (Datatypes.S (to - from)) from mid to.

(** The search of [binary_sort]: [l..h] narrows to the place of the pivot. *)
Fixpoint pivot_search (fuel l h : nat) : ST S nat :=
  match fuel with
  | O => slift OutOfFuel
  | Datatypes.S fuel =>
      if l <? h then
        let mid := l + (h - l - 1) / 2 in
        let* cmp := compare_pivot mid in
        if (cmp <? 0)%Z then pivot_search fuel l mid else pivot_search fuel (mid + 1) h
      else sret l
  end.

(** [while j > l { swap(j - 1, j); j -= 1 }], [n] times. *)
Fixpoint sink (n j : nat) : ST S unit :=
  match n with
  | O => sret tt
  | Datatypes.S n => let* _ := swap (j - 1) j in sink n (j - 1)
  end.

Fixpoint binary_sort_loop (n from i : nat) : ST S unit :=
  match n with
  | O => sret tt
  | Datatypes.S n =>
      let* _ := set_pivot i in
      let* l := pivot_search (Datatypes.S (i - from)) from i in
      let* _ := sink (i - l) i in
      binary_sort_loop n from (i + 1)
  end.

(** [while i < to] runs [to - i] times. *)
Definition binary_sort_with_start (from to i : nat) : ST S unit := binary_sort_loop (to - i) from i.
Definition binary_sort (from to : nat) : ST S unit := binary_sort_with_start from to (from + 1).

(** The inner loop: [current] moves down while its predecessor is greater. *)
Fixpoint insert_down (fuel from current : nat) : ST S unit :=
  match fuel with
  | O => slift OutOfFuel
  | Datatypes.S fuel =>
      let previous := current - 1 in
      let* c := compare previous current in
      if (0 <? c)%Z then
        let* _ := swap previous current in
        if previous =? from then sret tt else insert_down fuel from previous
      else sret tt
  end.

Fixpoint insertion_loop (n from i : nat) : ST S unit :=
  match n with
  | O => sret tt
  | Datatypes.S n => let* _ := insert_down (i - from) from i in insertion_loop n from (i + 1)
  end.

Definition insertion_sort (from to : nat) : ST S unit := insertion_loop (to - (from + 1)) from (from + 1).
(** ** Galloping searches *)

(** [f] goes down by doubling steps, [f <= t]; each step moves it below [t]. *)
Fixpoint lower2_loop (fuel from f t val : nat) : ST S nat :=
  match fuel with
  | O => slift OutOfFuel
  | Datatypes.S fuel =>
      if from <? f then
        let* c := compare f val in
        if (c <? 0)%Z then lower f t val
        else
          let delta := t - f in
          lower2_loop fuel from (f - delta * 2) f val
      else lower from t val
  end.

Definition lower2 (from to val : nat) : ST S nat := lower2_loop (Datatypes.S to) from (to - 1) to val.

(** [f] and [t] are [i32]; a step past [i32::MAX] overflows. *)
Fixpoint upper2_loop (fuel : nat) (f t : Z) (to val : nat) : ST S nat :=
  match fuel with
  | O => slift OutOfFuel
  | Datatypes.S fuel =>
      if (t <? as_i32 (Z.of_nat to))%Z then
        let* c := compare (Z.to_nat (as_u64 t)) val in
        if (0 <? c)%Z then upper (Z.to_nat (as_u64 f)) (Z.to_nat (as_u64 t)) val
        else
          let delta := (t - f)%Z in
          let step := as_i32 (delta * 2) in
          let* _ := slift (debug_assert (t + step <=? i32_MAX)%Z) in
          upper2_loop fuel t (t + step)%Z to val
      else upper (Z.to_nat (as_u64 f)) to val
  end.

Definition upper2 (from to val : nat) : ST S nat :=
  let f := as_i32 (Z.of_nat from) in
  let* _ := slift (debug_assert (f + 1 <=? i32_MAX)%Z) in
  upper2_loop (Datatypes.S to) f (f + 1)%Z to val.

(** ** Heap sort *)

Definition heap_parent (from i : nat) : nat := (i - 1 - from) / 2 + from.
Definition heap_child (from i : nat) : nat := (i - from) * 2 + 1 + from.

(** [i] grows at each turn, so [to] turns are enough. *)
Fixpoint sift_down_loop (fuel i from to : nat) : ST S unit :=
  match fuel with
  | O => slift OutOfFuel
  | Datatypes.S fuel =>
      let left_child := heap_child from i in
      if left_child <? to then
        let right_child := left_child + 1 in
        let* c := compare i left_child in
        if (c <? 0)%Z then
          let* larger := (if right_child <? to then let* c := compare left_child right_child in sret (c <? 0)%Z
                          else sret false) in
          if larger then
            let* _ := swap i right_child in
            sift_down_loop fuel right_child from to
          else
            let* _ := swap i left_child in
            sift_down_loop fuel left_child from to
        else
          let* larger := (if right_child <? to then let* c := compare i right_child in sret (c <? 0)%Z
                          else sret false) in
          if larger then
            let* _ := swap i right_child in
            sift_down_loop fuel right_child from to
          else sret tt
      else sret tt
  end.

Definition sift_down (i from to : nat) : ST S unit := sift_down_loop (Datatypes.S (to - i)) i from to.

(** [for i in (from..=heap_parent(from, to - 1)).rev()], [n] values of [i] left. *)
Fixpoint heapify_loop (n from to : nat) : ST S unit :=
  match n with
  | O => sret tt
  | Datatypes.S n =>
      let* _ := sift_down (from + n) from to in
      heapify_loop n from to
  end.

Definition heapify (from to : nat) : ST S unit :=
  heapify_loop (heap_parent from (to - 1) + 1 - from) from to.

(** [n] is [end - from]. *)
Fixpoint heap_sort_loop (n from : nat) : ST S unit :=
  match n with
  | O => sret tt
  | Datatypes.S n' =>
      let* _ := swap from (from + n) in
      let* _ := sift_down from from (from + n) in
      heap_sort_loop n' from
  end.

Definition heap_sort (from to : nat) : ST S unit :=
  if (to <=? from) || (to - from <=? 1) then sret tt
  else
    let* _ := heapify from to in
    heap_sort_loop (to - 1 - from) from.
End Defaults.

Definition check_range (from to : nat) : result unit := if to <? from then Err IllegalArgument else Ok tt.

Definition BINARY_SORT_THRESHOLD : nat := 20.
Definition INSERTION_SORT_THRESHOLD : nat := 16.
End Sorter.

(** ** [InPlaceMergeSorter] over a sorter of slots *)
Module InPlaceMergeSorter.
Import Sorter.

Record t (S : Type) : Type := mk { sub : S; pivot_index : nat }.
Arguments mk {S}.
Arguments sub {S}.
Arguments pivot_index {S}.

Section Operations.
Context {S : Type} `{Sorter S}.

Definition new (s : S) : t S := mk s 0.

Definition on_sub {R : Type} (m : ST S R) : ST (t S) R := fun x =>
  let (r, s) := m (sub x) in (r, mk s (pivot_index x)).

Definition compare_ (i j : nat) : ST (t S) Z := on_sub (compare i j).

#[export] Instance merge_sorter : Sorter (t S) := {
  compare := compare_;
  swap i j := on_sub (swap i j);
  set_pivot i := fun x => (Ok tt, mk (sub x) i);
  compare_pivot j := fun x => compare_ (pivot_index x) j x;
}.

(** The range halves at each call, so its length bounds the depth. *)
Fixpoint merge_sort_loop (fuel from to : nat) : ST (t S) unit :=
  match fuel with
  | O => slift OutOfFuel
  | Datatypes.S fuel =>
      if to - from <? BINARY_SORT_THRESHOLD then binary_sort from to
      else
        let mid := (from + to) / 2 in
        let* _ := merge_sort_loop fuel from mid in
        let* _ := merge_sort_loop fuel mid to in
        merge_in_place from mid to
  end.

Definition merge_sort (from to : nat) : ST (t S) unit := merge_sort_loop (Datatypes.S (to - from)) from to.

Definition sort (from to : nat) : ST (t S) unit :=
  let* _ := slift (check_range from to) in
  merge_sort from to.
End Operations.
End InPlaceMergeSorter.

(** ** The sorter of an array with a comparator *)
Module ArrayIntroSorter.
Import Sorter.

Record t (T : Type) : Type := mk { arr : list T; pivot : nat }.
Arguments mk {T}.
Arguments arr {T}.
Arguments pivot {T}.

Section Operations.
Context {T : Type} (comparator : T -> T -> result Z).

Definition new (arr : list T) : t T := mk arr 0.

Definition compare_ (i j : nat) : ST (t T) Z := fun s =>
  match arr s !! i, arr s !! j with
  | Some a, Some b => (comparator a b, s)
  | _, _ => (Panic, s)
  end.

(** The pivot's index follows its value. *)
Definition swap_ (i j : nat) : ST (t T) unit := fun s =>
  let p := if (pivot s =? i) || (pivot s =? j) then (if pivot s =? i then j else i) else pivot s in
  match arr s !! i, arr s !! j with
  | Some a, Some b => (Ok tt, mk (<[i := b]> (<[j := a]> (arr s))) p)
  | _, _ => (Panic, mk (arr s) p)
  end.

Definition set_pivot_ (i : nat) : ST (t T) unit := fun s => (Ok tt, mk (arr s) i).
Definition compare_pivot_ (i : nat) : ST (t T) Z := fun s => compare_ (pivot s) i s.

Definition array_sorter : Sorter (t T) :=
  {| compare := compare_; swap := swap_; set_pivot := set_pivot_; compare_pivot := compare_pivot_ |}.
End Operations.
End ArrayIntroSorter.
