(* ===== verification/SorterProofs.v ===== *)
(** The sorting routines of [Sorter] sort stably, proved against the contract of [compare]
    and [swap]; [InPlaceMergeSorter] and the array sorter meet that contract. *)

From Stdlib Require Import ZArith Lia Bool Arith.
From stdpp Require Import base tactics numbers list sorting.
From S2P Require Import Prelude Sorter.
Import Sorter.

Local Open Scope nat_scope.

(** A comparison function of a total preorder, by the sign of its result. *)
Class CmpOrder {T : Type} (cmp : T -> T -> Z) : Prop := {
  cmp_flip a b : (cmp a b < 0 <-> 0 < cmp b a)%Z;
  cmp_trans a b c : (cmp a b <= 0 -> cmp b c <= 0 -> cmp a c <= 0)%Z;
}.

(** The contract of the required methods: the state holds [slots]; the pivot set last is
    remembered until slots are exchanged. *)
Class SorterSpec (S : Type) {T : Type} (cmp : T -> T -> Z) `{Sorter S} : Type := {
  slots : S -> list T;
  pivot_is : S -> T -> Prop;
  compare_law s i j a b : slots s !! i = Some a -> slots s !! j = Some b ->
    exists s', compare i j s = (Ok (cmp a b), s') /\ slots s' = slots s;
  swap_law s i j a b : slots s !! i = Some a -> slots s !! j = Some b ->
    exists s', swap i j s = (Ok tt, s') /\ slots s' = <[i := b]> (<[j := a]> (slots s));
  set_pivot_law s i a : slots s !! i = Some a ->
    exists s', set_pivot i s = (Ok tt, s') /\ slots s' = slots s /\ pivot_is s' a;
  compare_pivot_law s j p b : pivot_is s p -> slots s !! j = Some b ->
    exists s', compare_pivot j s = (Ok (cmp p b), s') /\ slots s' = slots s /\ pivot_is s' p;
}.

Module SorterProofs.

(** * Stable rearrangements *)

Section Order.
Context {T : Type} (cmp : T -> T -> Z) {CO : CmpOrder cmp}.
Implicit Types l : list T.

Definition le (a b : T) : Prop := (cmp a b <= 0)%Z.
Definition lt (a b : T) : Prop := (cmp a b < 0)%Z.
Definition eqv (x a : T) : Prop := le x a /\ le a x.
#[local] Instance eqv_dec x a : Decision (eqv x a).
Proof. unfold eqv, le. apply _. Defined.

#[export] Instance lt_dec a b : Decision (lt a b).
Proof. unfold lt. apply _. Defined.

(** [l'] has the elements of [l], equal ones in the same order. *)
Definition stable l l' : Prop := l' ≡ₚ l /\ forall x, filter (eqv x) l' = filter (eqv x) l.

Abbreviation sorted := (StronglySorted le).
Definition below l1 l2 : Prop := forall a b, a ∈ l1 -> b ∈ l2 -> le a b.
Definition strictly_below l1 l2 : Prop := forall a b, a ∈ l1 -> b ∈ l2 -> lt a b.

#[export] Instance stable_equiv : Equivalence stable.
Proof.
  split.
  - by intros l.
  - intros l1 l2 [Hp Hf]. split; [done|]. intros x. by rewrite Hf.
  - intros l1 l2 l3 [Hp Hf] [Hp' Hf']. split; [by rewrite Hp', Hp|]. intros x. by rewrite Hf', Hf.
Qed.

#[export] Instance stable_app : Proper (stable ==> stable ==> stable) (@app T).
Proof.
  intros l1 l1' [Hp1 Hf1] l2 l2' [Hp2 Hf2]. split; [by rewrite Hp1, Hp2|].
  intros x. by rewrite !filter_app, Hf1, Hf2.
Qed.

Lemma cmp_le_refl a : le a a.
Proof. unfold le. pose proof (cmp_flip a a). lia. Qed.

Lemma not_le a b : ~ le a b <-> lt b a.
Proof. unfold le, lt. pose proof (cmp_flip b a). lia. Qed.

Lemma cmp_ge_le a b : (0 <= cmp a b)%Z -> le b a.
Proof. unfold le. pose proof (cmp_flip a b). lia. Qed.

Lemma cmp_lt_le a b : lt a b -> le a b.
Proof. unfold le, lt. lia. Qed.

Lemma le_trans_ a b c : le a b -> le b c -> le a c.
Proof. apply cmp_trans. Qed.

Lemma lt_le_trans a b c : lt a b -> le b c -> lt a c.
Proof. rewrite <- !not_le. intros Hab Hbc Hca. apply Hab. by apply le_trans_ with c. Qed.

Lemma le_lt_trans a b c : le a b -> lt b c -> lt a c.
Proof. rewrite <- !not_le. intros Hab Hbc Hca. apply Hbc. by apply le_trans_ with a. Qed.

(** Exchanging two blocks of which one is strictly below the other is stable. *)
Lemma stable_swap l1 l2 : strictly_below l2 l1 -> stable (l1 ++ l2) (l2 ++ l1).
Proof.
  intros Hb. split; [apply Permutation_app_comm|]. intros x. rewrite !filter_app.
  assert (Hnil : forall l, (forall a, a ∈ l -> ~ eqv x a) -> filter (eqv x) l = []).
  { intros l Hl. destruct (filter (eqv x) l) as [|a k] eqn:E; [done|exfalso].
    assert (Ha : a ∈ filter (eqv x) l) by (rewrite E; left).
    apply list_elem_of_filter in Ha as [Hx Ha]. by apply (Hl a). }
  destruct (decide (Exists (eqv x) l1)) as [Hex|Hno].
  - rewrite (Hnil l2); [by rewrite app_nil_r|]. apply Exists_exists in Hex as (a & Ha & [_ Hax]).
    intros b Hb2 [Hxb _]. apply (proj2 (not_le a b)); [by apply Hb|]. by apply le_trans_ with x.
  - rewrite (Hnil l1); [by rewrite app_nil_r|]. intros a Ha Heq. apply Hno. apply Exists_exists. eauto.
Qed.

Lemma sorted_app l1 l2 : sorted (l1 ++ l2) <-> sorted l1 /\ sorted l2 /\ below l1 l2.
Proof.
  rewrite StronglySorted_app. unfold below. split; [intros (?&?&?)|intros (?&?&?)]; split_and!; auto.
Qed.

Lemma below_stable l1 l2 l1' l2' : stable l1 l1' -> stable l2 l2' -> below l1 l2 -> below l1' l2'.
Proof. intros [H1 _] [H2 _] Hb a b Ha Hbb. rewrite H1 in Ha. rewrite H2 in Hbb. by apply Hb. Qed.

(** What [merge_in_place] builds from its cuts. *)
Lemma merge_sorted a1 a2 b1 b2 m1 m2 : sorted (a1 ++ a2) -> sorted (b1 ++ b2) ->
  below a1 b2 -> strictly_below b1 a2 ->
  stable (a1 ++ b1) m1 -> sorted m1 -> stable (a2 ++ b2) m2 -> sorted m2 ->
  sorted (m1 ++ m2) /\ stable ((a1 ++ a2) ++ (b1 ++ b2)) (m1 ++ m2).
Proof.
  intros (Ha1 & Ha2 & Ha)%sorted_app (Hb1 & Hb2 & Hb)%sorted_app Hab Hba Hm1 Hs1 Hm2 Hs2. split.
  - apply sorted_app. split_and!; auto. apply (below_stable (a1 ++ b1) (a2 ++ b2)); auto.
    intros a b [Hx|Hx]%elem_of_app [Hy|Hy]%elem_of_app; auto. by apply cmp_lt_le, Hba.
  - rewrite <- Hm1, <- Hm2, <- !app_assoc. apply stable_app; [done|]. rewrite !app_assoc.
    apply stable_app; [|done]. by apply stable_swap.
Qed.
End Order.

(** * The routines on decomposed slots *)

Section Routines.
Context {S T : Type} (cmp : T -> T -> Z) `{SS : SorterSpec S T cmp} {CO : CmpOrder cmp}.
Implicit Types (P M Q A B : list T) (s : S).

Abbreviation le := (le cmp).
Abbreviation lt := (lt cmp).
Abbreviation sorted := (StronglySorted le).
Abbreviation stable := (stable cmp).

(** [m] answers [r] and leaves the slots [l]. *)
Definition yields {R : Type} (m : ST S R) (s : S) (r : R) (l : list T) : Prop :=
  exists s', m s = (Ok r, s') /\ slots s' = l.

Lemma yields_bind {R R' : Type} (m : ST S R) (k : R -> ST S R') s r l r' l' :
  yields m s r l -> (forall s', slots s' = l -> yields (k r) s' r' l') -> yields (sbind m k) s r' l'.
Proof. intros (s1 & Hm & Hl) Hk. destruct (Hk s1 Hl) as (s2 & Hs & Hl'). exists s2. by erewrite sbind_ok. Qed.

Lemma yields_ret {R : Type} (r : R) s : yields (sret r) s r (slots s).
Proof. by exists s. Qed.

Lemma yields_done s l : slots s = l -> yields (sret tt) s tt l.
Proof. intros <-. apply yields_ret. Qed.

Lemma yields_compare s i j a b : slots s !! i = Some a -> slots s !! j = Some b ->
  yields (compare i j) s (cmp a b) (slots s).
Proof. intros Ha Hb. destruct (compare_law s i j a b Ha Hb) as (s' & ? & ?). by exists s'. Qed.

Lemma lookup_mid P x Q i : i = length P -> (P ++ x :: Q) !! i = Some x.
Proof. intros ->. by apply list_lookup_middle. Qed.

Lemma swap_two s P x M y Q i j : slots s = P ++ x :: M ++ y :: Q -> i = length P ->
  j = length P + 1 + length M -> yields (swap i j) s tt (P ++ y :: M ++ x :: Q).
Proof.
  intros Hs -> ->. assert (Hj : P ++ x :: M ++ y :: Q = (P ++ x :: M) ++ y :: Q) by by rewrite <- app_assoc.
  assert (Hlen : length P + 1 + length M = length (P ++ x :: M)) by (rewrite length_app; simpl; lia).
  destruct (swap_law s (length P) (length P + 1 + length M) x y) as (s' & Hsw & Hs').
  { rewrite Hs. by apply lookup_mid. } { rewrite Hs, Hj. apply lookup_mid. done. }
  exists s'. split; [done|]. rewrite Hs', Hs, Hj, Hlen.
  replace (length (P ++ x :: M)) with (length (P ++ x :: M) + 0) by lia. rewrite insert_app_r. cbn.
  rewrite <- app_assoc. replace (length P) with (length P + 0) by lia. by rewrite insert_app_r.
Qed.

Lemma reverse_loop_ok fuel : forall P M Q s from last, slots s = P ++ M ++ Q -> from = length P ->
  last + 1 = length P + length M -> length M < fuel ->
  yields (reverse_loop fuel from last) s tt (P ++ rev M ++ Q).
Proof.
  induction fuel as [|fuel IH]; intros P M Q s from last Hs -> Hl Hf; [lia|]. cbn [reverse_loop].
  destruct M as [|x M].
  { simpl in Hl. destruct (Nat.leb_spec last (length P)); [|lia]. by apply yields_done. }
  destruct (decide (M = [])) as [->|HM].
  { simpl in Hl. destruct (Nat.leb_spec last (length P)); [|lia]. by apply yields_done. }
  destruct (exists_last HM) as (M' & y & ->). cbn [length] in Hl, Hf. rewrite length_app in Hl, Hf.
  simpl in Hl, Hf. destruct (Nat.leb_spec last (length P)); [lia|]. eapply yields_bind.
  { apply (swap_two s P x M' y Q); [rewrite Hs; cbn; by rewrite <- app_assoc|done|lia]. }
  intros s' Hs'. destruct last as [|last]; [lia|].
  cbn [rev]. rewrite rev_app_distr. cbn.
  replace (P ++ y :: (rev M' ++ [x]) ++ Q) with ((P ++ [y]) ++ rev M' ++ (x :: Q)) by by rewrite <- !app_assoc.
  apply IH; [by rewrite Hs', <- app_assoc|rewrite length_app; simpl; lia|rewrite length_app; simpl; lia|lia].
Qed.

Lemma reverse_ok P M Q s from to : slots s = P ++ M ++ Q -> from = length P ->
  to = length P + length M -> yields (reverse from to) s tt (P ++ rev M ++ Q).
Proof.
  intros Hs -> Hto. unfold reverse. destruct to as [|last].
  - destruct M; [|simpl in Hto; lia]. by apply yields_done.
  - apply reverse_loop_ok; [done|done|lia|lia].
Qed.

Lemma swap_blocks_ok A : forall P B Q M s lo mid, slots s = P ++ A ++ M ++ B ++ Q -> length A = length B ->
  lo = length P -> mid = length P + length A + length M ->
  yields (swap_blocks (length A) lo mid) s tt (P ++ B ++ M ++ A ++ Q).
Proof.
  induction A as [|x A IH]; intros P B Q M s lo mid Hs Hl -> ->; destruct B as [|y B]; try done.
  { by apply yields_done. }
  cbn [length swap_blocks]. injection Hl as Hl. eapply yields_bind.
  { apply (swap_two s P x (A ++ M) y (B ++ Q)); [rewrite Hs; cbn; by rewrite <- app_assoc|done|].
    rewrite length_app. lia. }
  intros s' Hs'.
  replace (P ++ (y :: B) ++ M ++ (x :: A) ++ Q) with ((P ++ [y]) ++ B ++ (M ++ [x]) ++ A ++ Q)
    by (cbn; by rewrite <- !app_assoc).
  apply IH; [|done|rewrite length_app; simpl; lia|rewrite !length_app; simpl; lia].
  rewrite Hs', <- !app_assoc. done.
Qed.

(** Rotating exchanges the two blocks. *)
Lemma rotate_ok P A B Q s lo mid hi : slots s = P ++ A ++ B ++ Q -> lo = length P ->
  mid = length P + length A -> hi = length P + length A + length B ->
  yields (rotate lo mid hi) s tt (P ++ B ++ A ++ Q).
Proof.
  intros Hs -> -> ->. unfold rotate. eapply yields_bind.
  { exists s. split; [|exact Hs]. unfold slift, debug_assert.
    by destruct (Nat.leb_spec (length P) (length P + length A)),
      (Nat.leb_spec (length P + length A) (length P + length A + length B)); try lia. }
  intros s' Hs'. destruct (Nat.eqb_spec (length P) (length P + length A)).
  { destruct A; [|simpl in *; lia]. exists s'. split; [done|]. by rewrite Hs'. }
  destruct (Nat.eqb_spec (length P + length A) (length P + length A + length B)).
  { destruct B; [|simpl in *; lia]. exists s'. split; [done|]. by rewrite Hs'. }
  cbn [orb]. unfold do_rotate.
  destruct (Nat.eqb_spec (length P + length A + (length P + length A)) (length P + length A + length B + length P)).
  - replace (length P + length A + length B - (length P + length A)) with (length A) by lia.
    apply (swap_blocks_ok A P B Q []); [done|lia|done|simpl; lia].
  - eapply yields_bind; [apply (reverse_ok P A (B ++ Q)); [done|done|done]|]. intros s1 Hs1.
    eapply yields_bind; [apply (reverse_ok (P ++ rev A) B Q); [by rewrite Hs1, <- app_assoc|by rewrite length_app, length_rev|by rewrite length_app, length_rev]|].
    intros s2 Hs2. replace (P ++ B ++ A ++ Q) with (P ++ rev (rev A ++ rev B) ++ Q).
    2: { by rewrite rev_app_distr, !rev_involutive, <- app_assoc. }
    apply reverse_ok; [by rewrite Hs2, <- !app_assoc|done|rewrite length_app, !length_rev; lia].
Qed.

(** ** Binary searches *)

(** The elements of [A] before [k] fail [p] and those from [k] on meet it. *)
Definition splits_at (p : T -> Prop) A k : Prop :=
  k <= length A /\ (forall i a, i < k -> A !! i = Some a -> ~ p a) /\ (forall i a, k <= i -> A !! i = Some a -> p a).

Lemma splits_exists (p : T -> Prop) `{forall a, Decision (p a)} A : sorted A ->
  (forall a b, le a b -> p a -> p b) -> exists k, splits_at p A k.
Proof.
  intros Hs Hp. induction Hs as [|x A Hs IH Hx]; [by exists 0|]. destruct (decide (p x)) as [Hpx|Hpx].
  - exists 0. split_and!; [lia|intros i a Hi; lia|]. intros i a _ Ha. destruct i as [|i]; cbn in Ha; simplify_eq; [done|].
    apply (Hp x); [|done]. eapply Forall_forall in Hx; [done|]. by eapply list_elem_of_lookup_2.
  - destruct IH as (k & Hk & H1 & H2). exists (Datatypes.S k). split_and!; [simpl; lia| |].
    + intros i a Hi Ha. destruct i as [|i]; cbn in Ha; simplify_eq; [done|]. apply (H1 i); [lia|done].
    + intros i a Hi Ha. destruct i as [|i]; [lia|]. apply (H2 i); [lia|done].
Qed.

Lemma splits_app p A k : splits_at p A k ->
  exists A1 A2, A = A1 ++ A2 /\ length A1 = k /\ (forall a, a ∈ A1 -> ~ p a) /\ (forall a, a ∈ A2 -> p a).
Proof.
  intros (Hk & H1 & H2). exists (take k A), (drop k A). rewrite take_drop, length_take. split_and!; [done|lia| |].
  - intros a [i Ha]%list_elem_of_lookup_1. apply lookup_take_Some in Ha as [Ha Hi]. by eapply H1.
  - intros a [i Ha]%list_elem_of_lookup_1. rewrite lookup_drop in Ha. apply (H2 (k + i)); [lia|done].
Qed.

Lemma at_offset P A Q i a : A !! i = Some a -> (P ++ A ++ Q) !! (length P + i) = Some a.
Proof.
  intros Ha. rewrite lookup_app_r by lia. replace (length P + i - length P) with i by lia.
  by apply lookup_app_l_Some.
Qed.

Lemma half_split len : 0 < len -> len / 2 < len.
Proof. intros. apply Nat.div_lt; lia. Qed.

Lemma lower_loop_ok P A Q v val k fuel : splits_at (fun a => ~ lt a v) A k -> (P ++ A ++ Q) !! val = Some v ->
  forall f len s, slots s = P ++ A ++ Q -> len < fuel -> f + len <= length A -> f <= k <= f + len ->
  yields (lower_loop fuel (length P + f) len val) s (length P + k) (P ++ A ++ Q).
Proof.
  intros (Hk & H1 & H2) Hv. induction fuel as [|fuel IH]; intros f len s Hs Hf Hlen Hr; [lia|]. cbn [lower_loop].
  destruct (Nat.ltb_spec 0 len) as [Hpos|]; [|replace k with f by lia; rewrite <- Hs; apply yields_ret].
  pose proof (half_split len Hpos). set (half := len / 2) in *. clearbody half.
  destruct (lookup_lt_is_Some_2 A (f + half)) as [b Hb]; [lia|]. eapply yields_bind.
  { apply (yields_compare s _ _ b v); rewrite Hs; [|done]. rewrite <- Nat.add_assoc. by apply at_offset. }
  intros s' Hs'. rewrite Hs in Hs'. destruct (Z.ltb_spec (cmp b v) 0) as [Hlt|Hge].
  - assert (f + half < k) by (apply Nat.nle_gt; intros Hle; by apply (H2 _ _ Hle Hb)).
    replace (length P + f + half + 1) with (length P + (f + half + 1)) by lia. apply IH; auto; lia.
  - assert (k <= f + half).
    { apply Nat.nlt_ge. intros Hlt. apply (H1 _ _ Hlt Hb). unfold SorterProofs.lt. lia. }
    apply IH; auto; lia.
Qed.

Lemma upper_loop_ok P A Q v val k fuel : splits_at (fun a => lt v a) A k -> (P ++ A ++ Q) !! val = Some v ->
  forall f len s, slots s = P ++ A ++ Q -> len < fuel -> f + len <= length A -> f <= k <= f + len ->
  yields (upper_loop fuel (length P + f) len val) s (length P + k) (P ++ A ++ Q).
Proof.
  intros (Hk & H1 & H2) Hv. induction fuel as [|fuel IH]; intros f len s Hs Hf Hlen Hr; [lia|]. cbn [upper_loop].
  destruct (Nat.ltb_spec 0 len) as [Hpos|]; [|replace k with f by lia; rewrite <- Hs; apply yields_ret].
  pose proof (half_split len Hpos). set (half := len / 2) in *. clearbody half.
  destruct (lookup_lt_is_Some_2 A (f + half)) as [b Hb]; [lia|]. eapply yields_bind.
  { apply (yields_compare s _ _ v b); rewrite Hs; [done|]. rewrite <- Nat.add_assoc. by apply at_offset. }
  intros s' Hs'. rewrite Hs in Hs'. destruct (Z.ltb_spec (cmp v b) 0) as [Hlt|Hge].
  - assert (k <= f + half) by (apply Nat.nlt_ge; intros Hlt'; by apply (H1 _ _ Hlt' Hb)).
    apply IH; auto; lia.
  - assert (f + half < k).
    { apply Nat.nle_gt. intros Hle. pose proof (H2 _ _ Hle Hb) as Hx. unfold SorterProofs.lt in Hx. lia. }
    replace (length P + f + half + 1) with (length P + (f + half + 1)) by lia. apply IH; auto; lia.
Qed.

(** [lower] splits a sorted block at a value: strictly less before, the rest after. *)
Lemma lower_ok P A Q v val s : slots s = P ++ A ++ Q -> sorted A -> (P ++ A ++ Q) !! val = Some v ->
  exists A1 A2, A = A1 ++ A2 /\ (forall a, a ∈ A1 -> lt a v) /\ (forall a, a ∈ A2 -> le v a)
    /\ yields (lower (length P) (length P + length A) val) s (length P + length A1) (P ++ A ++ Q).
Proof.
  intros Hs HA Hv. destruct (splits_exists (fun a => ~ lt a v) A HA) as (k & Hk).
  { intros a b Hab Ha Hb. apply Ha. by apply le_lt_trans with b. }
  destruct (splits_app _ _ _ Hk) as (A1 & A2 & HA12 & Hlen & H1 & H2). exists A1, A2. split_and!; [done| | |].
  - intros a Ha. specialize (H1 a Ha). unfold SorterProofs.lt in *. lia.
  - intros a Ha. specialize (H2 a Ha). rewrite <- not_le in H2 by done. unfold SorterProofs.le in *. lia.
  - rewrite Hlen. unfold lower. replace (length P + length A - length P) with (length A) by lia.
    pose proof (lower_loop_ok P A Q v val k (Datatypes.S (length A)) Hk Hv 0 (length A) s Hs ltac:(lia) ltac:(lia)) as Hy.
    rewrite Nat.add_0_r in Hy. apply Hy. destruct Hk. lia.
Qed.

(** [upper] splits it with equal elements before. *)
Lemma upper_ok P A Q v val s : slots s = P ++ A ++ Q -> sorted A -> (P ++ A ++ Q) !! val = Some v ->
  exists A1 A2, A = A1 ++ A2 /\ (forall a, a ∈ A1 -> le a v) /\ (forall a, a ∈ A2 -> lt v a)
    /\ yields (upper (length P) (length P + length A) val) s (length P + length A1) (P ++ A ++ Q).
Proof.
  intros Hs HA Hv. destruct (splits_exists (fun a => lt v a) A HA) as (k & Hk).
  { intros a b Hab Ha. by apply lt_le_trans with a. }
  destruct (splits_app _ _ _ Hk) as (A1 & A2 & HA12 & Hlen & H1 & H2). exists A1, A2. split_and!; [done| |done|].
  - intros a Ha. specialize (H1 a Ha). rewrite <- not_le in H1 by done. unfold SorterProofs.le in *. lia.
  - rewrite Hlen. unfold upper. replace (length P + length A - length P) with (length A) by lia.
    pose proof (upper_loop_ok P A Q v val k (Datatypes.S (length A)) Hk Hv 0 (length A) s Hs ltac:(lia) ltac:(lia)) as Hy.
    rewrite Nat.add_0_r in Hy. apply Hy. destruct Hk. lia.
Qed.


(** ** The merge *)

Lemma yields_bind_ex {R R' X : Type} (m : ST S R) (k : R -> ST S R') s r l r' (F : X -> list T) (Phi : X -> Prop) :
  yields m s r l -> (forall s', slots s' = l -> exists x, yields (k r) s' r' (F x) /\ Phi x) ->
  exists x, yields (sbind m k) s r' (F x) /\ Phi x.
Proof.
  intros (s1 & Hm & Hl) Hk. destruct (Hk s1 Hl) as (x & (s2 & Hs & Hl') & Hx). exists x. split; [|done].
  exists s2. by erewrite sbind_ok.
Qed.

Lemma trim_from_ok b R z A : forall P s fuel mid, slots s = P ++ A ++ b :: R -> last A = Some z -> lt b z ->
  length A <= fuel -> mid = length P + length A ->
  exists A0 A1, A = A0 ++ A1 /\ A1 <> [] /\ (forall a, a ∈ A0 -> le a b) /\ last A1 = Some z
    /\ yields (trim_from fuel (length P) mid) s (length P + length A0) (P ++ A ++ b :: R).
Proof.
  induction A as [|x A IH]; intros P s fuel mid Hs Hz Hlt Hf ->; [done|].
  destruct fuel as [|fuel]; [simpl in Hf; lia|]. cbn [trim_from].
  assert (Hc : yields (compare (length P) (length P + length (x :: A))) s (cmp x b) (P ++ (x :: A) ++ b :: R)).
  { rewrite <- Hs. apply yields_compare; rewrite Hs; [by apply lookup_mid|]. rewrite app_assoc.
    apply lookup_mid. by rewrite length_app. }
  destruct (Z.leb_spec (cmp x b) 0) as [Hle|Hgt].
  - destruct (decide (A = [])) as [->|HA].
    { simpl in Hz. injection Hz as ->. rewrite <- not_le in Hlt by done. by destruct Hlt. }
    destruct Hc as (s1 & Hc & Hs1).
    destruct (IH (P ++ [x]) s1 fuel (length P + length (x :: A))) as (A0 & A1 & -> & HA1 & Hle0 & Hl & Hy).
    { by rewrite Hs1, <- app_assoc. } { rewrite <- Hz. by destruct A. } { done. } { simpl in Hf. lia. }
    { rewrite length_app. simpl. lia. }
    exists (x :: A0), A1. split_and!; auto.
    + intros a [->|Ha]%elem_of_cons; [done|by apply Hle0].
    + destruct Hy as (s2 & Hy & Hs2). exists s2. split.
      * erewrite sbind_ok by exact Hc. apply Z.leb_le in Hle. rewrite Hle. rewrite length_app in Hy.
        cbn [length] in Hy |- *. rewrite Hy. do 2 f_equal. lia.
      * by rewrite Hs2, <- app_assoc.
  - exists [], (x :: A). split_and!; auto; [by intros a ?%elem_of_nil|]. eapply yields_bind; [exact Hc|].
    intros s' Hs'. apply Z.leb_gt in Hgt. rewrite Hgt. rewrite <- Hs', Nat.add_0_r. apply yields_ret.
Qed.

Lemma trim_to_ok b z P fuel : forall B R s to, slots s = P ++ [z] ++ B ++ R -> head B = Some b -> lt b z ->
  length B <= fuel -> to = length P + 1 + length B ->
  exists B1 B0, B = B1 ++ B0 /\ head B1 = Some b /\ (forall y, y ∈ B0 -> le z y)
    /\ yields (trim_to fuel (length P + 1) to) s (length P + 1 + length B1) (P ++ [z] ++ B ++ R).
Proof.
  induction fuel as [|fuel IH]; intros B R s to Hs Hb Hlt Hf ->; [destruct B; simpl in *; [done|lia]|].
  destruct (decide (B = [])) as [->|HB]; [done|]. destruct (exists_last HB) as (B' & y & ->). cbn [trim_to].
  rewrite length_app in Hf |- *. cbn [length] in Hf |- *.
  replace (length P + 1 + (length B' + 1) - 1) with (length P + 1 + length B') by lia.
  replace (length P + 1 - 1) with (length P) by lia.
  assert (HR : P ++ [z] ++ (B' ++ [y]) ++ R = P ++ [z] ++ B' ++ (y :: R)) by (by rewrite <- !app_assoc).
  rewrite HR in *.
  assert (Hc : yields (compare (length P) (length P + 1 + length B')) s (cmp z y) (P ++ [z] ++ B' ++ y :: R)).
  { rewrite <- Hs. apply yields_compare; rewrite Hs; [by apply lookup_mid|]. rewrite !app_assoc.
    apply lookup_mid. rewrite !length_app. cbn [length]. lia. }
  destruct (Z.leb_spec (cmp z y) 0) as [Hle|Hgt].
  - destruct (decide (B' = [])) as [->|HB'].
    { simpl in Hb. injection Hb as ->. rewrite <- not_le in Hlt by done. by destruct Hlt. }
    destruct Hc as (s1 & Hc & Hs1).
    destruct (IH B' (y :: R) s1 (length P + 1 + length B')) as (B1 & B0 & -> & Hh & Hle0 & s2 & Hy & Hs2); auto; [|lia|].
    { rewrite <- Hb. by destruct B'. }
    exists B1, (B0 ++ [y]). split_and!; [by rewrite app_assoc|done| |].
    + intros w [Hw|Hw]%elem_of_app; [by apply Hle0|]. by apply list_elem_of_singleton in Hw as ->.
    + exists s2. split; [|done]. erewrite sbind_ok by exact Hc. apply Z.leb_le in Hle. by rewrite Hle.
  - exists (B' ++ [y]), []. split_and!; auto; [by rewrite app_nil_r|by intros w ?%elem_of_nil|].
    eapply yields_bind; [exact Hc|]. intros s' Hs'. apply Z.leb_gt in Hgt. rewrite Hgt.
    rewrite <- Hs', length_app. cbn [length]. apply yields_ret.
Qed.

Lemma sorted_last_below A z : sorted A -> last A = Some z -> forall a, a ∈ A -> le a z.
Proof.
  intros Hs Hz a Ha. destruct (decide (A = [])) as [->|HA]; [done|]. destruct (exists_last HA) as (A' & y & ->).
  rewrite last_snoc in Hz. injection Hz as ->. apply sorted_app in Hs as (_ & _ & Hb).
  apply elem_of_app in Ha as [Ha|Ha]; [apply Hb; [done|by left]|].
  apply list_elem_of_singleton in Ha as ->. by apply cmp_le_refl.
Qed.

Lemma sorted_head_below B b : sorted B -> head B = Some b -> forall y, y ∈ B -> le b y.
Proof.
  intros Hs Hb y Hy. destruct B as [|x B]; [done|]. injection Hb as ->.
  apply elem_of_cons in Hy as [->|Hy]; [by apply cmp_le_refl|]. inversion Hs; subst. by eapply Forall_forall.
Qed.

(** The cuts: [A1 ++ B1] and [A2 ++ B2] can be merged apart. *)
Lemma cuts_ok P A B Q s : slots s = P ++ A ++ B ++ Q -> sorted A -> sorted B -> A <> [] -> B <> [] ->
  exists A1 A2 B1 B2, A = A1 ++ A2 /\ B = B1 ++ B2 /\ below cmp A1 B2 /\ strictly_below cmp B1 A2
    /\ length A1 + length B1 < length A + length B
    /\ (length A2 + length B2 < length A + length B \/ length A + length B = 2)
    /\ yields (cuts (length P) (length P + length A) (length P + length A + length B)) s
         (length P + length A1, length P + length A + length B1) (P ++ A ++ B ++ Q).
Proof.
  intros Hs HA HB HneA HneB. unfold cuts.
  assert (1 <= length A) by (destruct A; [done|simpl; lia]). assert (1 <= length B) by (destruct B; [done|simpl; lia]).
  replace (length P + length A - length P) with (length A) by lia.
  replace (length P + length A + length B - (length P + length A)) with (length B) by lia.
  destruct (Nat.ltb_spec (length B) (length A)) as [Hlt|Hge].
  - set (k := length A / 2). assert (1 <= k < length A).
    { split; [apply (Nat.div_le_mono 2 (length A) 2); lia|apply Nat.div_lt; lia]. }
    destruct (lookup_lt_is_Some_2 A k) as [v Hv]; [lia|].
    assert (HvA2 : drop k A = v :: drop (Datatypes.S k) A) by by apply drop_S.
    rewrite <- (take_drop k A) in HA. apply sorted_app in HA as (HA1 & HA2 & HA12).
    destruct (lower_ok (P ++ A) B Q v (length P + k) s) as (B1 & B2 & -> & HB1 & HB2 & Hy).
    { by rewrite Hs, <- app_assoc. } { done. } { rewrite <- app_assoc. by apply at_offset. }
    exists (take k A), (drop k A), B1, B2. rewrite take_drop, length_take, length_drop. split_and!; auto.
    + intros a b Ha Hb. apply le_trans_ with v; [done| |by apply HB2]. apply HA12; [done|]. rewrite HvA2. left.
    + intros b a Hb Ha. apply lt_le_trans with v; [done|by apply HB1|].
      apply (sorted_head_below (drop k A)); auto. by rewrite HvA2.
    + rewrite length_app. lia.
    + left. rewrite length_app. lia.
    + rewrite length_app in Hy. rewrite <- app_assoc in Hy. eapply yields_bind; [exact Hy|]. intros s' Hs'.
      rewrite <- Hs'. replace (k `min` length A) with k by lia. apply yields_ret.
  - set (k := length B / 2). assert (k < length B) by (apply Nat.div_lt; lia).
    destruct (lookup_lt_is_Some_2 B k) as [v Hv]; [lia|].
    assert (HvB2 : drop k B = v :: drop (Datatypes.S k) B) by by apply drop_S.
    rewrite <- (take_drop k B) in HB. apply sorted_app in HB as (HB1 & HB2 & HB12).
    destruct (upper_ok P A (B ++ Q) v (length P + length A + k) s) as (A1 & A2 & -> & HA1 & HA2 & Hy).
    { done. } { done. } { rewrite app_assoc, <- length_app. by apply at_offset. }
    exists A1, A2, (take k B), (drop k B). rewrite take_drop, length_take, length_drop. split_and!; auto.
    + intros a b Ha Hb. apply le_trans_ with v; [done|by apply HA1|].
      apply (sorted_head_below (drop k B)); auto. by rewrite HvB2.
    + intros b a Hb Ha. apply le_lt_trans with v; [done| |by apply HA2]. apply HB12; [done|]. rewrite HvB2. left.
    + rewrite length_app. lia.
    + rewrite length_app in *. destruct (decide (length B = 1)) as [HB1'|]; [right; lia|left].
      assert (1 <= k) by (apply (Nat.div_le_mono 2 (length B) 2); lia). lia.
    + eapply yields_bind; [exact Hy|]. intros s' Hs'. rewrite <- Hs'. replace (k `min` length B) with k by lia.
      apply yields_ret.
Qed.

(** Putting the trimmed ends back around the merged middle. *)
Lemma trimmed_merge A0 A1 B1 B0 M b z : sorted (A0 ++ A1) -> sorted (B1 ++ B0) -> last A1 = Some z -> head B1 = Some b ->
  (forall a, a ∈ A0 -> le a b) -> (forall y, y ∈ B0 -> le z y) -> sorted M -> stable (A1 ++ B1) M ->
  sorted (A0 ++ M ++ B0) /\ stable ((A0 ++ A1) ++ (B1 ++ B0)) (A0 ++ M ++ B0).
Proof.
  intros (HA0 & HA1 & HA)%sorted_app (HB1 & HB0 & HB)%sorted_app Hz Hb Hab Hzy HM HsM.
  assert (HM0 : forall x, x ∈ M -> x ∈ A1 \/ x ∈ B1).
  { intros x Hx. destruct HsM as [Hp _]. rewrite Hp in Hx. by apply elem_of_app. }
  assert (HbB : forall y, y ∈ B1 -> le b y) by (intros y Hy; by apply (sorted_head_below B1)).
  assert (HzA : forall a, a ∈ A1 -> le a z) by (intros y Hy; by apply (sorted_last_below A1)).
  assert (HbB1 : b ∈ B1) by (destruct B1; [done|injection Hb as ->; left]). split.
  - rewrite !sorted_app. split_and!; auto.
    + intros x y Hx Hy. destruct (HM0 x Hx) as [H'|H']; [|by apply HB].
      apply le_trans_ with z; auto.
    + intros a y Ha [Hy|Hy]%elem_of_app.
      * destruct (HM0 y Hy) as [H'|H']; [by apply HA|]. apply le_trans_ with b; auto.
      * apply le_trans_ with b; auto.
  - rewrite <- !app_assoc, (app_assoc A1). by rewrite HsM.
Qed.


(** [merge_in_place_loop fuel] merges two sorted blocks of less than [n] slots in all,
    stably, and leaves the slots around them. *)
Definition merges (fuel n : nat) : Prop := forall A B P Q s from mid to, length A + length B < n ->
  sorted A -> sorted B -> slots s = P ++ A ++ B ++ Q ->
  from = length P -> mid = length P + length A -> to = length P + length A + length B ->
  exists M, yields (merge_in_place_loop fuel from mid to) s tt (P ++ M ++ Q) /\ sorted M /\ stable (A ++ B) M.

(** The body after the ends are trimmed. *)
Definition cut_and_merge (fuel from mid to : nat) : ST S unit :=
  let* (first_cut, second_cut) := cuts from mid to in
  let* _ := rotate first_cut mid second_cut in
  let new_mid := first_cut + (second_cut - mid) in
  let* _ := merge_in_place_loop fuel from first_cut new_mid in
  merge_in_place_loop fuel new_mid second_cut to.

Lemma cut_and_merge_ok fuel n A B P Q s from mid to : merges fuel n -> length A + length B <= n -> 2 < n ->
  sorted A -> sorted B -> A <> [] -> B <> [] -> slots s = P ++ A ++ B ++ Q ->
  from = length P -> mid = length P + length A -> to = length P + length A + length B ->
  exists M, yields (cut_and_merge fuel from mid to) s tt (P ++ M ++ Q) /\ sorted M /\ stable (A ++ B) M.
Proof.
  intros IH Hn H2 HA HB HneA HneB Hs -> -> ->. unfold cut_and_merge.
  destruct (cuts_ok P A B Q s) as (a1 & a2 & b1 & b2 & -> & -> & Hab & Hba & Hl1 & Hl2 & Hy); auto.
  pose proof HA as (Ha1 & Ha2 & _)%sorted_app. pose proof HB as (Hb1 & Hb2 & _)%sorted_app.
  eapply (yields_bind_ex _ _ _ _ _ _ (fun M => P ++ M ++ Q)); [exact Hy|]. clear Hy. intros s1 Hs1. cbn beta iota.
  rewrite !length_app in *. eapply (yields_bind_ex _ _ _ _ _ _ (fun M => P ++ M ++ Q)).
  { apply (rotate_ok (P ++ a1) a2 b1 (b2 ++ Q)); rewrite ?length_app; [by rewrite Hs1, <- !app_assoc|lia|lia|lia]. }
  intros s2 Hs2. replace (length P + length a1 + (length P + (length a1 + length a2) + length b1 - (length P + (length a1 + length a2))))
    with (length P + length a1 + length b1) by lia.
  destruct (IH a1 b1 P (a2 ++ b2 ++ Q) s2 (length P) (length P + length a1) (length P + length a1 + length b1))
    as (m1 & Hy1 & Hm1 & Hst1); auto; [lia|by rewrite Hs2, <- !app_assoc|].
  eapply (yields_bind_ex _ _ _ _ _ _ (fun M => P ++ M ++ Q)); [exact Hy1|]. intros s3 Hs3.
  assert (Hlm : length m1 = length a1 + length b1) by (rewrite <- length_app; apply Permutation_length, Hst1).
  destruct (IH a2 b2 (P ++ m1) Q s3 (length P + length a1 + length b1) (length P + (length a1 + length a2) + length b1)
    (length P + (length a1 + length a2) + (length b1 + length b2))) as (m2 & Hy2 & Hm2 & Hst2);
    rewrite ?length_app; auto; try lia; [by rewrite Hs3, <- !app_assoc|].
  exists (m1 ++ m2). rewrite <- app_assoc in Hy2 |- *. split; [done|].
  by apply merge_sorted.
Qed.

(** The two blocks merge at once when their ends are in order, or when each is one slot. *)
Lemma merged_already A B b z : sorted A -> sorted B -> last A = Some z -> head B = Some b -> le z b -> sorted (A ++ B).
Proof.
  intros HA HB Hz Hb Hle. apply sorted_app. split_and!; auto. intros x y Hx Hy.
  apply le_trans_ with z; [done|by apply (sorted_last_below A)|].
  apply le_trans_ with b; [done|done|by apply (sorted_head_below B)].
Qed.

Lemma merge_two a b : lt b a -> sorted [b; a] /\ stable [a; b] [b; a].
Proof.
  intros Hlt. split; [repeat constructor; by apply cmp_lt_le|].
  apply (stable_swap cmp [a] [b]). by intros x y ->%list_elem_of_singleton ->%list_elem_of_singleton.
Qed.

Lemma merge_loop_ok fuel : merges fuel fuel.
Proof.
  induction fuel as [|fuel IH]; intros A B P Q s from mid to Hf HA HB Hs -> -> ->; [lia|]. cbn [merge_in_place_loop].
  destruct (Nat.eqb_spec (length P) (length P + length A)) as [HA0|HA0].
  { assert (A = []) as -> by (apply length_zero_iff_nil; lia). exists B. split; [by apply yields_done|done]. }
  destruct (Nat.eqb_spec (length P + length A) (length P + length A + length B)) as [HB0|HB0].
  { assert (B = []) as -> by (apply length_zero_iff_nil; lia). exists A. rewrite app_nil_r.
    split; [by apply yields_done|done]. }
  destruct (exists_last (l := A)) as (A' & z & EA); [intros ->; simpl in HA0; lia|].
  destruct B as [|b B']; [simpl in HB0; lia|]. cbn [orb].
  assert (Hlast : last A = Some z) by by rewrite EA, last_snoc.
  assert (HlenA : length A = length A' + 1) by (rewrite EA, length_app; done).
  eapply (yields_bind_ex _ _ _ (cmp z b) _ _ (fun M => P ++ M ++ Q)).
  { apply (yields_compare s _ _ z b); rewrite Hs.
    - rewrite HlenA, EA, <- app_assoc, app_assoc. apply lookup_mid. rewrite length_app. lia.
    - rewrite app_assoc. apply lookup_mid. by rewrite length_app. }
  intros s1 Hs1. rewrite Hs in Hs1. destruct (Z.leb_spec (cmp z b) 0) as [Hle|Hgt].
  { exists (A ++ b :: B'). split; [apply yields_done; by rewrite <- app_assoc|]. split; [|done].
    by apply (merged_already A (b :: B') b z). }
  assert (Hbz : lt b z) by (apply not_le; [done|]; unfold SorterProofs.le; lia).
  destruct (Nat.eqb_spec (length P + length A + length (b :: B')) (2 + length P)) as [H2|H2].
  { cbn [length] in H2. destruct A' as [|]; [|simpl in HlenA; lia]. destruct B'; [|simpl in H2; lia]. subst A.
    exists [b; z]. split; [|by apply merge_two].
    apply (swap_two s1 P z [] b Q); [done|simpl; lia|simpl; lia]. }
  destruct (trim_from_ok b (B' ++ Q) z A P s1 (length P + length A - length P) (length P + length A))
    as (A0 & A1 & HA01 & HA1 & HleA & HlA & Hy); [done|done|done|lia|done|].
  eapply (yields_bind_ex _ _ _ _ _ _ (fun M => P ++ M ++ Q)); [exact Hy|]. clear Hy. intros s2 Hs2.
  destruct (trim_to_ok b z (P ++ A') (length P + length A + length (b :: B') - (length P + length A))
    (b :: B') Q s2 (length P + length A + length (b :: B'))) as (B1 & B0 & HB01 & HhB & HleB & Hy);
    [rewrite Hs2, EA, <- !app_assoc; done|done|done|lia|rewrite length_app; lia|].
  replace (length (P ++ A') + 1) with (length P + length A) in Hy by (rewrite length_app; lia).
  eapply (yields_bind_ex _ _ _ _ _ _ (fun M => P ++ M ++ Q)); [exact Hy|]. clear Hy. intros s3 Hs3.
  assert (Hs3' : slots s3 = (P ++ A0) ++ A1 ++ B1 ++ (B0 ++ Q)).
  { transitivity (P ++ A ++ (b :: B') ++ Q); [by rewrite Hs3, EA, <- !app_assoc|].
    by rewrite HA01, HB01, <- !app_assoc. }
  rewrite HB01, HA01, !length_app in *.
  pose proof HA as (HsA0 & HsA1 & _)%sorted_app. pose proof HB as (HsB1 & HsB0 & _)%sorted_app.
  destruct (cut_and_merge_ok fuel fuel A1 B1 (P ++ A0) (B0 ++ Q) s3 (length P + length A0)
    (length P + (length A0 + length A1)) (length P + (length A0 + length A1) + length B1)) as (M & Hy & HM & HsM);
    rewrite ?length_app; auto; try lia; [by destruct B1|].
  exists (A0 ++ M ++ B0). split; [|by apply (trimmed_merge A0 A1 B1 B0 M b z)].
  rewrite <- !app_assoc in Hy. rewrite <- !app_assoc. exact Hy.
Qed.

Lemma merge_ok A B P Q s from mid to : sorted A -> sorted B -> slots s = P ++ A ++ B ++ Q ->
  from = length P -> mid = length P + length A -> to = length P + length A + length B ->
  exists M, yields (merge_in_place from mid to) s tt (P ++ M ++ Q) /\ sorted M /\ stable (A ++ B) M.
Proof. intros. subst. apply merge_loop_ok; auto. lia. Qed.

(** ** Insertion into a sorted block *)

Lemma inserted A1 A2 x : sorted (A1 ++ A2) -> (forall a, a ∈ A1 -> le a x) -> (forall a, a ∈ A2 -> lt x a) ->
  sorted (A1 ++ x :: A2) /\ stable ((A1 ++ A2) ++ [x]) (A1 ++ x :: A2).
Proof.
  intros (H1 & H2 & Hb)%sorted_app Hle Hlt. split.
  - apply sorted_app. split_and!; [done| |].
    + constructor; [done|]. apply Forall_forall. intros a Ha. by apply cmp_lt_le, Hlt.
    + intros a b Ha [->|Hx]%elem_of_cons; [by apply Hle|by apply Hb].
  - rewrite <- app_assoc. apply stable_app; [done|]. apply (stable_swap cmp A2 [x]).
    intros a b ->%list_elem_of_singleton Hx. by apply Hlt.
Qed.

Lemma pivot_search_ok P A Q v k fuel : splits_at (fun a => lt v a) A k ->
  forall f g s, slots s = P ++ A ++ Q -> pivot_is s v -> g - f < fuel -> f <= k <= g -> g <= length A ->
  yields (pivot_search fuel (length P + f) (length P + g)) s (length P + k) (P ++ A ++ Q).
Proof.
  intros (Hk & H1 & H2). induction fuel as [|fuel IH]; intros f g s Hs Hp Hf Hr Hg; [lia|]. cbn [pivot_search].
  destruct (Nat.ltb_spec (length P + f) (length P + g)) as [Hlt|]; [|replace k with f by lia; rewrite <- Hs; apply yields_ret].
  set (half := (length P + g - (length P + f) - 1) / 2). assert (f + half < g).
  { unfold half. replace (length P + g - (length P + f) - 1) with (g - f - 1) by lia.
    pose proof (Nat.div_le_upper_bound (g - f - 1) 2 (g - f - 1)). lia. }
  clearbody half. destruct (lookup_lt_is_Some_2 A (f + half)) as [b Hb]; [lia|].
  destruct (compare_pivot_law s (length P + f + half) v b Hp) as (s1 & Hc & Hs1 & Hp1).
  { rewrite Hs, <- Nat.add_assoc. by apply at_offset. }
  unfold yields. erewrite sbind_ok by exact Hc. rewrite Hs in Hs1. destruct (Z.ltb_spec (cmp v b) 0) as [Hvb|Hvb].
  - assert (k <= f + half) by (apply Nat.nlt_ge; intros Hlt'; by apply (H1 _ _ Hlt' Hb)).
    rewrite <- Nat.add_assoc. apply IH; auto; lia.
  - assert (f + half < k).
    { apply Nat.nle_gt. intros Hle. pose proof (H2 _ _ Hle Hb) as Hx. unfold SorterProofs.lt in Hx. lia. }
    replace (length P + f + half + 1) with (length P + (f + half + 1)) by lia. apply IH; auto; lia.
Qed.

Lemma sink_ok x n : forall M P Q s j, slots s = P ++ M ++ x :: Q -> n = length M -> j = length P + length M ->
  yields (sink n j) s tt (P ++ x :: M ++ Q).
Proof.
  induction n as [|n IH]; intros M P Q s j Hs Hn ->.
  { assert (M = []) as -> by (by apply length_zero_iff_nil). by apply yields_done. }
  destruct (exists_last (l := M)) as (M' & y & ->); [by intros ->|]. rewrite length_app in *. cbn [length sink] in *.
  eapply yields_bind.
  { apply (swap_two s (P ++ M') y [] x Q); [by rewrite Hs, <- !app_assoc|rewrite length_app; lia|].
    rewrite length_app. cbn [length]. lia. }
  intros s' Hs'. rewrite <- (app_assoc M' [y] Q). apply IH; [by rewrite Hs', <- !app_assoc|lia|lia].
Qed.

Lemma binary_loop_ok B : forall A P Q s from i, slots s = P ++ A ++ B ++ Q -> sorted A ->
  from = length P -> i = length P + length A ->
  exists M, yields (binary_sort_loop (length B) from i) s tt (P ++ M ++ Q) /\ sorted M /\ stable (A ++ B) M.
Proof.
  induction B as [|x B IH]; intros A P Q s from i Hs HA -> ->.
  { exists A. rewrite app_nil_r. split; [by apply yields_done|done]. }
  cbn [length binary_sort_loop]. destruct (splits_exists (fun a => lt x a) A HA) as (k & Hk).
  { intros a b Hab Ha. by apply lt_le_trans with a. }
  destruct (splits_app _ _ _ Hk) as (A1 & A2 & HA12 & Hlen & H1 & H2).
  destruct (set_pivot_law s (length P + length A) x) as (s1 & Hp & Hs1 & Hpv).
  { rewrite Hs, app_assoc. apply lookup_mid. by rewrite length_app. }
  rewrite Hs in Hs1.
  pose proof (pivot_search_ok P A ((x :: B) ++ Q) x k (Datatypes.S (length A)) Hk 0 (length A) s1 Hs1 Hpv) as Hy.
  destruct Hy as (s2 & Hy & Hs2); [lia|destruct Hk; lia|lia|]. rewrite Nat.add_0_r, <- Hlen in Hy.
  subst A. rewrite length_app in *.
  destruct (sink_ok x (length A2) A2 (P ++ A1) (B ++ Q) s2 (length P + (length A1 + length A2))) as (s3 & Hz & Hs3).
  { by rewrite Hs2, <- !app_assoc. } { done. } { rewrite length_app. lia. }
  destruct (inserted A1 A2 x HA) as (HM1 & HM2); [|done|].
  { intros a Ha. specialize (H1 a Ha). rewrite <- not_le in H1 by done. unfold SorterProofs.le in *. lia. }
  destruct (IH (A1 ++ x :: A2) P Q s3 (length P) (length P + (length A1 + length A2) + 1)) as (M & (s4 & Hm & Hs4) & HM & HstM); auto.
  { by rewrite Hs3, <- !app_assoc. } { rewrite length_app. simpl. lia. }
  exists M. split_and!; [|done|]. 2: { rewrite <- HstM. change (x :: B) with ([x] ++ B). rewrite (app_assoc _ [x]). by rewrite HM2. }
  exists s4. split; [|done]. erewrite sbind_ok by exact Hp.
  replace (length P + (length A1 + length A2) - length P) with (length A1 + length A2) by lia.
  erewrite sbind_ok by exact Hy.
  replace (length P + (length A1 + length A2) - (length P + length A1)) with (length A2) by lia.
  erewrite sbind_ok by exact Hz. exact Hm.
Qed.

(** [m from to] sorts the slots from [from] to [to] stably and leaves the others. *)
Definition sorts_stably (m : nat -> nat -> ST S unit) : Prop := forall P L Q s from to,
  slots s = P ++ L ++ Q -> from = length P -> to = length P + length L ->
  exists M, yields (m from to) s tt (P ++ M ++ Q) /\ sorted M /\ stable L M.

Lemma binary_sort_ok : sorts_stably binary_sort.
Proof.
  intros P L Q s from to Hs -> ->. unfold binary_sort, binary_sort_with_start. destruct L as [|x L].
  { exists []. cbn [length]. replace (length P + 0 - (length P + 1)) with 0 by lia.
    split; [by apply yields_done|]. split; [constructor|done]. }
  cbn [length]. replace (length P + Datatypes.S (length L) - (length P + 1)) with (length L) by lia.
  apply (binary_loop_ok L [x]); [done|repeat constructor|done|done].
Qed.

Lemma insert_down_ok x fuel : forall A P Q s, slots s = P ++ A ++ x :: Q -> sorted A -> A <> [] -> length A <= fuel ->
  exists A1 A2, A = A1 ++ A2 /\ yields (insert_down fuel (length P) (length P + length A)) s tt (P ++ (A1 ++ x :: A2) ++ Q)
    /\ (forall a, a ∈ A1 -> le a x) /\ (forall a, a ∈ A2 -> lt x a).
Proof.
  induction fuel as [|fuel IH]; intros A P Q s Hs HA Hne Hf; [destruct A; simpl in *; [done|lia]|].
  destruct (exists_last Hne) as (A' & y & ->). rewrite length_app in *. cbn [length insert_down] in *.
  replace (length P + (length A' + 1) - 1) with (length P + length A') by lia.
  destruct (yields_compare s (length P + length A') (length P + (length A' + 1)) y x) as (s1 & Hc & Hs1).
  { rewrite Hs, <- app_assoc, app_assoc. apply lookup_mid. by rewrite length_app. }
  { rewrite Hs, app_assoc. apply lookup_mid. rewrite !length_app. done. }
  rewrite Hs in Hs1. pose proof HA as (HA' & _ & Hbelow)%sorted_app. destruct (Z.ltb_spec 0 (cmp y x)) as [Hgt|Hle].
  - assert (Hxy : lt x y) by (apply not_le; [done|]; unfold SorterProofs.le; lia).
    destruct (swap_two s1 (P ++ A') y [] x Q (length P + length A') (length P + (length A' + 1))) as (s2 & Hw & Hs2).
    { by rewrite Hs1, <- !app_assoc. } { by rewrite length_app. } { rewrite length_app. simpl. lia. }
    destruct (decide (A' = [])) as [->|HneA].
    + exists [], [y]. split_and!; [done| |by intros a ?%elem_of_nil|by intros a ->%list_elem_of_singleton].
      exists s2. cbn [length] in *. split; [|by rewrite Hs2, app_nil_r]. erewrite sbind_ok by exact Hc.
      apply Z.ltb_lt in Hgt as ->. erewrite sbind_ok by exact Hw. by rewrite Nat.add_0_r, Nat.eqb_refl.
    + destruct (IH A' P (y :: Q) s2) as (A1 & A2 & -> & (s3 & Hy & Hs3) & H1 & H2); auto; [|lia|].
      { rewrite Hs2, <- !app_assoc. done. }
      exists A1, (A2 ++ [y]). split_and!; [by rewrite app_assoc| |done|].
      * exists s3. split; [|rewrite Hs3; cbn; by rewrite <- !app_assoc; cbn; rewrite <- app_assoc].
        erewrite sbind_ok by exact Hc. apply Z.ltb_lt in Hgt as ->. erewrite sbind_ok by exact Hw.
        destruct (Nat.eqb_spec (length P + length (A1 ++ A2)) (length P)) as [E|_]; [|exact Hy].
        exfalso. apply HneA, length_zero_iff_nil. lia.
      * intros a [Ha|Ha]%elem_of_app; [by apply H2|by apply list_elem_of_singleton in Ha as ->].
  - exists (A' ++ [y]), []. rewrite app_nil_r. split_and!; [done| | |by intros a ?%elem_of_nil].
    + exists s1. split; [|by rewrite Hs1, <- !app_assoc]. erewrite sbind_ok by exact Hc.
      apply Z.ltb_ge in Hle as ->. done.
    + intros a Ha. apply le_trans_ with y; [done| |done].
      apply (sorted_last_below (A' ++ [y])); [done|by rewrite last_snoc|done].
Qed.

Lemma insertion_loop_ok B : forall A P Q s from i, slots s = P ++ A ++ B ++ Q -> sorted A -> A <> [] ->
  from = length P -> i = length P + length A ->
  exists M, yields (insertion_loop (length B) from i) s tt (P ++ M ++ Q) /\ sorted M /\ stable (A ++ B) M.
Proof.
  induction B as [|x B IH]; intros A P Q s from i Hs HA Hne -> ->.
  { exists A. rewrite app_nil_r. split; [by apply yields_done|done]. }
  cbn [length insertion_loop]. replace (length P + length A - length P) with (length A) by lia.
  destruct (insert_down_ok x (length A) A P (B ++ Q) s) as (A1 & A2 & -> & Hy & H1 & H2); auto.
  destruct (inserted A1 A2 x HA H1 H2) as (HM1 & HM2).
  eapply (yields_bind_ex _ _ _ _ _ _ (fun M => P ++ M ++ Q)); [exact Hy|]. intros s1 Hs1.
  destruct (IH (A1 ++ x :: A2) P Q s1 (length P) (length P + length (A1 ++ A2) + 1)) as (M & Hm & HM & HstM); auto.
  { by destruct A1. } { rewrite !length_app. simpl. lia. }
  exists M. split_and!; [done|done|]. rewrite <- HstM. change (x :: B) with ([x] ++ B).
  by rewrite (app_assoc _ [x]), HM2.
Qed.

Lemma insertion_sort_ok : sorts_stably insertion_sort.
Proof.
  intros P L Q s from to Hs -> ->. unfold insertion_sort. destruct L as [|x L].
  { exists []. cbn [length]. replace (length P + 0 - (length P + 1)) with 0 by lia.
    split; [by apply yields_done|]. split; [constructor|done]. }
  cbn [length]. replace (length P + Datatypes.S (length L) - (length P + 1)) with (length L) by lia.
  apply (insertion_loop_ok L [x]); [done|repeat constructor|done|done|done].
Qed.

(** A stable sort has one result. *)
Lemma stable_sorted_unique M : forall M', sorted M -> sorted M' -> stable M M' -> M = M'.
Proof.
  induction M as [|a M IH]; intros M' HM HM' [Hp Hf].
  { by apply Permutation_nil_r in Hp as ->. }
  destruct M' as [|b M']; [by apply Permutation_nil_cons in Hp|].
  assert (Hab : le a b).
  { apply (sorted_head_below (a :: M)); auto. rewrite <- Hp. left. }
  assert (Hba : le b a).
  { apply (sorted_head_below (b :: M')); auto. rewrite Hp. left. }
  assert (a = b) as <-.
  { pose proof (Hf a) as Hfa. rewrite !filter_cons_True in Hfa by (split; auto; by apply cmp_le_refl). by injection Hfa. }
  f_equal. inversion HM; inversion HM'; subst. apply IH; auto. split; [by apply Permutation_cons_inv in Hp|].
  intros x. specialize (Hf x). rewrite !filter_cons in Hf. by case_decide; simplify_eq.
Qed.

Lemma stable_result_unique L M M' : sorted M -> sorted M' -> stable L M -> stable L M' -> M = M'.
Proof. intros HM HM' H1 H2. apply stable_sorted_unique; auto. by rewrite <- H1. Qed.

Lemma half_middle p n : (p + (p + n)) / 2 = p + n / 2.
Proof. replace (p + (p + n)) with (p * 2 + n) by lia. rewrite Nat.div_add_l; lia. Qed.

End Routines.

(** * The sorters meet the contract *)

Module MergeSort.
Import InPlaceMergeSorter.

Section MergeSort.
Context {S T : Type} (cmp : T -> T -> Z) `{SS : SorterSpec S T cmp} {CO : CmpOrder cmp}.

#[export] Instance merge_sorter_spec : SorterSpec (t S) cmp.
Proof.
  refine {| slots x := slots (sub x); pivot_is x p := slots (sub x) !! pivot_index x = Some p |}.
  - intros x i j a b Ha Hb. destruct (compare_law (sub x) i j a b Ha Hb) as (s' & Hc & Hs').
    exists (mk s' (pivot_index x)). split; [|done]. cbn. unfold compare_, on_sub. by rewrite Hc.
  - intros x i j a b Ha Hb. destruct (swap_law (sub x) i j a b Ha Hb) as (s' & Hc & Hs').
    exists (mk s' (pivot_index x)). split; [|done]. cbn. unfold on_sub. by rewrite Hc.
  - intros x i a Ha. by exists (mk (sub x) i).
  - intros x j p b Hp Hb. destruct (compare_law (sub x) (pivot_index x) j p b Hp Hb) as (s' & Hc & Hs').
    exists (mk s' (pivot_index x)). cbn. rewrite Hs'. split; [|done]. unfold compare_, on_sub. by rewrite Hc.
Defined.

Lemma merge_sort_loop_ok fuel : forall P L Q s from to, length L < fuel -> slots s = P ++ L ++ Q ->
  from = length P -> to = length P + length L ->
  exists M, yields cmp (merge_sort_loop fuel from to) s tt (P ++ M ++ Q) /\ StronglySorted (le cmp) M /\ stable cmp L M.
Proof.
  induction fuel as [|fuel IH]; intros P L Q s from to Hf Hs -> ->; [lia|]. cbn [merge_sort_loop].
  destruct (Nat.ltb_spec (length P + length L - length P) BINARY_SORT_THRESHOLD) as [_|Hbig]; [by apply binary_sort_ok|].
  assert (20 <= length L) by (unfold BINARY_SORT_THRESHOLD in Hbig; lia). rewrite half_middle.
  remember (length L) as n eqn:Hn. set (k := n / 2). assert (Hk : 1 <= k < n).
  { split; [apply (Nat.div_le_mono 2 n 2); lia|apply Nat.div_lt; lia]. }
  rewrite <- (take_drop k L) in Hs |- *. set (A := take k L) in *. set (B := drop k L) in *.
  assert (HlA : length A = k) by (unfold A; rewrite length_take; lia).
  assert (HlB : length B = n - k) by (unfold B; rewrite length_drop; lia).
  destruct (IH P A (B ++ Q) s (length P) (length P + k)) as (M1 & Hy1 & HM1 & Hst1); [lia|by rewrite Hs, <- app_assoc|lia|lia|].
  assert (Hl1 : length M1 = k) by (rewrite <- HlA; apply Permutation_length, Hst1).
  eapply (yields_bind_ex cmp _ _ _ _ _ _ (fun M => P ++ M ++ Q)); [exact Hy1|]. intros s1 Hs1.
  destruct (IH (P ++ M1) B Q s1 (length P + k) (length P + n)) as (M2 & Hy2 & HM2 & Hst2);
    rewrite ?length_app; try lia; [by rewrite Hs1, <- app_assoc|].
  assert (Hl2 : length M2 = n - k) by (rewrite <- HlB; apply Permutation_length, Hst2).
  eapply (yields_bind_ex cmp _ _ _ _ _ _ (fun M => P ++ M ++ Q)); [exact Hy2|]. intros s2 Hs2.
  destruct (merge_ok cmp M1 M2 P Q s2 (length P) (length P + k) (length P + n)) as (M & Hm & HM & HstM);
    rewrite ?length_app; auto; try lia; [by rewrite Hs2, <- app_assoc|].
  exists M. split_and!; [done|done|]. rewrite Hst1, Hst2. done.
Qed.

Lemma sort_ok : sorts_stably cmp sort.
Proof.
  intros P L Q s from to Hs -> ->. unfold sort, check_range. destruct (Nat.ltb_spec (length P + length L) (length P)); [lia|].
  destruct (merge_sort_loop_ok (Datatypes.S (length L)) P L Q s (length P) (length P + length L)) as (M & Hm & HM); auto.
  exists M. split; [|done]. unfold merge_sort. by replace (length P + length L - length P) with (length L) by lia.
Qed.
End MergeSort.
End MergeSort.

Module ArraySort.
Import ArrayIntroSorter.

Section ArraySort.
Context {T : Type} (cmp : T -> T -> Z) (comparator : T -> T -> result Z).
Hypothesis comparator_total : forall a b, comparator a b = Ok (cmp a b).

#[local] Instance sorter_of_array : Sorter (t T) := array_sorter comparator.

#[local] Instance array_sorter_spec : SorterSpec (t T) cmp.
Proof.
  refine {| slots := arr; pivot_is s p := arr s !! pivot s = Some p |}.
  - intros s i j a b Ha Hb. exists s. split; [|done]. cbn. unfold compare_. by rewrite Ha, Hb, comparator_total.
  - intros s i j a b Ha Hb. cbn. unfold swap_. rewrite Ha, Hb. by eexists.
  - intros s i a Ha. by exists (mk (arr s) i).
  - intros s j p b Hp Hb. exists s. split; [|done]. cbn. unfold compare_pivot_, compare_. by rewrite Hp, Hb, comparator_total.
Defined.
End ArraySort.
End ArraySort.

End SorterProofs.
