(* ===== verification/HeapSort.v ===== *)
(** [heap_sort] of [src/core/util/sorter.rs] sorts in place: the block between [from] and
    [to] is a heap with its greatest element first, which shrinks as the sorted tail grows. *)

From Stdlib Require Import ZArith Lia Bool Arith.
From stdpp Require Import base tactics numbers list sorting.
From S2P Require Import Prelude Sorter SorterProofs.
Import Sorter SorterProofs.

Local Open Scope nat_scope.

Module HeapSort.
Section HeapSort.
Context {S T : Type} (cmp : T -> T -> Z) `{SS : SorterSpec S T cmp} {CO : CmpOrder cmp}.
Implicit Types (P M Q R : list T) (s : S).

Abbreviation le := (SorterProofs.le cmp).
Abbreviation lt := (SorterProofs.lt cmp).
Abbreviation sorted := (StronglySorted le).
Abbreviation yields := (SorterProofs.yields cmp).

(** [m from to] sorts the slots from [from] to [to] and leaves the others. *)
Definition sorts (m : nat -> nat -> ST S unit) : Prop := forall P L Q s from to,
  slots s = P ++ L ++ Q -> from = length P -> to = length P + length L ->
  exists M, yields (m from to) s tt (P ++ M ++ Q) /\ sorted M /\ M ≡ₚ L.

Lemma sorts_stably_sorts m : sorts_stably cmp m -> sorts m.
Proof.
  intros Hm P L Q s from to Hs Hf Ht. destruct (Hm P L Q s from to Hs Hf Ht) as (M & Hy & HM & [Hp _]). eauto.
Qed.

(** ** Exchanges inside a block *)

Definition exch M (i j : nat) : list T :=
  match M !! i, M !! j with Some a, Some b => <[i := b]> (<[j := a]> M) | _, _ => M end.

Lemma length_exch M i j : length (exch M i j) = length M.
Proof. unfold exch. repeat case_match; by rewrite ?length_insert. Qed.

Lemma exch_perm M i j : exch M i j ≡ₚ M.
Proof.
  unfold exch. destruct (M !! i) as [a|] eqn:Ha; [|done]. destruct (M !! j) as [b|] eqn:Hb; [|done].
  destruct (decide (i = j)) as [->|Hij].
  { simplify_eq. by rewrite list_insert_insert_eq, list_insert_id. }
  apply Permutation_inj. split; [by rewrite !length_insert|].
  exists (fun k => if decide (k = i) then j else if decide (k = j) then i else k). split.
  - intros x y. repeat case_decide; naive_solver.
  - intros k. assert (i < length M) by (by eapply lookup_lt_Some). assert (j < length M) by (by eapply lookup_lt_Some).
    repeat case_decide; subst.
    + by rewrite list_lookup_insert_eq by (rewrite length_insert; lia).
    + by rewrite list_lookup_insert_ne, list_lookup_insert_eq by (done || lia).
    + by rewrite !list_lookup_insert_ne by done.
Qed.

Lemma exch_lookup M i j a b k : M !! i = Some a -> M !! j = Some b ->
  exch M i j !! k = if decide (k = i) then Some b else if decide (k = j) then Some a else M !! k.
Proof.
  intros Ha Hb. unfold exch. rewrite Ha, Hb. assert (i < length M) by (by eapply lookup_lt_Some).
  assert (j < length M) by (by eapply lookup_lt_Some). repeat case_decide; subst.
  - by rewrite list_lookup_insert_eq by (rewrite length_insert; lia).
  - by rewrite list_lookup_insert_ne, list_lookup_insert_eq by (done || lia).
  - by rewrite !list_lookup_insert_ne by done.
Qed.

Lemma swap_block P M Q s i j : slots s = P ++ M ++ Q -> i < length M -> j < length M ->
  exists s', swap (length P + i) (length P + j) s = (Ok tt, s') /\ slots s' = P ++ exch M i j ++ Q.
Proof.
  intros Hs Hi Hj. destruct (lookup_lt_is_Some_2 M i Hi) as [a Ha]. destruct (lookup_lt_is_Some_2 M j Hj) as [b Hb].
  destruct (swap_law s (length P + i) (length P + j) a b) as (s' & Hw & Hs').
  { rewrite Hs. by apply at_offset. } { rewrite Hs. by apply at_offset. }
  exists s'. split; [done|]. rewrite Hs', Hs. unfold exch. rewrite Ha, Hb.
  rewrite insert_app_r, (insert_app_l M) by lia. rewrite insert_app_r, insert_app_l by (rewrite length_insert; lia). done.
Qed.

Lemma compare_block P M Q s i j a b : slots s = P ++ M ++ Q -> M !! i = Some a -> M !! j = Some b ->
  yields (compare (length P + i) (length P + j)) s (cmp a b) (P ++ M ++ Q).
Proof. intros Hs Ha Hb. rewrite <- Hs. apply yields_compare; rewrite Hs; by apply at_offset. Qed.

(** ** Heaps *)

Definition child (p c : nat) : Prop := c = 2 * p + 1 \/ c = 2 * p + 2.
Definition dom M (p c : nat) : Prop := forall a b, M !! p = Some a -> M !! c = Some b -> le b a.

(** Parents from [k] on dominate their children. *)
Definition heap M (k : nat) : Prop := forall p c, k <= p -> child p c -> dom M p c.

(** All but the parent [i], whose own parent dominates its children. *)
Definition almost M (k i : nat) : Prop :=
  (forall p c, k <= p -> child p c -> p <> i -> dom M p c) /\
  (forall p c, k <= p -> child p i -> child i c -> dom M p c).

Lemma heap_top M a : heap M 0 -> M !! 0 = Some a -> forall i b, M !! i = Some b -> le b a.
Proof.
  intros HM Ha i. induction (lt_wf i) as [i _ IH]. intros b Hb. destruct i as [|i].
  { simplify_eq. by apply cmp_le_refl. }
  set (p := i / 2). assert (Hp : child p (Datatypes.S i)).
  { unfold child, p. pose proof (Nat.div_mod i 2 ltac:(lia)). pose proof (Nat.mod_upper_bound i 2 ltac:(lia)). lia. }
  assert (Hlt : p < Datatypes.S i) by (destruct Hp; lia).
  destruct (lookup_lt_is_Some_2 M p) as [c Hc]; [apply lookup_lt_Some in Hb; lia|].
  apply le_trans_ with c; [done| |by apply (IH p)]. by apply (HM p (Datatypes.S i) ltac:(lia) Hp).
Qed.

Lemma almost_settled M k i : almost M k i -> (forall c, child i c -> dom M i c) -> heap M k.
Proof. intros [H1 _] Hi p c Hk Hc. destruct (decide (p = i)) as [->|Hne]; [by apply Hi|by apply H1]. Qed.

(** Exchanging [i] with its greater child [c] moves the defect to [c]. *)
Lemma almost_exch M k i c x y : almost M k i -> k <= i -> child i c -> M !! i = Some x -> M !! c = Some y -> lt x y ->
  (forall c', child i c' -> dom M c c') -> almost (exch M i c) k c.
Proof.
  intros [H1 H2] Hk Hc Hx Hy Hlt Hother.
  assert (Hgt : forall p d, child p d -> p < d) by (intros p d [-> | ->]; lia). pose proof (Hgt i c Hc).
  assert (Hpar : forall p p' d, child p d -> child p' d -> p = p') by (intros p p' d [-> | ->] [E|E]; lia).
  split.
  - intros p d Hp Hd Hpc a b. rewrite !(exch_lookup M i c x y) by done.
    destruct (decide (p = i)) as [->|Hpi].
    + destruct (decide (d = i)) as [->|_]; [pose proof (Hgt i i Hd); lia|]. intros [= <-].
      case_decide; [intros [= <-]; by apply cmp_lt_le|]. intros Hb. by apply (Hother d Hd).
    + rewrite (decide_False _ _ Hpc). intros Ha. destruct (decide (d = i)) as [->|Hdi].
      * intros [= <-]. by apply (H2 p c Hp Hd Hc).
      * destruct (decide (d = c)) as [->|Hdc]; [by destruct Hpi; eapply Hpar|]. by apply (H1 p d).
  - intros p d Hp Hpc Hcd a b. rewrite !(exch_lookup M i c x y) by done.
    assert (p = i) as -> by (by eapply Hpar). pose proof (Hgt c d Hcd).
    rewrite decide_True by done. rewrite !decide_False by lia. intros [= <-] Hb. apply (H1 c d); auto; lia.
Qed.

(** [right_child < to && compare(i, right_child)? < 0] *)
Lemma larger_ok P M Q s i r x : slots s = P ++ M ++ Q -> M !! i = Some x ->
  exists b : bool, yields (if length P + r <? length P + length M
      then let* c := compare (length P + i) (length P + r) in sret (c <? 0)%Z else sret false) s b (P ++ M ++ Q)
    /\ if b then exists y, M !! r = Some y /\ lt x y else forall y, M !! r = Some y -> le y x.
Proof.
  intros Hs Hx. destruct (Nat.ltb_spec (length P + r) (length P + length M)) as [Hlt|Hge].
  - destruct (lookup_lt_is_Some_2 M r) as [y Hy]; [lia|]. exists (cmp x y <? 0)%Z. split.
    + eapply yields_bind; [by apply (compare_block P M Q s i r x y)|]. intros s' <-. apply yields_ret.
    + destruct (Z.ltb_spec (cmp x y) 0) as [H'|H']; [by exists y|]. intros z Hz.
      assert (z = y) as -> by congruence. by apply cmp_ge_le.
  - exists false. split; [rewrite <- Hs; apply yields_ret|]. intros y Hy%lookup_lt_Some. lia.
Qed.

Lemma sift_loop_ok P Q k fuel : forall M i s, slots s = P ++ M ++ Q -> almost M k i -> k <= i -> length M - i < fuel ->
  exists M', yields (sift_down_loop fuel (length P + i) (length P) (length P + length M)) s tt (P ++ M' ++ Q)
    /\ heap M' k /\ M' ≡ₚ M.
Proof.
  induction fuel as [|fuel IH]; intros M i s Hs Hal Hk Hf; [lia|]. cbn [sift_down_loop].
  assert (Hdescend : forall c x y s1, slots s1 = P ++ M ++ Q -> child i c -> M !! i = Some x -> M !! c = Some y -> lt x y ->
    (forall c', child i c' -> dom M c c') ->
    exists M', yields (let* _ := swap (length P + i) (length P + c) in
      sift_down_loop fuel (length P + c) (length P) (length P + length M)) s1 tt (P ++ M' ++ Q) /\ heap M' k /\ M' ≡ₚ M).
  { intros c x y s1 Hs1 Hc Hx Hy Hxy Hdom. pose proof (lookup_lt_Some _ _ _ Hx). pose proof (lookup_lt_Some _ _ _ Hy).
    destruct (swap_block P M Q s1 i c) as (s2 & Hw & Hs2); auto. assert (i < c) by (destruct Hc; lia).
    destruct (IH (exch M i c) c s2 Hs2) as (M' & (s3 & Hy3 & Hs3) & HM' & Hp); rewrite ?length_exch; try lia.
    { by apply almost_exch with x y. }
    exists M'. rewrite length_exch in Hy3. split; [|split; [done|by rewrite Hp, exch_perm]].
    exists s3. split; [|done]. by erewrite sbind_ok. }
  unfold heap_child. replace ((length P + i - length P) * 2 + 1 + length P) with (length P + (2 * i + 1)) by lia.
  destruct (Nat.ltb_spec (length P + (2 * i + 1)) (length P + length M)) as [Hl|Hl].
  2: { exists M. split; [by apply yields_done|]. split; [|done]. apply (almost_settled M k i Hal).
       intros c [-> | ->] a b _ Hb%lookup_lt_Some; lia. }
  destruct (lookup_lt_is_Some_2 M i) as [x Hx]; [lia|]. destruct (lookup_lt_is_Some_2 M (2 * i + 1)) as [y Hy]; [lia|].
  eapply (yields_bind_ex cmp _ _ _ _ _ _ (fun M' => P ++ M' ++ Q)).
  { by apply (compare_block P M Q s i (2 * i + 1) x y). }
  intros s1 Hs1. replace (length P + (2 * i + 1) + 1) with (length P + (2 * i + 2)) by lia. destruct (Z.ltb_spec (cmp x y) 0) as [Hxy|Hxy].
  - destruct (larger_ok P M Q s1 (2 * i + 1) (2 * i + 2) y Hs1 Hy) as (b & Hb & Hcase).
    eapply (yields_bind_ex cmp _ _ _ _ _ _ (fun M' => P ++ M' ++ Q)); [exact Hb|]. intros s2 Hs2. destruct b.
    + destruct Hcase as (z & Hz & Hyz). apply (Hdescend (2 * i + 2) x z s2); auto; [by right| |].
      * apply lt_le_trans with y; [done|done|by apply cmp_lt_le].
      * intros c' [-> | ->] a d Ha Hd; simplify_eq; [by apply cmp_lt_le|by apply cmp_le_refl].
    + apply (Hdescend (2 * i + 1) x y s2); auto; [by left|].
      intros c' [-> | ->] a d Ha Hd; simplify_eq; [by apply cmp_le_refl|].
      by apply Hcase.
  - assert (Hyx : le y x) by by apply cmp_ge_le.
    destruct (larger_ok P M Q s1 i (2 * i + 2) x Hs1 Hx) as (b & Hb & Hcase).
    eapply (yields_bind_ex cmp _ _ _ _ _ _ (fun M' => P ++ M' ++ Q)); [exact Hb|]. intros s2 Hs2. destruct b.
    + destruct Hcase as (z & Hz & Hxz). apply (Hdescend (2 * i + 2) x z s2); auto; [by right|].
      intros c' [-> | ->] a d Ha Hd; simplify_eq.
      * apply le_trans_ with x; [done|done|by apply cmp_lt_le].
      * by apply cmp_le_refl.
    + exists M. split; [by apply yields_done|]. split; [|done]. apply (almost_settled M k i Hal).
      intros c [-> | ->] a d Ha Hd; simplify_eq; [done|]. by apply Hcase.
Qed.

Lemma sift_down_ok P M Q k i s : slots s = P ++ M ++ Q -> almost M k i -> k <= i ->
  exists M', yields (sift_down (length P + i) (length P) (length P + length M)) s tt (P ++ M' ++ Q)
    /\ heap M' k /\ M' ≡ₚ M.
Proof. intros. apply sift_loop_ok; auto. lia. Qed.

Lemma heap_almost M k : heap M (k + 1) -> almost M k k.
Proof.
  intros HM. split.
  - intros p c Hp Hc Hne. apply HM; [lia|done].
  - intros p c Hp Hc. destruct Hc; lia.
Qed.

Lemma heapify_loop_ok P Q n : forall M s, slots s = P ++ M ++ Q -> heap M n ->
  exists M', yields (heapify_loop n (length P) (length P + length M)) s tt (P ++ M' ++ Q) /\ heap M' 0 /\ M' ≡ₚ M.
Proof.
  induction n as [|n IH]; intros M s Hs HM; [exists M; split; [by apply yields_done|done]|]. cbn [heapify_loop].
  destruct (sift_down_ok P M Q n n s Hs) as (M1 & Hy & HM1 & Hp); [apply heap_almost; by rewrite Nat.add_1_r|done|].
  eapply (yields_bind_ex cmp _ _ _ _ _ _ (fun M' => P ++ M' ++ Q)); [exact Hy|]. intros s1 Hs1.
  rewrite <- (Permutation_length Hp). destruct (IH M1 s1 Hs1 HM1) as (M' & Hy' & HM' & Hp').
  exists M'. split; [done|]. split; [done|]. by rewrite Hp'.
Qed.

Lemma heapify_ok P M Q s : slots s = P ++ M ++ Q -> 2 <= length M ->
  exists M', yields (heapify (length P) (length P + length M)) s tt (P ++ M' ++ Q) /\ heap M' 0 /\ M' ≡ₚ M.
Proof.
  intros Hs Hl. unfold heapify. apply heapify_loop_ok; [done|]. intros p c Hp Hc a b _ Hb%lookup_lt_Some. exfalso.
  unfold heap_parent in Hp. set (q := (length P + length M - 1 - 1 - length P) / 2) in Hp.
  assert (length M - 2 < 2 * (q + 1)).
  { replace (length M - 2) with (length P + length M - 1 - 1 - length P) by lia. unfold q.
    pose proof (Nat.div_mod (length P + length M - 1 - 1 - length P) 2 ltac:(lia)).
    pose proof (Nat.mod_upper_bound (length P + length M - 1 - 1 - length P) 2 ltac:(lia)). lia. }
  destruct Hc; lia.
Qed.

(** Taking the greatest element to the end leaves a heap but for its top. *)
Lemma heap_pop x M y : heap (x :: M ++ [y]) 0 -> almost (y :: M) 0 0.
Proof.
  intros HM. split.
  - intros p c _ Hc Hne a b Ha Hb. apply (HM p c ltac:(lia) Hc); [destruct p as [|p]; [done|]|destruct c as [|c]; [destruct Hc; lia|]];
      cbn in *; by apply lookup_app_l_Some.
  - intros p c _ [Hc|Hc]; lia.
Qed.

Lemma heap_sort_loop_ok P Q n : forall M R s, slots s = P ++ (M ++ R) ++ Q -> length M = n + 1 -> heap M 0 ->
  sorted R -> below cmp M R ->
  exists M', yields (heap_sort_loop n (length P)) s tt (P ++ M' ++ Q) /\ sorted M' /\ M' ≡ₚ M ++ R.
Proof.
  induction n as [|n IH]; intros M R s Hs Hl HM HR Hbelow.
  { exists (M ++ R). split; [by apply yields_done|]. split; [|done]. apply sorted_app. split_and!; auto.
    destruct M as [|x [|]]; simpl in Hl; try lia. repeat constructor. }
  destruct M as [|x M]; [simpl in Hl; lia|]. destruct (exists_last (l := M)) as (M0 & y & ->); [intros ->; simpl in Hl; lia|].
  cbn [length] in Hl. rewrite length_app in Hl. cbn [length heap_sort_loop] in *.
  destruct (swap_two cmp s P x M0 y (R ++ Q) (length P) (length P + Datatypes.S n)) as (s1 & Hw & Hs1).
  { rewrite Hs. cbn. by rewrite <- !app_assoc. } { done. } { lia. }
  assert (Hs1' : slots s1 = P ++ (y :: M0) ++ ((x :: R) ++ Q)) by (by rewrite Hs1).
  destruct (sift_down_ok P (y :: M0) ((x :: R) ++ Q) 0 0 s1 Hs1') as (M1 & (s2 & Hy & Hs2) & HM1 & Hp1); [by eapply heap_pop|done|].
  assert (Hperm : (y :: M0) ++ x :: R ≡ₚ (x :: M0 ++ [y]) ++ R).
  { rewrite Permutation_app_comm. cbn. rewrite <- app_assoc. cbn. f_equiv. rewrite Permutation_app_comm. cbn.
    by rewrite Permutation_middle. }
  destruct (IH M1 (x :: R) s2) as (M' & (s3 & Hy3 & Hs3) & HM' & Hp').
  { rewrite Hs2, <- !app_assoc. done. } { rewrite (Permutation_length Hp1). simpl. lia. } { done. }
  { constructor; [done|]. apply Forall_forall. intros b Hb. apply Hbelow; [left|done]. }
  { assert (Htop : forall a, a ∈ x :: M0 ++ [y] -> le a x).
    { intros a [i Ha]%list_elem_of_lookup_1. by apply (heap_top (x :: M0 ++ [y]) x HM eq_refl i). }
    assert (Hin : forall a, a ∈ M1 -> a ∈ x :: M0 ++ [y]).
    { intros a Ha. rewrite Hp1 in Ha. rewrite elem_of_cons, elem_of_app, list_elem_of_singleton. apply elem_of_cons in Ha. tauto. }
    intros a b Ha [->|Hb]%elem_of_cons; [by apply Htop, Hin|]. apply Hbelow; [by apply Hin|done]. }
  exists M'. split; [|split; [done|by rewrite Hp', Hp1]]. exists s3. split; [|done].
  erewrite sbind_ok by exact Hw. cbn [length] in Hy. rewrite Nat.add_0_r in Hy.
  replace (length P + Datatypes.S n) with (length P + Datatypes.S (length M0)) by lia.
  erewrite sbind_ok by exact Hy. exact Hy3.
Qed.

Lemma heap_sort_ok : sorts heap_sort.
Proof.
  intros P L Q s from to Hs -> ->. unfold heap_sort.
  destruct (Nat.leb_spec (length P + length L) (length P)); cbn [orb].
  { exists L. split; [by apply yields_done|]. destruct L; [repeat constructor|simpl in *; lia]. }
  destruct (Nat.leb_spec (length P + length L - length P) 1).
  { exists L. split; [by apply yields_done|]. destruct L as [|? [|]]; simpl in *; try lia. repeat constructor. }
  destruct (heapify_ok P L Q s Hs) as (M & Hy & HM & Hp); [lia|].
  eapply (yields_bind_ex cmp _ _ _ _ _ _ (fun M' => P ++ M' ++ Q)); [exact Hy|]. intros s1 Hs1.
  destruct (heap_sort_loop_ok P Q (length P + length L - 1 - length P) M [] s1) as (M' & Hy' & HM' & Hp'); auto.
  { by rewrite app_nil_r. } { rewrite (Permutation_length Hp). lia. } { constructor. } { by intros a b _ ?%elem_of_nil. }
  exists M'. split; [done|]. split; [done|]. rewrite Hp', app_nil_r. done.
Qed.

(** ** Galloping searches find what the binary searches find *)

Lemma range_lower P A Q v val k f h s : splits_at (fun a => ~ lt a v) A k -> (P ++ A ++ Q) !! val = Some v ->
  slots s = P ++ A ++ Q -> f <= k <= h -> h <= length A ->
  yields (lower (length P + f) (length P + h) val) s (length P + k) (P ++ A ++ Q).
Proof.
  intros Hk Hv Hs Hr Hh. unfold lower. replace (length P + h - (length P + f)) with (h - f) by lia.
  apply (lower_loop_ok cmp P A Q v val k); auto; lia.
Qed.

Lemma range_upper P A Q v val k f h s : splits_at (fun a => lt v a) A k -> (P ++ A ++ Q) !! val = Some v ->
  slots s = P ++ A ++ Q -> f <= k <= h -> h <= length A ->
  yields (upper (length P + f) (length P + h) val) s (length P + k) (P ++ A ++ Q).
Proof.
  intros Hk Hv Hs Hr Hh. unfold upper. replace (length P + h - (length P + f)) with (h - f) by lia.
  apply (upper_loop_ok cmp P A Q v val k); auto; lia.
Qed.

Lemma lower2_loop_ok P A Q v val k fuel : splits_at (fun a => ~ lt a v) A k -> (P ++ A ++ Q) !! val = Some v ->
  forall f h s, slots s = P ++ A ++ Q -> f < fuel -> k <= h -> h <= length A -> f < length P + h \/ f <= length P ->
  yields (lower2_loop fuel (length P) f (length P + h) val) s (length P + k) (P ++ A ++ Q).
Proof.
  intros Hk Hv. pose proof Hk as (_ & Hlo & Hhi). induction fuel as [|fuel IH]; intros f h s Hs Hf Hkh Hh Hfh; [lia|].
  cbn [lower2_loop]. destruct (Nat.ltb_spec (length P) f) as [Hlt|Hge].
  2: { replace (length P) with (length P + 0) at 1 by lia. apply range_lower with v; auto; lia. }
  remember (f - length P) as g eqn:Hg. replace f with (length P + g) by lia.
  destruct (lookup_lt_is_Some_2 A g) as [b Hb]; [lia|]. eapply yields_bind.
  { apply (yields_compare cmp s _ _ b v); rewrite Hs; [by apply at_offset|done]. }
  intros s1 Hs1. rewrite Hs in Hs1. destruct (Z.ltb_spec (cmp b v) 0) as [Hbv|Hbv].
  - apply range_lower with v; auto. split; [|done]. apply Nat.nlt_ge. intros Hkg. by apply (Hhi g b ltac:(lia) Hb).
  - assert (k <= g).
    { apply Nat.nlt_ge. intros Hkg. apply (Hlo g b Hkg Hb). unfold SorterProofs.lt. lia. }
    apply IH; auto; lia.
Qed.

Lemma nat_of_u64 n : (Z.of_nat n < 2 ^ 64)%Z -> Z.to_nat (as_u64 (Z.of_nat n)) = n.
Proof. intros. rewrite wrap_u_id by (unfold in_u; lia). lia. Qed.

Lemma upper2_loop_ok P A Q v val k fuel to : splits_at (fun a => lt v a) A k -> (P ++ A ++ Q) !! val = Some v ->
  to = length P + length A -> (3 * Z.of_nat to <= i32_MAX)%Z ->
  forall g h s, slots s = P ++ A ++ Q -> length A - g <= fuel -> g < h -> g <= k -> g < length A ->
  yields (upper2_loop fuel (Z.of_nat (length P + g)) (Z.of_nat (length P + h)) to val) s (length P + k) (P ++ A ++ Q).
Proof.
  intros Hk Hv -> Hmax. pose proof Hk as (HkA & Hlo & Hhi). unfold i32_MAX in Hmax.
  induction fuel as [|fuel IH]; intros g h s Hs Hf Hgh Hgk HgA; [lia|]. cbn [upper2_loop].
  rewrite wrap_s_id by (unfold in_s; lia). rewrite (nat_of_u64 (length P + g)) by lia.
  destruct (Z.ltb_spec (Z.of_nat (length P + h)) (Z.of_nat (length P + length A))) as [Hlt|Hge].
  2: { apply range_upper with v; auto; lia. }
  rewrite (nat_of_u64 (length P + h)) by lia. destruct (lookup_lt_is_Some_2 A h) as [b Hb]; [lia|]. eapply yields_bind.
  { apply (yields_compare cmp s _ _ b v); rewrite Hs; [by apply at_offset|done]. }
  intros s1 Hs1. rewrite Hs in Hs1. destruct (Z.ltb_spec 0 (cmp b v)) as [Hbv|Hbv].
  - apply range_upper with v; auto; [|lia]. split; [done|]. apply Nat.nlt_ge. intros Hkg.
    apply (Hlo h b Hkg Hb). by apply cmp_flip.
  - assert (h < k).
    { apply Nat.nle_gt. intros Hkg. pose proof (Hhi h b Hkg Hb) as Hx. apply cmp_flip in Hx. lia. }
    rewrite wrap_s_id by (unfold in_s; lia). unfold i32_MAX.
    replace (Z.of_nat (length P + h) + (Z.of_nat (length P + h) - Z.of_nat (length P + g)) * 2)%Z
      with (Z.of_nat (length P + (h + 2 * (h - g)))) by lia.
    destruct (Z.leb_spec (Z.of_nat (length P + (h + 2 * (h - g)))) 2147483647) as [_|]; [|lia]. cbn [debug_assert].
    eapply (yields_bind cmp _ _ _ tt (P ++ A ++ Q)); [by exists s1|]. intros s2 Hs2. apply IH; auto; lia.
Qed.

(** [lower2] finds the place [lower] finds, [upper2] that of [upper] (up to a third of
    [i32::MAX] slots). *)
Lemma gallop_ok P A Q v val s to : slots s = P ++ A ++ Q -> sorted A -> (P ++ A ++ Q) !! val = Some v ->
  to = length P + length A -> A <> [] -> (3 * Z.of_nat to <= i32_MAX)%Z ->
  (exists k, yields (lower (length P) to val) s k (P ++ A ++ Q) /\ yields (lower2 (length P) to val) s k (P ++ A ++ Q)) /\
  (exists k, yields (upper (length P) to val) s k (P ++ A ++ Q) /\ yields (upper2 (length P) to val) s k (P ++ A ++ Q)).
Proof.
  intros Hs HA Hv -> Hne Hmax. assert (Hpos : 1 <= length A) by (destruct A; [done|simpl; lia]).
  assert (H0 : length P = length P + 0) by lia. split.
  - destruct (splits_exists cmp (fun a => ~ lt a v) A HA) as (k & Hk).
    { intros a b Hab Ha Hb. apply Ha. by apply le_lt_trans with b. }
    pose proof Hk as (HkA & _). exists (length P + k). split; [rewrite H0 at 1; apply range_lower with v; auto; lia|].
    apply lower2_loop_ok with v; auto; lia.
  - destruct (splits_exists cmp (fun a => lt v a) A HA) as (k & Hk).
    { intros a b Hab Ha. by apply lt_le_trans with a. }
    pose proof Hk as (HkA & _). exists (length P + k). split; [rewrite H0 at 1; apply range_upper with v; auto; lia|].
    unfold upper2. unfold i32_MAX in *. rewrite wrap_s_id by (unfold in_s; lia).
    destruct (Z.leb_spec (Z.of_nat (length P) + 1) 2147483647) as [_|]; [|lia]. cbn [debug_assert].
    eapply (yields_bind cmp _ _ _ tt (P ++ A ++ Q)); [by exists s|]. intros s2 Hs2.
    replace (Z.of_nat (length P) + 1)%Z with (Z.of_nat (length P + 1)) by lia. rewrite H0 at 2.
    apply upper2_loop_ok with v; auto; unfold i32_MAX; lia.
Qed.

End HeapSort.
End HeapSort.
