(* ===== verification/IntroSorter.v ===== *)
(** [IntroSorter] of [src/core/util/intro_sorter.rs]: quicksort with Tukey's ninther and the
    three-way partition of Bentley and McIlroy, insertion sort below a threshold and heap sort
    below a depth; every sorter whose pivot survives exchanges is sorted by it. *)

From Stdlib Require Import ZArith Lia Bool Arith.
From stdpp Require Import base tactics numbers list sorting.
From S2P Require Import Prelude Sorter SorterProofs HeapSort.
Import Sorter SorterProofs HeapSort.

Local Open Scope nat_scope.

Module IntroSorter.

Definition SINGLE_MEDIAN_THRESHOLD : nat := 40.

Section Operations.
Context {S : Type} `{Sorter S}.

Definition median (i j k : nat) : ST S nat :=
  let* c := compare i j in
  if (c <? 0)%Z then
    let* c := compare j k in
    if (c <=? 0)%Z then sret j
    else
      let* c := compare i k in
      sret (if (c <? 0)%Z then k else i)
  else
    let* c := compare j k in
    if (0 <=? c)%Z then sret j
    else
      let* c := compare i k in
      sret (if (c <? 0)%Z then i else k).

(** The choice of the pivot. *)
Definition select_pivot (from to : nat) : ST S nat :=
  let size := to - from in
  let last := to - 1 in
  let mid := (from + last) / 2 in
  if size <=? SINGLE_MEDIAN_THRESHOLD then
    let range := size / 4 in
    median (mid - range) mid (mid + range)
  else
    let range := size / 8 in
    let double_range := range * 2 in
    let* median_first := median from (from + range) (from + double_range) in
    let* median_middle := median (mid - range) mid (mid + range) in
    let* median_last := median (last - double_range) (last - range) last in
    median median_first median_middle median_last.

(** [i] moves up past the slots below the pivot; its stop and the comparison there. *)
Fixpoint scan_up (fuel i : nat) : ST S (nat * Z) :=
  match fuel with
  | O => slift OutOfFuel
  | Datatypes.S fuel =>
      let* left_cmp := compare_pivot (i + 1) in
      if (0 <? left_cmp)%Z then scan_up fuel (i + 1) else sret (i + 1, left_cmp)
  end.

(** [j] moves down past the slots above the pivot. *)
Fixpoint scan_down (j : nat) : ST S (nat * Z) :=
  match j with
  | O => slift Panic
  | Datatypes.S j =>
      let* right_cmp := compare_pivot j in
      if (right_cmp <? 0)%Z then scan_down j else sret (j, right_cmp)
  end.

(** The partition loop; answers [j], [p] and [q]. *)
Fixpoint partition_loop (fuel to i j p q : nat) : ST S (nat * nat * nat) :=
  match fuel with
  | O => slift OutOfFuel
  | Datatypes.S fuel =>
      let* (i, left_cmp) := scan_up (to - i) i in
      let* (j, right_cmp) := scan_down j in
      if j <=? i then
        let* _ := (if (i =? j) && (right_cmp =? 0)%Z then swap i p else sret tt) in
        sret (j, p, q)
      else
        let* _ := swap i j in
        let* p := (if (right_cmp =? 0)%Z then let* _ := swap i p in sret (p + 1) else sret p) in
        let* q := (if (left_cmp =? 0)%Z then let* _ := swap j q in
                     match q with O => slift Panic | Datatypes.S q => sret q end
                   else sret q) in
        partition_loop fuel to i j p q
  end.

(** [while k < p { swap(k, left_end - 1); k += 1; left_end -= 1 }], [n] turns left. *)
Fixpoint gather_left (n k left_end : nat) : ST S nat :=
  match n with
  | O => sret left_end
  | Datatypes.S n =>
      match left_end with
      | O => slift Panic
      | Datatypes.S left_end => let* _ := swap k left_end in gather_left n (k + 1) left_end
      end
  end.

(** [while k > q { swap(k, i); k -= 1; i += 1 }] *)
Fixpoint gather_right (n k i : nat) : ST S nat :=
  match n with
  | O => sret i
  | Datatypes.S n => let* _ := swap k i in gather_right n (k - 1) (i + 1)
  end.

(** One turn of the outer loop up to its two ranges: [from..left_end] and [i..to]. *)
Definition partition (from to : nat) : ST S (nat * nat) :=
  let last := to - 1 in
  let* pivot := select_pivot from to in
  let* _ := set_pivot pivot in
  let* _ := swap from pivot in
  let* (j, p, q) := partition_loop (to - from) to from to (from + 1) last in
  let* left_end := gather_left (p - from) from (j + 1) in
  let* i := gather_right (last - q) last (j + 1) in
  sret (left_end, i).

(** Both the call and the next turn of the loop are on a shorter range. *)
Fixpoint sort_in_intro_loop (fuel from to max_depth : nat) : ST S unit :=
  match fuel with
  | O => slift OutOfFuel
  | Datatypes.S fuel =>
      let* _ := slift (debug_assert (from <=? to)) in
      if INSERTION_SORT_THRESHOLD <? to - from then
        match max_depth with
        | O => heap_sort from to
        | Datatypes.S max_depth =>
            let* (left_end, i) := partition from to in
            if left_end - from <? to - i then
              let* _ := sort_in_intro_loop fuel from left_end max_depth in
              sort_in_intro_loop fuel i to max_depth
            else
              let* _ := sort_in_intro_loop fuel i to max_depth in
              sort_in_intro_loop fuel from left_end max_depth
        end
      else insertion_sort from to
  end.

Definition sort_in_intro (from to max_depth : nat) : ST S unit :=
  sort_in_intro_loop (Datatypes.S (to - from)) from to max_depth.

(** [checked_ilog2] of 0 is replaced by 0, as [Nat.log2] has it. *)
Definition sort_range (from to : nat) : ST S unit :=
  let* _ := slift (check_range from to) in
  let max_depth := 2 * Nat.log2 (to - from) in
  sort_in_intro from to max_depth.
End Operations.
End IntroSorter.

(** The pivot follows its element when slots are exchanged. *)
Class PivotKept (S : Type) {T : Type} (cmp : T -> T -> Z) `{SorterSpec S T cmp} : Prop :=
  pivot_kept : forall (s s' : S) i j a b p, slots s !! i = Some a -> slots s !! j = Some b ->
    pivot_is s p -> swap i j s = (Ok tt, s') -> pivot_is s' p.

Module IntroProofs.
Import IntroSorter.

Section IntroProofs.
Context {S T : Type} (cmp : T -> T -> Z) `{SS : SorterSpec S T cmp} `{PK : !PivotKept S cmp} {CO : CmpOrder cmp}.
Implicit Types (P M Q : list T) (s : S).

Abbreviation le := (SorterProofs.le cmp).
Abbreviation lt := (SorterProofs.lt cmp).
Abbreviation eqv := (SorterProofs.eqv cmp).
Abbreviation sorted := (StronglySorted le).
Abbreviation yields := (SorterProofs.yields cmp).

(** ** The pivot *)

Lemma median_ok P M Q s i j k : slots s = P ++ M ++ Q -> i < length M -> j < length M -> k < length M ->
  i <> j -> j <> k -> i <> k ->
  exists m y a b, yields (median (length P + i) (length P + j) (length P + k)) s (length P + m) (P ++ M ++ Q)
    /\ (m = i \/ m = j \/ m = k) /\ (y = i \/ y = j \/ y = k) /\ y <> m /\ M !! m = Some a /\ M !! y = Some b /\ le a b.
Proof.
  intros Hs Hi Hj Hk Hij Hjk Hik. destruct (lookup_lt_is_Some_2 M i Hi) as [a Ha].
  destruct (lookup_lt_is_Some_2 M j Hj) as [b Hb]. destruct (lookup_lt_is_Some_2 M k Hk) as [c Hc].
  destruct (compare_block cmp P M Q s i j a b Hs Ha Hb) as (s1 & H1 & Hs1).
  destruct (compare_block cmp P M Q s1 j k b c Hs1 Hb Hc) as (s2 & H2 & Hs2).
  destruct (compare_block cmp P M Q s2 i k a c Hs2 Ha Hc) as (s3 & H3 & Hs3).
  unfold median, SorterProofs.yields. rewrite (sbind_ok _ _ _ _ _ H1).
  destruct (Z.ltb_spec (cmp a b) 0) as [Hab|Hab]; rewrite (sbind_ok _ _ _ _ _ H2).
  - destruct (Z.leb_spec (cmp b c) 0) as [Hbc|Hbc]; [exists j, k, b, c; split_and!; eauto|].
    rewrite (sbind_ok _ _ _ _ _ H3). assert (Hcb : le c b) by (apply cmp_ge_le; [done|lia]).
    destruct (Z.ltb_spec (cmp a c) 0); [exists k, j, c, b|exists i, j, a, b]; split_and!; eauto; by apply cmp_lt_le.
  - assert (Hba : le b a) by (by apply cmp_ge_le). destruct (Z.leb_spec 0 (cmp b c)) as [Hbc|Hbc].
    { exists j, i, b, a; split_and!; eauto. }
    rewrite (sbind_ok _ _ _ _ _ H3). destruct (Z.ltb_spec (cmp a c) 0).
    + exists i, k, a, c; split_and!; eauto. by apply cmp_lt_le.
    + exists k, i, c, a; split_and!; eauto. by apply cmp_ge_le.
Qed.

Lemma div_bounds n b : 0 < b -> b * (n / b) <= n < b * (n / b) + b.
Proof.
  intros Hb. pose proof (Nat.div_mod n b ltac:(lia)). pose proof (Nat.mod_upper_bound n b ltac:(lia)). lia.
Qed.

(** The pivot is a slot of the range, and another slot holds nothing less. *)
Lemma select_pivot_ok P M Q s : slots s = P ++ M ++ Q -> INSERTION_SORT_THRESHOLD < length M ->
  exists r x v b, yields (select_pivot (length P) (length P + length M)) s (length P + r) (P ++ M ++ Q)
    /\ x <> r /\ M !! r = Some v /\ M !! x = Some b /\ le v b.
Proof.
  unfold INSERTION_SORT_THRESHOLD. intros Hs Hn. unfold select_pivot, SINGLE_MEDIAN_THRESHOLD.
  set (n := length M) in *. replace (length P + n - length P) with n by lia.
  replace (length P + (length P + n - 1)) with (length P + (length P + (n - 1))) by lia. rewrite half_middle.
  pose proof (div_bounds (n - 1) 2 ltac:(lia)) as Hm.
  set (m := (n - 1) / 2) in *. clearbody m. destruct (Nat.leb_spec n 40) as [Hsmall|Hbig].
  - pose proof (div_bounds n 4 ltac:(lia)). set (r := n / 4) in *. clearbody r.
    destruct (median_ok P M Q s (m - r) m (m + r)) as (k & y & a & b & Hy & Hk & Hy' & Hne & Ha & Hb & Hle); auto; try lia.
    exists k, y, a, b. split_and!; auto. by replace (length P + m - r) with (length P + (m - r)) by lia; rewrite <- Nat.add_assoc.
  - pose proof (div_bounds n 8 ltac:(lia)). set (r := n / 8) in *. clearbody r.
    destruct (median_ok P M Q s 0 r (r * 2)) as (k1 & y1 & a1 & b1 & (s1 & Hy1 & Hs1) & Hk1 & _); auto; try lia.
    destruct (median_ok P M Q s1 (m - r) m (m + r)) as (k2 & y2 & a2 & b2 & (s2 & Hy2 & Hs2) & Hk2 & _); auto; try lia.
    destruct (median_ok P M Q s2 (n - 1 - r * 2) (n - 1 - r) (n - 1)) as (k3 & y3 & a3 & b3 & (s3 & Hy3 & Hs3) & Hk3 & _); auto; try lia.
    destruct (median_ok P M Q s3 k1 k2 k3) as (k & y & a & b & (s4 & Hy4 & Hs4) & _ & _ & Hne & Ha & Hb & Hle); auto; try lia.
    exists k, y, a, b. split_and!; auto. exists s4. split; [|done].
    replace (length P + m - r) with (length P + (m - r)) by lia. rewrite <- (Nat.add_assoc _ m r).
    replace (length P + n - 1 - r * 2) with (length P + (n - 1 - r * 2)) by lia.
    replace (length P + n - 1 - r) with (length P + (n - 1 - r)) by lia.
    replace (length P + n - 1) with (length P + (n - 1)) by lia. rewrite Nat.add_0_r in Hy1.
    by rewrite (sbind_ok _ _ _ _ _ Hy1), (sbind_ok _ _ _ _ _ Hy2), (sbind_ok _ _ _ _ _ Hy3).
Qed.
(** ** The partition *)

(** The elements of [M] at [lo..hi] meet [phi]. *)
Definition range M (lo hi : nat) (phi : T -> Prop) : Prop := forall m a, lo <= m < hi -> M !! m = Some a -> phi a.

(** The block holds [M] and [v] is the pivot. *)
Definition holds P Q s M (v : T) : Prop := slots s = P ++ M ++ Q /\ pivot_is s v.

Lemma compare_pivot_block P M Q s v j b : holds P Q s M v -> M !! j = Some b ->
  exists s', compare_pivot (length P + j) s = (Ok (cmp v b), s') /\ holds P Q s' M v.
Proof.
  intros [Hs Hp] Hb. destruct (compare_pivot_law s (length P + j) v b Hp) as (s' & Hc & Hs' & Hp').
  { rewrite Hs. by apply at_offset. }
  exists s'. split; [done|]. split; [congruence|done].
Qed.

Lemma swap_kept P M Q s v i j : holds P Q s M v -> i < length M -> j < length M ->
  exists s', swap (length P + i) (length P + j) s = (Ok tt, s') /\ holds P Q s' (exch M i j) v.
Proof.
  intros [Hs Hp] Hi Hj. destruct (swap_block cmp P M Q s i j Hs Hi Hj) as (s' & Hw & Hs').
  exists s'. split; [done|]. split; [done|].
  destruct (lookup_lt_is_Some_2 M i Hi) as [a Ha]. destruct (lookup_lt_is_Some_2 M j Hj) as [b Hb].
  apply (pivot_kept s s' (length P + i) (length P + j) a b v); auto; rewrite Hs; by apply at_offset.
Qed.

Lemma scan_up_ok P M Q v x b fuel : M !! x = Some b -> le v b -> forall i s, holds P Q s M v -> i < x -> x - i <= fuel ->
  exists i' b' s', scan_up fuel (length P + i) s = (Ok (length P + i', cmp v b'), s') /\ holds P Q s' M v
    /\ i < i' <= x /\ M !! i' = Some b' /\ le v b' /\ range M (i + 1) i' (fun a => lt a v).
Proof.
  intros Hx Hvb. induction fuel as [|fuel IH]; intros i s Hh Hi Hf; [lia|]. cbn [scan_up].
  destruct (lookup_lt_is_Some_2 M (i + 1)) as [c Hc]; [apply lookup_lt_Some in Hx; lia|].
  rewrite <- Nat.add_assoc. destruct (compare_pivot_block P M Q s v (i + 1) c Hh Hc) as (s1 & H1 & Hh1).
  rewrite (sbind_ok _ _ _ _ _ H1). destruct (Z.ltb_spec 0 (cmp v c)) as [Hgt|Hle].
  - destruct (decide (x = i + 1)) as [->|Hne]; [unfold SorterProofs.le in Hvb; simplify_eq; lia|].
    destruct (IH (i + 1) s1 Hh1) as (i' & b' & s' & Hs & Hh' & Hi' & Hb' & Hvb' & Hr); [lia|lia|].
    exists i', b', s'. split_and!; auto; [lia|lia|]. intros m a Hm Ha. destruct (decide (m = i + 1)) as [->|]; [|apply (Hr m); auto; lia].
    simplify_eq. by apply cmp_flip.
  - exists (i + 1), c, s1. split_and!; auto; [lia|lia|]. intros m a Hm. lia.
Qed.

Lemma scan_down_ok P M Q v y b : M !! y = Some b -> le b v -> forall j s, holds P Q s M v -> y < j -> j <= length M ->
  exists j' b' s', scan_down (length P + j) s = (Ok (length P + j', cmp v b'), s') /\ holds P Q s' M v
    /\ y <= j' < j /\ M !! j' = Some b' /\ le b' v /\ range M (j' + 1) j (fun a => lt v a).
Proof.
  intros Hy Hbv. induction j as [|j IH]; intros s Hh Hj Hl; [lia|]. rewrite Nat.add_succ_r. cbn [scan_down].
  destruct (lookup_lt_is_Some_2 M j) as [c Hc]; [lia|].
  destruct (compare_pivot_block P M Q s v j c Hh Hc) as (s1 & H1 & Hh1).
  rewrite (sbind_ok _ _ _ _ _ H1). destruct (Z.ltb_spec (cmp v c) 0) as [Hlt|Hge].
  - destruct (decide (y = j)) as [->|Hne]; [rewrite Hc in Hy; simplify_eq; by apply not_le in Hbv|].
    destruct (IH s1 Hh1) as (j' & b' & s' & Hs & Hh' & Hj' & Hb' & Hbv' & Hr); [lia|lia|].
    exists j', b', s'. split_and!; auto; [lia|lia|]. intros m a Hm Ha. destruct (decide (m = j)) as [->|]; [|apply (Hr m); auto; lia].
    by simplify_eq.
  - exists j, c, s1. split_and!; auto; [lia|by apply cmp_ge_le|]. intros m a Hm. lia.
Qed.

(** Between turns: equal, less, unseen, greater, equal. *)
Record parted M (v : T) (i j p q : nat) : Prop := {
  parted_left : 1 <= p <= i + 1;
  parted_mid : i < j;
  parted_right : j <= q + 1 <= length M;
  parted_eq_left : range M 0 p (eqv v);
  parted_less : range M p (i + 1) (fun a => lt a v);
  parted_greater : range M j (q + 1) (fun a => lt v a);
  parted_eq_right : range M (q + 1) (length M) (eqv v);
}.

(** After the loop. *)
Record split_at_pivot M (v : T) (j p q : nat) : Prop := {
  split_p : 1 <= p <= j + 1;
  split_q : j <= q < length M;
  split_low : range M 0 (j + 1) (fun a => le a v);
  split_high : range M (j + 1) (length M) (fun a => le v a);
  split_eq_left : range M 0 p (eqv v);
  split_eq_right : range M (q + 1) (length M) (eqv v);
}.

(** Between the two adjustments of a turn. *)
Record half_parted M (v : T) (i j p q : nat) : Prop := {
  half_left : 1 <= p <= i + 1;
  half_mid : i < j;
  half_right : j <= q < length M;
  half_eq_left : range M 0 p (eqv v);
  half_less : range M p (i + 1) (fun a => lt a v);
  half_greater : range M (j + 1) (q + 1) (fun a => lt v a);
  half_eq_right : range M (q + 1) (length M) (eqv v);
}.

Lemma range_exch M i j a b lo hi phi : M !! i = Some a -> M !! j = Some b ->
  (forall m c, lo <= m < hi -> m <> i -> m <> j -> M !! m = Some c -> phi c) ->
  (lo <= i < hi -> phi b) -> (lo <= j < hi -> phi a) -> range (exch M i j) lo hi phi.
Proof.
  intros Ha Hb Hr Hi Hj m c Hm. rewrite (exch_lookup M i j a b) by done.
  repeat case_decide; subst; intros; simplify_eq; eauto.
Qed.

Lemma eqv_zero v a : cmp v a = 0%Z -> eqv v a.
Proof. intros Hz. split; [unfold SorterProofs.le; lia|]. apply cmp_ge_le; [done|lia]. Qed.

Lemma eqv_both v a : le v a -> le a v -> cmp v a = 0%Z.
Proof. unfold SorterProofs.le. pose proof (cmp_flip a v). pose proof (cmp_flip v a). lia. Qed.

Lemma le_strict a v : le a v -> cmp v a <> 0%Z -> lt a v.
Proof. unfold SorterProofs.le, SorterProofs.lt. pose proof (cmp_flip a v). pose proof (cmp_flip v a). lia. Qed.

Lemma ge_strict a v : le v a -> cmp v a <> 0%Z -> lt v a.
Proof. unfold SorterProofs.le, SorterProofs.lt. lia. Qed.

Lemma left_step M v i j p q b : 1 <= p <= i -> i < j -> j <= q < length M -> range M 0 p (eqv v) ->
  range M p i (fun a => lt a v) -> range M (j + 1) (q + 1) (fun a => lt v a) -> range M (q + 1) (length M) (eqv v) ->
  M !! i = Some b -> le b v ->
  if (cmp v b =? 0)%Z then half_parted (exch M i p) v i j (p + 1) q else half_parted M v i j p q.
Proof.
  intros Hp Hij Hq Hel Hl Hg Her Hb Hbv. destruct (lookup_lt_is_Some_2 M p) as [c Hc]; [lia|].
  destruct (Z.eqb_spec (cmp v b) 0) as [Hz|Hz].
  - constructor; rewrite ?length_exch; try lia; apply (range_exch M i p b c); auto; try lia.
    + intros m d Hm _ Hne Hd. apply (Hel m); auto. lia.
    + intros Hr. assert (p = i) as -> by lia. assert (c = b) as -> by congruence. by apply eqv_zero.
    + intros _. by apply eqv_zero.
    + intros m d Hm Hne _ Hd. apply (Hl m); auto. lia.
    + intros Hr. apply (Hl p); auto. lia.
    + intros m d Hm _ _ Hd. by apply (Hg m).
    + intros m d Hm _ _ Hd. by apply (Her m).
  - constructor; auto; try lia. intros m d Hm Hd. destruct (decide (m = i)) as [->|]; [|apply (Hl m); auto; lia].
    assert (d = b) as -> by congruence. by apply le_strict.
Qed.

Lemma right_step M v i j p q a : half_parted M v i j p q -> M !! j = Some a -> le v a ->
  if (cmp v a =? 0)%Z then parted (exch M j q) v i j p (q - 1) else parted M v i j p q.
Proof.
  intros [Hp Hij Hq Hel Hl Hg Her] Ha Hva. destruct (lookup_lt_is_Some_2 M q) as [c Hc]; [lia|].
  destruct (Z.eqb_spec (cmp v a) 0) as [Hz|Hz].
  - constructor; rewrite ?length_exch; try lia; apply (range_exch M j q a c); auto; try lia.
    + intros m d Hm _ _ Hd. by apply (Hel m).
    + intros m d Hm _ _ Hd. by apply (Hl m).
    + intros m d Hm Hne _ Hd. apply (Hg m); auto. lia.
    + intros Hr. apply (Hg q); auto. lia.
    + intros m d Hm _ Hne Hd. apply (Her m); auto. lia.
    + intros Hr. assert (q = j) as -> by lia. assert (c = a) as -> by congruence. by apply eqv_zero.
    + intros _. by apply eqv_zero.
  - constructor; auto; try lia. intros m d Hm Hd. destruct (decide (m = j)) as [->|]; [|apply (Hg m); auto; lia].
    assert (d = a) as -> by congruence. by apply ge_strict.
Qed.

Lemma parted_low M v i j p q : parted M v i j p q -> exists c, M !! i = Some c /\ le c v.
Proof.
  intros [Hp Hij Hq Hel Hl Hg Her]. destruct (lookup_lt_is_Some_2 M i) as [c Hc]; [lia|]. exists c. split; [done|].
  destruct (decide (i < p)) as [|Hge]; [apply (Hel i); auto; lia|]. apply cmp_lt_le, (Hl i); auto. lia.
Qed.

Lemma parted_high M v i j p q : parted M v i j p q -> j < length M -> exists c, M !! j = Some c /\ le v c.
Proof.
  intros [Hp Hij Hq Hel Hl Hg Her] Hj. destruct (lookup_lt_is_Some_2 M j) as [c Hc]; [lia|]. exists c. split; [done|].
  destruct (decide (j <= q)) as [|Hge]; [apply cmp_lt_le, (Hg j); auto; lia|]. apply (Her j); auto. lia.
Qed.

(** The exchanges of a turn. *)
Lemma adjust_ok P M Q s v i0 j0 p q i j a b : holds P Q s M v -> parted M v i0 j0 p q -> i0 < i -> i < j -> j < j0 ->
  range M (i0 + 1) i (fun a => lt a v) -> range M (j + 1) j0 (fun a => lt v a) ->
  M !! i = Some a -> le v a -> M !! j = Some b -> le b v ->
  exists M' p' q' s', (forall (R : Type) (k : nat -> nat -> ST S R),
    (let* _ := swap (length P + i) (length P + j) in
     let* p := (if (cmp v b =? 0)%Z then let* _ := swap (length P + i) (length P + p) in sret (length P + p + 1)
                else sret (length P + p)) in
     let* q := (if (cmp v a =? 0)%Z then let* _ := swap (length P + j) (length P + q) in
                  match length P + q with O => slift Panic | Datatypes.S q => sret q end
                else sret (length P + q)) in
     k p q) s = k (length P + p') (length P + q') s')
    /\ holds P Q s' M' v /\ parted M' v i j p' q' /\ M' ≡ₚ M.
Proof.
  intros Hh [Hp Hij Hq Hel Hl Hg Her] Hi Hlt Hj Hup Hdown Ha Hva Hb Hbv.
  destruct (swap_kept P M Q s v i j Hh) as (s1 & Hw1 & Hh1); [lia|lia|]. set (M1 := exch M i j) in *.
  assert (Hlen1 : length M1 = length M) by apply length_exch.
  assert (Hi1 : M1 !! i = Some b) by (unfold M1; rewrite (exch_lookup M i j a b) by done; by rewrite decide_True).
  assert (Hj1 : M1 !! j = Some a).
  { unfold M1. rewrite (exch_lookup M i j a b) by done. rewrite decide_False by lia. by rewrite decide_True. }
  assert (Hr : forall lo hi phi, (hi <= i \/ j < lo) -> range M lo hi phi -> range M1 lo hi phi).
  { intros lo hi phi Hd Hr. apply (range_exch M i j a b); auto; try lia. intros m c Hm _ _. by apply Hr. }
  pose proof (left_step M1 v i j p q b) as Hleft. rewrite Hlen1 in Hleft.
  specialize (Hleft ltac:(lia) Hlt ltac:(lia)).
  pose proof (fun M3 p' => right_step M3 v i j p' q a) as Hright.
  assert (Hmiddle : range M1 p i (fun a => lt a v)).
  { apply Hr; [lia|]. intros m c Hm Hc. destruct (decide (m <= i0)); [apply (Hl m)|apply (Hup m)]; auto; lia. }
  assert (Hupper : range M1 (j + 1) (q + 1) (fun a => lt v a)).
  { apply Hr; [lia|]. intros m c Hm Hc. destruct (decide (m < j0)); [apply (Hdown m)|apply (Hg m)]; auto; lia. }
  specialize (Hleft (Hr 0 p _ ltac:(lia) Hel) Hmiddle Hupper (Hr (q + 1) (length M) _ ltac:(lia) Her) Hi1 Hbv).
  assert (Hstep2 : exists M2 p' s2, (forall (R : Type) (k : nat -> ST S R),
      (let* p := (if (cmp v b =? 0)%Z then let* _ := swap (length P + i) (length P + p) in sret (length P + p + 1)
                  else sret (length P + p)) in k p) s1 = k (length P + p') s2)
      /\ holds P Q s2 M2 v /\ half_parted M2 v i j p' q /\ M2 ≡ₚ M1 /\ M2 !! j = Some a).
  { destruct (Z.eqb_spec (cmp v b) 0) as [Hz|Hz]; [|by exists M1, p, s1].
    destruct (swap_kept P M1 Q s1 v i p Hh1) as (s2 & Hw2 & Hh2); [lia|lia|].
    exists (exch M1 i p), (p + 1), s2. split_and!; auto; [|apply exch_perm|].
    - intros R k. unfold sbind, sret in *. by rewrite Hw2, Nat.add_assoc.
    - destruct (lookup_lt_is_Some_2 M1 p) as [c Hc]; [lia|]. rewrite (exch_lookup M1 i p b c) by done.
      by rewrite !decide_False by lia. }
  destruct Hstep2 as (M2 & p' & s2 & Hk2 & Hh2 & Hhalf & Hp2 & Hj2). specialize (Hright M2 p' Hhalf Hj2 Hva).
  destruct (Z.eqb_spec (cmp v a) 0) as [Hz|Hz].
  - destruct Hhalf. destruct (swap_kept P M2 Q s2 v j q Hh2) as (s3 & Hw3 & Hh3); [lia|lia|].
    exists (exch M2 j q), p', (q - 1), s3. split_and!; auto; [|by rewrite exch_perm, Hp2; apply exch_perm].
    intros R k. rewrite (sbind_ok _ _ _ _ _ Hw1), Hk2. rewrite (sbind_ok _ _ _ (length P + (q - 1)) s3); [done|].
    rewrite (sbind_ok _ _ _ _ _ Hw3). by destruct (length P + q) as [|m] eqn:E; [lia|]; replace (length P + (q - 1)) with m by lia.
  - exists M2, p', q, s2. split_and!; auto; [|by rewrite Hp2; apply exch_perm].
    intros R k. by rewrite (sbind_ok _ _ _ _ _ Hw1), Hk2.
Qed.

(** The scans have crossed. *)
Lemma crossed M v i0 j0 p q i j a b : parted M v i0 j0 p q -> j0 <= length M -> i0 < i <= j0 -> i0 <= j < j0 -> j <= i ->
  range M (i0 + 1) i (fun a => lt a v) -> range M (j + 1) j0 (fun a => lt v a) ->
  M !! i = Some a -> le v a -> M !! j = Some b -> le b v ->
  if (i =? j) && (cmp v b =? 0)%Z then split_at_pivot (exch M i p) v j p q else split_at_pivot M v j p q.
Proof.
  intros [Hp Hij Hq Hel Hl Hg Her] Hj0 Hi Hj Hcross Hup Hdown Ha Hva Hb Hbv.
  assert (Hnear : i <= j + 1).
  { destruct (decide (i <= j + 1)) as [|Hn]; [done|exfalso]. destruct (lookup_lt_is_Some_2 M (j + 1)) as [c Hc]; [lia|].
    pose proof (Hup (j + 1) c ltac:(lia) Hc) as H1. pose proof (Hdown (j + 1) c ltac:(lia) Hc) as H2.
    apply not_le in H1; [|done]. by apply H1, cmp_lt_le. }
  assert (Hlow : range M 0 (j + 1) (fun a => le a v)).
  { intros m c Hm Hc. destruct (decide (m < p)); [apply (Hel m); auto; lia|].
    destruct (decide (m <= i0)); [apply cmp_lt_le, (Hl m); auto; lia|]. destruct (decide (m = j)) as [->|].
    - by assert (c = b) as -> by congruence.
    - apply cmp_lt_le, (Hup m); auto. lia. }
  assert (Hhigh : range M (j + 1) (length M) (fun a => le v a)).
  { intros m c Hm Hc. destruct (decide (m < j0)); [apply cmp_lt_le, (Hdown m); auto; lia|].
    destruct (decide (m <= q)); [apply cmp_lt_le, (Hg m); auto; lia|]. apply (Her m); auto. lia. }
  destruct (Nat.eqb_spec i j) as [->|Hne]; cbn [andb]; [|by constructor; auto; lia].
  assert (b = a) as -> by congruence. rewrite (eqv_both v a) by done. cbn.
  destruct (lookup_lt_is_Some_2 M p) as [c Hc]; [lia|].
  constructor; rewrite ?length_exch; try lia; apply (range_exch M j p a c); auto; try lia.
  - intros m d Hm _ _. by apply Hlow.
  - intros _. apply (Hlow p); auto. lia.
  - intros m d Hm _ _. by apply Hhigh.
  - intros m d Hm _ _. by apply Hel.
  - intros m d Hm _ _. by apply Her.
Qed.

Lemma partition_loop_ok P Q v fuel : forall M i j p q s x b, holds P Q s M v -> parted M v i j p q ->
  i < x <= j -> M !! x = Some b -> le v b -> j - i <= fuel ->
  exists M' j' p' q' s',
    partition_loop fuel (length P + length M) (length P + i) (length P + j) (length P + p) (length P + q) s
      = (Ok (length P + j', length P + p', length P + q'), s')
    /\ holds P Q s' M' v /\ split_at_pivot M' v j' p' q' /\ M' ≡ₚ M.
Proof.
  induction fuel as [|fuel IH]; intros M i j p q s x b Hh Hpart Hx Hb Hvb Hf; [lia|]. cbn [partition_loop].
  pose proof Hpart as [Hp Hij Hq _ _ _ _]. pose proof (lookup_lt_Some _ _ _ Hb) as HxM.
  destruct (scan_up_ok P M Q v x b (length P + length M - (length P + i)) Hb Hvb i s Hh)
    as (i' & a & s1 & Hs1 & Hh1 & Hi' & Ha & Hva & Hup); [lia|lia|]. rewrite (sbind_ok _ _ _ _ _ Hs1).
  destruct (parted_low _ _ _ _ _ _ Hpart) as (y & Hy & Hyv).
  destruct (scan_down_ok P M Q v i y Hy Hyv j s1 Hh1) as (j' & c & s2 & Hs2 & Hh2 & Hj' & Hc & Hcv & Hdown); [lia|lia|].
  cbn beta iota. rewrite (sbind_ok _ _ _ _ _ Hs2). cbn beta iota.
  destruct (Nat.leb_spec (length P + j') (length P + i')) as [Hcross|Hmore].
  - pose proof (crossed M v i j p q i' j' a c Hpart ltac:(lia) ltac:(lia) ltac:(lia) ltac:(lia) Hup Hdown Ha Hva Hc Hcv) as Hsplit.
    replace (length P + i' =? length P + j') with (i' =? j').
    2: { destruct (Nat.eqb_spec i' j'), (Nat.eqb_spec (length P + i') (length P + j')); lia. }
    destruct ((i' =? j') && (cmp v c =? 0)%Z) eqn:Eq.
    + destruct (swap_kept P M Q s2 v i' p Hh2) as (s3 & Hw & Hh3); [lia|lia|].
      exists (exch M i' p), j', p, q, s3. rewrite (sbind_ok _ _ _ _ _ Hw). split_and!; auto. apply exch_perm.
    + by exists M, j', p, q, s2.
  - destruct (adjust_ok P M Q s2 v i j p q i' j' a c Hh2 Hpart) as (M' & p' & q' & s3 & Hk & Hh3 & Hpart' & Hperm); auto; try lia.
    rewrite Hk. pose proof (Permutation_length Hperm) as Hlen.
    destruct (parted_high _ _ _ _ _ _ Hpart') as (d & Hd & Hvd); [lia|].
    destruct (IH M' i' j' p' q' s3 j' d Hh3 Hpart') as (M2 & j2 & p2 & q2 & s4 & Heq & Hh4 & Hsp & Hp2); auto; try lia.
    rewrite <- Hlen. exists M2, j2, p2, q2, s4. split_and!; auto. by rewrite Hp2.
Qed.

(** ** Bringing the equal elements to the middle *)

(** [m] mirrored exchanges of the slots [lo..hi]. *)
Fixpoint flips M (lo hi m : nat) : list T :=
  match m with
  | O => M
  | Datatypes.S m => exch (flips M lo hi m) (lo + m) (hi - 1 - m)
  end.

Lemma length_flips M lo hi m : length (flips M lo hi m) = length M.
Proof. induction m as [|m IH]; [done|]. cbn [flips]. by rewrite length_exch. Qed.

Lemma flips_perm M lo hi m : flips M lo hi m ≡ₚ M.
Proof. induction m as [|m IH]; [done|]. cbn [flips]. by rewrite exch_perm. Qed.

Lemma exch_comm M i j : exch M i j = exch M j i.
Proof.
  unfold exch. destruct (M !! i) as [a|] eqn:Ha, (M !! j) as [b|] eqn:Hb; try done.
  destruct (decide (i = j)) as [->|Hij]; [by assert (b = a) as -> by congruence|]. by apply list_insert_insert_ne.
Qed.

(** A slot exchanged an even number of times keeps its element, else it has its mirror's. *)
Lemma flips_lookup M lo hi m y : lo + m <= hi -> hi <= length M ->
  flips M lo hi m !! y =
    if decide (lo <= y < hi) then
      if xorb (bool_decide (y < lo + m)) (bool_decide (hi - 1 - y < m)) then M !! (lo + hi - 1 - y) else M !! y
    else M !! y.
Proof.
  intros Hm Hhi. revert y. induction m as [|m IH]; intros y; cbn [flips].
  { case_decide; [|done]. rewrite !bool_decide_eq_false_2 by lia. done. }
  destruct (lookup_lt_is_Some_2 (flips M lo hi m) (lo + m)) as [a Ha]; [rewrite length_flips; lia|].
  destruct (lookup_lt_is_Some_2 (flips M lo hi m) (hi - 1 - m)) as [b Hb]; [rewrite length_flips; lia|].
  rewrite (exch_lookup _ _ _ a b) by done. rewrite IH in Ha, Hb by lia. specialize (IH ltac:(lia)).
  rewrite decide_True in Ha by lia. rewrite decide_True in Hb by lia.
  rewrite (bool_decide_eq_false_2 (lo + m < lo + m)) in Ha by lia.
  rewrite (bool_decide_eq_false_2 (hi - 1 - (hi - 1 - m) < m)) in Hb by lia.
  rewrite xorb_false_l in Ha. rewrite xorb_false_r in Hb.
  replace (lo + hi - 1 - (lo + m)) with (hi - 1 - m) in Ha by lia.
  replace (lo + hi - 1 - (hi - 1 - m)) with (lo + m) in Hb by lia.
  destruct (decide (y = lo + m)) as [->|Hya]; [|destruct (decide (y = hi - 1 - m)) as [->|Hyb]].
  - rewrite <- Hb, decide_True by lia. rewrite (bool_decide_eq_true_2 (lo + m < lo + Datatypes.S m)) by lia. cbn.
    replace (lo + hi - 1 - (lo + m)) with (hi - 1 - m) by lia. repeat case_bool_decide; cbn; try done; try (exfalso; lia).
    by replace (hi - 1 - m) with (lo + m) by lia.
  - rewrite <- Ha, decide_True by lia. rewrite (bool_decide_eq_true_2 (hi - 1 - (hi - 1 - m) < Datatypes.S m)) by lia.
    replace (lo + hi - 1 - (hi - 1 - m)) with (lo + m) by lia. repeat case_bool_decide; cbn; try done; try (exfalso; lia).
  - rewrite IH. destruct (decide (lo <= y < hi)); [|done]. repeat case_bool_decide; cbn; try done; exfalso; lia.
Qed.

(** Elements equal to the pivot in the first [m] slots are then in the last ones, and
    conversely. *)
Lemma flips_front M lo hi m phi : lo + m <= hi -> hi <= length M -> range M lo (lo + m) phi ->
  range (flips M lo hi m) (hi - m) hi phi.
Proof.
  intros Hm Hhi Hr y a Hy. rewrite flips_lookup by done. rewrite decide_True by lia.
  rewrite (bool_decide_eq_true_2 (hi - 1 - y < m)) by lia. case_bool_decide; cbn; intros Ha; eapply Hr; try exact Ha; lia.
Qed.

Lemma flips_back M lo hi m phi : lo + m <= hi -> hi <= length M -> range M (hi - m) hi phi ->
  range (flips M lo hi m) lo (lo + m) phi.
Proof.
  intros Hm Hhi Hr y a Hy. rewrite flips_lookup by done. rewrite decide_True by lia.
  rewrite (bool_decide_eq_true_2 (y < lo + m)) by lia. case_bool_decide; cbn; intros Ha; eapply Hr; try exact Ha; lia.
Qed.

Lemma flips_inside M lo hi m phi : lo + m <= hi -> hi <= length M -> range M lo hi phi -> range (flips M lo hi m) lo hi phi.
Proof.
  intros Hm Hhi Hr y a Hy. rewrite flips_lookup by done. rewrite decide_True by lia.
  case_match; intros Ha; eapply Hr; try exact Ha; lia.
Qed.

Lemma flips_outside M lo hi m x y phi : lo + m <= hi -> hi <= length M -> y <= lo \/ hi <= x -> range M x y phi ->
  range (flips M lo hi m) x y phi.
Proof.
  intros Hm Hhi Hd Hr z a Hz. rewrite flips_lookup by done. rewrite decide_False by lia. by apply Hr.
Qed.

Lemma gather_left_ok P M Q t n : forall m s, slots s = P ++ flips M 0 t m ++ Q -> m + n <= t -> t <= length M ->
  yields (gather_left n (length P + m) (length P + (t - m))) s (length P + (t - (m + n))) (P ++ flips M 0 t (m + n) ++ Q).
Proof.
  induction n as [|n IH]; intros m s Hs Hm Ht; cbn [gather_left].
  { rewrite !Nat.add_0_r, <- Hs. apply yields_ret. }
  replace (length P + (t - m)) with (Datatypes.S (length P + (t - 1 - m))) by lia.
  destruct (swap_block cmp P (flips M 0 t m) Q s m (t - 1 - m) Hs) as (s1 & Hw & Hs1); [rewrite length_flips; lia..|].
  destruct (IH (Datatypes.S m) s1) as (s2 & Hg & Hs2); [done|lia|done|]. replace (m + Datatypes.S n) with (Datatypes.S m + n) by lia. exists s2.
  rewrite (sbind_ok _ _ _ _ _ Hw). replace (length P + m + 1) with (length P + Datatypes.S m) by lia.
  by replace (t - 1 - m) with (t - Datatypes.S m) by lia.
Qed.

Lemma gather_right_ok P M Q t n : forall m s, slots s = P ++ flips M t (length M) m ++ Q -> 1 <= t -> t + (m + n) <= length M ->
  yields (gather_right n (length P + (length M - 1 - m)) (length P + (t + m))) s (length P + (t + (m + n)))
    (P ++ flips M t (length M) (m + n) ++ Q).
Proof.
  induction n as [|n IH]; intros m s Hs H1 Hm; cbn [gather_right].
  { rewrite !Nat.add_0_r, <- Hs. apply yields_ret. }
  destruct (swap_block cmp P (flips M t (length M) m) Q s (length M - 1 - m) (t + m) Hs) as (s1 & Hw & Hs1); [rewrite length_flips; lia..|].
  rewrite exch_comm in Hs1.
  destruct (IH (Datatypes.S m) s1) as (s2 & Hg & Hs2); [done|done|lia|]. replace (m + Datatypes.S n) with (Datatypes.S m + n) by lia. exists s2.
  rewrite (sbind_ok _ _ _ _ _ Hw). replace (length P + (t + m) + 1) with (length P + (t + Datatypes.S m)) by lia.
  by replace (length P + (length M - 1 - m) - 1) with (length P + (length M - 1 - Datatypes.S m)) by lia.
Qed.

Lemma range_elem M lo hi phi a : range M lo hi phi -> a ∈ take (hi - lo) (drop lo M) -> phi a.
Proof.
  intros Hr [i Hi]%list_elem_of_lookup_1. apply lookup_take_Some in Hi as [Hi Hlt]. rewrite lookup_drop in Hi.
  apply (Hr (lo + i)); [lia|done].
Qed.


Lemma three_parts M a b : a <= b -> take a M ++ take (b - a) (drop a M) ++ drop b M = M.
Proof.
  intros Hab. replace b with (a + (b - a)) at 2 by lia. rewrite <- drop_drop, take_drop. apply take_drop.
Qed.

(** With the pivot in the first slot, the loop can start. *)
Lemma pivot_placed M r x v b : M !! r = Some v -> M !! x = Some b -> x <> r -> le v b ->
  parted (exch M 0 r) v 0 (length M) 1 (length M - 1) /\ exists y, 0 < y <= length M /\ exch M 0 r !! y = Some b.
Proof.
  intros Hv Hb Hxr Hvb. pose proof (lookup_lt_Some _ _ _ Hv) as Hr. pose proof (lookup_lt_Some _ _ _ Hb) as Hx.
  destruct (lookup_lt_is_Some_2 M 0) as [m0 Hm0]; [lia|]. split.
  - constructor; rewrite ?length_exch; try lia; try (intros m a Hm Ha; lia).
    intros m a Hm. assert (m = 0) as -> by lia. rewrite (exch_lookup M 0 r m0 v) by done.
    rewrite decide_True by done. intros [= <-]. split; by apply cmp_le_refl.
  - destruct (decide (x = 0)) as [->|Hx0]; [exists r|exists x]; rewrite (exch_lookup M 0 r m0 v) by done.
    + rewrite decide_False, decide_True by lia. split; [lia|congruence].
    + rewrite !decide_False by lia. split; [lia|done].
Qed.

(** What the two gathering loops make of the split block. *)
Lemma gathered M v j p q e M' : split_at_pivot M v j p q -> e = length M - 1 - q ->
  M' = flips (flips M 0 (j + 1) p) (j + 1) (length M) e ->
  range M' 0 (j + 1 - p) (fun a => le a v) /\ range M' (j + 1 - p) (j + 1 + e) (eqv v)
    /\ range M' (j + 1 + e) (length M) (fun a => le v a).
Proof.
  intros [Hp Hq Hlow Hhigh Heql Heqr] He ->. pose proof (length_flips M 0 (j + 1) p) as Hlen. split_and!.
  - apply flips_outside; [lia|lia|lia|]. intros m a Hm Ha.
    refine (flips_inside M 0 (j + 1) p (fun a => le a v) _ _ Hlow m a _ Ha); lia.
  - intros m a Hm. destruct (decide (m < j + 1)).
    + apply (flips_outside (flips M 0 (j + 1) p) _ _ _ (j + 1 - p) (j + 1)); [lia|lia|lia| |lia].
      apply flips_front; [lia|lia|done].
    + apply (flips_back (flips M 0 (j + 1) p) (j + 1) (length M) e); [lia|lia| |lia].
      apply flips_outside; [lia|lia|lia|]. by replace (length M - e) with (q + 1) by lia.
  - intros m a Hm Ha. refine (flips_inside _ (j + 1) (length M) e (fun a => le v a) _ _ _ m a _ Ha); [lia|lia| |lia].
    apply flips_outside; [lia|lia|lia|done].
Qed.

(** The block in three parts around the pivot. *)
Lemma partition_ok P M Q s : slots s = P ++ M ++ Q -> INSERTION_SORT_THRESHOLD < length M ->
  exists A E C v, yields (partition (length P) (length P + length M)) s
      (length P + length A, length P + length A + length E) (P ++ (A ++ E ++ C) ++ Q)
    /\ A ++ E ++ C ≡ₚ M /\ (forall a, a ∈ A -> le a v) /\ (forall a, a ∈ E -> eqv v a) /\ (forall a, a ∈ C -> le v a)
    /\ length A < length M /\ length C < length M.
Proof.
  intros Hs Hn. destruct (select_pivot_ok P M Q s Hs Hn) as (r & x & v & b & (s1 & Hy1 & Hs1) & Hxr & Hv & Hb & Hvb).
  pose proof (lookup_lt_Some _ _ _ Hv) as Hr.
  destruct (set_pivot_law s1 (length P + r) v) as (s2 & Hy2 & Hs2 & Hp2); [rewrite Hs1; by apply at_offset|].
  destruct (swap_kept P M Q s2 v 0 r) as (s3 & Hy3 & Hh3); [by split; [rewrite Hs2|]|lia|lia|].
  destruct (pivot_placed M r x v b) as (Hpart & y & Hy & Hyb); auto.
  destruct (partition_loop_ok P Q v (length M) (exch M 0 r) 0 (length M) 1 (length M - 1) s3 y b) as
    (M2 & j & p & q & s4 & Hy4 & [Hs4 _] & Hsplit & Hperm2); auto; [lia|].
  pose proof (Permutation_length Hperm2) as Hlen. rewrite length_exch in Hy4, Hlen. pose proof Hsplit as [Hp Hq _ _ _ _].
  destruct (gather_left_ok P M2 Q (j + 1) p 0 s4) as (s5 & Hy5 & Hs5); [done|lia|lia|].
  set (M3 := flips M2 0 (j + 1) p) in *. assert (Hlen3 : length M3 = length M2) by apply length_flips.
  destruct (gather_right_ok P M3 Q (j + 1) (length M2 - 1 - q) 0 s5) as (s6 & Hy6 & Hs6); [done|lia|lia|].
  rewrite Hlen3 in Hy6, Hs6. remember (length M2 - 1 - q) as e eqn:He.
  remember (flips M3 (j + 1) (length M2) e) as M4 eqn:HM4. assert (Hlen4 : length M4 = length M2) by (by rewrite HM4, length_flips).
  destruct (gathered M2 v j p q e M4 Hsplit He HM4) as (RA & RE & RC).
  exists (take (j + 1 - p) M4), (take (j + 1 + e - (j + 1 - p)) (drop (j + 1 - p) M4)), (drop (j + 1 + e) M4), v.
  rewrite three_parts, !length_take, !length_drop by lia. split_and!; try lia.
  - exists s6. split; [|cbn [Nat.add] in Hs6; by rewrite Hs6, <- HM4].
    unfold partition. rewrite (sbind_ok _ _ _ _ _ Hy1), (sbind_ok _ _ _ _ _ Hy2).
    rewrite Nat.add_0_r in Hy3. rewrite (sbind_ok _ _ _ _ _ Hy3).
    replace (length P + length M - length P) with (length M) by lia.
    replace (length P + length M - 1) with (length P + (length M - 1)) by lia. rewrite Nat.add_0_r in Hy4.
    rewrite (sbind_ok _ _ _ _ _ Hy4). cbn beta iota. replace (length P + p - length P) with p by lia.
    rewrite Nat.sub_0_r, Nat.add_0_r, Nat.add_assoc in Hy5. rewrite (sbind_ok _ _ _ _ _ Hy5).
    replace (length P + (length M - 1) - (length P + q)) with e by lia.
    rewrite Nat.sub_0_r, Nat.add_0_r, Nat.add_assoc, Hlen in Hy6. rewrite (sbind_ok _ _ _ _ _ Hy6).
    rewrite !Nat.min_l by lia. unfold sret. do 3 f_equal; lia.
  - rewrite HM4, flips_perm. unfold M3. rewrite flips_perm, Hperm2. apply exch_perm.
  - intros a Ha. apply (range_elem M4 0 (j + 1 - p) (fun a => le a v)); [done|]. by rewrite Nat.sub_0_r.
  - intros a Ha. by apply (range_elem M4 (j + 1 - p) (j + 1 + e) (eqv v)).
  - intros a Ha. apply (range_elem M4 (j + 1 + e) (length M2) (fun a => le v a)); [done|].
    rewrite take_ge; [done|]. rewrite length_drop. lia.
Qed.

(** ** The sort *)

Lemma parts_sorted A E C v : sorted A -> sorted C -> (forall a, a ∈ A -> le a v) -> (forall a, a ∈ E -> eqv v a) ->
  (forall a, a ∈ C -> le v a) -> sorted (A ++ E ++ C).
Proof.
  intros HA HC HAv HEv HCv. rewrite !sorted_app. split_and!; auto.
  - clear HC HCv. induction E as [|x E IH]; constructor.
    + apply IH. intros a Ha. apply HEv. by right.
    + apply Forall_forall. intros y Hy. apply le_trans_ with v; [done|apply HEv; left|apply HEv; by right].
  - intros a b Ha Hb. apply le_trans_ with v; [done|by apply HEv|by apply HCv].
  - intros a b Ha [Hb|Hb]%elem_of_app; (apply le_trans_ with v; [done|by apply HAv|]); [by apply HEv|by apply HCv].
Qed.

Lemma sort_loop_ok fuel : forall d P L Q s from to, length L < fuel -> slots s = P ++ L ++ Q ->
  from = length P -> to = length P + length L ->
  exists M, yields (sort_in_intro_loop fuel from to d) s tt (P ++ M ++ Q) /\ sorted M /\ M ≡ₚ L.
Proof.
  induction fuel as [|fuel IH]; intros d P L Q s from to Hf Hs -> ->; [lia|]. cbn [sort_in_intro_loop].
  destruct (Nat.leb_spec (length P) (length P + length L)) as [_|]; [|lia]. cbn [debug_assert].
  eapply (yields_bind_ex cmp _ _ _ tt (P ++ L ++ Q) tt (fun M => P ++ M ++ Q)); [by exists s|]. intros s0 Hs0. clear s Hs.
  replace (length P + length L - length P) with (length L) by lia.
  destruct (Nat.ltb_spec INSERTION_SORT_THRESHOLD (length L)) as [Hbig|_].
  2: { apply (sorts_stably_sorts cmp insertion_sort (insertion_sort_ok cmp)); auto. }
  destruct d as [|d]; [by apply heap_sort_ok|].
  destruct (partition_ok P L Q s0 Hs0 Hbig) as (A & E & C & v & Hy & Hperm & HA & HE & HC & HlA & HlC).
  eapply (yields_bind_ex cmp _ _ _ _ _ tt (fun M => P ++ M ++ Q)); [exact Hy|]. intros s1 Hs1. cbn beta iota.
  assert (Hlen : length L = length A + length E + length C) by (rewrite <- (Permutation_length Hperm), !length_app; lia).
  assert (Hmid : forall A' C', sorted A' -> A' ≡ₚ A -> sorted C' -> C' ≡ₚ C ->
    sorted (A' ++ E ++ C') /\ A' ++ E ++ C' ≡ₚ L).
  { intros A' C' HA' HpA HC' HpC. split; [|by rewrite HpA, HpC].
    apply (parts_sorted _ _ _ v); auto; intros a Ha; [rewrite HpA in Ha|rewrite HpC in Ha]; auto. }
  case_match.
  - destruct (IH d P A ((E ++ C) ++ Q) s1 (length P) (length P + length A)) as (A' & (s2 & HyA & Hs2) & HA' & HpA); [lia|..|];
      [by rewrite Hs1, <- !app_assoc|done|done|]. pose proof (Permutation_length HpA).
    destruct (IH d (P ++ A' ++ E) C Q s2 (length P + length A + length E) (length P + length L)) as (C' & (s3 & HyC & Hs3) & HC' & HpC);
      [lia|by rewrite Hs2, <- !app_assoc|rewrite !length_app; lia|rewrite !length_app; lia|].
    exists (A' ++ E ++ C'). split; [|by apply Hmid]. exists s3. rewrite (sbind_ok _ _ _ _ _ HyA).
    split; [done|]. by rewrite Hs3, <- !app_assoc.
  - destruct (IH d (P ++ A ++ E) C Q s1 (length P + length A + length E) (length P + length L)) as (C' & (s2 & HyC & Hs2) & HC' & HpC);
      [lia|by rewrite Hs1, <- !app_assoc|rewrite !length_app; lia|rewrite !length_app; lia|].
    destruct (IH d P A ((E ++ C') ++ Q) s2 (length P) (length P + length A)) as (A' & (s3 & HyA & Hs3) & HA' & HpA);
      [lia|by rewrite Hs2, <- !app_assoc|done|done|].
    exists (A' ++ E ++ C'). split; [|by apply Hmid]. exists s3. rewrite (sbind_ok _ _ _ _ _ HyC).
    split; [done|]. by rewrite Hs3, <- !app_assoc.
Qed.

Lemma sort_range_ok : sorts cmp sort_range.
Proof.
  intros P L Q s from to Hs -> ->. unfold sort_range, check_range.
  destruct (Nat.ltb_spec (length P + length L) (length P)); [lia|].
  destruct (sort_loop_ok (Datatypes.S (length L)) (2 * Nat.log2 (length P + length L - length P)) P L Q s (length P)
    (length P + length L)) as (M & Hy & HM); auto.
  exists M. split; [|done]. unfold sort_in_intro. by replace (length P + length L - length P) with (length L) in * by lia.
Qed.

End IntroProofs.
End IntroProofs.
