(* ===== verification/ArraySorts.v ===== *)
(** The sorts of [ArrayUtil] ([src/core/util/array_util.rs]) over [ArrayIntroSorter], the
    orders of [src/core/util/comparator.rs], and what the sorters promise: sorted, with the
    elements they were given, stably where the source says so. *)

From Stdlib Require Import ZArith Lia Bool Arith.
From stdpp Require Import base tactics numbers list sorting.
From S2P Require Import Prelude Sorter SorterProofs HeapSort IntroSorter.
Import Sorter SorterProofs HeapSort.

Local Open Scope nat_scope.

(** * Arrays *)
Module ArraySorts.
Import ArrayIntroSorter IntroSorter IntroProofs.

Section ArraySorts.
Context {T : Type} (comparator : T -> T -> result Z).

(** [ArrayIntroSorter::sort] *)
Definition array_intro_sort (from to : nat) : ST (t T) unit :=
  sort_range (H := array_sorter comparator) from to.

(** [ArrayUtil]'s entry points: the array after the call. *)
Definition do_intro_sort (a : list T) (from_index to_index : nat) : result unit * list T :=
  if to_index - from_index <=? 1 then (Ok tt, a)
  else let (r, s) := array_intro_sort from_index to_index (new a) in (r, arr s).

Definition intro_sort_with_comparator (a : list T) : result unit * list T := do_intro_sort a 0 (length a).
End ArraySorts.

(** [NaturalOrder] and [ReverseOrder] over an ordered type; [cmp] is [Ord::cmp]. *)
Definition to_int (c : comparison) : Z := match c with Lt => -1 | Eq => 0 | Gt => 1 end.
Definition natural_order {T : Type} (cmp : T -> T -> comparison) (a b : T) : result Z := Ok (to_int (cmp a b)).
Definition reverse_order {T : Type} (cmp : T -> T -> comparison) (a b : T) : result Z :=
  let? c := natural_order cmp a b in Ok (- c)%Z.

Definition intro_sort_with_range {T : Type} (cmp : T -> T -> comparison) (a : list T) (from_index to_index : nat) :
    result unit * list T :=
  if to_index <=? 1 + from_index then (Ok tt, a)
  else do_intro_sort (natural_order cmp) a from_index to_index.

Definition intro_sort {T : Type} (cmp : T -> T -> comparison) (a : list T) : result unit * list T :=
  intro_sort_with_range cmp a 0 (length a).

Section Proofs.
Context {T : Type} (cmp : T -> T -> Z) (comparator : T -> T -> result Z).
Hypothesis comparator_total : forall a b, comparator a b = Ok (cmp a b).

#[local] Instance the_sorter : Sorter (t T) := ArraySort.sorter_of_array comparator.
#[local] Instance the_spec : SorterSpec (t T) cmp := ArraySort.array_sorter_spec cmp comparator comparator_total.

#[local] Instance array_pivot_kept : PivotKept (t T) cmp.
Proof.
  intros s s' i j a b p Ha Hb Hp. cbn in *. unfold swap_. rewrite Ha, Hb. intros [= <-]. cbn.
  pose proof (lookup_lt_Some _ _ _ Ha). pose proof (lookup_lt_Some _ _ _ Hb).
  destruct (Nat.eqb_spec (pivot s) i) as [Hi|Hi]; cbn [orb].
  - rewrite Hi in Hp. destruct (decide (i = j)) as [->|Hij].
    + rewrite list_lookup_insert_eq by (rewrite length_insert; lia). congruence.
    + rewrite list_lookup_insert_ne, list_lookup_insert_eq by (done || lia). congruence.
  - destruct (Nat.eqb_spec (pivot s) j) as [Hj|Hj].
    + rewrite Hj in Hp. rewrite list_lookup_insert_eq by (rewrite length_insert; lia). congruence.
    + by rewrite !list_lookup_insert_ne by done.
Qed.

Lemma array_intro_sort_ok {CO : CmpOrder cmp} P L Q : exists M s',
  array_intro_sort comparator (length P) (length P + length L) (new (P ++ L ++ Q)) = (Ok tt, s')
  /\ arr s' = P ++ M ++ Q /\ StronglySorted (le cmp) M /\ M ≡ₚ L.
Proof.
  destruct (sort_range_ok cmp P L Q (new (P ++ L ++ Q)) (length P) (length P + length L)) as (M & (s' & Hs & Ha) & HM & Hp); auto.
  by exists M, s'.
Qed.
End Proofs.

(** C8: [do_intro_sort] sorts the range it is given: for a comparator that never fails and is
    a total preorder, the call returns [Ok], the slots between the two indices hold the
    same elements in order, and the other slots are as they were. *)
Theorem intro_sort_sorts {T : Type} (cmp : T -> T -> Z) (comparator : T -> T -> result Z) (P L Q : list T) :
  CmpOrder cmp -> (forall a b, comparator a b = Ok (cmp a b)) ->
  exists M, do_intro_sort comparator (P ++ L ++ Q) (length P) (length P + length L) = (Ok tt, P ++ M ++ Q)
    /\ StronglySorted (le cmp) M /\ M ≡ₚ L.
Proof.
  intros CO Hc. unfold do_intro_sort. replace (length P + length L - length P) with (length L) by lia.
  destruct (Nat.leb_spec (length L) 1) as [Hle|_].
  { exists L. split; [done|]. split; [|done]. destruct L as [|x [|]]; simpl in Hle; try lia; repeat constructor. }
  destruct (array_intro_sort_ok cmp comparator Hc P L Q) as (M & s' & Hs & Ha & HM). exists M. by rewrite Hs, Ha.
Qed.

(** C7: [InPlaceMergeSorter] sorts stably over any sorter that keeps the contract of
    [compare] and [swap]: it returns [Ok], the slots of the range hold the same elements in
    order with equal ones in the order they had, and no other slot changes. *)
Theorem merge_sort_sorts_stably {S T : Type} (cmp : T -> T -> Z) `{SS : SorterSpec S T cmp} (s : S) (P L Q : list T) :
  CmpOrder cmp -> slots s = P ++ L ++ Q ->
  exists M x', InPlaceMergeSorter.sort (length P) (length P + length L) (InPlaceMergeSorter.new s) = (Ok tt, x')
    /\ slots (InPlaceMergeSorter.sub x') = P ++ M ++ Q /\ StronglySorted (le cmp) M /\ stable cmp L M.
Proof.
  intros CO Hs.
  destruct (MergeSort.sort_ok cmp P L Q (InPlaceMergeSorter.new s) (length P) (length P + length L)) as (M & (x' & Hx & Hm) & HM); auto.
  by exists M, x'.
Qed.

(** [binary_sort] and [insertion_sort] are the same function of the slots: both return
    [Ok] and leave the one stable sorted rearrangement of the range. *)
Theorem small_sorts_agree {S T : Type} (cmp : T -> T -> Z) `{SS : SorterSpec S T cmp} (s : S) (P L Q : list T) :
  CmpOrder cmp -> slots s = P ++ L ++ Q ->
  exists M s1 s2, binary_sort (length P) (length P + length L) s = (Ok tt, s1)
    /\ insertion_sort (length P) (length P + length L) s = (Ok tt, s2)
    /\ slots s1 = P ++ M ++ Q /\ slots s2 = P ++ M ++ Q /\ StronglySorted (le cmp) M /\ stable cmp L M.
Proof.
  intros CO Hs.
  destruct (binary_sort_ok cmp P L Q s (length P) (length P + length L)) as (M & (s1 & H1 & Hs1) & HM & Hst); auto.
  destruct (insertion_sort_ok cmp P L Q s (length P) (length P + length L)) as (M' & (s2 & H2 & Hs2) & HM' & Hst'); auto.
  assert (M' = M) as -> by (by apply (stable_result_unique cmp L)). by exists M, s1, s2.
Qed.

(** [heap_sort] sorts the range in place and leaves the other slots. *)
Theorem heap_sort_sorts {S T : Type} (cmp : T -> T -> Z) `{SS : SorterSpec S T cmp} (s : S) (P L Q : list T) :
  CmpOrder cmp -> slots s = P ++ L ++ Q ->
  exists M s', heap_sort (length P) (length P + length L) s = (Ok tt, s')
    /\ slots s' = P ++ M ++ Q /\ StronglySorted (le cmp) M /\ M ≡ₚ L.
Proof.
  intros CO Hs. destruct (heap_sort_ok cmp P L Q s (length P) (length P + length L)) as (M & (s' & H' & Hs') & HM); auto.
  by exists M, s'.
Qed.

(** The galloping searches [lower2] and [upper2] find in a sorted range the slot that
    [lower] and [upper] find, while the range ends below a third of [i32::MAX]. *)
Theorem galloping_finds_same {S T : Type} (cmp : T -> T -> Z) `{SS : SorterSpec S T cmp} (s : S) (P A Q : list T) val v :
  CmpOrder cmp -> slots s = P ++ A ++ Q -> slots s !! val = Some v -> StronglySorted (le cmp) A -> A <> [] ->
  (3 * Z.of_nat (length P + length A) <= i32_MAX)%Z ->
  (exists k s1 s2, lower (length P) (length P + length A) val s = (Ok k, s1)
     /\ lower2 (length P) (length P + length A) val s = (Ok k, s2) /\ slots s1 = slots s /\ slots s2 = slots s) /\
  (exists k s1 s2, upper (length P) (length P + length A) val s = (Ok k, s1)
     /\ upper2 (length P) (length P + length A) val s = (Ok k, s2) /\ slots s1 = slots s /\ slots s2 = slots s).
Proof.
  intros CO Hs Hv HA Hne Hmax. rewrite Hs in *.
  destruct (gallop_ok cmp P A Q v val s (length P + length A)) as [(k & (s1 & ? & ?) & (s2 & ? & ?)) (k' & (s3 & ? & ?) & (s4 & ? & ?))]; auto.
  split; [exists k, s1, s2|exists k', s3, s4]; done.
Qed.

(** ** Concrete sorts *)

Definition by_key (a b : Z * Z) : Z := to_int (fst a ?= fst b)%Z.

#[export] Instance by_key_order : CmpOrder by_key.
Proof.
  split; unfold by_key; intros.
  - destruct (Z.compare_spec (fst a) (fst b)), (Z.compare_spec (fst b) (fst a)); simpl; lia.
  - destruct (Z.compare_spec (fst a) (fst b)), (Z.compare_spec (fst b) (fst c)), (Z.compare_spec (fst a) (fst c)); simpl in *; lia.
Qed.

Definition key_comparator (a b : Z * Z) : result Z := Ok (by_key a b).
Definition sample : list (Z * Z) :=
  [(5, 0); (3, 1); (5, 2); (1, 3); (3, 4); (9, 5); (2, 6); (6, 7); (5, 8); (3, 9); (5, 10); (8, 11); (9, 12); (7, 13);
   (9, 14); (3, 15); (2, 16); (3, 17); (8, 18); (4, 19); (6, 20); (2, 21); (6, 22)]%Z.
Lemma intro_sort_sorts_witness : exists M,
  do_intro_sort key_comparator ([(0, 0)] ++ sample ++ [(1, 1)])%Z 1 24 = (Ok tt, [(0, 0)]%Z ++ M ++ [(1, 1)]%Z)
  /\ StronglySorted (le by_key) M /\ M ≡ₚ sample.
Proof. exact (intro_sort_sorts by_key key_comparator [(0, 0)]%Z sample [(1, 1)]%Z _ (fun _ _ => eq_refl)). Defined.

#[local] Instance sample_sorter : Sorter (t (Z * Z)) := ArraySort.sorter_of_array key_comparator.
#[local] Instance sample_spec : SorterSpec (t (Z * Z)) by_key :=
  ArraySort.array_sorter_spec by_key key_comparator (fun _ _ => eq_refl).

Lemma merge_sort_sorts_stably_witness : exists M x',
  InPlaceMergeSorter.sort 0 23 (InPlaceMergeSorter.new (new sample)) = (Ok tt, x')
  /\ slots (InPlaceMergeSorter.sub x') = [] ++ M ++ [] /\ StronglySorted (le by_key) M /\ stable by_key sample M.
Proof. apply (merge_sort_sorts_stably by_key (new sample) [] sample []); [apply _|reflexivity]. Defined.

Lemma small_sorts_agree_witness : exists M s1 s2,
  binary_sort 1 4 (new [(9, 0); (3, 1); (5, 2); (3, 3); (0, 4)]%Z) = (Ok tt, s1)
  /\ insertion_sort 1 4 (new [(9, 0); (3, 1); (5, 2); (3, 3); (0, 4)]%Z) = (Ok tt, s2)
  /\ slots s1 = [(9, 0)]%Z ++ M ++ [(0, 4)]%Z /\ slots s2 = [(9, 0)]%Z ++ M ++ [(0, 4)]%Z
  /\ StronglySorted (le by_key) M /\ stable by_key [(3, 1); (5, 2); (3, 3)]%Z M.
Proof.
  apply (small_sorts_agree by_key (new [(9, 0); (3, 1); (5, 2); (3, 3); (0, 4)]%Z) [(9, 0)]%Z [(3, 1); (5, 2); (3, 3)]%Z [(0, 4)]%Z);
    [apply _|reflexivity].
Defined.

Lemma heap_sort_sorts_witness : exists M s',
  heap_sort 0 23 (new sample) = (Ok tt, s') /\ slots s' = [] ++ M ++ [] /\ StronglySorted (le by_key) M /\ M ≡ₚ sample.
Proof. apply (heap_sort_sorts by_key (new sample) [] sample []); [apply _|reflexivity]. Defined.

Definition gallop_sample : t (Z * Z) := new [(4, 0); (2, 1); (4, 2); (4, 3); (7, 4)]%Z.

Lemma galloping_finds_same_witness :
  (exists k s1 s2, lower 1 5 0 gallop_sample = (Ok k, s1) /\ lower2 1 5 0 gallop_sample = (Ok k, s2)
     /\ slots s1 = slots gallop_sample /\ slots s2 = slots gallop_sample) /\
  (exists k s1 s2, upper 1 5 0 gallop_sample = (Ok k, s1) /\ upper2 1 5 0 gallop_sample = (Ok k, s2)
     /\ slots s1 = slots gallop_sample /\ slots s2 = slots gallop_sample).
Proof.
  refine (galloping_finds_same by_key gallop_sample [(4, 0)]%Z [(2, 1); (4, 2); (4, 3); (7, 4)]%Z [] 0 (4, 0)%Z _ _ _ _ _ _);
    try reflexivity; try done.
  repeat constructor; vm_compute; congruence.
Defined.

(** Both orders, and a sort that leaves the depth limit and the threshold behind. *)
Example orders_sort : intro_sort Z.compare [3; 1; 2]%Z = (Ok tt, [1; 2; 3]%Z)
  /\ do_intro_sort (reverse_order Z.compare) [3; 1; 2]%Z 0 3 = (Ok tt, [3; 2; 1]%Z)
  /\ intro_sort_with_comparator (natural_order Z.compare) (rev (map Z.of_nat (seq 0 60))) = (Ok tt, map Z.of_nat (seq 0 60))
  /\ intro_sort_with_range Z.compare [3; 1; 2]%Z 2 1 = (Ok tt, [3; 1; 2]%Z).
Proof. vm_compute. repeat split; reflexivity. Qed.

End ArraySorts.
