(* ===== verification/RadixSorter.v ===== *)
(** [MSBRadixSorter] of [src/core/util/most_significant_bit_radix_sort.rs]: a radix sort of
    strings from the most significant byte on, with common prefixes skipped and a
    comparison sort below a size and a depth. The trait of what it works on,
    [MSBRadixSorterBase], is a class. *)

From Stdlib Require Import ZArith Lia Bool Arith.
From stdpp Require Import base tactics numbers list sorting.
From S2P Require Import Prelude ArrayUtil Sorter IntroSorter.

Local Open Scope nat_scope.

Module MSBRadixSorter.

Definition LEVEL_THRESHOLD : nat := 8.
Definition HISTOGRAM_SIZE : nat := 257.
Definition LENGTH_THRESHOLD : nat := 100.

(** An index of a vector, checked. *)
Definition nget {A} (l : list A) (i : nat) : result A := match l !! i with Some x => Ok x | None => Panic end.
Definition nset {A} (l : list A) (i : nat) (x : A) : result (list A) := if i <? length l then Ok (<[i := x]> l) else Panic.

(** What the sorter asks of its delegate. [fallback_sort] is [sort] of the sorter that
    [get_fallback_sorter] answers; a histogram passed by [&mut] is given back. *)
Class MSBRadixSorterBase (S : Type) : Type := {
  byte_at : nat -> nat -> ST S Z;
  build_histogram (prefix_common_bucket prefix_common_len from to k : nat) (histogram : list nat) : ST S (list nat);
  reorder (from to : nat) (start_offsets end_offsets : list nat) (k : nat) : ST S (list nat);
  should_fallback : S -> nat -> nat -> nat -> bool;
  fallback_sort (k : nat) (max_length : Z) (from to : nat) : ST S unit;
}.

(** ** The loops of the trait's default methods *)

Section Loops.
Context {S : Type}.

(** The bucket of a byte; a negative one would be an index out of range. *)
Definition bucket_of (b : Z) : result nat := if (0 <=? b + 1)%Z then Ok (Z.to_nat (b + 1)) else Panic.

(** [for i in from..to { ...; histogram\[b\] += 1 }], [bucket_at] giving [b]. *)
Fixpoint count_loop (bucket_at : nat -> ST S nat) (n i : nat) (histogram : list nat) : ST S (list nat) :=
  match n with
  | O => sret histogram
  | Datatypes.S n =>
      let* b := bucket_at i in
      let* c := slift (nget histogram b) in
      let* histogram := slift (nset histogram b (c + 1)) in
      count_loop bucket_at n (i + 1) histogram
  end.

(** [while start_offsets\[i\] < limit]: the slot at the start of bucket [i] goes where it
    belongs. *)
Fixpoint drain_loop (bucket_at : nat -> ST S nat) (exchange : nat -> nat -> ST S unit) (fuel i limit from : nat)
    (start_offsets : list nat) : ST S (list nat) :=
  match fuel with
  | O => slift OutOfFuel
  | Datatypes.S fuel =>
      let* h1 := slift (nget start_offsets i) in
      if h1 <? limit then
        let* b := bucket_at (from + h1) in
        let* h2 := slift (nget start_offsets b) in
        let* start_offsets := slift (nset start_offsets b (h2 + 1)) in
        let* _ := exchange (from + h1) (from + h2) in
        drain_loop bucket_at exchange fuel i limit from start_offsets
      else sret start_offsets
  end.

Fixpoint reorder_loop (bucket_at : nat -> ST S nat) (exchange : nat -> nat -> ST S unit) (fuel n i from : nat)
    (start_offsets end_offsets : list nat) : ST S (list nat) :=
  match n with
  | O => sret start_offsets
  | Datatypes.S n =>
      let* limit := slift (nget end_offsets i) in
      let* start_offsets := drain_loop bucket_at exchange fuel i limit from start_offsets in
      reorder_loop bucket_at exchange fuel n (i + 1) from start_offsets end_offsets
  end.
End Loops.

Section Defaults.
Context {S : Type} (byte_at_ : nat -> nat -> ST S Z) (swap_ : nat -> nat -> ST S unit).

Definition get_bucket (k i : nat) : ST S nat := let* b := byte_at_ i k in slift (bucket_of b).

Definition default_build_histogram (prefix_common_bucket prefix_common_len from to k : nat) (histogram : list nat) : ST S (list nat) :=
  let* histogram := slift (nset histogram prefix_common_bucket prefix_common_len) in
  count_loop (get_bucket k) (to - from) from histogram.

(** Every turn of the inner loop puts one slot in its place. *)
Definition default_reorder (from to : nat) (start_offsets end_offsets : list nat) (k : nat) : ST S (list nat) :=
  reorder_loop (get_bucket k) swap_ (Datatypes.S (to - from)) HISTOGRAM_SIZE 0 from start_offsets end_offsets.

Definition default_should_fallback (from to l : nat) : bool := (to - from <=? LENGTH_THRESHOLD) || (LEVEL_THRESHOLD <=? l).
End Defaults.

(** ** The sorter *)

Section Sorter.
Context {S : Type} `{MSBRadixSorterBase S}.

Record t := mk {
  histograms : list (list nat);
  end_offsets : list nat;
  common_prefix : list Z;
  max_length : Z;
  delegate : S }.

Definition new (max_length : Z) (delegate : S) : t :=
  mk (replicate LEVEL_THRESHOLD []) (replicate HISTOGRAM_SIZE 0) (replicate 24 0%Z) max_length delegate.

Definition on_delegate {A} (m : ST S A) : ST t A := fun s =>
  let '(r, d) := m (delegate s) in (r, mk (histograms s) (end_offsets s) (common_prefix s) (max_length s) d).

Definition get_histogram (l : nat) : ST t (list nat) := let* s := sget in slift (nget (histograms s) l).
Definition set_histogram (l : nat) (h : list nat) : ST t unit :=
  let* s := sget in
  let* hs := slift (nset (histograms s) l h) in
  sput (mk hs (end_offsets s) (common_prefix s) (max_length s) (delegate s)).
Definition set_end_offsets (e : list nat) : ST t unit :=
  let* s := sget in sput (mk (histograms s) e (common_prefix s) (max_length s) (delegate s)).
Definition set_prefix (j : nat) (b : Z) : ST t unit :=
  let* s := sget in
  let* p := slift (nset (common_prefix s) j b) in
  sput (mk (histograms s) (end_offsets s) p (max_length s) (delegate s)).

(** The prefix of the first slot, up to the end of its string: [j] bytes are known and
    [n] may follow. *)
Fixpoint initial_loop (n j from k : nat) : ST t nat :=
  match n with
  | O => sret j
  | Datatypes.S n =>
      let* b := on_delegate (byte_at from (k + j)) in
      let* _ := set_prefix j b in
      if (b =? -1)%Z then sret (j + 1) else initial_loop n (j + 1) from k
  end.

Definition compute_initial_common_prefix_length (from k : nat) : ST t nat :=
  let* s := sget in
  let room := Z.min 24 (max_length s) in
  let* beyond := slift (if (max_length s <? Z.of_nat k)%Z then Panic else Ok (max_length s - Z.of_nat k)%Z) in
  initial_loop (Z.to_nat (Z.min room beyond)) 0 from k.

(** [while j < common_prefix_length], [n] turns left: the first byte that differs. *)
Fixpoint first_difference (n j idx k : nat) : ST t nat :=
  match n with
  | O => sret j
  | Datatypes.S n =>
      let* b := on_delegate (byte_at idx (k + j)) in
      let* s := sget in
      let* c := slift (nget (common_prefix s) j) in
      if (b =? c)%Z then first_difference n (j + 1) idx k else sret j
  end.

(** The loop over the other slots: the length of the prefix and the slot it stopped at. *)
Fixpoint prefix_loop (n idx k common_prefix_length : nat) : ST t (nat * nat) :=
  match n with
  | O => sret (common_prefix_length, idx)
  | Datatypes.S n =>
      let* j := first_difference common_prefix_length 0 idx k in
      if j <? common_prefix_length then
        if j =? 0 then sret (0, idx) else prefix_loop n (idx + 1) k j
      else prefix_loop n (idx + 1) k common_prefix_length
  end.

(** [(common_prefix\[..24.min(max_length)\]\[0\] + 1).try_convert()] *)
Definition first_bucket : ST t nat :=
  let* s := sget in
  let* b := slift (nget (take (Z.to_nat (Z.min 24 (max_length s))) (common_prefix s)) 0) in
  slift (if (0 <=? b + 1)%Z then Ok (Z.to_nat (b + 1)) else Err IllegalState).

Definition build_histogram_part2 (from to k l common_prefix_length i : nat) : ST t unit :=
  if i <? to then
    let* _ := slift (debug_assert (common_prefix_length =? 0)) in
    let* bucket := first_bucket in
    let* h := get_histogram l in
    let* h := on_delegate (build_histogram bucket (i - from) i to k h) in
    set_histogram l h
  else
    let* _ := slift (debug_assert (0 <? common_prefix_length)) in
    let* bucket := first_bucket in
    let* h := get_histogram l in
    let* h := slift (nset h bucket (to - from)) in
    set_histogram l h.

Definition compute_common_prefix_length_and_build_histogram (from to k l : nat) : ST t nat :=
  let* common_prefix_length := compute_initial_common_prefix_length from k in
  let* (common_prefix_length, i) := prefix_loop (to - (from + 1)) (from + 1) k common_prefix_length in
  let* _ := build_histogram_part2 from to k l common_prefix_length i in
  sret common_prefix_length.

(** The start and the end of every bucket: [accum] slots are before it. *)
Fixpoint sum_histogram (accum : nat) (histogram end_offsets : list nat) : list nat * list nat :=
  match histogram, end_offsets with
  | count :: histogram, _ :: end_offsets =>
      let '(starts, ends) := sum_histogram (accum + count) histogram end_offsets in
      (accum :: starts, accum + count :: ends)
  | _, _ => (histogram, end_offsets)
  end.

Definition assert_histogram (common_prefix_length : nat) (histogram : list nat) : result bool :=
  let number_of_unique_bytes := length (filter (fun freq => 0 < freq) histogram) in
  let? _ := debug_assert (if number_of_unique_bytes =? 1 then 1 <=? common_prefix_length else common_prefix_length =? 0) in
  Ok true.

(** [for i in 1..HISTOGRAM_SIZE], [n] turns left; [sub] sorts a bucket of two or more. *)
Fixpoint bucket_loop (sub : nat -> nat -> ST t unit) (n i prev from l : nat) : ST t unit :=
  match n with
  | O => sret tt
  | Datatypes.S n =>
      let* hist := get_histogram l in
      let* h := slift (nget hist i) in
      let* bucket_len := slift (if h <? prev then Panic else Ok (h - prev)) in
      let* _ := (if 1 <? bucket_len then sub (from + prev) (from + h) else sret tt) in
      bucket_loop sub n (i + 1) h from l
  end.

Definition sort_impl_ (radix : nat -> nat -> nat -> nat -> ST t unit) (from to k l : nat) : ST t unit :=
  let* s := sget in
  let* _ := slift (if to <? from then Panic else Ok tt) in
  if should_fallback (delegate s) from to l then on_delegate (fallback_sort k (max_length s) from to)
  else radix from to k l.

(** [radix_sort] once the slots differ in the byte [k]: reorder them, and sort every
    bucket with [sub]. *)
Definition radix_buckets (sub : nat -> nat -> ST t unit) (from to k l common_prefix_length : nat) : ST t unit :=
  let* s := sget in
  let* h := get_histogram l in
  let* _ := slift (let? ok := assert_histogram common_prefix_length h in debug_assert ok) in
  let '(starts, ends) := sum_histogram 0 h (end_offsets s) in
  let* _ := set_histogram l starts in
  let* _ := set_end_offsets ends in
  let* starts := on_delegate (reorder from to starts ends k) in
  let* _ := set_histogram l starts in
  if (Z.of_nat (k + 1) <? max_length s)%Z then
    let* h := get_histogram l in
    let* prev := slift (nget h 0) in
    bucket_loop sub (HISTOGRAM_SIZE - 1) 1 prev from l
  else sret tt.

(** [fuel] bounds the bytes looked at one after the other. *)
Fixpoint radix_sort (fuel from to k l : nat) : ST t unit :=
  match fuel with
  | O => slift OutOfFuel
  | Datatypes.S fuel =>
      let* h := get_histogram l in
      let* _ := set_histogram l (match h with [] => replicate HISTOGRAM_SIZE 0 | _ => replicate (length h) 0 end) in
      let* common_prefix_length := compute_common_prefix_length_and_build_histogram from to k l in
      let* s := sget in
      if 0 <? common_prefix_length then
        let* h := get_histogram l in
        let* none := slift (nget h 0) in
        if (Z.of_nat (k + common_prefix_length) <? max_length s)%Z && (none <? to - from) then
          radix_sort fuel from to (k + common_prefix_length) l
        else sret tt
      else radix_buckets (fun a b => sort_impl_ (radix_sort fuel) a b (k + 1) (l + 1)) from to k l common_prefix_length
  end.

Definition sort_impl (fuel from to k l : nat) : ST t unit := sort_impl_ (radix_sort fuel) from to k l.

Definition sort (fuel from to : nat) : ST t unit :=
  let* _ := slift (Sorter.check_range from to) in
  sort_impl fuel from to 0 0.
End Sorter.
#[global] Arguments t : clear implicits.
End MSBRadixSorter.

(** * The default fallback *)

(** [BytesRefBuilder], as far as the pivot needs it. *)
Module BytesRefBuilder.
Record t := mk { bytes : list Z; length_ : nat }.
Definition new : t := mk [] 0.
Definition set_length (b : t) (n : nat) : t := mk (bytes b) n.
Definition byte_at (b : t) (i : nat) : result Z := MSBRadixSorter.nget (bytes b) i.
Definition append_byte (b : t) (x : Z) : result t :=
  let? bs := ArrayUtil.grow_with 1 (bytes b) (Z.of_nat (length_ b + 1)) 0%Z in
  let? bs := MSBRadixSorter.nset bs (length_ b) x in
  Ok (mk bs (length_ b + 1)).
End BytesRefBuilder.

Module MSBRadixIntroSorterImpl.
Section Impl.
Context {S : Type} (byte_at_ : nat -> nat -> ST S Z) (swap_ : nat -> nat -> ST S unit) (max_length : Z) (k : nat).

Record t := mk { pivot : BytesRefBuilder.t; delegate : S }.

Definition on_delegate {A} (m : ST S A) : ST t A := fun s => let '(r, d) := m (delegate s) in (r, mk (pivot s) d).
Definition set_pivot_ (p : BytesRefBuilder.t) : ST t unit := let* s := sget in sput (mk p (delegate s)).

(** [for o in self.k..self.max_length]: 2^32 turns are more than a key has bytes. *)
Definition compare_ (i j : nat) : ST t Z :=
  loop 32 (fun o =>
    if (Z.of_nat o <? max_length)%Z then
      let* b1 := on_delegate (byte_at_ i o) in
      let* b2 := on_delegate (byte_at_ j o) in
      if negb (b1 =? b2)%Z then sret (inr (b1 - b2)%Z)
      else if (b1 =? -1)%Z then sret (inr 0%Z)
      else sret (inl (o + 1))
    else sret (inr 0%Z)) k.

Definition set_pivot (i : nat) : ST t unit :=
  let* s := sget in
  let* _ := set_pivot_ (BytesRefBuilder.set_length (pivot s) 0) in
  loop 32 (fun o =>
    if (Z.of_nat o <? max_length)%Z then
      let* b := on_delegate (byte_at_ i o) in
      if (b =? -1)%Z then sret (inr tt)
      else
        let* s := sget in
        let* p := slift (BytesRefBuilder.append_byte (pivot s) (as_u8 b)) in
        let* _ := set_pivot_ p in
        sret (inl (o + 1))
    else sret (inr tt)) k.

(** [for o in 0..self.pivot.length()], [n] turns left; [Some] difference ends it. *)
Fixpoint compare_pivot_loop (n o j : nat) : ST t (option Z) :=
  match n with
  | O => sret None
  | Datatypes.S n =>
      let* s := sget in
      let* b1 := slift (BytesRefBuilder.byte_at (pivot s) o) in
      let* b2 := on_delegate (byte_at_ j (k + o)) in
      if negb (b1 =? b2)%Z then sret (Some (b1 - b2)%Z) else compare_pivot_loop n (o + 1) j
  end.

Definition compare_pivot (j : nat) : ST t Z :=
  let* s := sget in
  let len := BytesRefBuilder.length_ (pivot s) in
  let* d := compare_pivot_loop len 0 j in
  match d with
  | Some d => sret d
  | None =>
      if (Z.of_nat (k + len) =? max_length)%Z then sret 0%Z
      else
        let* b := on_delegate (byte_at_ j (k + len)) in
        sret (-1 - b)%Z
  end.

#[local] Instance intro_impl : Sorter.Sorter t := {
  Sorter.compare := compare_; Sorter.swap := fun i j => on_delegate (swap_ i j);
  Sorter.set_pivot := set_pivot; Sorter.compare_pivot := compare_pivot }.

(** [get_fallback_sorter(k, max_length).sort(from, to)] *)
Definition fallback_sort (from to : nat) : ST S unit := fun d =>
  let '(r, s) := IntroSorter.sort_range from to (mk BytesRefBuilder.new d) in (r, delegate s).
End Impl.
End MSBRadixIntroSorterImpl.

(** A delegate with the trait's own methods, from [byte_at] and [swap]. *)
Module DefaultRadix.
Section Default.
Context {S : Type} (byte_at_ : nat -> nat -> ST S Z) (swap_ : nat -> nat -> ST S unit).
#[export] Instance default_base : MSBRadixSorter.MSBRadixSorterBase S := {
  MSBRadixSorter.byte_at := byte_at_;
  MSBRadixSorter.build_histogram := MSBRadixSorter.default_build_histogram byte_at_;
  MSBRadixSorter.reorder := MSBRadixSorter.default_reorder byte_at_ swap_;
  MSBRadixSorter.should_fallback := fun _ => MSBRadixSorter.default_should_fallback;
  MSBRadixSorter.fallback_sort := fun k max_length => MSBRadixIntroSorterImpl.fallback_sort byte_at_ swap_ max_length k }.
End Default.
End DefaultRadix.
