(* ===== verification/RadixProofs.v ===== *)
(** The radix sorter sorts: the in-place reordering of the buckets, the prefixes and
    histograms, and the recursion, against a contract of the delegate ([RadixSpec]). *)

From Stdlib Require Import ZArith Lia Bool Arith.
From stdpp Require Import base tactics numbers list sorting.
From S2P Require Import Prelude Sorter SorterProofs HeapSort RadixSorter.
Import MSBRadixSorter HeapSort.

Local Open Scope nat_scope.

(** * Buckets *)

Module Buckets.

Lemma filter_all {A} (p : A -> Prop) `{forall a, Decision (p a)} (l : list A) : Forall p l -> filter p l = l.
Proof. induction 1 as [|a l Ha _ IH]; [done|]. by rewrite filter_cons_True, IH. Qed.

Section Count.
Context {T : Type} (bk : T -> nat).
Implicit Types (L M : list T) (b : nat).

(** How many have a bucket under [b], and how many the bucket [b]. *)
Definition under b L : nat := length (filter (fun a => bk a < b) L).
Definition count b L : nat := length (filter (fun a => bk a = b) L).

Lemma under_S b L : under (S b) L = under b L + count b L.
Proof.
  unfold under, count. induction L as [|a L IH]; [done|]. rewrite !filter_cons.
  destruct (decide (bk a < S b)), (decide (bk a < b)), (decide (bk a = b)); cbn [length]; lia.
Qed.

Lemma under_0 L : under 0 L = 0.
Proof. unfold under. induction L as [|a L IH]; [done|]. rewrite filter_cons_False by lia. done. Qed.

Lemma under_all b L : (forall a, a ∈ L -> bk a < b) -> under b L = length L.
Proof.
  unfold under. intros H. rewrite filter_all; [done|]. apply Forall_forall. auto.
Qed.

Lemma under_mono b c L : b <= c -> under b L <= under c L.
Proof. induction 1 as [|c _ IH]; [done|]. rewrite under_S. lia. Qed.

Lemma under_le b L : under b L <= length L.
Proof. apply length_filter. Qed.

#[export] Instance under_perm b : Proper ((≡ₚ) ==> (=)) (under b).
Proof. intros L M H. unfold under. by rewrite H. Qed.

#[export] Instance count_perm b : Proper ((≡ₚ) ==> (=)) (count b).
Proof. intros L M H. unfold count. by rewrite H. Qed.

Lemma count_app b L M : count b (L ++ M) = count b L + count b M.
Proof. unfold count. by rewrite filter_app, length_app. Qed.

Lemma count_pos b L a : a ∈ L -> bk a = b -> 0 < count b L.
Proof.
  intros Ha Hb. unfold count. assert (a ∈ filter (fun a => bk a = b) L) as H by (by apply list_elem_of_filter).
  destruct (filter _ L); [by apply elem_of_nil in H|]. cbn. lia.
Qed.

(** A run of one bucket and one more of it elsewhere. *)
Lemma count_beyond b M lo hi h a : lo <= hi -> hi <= length M -> (forall j c, lo <= j < hi -> M !! j = Some c -> bk c = b) ->
  M !! h = Some a -> bk a = b -> h < lo \/ hi <= h -> hi - lo < count b M.
Proof.
  intros Hlo Hhi Hin Ha Hb Hh. rewrite <- (take_drop lo M), <- (take_drop (hi - lo) (drop lo M)), !count_app, drop_drop.
  assert (count b (take (hi - lo) (drop lo M)) = hi - lo) as ->.
  { unfold count. rewrite filter_all; [rewrite length_take, length_drop; lia|]. apply Forall_lookup. intros j c Hj.
    assert (j < hi - lo) by (apply lookup_lt_Some in Hj; rewrite length_take in Hj; lia). rewrite lookup_take_lt, lookup_drop in Hj by done.
    apply (Hin (lo + j)); [lia|done]. }
  destruct Hh as [Hh|Hh].
  - assert (0 < count b (take lo M)); [|lia]. apply (count_pos b _ a); [|done]. apply list_elem_of_lookup. exists h. by rewrite lookup_take_lt.
  - assert (0 < count b (drop (lo + (hi - lo)) M)); [|lia]. apply (count_pos b _ a); [|done]. apply list_elem_of_lookup.
    exists (h - hi). rewrite lookup_drop. rewrite <- Ha. f_equal. lia.
Qed.

Definition starts_of L : list nat := map (fun b => under b L) (seq 0 HISTOGRAM_SIZE).
Definition ends_of L : list nat := map (fun b => under (S b) L) (seq 0 HISTOGRAM_SIZE).
Definition histogram_of L : list nat := map (fun b => count b L) (seq 0 HISTOGRAM_SIZE).

Lemma map_seq_lookup {A} (f : nat -> A) n i : i < n -> map f (seq 0 n) !! i = Some (f i).
Proof. intros H. change (map f (seq 0 n)) with (f <$> seq 0 n). rewrite list_lookup_fmap, lookup_seq_lt by done. done. Qed.

(** Every slot is between the two ends of some bucket. *)
Lemma bucket_of_slot L m i : i < under m L -> exists b, b < m /\ under b L <= i < under (S b) L.
Proof.
  induction m as [|m IH]; intros H; [rewrite under_0 in H; lia|]. destruct (decide (i < under m L)) as [Hi|Hi].
  - destruct (IH Hi) as (b & Hb & Hib). exists b. split; [lia|done].
  - exists m. split; lia.
Qed.
End Count.

Lemma sum_telescope (f : nat -> nat) m : list_sum (map (fun b => f (S b)) (seq 0 m)) + f 0 = list_sum (map f (seq 0 m)) + f m.
Proof. induction m as [|m IH]; [cbn; lia|]. rewrite seq_S, !map_app, !list_sum_app. cbn [map list_sum foldr plus]. lia. Qed.

Lemma sum_insert (l : list nat) i x : l !! i = Some x -> list_sum (<[i := x + 1]> l) = list_sum l + 1.
Proof.
  revert i. induction l as [|y l IH]; intros [|i] H; [done|done|injection H as ->; cbn; lia|]. cbn in H. specialize (IH i H).
  change (list_sum (y :: <[i := x + 1]> l) = list_sum (y :: l) + 1). cbn [list_sum foldr] in *. unfold list_sum in *. lia.
Qed.

Lemma sum_le (l l' : list nat) : Forall2 le l l' -> list_sum l <= list_sum l'.
Proof. induction 1 as [|x y l l' H _ IH]; [done|]. unfold list_sum in *. cbn [foldr]. lia. Qed.

(** * The flag: every slot to its bucket, in place *)

Section Flag.
Context {S T : Type} (bk : T -> nat) (bucket_at : nat -> ST S nat) (exchange : nat -> nat -> ST S unit) (from : nat).
(** [view L s]: the range of [s] holds [L]. *)
Context (view : list T -> S -> Prop).
Hypothesis bk_bound : forall a, bk a < HISTOGRAM_SIZE.
Hypothesis bucket_law : forall L s h a, view L s -> L !! h = Some a ->
  exists s', bucket_at (from + h) s = (Ok (bk a), s') /\ view L s'.
Hypothesis exchange_law : forall L s h1 h2 a b, view L s -> L !! h1 = Some a -> L !! h2 = Some b ->
  exists s', exchange (from + h1) (from + h2) s = (Ok tt, s') /\ view (exch L h1 h2) s'.
Context (L0 : list T).
Abbreviation lo b := (under bk b L0).
Abbreviation hi b := (under bk (Datatypes.S b) L0).

(** The slots of bucket [b] between its first and [st !! b] are in place. *)
Record placed (st : list nat) (M : list T) : Prop := {
  pl_perm : M ≡ₚ L0;
  pl_len : length st = HISTOGRAM_SIZE;
  pl_range b x : st !! b = Some x -> lo b <= x <= hi b;
  pl_in b x j c : st !! b = Some x -> lo b <= j < x -> M !! j = Some c -> bk c = b }.

Lemma disjoint_buckets b c j : lo b <= j < hi b -> lo c <= j < hi c -> b = c.
Proof using Type.
  intros H1 H2. destruct (lt_eq_lt_dec b c) as [[H|H]|H]; [|done|].
  - pose proof (under_mono bk (Datatypes.S b) c L0 H). lia.
  - pose proof (under_mono bk (Datatypes.S c) b L0 H). lia.
Qed.

(** The bucket of a slot that is not in place has room. *)
Lemma bucket_room st M i x a y : placed st M -> st !! i = Some x -> x < hi i -> M !! x = Some a -> st !! bk a = Some y -> y < hi (bk a).
Proof using Type.
  intros [H1 H2 H3 H4] Hi Hx Ha Hy. destruct (H3 _ _ Hy) as [Hy1 Hy2]. destruct (decide (y = hi (bk a))) as [->|]; [|lia]. exfalso.
  pose proof (H3 _ _ Hi) as [Hx1 _]. assert (i <> bk a) as Hne by (intros ->; rewrite Hy in Hi; injection Hi as <-; lia).
  assert (hi (bk a) - lo (bk a) < count bk (bk a) M) as Hc.
  { apply (count_beyond bk (bk a) M _ _ x a); try done.
    - rewrite H1. apply under_le.
    - intros j c Hj Hc. by apply (H4 _ _ j c Hy).
    - destruct (decide (x < lo (bk a))); [by left|right]. destruct (decide (hi (bk a) <= x)); [done|]. exfalso. apply Hne.
      apply (disjoint_buckets i (bk a) x); lia. }
  rewrite under_S, <- H1 in Hc. rewrite H1 in Hc. lia.
Qed.

(** One turn of the inner loop. *)
Lemma placed_step st M i x a y c : placed st M -> st !! i = Some x -> x < hi i -> M !! x = Some a -> st !! bk a = Some y -> M !! y = Some c ->
  placed (<[bk a := y + 1]> st) (exch M x y).
Proof using Type.
  intros HP Hi Hx Ha Hy Hc. pose proof (bucket_room st M i x a y HP Hi Hx Ha Hy) as Hr. destruct HP as [H1 H2 H3 H4].
  pose proof (H3 _ _ Hi) as [Hx1 _]. pose proof (H3 _ _ Hy) as [Hy1 _].
  constructor.
  - by rewrite exch_perm.
  - by rewrite length_insert.
  - intros b z Hb. destruct (decide (b = bk a)) as [->|Hne].
    + rewrite list_lookup_insert_eq in Hb by (by eapply lookup_lt_Some). injection Hb as <-. lia.
    + rewrite list_lookup_insert_ne in Hb by done. by apply H3.
  - intros b z j d Hb Hj. rewrite (exch_lookup M x y a c) by done. destruct (decide (b = bk a)) as [->|Hne].
    + rewrite list_lookup_insert_eq in Hb by (by eapply lookup_lt_Some). injection Hb as <-.
      destruct (decide (j = x)) as [->|Hjx]; [|destruct (decide (j = y)) as [->|Hjy]; [by intros [= <-]|]].
      * assert (bk a = i) as Hbi by (apply (disjoint_buckets (bk a) i x); lia). rewrite Hbi, Hi in Hy. injection Hy as ->.
        rewrite Ha in Hc. injection Hc as <-. by intros [= <-].
      * intros Hd. apply (H4 _ _ j d Hy); [lia|done].
    + rewrite list_lookup_insert_ne in Hb by done. pose proof (H3 _ _ Hb).
      destruct (decide (j = x)) as [->|Hjx]; [|destruct (decide (j = y)) as [->|Hjy]].
      * assert (b = i) as -> by (apply (disjoint_buckets b i x); lia). rewrite Hi in Hb. injection Hb as ->. lia.
      * exfalso. apply Hne. apply (disjoint_buckets b (bk a) y); lia.
      * by apply (H4 _ _ j d Hb).
Qed.

(** The buckets below [i] are full. *)
Definition full (i : nat) (st : list nat) : Prop := forall b x, b < i -> st !! b = Some x -> x = hi b.

Lemma placed_sum st M : placed st M -> list_sum st <= list_sum (ends_of bk L0).
Proof using Type.
  intros [_ H2 H3 _]. apply sum_le. apply Forall2_same_length_lookup_2; [unfold ends_of; by rewrite length_map, length_seq|].
  intros b x y Hx Hy. unfold ends_of in Hy. rewrite map_seq_lookup in Hy by (rewrite <- H2; by eapply lookup_lt_Some).
  injection Hy as <-. by apply H3.
Qed.

Lemma drain_ok fuel : forall i s st M, view M s -> placed st M -> full i st -> i < HISTOGRAM_SIZE ->
  list_sum (ends_of bk L0) < fuel + list_sum st ->
  exists s' st' M', drain_loop bucket_at exchange fuel i (hi i) from st s = (Ok st', s') /\ view M' s' /\ placed st' M' /\
    full (Datatypes.S i) st' /\ list_sum st <= list_sum st'.
Proof using bk_bound bucket_law exchange_law.
  induction fuel as [|fuel IH]; intros i s st M Hv HP Hfull Hi Hf; [pose proof (placed_sum _ _ HP); lia|].
  destruct (lookup_lt_is_Some_2 st i) as [x Hx]; [rewrite (pl_len _ _ HP); done|]. cbn [drain_loop]. rewrite slift_sbind.
  unfold nget at 1. rewrite Hx. pose proof (pl_range _ _ HP _ _ Hx). destruct (Nat.ltb_spec x (hi i)) as [Hlt|Hge].
  2: { exists s, st, M. split_and!; try done. intros b z Hb Hz. destruct (decide (b = i)) as [->|]; [|apply Hfull; [lia|done]].
       rewrite Hx in Hz. injection Hz as <-. lia. }
  assert (Hlen : length M = length L0) by (by rewrite (pl_perm _ _ HP)). pose proof (under_le bk (Datatypes.S i) L0).
  destruct (lookup_lt_is_Some_2 M x) as [a Ha]; [lia|]. destruct (bucket_law M s x a Hv Ha) as (s1 & E1 & V1).
  rewrite (sbind_ok _ _ _ _ _ E1). destruct (lookup_lt_is_Some_2 st (bk a)) as [y Hy]; [rewrite (pl_len _ _ HP); apply bk_bound|].
  rewrite slift_sbind. unfold nget at 1. rewrite Hy, slift_sbind. unfold nset at 1.
  rewrite (proj2 (Nat.ltb_lt _ _)) by (by eapply lookup_lt_Some).
  pose proof (bucket_room st M i x a y HP Hx Hlt Ha Hy) as Hroom. pose proof (under_le bk (Datatypes.S (bk a)) L0).
  destruct (lookup_lt_is_Some_2 M y) as [c Hc]; [lia|]. destruct (exchange_law M s1 x y a c V1 Ha Hc) as (s2 & E2 & V2).
  rewrite (sbind_ok _ _ _ _ _ E2). pose proof (sum_insert st (bk a) y Hy) as Hsum.
  destruct (IH i s2 (<[bk a := y + 1]> st) (exch M x y)) as (s' & st' & M' & E & V' & P' & F' & S'); try done.
  - by apply (placed_step st M i x a y c).
  - intros b z Hb Hz. destruct (decide (b = bk a)) as [->|Hne]; [|rewrite list_lookup_insert_ne in Hz by done; by apply Hfull].
    pose proof (Hfull _ _ Hb Hy). lia.
  - lia.
  - exists s', st', M'. split_and!; try done. lia.
Qed.

Lemma reorder_ok n : forall i s st M fuel, view M s -> placed st M -> full i st -> i + n = HISTOGRAM_SIZE ->
  list_sum (ends_of bk L0) < fuel + list_sum st ->
  exists s' st' M', reorder_loop bucket_at exchange fuel n i from st (ends_of bk L0) s = (Ok st', s') /\ view M' s' /\ placed st' M' /\
    full HISTOGRAM_SIZE st'.
Proof using bk_bound bucket_law exchange_law.
  induction n as [|n IH]; intros i s st M fuel Hv HP Hfull Hi Hf; cbn [reorder_loop].
  - exists s, st, M. replace i with HISTOGRAM_SIZE in Hfull by lia. done.
  - rewrite slift_sbind. unfold nget, ends_of at 1. rewrite map_seq_lookup by lia.
    destruct (drain_ok fuel i s st M Hv HP Hfull ltac:(lia) Hf) as (s1 & st1 & M1 & E1 & V1 & P1 & F1 & S1). rewrite (sbind_ok _ _ _ _ _ E1).
    replace (Datatypes.S i) with (i + 1) in F1 by lia. apply (IH (i + 1) s1 st1 M1 fuel); try done; lia.
Qed.

Lemma sorted_lookup {A} (R : A -> A -> Prop) (l : list A) :
  (forall i j x y, i < j -> l !! i = Some x -> l !! j = Some y -> R x y) -> StronglySorted R l.
Proof using Type.
  induction l as [|a l IH]; intros H; constructor.
  - apply IH. intros i j x y Hij. apply (H (Datatypes.S i) (Datatypes.S j)). lia.
  - apply Forall_lookup. intros j y Hy. by apply (H 0 (Datatypes.S j) a y); [lia| |].
Qed.

(** All in place. *)
Lemma placed_done st M : placed st M -> full HISTOGRAM_SIZE st -> st = ends_of bk L0 /\ StronglySorted (fun a b => bk a <= bk b) M.
Proof using bk_bound.
  intros HP Hfull. assert (Hst : forall b, b < HISTOGRAM_SIZE -> st !! b = Some (hi b)).
  { intros b Hb. destruct (lookup_lt_is_Some_2 st b) as [x Hx]; [by rewrite (pl_len _ _ HP)|]. by rewrite Hx, (Hfull _ _ Hb Hx). }
  split.
  - apply list_eq. intros b. destruct (decide (b < HISTOGRAM_SIZE)) as [Hb|Hb].
    + rewrite Hst by done. unfold ends_of. by rewrite map_seq_lookup.
    + rewrite !lookup_ge_None_2; [done| |rewrite (pl_len _ _ HP); lia]. unfold ends_of. rewrite length_map, length_seq. lia.
  - assert (Hat : forall j c, M !! j = Some c -> lo (bk c) <= j < hi (bk c)).
    { intros j c Hj. assert (Hn : j < under bk HISTOGRAM_SIZE L0).
      { rewrite under_all by (intros; apply bk_bound). rewrite <- (pl_perm _ _ HP). by eapply lookup_lt_Some. }
      destruct (bucket_of_slot bk L0 HISTOGRAM_SIZE j Hn) as (b & Hb & Hjb).
      by rewrite (pl_in _ _ HP b _ j c (Hst b Hb) Hjb Hj). }
    apply sorted_lookup. intros i j x y Hij Hx Hy. pose proof (Hat i x Hx). pose proof (Hat j y Hy).
    destruct (decide (bk x <= bk y)) as [|Hlt]; [done|]. pose proof (under_mono bk (Datatypes.S (bk y)) (bk x) L0 ltac:(lia)). lia.
Qed.

Lemma placed_start : placed (starts_of bk L0) L0.
Proof using Type.
  constructor; [done|unfold starts_of; by rewrite length_map, length_seq| |].
  - intros b x Hx. pose proof (lookup_lt_Some _ _ _ Hx) as Hb. unfold starts_of in *. rewrite length_map, length_seq in Hb.
    rewrite map_seq_lookup in Hx by done. injection Hx as <-. pose proof (under_mono bk b (Datatypes.S b) L0 ltac:(lia)). lia.
  - intros b x j c Hx Hj. pose proof (lookup_lt_Some _ _ _ Hx) as Hb. unfold starts_of in *. rewrite length_map, length_seq in Hb.
    rewrite map_seq_lookup in Hx by done. injection Hx as <-. lia.
Qed.

(** The reordering leaves the buckets one after the other. *)
Lemma reorder_loop_ok s : view L0 s -> exists s' M,
  reorder_loop bucket_at exchange (Datatypes.S (length L0)) HISTOGRAM_SIZE 0 from (starts_of bk L0) (ends_of bk L0) s = (Ok (ends_of bk L0), s') /\
  view M s' /\ M ≡ₚ L0 /\ StronglySorted (fun a b => bk a <= bk b) M.
Proof using bk_bound bucket_law exchange_law.
  intros Hv. destruct (reorder_ok HISTOGRAM_SIZE 0 s (starts_of bk L0) L0 (Datatypes.S (length L0)) Hv placed_start) as (s' & st & M & E & V & HP & HF).
  - intros b x Hb. lia.
  - lia.
  - pose proof (sum_telescope (fun b => under bk b L0) HISTOGRAM_SIZE) as Ht. cbn beta in Ht. rewrite under_0, under_all in Ht by (intros; apply bk_bound).
    unfold starts_of, ends_of. lia.
  - destruct (placed_done st M HP HF) as [-> Hs]. exists s', M. split_and!; try done. apply HP.
Qed.
End Flag.
End Buckets.

(** * Keys *)

Module Keys.

(** The order of byte strings; [a] is compared with [b] from the byte [k] on. *)
Fixpoint lex (a b : list Z) : Z :=
  match a, b with
  | [], [] => 0
  | [], _ => -1
  | _, [] => 1
  | x :: a, y :: b => if (x <? y)%Z then -1 else if (y <? x)%Z then 1 else lex a b
  end.

Definition byte_of (a : list Z) (k : nat) : Z := default (-1)%Z (a !! k).

Lemma lex_flip a : forall b, (lex a b < 0 <-> 0 < lex b a)%Z.
Proof.
  induction a as [|x a IH]; intros [|y b]; cbn; try lia. specialize (IH b).
  destruct (Z.ltb_spec x y), (Z.ltb_spec y x); lia.
Qed.

Lemma lex_trans a : forall b c, (lex a b <= 0 -> lex b c <= 0 -> lex a c <= 0)%Z.
Proof.
  induction a as [|x a IH]; intros [|y b] [|z c]; cbn; try lia. specialize (IH b c).
  destruct (Z.ltb_spec x y), (Z.ltb_spec y x), (Z.ltb_spec y z), (Z.ltb_spec z y), (Z.ltb_spec x z), (Z.ltb_spec z x); lia.
Qed.

Lemma lex_eq a : forall b, lex a b = 0%Z -> a = b.
Proof.
  induction a as [|x a IH]; intros [|y b]; cbn; try done. destruct (Z.ltb_spec x y); [done|]. destruct (Z.ltb_spec y x); [done|].
  intros H1. f_equal; [lia|by apply IH].
Qed.

Section Keys.
Context {T : Type} (key : T -> list Z).
Implicit Types (a b : T) (k : nat).

Definition cmp_from k a b : Z := lex (drop k (key a)) (drop k (key b)).

#[export] Instance cmp_from_order k : CmpOrder (cmp_from k).
Proof. split; intros; unfold cmp_from in *; [apply lex_flip|by eapply lex_trans]. Qed.

Hypothesis key_bytes : forall a, Forall (in_u 8) (key a).
Abbreviation byte a k := (byte_of (key a) k).
Definition bucket k a : nat := Z.to_nat (byte_of (key a) k + 1).

Lemma byte_range a k : (-1 <= byte a k < 256)%Z /\ (byte a k = (-1)%Z <-> length (key a) <= k).
Proof using key_bytes.
  unfold byte_of. destruct (key a !! k) as [x|] eqn:E; simpl.
  - pose proof (Forall_lookup_1 _ _ _ _ (key_bytes a) E) as H. pose proof (lookup_lt_Some _ _ _ E). unfold in_u in H. lia.
  - apply lookup_ge_None in E. lia.
Qed.

Lemma bucket_bound k a : bucket k a < HISTOGRAM_SIZE.
Proof using key_bytes. unfold bucket, HISTOGRAM_SIZE. pose proof (byte_range a k). lia. Qed.

Lemma bucket_byte k a b : bucket k a = bucket k b <-> byte a k = byte b k.
Proof using key_bytes. unfold bucket. pose proof (byte_range a k). pose proof (byte_range b k). lia. Qed.

Lemma drop_byte a k : drop k (key a) = if decide (length (key a) <= k) then [] else byte a k :: drop (Datatypes.S k) (key a).
Proof using Type.
  case_decide as H; [by apply drop_ge|]. destruct (lookup_lt_is_Some_2 (key a) k ltac:(lia)) as [x Hx].
  unfold byte_of. rewrite Hx. by apply drop_S.
Qed.

Lemma cmp_bucket k a b : bucket k a < bucket k b -> (cmp_from k a b < 0)%Z.
Proof using key_bytes.
  unfold bucket. intros H. pose proof (byte_range a k). pose proof (byte_range b k). unfold cmp_from. rewrite (drop_byte a), (drop_byte b).
  repeat case_decide; cbn [lex]; try lia. destruct (Z.ltb_spec (byte a k) (byte b k)); lia.
Qed.

(** Equal bytes are skipped; behind the end there is nothing to compare. *)
Lemma cmp_same_byte k a b : byte a k = byte b k -> cmp_from k a b = cmp_from (k + 1) a b.
Proof using key_bytes.
  intros H. pose proof (byte_range a k). pose proof (byte_range b k). unfold cmp_from. rewrite (drop_byte a k), (drop_byte b k).
  repeat case_decide; try lia.
  - by rewrite !drop_ge by lia.
  - cbn [lex]. rewrite H, Z.ltb_irrefl. by rewrite Nat.add_1_r.
Qed.

Lemma cmp_same_bytes k n a b : (forall i, i < n -> byte a (k + i) = byte b (k + i)) -> cmp_from k a b = cmp_from (k + n) a b.
Proof using key_bytes.
  induction n as [|n IH]; intros H; [by rewrite Nat.add_0_r|]. rewrite IH by (intros; apply H; lia).
  rewrite cmp_same_byte by (apply H; lia). f_equal. lia.
Qed.

Lemma cmp_past k a b : length (key a) <= k -> length (key b) <= k -> cmp_from k a b = 0%Z.
Proof using Type. intros H1 H2. unfold cmp_from. by rewrite !drop_ge. Qed.
End Keys.
End Keys.

(** * The contract of the delegate *)

Import Buckets Keys.

(** The state holds [rslots], of which [byte_at] gives the bytes of the keys. A histogram
    that was built makes the range [ready] to be reordered. *)
Class RadixSpec (S : Type) {T : Type} (key : T -> list Z) `{MSBRadixSorterBase S} : Type := {
  rslots : S -> list T;
  ready : S -> nat -> nat -> nat -> Prop;
  byte_at_law s i k a : rslots s !! i = Some a ->
    exists s', byte_at i k s = (Ok (byte_of (key a) k), s') /\ rslots s' = rslots s;
  build_law s P L1 L2 Q k b : rslots s = P ++ L1 ++ L2 ++ Q -> (forall a, a ∈ L1 -> bucket key k a = b) -> L1 <> [] ->
    exists s', build_histogram b (length L1) (length P + length L1) (length P + length L1 + length L2) k (replicate HISTOGRAM_SIZE 0) s
      = (Ok (histogram_of (bucket key k) (L1 ++ L2)), s') /\
      rslots s' = rslots s /\ ready s' (length P) (length P + length L1 + length L2) k;
  reorder_law s P L Q k : rslots s = P ++ L ++ Q -> ready s (length P) (length P + length L) k ->
    exists s' M, reorder (length P) (length P + length L) (starts_of (bucket key k) L) (ends_of (bucket key k) L) k s
      = (Ok (ends_of (bucket key k) L), s') /\
      rslots s' = P ++ M ++ Q /\ M ≡ₚ L /\ StronglySorted (fun a b => bucket key k a <= bucket key k b) M;
  fallback_law s P L Q k max : rslots s = P ++ L ++ Q -> (forall a, a ∈ L -> k <= length (key a)) ->
    (max <= i32_MAX)%Z /\ (forall a, (Z.of_nat (length (key a)) <= max)%Z) -> exists s' M, fallback_sort k max (length P) (length P + length L) s = (Ok tt, s') /\
      rslots s' = P ++ M ++ Q /\ M ≡ₚ L /\ StronglySorted (SorterProofs.le (cmp_from key k)) M;
  radix_law s from to l : should_fallback s from to l = false -> l < LEVEL_THRESHOLD /\ from < to }.

Module RadixProofs.

Section Radix.
Context {S T : Type} (key : T -> list Z) `{RS : RadixSpec S T key}.
Hypothesis key_bytes : forall a, Forall (in_u 8) (key a).
Implicit Types (s : t S) (P L M Q : list T) (a b : T).
Abbreviation byte a k := (byte_of (key a) k).
Abbreviation slots_of s := (rslots (delegate s)).

(** What the search for the prefix leaves alone. *)
Definition same s s' : Prop :=
  histograms s' = histograms s /\ end_offsets s' = end_offsets s /\ max_length s' = max_length s /\ slots_of s' = slots_of s /\
  length (common_prefix s') = length (common_prefix s).

Lemma same_trans s1 s2 s3 : same s1 s2 -> same s2 s3 -> same s1 s3.
Proof using Type. intros (A1 & A2 & A3 & A4 & A5) (B1 & B2 & B3 & B4 & B5). unfold same. split_and!; congruence. Qed.

Lemma byte_ok s i k a : slots_of s !! i = Some a ->
  exists s', on_delegate (byte_at i k) s = (Ok (byte a k), s') /\ same s s' /\ common_prefix s' = common_prefix s.
Proof using Type.
  intros Ha. destruct (byte_at_law (delegate s) i k a Ha) as (d & E & Hd). unfold on_delegate. rewrite E. eexists. split; [done|]. done.
Qed.

Lemma initial_ok from k a n : forall j s, slots_of s !! from = Some a -> j + n <= length (common_prefix s) ->
  (forall i, i < j -> common_prefix s !! i = Some (byte a (k + i))) ->
  exists r s', initial_loop n j from k s = (Ok r, s') /\ same s s' /\ j <= r <= j + n /\ (0 < n -> j < r) /\
    (forall i, i < r -> common_prefix s' !! i = Some (byte a (k + i))) /\ (forall i, j <= i < r - 1 -> byte a (k + i) <> (-1)%Z).
Proof using Type.
  induction n as [|n IH]; intros j s Ha Hj Hp; cbn [initial_loop].
  { exists j, s. split_and!; try done; lia. }
  destruct (byte_ok s from (k + j) a Ha) as (s1 & E1 & S1 & C1). rewrite (sbind_ok _ _ _ _ _ E1).
  set (s2 := mk (histograms s1) (end_offsets s1) (<[j := byte a (k + j)]> (common_prefix s1)) (max_length s1) (delegate s1)).
  rewrite (sbind_ok _ _ _ tt s2).
  2: { unfold set_prefix. rewrite sget_sbind, slift_sbind. unfold nset. rewrite C1, (proj2 (Nat.ltb_lt _ _)) by lia. unfold s2. by rewrite C1. }
  assert (S2 : same s s2) by (apply (same_trans _ s1); [done|]; unfold same, s2; cbn; split_and!; try done; apply length_insert).
  assert (Hp2 : forall i, i < j + 1 -> common_prefix s2 !! i = Some (byte a (k + i))).
  { intros i Hi. cbn [common_prefix s2]. rewrite C1. destruct (decide (i = j)) as [->|].
    - by rewrite list_lookup_insert_eq by lia.
    - rewrite list_lookup_insert_ne by done. apply Hp. lia. }
  destruct (Z.eqb_spec (byte a (k + j)) (-1)) as [Hb|Hb].
  { exists (j + 1), s2. split_and!; try done; lia. }
  destruct (IH (j + 1) s2) as (r & s' & E & S' & R1 & R2 & R3 & R4); [by destruct S2 as (_ & _ & _ & -> & _)|destruct S2 as (_ & _ & _ & _ & ->); lia|done|].
  exists r, s'. split_and!; try done; try lia; [by apply (same_trans _ s2)|]. intros i Hi. destruct (decide (i = j)) as [->|]; [done|]. apply R4. lia.
Qed.

Lemma difference_ok k a b idx n : forall j s, slots_of s !! idx = Some b -> (forall i, i < j + n -> common_prefix s !! i = Some (byte a (k + i))) ->
  exists r s', first_difference n j idx k s = (Ok r, s') /\ same s s' /\ common_prefix s' = common_prefix s /\ j <= r <= j + n /\
    (forall i, j <= i < r -> byte b (k + i) = byte a (k + i)) /\ (r < j + n -> byte b (k + r) <> byte a (k + r)).
Proof using Type.
  induction n as [|n IH]; intros j s Hb Hp; cbn [first_difference].
  { exists j, s. split_and!; try done; lia. }
  destruct (byte_ok s idx (k + j) b Hb) as (s1 & E1 & S1 & C1). rewrite (sbind_ok _ _ _ _ _ E1), sget_sbind, slift_sbind.
  unfold nget. rewrite C1, Hp by lia. destruct (Z.eqb_spec (byte b (k + j)) (byte a (k + j))) as [He|He].
  - destruct (IH (j + 1) s1) as (r & s' & E & S' & C' & R1 & R2 & R3).
    + by destruct S1 as (_ & _ & _ & -> & _).
    + intros i Hi. rewrite C1. apply Hp. lia.
    + exists r, s'. split; [done|]. split; [by apply (same_trans _ s1)|]. split; [congruence|]. split; [lia|]. split.
      * intros i Hi. destruct (decide (i = j)) as [->|]; [done|]. apply R2. lia.
      * intros Hr. apply R3. lia.
  - exists j, s1. split_and!; try done; lia.
Qed.

Lemma prefix_ok k a R : forall P Q s cp, slots_of s = P ++ R ++ Q -> (forall i, i < cp -> common_prefix s !! i = Some (byte a (k + i))) -> 0 < cp ->
  exists cp' i s', prefix_loop (length R) (length P) k cp s = (Ok (cp', i), s') /\ same s s' /\ common_prefix s' = common_prefix s /\ cp' <= cp /\
    (0 < cp' /\ i = length P + length R /\ (forall b, b ∈ R -> forall j, j < cp' -> byte b (k + j) = byte a (k + j)) \/
     cp' = 0 /\ exists R1 x R2, R = R1 ++ x :: R2 /\ i = length P + length R1 /\ (forall b, b ∈ R1 -> byte b k = byte a k) /\ byte x k <> byte a k).
Proof using Type.
  induction R as [|b R IH]; intros P Q s cp Hs Hp Hcp; cbn [prefix_loop length].
  { exists cp, (length P), s. split_and!; try done. left. split; [done|]. split; [lia|]. by intros b Hb%elem_of_nil. }
  destruct (difference_ok k a b (length P) cp 0 s) as (j & s1 & E1 & S1 & C1 & R1 & R2 & R3); [rewrite Hs; by apply list_lookup_middle|done|].
  rewrite (sbind_ok _ _ _ _ _ E1).
  assert (Hnext : forall c, 0 < c -> c <= cp -> (forall i, i < c -> byte b (k + i) = byte a (k + i)) ->
    exists cp' i s', prefix_loop (length R) (length P + 1) k c s1 = (Ok (cp', i), s') /\ same s s' /\ common_prefix s' = common_prefix s /\ cp' <= cp /\
    (0 < cp' /\ i = length P + Datatypes.S (length R) /\ (forall d, d ∈ b :: R -> forall i, i < cp' -> byte d (k + i) = byte a (k + i)) \/
     cp' = 0 /\ exists Ra x Rb, b :: R = Ra ++ x :: Rb /\ i = length P + length Ra /\ (forall d, d ∈ Ra -> byte d k = byte a k) /\ byte x k <> byte a k)).
  { intros c Hc1 Hc2 Hbc. destruct (IH (P ++ [b]) Q s1 c) as (cp' & i & s' & E & S' & C' & B & Hor).
    - destruct S1 as (_ & _ & _ & -> & _). by rewrite Hs, <- app_assoc.
    - intros i Hi. rewrite C1. apply Hp. lia.
    - done.
    - rewrite length_app in E, Hor. cbn [length] in E, Hor. exists cp', i, s'. split_and!; try done; [by apply (same_trans _ s1)|congruence|lia|].
      destruct Hor as [(O1 & O2 & O3)|(O1 & Ra & x & Rb & -> & O2 & O3 & O4)]; [left|right].
      + split_and!; [done|lia|]. intros d [->|Hd]%elem_of_cons q Hq; [apply Hbc; lia|by apply O3].
      + split; [done|]. exists (b :: Ra), x, Rb. split; [done|]. split; [cbn [length]; lia|]. split; [|done].
        intros d [->|Hd]%elem_of_cons; [|by apply O3]. specialize (Hbc 0 Hc1). by rewrite Nat.add_0_r in Hbc. }
  destruct (Nat.ltb_spec j cp) as [Hj|Hj]; [destruct (Nat.eqb_spec j 0) as [->|Hj0]|].
  - exists 0, (length P), s1. split_and!; try done; [lia|]. right. split; [done|]. exists [], b, R. split; [done|]. split; [cbn; lia|]. split.
    + by intros d Hd%elem_of_nil.
    + specialize (R3 ltac:(lia)). by rewrite Nat.add_0_r in R3.
  - apply Hnext; [lia|lia|]. intros i Hi. apply R2. lia.
  - apply Hnext; [lia|lia|]. intros i Hi. apply R2. lia.
Qed.

(** ** The histogram *)

Lemma sum_ok h e : forall acc, length h = length e ->
  sum_histogram acc h e = (map (fun i => acc + list_sum (take i h)) (seq 0 (length h)), map (fun i => acc + list_sum (take (Datatypes.S i) h)) (seq 0 (length h))).
Proof using Type.
  revert e. induction h as [|c h IH]; intros [|x e] acc Hl; try done. cbn [sum_histogram length seq map]. rewrite (IH e) by (cbn in Hl; lia).
  rewrite <- !seq_shift, !map_map. f_equal; f_equal; [cbn; lia|apply map_ext; intros i|unfold list_sum; simpl; lia|apply map_ext; intros i];
    unfold list_sum; cbn [firstn fold_right]; lia.
Qed.

Lemma sum_count (bk : T -> nat) L n : n <= HISTOGRAM_SIZE -> list_sum (take n (histogram_of bk L)) = under bk n L.
Proof using Type.
  induction n as [|n IH]; intros Hn; [by rewrite under_0|]. unfold histogram_of at 1.
  rewrite (take_S_r _ n (count bk n L)) by (by apply (map_seq_lookup (fun i => count bk i L))). fold (histogram_of bk L). rewrite list_sum_app, IH, under_S by lia. cbn. lia.
Qed.

Lemma sum_histogram_ok (bk : T -> nat) L e : length e = HISTOGRAM_SIZE -> sum_histogram 0 (histogram_of bk L) e = (starts_of bk L, ends_of bk L).
Proof using Type.
  intros He. assert (Hl : length (histogram_of bk L) = HISTOGRAM_SIZE) by (unfold histogram_of; by rewrite length_map, length_seq).
  rewrite sum_ok by lia. rewrite Hl. unfold starts_of, ends_of. f_equal; apply map_ext_in; intros i Hi; apply in_seq in Hi; cbn [Nat.add]; apply sum_count; lia.
Qed.

(** Two buckets that are not empty. *)
Lemma two_positive (h : list nat) i j x y : i < j -> h !! i = Some x -> h !! j = Some y -> 0 < x -> 0 < y ->
  1 < length (filter (fun c => 0 < c) h).
Proof using Type.
  intros Hij Hi Hj Hx Hy. rewrite <- (take_drop_middle h j y Hj), filter_app, filter_cons_True, length_app by done. cbn [length].
  assert (x ∈ filter (fun c => 0 < c) (take j h)) as Hf.
  { apply list_elem_of_filter. split; [done|]. apply list_elem_of_lookup. exists i. by rewrite lookup_take_lt. }
  destruct (filter _ (take j h)); [by apply elem_of_nil in Hf|]. cbn. lia.
Qed.

Lemma assert_ok (bk : T -> nat) L a b : a ∈ L -> b ∈ L -> bk a <> bk b -> (forall c, bk c < HISTOGRAM_SIZE) ->
  assert_histogram 0 (histogram_of bk L) = Ok true.
Proof using Type.
  intros Ha Hb Hne Hbd. unfold assert_histogram.
  assert (Hc : forall c, c ∈ L -> exists x, histogram_of bk L !! bk c = Some x /\ 0 < x).
  { intros c Hc. exists (count bk (bk c) L). split; [by apply (map_seq_lookup (fun i => count bk i L))|by apply (count_pos bk _ _ c)]. }
  destruct (Hc a Ha) as (x & Hx & Px), (Hc b Hb) as (y & Hy & Py).
  assert (1 < length (filter (fun c => 0 < c) (histogram_of bk L))).
  { destruct (decide (bk a < bk b)); [by apply (two_positive _ (bk a) (bk b) x y)|apply (two_positive _ (bk b) (bk a) y x); [lia|done..]]. }
  rewrite (proj2 (Nat.eqb_neq _ _)) by lia. done.
Qed.

(** What building the histogram of level [l] changes. *)
Definition built s s' (l : nat) (h : list nat) : Prop :=
  histograms s' = <[l := h]> (histograms s) /\ end_offsets s' = end_offsets s /\ max_length s' = max_length s /\ slots_of s' = slots_of s /\
  length (common_prefix s') = length (common_prefix s).

Lemma histogram_ok P a R Q s k l : slots_of s = P ++ (a :: R) ++ Q -> length (common_prefix s) = 24 ->
  histograms s !! l = Some (replicate HISTOGRAM_SIZE 0) -> (Z.of_nat k < max_length s)%Z ->
  exists cp s' h, compute_common_prefix_length_and_build_histogram (length P) (length P + length (a :: R)) k l s = (Ok cp, s') /\ built s s' l h /\
    (0 < cp /\ (Z.of_nat (k + cp) <= max_length s)%Z /\ (forall b, b ∈ a :: R -> forall j, j < cp -> byte b (k + j) = byte a (k + j)) /\
     (forall j, j < cp - 1 -> byte a (k + j) <> (-1)%Z) /\ h = <[bucket key k a := length (a :: R)]> (replicate HISTOGRAM_SIZE 0) \/
     cp = 0 /\ h = histogram_of (bucket key k) (a :: R) /\ ready (delegate s') (length P) (length P + length (a :: R)) k /\
     exists x, x ∈ R /\ bucket key k x <> bucket key k a).
Proof using key_bytes.
  intros Hs Hc Hh Hk. unfold compute_common_prefix_length_and_build_histogram, compute_initial_common_prefix_length.
  rewrite sbind_assoc, sget_sbind. cbv zeta. rewrite sbind_assoc, slift_sbind.
  destruct (Z.ltb_spec (max_length s) (Z.of_nat k)); [lia|]. set (n := Z.to_nat _).
  assert (Hn : 0 < n <= 24 /\ (Z.of_nat n <= max_length s - Z.of_nat k)%Z) by (unfold n; lia).
  destruct (initial_ok (length P) k a n 0 s) as (cp0 & s1 & E1 & S1 & I1 & I2 & I3 & I4);
    [rewrite Hs; by apply list_lookup_middle|lia|lia|]. rewrite (sbind_ok _ _ _ _ _ E1).
  specialize (I2 ltac:(lia)). replace (length P + length (a :: R) - (length P + 1)) with (length R) by (cbn [length]; lia).
  assert (Hs1 : slots_of s1 = (P ++ [a]) ++ R ++ Q) by (destruct S1 as (_ & _ & _ & -> & _); by rewrite Hs, <- app_assoc).
  destruct (prefix_ok k a R (P ++ [a]) Q s1 cp0 Hs1 I3 I2) as (cp & i & s2 & E2 & S2 & C2 & Hle & Hor).
  rewrite length_app in E2, Hor. cbn [length] in E2, Hor. rewrite (sbind_ok _ _ _ _ _ E2). cbn beta iota.
  destruct (same_trans _ _ _ S1 S2) as (F1 & F2 & F3 & F4 & F5).
  assert (Hfb : first_bucket s2 = (Ok (bucket key k a), s2)).
  { unfold first_bucket. rewrite sget_sbind, slift_sbind. unfold nget. rewrite lookup_take_lt by (rewrite F3; lia). rewrite C2, I3, Nat.add_0_r by lia.
    pose proof (byte_range key key_bytes a k). destruct (Z.leb_spec 0 (byte a k + 1)); [done|lia]. }
  assert (Hgh : get_histogram l s2 = (Ok (replicate HISTOGRAM_SIZE 0), s2)).
  { unfold get_histogram. rewrite sget_sbind. unfold nget. by rewrite F1, Hh. }
  assert (Hlen : l < length (histograms s)) by (by eapply lookup_lt_Some).
  unfold build_histogram_part2.
  destruct Hor as [(O1 & -> & O3)|(-> & R1 & x & R2 & -> & -> & O3 & O4)].
  - destruct (Nat.ltb_spec (length P + 1 + length R) (length P + length (a :: R))) as [Hx|_]; [cbn [length] in Hx; lia|].
    rewrite sbind_assoc, slift_sbind, (proj2 (Nat.ltb_lt _ _)) by done. cbn [debug_assert].
    rewrite sbind_assoc, (sbind_ok _ _ _ _ _ Hfb), sbind_assoc, (sbind_ok _ _ _ _ _ Hgh), sbind_assoc, slift_sbind.
    unfold nset at 1. rewrite length_replicate, (proj2 (Nat.ltb_lt _ _)) by (apply bucket_bound, key_bytes).
    replace (length P + length (a :: R) - length P) with (length (a :: R)) by lia.
    set (h := <[_ := _]> _). rewrite (sbind_ok _ _ _ tt (mk (<[l := h]> (histograms s2)) (end_offsets s2) (common_prefix s2) (max_length s2) (delegate s2))).
    2: { unfold set_histogram. rewrite sget_sbind, slift_sbind. unfold nset. by rewrite F1, (proj2 (Nat.ltb_lt _ _)). }
    exists cp. eexists _, h. split; [done|]. split; [unfold built; cbn; rewrite F1; split_and!; done || congruence|]. left.
    split; [done|]. split; [lia|]. split; [|split; [intros j Hj; apply I4; lia|done]].
    intros b [->|Hb]%elem_of_cons j Hj; [done|by apply O3].
  - destruct (Nat.ltb_spec (length P + 1 + length R1) (length P + length (a :: R1 ++ x :: R2))) as [_|Hx]; [|cbn [length] in Hx; rewrite length_app in Hx; cbn [length] in Hx; lia].
    rewrite sbind_assoc, slift_sbind. cbn [Nat.eqb debug_assert].
    rewrite sbind_assoc, (sbind_ok _ _ _ _ _ Hfb), sbind_assoc, (sbind_ok _ _ _ _ _ Hgh), sbind_assoc.
    replace (length P + 1 + length R1 - length P) with (length (a :: R1)) by (cbn [length]; lia).
    replace (length P + 1 + length R1) with (length P + length (a :: R1)) by (cbn [length]; lia).
    replace (length P + length (a :: R1 ++ x :: R2)) with (length P + length (a :: R1) + length (x :: R2)) by (cbn [length]; rewrite length_app; cbn [length]; lia).
    destruct (build_law (delegate s2) P (a :: R1) (x :: R2) Q k (bucket key k a)) as (d & E3 & D1 & D2).
    { rewrite F4, Hs. cbn [app]. by rewrite <- app_assoc. }
    { intros b [->|Hb]%elem_of_cons; [done|]. apply bucket_byte; [done|by apply O3]. } { done. }
    set (h := histogram_of _ _) in *. rewrite (sbind_ok _ _ _ h (mk (histograms s2) (end_offsets s2) (common_prefix s2) (max_length s2) d)) by (unfold on_delegate; by rewrite E3).
    rewrite (sbind_ok _ _ _ tt (mk (<[l := h]> (histograms s2)) (end_offsets s2) (common_prefix s2) (max_length s2) d)).
    2: { unfold set_histogram. rewrite sget_sbind, slift_sbind. cbn [histograms]. unfold nset. by rewrite F1, (proj2 (Nat.ltb_lt _ _)). }
    exists 0. eexists _, h. split; [done|]. split; [unfold built; cbn; rewrite F1; split_and!; done || congruence|]. right.
    split; [done|]. split; [done|]. split; [done|]. exists x. split; [apply elem_of_app; right; left|]. by rewrite (bucket_byte key key_bytes).
Qed.

(** ** The recursion *)

Lemma sorted_change {A} (R1 R2 : A -> A -> Prop) (l : list A) : StronglySorted R1 l ->
  (forall x y, x ∈ l -> y ∈ l -> R1 x y -> R2 x y) -> StronglySorted R2 l.
Proof using Type.
  induction 1 as [|x l Hl IH Hx]; intros H'; constructor.
  - apply IH. intros y z Hy Hz. apply H'; by right.
  - apply Forall_forall. intros y Hy. apply H'; [left|by right|]. by eapply Forall_forall in Hx.
Qed.

Lemma sorted_any {A} (R : A -> A -> Prop) (l : list A) : (forall x y, x ∈ l -> y ∈ l -> R x y) -> StronglySorted R l.
Proof using Type.
  induction l as [|x l IH]; intros Hr; constructor; [|apply Forall_forall; intros y Hy; apply Hr; [left|by right]].
  apply IH. intros y z Hy Hz. apply Hr; by right.
Qed.

Abbreviation le_from k := (SorterProofs.le (cmp_from key k)).

(** Keys are no longer than the sorter was told. *)
Definition short (max : Z) : Prop := (max <= i32_MAX)%Z /\ forall a, (Z.of_nat (length (key a)) <= max)%Z.

Record rinv s : Prop := {
  ri_levels : length (histograms s) = LEVEL_THRESHOLD;
  ri_sizes h : h ∈ histograms s -> h = [] \/ length h = HISTOGRAM_SIZE;
  ri_ends : length (end_offsets s) = HISTOGRAM_SIZE;
  ri_prefix : length (common_prefix s) = 24 }.

(** The range [L] is sorted from the byte [k] on, with the histograms above [l] in use. *)
Definition sorted_out P L Q (k l : nat) s s' : Prop := exists M,
  slots_of s' = P ++ M ++ Q /\ M ≡ₚ L /\ StronglySorted (le_from k) M /\ rinv s' /\ max_length s' = max_length s /\
  forall l', l' < l -> histograms s' !! l' = histograms s !! l'.

Lemma split_bucket (bk : T -> nat) i R : StronglySorted (fun a b => bk a <= bk b) R -> (forall a, a ∈ R -> i <= bk a) ->
  exists E R', R = E ++ R' /\ (forall a, a ∈ E -> bk a = i) /\ (forall a, a ∈ R' -> i + 1 <= bk a) /\ StronglySorted (fun a b => bk a <= bk b) R'.
Proof using Type.
  induction 1 as [|x R HR IH Hx]; intros Hi.
  { exists [], []. split_and!; try done; [intros a Ha; by apply elem_of_nil in Ha..|constructor]. }
  destruct (decide (bk x = i)) as [Hxi|Hxi].
  - destruct IH as (E & R' & -> & H1 & H2 & H3); [intros a Ha; apply Hi; by right|].
    exists (x :: E), R'. split_and!; try done. intros a [->|Ha]%elem_of_cons; [done|by apply H1].
  - exists [], (x :: R). assert (i < bk x) by (pose proof (Hi x ltac:(left)); lia). rewrite Forall_forall in Hx.
    split_and!; try done; [intros a Ha; by apply elem_of_nil in Ha| |by constructor; [|apply Forall_forall]].
    intros a [->|Ha]%elem_of_cons; [lia|]. specialize (Hx a Ha). cbn in Hx. lia.
Qed.

Lemma under_app (bk : T -> nat) i L M : under bk i (L ++ M) = under bk i L + under bk i M.
Proof using Type. unfold under. by rewrite filter_app, length_app. Qed.

Lemma under_none (bk : T -> nat) i L : (forall a, a ∈ L -> i <= bk a) -> under bk i L = 0.
Proof using Type.
  unfold under. induction L as [|a L IH]; intros Hl; [done|]. rewrite filter_cons_False by (pose proof (Hl a ltac:(left)); lia).
  apply IH. intros b Hb. apply Hl. by right.
Qed.

Lemma rinv_insert s s' l h : rinv s -> length h = HISTOGRAM_SIZE -> histograms s' = <[l := h]> (histograms s) ->
  length (end_offsets s') = HISTOGRAM_SIZE -> length (common_prefix s') = 24 -> rinv s'.
Proof using Type.
  intros [R1 R2 R3 R4] Hh Hhs He Hp. constructor; try done; [by rewrite Hhs, length_insert|]. intros h' Hin. rewrite Hhs in Hin.
  apply list_elem_of_lookup in Hin as (j & [(-> & -> & _)|(_ & Hj)]%list_lookup_insert_Some); [by right|]. apply R2. apply list_elem_of_lookup. by exists j.
Qed.

Lemma set_histogram_ok l h s : rinv s -> l < LEVEL_THRESHOLD -> length h = HISTOGRAM_SIZE -> exists s', set_histogram l h s = (Ok tt, s') /\
  rinv s' /\ histograms s' = <[l := h]> (histograms s) /\ end_offsets s' = end_offsets s /\ max_length s' = max_length s /\ delegate s' = delegate s.
Proof using Type.
  intros Hinv Hl Hh. eexists. unfold set_histogram. rewrite sget_sbind, slift_sbind. unfold nset. rewrite (ri_levels _ Hinv), (proj2 (Nat.ltb_lt _ _)) by done.
  split; [done|]. split; [|done]. by apply (rinv_insert s _ l h); try apply Hinv.
Qed.

(** Nothing is left to compare. *)
Lemma sorted_already k L : (forall a b, a ∈ L -> b ∈ L -> cmp_from key k a b = 0%Z) -> StronglySorted (le_from k) L.
Proof using Type. intros H0. apply sorted_any. intros a b Ha Hb. unfold SorterProofs.le. rewrite H0 by done. lia. Qed.

(** Nothing behind the byte [k]. *)
Lemma sorted_by_bucket k M : StronglySorted (fun a b => bucket key k a <= bucket key k b) M -> (forall a, a ∈ M -> length (key a) <= k + 1) -> StronglySorted (le_from k) M.
Proof using key_bytes.
  intros HM Hlen. apply (sorted_change _ _ _ HM). intros b c Hb Hc Hle. unfold SorterProofs.le.
  destruct (decide (bucket key k b < bucket key k c)); [by apply Z.lt_le_incl, (cmp_bucket key key_bytes)|].
  rewrite (cmp_same_byte key key_bytes) by (apply bucket_byte; [done|lia]). by rewrite cmp_past by (by apply Hlen).
Qed.

Section Loop.
Context (sub : nat -> nat -> ST (t S) unit) (k l : nat) (L : list T) (max : Z).
Abbreviation bk := (bucket key k).
Hypothesis sub_ok : (Z.of_nat (k + 1) < max)%Z -> forall P E Q s, rinv s -> max_length s = max -> slots_of s = P ++ E ++ Q -> 1 < length E ->
  (forall a, a ∈ E -> a ∈ L /\ 0 < bk a) -> exists s', sub (length P) (length P + length E) s = (Ok tt, s') /\ sorted_out P E Q (k + 1) (l + 1) s s'.

Lemma bucket_loop_ok n P Q : (Z.of_nat (k + 1) < max)%Z -> forall i D R s, i + n = HISTOGRAM_SIZE -> 0 < i -> rinv s -> max_length s = max -> histograms s !! l = Some (ends_of bk L) ->
  slots_of s = P ++ (D ++ R) ++ Q -> D ++ R ≡ₚ L -> (forall a, a ∈ D -> bk a < i) -> (forall a, a ∈ R -> i <= bk a) ->
  StronglySorted (fun a b => bk a <= bk b) R -> StronglySorted (le_from k) D ->
  exists s', bucket_loop sub n i (length D) (length P) l s = (Ok tt, s') /\ sorted_out P L Q k l s s'.
Proof using key_bytes sub_ok.
  intros Hk1. induction n as [|n IH]; intros i D R s Hi Hi0 Hinv Hmax Hh Hs Hp HD HR HsR HsD; cbn [bucket_loop].
  - assert (R = []) as ->. { destruct R as [|x R]; [done|]. pose proof (HR x ltac:(left)). pose proof (bucket_bound key key_bytes k x). lia. }
    rewrite app_nil_r in *. exists s. split; [done|]. by exists D.
  - destruct (split_bucket bk i R HsR HR) as (E & R' & -> & HE & HR' & HsR').
    unfold get_histogram. rewrite sbind_assoc, sget_sbind, slift_sbind. unfold nget at 1. rewrite Hh, slift_sbind.
    assert (Hend : ends_of bk L !! i = Some (length D + length E)).
    { unfold ends_of. rewrite (map_seq_lookup (fun j => under bk (Datatypes.S j) L)) by lia. f_equal. rewrite <- Hp, !under_app, (under_none bk _ R'), !under_all.
      - lia. - intros a Ha. rewrite HE by done. lia. - intros a Ha. specialize (HD a Ha). lia. - intros a Ha. specialize (HR' a Ha). lia. }
    unfold nget. rewrite Hend, slift_sbind. destruct (Nat.ltb_spec (length D + length E) (length D)); [lia|].
    replace (length D + length E - length D) with (length E) by lia.
    assert (Hsub : exists s1 E', (if 1 <? length E then sub (length P + length D) (length P + (length D + length E)) else sret tt) s = (Ok tt, s1) /\
      slots_of s1 = P ++ (D ++ E' ++ R') ++ Q /\ E' ≡ₚ E /\ StronglySorted (le_from k) E' /\ rinv s1 /\ max_length s1 = max_length s /\
      forall l', l' < l + 1 -> histograms s1 !! l' = histograms s !! l').
    { destruct (Nat.ltb_spec 1 (length E)) as [H1|H1].
      - destruct (sub_ok Hk1 (P ++ D) E (R' ++ Q) s Hinv Hmax) as (s1 & E1 & E' & S1 & S2 & S3 & S4 & S5 & S6).
        + rewrite Hs. by rewrite <- !app_assoc.
        + done.
        + intros a Ha. split; [|rewrite HE by done; done]. rewrite <- Hp. apply elem_of_app; right. by apply elem_of_app; left.
        + rewrite length_app, <- Nat.add_assoc in E1. exists s1, E'. split_and!; try done; [rewrite S1; by rewrite <- !app_assoc|].
          apply (sorted_change _ _ _ S3). intros x y Hx Hy. unfold SorterProofs.le. rewrite (cmp_same_byte key key_bytes k); [done|].
          apply bucket_byte; [done|]. rewrite S2 in Hx, Hy. by rewrite !HE.
      - exists s, E. split_and!; try done. destruct E as [|x [|]]; cbn in H1; try lia; repeat constructor. }
    destruct Hsub as (s1 & E' & E1 & S1 & S2 & S3 & S4 & S5 & S6). rewrite (sbind_ok _ _ _ _ _ E1).
    replace (length D + length E) with (length (D ++ E')) by (by rewrite length_app, S2).
    destruct (IH (i + 1) (D ++ E') R' s1) as (s' & E2 & M & T1 & T2 & T3 & T4 & T5 & T6); try done; try lia.
    + rewrite S6 by lia. done.
    + rewrite S1. by rewrite <- !app_assoc.
    + rewrite <- Hp, S2. by rewrite app_assoc.
    + intros a [Ha|Ha]%elem_of_app; [specialize (HD a Ha); lia|]. rewrite S2 in Ha. rewrite (HE a Ha). lia.
    + apply SorterProofs.sorted_app. split_and!; try done. intros x y Hx Hy. rewrite S2 in Hy. unfold SorterProofs.le.
      apply Z.lt_le_incl, (cmp_bucket key key_bytes). rewrite (HE y Hy). by apply HD.
    + exists s'. split; [done|]. exists M. split_and!; try done; [congruence|]. intros l' Hl'. rewrite T6, S6 by lia. done.
Qed.

Lemma radix_buckets_ok P Q s a x : rinv s -> l < LEVEL_THRESHOLD -> max_length s = max -> slots_of s = P ++ L ++ Q ->
  histograms s !! l = Some (histogram_of bk L) -> ready (delegate s) (length P) (length P + length L) k ->
  a ∈ L -> x ∈ L -> bk a <> bk x -> (forall b, b ∈ L -> (Z.of_nat (length (key b)) <= max)%Z) ->
  exists s', radix_buckets sub (length P) (length P + length L) k l 0 s = (Ok tt, s') /\ sorted_out P L Q k l s s'.
Proof using key_bytes sub_ok.
  intros Hinv Hl Hmax Hs Hh Hready Ha Hx Hne Hlen. unfold radix_buckets. rewrite sget_sbind. unfold get_histogram at 1.
  rewrite sbind_assoc, sget_sbind, slift_sbind. unfold nget at 1. rewrite Hh, slift_sbind.
  rewrite (assert_ok bk L a x) by (done || (intros c; by apply bucket_bound)). cbn [rbind debug_assert].
  rewrite sum_histogram_ok by apply Hinv. cbn beta iota.
  assert (Hsz : forall f : nat -> nat, length (map f (seq 0 HISTOGRAM_SIZE)) = HISTOGRAM_SIZE) by (intros f; by rewrite length_map, length_seq).
  destruct (set_histogram_ok l (starts_of bk L) s Hinv Hl (Hsz _)) as (s3 & E3 & I3 & F1 & F2 & F3 & F4). rewrite (sbind_ok _ _ _ _ _ E3).
  set (s4 := mk (histograms s3) (ends_of bk L) (common_prefix s3) (max_length s3) (delegate s3)). rewrite (sbind_ok _ _ _ tt s4) by done.
  destruct (reorder_law (delegate s3) P L Q k) as (d & M & E4 & M1 & M2 & M3); [by rewrite F4|by rewrite F4|].
  set (s5 := mk (histograms s4) (end_offsets s4) (common_prefix s4) (max_length s4) d).
  rewrite (sbind_ok _ _ _ (ends_of bk L) s5) by (unfold on_delegate; cbn [delegate s4]; by rewrite E4).
  assert (I5 : rinv s5) by (destruct I3; constructor; try done; apply Hsz).
  destruct (set_histogram_ok l (ends_of bk L) s5 I5 Hl (Hsz _)) as (s6 & E6 & I6 & G1 & G2 & G3 & G4). rewrite (sbind_ok _ _ _ _ _ E6).
  assert (Hh6 : histograms s6 = <[l := ends_of bk L]> (histograms s)) by (rewrite G1; cbn [s5 s4 histograms]; by rewrite F1, list_insert_insert_eq).
  assert (Hm6 : max_length s6 = max) by (rewrite G3; cbn [s5 s4 max_length]; congruence).
  assert (Hs6 : slots_of s6 = P ++ M ++ Q) by (by rewrite G4).
  assert (Hfr6 : forall l', l' < l -> histograms s6 !! l' = histograms s !! l') by (intros l' Hl'; rewrite Hh6, list_lookup_insert_ne by lia; done).
  assert (Hhl : histograms s6 !! l = Some (ends_of bk L)) by (rewrite Hh6; apply list_lookup_insert_eq; by rewrite (ri_levels _ Hinv)).
  rewrite Hmax. destruct (Z.ltb_spec (Z.of_nat (k + 1)) max) as [D1|D1].
  - unfold get_histogram at 1. rewrite sbind_assoc, sget_sbind, slift_sbind. unfold nget at 1. rewrite Hhl, slift_sbind.
    destruct (split_bucket bk 0 M M3 ltac:(intros; lia)) as (D & R & -> & HD & HR & HsR).
    assert (He0 : nget (ends_of bk L) 0 = Ok (length D)).
    { unfold nget, ends_of. rewrite (map_seq_lookup (fun j => under bk (Datatypes.S j) L)) by (unfold HISTOGRAM_SIZE; lia).
      rewrite <- M2, under_app, (under_none bk _ R), under_all by (intros b Hb; rewrite ?(HD b Hb); lia || (by apply HR)). f_equal. lia. }
    rewrite He0. destruct (bucket_loop_ok (HISTOGRAM_SIZE - 1) P Q D1 1 D R s6) as (s' & E7 & M' & T1 & T2 & T3 & T4 & T5 & T6); try done.
    + lia.
    + intros b Hb. rewrite (HD b Hb). lia.
    + apply sorted_already. intros b c Hb Hc. pose proof (byte_range key key_bytes b k). pose proof (byte_range key key_bytes c k).
      pose proof (HD b Hb) as E1. pose proof (HD c Hc) as E2. unfold bucket in E1, E2. apply cmp_past; lia.
    + exists s'. split; [done|]. exists M'. split_and!; try done; [congruence|]. intros l' Hl'. rewrite T6 by done. by apply Hfr6.
  - exists s6. split; [done|]. exists M. split_and!; try done; [|congruence]. apply sorted_by_bucket; [done|].
    intros b Hb. rewrite M2 in Hb. specialize (Hlen b Hb). lia.
Qed.
End Loop.

(** The conditions under which the recursion is entered. *)
Definition entered (fuel : nat) L (k l : nat) s : Prop :=
  rinv s /\ l < LEVEL_THRESHOLD /\ (Z.of_nat k < max_length s)%Z /\ L <> [] /\
  short (max_length s) /\
  forall a, a ∈ L -> k <= length (key a) + 1 /\ length (key a) + 1 < fuel + k.

Section Prefix.
Context (k cp : nat) (a : T) (L : list T).
Hypothesis Hcp : 0 < cp.
Hypothesis Hsame : forall b, b ∈ L -> forall j, j < cp -> byte b (k + j) = byte a (k + j).

Lemma prefix_cmp b c : b ∈ L -> c ∈ L -> cmp_from key k b c = cmp_from key (k + cp) b c.
Proof using key_bytes Hsame. intros Hb Hc. apply cmp_same_bytes; [done|]. intros i Hi. by rewrite (Hsame b Hb i Hi), (Hsame c Hc i Hi). Qed.

Lemma prefix_skips M : M ≡ₚ L -> StronglySorted (le_from (k + cp)) M -> StronglySorted (le_from k) M.
Proof using key_bytes Hsame.
  intros HM Hs. apply (sorted_change _ _ _ Hs). intros x y Hx Hy. rewrite HM in Hx, Hy. unfold SorterProofs.le. by rewrite prefix_cmp.
Qed.

Lemma prefix_over : (forall b, b ∈ L -> length (key b) <= k + cp) -> StronglySorted (le_from k) L.
Proof using key_bytes Hsame. intros Hl. apply sorted_already. intros b c Hb Hc. rewrite prefix_cmp by done. apply cmp_past; auto. Qed.

Lemma prefix_ended : byte a k = (-1)%Z -> StronglySorted (le_from k) L.
Proof using key_bytes Hsame Hcp.
  intros Ha. apply sorted_already. intros b c Hb Hc. pose proof (Hsame b Hb 0 Hcp) as E1. pose proof (Hsame c Hc 0 Hcp) as E2.
  rewrite Nat.add_0_r in E1, E2. apply cmp_past; apply (byte_range key key_bytes); congruence.
Qed.

Lemma prefix_reaches b : b ∈ L -> (forall j, j < cp - 1 -> byte a (k + j) <> (-1)%Z) -> byte a k <> (-1)%Z -> k + cp <= length (key b) + 1.
Proof using key_bytes Hsame Hcp.
  intros Hb Hj Hk. assert (byte b (k + (cp - 2)) <> (-1)%Z) as H2.
  { rewrite (Hsame b Hb) by lia. destruct (decide (cp = 1)) as [Hc|]; [by replace (k + (cp - 2)) with k by lia|]. apply Hj. lia. }
  pose proof (byte_range key key_bytes b (k + (cp - 2))). lia.
Qed.
End Prefix.

Lemma sort_impl_ok radix P L Q s k l : rinv s -> slots_of s = P ++ L ++ Q ->
  (forall a, a ∈ L -> k <= length (key a)) -> short (max_length s) ->
  (l < LEVEL_THRESHOLD -> L <> [] -> exists s', radix (length P) (length P + length L) k l s = (Ok tt, s') /\ sorted_out P L Q k l s s') ->
  exists s', sort_impl_ radix (length P) (length P + length L) k l s = (Ok tt, s') /\ sorted_out P L Q k l s s'.
Proof using Type.
  intros Hinv Hs Hk Hmax Hr. unfold sort_impl_. rewrite sget_sbind, slift_sbind. destruct (Nat.ltb_spec (length P + length L) (length P)); [lia|].
  destruct (should_fallback _ _ _ _) eqn:Hf.
  - destruct (fallback_law (delegate s) P L Q k (max_length s) Hs Hk Hmax) as (d & M & E & D1 & D2 & D3). unfold on_delegate. rewrite E.
    eexists. split; [done|]. exists M. split_and!; try done. by destruct Hinv.
  - apply radix_law in Hf as [Hl Hlt]. apply Hr; [done|]. intros ->. cbn in Hlt. lia.
Qed.

(** The common prefix is skipped. *)
Lemma prefix_branch_ok (again : ST (t S) unit) P L Q s k l cp a none : rinv s -> slots_of s = P ++ L ++ Q -> L <> [] -> 0 < cp ->
  (forall b, b ∈ L -> forall j, j < cp -> byte b (k + j) = byte a (k + j)) -> (forall b, b ∈ L -> (Z.of_nat (length (key b)) <= max_length s)%Z) ->
  <[bucket key k a := length L]> (replicate HISTOGRAM_SIZE 0) !! 0 = Some none ->
  ((Z.of_nat (k + cp) < max_length s)%Z -> byte a k <> (-1)%Z -> exists s', again s = (Ok tt, s') /\ sorted_out P L Q (k + cp) l s s') ->
  exists s', (if (Z.of_nat (k + cp) <? max_length s)%Z && (none <? length L) then again else sret tt) s = (Ok tt, s') /\ sorted_out P L Q k l s s'.
Proof using key_bytes.
  intros Hinv Hs Hne Hcp Hsame Hlen Hn Hagain. pose proof (byte_range key key_bytes a k) as Ha.
  assert (Hstop : StronglySorted (le_from k) L -> exists s', (sret tt : ST (t S) unit) s = (Ok tt, s') /\ sorted_out P L Q k l s s').
  { intros Hst. exists s. split; [done|]. exists L. by split_and!. }
  destruct (Z.ltb_spec (Z.of_nat (k + cp)) (max_length s)) as [D1|D1]; cbn [andb].
  2: { apply Hstop, (prefix_over k cp a); [done|]. intros b Hb. specialize (Hlen b Hb). lia. }
  destruct (decide (byte a k = (-1)%Z)) as [Hb|Hb].
  - assert (bucket key k a = 0) as Hb0 by (unfold bucket; rewrite Hb; done).
    rewrite Hb0, list_lookup_insert_eq in Hn by (rewrite length_replicate; unfold HISTOGRAM_SIZE; lia). injection Hn as <-.
    rewrite (proj2 (Nat.ltb_ge _ _)) by done. by apply Hstop, (prefix_ended k cp a).
  - assert (bucket key k a <> 0) as Hb0 by (unfold bucket; lia).
    rewrite list_lookup_insert_ne, lookup_replicate_2 in Hn by (done || (unfold HISTOGRAM_SIZE; lia)). injection Hn as <-.
    rewrite (proj2 (Nat.ltb_lt _ _)) by (destruct L; [done|cbn; lia]).
    destruct (Hagain D1 Hb) as (s' & E & M & S1 & S2 & S3 & S4). exists s'. split; [done|]. exists M. split_and!; try done; [by apply (prefix_skips k cp a L)|apply S4..].
Qed.

Lemma radix_ok fuel : forall P L Q s k l, slots_of s = P ++ L ++ Q -> entered fuel L k l s ->
  exists s', radix_sort fuel (length P) (length P + length L) k l s = (Ok tt, s') /\ sorted_out P L Q k l s s'.
Proof using key_bytes.
  induction fuel as [|fuel IH]; intros P L Q s k l Hs (Hinv & Hl & Hk & Hne & Hmax & Hb).
  { destruct L as [|a L]; [done|]. destruct (Hb a ltac:(left)) as (? & ?). lia. }
  destruct L as [|a R]; [done|]. clear Hne. set (L := a :: R) in *. cbn [radix_sort].
  unfold get_histogram at 1. rewrite sbind_assoc, sget_sbind, slift_sbind.
  destruct (lookup_lt_is_Some_2 (histograms s) l) as [h0 Hh0]; [rewrite (ri_levels _ Hinv); done|]. unfold nget at 1. rewrite Hh0.
  replace (match h0 with [] => replicate HISTOGRAM_SIZE 0 | _ => replicate (length h0) 0 end) with (replicate HISTOGRAM_SIZE 0).
  2: { destruct (ri_sizes _ Hinv h0) as [->|<-]; [apply list_elem_of_lookup; by exists l|done|by destruct h0]. }
  destruct (set_histogram_ok l (replicate HISTOGRAM_SIZE 0) s Hinv Hl (length_replicate _ _)) as (s1 & E1 & I1 & A1 & A2 & A3 & A4).
  rewrite (sbind_ok _ _ _ _ _ E1).
  assert (Hl1 : l < length (histograms s)) by (rewrite (ri_levels _ Hinv); done).
  destruct (histogram_ok P a R Q s1 k l) as (cp & s2 & h & E2 & (B1 & B2 & B3 & B4 & B5) & Hor);
    [by rewrite A4|apply I1|rewrite A1; by apply list_lookup_insert_eq|by rewrite A3|].
  rewrite (sbind_ok _ _ _ _ _ E2), sget_sbind. fold L in Hor |- *.
  assert (Hh2 : histograms s2 = <[l := h]> (histograms s)) by (by rewrite B1, A1, list_insert_insert_eq).
  assert (Hfr : forall l', l' < l -> histograms s2 !! l' = histograms s !! l') by (intros l' Hl'; rewrite Hh2, list_lookup_insert_ne by lia; done).
  assert (Hm2 : max_length s2 = max_length s) by congruence.
  assert (Hs2 : slots_of s2 = P ++ L ++ Q) by (by rewrite B4, A4).
  assert (Hlh : length h = HISTOGRAM_SIZE).
  { destruct Hor as [(_ & _ & _ & _ & ->)|(_ & -> & _)]; [by rewrite length_insert, length_replicate|unfold histogram_of; by rewrite length_map, length_seq]. }
  assert (I2 : rinv s2) by (apply (rinv_insert s s2 l h); try done; [rewrite B2, A2; apply Hinv|rewrite B5; apply I1]).
  assert (Hget : get_histogram l s2 = (Ok h, s2)).
  { unfold get_histogram. rewrite sget_sbind. unfold nget. rewrite Hh2, list_lookup_insert_eq by done. done. }
  destruct Hor as [(C1 & C2 & C3 & C4 & C5)|(-> & C1 & C2 & x & C3 & C4)].
  - rewrite (proj2 (Nat.ltb_lt _ _)), (sbind_ok _ _ _ _ _ Hget), slift_sbind by done. unfold nget.
    destruct (lookup_lt_is_Some_2 h 0) as [none Hn]; [rewrite Hlh; unfold HISTOGRAM_SIZE; lia|]. rewrite Hn. rewrite C5 in Hn.
    replace (length P + length L - length P) with (length L) by lia.
    destruct (prefix_branch_ok (radix_sort fuel (length P) (length P + length L) (k + cp) l) P L Q s2 k l cp a none) as (s' & E' & M & S1 & S2 & S3 & S4 & S5 & S6); try done.
    + intros b Hb'. rewrite Hm2. apply Hmax.
    + intros D1 Hna. apply IH; [done|]. split; [done|]. split; [done|]. split; [done|]. split; [done|]. split; [by rewrite Hm2|]. intros b Hb'.
      destruct (Hb b Hb') as (F2 & F3). split; [by apply (prefix_reaches k cp a L)|lia].
    + exists s'. split; [done|]. exists M. split_and!; try done; [congruence|]. intros l' Hl'. rewrite S6 by done. by apply Hfr.
  - cbn [Nat.ltb Nat.leb]. subst h.
    destruct (radix_buckets_ok (fun u w => sort_impl_ (radix_sort fuel) u w (k + 1) (l + 1)) k l L (max_length s)) with (P := P) (Q := Q) (s := s2) (a := a) (x := x)
      as (s' & E3 & M & T1 & T2 & T3 & T4 & T5 & T6); try done.
    + intros Hlt P' E Q' u Hu Hmu Hsu HE HEL.
      assert (HEb : forall b, b ∈ E -> k + 1 <= length (key b) /\ length (key b) + 1 < fuel + (k + 1)).
      { intros b Hb'. destruct (HEL b Hb') as [Hb1 Hb2]. destruct (Hb b Hb1) as (F2 & F3). pose proof (byte_range key key_bytes b k).
        unfold bucket in Hb2. split; lia. }
      assert (Hmu' : short (max_length u)) by (by rewrite Hmu).
      apply sort_impl_ok; try done; [intros b Hb'; by apply HEb|].
      intros Hl' Hne. apply IH; [done|]. split; [done|]. split; [done|]. split; [by rewrite Hmu|]. split; [done|]. split; [done|].
      intros b Hb'. destruct (HEb b Hb'). split; lia.
    + rewrite Hh2. by apply list_lookup_insert_eq.
    + subst L. by left.
    + subst L. by right.
    + intros b _. apply Hmax.
    + exists s'. split; [done|]. exists M. split_and!; try done; [congruence|]. intros l' Hl'. rewrite T6 by done. by apply Hfr.
Qed.

(** The whole sorter. *)
Lemma radix_sorter_ok fuel max (d : S) P L Q : rslots d = P ++ L ++ Q -> (0 < max)%Z -> short max ->
  (forall a, a ∈ L -> length (key a) + 1 < fuel) ->
  exists s', MSBRadixSorter.sort fuel (length P) (length P + length L) (new max d) = (Ok tt, s') /\ sorted_out P L Q 0 0 (new max d) s'.
Proof using key_bytes.
  intros Hs H0 Hmax Hf. unfold MSBRadixSorter.sort, sort_impl. rewrite slift_sbind. unfold Sorter.check_range.
  destruct (Nat.ltb_spec (length P + length L) (length P)); [lia|].
  assert (Hinv : rinv (new max d)) by (constructor; try done; intros h Hin; left; by apply elem_of_replicate in Hin as [-> _]).
  apply sort_impl_ok; try done; [intros; lia|]. intros Hl Hne. apply radix_ok; [done|].
  split; [done|]. split; [done|]. split; [cbn; lia|]. split; [done|]. split; [done|]. intros a Ha. specialize (Hf a Ha). split; lia.
Qed.
End Radix.
End RadixProofs.
