(* ===== verification/RadixSorts.v ===== *)
(** [MSBRadixSorter] over a delegate with the trait's own methods: the comparison sort it
    falls back to, the histogram and the reordering meet the contract of the sorter, given
    only [byte_at] and [swap]. *)

From Stdlib Require Import ZArith Lia Bool Arith.
From stdpp Require Import base tactics numbers list sorting.
From S2P Require Import Prelude ArrayUtil Sorter SorterProofs HeapSort IntroSorter RadixSorter RadixProofs.
Import MSBRadixSorter HeapSort Buckets Keys RadixProofs.

Local Open Scope nat_scope.

(** * The difference of two keys *)

Module Difference.

(** The difference of the first bytes that differ; the end of a key counts as -1. *)
Fixpoint diff (a b : list Z) : Z :=
  match a, b with
  | [], [] => 0
  | [], y :: _ => -1 - y
  | x :: _, [] => x + 1
  | x :: a, y :: b => if (x =? y)%Z then diff a b else (x - y)%Z
  end.

Lemma diff_sign a : forall b, Forall (in_u 8) a -> Forall (in_u 8) b -> Z.sgn (diff a b) = lex a b.
Proof.
  induction a as [|x a IH]; intros [|y b] Ha Hb; inversion Ha; inversion Hb; subst; unfold in_u in *; cbn [diff lex].
  - done. - apply Z.sgn_neg. lia. - apply Z.sgn_pos. lia.
  - destruct (Z.eqb_spec x y) as [->|]; [rewrite Z.ltb_irrefl; by apply IH|].
    destruct (Z.ltb_spec x y); [apply Z.sgn_neg; lia|]. destruct (Z.ltb_spec y x); [apply Z.sgn_pos; lia|lia].
Qed.

Section Order.
Context {T : Type} (key : T -> list Z).
Hypothesis key_bytes : forall a, Forall (in_u 8) (key a).

Definition diff_from (k : nat) (a b : T) : Z := diff (drop k (key a)) (drop k (key b)).

Lemma diff_from_sign k a b : Z.sgn (diff_from k a b) = cmp_from key k a b.
Proof using key_bytes. apply diff_sign; by apply Forall_drop. Qed.

Lemma diff_order k : CmpOrder (diff_from k).
Proof using key_bytes.
  split; intros.
  - pose proof (diff_from_sign k a b). pose proof (diff_from_sign k b a). pose proof (cmp_flip (cmp := cmp_from key k) a b). lia.
  - pose proof (diff_from_sign k a b). pose proof (diff_from_sign k b c). pose proof (diff_from_sign k a c).
    pose proof (cmp_trans (cmp := cmp_from key k) a b c). lia.
Qed.

Lemma diff_sorted k L : StronglySorted (SorterProofs.le (diff_from k)) L -> StronglySorted (SorterProofs.le (cmp_from key k)) L.
Proof using key_bytes.
  intros H. apply (sorted_change _ _ _ H). intros a b _ _. unfold SorterProofs.le. pose proof (diff_from_sign k a b). lia.
Qed.

(** One byte after the other. *)
Lemma diff_step k a b : diff_from k a b =
  if (byte_of (key a) k =? byte_of (key b) k)%Z then if (byte_of (key a) k =? -1)%Z then 0%Z else diff_from (k + 1) a b
  else (byte_of (key a) k - byte_of (key b) k)%Z.
Proof using key_bytes.
  pose proof (byte_range key key_bytes a k). pose proof (byte_range key key_bytes b k). unfold diff_from.
  rewrite (drop_byte key a k), (drop_byte key b k), Nat.add_1_r.
  repeat case_decide; cbn [diff]; destruct (Z.eqb_spec (byte_of (key a) k) (byte_of (key b) k)), (Z.eqb_spec (byte_of (key a) k) (-1)); done || lia.
Qed.
End Order.
End Difference.

(** * The comparison sort *)

Module IntroImpl.
Import Difference MSBRadixIntroSorterImpl.

Section Impl.
Context {S T : Type} (key : T -> list Z) (byte_at_ : nat -> nat -> ST S Z) (swap_ : nat -> nat -> ST S unit) (slots_ : S -> list T).
Hypothesis byte_law : forall d i k a, slots_ d !! i = Some a ->
  exists d', byte_at_ i k d = (Ok (byte_of (key a) k), d') /\ slots_ d' = slots_ d.
Hypothesis swap_law : forall d i j a b, slots_ d !! i = Some a -> slots_ d !! j = Some b ->
  exists d', swap_ i j d = (Ok tt, d') /\ slots_ d' = <[i := b]> (<[j := a]> (slots_ d)).
Hypothesis key_bytes : forall a, Forall (in_u 8) (key a).
Context (max : Z) (k : nat).
Hypothesis key_max : forall a, (Z.of_nat (length (key a)) <= max)%Z.
Hypothesis max_i32 : (max <= i32_MAX)%Z.
Implicit Types (s : MSBRadixIntroSorterImpl.t (S := S)) (a b p : T).
Abbreviation slots_of s := (slots_ (delegate s)).
Abbreviation byte a i := (byte_of (key a) i).

Definition kept s s' : Prop := slots_of s' = slots_of s /\ pivot s' = pivot s.

Lemma impl_byte s i o a : slots_of s !! i = Some a -> exists s', on_delegate (byte_at_ i o) s = (Ok (byte a o), s') /\ kept s s'.
Proof using byte_law.
  intros Ha. destruct (byte_law (delegate s) i o a Ha) as (d & E & Hd). unfold on_delegate. rewrite E. eexists. split; [done|]. done.
Qed.

Lemma kept_trans s1 s2 s3 : kept s1 s2 -> kept s2 s3 -> kept s1 s3.
Proof using Type. intros [A1 A2] [B1 B2]. split; congruence. Qed.

Lemma turns_bound o : (Z.max 0 (max - Z.of_nat o) < 2 ^ Z.of_nat 32)%Z.
Proof using max_i32. unfold i32_MAX in *. change (2 ^ Z.of_nat 32)%Z with 4294967296%Z. lia. Qed.

(** Beyond [max] there is nothing. *)
Lemma diff_over o a b : (max <= Z.of_nat o)%Z -> diff_from key o a b = 0%Z.
Proof using key_max. intros Ho. pose proof (key_max a). pose proof (key_max b). unfold diff_from. by rewrite !drop_ge by lia. Qed.

Lemma compare_ok s i j a b : slots_of s !! i = Some a -> slots_of s !! j = Some b ->
  exists s', compare_ byte_at_ max k i j s = (Ok (diff_from key k a b), s') /\ kept s s'.
Proof using byte_law key_bytes key_max max_i32.
  intros Ha Hb. unfold compare_.
  destruct (loop_ok (fun o =>
    if (Z.of_nat o <? max)%Z then
      let* u := on_delegate (byte_at_ i o) in
      let* v := on_delegate (byte_at_ j o) in
      if negb (u =? v)%Z then sret (inr (u - v)%Z) else if (u =? -1)%Z then sret (inr 0%Z) else sret (inl (o + 1))
    else sret (inr 0%Z))
    (fun o s1 => kept s s1 /\ diff_from key o a b = diff_from key k a b) (fun r s1 => kept s s1 /\ r = diff_from key k a b)
    (fun o _ => Z.max 0 (max - Z.of_nat o))) with (k := 32%nat) (x := k) (s := s) as (r & s' & E & K & ->).
  - intros. lia.
  - intros o s1 [K1 D1]. destruct (Z.ltb_spec (Z.of_nat o) max) as [Ho|Ho]; [|exists (inr 0%Z), s1; split; [done|]; split; [done|]; by rewrite <- D1, diff_over].
    destruct (impl_byte s1 i o a) as (s2 & E2 & K2); [by destruct K1 as [-> _]|]. rewrite (sbind_ok _ _ _ _ _ E2).
    destruct (impl_byte s2 j o b) as (s3 & E3 & K3); [destruct K1 as [K1 _], K2 as [-> _]; by rewrite K1|]. rewrite (sbind_ok _ _ _ _ _ E3).
    assert (K : kept s s3) by (apply (kept_trans _ s1); [done|]; by apply (kept_trans _ s2)).
    rewrite (diff_step key key_bytes o) in D1. destruct (Z.eqb_spec (byte a o) (byte b o)) as [He|He]; cbn [negb].
    + destruct (Z.eqb_spec (byte a o) (-1)); eexists _, s3; (split; [done|]); cbn; [by split|]. split; [by split|lia].
    + eexists _, s3. split; [done|]. by split.
  - by split.
  - apply turns_bound.
  - exists s'. by split.
Qed.

(** The pivot holds the rest of the key of [p]. *)
Definition pivot_of s p : Prop :=
  BytesRefBuilder.length_ (pivot s) = length (drop k (key p)) /\
  take (length (drop k (key p))) (BytesRefBuilder.bytes (pivot s)) = drop k (key p).

Lemma append_ok (p : BytesRefBuilder.t) x : (Z.of_nat (BytesRefBuilder.length_ p + 1) <= i32_MAX)%Z ->
  BytesRefBuilder.length_ p <= length (BytesRefBuilder.bytes p) ->
  exists bs, BytesRefBuilder.append_byte p x = Ok (BytesRefBuilder.mk bs (BytesRefBuilder.length_ p + 1)) /\
    take (BytesRefBuilder.length_ p + 1) bs = take (BytesRefBuilder.length_ p) (BytesRefBuilder.bytes p) ++ [x].
Proof using Type.
  intros Hl Hb. unfold BytesRefBuilder.append_byte. set (n := BytesRefBuilder.length_ p) in *. set (l := BytesRefBuilder.bytes p) in *.
  destruct (ArrayUtil.grow_with_ok 1 l (Z.of_nat (n + 1)) 0%Z) as (m & -> & Hm & _); [done|]. cbn [rbind]. unfold nset.
  assert (Hn : n < length (l ++ replicate m 0%Z)) by (rewrite length_app, length_replicate; lia).
  rewrite (proj2 (Nat.ltb_lt _ _)) by done. cbn [rbind]. eexists. split; [done|].
  rewrite Nat.add_1_r, (take_S_r _ n x) by (by apply list_lookup_insert_eq). rewrite take_insert_ge, take_app_le by lia. done.
Qed.

Lemma set_pivot_ok s i a : slots_of s !! i = Some a ->
  exists s', set_pivot byte_at_ max k i s = (Ok tt, s') /\ slots_of s' = slots_of s /\ pivot_of s' a.
Proof using byte_law key_bytes key_max max_i32.
  intros Ha. unfold set_pivot. rewrite sget_sbind. set (s0 := mk (BytesRefBuilder.set_length (pivot s) 0) (delegate s)).
  rewrite (sbind_ok _ _ _ tt s0) by done. pose proof (key_max a) as Hka.
  destruct (loop_ok (fun o =>
    if (Z.of_nat o <? max)%Z then
      let* u := on_delegate (byte_at_ i o) in
      if (u =? -1)%Z then sret (inr tt)
      else
        let* w := sget in
        let* q := slift (BytesRefBuilder.append_byte (pivot w) (as_u8 u)) in
        let* _ := set_pivot_ q in
        sret (inl (o + 1))
    else sret (inr tt))
    (fun o s1 => slots_of s1 = slots_of s /\ k <= o /\ BytesRefBuilder.length_ (pivot s1) = o - k /\ o - k <= length (drop k (key a)) /\
       o - k <= length (BytesRefBuilder.bytes (pivot s1)) /\ take (o - k) (BytesRefBuilder.bytes (pivot s1)) = take (o - k) (drop k (key a)))
    (fun _ s1 => slots_of s1 = slots_of s /\ pivot_of s1 a)
    (fun o _ => Z.max 0 (max - Z.of_nat o))) with (k := 32%nat) (x := k) (s := s0) as ([] & s' & E & K & K').
  - intros. lia.
  - intros o s1 (A1 & A2 & A3 & A4 & A5 & A6).
    assert (Hdone : length (key a) <= o -> slots_of s1 = slots_of s /\ pivot_of s1 a).
    { intros Ho. rewrite length_drop in A4. split; [done|]. unfold pivot_of. rewrite length_drop.
      replace (length (key a) - k) with (o - k) by lia. split; [done|]. rewrite A6. apply take_ge. rewrite length_drop. lia. }
    destruct (Z.ltb_spec (Z.of_nat o) max) as [Ho|Ho]; [|exists (inr tt), s1; split; [done|]; apply Hdone; lia].
    destruct (impl_byte s1 i o a) as (s2 & E2 & [K2 P2]); [by rewrite A1|]. rewrite (sbind_ok _ _ _ _ _ E2).
    pose proof (byte_range key key_bytes a o) as [Hr Hend]. destruct (Z.eqb_spec (byte a o) (-1)) as [Hb|Hb].
    + exists (inr tt), s2. split; [done|]. destruct (Hdone ltac:(tauto)) as [D1 D2]. split; [congruence|]. unfold pivot_of. by rewrite P2.
    + assert (Hlt : o < length (key a)) by (destruct (decide (length (key a) <= o)); [tauto|lia]).
      rewrite sget_sbind, slift_sbind, P2. unfold i32_MAX in *.
      destruct (append_ok (pivot s1) (as_u8 (byte a o))) as (bs & -> & Hbs); [unfold i32_MAX; rewrite A3; lia|by rewrite A3|].
      eexists (inl (o + 1)), _. split; [done|]. cbn [delegate pivot BytesRefBuilder.length_ BytesRefBuilder.bytes]. rewrite A3 in Hbs |- *.
      replace (o + 1 - k) with (o - k + 1) by lia. rewrite length_drop. split; [|lia]. split; [congruence|]. split; [lia|]. split; [done|]. split; [lia|].
      assert (Hlen : o - k + 1 <= length bs) by (apply (f_equal length) in Hbs; rewrite length_app, !length_take in Hbs; cbn [length] in Hbs; lia).
      split; [done|]. rewrite Hbs, A6. replace (o - k + 1) with (Datatypes.S (o - k)) by lia. rewrite (take_S_r _ _ (byte a o)).
      * f_equal. f_equal. apply wrap_u_id. unfold in_u. lia.
      * rewrite lookup_drop. replace (k + (o - k)) with o by lia. unfold byte_of. destruct (lookup_lt_is_Some_2 _ _ Hlt) as [x Hx]. by rewrite Hx.
  - cbn. rewrite Nat.sub_diag. split_and!; try done; lia.
  - apply turns_bound.
  - exists s'. by split.
Qed.

Lemma compare_pivot_loop_ok p b j n : forall o s, slots_of s !! j = Some b -> pivot_of s p -> o + n = length (drop k (key p)) ->
  exists s' r, compare_pivot_loop byte_at_ k n o j s = (Ok r, s') /\ kept s s' /\
    match r with Some d => diff_from key (k + o) p b = d | None => diff_from key (k + o) p b = diff_from key (k + o + n) p b end.
Proof using byte_law key_bytes.
  induction n as [|n IH]; intros o s Hb [P1 P2] Hn; cbn [compare_pivot_loop].
  { exists s, None. by rewrite Nat.add_0_r. }
  rewrite sget_sbind, slift_sbind. rewrite length_drop in Hn. unfold BytesRefBuilder.byte_at, nget.
  assert (Hp : BytesRefBuilder.bytes (pivot s) !! o = Some (byte p (k + o))).
  { destruct (lookup_lt_is_Some_2 (key p) (k + o) ltac:(lia)) as [x Hx]. unfold byte_of. rewrite Hx. cbn.
    rewrite <- (lookup_take_lt _ (length (drop k (key p)))) by (rewrite length_drop; lia). by rewrite P2, lookup_drop. }
  rewrite Hp. destruct (impl_byte s j (k + o) b Hb) as (s1 & E1 & [K1 K2]). rewrite (sbind_ok _ _ _ _ _ E1).
  pose proof (byte_range key key_bytes p (k + o)). rewrite (diff_step key key_bytes).
  destruct (Z.eqb_spec (byte p (k + o)) (byte b (k + o))) as [He|He]; cbn [negb].
  - rewrite (proj2 (Z.eqb_neq _ _)) by lia. destruct (IH (o + 1) s1) as (s' & r & E & K & Hr);
      [by rewrite K1|unfold pivot_of; by rewrite K2|rewrite length_drop; lia|].
    exists s', r. split; [done|]. split; [by apply (kept_trans _ s1)|]. rewrite <- Nat.add_assoc.
    replace (k + o + Datatypes.S n) with (k + (o + 1) + n) by lia. done.
  - by exists s1, (Some (byte p (k + o) - byte b (k + o))%Z).
Qed.

Lemma compare_pivot_ok s j p b : pivot_of s p -> slots_of s !! j = Some b ->
  exists s', compare_pivot byte_at_ max k j s = (Ok (diff_from key k p b), s') /\ kept s s'.
Proof using byte_law key_bytes key_max.
  intros Hp Hb. unfold compare_pivot. rewrite sget_sbind. cbv zeta. destruct Hp as [P1 P2]. rewrite P1.
  destruct (compare_pivot_loop_ok p b j (length (drop k (key p))) 0 s Hb (conj P1 P2) eq_refl) as (s1 & r & E & K & Hr).
  rewrite (sbind_ok _ _ _ _ _ E). rewrite Nat.add_0_r in Hr. destruct r as [d|]; [exists s1; by rewrite Hr|].
  rewrite Hr. pose proof (key_max b) as Hkb. pose proof (key_max p) as Hkp. rewrite length_drop in *.
  destruct (Z.eqb_spec (Z.of_nat (k + (length (key p) - k))) max) as [He|He]; [exists s1; by rewrite diff_over by lia|].
  destruct (impl_byte s1 j (k + (length (key p) - k)) b) as (s2 & E2 & K2); [by destruct K as [-> _]|]. rewrite (sbind_ok _ _ _ _ _ E2).
  exists s2. split; [|by apply (kept_trans _ s1)]. rewrite (diff_step key key_bytes).
  assert (byte p (k + (length (key p) - k)) = (-1)%Z) as -> by (apply (byte_range key key_bytes); lia).
  destruct (Z.eqb_spec (-1) (byte b (k + (length (key p) - k)))) as [<-|]; done.
Qed.

#[local] Instance impl_sorter : Sorter.Sorter (MSBRadixIntroSorterImpl.t (S := S)) := intro_impl byte_at_ swap_ max k.

#[local] Instance impl_spec : SorterSpec (MSBRadixIntroSorterImpl.t (S := S)) (diff_from key k).
Proof using byte_law swap_law key_bytes key_max max_i32.
  refine {| slots s := slots_of s; pivot_is := pivot_of |}.
  - intros s i j a b Ha Hb. destruct (compare_ok s i j a b Ha Hb) as (s' & E & [K _]). by exists s'.
  - intros s i j a b Ha Hb. destruct (swap_law (delegate s) i j a b Ha Hb) as (d & E & Hd). exists (mk (pivot s) d).
    cbn. unfold on_delegate. by rewrite E.
  - intros s i a Ha. by apply set_pivot_ok.
  - intros s j p b Hp Hb. destruct (compare_pivot_ok s j p b Hp Hb) as (s' & E & [K1 K2]). exists s'. split_and!; try done. unfold pivot_of. by rewrite K2.
Defined.

#[local] Instance impl_pivot_kept : PivotKept (MSBRadixIntroSorterImpl.t (S := S)) (diff_from key k).
Proof using Type.
  intros s s' i j a b p Ha Hb Hp. cbn. unfold on_delegate. destruct (swap_ i j (delegate s)) as [r d]. by intros [= _ <-].
Qed.

(** The fallback sorts. *)
Lemma fallback_ok d P L Q : slots_ d = P ++ L ++ Q -> exists d' M,
  fallback_sort byte_at_ swap_ max k (length P) (length P + length L) d = (Ok tt, d') /\
  slots_ d' = P ++ M ++ Q /\ M ≡ₚ L /\ StronglySorted (SorterProofs.le (cmp_from key k)) M.
Proof using byte_law swap_law key_bytes key_max max_i32.
  intros Hs. destruct (@IntroProofs.sort_range_ok _ _ (diff_from key k) impl_sorter impl_spec impl_pivot_kept (diff_order key key_bytes k) P L Q
    (mk BytesRefBuilder.new d) (length P) (length P + length L)) as (M & (s' & E & Hs') & HM & Hp); try done.
  unfold fallback_sort. cbv zeta. exists (delegate s'), M. change impl_sorter with (intro_impl byte_at_ swap_ max k) in E. rewrite E. split_and!; try done. by apply diff_sorted.
Qed.
End Impl.
End IntroImpl.

(** * The trait's own methods *)

Module DefaultProofs.
Import DefaultRadix.

Section Default.
Context {S T : Type} (key : T -> list Z) (byte_at_ : nat -> nat -> ST S Z) (swap_ : nat -> nat -> ST S unit) (slots_ : S -> list T).
Hypothesis byte_law : forall d i k a, slots_ d !! i = Some a ->
  exists d', byte_at_ i k d = (Ok (byte_of (key a) k), d') /\ slots_ d' = slots_ d.
Hypothesis swap_law : forall d i j a b, slots_ d !! i = Some a -> slots_ d !! j = Some b ->
  exists d', swap_ i j d = (Ok tt, d') /\ slots_ d' = <[i := b]> (<[j := a]> (slots_ d)).
Hypothesis key_bytes : forall a, Forall (in_u 8) (key a).
Implicit Types (P L M Q : list T) (a b : T).
Abbreviation bk k := (bucket key k).

Lemma get_bucket_ok d i k a : slots_ d !! i = Some a -> exists d', get_bucket byte_at_ k i d = (Ok (bk k a), d') /\ slots_ d' = slots_ d.
Proof using byte_law key_bytes.
  intros Ha. destruct (byte_law d i k a Ha) as (d' & E & Hd). exists d'. split; [|done]. unfold get_bucket. rewrite (sbind_ok _ _ _ _ _ E).
  unfold slift, bucket_of. pose proof (byte_range key key_bytes a k). by rewrite (proj2 (Z.leb_le _ _)) by lia.
Qed.

Lemma histogram_snoc (bkt : T -> nat) L a : bkt a < HISTOGRAM_SIZE ->
  histogram_of bkt L !! bkt a = Some (count bkt (bkt a) L) /\ <[bkt a := count bkt (bkt a) L + 1]> (histogram_of bkt L) = histogram_of bkt (L ++ [a]).
Proof using Type.
  intros Ha. split; [by apply (map_seq_lookup (fun i => count bkt i L))|]. apply list_eq. intros i.
  assert (Hl : forall l : list T, length (histogram_of bkt l) = HISTOGRAM_SIZE) by (intros; unfold histogram_of; by rewrite length_map, length_seq).
  destruct (decide (i < HISTOGRAM_SIZE)) as [Hi|Hi]; [|rewrite !lookup_ge_None_2; [done|rewrite Hl; lia|rewrite length_insert, Hl; lia]].
  assert (Hn : histogram_of bkt (L ++ [a]) !! i = Some (count bkt i (L ++ [a]))) by (by apply (map_seq_lookup (fun i => count bkt i (L ++ [a])))).
  rewrite Hn, count_app. unfold count at 3. rewrite filter_cons, filter_nil. destruct (decide (i = bkt a)) as [->|Hne].
  - rewrite list_lookup_insert_eq, decide_True by (done || by rewrite Hl). done.
  - rewrite list_lookup_insert_ne, decide_False by congruence. cbn [length]. rewrite Nat.add_0_r. by apply (map_seq_lookup (fun i => count bkt i L)).
Qed.

Lemma count_loop_ok k R : forall P L Q d, slots_ d = P ++ L ++ R ++ Q ->
  exists d', count_loop (get_bucket byte_at_ k) (length R) (length P + length L) (histogram_of (bk k) L) d = (Ok (histogram_of (bk k) (L ++ R)), d') /\
    slots_ d' = slots_ d.
Proof using byte_law key_bytes.
  induction R as [|a R IH]; intros P L Q d Hs; cbn [count_loop length]; [exists d; by rewrite app_nil_r|].
  destruct (get_bucket_ok d (length P + length L) k a) as (d1 & E1 & H1); [rewrite Hs, app_assoc, <- length_app; by apply list_lookup_middle|].
  rewrite (sbind_ok _ _ _ _ _ E1), slift_sbind. destruct (histogram_snoc (bk k) L a (bucket_bound key key_bytes k a)) as [G1 G2].
  unfold nget. rewrite G1, slift_sbind. unfold nset. rewrite (proj2 (Nat.ltb_lt _ _)), G2 by (by eapply lookup_lt_Some).
  destruct (IH P (L ++ [a]) Q d1) as (d' & E & H'); [rewrite H1, Hs; by rewrite <- !app_assoc|].
  exists d'. rewrite length_app in E. cbn [length] in E. rewrite Nat.add_assoc in E. split; [|congruence].
  by rewrite E, <- app_assoc.
Qed.

Lemma histogram_const (bkt : T -> nat) L n : n < HISTOGRAM_SIZE -> (forall a, a ∈ L -> bkt a = n) ->
  <[n := length L]> (replicate HISTOGRAM_SIZE 0) = histogram_of bkt L.
Proof using Type.
  intros Hn Hl. assert (Hc : forall i, count bkt i L = if decide (i = n) then length L else 0).
  { intros i. unfold count. case_decide as Hi.
    - subst i. rewrite filter_all; [done|]. apply Forall_forall. auto.
    - induction L as [|a L IH]; [done|]. rewrite filter_cons_False by (rewrite (Hl a) by left; congruence). apply IH. intros b Hb. apply Hl. by right. }
  apply list_eq. intros i. destruct (decide (i < HISTOGRAM_SIZE)) as [Hi|Hi].
  - assert (Hh : histogram_of bkt L !! i = Some (count bkt i L)) by (by apply (map_seq_lookup (fun i => count bkt i L))).
    rewrite Hh, Hc. case_decide as He; [subst i; apply list_lookup_insert_eq; by rewrite length_replicate|].
    rewrite list_lookup_insert_ne by congruence. by apply lookup_replicate_2.
  - rewrite !lookup_ge_None_2; [done| |]; unfold histogram_of; rewrite ?length_insert, ?length_replicate, ?length_map, ?length_seq; lia.
Qed.

Lemma build_ok d P L1 L2 Q k n : slots_ d = P ++ L1 ++ L2 ++ Q -> (forall a, a ∈ L1 -> bk k a = n) -> L1 <> [] ->
  exists d', default_build_histogram byte_at_ n (length L1) (length P + length L1) (length P + length L1 + length L2) k (replicate HISTOGRAM_SIZE 0) d
    = (Ok (histogram_of (bk k) (L1 ++ L2)), d') /\ slots_ d' = slots_ d.
Proof using byte_law key_bytes.
  intros Hs Hb Hne. assert (Hn : n < HISTOGRAM_SIZE).
  { destruct L1 as [|a L1]; [done|]. rewrite <- (Hb a) by left. by apply bucket_bound. }
  unfold default_build_histogram. rewrite slift_sbind. unfold nset. rewrite length_replicate, (proj2 (Nat.ltb_lt _ _)), (histogram_const (bk k) L1 n) by done.
  replace (length P + length L1 + length L2 - (length P + length L1)) with (length L2) by lia. by apply (count_loop_ok k L2 P L1 Q d).
Qed.

Lemma reorder_default_ok d P L Q k : slots_ d = P ++ L ++ Q -> exists d' M,
  default_reorder byte_at_ swap_ (length P) (length P + length L) (starts_of (bk k) L) (ends_of (bk k) L) k d = (Ok (ends_of (bk k) L), d') /\
  slots_ d' = P ++ M ++ Q /\ M ≡ₚ L /\ StronglySorted (fun a b => bk k a <= bk k b) M.
Proof using byte_law swap_law key_bytes.
  intros Hs. unfold default_reorder. replace (length P + length L - length P) with (length L) by lia.
  apply (reorder_loop_ok (bk k) (get_bucket byte_at_ k) swap_ (length P) (fun M d => slots_ d = P ++ M ++ Q)); [intros; by apply bucket_bound| | |done].
  - intros M d0 h a Hd Ha. destruct (get_bucket_ok d0 (length P + h) k a) as (d1 & E & H1); [rewrite Hd; by apply SorterProofs.at_offset|].
    exists d1. split; [done|congruence].
  - intros M d0 h1 h2 a b Hd Ha Hb. destruct (swap_law d0 (length P + h1) (length P + h2) a b) as (d1 & E & H1);
      [rewrite Hd; by apply SorterProofs.at_offset..|]. exists d1. split; [done|]. rewrite H1, Hd. unfold exch. rewrite Ha, Hb.
    rewrite !insert_app_r. rewrite !insert_app_l by (rewrite ?length_insert; by eapply lookup_lt_Some). done.
Qed.


#[local] Instance the_base : MSBRadixSorterBase S := default_base byte_at_ swap_.

#[local] Instance the_spec : RadixSpec S key.
Proof using byte_law swap_law key_bytes.
  refine {| rslots := slots_; ready _ _ _ _ := True |}.
  - exact byte_law.
  - intros d P L1 L2 Q k n Hs Hb Hne. destruct (build_ok d P L1 L2 Q k n Hs Hb Hne) as (d' & E & H'). by exists d'.
  - intros d P L Q k Hs _. by apply reorder_default_ok.
  - intros d P L Q k max Hs _ [H1 H2]. by apply (IntroImpl.fallback_ok key byte_at_ swap_ slots_).
  - intros d from to l. cbn. unfold default_should_fallback. intros [H1%Nat.leb_gt H2%Nat.leb_gt]%orb_false_iff. unfold LENGTH_THRESHOLD in H1. split; lia.
Defined.

Lemma default_radix_ok fuel max d P L Q : slots_ d = P ++ L ++ Q -> (0 < max <= i32_MAX)%Z -> (forall a, (Z.of_nat (length (key a)) <= max)%Z) ->
  (forall a, a ∈ L -> length (key a) + 1 < fuel) ->
  exists s' M, MSBRadixSorter.sort (H := default_base byte_at_ swap_) fuel (length P) (length P + length L) (new max d) = (Ok tt, s') /\
    slots_ (delegate s') = P ++ M ++ Q /\ M ≡ₚ L /\ StronglySorted (fun a b => (lex (key a) (key b) <= 0)%Z) M.
Proof using byte_law swap_law key_bytes.
  intros Hs [H0 H1] Hmax Hf. destruct (@radix_sorter_ok S T key the_base the_spec key_bytes fuel max d P L Q Hs H0 (conj H1 Hmax) Hf) as (s' & E & M & S1 & S2 & S3 & _).
  exists s', M. by split_and!.
Qed.
End Default.
End DefaultProofs.

Module RadixSorts.

(** C9: [MSBRadixSorter] over a delegate that uses the trait's own methods sorts: whenever
    [byte_at] gives the bytes of the keys, -1 at the end of a key, and [swap] exchanges two
    slots, the sort returns [Ok], the slots of the range hold the same elements in the
    order of their keys as byte strings, and no other slot changes. Any fuel beyond the
    longest key is enough, so common prefixes and deep recursion end; no histogram, prefix
    or bucket is accessed out of range and no assertion fails. *)
Theorem radix_sort_sorts {S T : Type} (key : T -> list Z) (byte_at_ : nat -> nat -> ST S Z) (swap_ : nat -> nat -> ST S unit)
    (slots_ : S -> list T) (fuel : nat) (max : Z) (d : S) (P L Q : list T) :
  (forall d i k a, slots_ d !! i = Some a -> exists d', byte_at_ i k d = (Ok (byte_of (key a) k), d') /\ slots_ d' = slots_ d) ->
  (forall d i j a b, slots_ d !! i = Some a -> slots_ d !! j = Some b ->
     exists d', swap_ i j d = (Ok tt, d') /\ slots_ d' = <[i := b]> (<[j := a]> (slots_ d))) ->
  (forall a, Forall (in_u 8) (key a) /\ (Z.of_nat (length (key a)) <= max)%Z) -> (0 < max <= i32_MAX)%Z ->
  slots_ d = P ++ L ++ Q -> (forall a, a ∈ L -> length (key a) + 1 < fuel) ->
  exists s' M, MSBRadixSorter.sort (H := DefaultRadix.default_base byte_at_ swap_) fuel (length P) (length P + length L) (new max d) = (Ok tt, s') /\
    slots_ (delegate s') = P ++ M ++ Q /\ M ≡ₚ L /\ StronglySorted (fun a b => (lex (key a) (key b) <= 0)%Z) M.
Proof.
  intros Hb Hw Hk Hm Hs Hf. apply (DefaultProofs.default_radix_ok key byte_at_ swap_ slots_); try done; intros a; apply Hk.
Qed.

(** An array of byte strings. *)
Definition array_swap (i j : nat) : ST (list (list Z)) unit :=
  let* v := sget in
  let* a := slift (nget v i) in
  let* b := slift (nget v j) in
  sput (<[i := b]> (<[j := a]> v)).

(** The bytes of a string, at most sixteen. *)
Definition sample_key (a : list Z) : list Z := take 16 (map as_u8 a).
Definition sample_byte_at (i k : nat) : ST (list (list Z)) Z :=
  let* v := sget in let* a := slift (nget v i) in sret (byte_of (sample_key a) k).

Lemma radix_sort_sorts_witness : exists s' M,
  MSBRadixSorter.sort (H := DefaultRadix.default_base sample_byte_at array_swap) 20 1 4 (new 16 [[9]; [2; 1]; [2]; [1; 7]; [0]]%Z) = (Ok tt, s') /\
  delegate s' = [[9]]%Z ++ M ++ [[0]]%Z /\ M ≡ₚ [[2; 1]; [2]; [1; 7]]%Z.
Proof.
  destruct (radix_sort_sorts sample_key sample_byte_at array_swap id 20 16 [[9]; [2; 1]; [2]; [1; 7]; [0]]%Z [[9]]%Z [[2; 1]; [2]; [1; 7]]%Z [[0]]%Z)
    as (s' & M & E & H1 & H2 & _).
  - intros v i k a Ha. exists v. unfold sample_byte_at. rewrite sget_sbind, slift_sbind. unfold nget. cbn in Ha. by rewrite Ha.
  - intros v i j a b Ha Hb. cbn in Ha, Hb. eexists. unfold array_swap. rewrite sget_sbind, slift_sbind. unfold nget. rewrite Ha, slift_sbind, Hb. done.
  - intros a. split.
    + apply Forall_take, Forall_forall. intros x Hx. apply list_elem_of_fmap in Hx as (y & -> & _). apply wrap_u_in. lia.
    + unfold sample_key. rewrite length_take. lia.
  - unfold i32_MAX. lia.
  - done.
  - intros a _. unfold sample_key. rewrite length_take. lia.
  - exists s', M. split_and!; [exact E|exact H1|exact H2].
Defined.
End RadixSorts.
