(* ===== verification/IntroSelector.v ===== *)
(** [IntroSelector] of [src/core/util/intro_selector.rs], the quick select behind
    [ArrayUtil::select]: it brings the [k]-th element to slot [k] with nothing greater before
    it and nothing less after it. The methods of [IntroSelectorBase] are those of the [Sorter]
    class; the random source of the shuffle is a parameter. *)

From Stdlib Require Import ZArith Lia Bool Arith.
From stdpp Require Import base tactics numbers list sorting.
From S2P Require Import Prelude Sorter SorterProofs HeapSort IntroSorter ArraySorts.
Import Sorter SorterProofs HeapSort.

Local Open Scope nat_scope.

Module IntroSelector.
Import IntroSorter.

(** [TryIntoInt]: the conversions between [i32] and [usize] that can fail. *)
Definition to_usize (x : Z) : result nat := if (x <? 0)%Z then Err IllegalState else Ok (Z.to_nat x).
Definition to_i32 (n : nat) : result Z := if (Z.of_nat n <=? i32_MAX)%Z then Ok (Z.of_nat n) else Err IllegalState.

Section Operations.
Context {S : Type} `{Sorter S} (random_range : nat -> nat -> nat).

Definition min3 (i j k : nat) : ST S nat :=
  let* c := compare i j in
  if (c <=? 0)%Z then
    let* c := compare i k in
    sret (if (c <=? 0)%Z then i else k)
  else
    let* c := compare j k in
    sret (if (c <=? 0)%Z then j else k).

Definition max3 (i j k : nat) : ST S nat :=
  let* c := compare i j in
  if (c <=? 0)%Z then
    let* c := compare j k in
    sret (if (c <? 0)%Z then k else j)
  else
    let* c := compare i k in
    sret (if (c <? 0)%Z then k else i).

Definition sort3 (from : nat) : ST S unit :=
  let mid := from + 1 in
  let last := from + 2 in
  let* c := compare from mid in
  if (c <=? 0)%Z then
    let* c := compare mid last in
    if (0 <? c)%Z then
      let* _ := swap mid last in
      let* c := compare from mid in
      if (0 <? c)%Z then swap from mid else sret tt
    else sret tt
  else
    let* c := compare mid last in
    if (0 <=? c)%Z then swap from last
    else
      let* _ := swap from mid in
      let* c := compare mid last in
      if (0 <? c)%Z then swap mid last else sret tt.

(** [for i in (from..to).rev()], [n] values left; the draw is in [from..=i]. *)
Fixpoint shuffle_loop (n from : nat) : ST S unit :=
  match n with
  | O => sret tt
  | Datatypes.S n =>
      let i := from + n in
      let* _ := swap i (random_range from i) in
      shuffle_loop n from
  end.

Definition shuffle (from to : nat) : ST S unit := shuffle_loop (to - from) from.

Definition select_pivot (from to k : nat) : ST S nat :=
  let size := to - from in
  let last := to - 1 in
  let mid := (from + last) / 2 in
  if size <=? SINGLE_MEDIAN_THRESHOLD then
    let range := size / 4 in
    median (mid - range) mid (mid + range)
  else
    let range := size / 8 in
    let double_range := range * 2 in
    let* median_first := median from (from + range) (from + double_range) in
    let* median_middle := median (mid - range) mid (mid + range) in
    let* median_last := median (last - double_range) (last - range) last in
    if k - from <? range then min3 median_first median_middle median_last
    else if to - k <=? range then max3 median_first median_middle median_last
    else median median_first median_middle median_last.

(** [while { right_cmp = compare_pivot(j.try_convert()? - 1)?; j -= 1; right_cmp < 0 } {}] *)
Fixpoint scan_down (fuel : nat) (j : Z) : ST S (Z * Z) :=
  match fuel with
  | O => slift OutOfFuel
  | Datatypes.S fuel =>
      let* n := slift (to_usize j) in
      let* _ := slift (debug_assert (1 <=? n)) in
      let* right_cmp := compare_pivot (n - 1) in
      if (right_cmp <? 0)%Z then scan_down fuel (j - 1)%Z else sret ((j - 1)%Z, right_cmp)
  end.

Fixpoint partition_loop (fuel to i : nat) (j : Z) (p : nat) (q : Z) : ST S (Z * nat * Z) :=
  match fuel with
  | O => slift OutOfFuel
  | Datatypes.S fuel =>
      let* (i, left_cmp) := scan_up (to - i) i in
      let* (j, right_cmp) := scan_down (to + 1) j in
      let* v := slift (to_i32 i) in
      if (j <=? v)%Z then
        let* _ := (if (v =? j)%Z && (right_cmp =? 0)%Z then swap i p else sret tt) in
        sret (j, p, q)
      else
        let* n := slift (to_usize j) in
        let* _ := swap i n in
        let* p := (if (right_cmp =? 0)%Z then let* _ := swap i p in sret (p + 1) else sret p) in
        let* q := (if (left_cmp =? 0)%Z then
                     let* n := slift (to_usize j) in
                     let* m := slift (to_usize q) in
                     let* _ := swap n m in sret (q - 1)%Z
                   else sret q) in
        partition_loop fuel to i j p q
  end.

(** [for l in from..p { swap(l, j.try_convert()?)?; j -= 1 }], [n] turns left. *)
Fixpoint gather_left (n l : nat) (j : Z) : ST S Z :=
  match n with
  | O => sret j
  | Datatypes.S n =>
      let* m := slift (to_usize j) in
      let* _ := swap l m in
      gather_left n (l + 1) (j - 1)%Z
  end.

(** [for l in last..q.try_convert()? { swap(l, i)?; i += 1 }]: an ascending range. *)
Fixpoint gather_right (n l i : nat) : ST S nat :=
  match n with
  | O => sret i
  | Datatypes.S n => let* _ := swap l i in gather_right n (l + 1) (i + 1)
  end.

(** One turn of the loop: the last slot of the left part and the first of the right part. *)
Definition partition (from to k : nat) : ST S (Z * nat) :=
  let last := to - 1 in
  let* pivot := select_pivot from to k in
  let* _ := set_pivot pivot in
  let* _ := swap from pivot in
  let* (j, p, q) := partition_loop (to - from) to from (as_i32 (Z.of_nat to)) (from + 1) (as_i32 (Z.of_nat last)) in
  let* i := slift (to_usize (j + 1)) in
  let* j := gather_left (p - from) from j in
  let* q := slift (to_usize q) in
  let* i := gather_right (q - last) last i in
  sret (j, i).

Fixpoint select_loop (fuel from to k : nat) (max_depth : Z) : ST S unit :=
  match fuel with
  | O => slift OutOfFuel
  | Datatypes.S fuel =>
      let* _ := slift (debug_assert (from <=? to)) in
      let size := to - from in
      if 3 <? size then
        let max_depth := (max_depth - 1)%Z in
        let* _ := (if (max_depth =? -1)%Z then shuffle from to else sret tt) in
        let* (j, i) := partition from to k in
        let* v := slift (to_i32 k) in
        if (v <=? j)%Z then
          let* to := slift (to_usize (j + 1)) in
          select_loop fuel from to k max_depth
        else if i <=? k then select_loop fuel i to k max_depth
        else sret tt
      else if size =? 2 then
        let* c := compare from (from + 1) in
        if (0 <? c)%Z then swap from (from + 1) else sret tt
      else if size =? 3 then sort3 from
      else sret tt
  end.

Definition check_args (from to k : nat) : result unit :=
  if k <? from then Err IllegalArgument
  else if to <=? k then Err IllegalArgument
  else Ok tt.

(** [Selector::select] of [IntroSelector]. *)
Definition select (from to k : nat) : ST S unit :=
  let* _ := slift (check_args from to k) in
  let max_depth := (2 * Z.of_nat (Nat.log2 (to - from)))%Z in
  select_loop (Datatypes.S (to - from)) from to k max_depth.
End Operations.
End IntroSelector.

Module SelectorProofs.
Import IntroSorter IntroProofs.

(** The loops of the selector are those of the sorter with some positions as [i32]. *)
Section Refinement.
Context {S : Type} `{Sorter S}.
Implicit Types s : S.

Lemma to_usize_of_nat n : IntroSelector.to_usize (Z.of_nat n) = Ok n.
Proof. unfold IntroSelector.to_usize. destruct (Z.ltb_spec (Z.of_nat n) 0); [lia|]. by rewrite Nat2Z.id. Qed.

Lemma scan_up_bound fuel : forall i i' c s s', scan_up fuel i s = (Ok (i', c), s') -> i < i' <= i + fuel.
Proof.
  induction fuel as [|fuel IH]; intros i i' c s s'; cbn [scan_up]; [done|]. intros (d & s1 & _ & Hk)%sbind_inv.
  destruct (0 <? d)%Z; [apply IH in Hk; lia|]. injection Hk as <- _ _. lia.
Qed.

Lemma scan_down_refines j : forall fuel j' c s s', IntroSorter.scan_down j s = (Ok (j', c), s') -> j <= fuel ->
  IntroSelector.scan_down fuel (Z.of_nat j) s = (Ok (Z.of_nat j', c), s') /\ j' < j.
Proof.
  induction j as [|j IH]; intros fuel j' c s s' Hr Hf; [done|]. destruct fuel as [|fuel]; [lia|].
  cbn [IntroSorter.scan_down] in Hr. cbn [IntroSelector.scan_down]. rewrite slift_sbind, to_usize_of_nat. cbn beta iota.
  rewrite slift_sbind. cbn [Nat.leb debug_assert]. cbn beta iota. replace (Datatypes.S j - 1) with j by lia.
  apply sbind_inv in Hr as (d & s1 & Hc & Hk). rewrite (sbind_ok _ _ _ _ _ Hc).
  replace (Z.of_nat (Datatypes.S j) - 1)%Z with (Z.of_nat j) by lia. destruct (d <? 0)%Z.
  - destruct (IH fuel j' c s1 s' Hk) as [Hs Hl]; [lia|]. split; [done|lia].
  - injection Hk as <- <- <-. split; [done|lia].
Qed.

Lemma partition_loop_refines fuel to : (Z.of_nat to <= i32_MAX)%Z -> forall i j p q j' p' q' s s',
  IntroSorter.partition_loop fuel to i j p q s = (Ok (j', p', q'), s') -> i <= to -> j <= to ->
  IntroSelector.partition_loop fuel to i (Z.of_nat j) p (Z.of_nat q) s = (Ok (Z.of_nat j', p', Z.of_nat q'), s').
Proof.
  intros Hmax. induction fuel as [|fuel IH]; intros i j p q j' p' q' s s'; [done|].
  cbn [IntroSorter.partition_loop IntroSelector.partition_loop]. intros ([i1 c1] & s1 & Hup & Hk)%sbind_inv Hi Hj.
  rewrite (sbind_ok _ _ _ _ _ Hup). apply scan_up_bound in Hup. apply sbind_inv in Hk as ([j1 c2] & s2 & Hdown & Hk).
  destruct (scan_down_refines j (to + 1) j1 c2 s1 s2 Hdown) as [Hd Hj1]; [lia|]. rewrite (sbind_ok _ _ _ _ _ Hd).
  rewrite slift_sbind. unfold IntroSelector.to_i32. destruct (Z.leb_spec (Z.of_nat i1) i32_MAX); [|lia]. cbn beta iota.
  replace (Z.of_nat j1 <=? Z.of_nat i1)%Z with (j1 <=? i1) by (destruct (Nat.leb_spec j1 i1), (Z.leb_spec (Z.of_nat j1) (Z.of_nat i1)); lia).
  destruct (j1 <=? i1).
  - replace (Z.of_nat i1 =? Z.of_nat j1)%Z with (i1 =? j1)
      by (destruct (Nat.eqb_spec i1 j1), (Z.eqb_spec (Z.of_nat i1) (Z.of_nat j1)); lia).
    apply sbind_inv in Hk as ([] & s3 & Hw & Hr). rewrite (sbind_ok _ _ _ _ _ Hw). by injection Hr as <- <- <- <-.
  - rewrite slift_sbind, to_usize_of_nat. cbn beta iota.
    apply sbind_inv in Hk as ([] & s3 & Hw & Hk). rewrite (sbind_ok _ _ _ _ _ Hw).
    apply sbind_inv in Hk as (p1 & s4 & Hp & Hk). rewrite (sbind_ok _ _ _ _ _ Hp).
    apply sbind_inv in Hk as (q1 & s5 & Hq & Hk).
    rewrite (sbind_ok _ _ _ (Z.of_nat q1) s5); [apply IH; auto; lia|]. destruct (c1 =? 0)%Z; [|by injection Hq as <- <-].
    rewrite slift_sbind, to_usize_of_nat. cbn beta iota. rewrite slift_sbind.
    apply sbind_inv in Hq as ([] & s6 & Hw2 & Hq). rewrite (sbind_ok _ _ _ _ _ Hw2). destruct q as [|q]; [done|].
    injection Hq as <- <-. unfold sret. do 2 f_equal. lia.
Qed.

Lemma gather_left_refines n : forall l e r s s', IntroSorter.gather_left n l e s = (Ok r, s') ->
  IntroSelector.gather_left n l (Z.of_nat e - 1) s = (Ok (Z.of_nat r - 1)%Z, s').
Proof.
  induction n as [|n IH]; intros l e r s s'; cbn [IntroSorter.gather_left IntroSelector.gather_left].
  { by intros [= <- <-]. }
  destruct e as [|e]; [done|]. replace (Z.of_nat (Datatypes.S e) - 1)%Z with (Z.of_nat e) by lia.
  intros ([] & s1 & Hw & Hk)%sbind_inv. rewrite slift_sbind, to_usize_of_nat. cbn beta iota.
  rewrite (sbind_ok _ _ _ _ _ Hw). by apply IH.
Qed.
End Refinement.

Section SelectorProofs.
Context {S T : Type} (cmp : T -> T -> Z) `{SS : SorterSpec S T cmp} `{PK : !PivotKept S cmp} {CO : CmpOrder cmp}.
Context (random_range : nat -> nat -> nat) (random_in : forall from i, from <= i -> from <= random_range from i <= i).
Implicit Types (P M Q : list T) (s : S).

Abbreviation le := (SorterProofs.le cmp).
Abbreviation lt := (SorterProofs.lt cmp).
Abbreviation eqv := (SorterProofs.eqv cmp).
Abbreviation sorted := (StronglySorted le).
Abbreviation yields := (SorterProofs.yields cmp).

(** Another slot holds nothing less than slot [m]. *)
Definition has_above M (m : nat) : Prop := exists y a b, y <> m /\ M !! m = Some a /\ M !! y = Some b /\ le a b.

Lemma compare_at P M Q s i j : slots s = P ++ M ++ Q -> i < length M -> j < length M ->
  exists c s', compare (length P + i) (length P + j) s = (Ok c, s') /\ slots s' = P ++ M ++ Q.
Proof.
  intros Hs Hi Hj. destruct (lookup_lt_is_Some_2 M i Hi) as [a Ha]. destruct (lookup_lt_is_Some_2 M j Hj) as [b Hb].
  destruct (compare_block cmp P M Q s i j a b Hs Ha Hb) as (s' & Hc & Hs'). eauto.
Qed.

(** A choice among three slots is one of them. *)
Lemma choice_ok P M Q s i j k f : f = @IntroSelector.min3 S _ \/ f = @IntroSelector.max3 S _ ->
  slots s = P ++ M ++ Q -> i < length M -> j < length M -> k < length M ->
  exists m, yields (f (length P + i) (length P + j) (length P + k)) s (length P + m) (P ++ M ++ Q) /\ (m = i \/ m = j \/ m = k).
Proof.
  intros Hf Hs Hi Hj Hk. destruct (compare_at P M Q s i j Hs Hi Hj) as (c1 & s1 & H1 & Hs1).
  destruct (compare_at P M Q s1 i k Hs1 Hi Hk) as (c2 & s2 & H2 & Hs2).
  destruct (compare_at P M Q s1 j k Hs1 Hj Hk) as (c3 & s3 & H3 & Hs3).
  destruct Hf as [-> | ->]; unfold IntroSelector.min3, IntroSelector.max3, SorterProofs.yields;
    rewrite (sbind_ok _ _ _ _ _ H1); destruct (c1 <=? 0)%Z;
    first [rewrite (sbind_ok _ _ _ _ _ H2)|rewrite (sbind_ok _ _ _ _ _ H3)]; unfold sret; case_match; eauto 8.
Qed.

Lemma select_pivot_above P M Q s k : slots s = P ++ M ++ Q -> 3 < length M ->
  exists r, yields (IntroSelector.select_pivot (length P) (length P + length M) k) s (length P + r) (P ++ M ++ Q)
    /\ has_above M r.
Proof.
  intros Hs Hn. unfold IntroSelector.select_pivot, SINGLE_MEDIAN_THRESHOLD.
  remember (length M) as n eqn:En. replace (length P + n - length P) with n by lia.
  replace (length P + (length P + n - 1)) with (length P + (length P + (n - 1))) by lia. rewrite half_middle.
  pose proof (div_bounds (n - 1) 2 ltac:(lia)) as Hm.
  set (m := (n - 1) / 2) in *. clearbody m. destruct (Nat.leb_spec n 40) as [Hsmall|Hbig].
  - pose proof (div_bounds n 4 ltac:(lia)) as Hr. set (r := n / 4) in *. clearbody r.
    destruct (median_ok cmp P M Q s (m - r) m (m + r)) as (i & y & a & b & Hy & Hi & Hy' & Hne & Ha & Hb & Hle); auto; try lia.
    exists i. split; [|by exists y, a, b]. by replace (length P + m - r) with (length P + (m - r)) by lia; rewrite <- Nat.add_assoc.
  - pose proof (div_bounds n 8 ltac:(lia)) as Hr. set (r := n / 8) in *. clearbody r.
    destruct (median_ok cmp P M Q s 0 r (r * 2)) as (k1 & y1 & a1 & b1 & (s1 & Hy1 & Hs1) & Hk1 & _ & Hne1 & Ha1 & Hb1 & Hle1); auto; try lia.
    destruct (median_ok cmp P M Q s1 (m - r) m (m + r)) as (k2 & y2 & a2 & b2 & (s2 & Hy2 & Hs2) & Hk2 & _ & Hne2 & Ha2 & Hb2 & Hle2); auto; try lia.
    destruct (median_ok cmp P M Q s2 (n - 1 - r * 2) (n - 1 - r) (n - 1)) as (k3 & y3 & a3 & b3 & (s3 & Hy3 & Hs3) & Hk3 & _ & Hne3 & Ha3 & Hb3 & Hle3); auto; try lia.
    assert (Hany : forall x, x = k1 \/ x = k2 \/ x = k3 -> has_above M x).
    { intros x [-> | [-> | ->]]; [by exists y1, a1, b1|by exists y2, a2, b2|by exists y3, a3, b3]. }
    assert (Hlt : k1 < length M /\ k2 < length M /\ k3 < length M) by (split_and!; by eapply lookup_lt_Some).
    replace (length P + m - r) with (length P + (m - r)) by lia. rewrite <- (Nat.add_assoc _ m r).
    replace (length P + n - 1 - r * 2) with (length P + (n - 1 - r * 2)) by lia.
    replace (length P + n - 1 - r) with (length P + (n - 1 - r)) by lia.
    replace (length P + n - 1) with (length P + (n - 1)) by lia. rewrite Nat.add_0_r in Hy1.
    unfold SorterProofs.yields. rewrite (sbind_ok _ _ _ _ _ Hy1), (sbind_ok _ _ _ _ _ Hy2), (sbind_ok _ _ _ _ _ Hy3).
    destruct (k - length P <? r); [|destruct (length P + n - k <=? r)].
    + destruct (choice_ok P M Q s3 k1 k2 k3 IntroSelector.min3) as (x & Hx & Hin); auto; try tauto. eauto.
    + destruct (choice_ok P M Q s3 k1 k2 k3 IntroSelector.max3) as (x & Hx & Hin); auto; try tauto. eauto.
    + destruct (median_ok cmp P M Q s3 k1 k2 k3) as (x & y & a & b & Hx & Hin & _); auto; try tauto; try lia. eauto.
Qed.
(** Slot [k] holds the element a sort would put there, up to equal ones. *)
Definition selected M (k : nat) : Prop := exists A x C, M = A ++ x :: C /\ length A = k
  /\ (forall a, a ∈ A -> le a x) /\ (forall c, c ∈ C -> le x c).

Lemma sorted_selected M k : sorted M -> k < length M -> selected M k.
Proof.
  intros HM Hk. destruct (lookup_lt_is_Some_2 M k Hk) as [x Hx]. pose proof (take_drop_middle M k x Hx) as E.
  exists (take k M), x, (drop (Datatypes.S k) M). rewrite <- E in HM. apply sorted_app in HM as (_ & Hx2 & Hb).
  split_and!; [done|rewrite length_take; lia| |].
  - intros a Ha. apply Hb; [done|left].
  - inversion Hx2 as [|? ? _ Hf]; subst. intros c Hc. by eapply Forall_forall.
Qed.

Lemma shuffle_loop_ok P Q n : forall M s, slots s = P ++ M ++ Q -> n <= length M ->
  exists M', yields (IntroSelector.shuffle_loop random_range n (length P)) s tt (P ++ M' ++ Q) /\ M' ≡ₚ M.
Proof.
  induction n as [|n IH]; intros M s Hs Hn; [exists M; split; [by apply yields_done|done]|].
  cbn [IntroSelector.shuffle_loop]. pose proof (random_in (length P) (length P + n) ltac:(lia)) as Hr.
  remember (random_range (length P) (length P + n) - length P) as j eqn:Hj.
  replace (random_range (length P) (length P + n)) with (length P + j) by lia.
  destruct (swap_block cmp P M Q s n j Hs) as (s1 & Hw & Hs1); [lia|lia|].
  destruct (IH (exch M n j) s1 Hs1) as (M' & (s2 & Hy & Hs2) & Hp); [rewrite length_exch; lia|].
  exists M'. split; [exists s2; by rewrite (sbind_ok _ _ _ _ _ Hw)|]. by rewrite Hp, exch_perm.
Qed.

Lemma partition_selects P M Q s k : slots s = P ++ M ++ Q -> 3 < length M ->
  (Z.of_nat (length P + length M) <= i32_MAX)%Z ->
  exists A E C v, yields (IntroSelector.partition (length P) (length P + length M) k) s
      ((Z.of_nat (length P + length A) - 1)%Z, length P + length A + length E) (P ++ (A ++ E ++ C) ++ Q)
    /\ A ++ E ++ C ≡ₚ M /\ (forall a, a ∈ A -> le a v) /\ (forall a, a ∈ E -> eqv v a) /\ (forall a, a ∈ C -> le v a)
    /\ length A < length M /\ length C < length M.
Proof.
  intros Hs Hn Hmax. destruct (select_pivot_above P M Q s k Hs Hn) as (r & (s1 & Hy1 & Hs1) & x & v & b & Hxr & Hv & Hb & Hvb).
  pose proof (lookup_lt_Some _ _ _ Hv) as Hr.
  destruct (set_pivot_law s1 (length P + r) v) as (s2 & Hy2 & Hs2 & Hp2); [rewrite Hs1; by apply at_offset|].
  destruct (swap_kept cmp P M Q s2 v 0 r) as (s3 & Hy3 & Hh3); [by split; [rewrite Hs2|]|lia|lia|].
  destruct (pivot_placed cmp M r x v b) as (Hpart & y & Hy & Hyb); auto.
  destruct (partition_loop_ok cmp P Q v (length M) (exch M 0 r) 0 (length M) 1 (length M - 1) s3 y b) as
    (M2 & j & p & q & s4 & Hy4 & [Hs4 _] & Hsplit & Hperm2); auto; [lia|].
  pose proof (Permutation_length Hperm2) as Hlen. rewrite length_exch in Hy4, Hlen. destruct Hsplit as [Hp Hq Hlow Hhigh Heql Heqr].
  destruct (gather_left_ok cmp P M2 Q (j + 1) p 0 s4) as (s5 & Hy5 & Hs5); [done|lia|lia|].
  apply partition_loop_refines in Hy4; [|done|lia|lia]. apply gather_left_refines in Hy5.
  cbn [Nat.add] in Hs5, Hy5. remember (flips M2 0 (j + 1) p) as M3 eqn:HM3.
  assert (Hlen3 : length M3 = length M) by (rewrite HM3, length_flips; lia).
  exists (take (j + 1 - p) M3), (take (j + 1 - (j + 1 - p)) (drop (j + 1 - p) M3)), (drop (j + 1) M3), v.
  rewrite three_parts, !length_take, !length_drop by lia. split_and!; try lia.
  - exists s5. split; [|done].
    unfold IntroSelector.partition. rewrite (sbind_ok _ _ _ _ _ Hy1), (sbind_ok _ _ _ _ _ Hy2).
    rewrite Nat.add_0_r in Hy3. rewrite (sbind_ok _ _ _ _ _ Hy3). unfold i32_MAX in Hmax.
    rewrite !wrap_s_id by (unfold in_s; lia). replace (length P + length M - length P) with (length M) by lia.
    replace (length P + length M - 1) with (length P + (length M - 1)) by lia. rewrite Nat.add_0_r in Hy4.
    rewrite (sbind_ok _ _ _ _ _ Hy4). cbn beta iota. replace (length P + p - length P) with p by lia.
    replace (Z.of_nat (length P + j) + 1)%Z with (Z.of_nat (length P + (j + 1))) by lia.
    rewrite slift_sbind, to_usize_of_nat. cbn beta iota. rewrite Nat.sub_0_r, Nat.add_0_r in Hy5.
    replace (Z.of_nat (length P + j)) with (Z.of_nat (length P + (j + 1)) - 1)%Z by lia.
    rewrite (sbind_ok _ _ _ _ _ Hy5), slift_sbind, to_usize_of_nat. cbn beta iota.
    replace (length P + q - (length P + (length M - 1))) with 0 by lia. cbn. unfold sret. do 3 f_equal; lia.
  - rewrite HM3, flips_perm, Hperm2. apply exch_perm.
  - intros a Ha. apply (range_elem M3 0 (j + 1 - p) (fun a => le a v)); [|by rewrite Nat.sub_0_r].
    rewrite HM3. intros m c Hm Hc. refine (flips_inside M2 0 (j + 1) p (fun a => le a v) _ _ Hlow m c _ Hc); lia.
  - intros a Ha. apply (range_elem M3 (j + 1 - p) (j + 1) (eqv v)); [|done]. rewrite HM3. apply flips_front; [lia|lia|done].
  - intros a Ha. apply (range_elem M3 (j + 1) (length M3) (fun a => le v a)).
    + rewrite HM3, length_flips. apply flips_outside; [lia|lia|lia|done].
    + rewrite take_ge; [done|]. rewrite length_drop. lia.
Qed.
(** A comparison followed by a conditional exchange, on explicit slots. *)
Lemma compare_slots s l i j a b : slots s = l -> l !! i = Some a -> l !! j = Some b ->
  exists s', compare i j s = (Ok (cmp a b), s') /\ slots s' = l.
Proof. intros <- Ha Hb. by apply compare_law. Qed.

Lemma at_2 P a b c Q : let l := P ++ [a; b; c] ++ Q in
  l !! length P = Some a /\ l !! (length P + 1) = Some b /\ l !! (length P + 2) = Some c.
Proof.
  cbn. split_and!; [by apply lookup_mid| |].
  - replace (P ++ a :: b :: c :: Q) with ((P ++ [a]) ++ b :: c :: Q) by (by rewrite <- app_assoc).
    apply lookup_mid. rewrite length_app. done.
  - replace (P ++ a :: b :: c :: Q) with ((P ++ [a; b]) ++ c :: Q) by (by rewrite <- app_assoc).
    apply lookup_mid. rewrite length_app. done.
Qed.

Lemma sorted_3 a b c : le a b -> le b c -> sorted [a; b; c].
Proof. intros Hab Hbc. repeat constructor; auto. by apply le_trans_ with b. Qed.

Lemma sort3_ok P a b c Q s : slots s = P ++ [a; b; c] ++ Q ->
  exists M, yields (IntroSelector.sort3 (length P)) s tt (P ++ M ++ Q) /\ sorted M /\ M ≡ₚ [a; b; c].
Proof.
  intros Hs. unfold IntroSelector.sort3.
  assert (Hcmp : forall x y z s0, slots s0 = P ++ [x; y; z] ++ Q ->
    (exists s', compare (length P) (length P + 1) s0 = (Ok (cmp x y), s') /\ slots s' = P ++ [x; y; z] ++ Q) /\
    (exists s', compare (length P + 1) (length P + 2) s0 = (Ok (cmp y z), s') /\ slots s' = P ++ [x; y; z] ++ Q)).
  { intros x y z s0 Hs0. destruct (at_2 P x y z Q) as (H1 & H2 & H3). split; by apply compare_slots. }
  assert (Hswap : forall x y z s0, slots s0 = P ++ [x; y; z] ++ Q ->
    yields (swap (length P) (length P + 1)) s0 tt (P ++ [y; x; z] ++ Q) /\
    yields (swap (length P + 1) (length P + 2)) s0 tt (P ++ [x; z; y] ++ Q) /\
    yields (swap (length P) (length P + 2)) s0 tt (P ++ [z; y; x] ++ Q)).
  { intros x y z s0 Hs0. split_and!.
    - apply (swap_two cmp s0 P x [] y (z :: Q)); [done|done|simpl; lia].
    - replace (P ++ [x; z; y] ++ Q) with ((P ++ [x]) ++ z :: [] ++ y :: Q) by (by rewrite <- app_assoc).
      apply (swap_two cmp s0 (P ++ [x]) y [] z Q); rewrite ?length_app; [by rewrite Hs0, <- app_assoc|done|simpl; lia].
    - apply (swap_two cmp s0 P x [y] z Q); [done|done|simpl; lia]. }
  destruct (Hcmp a b c s Hs) as [(s1 & Hc1 & Hs1) _]. destruct (Hcmp a b c s1 Hs1) as [_ (s2 & Hc2 & Hs2)].
  unfold SorterProofs.yields. rewrite (sbind_ok _ _ _ _ _ Hc1). destruct (Z.leb_spec (cmp a b) 0) as [Hab|Hab]; rewrite (sbind_ok _ _ _ _ _ Hc2).
  - destruct (Z.ltb_spec 0 (cmp b c)) as [Hbc|Hbc].
    2: { exists [a; b; c]. split; [by exists s2|]. split; [by apply sorted_3|done]. }
    destruct (Hswap a b c s2 Hs2) as (_ & (s3 & Hw & Hs3) & _). rewrite (sbind_ok _ _ _ _ _ Hw).
    destruct (Hcmp a c b s3 Hs3) as [(s4 & Hc4 & Hs4) _]. rewrite (sbind_ok _ _ _ _ _ Hc4).
    assert (Hcb : le c b) by (apply cmp_ge_le; [done|lia]). destruct (Z.ltb_spec 0 (cmp a c)) as [Hac|Hac].
    + destruct (Hswap a c b s4 Hs4) as ((s5 & Hw5 & Hs5) & _). exists [c; a; b]. split; [by exists s5|]. split.
      * apply sorted_3; [|done]. apply cmp_ge_le; [done|lia].
      * apply (Permutation_app_comm [c] [a; b]).
    + exists [a; c; b]. split; [by exists s4|]. split; [by apply sorted_3|]. apply perm_skip, perm_swap.
  - assert (Hba : le b a) by (apply cmp_ge_le; [done|lia]). destruct (Z.leb_spec 0 (cmp b c)) as [Hbc|Hbc].
    + destruct (Hswap a b c s2 Hs2) as (_ & _ & (s3 & Hw & Hs3)). exists [c; b; a]. split; [by exists s3|]. split.
      * apply sorted_3; [by apply cmp_ge_le|done].
      * symmetry. apply (Permutation_rev [a; b; c]).
    + destruct (Hswap a b c s2 Hs2) as ((s3 & Hw & Hs3) & _). rewrite (sbind_ok _ _ _ _ _ Hw).
      destruct (Hcmp b a c s3 Hs3) as [_ (s4 & Hc4 & Hs4)]. rewrite (sbind_ok _ _ _ _ _ Hc4).
      destruct (Z.ltb_spec 0 (cmp a c)) as [Hac|Hac].
      * destruct (Hswap b a c s4 Hs4) as (_ & (s5 & Hw5 & Hs5) & _). exists [b; c; a]. split; [by exists s5|]. split.
        { apply sorted_3; [by apply cmp_lt_le|]. apply cmp_ge_le; [done|lia]. }
        { apply (Permutation_app_comm [b; c] [a]). }
      * exists [b; a; c]. split; [by exists s4|]. split; [by apply sorted_3|]. apply perm_swap.
Qed.
(** The small cases sort. *)
Lemma small_select P M Q s : slots s = P ++ M ++ Q -> length M <= 3 -> M <> [] ->
  exists M', yields (if length M =? 2 then let* c := compare (length P) (length P + 1) in
      if (0 <? c)%Z then swap (length P) (length P + 1) else sret tt
    else if length M =? 3 then IntroSelector.sort3 (length P) else sret tt) s tt (P ++ M' ++ Q) /\ sorted M' /\ M' ≡ₚ M.
Proof.
  intros Hs Hl Hne. destruct M as [|a [|b [|c [|]]]]; simpl in Hl; try done; try lia; cbn [length Nat.eqb].
  - exists [a]. split; [by apply yields_done|]. split; [repeat constructor|done].
  - destruct (compare_slots s (P ++ [a; b] ++ Q) (length P) (length P + 1) a b Hs) as (s1 & Hc & Hs1).
    { by apply lookup_mid. } { change ([a; b] ++ Q) with ([a] ++ b :: Q). rewrite app_assoc. apply lookup_mid. by rewrite length_app. }
    unfold SorterProofs.yields. rewrite (sbind_ok _ _ _ _ _ Hc). destruct (Z.ltb_spec 0 (cmp a b)) as [Hab|Hab].
    + exists [b; a]. split; [apply (swap_two cmp s1 P a [] b Q); [done|done|simpl; lia]|]. split; [|apply perm_swap].
      repeat constructor. apply cmp_ge_le; [done|lia].
    + exists [a; b]. split; [by exists s1|]. split; [|done]. by repeat constructor.
  - by apply sort3_ok.
Qed.

(** The part that holds slot [k] is selected in; the others are on their side of it. *)
Lemma selected_left A E C v k : selected A k -> (forall a, a ∈ A -> le a v) -> (forall a, a ∈ E -> eqv v a) ->
  (forall a, a ∈ C -> le v a) -> selected (A ++ E ++ C) k.
Proof.
  intros (A0 & x & A1 & -> & Hl & H0 & H1) HA HE HC. exists A0, x, (A1 ++ E ++ C). split_and!; auto; [by rewrite <- app_assoc|].
  assert (le x v) by (apply HA, elem_of_app; right; left).
  intros c [Hc|[Hc|Hc]%elem_of_app]%elem_of_app; [by apply H1|apply le_trans_ with v; auto; by apply HE|apply le_trans_ with v; auto].
Qed.

Lemma selected_right A E C v k : selected C k -> (forall a, a ∈ A -> le a v) -> (forall a, a ∈ E -> eqv v a) ->
  (forall a, a ∈ C -> le v a) -> selected (A ++ E ++ C) (length A + length E + k).
Proof.
  intros (C0 & x & C1 & -> & Hl & H0 & H1) HA HE HC. exists (A ++ E ++ C0), x, C1.
  split_and!; auto; [by rewrite <- !app_assoc|rewrite !length_app; lia|].
  assert (le v x) by (apply HC, elem_of_app; right; left).
  intros c [Hc|[Hc|Hc]%elem_of_app]%elem_of_app; [apply le_trans_ with v; auto|apply le_trans_ with v; auto; by apply HE|by apply H0].
Qed.

Lemma selected_middle A E C v k : length A <= k < length A + length E -> (forall a, a ∈ A -> le a v) ->
  (forall a, a ∈ E -> eqv v a) -> (forall a, a ∈ C -> le v a) -> selected (A ++ E ++ C) k.
Proof.
  intros Hk HA HE HC. destruct (lookup_lt_is_Some_2 E (k - length A)) as [x Hx]; [lia|].
  assert (Hxe : eqv v x) by (apply HE; by eapply list_elem_of_lookup_2). destruct Hxe as [Hvx Hxv].
  pose proof (take_drop_middle E (k - length A) x Hx) as HEq.
  exists (A ++ take (k - length A) E), x, (drop (Datatypes.S (k - length A)) E ++ C). split_and!.
  - rewrite <- HEq at 1. by rewrite <- !app_assoc.
  - rewrite length_app, length_take. lia.
  - intros a [Ha|Ha]%elem_of_app; [apply le_trans_ with v; auto|]. apply le_trans_ with v; [done| |done].
    apply HE. rewrite <- HEq. apply elem_of_app. by left.
  - intros a [Ha|Ha]%elem_of_app; [|apply le_trans_ with v; auto]. apply le_trans_ with v; [done|done|].
    apply HE. rewrite <- HEq. apply elem_of_app. right. by right.
Qed.

Lemma select_loop_ok k fuel : forall d P M Q s from to, length M < fuel -> slots s = P ++ M ++ Q ->
  from = length P -> to = length P + length M -> from <= k < to -> (Z.of_nat to <= i32_MAX)%Z ->
  exists M', yields (IntroSelector.select_loop random_range fuel from to k d) s tt (P ++ M' ++ Q)
    /\ selected M' (k - length P) /\ M' ≡ₚ M.
Proof.
  induction fuel as [|fuel IH]; intros d P M Q s from to Hf Hs -> -> Hk Hmax; [lia|]. cbn [IntroSelector.select_loop].
  destruct (Nat.leb_spec (length P) (length P + length M)) as [_|]; [|lia]. cbn [debug_assert].
  eapply (yields_bind_ex cmp _ _ _ tt (P ++ M ++ Q) tt (fun M => P ++ M ++ Q)); [by exists s|]. intros s0 Hs0. clear s Hs.
  replace (length P + length M - length P) with (length M) by lia.
  destruct (Nat.ltb_spec 3 (length M)) as [Hbig|Hsmall].
  2: { destruct (small_select P M Q s0 Hs0 Hsmall) as (M' & Hy & HM' & Hp); [intros ->; simpl in Hk; lia|].
       exists M'. split; [done|]. split; [|done]. apply sorted_selected; [done|]. rewrite (Permutation_length Hp). lia. }
  assert (Hsh : exists M0, yields (if (d - 1 =? -1)%Z then IntroSelector.shuffle random_range (length P) (length P + length M)
    else sret tt) s0 tt (P ++ M0 ++ Q) /\ M0 ≡ₚ M).
  { destruct (d - 1 =? -1)%Z; [|exists M; split; [by apply yields_done|done]].
    apply shuffle_loop_ok; [done|lia]. }
  destruct Hsh as (M0 & Hsh & Hp0). pose proof (Permutation_length Hp0) as Hl0. rewrite <- Hl0 in *.
  eapply (yields_bind_ex cmp _ _ _ _ _ tt (fun M => P ++ M ++ Q)); [exact Hsh|]. intros s1 Hs1.
  destruct (partition_selects P M0 Q s1 k Hs1 Hbig Hmax) as (A & E & C & v & Hy & Hperm & HA & HE & HC & HlA & HlC).
  eapply (yields_bind_ex cmp _ _ _ _ _ tt (fun M => P ++ M ++ Q)); [exact Hy|]. intros s2 Hs2. cbn beta iota.
  assert (Hlen : length M0 = length A + length E + length C) by (rewrite <- (Permutation_length Hperm), !length_app; lia).
  eapply (yields_bind_ex cmp _ _ _ (Z.of_nat k) _ tt (fun M => P ++ M ++ Q)).
  { exists s2. unfold IntroSelector.to_i32, slift. destruct (Z.leb_spec (Z.of_nat k) i32_MAX); [done|lia]. }
  intros s3 Hs3. destruct (Z.leb_spec (Z.of_nat k) (Z.of_nat (length P + length A) - 1)) as [HkA|HkA].
  - replace (Z.of_nat (length P + length A) - 1 + 1)%Z with (Z.of_nat (length P + length A)) by lia. rewrite to_usize_of_nat.
    eapply (yields_bind_ex cmp _ _ _ (length P + length A) _ tt (fun M => P ++ M ++ Q)); [by exists s3|]. intros s4 Hs4.
    destruct (IH (d - 1)%Z P A ((E ++ C) ++ Q) s4 (length P) (length P + length A)) as (A' & Hy' & Hsel & HpA);
      [lia|by rewrite Hs4, <- !app_assoc|done|done|lia|lia|].
    exists (A' ++ E ++ C). split_and!; [rewrite <- !app_assoc in Hy'; by rewrite <- !app_assoc| |by rewrite HpA, Hperm].
    apply selected_left with v; auto. intros a Ha. rewrite HpA in Ha. by apply HA.
  - destruct (Nat.leb_spec (length P + length A + length E) k) as [HkC|HkC].
    + destruct (IH (d - 1)%Z (P ++ A ++ E) C Q s3 (length P + length A + length E) (length P + length M0)) as (C' & Hy' & Hsel & HpC);
        [lia|by rewrite Hs3, <- !app_assoc|rewrite !length_app; lia|rewrite !length_app; lia|lia|done|].
      exists (A ++ E ++ C'). split_and!; [rewrite <- !app_assoc in Hy'; by rewrite <- !app_assoc| |by rewrite HpC, Hperm].
      rewrite !length_app in Hsel. replace (k - length P) with (length A + length E + (k - (length P + (length A + length E)))) by lia.
      apply selected_right with v; auto. intros a Ha. rewrite HpC in Ha. by apply HC.
    + exists (A ++ E ++ C). split_and!; [by apply yields_done| |by rewrite Hperm].
      apply selected_middle with v; auto. lia.
Qed.
End SelectorProofs.

End SelectorProofs.

(** * [ArrayUtil::select] *)
Module ArraySelect.
Import ArrayIntroSorter IntroSorter IntroProofs SelectorProofs.

(** [IntroSelectorImpl]: an array with the index of its pivot. [compare] is the default of
    [IntroSelectorBaseDefault], which moves the pivot. *)
Definition selector_impl {T : Type} (comparator : T -> T -> result Z) : Sorter (t T) := {|
  compare i j := let* _ := set_pivot_ i in compare_pivot_ comparator j;
  swap := swap_;
  set_pivot := set_pivot_;
  compare_pivot := compare_pivot_ comparator
|}.

Definition select {T : Type} (random_range : nat -> nat -> nat) (comparator : T -> T -> result Z)
    (arr : list T) (from to k : nat) : result unit * list T :=
  let (r, s) := IntroSelector.select (H := selector_impl comparator) random_range from to k (new arr) in
  (r, ArrayIntroSorter.arr s).

Section Proofs.
Context {T : Type} (cmp : T -> T -> Z) (comparator : T -> T -> result Z).
Hypothesis comparator_total : forall a b, comparator a b = Ok (cmp a b).

#[local] Instance the_selector : Sorter (t T) := selector_impl comparator.

#[local] Instance selector_spec : SorterSpec (t T) cmp.
Proof.
  refine {| slots := arr; pivot_is s p := arr s !! pivot s = Some p |}.
  - intros s i j a b Ha Hb. exists (mk (arr s) i). split; [|done]. cbn. unfold sbind, set_pivot_, compare_pivot_, compare_. cbn.
    by rewrite Ha, Hb, comparator_total.
  - intros s i j a b Ha Hb. cbn. unfold swap_. rewrite Ha, Hb. by eexists.
  - intros s i a Ha. by exists (mk (arr s) i).
  - intros s j p b Hp Hb. exists s. split; [|done]. cbn. unfold compare_pivot_, compare_. by rewrite Hp, Hb, comparator_total.
Defined.

#[local] Instance selector_pivot_kept : PivotKept (t T) cmp.
Proof. exact (ArraySorts.array_pivot_kept cmp comparator comparator_total). Qed.

Lemma array_select_ok {CO : CmpOrder cmp} random_range P L Q k :
  (forall from i, from <= i -> from <= random_range from i <= i) ->
  length P <= k < length P + length L -> (Z.of_nat (length P + length L) <= i32_MAX)%Z ->
  exists M, select random_range comparator (P ++ L ++ Q) (length P) (length P + length L) k = (Ok tt, P ++ M ++ Q)
    /\ selected cmp M (k - length P) /\ M ≡ₚ L.
Proof.
  intros Hr Hk Hmax. unfold select, IntroSelector.select, IntroSelector.check_args.
  destruct (Nat.ltb_spec k (length P)); [lia|]. destruct (Nat.leb_spec (length P + length L) k); [lia|].
  rewrite slift_sbind. cbn beta iota.
  destruct (select_loop_ok cmp random_range Hr k (Datatypes.S (length P + length L - length P))
    (2 * Z.of_nat (Nat.log2 (length P + length L - length P))) P L Q (new (P ++ L ++ Q)) (length P) (length P + length L))
    as (M & (s' & Hs & Ha) & HM & Hp); auto; [lia|].
  exists M. split; [|done]. cbn in Ha. unfold the_selector in Hs. by rewrite Hs, Ha.
Qed.
End Proofs.

(** C32: [ArrayUtil::select] puts the [k]-th element of the range at slot [k]: whatever the
    shuffle draws, it returns [Ok]; the range holds the same elements, none before slot [k] is
    greater than the element there and none after is less; the other slots are as they were. *)
Theorem select_partitions_around_k {T : Type} (cmp : T -> T -> Z) (comparator : T -> T -> result Z)
    (random_range : nat -> nat -> nat) (P L Q : list T) (k : nat) :
  CmpOrder cmp -> (forall a b, comparator a b = Ok (cmp a b)) ->
  (forall from i, from <= i -> from <= random_range from i <= i) ->
  length P <= k < length P + length L -> (Z.of_nat (length P + length L) <= i32_MAX)%Z ->
  exists A x C, select random_range comparator (P ++ L ++ Q) (length P) (length P + length L) k = (Ok tt, P ++ (A ++ x :: C) ++ Q)
    /\ length P + length A = k /\ (forall a, a ∈ A -> le cmp a x) /\ (forall c, c ∈ C -> le cmp x c) /\ A ++ x :: C ≡ₚ L.
Proof.
  intros CO Hc Hr Hk Hmax. destruct (array_select_ok cmp comparator Hc random_range P L Q k Hr Hk Hmax) as (M & Hs & Hsel & Hp).
  destruct Hsel as (A & x & C & -> & Hl & HA & HC). exists A, x, C. split_and!; auto. lia.
Qed.

Lemma select_partitions_around_k_witness : exists A x C,
  select (fun from _ => from) ArraySorts.key_comparator ([] ++ ArraySorts.sample ++ []) 0 23 11 = (Ok tt, [] ++ (A ++ x :: C) ++ [])
  /\ 0 + length A = 11 /\ (forall a, a ∈ A -> le ArraySorts.by_key a x) /\ (forall c, c ∈ C -> le ArraySorts.by_key x c)
  /\ A ++ x :: C ≡ₚ ArraySorts.sample.
Proof.
  refine (select_partitions_around_k ArraySorts.by_key ArraySorts.key_comparator (fun from _ => from) [] ArraySorts.sample [] 11 ArraySorts.by_key_order _ _ _ _).
  - intros a b. reflexivity.
  - intros from i Hi. lia.
  - cbn. lia.
  - vm_compute. congruence.
Defined.

(** Out-of-range arguments are refused. *)
Lemma select_rejects {T : Type} random_range (comparator : T -> T -> result Z) arr from to k : k < from \/ to <= k ->
  select random_range comparator arr from to k = (Err IllegalArgument, arr).
Proof.
  intros Hk. unfold select, IntroSelector.select, IntroSelector.check_args. rewrite slift_sbind.
  destruct (Nat.ltb_spec k from); [done|]. destruct (Nat.leb_spec to k); [done|lia].
Qed.
End ArraySelect.
